(* ===== verification/_CoqProject ===== *)
-Q . S2P
Prelude.v
PvmTypes.v
PvmEval.v
PvmEngine.v
PvmSeats.v
PvmLedger.v
PvmShowdown.v
PvmGame.v
PvmRank.v
PokerHand.v
PvmTable.v
ChanTypes.v
ChanState.v
ChanGame.v
ChanChips.v
ChanDispute.v
Tournament.v
Bracket.v
Registry.v
Bytes.v
RevHost.v
Revive.v
ReviveStep.v
ReviveSafe.v
Escrow.v
EscrowSafe.v
Merkle.v
EscrowShare.v
OrdMap.v
NarGov.v
NarForm.v
NarStake.v
NarBooks.v
NarElect.v
NarElected.v
NarBallot.v
NarTally.v
NarReplay.v
NarState.v
NarShares.v
LendTypes.v
LendActions.v
LendSafe.v
Margin.v
MarginSafe.v
Liquid.v
LiquidSafe.v
LendPrivacy.v
BatchTree.v
GF.v
BinField.v
BinFieldSafe.v
Zoda.v
FieldPoly.v
ZodaSafe.v
ReedSolomon.v
Pallet.v
ArbTypes.v
Arb.v
ArbShield.v
ArbStep.v
ArbSafe.v
ArbLife.v
ArbVss.v
BridgeApi.v
Bridge.v
BridgeSafe.v
Custody.v
CustodySafe.v
OsstCurve.v
Osst.v
Frost.v
Reshare.v
Liveness.v
Dkg.v
Nested.v
Jury.v
RedPallas.v
NarBft.v
