(* ===== verification/Prelude.v ===== *)
(** * Verification of the poker stack of zeratul

    The repository holds a poker stack: a deterministic game engine, an SDK with a
    second hand evaluator, an off-chain channel game with disputes, an on-chain
    contract that holds the deposits of a channel, another that arbitrates sales,
    and a server that runs tournaments; and under it a library of threshold cryptography that escrows a
    table's money with the players and a jury.  On the same cryptography stands a
    syndicate: people who hold a key together, own it in shares, stake, elect,
    vote and finalize blocks.  The chain beside them has a lending pool with
    leveraged trading and liquidations, and a parachain pallets that escrow and
    arbitrate sales, sign for the chains beyond and hold what is deposited there.  At the bottom lie the binary fields, hash trees and codes
    that share secrets and commit to data.  This library models these parts
    after the Rust sources under [src/] and proves what makes each of them
    correct.

    ** The program and the files

    - [poker-pvm/src/lib.rs], the engine.  [GameState] holds one table: stacks,
      bets, contributions, pot, seat states, phase, button and turn.  [deal] opens
      a hand, [apply] takes one signed action, closing rounds and streets as it
      goes, [showdown] pays the side pots.  [PvmTypes] has the data, [PvmEval] the
      evaluator, [PvmEngine] one definition per method (long methods are cut into
      the steps of their bodies and their loops, composed as in the source),
      [PvmTable] the opponent counters and the browser wrapper.
    - [poker-sdk/src/hand.rs], cards, names and an evaluator for five to seven
      cards: [PokerHand], which also relates it to the engine's.
    - [state-channel/src/], the channel game: [types.rs] is [ChanTypes], [state.rs]
      is [ChanState], [transition.rs] is [ChanGame], [channel.rs] and [dispute.rs]
      are [ChanDispute].
    - [poker-server/src/tournament.rs], single-elimination tournaments and their
      registry: [Tournament] and [Registry].
    - [poker-channel-revive/src/main.rs], the PolkaVM contract: [RevHost] has the
      interface to the host, [Revive] every entry point, from
      call data to storage records, signed messages, events and transfers.  [Bytes]
      has the buffers and integers in bytes that it shares with later files.
    - [escrow-revive/src/main.rs], the escrow contract: [Escrow], on the same host.
    - [osst/src/], threshold cryptography.  [OsstCurve] has the interface to a
      curve ([curve.rs]), the errors ([error.rs]), byte strings and the batched
      Lagrange coefficients ([lagrange.rs]); [Osst] the one-step identification and
      its proofs ([lib.rs], [types.rs]); [Frost] two-round Schnorr signatures
      ([frost.rs]); [Reshare] dealers, players and the on-chain round of a
      resharing ([reshare.rs]); [Dkg] distributed key generation ([dkg.rs]);
      [Nested] groups that hold one share of an outer key ([nested.rs]);
      [RedPallas] the escrow of two players and a jury and its dispute protocol
      ([redpallas.rs]); [Liveness] the signed proofs that a dealer follows the chain
      ([liveness.rs]).
    - [poker-server/src/jury.rs], the server's local jury: [Jury].
    - [narsil/src/], the syndicate.  [NarGov]: shares, rules, weighted proposals and
      distributions ([governance.rs]) and the formation of a syndicate
      ([formation.rs]).  [NarStake]: staking pools ([staking.rs]).  [NarElect]: the
      election of validators and their custody shares ([election.rs]).  [NarBallot]:
      sealed ballots ([ballot.rs]).  [NarReplay]: sequence numbers ([replay.rs]).
      [NarState]: transitions, nullifiers and the state manager ([state.rs],
      [wire.rs]).  [NarShares]: numbered shares and signed proposals ([shares.rs],
      [proposal.rs]).  [NarBft]: rounds whose certificate is an [Osst] proof
      ([bft.rs]).  [OrdMap] is the order in which a [BTreeMap] is walked and the sums
      over its entries.
    - [zeratul-blockchain/src/lending/], the lending pool.  [LendTypes]: amounts,
      ratios, prices, interest, pools, risk limits and the health of a position
      ([types.rs]).  [LendActions]: supply, withdraw, borrow, repay and collateral
      ([actions.rs]).  [Margin]: leveraged orders executed in batches at one price
      ([margin.rs]).  [Liquid]: liquidations ([liquidation.rs]) and the threshold
      signatures under them ([zeratul-blockchain/src/frost.rs]).  [LendPrivacy]:
      positions under commitments and nullifiers ([privacy.rs]).
    - [zanchor/pallets/escrow-arbitration/src/], the arbitration pallet.  [Pallet] has
      what the framework gives to a pallet: origins, reserved balances, bounded lists,
      transactional calls.  [ArbTypes]: storage, events, errors.  [Arb]: the calls on
      escrows, agents, arbitrators, signing requests and disputes ([lib.rs]).
      [ArbShield]: the shielded calls with their shares and ring signatures
      ([shielded_v1.rs]), the dispatch of calls and the end of a block.
    - [zanchor/pallets/frost-bridge/src/lib.rs], the signing bridge: [Bridge], key generation,
      signing requests, liveness and the circuit breaker.  [BridgeApi] is the trait through
      which other pallets ask it, a class with [Bridge]'s instance.
    - [zanchor/pallets/custody/src/lib.rs], the custody: [Custody], deposits, withdrawals and
      checkpoints, over any implementation of [BridgeApi] and of the assets.
    - [src/binary-fields/src/], polynomials over two elements and the fields made of
      them: [BinField], over the library [GF] of such fields.  [FieldPoly] is the
      library of polynomials over a field.
    - [src/merkle-tree/src/], hash trees opened in batches: [BatchTree].  [Merkle] is the
      library of hash trees and their paths.
    - [src/reed-solomon/src/], the additive transform and the code: [ReedSolomon].
    - [ligerito-escrow/src/], secret sharing with a committed dealer: [Zoda].

    The engine settles hands that a channel plays; the contract never sees the
    engine's state, only its hash, and pays what all players have signed.  The
    tournament server keeps its own accounts.  The parts therefore meet in data,
    not in calls, and each is proved against the interface it really has: the
    contract against the classes [Storage] and [Host], the channel against the
    functions it takes for encoding and hashing.  Within the syndicate a ballot is
    opened over the result of an election and a round is verified as a list of
    contributions; there the models call one another as the code does.

    ** What is proved

    - [PvmSeats], [PvmLedger], [PvmShowdown], [PvmGame]: the engine.  [PvmLedger]
      is the refinement behind the chip theorems: an abstract ledger of stacks,
      pot, bets, contributions and rake, kept by every operation.  [PvmGame] makes
      the table a transition system and proves, of every reachable table, that
      chips are conserved, that a showdown ends and pays the pot out, who may be
      paid and how much, where the turn goes, when a street may end, how small a
      raise may be; and exhibits two reachable tables where the code goes wrong.
    - [PvmRank]: the score of five cards orders hands exactly as the rules of
      poker, stated independently, and the best of seven is the best of its
      five-card hands.  [PokerHand]: the SDK's evaluator agrees with the engine's
      on five cards, and not on all sevens.
    - [ChanChips], [ChanDispute]: what every channel action does to the chips, who
      acts next, on what evidence a dispute is won; and the actions that break the
      rules of the game.
    - [Bracket], [Registry]: the flat list of matches implements a binary tree of
      rounds; a tournament never stalls and ends with a champion; stakes, sponsors
      and authorisation.
    - [ReviveStep], [ReviveSafe]: every successful call to the contract is one of
      five changes to its records, so that the contract can pay what its records owe, settlements
      and state updates carry every player's signature, agreed states never go
      back, settled games stay settled; and when deposits are locked for good, or
      never recorded, which is the case on a host of the documented byte order.
    - [EscrowSafe], [EscrowShare]: the escrow contract implements a state machine, on
      which the life of every escrow has one of seven shapes; its answers do not depend
      on the third share before a dispute is resolved; a share verifies exactly
      with its path in the committed tree; and what the contract does not do.
    - [Osst], [Frost]: enough honest contributions verify, one wrong response is
      rejected, honest signers produce a verifying signature, and so does every
      list of shares that passes the check, once per signer, if the signers are a
      threshold; proofs survive their
      encoding; a package does not depend on the order of the commitments.
    - [Reshare], [Dkg]: a sub-share passes exactly when it is on the committed
      polynomial, whatever a player finalizes fits the public commitments, honest
      rounds keep or create a key whose shares then sign; and two players who
      combined different dealers do not share a key.
    - [Nested], [Jury], [RedPallas]: an inner group answers for its outer share,
      the local jury's signatures verify, an escrow can always be settled by one
      player and the jury, and a dispute ends in a signature of the settlement the
      player submitted, whatever the verdict.  [Liveness]: what a dealer signs is
      accepted exactly when the checkpoint is recent and its proof verifies; the
      bytes of a proof are read back.
    - [NarForm], [NarBooks], [NarElected], [NarTally]: money and votes of the
      syndicate.  A formation hands out all hundred shares and a distribution the
      whole amount; votes pass by the shares behind them, which however can move and
      vote again.  Over any history staking is worth no more than was paid in, the
      rake counted twice, and the second counting is needed.  An election conserves
      the stake of every nominator, and custody hands out its two hundred shares.  A
      ballot counts the votes that were committed, a validator's less the stakes of
      the nominators who committed, and no stake twice, as long as
      each voter keeps to one secret; with two they vote twice.
    - [NarReplay], [NarState], [NarShares], [NarBft]: no message is accepted twice;
      transitions are read back from their bytes and no share votes twice on a
      proposal; a list of shares counts its distinct ones, and a proposal's hash does not
      cover what the proposal does; an honest round finalizes, whoever contributed
      first, and one bad contribution stops it.

    - [LendSafe]: at fixed prices what a borrower does with success leaves the debt
      covered by the collateral; over any history interest is charged to the pool and to
      no borrower, and what suppliers can take back is less by it.  [MarginSafe]:
      the one price of a batch stays within the slippage allowed, and a batch accounts
      for each of its orders and for all it borrows; it also lends what is not there.
      [LiquidSafe]: the penalty falls from the largest to the smallest, a batch
      liquidates each position once, only a quorum of those who committed to it finalizes
      a batch, and what exactly gets a proposal accepted, which is little.

    - [ArbStep], [ArbSafe], [ArbLife]: every block of the arbitration pallet is made of
      effects on single escrows; over any history the reserved deposits are accounted
      for, disputes are decided by a majority of the votes, each of another account, and only
      the party an escrow waits for moves it, in a dispute a registered arbitrator whose vote
      decides; a buyer whose list is full stays locked out.
      [ArbVss]: two of three shares reconstruct, and what the ring signatures and
      nullifiers of the pallet do not do.
    - [BridgeSafe]: over any history a request is signed by as many different signers as the
      threshold says and by nobody else, and an active bridge has a live quorum at the end of
      a block; and where key generation, reports and the breaker go wrong.  [CustodySafe]:
      the tokens in circulation and those asked back make up what was minted, a withdrawal
      is paid by at most one checkpoint, one that finds the list full is lost; and, on the
      chain that runs both pallets, nothing is taken in without a live committee.
    - [BinFieldSafe]: the elements of 16, 32 and 128 bits are fields, with multiplication
      and inverses as the code computes them; those of 64 bits are not; division of
      polynomials ends with quotient and remainder.
    - [BatchTree]: every batch of leaves opens, and what opens is in the tree.
      [ReedSolomon]: the encoder is systematic, its words are the values of one
      polynomial of the length of the message, and the transforms are inverse.
    - [ZodaSafe]: enough shares reconstruct, shares that verify were
      dealt, fewer shares are consistent with every secret in equally many ways.

    ** Conventions

    Machine integers are values in [Z] of a stated width.  The release profiles
    leave overflow checks off, so unchecked arithmetic is [wadd], [wsub], [wmul];
    [saturating_*] is [sat_*] and [checked_*] tests the bound.  Seat indices are
    [nat].  Fixed arrays are lists of their length.  A [Result] is [result], a
    panic or a trap is [None] or its own outcome, a revert is a value.  Records are
    updated with [s <| f := v |>].  A [HashMap] is a [gmap]; where the code walks
    it in its unspecified order the model's result does not depend on an order.

    The side-pot loop of the engine has no bound in the source.  Its model takes
    fuel, [showdown_fuel], one more than the number of seats; [showdown_settles]
    shows that this is enough on every reachable table, because each iteration
    but the last exhausts some seat's contribution.  The
    reduction of a price by Euclid's algorithm takes [gcd_fuel], 257 steps: two of
    them halve the second of two numbers below 2^128, and [gcd_enough] proves the
    result the greatest common divisor.  The divisions and reductions of [BinField]
    take the width of their operand, each step clearing its highest bit; the trees of
    [Zoda] and [BatchTree] and the transform of [ReedSolomon] the number of their leaves,
    which is halved by each level; the results that depend on them are proved of
    the values they return.  All other loops are
    structural: over seats, cards, signatures, payouts, matches, members, orders, proofs or
    the seats of an election.

    Code outside the repository is a parameter.  SCALE encoding and [blake3] are
    arguments of the channel's definitions; SHA-256 is the class [Sha256] of the
    syndicate's, free of collisions where a theorem says so (the witnesses take an
    injective function) and of the liquidations', BLAKE3 an argument of the draw of a
    delegate.  The contract's [Host] gives call data,
    [keccak256], the [ecrecover] precompile and the way 256-bit numbers pass
    through buffers; the contract takes these for big-endian, the documented
    order is little-endian: the theorem about money covers both ([host_order]), the witnesses
    about what is paid take the first; those about the
    escrow contract assume that the host copies what fits into a zeroed buffer
    ([host_fills], [host_copies]).  Transfers
    succeed or fail as the environment says; the calls that make them do not allow
    reentry, so nothing happens between them.  A call that reverts or traps changes
    nothing.

    The pallets' balances are a class [Currency] with its laws, their assets a
    class [Assets] with its laws, their chain the class [Runtime]; a call that fails changes nothing.  The trait of binary fields is the class
    [BinaryFieldElement]; theorems about codes and shares are proved against its laws,
    [BinaryFieldLaws] and [U32Elements], and the elements of [BinField] are their
    instances, so that the theorems hold of them without a further assumption.

    The cryptography is written over any field and module of points.  The class
    [Curve] has the operations of the traits [OsstScalar] and [OsstPoint] and the
    hashes; [CurveLaws] says that the generator is not zero, that multi-scalar
    multiplication is the sum of the products, and that no positive [u32] is zero
    in the field; [CurveCodec] that encodings decode.  These files
    use MathComp and do not load this prelude; [OsstCurve] is their base.  Nonces and
    coefficients that the code draws are arguments, so the theorems hold of every
    draw.  Fuel is nowhere needed in them: all loops run over lists.

    The election's loads are [f64]s; the model computes them with the Standard
    Library's [SpecFloat] at the width of the code, and the theorems hold whatever
    order of the candidates they produce.  Keys, hashes and names of the syndicate
    are numbers where the code only compares them and bytes where it hashes them.

    The engine's transition system deals when no pot is open and two seats are
    funded, and lets seats sit out or in between hands only: the code checks
    neither, and outside this discipline it can wrap or lose a turn.

    ** What is not modelled

    Floating-point statistics and the strategy trainer; JSON and single-field
    getters; the allocator and panic handler of the contracts; networking, storage
    and user interfaces.  Of [osst], the curve backends call external crates; the
    server's other jury talks to a network.  Of [narsil], the relays, wallets,
    ceremonies and clients around the modelled rules.  Of the lending modules, the
    proofs they carry without reading them, decryption and the searches that are
    placeholders in the code; [application_with_lending.rs] calls them with fields they
    do not have, and is no client that could be modelled.  The instructions behind
    [cfg] for carry-less multiplication are the processor's; the model has the
    portable code.  The prover and verifier of [src/ligerito] are a prototype in which honest
    proofs do not verify, and have no contract to prove.  The shuffle arguments,
    the key ceremonies and the vaults are built on curves and
    proof systems of other crates, the servers, relays, clients and chain nodes on
    networks and consensus engines; what they add to the modelled rules is input
    and output.

    This file is the base of the library: record update, results, machine integers
    and the lemmas on lists the components share. *)
From stdpp Require Import base list strings sets.
From Stdlib Require Import ZArith Lia Sorting.Sorted Sorting.Permutation.

Local Open Scope Z_scope.

(** * Record update

    [s <| f := v |>] is the record [s] with field [f] replaced, the way the
    Rust code writes [self.f = v].  Each record declares how it is eta-expanded
    once ([Eta]); the setter of a field is derived from it. *)

Class Eta (R : Type) := eta_expand : R → R.

Class SetField {R E : Type} (proj : R → E) := set_field : E → R → R.
Arguments set_field {R E} proj {_} _ _ /.

Ltac derive_setter :=
  match goal with
  | |- @SetField ?R ?E ?proj =>
      let f := constr:(fun (v : E) (r : R) => ltac:(
        let i := constr:(_ : Eta R) in
        let h := eval hnf in i in
        let e := eval cbv beta in (h r) in
        lazymatch (eval pattern (proj r) in e) with
        | ?g _ => let t := eval cbv beta in (g v) in exact t
        end)) in
      exact f
  end.

#[export] Hint Extern 1 (SetField _) => derive_setter : typeclass_instances.

(** The notations of the development. *)
Declare Scope rust_scope.
Delimit Scope rust_scope with rust.
#[global] Open Scope rust_scope.

Notation "s <| f := v |>" := (set_field f v s)
  (at level 1, left associativity, f at level 0, v at level 200,
   format "s  <| f  :=  v |>") : rust_scope.

(** * Results

    [Result<T, E>] of the Rust code. *)

Inductive result (T E : Type) : Type :=
| Ok (t : T)
| Err (e : E).
Arguments Ok {T E} t.
Arguments Err {T E} e.

Definition is_ok {T E} (r : result T E) : bool :=
  match r with Ok _ => true | Err _ => false end.

Notation "'let?' x ':=' c 'in' k" :=
  (match c with Ok x => k | Err e => Err e end)
  (at level 10, x pattern, c at level 100, k at level 200) : rust_scope.

(** * Machine integers

    An unsigned [w]-bit integer is its value in [Z]; arithmetic that can wrap
    in a build without overflow checks reduces modulo [2^w]. *)

Definition wrap (w x : Z) : Z := x mod 2 ^ w.
Definition wadd (w a b : Z) : Z := wrap w (a + b).
Definition wsub (w a b : Z) : Z := wrap w (a - b).
Definition wmul (w a b : Z) : Z := wrap w (a * b).
Definition umax (w : Z) : Z := 2 ^ w - 1.
Definition sat_sub (a b : Z) : Z := Z.max 0 (a - b).
Definition sat_add (w a b : Z) : Z := Z.min (umax w) (a + b).
Definition sat_mul (w a b : Z) : Z := Z.min (umax w) (a * b).

(** [x] is the value of an unsigned [w]-bit integer. *)
Definition fits (w x : Z) : Prop := 0 ≤ x < 2 ^ w.

#[global] Instance fits_dec w x : Decision (fits w x).
Proof. unfold fits. apply _. Defined.

Lemma wrap_small w x : fits w x → wrap w x = x.
Proof. apply Z.mod_small. Qed.

Lemma wrap_fits w x : 0 ≤ w → fits w (wrap w x).
Proof. intros. apply Z.mod_pos_bound. lia. Qed.

Lemma wadd_small w a b : 0 ≤ a + b < 2 ^ w → wadd w a b = a + b.
Proof. apply Z.mod_small. Qed.

Lemma wsub_small w a b : 0 ≤ b ≤ a → a < 2 ^ w → wsub w a b = a - b.
Proof. intros. apply Z.mod_small. lia. Qed.

Lemma wmul_small w a b : 0 ≤ a * b < 2 ^ w → wmul w a b = a * b.
Proof. apply Z.mod_small. Qed.

(** * Lists *)

(** [iter().position(p)] *)
Fixpoint position {A} (p : A → bool) (l : list A) : option nat :=
  match l with
  | [] => None
  | x :: l' => if p x then Some 0%nat else S <$> position p l'
  end.

(** [iter().find(p)] *)
Fixpoint find_first {A} (p : A → bool) (l : list A) : option A :=
  match l with
  | [] => None
  | x :: l' => if p x then Some x else find_first p l'
  end.

(** [iter().filter(p).count()] *)
Definition count_if {A} (p : A → bool) (l : list A) : nat := length (List.filter p l).

(** Ascending insertion sort: the value of [sort_unstable] on integers. *)
Fixpoint insert_asc (x : Z) (l : list Z) : list Z :=
  match l with
  | [] => [x]
  | y :: l' => if x <=? y then x :: l else y :: insert_asc x l'
  end.
Definition sort_asc (l : list Z) : list Z := foldr insert_asc [] l.

(** Descending order, as obtained from [sort] followed by [reverse], or from
    [sort_by(|a, b| b.cmp(a))] on integers. *)
Definition sort_desc (l : list Z) : list Z := rev (sort_asc l).

(** [dedup()]: drops consecutive repetitions. *)
Fixpoint dedup (l : list Z) : list Z :=
  match l with
  | x :: (y :: _) as l' => if x =? y then dedup l' else x :: dedup l'
  | _ => l
  end.

(** [iter().max().unwrap_or(0)] on unsigned integers. *)
Fixpoint max_or_0 (l : list Z) : Z :=
  match l with [] => 0 | x :: l' => Z.max x (max_or_0 l') end.

(** The exact sum of a list of integers. *)
Fixpoint zsum (l : list Z) : Z :=
  match l with [] => 0 | x :: l' => x + zsum l' end.

(** [Option::is_some] *)
Definition is_Some_b {A} (o : option A) : bool := match o with Some _ => true | None => false end.

(** ** Lemmas on lists of integers *)

Lemma zsum_app l1 l2 : zsum (l1 ++ l2) = zsum l1 + zsum l2.
Proof. induction l1 as [|x l1 IH]; cbn; [done|]. rewrite IH. lia. Qed.

Lemma zsum_replicate n x : zsum (replicate n x) = Z.of_nat n * x.
Proof. induction n as [|n IH]; cbn -[Z.of_nat]; [lia|]. rewrite IH. lia. Qed.

Lemma zsum_insert (l : list Z) i x :
  (i < length l)%nat → zsum (<[i := x]> l) = zsum l - l !!! i + x.
Proof.
  revert i. induction l as [|y l IH]; intros i Hi; [cbn in Hi; lia|].
  destruct i as [|i]; [cbn; lia|].
  change (y + zsum (<[i := x]> l) = y + zsum l - l !!! i + x).
  rewrite IH; cbn in Hi; lia.
Qed.

(** A sum over distinct indices when only the term at [x] changes. *)
Lemma zsum_update `{EqDecision A} (f f' : A → Z) x l :
  NoDup l → (∀ y, y ∈ l → y ≠ x → f' y = f y) →
  zsum (map f' l) = zsum (map f l) + (if decide (x ∈ l) then f' x - f x else 0).
Proof.
  intros Hnd Hf. induction l as [|y l IH]; [done|].
  apply NoDup_cons in Hnd as [Hy Hnd]. cbn [map zsum].
  rewrite IH by (done || (intros; apply Hf; [by right|done])). destruct (decide (y = x)) as [->|Hne].
  - rewrite (decide_False (P := x ∈ l)), decide_True by (done || left). lia.
  - rewrite (Hf y) by (done || left).
    destruct (decide (x ∈ l)), (decide (x ∈ y :: l)) as [Hx|Hx]; try lia.
    + destruct Hx. by right.
    + apply elem_of_cons in Hx as [->|Hx]; done.
Qed.

Lemma zsum_map_le {A} (f g : A → Z) l : (∀ x, x ∈ l → f x ≤ g x) → zsum (map f l) ≤ zsum (map g l).
Proof.
  induction l as [|x l IH]; intros Hf; [done|]. cbn [map zsum].
  pose proof (Hf x ltac:(left)). specialize (IH ltac:(intros; apply Hf; by right)). lia.
Qed.

Lemma zsum_nonneg l : Forall (Z.le 0) l → 0 ≤ zsum l.
Proof. induction 1; cbn; lia. Qed.

Lemma zsum_map_zero {A} (f : A → Z) l : (∀ x, x ∈ l → f x = 0) → zsum (map f l) = 0.
Proof.
  induction l as [|x l IH]; intros Hf; cbn [map zsum]; [done|].
  rewrite (Hf x (list_elem_of_here _ _)), IH; [done|]. intros y Hy. by apply Hf, list_elem_of_further.
Qed.

Lemma nonneg_lookup (l : list Z) i :
  Forall (Z.le 0) l → (i < length l)%nat → 0 ≤ l !!! i.
Proof.
  intros Hl Hi. apply (Forall_lookup_total_1 _ _ _ Hl Hi).
Qed.

Lemma zsum_lookup_le (l : list Z) i :
  Forall (Z.le 0) l → (i < length l)%nat → l !!! i ≤ zsum l.
Proof.
  intros Hl. revert i. induction Hl as [|x l Hx Hl IH]; intros i Hi; [cbn in Hi; lia|].
  pose proof (zsum_nonneg l Hl). destruct i as [|i]; [cbn; lia|].
  change (l !!! i ≤ x + zsum l). specialize (IH i). cbn in Hi. lia.
Qed.

Lemma zsum_two_le (l : list Z) i j :
  Forall (Z.le 0) l → i ≠ j → (i < length l)%nat → (j < length l)%nat →
  l !!! i + l !!! j ≤ zsum l.
Proof.
  intros Hl Hij Hi Hj.
  pose proof (zsum_insert l i 0 Hi) as E.
  assert (Forall (Z.le 0) (<[i := 0]> l)) as Hl' by (apply Forall_insert; [done|lia]).
  pose proof (zsum_lookup_le _ j Hl' ltac:(by rewrite length_insert)) as L.
  rewrite list_lookup_total_insert_ne in L by done. lia.
Qed.

Lemma nonneg_insert (l : list Z) i x :
  Forall (Z.le 0) l → 0 ≤ x → Forall (Z.le 0) (<[i := x]> l).
Proof. intros. by apply Forall_insert. Qed.

Lemma nonneg_replicate n x : 0 ≤ x → Forall (Z.le 0) (replicate n x).
Proof. intros. by apply Forall_replicate. Qed.

(** Lists without negative entries: [auto with zlist]. *)
Create HintDb zlist.
#[export] Hint Resolve nonneg_insert nonneg_replicate nonneg_lookup zsum_nonneg : zlist.
#[export] Hint Extern 2 (Z.le _ _) => lia : zlist.
#[export] Hint Extern 2 (lt _ _) => first [lia | congruence] : zlist.

Lemma lookup_total_replicate_in {A} `{!Inhabited A} n (x : A) i :
  (i < n)%nat → replicate n x !!! i = x.
Proof. intros. by rewrite lookup_total_replicate_2. Qed.

Lemma map_lookup_total {A B} `{!Inhabited A, !Inhabited B} (f : A → B) (l : list A) i :
  (i < length l)%nat → map f l !!! i = f (l !!! i).
Proof.
  revert i. induction l as [|x l IH]; intros i Hi; cbn in Hi; [lia|].
  destruct i as [|i]; [done|]. apply (IH i). lia.
Qed.

Lemma max_or_0_nonneg l : 0 ≤ max_or_0 l.
Proof. induction l; cbn; lia. Qed.

Lemma max_or_0_ge (l : list Z) x : x ∈ l → x ≤ max_or_0 l.
Proof. induction 1; cbn; lia. Qed.

Lemma max_or_0_lookup_take (l : list Z) n i :
  (i < n)%nat → (i < length l)%nat → l !!! i ≤ max_or_0 (take n l).
Proof.
  intros Hn Hl. apply max_or_0_ge. apply list_elem_of_lookup. exists i.
  rewrite lookup_take_lt by done. by apply list_lookup_lookup_total_lt.
Qed.

(** ** Searching and counting *)

Lemma count_if_le {A} (p : A → bool) l : (count_if p l ≤ length l)%nat.
Proof. unfold count_if. induction l as [|x l IH]; cbn; [done|]. destruct (p x); cbn; lia. Qed.

Lemma count_if_none {A} (p : A → bool) l : (∀ x, x ∈ l → p x = false) → count_if p l = 0%nat.
Proof.
  intros H. unfold count_if. induction l as [|x l IH]; cbn; [done|].
  rewrite H by (by left). apply IH. intros. apply H. by right.
Qed.

Lemma count_if_pos {A} (p : A → bool) l : (0 < count_if p l)%nat ↔ ∃ x, x ∈ l ∧ p x = true.
Proof.
  unfold count_if. split.
  - destruct (List.filter p l) as [|x l'] eqn:E; cbn; [lia|]. intros _.
    assert (In x (List.filter p l)) as H by (rewrite E; by left).
    apply filter_In in H as [??]. exists x. by rewrite list_elem_of_In.
  - intros (x & Hx & Hp). assert (In x (List.filter p l)) as H.
    { apply filter_In. by rewrite <-list_elem_of_In. }
    destruct (List.filter p l); [done|cbn; lia].
Qed.

Lemma count_if_two {A} (p : A → bool) l :
  (2 ≤ count_if p l)%nat → NoDup l → ∃ x y, x ∈ l ∧ y ∈ l ∧ x ≠ y ∧ p x = true ∧ p y = true.
Proof.
  unfold count_if. intros H Hnd.
  assert (NoDup (List.filter p l)) as Hf.
  { apply NoDup_ListNoDup, List.NoDup_filter. by apply NoDup_ListNoDup. }
  destruct (List.filter p l) as [|x [|y l']] eqn:E; cbn in H; [lia|lia|].
  assert (∀ z, In z (x :: y :: l') → z ∈ l ∧ p z = true) as Hin.
  { intros z Hz. rewrite <-E in Hz. apply filter_In in Hz. by rewrite list_elem_of_In. }
  destruct (Hin x) as [? ?]; [by left|]. destruct (Hin y) as [? ?]; [right; by left|].
  exists x, y. split_and!; [done..| |done|done].
  apply NoDup_cons in Hf as [Hf _]. set_solver.
Qed.

Lemma count_if_ext {A} (p q : A → bool) l :
  (∀ x, x ∈ l → p x = q x) → count_if p l = count_if q l.
Proof.
  intros H. unfold count_if. f_equal. apply List.filter_ext_in.
  intros a Ha. apply H. by apply list_elem_of_In.
Qed.

Lemma count_if_mono {A} (p q : A → bool) l :
  (∀ x, x ∈ l → p x = true → q x = true) → (count_if p l ≤ count_if q l)%nat.
Proof.
  unfold count_if. induction l as [|x l IH]; intros H; cbn; [done|].
  assert (p x = true → q x = true) by (apply H; left).
  assert (length (List.filter p l) ≤ length (List.filter q l))%nat
    by (apply IH; intros; apply H; [by right|done]).
  destruct (p x), (q x); cbn; naive_solver lia.
Qed.

Lemma count_if_all {A} (p : A → bool) l : (∀ x, x ∈ l → p x = true) → count_if p l = length l.
Proof.
  unfold count_if. induction l as [|x l IH]; intros H; cbn; [done|].
  rewrite H by left. cbn. f_equal. apply IH. intros. apply H. by right.
Qed.

Lemma count_if_perm {A} (p : A → bool) (l k : list A) : l ≡ₚ k → count_if p l = count_if p k.
Proof.
  intros H. unfold count_if. induction H as [|x l k _ IH|x y l|l1 l2 l3 _ IH1 _ IH2]; cbn; [done| | |congruence].
  - destruct (p x); cbn; congruence.
  - by destruct (p x), (p y).
Qed.

Lemma count_if_map {A B} (p : B → bool) (f : A → B) l :
  count_if p (map f l) = count_if (fun x => p (f x)) l.
Proof. unfold count_if. induction l as [|x l IH]; cbn; [done|]. destruct (p (f x)); cbn; lia. Qed.

Lemma forallb_perm {A} (p : A → bool) (l k : list A) : l ≡ₚ k → forallb p l = forallb p k.
Proof.
  induction 1 as [|x l k _ IH|x y l|l1 l2 l3 _ IH1 _ IH2]; cbn; [done| | |congruence].
  - by rewrite IH.
  - destruct (p x), (p y); done.
Qed.

Lemma forallb_ext {A} (p q : A → bool) l : (∀ x, p x = q x) → forallb p l = forallb q l.
Proof. intros H. induction l as [|x l IH]; cbn; [done|]. by rewrite H, IH. Qed.

Lemma find_first_Some {A} (p : A → bool) l x : find_first p l = Some x → x ∈ l ∧ p x = true.
Proof.
  induction l as [|y l IH]; cbn; [done|]. destruct (p y) eqn:E.
  - intros [= ->]. split; [left|done].
  - intros H. destruct (IH H). split; [by right|done].
Qed.

Lemma find_first_None {A} (p : A → bool) l : find_first p l = None ↔ ∀ x, x ∈ l → p x = false.
Proof.
  induction l as [|y l IH]; cbn; [set_solver|]. destruct (p y) eqn:E.
  - split; [done|]. intros H. rewrite H in E by left. done.
  - rewrite IH. split; [|set_solver]. intros H x [->|Hx]%elem_of_cons; auto.
Qed.

Lemma find_first_exists {A} (p : A → bool) l x :
  x ∈ l → p x = true → ∃ y, find_first p l = Some y.
Proof.
  intros Hx Hp. destruct (find_first p l) eqn:E; [eauto|].
  rewrite find_first_None in E. by rewrite E in Hp.
Qed.

Lemma insert_total {A} `{!Inhabited A} (l : list A) i j x :
  (i < length l)%nat → <[i := x]> l !!! j = if decide (i = j) then x else l !!! j.
Proof.
  intros. case_decide as E.
  - subst. by apply list_lookup_total_insert_eq.
  - by apply list_lookup_total_insert_ne.
Qed.

Lemma list_eq_total {A} `{!Inhabited A} (l k : list A) :
  length l = length k → (∀ j, (j < length l)%nat → l !!! j = k !!! j) → l = k.
Proof.
  intros Hl H. apply list_eq_same_length with (length k); [done|done|].
  intros j x y Hj Hx Hy. apply list_lookup_total_correct in Hx, Hy. subst.
  symmetry. rewrite <-H by lia. done.
Qed.

(** Growing a list pointwise grows no entry by more than the sum. *)
Lemma zsum_gap (l l' : list Z) :
  length l = length l' → (∀ j, (j < length l)%nat → l !!! j ≤ l' !!! j) →
  zsum l ≤ zsum l' ∧ ∀ j, (j < length l)%nat → l' !!! j - l !!! j ≤ zsum l' - zsum l.
Proof.
  revert l'. induction l as [|x l IH]; intros [|y l'] Hlen Hle; try discriminate Hlen.
  { split; [done|cbn; lia]. }
  destruct (IH l') as [H1 H2]; [by injection Hlen| |].
  { intros j Hj. apply (Hle (S j)). cbn. lia. }
  pose proof (Hle 0%nat ltac:(cbn; lia)) as H0. change (x ≤ y) in H0.
  split; [cbn; lia|]. intros [|j] Hj.
  - change (y - x ≤ y + zsum l' - (x + zsum l)). lia.
  - change (l' !!! j - l !!! j ≤ y + zsum l' - (x + zsum l)).
    specialize (H2 j). cbn in Hj. lia.
Qed.

Lemma count_if_lt {A} (p q : A → bool) l x :
  (∀ y, y ∈ l → p y = true → q y = true) → x ∈ l → q x = true → p x = false →
  (count_if p l < count_if q l)%nat.
Proof.
  unfold count_if. induction l as [|y l IH]; intros H Hx Hq Hp; [by apply elem_of_nil in Hx|].
  assert (length (List.filter p l) ≤ length (List.filter q l))%nat as Hle.
  { clear - H. induction l as [|z l IH]; cbn; [done|].
    assert (p z = true → q z = true) by (apply H; right; left).
    assert (length (List.filter p l) ≤ length (List.filter q l))%nat.
    { apply IH. intros w Hw. apply H. apply elem_of_cons in Hw as [->|Hw]; [left|by right; right]. }
    destruct (p z), (q z); cbn; naive_solver lia. }
  assert (p y = true → q y = true) as Hy by (apply H; left).
  cbn. apply elem_of_cons in Hx as [->|Hx].
  - rewrite Hq, Hp. cbn. lia.
  - assert (length (List.filter p l) < length (List.filter q l))%nat.
    { apply IH; [|done..]. intros. apply H; [by right|done]. }
    destruct (p y), (q y); cbn; naive_solver lia.
Qed.

Lemma position_Some {A} (p : A → bool) l k :
  position p l = Some k → ∃ x, l !! k = Some x ∧ p x = true.
Proof.
  revert k. induction l as [|x l IH]; intros k; cbn; [done|].
  destruct (p x) eqn:E; [intros [= <-]; by exists x|].
  destruct (position p l) as [k'|]; [|done]. intros [= <-]. by apply IH.
Qed.

Lemma position_None {A} (p : A → bool) l : position p l = None ↔ ∀ x, x ∈ l → p x = false.
Proof.
  induction l as [|x l IH]; cbn; [split; [intros _ x Hx; by apply elem_of_nil in Hx|done]|].
  destruct (p x) eqn:E.
  - split; [done|]. intros H. rewrite H in E by left. done.
  - split.
    + intros H. assert (position p l = None) as Hn by (by destruct (position p l)).
      intros y Hy. apply elem_of_cons in Hy as [Hy|Hy]; [by subst|by apply IH].
    + intros H. assert (position p l = None) as Hn by (apply IH; intros; apply H; by right).
      by rewrite Hn.
Qed.

Lemma count_if_full {A} (p : A → bool) l :
  count_if p l = length l ↔ ∀ x, x ∈ l → p x = true.
Proof.
  split; [|apply count_if_all]. unfold count_if. induction l as [|x l IH]; cbn; intros H y Hy.
  { by apply elem_of_nil in Hy. }
  pose proof (count_if_le p l) as Hle. unfold count_if in Hle.
  destruct (p x) eqn:E; cbn in H; [|lia].
  apply elem_of_cons in Hy as [->|Hy]; [done|]. apply IH; [lia|done].
Qed.

(** A fold whose steps commute does not depend on the order of the list. *)
Lemma foldl_perm {A B} (f : A → B → A) (l k : list B) (a : A) :
  (∀ a x y, f (f a x) y = f (f a y) x) → l ≡ₚ k → foldl f a l = foldl f a k.
Proof.
  intros Hf H. revert a. induction H as [|x l k _ IH|x y l|l1 l2 l3 _ IH1 _ IH2]; intros a; cbn.
  - done.
  - apply IH.
  - by rewrite Hf.
  - by rewrite IH1.
Qed.

(** Counters incremented in a loop count. *)
Lemma foldl_counts {A} (g : A → nat) (l : list A) n i :
  (i < n)%nat →
  foldl (fun f x => alter (Z.add 1) (g x) f) (replicate n 0) l !!! i
  = Z.of_nat (count_if (fun x => g x =? i)%nat l).
Proof.
  intros Hi.
  assert (∀ l (c : list Z), length c = n →
            length (foldl (fun f x => alter (Z.add 1) (g x) f) c l) = n) as Hlen.
  { intros k. induction k as [|x k IH]; intros c Hc; cbn; [done|].
    apply IH. by rewrite length_alter. }
  induction l as [|x l IH] using rev_ind.
  { cbn. by apply lookup_total_replicate_2. }
  rewrite foldl_app. cbn [foldl]. specialize (Hlen l (replicate n 0) (length_replicate _ _)).
  set (c := foldl _ _ l) in *. unfold count_if in *. rewrite List.filter_app, length_app. cbn [List.filter].
  destruct (Nat.eqb_spec (g x) i) as [E|E]; cbn [length].
  - rewrite E. rewrite list_lookup_total_alter_eq by lia. rewrite IH. lia.
  - rewrite list_lookup_total_alter_ne by done. rewrite IH. lia.
Qed.

(** ** Sorting *)

Lemma insert_asc_perm x l : insert_asc x l ≡ₚ x :: l.
Proof.
  induction l as [|y l IH]; cbn; [done|]. destruct (x <=? y); [done|].
  rewrite IH. apply Permutation_swap.
Qed.

Lemma sort_asc_perm l : sort_asc l ≡ₚ l.
Proof. induction l as [|x l IH]; cbn; [done|]. by rewrite insert_asc_perm, IH. Qed.

Lemma sort_desc_perm l : sort_desc l ≡ₚ l.
Proof. unfold sort_desc. by rewrite <-Permutation_rev, sort_asc_perm. Qed.

Lemma insert_asc_sorted x l : StronglySorted Z.le l → StronglySorted Z.le (insert_asc x l).
Proof.
  induction 1 as [|y l Hl IH Hy]; cbn; [by repeat constructor|].
  destruct (Z.leb_spec x y).
  - constructor; [by constructor|]. constructor; [done|].
    eapply Forall_impl; [exact Hy|]. intros. lia.
  - constructor; [done|]. rewrite insert_asc_perm. constructor; [lia|done].
Qed.

Lemma sort_asc_sorted l : StronglySorted Z.le (sort_asc l).
Proof. induction l as [|x l IH]; cbn; [constructor|]. by apply insert_asc_sorted. Qed.

(** A sorted list is determined by its elements. *)
Lemma sorted_perm_eq l k :
  StronglySorted Z.le l → StronglySorted Z.le k → l ≡ₚ k → l = k.
Proof.
  intros Hl. revert k. induction Hl as [|x l Hl IH Hx]; intros k Hk Hp.
  { by apply Permutation_nil in Hp. }
  destruct Hk as [|y k Hk Hy]; [by apply Permutation_sym, Permutation_nil in Hp|].
  assert (x = y) as ->.
  { assert (In x (y :: k)) as H1 by (by eapply Permutation_in; [exact Hp|left]).
    assert (In y (x :: l)) as H2 by (by eapply Permutation_in; [symmetry; exact Hp|left]).
    rewrite Forall_forall in Hx, Hy.
    destruct H1 as [H1|H1]; [done|]. destruct H2 as [H2|H2]; [done|].
    apply list_elem_of_In in H1, H2. specialize (Hx y H2). specialize (Hy x H1). lia. }
  f_equal. apply IH; [done|]. by apply Permutation_cons_inv in Hp.
Qed.

Lemma sort_asc_perm_eq l k : l ≡ₚ k → sort_asc l = sort_asc k.
Proof.
  intros H. apply sorted_perm_eq; [apply sort_asc_sorted..|]. by rewrite !sort_asc_perm.
Qed.

Lemma sort_desc_perm_eq l k : l ≡ₚ k → sort_desc l = sort_desc k.
Proof. intros H. unfold sort_desc. by rewrite (sort_asc_perm_eq l k H). Qed.

(** [l] descends from at most [m] to at least 0. *)
Fixpoint descends (m : Z) (l : list Z) : Prop :=
  match l with [] => True | x :: l' => 0 ≤ x ≤ m ∧ descends x l' end.

Lemma descends_snoc m l x :
  descends m l → Forall (Z.le x) l → 0 ≤ x ≤ m → descends m (l ++ [x]).
Proof.
  revert m. induction l as [|y l IH]; intros m; cbn; [done|].
  intros [? ?] Hx ?. apply Forall_cons in Hx as [? ?]. split; [done|].
  apply IH; [done|done|lia].
Qed.

Lemma sort_desc_descends m l : Forall (fun x => 0 ≤ x ≤ m) l → descends m (sort_desc l).
Proof.
  intros H. unfold sort_desc. rewrite <-(sort_asc_perm l) in H.
  induction (sort_asc_sorted l) as [|x k _ IH Hx]; [done|].
  apply Forall_cons in H as [? ?]. cbn. apply descends_snoc; [by apply IH| |done].
  by rewrite <-Permutation_rev.
Qed.

(** Invariants of a [for] loop written as a left fold. *)
Lemma foldl_ind {A B} (P : list B → A → Prop) (f : A → B → A) (l : list B) (a : A) :
  P l a → (∀ x l' a, P (x :: l') a → P l' (f a x)) → P [] (foldl f a l).
Proof.
  intros H0 Hstep. revert a H0. induction l as [|x l IH]; cbn; intros a Ha; [done|].
  apply IH. by apply Hstep.
Qed.

Lemma foldl_inv {A B} (P : A → Prop) (f : A → B → A) (l : list B) (a : A) :
  P a → (∀ x a, x ∈ l → P a → P (f a x)) → P (foldl f a l).
Proof.
  revert a. induction l as [|x l IH]; cbn; intros a Ha Hstep; [done|].
  apply IH; [apply Hstep; [left|done]|]. intros y b Hy. apply Hstep. by right.
Qed.
