(* ===== verification/PvmTypes.v ===== *)
(** Data of the poker engine, [crates/poker-pvm/src/lib.rs]: phases, actions,
    seat states, table rules, the result of an action and [GameState].

    A [u8] or [usize] that only ever indexes a seat is a [nat]; the other
    integers are values of their width in [Z].  A fixed array
    [[T; MAX_SEATS]] is a list of that length. *)
From stdpp Require Import base list strings sets.
From Stdlib Require Import ZArith Lia.
From S2P Require Import Prelude.

Local Open Scope Z_scope.

Definition MAX_SEATS : nat := 10.
Definition MAX_COMMUNITY : nat := 5.

Module Phase.
Inductive Phase :=
| Negotiate | Escrow | Preflop | Flop | Turn | River | Showdown | Settled.
End Phase.
Abbreviation Phase := Phase.Phase.
#[global] Instance Phase_eq_dec : EqDecision Phase.
Proof. solve_decision. Defined.
#[global] Instance Phase_inhabited : Inhabited Phase := populate Phase.Negotiate.

(** [phase as u8] *)
Definition Phase_to_u8 (p : Phase) : Z :=
  match p with
  | Phase.Negotiate => 0 | Phase.Escrow => 1 | Phase.Preflop => 2 | Phase.Flop => 3
  | Phase.Turn => 4 | Phase.River => 5 | Phase.Showdown => 6 | Phase.Settled => 7
  end.

Module Action.
Inductive Action := Fold | Check | Call | Bet | Raise | AllIn.
End Action.
Abbreviation Action := Action.Action.
#[global] Instance Action_eq_dec : EqDecision Action.
Proof. solve_decision. Defined.

Definition Action_from_u8 (v : Z) : option Action :=
  match v with
  | 0 => Some Action.Fold | 1 => Some Action.Check | 2 => Some Action.Call
  | 3 => Some Action.Bet | 4 => Some Action.Raise | 5 => Some Action.AllIn
  | _ => None
  end.

Module SeatState.
Inductive SeatState := Empty | Active | SittingOut | Folded | AllIn.
End SeatState.
Abbreviation SeatState := SeatState.SeatState.
#[global] Instance SeatState_eq_dec : EqDecision SeatState.
Proof. solve_decision. Defined.
#[global] Instance SeatState_inhabited : Inhabited SeatState := populate SeatState.Empty.

Definition SeatState_to_u8 (st : SeatState) : Z :=
  match st with
  | SeatState.Empty => 0 | SeatState.Active => 1 | SeatState.SittingOut => 2
  | SeatState.Folded => 3 | SeatState.AllIn => 4
  end.

(** The 64-byte signature is carried by the message but never read by the
    engine. *)
Record SignedAction := mkSignedAction {
  sa_seat : nat;
  sa_action : Action;
  sa_amount : Z;
  sa_seq : Z;
  sa_sig : list Z;
}.

Record Rules := mkRules {
  buyin : Z;
  small_blind : Z;
  big_blind : Z;
  turn_timeout_blocks : Z;
  rake_bps : Z;
  rake_cap : Z;
}.

Definition Rules_default : Rules := mkRules 1000 5 10 6 0 0.

Record ActionResult := mkActionResult {
  ar_valid : bool;
  ar_hand_over : bool;
  ar_winner : nat;
  ar_payout : Z;
  ar_advance_phase : bool;
}.

Record GameState := mkGameState {
  phase : Phase;
  rules : Rules;
  num_players : nat;
  hand_number : Z;
  button : nat;
  stacks : list Z;
  pot : Z;
  bets : list Z;
  contributed : list Z;
  seat_state : list SeatState;
  cards : list (Z * Z);
  community : list Z;
  community_count : Z;
  acting_seat : nat;
  round_actions : Z;
  last_aggressor : nat;
  last_raise_size : Z;
  action_count : Z;
  last_action_hash : list Z;
  rake : Z;
}.

#[export] Instance GameState_eta : Eta GameState := fun s =>
  mkGameState (phase s) (rules s) (num_players s) (hand_number s) (button s)
    (stacks s) (pot s) (bets s) (contributed s) (seat_state s) (cards s)
    (community s) (community_count s) (acting_seat s) (round_actions s)
    (last_aggressor s) (last_raise_size s) (action_count s) (last_action_hash s)
    (rake s).

(** The seats of a table, in index order: [0..self.num_players as usize]. *)
Definition seats (s : GameState) : list nat := seq 0 (num_players s).

(** [[x; MAX_SEATS]] *)
Definition seat_array {A} (x : A) : list A := replicate MAX_SEATS x.
