(* ===== verification/PvmEval.v ===== *)
(** Hand evaluation of the poker engine, [crates/poker-pvm/src/lib.rs]:
    [eval_5], its helpers, and the best five cards out of seven.

    A card is a [u8], rank [c % 13] and suit [c / 13]; scores are [u32] whose
    fields never meet, so no shift of [eval_5] loses a bit. *)
From stdpp Require Import base list sets.
From Stdlib Require Import ZArith Lia.
From S2P Require Import Prelude.

Local Open Scope Z_scope.

Definition HIGH_CARD : Z := 0.
Definition PAIR : Z := 1.
Definition TWO_PAIR : Z := 2.
Definition TRIPS : Z := 3.
Definition STRAIGHT : Z := 4.
Definition FLUSH : Z := 5.
Definition FULL_HOUSE : Z := 6.
Definition QUADS : Z := 7.
Definition STRAIGHT_FLUSH : Z := 8.

Infix "<<" := Z.shiftl (at level 45, left associativity) : Z_scope.
Infix "|||" := Z.lor (at level 50, left associativity) : Z_scope.

Definition kicker_score (ranks : list Z) : Z :=
  (ranks !!! 0%nat) << 16 ||| (ranks !!! 1%nat) << 12 ||| (ranks !!! 2%nat) << 8
  ||| (ranks !!! 3%nat) << 4 ||| (ranks !!! 4%nat).

Definition is_straight_check (sorted_desc : list Z) : bool :=
  (sat_sub (sorted_desc !!! 0%nat) (sorted_desc !!! 4%nat) =? 4)
  && negb ((sorted_desc !!! 0%nat) =? (sorted_desc !!! 1%nat))
  && negb ((sorted_desc !!! 1%nat) =? (sorted_desc !!! 2%nat))
  && negb ((sorted_desc !!! 2%nat) =? (sorted_desc !!! 3%nat))
  && negb ((sorted_desc !!! 3%nat) =? (sorted_desc !!! 4%nat)).

(** [freq[r as usize] += 1] for every rank. *)
Definition rank_freq (ranks : list Z) : list Z :=
  foldl (fun f r => <[Z.to_nat r := (f !!! Z.to_nat r) + 1]> f) (replicate 13 0) ranks.

(** The locals of [eval_5] that its loop over the ranks fills. *)
Record RankScan := mkRankScan {
  quads_rank : Z;
  trips_rank : Z;
  pairs : list Z;
  pair_count : nat;
  kickers : list Z;
  kick_idx : nat;
}.
#[export] Instance RankScan_eta : Eta RankScan := fun s =>
  mkRankScan (quads_rank s) (trips_rank s) (pairs s) (pair_count s) (kickers s) (kick_idx s).

Definition scan_rank (freq : list Z) (s : RankScan) (r : Z) : RankScan :=
  match freq !!! Z.to_nat r with
  | 4 => s <| quads_rank := r + 1 |>
  | 3 => s <| trips_rank := r + 1 |>
  | 2 => if (pair_count s <? 2)%nat
         then s <| pairs := <[pair_count s := r + 1]> (pairs s) |> <| pair_count := S (pair_count s) |>
         else s
  | 1 => if (kick_idx s <? 5)%nat
         then s <| kickers := <[kick_idx s := r]> (kickers s) |> <| kick_idx := S (kick_idx s) |>
         else s
  | _ => s
  end.

(** [(0..13u8).rev()] *)
Definition ranks_desc : list Z := [12; 11; 10; 9; 8; 7; 6; 5; 4; 3; 2; 1; 0].

Definition scan_ranks (ranks : list Z) : RankScan :=
  foldl (scan_rank (rank_freq ranks))
    (mkRankScan 0 0 [0; 0] 0 [0; 0; 0; 0; 0] 0) ranks_desc.

(** [eval_5] once the ranks are sorted in descending order and the suits have
    been compared. *)
Definition eval_ranks (ranks : list Z) (is_flush : bool) : Z :=
  let is_straight := is_straight_check ranks in
  let is_wheel := bool_decide (ranks = [12; 3; 2; 1; 0]) in
  if is_flush && (is_straight || is_wheel) then
    (STRAIGHT_FLUSH << 20) ||| (if is_wheel then 3 else ranks !!! 0%nat)
  else
    let s := scan_ranks ranks in
    let p i := pairs s !!! i in
    let k i := kickers s !!! i in
    if 0 <? quads_rank s then
      (QUADS << 20) ||| ((quads_rank s - 1) << 4) ||| k 0%nat
    else if (0 <? trips_rank s) && (0 <? pair_count s)%nat then
      (FULL_HOUSE << 20) ||| ((trips_rank s - 1) << 4) ||| (p 0%nat - 1)
    else if is_flush then (FLUSH << 20) ||| kicker_score ranks
    else if is_straight then (STRAIGHT << 20) ||| (ranks !!! 0%nat)
    else if is_wheel then (STRAIGHT << 20) ||| 3
    else if 0 <? trips_rank s then
      (TRIPS << 20) ||| ((trips_rank s - 1) << 8) ||| (k 0%nat << 4) ||| k 1%nat
    else if (2 <=? pair_count s)%nat then
      (TWO_PAIR << 20) ||| ((p 0%nat - 1) << 8) ||| ((p 1%nat - 1) << 4) ||| k 0%nat
    else if (pair_count s =? 1)%nat then
      (PAIR << 20) ||| ((p 0%nat - 1) << 12) ||| (k 0%nat << 8) ||| (k 1%nat << 4) ||| k 2%nat
    else (HIGH_CARD << 20) ||| kicker_score ranks.

Definition eval_5 (hand : list Z) : Z :=
  let ranks := sort_desc (map (fun c => c mod 13) hand) in
  let suits := map (fun c => c / 13) hand in
  let is_flush :=
    ((suits !!! 0%nat) =? (suits !!! 1%nat)) && ((suits !!! 1%nat) =? (suits !!! 2%nat))
    && ((suits !!! 2%nat) =? (suits !!! 3%nat)) && ((suits !!! 3%nat) =? (suits !!! 4%nat)) in
  eval_ranks ranks is_flush.

(** The five cards left when positions [i] and [j] are dropped from seven. *)
Definition drop_two (all7 : list Z) (i j : nat) : list Z :=
  map (fun k => all7 !!! k) (List.filter (fun k => negb (k =? i)%nat && negb (k =? j)%nat) (seq 0 7)).

(** The pairs [i < j] of [for i in 0..7 { for j in (i + 1)..7 { .. } }]. *)
Definition index_pairs : list (nat * nat) :=
  flat_map (fun i => map (pair i) (seq (i + 1) (7 - (i + 1)))) (seq 0 7).

Definition best_of_7 (all7 : list Z) : Z :=
  foldl (fun best ij => let score := eval_5 (drop_two all7 ij.1 ij.2) in
                        if best <? score then score else best) 0 index_pairs.

Definition best_hand_7 (hole : Z * Z) (community : list Z) : Z :=
  best_of_7 (hole.1 :: hole.2 :: map (fun i => community !!! i) (seq 0 5)).

Example eval_5_royal : eval_5 [8; 9; 10; 11; 12] = STRAIGHT_FLUSH * 2 ^ 20 + 12.
Proof. reflexivity. Qed.
Example eval_5_two_pair : eval_5 [0; 13; 1; 14; 12] = TWO_PAIR * 2 ^ 20 + 1 * 256 + 0 * 16 + 12.
Proof. reflexivity. Qed.
