(* ===== verification/PvmEngine.v ===== *)
(** The poker engine, [impl GameState] of [crates/poker-pvm/src/lib.rs]: seat
    arithmetic, dealing, the action handler, bet equalisation, phase advance,
    rake and the showdown with side pots.

    Arithmetic on [u32]/[u8] fields wraps, as in a release build of the crate
    (its profile does not enable overflow checks). *)
From stdpp Require Import base list strings sets.
From Stdlib Require Import ZArith Lia.
From S2P Require Import Prelude PvmTypes PvmEval.

Local Open Scope Z_scope.

(** * Construction and seat arithmetic *)

Definition new (r : Rules) (players : nat) : GameState :=
  let n := Nat.max (Nat.min players MAX_SEATS) 2 in
  mkGameState Phase.Preflop r n 0 0
    (replicate n (buyin r) ++ replicate (MAX_SEATS - n) 0)
    0 (seat_array 0) (seat_array 0)
    (replicate n SeatState.Active ++ replicate (MAX_SEATS - n) SeatState.Empty)
    (seat_array (0, 0)) (replicate MAX_COMMUNITY 0) 0 0 0 255 (big_blind r) 0
    (replicate 32 0) 0.

(** [matches!(st, SeatState::Active | SeatState::AllIn)] *)
Definition is_live (st : SeatState) : bool :=
  match st with SeatState.Active | SeatState.AllIn => true | _ => false end.

Definition live (s : GameState) (i : nat) : bool := is_live (seat_state s !!! i).

(** [self.seat_state[i] == SeatState::Active && self.stacks[i] > 0] *)
Definition can_act (s : GameState) (i : nat) : bool :=
  bool_decide (seat_state s !!! i = SeatState.Active) && (0 <? stacks s !!! i).

Definition active_count (s : GameState) : nat := count_if (live s) (seats s).

(** The search loops of [next_active] and [next_active_in_round]: [n] probes
    around the ring starting at [s], [default] if none satisfies [p]. *)
Fixpoint scan_ring (p : nat → bool) (n fuel s default : nat) : nat :=
  match fuel with
  | O => default
  | S f => if p s then s else scan_ring p n f ((s + 1) mod n)%nat default
  end.

Definition next_active (s : GameState) (seat : nat) : nat :=
  let n := num_players s in
  scan_ring (live s) n n ((seat + 1) mod n)%nat seat.

Definition next_active_in_round (s : GameState) (after : nat) : nat :=
  let n := num_players s in
  scan_ring (can_act s) n n ((after + 1) mod n)%nat after.

(** The counting loop of [button_for_hand]. *)
Fixpoint nth_playable (playable : nat → bool) (idxs : list nat) (seen target : Z) : nat :=
  match idxs with
  | [] => 0%nat
  | i :: idxs' =>
      if playable i then
        if seen =? target then i else nth_playable playable idxs' (seen + 1) target
      else nth_playable playable idxs' seen target
  end.

Definition button_for_hand (s : GameState) : nat :=
  let count := count_if (live s) (seats s) in
  if (count =? 0)%nat then 0%nat
  else
    let target := wsub 64 (hand_number s) 1 mod Z.of_nat count in
    nth_playable (live s) (seats s) 0 target.

Definition sb_seat (s : GameState) : nat :=
  if (num_players s =? 2)%nat then button s else next_active s (button s).

Definition bb_seat (s : GameState) : nat := next_active s (sb_seat s).

Definition first_preflop (s : GameState) : nat :=
  if (num_players s =? 2)%nat then sb_seat s else next_active s (bb_seat s).

Definition first_postflop (s : GameState) : nat := next_active s (button s).

Definition sit_out (s : GameState) (seat : nat) : GameState :=
  if (seat <? num_players s)%nat
  then s <| seat_state := <[seat := SeatState.SittingOut]> (seat_state s) |>
  else s.

Definition sit_in (s : GameState) (seat : nat) : GameState :=
  if (seat <? num_players s)%nat && (0 <? stacks s !!! seat)
  then s <| seat_state := <[seat := SeatState.Active]> (seat_state s) |>
  else s.

(** [self.bets.iter().take(n).copied().max().unwrap_or(0)] *)
Definition max_bet (s : GameState) : Z := max_or_0 (take (num_players s) (bets s)).

(** * Bet equalisation *)

Definition bet_levels (s : GameState) : list Z :=
  dedup (sort_asc (map (fun i => bets s !!! i) (List.filter (live s) (seats s)))).

(** [max_contested] for a non-empty list of levels. *)
Definition max_contested (s : GameState) (levels : list Z) : Z :=
  if (2 <=? length levels)%nat then
    let highest := levels !!! (length levels - 1)%nat in
    let second := levels !!! (length levels - 2)%nat in
    let count_at_highest :=
      count_if (fun i => live s i && (bets s !!! i =? highest)) (seats s) in
    if (count_at_highest =? 1)%nat then second else highest
  else levels !!! 0%nat.

Definition return_excess (contested : Z) (s : GameState) (i : nat) : GameState :=
  if contested <? bets s !!! i then
    let excess := wsub 32 (bets s !!! i) contested in
    s <| stacks := <[i := wadd 32 (stacks s !!! i) excess]> (stacks s) |>
      <| pot := wsub 32 (pot s) excess |>
      <| contributed := <[i := sat_sub (contributed s !!! i) excess]> (contributed s) |>
  else s.

Definition equalize_bets (s : GameState) : GameState :=
  match bet_levels s with
  | [] => s <| bets := seat_array 0 |>
  | levels =>
      (foldl (return_excess (max_contested s levels)) s (seats s))
        <| bets := seat_array 0 |>
  end.

(** The skip to showdown shared by [deal], [apply] and [advance_phase]. *)
Definition skip_to_showdown (s : GameState) : GameState :=
  (equalize_bets s) <| phase := Phase.Showdown |> <| community_count := 5 |>.

(** [if self.stacks[seat] == 0 { self.seat_state[seat] = AllIn }] *)
Definition mark_broke (s : GameState) (seat : nat) : GameState :=
  if stacks s !!! seat =? 0
  then s <| seat_state := <[seat := SeatState.AllIn]> (seat_state s) |> else s.

(** * Dealing *)

(** The field resets at the start of [deal]. *)
Definition deal_reset (comm : list Z) (s : GameState) : GameState :=
  s <| hand_number := wadd 32 (hand_number s) 1 |>
    <| phase := Phase.Preflop |>
    <| community := comm |>
    <| community_count := 0 |>
    <| pot := 0 |>
    <| bets := seat_array 0 |>
    <| contributed := seat_array 0 |>
    <| round_actions := 0 |>
    <| last_aggressor := 255%nat |>
    <| action_count := 0 |>.

(** The body of the seat loop of [deal]. *)
Definition deal_seat (cards_in : list (Z * Z)) (s : GameState) (i : nat) : GameState :=
  let s1 :=
    match seat_state s !!! i with
    | SeatState.SittingOut | SeatState.Empty => s
    | _ =>
        if 0 <? stacks s !!! i
        then s <| seat_state := <[i := SeatState.Active]> (seat_state s) |>
        else s <| seat_state := <[i := SeatState.SittingOut]> (seat_state s) |>
    end in
  if (i <? length cards_in)%nat
  then s1 <| cards := <[i := cards_in !!! i]> (cards s1) |>
  else s1.

Definition post_blinds (s : GameState) : GameState :=
  let sb := sb_seat s in
  let bb := bb_seat s in
  let sb_amount := Z.min (small_blind (rules s)) (stacks s !!! sb) in
  let bb_amount := Z.min (big_blind (rules s)) (stacks s !!! bb) in
  let s := s <| stacks := <[sb := wsub 32 (stacks s !!! sb) sb_amount]> (stacks s) |> in
  let s := s <| stacks := <[bb := wsub 32 (stacks s !!! bb) bb_amount]> (stacks s) |> in
  let s := s <| bets := <[bb := bb_amount]> (<[sb := sb_amount]> (bets s)) |> in
  let s := s <| contributed := <[sb := wadd 32 (contributed s !!! sb) sb_amount]> (contributed s) |> in
  let s := s <| contributed := <[bb := wadd 32 (contributed s !!! bb) bb_amount]> (contributed s) |> in
  let s := s <| pot := wadd 32 sb_amount bb_amount |>
             <| last_raise_size := big_blind (rules s) |> in
  mark_broke (mark_broke s sb) bb.

(** The seats that can still act: [actors] of [deal]. *)
Definition actors (s : GameState) : list nat := List.filter (can_act s) (seats s).

(** The end of [deal]: first actor, and the skip to showdown when no betting
    is left. *)
Definition deal_first_actor (s : GameState) : GameState :=
  let s := s <| acting_seat := first_preflop s |> in
  let s := if can_act s (acting_seat s) then s
           else s <| acting_seat := next_active_in_round s (acting_seat s) |> in
  let no_pending_action :=
    match actors s with
    | [] => true
    | [a] => max_bet s <=? bets s !!! a
    | _ => false
    end in
  if no_pending_action then skip_to_showdown s else s.

Definition deal (s : GameState) (cards_in : list (Z * Z)) (comm : list Z) : GameState :=
  let s := deal_reset comm s in
  let s := foldl (deal_seat cards_in) s (seats s) in
  let s := s <| button := button_for_hand s |> in
  deal_first_actor (post_blinds s).

(** * Phases and rake *)

(** The resets at the start of a betting round. *)
Definition reset_round (s : GameState) : GameState :=
  s <| bets := seat_array 0 |> <| round_actions := 0 |>
    <| last_aggressor := 255%nat |>
    <| last_raise_size := big_blind (rules s) |>.

(** The [match self.phase] of [advance_phase]. *)
Definition next_street (s : GameState) : GameState :=
  match phase s with
  | Phase.Preflop => s <| phase := Phase.Flop |> <| community_count := 3 |>
  | Phase.Flop => s <| phase := Phase.Turn |> <| community_count := 4 |>
  | Phase.Turn => s <| phase := Phase.River |> <| community_count := 5 |>
  | Phase.River => s <| phase := Phase.Showdown |>
  | _ => s
  end.

(** First to act on the new street. *)
Definition street_actor (s : GameState) : GameState :=
  let s := s <| acting_seat := first_postflop s |> in
  if can_act s (acting_seat s) then s
  else
    (* [self.acting_seat.wrapping_sub(1)] on a [u8] *)
    let before := Z.to_nat (wsub 8 (Z.of_nat (acting_seat s)) 1) in
    s <| acting_seat := next_active_in_round s before |>.

Definition advance_phase (s : GameState) : GameState :=
  let s := reset_round s in
  let active_with_chips := count_if (can_act s) (seats s) in
  let s := next_street s in
  if (active_with_chips <=? 1)%nat && negb (bool_decide (phase s = Phase.Showdown))
  then skip_to_showdown s
  else street_actor s.

(** [(pot as u64 * rake_bps as u64 / 10000) as u32], capped. *)
Definition rake_of (r : Rules) (amount : Z) : Z :=
  if rake_bps r =? 0 then 0
  else
    let rk := wrap 32 (wmul 64 amount (rake_bps r) / 10000) in
    if 0 <? rake_cap r then Z.min rk (rake_cap r) else rk.

(** Returns the state and the pot after rake. *)
Definition collect_rake (s : GameState) : GameState * Z :=
  if rake_bps (rules s) =? 0 then (s, pot s)
  else
    let rk := rake_of (rules s) (pot s) in
    (s <| rake := wadd 32 (rake s) rk |>, wsub 32 (pot s) rk).

(** * Actions *)

Definition is_round_complete (s : GameState) (last_action : Action) : bool :=
  let active_non_allin := Z.of_nat (count_if (can_act s) (seats s)) in
  let all_matched :=
    forallb (fun i => bets s !!! i =? max_bet s) (List.filter (can_act s) (seats s)) in
  if negb all_matched then false
  else
    let was_passive :=
      match last_action with Action.Check | Action.Call => true | _ => false end in
    (active_non_allin <=? 1)
    || (was_passive && (Z.max active_non_allin 2 <=? round_actions s)).

Definition is_betting_phase (p : Phase) : bool :=
  match p with
  | Phase.Preflop | Phase.Flop | Phase.Turn | Phase.River => true
  | _ => false
  end.

(** The checks before the [match] of [apply]. *)
Definition apply_guard (s : GameState) (a : SignedAction) : option string :=
  if negb (is_betting_phase (phase s)) then Some "not in betting phase"%string
  else if (num_players s <=? sa_seat a)%nat then Some "invalid seat"%string
  else if negb (sa_seat a =? acting_seat s)%nat then Some "not your turn"%string
  else if negb (bool_decide (seat_state s !!! sa_seat a = SeatState.Active)) then
    Some "seat not active"%string
  else if negb (sa_seq a =? 0) && negb (sa_seq a =? wadd 32 (action_count s) 1) then
    Some "wrong sequence"%string
  else None.

(** The hand ends on a fold: the last live seat takes the pot, less rake. *)
Definition award_last (s : GameState) : GameState * ActionResult :=
  let winner := default 0%nat (find_first (live s) (seats s)) in
  let '(s, payout) := collect_rake s in
  (s <| stacks := <[winner := wadd 32 (stacks s !!! winner) payout]> (stacks s) |>
     <| pot := 0 |> <| contributed := seat_array 0 |> <| phase := Phase.Settled |>,
   mkActionResult true true winner payout false).

(** The [Action::Fold] arm, which returns from [apply]. *)
Definition apply_fold (s : GameState) (seat : nat) : GameState * ActionResult :=
  let s := s <| seat_state := <[seat := SeatState.Folded]> (seat_state s) |>
             <| action_count := wadd 32 (action_count s) 1 |> in
  if (active_count s =? 1)%nat then award_last s
  else
    (s <| acting_seat := next_active_in_round s seat |>,
     mkActionResult true false 255 0 false).

(** The four updates shared by the calling and betting arms: [amount] chips
    move from the stack of [seat] to its bet, its contribution and the pot. *)
Definition pay (s : GameState) (seat : nat) (amount : Z) : GameState :=
  s <| stacks := <[seat := wsub 32 (stacks s !!! seat) amount]> (stacks s) |>
    <| bets := <[seat := wadd 32 (bets s !!! seat) amount]> (bets s) |>
    <| contributed := <[seat := wadd 32 (contributed s !!! seat) amount]> (contributed s) |>
    <| pot := wadd 32 (pot s) amount |>.

(** A raise of at least the last increment becomes the new increment. *)
Definition note_raise (s : GameState) (raise_over : Z) : GameState :=
  if (last_raise_size s <=? raise_over) && (0 <? raise_over)
  then s <| last_raise_size := raise_over |> else s.

Definition apply_call (s : GameState) (seat : nat) : GameState :=
  let to_call := sat_sub (max_bet s) (bets s !!! seat) in
  let actual := Z.min to_call (stacks s !!! seat) in
  mark_broke (pay s seat actual) seat.

Definition apply_bet_raise (s : GameState) (seat : nat) (req : Z) : result GameState string :=
  if req =? 0 then Err "bet amount must be > 0"%string
  else
    let mb := max_bet s in
    let amount := Z.min req (stacks s !!! seat) in
    let all_in := amount =? stacks s !!! seat in
    let new_bet := wadd 32 (bets s !!! seat) amount in
    let to_call := sat_sub mb (bets s !!! seat) in
    let min_delta := if mb =? 0 then big_blind (rules s)
                     else wadd 32 to_call (last_raise_size s) in
    if negb all_in && (new_bet <=? mb) then Err "raise below minimum"%string
    else if negb all_in && (amount <? min_delta) then Err "raise below minimum"%string
    else
      let s := note_raise s (sat_sub new_bet mb) in
      Ok (mark_broke (pay s seat amount) seat).

Definition apply_all_in (s : GameState) (seat : nat) : GameState :=
  let mb := max_bet s in
  let amount := stacks s !!! seat in
  let s := s <| stacks := <[seat := 0]> (stacks s) |>
             <| bets := <[seat := wadd 32 (bets s !!! seat) amount]> (bets s) |>
             <| contributed := <[seat := wadd 32 (contributed s !!! seat) amount]> (contributed s) |>
             <| pot := wadd 32 (pot s) amount |>
             <| seat_state := <[seat := SeatState.AllIn]> (seat_state s) |> in
  note_raise s (sat_sub (bets s !!! seat) mb).

(** The arms of the [match] that fall through to the common tail. *)
Definition apply_effect (s : GameState) (a : SignedAction) : result GameState string :=
  let seat := sa_seat a in
  match sa_action a with
  | Action.Fold => Ok s
  | Action.Check =>
      if bets s !!! seat <? max_bet s then Err "cannot check when facing a bet"%string else Ok s
  | Action.Call => Ok (apply_call s seat)
  | Action.Bet | Action.Raise => apply_bet_raise s seat (sa_amount a)
  | Action.AllIn => Ok (apply_all_in s seat)
  end.

(** The common tail of [apply]. *)
Definition apply_finish (s : GameState) (a : SignedAction) : GameState * ActionResult :=
  let s := s <| action_count := wadd 32 (action_count s) 1 |>
             <| round_actions := wadd 8 (round_actions s) 1 |> in
  let s := match sa_action a with
           | Action.Bet | Action.Raise | Action.AllIn =>
               s <| last_aggressor := sa_seat a |> <| round_actions := 1 |>
           | _ => s
           end in
  if (count_if (can_act s) (seats s) =? 0)%nat then
    (skip_to_showdown s, mkActionResult true true 255 0 true)
  else
    let s := s <| acting_seat := next_active_in_round s (sa_seat a) |> in
    let s := if is_round_complete s (sa_action a) then advance_phase s else s in
    (s, mkActionResult true (bool_decide (phase s = Phase.Showdown)) 255 0
          (negb (bool_decide (phase s = Phase.Preflop)) || (0 <? community_count s))).

(** [apply]: the state after the call together with what it returns. *)
Definition apply (s : GameState) (a : SignedAction) : GameState * result ActionResult string :=
  match apply_guard s a with
  | Some e => (s, Err e)
  | None =>
      match sa_action a with
      | Action.Fold => let '(s, r) := apply_fold s (sa_seat a) in (s, Ok r)
      | _ =>
          match apply_effect s a with
          | Err e => (s, Err e)
          | Ok s => let '(s, r) := apply_finish s a in (s, Ok r)
          end
      end
  end.

(** * Showdown *)

(** [best_hand(seat)]: the method's own copy of the loop of [best_hand_7]. *)
Definition best_hand (s : GameState) (seat : nat) : Z :=
  let card := cards s !!! seat in
  best_of_7 (card.1 :: card.2 :: map (fun i => community s !!! i) (seq 0 5)).

(** [score] and [can_win]: only live seats are scored. *)
Definition showdown_scores (s : GameState) : list Z :=
  map (fun i => if (i <? num_players s)%nat && live s i then best_hand s i else 0)
    (seq 0 MAX_SEATS).
Definition showdown_can_win (s : GameState) : list bool :=
  map (fun i => (i <? num_players s)%nat && live s i) (seq 0 MAX_SEATS).

(** The mutable locals and fields of the side-pot loop. *)
Record Layers := mkLayers {
  ly_stacks : list Z;
  ly_remaining : list Z;
  ly_rake_owed : Z;
  ly_headline : option nat;
}.
#[export] Instance Layers_eta : Eta Layers := fun s =>
  mkLayers (ly_stacks s) (ly_remaining s) (ly_rake_owed s) (ly_headline s).

(** The smallest positive remaining contribution, [u32::MAX] if there is none. *)
Definition layer_level (n : nat) (remaining : list Z) : Z :=
  foldl (fun level i =>
    if (0 <? remaining !!! i) && (remaining !!! i <? level) then remaining !!! i else level)
    (umax 32) (seq 0 n).

(** Takes [level] from every seat with chips still in: membership, what is
    left, and the chips of the layer. *)
Definition peel_step (level : Z) (acc : list bool * list Z * Z) (i : nat) : list bool * list Z * Z :=
  let '(in_layer, rem, pot_amount) := acc in
  if 0 <? rem !!! i
  then (<[i := true]> in_layer, <[i := wsub 32 (rem !!! i) level]> rem, wadd 32 pot_amount level)
  else acc.

Definition peel_layer (n : nat) (level : Z) (remaining : list Z) : list bool * list Z * Z :=
  foldl (peel_step level) (seat_array false, remaining, 0) (seq 0 n).

(** The best score among eligible seats and who holds it. *)
Record Best := mkBest {
  b_best : Z;
  b_have_winner : bool;
  b_winners : list bool;
  b_winner_count : Z;
}.

Definition best_step (score : list Z) (can_win in_layer : list bool) (b : Best) (i : nat) : Best :=
  if negb (can_win !!! i) || negb (in_layer !!! i) then b
  else if negb (b_have_winner b) || (b_best b <? score !!! i) then
    mkBest (score !!! i) true (<[i := true]> (seat_array false)) 1
  else if score !!! i =? b_best b then
    mkBest (b_best b) (b_have_winner b) (<[i := true]> (b_winners b))
           (wadd 32 (b_winner_count b) 1)
  else b.

Definition layer_best (n : nat) (score : list Z) (can_win in_layer : list bool) : Best :=
  foldl (best_step score can_win in_layer) (mkBest 0 false (seat_array false) 0) (seq 0 n).

(** The best live hand overall, for a layer nobody eligible reached. *)
Definition fallback_step (score : list Z) (can_win : list bool)
    (acc : Z * option nat) (i : nat) : Z * option nat :=
  if can_win !!! i && (negb (is_Some_b acc.2) || (acc.1 <? score !!! i))
  then (score !!! i, Some i) else acc.

Definition fallback_seat (n : nat) (score : list Z) (can_win : list bool) : option nat :=
  (foldl (fallback_step score can_win) (0, None) (seq 0 n)).2.

Definition set_headline (h : option nat) (i : nat) : option nat :=
  match h with None => Some i | Some _ => h end.

(** Even split, odd chips to the first winner in seat order: stacks, headline
    and whether the next winner is the first. *)
Definition split_step (winners : list bool) (share remainder : Z)
    (acc : list Z * option nat * bool) (i : nat) : list Z * option nat * bool :=
  let '(st, headline, first) := acc in
  if (winners !!! i : bool)
  then (<[i := wadd 32 (st !!! i) (wadd 32 share (if first then remainder else 0))]> st,
        set_headline headline i, false)
  else acc.

Definition split_pot (n : nat) (winners : list bool) (share remainder : Z)
    (st : list Z) (headline : option nat) : list Z * option nat :=
  (foldl (split_step winners share remainder) (st, headline, true) (seq 0 n)).1.

(** One iteration of the side-pot loop; [None] is [break]. *)
Definition layer_step (n : nat) (score : list Z) (can_win : list bool) (l : Layers) : option Layers :=
  let level := layer_level n (ly_remaining l) in
  if level =? umax 32 then None
  else
    let '(in_layer, remaining, pot_amount) := peel_layer n level (ly_remaining l) in
    let l := l <| ly_remaining := remaining |> in
    if pot_amount =? 0 then Some l
    else
      let skim := if 0 <? ly_rake_owed l then Z.min (ly_rake_owed l) pot_amount else 0 in
      let pot_amount := wsub 32 pot_amount skim in
      let l := l <| ly_rake_owed := wsub 32 (ly_rake_owed l) skim |> in
      if pot_amount =? 0 then Some l
      else
        let b := layer_best n score can_win in_layer in
        if negb (b_have_winner b) then
          match fallback_seat n score can_win with
          | Some i =>
              Some (l <| ly_stacks := <[i := wadd 32 (ly_stacks l !!! i) pot_amount]> (ly_stacks l) |>
                      <| ly_headline := set_headline (ly_headline l) i |>)
          | None => Some l
          end
        else
          let share := pot_amount / b_winner_count b in
          let remainder := pot_amount mod b_winner_count b in
          let '(st, headline) :=
            split_pot n (b_winners b) share remainder (ly_stacks l) (ly_headline l) in
          Some (l <| ly_stacks := st |> <| ly_headline := headline |>).

(** The loop, [None] when the fuel runs out before [break]. *)
Fixpoint run_layers (fuel n : nat) (score : list Z) (can_win : list bool) (l : Layers) : option Layers :=
  match fuel with
  | O => None
  | S f =>
      match layer_step n score can_win l with
      | None => Some l
      | Some l' => run_layers f n score can_win l'
      end
  end.

(** Every iteration but the last empties a seat's remaining contribution. *)
Definition showdown_fuel : nat := S MAX_SEATS.

(** [total_pot]: the [u32] sum of the contributions. *)
Definition total_contributed (s : GameState) : Z :=
  wrap 32 (zsum (map (fun i => contributed s !!! i) (seats s))).

(** The state after the showdown and the headline winner. *)
Definition showdown (s : GameState) : option (GameState * nat) :=
  let rake_owed := rake_of (rules s) (total_contributed s) in
  let s := s <| rake := wadd 32 (rake s) rake_owed |> in
  let l0 := mkLayers (stacks s) (contributed s) rake_owed None in
  match run_layers showdown_fuel (num_players s) (showdown_scores s) (showdown_can_win s) l0 with
  | None => None
  | Some l =>
      Some (s <| stacks := ly_stacks l |> <| pot := 0 |> <| contributed := seat_array 0 |>
              <| phase := Phase.Settled |>,
            default 0%nat (ly_headline l))
  end.
