(* ===== verification/PvmSeats.v ===== *)
(** Seat arithmetic of the poker engine: what the ring searches return, the
    button, the blinds, and which seats a deal puts in play. *)
From stdpp Require Import base list strings sets.
From Stdlib Require Import ZArith Lia.
From S2P Require Import Prelude PvmTypes PvmEval PvmEngine.

Local Open Scope Z_scope.

(** * The ring search *)

Lemma scan_ring_first p n fuel s d k :
  (k < fuel)%nat → p ((s + k) mod n)%nat = true → (s < n)%nat →
  ∃ k0, (k0 ≤ k)%nat ∧ p ((s + k0) mod n)%nat = true
        ∧ (∀ k', (k' < k0)%nat → p ((s + k') mod n)%nat = false)
        ∧ scan_ring p n fuel s d = ((s + k0) mod n)%nat.
Proof.
  revert s k. induction fuel as [|f IH]; intros s k Hk Hp Hs; [lia|]. cbn.
  destruct (p s) eqn:E.
  { exists 0%nat. rewrite Nat.add_0_r, Nat.mod_small by done. split_and!; [lia|done|lia|done]. }
  destruct k as [|k].
  { rewrite Nat.add_0_r, Nat.mod_small in Hp by done. congruence. }
  assert (∀ j, (((s + 1) mod n + j) mod n = (s + S j) mod n)%nat) as Hmod.
  { intros j. rewrite Nat.Div0.add_mod_idemp_l. f_equal. lia. }
  destruct (IH ((s + 1) mod n)%nat k) as (k0 & Hk0 & Hp0 & Hmin & Hr).
  { lia. } { by rewrite Hmod. } { apply Nat.mod_upper_bound. lia. }
  exists (S k0). rewrite Hmod in Hp0, Hr. split_and!; [lia|done| |done].
  intros [|k'] Hk'; [by rewrite Nat.add_0_r, Nat.mod_small|].
  rewrite <-Hmod. apply Hmin. lia.
Qed.

Lemma scan_ring_lt p n fuel s d :
  (s < n)%nat → (d < n)%nat → (scan_ring p n fuel s d < n)%nat.
Proof.
  revert s. induction fuel as [|f IH]; intros s Hs Hd; cbn; [done|].
  destruct (p s); [done|]. apply IH; [apply Nat.mod_upper_bound; lia|done].
Qed.

(** Every seat [j] is [k] steps past [seat + 1] for some [k < n], and for
    [k < n - 1] unless it is [seat] itself. *)
Lemma ring_offset n seat j :
  (seat < n)%nat → (j < n)%nat →
  ∃ k, (k < n)%nat ∧ (((seat + 1) mod n + k) mod n = j)%nat ∧ (j ≠ seat → k < n - 1)%nat.
Proof.
  intros Hs Hj.
  destruct (decide (seat < j)%nat).
  - exists (j - seat - 1)%nat. split_and!; [lia| |lia].
    rewrite Nat.Div0.add_mod_idemp_l.
    replace (seat + 1 + (j - seat - 1))%nat with j by lia. by apply Nat.mod_small.
  - exists (n - 1 - (seat - j))%nat. split_and!; [lia| |lia].
    rewrite Nat.Div0.add_mod_idemp_l.
    replace (seat + 1 + (n - 1 - (seat - j)))%nat with (j + 1 * n)%nat by lia.
    rewrite Nat.Div0.mod_add. by apply Nat.mod_small.
Qed.

Lemma ring_not_self n seat k :
  (seat < n)%nat → (k < n - 1)%nat → (((seat + 1) mod n + k) mod n ≠ seat)%nat.
Proof.
  intros Hs Hk. rewrite Nat.Div0.add_mod_idemp_l.
  destruct (decide (seat + 1 + k < n)%nat).
  - rewrite Nat.mod_small by done. lia.
  - replace (seat + 1 + k)%nat with (seat + 1 + k - n + 1 * n)%nat by lia.
    rewrite Nat.Div0.mod_add, Nat.mod_small by lia. lia.
Qed.

(** The search from the seat after [seat] finds a seat satisfying [p] when
    there is one, and another seat than [seat] when there is another. *)
Lemma ring_search_spec p n seat j :
  (seat < n)%nat → (j < n)%nat → p j = true →
  let r := scan_ring p n n ((seat + 1) mod n)%nat seat in
  (r < n)%nat ∧ p r = true ∧ (j ≠ seat → r ≠ seat).
Proof.
  intros Hs Hj Hp r. destruct (ring_offset n seat j Hs Hj) as (k & Hk & Hkj & Hne).
  destruct (scan_ring_first p n n ((seat + 1) mod n)%nat seat k) as (k0 & Hle & Hp0 & _ & Hr).
  { done. } { by rewrite Hkj. } { apply Nat.mod_upper_bound. lia. }
  unfold r. rewrite Hr. split_and!; [apply Nat.mod_upper_bound; lia|done|].
  intros Hjs. apply ring_not_self; [done|]. specialize (Hne Hjs). lia.
Qed.

Lemma next_active_spec s seat j :
  (seat < num_players s)%nat → (j < num_players s)%nat → live s j = true →
  (next_active s seat < num_players s)%nat ∧ live s (next_active s seat) = true
  ∧ (j ≠ seat → next_active s seat ≠ seat).
Proof. apply ring_search_spec. Qed.

Lemma next_active_lt s seat :
  (seat < num_players s)%nat → (next_active s seat < num_players s)%nat.
Proof. intros. apply scan_ring_lt; [apply Nat.mod_upper_bound; lia|done]. Qed.

Lemma next_in_round_lt s seat :
  (seat < num_players s)%nat → (next_active_in_round s seat < num_players s)%nat.
Proof. intros. apply scan_ring_lt; [apply Nat.mod_upper_bound; lia|done]. Qed.

(** * Counting *)

Lemma elem_of_seats s i : i ∈ seats s ↔ (i < num_players s)%nat.
Proof. unfold seats. rewrite elem_of_seq. lia. Qed.

Lemma seats_nodup s : NoDup (seats s).
Proof. apply NoDup_seq. Qed.

(** * The button *)

Lemma nth_playable_in p l seen target :
  nth_playable p l seen target = 0%nat ∨ nth_playable p l seen target ∈ l.
Proof.
  revert seen. induction l as [|i l IH]; intros seen; cbn; [by left|].
  destruct (p i); [case_match|]; [right; by left|..].
  - destruct (IH (seen + 1)); [by left|right; by right].
  - destruct (IH seen); [by left|right; by right].
Qed.

Lemma nth_playable_hit p l seen target :
  seen ≤ target < seen + Z.of_nat (count_if p l) → p (nth_playable p l seen target) = true.
Proof.
  unfold count_if. revert seen. induction l as [|i l IH]; intros seen; cbn; [lia|].
  destruct (p i) eqn:E; cbn -[Z.of_nat]; intros H.
  - case_match eqn:Es; [done|]. apply Z.eqb_neq in Es. apply IH. lia.
  - by apply IH.
Qed.

Lemma button_lt s : (0 < num_players s)%nat → (button_for_hand s < num_players s)%nat.
Proof.
  intros. unfold button_for_hand. case_match; [done|].
  edestruct (nth_playable_in (live s) (seats s)) as [->|H1]; [done|].
  by apply elem_of_seats in H1.
Qed.

(** The button is a playable seat as soon as there is one. *)
Lemma button_live s :
  (0 < count_if (live s) (seats s))%nat → live s (button_for_hand s) = true.
Proof.
  intros H. unfold button_for_hand.
  rewrite (proj2 (Nat.eqb_neq _ _)) by lia. apply nth_playable_hit.
  pose proof (Z.mod_pos_bound (wsub 64 (hand_number s) 1) (Z.of_nat (count_if (live s) (seats s)))).
  lia.
Qed.

(** * The blinds *)

(** With two seats in play the blinds fall on two different seats. *)
Lemma blinds_distinct s :
  (2 ≤ count_if (live s) (seats s))%nat → (button s < num_players s)%nat →
  (sb_seat s < num_players s)%nat ∧ (bb_seat s < num_players s)%nat ∧ sb_seat s ≠ bb_seat s.
Proof.
  intros H2 Hb.
  assert (sb_seat s < num_players s)%nat as Hsb.
  { unfold sb_seat. case_match; [done|by apply next_active_lt]. }
  destruct (count_if_two _ _ H2 (seats_nodup s)) as (x & y & Hx & Hy & Hxy & Px & Py).
  rewrite elem_of_seats in Hx, Hy.
  assert (∃ j, (j < num_players s)%nat ∧ live s j = true ∧ j ≠ sb_seat s) as (j & Hj & Pj & Hne).
  { destruct (decide (x = sb_seat s)); [exists y|exists x]; split_and!; congruence || done. }
  destruct (next_active_spec s (sb_seat s) j Hsb Hj Pj) as (? & ? & Hn).
  split_and!; [done|done|]. unfold bb_seat. intros E. by apply (Hn Hne).
Qed.
