(* ===== verification/PvmLedger.v ===== *)
(** The chip ledger of a table: stacks, pot, bets, contributions and rake are
    well formed and account for a fixed number of chips.  Every operation of the
    engine that moves chips is shown to keep the ledger of the same total, with
    no [u32] operation wrapping. *)
From stdpp Require Import base list strings sets.
From Stdlib Require Import ZArith Lia.
From S2P Require Import Prelude PvmTypes PvmEval PvmEngine PvmSeats.

Local Open Scope Z_scope.

(** Well-formed accounts for [T] chips.  [u32::MAX] itself is excluded: the
    side-pot loop uses it as the sentinel for "nothing left". *)
Record Ledger (n : nat) (st : list Z) (p : Z) (b c : list Z) (rk T : Z) : Prop := {
  lg_n : (2 ≤ n ≤ MAX_SEATS)%nat;
  lg_len_st : length st = MAX_SEATS;
  lg_len_b : length b = MAX_SEATS;
  lg_len_c : length c = MAX_SEATS;
  lg_st : Forall (Z.le 0) st;
  lg_b : Forall (Z.le 0) b;
  lg_c : Forall (Z.le 0) c;
  lg_rk : 0 ≤ rk;
  lg_pot : p = zsum c;
  lg_bets : ∀ i, (i < MAX_SEATS)%nat → b !!! i ≤ c !!! i;
  lg_tail : ∀ i, (n ≤ i < MAX_SEATS)%nat → c !!! i = 0;
  lg_total : zsum st + p + rk = T;
  lg_bound : T < umax 32;
}.

Definition ledger (s : GameState) (T : Z) : Prop :=
  Ledger (num_players s) (stacks s) (pot s) (bets s) (contributed s) (rake s) T.

Record rules_ok (r : Rules) : Prop := {
  ro_small : 0 ≤ small_blind r;
  ro_big : 0 ≤ big_blind r;
  ro_bps : 0 ≤ rake_bps r ≤ 10000;
  ro_cap : 0 ≤ rake_cap r;
}.

Lemma umax32 : umax 32 = 2 ^ 32 - 1.
Proof. reflexivity. Qed.

(** Every account of a ledger is a [u32] below the sentinel. *)
Section bounds.
Context {n st p b c rk T} (L : Ledger n st p b c rk T).

Lemma lg_pot_nonneg : 0 ≤ p.
Proof. rewrite (lg_pot _ _ _ _ _ _ _ L). apply zsum_nonneg, (lg_c _ _ _ _ _ _ _ L). Qed.

Lemma lg_stack_range i : (i < MAX_SEATS)%nat → 0 ≤ st !!! i ≤ T.
Proof.
  intros Hi. destruct L. split; [auto with zlist|].
  assert (st !!! i ≤ zsum st) by (apply zsum_lookup_le; congruence).
  pose proof lg_pot_nonneg. lia.
Qed.

Lemma lg_contrib_range i : (i < MAX_SEATS)%nat → 0 ≤ c !!! i ≤ p.
Proof.
  intros Hi. destruct L. subst p. split; [auto with zlist|].
  apply zsum_lookup_le; congruence.
Qed.

Lemma lg_bet_range i : (i < MAX_SEATS)%nat → 0 ≤ b !!! i ≤ c !!! i.
Proof.
  intros Hi. destruct L. split; [auto with zlist|]. auto.
Qed.

Lemma lg_stack_pot i : (i < MAX_SEATS)%nat → st !!! i + p + rk ≤ T.
Proof.
  intros Hi. destruct L.
  assert (st !!! i ≤ zsum st) by (apply zsum_lookup_le; congruence). lia.
Qed.
End bounds.

(** Chips paid from a stack into the pot. *)
Lemma ledger_pay n st p b c rk T i a :
  Ledger n st p b c rk T → (i < n)%nat → 0 ≤ a ≤ st !!! i →
  Ledger n (<[i := wsub 32 (st !!! i) a]> st) (wadd 32 p a)
    (<[i := wadd 32 (b !!! i) a]> b) (<[i := wadd 32 (c !!! i) a]> c) rk T.
Proof.
  intros L Hi Ha.
  assert (i < MAX_SEATS)%nat as Hi' by (destruct L; lia).
  pose proof (lg_stack_range L i Hi'). pose proof (lg_contrib_range L i Hi').
  pose proof (lg_bet_range L i Hi'). pose proof (lg_stack_pot L i Hi').
  pose proof (lg_pot_nonneg L). pose proof umax32.
  destruct L.
  rewrite wsub_small, !wadd_small by lia.
  split; rewrite ?length_insert; try done.
  - auto with zlist.
  - auto with zlist.
  - auto with zlist.
  - rewrite zsum_insert by congruence. lia.
  - intros j Hj. rewrite !insert_total by congruence.
    case_decide; subst; [lia|auto].
  - intros j Hj. rewrite insert_total by congruence.
    case_decide; [lia|auto].
  - rewrite zsum_insert by congruence. lia.
Qed.

Lemma ledger_zero_bets n st p b c rk T :
  Ledger n st p b c rk T → Ledger n st p (seat_array 0) c rk T.
Proof.
  intros []. split; try done.
  - by apply nonneg_replicate.
  - intros i Hi. unfold seat_array. rewrite lookup_total_replicate_in by done.
    auto with zlist.
Qed.

(** Uncalled chips handed back. *)
Lemma ledger_return n st p c rk T i e :
  Ledger n st p (seat_array 0) c rk T → (i < n)%nat → 0 ≤ e ≤ c !!! i →
  Ledger n (<[i := wadd 32 (st !!! i) e]> st) (wsub 32 p e) (seat_array 0)
    (<[i := sat_sub (c !!! i) e]> c) rk T.
Proof.
  intros L Hi He.
  assert (i < MAX_SEATS)%nat as Hi' by (destruct L; lia).
  pose proof (lg_stack_range L i Hi'). pose proof (lg_contrib_range L i Hi').
  pose proof (lg_stack_pot L i Hi'). pose proof umax32.
  destruct L. unfold sat_sub.
  rewrite wsub_small, wadd_small, Z.max_r by lia.
  split; rewrite ?length_insert; try done.
  - auto with zlist.
  - auto with zlist.
  - rewrite zsum_insert by congruence. lia.
  - intros j Hj. rewrite insert_total by congruence.
    unfold seat_array. rewrite lookup_total_replicate_in by done.
    case_decide; [lia|auto with zlist].
  - intros j Hj. rewrite insert_total by congruence.
    case_decide; [lia|auto].
  - rewrite zsum_insert by congruence. lia.
Qed.

Lemma max_bet_nonneg s : 0 ≤ max_bet s.
Proof. apply max_or_0_nonneg. Qed.

(** * Equalisation *)

(** The excess loop, over the seats still to visit. *)
Lemma ledger_excess_loop l T m s :
  NoDup l → 0 ≤ m →
  (∀ i, i ∈ l → (i < num_players s)%nat ∧ bets s !!! i ≤ contributed s !!! i ∧ fits 32 (bets s !!! i)) →
  ledger (s <| bets := seat_array 0 |>) T →
  ledger ((foldl (return_excess m) s l) <| bets := seat_array 0 |>) T.
Proof.
  revert s. induction l as [|i l IH]; intros s Hnd Hm Hl L; [done|].
  apply NoDup_cons in Hnd as [Hi Hnd]. cbn [foldl].
  assert (num_players (return_excess m s i) = num_players s
          ∧ bets (return_excess m s i) = bets s
          ∧ ∀ j, j ≠ i → contributed (return_excess m s i) !!! j = contributed s !!! j)
    as (En & Eb & Ec).
  { unfold return_excess. case_match; cbn; [|done]. split_and!; [done..|].
    intros j Hj. by apply list_lookup_total_insert_ne. }
  apply IH; [done|done| |].
  - intros j Hj. rewrite En, Eb, Ec by set_solver. apply Hl. by right.
  - destruct (Hl i ltac:(by left)) as (Hin & Hbc & Hf).
    unfold return_excess. case_match eqn:E; [|exact L].
    apply Z.ltb_lt in E. destruct Hf. rewrite (wsub_small 32 (bets s !!! i) m) by lia.
    unfold ledger in L |- *. cbn in L |- *. apply ledger_return; [done|done|lia].
Qed.

(** The level up to which bets are contested is never negative. *)
Lemma sort_asc_elem x l : x ∈ sort_asc l → x ∈ l.
Proof.
  assert (∀ y l, x ∈ insert_asc y l → x = y ∨ x ∈ l) as Hins.
  { intros y. induction l0 as [|z l0 IH]; cbn; [set_solver|].
    case_match; set_solver. }
  induction l as [|y l IH]; cbn; [done|]. intros [->|]%Hins; set_solver.
Qed.

Lemma dedup_elem x l : x ∈ dedup l → x ∈ l.
Proof.
  induction l as [|y l IH]; [done|]. destruct l as [|z l]; [done|].
  cbn. case_match; set_solver.
Qed.

Lemma bet_levels_elem s x :
  x ∈ bet_levels s → ∃ i, (i < num_players s)%nat ∧ live s i ∧ x = bets s !!! i.
Proof.
  intros H. apply dedup_elem, sort_asc_elem in H.
  apply list_elem_of_In, in_map_iff in H as (i & <- & H).
  apply filter_In in H as [H Hl]. apply in_seq in H. exists i. split_and!; [lia|by rewrite Hl|done].
Qed.

Lemma max_contested_elem s :
  bet_levels s ≠ [] → max_contested s (bet_levels s) ∈ bet_levels s.
Proof.
  intros Hne. unfold max_contested.
  assert (∀ k, (k < length (bet_levels s))%nat → bet_levels s !!! k ∈ bet_levels s) as Hk.
  { intros k Hk. apply list_elem_of_lookup_total_2; done. }
  assert (0 < length (bet_levels s))%nat by (destruct (bet_levels s); cbn; [done|lia]).
  repeat case_match; apply Hk; lia.
Qed.

Lemma bets_fit s T i : ledger s T → (i < MAX_SEATS)%nat → fits 32 (bets s !!! i).
Proof.
  intros L Hi. pose proof (lg_bet_range L i Hi). pose proof (lg_contrib_range L i Hi).
  pose proof umax32. destruct L. pose proof (zsum_nonneg _ lg_st0). unfold fits. lia.
Qed.

Lemma ledger_equalize s T : ledger s T → ledger (equalize_bets s) T.
Proof.
  intros L. unfold equalize_bets.
  pose proof (max_contested_elem s) as Hm.
  destruct (bet_levels s) as [|x l] eqn:E.
  { unfold ledger. cbn. by eapply ledger_zero_bets. }
  specialize (Hm ltac:(done)). rewrite <-E in Hm |- *.
  apply bet_levels_elem in Hm as (i & Hi & _ & Hm).
  assert (num_players s ≤ MAX_SEATS)%nat by (destruct L; lia).
  apply ledger_excess_loop; [apply NoDup_seq| | |].
  - rewrite Hm. apply (lg_bet_range L). lia.
  - intros j Hj%elem_of_seq. split_and!; [lia|apply (lg_bet_range L); lia|].
    eapply bets_fit; [done|lia].
  - unfold ledger. cbn. by eapply ledger_zero_bets.
Qed.

(** * Rake *)

Lemma rake_of_range r x : rules_ok r → fits 32 x → 0 ≤ rake_of r x ≤ x.
Proof.
  intros [] [Hx0 Hx1]. unfold rake_of.
  case_match; [lia|].
  assert (0 ≤ x * rake_bps r < 2 ^ 64) by (split; nia).
  rewrite wmul_small by done.
  assert (0 ≤ x * rake_bps r / 10000 ≤ x) as [? ?].
  { split; [apply Z.div_pos; lia|]. apply Z.div_le_upper_bound; [lia|nia]. }
  rewrite wrap_small by (unfold fits; lia).
  case_match; lia.
Qed.

Lemma ledger_pot_fits s T : ledger s T → fits 32 (pot s).
Proof.
  intros L. pose proof (lg_pot_nonneg L). pose proof umax32.
  pose proof (lg_stack_pot L 0 ltac:(unfold MAX_SEATS; lia)).
  pose proof (lg_stack_range L 0 ltac:(unfold MAX_SEATS; lia)).
  destruct L. unfold fits. lia.
Qed.

(** The ledger only reads six fields. *)
Lemma ledger_intro s T n st p b c rk :
  num_players s = n → stacks s = st → pot s = p → bets s = b → contributed s = c →
  rake s = rk → Ledger n st p b c rk T → ledger s T.
Proof. unfold ledger. by intros -> -> -> -> -> ->. Qed.

Lemma ledger_ext s s' T :
  num_players s' = num_players s → stacks s' = stacks s → pot s' = pot s →
  bets s' = bets s → contributed s' = contributed s → rake s' = rake s →
  ledger s T → ledger s' T.
Proof. unfold ledger. by intros -> -> -> -> -> ->. Qed.

(** * Actions *)

Lemma ledger_mark_broke s T i : ledger s T → ledger (mark_broke s i) T.
Proof. unfold mark_broke. by destruct (_ =? 0). Qed.

Lemma ledger_note_raise s T r : ledger s T → ledger (note_raise s r) T.
Proof. unfold note_raise. by destruct (_ && _). Qed.

#[local] Hint Resolve ledger_mark_broke ledger_note_raise : core.

Lemma ledger_pay_op s T i a :
  ledger s T → (i < num_players s)%nat → 0 ≤ a ≤ stacks s !!! i → ledger (pay s i a) T.
Proof. apply ledger_pay. Qed.

Lemma ledger_call s T i : ledger s T → (i < num_players s)%nat → ledger (apply_call s i) T.
Proof.
  intros L Hi.
  assert (i < MAX_SEATS)%nat as Hi' by (destruct L; lia).
  pose proof (lg_stack_range L i Hi'). pose proof (max_bet_nonneg s).
  apply ledger_mark_broke, ledger_pay_op; [done|done|unfold sat_sub; lia].
Qed.

Lemma ledger_all_in s T i : ledger s T → (i < num_players s)%nat → ledger (apply_all_in s i) T.
Proof.
  intros L Hi.
  assert (i < MAX_SEATS)%nat as Hi' by (destruct L; lia).
  pose proof (lg_stack_range L i Hi') as Hs.
  apply ledger_note_raise.
  assert (ledger (pay s i (stacks s !!! i)) T) as P by (apply ledger_pay_op; [done|done|lia]).
  unfold ledger in P |- *. cbn in P |- *.
  rewrite (wsub_small 32 (stacks s !!! i)), Z.sub_diag in P; [exact P|lia|].
  pose proof umax32. destruct L. lia.
Qed.

Lemma note_raise_frame s r :
  stacks (note_raise s r) = stacks s ∧ num_players (note_raise s r) = num_players s.
Proof. unfold note_raise. by destruct (_ && _). Qed.

Lemma ledger_bet_raise s s' T i req :
  ledger s T → (i < num_players s)%nat → 0 ≤ req →
  apply_bet_raise s i req = Ok s' → ledger s' T.
Proof.
  intros L Hi Hr.
  assert (i < MAX_SEATS)%nat as Hi' by (destruct L; lia).
  pose proof (lg_stack_range L i Hi').
  unfold apply_bet_raise. repeat (case_match; [done|]). intros [= <-].
  destruct (note_raise_frame s (sat_sub (wadd 32 (bets s !!! i) (req `min` stacks s !!! i)) (max_bet s)))
    as [Es En].
  apply ledger_mark_broke, ledger_pay_op; [auto|by rewrite En|rewrite Es; lia].
Qed.

Lemma ledger_effect s s' T a :
  ledger s T → (sa_seat a < num_players s)%nat → 0 ≤ sa_amount a →
  apply_effect s a = Ok s' → ledger s' T.
Proof.
  intros L Hi Ha. unfold apply_effect.
  destruct (sa_action a); intros E; [by simplify_eq|case_match; by simplify_eq|..].
  - simplify_eq. by apply ledger_call.
  - by eapply ledger_bet_raise.
  - by eapply ledger_bet_raise.
  - simplify_eq. by apply ledger_all_in.
Qed.

Lemma ledger_skip s T : ledger s T → ledger (skip_to_showdown s) T.
Proof. intros L%ledger_equalize. by eapply ledger_ext; [..|exact L]. Qed.

Lemma ledger_advance s T : ledger s T → ledger (advance_phase s) T.
Proof.
  intros L. unfold advance_phase.
  assert (ledger (next_street (reset_round s)) T) as L'.
  { apply ledger_zero_bets in L. unfold next_street. by case_match. }
  case_match; [by apply ledger_skip|].
  unfold street_actor. set (s' := next_street (reset_round s)) in *. clearbody s'.
  destruct (can_act _ _); (apply (ledger_ext s'); [reflexivity..|exact L']).
Qed.

(** The field updates of [apply_finish] that do not touch the ledger. *)
Lemma ledger_finish s T a : ledger s T → ledger (apply_finish s a).1 T.
Proof.
  intros L. unfold apply_finish.
  set (s1 := s <| action_count := _ |> <| round_actions := _ |>).
  assert (ledger s1 T) as L1 by exact L. clearbody s1. clear L.
  set (s2 := match sa_action a with Action.Bet | _ => _ end).
  assert (ledger s2 T) as L2 by (unfold s2; by destruct (sa_action a)).
  clearbody s2. clear L1.
  case_match; [by apply ledger_skip|].
  set (s3 := s2 <| acting_seat := _ |>). assert (ledger s3 T) as L3 by exact L2.
  clearbody s3. clear L2. cbn [fst].
  destruct (is_round_complete _ _); [by apply ledger_advance|done].
Qed.

Lemma winner_lt s :
  (0 < num_players s)%nat → (default 0%nat (find_first (live s) (seats s)) < num_players s)%nat.
Proof.
  intros. destruct (find_first _ _) eqn:E; [|done].
  apply find_first_Some in E as [E%elem_of_seats _]. done.
Qed.

(** Awarding the pot, less rake, to one seat. *)
Lemma ledger_award n st p b c rk T i r :
  Ledger n st p b c rk T → (i < n)%nat → 0 ≤ r ≤ p →
  Ledger n (<[i := wadd 32 (st !!! i) (wsub 32 p r)]> st) 0 (seat_array 0) (seat_array 0)
    (wadd 32 rk r) T.
Proof.
  intros L Hi Hr.
  assert (i < MAX_SEATS)%nat as Hi' by (destruct L; lia).
  pose proof (lg_stack_range L i Hi'). pose proof (lg_stack_pot L i Hi').
  pose proof (lg_pot_nonneg L). pose proof umax32.
  destruct L. rewrite (wsub_small 32 p), !wadd_small by lia.
  split; rewrite ?length_insert; try done.
  - auto with zlist.
  - by apply nonneg_replicate.
  - by apply nonneg_replicate.
  - lia.
  - intros j Hj. unfold seat_array. by rewrite lookup_total_replicate_in by lia.
  - rewrite zsum_insert by congruence. lia.
Qed.

(** A table accounts for [T] chips.  Once a hand is settled the bets of its last
    round are stale, so only then are they left out. *)
Definition accounts (s : GameState) (T : Z) : Prop :=
  ledger (s <| bets := seat_array 0 |>) T ∧ (phase s ≠ Phase.Settled → ledger s T).

Lemma ledger_accounts s T : ledger s T → accounts s T.
Proof. intros L. split; [by eapply ledger_zero_bets|done]. Qed.

(** The rake taken from the pot, as the state and the payout show it. *)
Lemma collect_rake_spec s T :
  ledger s T → rules_ok (rules s) →
  ∃ r, 0 ≤ r ≤ pot s ∧ (collect_rake s).2 = wsub 32 (pot s) r
       ∧ (collect_rake s).1 = s <| rake := wadd 32 (rake s) r |>.
Proof.
  intros L R. pose proof (ledger_pot_fits _ _ L) as Hf.
  pose proof (lg_stack_pot L 0 ltac:(unfold MAX_SEATS; lia)).
  pose proof (lg_stack_range L 0 ltac:(unfold MAX_SEATS; lia)).
  pose proof umax32. pose proof (lg_bound _ _ _ _ _ _ _ L). pose proof (lg_rk _ _ _ _ _ _ _ L).
  pose proof (lg_pot_nonneg L).
  exists (rake_of (rules s) (pot s)). split; [by apply rake_of_range|].
  unfold collect_rake, rake_of. destruct (rake_bps (rules s) =? 0); [|done].
  rewrite wadd_small, Z.add_0_r, wsub_small, Z.sub_0_r by lia. cbn. by destruct s.
Qed.

Lemma accounts_award s T :
  ledger s T → rules_ok (rules s) → accounts (award_last s).1 T.
Proof.
  intros L R. destruct (collect_rake_spec s T L R) as (r & Hr & E2 & E1).
  unfold award_last. destruct (collect_rake s) as [s' x]. cbn in E1, E2. subst s' x.
  cbn [fst]. split; [|done].
  eapply ledger_intro; cycle 6.
  - eapply (ledger_award _ _ _ _ _ _ _ _ r L); [|exact Hr].
    eapply (winner_lt s). destruct L. lia.
  - reflexivity.
  - reflexivity.
  - reflexivity.
  - reflexivity.
  - reflexivity.
  - reflexivity.
Qed.

Lemma accounts_fold s T i :
  ledger s T → rules_ok (rules s) → accounts (apply_fold s i).1 T.
Proof.
  intros L R. unfold apply_fold.
  set (s1 := s <| seat_state := _ |> <| action_count := _ |>).
  assert (ledger s1 T) as L1 by exact L. assert (rules_ok (rules s1)) as R1 by exact R.
  clearbody s1. clear L R.
  destruct (_ =? 1)%nat; [by apply accounts_award|by apply ledger_accounts].
Qed.

Lemma apply_guard_seat s a : apply_guard s a = None → (sa_seat a < num_players s)%nat.
Proof.
  unfold apply_guard. repeat case_match; try done. intros _.
  by apply Nat.leb_gt.
Qed.

Lemma apply_guard_phase s a : apply_guard s a = None → is_betting_phase (phase s) = true.
Proof. unfold apply_guard. destruct (is_betting_phase _); done. Qed.

Lemma accounts_apply s T a :
  accounts s T → rules_ok (rules s) → 0 ≤ sa_amount a → accounts (apply s a).1 T.
Proof.
  intros [L0 L] R Ha. unfold apply.
  destruct (apply_guard s a) eqn:G; [done|].
  pose proof (apply_guard_seat _ _ G) as Hi. pose proof (apply_guard_phase _ _ G) as Hp.
  assert (ledger s T) as Ls by (apply L; intros E; by rewrite E in Hp).
  destruct (decide (sa_action a = Action.Fold)) as [->|Hne].
  { pose proof (accounts_fold s T (sa_seat a) Ls R). by destruct (apply_fold s (sa_seat a)). }
  destruct (apply_effect s a) as [s'|e] eqn:E; [|by destruct (sa_action a)].
  pose proof (ledger_finish s' T a (ledger_effect _ _ _ _ Ls Hi Ha E)) as L'%ledger_accounts.
  destruct (sa_action a), (apply_finish s' a); done.
Qed.

(** * Dealing *)

(** A seat that [deal] brings into the hand. *)
Definition funded (s : GameState) (i : nat) : bool :=
  match seat_state s !!! i with
  | SeatState.SittingOut | SeatState.Empty => false
  | _ => 0 <? stacks s !!! i
  end.

Lemma deal_seat_frame cs s i :
  let s' := deal_seat cs s i in
  num_players s' = num_players s ∧ stacks s' = stacks s ∧ pot s' = pot s ∧ bets s' = bets s
  ∧ contributed s' = contributed s ∧ rake s' = rake s ∧ rules s' = rules s
  ∧ length (seat_state s') = length (seat_state s)
  ∧ (∀ j, j ≠ i → seat_state s' !!! j = seat_state s !!! j)
  ∧ ((i < length (seat_state s))%nat → live s' i = funded s i).
Proof.
  unfold deal_seat, live, funded.
  destruct (i <? length cs)%nat; destruct (seat_state s !!! i) eqn:E; cbn;
    rewrite ?E; try (split_and!; done);
  destruct (0 <? stacks s !!! i); cbn; rewrite ?length_insert;
  (split_and!; try done); intros;
  (first [by apply list_lookup_total_insert_ne|by rewrite list_lookup_total_insert_eq]).
Qed.

Lemma deal_seats_frame cs l s :
  NoDup l → (∀ i, i ∈ l → (i < length (seat_state s))%nat) →
  let s' := foldl (deal_seat cs) s l in
  num_players s' = num_players s ∧ stacks s' = stacks s ∧ pot s' = pot s ∧ bets s' = bets s
  ∧ contributed s' = contributed s ∧ rake s' = rake s ∧ rules s' = rules s
  ∧ (∀ i, i ∈ l → live s' i = funded s i)
  ∧ (∀ i, i ∉ l → live s' i = live s i)
  ∧ length (seat_state s') = length (seat_state s).
Proof.
  revert s. induction l as [|i l IH]; intros s Hnd Hl; cbn; [split_and!; done || set_solver|].
  apply NoDup_cons in Hnd as [Hi Hnd].
  destruct (deal_seat_frame cs s i) as (E1 & E2 & E3 & E4 & E5 & E6 & E7 & E8 & E9 & E10).
  destruct (IH (deal_seat cs s i) Hnd) as (F1 & F2 & F3 & F4 & F5 & F6 & F7 & F8 & F9 & F10).
  { intros j Hj. rewrite E8. apply Hl. by right. }
  rewrite E1 in F1. rewrite E2 in F2. rewrite E3 in F3. rewrite E4 in F4.
  rewrite E5 in F5. rewrite E6 in F6. rewrite E7 in F7.
  split_and!; [done..| | |by rewrite F10].
  - intros j [->|Hj]%elem_of_cons.
    + rewrite F9 by done. apply E10, Hl. by left.
    + rewrite F8 by done. unfold funded. rewrite E2, E9 by set_solver. done.
  - intros j [Hji Hjl]%not_elem_of_cons. rewrite F9 by done. unfold live. by rewrite E9.
Qed.

Lemma ledger_fresh n st b c rk T :
  Ledger n st 0 b c rk T → Ledger n st 0 (seat_array 0) (seat_array 0) rk T.
Proof.
  intros []. split; try done; try by apply nonneg_replicate.
  intros i Hi. unfold seat_array. by rewrite lookup_total_replicate_in by lia.
Qed.

Lemma wadd_0_small w x : fits w x → wadd w 0 x = x.
Proof. intros []. rewrite wadd_small by lia. lia. Qed.

(** Posting both blinds out of an empty pot. *)
Lemma ledger_post_blinds s T :
  Ledger (num_players s) (stacks s) 0 (seat_array 0) (seat_array 0) (rake s) T →
  bets s = seat_array 0 → contributed s = seat_array 0 → rules_ok (rules s) →
  (sb_seat s < num_players s)%nat → (bb_seat s < num_players s)%nat → sb_seat s ≠ bb_seat s →
  ledger (post_blinds s) T.
Proof.
  intros L Eb Ec [R1 R2 _ _] Hsb Hbb Hne. unfold post_blinds.
  set (sb := sb_seat s) in *. set (bb := bb_seat s) in *. clearbody sb bb.
  assert (num_players s ≤ MAX_SEATS)%nat as Hn by (destruct L; lia).
  pose proof (lg_stack_range L sb ltac:(lia)) as S1.
  pose proof (lg_stack_range L bb ltac:(lia)) as S2.
  pose proof (lg_bound _ _ _ _ _ _ _ L) as HT. pose proof umax32 as Hu.
  set (x := small_blind (rules s) `min` stacks s !!! sb) in *.
  set (y := big_blind (rules s) `min` stacks s !!! bb) in *.
  assert (0 ≤ x ≤ stacks s !!! sb) as Hx by lia. assert (0 ≤ y ≤ stacks s !!! bb) as Hy by lia.
  clearbody x y.
  pose proof (ledger_pay _ _ _ _ _ _ _ sb x L Hsb Hx) as L1.
  assert (<[sb := wsub 32 (stacks s !!! sb) x]> (stacks s) !!! bb = stacks s !!! bb) as Est
    by (by apply list_lookup_total_insert_ne).
  rewrite <-Est in Hy.
  pose proof (ledger_pay _ _ _ _ _ _ _ bb y L1 Hbb Hy) as L2.
  assert (∀ z i : Z, z = 0 → wadd 32 z i = wadd 32 0 i) as Hz by (by intros ? ? ->).
  assert (∀ i, (i < MAX_SEATS)%nat → seat_array 0 !!! i = 0) as Hzero
    by (intros; by apply lookup_total_replicate_in).
  rewrite !list_lookup_total_insert_ne in L2 by done.
  rewrite !Hzero, !wadd_0_small in L2 by (lia || (unfold fits; lia)).
  apply ledger_mark_broke, ledger_mark_broke.
  eapply ledger_intro; cycle 6; [exact L2|..]; cbn [set_field num_players stacks pot bets contributed rake].
  - reflexivity.
  - by rewrite list_lookup_total_insert_ne by done.
  - reflexivity.
  - by rewrite Eb.
  - rewrite Ec, !list_lookup_total_insert_ne by done.
    by rewrite !Hzero, !wadd_0_small by (lia || (unfold fits; lia)).
  - reflexivity.
Qed.

Lemma ledger_first_actor s T : ledger s T → ledger (deal_first_actor s) T.
Proof.
  intros L. unfold deal_first_actor.
  set (s1 := s <| acting_seat := _ |>). assert (ledger s1 T) as L1 by exact L. clearbody s1.
  set (s2 := if can_act s1 _ then _ else _).
  assert (ledger s2 T) as L2 by (unfold s2; by destruct (can_act _ _)). clearbody s2.
  match goal with |- ledger (if ?b then _ else _) _ => destruct b end;
    [by apply ledger_skip|done].
Qed.

(** Dealing needs an empty pot and two funded seats. *)
Lemma accounts_deal s T cs comm :
  accounts s T → rules_ok (rules s) → pot s = 0 → length (seat_state s) = MAX_SEATS →
  (2 ≤ count_if (funded s) (seats s))%nat → accounts (deal s cs comm) T.
Proof.
  intros [L _] R Ep Hlen H2. apply ledger_accounts. unfold deal.
  set (s1 := deal_reset comm s).
  assert (Ledger (num_players s1) (stacks s1) 0 (seat_array 0) (seat_array 0) (rake s1) T) as L1.
  { unfold ledger in L. cbn in L. rewrite Ep in L. by eapply ledger_fresh. }
  assert (num_players s1 ≤ MAX_SEATS)%nat as Hn by (destruct L1; lia).
  destruct (deal_seats_frame cs (seats s1) s1 (seats_nodup s1)) as (F1 & F2 & F3 & F4 & F5 & F6 & F7 & F8 & _).
  { intros i Hi%elem_of_seats. change (seat_state s1) with (seat_state s). lia. }
  set (s2 := foldl (deal_seat cs) s1 (seats s1)) in *.
  assert (seats s2 = seats s1) as Es by (unfold seats; by rewrite F1).
  assert (2 ≤ count_if (live s2) (seats s2))%nat as H2'.
  { rewrite Es, (count_if_ext _ (funded s1)) by (intros; by apply F8). exact H2. }
  assert (button_for_hand s2 < num_players s2)%nat as Hb
    by (apply button_lt; rewrite F1; destruct L1; lia).
  clearbody s2.
  assert (bets s2 = seat_array 0) as Eb by (rewrite F4; reflexivity).
  assert (contributed s2 = seat_array 0) as Ec by (rewrite F5; reflexivity).
  assert (rules_ok (rules s2)) as R2 by (rewrite F7; exact R).
  rewrite <-F1, <-F2, <-F6 in L1. clear - L1 H2' Hb Eb Ec R2.
  set (s3 := s2 <| button := _ |>).
  destruct (blinds_distinct s3 H2' Hb) as (B1 & B2 & B3).
  apply ledger_first_actor. by apply ledger_post_blinds.
Qed.
