(* ===== verification/PvmShowdown.v ===== *)
(** The showdown of the poker engine: what one iteration of the side-pot loop
    does, that the loop ends within its fuel, and who is paid how much. *)
From stdpp Require Import base list strings sets.
From Stdlib Require Import ZArith Lia.
From S2P Require Import Prelude PvmTypes PvmEval PvmEngine PvmSeats PvmLedger.

Local Open Scope Z_scope.

Lemma foldl_seq_S {A} (f : A → nat → A) a n :
  foldl f a (seq 0 (S n)) = f (foldl f a (seq 0 n)) n.
Proof. by rewrite seq_S, foldl_app. Qed.

(** * The level of a layer *)

Lemma layer_level_spec n rem :
  let lv := layer_level n rem in
  lv ≤ umax 32
  ∧ (lv = umax 32 ∨ ∃ i, (i < n)%nat ∧ rem !!! i = lv ∧ 0 < lv)
  ∧ (∀ j, (j < n)%nat → 0 < rem !!! j → lv ≤ rem !!! j ∨ lv = umax 32 ∧ umax 32 ≤ rem !!! j).
Proof.
  unfold layer_level. induction n as [|n (IH1 & IH2 & IH3)]; [cbn; split_and!; lia || by left|].
  rewrite foldl_seq_S. set (lv := foldl _ _ _) in *. clearbody lv.
  destruct ((0 <? rem !!! n) && (rem !!! n <? lv)) eqn:E.
  - apply andb_true_iff in E as [E1%Z.ltb_lt E2%Z.ltb_lt]. split_and!; [lia| |].
    + right. exists n. split_and!; lia.
    + intros j Hj Hp. destruct (decide (j = n)) as [->|]; [lia|].
      destruct (IH3 j ltac:(lia) Hp); lia.
  - split_and!; [done| |].
    + destruct IH2 as [|(i & ? & ? & ?)]; [by left|right; exists i; split_and!; lia].
    + intros j Hj Hp. destruct (decide (j = n)) as [->|]; [|apply IH3; lia].
      apply andb_false_iff in E as [E%Z.ltb_ge|E%Z.ltb_ge]; lia.
Qed.

(** * Peeling a layer *)

Lemma peel_spec n level rem :
  (n ≤ MAX_SEATS)%nat → length rem = MAX_SEATS → Forall (Z.le 0) rem → 0 < level →
  (∀ j, (j < n)%nat → 0 < rem !!! j → level ≤ rem !!! j) → zsum rem < 2 ^ 32 →
  ∃ il rem' amt, peel_layer n level rem = (il, rem', amt)
    ∧ length il = MAX_SEATS ∧ length rem' = MAX_SEATS ∧ Forall (Z.le 0) rem'
    ∧ amt = zsum rem - zsum rem' ∧ 0 ≤ amt
    ∧ (∀ j, (j < MAX_SEATS)%nat → il !!! j = (j <? n)%nat && (0 <? rem !!! j))
    ∧ (∀ j, (j < MAX_SEATS)%nat →
         rem' !!! j = if (j <? n)%nat && (0 <? rem !!! j) then rem !!! j - level else rem !!! j).
Proof.
  intros Hn Hlen Hnn Hlv Hmin Hsum. unfold peel_layer. induction n as [|n IH].
  { exists (seat_array false), rem, 0. split_and!; [done..|lia|lia| |done].
    intros j Hj. unfold seat_array. by rewrite lookup_total_replicate_in. }
  destruct IH as (il & rem' & amt & E & H1 & H2 & H3 & H4 & H5 & H6 & H7);
    [lia|intros; apply Hmin; lia|].
  assert (Forall (Z.le 0) rem') as Hnn' by done.
  rewrite foldl_seq_S, E. unfold peel_step.
  assert (rem' !!! n = rem !!! n) as En by (rewrite H7 by lia; by rewrite Nat.ltb_irrefl).
  assert (0 ≤ rem !!! n) by (auto with zlist).
  assert (rem' !!! n ≤ zsum rem') by (apply zsum_lookup_le; [done|lia]).
  rewrite En. destruct (Z.ltb_spec 0 (rem !!! n)) as [Hp|Hp].
  - specialize (Hmin n ltac:(lia) Hp). rewrite wsub_small, wadd_small by lia.
    do 3 eexists. split_and!; [reflexivity|by rewrite length_insert|by rewrite length_insert|..].
    + auto with zlist.
    + rewrite zsum_insert by lia. rewrite En. lia.
    + lia.
    + intros j Hj. rewrite insert_total by lia. case_decide as Ej.
      * subst. symmetry. apply andb_true_iff. split; [apply Nat.ltb_lt; lia|by apply Z.ltb_lt].
      * rewrite H6 by done. f_equal. destruct (Nat.ltb_spec j n), (Nat.ltb_spec j (S n)); lia || done.
    + intros j Hj. rewrite insert_total by lia. case_decide as Ej.
      * subst j. rewrite (proj2 (Nat.ltb_lt _ _)), (proj2 (Z.ltb_lt _ _)) by lia. done.
      * rewrite H7 by done. f_equal.
        destruct (Nat.ltb_spec j n), (Nat.ltb_spec j (S n)); lia || done.
  - do 3 eexists. split_and!; [reflexivity|done..| |].
    + intros j Hj. rewrite H6 by done. destruct (decide (j = n)) as [->|Hne].
      * rewrite (proj2 (Z.ltb_ge _ _)) by lia. by rewrite !andb_false_r.
      * f_equal. destruct (Nat.ltb_spec j n), (Nat.ltb_spec j (S n)); lia || done.
    + intros j Hj. rewrite H7 by done. destruct (decide (j = n)) as [->|Hne].
      * rewrite (proj2 (Z.ltb_ge _ (rem !!! n))) by lia. by rewrite !andb_false_r.
      * destruct (Nat.ltb_spec j n), (Nat.ltb_spec j (S n)); lia || done.
Qed.

(** * The best eligible hands of a layer *)

Definition eligible (can_win in_layer : list bool) (i : nat) : bool := can_win !!! i && in_layer !!! i.

Lemma count_if_seq_S (p : nat → bool) n :
  count_if p (seq 0 (S n)) = (count_if p (seq 0 n) + if p n then 1 else 0)%nat.
Proof.
  unfold count_if. rewrite seq_S, List.filter_app, length_app. cbn. by destruct (p n).
Qed.

Lemma ltb_S_case j n : (j <? S n)%nat = (j <? n)%nat || (j =? n)%nat.
Proof.
  destruct (Nat.ltb_spec j (S n)), (Nat.ltb_spec j n), (Nat.eqb_spec j n); lia || done.
Qed.

(** What the loop over seats [0..n] leaves in its four locals. *)
Record best_ok (n : nat) (score : list Z) (cw il : list bool) (b : Best) : Prop := {
  bo_len : length (b_winners b) = MAX_SEATS;
  bo_none : b_have_winner b = false →
    b_winner_count b = 0 ∧ ∀ i, (i < n)%nat → eligible cw il i = false;
  bo_top : b_have_winner b = true →
    1 ≤ b_winner_count b ∧ ∀ i, (i < n)%nat → eligible cw il i = true → score !!! i ≤ b_best b;
  bo_winners : ∀ i, (i < MAX_SEATS)%nat →
    b_winners b !!! i =
      b_have_winner b && (i <? n)%nat && eligible cw il i && (score !!! i =? b_best b);
  bo_count : b_winner_count b = Z.of_nat (count_if (fun i => b_winners b !!! i) (seq 0 n));
}.

Lemma best_ok_skip n score cw il b :
  (n < MAX_SEATS)%nat → best_ok n score cw il b → eligible cw il n = false → best_ok (S n) score cw il b.
Proof.
  intros Hn [Hlen Hnone Htop Hw Hc] En. split; [done| | | |].
  - intros Hf. destruct (Hnone Hf) as [? H]. split; [done|]. intros i Hi.
    destruct (decide (i = n)) as [->|]; [done|apply H; lia].
  - intros Ht. destruct (Htop Ht) as [? H]. split; [done|]. intros i Hi He.
    destruct (decide (i = n)) as [->|]; [congruence|apply H; lia || done].
  - intros i Hi. rewrite Hw, ltb_S_case by done.
    destruct (Nat.eqb_spec i n) as [->|]; [|by rewrite orb_false_r].
    by rewrite En, !andb_false_r.
  - rewrite count_if_seq_S, Hw, En by done. rewrite !andb_false_r. cbn [andb]. lia.
Qed.

(** A hand better than those before it is the only winner. *)
Lemma best_ok_new n score cw il b :
  (n < MAX_SEATS)%nat → best_ok n score cw il b → eligible cw il n = true →
  negb (b_have_winner b) || (b_best b <? score !!! n) = true →
  best_ok (S n) score cw il (mkBest (score !!! n) true (<[n := true]> (seat_array false)) 1).
Proof.
  intros Hn [Hlen Hnone Htop Hw Hc] En Er.
  assert (∀ i, (i < n)%nat → eligible cw il i = true → score !!! i < score !!! n) as Hlt.
  { intros i Hi He. apply orb_true_iff in Er as [Er|Er%Z.ltb_lt].
    - apply negb_true_iff in Er. destruct (Hnone Er) as [_ H]. rewrite H in He by done. done.
    - destruct (b_have_winner b); [|by rewrite (proj2 (Hnone eq_refl)) in He].
      destruct (Htop eq_refl) as [_ H]. specialize (H i Hi He). lia. }
  split; cbn [b_winners b_have_winner b_winner_count b_best].
  - by rewrite length_insert.
  - done.
  - intros _. split; [lia|]. intros i Hi He. destruct (decide (i = n)) as [->|]; [lia|].
    specialize (Hlt i ltac:(lia) He). lia.
  - intros i Hi. rewrite insert_total, ltb_S_case by done. cbn [andb].
    destruct (Nat.eqb_spec i n) as [->|].
    + by rewrite decide_True, orb_true_r, En, Z.eqb_refl.
    + rewrite decide_False by done. unfold seat_array. rewrite lookup_total_replicate_in by done.
      rewrite orb_false_r. destruct (Nat.ltb_spec i n); [|done].
      destruct (eligible cw il i) eqn:He; [|done]. specialize (Hlt i ltac:(lia) He).
      symmetry. apply andb_false_iff. right. apply Z.eqb_neq. lia.
  - rewrite count_if_seq_S, list_lookup_total_insert_eq by done.
    rewrite count_if_none; [lia|]. intros i Hi%elem_of_seq.
    rewrite list_lookup_total_insert_ne by lia. by apply lookup_total_replicate_in; lia.
Qed.

(** A hand as good as the best joins the winners. *)
Lemma best_ok_tie n score cw il b :
  (n < MAX_SEATS)%nat → best_ok n score cw il b → eligible cw il n = true →
  b_have_winner b = true → score !!! n = b_best b →
  best_ok (S n) score cw il
    (mkBest (b_best b) true (<[n := true]> (b_winners b)) (wadd 32 (b_winner_count b) 1)).
Proof.
  intros Hn [Hlen Hnone Htop Hw Hc] En Hh Eb. destruct (Htop Hh) as [Hc1 Htop']. rewrite Hh in *.
  assert (b_winner_count b + 1 < 2 ^ 32) as Hsmall.
  { rewrite Hc. pose proof (count_if_le (fun i => b_winners b !!! i) (seq 0 n)) as Hle.
    rewrite length_seq in Hle. unfold MAX_SEATS in Hn. lia. }
  rewrite wadd_small by lia.
  split; cbn [b_winners b_have_winner b_winner_count b_best].
  - by rewrite length_insert.
  - done.
  - intros _. split; [lia|]. intros i Hi He. destruct (decide (i = n)) as [->|]; [lia|].
    apply Htop'; [lia|done].
  - intros i Hi. rewrite insert_total, ltb_S_case by (by rewrite Hlen).
    destruct (Nat.eqb_spec i n) as [->|].
    + by rewrite decide_True, orb_true_r, En, Eb, Z.eqb_refl.
    + rewrite decide_False by done. by rewrite orb_false_r, Hw.
  - rewrite count_if_seq_S, list_lookup_total_insert_eq by (by rewrite Hlen).
    rewrite (count_if_ext _ (fun i => b_winners b !!! i)); [lia|].
    intros i Hi%elem_of_seq. apply list_lookup_total_insert_ne. lia.
Qed.

Lemma best_ok_lower n score cw il b :
  (n < MAX_SEATS)%nat → best_ok n score cw il b → b_have_winner b = true → score !!! n < b_best b →
  best_ok (S n) score cw il b.
Proof.
  intros Hn [Hlen Hnone Htop Hw Hc] Hh Hlt. destruct (Htop Hh) as [Hc1 Htop'].
  split; [done|intros; congruence| | |].
  - intros _. split; [done|]. intros i Hi He. destruct (decide (i = n)) as [->|]; [lia|apply Htop'; lia || done].
  - intros i Hi. rewrite Hw, ltb_S_case, Hh by done.
    destruct (Nat.eqb_spec i n) as [->|]; [|by rewrite orb_false_r].
    rewrite Nat.ltb_irrefl, (proj2 (Z.eqb_neq _ _)) by lia. by rewrite !andb_false_r.
  - rewrite count_if_seq_S, Hw, Nat.ltb_irrefl by done. rewrite !andb_false_r. cbn [andb]. lia.
Qed.

Lemma best_ok_step n score cw il b :
  (n < MAX_SEATS)%nat → best_ok n score cw il b →
  best_ok (S n) score cw il (best_step score cw il b n).
Proof.
  intros Hn Hb. unfold best_step.
  rewrite <-negb_andb. change (cw !!! n && il !!! n) with (eligible cw il n).
  destruct (eligible cw il n) eqn:En; cbn [negb]; [|by apply best_ok_skip].
  destruct (negb (b_have_winner b) || (b_best b <? score !!! n)) eqn:Er; [by apply (best_ok_new n _ _ _ b)|].
  apply orb_false_iff in Er as [Hh%negb_false_iff Hbest%Z.ltb_ge].
  destruct (Z.eqb_spec (score !!! n) (b_best b)) as [Eb|Eb].
  - rewrite Hh. by apply best_ok_tie.
  - apply best_ok_lower; [done..|lia].
Qed.

Lemma layer_best_ok n score cw il :
  (n ≤ MAX_SEATS)%nat → best_ok n score cw il (layer_best n score cw il).
Proof.
  intros Hn. unfold layer_best. induction n as [|n IH].
  - split; [done|intros _; split; [done|lia]|done| |done].
    intros i Hi. change (seat_array false !!! i = false). by apply lookup_total_replicate_in.
  - rewrite foldl_seq_S. apply best_ok_step; [lia|apply IH; lia].
Qed.

(** * Paying a layer *)

(** The stacks after some payment [amt] that only seats satisfying [p] share. *)
Record Paid (p : nat → Prop) (st st' : list Z) (amt : Z) : Prop := {
  pd_len : length st' = length st;
  pd_le : ∀ j, (j < length st)%nat → st !!! j ≤ st' !!! j;
  pd_sum : zsum st' = zsum st + amt;
  pd_only : ∀ j, (j < length st)%nat → st' !!! j = st !!! j ∨ p j;
}.

Lemma paid_refl p st : Paid p st st 0.
Proof. split; [done|lia|lia|by left]. Qed.

Lemma paid_gain p st st' amt j :
  Paid p st st' amt → (j < length st)%nat → st' !!! j - st !!! j ≤ amt.
Proof.
  intros [H1 H2 H3 _] Hj. destruct (zsum_gap st st') as [_ H]; [done..|].
  specialize (H j Hj). lia.
Qed.

Lemma paid_nonneg p st st' amt : Paid p st st' amt → Forall (Z.le 0) st → Forall (Z.le 0) st'.
Proof.
  intros [H1 H2 _ _] Hf. apply Forall_lookup. intros j v Hv.
  pose proof (lookup_lt_Some _ _ _ Hv) as Hj. rewrite H1 in Hj.
  apply list_lookup_total_correct in Hv. subst v.
  specialize (H2 j Hj). pose proof (nonneg_lookup st j Hf Hj). lia.
Qed.

(** One more seat is paid [x]. *)
Lemma paid_insert (p : nat → Prop) st st' amt i x :
  Paid p st st' amt → (i < length st)%nat → p i → 0 ≤ x → Forall (Z.le 0) st →
  zsum st + amt + x < 2 ^ 32 →
  Paid p st (<[i := wadd 32 (st' !!! i) x]> st') (amt + x).
Proof.
  intros P Hi Hp Hx Hnn Hsum. pose proof (paid_nonneg _ _ _ _ P Hnn) as Hnn'.
  destruct P as [H1 H2 H3 H4].
  assert (st' !!! i ≤ zsum st') by (apply zsum_lookup_le; [done|lia]).
  assert (0 ≤ st' !!! i) by (auto with zlist).
  rewrite wadd_small by lia. split.
  - by rewrite length_insert.
  - intros j Hj. rewrite insert_total by lia. specialize (H2 j Hj). case_decide; subst; lia.
  - rewrite zsum_insert by lia. lia.
  - intros j Hj. rewrite insert_total by lia. case_decide as E; [right; by subst|by apply H4].
Qed.

Lemma split_spec k (winners : list bool) share remainder st h :
  (k ≤ length st)%nat → Forall (Z.le 0) st → 0 ≤ share → 0 ≤ remainder ->
  zsum st + Z.of_nat (count_if (fun i => winners !!! i) (seq 0 k)) * share + remainder < 2 ^ 32 →
  let w := count_if (fun i => winners !!! i) (seq 0 k) in
  ∃ st' h', foldl (split_step winners share remainder) (st, h, true) (seq 0 k)
              = (st', h', (w =? 0)%nat)
    ∧ Paid (fun j => (j < k)%nat ∧ winners !!! j = true) st st'
        (Z.of_nat w * share + if (w =? 0)%nat then 0 else remainder).
Proof.
  intros Hk Hnn Hs Hr Hsum. induction k as [|k IH].
  { exists st, h. split; [done|]. apply (paid_refl _ st). }
  rewrite count_if_seq_S in *.
  destruct IH as (st' & h' & E & P); [lia|destruct (winners !!! k); nia|]. cbn zeta in *.
  rewrite foldl_seq_S, E. unfold split_step.
  set (w := count_if _ _) in *. clearbody w.
  assert (Paid (fun j => (j < S k)%nat ∧ winners !!! j = true) st st'
            (Z.of_nat w * share + if (w =? 0)%nat then 0 else remainder)) as P'.
  { destruct P as [H1 H2 H3 H4]. split; [done..|].
    intros j Hj. destruct (H4 j Hj) as [|[??]]; [by left|right; split; [lia|done]]. }
  destruct (winners !!! k) eqn:Ew.
  - do 2 eexists. split; [by rewrite (proj2 (Nat.eqb_neq (w + 1) 0)) by lia|].
    rewrite (proj2 (Nat.eqb_neq (w + 1) 0)) by lia.
    pose proof (zsum_nonneg st Hnn).
    assert (wadd 32 share (if (w =? 0)%nat then remainder else 0)
            = share + if (w =? 0)%nat then remainder else 0) as ->
      by (apply wadd_small; destruct (w =? 0)%nat; lia).
    replace (Z.of_nat (w + 1) * share + remainder) with
      ((Z.of_nat w * share + if (w =? 0)%nat then 0 else remainder)
       + (share + if (w =? 0)%nat then remainder else 0)) by (destruct (w =? 0)%nat; lia).
    apply paid_insert; [done|lia|split; [lia|done]| |done|]; destruct (w =? 0)%nat; lia.
  - exists st', h'. by rewrite Nat.add_0_r.
Qed.

(** The split pays the whole pot, to winners only. *)
Lemma split_pot_paid n winners wc amt st h :
  (n ≤ length st)%nat → Forall (Z.le 0) st → 0 ≤ amt → zsum st + amt < 2 ^ 32 →
  wc = Z.of_nat (count_if (fun i => winners !!! i) (seq 0 n)) → 1 ≤ wc →
  ∃ st' h', split_pot n winners (amt / wc) (amt mod wc) st h = (st', h')
    ∧ Paid (fun j => (j < n)%nat ∧ winners !!! j = true) st st' amt.
Proof.
  intros Hn Hnn Ha Hsum Hw Hw1.
  assert (0 ≤ amt / wc) by (apply Z.div_pos; lia).
  pose proof (Z.mod_pos_bound amt wc ltac:(lia)).
  pose proof (Z.div_mod amt wc ltac:(lia)) as Ediv.
  destruct (split_spec n winners (amt / wc) (amt mod wc) st h) as (st' & h' & E & P);
    [done..|lia|rewrite <-Hw; nia|].
  exists st', h'. split; [by unfold split_pot; rewrite E|].
  rewrite (proj2 (Nat.eqb_neq _ 0)), <-Hw in P by lia.
  by replace (wc * (amt / wc) + amt mod wc) with amt in P by lia.
Qed.

Lemma fallback_spec n score cw :
  match fallback_seat n score cw with
  | None => ∀ k, (k < n)%nat → cw !!! k = false
  | Some i => (i < n)%nat ∧ cw !!! i = true ∧
              ∀ k, (k < n)%nat → cw !!! k = true → score !!! k ≤ score !!! i
  end.
Proof.
  unfold fallback_seat.
  set (acc := foldl _ _ _).
  enough (match acc.2 with
          | None => ∀ k, (k < n)%nat → cw !!! k = false
          | Some i => (i < n)%nat ∧ cw !!! i = true ∧ acc.1 = score !!! i ∧
              ∀ k, (k < n)%nat → cw !!! k = true → score !!! k ≤ score !!! i
          end) as H by (destruct acc as [? [|]]; naive_solver).
  subst acc. induction n as [|n IH]; [cbn; lia|]. rewrite foldl_seq_S.
  set (acc := foldl _ _ _) in *. clearbody acc. unfold fallback_step.
  destruct acc as [best [i|]]; cbn [snd fst is_Some_b negb orb] in *.
  - destruct IH as (Hi & Hc & -> & Hmax).
    destruct (cw !!! n) eqn:En; cbn [andb]; [destruct (Z.ltb_spec (score !!! i) (score !!! n))|];
      cbn [snd fst]; (split_and!; [lia|done|done|]); intros k Hk Hck;
      (destruct (decide (k = n)) as [->|]; [lia || congruence|]); specialize (Hmax k); 
      specialize (Hmax ltac:(lia) Hck); lia.
  - destruct (cw !!! n) eqn:En; cbn [andb snd fst].
    + split_and!; [lia|done|done|]. intros k Hk Hck.
      destruct (decide (k = n)) as [->|]; [lia|]. by rewrite IH in Hck by lia.
    + intros k Hk. destruct (decide (k = n)) as [->|]; [done|apply IH; lia].
Qed.

(** * The side-pot loop *)

Definition peeled (level : Z) (c : list Z) : list Z := map (fun v => sat_sub v level) c.

Lemma peeled_lookup level c j :
  (j < length c)%nat → peeled level c !!! j = sat_sub (c !!! j) level.
Proof. intros. unfold peeled. by rewrite map_lookup_total. Qed.

(** Chips of [c] below [level]. *)
Definition chips_below (level : Z) (c : list Z) : Z := zsum (map (Z.min level) c).

Lemma chips_below_peeled level c : chips_below level c + zsum (peeled level c) = zsum c.
Proof.
  unfold chips_below, peeled, sat_sub. induction c as [|x c IH]; [done|].
  cbn -[Z.min Z.max Z.sub Z.add]. rewrite <-IH. set (a := zsum _). set (b := zsum _). lia.
Qed.

Lemma chips_below_mono x y c : x ≤ y → chips_below x c ≤ chips_below y c.
Proof.
  intros. unfold chips_below. induction c as [|v c IH]; [done|].
  cbn -[Z.min Z.add]. set (a := zsum _) in *. set (b := zsum _) in *. clearbody a b. clear - H IH. destruct (Z.min_spec x v) as [[? ->]|[? ->]], (Z.min_spec y v) as [[? ->]|[? ->]]; lia.
Qed.

(** The loop, for fixed scores and contributions [c]. *)
Section layers.
Context (n : nat) (score : list Z) (cw : list bool) (c : list Z) (total : Z).
Context (Hn : (n ≤ MAX_SEATS)%nat) (Hlen : length c = MAX_SEATS) (Hc : Forall (Z.le 0) c).
Context (Htail : ∀ j, (n ≤ j < MAX_SEATS)%nat → c !!! j = 0).
Context (Hcsum : zsum c < umax 32) (Htotal : total < umax 32).
Context (live_seat : nat) (Hlive : (live_seat < n)%nat) (Hlive_cw : cw !!! live_seat = true).

(** Who may be paid from a layer that starts at level [L]. *)
Definition payee (L : Z) (i : nat) : Prop :=
  (i < n)%nat ∧ cw !!! i = true
  ∧ (∀ k, (k < n)%nat → cw !!! k = true → L < c !!! k →
       L < c !!! i ∧ score !!! k ≤ score !!! i)
  ∧ ((∀ k, (k < n)%nat → cw !!! k = true → c !!! k ≤ L) →
     ∀ k, (k < n)%nat → cw !!! k = true → score !!! k ≤ score !!! i).

(** Everything below level [L] has been handed out. *)
Record settled_below (L : Z) (l : Layers) : Prop := {
  sb_level : 0 ≤ L;
  sb_rem : ly_remaining l = peeled L c;
  sb_len : length (ly_stacks l) = MAX_SEATS;
  sb_nonneg : Forall (Z.le 0) (ly_stacks l);
  sb_owed : 0 ≤ ly_rake_owed l ≤ zsum (ly_remaining l);
  sb_total : zsum (ly_stacks l) + zsum (ly_remaining l) - ly_rake_owed l = total;
}.

Lemma settled_rem L l j :
  settled_below L l → (j < MAX_SEATS)%nat → ly_remaining l !!! j = sat_sub (c !!! j) L.
Proof. intros S Hj. rewrite (sb_rem _ _ S). apply peeled_lookup. lia. Qed.

Lemma settled_rem_nonneg L l : settled_below L l → Forall (Z.le 0) (ly_remaining l).
Proof.
  intros S. rewrite (sb_rem _ _ S). unfold peeled, sat_sub. apply Forall_forall.
  intros x Hx. apply list_elem_of_In, in_map_iff in Hx as (? & <- & _). lia.
Qed.

Lemma settled_rem_sum L l : settled_below L l → 0 ≤ zsum (ly_remaining l) < umax 32.
Proof.
  intros S. pose proof (zsum_nonneg _ (settled_rem_nonneg L l S)). rewrite (sb_rem _ _ S) in *.
  pose proof (chips_below_peeled L c) as E. enough (0 ≤ chips_below L c) by lia.
  apply zsum_nonneg, Forall_forall. intros x Hx.
  apply list_elem_of_In, in_map_iff in Hx as (v & <- & Hv%list_elem_of_In).
  rewrite Forall_forall in Hc. pose proof (Hc v Hv). pose proof (sb_level _ _ S). lia.
Qed.

(** The members of the layer, as the loop sees them. *)
Lemma layer_members L l j :
  settled_below L l → (j < MAX_SEATS)%nat →
  (j <? n)%nat && (0 <? ly_remaining l !!! j) = true ↔ L < c !!! j.
Proof.
  intros S Hj. rewrite (settled_rem L l j S Hj), andb_true_iff, Nat.ltb_lt, Z.ltb_lt.
  unfold sat_sub. destruct (decide (j < n)%nat); [lia|].
  pose proof (Htail j). pose proof (sb_level _ _ S). lia.
Qed.

(** [break]: no level is left, so nothing remains and no rake is owed. *)
Lemma layer_step_done L l :
  settled_below L l → layer_step n score cw l = None →
  (∀ j, (j < MAX_SEATS)%nat → c !!! j ≤ L) ∧ zsum (ly_stacks l) = total.
Proof.
  intros S. pose proof (settled_rem_sum L l S) as Hsum. unfold layer_step.
  destruct (layer_level_spec n (ly_remaining l)) as (_ & _ & Hmin).
  set (lv := layer_level _ _) in *. clearbody lv.
  destruct (Z.eqb_spec lv (umax 32)) as [->|]; cycle 1.
  { destruct (peel_layer _ _ _) as [[??]?]. repeat case_match; done. }
  intros _. pose proof (settled_rem_nonneg L l S) as Hnn.
  assert (length (ly_remaining l) = MAX_SEATS) as Hlr
    by (rewrite (sb_rem _ _ S); unfold peeled; by rewrite length_map).
  assert (∀ j, (j < MAX_SEATS)%nat → ly_remaining l !!! j = 0) as H0.
  { intros j Hj. pose proof (nonneg_lookup _ j Hnn ltac:(lia)).
    destruct (decide (0 < ly_remaining l !!! j)) as [Hp|]; [|lia].
    assert (j < n)%nat as Hjn.
    { pose proof (settled_rem L l j S Hj) as E. rewrite E in Hp. unfold sat_sub in Hp.
      destruct (decide (j < n)%nat); [done|]. pose proof (Htail j). pose proof (sb_level _ _ S). lia. }
    pose proof (zsum_lookup_le _ j Hnn ltac:(lia)). specialize (Hmin j Hjn Hp). lia. }
  split.
  - intros j Hj. specialize (H0 j Hj). rewrite (settled_rem L l j S Hj) in H0.
    unfold sat_sub in H0. lia.
  - assert (ly_remaining l = replicate MAX_SEATS 0) as E.
    { apply list_eq_total; [by rewrite length_replicate|]. intros j Hj.
      rewrite H0, lookup_total_replicate_in by lia. done. }
    destruct S as [_ _ _ _ Ho Ht]. rewrite E, zsum_replicate in Ho, Ht. lia.
Qed.

Lemma layer_peel L l :
  settled_below L l →
  layer_level n (ly_remaining l) ≠ umax 32 →
  ∃ L' il amt,
    peel_layer n (layer_level n (ly_remaining l)) (ly_remaining l) = (il, peeled L' c, amt)
    ∧ L < L' ∧ (∃ i, (i < MAX_SEATS)%nat ∧ L < c !!! i ≤ L')
    ∧ (∀ j, (j < MAX_SEATS)%nat → L < c !!! j → L' ≤ c !!! j)
    ∧ 0 ≤ amt ∧ amt = zsum (ly_remaining l) - zsum (peeled L' c)
    ∧ (∀ j, (j < MAX_SEATS)%nat → il !!! j = true ↔ L < c !!! j).
Proof.
  intros S Hne. pose proof (settled_rem_sum L l S) as Hsum. pose proof (settled_rem_nonneg L l S) as Hnn.
  destruct (layer_level_spec n (ly_remaining l)) as (_ & [?|(i & Hi & Ei & Hlv)] & Hmin); [done|].
  set (lv := layer_level _ _) in *. clearbody lv.
  destruct (peel_spec n lv (ly_remaining l)) as (il & rem' & amt & E & P1 & P2 & P3 & P4 & P5 & P6 & P7).
  { done. } { rewrite (sb_rem _ _ S). unfold peeled. by rewrite length_map. } { done. } { done. }
  { intros j Hj Hp. destruct (Hmin j Hj Hp) as [|[? ?]]; [done|congruence]. }
  { rewrite umax32 in Hsum. lia. }
  pose proof (sb_level _ _ S) as HL.
  exists (L + lv), il, amt. rewrite E.
  assert (rem' = peeled (L + lv) c) as ->.
  { apply list_eq_total; [unfold peeled; rewrite length_map; lia|]. intros j Hj.
    rewrite P7, peeled_lookup by lia. pose proof (layer_members L l j S ltac:(lia)) as Hm.
    rewrite (settled_rem L l j S) in * by lia.
    destruct (_ && _) eqn:B.
    - apply proj1 in Hm. specialize (Hm eq_refl). apply andb_true_iff in B as [B1%Nat.ltb_lt B2%Z.ltb_lt].
      specialize (Hmin j B1). rewrite (settled_rem L l j S) in Hmin by lia.
      destruct (Hmin B2) as [|[? ?]]; [|congruence]. unfold sat_sub in *. lia.
    - assert (¬ L < c !!! j) by (rewrite <-Hm; congruence). unfold sat_sub. lia. }
  split_and!; [done|lia| | |done|done|].
  - exists i. split; [lia|]. rewrite (settled_rem L l i S) in Ei by lia. unfold sat_sub in Ei. lia.
  - intros j Hj Hlj. pose proof Hlj as Hm. apply (layer_members L l j S) in Hm; [|done].
    apply andb_true_iff in Hm as [B1%Nat.ltb_lt B2%Z.ltb_lt].
    specialize (Hmin j B1 B2). rewrite (settled_rem L l j S) in Hmin by lia.
    unfold sat_sub in Hmin. destruct Hmin as [|[? ?]]; [lia|congruence].
  - intros j Hj. rewrite P6 by done. by apply layer_members.
Qed.

(** The seats a layer pays are payees of that layer. *)
Lemma best_payee L il i :
  (∀ j, (j < MAX_SEATS)%nat → il !!! j = true ↔ L < c !!! j) →
  (i < n)%nat → b_winners (layer_best n score cw il) !!! i = true → payee L i.
Proof.
  intros Hil Hi Hw. destruct (layer_best_ok n score cw il Hn) as [_ _ Htop Hwin _].
  rewrite Hwin in Hw by lia. apply andb_true_iff in Hw as [Hw Es%Z.eqb_eq].
  apply andb_true_iff in Hw as [Hw He]. apply andb_true_iff in Hw as [Hh _].
  destruct (Htop Hh) as [_ Hmax]. unfold eligible in He. apply andb_true_iff in He as [Hcw Hin].
  apply Hil in Hin; [|lia]. split_and!; [done|done| |].
  - intros k Hk Hck Hlk. split; [done|]. rewrite Es. apply Hmax; [done|].
    apply andb_true_iff. split; [done|]. apply Hil; [lia|done].
  - intros H. specialize (H i Hi Hcw). lia.
Qed.

Lemma fallback_payee L il i :
  (∀ j, (j < MAX_SEATS)%nat → il !!! j = true ↔ L < c !!! j) →
  b_have_winner (layer_best n score cw il) = false →
  fallback_seat n score cw = Some i → payee L i.
Proof.
  intros Hil Hh Hf. destruct (layer_best_ok n score cw il Hn) as [_ Hnone _ _ _].
  destruct (Hnone Hh) as [_ Hno]. pose proof (fallback_spec n score cw) as F. rewrite Hf in F.
  destruct F as (Hi & Hc' & Hmax). split_and!; [done|done| |by intros _].
  intros k Hk Hck Hlk. specialize (Hno k Hk). unfold eligible in Hno.
  rewrite Hck in Hno. apply Hil in Hlk; [|lia]. rewrite Hlk in Hno. done.
Qed.

(** What is left of a layer after the rake goes to its payees. *)
Lemma layer_award L il amt l l' :
  (∀ j, (j < MAX_SEATS)%nat → il !!! j = true ↔ L < c !!! j) →
  length (ly_stacks l) = MAX_SEATS → Forall (Z.le 0) (ly_stacks l) →
  0 < amt → zsum (ly_stacks l) + amt < umax 32 →
  (let b := layer_best n score cw il in
   if negb (b_have_winner b) then
     match fallback_seat n score cw with
     | Some i =>
         Some (l <| ly_stacks := <[i := wadd 32 (ly_stacks l !!! i) amt]> (ly_stacks l) |>
                 <| ly_headline := set_headline (ly_headline l) i |>)
     | None => Some l
     end
   else
     let share := amt / b_winner_count b in
     let remainder := amt mod b_winner_count b in
     let '(st, headline) := split_pot n (b_winners b) share remainder (ly_stacks l) (ly_headline l) in
     Some (l <| ly_stacks := st |> <| ly_headline := headline |>)) = Some l' →
  ly_remaining l' = ly_remaining l ∧ ly_rake_owed l' = ly_rake_owed l
  ∧ Paid (payee L) (ly_stacks l) (ly_stacks l') amt.
Proof.
  intros Hil Hls Hnn Ha Hsum. pose proof umax32.
  cbn -[wadd layer_best fallback_seat split_pot Z.div Z.modulo].
  destruct (b_have_winner (layer_best n score cw il)) eqn:Hh; cbn [negb].
  - destruct (layer_best_ok n score cw il Hn) as [_ _ Htop _ Hcount].
    destruct (Htop Hh) as [Hwc _].
    destruct (split_pot_paid n (b_winners (layer_best n score cw il))
                (b_winner_count (layer_best n score cw il)) amt
                (ly_stacks l) (ly_headline l)) as (st' & h' & E & P);
      [lia|done|lia|lia|done|done|].
    rewrite E. intros [= <-]. split_and!; [done|done|].
    destruct P as [P1 P2 P3 P4]. split; [done..|]. intros j Hj.
    destruct (P4 j Hj) as [|[? ?]]; [by left|right]. by apply (best_payee L il).
  - pose proof (fallback_spec n score cw) as F.
    destruct (fallback_seat n score cw) as [i|] eqn:Ef.
    + intros [= <-]. split_and!; [done|done|].
      pose proof (fallback_payee L il i Hil Hh Ef) as Hpay.
      replace amt with (0 + amt) at 2 by lia.
      apply paid_insert; [apply paid_refl|destruct F; lia|done|lia|done|lia].
    + rewrite (F live_seat Hlive) in Hlive_cw. done.
Qed.

Lemma peeled_nonneg L : 0 ≤ zsum (peeled L c).
Proof.
  apply zsum_nonneg, Forall_forall. intros x Hx. unfold peeled, sat_sub in Hx.
  apply list_elem_of_In, in_map_iff in Hx as (? & <- & _). lia.
Qed.

(** One iteration pays a layer to its payees. *)
Lemma layer_step_ok L l l' :
  settled_below L l → layer_step n score cw l = Some l' →
  ∃ L' paid, L < L' ∧ (∃ i, (i < MAX_SEATS)%nat ∧ L < c !!! i ≤ L')
    ∧ (∀ j, (j < MAX_SEATS)%nat → L < c !!! j → L' ≤ c !!! j) ∧ settled_below L' l'
    ∧ Paid (payee L) (ly_stacks l) (ly_stacks l') paid
    ∧ 0 ≤ paid ≤ chips_below L' c - chips_below L c.
Proof.
  intros S. pose proof (settled_rem_sum L l S) as Hsum. unfold layer_step.
  destruct (Z.eqb_spec (layer_level n (ly_remaining l)) (umax 32)) as [|Hne]; [done|].
  destruct (layer_peel L l S Hne) as (L' & il & amt & -> & HL & Hex & Hmin & Ha & Eamt & Hil).
  pose proof (chips_below_peeled L c) as Ecb. pose proof (chips_below_peeled L' c) as Ecb'.
  destruct S as [S1 S2 S3 S4 S5 S6]. rewrite <-S2 in Ecb.
  pose proof (peeled_nonneg L') as Hp0. pose proof (zsum_nonneg _ S4). pose proof umax32.
  intros Hstep. exists L'.
  enough (∃ paid, ly_remaining l' = peeled L' c ∧ 0 ≤ ly_rake_owed l' ≤ zsum (peeled L' c)
            ∧ ly_rake_owed l' = ly_rake_owed l - (amt - paid) ∧ 0 ≤ paid ≤ amt
            ∧ Paid (payee L) (ly_stacks l) (ly_stacks l') paid) as (paid & Er & Ho & Eo & Hpaid & P).
  { exists paid. split_and!; [done|done|done| |done|lia|lia].
    split; [lia|done|by rewrite (pd_len _ _ _ _ P)|by eapply paid_nonneg|by rewrite Er|].
    rewrite (pd_sum _ _ _ _ P), Er. lia. }
  revert Hstep. destruct (Z.eqb_spec amt 0) as [->|Hamt].
  { intros [= <-]. exists 0. cbn -[peeled zsum Z.add Z.sub]. split_and!; [done|lia|lia|lia|lia|lia|apply paid_refl]. }
  cbn [ly_rake_owed set_field].
  set (skim := if 0 <? ly_rake_owed l then Z.min (ly_rake_owed l) amt else 0).
  assert (skim = Z.min (ly_rake_owed l) amt) as Hskim
    by (unfold skim; destruct (Z.ltb_spec 0 (ly_rake_owed l)); lia).
  clearbody skim. rewrite !wsub_small by lia.
  destruct (Z.eqb_spec (amt - skim) 0) as [Ez|Hnz].
  { intros [= <-]. exists 0. cbn -[peeled zsum Z.add Z.sub]. split_and!; [done|lia|lia|lia|lia|lia|apply paid_refl]. }
  intros (E1 & E2 & P)%(layer_award L il (amt - skim)); cbn -[peeled zsum Z.add Z.sub] in *; [|done|done|done|lia|lia].
  exists (amt - skim). rewrite E1, E2. split_and!; done || lia.
Qed.

(** The final stacks: every chip but the rake is paid, by layers. *)
Record paid_out (L : Z) (st st' : list Z) : Prop := {
  po_len : length st' = MAX_SEATS;
  po_total : zsum st' = total;
  po_le : ∀ j, (j < MAX_SEATS)%nat → st !!! j ≤ st' !!! j;
  po_live : ∀ j, (j < MAX_SEATS)%nat → st' !!! j = st !!! j ∨ (j < n)%nat ∧ cw !!! j = true;
  po_beaten : ∀ i k, (i < n)%nat → (k < n)%nat → cw !!! k = true → score !!! i < score !!! k →
    c !!! i ≤ c !!! k → st' !!! i = st !!! i;
  po_cap : ∀ i k, (i < n)%nat → (k < n)%nat → cw !!! k = true →
    (∀ j, (j < n)%nat → c !!! j ≤ c !!! k) →
    st' !!! i - st !!! i ≤ Z.max 0 (chips_below (c !!! i) c - chips_below L c);
}.

Lemma run_layers_ok fuel L l :
  settled_below L l → (count_if (Z.ltb L) c < fuel)%nat →
  ∃ l', run_layers fuel n score cw l = Some l' ∧ paid_out L (ly_stacks l) (ly_stacks l').
Proof.
  revert L l. induction fuel as [|fuel IH]; intros L l S Hf; [lia|]. cbn [run_layers].
  destruct (layer_step n score cw l) as [l1|] eqn:E; cycle 1.
  { destruct (layer_step_done L l S E) as [Hall Ht]. exists l. split; [done|].
    split; [by destruct S|done|done|by left|done|lia]. }
  destruct (layer_step_ok L l l1 S E) as (L1 & paid & HL & (i0 & Hi0 & Hc0) & Hmin & S1 & P & Hpaid).
  destruct (IH L1 l1 S1) as (l' & El & [O1 O2 O3 O4 O5 O6]).
  { enough (count_if (Z.ltb L1) c < count_if (Z.ltb L) c)%nat by lia.
    apply (count_if_lt _ _ _ (c !!! i0)); [intros; lia| |lia|lia].
    apply list_elem_of_lookup. exists i0. apply list_lookup_lookup_total_lt. lia. }
  exists l'. split; [done|]. pose proof (sb_len _ _ S) as Hls. split; [done|done|..].
  - intros j Hj. pose proof (pd_le _ _ _ _ P j ltac:(lia)). specialize (O3 j Hj). lia.
  - intros j Hj. destruct (O4 j Hj) as [->|]; [|by right].
    destruct (pd_only _ _ _ _ P j ltac:(lia)) as [|(? & ? & _)]; [by left|by right].
  - intros i k Hi Hk Hck Hs Hik. rewrite (O5 i k) by done.
    destruct (pd_only _ _ _ _ P i ltac:(lia)) as [|(_ & _ & H1 & H2)]; [done|].
    destruct (decide (L < c !!! k)) as [Hlk|Hlk]; [specialize (H1 k Hk Hck Hlk); lia|].
    enough (score !!! k ≤ score !!! i) by lia. apply H2; [|done..]. intros k' Hk' Hck'.
    destruct (decide (L < c !!! k')) as [Hlk'|]; [|lia]. specialize (H1 k' Hk' Hck' Hlk'). lia.
  - intros i k Hi Hk Hck Hcov. specialize (O6 i k Hi Hk Hck Hcov).
    pose proof (chips_below_mono L L1 c ltac:(lia)).
    destruct (pd_only _ _ _ _ P i ltac:(lia)) as [|(_ & _ & H1 & H2)]; [lia|].
    pose proof (paid_gain _ _ _ _ i P ltac:(lia)).
    assert (L < c !!! i) as Hli.
    { destruct (decide (L < c !!! k)) as [Hlk|]; [by destruct (H1 k Hk Hck Hlk)|exfalso].
      destruct (decide (i0 < n)%nat) as [Hi0n|]; [specialize (Hcov i0 Hi0n); lia|].
      pose proof (sb_level _ _ S). specialize (Htail i0 ltac:(lia)). lia. }
    pose proof (chips_below_mono L1 (c !!! i) c (Hmin i ltac:(lia) Hli)). lia.
Qed.
End layers.

(** * The showdown *)

Lemma zsum_map_lookup (c : list Z) n :
  (n ≤ length c)%nat → (∀ j, (n ≤ j < length c)%nat → c !!! j = 0) →
  zsum (map (fun i => c !!! i) (seq 0 n)) = zsum c.
Proof.
  revert n. induction c as [|x c IH]; intros n Hn H0.
  { by replace n with 0%nat by (cbn in Hn; lia). }
  destruct n as [|n].
  - rewrite (list_eq_total (x :: c) (replicate (S (length c)) 0)).
    + by rewrite zsum_replicate, Z.mul_0_r.
    + by rewrite length_replicate.
    + intros j Hj. rewrite H0, lookup_total_replicate_in by (cbn in *; lia). done.
  - cbn [seq map zsum]. rewrite <-seq_shift, map_map.
    change ((x :: c) !!! 0%nat) with x. f_equal. apply IH; [cbn in Hn; lia|].
    intros j Hj. apply (H0 (S j)). cbn. lia.
Qed.

Lemma seat_map_lookup {A} `{!Inhabited A} (f : nat → A) j :
  (j < MAX_SEATS)%nat → map f (seq 0 MAX_SEATS) !!! j = f j.
Proof.
  intros Hj. rewrite map_lookup_total by (by rewrite length_seq). f_equal.
  apply list_lookup_total_correct, lookup_seq. lia.
Qed.

Lemma can_win_lookup s j :
  (j < MAX_SEATS)%nat → showdown_can_win s !!! j = (j <? num_players s)%nat && live s j.
Proof. intros. unfold showdown_can_win. by rewrite seat_map_lookup. Qed.

Lemma scores_lookup s j :
  (num_players s ≤ MAX_SEATS)%nat → (j < num_players s)%nat → live s j = true →
  showdown_scores s !!! j = best_hand s j.
Proof.
  intros Hn Hj Hl. unfold showdown_scores. rewrite seat_map_lookup by lia.
  by rewrite (proj2 (Nat.ltb_lt _ _) Hj), Hl.
Qed.

Lemma rake_frame s x :
  let s' := s <| rake := x |> in
  num_players s' = num_players s ∧ showdown_scores s' = showdown_scores s
  ∧ showdown_can_win s' = showdown_can_win s ∧ stacks s' = stacks s
  ∧ contributed s' = contributed s.
Proof.
  destruct s. unfold showdown_scores, showdown_can_win, best_hand, live, is_live.
  cbn -[best_of_7 seq map Nat.ltb]. split_and!; reflexivity.
Qed.

(** What [showdown] does to a table with [T] chips and a live seat: it returns,
    pays the pot less the rake out, and leaves everything else alone. *)
Lemma showdown_spec s T k :
  ledger s T → rules_ok (rules s) → (k < num_players s)%nat → live s k = true →
  ∃ st w r, 0 ≤ r ≤ pot s
    ∧ showdown s = Some (s <| rake := rake s + r |> <| stacks := st |> <| pot := 0 |>
                           <| contributed := seat_array 0 |> <| phase := Phase.Settled |>, w)
    ∧ paid_out (num_players s) (showdown_scores s) (showdown_can_win s) (contributed s)
        (zsum (stacks s) + pot s - r) 0 (stacks s) st.
Proof.
  intros L R Hk Hlive. pose proof (ledger_pot_fits _ _ L) as Hpf.
  pose proof (rake_of_range (rules s) (pot s) R Hpf) as Hr.
  destruct L as [[Hn2 Hn] Hls Hlb Hlc Hst Hb Hc Hrk Hpot Hbets Htail Htot Hbound].
  pose proof umax32 as Eu. pose proof (zsum_nonneg _ Hst).
  set (r := rake_of (rules s) (pot s)) in *.
  assert (total_contributed s = pot s) as Et.
  { unfold total_contributed, seats. rewrite zsum_map_lookup by (rewrite ?Hlc; done || lia).
    rewrite <-Hpot. by apply wrap_small. }
  destruct (run_layers_ok (num_players s) (showdown_scores s) (showdown_can_win s) (contributed s)
              (zsum (stacks s) + pot s - r) Hn Hlc Hc Htail ltac:(lia) ltac:(lia) k Hk)
    with (fuel := showdown_fuel) (L := 0) (l := mkLayers (stacks s) (contributed s) r None)
    as (l' & E & P).
  { rewrite can_win_lookup by lia. by rewrite Hlive, (proj2 (Nat.ltb_lt _ _) Hk). }
  { split; cbn [ly_remaining ly_stacks ly_rake_owed]; [done| |done|done|lia|lia].
    apply list_eq_total; [unfold peeled; by rewrite length_map|]. intros j Hj.
    rewrite peeled_lookup by done. pose proof (nonneg_lookup _ j Hc Hj). unfold sat_sub. lia. }
  { pose proof (count_if_le (Z.ltb 0) (contributed s)) as Hle. rewrite Hlc in Hle.
    unfold showdown_fuel. lia. }
  exists (ly_stacks l'), (default 0%nat (ly_headline l')), r. split_and!; [lia..| |done].
  unfold showdown. rewrite Et. fold r. rewrite wadd_small by lia.
  destruct (rake_frame s (rake s + r)) as (-> & -> & -> & -> & ->).
  by rewrite E.
Qed.

Lemma showdown_accounts s T k :
  ledger s T → rules_ok (rules s) → (k < num_players s)%nat → live s k = true →
  ∃ s' w, showdown s = Some (s', w) ∧ accounts s' T ∧ phase s' = Phase.Settled ∧ pot s' = 0
    ∧ num_players s' = num_players s ∧ seat_state s' = seat_state s ∧ rules s' = rules s
    ∧ button s' = button s.
Proof.
  intros L R Hk Hlive. destruct (showdown_spec s T k L R Hk Hlive) as (st & w & r & Hr & E & P).
  do 2 eexists. split_and!; [exact E| |reflexivity..]. split; [|done].
  destruct L as [Hn Hls Hlb Hlc Hst Hb Hc Hrk Hpot Hbets Htail Htot Hbound].
  destruct P as [P1 P2 P3 _ _ _].
  apply (ledger_intro _ _ (num_players s) st 0 (seat_array 0) (seat_array 0) (rake s + r));
    [reflexivity..|].
  split; [done|done|done|done| |apply nonneg_replicate; lia..|lia|done| | |lia|done].
  - apply Forall_lookup. intros j v Hv. pose proof (lookup_lt_Some _ _ _ Hv) as Hj.
    rewrite P1 in Hj. apply list_lookup_total_correct in Hv. subst v.
    specialize (P3 j Hj). pose proof (nonneg_lookup _ j Hst ltac:(lia)). lia.
  - done.
  - intros j Hj. apply lookup_total_replicate_in. lia.
Qed.
