(* ===== verification/PvmGame.v ===== *)
(** The poker engine as a transition system: the table discipline under which
    hands are dealt, played and shown down, the invariant every reachable table
    satisfies, and the properties of play. *)
From stdpp Require Import base list strings sets relations.
From Stdlib Require Import ZArith Lia.
From S2P Require Import Prelude PvmTypes PvmEval PvmEngine PvmSeats PvmLedger PvmShowdown.

Local Open Scope Z_scope.

(** * What the operations leave alone *)

(** [s'] is the same table as [s], and every live seat of [s] is live in it. *)
Record keeps (s s' : GameState) : Prop := {
  kp_n : num_players s' = num_players s;
  kp_rules : rules s' = rules s;
  kp_button : button s' = button s;
  kp_len : length (seat_state s') = length (seat_state s);
  kp_live : ∀ i, live s i = true → live s' i = true;
}.

#[global] Instance keeps_preorder : PreOrder keeps.
Proof.
  split; [by split|]. intros s1 s2 s3 [A1 A2 A3 A4 A5] [B1 B2 B3 B4 B5].
  split; [congruence..|]. intros. by apply B5, A5.
Qed.

(** Any update of the other fields. *)
Lemma keeps_frame s s' :
  num_players s' = num_players s → rules s' = rules s → button s' = button s →
  seat_state s' = seat_state s → keeps s s'.
Proof. intros H1 H2 H3 H4. split; [done..|by rewrite H4|]. unfold live. by rewrite H4. Qed.

Create HintDb pvm_keeps.
#[export] Hint Extern 1 (keeps _ _) => (apply keeps_frame; reflexivity) : pvm_keeps.

Lemma live_insert s i st j :
  is_live st = true → live s j = true →
  live (s <| seat_state := <[i := st]> (seat_state s) |>) j = true.
Proof.
  unfold live. cbn [seat_state set_field]. intros Hst Hj.
  destruct (decide (i = j)) as [->|]; [|by rewrite list_lookup_total_insert_ne].
  destruct (decide (j < length (seat_state s))%nat).
  - by rewrite list_lookup_total_insert_eq.
  - rewrite list_insert_ge by lia. done.
Qed.

Lemma keeps_mark_broke s i : keeps s (mark_broke s i).
Proof.
  unfold mark_broke. case_match; [|done].
  split; [done|done|done|apply length_insert|]. intros j Hj. by apply live_insert.
Qed.

Lemma keeps_note_raise s r : keeps s (note_raise s r).
Proof. unfold note_raise. case_match; auto with pvm_keeps. Qed.

Lemma keeps_call s i : keeps s (apply_call s i).
Proof. unfold apply_call. etransitivity; [|apply keeps_mark_broke]. auto with pvm_keeps. Qed.

Lemma keeps_all_in s i : keeps s (apply_all_in s i).
Proof.
  unfold apply_all_in. etransitivity; [|apply keeps_note_raise].
  split; [done|done|done|apply length_insert|]. intros j Hj. by apply (live_insert s).
Qed.

Lemma keeps_bet_raise s s' i req : apply_bet_raise s i req = Ok s' → keeps s s'.
Proof.
  unfold apply_bet_raise. repeat (case_match; [done|]). intros [= <-].
  etransitivity; [|apply keeps_mark_broke].
  etransitivity; [apply keeps_note_raise|]. auto with pvm_keeps.
Qed.

Lemma keeps_effect s s' a : apply_effect s a = Ok s' → keeps s s'.
Proof.
  unfold apply_effect. destruct (sa_action a).
  - by intros [= <-].
  - case_match; [done|]. by intros [= <-].
  - intros [= <-]. apply keeps_call.
  - apply keeps_bet_raise.
  - apply keeps_bet_raise.
  - intros [= <-]. apply keeps_all_in.
Qed.

Lemma keeps_equalize s : keeps s (equalize_bets s).
Proof.
  assert (∀ m, keeps s (foldl (return_excess m) s (seats s))) as H.
  { intros m. apply foldl_inv; [done|]. intros i s1 _ K. etransitivity; [exact K|].
    unfold return_excess. case_match; auto with pvm_keeps. }
  unfold equalize_bets. case_match; [auto with pvm_keeps|].
  etransitivity; [apply H|]. auto with pvm_keeps.
Qed.

Lemma keeps_skip s : keeps s (skip_to_showdown s).
Proof. unfold skip_to_showdown. etransitivity; [apply keeps_equalize|]. auto with pvm_keeps. Qed.

Lemma keeps_next_street s : keeps s (next_street s).
Proof. unfold next_street. case_match; auto with pvm_keeps. Qed.

Lemma keeps_street_actor s : keeps s (street_actor s).
Proof. unfold street_actor. case_match; auto with pvm_keeps. Qed.

Lemma keeps_advance s : keeps s (advance_phase s).
Proof.
  unfold advance_phase. assert (keeps s (next_street (reset_round s))) as H.
  { etransitivity; [|apply keeps_next_street]. auto with pvm_keeps. }
  etransitivity; [exact H|]. case_match; [apply keeps_skip|apply keeps_street_actor].
Qed.

Lemma keeps_finish s a : keeps s (apply_finish s a).1.
Proof.
  unfold apply_finish.
  set (s1 := match sa_action a with Action.Bet | Action.Raise | Action.AllIn => _ | _ => _ end).
  assert (keeps s s1) as H1 by (unfold s1; destruct (sa_action a); auto with pvm_keeps).
  clearbody s1. case_match; cbn [fst].
  - etransitivity; [exact H1|]. apply keeps_skip.
  - etransitivity; [exact H1|]. case_match; [|auto with pvm_keeps].
    etransitivity; [|apply keeps_advance]. auto with pvm_keeps.
Qed.

Lemma keeps_post_blinds s : keeps s (post_blinds s).
Proof.
  unfold post_blinds. etransitivity; [|apply keeps_mark_broke].
  etransitivity; [|apply keeps_mark_broke]. auto with pvm_keeps.
Qed.

Lemma keeps_first_actor s : keeps s (deal_first_actor s).
Proof.
  unfold deal_first_actor. set (s1 := if can_act _ _ then _ else _).
  assert (keeps s s1) as H by (unfold s1; case_match; auto with pvm_keeps). clearbody s1.
  etransitivity; [exact H|]. case_match; [apply keeps_skip|done].
Qed.

(** * Live seats *)

Lemma keeps_active s s' : keeps s s' → (active_count s ≤ active_count s')%nat.
Proof.
  intros [H1 _ _ _ H4]. unfold active_count, seats. rewrite H1. apply count_if_mono. auto.
Qed.

(** Dropping one element from what is counted drops the count by at most one. *)
Lemma count_if_drop (p q : nat → bool) l i :
  NoDup l → (∀ x, x ∈ l → x ≠ i → q x = p x) → (count_if p l ≤ S (count_if q l))%nat.
Proof.
  unfold count_if. induction l as [|x l IH]; intros Hnd H; cbn; [lia|].
  apply NoDup_cons in Hnd as [Hx Hnd]. destruct (decide (x = i)) as [->|Hne].
  - assert (List.filter p l = List.filter q l) as E.
    { apply List.filter_ext_in. intros y Hy%list_elem_of_In. symmetry. apply H; [by right|].
      intros ->. done. }
    rewrite E. destruct (p i), (q i); cbn; lia.
  - rewrite H by (done || left). assert (IH' := IH Hnd).
    specialize (IH' ltac:(intros; apply H; [by right|done])).
    destruct (p x); cbn; lia.
Qed.

Lemma fold_active s i :
  (active_count s ≤ S (active_count (s <| seat_state := <[i := SeatState.Folded]> (seat_state s) |>)))%nat.
Proof.
  apply (count_if_drop _ _ _ i); [apply seats_nodup|]. intros x _ Hne. unfold live.
  cbn [seat_state set_field]. by rewrite list_lookup_total_insert_ne.
Qed.

(** * The table as a transition system *)

(** Hands are dealt when no pot is open and two seats are funded; seats leave
    and rejoin between hands; the showdown is run in its phase.  Actions are
    offered at any time, accepted or not. *)
Inductive step (s : GameState) : GameState → Prop :=
| step_deal cards_in comm :
    pot s = 0 → (2 ≤ count_if (funded s) (seats s))%nat → step s (deal s cards_in comm)
| step_apply a : 0 ≤ sa_amount a → step s (apply s a).1
| step_showdown s' w :
    phase s = Phase.Showdown → showdown s = Some (s', w) → step s s'
| step_sit_out seat : phase s = Phase.Settled → step s (sit_out s seat)
| step_sit_in seat : phase s = Phase.Settled → step s (sit_in s seat).

(** Reachable from a fresh table of [n] players. *)
Definition reachable (r : Rules) (n : nat) : GameState → Prop := rtc step (new r n).

(** The invariant of a table with [T] chips: the accounts add up, and an
    unfinished hand has two live seats. *)
Record table_ok (T : Z) (s : GameState) : Prop := {
  tk_accounts : accounts s T;
  tk_rules : rules_ok (rules s);
  tk_len : length (seat_state s) = MAX_SEATS;
  tk_button : (button s < num_players s)%nat;
  tk_live : phase s ≠ Phase.Settled → (2 ≤ active_count s)%nat;
}.

Lemma tk_players T s : table_ok T s → (2 ≤ num_players s ≤ MAX_SEATS)%nat.
Proof. intros [[[] _] _ _ _ _]. done. Qed.

(** The number of seats [new] creates. *)
Definition seated (n : nat) : nat := Nat.max (Nat.min n MAX_SEATS) 2.

Lemma new_ok r n :
  rules_ok r → 0 ≤ buyin r → Z.of_nat (seated n) * buyin r < umax 32 →
  table_ok (Z.of_nat (seated n) * buyin r) (new r n).
Proof.
  intros R Hb HT. unfold new. fold (seated n).
  assert (2 ≤ seated n ≤ MAX_SEATS)%nat as Hn by (unfold seated, MAX_SEATS; lia).
  set (m := seated n) in *. clearbody m.
  split; [|done| |cbn [button num_players]; lia|].
  - apply ledger_accounts.
    apply (ledger_intro _ _ m (replicate m (buyin r) ++ replicate (MAX_SEATS - m) 0) 0
             (seat_array 0) (seat_array 0) 0); [reflexivity..|].
    split; [done| |done|done| | | |done|done|done| |  |done].
    + rewrite length_app, !length_replicate. lia.
    + apply Forall_app. split; apply nonneg_replicate; lia.
    + apply nonneg_replicate. lia.
    + apply nonneg_replicate. lia.
    + intros i Hi. apply lookup_total_replicate_in. lia.
    + rewrite zsum_app, !zsum_replicate. lia.
  - cbn [seat_state]. rewrite length_app, !length_replicate. lia.
  - intros _. unfold active_count. rewrite count_if_all; [unfold seats; rewrite length_seq; cbn [num_players]; lia|].
    intros i Hi%elem_of_seats. cbn [num_players] in Hi. unfold live. cbn [seat_state].
    rewrite lookup_total_app_l by (by rewrite length_replicate).
    by rewrite lookup_total_replicate_in.
Qed.

(** * Every operation keeps the invariant *)

Lemma deal_reset_frame comm s :
  let s' := deal_reset comm s in
  num_players s' = num_players s ∧ rules s' = rules s ∧ seat_state s' = seat_state s
  ∧ stacks s' = stacks s.
Proof. by destruct s. Qed.

Lemma keeps_deal_rest s : keeps s (deal_first_actor (post_blinds s)).
Proof. etransitivity; [apply keeps_post_blinds|apply keeps_first_actor]. Qed.

(** After a deal every funded seat is in the hand. *)
Lemma deal_frame s cs comm :
  (num_players s ≤ length (seat_state s))%nat →
  rules (deal s cs comm) = rules s ∧ length (seat_state (deal s cs comm)) = length (seat_state s)
  ∧ ((0 < num_players s)%nat → (button (deal s cs comm) < num_players (deal s cs comm))%nat)
  ∧ (count_if (funded s) (seats s) ≤ active_count (deal s cs comm))%nat.
Proof.
  intros Hl. destruct (deal_reset_frame comm s) as (R1 & R2 & R3 & R4).
  unfold deal. cbn zeta. set (s1 := deal_reset comm s) in *. clearbody s1.
  destruct (deal_seats_frame cs (seats s1) s1 (seats_nodup s1)) as (F1 & _ & _ & _ & _ & _ & F7 & F8 & _ & F10).
  { intros i Hi%elem_of_seats. rewrite R3. lia. }
  set (s2 := foldl (deal_seat cs) s1 (seats s1)) in *. clearbody s2.
  set (s3 := s2 <| button := button_for_hand s2 |>).
  assert (rules s3 = rules s2 ∧ seat_state s3 = seat_state s2 ∧ button s3 = button_for_hand s2
          ∧ num_players s3 = num_players s2) as (G1 & G2 & G3 & G4) by done.
  assert (active_count s3 = active_count s2) as G5 by (unfold active_count, seats, live; by rewrite G2, G4).
  clearbody s3. pose proof (keeps_deal_rest s3) as K.
  pose proof (keeps_active _ _ K) as Hk. rewrite G5 in Hk. destruct K as [K1 K2 K2' K3 _].
  rewrite K1, K2, K2', K3, G1, G2, G3, G4, F7, F10, R2, R3. split_and!; [done|done| |].
  { intros. apply button_lt. by rewrite F1, R1. }
  etransitivity; [|exact Hk]. unfold active_count, seats.
  rewrite F1, R1. apply count_if_mono. intros x Hx Hf.
  rewrite F8 by (unfold seats; by rewrite R1). unfold funded in *. by rewrite R3, R4.
Qed.

Lemma deal_ok s T cs comm :
  table_ok T s → pot s = 0 → (2 ≤ count_if (funded s) (seats s))%nat →
  table_ok T (deal s cs comm).
Proof.
  intros K Hp H2. pose proof (tk_players _ _ K) as Hn. destruct K as [A R Hl _ _].
  pose proof (accounts_deal s T cs comm A R Hp Hl H2) as A'.
  destruct (deal_frame s cs comm) as (E1 & E2 & E3 & E4); [lia|].
  split; [done|by rewrite E1|by rewrite E2|apply E3; lia|lia].
Qed.

Lemma fold_ok s T i :
  table_ok T s → accounts (apply_fold s i).1 T → (2 ≤ active_count s)%nat →
  table_ok T (apply_fold s i).1.
Proof.
  intros [_ R Hl Hb _] A H2. pose proof (fold_active s i) as Hf. revert A. unfold apply_fold.
  set (s0 := s <| seat_state := _ |>) in *. set (s1 := s0 <| action_count := _ |>).
  change (active_count s0) with (active_count s1) in Hf.
  assert (length (seat_state s1) = MAX_SEATS) as Hl1 by (cbn; by rewrite length_insert).
  assert (rules s1 = rules s) as Er by reflexivity. rewrite <-Er in R.
  assert (button s1 < num_players s1)%nat as Hb1 by exact Hb. clearbody s1. clear s0.
  destruct (Nat.eqb_spec (active_count s1) 1) as [E|E]; intros A.
  - unfold award_last, collect_rake in *.
    destruct (rake_bps (rules s1) =? 0); (split; [exact A|exact R|exact Hl1|exact Hb1|done]).
  - split; [exact A|exact R|exact Hl1|exact Hb1|]. intros _.
    change (2 ≤ active_count s1)%nat. lia.
Qed.

Lemma apply_ok s T a :
  table_ok T s → 0 ≤ sa_amount a → table_ok T (apply s a).1.
Proof.
  intros K Ha. pose proof (accounts_apply s T a (tk_accounts _ _ K) (tk_rules _ _ K) Ha) as A.
  revert A. unfold apply. destruct (apply_guard s a) eqn:G; [done|].
  pose proof (apply_guard_phase _ _ G) as Hp.
  assert (phase s ≠ Phase.Settled) as Hns by (intros E; by rewrite E in Hp).
  pose proof (tk_live _ _ K Hns) as H2.
  assert (∀ s', apply_effect s a = Ok s' → accounts (apply_finish s' a).1 T →
            table_ok T (apply_finish s' a).1) as Hfin.
  { intros s' E A. assert (keeps s (apply_finish s' a).1) as Kp.
    { etransitivity; [by eapply keeps_effect|apply keeps_finish]. }
    pose proof (keeps_active _ _ Kp) as Hk. destruct Kp as [K1 K2 K2' K3 _], K as [_ R Hl Hb _].
    split; [done|by rewrite K2|by rewrite K3|by rewrite K2', K1|]. lia. }
  assert (∀ X : GameState * ActionResult, (let '(s, r) := X in (s, @Ok _ string r)).1 = X.1) as Hfst
    by (by intros []).
  destruct (decide (sa_action a = Action.Fold)) as [->|Hne].
  { rewrite Hfst. intros A. by apply fold_ok. }
  destruct (apply_effect s a) as [s'|e]; [|by destruct (sa_action a)].
  specialize (Hfin s' eq_refl). destruct (sa_action a); rewrite ?Hfst; done.
Qed.

Lemma live_seat_exists s : (2 ≤ active_count s)%nat → ∃ k, (k < num_players s)%nat ∧ live s k = true.
Proof.
  intros H. destruct (proj1 (count_if_pos (live s) (seats s))) as (k & Hk & ?); [unfold active_count in H; lia|].
  apply elem_of_seats in Hk. eauto.
Qed.

Lemma showdown_ok s s' T w :
  table_ok T s → phase s = Phase.Showdown → showdown s = Some (s', w) → table_ok T s'.
Proof.
  intros [[_ L] R Hl Hb H2] Hp E.
  destruct (live_seat_exists s) as (k & Hk & Hlive); [apply H2; congruence|].
  destruct (showdown_accounts s T k) as (s'' & w' & E' & A & Hset & _ & Hn & Hss & Hr & Hbt);
    [apply L; congruence|done..|].
  rewrite E in E'. injection E' as <- <-.
  split; [done|by rewrite Hr|by rewrite Hss|by rewrite Hbt, Hn|congruence].
Qed.

Lemma sit_ok s s' T :
  table_ok T s → phase s = Phase.Settled → (∃ ss, s' = s <| seat_state := ss |> ∧ length ss = length (seat_state s)) →
  table_ok T s'.
Proof.
  intros [[A1 A2] R Hl Hb H2] Hp (ss & -> & Hss).
  split; [split; [exact A1|intros H; by destruct (H Hp)]|exact R|cbn; lia|exact Hb|intros H; by destruct (H Hp)].
Qed.

Lemma step_ok T s s' : table_ok T s → step s s' → table_ok T s'.
Proof.
  intros K []; [by apply deal_ok|by apply apply_ok|by eapply showdown_ok| |].
  - unfold sit_out. case_match; [|done]. eapply sit_ok; [done..|].
    eexists. split; [reflexivity|apply length_insert].
  - unfold sit_in. case_match; [|done]. eapply sit_ok; [done..|].
    eexists. split; [reflexivity|apply length_insert].
Qed.

Lemma steps_ok T s s' : table_ok T s → rtc step s s' → table_ok T s'.
Proof. intros K. induction 1; [done|]. eauto using step_ok. Qed.

(** * The turn *)

Lemma scan_finds p n s0 d j :
  (s0 < n)%nat → (j < n)%nat → p j = true →
  (scan_ring p n n s0 d < n)%nat ∧ p (scan_ring p n n s0 d) = true.
Proof.
  intros Hs Hj Hp.
  assert (∃ k, (k < n)%nat ∧ ((s0 + k) mod n = j)%nat) as (k & Hk & Ek).
  { destruct (decide (s0 ≤ j)%nat).
    - exists (j - s0)%nat. split; [lia|]. replace (s0 + (j - s0))%nat with j by lia.
      by apply Nat.mod_small.
    - exists (n - s0 + j)%nat. split; [lia|].
      replace (s0 + (n - s0 + j))%nat with (j + 1 * n)%nat by lia.
      rewrite Nat.Div0.mod_add. by apply Nat.mod_small. }
  destruct (scan_ring_first p n n s0 d k) as (k0 & _ & Hp0 & _ & ->); [done|by rewrite Ek|done|].
  split; [apply Nat.mod_upper_bound; lia|done].
Qed.

(** The seat to act can act. *)
Definition turn_ok (s : GameState) : Prop :=
  (acting_seat s < num_players s)%nat ∧ can_act s (acting_seat s) = true.

Lemma next_in_round_can_act s after :
  (0 < count_if (can_act s) (seats s))%nat →
  turn_ok (s <| acting_seat := next_active_in_round s after |>).
Proof.
  intros (j & Hj%elem_of_seats & Hp)%count_if_pos.
  apply (scan_finds (can_act s) (num_players s) _ after j); [|done|done].
  apply Nat.mod_upper_bound. lia.
Qed.

Lemma street_actor_turn s :
  (2 ≤ num_players s)%nat → (button s < num_players s)%nat →
  (0 < count_if (can_act s) (seats s))%nat → turn_ok (street_actor s).
Proof.
  intros Hn Hb Hc. unfold street_actor.
  set (s1 := s <| acting_seat := _ |>).
  destruct (can_act s1 (acting_seat s1)) eqn:E.
  - split; [|done]. change (first_postflop s < num_players s)%nat. by apply next_active_lt.
  - by apply (next_in_round_can_act s1).
Qed.

Lemma next_street_frame s :
  num_players (next_street s) = num_players s ∧ button (next_street s) = button s
  ∧ seat_state (next_street s) = seat_state s ∧ stacks (next_street s) = stacks s.
Proof. unfold next_street. by destruct (phase s). Qed.

Lemma advance_turn s :
  (2 ≤ num_players s)%nat → (button s < num_players s)%nat →
  phase (advance_phase s) ≠ Phase.Showdown → turn_ok (advance_phase s).
Proof.
  intros Hn Hb. unfold advance_phase.
  set (s1 := reset_round s). destruct (next_street_frame s1) as (F1 & F2 & F3 & F4).
  assert (count_if (can_act s1) (seats s1) = count_if (can_act (next_street s1)) (seats (next_street s1))) as ->.
  { unfold seats, can_act. by rewrite F1, F3, F4. }
  assert (2 ≤ num_players (next_street s1))%nat as Hn1 by (by rewrite F1).
  assert (button (next_street s1) < num_players (next_street s1))%nat as Hb1 by (by rewrite F1, F2).
  set (s2 := next_street s1) in *. clearbody s2.
  destruct (Nat.leb_spec (count_if (can_act s2) (seats s2)) 1) as [Hc|Hc]; cbn [andb].
  - case_bool_decide as Hp; cbn [negb].
    + intros H. exfalso. apply H. unfold street_actor. by case_match.
    + intros H. by destruct H.
  - intros _. apply street_actor_turn; [done|done|lia].
Qed.

(** After an accepted action other than a fold, either betting is over or the
    turn is at a seat that can act. *)
Lemma finish_turn s a :
  (2 ≤ num_players s)%nat → (button s < num_players s)%nat →
  phase (apply_finish s a).1 ≠ Phase.Showdown → turn_ok (apply_finish s a).1.
Proof.
  intros Hn Hb. unfold apply_finish.
  set (s1 := match sa_action a with Action.Bet | Action.Raise | Action.AllIn => _ | _ => _ end).
  assert (num_players s1 = num_players s ∧ button s1 = button s) as [E1 E2]
    by (unfold s1; by destruct (sa_action a)).
  rewrite <-E1 in Hn, Hb. rewrite <-E2 in Hb. clearbody s1. clear E1 E2.
  destruct (Nat.eqb_spec (count_if (can_act s1) (seats s1)) 0) as [Hc|Hc]; cbn [fst].
  - intros H. by destruct H.
  - set (s2 := s1 <| acting_seat := _ |>). destruct (is_round_complete s2 (sa_action a)).
    + by apply advance_turn.
    + intros _. apply next_in_round_can_act. lia.
Qed.

Lemma first_preflop_lt s : (button s < num_players s)%nat → (first_preflop s < num_players s)%nat.
Proof.
  intros Hb. assert (sb_seat s < num_players s)%nat as Hsb.
  { unfold sb_seat. case_match; [done|by apply next_active_lt]. }
  unfold first_preflop, bb_seat. case_match; [done|]. by apply next_active_lt, next_active_lt.
Qed.

Lemma first_actor_turn s :
  (button s < num_players s)%nat →
  phase (deal_first_actor s) = Phase.Showdown ∨ turn_ok (deal_first_actor s).
Proof.
  intros Hb. unfold deal_first_actor. set (s2 := s <| acting_seat := _ |>).
  assert (∀ s', actors s' = [] ∨ turn_ok s' →
            phase (if match actors s' with [] => true | [a] => max_bet s' <=? bets s' !!! a | _ => false end
                   then skip_to_showdown s' else s') = Phase.Showdown
            ∨ turn_ok (if match actors s' with [] => true | [a] => max_bet s' <=? bets s' !!! a | _ => false end
                   then skip_to_showdown s' else s')) as H.
  { intros s' [->|Ht]; [by left|]. case_match; [by left|by right]. }
  apply H. destruct (can_act s2 (acting_seat s2)) eqn:E.
  - right. split; [|done]. by apply (first_preflop_lt s).
  - destruct (actors s2) as [|j l] eqn:Ea; [left; exact Ea|right].
    apply next_in_round_can_act. change (0 < length (actors s2))%nat. rewrite Ea. cbn. lia.
Qed.

Lemma deal_turn s cs comm :
  (2 ≤ num_players s)%nat → phase (deal s cs comm) = Phase.Showdown ∨ turn_ok (deal s cs comm).
Proof.
  intros Hn. unfold deal. cbn zeta. destruct (deal_reset_frame comm s) as (R1 & _).
  set (s0 := deal_reset comm s) in *. rewrite <-R1 in Hn. clearbody s0.
  set (s1 := foldl (deal_seat cs) s0 (seats s0)).
  assert (num_players s1 = num_players s0) as E.
  { apply foldl_inv; [done|]. intros i s' _ <-. by destruct (deal_seat_frame cs s' i) as (-> & _). }
  rewrite <-E in Hn. clearbody s1. set (s2 := s1 <| button := button_for_hand s1 |>).
  assert (button s2 < num_players s2)%nat as Hb by (apply (button_lt s1); lia). clearbody s2.
  apply first_actor_turn. destruct (keeps_post_blinds s2) as [-> _ -> _ _]. done.
Qed.

(** * The properties of play *)

(** C1.  Chips are neither created nor destroyed: on every table reachable from
    a fresh one, stacks, pot and rake add up to the buy-ins, the pot is the sum
    of the contributions, and no account is negative. *)
Theorem chips_conserved r n s :
  rules_ok r → 0 ≤ buyin r → Z.of_nat (seated n) * buyin r < umax 32 → reachable r n s →
  zsum (stacks s) + pot s + rake s = Z.of_nat (seated n) * buyin r
  ∧ pot s = zsum (contributed s) ∧ Forall (Z.le 0) (stacks s) ∧ 0 ≤ pot s ∧ 0 ≤ rake s.
Proof.
  intros R Hb HT Hr. destruct (steps_ok _ _ _ (new_ok r n R Hb HT) Hr) as [[L _] _ _ _ _].
  pose proof (lg_pot_nonneg L). destruct L. done.
Qed.

Lemma rules_default_ok : rules_ok Rules_default.
Proof. split; cbn; lia. Qed.

Definition three_handed : GameState := deal (new Rules_default 3) [(0, 1); (2, 3); (4, 5)] [6; 7; 8; 9; 10].

Lemma chips_conserved_witness :
  zsum (stacks three_handed) + pot three_handed + rake three_handed = 3000
  ∧ pot three_handed = 15.
Proof.
  split; [|reflexivity]. apply (chips_conserved Rules_default 3 three_handed).
  - exact rules_default_ok.
  - cbn; lia.
  - reflexivity.
  - apply rtc_once, step_deal; vm_compute; [reflexivity|repeat constructor].
Defined.

(** C2.  A hand that reaches its showdown is settled: the side-pot loop ends,
    the whole pot is paid out less the rake, and no stack shrinks. *)
Theorem showdown_settles r n s :
  rules_ok r → 0 ≤ buyin r → Z.of_nat (seated n) * buyin r < umax 32 → reachable r n s →
  phase s = Phase.Showdown →
  ∃ s' w, showdown s = Some (s', w) ∧ phase s' = Phase.Settled ∧ pot s' = 0
    ∧ zsum (stacks s') + rake s' = zsum (stacks s) + rake s + pot s
    ∧ rake s ≤ rake s' ≤ rake s + pot s
    ∧ ∀ i, (i < MAX_SEATS)%nat → stacks s !!! i ≤ stacks s' !!! i.
Proof.
  intros R Hb HT Hr Hp. destruct (steps_ok _ _ _ (new_ok r n R Hb HT) Hr) as [[_ L] Rs _ _ H2].
  destruct (live_seat_exists s) as (k & Hk & Hl); [apply H2; congruence|].
  destruct (showdown_spec s _ k (L ltac:(congruence)) Rs Hk Hl) as (st & w & x & Hx & E & P).
  do 2 eexists. split_and!; [exact E|reflexivity|reflexivity| |cbn; lia|cbn; lia|].
  - cbn [stacks rake set_field]. rewrite (po_total _ _ _ _ _ _ _ _ P). lia.
  - apply (po_le _ _ _ _ _ _ _ _ P).
Qed.

(** Heads-up, both players all in before the flop. *)
Definition act (seat : nat) (a : Action) (amount : Z) : SignedAction :=
  mkSignedAction seat a amount 0 [].

Definition heads_up : GameState := deal (new Rules_default 2) [(0, 14); (12, 25)] [6; 20; 24; 9; 42].

Definition run (s : GameState) (acts : list SignedAction) : GameState :=
  foldl (fun s a => (apply s a).1) s acts.

Lemma run_steps s acts : Forall (fun a => 0 ≤ sa_amount a) acts → rtc step s (run s acts).
Proof.
  intros H. revert s. induction H as [|a l Ha _ IH]; intros s; [done|].
  eapply rtc_l; [by apply (step_apply _ a)|]. apply IH.
Qed.

Definition both_all_in : GameState := run heads_up [act 0 Action.AllIn 0; act 1 Action.Call 0].

Lemma both_all_in_reachable : reachable Rules_default 2 both_all_in.
Proof.
  unfold reachable, both_all_in. apply (rtc_l _ _ heads_up).
  - unfold heads_up. apply step_deal; [reflexivity|]. vm_compute. repeat constructor.
  - apply run_steps. repeat constructor; cbn; lia.
Qed.

Lemma showdown_settles_witness :
  phase both_all_in = Phase.Showdown ∧
  ∃ s' w, showdown both_all_in = Some (s', w) ∧ phase s' = Phase.Settled ∧ pot s' = 0
    ∧ zsum (stacks s') + rake s' = zsum (stacks both_all_in) + rake both_all_in + pot both_all_in
    ∧ rake both_all_in ≤ rake s' ≤ rake both_all_in + pot both_all_in
    ∧ ∀ i, (i < MAX_SEATS)%nat → stacks both_all_in !!! i ≤ stacks s' !!! i.
Proof.
  split; [reflexivity|]. apply (showdown_settles Rules_default 2).
  - exact rules_default_ok.
  - cbn; lia.
  - reflexivity.
  - exact both_all_in_reachable.
  - reflexivity.
Defined.

Lemma both_all_in_ok : table_ok 2000 both_all_in.
Proof.
  apply (steps_ok _ _ _ (new_ok Rules_default 2 rules_default_ok ltac:(cbn; lia) ltac:(reflexivity))).
  exact both_all_in_reachable.
Qed.

(** What the showdown of a well-formed table pays. *)
Lemma showdown_pays T s s' w k :
  table_ok T s → phase s ≠ Phase.Settled → showdown s = Some (s', w) →
  (k < num_players s)%nat → live s k = true →
  ∃ total, paid_out (num_players s) (showdown_scores s) (showdown_can_win s) (contributed s)
             total 0 (stacks s) (stacks s').
Proof.
  intros [[_ L] R _ _ _] Hp E Hk Hl.
  destruct (showdown_spec s T k (L Hp) R Hk Hl) as (st & w' & r & _ & E' & P).
  rewrite E in E'. injection E' as -> _. by eexists.
Qed.

Lemma can_win_true s j :
  (j < num_players s)%nat → (j < MAX_SEATS)%nat → showdown_can_win s !!! j = live s j.
Proof. intros H1 H2. rewrite can_win_lookup by done. by rewrite (proj2 (Nat.ltb_lt _ _) H1). Qed.

Lemma chips_below_0 c : Forall (Z.le 0) c → chips_below 0 c = 0.
Proof.
  unfold chips_below. induction 1 as [|x c Hx Hc IH]; [done|]. cbn [map zsum]. rewrite IH. lia.
Qed.

(** C34.  The side-pot cap: no seat wins more than what every player put in up to
    that seat's own contribution, as long as a live seat has matched the highest
    contribution. *)
Theorem side_pot_cap T s s' w i k :
  table_ok T s → phase s = Phase.Showdown → showdown s = Some (s', w) →
  (i < num_players s)%nat → (k < num_players s)%nat → live s k = true →
  (∀ j, (j < num_players s)%nat → contributed s !!! j ≤ contributed s !!! k) →
  stacks s' !!! i - stacks s !!! i ≤ zsum (map (Z.min (contributed s !!! i)) (contributed s)).
Proof.
  intros K Hp E Hi Hk Hl Hmax. pose proof (tk_players _ _ K) as Hn.
  assert (phase s ≠ Phase.Settled) as Hns by congruence.
  destruct (showdown_pays T s s' w k K Hns E Hk Hl) as (x & P).
  pose proof (po_cap _ _ _ _ _ _ _ _ P i k Hi Hk) as H.
  rewrite can_win_true in H by lia. specialize (H Hl Hmax).
  destruct K as [[_ L] _ _ _ _]. specialize (L Hns). destruct L.
  rewrite chips_below_0 in H by done. fold (chips_below (contributed s !!! i) (contributed s)).
  assert (0 ≤ chips_below (contributed s !!! i) (contributed s)); [|lia].
  rewrite <-(chips_below_0 (contributed s)) by done. apply chips_below_mono.
  auto with zlist.
Qed.

Definition after_showdown (s : GameState) : GameState := default s (fst <$> showdown s).

Lemma side_pot_cap_witness :
  stacks (after_showdown both_all_in) !!! 1%nat - stacks both_all_in !!! 1%nat
    ≤ zsum (map (Z.min (contributed both_all_in !!! 1%nat)) (contributed both_all_in))
  ∧ stacks (after_showdown both_all_in) !!! 1%nat = 2000.
Proof.
  split; [|vm_compute; reflexivity].
  apply (side_pot_cap 2000 both_all_in (after_showdown both_all_in) 1 1 0).
  - exact both_all_in_ok.
  - reflexivity.
  - vm_compute. reflexivity.
  - vm_compute; lia.
  - vm_compute; lia.
  - vm_compute. reflexivity.
  - intros [|[|j]] Hj; [by vm_compute..|vm_compute in Hj; lia].
Defined.

(** A beaten hand wins nothing: a live seat that is outscored by another
    live seat with at least its contribution is paid from no pot. *)
Lemma beaten_wins_nothing T s s' w i k :
  table_ok T s → phase s = Phase.Showdown → showdown s = Some (s', w) →
  (i < num_players s)%nat → live s i = true → (k < num_players s)%nat → live s k = true →
  best_hand s i < best_hand s k → contributed s !!! i ≤ contributed s !!! k →
  stacks s' !!! i = stacks s !!! i.
Proof.
  intros K Hp E Hi Hli Hk Hl Hs Hc. pose proof (tk_players _ _ K) as Hn.
  destruct (showdown_pays T s s' w k K ltac:(congruence) E Hk Hl) as (x & P).
  apply (po_beaten _ _ _ _ _ _ _ _ P i k); [done|done| | |done].
  - by rewrite can_win_true by lia.
  - by rewrite !scores_lookup by (done || lia).
Qed.

Lemma beaten_wins_nothing_witness :
  best_hand both_all_in 0 < best_hand both_all_in 1
  ∧ stacks (after_showdown both_all_in) !!! 0%nat = stacks both_all_in !!! 0%nat.
Proof.
  split; [by vm_compute|].
  apply (beaten_wins_nothing 2000 both_all_in (after_showdown both_all_in) 1 0 1).
  - exact both_all_in_ok.
  - reflexivity.
  - vm_compute. reflexivity.
  - vm_compute; lia.
  - vm_compute. reflexivity.
  - vm_compute; lia.
  - vm_compute. reflexivity.
  - by vm_compute.
  - by vm_compute.
Defined.

(** Only hands still in can be paid: the stack of a seat that folded, sat
    out or is empty is untouched by the showdown. *)
Lemma folded_wins_nothing T s s' w i :
  table_ok T s → phase s = Phase.Showdown → showdown s = Some (s', w) →
  (i < MAX_SEATS)%nat → live s i = false → stacks s' !!! i = stacks s !!! i.
Proof.
  intros K Hp E Hi Hli. destruct (live_seat_exists s) as (k & Hk & Hl).
  { apply (tk_live _ _ K). congruence. }
  destruct (showdown_pays T s s' w k K ltac:(congruence) E Hk Hl) as (x & P).
  destruct (po_live _ _ _ _ _ _ _ _ P i Hi) as [|[_ H]]; [done|].
  rewrite can_win_lookup, Hli, andb_false_r in H by done. done.
Qed.

Lemma folded_wins_nothing_witness :
  stacks (after_showdown both_all_in) !!! 5%nat = stacks both_all_in !!! 5%nat.
Proof.
  apply (folded_wins_nothing 2000 both_all_in (after_showdown both_all_in) 1 5).
  - exact both_all_in_ok.
  - reflexivity.
  - vm_compute. reflexivity.
  - unfold MAX_SEATS. lia.
  - vm_compute. reflexivity.
Defined.

(** * Betting *)

Lemma apply_cases s a s' r :
  apply s a = (s', Ok r) →
  apply_guard s a = None ∧
  ((sa_action a = Action.Fold ∧ s' = (apply_fold s (sa_seat a)).1)
   ∨ (sa_action a ≠ Action.Fold ∧ ∃ s1, apply_effect s a = Ok s1 ∧ s' = (apply_finish s1 a).1)).
Proof.
  unfold apply. destruct (apply_guard s a) eqn:G; [done|]. intros E. split; [done|].
  destruct (decide (sa_action a = Action.Fold)) as [Ef|Hne].
  - left. split; [done|]. rewrite Ef in E. destruct (apply_fold s (sa_seat a)) as [s2 r2]. by injection E as <- _.
  - right. split; [done|].
    destruct (apply_effect s a) as [s1|e]; [|by destruct (sa_action a)].
    exists s1. split; [done|]. destruct (apply_finish s1 a) as [s2 r2].
    destruct (sa_action a); [done|by injection E as <- _..].
Qed.

Lemma fold_turn s i :
  phase (apply_fold s i).1 = Phase.Settled ∨ turn_ok (apply_fold s i).1
  ∨ count_if (can_act (apply_fold s i).1) (seats (apply_fold s i).1) = 0%nat.
Proof.
  unfold apply_fold. set (s1 := s <| seat_state := _ |> <| action_count := _ |>). clearbody s1.
  destruct (active_count s1 =? 1)%nat.
  - left. unfold award_last. by destruct (collect_rake s1).
  - right. cbn [fst].
    destruct (count_if (can_act s1) (seats s1)) as [|m] eqn:E; [by right|left].
    apply next_in_round_can_act. lia.
Qed.

(** The turn is never lost except by a fold: once an action is accepted,
    the hand is over, or it is at its showdown, or the turn is at a seat that
    can act, or the action was a fold after which no seat can act. *)
Lemma turn_after_action T s a s' r :
  table_ok T s → apply s a = (s', Ok r) →
  phase s' = Phase.Settled ∨ phase s' = Phase.Showdown ∨ turn_ok s'
  ∨ sa_action a = Action.Fold ∧ count_if (can_act s') (seats s') = 0%nat.
Proof.
  intros K E. destruct (apply_cases _ _ _ _ E) as [_ [[Ef ->]|(_ & s1 & E1 & ->)]].
  - destruct (fold_turn s (sa_seat a)) as [?|[?|?]]; auto.
  - right. destruct (decide (phase (apply_finish s1 a).1 = Phase.Showdown)); [by left|right; left].
    pose proof (tk_players _ _ K). destruct (keeps_effect _ _ _ E1) as [K1 _ K3 _ _].
    apply finish_turn; [lia| |done]. rewrite K1, K3. by destruct K.
Qed.

Lemma three_handed_ok : table_ok 3000 three_handed.
Proof.
  apply deal_ok; [|reflexivity|vm_compute; repeat constructor].
  apply (new_ok Rules_default 3 rules_default_ok); [cbn; lia|reflexivity].
Qed.

Definition one_in : GameState := (apply three_handed (act 0 Action.AllIn 0)).1.

Lemma turn_after_action_witness :
  phase one_in = Phase.Settled ∨ phase one_in = Phase.Showdown ∨ turn_ok one_in
  ∨ sa_action (act 0 Action.AllIn 0) = Action.Fold ∧ count_if (can_act one_in) (seats one_in) = 0%nat.
Proof.
  apply (turn_after_action 3000 three_handed (act 0 Action.AllIn 0) one_in
           (mkActionResult true false 255 0 false)).
  - exact three_handed_ok.
  - vm_compute. reflexivity.
Defined.

Definition stuck_table : GameState :=
  run three_handed [act 0 Action.AllIn 0; act 1 Action.AllIn 0; act 2 Action.Fold 0].

Lemma stuck_reachable : reachable Rules_default 3 stuck_table.
Proof.
  unfold reachable, stuck_table. apply (rtc_l _ _ three_handed).
  - unfold three_handed. apply step_deal; [reflexivity|]. vm_compute. repeat constructor.
  - apply run_steps. repeat constructor; cbn; lia.
Qed.

Lemma guard_inactive s a :
  seat_state s !!! acting_seat s ≠ SeatState.Active → ∃ e, apply_guard s a = Some e.
Proof.
  intros H. unfold apply_guard. repeat (case_match; [by eexists|]).
  match goal with H : negb (sa_seat a =? acting_seat s)%nat = false |- _ =>
    apply negb_false_iff, Nat.eqb_eq in H; rewrite H in * end.
  match goal with H : negb (bool_decide _) = false |- _ =>
    apply negb_false_iff, bool_decide_eq_true in H end. done.
Qed.

(** The fold case of [turn_after_action] happens: with two players all in, the fold of the
    third leaves the hand in its betting phase with 2010 chips in the pot and
    every action refused. *)
Lemma fold_can_strand_the_hand :
  ∃ s, reachable Rules_default 3 s ∧ phase s = Phase.Preflop ∧ active_count s = 2%nat
    ∧ pot s = 2010 ∧ ∀ a, ∃ e, apply s a = (s, Err e).
Proof.
  exists stuck_table. split_and!; [exact stuck_reachable|vm_compute; reflexivity..|].
  intros a. destruct (guard_inactive stuck_table a) as [e He]; [by vm_compute|].
  exists e. unfold apply. by rewrite He.
Qed.

Lemma advance_needs_match s a :
  is_round_complete s a = true → ∀ i, (i < num_players s)%nat → can_act s i = true → bets s !!! i = max_bet s.
Proof.
  unfold is_round_complete. intros H i Hi Hc.
  destruct (forallb _ _) eqn:E; [|done]. rewrite forallb_forall in E.
  apply Z.eqb_eq, E, filter_In. split; [|done]. by apply list_elem_of_In, elem_of_seats.
Qed.

(** A street never ends while money is owed: when an action closes the
    betting round, every seat that could still act had matched the highest bet
    (all the seats, if none can act). *)
Lemma street_ends_matched s a s' r :
  apply s a = (s', Ok r) → sa_action a ≠ Action.Fold → phase s' ≠ phase s →
  ∃ s1, apply_effect s a = Ok s1 ∧
    ∀ i, (i < num_players s1)%nat → can_act s1 i = true → bets s1 !!! i = max_bet s1.
Proof.
  intros E Hne Hp. destruct (apply_cases _ _ _ _ E) as [_ [[? _]|(_ & s1 & E1 & ->)]]; [done|].
  exists s1. split; [done|]. revert Hp.
  assert (phase s1 = phase s) as <-.
  { revert E1. unfold apply_effect, apply_bet_raise, apply_call, apply_all_in, mark_broke, note_raise.
    destruct (sa_action a); repeat case_match; intros [= <-]; reflexivity. }
  unfold apply_finish.
  set (s2 := match sa_action a with Action.Bet | Action.Raise | Action.AllIn => _ | _ => _ end).
  assert (num_players s2 = num_players s1 ∧ bets s2 = bets s1 ∧ seat_state s2 = seat_state s1
          ∧ stacks s2 = stacks s1 ∧ phase s2 = phase s1) as (F1 & F2 & F3 & F4 & F5)
    by (unfold s2; by destruct (sa_action a)). clearbody s2.
  assert (∀ i, can_act s2 i = can_act s1 i) as F6 by (intros; unfold can_act; by rewrite F3, F4).
  assert (max_bet s2 = max_bet s1) as F7 by (unfold max_bet; by rewrite F1, F2).
  rewrite <-F5.
  destruct (Nat.eqb_spec (count_if (can_act s2) (seats s2)) 0) as [Hc|Hc]; cbn [fst].
  - intros _ i Hi Hci. exfalso.
    assert (0 < count_if (can_act s2) (seats s2))%nat; [|lia].
    apply count_if_pos. exists i. rewrite elem_of_seats, F1, F6. done.
  - set (s3 := s2 <| acting_seat := _ |>).
    destruct (is_round_complete s3 (sa_action a)) eqn:Er; [|done].
    intros _ i Hi Hci. rewrite <-F2, <-F7.
    apply (advance_needs_match s3 _ Er i); [change (i < num_players s2)%nat; lia|].
    change (can_act s2 i = true). by rewrite F6.
Qed.

Definition limped : GameState := run three_handed [act 0 Action.Call 0; act 1 Action.Call 0].
Definition flopped : GameState := run limped [act 2 Action.Check 0].

Lemma street_ends_matched_witness :
  phase limped = Phase.Preflop ∧ phase flopped = Phase.Flop ∧
  ∃ s1, apply_effect limped (act 2 Action.Check 0) = Ok s1 ∧
    ∀ i, (i < num_players s1)%nat → can_act s1 i = true → bets s1 !!! i = max_bet s1.
Proof.
  split; [by vm_compute|]. split; [by vm_compute|].
  apply (street_ends_matched limped (act 2 Action.Check 0) flopped
           (mkActionResult true false 255 0 true)).
  - vm_compute. reflexivity.
  - done.
  - by vm_compute.
Defined.

Lemma mark_broke_frame s i : stacks (mark_broke s i) = stacks s ∧ bets (mark_broke s i) = bets s.
Proof. unfold mark_broke. by case_match. Qed.

Lemma note_raise_amounts s r : stacks (note_raise s r) = stacks s ∧ bets (note_raise s r) = bets s.
Proof. unfold note_raise. by case_match. Qed.

Lemma pay_amounts s i a :
  (i < length (stacks s))%nat → (i < length (bets s))%nat →
  stacks (pay s i a) !!! i = wsub 32 (stacks s !!! i) a
  ∧ bets (pay s i a) !!! i = wadd 32 (bets s !!! i) a.
Proof.
  intros H1 H2. unfold pay. cbn [stacks bets set_field].
  by rewrite !list_lookup_total_insert_eq.
Qed.

(** The minimum raise: an accepted bet or raise that does not put the seat
    all in opens for at least the big blind, or lifts the highest bet by at
    least the last raise. *)
Lemma minimum_raise s T seat req s' :
  ledger s T → (seat < num_players s)%nat → 0 ≤ req → 0 ≤ last_raise_size s →
  max_bet s + last_raise_size s < 2 ^ 32 →
  apply_bet_raise s seat req = Ok s' → 0 < stacks s' !!! seat →
  (max_bet s = 0 → big_blind (rules s) ≤ bets s' !!! seat)
  ∧ (0 < max_bet s → max_bet s + last_raise_size s ≤ bets s' !!! seat).
Proof.
  intros L Hi Hreq Hlr Hfit E Hst.
  assert (seat < MAX_SEATS)%nat as Him by (destruct L; lia).
  pose proof (lg_stack_range L seat Him) as Hs. pose proof (lg_bet_range L seat Him) as Hb.
  pose proof (lg_stack_pot L seat Him) as Hsp. pose proof (lg_contrib_range L seat Him) as Hc.
  pose proof (lg_bound _ _ _ _ _ _ _ L) as HT. pose proof (lg_rk _ _ _ _ _ _ _ L).
  pose proof umax32. pose proof (max_bet_nonneg s).
  assert (length (stacks s) = MAX_SEATS ∧ length (bets s) = MAX_SEATS) as [Ls Lb] by (by destruct L).
  revert E Hst. unfold apply_bet_raise. case_match; [done|].
  set (amount := Z.min req (stacks s !!! seat)).
  assert (0 ≤ amount ≤ stacks s !!! seat) as Ha by lia.
  assert (wadd 32 (bets s !!! seat) amount = bets s !!! seat + amount) as Ew
    by (apply wadd_small; lia).
  assert (wsub 32 (stacks s !!! seat) amount = stacks s !!! seat - amount) as Ews
    by (apply wsub_small; lia).
  rewrite Ew. clearbody amount.
  set (all_in := amount =? stacks s !!! seat).
  case_match eqn:G1; [done|]. case_match eqn:G2; [done|]. intros E. injection E as <-.
  set (s1 := note_raise _ _).
  assert (stacks s1 = stacks s ∧ bets s1 = bets s) as [N1 N2] by apply note_raise_amounts.
  clearbody s1. destruct (mark_broke_frame (pay s1 seat amount) seat) as [-> ->].
  destruct (pay_amounts s1 seat amount) as [-> ->]; [rewrite N1; lia|rewrite N2; lia|].
  rewrite N1, N2, Ew, Ews. intros Hst.
  assert (all_in = false) as Ea by (apply Z.eqb_neq; lia). rewrite Ea in G1, G2. cbn [negb andb] in G1, G2.
  apply Z.leb_gt in G1. apply Z.ltb_ge in G2. split; intros Hm.
  - rewrite Hm in G2. cbn in G2. lia.
  - rewrite (proj2 (Z.eqb_neq (max_bet s) 0)) in G2 by lia. unfold sat_sub in G2.
    rewrite wadd_small in G2 by lia. lia.
Qed.

Lemma minimum_raise_witness :
  max_bet three_handed = 10 ∧
  ∃ s', apply_bet_raise three_handed 0 20 = Ok s' ∧ max_bet three_handed + 10 ≤ bets s' !!! 0%nat.
Proof.
  split; [by vm_compute|].
  exists (default three_handed (match apply_bet_raise three_handed 0 20 with Ok s => Some s | Err _ => None end)).
  split; [vm_compute; reflexivity|].
  apply (minimum_raise three_handed 3000 0 20).
  - destruct three_handed_ok as [[_ L] _ _ _ _]. apply L. by vm_compute.
  - vm_compute; lia.
  - lia.
  - by vm_compute.
  - by vm_compute.
  - vm_compute; reflexivity.
  - by vm_compute.
  - by vm_compute.
Defined.

(** Six hands at a six-handed table, folded to the big blind but for the first,
    in which seat 0 calls and gives up; in the sixth seat 0 is all in for less
    than its two callers. *)
Definition redeal (s : GameState) : GameState := deal s [] [].
Definition folds (l : list nat) : list SignedAction := map (fun i => act i Action.Fold 0) l.

Definition hands : list (list SignedAction) :=
  [folds [3; 4; 5]%nat ++ [act 0 Action.Call 0; act 1 Action.Fold 0; act 2 Action.Check 0;
                           act 2 Action.Check 0; act 0 Action.Fold 0];
   folds [4; 5; 0; 1; 2]%nat; folds [5; 0; 1; 2; 3]%nat;
   folds [0; 1; 2; 3; 4]%nat; folds [1; 2; 3; 4; 5]%nat;
   [act 2 Action.Call 0; act 3 Action.Fold 0; act 4 Action.Call 0; act 5 Action.Fold 0;
    act 0 Action.AllIn 0; act 1 Action.Fold 0; act 2 Action.Call 0; act 4 Action.Call 0]].

Definition play (s : GameState) (l : list (list SignedAction)) : GameState :=
  foldl (fun s acts => run (redeal s) acts) s l.

(** A session is legal if each hand can be dealt when its turn comes. *)
Fixpoint legal (s : GameState) (l : list (list SignedAction)) : bool :=
  match l with
  | [] => true
  | acts :: l' =>
      (pot s =? 0) && (2 <=? count_if (funded s) (seats s))%nat
      && forallb (fun a => 0 <=? sa_amount a) acts && legal (run (redeal s) acts) l'
  end.

Lemma play_steps s l : legal s l = true → rtc step s (play s l).
Proof.
  revert s. induction l as [|acts l IH]; intros s; cbn [legal play foldl]; [done|].
  intros H. apply andb_true_iff in H as [H Hl]. apply andb_true_iff in H as [H Ha].
  apply andb_true_iff in H as [Hp%Z.eqb_eq Hc%Nat.leb_le].
  assert (Forall (fun a => 0 ≤ sa_amount a) acts) as Hf.
  { apply Forall_forall. intros a Hin%list_elem_of_In. rewrite forallb_forall in Ha.
    by apply Z.leb_le, Ha. }
  apply (rtc_l _ _ (redeal s)); [exact (step_deal s [] [] Hp Hc)|].
  transitivity (run (redeal s) acts); [exact (run_steps _ _ Hf)|exact (IH _ Hl)].
Qed.

(** The first seat to act on a new street can be skipped: when the seat
    left of the button is seat 0 and is all in, the search restarts from
    [0u8.wrapping_sub(1)], that is from seat 256 mod n; at this reachable
    six-handed flop the turn is at seat 4 although seat 2 acts first. *)
Lemma street_actor_can_skip :
  ∃ s, reachable Rules_default 6 s ∧ phase s = Phase.Flop ∧ button s = 5%nat
    ∧ acting_seat s = 4%nat ∧ next_active_in_round s (button s) = 2%nat.
Proof.
  exists (play (new Rules_default 6) hands).
  split_and!; [apply play_steps; by vm_compute|vm_compute; reflexivity..].
Qed.
