(* ===== verification/PvmRank.v ===== *)
(** Poker hand rankings as the rules state them, and that the evaluator of
    [PvmEval] implements them: the score orders hands exactly by category and
    then by tie-breaking ranks, it does not depend on the order of the cards, and
    the best of seven cards is the best five-card hand among them. *)
From stdpp Require Import base list sets.
From Stdlib Require Import ZArith Lia Permutation.
From S2P Require Import Prelude PvmEval.

Local Open Scope Z_scope.

(** * The ranking *)

(** The distinct ranks that occur [c] times, high to low. *)
Definition with_count (l : list Z) (c : nat) : list Z :=
  List.filter (fun r => (count_if (Z.eqb r) l =? c)%nat) (dedup l).

(** The top card of a straight; the ace is low only in A-2-3-4-5. *)
Definition straight_top (l : list Z) : option Z :=
  if bool_decide (l = [12; 3; 2; 1; 0]) then Some 3
  else if (length (dedup l) =? 5)%nat && (hd 0 l - List.last l 0 =? 4) then Some (hd 0 l) else None.

(** Category and tie-breaking ranks of a hand, given its ranks high to low: the
    ranks that repeat most come first. *)
Definition hand_key (l : list Z) (is_flush : bool) : Z * list Z :=
  let quads := with_count l 4 in
  let trips := with_count l 3 in
  let pairs := with_count l 2 in
  let grouped := quads ++ trips ++ pairs ++ with_count l 1 in
  match straight_top l with
  | Some t => if is_flush then (STRAIGHT_FLUSH, [t]) else (STRAIGHT, [t])
  | None =>
      match quads, trips, pairs with
      | _ :: _, _, _ => (QUADS, grouped)
      | _, _ :: _, _ :: _ => (FULL_HOUSE, grouped)
      | _, _, _ =>
          if is_flush then (FLUSH, l)
          else match trips, pairs with
               | _ :: _, _ => (TRIPS, grouped)
               | _, [_; _] => (TWO_PAIR, grouped)
               | _, [_] => (PAIR, grouped)
               | _, _ => (HIGH_CARD, grouped)
               end
      end
  end.

(** Ranks are compared lexicographically. *)
Fixpoint lex_lt (l1 l2 : list Z) : Prop :=
  match l1, l2 with
  | x :: l1', y :: l2' => x < y ∨ x = y ∧ lex_lt l1' l2'
  | _, _ => False
  end.

Definition key_lt (k1 k2 : Z * list Z) : Prop := k1.1 < k2.1 ∨ k1.1 = k2.1 ∧ lex_lt k1.2 k2.2.

(** * The score encodes the ranking *)

Definition digits (l : list Z) : Z := foldl (fun acc d => 16 * acc + d) 0 l.

Definition encode (k : Z * list Z) : Z := 2 ^ 20 * k.1 + digits k.2.

(** Length of the tie-break list of a category. *)
Definition key_length (cat : Z) : nat :=
  match cat with 0 | 5 => 5 | 1 => 4 | 2 | 3 => 3 | 6 | 7 => 2 | _ => 1 end.

Definition key_ok (k : Z * list Z) : bool :=
  (length k.2 =? key_length k.1)%nat && forallb (fun d => (0 <=? d) && (d <=? 12)) k.2
  && (0 <=? k.1) && (k.1 <=? 8).

(** Every list of [k] ranks up to [m], high to low. *)
Fixpoint ranks_upto (k : nat) (m : nat) : list (list Z) :=
  match k with
  | O => [[]]
  | S k => flat_map (fun v => map (cons (Z.of_nat v)) (ranks_upto k v)) (seq 0 (S m))
  end.

(** No rank occurs more than four times. *)
Definition four_suits (l : list Z) : bool := forallb (fun r => (count_if (Z.eqb r) l <=? 4)%nat) l.

(** [eval_ranks] on all hands, with and without a flush. *)
Lemma eval_ranks_table :
  forallb (fun l => negb (four_suits l) ||
             forallb (fun b => (eval_ranks l b =? encode (hand_key l b)) && key_ok (hand_key l b))
               [true; false])
    (ranks_upto 5 12) = true.
Proof. vm_compute. reflexivity. Qed.

Lemma in_ranks_upto k m l :
  descends (Z.of_nat m) l → length l = k → In l (ranks_upto k m).
Proof.
  revert k m. induction l as [|x l IH]; intros k m Hd <-; [by left|].
  destruct Hd as [Hx Hd]. cbn [length ranks_upto]. apply in_flat_map.
  exists (Z.to_nat x). split; [apply in_seq; lia|].
  apply in_map_iff. exists l. rewrite Z2Nat.id by lia. split; [done|].
  apply IH; [by rewrite Z2Nat.id by lia|done].
Qed.

(** A hand that can be dealt, up to suits: five ranks, none five times. *)
Definition hand_ok (hand : list Z) : Prop :=
  length hand = 5%nat ∧ Forall (fun c => 0 ≤ c < 52) hand
  ∧ four_suits (map (fun c => c mod 13) hand) = true.

Definition ranks_of (hand : list Z) : list Z := sort_desc (map (fun c => c mod 13) hand).

Definition all_one_suit (hand : list Z) : bool :=
  let suits := map (fun c => c / 13) hand in
  forallb (fun x => x =? hd 0 suits) suits.

(** Category and tie-break of five cards. *)
Definition key_of (hand : list Z) : Z * list Z := hand_key (ranks_of hand) (all_one_suit hand).

Lemma four_suits_perm l k : l ≡ₚ k → four_suits l = four_suits k.
Proof.
  intros H. unfold four_suits. rewrite (forallb_perm _ _ _ H). apply forallb_ext.
  intros x. by rewrite (count_if_perm _ _ _ H).
Qed.

Lemma eval_ranks_key l b :
  descends 12 l → length l = 5%nat → four_suits l = true →
  eval_ranks l b = encode (hand_key l b) ∧ key_ok (hand_key l b) = true.
Proof.
  intros Hd Hl Hf. pose proof eval_ranks_table as H. rewrite forallb_forall in H.
  specialize (H l (in_ranks_upto 5 12 l Hd Hl)). rewrite Hf in H. cbn [negb orb forallb] in H.
  rewrite andb_true_r in H. apply andb_true_iff in H as [H1 H2].
  apply andb_true_iff in H1 as [?%Z.eqb_eq ?]. apply andb_true_iff in H2 as [?%Z.eqb_eq ?].
  by destruct b.
Qed.

Lemma five_flush a b c d e :
  (a =? b) && (b =? c) && (c =? d) && (d =? e)
  = forallb (fun x => x =? a) [a; b; c; d; e].
Proof.
  cbn. rewrite Z.eqb_refl. cbn.
  destruct (Z.eqb_spec a b), (Z.eqb_spec b c), (Z.eqb_spec c d), (Z.eqb_spec d e),
    (Z.eqb_spec b a), (Z.eqb_spec c a), (Z.eqb_spec d a), (Z.eqb_spec e a); cbn; congruence.
Qed.

Lemma eval_5_flush hand :
  length hand = 5%nat → eval_5 hand = eval_ranks (ranks_of hand) (all_one_suit hand).
Proof.
  intros Hl. destruct hand as [|a [|b [|c [|d [|e [|]]]]]]; try discriminate Hl.
  unfold eval_5, ranks_of, all_one_suit. f_equal. apply five_flush.
Qed.

(** The score of a hand encodes its category and tie-break. *)
Lemma eval_5_key hand :
  hand_ok hand → eval_5 hand = encode (key_of hand) ∧ key_ok (key_of hand) = true.
Proof.
  intros (Hl & Hr & Hf). rewrite eval_5_flush by done. unfold key_of, ranks_of.
  set (l := map (fun c => c mod 13) hand) in *. apply eval_ranks_key.
  - apply sort_desc_descends. apply Forall_forall. intros x Hx.
    apply list_elem_of_In, in_map_iff in Hx as (c & <- & _).
    pose proof (Z.mod_pos_bound c 13). lia.
  - rewrite (Permutation_length (sort_desc_perm l)). unfold l. by rewrite length_map.
  - by rewrite (four_suits_perm _ _ (sort_desc_perm l)).
Qed.

(** * The encoding preserves the order *)

Lemma digits_app l x : digits (l ++ [x]) = 16 * digits l + x.
Proof. unfold digits. by rewrite foldl_app. Qed.

Lemma digits_cons x l : digits (x :: l) = x * 16 ^ Z.of_nat (length l) + digits l.
Proof.
  induction l as [|y l IH] using rev_ind; [cbn; lia|].
  rewrite app_comm_cons, !digits_app, IH, length_app.
  replace (Z.of_nat (length l + length [y])) with (Z.of_nat (length l) + 1) by (cbn; lia).
  rewrite Z.pow_add_r by lia. lia.
Qed.

Lemma digits_range l :
  Forall (fun d => 0 ≤ d ≤ 12) l → 0 ≤ digits l < 16 ^ Z.of_nat (length l).
Proof.
  induction 1 as [|x l Hx Hl IH]; [cbn; lia|]. rewrite digits_cons. cbn [length].
  rewrite Nat2Z.inj_succ, Z.pow_succ_r by lia. nia.
Qed.

Lemma digits_lex l1 l2 :
  length l1 = length l2 → Forall (fun d => 0 ≤ d ≤ 12) l1 → Forall (fun d => 0 ≤ d ≤ 12) l2 →
  digits l1 < digits l2 ↔ lex_lt l1 l2.
Proof.
  revert l2. induction l1 as [|x l1 IH]; intros [|y l2] Hl H1 H2; try discriminate Hl; [cbn; lia|].
  injection Hl as Hl. apply Forall_cons in H1 as [Hx H1], H2 as [Hy H2].
  rewrite !digits_cons, <-Hl. cbn [lex_lt]. rewrite <-(IH l2 Hl H1 H2).
  pose proof (digits_range l1 H1). pose proof (digits_range l2 H2) as R2. rewrite <-Hl in R2.
  set (p := 16 ^ Z.of_nat (length l1)) in *. clearbody p. split; nia.
Qed.

Lemma key_ok_spec k :
  key_ok k = true → length k.2 = key_length k.1 ∧ Forall (fun d => 0 ≤ d ≤ 12) k.2 ∧ 0 ≤ k.1 ≤ 8.
Proof.
  unfold key_ok. rewrite !andb_true_iff. intros [[[H1%Nat.eqb_eq H2] H3%Z.leb_le] H4%Z.leb_le].
  split_and!; [done| |done|done]. apply Forall_forall. intros x Hx%list_elem_of_In.
  rewrite forallb_forall in H2. apply H2 in Hx. lia.
Qed.

Lemma key_length_le c : (key_length c ≤ 5)%nat.
Proof. unfold key_length. repeat case_match; lia. Qed.

Lemma key_digits k : key_ok k = true → 0 ≤ digits k.2 < 2 ^ 20.
Proof.
  intros (H1 & H2 & _)%key_ok_spec. pose proof (digits_range _ H2) as Hr. rewrite H1 in Hr.
  pose proof (key_length_le k.1). 
  assert (16 ^ Z.of_nat (key_length k.1) ≤ 16 ^ 5) by (apply Z.pow_le_mono_r; lia). lia.
Qed.

Lemma encode_lt k1 k2 :
  key_ok k1 = true → key_ok k2 = true → encode k1 < encode k2 ↔ key_lt k1 k2.
Proof.
  intros H1 H2. pose proof (key_digits _ H1). pose proof (key_digits _ H2).
  apply key_ok_spec in H1 as (L1 & F1 & _), H2 as (L2 & F2 & _).
  unfold encode, key_lt. destruct (decide (k1.1 = k2.1)) as [E|E].
  - rewrite <-(digits_lex k1.2 k2.2) by (congruence || done). lia.
  - split; lia.
Qed.

(** * Best of seven *)

Lemma foldl_max {A} (f : A → Z) (l : list A) b :
  let r := foldl (fun best x => let score := f x in if best <? score then score else best) b l in
  b ≤ r ∧ (∀ x, x ∈ l → f x ≤ r) ∧ (r = b ∨ ∃ x, x ∈ l ∧ f x = r).
Proof.
  cbn zeta. revert b. induction l as [|x l IH]; intros b; cbn [foldl].
  { split_and!; [lia|set_solver|by left]. }
  destruct (IH (if b <? f x then f x else b)) as (H1 & H2 & H3).
  set (r := foldl _ _ l) in *. clearbody r. destruct (Z.ltb_spec b (f x)).
  - split_and!; [lia| |].
    + intros y [->|Hy]%elem_of_cons; [lia|auto].
    + right. destruct H3 as [->|(y & ? & ?)]; [exists x; split; [left|done]|exists y; split; [by right|done]].
  - split_and!; [lia| |].
    + intros y [->|Hy]%elem_of_cons; [lia|auto].
    + destruct H3 as [->|(y & ? & ?)]; [by left|right; exists y; split; [by right|done]].
Qed.

Lemma in_index_pairs i j : (i < j < 7)%nat → (i, j) ∈ index_pairs.
Proof.
  intros Hij. apply list_elem_of_In, in_flat_map. exists i. split; [apply in_seq; lia|].
  apply in_map, in_seq. lia.
Qed.

Local Ltac drops ij := exists ij; split; [apply in_index_pairs; lia|reflexivity].

(** The five-card sublists of seven cards are the ones the loops visit. *)
Lemma sublist_drop_two all7 five :
  length all7 = 7%nat → five `sublist_of` all7 → length five = 5%nat →
  ∃ ij, ij ∈ index_pairs ∧ five = drop_two all7 ij.1 ij.2.
Proof.
  intros H7 Hs H5.
  destruct all7 as [|a [|b [|c [|d [|e [|f [|g [|]]]]]]]]; try discriminate H7. clear H7.
  repeat match goal with
  | H : _ `sublist_of` _ |- _ => inversion H; clear H; subst
  end; cbn in H5; try lia;
  first [drops (0, 1)%nat|drops (0, 2)%nat|drops (0, 3)%nat|drops (0, 4)%nat
        |drops (0, 5)%nat|drops (0, 6)%nat|drops (1, 2)%nat|drops (1, 3)%nat
        |drops (1, 4)%nat|drops (1, 5)%nat|drops (1, 6)%nat|drops (2, 3)%nat
        |drops (2, 4)%nat|drops (2, 5)%nat|drops (2, 6)%nat|drops (3, 4)%nat
        |drops (3, 5)%nat|drops (3, 6)%nat|drops (4, 5)%nat|drops (4, 6)%nat
        |drops (5, 6)%nat].
Qed.

Lemma drop_two_sublist all7 ij :
  length all7 = 7%nat → ij ∈ index_pairs →
  drop_two all7 ij.1 ij.2 `sublist_of` all7 ∧ length (drop_two all7 ij.1 ij.2) = 5%nat.
Proof.
  intros H7 Hij.
  destruct all7 as [|a [|b [|c [|d [|e [|f [|g [|]]]]]]]]; try discriminate H7. clear H7.
  apply list_elem_of_In in Hij. cbn in Hij.
  repeat (destruct Hij as [<-|Hij]; [split; [|reflexivity]; cbn; repeat constructor|]).
  destruct Hij.
Qed.

(** Cards as a deck deals them: distinct, from 0 to 51. *)
Definition dealt (hand : list Z) : Prop := NoDup hand ∧ Forall (fun c => 0 ≤ c < 52) hand.

(** A deck has four cards of each rank. *)
Lemma dealt_four_suits hand : dealt hand → four_suits (map (fun c => c mod 13) hand) = true.
Proof.
  intros [Hnd Hr]. unfold four_suits. apply forallb_forall. intros r _. apply Nat.leb_le.
  rewrite count_if_map. unfold count_if.
  apply (NoDup_incl_length (l' := [r; r + 13; r + 26; r + 39])).
  - by apply List.NoDup_filter, NoDup_ListNoDup.
  - intros c [Hc Hm%Z.eqb_eq]%filter_In. rewrite Forall_forall in Hr.
    apply list_elem_of_In, Hr in Hc. subst r.
    pose proof (Z.div_mod c 13 ltac:(lia)) as E.
    assert (0 ≤ c / 13 < 4) by (split; [apply Z.div_pos; lia|apply Z.div_lt_upper_bound; lia]).
    cbn. lia.
Qed.

Lemma dealt_hand_ok hand : dealt hand → length hand = 5%nat → hand_ok hand.
Proof. intros H Hl. split_and!; [done|by destruct H|by apply dealt_four_suits]. Qed.

Lemma dealt_sublist five hand : five `sublist_of` hand → dealt hand → dealt five.
Proof.
  intros Hs [Hnd Hr]. split; [by eapply sublist_NoDup|].
  rewrite Forall_forall in *. intros c Hc. apply Hr.
  by eapply elem_of_submseteq; [|apply sublist_submseteq].
Qed.

Lemma eval_5_nonneg hand : dealt hand → length hand = 5%nat → 0 ≤ eval_5 hand.
Proof.
  intros Hd Hl. destruct (eval_5_key hand) as [-> Hk]; [by apply dealt_hand_ok|].
  pose proof (key_digits _ Hk). apply key_ok_spec in Hk as (_ & _ & ?). unfold encode. lia.
Qed.

Lemma best_of_7_max all7 :
  length all7 = 7%nat → dealt all7 →
  (∀ five, five `sublist_of` all7 → length five = 5%nat → eval_5 five ≤ best_of_7 all7)
  ∧ ∃ five, five `sublist_of` all7 ∧ length five = 5%nat ∧ eval_5 five = best_of_7 all7.
Proof.
  intros H7 Hd.
  pose proof (foldl_max (fun ij => eval_5 (drop_two all7 ij.1 ij.2)) index_pairs 0) as H.
  unfold best_of_7. cbv beta zeta in H |- *. set (r := foldl _ 0 index_pairs) in *. clearbody r.
  destruct H as (H0 & Hle & Hex). split.
  - intros five Hs H5. destruct (sublist_drop_two all7 five H7 Hs H5) as (ij & Hij & ->).
    by apply Hle.
  - destruct Hex as [->|(ij & Hij & E)].
    + destruct (drop_two_sublist all7 (0, 1)%nat H7) as [Hs H5]; [apply in_index_pairs; lia|].
      exists (drop_two all7 0 1). split_and!; [done|done|].
      pose proof (Hle (0, 1)%nat ltac:(apply in_index_pairs; lia)).
      pose proof (eval_5_nonneg _ (dealt_sublist _ _ Hs Hd) H5). cbn in *. lia.
    + destruct (drop_two_sublist all7 ij H7 Hij). by exists (drop_two all7 ij.1 ij.2).
Qed.

Lemma eval_5_perm h1 h2 : length h1 = 5%nat → h1 ≡ₚ h2 → eval_5 h1 = eval_5 h2.
Proof.
  intros Hl Hp. assert (length h2 = 5%nat) as Hl2 by (by rewrite <-(Permutation_length Hp)).
  rewrite !eval_5_flush by done. f_equal.
  - unfold ranks_of. apply sort_desc_perm_eq. by apply Permutation_map.
  - unfold all_one_suit.
    pose proof (Permutation_map (fun c => c / 13) Hp) as Hs.
    rewrite (forallb_perm _ _ _ Hs). clear Hl Hl2.
    set (l1 := map _ h1) in *. set (l2 := map _ h2) in *. clearbody l1 l2.
    destruct l1 as [|x l1]; [by apply Permutation_nil in Hs as ->|].
    destruct l2 as [|y l2]; [by apply Permutation_sym, Permutation_nil in Hs|]. cbn [hd].
    apply eq_true_iff_eq. rewrite !forallb_forall.
    assert (In x (y :: l2)) as Hx by (eapply Permutation_in; [exact Hs|by left]).
    split; intros H z Hz; apply Z.eqb_eq.
    + assert (y = x) as -> by (apply Z.eqb_eq, H; by left). by apply Z.eqb_eq, H.
    + assert (x = y) as -> by (by apply Z.eqb_eq, H). by apply Z.eqb_eq, H.
Qed.

(** * The properties of the ranking *)

(** C38.  The score orders hands as the rules of poker do: one five-card hand
    scores less than another exactly when its category is lower, or the
    categories are equal and its tie-breaking ranks are lexicographically
    lower. *)
Theorem score_order h1 h2 :
  dealt h1 → length h1 = 5%nat → dealt h2 → length h2 = 5%nat →
  eval_5 h1 < eval_5 h2 ↔ key_lt (key_of h1) (key_of h2).
Proof.
  intros D1 L1 D2 L2.
  destruct (eval_5_key h1) as [-> K1]; [by apply dealt_hand_ok|].
  destruct (eval_5_key h2) as [-> K2]; [by apply dealt_hand_ok|].
  by apply encode_lt.
Qed.

Lemma dealt_bool (l : list Z) :
  bool_decide (NoDup l) && forallb (fun c => (0 <=? c) && (c <? 52)) l = true → dealt l.
Proof.
  intros [H1%bool_decide_eq_true H2]%andb_true_iff. split; [done|].
  apply Forall_forall. intros c Hc%list_elem_of_In. rewrite forallb_forall in H2.
  apply H2 in Hc. lia.
Qed.

(** A wheel against a pair of aces. *)
Lemma score_order_witness :
  key_of [12; 13; 1; 2; 3] = (STRAIGHT, [3]) ∧
  (eval_5 [12; 25; 1; 2; 3] < eval_5 [12; 13; 1; 2; 3]
   ↔ key_lt (key_of [12; 25; 1; 2; 3]) (key_of [12; 13; 1; 2; 3])).
Proof.
  split; [reflexivity|].
  apply (score_order [12; 25; 1; 2; 3] [12; 13; 1; 2; 3]);
    first [reflexivity|apply dealt_bool; vm_compute; reflexivity].
Defined.

(** The evaluator looks at the cards, not at their order. *)
Lemma score_permutation h1 h2 : length h1 = 5%nat → h1 ≡ₚ h2 → eval_5 h1 = eval_5 h2.
Proof. apply eval_5_perm. Qed.

(** [best_hand_7] is the best five-card hand in the seven cards: no five of
    them score more and some five score as much. *)
Lemma best_hand_7_is_max hole community :
  length community = 5%nat → dealt (hole.1 :: hole.2 :: community) →
  (∀ five, five `sublist_of` hole.1 :: hole.2 :: community → length five = 5%nat →
     eval_5 five ≤ best_hand_7 hole community)
  ∧ ∃ five, five `sublist_of` hole.1 :: hole.2 :: community ∧ length five = 5%nat
      ∧ eval_5 five = best_hand_7 hole community.
Proof.
  intros Hl Hd. unfold best_hand_7.
  assert (map (fun i => community !!! i) (seq 0 5) = community) as ->.
  { destruct community as [|a [|b [|c [|d [|e [|]]]]]]; try discriminate Hl. done. }
  apply best_of_7_max; [cbn; congruence|done].
Qed.

Lemma best_hand_7_is_max_witness :
  ∃ five, five `sublist_of` [12; 25; 38; 51; 0; 1; 2] ∧ length five = 5%nat
    ∧ eval_5 five = best_hand_7 (12, 25) [38; 51; 0; 1; 2].
Proof.
  apply (best_hand_7_is_max (12, 25) [38; 51; 0; 1; 2]); [reflexivity|].
  apply dealt_bool. vm_compute. reflexivity.
Defined.

(** The order in which the seven cards are dealt does not matter. *)
Lemma best_of_7_permutation l k :
  length l = 7%nat → dealt l → l ≡ₚ k → best_of_7 l = best_of_7 k.
Proof.
  intros Hl Hd Hp.
  assert (length k = 7%nat) as Hk by (by rewrite <-(Permutation_length Hp)).
  assert (dealt k) as Dk by (unfold dealt in *; by rewrite <-Hp).
  assert (∀ l k, length l = 7%nat → dealt l → length k = 7%nat → dealt k → l ≡ₚ k →
            best_of_7 l ≤ best_of_7 k) as H.
  { clear. intros l k Hl Dl Hk Dk Hp.
    destruct (best_of_7_max l Hl Dl) as [_ (five & Hs & H5 & <-)].
    destruct (sublist_Permutation _ _ _ Hs Hp) as (five' & Hp' & Hs').
    rewrite (eval_5_perm five five') by done.
    apply (best_of_7_max k Hk Dk); [done|by rewrite <-(Permutation_length Hp')]. }
  pose proof (H l k). pose proof (H k l). specialize (H0 Hl Hd Hk Dk Hp).
  specialize (H1 Hk Dk Hl Hd (Permutation_sym Hp)). lia.
Qed.
