(* ===== verification/PokerHand.v ===== *)
(** The SDK's hand evaluator, [crates/poker-sdk/src/hand.rs]: cards and their
    names, the evaluator for five to seven cards, comparison and winners; and how
    it relates to the engine's evaluator of [PvmEval]. *)
From stdpp Require Import base list strings sets.
From Stdlib Require Import ZArith Lia Ascii Permutation.
From S2P Require Import Prelude PvmEval PvmRank.

Local Open Scope Z_scope.

(** * Cards *)

Definition Card : Type := Z.

Definition Card_new (rank suit : Z) : Card := wadd 8 (wmul 8 suit 13) rank.
Definition rank (c : Card) : Z := c mod 13.
Definition suit (c : Card) : Z := c / 13.
Definition rank_value (c : Card) : Z := rank c + 2.

(** Strings are byte lists; a character is its ASCII code. *)
Definition byte_rank (x : Z) : option Z :=
  if (50 <=? x) && (x <=? 57) then Some (x - 50)        (* '2'..='9' *)
  else if (x =? 84) || (x =? 116) then Some 8           (* T t *)
  else if (x =? 74) || (x =? 106) then Some 9           (* J j *)
  else if (x =? 81) || (x =? 113) then Some 10          (* Q q *)
  else if (x =? 75) || (x =? 107) then Some 11          (* K k *)
  else if (x =? 65) || (x =? 97) then Some 12           (* A a *)
  else None.

Definition byte_suit (x : Z) : option Z :=
  if (x =? 99) || (x =? 67) then Some 0                 (* c C *)
  else if (x =? 100) || (x =? 68) then Some 1           (* d D *)
  else if (x =? 104) || (x =? 72) then Some 2           (* h H *)
  else if (x =? 115) || (x =? 83) then Some 3           (* s S *)
  else None.

Definition from_str (s : list Z) : option Card :=
  match s with
  | [x; y] => r ← byte_rank x; t ← byte_suit y; Some (Card_new r t)
  | _ => None
  end.

Definition to_string (c : Card) : list Z :=
  let rank_char :=
    if rank c <=? 7 then 50 + rank c
    else match rank c with 8 => 84 | 9 => 74 | 10 => 81 | 11 => 75 | 12 => 65 | _ => 63 end in
  let suit_char := match suit c with 0 => 99 | 1 => 100 | 2 => 104 | 3 => 115 | _ => 63 end in
  [rank_char; suit_char].

(** * Evaluated hands *)

Module HandRank.
Inductive HandRank :=
| HighCard | OnePair | TwoPair | ThreeOfAKind | Straight | Flush | FullHouse | FourOfAKind
| StraightFlush | RoyalFlush.
End HandRank.
Abbreviation HandRank := HandRank.HandRank.

Definition HandRank_to_u8 (r : HandRank) : Z :=
  match r with
  | HandRank.HighCard => 0 | HandRank.OnePair => 1 | HandRank.TwoPair => 2
  | HandRank.ThreeOfAKind => 3 | HandRank.Straight => 4 | HandRank.Flush => 5
  | HandRank.FullHouse => 6 | HandRank.FourOfAKind => 7 | HandRank.StraightFlush => 8
  | HandRank.RoyalFlush => 9
  end.

Definition HandRank_name (r : HandRank) : string :=
  match r with
  | HandRank.HighCard => "High Card" | HandRank.OnePair => "One Pair"
  | HandRank.TwoPair => "Two Pair" | HandRank.ThreeOfAKind => "Three of a Kind"
  | HandRank.Straight => "Straight" | HandRank.Flush => "Flush"
  | HandRank.FullHouse => "Full House" | HandRank.FourOfAKind => "Four of a Kind"
  | HandRank.StraightFlush => "Straight Flush" | HandRank.RoyalFlush => "Royal Flush"
  end.

Record EvaluatedHand := mkEvaluatedHand {
  eh_rank : HandRank;
  primary : Z;
  secondary : Z;
  eh_kickers : Z * Z * Z;
}.

Definition score (e : EvaluatedHand) : Z :=
  let '(k0, k1, k2) := eh_kickers e in
  (HandRank_to_u8 (eh_rank e) << 20) ||| (primary e << 16) ||| (secondary e << 12)
  ||| (k0 << 8) ||| (k1 << 4) ||| k2.

(** [Ord::cmp] *)
Definition hand_cmp (e1 e2 : EvaluatedHand) : comparison := (score e1 ?= score e2).

(** * The evaluator *)

(** [rank_counts[r] += 1] for each card; past the array it panics. *)
Definition count_ranks (ranks : list Z) : list Z :=
  foldl (fun f r => alter (Z.add 1) (Z.to_nat r) f) (replicate 13 0) ranks.

Definition count_suits (cards : list Card) : list Z :=
  foldl (fun f c => alter (Z.add 1) (Z.to_nat (suit c)) f) (replicate 4 0) cards.

(** [suit_cards[s]]: the ranks of suit [s], in card order. *)
Definition suit_cards (cards : list Card) (s : Z) : list Z :=
  map rank (List.filter (fun c => suit c =? s) cards).

Definition straight_masks : list (Z * Z) :=
  [(0x1f00, 12); (0xf80, 11); (0x7c0, 10); (0x3e0, 9); (0x1f0, 8); (0xf8, 7); (0x7c, 6);
   (0x3e, 5); (0x1f, 4); (0x100f, 3)].

Definition find_straight (rank_mask : Z) : option Z :=
  snd <$> find_first (fun mh => Z.land rank_mask mh.1 =? mh.1) straight_masks.

(** [mask |= 1 << r] over the ranks. *)
Definition mask_of (ranks : list Z) : Z := foldl (fun m r => m ||| (1 << r)) 0 ranks.

(** The ranks that occur [n] times, ascending, as the [enumerate] loops meet them. *)
Definition ranks_with (counts : list Z) (p : Z → bool) : list Z :=
  map (fun i => Z.of_nat i) (List.filter (fun i => p (counts !!! i)) (seq 0 (length counts))).

Definition get_kickers (sources : list (list Z)) (count : nat) : list Z :=
  let all := take count (sort_desc (concat sources)) in
  all ++ replicate (count - length all)%nat 0.

Definition or_else {A} (x y : option A) : option A := match x with Some _ => x | None => y end.

(** [first().copied().unwrap_or(0)] and [get(i).copied().unwrap_or(0)] *)
Definition get_or_0 (l : list Z) (i : nat) : Z := default 0 (l !! i).

(** [evaluate_hand] from the counts on: [flush] holds the ranks of the flush
    suit, if there is one. *)
Definition evaluate_counts (counts : list Z) (flush : option (list Z)) : EvaluatedHand :=
  let quads := sort_desc (ranks_with counts (Z.eqb 4)) in
  let trips := sort_desc (ranks_with counts (Z.eqb 3)) in
  let pairs := sort_desc (ranks_with counts (Z.eqb 2)) in
  let singles := sort_desc (ranks_with counts (Z.eqb 1)) in
  let rank_mask := mask_of (ranks_with counts (Z.ltb 0)) in
  match ranks ← flush; find_straight (mask_of ranks) with
  | Some high =>
      mkEvaluatedHand (if high =? 12 then HandRank.RoyalFlush else HandRank.StraightFlush) high 0 (0, 0, 0)
  | None =>
      if (0 <? length quads)%nat then
        let kicker := default 0 (or_else (head trips) (or_else (head pairs) (head singles))) in
        mkEvaluatedHand HandRank.FourOfAKind (quads !!! 0%nat) kicker (0, 0, 0)
      else if (0 <? length trips)%nat && ((0 <? length pairs)%nat || (2 <=? length trips)%nat) then
        mkEvaluatedHand HandRank.FullHouse (trips !!! 0%nat)
          (if (2 <=? length trips)%nat then trips !!! 1%nat else pairs !!! 0%nat) (0, 0, 0)
      else
        match flush with
        | Some ranks =>
            let fr := sort_desc ranks in
            mkEvaluatedHand HandRank.Flush (fr !!! 0%nat) (fr !!! 1%nat)
              (get_or_0 fr 2, get_or_0 fr 3, get_or_0 fr 4)
        | None =>
            match find_straight rank_mask with
            | Some high => mkEvaluatedHand HandRank.Straight high 0 (0, 0, 0)
            | None =>
                if (0 <? length trips)%nat then
                  let ks := get_kickers [pairs; singles] 2 in
                  mkEvaluatedHand HandRank.ThreeOfAKind (trips !!! 0%nat) (ks !!! 0%nat) (ks !!! 1%nat, 0, 0)
                else if (2 <=? length pairs)%nat then
                  let kicker := max_or_0 (option_list (pairs !! 2%nat) ++ option_list (head singles)) in
                  mkEvaluatedHand HandRank.TwoPair (pairs !!! 0%nat) (pairs !!! 1%nat) (kicker, 0, 0)
                else if (0 <? length pairs)%nat then
                  let ks := get_kickers [singles] 3 in
                  mkEvaluatedHand HandRank.OnePair (pairs !!! 0%nat) (ks !!! 0%nat) (ks !!! 1%nat, ks !!! 2%nat, 0)
                else
                  mkEvaluatedHand HandRank.HighCard (get_or_0 singles 0) (get_or_0 singles 1)
                    (get_or_0 singles 2, get_or_0 singles 3, get_or_0 singles 4)
            end
        end
  end.

Definition evaluate_hand (cards : list Card) : EvaluatedHand :=
  let flush_suit := position (fun c => 5 <=? c) (count_suits cards) in
  evaluate_counts (count_ranks (map rank cards))
    ((fun s => suit_cards cards (Z.of_nat s)) <$> flush_suit).

Definition compare_hands (hand1 hand2 : list Card) : comparison :=
  hand_cmp (evaluate_hand hand1) (evaluate_hand hand2).

Definition find_winners (hands : list (list Card)) : list nat :=
  match map (fun h => score (evaluate_hand h)) hands with
  | [] => []
  | x :: xs =>
      let max_score := foldl Z.max x xs in
      map fst (List.filter (fun ie => ie.2 =? max_score) (imap pair (x :: xs)))
  end.

Definition rank_name (r : Z) : string :=
  match r with
  | 0 => "Two" | 1 => "Three" | 2 => "Four" | 3 => "Five" | 4 => "Six" | 5 => "Seven"
  | 6 => "Eight" | 7 => "Nine" | 8 => "Ten" | 9 => "Jack" | 10 => "Queen" | 11 => "King"
  | 12 => "Ace" | _ => "?"
  end.

Definition describe_hand (e : EvaluatedHand) : string :=
  match eh_rank e with
  | HandRank.RoyalFlush => "Royal Flush"
  | HandRank.StraightFlush => rank_name (primary e) +:+ "-high Straight Flush"
  | HandRank.FourOfAKind => "Four " +:+ rank_name (primary e) +:+ "s"
  | HandRank.FullHouse => rank_name (primary e) +:+ "s full of " +:+ rank_name (secondary e) +:+ "s"
  | HandRank.Flush => rank_name (primary e) +:+ "-high Flush"
  | HandRank.Straight => rank_name (primary e) +:+ "-high Straight"
  | HandRank.ThreeOfAKind => "Three " +:+ rank_name (primary e) +:+ "s"
  | HandRank.TwoPair => rank_name (primary e) +:+ "s and " +:+ rank_name (secondary e) +:+ "s"
  | HandRank.OnePair => "Pair of " +:+ rank_name (primary e) +:+ "s"
  | HandRank.HighCard => rank_name (primary e) +:+ " high"
  end.

(** The SDK's score of a hand, from its category and tie-break: the royal flush
    is a category of its own and every tie-break is padded to five digits. *)
Definition sdk_encode (k : Z * list Z) : Z :=
  2 ^ 20 * (if (k.1 =? STRAIGHT_FLUSH) && (digits k.2 =? 12) then 9 else k.1)
  + digits k.2 * 16 ^ Z.of_nat (5 - length k.2).

Lemma evaluate_table :
  forallb (fun l => negb (four_suits l) ||
             forallb (fun b : bool => score (evaluate_counts (count_ranks l) (if b then Some l else None))
                               =? sdk_encode (hand_key l b)) [true; false])
    (ranks_upto 5 12) = true.
Proof. vm_compute. reflexivity. Qed.

(** * Five cards: the two evaluators agree *)

Lemma count_ranks_perm l k : l ≡ₚ k → count_ranks l = count_ranks k.
Proof.
  apply foldl_perm. intros f x y. destruct (decide (Z.to_nat x = Z.to_nat y)) as [E|E].
  - by rewrite E.
  - by rewrite list_alter_alter_ne.
Qed.

Lemma mask_of_perm l k : l ≡ₚ k → mask_of l = mask_of k.
Proof.
  apply foldl_perm. intros m x y. by rewrite <-!Z.lor_assoc, (Z.lor_comm (1 << x)).
Qed.

Lemma evaluate_counts_perm counts l k :
  l ≡ₚ k → evaluate_counts counts (Some l) = evaluate_counts counts (Some k).
Proof.
  intros H. unfold evaluate_counts. cbn [mbind option_bind].
  by rewrite (mask_of_perm l k H), (sort_desc_perm_eq l k H).
Qed.

Lemma dealt_suit hand c : dealt hand → c ∈ hand → 0 ≤ suit c < 4.
Proof.
  intros [_ Hr] Hc. rewrite Forall_forall in Hr. specialize (Hr c Hc). unfold suit.
  split; [apply Z.div_pos; lia|apply Z.div_lt_upper_bound; lia].
Qed.

Lemma count_suits_lookup cards k :
  (k < 4)%nat → count_suits cards !!! k = Z.of_nat (count_if (fun c => Z.to_nat (suit c) =? k)%nat cards).
Proof. apply foldl_counts. Qed.

Lemma length_count_suits cards : length (count_suits cards) = 4%nat.
Proof.
  unfold count_suits.
  assert (∀ (l : list Card) c, length (foldl (fun f c => alter (Z.add 1) (Z.to_nat (suit c)) f) c l) = length c) as H.
  { intros l. induction l as [|x l IH]; intros c; cbn; [done|]. by rewrite IH, length_alter. }
  by rewrite H.
Qed.

Lemma all_one_suit_spec hand :
  all_one_suit hand = true ↔ ∀ c, c ∈ hand → suit c = suit (hd 0 hand).
Proof.
  unfold all_one_suit. rewrite forallb_forall. split.
  - intros H c Hc. assert (In (suit c) (map (fun c => c / 13) hand)) as Hin
      by (apply (in_map suit), list_elem_of_In, Hc).
    apply H, Z.eqb_eq in Hin. rewrite Hin. by destruct hand.
  - intros H x Hx. apply in_map_iff in Hx as (c & <- & Hc%list_elem_of_In). apply Z.eqb_eq.
    specialize (H c Hc). unfold suit in H. rewrite H. by destruct hand.
Qed.

(** With five cards there is a flush suit exactly when they share their suit. *)
Lemma flush_of_five hand :
  dealt hand → length hand = 5%nat →
  (fun s => suit_cards hand (Z.of_nat s)) <$> position (fun c => 5 <=? c) (count_suits hand)
  = if all_one_suit hand then Some (map rank hand) else None.
Proof.
  intros Hd Hl.
  assert (∀ k, position (fun c => 5 <=? c) (count_suits hand) = Some k →
            ∀ c, c ∈ hand → suit c = Z.of_nat k) as Hk.
  { intros k Hk c Hc. destruct (position_Some _ _ _ Hk) as (x & Hx & H5%Z.leb_le).
    pose proof (lookup_lt_Some _ _ _ Hx) as Hlt. rewrite length_count_suits in Hlt.
    apply list_lookup_total_correct in Hx. rewrite count_suits_lookup in Hx by done.
    pose proof (count_if_le (fun c => Z.to_nat (suit c) =? k)%nat hand).
    unfold Card in *. set (p := fun c : Z => (Z.to_nat (suit c) =? k)%nat) in *.
    assert (count_if p hand = length hand) as E by lia.
    pose proof (dealt_suit hand c Hd Hc).
    apply (proj1 (count_if_full _ _) E), Nat.eqb_eq in Hc as E'. clear - E' H0. lia. }
  destruct (all_one_suit hand) eqn:E.
  - pose proof (proj1 (all_one_suit_spec hand) E) as Hs.
    destruct (position _ _) as [k|] eqn:Ek.
    + cbn [fmap option_fmap option_map]. f_equal. unfold suit_cards. f_equal.
      specialize (Hk k eq_refl). clear - Hk. induction hand as [|c hand IH]; [done|]. cbn.
      rewrite (Hk c) by left. rewrite Z.eqb_refl. f_equal. apply IH. intros. apply Hk. by right.
    + exfalso. rewrite position_None in Ek. set (s := Z.to_nat (suit (hd 0 hand))).
      assert (hd 0 hand ∈ hand) as Hhd by (destruct hand; [done|left]).
      pose proof (dealt_suit hand _ Hd Hhd) as Hr.
      assert (count_suits hand !!! s ∈ count_suits hand) as Hin.
      { apply list_elem_of_lookup. exists s. apply list_lookup_lookup_total_lt.
        rewrite length_count_suits. unfold s. lia. }
      apply Ek in Hin. rewrite count_suits_lookup in Hin by (unfold s; lia).
      rewrite (proj2 (count_if_full _ hand)) in Hin; [rewrite Hl in Hin; done|].
      intros c Hc. apply Nat.eqb_eq. unfold s. by rewrite (Hs c Hc).
  - destruct (position _ _) as [k|] eqn:Ek; [|done]. exfalso.
    assert (all_one_suit hand = true); [|congruence]. apply all_one_suit_spec. intros c Hc.
    rewrite !(Hk k eq_refl); [done| |done]. destruct hand; [done|left].
Qed.

(** The SDK's score of five dealt cards. *)
Lemma evaluate_five hand :
  dealt hand → length hand = 5%nat → score (evaluate_hand hand) = sdk_encode (key_of hand).
Proof.
  intros Hd Hl. unfold evaluate_hand, key_of. rewrite flush_of_five by done.
  change (map rank hand) with (map (fun c => c mod 13) hand).
  pose proof (sort_desc_perm (map (fun c => c mod 13) hand)) as Hp. fold (ranks_of hand) in Hp.
  destruct (dealt_hand_ok hand Hd Hl) as (_ & Hr & Hf).
  pose proof evaluate_table as T. rewrite forallb_forall in T.
  specialize (T (ranks_of hand)). rewrite (four_suits_perm _ _ Hp), Hf in T. cbn [negb orb forallb] in T.
  rewrite andb_true_r, <-(count_ranks_perm _ _ (Permutation_sym Hp)) in T.
  apply andb_true_iff in T as [T1%Z.eqb_eq T2%Z.eqb_eq]; cycle 1.
  { apply in_ranks_upto; [|by rewrite (Permutation_length Hp), length_map].
    apply sort_desc_descends, Forall_forall. intros x Hx.
    apply list_elem_of_In, in_map_iff in Hx as (c & <- & _).
    pose proof (Z.mod_pos_bound c 13). lia. }
  destruct (all_one_suit hand); [|done].
  by rewrite (evaluate_counts_perm _ _ _ (Permutation_sym Hp)).
Qed.

(** The SDK's encoding orders keys as the rules do. *)
Lemma sdk_encode_lt k1 k2 :
  key_ok k1 = true → key_ok k2 = true → sdk_encode k1 < sdk_encode k2 ↔ key_lt k1 k2.
Proof.
  destruct k1 as [c1 l1], k2 as [c2 l2].
  intros (L1 & F1 & C1)%key_ok_spec (L2 & F2 & C2)%key_ok_spec. cbn [fst snd] in *.
  pose proof (digits_range l1 F1) as R1. pose proof (digits_range l2 F2) as R2.
  pose proof (fun E => digits_lex l1 l2 E F1 F2) as Hlex.
  unfold sdk_encode, key_lt. cbn [fst snd].
  assert (∀ l c, length l = key_length c → 0 ≤ digits l < 16 ^ Z.of_nat (length l) →
    0 ≤ digits l * 16 ^ Z.of_nat (5 - length l) < 16 ^ 5) as Hpad.
  { intros l c E R. pose proof (key_length_le c).
    replace (16 ^ 5) with (16 ^ Z.of_nat (length l) * 16 ^ Z.of_nat (5 - length l))
      by (rewrite <-Z.pow_add_r by lia; f_equal; lia).
    assert (0 < 16 ^ Z.of_nat (5 - length l)) by (apply Z.pow_pos_nonneg; lia). nia. }
  pose proof (Hpad l1 c1 L1 R1). pose proof (Hpad l2 c2 L2 R2). unfold STRAIGHT_FLUSH.
  destruct (decide (c1 = c2)) as [<-|Hne].
  - rewrite <-L1 in L2. specialize (Hlex (eq_sym L2)). rewrite L2 in *.
    set (p := 16 ^ Z.of_nat (5 - length l1)) in *.
    assert (0 < p) by (apply Z.pow_pos_nonneg; lia).
    assert (c1 = 8 → digits l1 ≤ 12 ∧ digits l2 ≤ 12) as H8.
    { intros ->. destruct l1 as [|a [|]], l2 as [|b [|]]; try discriminate L1; try discriminate L2.
      apply Forall_cons in F1 as [? _], F2 as [? _]. cbn. lia. }
    assert (digits l1 < digits l2 ↔ digits l1 * p < digits l2 * p) as Hp by (clear - H1; split; nia).
    rewrite <-Hlex, Hp. clearbody p. clear Hp Hlex Hpad.
    destruct (Z.eqb_spec c1 8), (Z.eqb_spec (digits l1) 12), (Z.eqb_spec (digits l2) 12); cbn [andb];
      try (split; lia); specialize (H8 e); split; try nia.
  - destruct (Z.eqb_spec c1 8), (Z.eqb_spec c2 8), (Z.eqb_spec (digits l1) 12),
      (Z.eqb_spec (digits l2) 12); cbn [andb]; split; lia.
Qed.

(** The SDK's evaluator and the engine's agree on five cards: whatever two
    hands a deck deals, the one the SDK scores higher is the one the engine
    scores higher. *)
Lemma evaluators_agree h1 h2 :
  dealt h1 → length h1 = 5%nat → dealt h2 → length h2 = 5%nat →
  hand_cmp (evaluate_hand h1) (evaluate_hand h2) = (eval_5 h1 ?= eval_5 h2).
Proof.
  intros D1 L1 D2 L2. unfold hand_cmp. rewrite !evaluate_five by done.
  destruct (eval_5_key h1) as [-> K1]; [by apply dealt_hand_ok|].
  destruct (eval_5_key h2) as [-> K2]; [by apply dealt_hand_ok|].
  pose proof (sdk_encode_lt _ _ K1 K2). pose proof (encode_lt _ _ K1 K2).
  pose proof (sdk_encode_lt _ _ K2 K1). pose proof (encode_lt _ _ K2 K1).
  destruct (Z.compare_spec (encode (key_of h1)) (encode (key_of h2))).
  - apply Z.compare_eq_iff, Z.le_antisymm; apply Z.le_ngt; intros Hc; [apply H1, H2 in Hc|apply H, H0 in Hc]; lia.
  - apply Z.compare_lt_iff. tauto.
  - apply Z.compare_gt_iff. tauto.
Qed.

(** A royal flush against a wheel. *)
Lemma evaluators_agree_witness :
  hand_cmp (evaluate_hand [8; 9; 10; 11; 12]) (evaluate_hand [12; 13; 1; 2; 3])
  = (eval_5 [8; 9; 10; 11; 12] ?= eval_5 [12; 13; 1; 2; 3]).
Proof.
  apply (evaluators_agree [8; 9; 10; 11; 12] [12; 13; 1; 2; 3]);
    first [reflexivity|apply dealt_bool; vm_compute; reflexivity].
Defined.

(** * Names, winners, and hands of more than five cards *)

(** Card names round-trip, and every card of the deck has a name of its
    own: reading back the name of a card gives the card. *)
Lemma card_name_roundtrip c : 0 ≤ c < 52 → from_str (to_string c) = Some c.
Proof.
  intros Hc. assert (forallb (fun c => bool_decide (from_str (to_string c) = Some c))
                       (map Z.of_nat (seq 0 52)) = true) as T by (vm_compute; reflexivity).
  rewrite forallb_forall in T. eapply bool_decide_eq_true, T.
  apply in_map_iff. exists (Z.to_nat c). split; [lia|]. apply in_seq. lia.
Qed.

(** The ace of spades. *)
Lemma card_name_roundtrip_witness : to_string 51 = [65; 115] ∧ from_str (to_string 51) = Some 51.
Proof. split; [reflexivity|apply card_name_roundtrip; lia]. Defined.

Lemma foldl_Zmax l x :
  (∀ y, y ∈ x :: l → y ≤ foldl Z.max x l) ∧ foldl Z.max x l ∈ x :: l.
Proof.
  revert x. induction l as [|y l IH]; intros x; cbn [foldl].
  { split; [intros y ->%list_elem_of_singleton; lia|left]. }
  destruct (IH (Z.max x y)) as [H1 H2]. split.
  - intros z Hz. apply elem_of_cons in Hz as [->|[->|Hz]%elem_of_cons].
    + etrans; [|apply H1; left]. lia.
    + etrans; [|apply H1; left]. lia.
    + apply H1. by right.
  - apply elem_of_cons in H2 as [->|H2]; [|by do 2 right].
    destruct (Z.max_spec x y) as [[_ ->]|[_ ->]]; [right; left|left].
Qed.

(** [find_winners] returns exactly the positions of the best hands: those
    that no other hand beats.  Somebody wins as soon as there is a hand. *)
Lemma find_winners_spec hands :
  (∀ i, i ∈ find_winners hands ↔
     ∃ h, hands !! i = Some h ∧ ∀ h', h' ∈ hands → compare_hands h' h ≠ Gt)
  ∧ (hands ≠ [] → find_winners hands ≠ []).
Proof.
  assert (∀ i, i ∈ find_winners hands ↔
     ∃ h, hands !! i = Some h ∧ ∀ h', h' ∈ hands → compare_hands h' h ≠ Gt) as H.
  2: { split; [done|]. intros Hne E. destruct hands as [|h hs]; [done|].
       pose proof (foldl_Zmax (map (fun h => score (evaluate_hand h)) hs) (score (evaluate_hand h))) as [H1 H2].
       rewrite <-(map_cons (fun h => score (evaluate_hand h))) in H1, H2.
       apply list_elem_of_In, in_map_iff in H2 as (w & Hw & [i Hi]%list_elem_of_In%list_elem_of_lookup).
       assert (i ∈ find_winners (h :: hs)) as Hin; [|rewrite E in Hin; set_solver].
       apply H. exists w. split; [done|]. intros h' Hh'. unfold compare_hands, hand_cmp. rewrite Z.compare_gt_iff.
       rewrite Hw. apply Z.le_ngt, H1. apply list_elem_of_In, (in_map (fun h => score (evaluate_hand h))), list_elem_of_In, Hh'. }
  intros i. destruct hands as [|h hs]; [split; [set_solver|intros (? & ? & _); done]|].
  set (sc := fun h => score (evaluate_hand h)).
  assert (find_winners (h :: hs) = map fst (List.filter (fun ie => ie.2 =? foldl Z.max (sc h) (map sc hs))
            (imap pair (map sc (h :: hs))))) as -> by reflexivity.
  pose proof (foldl_Zmax (map sc hs) (sc h)) as [H1 H2]. set (m := foldl Z.max (sc h) (map sc hs)) in *. clearbody m.
  change (sc h :: map sc hs) with (map sc (h :: hs)) in *. set (hands := h :: hs) in *. clearbody hands.
  rewrite list_elem_of_In, in_map_iff. split.
  - intros ([j x] & <- & [Hx%list_elem_of_In E%Z.eqb_eq]%filter_In). cbn in *. subst x.
    apply elem_of_lookup_imap in Hx as (j' & x & [= -> ->] & Hx).
    rewrite list_lookup_fmap in Hx. 
    apply fmap_Some in Hx as (w & Hw & ->). exists w. split; [done|]. intros h' Hh'.
    unfold compare_hands, hand_cmp. rewrite Z.compare_gt_iff. apply Z.le_ngt, H1.
    by apply list_elem_of_In, (in_map sc), list_elem_of_In.
  - intros (w & Hw & Hmax). exists (i, sc w). split; [done|]. apply filter_In. split.
    + apply list_elem_of_In, elem_of_lookup_imap. exists i, (sc w). split; [done|].
      rewrite list_lookup_fmap, Hw. done.
    + cbn. apply Z.eqb_eq. apply Z.le_antisymm.
      * apply H1. apply list_elem_of_In, (in_map sc), list_elem_of_In. by eapply list_elem_of_lookup_2.
      * apply list_elem_of_In, in_map_iff in H2 as (b & <- & Hb%list_elem_of_In).
        specialize (Hmax b Hb). unfold compare_hands, hand_cmp in Hmax. rewrite Z.compare_gt_iff in Hmax.
        unfold sc. lia.
Qed.

(** A tie at the top of three hands. *)
Lemma find_winners_spec_witness :
  let hands := [[8; 9; 10; 11; 25]; [0; 14; 28; 42; 5]; [47; 48; 49; 50; 12]; [0; 14; 28; 42; 5]] in
  find_winners hands = [0; 2]%nat ∧ find_winners hands ≠ [].
Proof. split; [vm_compute; reflexivity|apply find_winners_spec; discriminate]. Defined.

(** On seven cards the two evaluators can disagree.  With four of a kind the
    SDK takes the kicker from the triples, else the pairs, else the singles,
    whatever their ranks: on the board 2-2-2-2-3 the hand A-3 plays a three as
    kicker and loses to K-Q, while the engine plays the ace and wins. *)
Lemma quads_kicker_disagrees :
  let board := [0; 13; 26; 39; 1] in
  let ace_three := 25 :: 14 :: board in
  let king_queen := 37 :: 36 :: board in
  dealt ace_three ∧ dealt king_queen
  ∧ best_hand_7 (25, 14) board > best_hand_7 (37, 36) board
  ∧ compare_hands ace_three king_queen = Lt.
Proof.
  cbn zeta. split; [apply dealt_bool; vm_compute; reflexivity|].
  split; [apply dealt_bool; vm_compute; reflexivity|].
  split; vm_compute; reflexivity.
Qed.
