(* ===== verification/PvmTable.v ===== *)
(** Around the engine in [crates/poker-pvm/src/lib.rs]: the opponent statistics
    ([PlayerProfile], [TableProfiles]; the [f32] ratios derived from them are not
    modelled) and the browser wrapper [WasmGame]. *)
From stdpp Require Import base list strings sets.
From Stdlib Require Import ZArith Lia.
From S2P Require Import Prelude PvmTypes PvmEval PvmEngine.

Local Open Scope Z_scope.

(** * Opponent statistics *)

Record PlayerProfile := mkPlayerProfile {
  hands_seen : Z;
  vpip_count : Z;
  pfr_count : Z;
  postflop_bets : Z;
  postflop_calls : Z;
  postflop_checks : Z;
  postflop_folds : Z;
  allin_count : Z;
  showdowns_seen : Z;
  showdowns_won : Z;
  three_bet_count : Z;
  cbet_count : Z;
  cbet_opportunities : Z;
  acted_preflop : bool;
  raised_preflop : bool;
  was_pfr : bool;
}.
#[export] Instance PlayerProfile_eta : Eta PlayerProfile := fun p =>
  mkPlayerProfile (hands_seen p) (vpip_count p) (pfr_count p) (postflop_bets p) (postflop_calls p)
    (postflop_checks p) (postflop_folds p) (allin_count p) (showdowns_seen p) (showdowns_won p)
    (three_bet_count p) (cbet_count p) (cbet_opportunities p) (acted_preflop p) (raised_preflop p)
    (was_pfr p).

Definition PlayerProfile_default : PlayerProfile :=
  mkPlayerProfile 0 0 0 0 0 0 0 0 0 0 0 0 0 false false false.

#[global] Instance PlayerProfile_inhabited : Inhabited PlayerProfile := populate PlayerProfile_default.

(** [+= 1] on a [u32] *)
Definition incr (x : Z) : Z := wadd 32 x 1.

Definition new_hand (p : PlayerProfile) : PlayerProfile :=
  p <| hands_seen := incr (hands_seen p) |> <| acted_preflop := false |>
    <| raised_preflop := false |> <| was_pfr := false |>.

Definition observe_preflop (p : PlayerProfile) (a : Action) (is_facing_raise : bool) : PlayerProfile :=
  let p :=
    if negb (acted_preflop p) then
      let p := p <| acted_preflop := true |> in
      match a with
      | Action.Call | Action.Bet | Action.Raise | Action.AllIn =>
          p <| vpip_count := incr (vpip_count p) |>
      | _ => p
      end
    else p in
  match a with
  | Action.Bet | Action.Raise =>
      let p := p <| pfr_count := incr (pfr_count p) |> <| raised_preflop := true |>
                 <| was_pfr := true |> in
      if is_facing_raise then p <| three_bet_count := incr (three_bet_count p) |> else p
  | Action.AllIn =>
      p <| pfr_count := incr (pfr_count p) |> <| allin_count := incr (allin_count p) |>
        <| was_pfr := true |>
  | _ => p
  end.

Definition on_flop (ph : Phase) (p : PlayerProfile) : bool :=
  bool_decide (ph = Phase.Flop) && was_pfr p.

Definition observe_postflop (p : PlayerProfile) (a : Action) (ph : Phase) : PlayerProfile :=
  let p :=
    match a with
    | Action.Bet | Action.Raise =>
        let p := p <| postflop_bets := incr (postflop_bets p) |> in
        if on_flop ph p then p <| cbet_count := incr (cbet_count p) |> else p
    | Action.Call => p <| postflop_calls := incr (postflop_calls p) |>
    | Action.Check =>
        let p := p <| postflop_checks := incr (postflop_checks p) |> in
        if on_flop ph p then p <| cbet_opportunities := incr (cbet_opportunities p) |> else p
    | Action.Fold => p <| postflop_folds := incr (postflop_folds p) |>
    | Action.AllIn =>
        p <| postflop_bets := incr (postflop_bets p) |> <| allin_count := incr (allin_count p) |>
    end in
  if on_flop ph p && match a with Action.Bet | Action.Raise | Action.AllIn => true | _ => false end
  then p <| cbet_opportunities := incr (cbet_opportunities p) |> else p.

Definition observe_action (p : PlayerProfile) (a : Action) (ph : Phase) (is_facing_raise : bool) : PlayerProfile :=
  match ph with
  | Phase.Preflop => observe_preflop p a is_facing_raise
  | Phase.Flop | Phase.Turn | Phase.River => observe_postflop p a ph
  | _ => p
  end.

Definition observe_showdown (p : PlayerProfile) (won : bool) : PlayerProfile :=
  let p := p <| showdowns_seen := incr (showdowns_seen p) |> in
  if won then p <| showdowns_won := incr (showdowns_won p) |> else p.

(** [TableProfiles]: one profile per seat. *)
Definition TableProfiles : Type := list PlayerProfile.
Definition TableProfiles_default : TableProfiles := seat_array PlayerProfile_default.

Definition table_new_hand (t : TableProfiles) (num : nat) : TableProfiles :=
  foldl (fun t i => <[i := new_hand (t !!! i)]> t) t (seq 0 num).

Definition table_observe (t : TableProfiles) (seat : nat) (a : Action) (ph : Phase) (r : bool) : TableProfiles :=
  <[seat := observe_action (t !!! seat) a ph r]> t.

Definition table_observe_showdown (t : TableProfiles) (seat : nat) (won : bool) : TableProfiles :=
  <[seat := observe_showdown (t !!! seat) won]> t.

(** ** What is observed about one player *)

Inductive event :=
| NewHand
| Acted (a : Action) (ph : Phase) (facing : bool)
| Shown (won : bool).

Definition observe_event (p : PlayerProfile) (e : event) : PlayerProfile :=
  match e with
  | NewHand => new_hand p
  | Acted a ph f => observe_action p a ph f
  | Shown won => observe_showdown p won
  end.

(** The statistics after [n] events: counters below [n], and the part never
    above the whole. *)
Record profile_ok (n : Z) (p : PlayerProfile) : Prop := {
  pr_vpip : 0 ≤ vpip_count p ∧ vpip_count p + (if acted_preflop p then 0 else 1) ≤ hands_seen p;
  pr_hands : hands_seen p ≤ n;
  pr_won : 0 ≤ showdowns_won p ≤ showdowns_seen p;
  pr_seen : showdowns_seen p ≤ n;
  pr_cbet : 0 ≤ cbet_count p ≤ cbet_opportunities p;
  pr_opp : cbet_opportunities p ≤ n;
}.

Lemma incr_small x : 0 ≤ x < 2 ^ 32 - 1 → incr x = x + 1.
Proof. intros. apply wadd_small. lia. Qed.

Lemma profile_step n p e :
  n < 2 ^ 32 - 1 → profile_ok n p → profile_ok (n + 1) (observe_event p e).
Proof.
  intros Hn [[V1 V2] H [W1 W2] S [C1 C2] O].
  assert (0 ≤ vpip_count p ≤ n) by (destruct (acted_preflop p); lia).
  assert (0 ≤ hands_seen p) by (destruct (acted_preflop p); lia).
  destruct e as [|a ph f|won]; cbn [observe_event].
  - unfold new_hand. rewrite incr_small by lia.
    split; cbn; lia || (destruct (acted_preflop p); lia).
  - destruct ph; cbn [observe_action]; try (by split; lia || done).
    + unfold observe_preflop. destruct (acted_preflop p) eqn:Ea, a, f; cbn [negb];
        split; cbn; rewrite ?Ea, ?incr_small by lia; lia.
    + unfold observe_postflop, on_flop. rewrite bool_decide_eq_true_2 by done. cbn [andb].
      destruct a; cbn; destruct (was_pfr p); cbn; split; cbn; rewrite ?incr_small by lia; lia.
    + unfold observe_postflop, on_flop. rewrite bool_decide_eq_false_2 by done.
      destruct a; cbn; split; cbn; lia.
    + unfold observe_postflop, on_flop. rewrite bool_decide_eq_false_2 by done.
      destruct a; cbn; split; cbn; lia.
  - unfold observe_showdown. destruct won; split; cbn; rewrite ?incr_small by lia; lia.
Qed.

(** The statistics are consistent: whatever is observed of a player after
    its first hand, it entered no more pots than it saw hands, won no more
    showdowns than it reached, and made no more continuation bets than it had
    opportunities for (up to 2^32 observations). *)
Lemma profile_consistent events :
  Z.of_nat (length events) < 2 ^ 32 - 2 →
  let p := foldl observe_event (new_hand PlayerProfile_default) events in
  vpip_count p ≤ hands_seen p ∧ showdowns_won p ≤ showdowns_seen p
  ∧ cbet_count p ≤ cbet_opportunities p.
Proof.
  intros Hn p.
  assert (∀ l n q, n + Z.of_nat (length l) < 2 ^ 32 - 1 → profile_ok n q →
            profile_ok (n + Z.of_nat (length l)) (foldl observe_event q l)) as H.
  { induction l as [|e l IH]; intros n q Hl Hq; cbn [foldl length].
    - by replace (n + Z.of_nat 0) with n by lia.
    - cbn [length] in Hl. replace (n + Z.of_nat (S (length l))) with (n + 1 + Z.of_nat (length l)) by lia.
      apply IH; [lia|]. apply profile_step; [lia|done]. }
  destruct (H events 1 (new_hand PlayerProfile_default)) as [[V1 V2] _ [_ W] _ [_ C] _].
  - lia.
  - split; vm_compute; try split; discriminate.
  - fold p in V1, V2, W, C. destruct (acted_preflop p); lia.
Qed.

Lemma profile_consistent_witness :
  let p := foldl observe_event (new_hand PlayerProfile_default)
             [Acted Action.Raise Phase.Preflop false; Acted Action.Bet Phase.Flop false; Shown true] in
  cbet_count p = 1 ∧
  (vpip_count p ≤ hands_seen p ∧ showdowns_won p ≤ showdowns_seen p ∧ cbet_count p ≤ cbet_opportunities p).
Proof.
  split; [reflexivity|]. apply (profile_consistent
    [Acted Action.Raise Phase.Preflop false; Acted Action.Bet Phase.Flop false; Shown true]). cbn. lia.
Defined.

(** * The browser wrapper *)

(** [WasmGame] holds the [GameState] alone. *)
Definition wasm_rules (buyin sb bb bps cap : Z) : Rules := mkRules buyin sb bb 6 bps cap.

Definition wasm_new (buyin sb bb : Z) : GameState := new (wasm_rules buyin sb bb 0 0) 2.

Definition new_table (num : nat) (buyin sb bb bps cap : Z) : GameState :=
  new (wasm_rules buyin sb bb bps cap) num.

Definition new_with_rake (buyin sb bb bps cap : Z) : GameState := new_table 2 buyin sb bb bps cap.

Definition wasm_deal (s : GameState) (a0 a1 b0 b1 c0 c1 c2 c3 c4 : Z) : GameState :=
  deal s [(a0, a1); (b0, b1)] [c0; c1; c2; c3; c4].

(** The flat card array cut into hands, [(0, 0)] past its end. *)
Definition unflatten (n : nat) (cs : list Z) : list (Z * Z) :=
  map (fun i => if (i * 2 + 1 <? length cs)%nat then (cs !!! (i * 2)%nat, cs !!! (i * 2 + 1)%nat) else (0, 0))
    (seq 0 n).

Definition deal_n (s : GameState) (cs : list Z) (c0 c1 c2 c3 c4 : Z) : GameState :=
  deal s (unflatten (num_players s) cs) [c0; c1; c2; c3; c4].

(** [seat], [action], [amount] and [seq] come from JavaScript; an unknown action
    byte is a fold. *)
Definition wasm_signed (seat : nat) (action amount sq : Z) : SignedAction :=
  mkSignedAction seat (default Action.Fold (Action_from_u8 action)) amount sq (replicate 64 0).

Definition bool_u32 (x : bool) : Z := if x then 1 else 0.

Definition apply_action (s : GameState) (seat : nat) (action amount sq : Z) : GameState * list Z :=
  let '(s', r) := apply s (wasm_signed seat action amount sq) in
  (s', match r with
       | Ok r => [1; bool_u32 (ar_hand_over r); Z.of_nat (ar_winner r); ar_payout r; bool_u32 (ar_advance_phase r)]
       | Err _ => [0; 0; 0; 0; 0]
       end).

Definition update_community (s : GameState) (c0 c1 c2 c3 c4 : Z) : GameState :=
  s <| community := [c0; c1; c2; c3; c4] |> <| community_count := 5 |>.

(** Indexing past the seats panics. *)
Definition update_seat_cards (s : GameState) (seat : nat) (c0 c1 : Z) : option GameState :=
  if (seat <? MAX_SEATS)%nat then Some (s <| cards := <[seat := (c0, c1)]> (cards s) |>) else None.

Definition update_opp_cards (s : GameState) (c0 c1 : Z) : GameState :=
  s <| cards := <[1%nat := (c0, c1)]> (cards s) |>.

Definition all_stacks (s : GameState) : list Z := take (num_players s) (stacks s).
Definition all_bets (s : GameState) : list Z := take (num_players s) (bets s).
Definition all_seat_states (s : GameState) : list Z :=
  map SeatState_to_u8 (take (num_players s) (seat_state s)).

Definition set_state_n (s : GameState) (sts : list Z) (btn : nat) : GameState :=
  let s := foldl (fun s ix => if (ix.1 <? num_players s)%nat
                              then s <| stacks := <[ix.1 := ix.2]> (stacks s) |> else s)
             s (combine (seq 0 (length sts)) sts) in
  s <| button := btn |>.

Definition set_state (s : GameState) (s0 s1 : Z) (btn : nat) : GameState :=
  s <| stacks := <[1%nat := s1]> (<[0%nat := s0]> (stacks s)) |> <| button := btn |>.

Lemma unflatten_flat cs :
  unflatten (length cs) (flat_map (fun c => [c.1; c.2]) cs) = cs.
Proof.
  unfold unflatten. apply list_eq_total; [by rewrite length_map, length_seq|].
  intros j Hj. rewrite length_map, length_seq in Hj.
  rewrite map_lookup_total by (by rewrite length_seq).
  rewrite (list_lookup_total_correct (seq 0 (length cs)) j j) by (apply lookup_seq; lia).
  assert (∀ (cs : list (Z * Z)) j, (j < length cs)%nat →
            length (flat_map (fun c => [c.1; c.2]) cs) = (2 * length cs)%nat
            ∧ flat_map (fun c => [c.1; c.2]) cs !!! (j * 2)%nat = (cs !!! j).1
            ∧ flat_map (fun c => [c.1; c.2]) cs !!! (j * 2 + 1)%nat = (cs !!! j).2) as H.
  { clear. assert (∀ cs, length (flat_map (fun c : Z * Z => [c.1; c.2]) cs) = (2 * length cs)%nat) as Hlen.
    { induction cs as [|c cs IH]; cbn; [done|]. rewrite IH. lia. }
    intros cs j Hj. split; [apply Hlen|]. revert j Hj.
    induction cs as [|c cs IH]; intros [|j] Hj; cbn in Hj; try lia; [done|].
    apply (IH j). lia. }
  destruct (H cs j Hj) as (Hl & H1 & H2). rewrite Hl.
  rewrite (proj2 (Nat.ltb_lt (j * 2 + 1) (2 * length cs))) by lia. rewrite H1, H2.
  by destruct (cs !!! j).
Qed.

(** The wrapper's flat card array says what the engine's hands say: a full
    array deals exactly the hands it was flattened from. *)
Lemma deal_n_flat s cs c0 c1 c2 c3 c4 :
  length cs = num_players s →
  deal_n s (flat_map (fun c => [c.1; c.2]) cs) c0 c1 c2 c3 c4 = deal s cs [c0; c1; c2; c3; c4].
Proof. intros Hl. unfold deal_n. by rewrite <-Hl, unflatten_flat. Qed.

(** The sequence check can be skipped: an action that the engine accepts
    with its right sequence number passes every check with sequence number 0 as
    well, so an action sent with 0 can be replayed. *)
Lemma sequence_zero_passes s a :
  apply_guard s a = None →
  apply_guard s (mkSignedAction (sa_seat a) (sa_action a) (sa_amount a) 0 (sa_sig a)) = None.
Proof. unfold apply_guard. cbn [sa_seat sa_seq]. repeat case_match; done. Qed.
