(* ===== verification/ChanTypes.v ===== *)
(** Core types of the poker state channel, [crates/state-channel/src/types.rs].

    Hashes, keys and signatures are byte lists; balances are [u128], nonces and
    times [u64], seats and card indices [u8].  Encoding (SCALE, derived) and
    [blake3] are not part of the repository: the functions that use them take
    them as arguments. *)
From stdpp Require Import base list strings sets.
From Stdlib Require Import ZArith Lia.
From S2P Require Import Prelude.

Local Open Scope Z_scope.

Definition H256 : Type := list Z.
Definition H256_zero : H256 := replicate 32 0.

(** [H256::from_slice]: [copy_from_slice] panics unless 32 bytes are there. *)
Definition H256_from_slice (data : list Z) : option H256 :=
  if (32 <=? length data)%nat then Some (take 32 data) else None.

Definition PublicKey : Type := list Z.
Definition Signature : Type := list Z.
Definition Signature_default : Signature := replicate 64 0.

Definition MAX_PLAYERS : nat := 10.

Definition LigeritoProof : Type := list Z.
Definition ShuffleCommitment : Type := H256.

Record RevealToken := mkRevealToken {
  card_index : Z;
  token : list Z;
  proof : list Z;
}.

Record Participant := mkParticipant {
  account : PublicKey;
  p_seat : Z;
  stake : Z;
  encryption_key : list Z;
}.

Record SignedState (S : Type) := mkSignedState {
  ss_state : S;
  nonce : Z;
  signatures : list (option Signature);
}.
Arguments mkSignedState {S}.
Arguments ss_state {S}.
Arguments nonce {S}.
Arguments signatures {S}.

(** [state_hash]: the hash of the encoded pair of state and nonce. *)
Definition state_hash {S} (encode : S * Z → list Z) (blake3 : list Z → H256) (x : SignedState S) : H256 :=
  blake3 (encode (ss_state x, nonce x)).

Definition is_fully_signed {S} (x : SignedState S) (participant_count : nat) : bool :=
  (participant_count <=? length (signatures x))%nat
  && forallb is_Some_b (take participant_count (signatures x)).

Definition signature_count {S} (x : SignedState S) : nat := count_if is_Some_b (signatures x).

Module TransitionError.
Inductive TransitionError :=
| NotYourTurn
| InvalidPhase
| InsufficientChips
| InvalidBetAmount
| InvalidShuffleProof
| InvalidRevealToken
| CardAlreadyRevealed
| MissingSignature
| NonceMismatch
| ChannelNotOpen.
End TransitionError.
Abbreviation TransitionError := TransitionError.TransitionError.

Module TransitionResult.
Inductive TransitionResult :=
| Continue
| Finished (payouts : list (Z * Z))
| Invalid (e : TransitionError).
End TransitionResult.
Abbreviation TransitionResult := TransitionResult.TransitionResult.

(** A state counts as fully signed exactly when every one of the first
    [n] signature slots exists and is filled. *)
Lemma fully_signed_spec {S} (x : SignedState S) n :
  is_fully_signed x n = true ↔
  ∀ i, (i < n)%nat → ∃ s, signatures x !! i = Some (Some s).
Proof.
  unfold is_fully_signed. rewrite andb_true_iff, Nat.leb_le, forallb_forall. split.
  - intros [Hl H] i Hi. destruct (lookup_lt_is_Some_2 (signatures x) i) as [o Ho]; [lia|].
    specialize (H o). destruct o as [s|]; [by exists s|].
    assert (is_Some_b (@None Signature) = true); [|done]. apply H, list_elem_of_In.
    apply list_elem_of_lookup. exists i. by rewrite lookup_take_lt.
  - intros H. split.
    + destruct n as [|n]; [lia|]. destruct (H n) as [s Hs]; [lia|]. by apply lookup_lt_Some in Hs.
    + intros o Ho%list_elem_of_In%list_elem_of_lookup. destruct Ho as [i Hi].
      apply lookup_take_Some in Hi as [Hi Hin]. destruct (H i Hin) as [s Hs].
      rewrite Hi in Hs. by injection Hs as ->.
Qed.
