(* ===== verification/ChanState.v ===== *)
(** The game state of the channel, [crates/state-channel/src/state.rs]. *)
From stdpp Require Import base list strings sets.
From Stdlib Require Import ZArith Lia.
From S2P Require Import Prelude ChanTypes.

Local Open Scope Z_scope.

Module Phase.
Inductive Phase :=
| Lobby | Shuffling | PreFlop | Flop | Turn | River | Showdown | Complete.
End Phase.
Abbreviation Phase := Phase.Phase.
#[global] Instance Phase_eq_dec : EqDecision Phase.
Proof. solve_decision. Defined.

Record PlayerState := mkPlayerState {
  seat : Z;
  chips : Z;
  current_bet : Z;
  total_bet_this_hand : Z;
  is_folded : bool;
  is_all_in : bool;
  hole_card_indices : option (Z * Z);
  revealed_cards : option (Z * Z);
}.
#[export] Instance PlayerState_eta : Eta PlayerState := fun p =>
  mkPlayerState (seat p) (chips p) (current_bet p) (total_bet_this_hand p) (is_folded p)
    (is_all_in p) (hole_card_indices p) (revealed_cards p).

Definition PlayerState_new (st ch : Z) : PlayerState :=
  mkPlayerState st ch 0 0 false false None None.

Definition can_act (p : PlayerState) : bool :=
  negb (is_folded p) && negb (is_all_in p) && (0 <? chips p).

Definition reset_for_new_hand (p : PlayerState) (ch : Z) : PlayerState :=
  p <| chips := ch |> <| current_bet := 0 |> <| total_bet_this_hand := 0 |>
    <| is_folded := false |> <| is_all_in := false |>
    <| hole_card_indices := None |> <| revealed_cards := None |>.

Record Pot := mkPot {
  total : Z;
  eligible : list Z;
}.
#[export] Instance Pot_eta : Eta Pot := fun p => mkPot (total p) (eligible p).
Definition Pot_default : Pot := mkPot 0 [].

Record PokerState := mkPokerState {
  channel_id : H256;
  hand_number : Z;
  phase : Phase;
  players : list PlayerState;
  dealer_seat : Z;
  action_seat : Z;
  bet_to_call : Z;   (* the field [current_bet] *)
  min_raise : Z;
  big_blind : Z;
  pot : Pot;
  side_pots : list Pot;
  community_cards : list Z;
  shuffle_commitment : ShuffleCommitment;
  shuffle_proof : option LigeritoProof;
  reveal_tokens : list RevealToken;
  last_action_time : Z;
}.
#[export] Instance PokerState_eta : Eta PokerState := fun s =>
  mkPokerState (channel_id s) (hand_number s) (phase s) (players s) (dealer_seat s)
    (action_seat s) (bet_to_call s) (min_raise s) (big_blind s) (pot s) (side_pots s)
    (community_cards s) (shuffle_commitment s) (shuffle_proof s) (reveal_tokens s)
    (last_action_time s).

Definition PokerState_new (id : H256) (participants : list Participant) (bb : Z) : PokerState :=
  mkPokerState id 0 Phase.Lobby
    (map (fun p => PlayerState_new (p_seat p) (stake p)) participants)
    0 0 0 bb bb Pot_default [] [] H256_zero None [] 0.

Definition active_player_count (s : PokerState) : nat :=
  count_if (fun p => negb (is_folded p)) (players s).

Definition players_who_can_act (s : PokerState) : nat := count_if can_act (players s).

Definition get_player (s : PokerState) (st : Z) : option PlayerState :=
  find_first (fun p => seat p =? st) (players s).

(** What a use of [get_player_mut] or of [position] followed by
    [&mut state.players[idx]] does: [f] on the first player at the seat. *)
Fixpoint update_first (st : Z) (f : PlayerState → PlayerState) (l : list PlayerState) : list PlayerState :=
  match l with
  | [] => []
  | p :: l' => if seat p =? st then f p :: l' else p :: update_first st f l'
  end.

Definition update_player (s : PokerState) (st : Z) (f : PlayerState → PlayerState) : PokerState :=
  s <| players := update_first st f (players s) |>.

(** The [i]-th seat after [from], as a [u8]. *)
Definition seat_after (n : nat) (from : Z) (i : nat) : Z :=
  wrap 8 ((from + Z.of_nat i) mod Z.of_nat n).

Definition seat_can_act (s : PokerState) (st : Z) : bool :=
  match get_player s st with Some p => can_act p | None => false end.

Definition next_active_seat (s : PokerState) (from : Z) : option Z :=
  let n := length (players s) in
  find_first (seat_can_act s) (map (seat_after n from) (seq 1 n)).

Definition is_betting_round_complete (s : PokerState) : bool :=
  match List.filter (fun p => negb (is_folded p) && negb (is_all_in p)) (players s) with
  | [] => true
  | p :: _ as players_to_act =>
      forallb (fun q => (current_bet q =? current_bet p) && (bet_to_call s <=? current_bet q))
        players_to_act
  end.

Definition PokerState_hash (encode : PokerState → list Z) (blake3 : list Z → H256) (s : PokerState) : H256 :=
  blake3 (encode s).

Definition small_blind_seat (s : PokerState) : Z :=
  default (dealer_seat s) (next_active_seat s (dealer_seat s)).

Definition big_blind_seat (s : PokerState) : Z :=
  let sb := small_blind_seat s in default sb (next_active_seat s sb).

(** * Lemmas *)

(** The probes of [next_active_seat] cover the table. *)
Lemma seat_after_covers n from st :
  (0 < n ≤ 256)%nat → 0 ≤ from → 0 ≤ st < Z.of_nat n →
  st ∈ map (seat_after n from) (seq 1 n).
Proof.
  intros Hn Hf Hst. apply list_elem_of_In, in_map_iff.
  set (k := Z.to_nat ((st - from - 1) mod Z.of_nat n)).
  pose proof (Z.mod_pos_bound (st - from - 1) (Z.of_nat n) ltac:(lia)) as Hk.
  exists (S k). split; [|apply in_seq; lia]. unfold seat_after, k.
  rewrite Nat2Z.inj_succ, Z2Nat.id by lia.
  replace (from + Z.succ ((st - from - 1) mod Z.of_nat n))
    with ((st - from - 1) mod Z.of_nat n + (from + 1)) by lia.
  rewrite Zplus_mod_idemp_l. replace (st - from - 1 + (from + 1)) with st by lia.
  rewrite Z.mod_small by lia. apply Z.mod_small. lia.
Qed.

Lemma seat_after_range n from i :
  (0 < n ≤ 256)%nat → 0 ≤ seat_after n from i < Z.of_nat n.
Proof.
  intros Hn. unfold seat_after, wrap.
  pose proof (Z.mod_pos_bound (from + Z.of_nat i) (Z.of_nat n) ltac:(lia)).
  rewrite Z.mod_small by lia. done.
Qed.

Lemma update_first_sum (f : PlayerState → PlayerState) (g : PlayerState → Z) st l :
  zsum (map g (update_first st f l)) =
  match find_first (fun p => seat p =? st) l with
  | Some p => zsum (map g l) - g p + g (f p)
  | None => zsum (map g l)
  end.
Proof.
  induction l as [|p l IH]; cbn [update_first find_first map zsum]; [done|].
  destruct (seat p =? st); cbn [map zsum]; [lia|]. rewrite IH.
  destruct (find_first _ l); cbn; lia.
Qed.
