(* ===== verification/ChanGame.v ===== *)
(** The transitions of the channel game, [crates/state-channel/src/transition.rs]:
    one definition per [apply_*] function, each returning the state it leaves
    and its [TransitionResult].  Balances wrap at 128 bits, counters at 64, as
    in a release build. *)
From stdpp Require Import base list strings sets.
From Stdlib Require Import ZArith Lia.
From S2P Require Import Prelude ChanTypes ChanState.

Local Open Scope Z_scope.

Module Action.
Inductive Action :=
| StartHand
| SubmitShuffle (commitment : ShuffleCommitment) (proof : LigeritoProof)
| PostSmallBlind
| PostBigBlind
| Fold
| Check
| Call
| Raise (amount : Z)
| AllIn
| RevealCards (tokens : list RevealToken)
| RevealCommunity (tokens : list RevealToken)
| ClaimTimeout (seat : Z).
End Action.
Abbreviation Action := Action.Action.

Import TransitionResult TransitionError.

Definition requires_turn (a : Action) : bool :=
  match a with
  | Action.Fold | Action.Check | Action.Call | Action.Raise _ | Action.AllIn => true
  | _ => false
  end.

(** * Betting rounds *)

Definition reset_betting_round (s : PokerState) : PokerState :=
  let s := s <| bet_to_call := 0 |> <| min_raise := big_blind s |>
             <| players := map (fun p => p <| current_bet := 0 |>) (players s) |> in
  s <| action_seat := default (dealer_seat s) (next_active_seat s (dealer_seat s)) |>.

Definition next_phase (p : Phase) : Phase :=
  match p with
  | Phase.PreFlop => Phase.Flop
  | Phase.Flop => Phase.Turn
  | Phase.Turn => Phase.River
  | Phase.River => Phase.Showdown
  | _ => p
  end.

Definition advance_phase (s : PokerState) : PokerState :=
  reset_betting_round (s <| phase := next_phase (phase s) |>).

Definition advance_action (s : PokerState) : PokerState :=
  if is_betting_round_complete s then advance_phase s
  else match next_active_seat s (action_seat s) with
       | Some next => s <| action_seat := next |>
       | None => s
       end.

(** * The end of a hand *)

Definition finish_hand_single_winner (s : PokerState) : PokerState * TransitionResult :=
  match find_first (fun p => negb (is_folded p)) (players s) with
  | Some w =>
      let winner_seat := seat w in
      let pot_total := total (pot s) in
      let s := update_player s winner_seat (fun p => p <| chips := wadd 128 (chips p) pot_total |>) in
      (s <| phase := Phase.Complete |>, Finished [(winner_seat, pot_total)])
  | None => (s, Continue)
  end.

(** The seats that share the pot and what each is paid; the code divides by
    their number, which panics when it is zero. *)
Definition active_seats (s : PokerState) : list Z :=
  map seat (List.filter (fun p => negb (is_folded p)) (players s)).

Definition pay_share (share : Z) (s : PokerState) (st : Z) : PokerState :=
  update_player s st (fun p => p <| chips := wadd 128 (chips p) share |>).

(** [None] is the panic. *)
Definition determine_winner (s : PokerState) : option (PokerState * TransitionResult) :=
  let active_players := active_seats s in
  let pot_total := total (pot s) in
  match active_players with
  | [] => None
  | _ =>
      let share := pot_total / Z.of_nat (length active_players) in
      Some ((foldl (pay_share share) s active_players) <| phase := Phase.Complete |>,
            Finished (map (fun st => (st, share)) active_players))
  end.

(** * Hand setup *)

Definition reset_player (p : PlayerState) : PlayerState :=
  p <| current_bet := 0 |> <| total_bet_this_hand := 0 |> <| is_folded := false |>
    <| is_all_in := false |> <| hole_card_indices := None |> <| revealed_cards := None |>.

Definition apply_start_hand (s : PokerState) : PokerState * TransitionResult :=
  if negb (bool_decide (phase s = Phase.Lobby)) && negb (bool_decide (phase s = Phase.Complete))
  then (s, Invalid InvalidPhase)
  else
    let s := s <| hand_number := wadd 64 (hand_number s) 1 |> in
    let s := match next_active_seat s (dealer_seat s) with
             | Some next_dealer => s <| dealer_seat := next_dealer |>
             | None => s
             end in
    let s := s <| phase := Phase.Shuffling |> <| pot := Pot_default |> <| side_pots := [] |>
               <| community_cards := [] |> <| shuffle_commitment := H256_zero |>
               <| shuffle_proof := None |> <| reveal_tokens := [] |>
               <| bet_to_call := 0 |> <| min_raise := big_blind s |>
               <| players := map reset_player (players s) |> in
    (s <| action_seat := dealer_seat s |>, Continue).

(** Cards 0 and 1 to the first player, 2 and 3 to the second, and so on. *)
Fixpoint assign_hole_cards (card_idx : Z) (l : list PlayerState) : list PlayerState :=
  match l with
  | [] => []
  | p :: l' =>
      (p <| hole_card_indices := Some (card_idx, wadd 8 card_idx 1) |>)
      :: assign_hole_cards (wadd 8 card_idx 2) l'
  end.

(** The player part of posting a blind. *)
Definition place_blind (amount : Z) (p : PlayerState) : PlayerState :=
  let actual := Z.min amount (chips p) in
  let p := p <| chips := wsub 128 (chips p) actual |> <| current_bet := actual |>
             <| total_bet_this_hand := actual |> in
  if chips p =? 0 then p <| is_all_in := true |> else p.

(** The chips a blind of [amount] takes from the player at [st], if any. *)
Definition blind_actual (s : PokerState) (st amount : Z) : option Z :=
  (fun p => Z.min amount (chips p)) <$> get_player s st.

Definition add_to_pot (s : PokerState) (x : Z) : PokerState :=
  s <| pot := (pot s) <| total := wadd 128 (total (pot s)) x |> |>.

Definition post_blind (s : PokerState) (st amount : Z) : PokerState :=
  match blind_actual s st amount with
  | Some actual => add_to_pot (update_player s st (place_blind amount)) actual
  | None => s
  end.

Definition transition_to_preflop (s : PokerState) : PokerState * TransitionResult :=
  let s := s <| phase := Phase.PreFlop |> <| players := assign_hole_cards 0 (players s) |> in
  let sb_seat := small_blind_seat s in
  let bb_seat := big_blind_seat s in
  let s := post_blind s sb_seat (big_blind s / 2) in
  let s := match blind_actual s bb_seat (big_blind s) with
           | Some actual => (post_blind s bb_seat (big_blind s)) <| bet_to_call := actual |>
           | None => s
           end in
  (s <| action_seat := default sb_seat (next_active_seat s bb_seat) |>, Continue).

Definition apply_submit_shuffle (s : PokerState) (actor : Z) (c : ShuffleCommitment) (p : LigeritoProof)
  : PokerState * TransitionResult :=
  if negb (bool_decide (phase s = Phase.Shuffling)) then (s, Invalid InvalidPhase)
  else
    let s := s <| shuffle_commitment := c |> <| shuffle_proof := Some p |> in
    match next_active_seat s actor with
    | Some next =>
        if next =? dealer_seat s then transition_to_preflop s
        else (s <| action_seat := next |>, Continue)
    | None => (s, Continue)
    end.

Definition apply_post_blind (s : PokerState) (actor amount : Z) : PokerState * TransitionResult :=
  match blind_actual s actor amount with
  | Some actual =>
      let s' := post_blind s actor amount in
      (if bet_to_call s <? actual then s' <| bet_to_call := actual |> else s', Continue)
  | None => (s, Continue)
  end.

(** * Betting actions *)

Definition fold_player (p : PlayerState) : PlayerState := p <| is_folded := true |>.

Definition apply_fold (s : PokerState) (actor : Z) : PokerState * TransitionResult :=
  let s := update_player s actor fold_player in
  if (active_player_count s =? 1)%nat then finish_hand_single_winner s
  else (advance_action s, Continue).

Definition apply_check (s : PokerState) (actor : Z) : PokerState * TransitionResult :=
  match get_player s actor with
  | Some p =>
      if current_bet p <? bet_to_call s then (s, Invalid InvalidBetAmount)
      else (advance_action s, Continue)
  | None => (advance_action s, Continue)
  end.

(** [amount] chips from the player's stack to its bet. *)
Definition place_bet (amount : Z) (p : PlayerState) : PlayerState :=
  let p := p <| chips := wsub 128 (chips p) amount |>
             <| current_bet := wadd 128 (current_bet p) amount |>
             <| total_bet_this_hand := wadd 128 (total_bet_this_hand p) amount |> in
  if chips p =? 0 then p <| is_all_in := true |> else p.

Definition apply_call (s : PokerState) (actor : Z) : PokerState * TransitionResult :=
  let s := match get_player s actor with
           | Some p =>
               let to_call := wsub 128 (bet_to_call s) (current_bet p) in
               let actual := Z.min to_call (chips p) in
               add_to_pot (update_player s actor (place_bet actual)) actual
           | None => s
           end in
  (advance_action s, Continue).

Definition apply_raise (s : PokerState) (actor raise_amount : Z) : PokerState * TransitionResult :=
  if raise_amount <? min_raise s then (s, Invalid InvalidBetAmount)
  else
    match get_player s actor with
    | Some p =>
        let to_call := wsub 128 (bet_to_call s) (current_bet p) in
        let total_bet := wadd 128 to_call raise_amount in
        if chips p <? total_bet then (s, Invalid InsufficientChips)
        else
          let s := (add_to_pot (update_player s actor (place_bet total_bet)) total_bet)
                     <| bet_to_call := wadd 128 (current_bet p) total_bet |>
                     <| min_raise := raise_amount |> in
          (advance_action s, Continue)
    | None => (advance_action s, Continue)
    end.

Definition shove (p : PlayerState) : PlayerState :=
  p <| chips := 0 |> <| current_bet := wadd 128 (current_bet p) (chips p) |>
    <| total_bet_this_hand := wadd 128 (total_bet_this_hand p) (chips p) |>
    <| is_all_in := true |>.

Definition apply_all_in (s : PokerState) (actor : Z) : PokerState * TransitionResult :=
  let s := match get_player s actor with
           | Some p =>
               let new_current_bet := wadd 128 (current_bet p) (chips p) in
               let s' := add_to_pot (update_player s actor shove) (chips p) in
               if bet_to_call s <? new_current_bet then s' <| bet_to_call := new_current_bet |> else s'
           | None => s
           end in
  (advance_action s, Continue).

(** * Reveals *)

Definition reveal_player (p : PlayerState) : PlayerState :=
  match hole_card_indices p with
  | Some indices => p <| revealed_cards := Some indices |>
  | None => p
  end.

(** [None] is the panic of [determine_winner] with every player folded. *)
Definition apply_reveal_cards (s : PokerState) (actor : Z) (tokens : list RevealToken)
  : option (PokerState * TransitionResult) :=
  if negb (bool_decide (phase s = Phase.Showdown)) then Some (s, Invalid InvalidPhase)
  else
    let s := s <| reveal_tokens := reveal_tokens s ++ tokens |> in
    let s := update_player s actor reveal_player in
    let all_revealed :=
      forallb (fun p => is_Some_b (revealed_cards p))
        (List.filter (fun p => negb (is_folded p)) (players s)) in
    if all_revealed then determine_winner s else Some (s, Continue).

(** [if !contains(x) { push(x) }] *)
Definition push_new (l : list Z) (x : Z) : list Z :=
  if existsb (Z.eqb x) l then l else l ++ [x].

Definition apply_reveal_community (s : PokerState) (tokens : list RevealToken)
  : PokerState * TransitionResult :=
  let s := s <| reveal_tokens := reveal_tokens s ++ tokens |>
             <| community_cards := foldl push_new (community_cards s) (map card_index tokens) |> in
  (match length (community_cards s), phase s with
   | 3%nat, Phase.PreFlop => reset_betting_round (s <| phase := Phase.Flop |>)
   | 4%nat, Phase.Flop => reset_betting_round (s <| phase := Phase.Turn |>)
   | 5%nat, Phase.Turn => reset_betting_round (s <| phase := Phase.River |>)
   | _, _ => s
   end, Continue).

Definition TIMEOUT_SECONDS : Z := 60.

Definition apply_timeout (s : PokerState) (st current_time : Z) : PokerState * TransitionResult :=
  if wsub 64 current_time (last_action_time s) <? TIMEOUT_SECONDS then (s, Invalid InvalidPhase)
  else
    let s := update_player s st fold_player in
    if (active_player_count s =? 1)%nat then finish_hand_single_winner s
    else (advance_action s, Continue).

(** * The dispatcher; [None] is a panic *)

Definition apply_action (s : PokerState) (actor : Z) (a : Action) (timestamp : Z)
  : option (PokerState * TransitionResult) :=
  if requires_turn a && negb (action_seat s =? actor) then Some (s, Invalid NotYourTurn)
  else
    match a with
    | Action.StartHand => Some (apply_start_hand s)
    | Action.SubmitShuffle c p => Some (apply_submit_shuffle s actor c p)
    | Action.PostSmallBlind => Some (apply_post_blind s actor (big_blind s / 2))
    | Action.PostBigBlind => Some (apply_post_blind s actor (big_blind s))
    | Action.Fold => Some (apply_fold s actor)
    | Action.Check => Some (apply_check s actor)
    | Action.Call => Some (apply_call s actor)
    | Action.Raise amount => Some (apply_raise s actor amount)
    | Action.AllIn => Some (apply_all_in s actor)
    | Action.RevealCards tokens => apply_reveal_cards s actor tokens
    | Action.RevealCommunity tokens => Some (apply_reveal_community s tokens)
    | Action.ClaimTimeout st => Some (apply_timeout s st timestamp)
    end.
