(* ===== verification/ChanChips.v ===== *)
(** The chips of a channel game: what every action does to the stacks and the
    pot, who may act, what a rejected action leaves, and where the game does not
    do what poker asks of it. *)
From stdpp Require Import base list strings sets.
From Stdlib Require Import ZArith Lia.
From S2P Require Import Prelude ChanTypes ChanState ChanGame.
Import TransitionResult TransitionError.

Local Open Scope Z_scope.

(** * The accounts *)

Definition stack_total (s : PokerState) : Z := zsum (map chips (players s)).
Definition table_chips (s : PokerState) : Z := stack_total s + total (pot s).

(** Balances are not negative and their sum fits a [u128]. *)
Record solvent (s : PokerState) : Prop := {
  sv_chips : Forall (Z.le 0) (map chips (players s));
  sv_pot : 0 ≤ total (pot s);
  sv_fits : table_chips s < 2 ^ 128;
}.

(** [s'] has the stacks and the pot of [s]. *)
Definition same_chips (s s' : PokerState) : Prop :=
  map chips (players s') = map chips (players s) ∧ total (pot s') = total (pot s).

#[global] Instance same_chips_equiv : Equivalence same_chips.
Proof.
  split; unfold same_chips; [by split|by intros ? ? [-> ->]|].
  by intros s1 s2 s3 [-> ->] [-> ->].
Qed.

Lemma same_chips_total s s' : same_chips s s' → table_chips s' = table_chips s.
Proof. unfold table_chips, stack_total. by intros [-> ->]. Qed.

#[global] Instance solvent_proper : Proper (same_chips ==> iff) solvent.
Proof.
  assert (∀ s s', same_chips s s' → solvent s → solvent s') as H.
  { intros s s' E [H1 H2 H3]. pose proof (same_chips_total _ _ E) as Et. destruct E as [E1 E2].
    split; [by rewrite E1|by rewrite E2|lia]. }
  intros s s' E. split; apply H; [done|by symmetry].
Qed.

Create HintDb chan_chips.
#[export] Hint Extern 1 (same_chips _ _) => (split; reflexivity) : chan_chips.

Lemma map_update_first {A} (g : PlayerState → A) f st l :
  (∀ p, g (f p) = g p) → map g (update_first st f l) = map g l.
Proof.
  intros H. induction l as [|p l IH]; cbn; [done|].
  destruct (seat p =? st); cbn; [by rewrite H|by rewrite IH].
Qed.

Lemma same_update s st f : (∀ p, chips (f p) = chips p) → same_chips s (update_player s st f).
Proof. intros H. split; [by apply map_update_first|done]. Qed.

Lemma same_map s f :
  (∀ p, chips (f p) = chips p) → same_chips s (s <| players := map f (players s) |>).
Proof. intros H. split; [|done]. cbn. rewrite map_map. by apply map_ext. Qed.

Lemma same_reset_betting s : same_chips s (reset_betting_round s).
Proof.
  unfold reset_betting_round. etransitivity; [apply (same_map s (fun p => p <| current_bet := 0 |>)); done|].
  auto with chan_chips.
Qed.

Lemma same_advance s : same_chips s (advance_action s).
Proof.
  unfold advance_action, advance_phase. case_match.
  - etransitivity; [|apply same_reset_betting]. auto with chan_chips.
  - case_match; auto with chan_chips.
Qed.

Lemma stack_ge s st p : Forall (Z.le 0) (map chips (players s)) → get_player s st = Some p →
  0 ≤ chips p ≤ stack_total s.
Proof.
  intros H Hp. unfold get_player in Hp. apply find_first_Some in Hp as [Hin _].
  assert (chips p ∈ map chips (players s)) as Hc
    by (apply list_elem_of_In, in_map, list_elem_of_In; done).
  apply list_elem_of_lookup in Hc as [i Hi].
  pose proof (lookup_lt_Some _ _ _ Hi) as Hlt. apply list_lookup_total_correct in Hi.
  pose proof (nonneg_lookup _ i H Hlt). pose proof (zsum_lookup_le _ i H Hlt).
  unfold stack_total. lia.
Qed.

(** A player's chips that leave its stack enter the pot. *)
Lemma to_pot s st f p x :
  solvent s → get_player s st = Some p → 0 ≤ x ≤ chips p → chips (f p) = chips p - x →
  let s' := add_to_pot (update_player s st f) x in
  table_chips s' = table_chips s ∧ solvent s'.
Proof.
  intros [H1 H2 H3] Hp Hx Hf s'.
  pose proof (update_first_sum f chips st (players s)) as Hs.
  change (find_first _ (players s)) with (get_player s st) in Hs. rewrite Hp in Hs.
  pose proof (stack_ge s st p H1 Hp) as Hle.
  pose proof (zsum_nonneg _ H1).
  assert (total (pot s') = total (pot s) + x) as Ep.
  { apply wadd_small. unfold table_chips, stack_total in *. lia. }
  assert (table_chips s' = table_chips s) as Et.
  { unfold table_chips, stack_total in *. rewrite Ep. cbn [players s' add_to_pot update_player set_field].
    change (players s') with (update_first st f (players s)). lia. }
  split; [done|]. split; [|lia|lia].
  change (players s') with (update_first st f (players s)).
  clear - H1 Hp Hf Hx. unfold get_player in Hp. revert H1 Hp.
  induction (players s) as [|q l IH]; cbn; [done|]. intros [Hq Hl]%Forall_cons.
  destruct (seat q =? st); cbn.
  - intros [= ->]. constructor; [lia|done].
  - intros Hp. constructor; [done|by apply IH].
Qed.

Lemma place_bet_chips x p :
  0 ≤ x ≤ chips p → chips p < 2 ^ 128 → chips (place_bet x p) = chips p - x.
Proof.
  intros Hx Hp. unfold place_bet. cbn [chips set_field].
  case_match; cbn [chips set_field]; by apply wsub_small.
Qed.

Lemma place_blind_chips x p :
  0 ≤ x → 0 ≤ chips p < 2 ^ 128 → chips (place_blind x p) = chips p - Z.min x (chips p).
Proof.
  intros Hx Hp. unfold place_blind. cbn [chips set_field].
  case_match; cbn [chips set_field]; apply wsub_small; lia.
Qed.

Lemma player_chips s st p : solvent s → get_player s st = Some p → 0 ≤ chips p < 2 ^ 128.
Proof.
  intros [H1 H2 H3] Hp. pose proof (stack_ge s st p H1 Hp). unfold table_chips in H3. lia.
Qed.

(** What a step keeps: the total, and solvency. *)
Definition keeps_chips (s s' : PokerState) : Prop :=
  solvent s → table_chips s' = table_chips s ∧ solvent s'.

#[global] Instance keeps_chips_preorder : PreOrder keeps_chips.
Proof.
  split; [by split|]. intros s1 s2 s3 H12 H23 S1. destruct (H12 S1) as [E S2].
  destruct (H23 S2) as [-> S3]. done.
Qed.

Lemma same_keeps s s' : same_chips s s' → keeps_chips s s'.
Proof. intros E S. split; [by apply same_chips_total|by rewrite <-E]. Qed.

Lemma keeps_post_blind s st x : 0 ≤ x → keeps_chips s (post_blind s st x).
Proof.
  intros Hx S. unfold post_blind, blind_actual. destruct (get_player s st) as [p|] eqn:E; [|done].
  cbn [fmap option_fmap option_map]. pose proof (player_chips _ _ _ S E).
  apply (to_pot s st (place_blind x) p); [done|done|lia|]. by apply place_blind_chips.
Qed.

Lemma keeps_then_advance s s' : keeps_chips s s' → keeps_chips s (advance_action s').
Proof. intros H. etransitivity; [exact H|]. apply same_keeps, same_advance. Qed.

(** * Actions that continue the hand *)

Lemma keeps_preflop s : 0 ≤ big_blind s → keeps_chips s (transition_to_preflop s).1.
Proof.
  intros Hb. unfold transition_to_preflop.
  set (s1 := s <| phase := _ |> <| players := _ |>).
  assert (keeps_chips s s1) as H1.
  { apply same_keeps. split; [|done]. cbn [players s1 set_field].
    generalize 0 at 1. induction (players s) as [|p l IH]; intros i; cbn; [done|]. by rewrite IH. }
  assert (big_blind s1 = big_blind s) as Eb by done. clearbody s1.
  set (s2 := post_blind s1 _ _).
  assert (keeps_chips s1 s2) as H2 by (apply keeps_post_blind, Z.div_pos; lia).
  assert (big_blind s2 = big_blind s1) as Eb2 by (unfold s2, post_blind; by case_match).
  clearbody s2. cbn [fst]. etransitivity; [exact H1|]. etransitivity; [exact H2|].
  case_match; [|apply same_keeps; auto with chan_chips].
  etransitivity; [apply (keeps_post_blind s2 (big_blind_seat s1) (big_blind s2)); lia|].
  apply same_keeps. auto with chan_chips.
Qed.

Lemma keeps_shuffle s actor c p : 0 ≤ big_blind s → keeps_chips s (apply_submit_shuffle s actor c p).1.
Proof.
  intros Hb. unfold apply_submit_shuffle. case_match; [done|].
  set (s1 := s <| shuffle_commitment := c |> <| shuffle_proof := Some p |>).
  assert (keeps_chips s s1) as H1 by (apply same_keeps; auto with chan_chips).
  assert (0 ≤ big_blind s1) as Hb1 by exact Hb. clearbody s1.
  case_match; [|exact H1]. etransitivity; [exact H1|].
  case_match; [by apply keeps_preflop|apply same_keeps; auto with chan_chips].
Qed.

Lemma keeps_apply_post_blind s actor x : 0 ≤ x → keeps_chips s (apply_post_blind s actor x).1.
Proof.
  intros Hx. unfold apply_post_blind. case_match; [|done]. cbn [fst].
  etransitivity; [by apply keeps_post_blind|]. apply same_keeps.
  case_match; auto with chan_chips.
Qed.

Lemma chan_call_keeps s actor : keeps_chips s (apply_call s actor).1.
Proof.
  unfold apply_call. cbn [fst]. apply keeps_then_advance.
  destruct (get_player s actor) as [p|] eqn:E; [|done]. intros S.
  pose proof (player_chips _ _ _ S E). pose proof (wrap_fits 128 (bet_to_call s - current_bet p)) as Hw.
  fold (wsub 128 (bet_to_call s) (current_bet p)) in Hw. unfold fits in Hw.
  apply (to_pot s actor _ p); [done|done|lia|]. apply place_bet_chips; lia.
Qed.

Lemma keeps_raise s actor x : keeps_chips s (apply_raise s actor x).1.
Proof.
  unfold apply_raise. case_match; [done|].
  destruct (get_player s actor) as [p|] eqn:E; [|apply keeps_then_advance; done].
  set (total_bet := wadd 128 _ _).
  destruct (Z.ltb_spec (chips p) total_bet) as [|Hle]; [done|].
  assert (0 ≤ total_bet) as H0 by (apply (wrap_fits 128); lia). clearbody total_bet.
  cbn [fst]. apply keeps_then_advance. intros S.
  pose proof (player_chips _ _ _ S E).
  destruct (to_pot s actor (place_bet total_bet) p total_bet) as [Et Sv]; [done|done|lia| |].
  { apply place_bet_chips; lia. }
  split; [exact Et|]. eapply solvent_proper; [|exact Sv]. by split.
Qed.

Lemma chan_all_in_keeps s actor : keeps_chips s (apply_all_in s actor).1.
Proof.
  unfold apply_all_in. cbn [fst]. apply keeps_then_advance.
  destruct (get_player s actor) as [p|] eqn:E; [|done]. intros S.
  pose proof (player_chips _ _ _ S E).
  destruct (to_pot s actor shove p (chips p)) as [Et Sv]; [done|done|lia|cbn; lia|].
  case_match; [|done]. split; [exact Et|]. eapply solvent_proper; [|exact Sv]. by split.
Qed.

Lemma keeps_community s tokens : keeps_chips s (apply_reveal_community s tokens).1.
Proof.
  unfold apply_reveal_community. set (s1 := s <| reveal_tokens := _ |> <| community_cards := _ |>).
  assert (keeps_chips s s1) as H1 by (apply same_keeps; auto with chan_chips). clearbody s1.
  cbn [fst]. etransitivity; [exact H1|].
  assert (∀ p, keeps_chips s1 (reset_betting_round (s1 <| phase := p |>))) as H2.
  { intros p. apply same_keeps. etransitivity; [|apply same_reset_betting]. auto with chan_chips. }
  repeat case_match; done || apply H2.
Qed.

(** * The end of a hand *)

(** [s'] pays [payouts] out of the pot of [s]; the pot field keeps its value. *)
Record pays_out (s s' : PokerState) (payouts : list (Z * Z)) : Prop := {
  po_stacks : stack_total s' = stack_total s + zsum (map snd payouts);
  po_pot : total (pot s') = total (pot s);
  po_phase : phase s' = Phase.Complete;
  po_le : 0 ≤ zsum (map snd payouts) ≤ total (pot s);
  po_lost : total (pot s) - zsum (map snd payouts) < Z.of_nat (active_player_count s);
}.

Lemma pay_share_total s st x p :
  get_player s st = Some p → 0 ≤ chips p → 0 ≤ x → chips p + x < 2 ^ 128 →
  stack_total (pay_share x s st) = stack_total s + x.
Proof.
  intros Hp H1 H2 H3. unfold stack_total, pay_share, update_player. cbn [players set_field].
  rewrite update_first_sum. change (find_first _ (players s)) with (get_player s st). rewrite Hp.
  cbn [chips set_field]. rewrite wadd_small by lia. lia.
Qed.

Lemma pay_share_chips_nonneg s st x :
  Forall (Z.le 0) (map chips (players s)) → Forall (Z.le 0) (map chips (players (pay_share x s st))).
Proof.
  unfold pay_share, update_player. cbn [players set_field].
  induction (players s) as [|p l IH]; cbn; [done|]. intros [Hp Hl]%Forall_cons.
  case_match; cbn; constructor; auto. apply (wrap_fits 128). lia.
Qed.

Lemma get_player_seat s p : p ∈ players s → ∃ q, get_player s (seat p) = Some q.
Proof. intros Hp. apply (find_first_exists _ _ p Hp), Z.eqb_refl. Qed.

Lemma update_first_seats f st l :
  (∀ p, seat (f p) = seat p) → map seat (update_first st f l) = map seat l.
Proof. apply map_update_first. Qed.

Lemma get_player_pay s st x st' :
  is_Some (get_player s st') → is_Some (get_player (pay_share x s st) st').
Proof.
  unfold get_player, pay_share, update_player. cbn [players set_field].
  induction (players s) as [|p l IH]; cbn; [done|]. intros H.
  destruct (seat p =? st); cbn; (destruct (seat p =? st'); [by eexists|auto]).
Qed.

Lemma pay_shares_total x l s :
  Forall (Z.le 0) (map chips (players s)) → 0 ≤ x →
  Forall (fun st => is_Some (get_player s st)) l →
  stack_total s + Z.of_nat (length l) * x < 2 ^ 128 →
  stack_total (foldl (pay_share x) s l) = stack_total s + Z.of_nat (length l) * x
  ∧ total (pot (foldl (pay_share x) s l)) = total (pot s).
Proof.
  intros Hn Hx. revert s Hn. induction l as [|st l IH]; intros s Hn Hl Hfit; cbn [foldl length].
  { split; [lia|done]. }
  apply Forall_cons in Hl as [[p Hp] Hl]. cbn [length] in Hfit.
  pose proof (stack_ge s st p Hn Hp).
  assert (stack_total (pay_share x s st) = stack_total s + x) as E by (apply (pay_share_total s st x p); lia || done).
  destruct (IH (pay_share x s st)) as [-> ->].
  - by apply pay_share_chips_nonneg.
  - eapply Forall_impl; [exact Hl|]. intros st'. apply get_player_pay.
  - nia.
  - split; [lia|done].
Qed.

Lemma single_winner_pays s s' r :
  solvent s → active_player_count s = 1%nat → finish_hand_single_winner s = (s', r) →
  ∃ payouts, r = Finished payouts ∧ pays_out s s' payouts.
Proof.
  intros [H1 H2 H3] Ha. unfold finish_hand_single_winner.
  destruct (find_first _ (players s)) as [w|] eqn:E.
  - intros [= <- <-]. eexists. split; [done|].
    apply find_first_Some in E as [Hw _]. destruct (get_player_seat s w Hw) as [p Hp].
    pose proof (stack_ge s _ p H1 Hp).
    assert (stack_total (pay_share (total (pot s)) s (seat w)) = stack_total s + total (pot s)) as Es.
    { apply (pay_share_total s (seat w) _ p); [done|lia|done|unfold table_chips in H3; lia]. }
    split; [|done|done|cbn; lia|cbn; lia].
    cbn [map snd zsum]. rewrite Z.add_0_r. exact Es.
  - rewrite find_first_None in E. unfold active_player_count in Ha.
    by rewrite count_if_none in Ha.
Qed.

Lemma determine_winner_pays s s' r :
  solvent s → determine_winner s = Some (s', r) →
  ∃ payouts, r = Finished payouts ∧ pays_out s s' payouts.
Proof.
  intros [H1 H2 H3]. unfold determine_winner.
  assert (length (active_seats s) = active_player_count s) as Hlen
    by (unfold active_seats; by rewrite length_map).
  assert (Forall (fun st => is_Some (get_player s st)) (active_seats s)) as Hsome.
  { apply Forall_forall. intros st Hst. unfold active_seats in Hst.
    apply list_elem_of_In, in_map_iff in Hst as (p & <- & Hp). apply filter_In in Hp as [Hp _].
    apply list_elem_of_In, get_player_seat in Hp as [q Hq]. by exists q. }
  set (l := active_seats s) in *. clearbody l. set (share := total (pot s) / Z.of_nat (length l)).
  intros E. assert (l ≠ []) as Hne by (by intros ->).
  assert (s' = (foldl (pay_share share) s l) <| phase := Phase.Complete |>
          ∧ r = Finished (map (fun st => (st, share)) l)) as [-> ->]
    by (destruct l; [done|by injection E as <- <-]).
  eexists. split; [done|].
  assert (0 < Z.of_nat (length l)) as Hpos by (destruct l; cbn; lia || done).
  assert (0 ≤ share) as Hs by (apply Z.div_pos; lia).
  pose proof (Z.div_mod (total (pot s)) (Z.of_nat (length l)) ltac:(lia)) as Ediv. fold share in Ediv.
  pose proof (Z.mod_pos_bound (total (pot s)) (Z.of_nat (length l)) Hpos) as Hmod.
  destruct (pay_shares_total share l s H1 Hs Hsome) as [E1 E2].
  { unfold table_chips in H3. lia. }
  assert (zsum (map snd (map (fun st => (st, share)) l)) = Z.of_nat (length l) * share) as Ez.
  { rewrite map_map. cbn. generalize l. intros k. induction k as [|y k IH]; [done|].
    cbn [map zsum length]. rewrite IH. lia. }
  split; [rewrite Ez; exact E1|exact E2|done| |]; rewrite Ez.
  - assert (0 ≤ Z.of_nat (length l) * share) by (apply Z.mul_nonneg_nonneg; lia). lia.
  - rewrite <-Hlen. lia.
Qed.

(** * The dispatcher *)

Lemma keeps_reveal s actor tokens s' r :
  apply_reveal_cards s actor tokens = Some (s', r) → solvent s →
  match r with
  | Finished payouts => pays_out s s' payouts
  | Continue => table_chips s' = table_chips s ∧ solvent s'
  | Invalid _ => s' = s
  end.
Proof.
  unfold apply_reveal_cards. case_match; [by intros [= <- <-]|].
  set (s1 := update_player _ actor reveal_player).
  assert (same_chips s s1) as E1.
  { etransitivity; [|apply same_update; intros p; unfold reveal_player; by case_match].
    auto with chan_chips. }
  assert (active_player_count s1 = active_player_count s) as Ea.
  { unfold active_player_count, s1, update_player. cbn [players set_field].
    rewrite <-!(count_if_map negb is_folded), map_update_first; [done|].
    intros p. unfold reveal_player. by case_match. }
  clearbody s1. intros E S. assert (solvent s1) as S1 by (by rewrite <-E1).
  case_match.
  - destruct (determine_winner_pays s1 s' r S1 E) as (payouts & -> & [P1 P2 P3 P4 P5]).
    destruct E1 as [C1 C2].
    split; [unfold stack_total in *; by rewrite P1, C1|by rewrite P2|done|by rewrite <-C2|].
    by rewrite <-C2, <-Ea.
  - injection E as <- <-. split; [by apply same_chips_total|done].
Qed.

Lemma keeps_fold_like s st s' r :
  (if (active_player_count (update_player s st fold_player) =? 1)%nat
   then finish_hand_single_winner (update_player s st fold_player)
   else (advance_action (update_player s st fold_player), Continue)) = (s', r) → solvent s →
  match r with
  | Finished payouts => pays_out (update_player s st fold_player) s' payouts
  | Continue => table_chips s' = table_chips s ∧ solvent s'
  | Invalid _ => s' = s
  end.
Proof.
  set (s1 := update_player s st fold_player).
  assert (same_chips s s1) as E1 by (by apply same_update). clearbody s1.
  intros E S. assert (solvent s1) as S1 by (by rewrite <-E1).
  destruct (Nat.eqb_spec (active_player_count s1) 1) as [Ha|Ha].
  - by destruct (single_winner_pays s1 s' r S1 Ha E) as (payouts & -> & P).
  - injection E as <- <-. rewrite <-(same_chips_total _ _ E1).
    by apply (same_keeps _ _ (same_advance s1)).
Qed.

(** * The properties of the channel game *)

(** What the action [a], which took [s] to [s'] with result [r], may do to the
    chips. *)
Definition accounted (s : PokerState) (a : Action) (s' : PokerState) (r : TransitionResult) : Prop :=
  match r with
  | Invalid _ => s' = s
  | Continue => a ≠ Action.StartHand → table_chips s' = table_chips s ∧ solvent s'
  | Finished payouts =>
      stack_total s' = stack_total s + zsum (map snd payouts)
      ∧ 0 ≤ zsum (map snd payouts) ≤ total (pot s)
      ∧ total (pot s) - zsum (map snd payouts) < Z.of_nat (length (players s))
  end.

Lemma accounted_keeps s a x s' r :
  solvent s → keeps_chips s x.1 → x.2 = Continue ∨ (∃ e, x = (s, Invalid e)) →
  Some x = Some (s', r) → accounted s a s' r.
Proof.
  destruct x as [s1 r1]. intros S K Hr [= -> ->].
  destruct Hr as [Hr|[e He]]; [|by injection He as -> ->].
  cbn in Hr. subst. intros _. by apply K.
Qed.

Lemma accounted_pays s s1 s' payouts a :
  same_chips s s1 → length (players s1) = length (players s) → pays_out s1 s' payouts →
  accounted s a s' (Finished payouts).
Proof.
  intros [C1 C2] Hl [P1 P2 P3 P4 P5]. unfold accounted. rewrite <-C2, <-Hl.
  assert (stack_total s = stack_total s1) as -> by (unfold stack_total; by rewrite C1).
  pose proof (count_if_le (fun p => negb (is_folded p)) (players s1)).
  unfold active_player_count in P5. split_and!; [done|lia|lia|lia].
Qed.

Lemma length_update_first f st l : length (update_first st f l) = length l.
Proof. induction l as [|p l IH]; cbn; [done|]. case_match; cbn; by rewrite ?IH. Qed.

Lemma accounted_fold s st a s' r :
  solvent s →
  (if (active_player_count (update_player s st fold_player) =? 1)%nat
   then finish_hand_single_winner (update_player s st fold_player)
   else (advance_action (update_player s st fold_player), Continue)) = (s', r) →
  accounted s a s' r.
Proof.
  intros S E. pose proof (keeps_fold_like s st s' r E S) as K. destruct r; [by intros _| |done].
  eapply accounted_pays; [..|exact K]; [by apply same_update|apply length_update_first].
Qed.

(** Every action accounts for every chip.  A rejected action changes
    nothing; an action that continues the hand, other than starting a new one,
    keeps stacks and pot at the same total; one that finishes the hand pays out
    at most the pot, leaving out less than one chip per player. *)
Lemma action_accounts s actor a t s' r :
  solvent s → 0 ≤ big_blind s → apply_action s actor a t = Some (s', r) → accounted s a s' r.
Proof.
  intros S Hb. unfold apply_action. destruct (requires_turn a && _); [by intros [= <- <-]|].
  destruct a.
  - unfold apply_start_hand. case_match; by intros [= <- <-].
  - apply accounted_keeps; [done|by apply keeps_shuffle|].
    unfold apply_submit_shuffle, transition_to_preflop. repeat case_match; eauto.
  - apply accounted_keeps; [done|apply keeps_apply_post_blind, Z.div_pos; lia|].
    unfold apply_post_blind. repeat case_match; eauto.
  - apply accounted_keeps; [done|by apply keeps_apply_post_blind|].
    unfold apply_post_blind. repeat case_match; eauto.
  - intros [= E]. by eapply accounted_fold.
  - apply accounted_keeps; [done|..]; unfold apply_check; repeat case_match; eauto;
      done || apply same_keeps, same_advance.
  - apply accounted_keeps; [done|apply chan_call_keeps|by left].
  - apply accounted_keeps; [done|apply keeps_raise|].
    unfold apply_raise. repeat case_match; eauto.
  - apply accounted_keeps; [done|apply chan_all_in_keeps|by left].
  - intros E. pose proof (keeps_reveal s actor _ s' r E S) as K. destruct r; [by intros _| |done].
    by apply (accounted_pays s s).
  - apply accounted_keeps; [done|apply keeps_community|by left].
  - intros [= E]. unfold apply_timeout in E.
    destruct (_ <? TIMEOUT_SECONDS); [by injection E as <- <-|]. by eapply accounted_fold.
Qed.

(** Three players, seat 1 on the button. *)
Definition seats_of (stakes : list Z) : list Participant :=
  map (fun ix => mkParticipant [] (Z.of_nat ix.1) ix.2 []) (zip (seq 0 (length stakes)) stakes).

Definition shuffles : list (Z * Action) :=
  [(0, Action.StartHand); (1, Action.SubmitShuffle [] []); (2, Action.SubmitShuffle [] []);
   (0, Action.SubmitShuffle [] [])].

(** Plays accepted actions only. *)
Fixpoint play (s : PokerState) (l : list (Z * Action)) : option PokerState :=
  match l with
  | [] => Some s
  | (actor, a) :: l' =>
      match apply_action s actor a 0 with
      | Some (s', Continue) | Some (s', Finished _) => play s' l'
      | _ => None
      end
  end.

Definition table (stakes : list Z) (acts : list (Z * Action)) : PokerState :=
  let s := PokerState_new H256_zero (seats_of stakes) 10 in default s (play s (shuffles ++ acts)).

Definition preflop : PokerState := table [1000; 1000; 1000] [].

Lemma solvent_bool s :
  forallb (Z.leb 0) (map chips (players s)) && (0 <=? total (pot s)) && (table_chips s <? 2 ^ 128) = true →
  solvent s.
Proof.
  rewrite !andb_true_iff. intros [[H1 H2%Z.leb_le] H3%Z.ltb_lt]. split; [|done|done].
  apply Forall_forall. intros x Hx%list_elem_of_In. rewrite forallb_forall in H1. by apply Z.leb_le, H1.
Qed.

Lemma action_accounts_witness :
  phase preflop = Phase.PreFlop ∧
  accounted preflop (Action.Raise 20) (table [1000; 1000; 1000] [(1, Action.Raise 20)]) Continue.
Proof.
  split; [reflexivity|]. apply (action_accounts preflop 1 (Action.Raise 20) 0).
  - apply solvent_bool. vm_compute. reflexivity.
  - vm_compute. discriminate.
  - vm_compute. reflexivity.
Defined.

(** The state [apply_action] leaves. *)
Definition after (s : PokerState) (a : Action) : PokerState :=
  match apply_action s (action_seat s) a 0 with Some (s', _) => s' | None => s end.

(** The pot is not cleared when a hand ends on a fold and a fold is
    accepted in any phase: the player to act can fold again and the winner is
    paid the same pot again.  Here 3000 chips become 3015. *)
Lemma repeated_fold_mints :
  ∃ s s', play (PokerState_new H256_zero (seats_of [1000; 1000; 1000]) 10)
            (shuffles ++ [(1, Action.Fold); (2, Action.Fold)]) = Some s
    ∧ phase s = Phase.Complete ∧ stack_total s = 3000
    ∧ apply_action s (action_seat s) Action.Fold 0 = Some (s', Finished [(0, 15)])
    ∧ stack_total s' = 3015.
Proof.
  exists (table [1000; 1000; 1000] [(1, Action.Fold); (2, Action.Fold)]).
  exists (after (table [1000; 1000; 1000] [(1, Action.Fold); (2, Action.Fold)]) Action.Fold).
  split_and!; vm_compute; reflexivity.
Qed.

(** A call by a player who has already bet more than the bet to call (the
    big blind was all in for less than the small blind) computes a wrapped
    amount to call and puts the caller's whole stack in. *)
Lemma call_below_own_bet_is_all_in :
  ∃ s s', play (PokerState_new H256_zero (seats_of [3; 1000; 1000]) 10)
            (shuffles ++ [(1, Action.Call)]) = Some s
    ∧ action_seat s = 2 ∧ bet_to_call s = 3 ∧ current_bet <$> get_player s 2 = Some 5
    ∧ apply_action s 2 Action.Call 0 = Some (s', Continue)
    ∧ chips <$> get_player s 2 = Some 995 ∧ chips <$> get_player s' 2 = Some 0.
Proof.
  exists (table [3; 1000; 1000] [(1, Action.Call)]).
  exists (after (table [3; 1000; 1000] [(1, Action.Call)]) Action.Call).
  split_and!; vm_compute; reflexivity.
Qed.

(** The first check ends a betting round: once a street has been opened
    with no bets, a check by the player to act moves the game to the next
    street, whoever has not acted yet. *)
Lemma first_check_ends_the_street s t :
  bet_to_call s = 0 → Forall (fun p => current_bet p = 0) (players s) →
  ∃ s', apply_action s (action_seat s) Action.Check t = Some (s', Continue)
    ∧ phase s' = next_phase (phase s).
Proof.
  intros H0 Hall. unfold apply_action. rewrite Z.eqb_refl. cbn [requires_turn andb negb].
  assert (is_betting_round_complete s = true) as Hc.
  { unfold is_betting_round_complete.
    assert (∀ q, In q (List.filter (fun p => negb (is_folded p) && negb (is_all_in p)) (players s)) → current_bet q = 0) as H.
    { intros q [Hq _]%filter_In. rewrite Forall_forall in Hall. by apply Hall, list_elem_of_In. }
    destruct (List.filter _ _) as [|p l]; [done|].
    rewrite H0, (H p) by (by left). rewrite forallb_forall. intros q Hq. by rewrite (H q (or_intror Hq)). }
  assert (apply_check s (action_seat s) = (advance_action s, Continue)) as ->.
  { unfold apply_check. destruct (get_player s (action_seat s)) as [p|] eqn:E; [|done].
    unfold get_player in E. apply find_first_Some in E as [Hp _]. rewrite Forall_forall in Hall.
    by rewrite H0, Hall. }
  eexists. split; [done|]. unfold advance_action. by rewrite Hc.
Qed.

Definition on_the_flop : PokerState :=
  table [1000; 1000; 1000] [(1, Action.Call); (2, Action.Call)].

Lemma first_check_ends_the_street_witness :
  phase on_the_flop = Phase.Flop ∧ active_player_count on_the_flop = 3%nat ∧
  ∃ s', apply_action on_the_flop (action_seat on_the_flop) Action.Check 0 = Some (s', Continue)
    ∧ phase s' = Phase.Turn.
Proof.
  split; [reflexivity|]. split; [reflexivity|].
  apply (first_check_ends_the_street on_the_flop 0); [reflexivity|].
  vm_compute. repeat constructor.
Defined.

(** [next_active_seat] finds a seat that can act, and fails only when no
    seat of the table can. *)
Lemma next_active_seat_spec s from :
  (0 < length (players s) ≤ 256)%nat → 0 ≤ from →
  match next_active_seat s from with
  | Some st => 0 ≤ st < Z.of_nat (length (players s)) ∧ seat_can_act s st = true
  | None => ∀ st, 0 ≤ st < Z.of_nat (length (players s)) → seat_can_act s st = false
  end.
Proof.
  intros Hn Hf. unfold next_active_seat. destruct (find_first _ _) as [st|] eqn:E.
  - apply find_first_Some in E as [Hin Hc]. split; [|done].
    apply list_elem_of_In, in_map_iff in Hin as (i & <- & _). by apply seat_after_range.
  - rewrite find_first_None in E. intros st Hst. apply E. by apply seat_after_covers.
Qed.

Lemma next_active_seat_spec_witness :
  next_active_seat preflop 1 = Some 2 ∧
  match next_active_seat preflop 1 with
  | Some st => 0 ≤ st < 3 ∧ seat_can_act preflop st = true
  | None => ∀ st, 0 ≤ st < 3 → seat_can_act preflop st = false
  end.
Proof.
  split; [reflexivity|]. apply (next_active_seat_spec preflop 1); [vm_compute; lia|lia].
Defined.
