(* ===== verification/ChanDispute.v ===== *)
(** Channels and disputes, [crates/state-channel/src/channel.rs] and
    [dispute.rs]: the on-chain record of a channel, its status, and what a
    dispute costs whom. *)
From stdpp Require Import base list strings sets.
From Stdlib Require Import ZArith Lia.
From S2P Require Import Prelude ChanTypes ChanState.

Local Open Scope Z_scope.

(** * Channels *)

Module ChannelStatus.
Inductive ChannelStatus := Pending | Open | Disputed | Closed.
End ChannelStatus.
Abbreviation ChannelStatus := ChannelStatus.ChannelStatus.
#[global] Instance ChannelStatus_eq_dec : EqDecision ChannelStatus.
Proof. solve_decision. Defined.

Record Channel := mkChannel {
  ch_id : H256;
  status : ChannelStatus;
  participants : list Participant;
  total_stake : Z;
  ch_state_hash : H256;
  ch_nonce : Z;
  opened_at : Z;
  dispute_started_at : option Z;
  dispute_timeout : Z;
}.
#[export] Instance Channel_eta : Eta Channel := fun c =>
  mkChannel (ch_id c) (status c) (participants c) (total_stake c) (ch_state_hash c) (ch_nonce c)
    (opened_at c) (dispute_started_at c) (dispute_timeout c).

(** [iter().map(|p| p.stake).sum()] on [u128]. *)
Definition stake_sum (l : list Participant) : Z := foldl (fun acc p => wadd 128 acc (stake p)) 0 l.

(** The encoding of [(participants, opened_at)] and [blake3] are arguments. *)
Definition Channel_new (encode : list Participant * Z → list Z) (blake3 : list Z → H256)
    (ps : list Participant) (timeout opened : Z) : Channel :=
  mkChannel (blake3 (encode (ps, opened))) ChannelStatus.Pending ps (stake_sum ps)
    H256_zero 0 opened None timeout.

Definition is_ready (c : Channel) : bool := (2 <=? length (participants c))%nat.

Definition open (c : Channel) : Channel :=
  if is_ready c then c <| status := ChannelStatus.Open |> else c.

Definition update_state (c : Channel) (h : H256) (n : Z) : Channel :=
  c <| ch_state_hash := h |> <| ch_nonce := n |>.

Definition start_dispute (c : Channel) (current_block : Z) : Channel :=
  c <| status := ChannelStatus.Disputed |> <| dispute_started_at := Some current_block |>.

Definition is_dispute_timeout (c : Channel) (current_block : Z) : bool :=
  match dispute_started_at c with
  | Some started => wadd 64 started (dispute_timeout c) <=? current_block
  | None => false
  end.

Definition close (c : Channel) : Channel := c <| status := ChannelStatus.Closed |>.

Definition get_participant (c : Channel) (acc : PublicKey) : option Participant :=
  find_first (fun p => bool_decide (account p = acc)) (participants c).

Definition find_seat (ps : list Participant) (st : Z) : option Participant :=
  find_first (fun p => p_seat p =? st) ps.

Definition get_participant_by_seat (c : Channel) (st : Z) : option Participant :=
  find_seat (participants c) st.

Record OpenChannelRequest := mkOpenChannelRequest {
  oc_participants : list Participant;
  oc_big_blind : Z;
  oc_dispute_timeout : Z;
}.

Record CloseChannelRequest := mkCloseChannelRequest {
  cc_channel_id : H256;
  cc_final_state : SignedState PokerState;
  cc_payouts : list (PublicKey * Z);
}.

(** * Disputes *)

Module DisputeType.
Inductive DisputeType :=
| InvalidShuffle (accused_seat : Z) (shuffle_commitment : ShuffleCommitment) (proof : LigeritoProof)
| InvalidReveal (accused_seat : Z) (token : RevealToken)
| Timeout (timed_out_seat : Z) (last_state : SignedState PokerState) (timestamp : Z)
| InvalidState (accused_seat : Z) (invalid_state correct_state : SignedState PokerState).
End DisputeType.
Abbreviation DisputeType := DisputeType.DisputeType.

Record Dispute := mkDispute {
  d_channel_id : H256;
  challenger : PublicKey;
  dispute_type : DisputeType;
  raised_at : Z;
}.

Module DisputeResult.
Inductive DisputeResult :=
| ChallengerWins (slashed_amount reward_amount : Z)
| ChallengerLoses (slashed_amount : Z)
| NeedsMoreEvidence.
End DisputeResult.
Abbreviation DisputeResult := DisputeResult.DisputeResult.

Import DisputeResult.

(** Both verifiers are placeholders in the source and accept everything. *)
Definition verify_shuffle_dispute (c : ShuffleCommitment) (p : LigeritoProof) : bool := true.
Definition verify_reveal_dispute (t : RevealToken) (key : list Z) : bool := true.

Definition TIMEOUT_BLOCKS : Z := 60.

Definition process_dispute (d : Dispute) (ps : list Participant) (current_block : Z) : DisputeResult :=
  match dispute_type d with
  | DisputeType.InvalidShuffle accused_seat c p =>
      if negb (verify_shuffle_dispute c p) then
        match find_seat ps accused_seat with
        | Some accused => ChallengerWins (stake accused) (stake accused / 2)
        | None => ChallengerLoses 100
        end
      else ChallengerLoses 100
  | DisputeType.InvalidReveal accused_seat t =>
      match find_seat ps accused_seat with
      | Some accused =>
          if negb (verify_reveal_dispute t (encryption_key accused))
          then ChallengerWins (stake accused) (stake accused / 2)
          else ChallengerLoses 100
      | None => ChallengerLoses 100
      end
  | DisputeType.Timeout timed_out_seat last_state timestamp =>
      if wadd 64 timestamp TIMEOUT_BLOCKS <=? current_block then
        match find_seat ps timed_out_seat with
        | Some accused =>
            if is_fully_signed last_state (length ps)
            then ChallengerWins (stake accused / 10) (stake accused / 20)
            else NeedsMoreEvidence
        | None => NeedsMoreEvidence
        end
      else NeedsMoreEvidence
  | DisputeType.InvalidState _ invalid_state correct_state =>
      if nonce invalid_state <? nonce correct_state then
        if is_fully_signed correct_state (length ps)
        then ChallengerWins 500 250
        else ChallengerLoses 100
      else ChallengerLoses 100
  end.

(** * Properties *)

(** A challenger is rewarded only on evidence: a timeout that has elapsed,
    against a seated participant and on a state with every signature slot
    filled, or a fully signed state with a higher nonce than the accused's.  The
    reward is at most half of what is slashed, and for a timeout no more is
    slashed than a tenth of the accused's stake. *)
Lemma challenger_wins_on_evidence d ps now slashed reward :
  Forall (fun p => 0 ≤ stake p) ps → process_dispute d ps now = ChallengerWins slashed reward →
  0 ≤ 2 * reward ≤ slashed ∧
  ((∃ seat last ts accused, dispute_type d = DisputeType.Timeout seat last ts
      ∧ wadd 64 ts TIMEOUT_BLOCKS ≤ now ∧ accused ∈ ps ∧ p_seat accused = seat
      ∧ (∀ i, (i < length ps)%nat → ∃ s, signatures last !! i = Some (Some s))
      ∧ slashed = stake accused / 10)
   ∨ (∃ seat bad good, dispute_type d = DisputeType.InvalidState seat bad good
      ∧ nonce bad < nonce good
      ∧ ∀ i, (i < length ps)%nat → ∃ s, signatures good !! i = Some (Some s))).
Proof.
  intros Hst. unfold process_dispute. destruct (dispute_type d) as [seat c p|seat t|seat last ts|seat bad good].
  - done.
  - cbn. by case_match.
  - destruct (Z.leb_spec (wadd 64 ts TIMEOUT_BLOCKS) now); [|done].
    destruct (find_seat ps seat) as [accused|] eqn:E; [|done].
    destruct (is_fully_signed last (length ps)) eqn:Es; [|done]. intros [= <- <-].
    apply find_first_Some in E as [Hin Hseat%Z.eqb_eq].
    rewrite Forall_forall in Hst. specialize (Hst accused Hin). split.
    + pose proof (Z.div_mod (stake accused) 10). pose proof (Z.div_mod (stake accused) 20).
      pose proof (Z.mod_pos_bound (stake accused) 10). pose proof (Z.mod_pos_bound (stake accused) 20). lia.
    + left. exists seat, last, ts, accused. split_and!; [done|done|done|done|by apply fully_signed_spec|done].
  - destruct (Z.ltb_spec (nonce bad) (nonce good)); [|done].
    destruct (is_fully_signed good (length ps)) eqn:Es; [|done]. intros [= <- <-].
    split; [lia|]. right. exists seat, bad, good.
    split_and!; [done|done|by apply fully_signed_spec].
Qed.

Definition two_players : list Participant := [mkParticipant [] 0 1000 []; mkParticipant [] 1 1000 []].
Definition signed_state (n : Z) : SignedState PokerState :=
  mkSignedState (PokerState_new H256_zero two_players 10) n [Some Signature_default; Some Signature_default].
Definition timeout_dispute : Dispute :=
  mkDispute H256_zero [] (DisputeType.Timeout 1 (signed_state 5) 100) 100.

Lemma challenger_wins_on_evidence_witness :
  process_dispute timeout_dispute two_players 150 = NeedsMoreEvidence ∧ 0 ≤ 2 * 50 ≤ 100.
Proof.
  split; [reflexivity|].
  refine (proj1 (challenger_wins_on_evidence timeout_dispute two_players 200 100 50 _ _)).
  - repeat constructor; cbn; lia.
  - reflexivity.
Defined.

(** As long as the verifiers are placeholders no dispute about a shuffle or
    a reveal token can be won, whatever the proof: the challenger always loses
    100. *)
Lemma cryptographic_disputes_always_lose d ps now :
  (∃ seat c p, dispute_type d = DisputeType.InvalidShuffle seat c p)
  ∨ (∃ seat t, dispute_type d = DisputeType.InvalidReveal seat t) →
  process_dispute d ps now = ChallengerLoses 100.
Proof.
  unfold process_dispute. intros [(seat & c & p & ->)|(seat & t & ->)]; [done|]. cbn. by case_match.
Qed.

(** The dispute window of a channel, away from the end of the [u64] range:
    it is open for exactly [dispute_timeout] blocks from its start, and once
    expired stays expired. *)
Lemma dispute_window c start now :
  0 ≤ start → 0 ≤ dispute_timeout c → start + dispute_timeout c < 2 ^ 64 →
  is_dispute_timeout (start_dispute c start) now = true ↔ start + dispute_timeout c ≤ now.
Proof.
  intros H1 H2 H3. unfold is_dispute_timeout, start_dispute. cbn [dispute_started_at dispute_timeout set_field].
  rewrite wadd_small by lia. apply Z.leb_le.
Qed.

Lemma stake_sum_exact l :
  Forall (fun p => 0 ≤ stake p) l → zsum (map stake l) < 2 ^ 128 → stake_sum l = zsum (map stake l).
Proof.
  intros Hl Hs. unfold stake_sum.
  assert (∀ acc, 0 ≤ acc → acc + zsum (map stake l) < 2 ^ 128 →
            foldl (fun acc p => wadd 128 acc (stake p)) acc l = acc + zsum (map stake l)) as H.
  { clear Hs. induction Hl as [|p l Hp Hl IH]; intros acc Ha Hb; cbn [foldl map zsum] in *; [lia|].
    assert (0 ≤ zsum (map stake l)).
    { apply zsum_nonneg, Forall_forall. intros x Hx.
      apply list_elem_of_In, in_map_iff in Hx as (q & <- & Hq).
      rewrite Forall_forall in Hl. by apply Hl, list_elem_of_In. }
    rewrite wadd_small by lia. rewrite IH; lia. }
  rewrite H; lia.
Qed.

(** Opening a channel locks exactly the stakes of its participants, and
    needs two of them. *)
Lemma open_locks_stakes encode blake3 ps timeout opened :
  Forall (fun p => 0 ≤ stake p) ps → zsum (map stake ps) < 2 ^ 128 →
  let c := open (Channel_new encode blake3 ps timeout opened) in
  total_stake c = zsum (map stake ps)
  ∧ (status c = ChannelStatus.Open ↔ (2 ≤ length ps)%nat)
  ∧ ch_nonce c = 0 ∧ dispute_started_at c = None.
Proof.
  intros Hp Hs c. unfold c, open, is_ready. cbn [participants Channel_new].
  destruct (Nat.leb_spec 2 (length ps)); cbn; (split_and!; [by apply stake_sum_exact| |done|done]);
    split; done || lia.
Qed.
