(* ===== verification/Tournament.v ===== *)
(** The single-elimination bracket and its registry,
    [crates/poker-server/src/tournament.rs].

    Money fields are [u64] values, match ids and rounds [u32]; the registry's
    [HashMap] is a [gmap].  Where the code walks the map in its unspecified
    order ([tick], [list]) the result is a map or an order-free collection. *)
From stdpp Require Import base list strings sets gmap pretty.
From Stdlib Require Import ZArith Lia.
From S2P Require Import Prelude.

Local Open Scope Z_scope.

Definition PlayerId : Type := string.

Module TournState.
Inductive TournState := Registering | Running | Finished | Cancelled.
End TournState.
Abbreviation TournState := TournState.TournState.
#[global] Instance TournState_eq_dec : EqDecision TournState.
Proof. solve_decision. Defined.

Module SponsorTier.
Inductive SponsorTier := Gold | Platinum.
End SponsorTier.
Abbreviation SponsorTier := SponsorTier.SponsorTier.

Record Sponsor := mkSponsor {
  sp_name : string;
  logo_url : string;
  url : string;
  added_prize_zat : Z;
  by_ : PlayerId;
  tier : SponsorTier;
  funded : bool;
  escrow_room : option string;
}.
#[export] Instance Sponsor_eta : Eta Sponsor := fun s =>
  mkSponsor (sp_name s) (logo_url s) (url s) (added_prize_zat s) (by_ s) (tier s) (funded s)
    (escrow_room s).

Definition counts (s : Sponsor) : bool :=
  match tier s with SponsorTier.Gold => true | SponsorTier.Platinum => funded s end.

Record Match := mkMatch {
  m_id : Z;
  round : nat;
  a : option PlayerId;
  b : option PlayerId;
  winner : option PlayerId;
  stake_zat : Z;
}.
#[export] Instance Match_eta : Eta Match := fun m =>
  mkMatch (m_id m) (round m) (a m) (b m) (winner m) (stake_zat m).

Definition is_playable (m : Match) : bool :=
  is_Some_b (a m) && is_Some_b (b m) && negb (is_Some_b (winner m)).

Record Tournament := mkTournament {
  id : string;
  name : string;
  organizer : PlayerId;
  paid : bool;
  buyin_zat : Z;
  sponsors : list Sponsor;
  state : TournState;
  players : list PlayerId;
  matches : list Match;
  rounds : nat;
  scheduled_start : option Z;
  roll_bps : Z;
}.
#[export] Instance Tournament_eta : Eta Tournament := fun t =>
  mkTournament (id t) (name t) (organizer t) (paid t) (buyin_zat t) (sponsors t) (state t)
    (players t) (matches t) (rounds t) (scheduled_start t) (roll_bps t).

Definition Tournament_new (i n o : string) (p : bool) (buyin : Z) : Tournament :=
  mkTournament i n o p buyin [] TournState.Registering [] [] 0 None 10000.

(** * Sponsors *)

Definition add_sponsor (t : Tournament) (who : PlayerId) (s : Sponsor) : Tournament :=
  let s := if bool_decide (who = organizer t)
           then s <| tier := SponsorTier.Gold |> <| funded := true |>
           else s <| tier := SponsorTier.Platinum |> <| funded := false |> in
  t <| sponsors := sponsors t ++ [s <| escrow_room := None |> <| by_ := who |>] |>.

Definition sponsored_by (who : PlayerId) (s : Sponsor) : bool := bool_decide (by_ s = who).

Definition remove_sponsor (t : Tournament) (who target_by : PlayerId) : result Tournament string :=
  match position (sponsored_by target_by) (sponsors t) with
  | None => Err "no such sponsor"%string
  | Some idx =>
      if negb (bool_decide (who = target_by)) && negb (bool_decide (who = organizer t))
      then Err "only the sponsor or the organizer can remove this sponsor"%string
      else Ok (t <| sponsors := delete idx (sponsors t) |>)
  end.

Definition mark_sponsor_funded (t : Tournament) (target_by : PlayerId) (room : string)
  : result Tournament string :=
  match position (sponsored_by target_by) (sponsors t) with
  | None => Err "no such sponsor"%string
  | Some idx =>
      match sponsors t !! idx with
      | Some s =>
          match tier s with
          | SponsorTier.Gold => Err "only platinum sponsors are escrow-funded"%string
          | SponsorTier.Platinum =>
              Ok (t <| sponsors := <[idx := s <| funded := true |> <| escrow_room := Some room |>]> (sponsors t) |>)
          end
      | None => Err "no such sponsor"%string
      end
  end.

Definition total_prize (t : Tournament) : Z :=
  foldl (fun acc s => sat_add 64 acc (added_prize_zat s)) 0 (List.filter counts (sponsors t)).

Definition cancel (t : Tournament) : result Tournament string :=
  match state t with
  | TournState.Finished => Err "tournament already finished"%string
  | TournState.Cancelled => Ok t
  | _ => Ok (t <| state := TournState.Cancelled |>)
  end.

(** * Stakes *)

Definition clamp (lo hi x : Z) : Z := Z.max lo (Z.min hi x).

(** One pass of the loop of [stake_for_round]. *)
Definition roll_stake (roll stake : Z) : Z := sat_mul 128 (sat_mul 128 stake 2) roll / 10000.

Definition stake_for_round (t : Tournament) (r : nat) : Z :=
  if negb (paid t) || (r =? 0)%nat then 0
  else
    let roll := clamp 1 10000 (roll_bps t) in
    Z.min (Nat.iter (r - 1) (roll_stake roll) (buyin_zat t)) (umax 64).

(** [usize::BITS - (n - 1).leading_zeros()] is the bit length of [n - 1]. *)
Definition ceil_log2 (n : nat) : nat := if (n <=? 1)%nat then 0%nat else S (Nat.log2 (n - 1)).

Definition is_power_of_two (n : nat) : bool := (0 <? n)%nat && (n =? 2 ^ Nat.log2 n)%nat.

(** The number of rounds the fee disclosure quotes. *)
Definition estimated_rounds (t : Tournament) : nat := ceil_log2 (Nat.max (length (players t)) 2).

Definition fee_disclosure (t : Tournament) (per_round_fee_zat : Z) : option string :=
  if negb (paid t) then None
  else Some
    ("Peer-to-peer & non-custodial: no house holds the pot. Each round is settled on-chain, so a ~"
     +:+ pretty per_round_fee_zat +:+ " zat network fee applies per round (~"
     +:+ pretty (estimated_rounds t)
     +:+ " rounds for the current field). The winner takes the pot minus these network fees — no rake.")%string.

(** * Registration *)

Definition join (t : Tournament) (p : PlayerId) : result Tournament string :=
  if negb (bool_decide (state t = TournState.Registering)) then Err "registration is closed"%string
  else if existsb (fun x => bool_decide (x = p)) (players t) then Err "already registered"%string
  else Ok (t <| players := players t ++ [p] |>).

Definition leave (t : Tournament) (p : PlayerId) : result Tournament string :=
  if negb (bool_decide (state t = TournState.Registering)) then Err "cannot leave after start"%string
  else
    let kept := List.filter (fun x => negb (bool_decide (x = p))) (players t) in
    if (length kept =? length (players t))%nat then Err "not registered"%string
    else Ok (t <| players := kept |>).

(** * The bracket *)

(** Each decided match of round [r] fills its seat of the parent, if empty. *)
Definition feed (parent_start : nat) (ms : list Match) (pw : nat * option PlayerId) : list Match :=
  let '(pos_in_round, w) := pw in
  match w with
  | None => ms
  | Some w =>
      let parent_idx := (parent_start + pos_in_round / 2)%nat in
      match ms !! parent_idx with
      | None => ms
      | Some parent =>
          if (pos_in_round mod 2 =? 0)%nat then
            match a parent with
            | None => <[parent_idx := parent <| a := Some w |>]> ms
            | Some _ => ms
            end
          else
            match b parent with
            | None => <[parent_idx := parent <| b := Some w |>]> ms
            | Some _ => ms
            end
      end
  end.

(** [iter().enumerate()] *)
Definition enumerate {A} (l : list A) : list (nat * A) := combine (seq 0 (length l)) l.

Definition in_round (r : nat) (m : Match) : bool := (round m =? r)%nat.

Definition propagate_round (ms : list Match) (r : nat) : list Match :=
  let round_winners := map winner (List.filter (in_round r) ms) in
  match position (in_round (r + 1)) ms with
  | None => ms
  | Some parent_start => foldl (feed parent_start) ms (enumerate round_winners)
  end.

Definition propagate (t : Tournament) : Tournament :=
  let t := t <| matches := foldl propagate_round (matches t) (seq 1 (rounds t - 1)) |> in
  match find_first (in_round (rounds t)) (matches t) with
  | Some f => if is_Some_b (winner f) then t <| state := TournState.Finished |> else t
  | None => t
  end.

(** The byes of round 1: each advances its player. *)
Fixpoint bye_matches (next_id stake : Z) (l : list PlayerId) : list Match :=
  match l with
  | [] => []
  | p :: l' => mkMatch next_id 1 (Some p) None (Some p) stake :: bye_matches (wadd 32 next_id 1) stake l'
  end.

(** The real matches of round 1; [None] is the out-of-range index of an odd
    number of players. *)
Fixpoint pair_matches (next_id stake : Z) (l : list PlayerId) : option (list Match) :=
  match l with
  | [] => Some []
  | [_] => None
  | p :: q :: l' =>
      cons (mkMatch next_id 1 (Some p) (Some q) None stake) <$> pair_matches (wadd 32 next_id 1) stake l'
  end.

(** [count] empty matches of one round. *)
Fixpoint empty_matches (next_id stake : Z) (r count : nat) : list Match :=
  match count with
  | O => []
  | S c => mkMatch next_id r None None None stake :: empty_matches (wadd 32 next_id 1) stake r c
  end.

(** The placeholders of rounds [r], [r + 1], ..., halving from [prev]. *)
Fixpoint later_rounds (t : Tournament) (next_id : Z) (r left prev : nat) : list Match :=
  match left with
  | O => []
  | S k =>
      let count := (prev / 2)%nat in
      empty_matches next_id (stake_for_round t r) r count
      ++ later_rounds t (wadd 32 next_id (Z.of_nat count)) (S r) k count
  end.

(** The matches of [start] for [n] players, before propagation. *)
Definition build_bracket (t : Tournament) : option (list Match) :=
  let n := length (players t) in
  let rs := ceil_log2 n in
  let byes := (2 ^ rs - n)%nat in
  let r1_stake := stake_for_round t 1 in
  let byes_l := bye_matches 0 r1_stake (take byes (players t)) in
  real ← pair_matches (Z.of_nat byes) r1_stake (drop byes (players t));
  let ms := byes_l ++ real in
  Some (ms ++ later_rounds t (Z.of_nat (length ms)) 2 (rs - 1) (length ms)).

(** [None] is a panic, shown not to happen. *)
Definition start (t : Tournament) : option (result Tournament string) :=
  if negb (bool_decide (state t = TournState.Registering)) then Some (Err "already started"%string)
  else
    let n := length (players t) in
    if (n <? 2)%nat then Some (Err "need at least 2 players"%string)
    else if paid t && (buyin_zat t =? 0) then Some (Err "paid tournament needs a non-zero buy-in"%string)
    else if paid t && negb (is_power_of_two n) then
      Some (Err ("paid tournaments need a power-of-two field (2, 4, 8, 16…); have "
                 +:+ pretty n +:+ " players")%string)
    else
      ms ← build_bracket t;
      Some (Ok (propagate (t <| matches := ms |> <| rounds := ceil_log2 n |>
                             <| state := TournState.Running |>))).

Definition seats_winner (m : Match) (w : PlayerId) : bool :=
  bool_decide (a m = Some w) || bool_decide (b m = Some w).

Definition report_winner (t : Tournament) (match_id : Z) (w : PlayerId) : result Tournament string :=
  if negb (bool_decide (state t = TournState.Running)) then Err "tournament is not running"%string
  else
    match position (fun m => m_id m =? match_id) (matches t) with
    | None => Err "no such match"%string
    | Some i =>
        match matches t !! i with
        | None => Err "no such match"%string
        | Some m =>
            if is_Some_b (winner m) then Err "match already decided"%string
            else if negb (seats_winner m w) then Err "winner is not a player in this match"%string
            else Ok (propagate (t <| matches := <[i := m <| winner := Some w |>]> (matches t) |>))
        end
    end.

Definition pending_matches (t : Tournament) : list Match := List.filter is_playable (matches t).

Definition champion (t : Tournament) : option PlayerId :=
  if negb (bool_decide (state t = TournState.Finished)) then None
  else m ← find_first (in_round (rounds t)) (matches t); winner m.
