(* ===== verification/Bracket.v ===== *)
(** The bracket as a list of rounds, and that the flat list of matches of
    [Tournament] implements it: what [start] builds, what [propagate] feeds
    forward, and that a running tournament always has a match to play. *)
From stdpp Require Import base list strings sets gmap.
From Stdlib Require Import ZArith Lia.
From S2P Require Import Prelude Tournament.

Local Open Scope nat_scope.

(** * Rounds *)

(** Match [k] of a round is fed by matches [2k] and [2k + 1] of the round
    before; an empty seat takes the feeding winner. *)
Definition fill (seat w : option PlayerId) : option PlayerId :=
  match seat with None => w | Some _ => seat end.

Fixpoint feed_round (prev cur : list Match) : list Match :=
  match prev, cur with
  | m0 :: m1 :: prev', m :: cur' =>
      (m <| a := fill (a m) (winner m0) |> <| b := fill (b m) (winner m1) |>) :: feed_round prev' cur'
  | _, _ => cur
  end.

(** All rounds fed in order. *)
Fixpoint feed_rounds (prev : list Match) (rest : list (list Match)) : list (list Match) :=
  match rest with
  | [] => []
  | cur :: rest' => let cur' := feed_round prev cur in cur' :: feed_rounds cur' rest'
  end.

Definition feed_all (rs : list (list Match)) : list (list Match) :=
  match rs with [] => [] | r1 :: rest => r1 :: feed_rounds r1 rest end.

(** Round numbers count up from [r] and sizes halve down to the final. *)
Inductive shape : nat → list (list Match) → Prop :=
| shape_final r m : round m = r → shape r [[m]]
| shape_round r ms ms' rest :
    Forall (fun m => round m = r) ms → length ms = 2 * length ms' →
    shape (S r) (ms' :: rest) → shape r (ms :: ms' :: rest).

(** A seat of a round is empty or holds the winner that feeds it... *)
Inductive PreFed : list Match → list Match → Prop :=
| prefed_nil : PreFed [] []
| prefed_cons m0 m1 prev m cur :
    (a m = None ∨ a m = winner m0) → (b m = None ∨ b m = winner m1) →
    PreFed prev cur → PreFed (m0 :: m1 :: prev) (m :: cur).

(** ... and is exactly it after feeding. *)
Inductive Fed : list Match → list Match → Prop :=
| fed_nil : Fed [] []
| fed_cons m0 m1 prev m cur :
    a m = winner m0 → b m = winner m1 → Fed prev cur → Fed (m0 :: m1 :: prev) (m :: cur).

Lemma Fed_PreFed prev cur : Fed prev cur → PreFed prev cur.
Proof. induction 1; constructor; auto. Qed.

Lemma feed_round_Fed prev cur : PreFed prev cur → Fed prev (feed_round prev cur).
Proof.
  induction 1 as [|m0 m1 prev m cur Ha Hb _ IH]; cbn; constructor; cbn; [..|done]; unfold fill.
  - destruct Ha as [Ha|Ha]; rewrite Ha; [done|by destruct (winner m0)].
  - destruct Hb as [Hb|Hb]; rewrite Hb; [done|by destruct (winner m1)].
Qed.

Lemma feed_round_nil prev : feed_round prev [] = [].
Proof. by destruct prev as [|? [|? ?]]. Qed.

Lemma feed_round_length prev cur : length (feed_round prev cur) = length cur.
Proof.
  revert prev. induction cur as [|m cur IH]; intros [|m0 [|m1 prev]]; cbn; auto.
Qed.

Lemma feed_round_map {A} (f : Match → A) prev cur :
  (∀ m x y, f (m <| a := x |> <| b := y |>) = f m) → map f (feed_round prev cur) = map f cur.
Proof.
  intros Hf. revert prev. induction cur as [|m cur IH]; intros [|m0 [|m1 prev]]; cbn; auto.
  rewrite IH. f_equal. apply (Hf m).
Qed.

Lemma feed_round_rounds prev cur r :
  Forall (fun m => round m = r) (feed_round prev cur) ↔ Forall (fun m => round m = r) cur.
Proof. by rewrite <-!(Forall_map round (fun x => x = r)), feed_round_map. Qed.

(** * The flat list *)

Lemma filter_in_round r ms :
  Forall (fun m => round m = r) ms → List.filter (in_round r) ms = ms.
Proof.
  induction 1 as [|m ms Hm _ IH]; cbn; [done|]. unfold in_round at 1.
  by rewrite Hm, Nat.eqb_refl, IH.
Qed.

Lemma filter_not_round r ms :
  Forall (fun m => round m ≠ r) ms → List.filter (in_round r) ms = [].
Proof.
  induction 1 as [|m ms Hm _ IH]; cbn; [done|]. unfold in_round at 1.
  by rewrite (proj2 (Nat.eqb_neq _ _) Hm).
Qed.

Lemma position_app_skip {A} (p : A → bool) l1 l2 :
  Forall (fun x => p x = false) l1 → position p (l1 ++ l2) = (fun k => length l1 + k) <$> position p l2.
Proof.
  induction 1 as [|x l1 Hx _ IH]; cbn; [by destruct (position p l2)|].
  rewrite Hx, IH. by destruct (position p l2).
Qed.

(** The two children of one parent. *)
Lemma feed_pair L m R w0 w1 k :
  foldl (feed (length L - k)) (L ++ m :: R) [(2 * k, w0); (S (2 * k), w1)]
  = L ++ (m <| a := fill (a m) w0 |> <| b := fill (b m) w1 |>) :: R ∨ length L < k.
Proof.
  destruct (decide (length L < k)) as [|Hk]; [by right|left].
  assert (∀ m', (L ++ m' :: R) !! length L = Some m') as Hl
    by (intros; by rewrite lookup_app_r, Nat.sub_diag by lia).
  assert (∀ m' m'', <[length L := m'']> (L ++ m' :: R) = L ++ m'' :: R) as Hi.
  { intros. rewrite insert_app_r_alt, Nat.sub_diag by lia. done. }
  assert (length L - k + (2 * k) / 2 = length L) as E0
    by (rewrite Nat.mul_comm, Nat.div_mul by lia; lia).
  assert (length L - k + S (2 * k) / 2 = length L) as E1.
  { replace (S (2 * k)) with (1 + k * 2) by lia. rewrite Nat.div_add by lia. cbn. lia. }
  assert ((2 * k) mod 2 = 0) as M0 by (rewrite Nat.mul_comm; apply Nat.Div0.mod_mul).
  assert (S (2 * k) mod 2 = 1) as M1.
  { replace (S (2 * k)) with (1 + k * 2) by lia. by rewrite Nat.Div0.mod_add. }
  cbn [foldl]. unfold feed at 2. rewrite E0, M0. cbn [Nat.eqb].
  assert (match w0 with
          | Some w => match (L ++ m :: R) !! length L with
              | Some parent => match a parent with
                  | Some _ => L ++ m :: R
                  | None => <[length L:=parent <| a := Some w |>]> (L ++ m :: R) end
              | None => L ++ m :: R end
          | None => L ++ m :: R end = L ++ (m <| a := fill (a m) w0 |>) :: R) as ->.
  { rewrite Hl. destruct m as [i r [x|] y z st], w0; cbn; rewrite ?Hi; done. }
  unfold feed. rewrite E1, M1. cbn [Nat.eqb].
  rewrite Hl. destruct m as [i r x [y|] z st], w1; cbn; rewrite ?Hi; done.
Qed.

Fixpoint enumerate_from {A} (k : nat) (l : list A) : list (nat * A) :=
  match l with [] => [] | x :: l' => (k, x) :: enumerate_from (S k) l' end.

Lemma enumerate_from_0 {A} (l : list A) : enumerate l = enumerate_from 0 l.
Proof.
  unfold enumerate. generalize 0. induction l as [|x l IH]; intros k; cbn; [done|]. by rewrite IH.
Qed.

(** Feeding the winners of [prev] into the round that sits after [L0 ++ L]. *)
Lemma feed_flat prev cur L0 L R k :
  length prev = 2 * length cur → length L = k →
  foldl (feed (length L0)) (L0 ++ L ++ cur ++ R) (enumerate_from (2 * k) (map winner prev))
  = L0 ++ L ++ feed_round prev cur ++ R.
Proof.
  revert prev L k. induction cur as [|m cur IH]; intros prev L k Hl Hk.
  { destruct prev; [done|cbn in Hl; lia]. }
  destruct prev as [|m0 [|m1 prev]]; [cbn in Hl; lia|cbn in Hl; lia|].
  cbn [map enumerate_from].
  change (foldl ?f ?x ((?y :: ?z :: ?l))) with (foldl f (foldl f x [y; z]) l).
  rewrite app_assoc. cbn [app].
  destruct (feed_pair (L0 ++ L) m (cur ++ R) (winner m0) (winner m1) k) as [E|E];
    [|rewrite length_app in E; lia].
  rewrite length_app, Hk in E. replace (length L0 + k - k) with (length L0) in E by lia.
  rewrite E. cbn [feed_round app].
  set (m' := m <| a := _ |> <| b := _ |>).
  replace ((L0 ++ L) ++ m' :: cur ++ R) with (L0 ++ (L ++ [m']) ++ cur ++ R)
    by (by rewrite <-!app_assoc).
  replace (S (S (2 * k))) with (2 * (S k)) by lia.
  rewrite IH; [by rewrite <-!app_assoc|cbn in Hl; lia|rewrite length_app; cbn; lia].
Qed.

(** One round of [propagate] on the flat list. *)
Lemma propagate_round_flat P prev cur R r :
  Forall (fun m => round m < r) P → Forall (fun m => round m = r) prev →
  Forall (fun m => round m = S r) cur → Forall (fun m => S r < round m) R →
  length prev = 2 * length cur → 0 < length cur →
  propagate_round (P ++ prev ++ cur ++ R) r = P ++ prev ++ feed_round prev cur ++ R.
Proof.
  intros HP Hprev Hcur HR Hl Hpos. unfold propagate_round.
  rewrite !List.filter_app, (filter_in_round r prev) by done.
  rewrite (filter_not_round r P), (filter_not_round r cur), (filter_not_round r R), !app_nil_r
    by (eapply Forall_impl; [eassumption|]; cbn; lia).
  cbn [app]. rewrite app_assoc, position_app_skip.
  - destruct cur as [|m cur]; [cbn in Hpos; lia|]. cbn [app position].
    apply Forall_cons in Hcur as [Hm Hcur]. unfold in_round at 1. rewrite Hm.
    rewrite (proj2 (Nat.eqb_eq (S r) (r + 1))) by lia. cbn [fmap option_fmap option_map].
    rewrite Nat.add_0_r, enumerate_from_0.
    etransitivity; [exact (feed_flat prev (m :: cur) (P ++ prev) [] R 0 Hl eq_refl)|].
    by rewrite <-!app_assoc.
  - apply Forall_app. split.
    + eapply Forall_impl; [exact HP|]. cbn beta. intros x Hx. apply Nat.eqb_neq. lia.
    + eapply Forall_impl; [exact Hprev|]. cbn beta. intros x Hx. apply Nat.eqb_neq. lia.
Qed.

Lemma shape_head r ms rest : shape r (ms :: rest) → Forall (fun m => round m = r) ms ∧ 0 < length ms.
Proof.
  remember (ms :: rest) as l eqn:E. intros H. revert ms rest E.
  induction H as [r m Hm|r ms1 ms' rest1 Hr Hl Hs IH]; intros ms rest [= <- <-].
  - split; [by repeat constructor|cbn; lia].
  - split; [done|]. destruct (IH _ _ eq_refl) as [_ ?]. lia.
Qed.

Lemma shape_above r rs : shape r rs → Forall (fun m => r ≤ round m) (concat rs).
Proof.
  induction 1 as [r m Hm|r ms ms' rest Hr _ _ IH]; cbn.
  - constructor; [lia|done].
  - apply Forall_app. split; [eapply Forall_impl; [exact Hr|cbn; lia]|].
    eapply Forall_impl; [exact IH|cbn; lia].
Qed.

Lemma shape_feed_head r prev cur rest : shape r (cur :: rest) → shape r (feed_round prev cur :: rest).
Proof.
  intros H. inversion H as [r' m Hm|r' ms ms' rest' Hr Hl Hs]; subst.
  - destruct prev as [|m0 [|m1 prev]]; cbn; rewrite ?feed_round_nil; by apply shape_final.
  - constructor; [by apply feed_round_rounds|by rewrite feed_round_length|done].
Qed.

Lemma propagate_flat_from rest : ∀ r prev P,
  shape r (prev :: rest) → Forall (fun m => round m < r) P →
  foldl propagate_round (P ++ prev ++ concat rest) (seq r (length rest))
  = P ++ prev ++ concat (feed_rounds prev rest).
Proof.
  induction rest as [|cur rest IH]; intros r prev P Hs HP; [done|].
  inversion Hs as [|? ? ? ? Hr Hl Hs']; subst.
  destruct (shape_head _ _ _ Hs') as [Hr' Hpos].
  assert (Forall (fun m => S r < round m) (concat rest)) as HR.
  { destruct rest as [|ms2 rest]; [constructor|].
    inversion Hs' as [|? ? ? ? _ _ Hs2]; subst. apply shape_above in Hs2.
    eapply Forall_impl; [exact Hs2|cbn; lia]. }
  cbn [length seq foldl concat feed_rounds].
  rewrite (propagate_round_flat P prev cur (concat rest) r) by done.
  rewrite app_assoc, IH; [by rewrite <-!app_assoc|by apply shape_feed_head|].
  apply Forall_app. split; (eapply Forall_impl; [eassumption|cbn; lia]).
Qed.

(** [propagate] on the flat list is [feed_all] on the rounds. *)
Lemma propagate_flat rs :
  shape 1 rs → foldl propagate_round (concat rs) (seq 1 (length rs - 1)) = concat (feed_all rs).
Proof.
  destruct rs as [|r1 rest]; [inversion 1|]. intros Hs. cbn [length feed_all concat].
  replace (S (length rest) - 1) with (length rest) by lia.
  apply (propagate_flat_from rest 1 r1 []); [done|constructor].
Qed.

(** * The invariant of a started tournament *)

(** [R] between each round and the next. *)
Fixpoint chain (R : list Match → list Match → Prop) (rs : list (list Match)) : Prop :=
  match rs with
  | x :: (y :: _) as rest => R x y ∧ chain R rest
  | _ => True
  end.

Lemma PreFed_winners prev prev' cur :
  map winner prev' = map winner prev → PreFed prev cur → PreFed prev' cur.
Proof.
  intros E H. revert prev' E. induction H as [|m0 m1 prev m cur Ha Hb _ IH]; intros prev' E.
  { apply map_eq_nil in E as ->. constructor. }
  destruct prev' as [|m0' [|m1' prev']]; try done. injection E as E0 E1 E.
  constructor; [by rewrite E0|by rewrite E1|auto].
Qed.

Lemma feed_rounds_Fed rest : ∀ prev, chain PreFed (prev :: rest) → chain Fed (prev :: feed_rounds prev rest).
Proof.
  induction rest as [|cur rest IH]; intros prev H; [done|]. destruct H as [H Hr].
  cbn [feed_rounds]. split; [by apply feed_round_Fed|]. apply IH.
  destruct rest as [|nxt rest]; [done|]. destruct Hr as [Hn Hr]. split; [|done].
  eapply PreFed_winners; [|exact Hn]. by apply (feed_round_map winner).
Qed.

(** Rounds that agree except that undecided matches may have been decided. *)
Record ext (m m' : Match) : Prop := {
  ex_id : m_id m' = m_id m;
  ex_round : round m' = round m;
  ex_a : a m' = a m;
  ex_b : b m' = b m;
  ex_winner : winner m = None ∨ winner m' = winner m;
}.

Lemma ext_refl m : ext m m.
Proof. split; auto. Qed.

Lemma Fed_ext prev cur prev' cur' :
  Fed prev cur → Forall2 ext prev prev' → Forall2 ext cur cur' → PreFed prev' cur'.
Proof.
  intros H. revert prev' cur'. induction H as [|m0 m1 prev m cur Ha Hb _ IH]; intros prev' cur' Hp Hc.
  { apply Forall2_nil_inv_l in Hp as ->. apply Forall2_nil_inv_l in Hc as ->. constructor. }
  apply Forall2_cons_inv_l in Hp as (m0' & l & E0 & Hp & ->).
  apply Forall2_cons_inv_l in Hp as (m1' & l' & E1 & Hp & ->).
  apply Forall2_cons_inv_l in Hc as (m' & l2 & E & Hc & ->).
  constructor; [..|by apply IH].
  - rewrite (ex_a _ _ E), Ha. destruct (ex_winner _ _ E0) as [Hn|Hn]; [left|right]; congruence.
  - rewrite (ex_b _ _ E), Hb. destruct (ex_winner _ _ E1) as [Hn|Hn]; [left|right]; congruence.
Qed.

Lemma chain_ext rs rs' : chain Fed rs → Forall2 (Forall2 ext) rs rs' → chain PreFed rs'.
Proof.
  intros H E. revert H. induction E as [|x x' rs rs' Ex E IH]; intros H; [done|].
  destruct E as [|y y' rs rs' Ey E]; [done|]. destruct H as [H Hr].
  split; [by eapply Fed_ext|by apply IH].
Qed.

Lemma shape_ext r rs rs' : shape r rs → Forall2 (Forall2 ext) rs rs' → shape r rs'.
Proof.
  intros H. revert rs'. induction H as [r m Hm|r ms ms' rest Hr Hl Hs IH]; intros rs' E.
  - apply Forall2_cons_inv_l in E as (x & l & Ex & El & ->).
    apply Forall2_nil_inv_l in El as ->. apply Forall2_cons_inv_l in Ex as (y & l & Ey & El & ->).
    apply Forall2_nil_inv_l in El as ->. apply shape_final. by rewrite (ex_round _ _ Ey).
  - apply Forall2_cons_inv_l in E as (x & l & Ex & El & ->).
    specialize (IH l El). apply Forall2_cons_inv_l in El as (y & l' & Ey & El & ->).
    constructor; [| |done].
    + clear - Hr Ex. induction Ex as [|m m' ms x Em Ex IH]; [constructor|].
      apply Forall_cons in Hr as [Hm Hr]. constructor; [by rewrite (ex_round _ _ Em)|auto].
    + by rewrite <-(Forall2_length _ _ _ Ex), <-(Forall2_length _ _ _ Ey).
Qed.

Lemma concat_ext rs ms' :
  Forall2 ext (concat rs) ms' → ∃ rs', ms' = concat rs' ∧ Forall2 (Forall2 ext) rs rs'.
Proof.
  revert ms'. induction rs as [|x rs IH]; intros ms' H; cbn in H.
  { apply Forall2_nil_inv_l in H as ->. by exists []. }
  apply Forall2_app_inv_l in H as (x' & l & Hx & Hl & ->).
  destruct (IH l Hl) as (rs' & -> & Hrs). exists (x' :: rs'). split; [done|by constructor].
Qed.

(** A decided match is won by one of its seats. *)
Definition won_by_seat (m : Match) : Prop := ∀ w, winner m = Some w → a m = Some w ∨ b m = Some w.

(** A match of round 1: two players, or a bye already won. *)
Definition first_ok (ps : list PlayerId) (m : Match) : Prop :=
  is_Some (a m) ∧ (is_Some (b m) ∨ is_Some (winner m))
  ∧ (∀ p, a m = Some p ∨ b m = Some p → p ∈ ps).

(** The final is the one match of the last round. *)
Definition final_of (rs : list (list Match)) : option Match :=
  match last rs with Some (m :: _) => Some m | _ => None end.

Record bracket (t : Tournament) (rs : list (list Match)) : Prop := {
  bk_flat : matches t = concat rs;
  bk_rounds : rounds t = length rs;
  bk_shape : shape 1 rs;
  bk_fed : chain Fed rs;
  bk_first : Forall (first_ok (players t)) (hd [] rs);
  bk_won : Forall won_by_seat (matches t);
  bk_state : ∀ f, final_of rs = Some f →
    state t = (if is_Some_b (winner f) then TournState.Finished else TournState.Running);
}.

Lemma find_first_app_skip {A} (p : A → bool) l1 l2 :
  Forall (fun x => p x = false) l1 → find_first p (l1 ++ l2) = find_first p l2.
Proof. induction 1 as [|x l1 Hx _ IH]; cbn; [done|]. by rewrite Hx. Qed.

Lemma find_final r rs :
  shape r rs → find_first (in_round (r + length rs - 1)) (concat rs) = final_of rs ∧ is_Some (final_of rs).
Proof.
  induction 1 as [r m Hm|r ms ms' rest Hr Hl Hs [IH1 IH2]].
  - cbn. unfold in_round. rewrite Hm, (proj2 (Nat.eqb_eq r (r + 1 - 1))) by lia. split; eauto.
  - cbn [concat]. rewrite find_first_app_skip.
    + replace (r + length (ms :: ms' :: rest) - 1) with (S r + length (ms' :: rest) - 1) by (cbn; lia).
      done.
    + eapply Forall_impl; [exact Hr|]. cbn beta. intros x Hx. apply Nat.eqb_neq. cbn. lia.
Qed.

Lemma feed_rounds_shape rest : ∀ r prev, shape r (prev :: rest) → shape r (prev :: feed_rounds prev rest).
Proof.
  induction rest as [|cur rest IH]; intros r prev Hs; [done|].
  inversion Hs as [|? ? ? ? Hr Hl Hs']; subst. cbn [feed_rounds].
  constructor; [done|by rewrite feed_round_length|]. by apply IH, shape_feed_head.
Qed.

Lemma feed_rounds_length rest : ∀ prev, length (feed_rounds prev rest) = length rest.
Proof. induction rest as [|cur rest IH]; intros prev; cbn; auto. Qed.

Lemma feed_round_won prev cur :
  Forall won_by_seat cur → Forall won_by_seat (feed_round prev cur).
Proof.
  revert prev. induction cur as [|m cur IH]; intros [|m0 [|m1 prev]] H; try done.
  apply Forall_cons in H as [Hm H]. cbn. constructor; [|by apply IH].
  intros w Hw. cbn in *. destruct (Hm w Hw) as [E|E]; [left|right]; by rewrite E.
Qed.

Lemma feed_rounds_won rest : ∀ prev,
  Forall won_by_seat (concat rest) → Forall won_by_seat (concat (feed_rounds prev rest)).
Proof.
  induction rest as [|cur rest IH]; intros prev H; [done|].
  cbn in *. apply Forall_app in H as [H1 H2]. apply Forall_app. split; [by apply feed_round_won|auto].
Qed.

(** [propagate] establishes the invariant from rounds whose empty seats may
    still have to be fed. *)
Lemma propagate_bracket t rs :
  matches t = concat rs → rounds t = length rs → shape 1 rs → chain PreFed rs →
  Forall (first_ok (players t)) (hd [] rs) → Forall won_by_seat (matches t) →
  state t = TournState.Running → ∃ rs', bracket (propagate t) rs' ∧ hd [] rs' = hd [] rs.
Proof.
  intros Hm Hr Hs Hf Hfirst Hwon Hst. exists (feed_all rs).
  destruct rs as [|r1 rest]; [inversion Hs|].
  assert (shape 1 (feed_all (r1 :: rest))) as Hs' by (by apply feed_rounds_shape).
  assert (length (feed_all (r1 :: rest)) = length (r1 :: rest)) as Hl
    by (cbn; by rewrite feed_rounds_length).
  destruct (find_final _ _ Hs') as [Hfind [f Hfin]]. rewrite Hl in Hfind.
  replace (1 + length (r1 :: rest) - 1) with (length (r1 :: rest)) in Hfind by lia.
  assert (Forall won_by_seat (concat (feed_all (r1 :: rest)))) as Hwon'.
  { rewrite Hm in Hwon. cbn in *. apply Forall_app in Hwon as [? ?]. apply Forall_app.
    split; [done|by apply feed_rounds_won]. }
  unfold propagate. cbn [matches rounds set_field]. rewrite Hr, Hm, propagate_flat by done.
  rewrite Hfind, Hfin. split; [|done].
  destruct (is_Some_b (winner f)) eqn:Ew;
    (split; [done|by rewrite Hl|done|by apply feed_rounds_Fed|done|done|]);
    intros f' Hf'; rewrite Hfin in Hf'; injection Hf' as <-; by rewrite Ew.
Qed.

(** * Building the bracket *)

Lemma ceil_log2_spec n :
  2 ≤ n → 1 ≤ ceil_log2 n ∧ n ≤ 2 ^ ceil_log2 n ∧ 2 * 2 ^ (ceil_log2 n - 1) = 2 ^ ceil_log2 n
          ∧ 2 ^ (ceil_log2 n - 1) < n.
Proof.
  intros Hn. unfold ceil_log2. rewrite (proj2 (Nat.leb_gt n 1)) by lia.
  destruct (Nat.log2_spec (n - 1)) as [H1 H2]; [lia|].
  replace (S (Nat.log2 (n - 1)) - 1) with (Nat.log2 (n - 1)) by lia.
  cbn [Nat.pow] in *. lia.
Qed.

Lemma bye_matches_spec ps : ∀ id st,
  length (bye_matches id st ps) = length ps
  ∧ Forall (fun m => round m = 1 ∧ won_by_seat m
       ∧ is_Some (a m) ∧ is_Some (winner m) ∧ b m = None) (bye_matches id st ps)
  ∧ omap a (bye_matches id st ps) = ps ∧ omap b (bye_matches id st ps) = [].
Proof.
  induction ps as [|p ps IH]; intros id st; [done|]. cbn.
  destruct (IH (wadd 32 id 1) st) as (-> & H & -> & ->). split_and!; [done| |done|done].
  constructor; [|done]. split_and!; [done|intros w [= <-]; by left|by eexists|by eexists|done].
Qed.

(** Each registered player is seated once, in registration order. *)
Definition seated_players (ms : list Match) : list PlayerId :=
  concat (map (fun m => option_list (a m) ++ option_list (b m)) ms).

Lemma bye_matches_seated ps : ∀ id st, seated_players (bye_matches id st ps) = ps.
Proof.
  induction ps as [|p ps IH]; intros id st; [done|].
  cbn. f_equal. apply IH.
Qed.

Lemma pair_matches_spec k : ∀ ps id st,
  length ps = 2 * k →
  ∃ ms, pair_matches id st ps = Some ms ∧ length ms = k
    ∧ Forall (fun m => round m = 1 ∧ winner m = None ∧ is_Some (a m) ∧ is_Some (b m)) ms
    ∧ seated_players ms = ps.
Proof.
  induction k as [|k IH]; intros ps id st Hl.
  { destruct ps; [|cbn in Hl; lia]. exists []. split_and!; [done|done|constructor|done]. }
  destruct ps as [|p [|q ps]]; [cbn in Hl; lia|cbn in Hl; lia|].
  destruct (IH ps (wadd 32 id 1) st) as (ms & E & Hlm & H & Hs); [cbn in Hl; lia|].
  cbn [pair_matches]. rewrite E. eexists. split_and!; [reflexivity|cbn; by rewrite Hlm| |cbn; by rewrite <-Hs].
  constructor; [|done]. split_and!; [done|done|by eexists|by eexists].
Qed.

Lemma empty_matches_spec c : ∀ id st r,
  length (empty_matches id st r c) = c
  ∧ Forall (fun m => round m = r ∧ a m = None ∧ b m = None ∧ winner m = None ∧ stake_zat m = st)
      (empty_matches id st r c).
Proof.
  induction c as [|c IH]; intros id st r; [done|]. cbn.
  destruct (IH (wadd 32 id 1) st r) as [-> H]. split; [done|by constructor].
Qed.

(** The placeholder rounds as a list of rounds. *)
Fixpoint later_list (t : Tournament) (next_id : Z) (r left : nat) : list (list Match) :=
  match left with
  | O => []
  | S k =>
      empty_matches next_id (stake_for_round t r) r (2 ^ k)
      :: later_list t (wadd 32 next_id (Z.of_nat (2 ^ k))) (S r) k
  end.

Lemma later_list_flat t left : ∀ id r,
  later_rounds t id r left (2 ^ left) = concat (later_list t id r left)
  ∧ length (later_list t id r left) = left.
Proof.
  induction left as [|k IH]; intros id r; [done|]. cbn [later_rounds later_list concat length].
  assert (2 ^ S k / 2 = 2 ^ k) as -> by (cbn [Nat.pow]; rewrite Nat.mul_comm; apply Nat.div_mul; lia).
  destruct (IH (wadd 32 id (Z.of_nat (2 ^ k))) (S r)) as [-> ->]. done.
Qed.

Lemma prefed_empty ms : ∀ prev,
  length prev = 2 * length ms → Forall (fun m => a m = None ∧ b m = None) ms → PreFed prev ms.
Proof.
  induction ms as [|m ms IH]; intros prev Hl H.
  { destruct prev; [constructor|cbn in Hl; lia]. }
  destruct prev as [|m0 [|m1 prev]]; [cbn in Hl; lia|cbn in Hl; lia|].
  apply Forall_cons in H as [[Ha Hb] H]. constructor; [by left|by left|].
  apply IH; [cbn in Hl; lia|done].
Qed.

Lemma later_list_ok t left : ∀ id r ms,
  length ms = 2 ^ left → Forall (fun m => round m = r) ms →
  shape r (ms :: later_list t id (S r) left) ∧ chain PreFed (ms :: later_list t id (S r) left)
  ∧ Forall won_by_seat (concat (later_list t id (S r) left)).
Proof.
  induction left as [|k IH]; intros id r ms Hl Hr.
  { destruct ms as [|m [|]]; try done. apply Forall_cons in Hr as [Hr _].
    split_and!; [by apply shape_final|done|constructor]. }
  cbn [later_list concat chain].
  destruct (empty_matches_spec (2 ^ k) id (stake_for_round t (S r)) (S r)) as [El Ef].
  set (es := empty_matches _ _ _ _) in *. clearbody es.
  destruct (IH (wadd 32 id (Z.of_nat (2 ^ k))) (S r) es El) as (S1 & S2 & S3).
  { eapply Forall_impl; [exact Ef|]. by intros m (? & _). }
  split_and!.
  - constructor; [done|rewrite Hl, El; cbn; lia|done].
  - apply prefed_empty; [rewrite Hl, El; cbn; lia|].
    eapply Forall_impl; [exact Ef|]. by intros m (_ & ? & ? & _).
  - done.
  - apply Forall_app. split; [|done].
    eapply Forall_impl; [exact Ef|]. intros m (_ & _ & _ & E & _) w Hw. congruence.
Qed.

(** [build_bracket] succeeds and seats every registered player once. *)
Lemma build_bracket_ok t :
  2 ≤ length (players t) →
  ∃ r1 rest, build_bracket t = Some (concat (r1 :: rest))
    ∧ length (r1 :: rest) = ceil_log2 (length (players t))
    ∧ shape 1 (r1 :: rest) ∧ chain PreFed (r1 :: rest)
    ∧ Forall (first_ok (players t)) r1 ∧ Forall won_by_seat (concat (r1 :: rest))
    ∧ seated_players r1 = players t ∧ length r1 = 2 ^ (ceil_log2 (length (players t)) - 1).
Proof.
  intros Hn. destruct (ceil_log2_spec _ Hn) as (HR & Hle & Hpow & Hlt).
  unfold build_bracket. set (n := length (players t)) in *. set (R := ceil_log2 n) in *.
  set (byes := 2 ^ R - n).
  destruct (pair_matches_spec (2 ^ (R - 1) - byes) (drop byes (players t)) (Z.of_nat byes)
              (stake_for_round t 1)) as (real & -> & Hlr & Hr & Hsr).
  { rewrite length_drop. fold n. lia. }
  destruct (bye_matches_spec (take byes (players t)) 0 (stake_for_round t 1)) as (Hlb & Hb & _ & _).
  pose proof (bye_matches_seated (take byes (players t)) 0 (stake_for_round t 1)) as Hsb.
  set (bs := bye_matches _ _ _) in *. cbn [mbind option_bind].
  assert (length (bs ++ real) = 2 ^ (R - 1)) as Hl.
  { rewrite length_app, Hlr, Hlb, length_take. fold n. lia. }
  assert (seated_players (bs ++ real) = players t) as Hseat.
  { unfold seated_players in *. rewrite map_app, concat_app, Hsb, Hsr. apply take_drop. }
  assert (Forall (fun m => round m = 1) (bs ++ real)) as Hr1.
  { apply Forall_app. split; (eapply Forall_impl; [eassumption|]); by intros m (? & _). }
  rewrite Hl. destruct (later_list_flat t (R - 1) (Z.of_nat (2 ^ (R - 1))) 2) as [-> Hll].
  destruct (later_list_ok t (R - 1) (Z.of_nat (2 ^ (R - 1))) 1 (bs ++ real) Hl Hr1) as (S1 & S2 & S3).
  exists (bs ++ real), (later_list t (Z.of_nat (2 ^ (R - 1))) 2 (R - 1)).
  split_and!; [done|cbn; lia|done|done| | |done|done].
  - apply Forall_forall. intros m Hm.
    assert (∀ p, a m = Some p ∨ b m = Some p → p ∈ players t) as Hp.
    { intros p Hp. rewrite <-Hseat. unfold seated_players.
      apply list_elem_of_In, in_concat. exists (option_list (a m) ++ option_list (b m)).
      split; [apply (in_map (fun m => option_list (a m) ++ option_list (b m))), list_elem_of_In, Hm|].
      apply in_app_iff. destruct Hp as [E|E]; rewrite E; [left|right]; by left. }
    split; [|split; [|exact Hp]]; apply elem_of_app in Hm as [Hm|Hm];
      rewrite Forall_forall in Hb, Hr; [apply Hb in Hm|apply Hr in Hm|apply Hb in Hm|apply Hr in Hm];
      naive_solver.
  - cbn [concat]. apply Forall_app. split; [|done]. apply Forall_app. split.
    + eapply Forall_impl; [exact Hb|]. by intros m (_ & ? & _).
    + eapply Forall_impl; [exact Hr|]. intros m (_ & E & _) w Hw. congruence.
Qed.

(** * What the invariant gives *)

(** A property of matches that passes from two fed matches to their parent. *)
Lemma chain_forall (P Q : Match → Prop) :
  (∀ m m0 m1, P m0 → P m1 → a m = winner m0 → b m = winner m1 → Q m → P m) →
  ∀ rest prev, chain Fed (prev :: rest) → Forall P prev → Forall Q (concat rest) →
  Forall P (concat (prev :: rest)).
Proof.
  intros Hstep rest. induction rest as [|cur rest IH]; intros prev Hc Hp Hq.
  { cbn. by rewrite app_nil_r. }
  destruct Hc as [Hf Hc]. cbn [concat] in Hq |- *. apply Forall_app in Hq as [Hq Hq'].
  apply Forall_app. split; [done|]. apply IH; [done| |done]. clear - Hstep Hf Hp Hq.
  induction Hf as [|m0 m1 prev m cur Ha Hb _ IH]; [constructor|].
  apply Forall_cons in Hp as [H0 Hp]. apply Forall_cons in Hp as [H1 Hp].
  apply Forall_cons in Hq as [Hm Hq]. constructor; [by apply (Hstep m m0 m1)|auto].
Qed.

Section invariant.
Context {t : Tournament} {rs : list (list Match)} (B : bracket t rs).

Lemma bracket_rounds : ∃ r1 rest, rs = r1 :: rest.
Proof. destruct rs as [|r1 rest]; [by pose proof (bk_shape _ _ B) as H; inversion H|eauto]. Qed.

(** Only registered players sit in a match. *)
Lemma bracket_players :
  Forall (fun m => ∀ p, a m = Some p ∨ b m = Some p → p ∈ players t) (matches t).
Proof.
  destruct bracket_rounds as (r1 & rest & E). destruct B as [Bm _ _ Bf B1 Bw _].
  rewrite Bm in Bw |- *. subst rs. cbn [hd] in B1. cbn [concat] in Bw. apply Forall_app in Bw as [Bw1 Bw2].
  eapply Forall_impl; [apply (chain_forall
    (fun m => won_by_seat m ∧ ∀ p, a m = Some p ∨ b m = Some p → p ∈ players t) won_by_seat)|].
  - intros m m0 m1 [W0 P0] [W1 P1] Ea Eb Wm. split; [done|].
    intros p [E|E]; [rewrite Ea in E; by apply P0, W0|rewrite Eb in E; by apply P1, W1].
  - exact Bf.
  - apply Forall_and. split; [done|]. eapply Forall_impl; [exact B1|]. by intros m (_ & _ & ?).
  - done.
  - by intros m [_ ?].
Qed.

(** With nothing to play, every match is decided. *)
Lemma bracket_all_decided :
  pending_matches t = [] → Forall (fun m => is_Some (winner m)) (matches t).
Proof.
  intros Hp.
  assert (Forall (fun m => is_playable m = false) (matches t)) as Hnp.
  { apply Forall_forall. intros m Hm. destruct (is_playable m) eqn:E; [|done].
    assert (In m (pending_matches t)) as H by (apply filter_In; by rewrite <-list_elem_of_In).
    by rewrite Hp in H. }
  destruct bracket_rounds as (r1 & rest & E). destruct B as [Bm _ _ Bf B1 _ _].
  rewrite Bm in Hnp |- *. subst rs. cbn [hd] in B1. cbn [concat] in Hnp. apply Forall_app in Hnp as [Hn1 Hn2].
  assert (∀ m, is_playable m = false → is_Some (a m) → is_Some (b m) → is_Some (winner m)) as Hdec.
  { intros m Hm [p Ep] [q Eq]. unfold is_playable in Hm. rewrite Ep, Eq in Hm.
    by destruct (winner m). }
  apply (chain_forall _ (fun m => is_playable m = false)); [|exact Bf| |exact Hn2].
  - intros m m0 m1 H0 H1 Ea Eb Hm. apply Hdec; [done|by rewrite Ea|by rewrite Eb].
  - rewrite Forall_forall in B1, Hn1 |- *. intros m Hm.
    destruct (B1 m Hm) as (Ha & [Hb|Hw] & _); [|done]. apply Hdec; auto.
Qed.

Lemma bracket_final :
  ∃ f, final_of rs = Some f ∧ f ∈ matches t ∧ find_first (in_round (rounds t)) (matches t) = Some f.
Proof.
  destruct (find_final _ _ (bk_shape _ _ B)) as [Hf [f Ef]]. exists f.
  replace (1 + length rs - 1) with (rounds t) in Hf by (rewrite (bk_rounds _ _ B); lia).
  rewrite <-(bk_flat _ _ B), Ef in Hf. split_and!; [done| |done].
  by apply find_first_Some in Hf as [? _].
Qed.
End invariant.

(** A running tournament has a match to play. *)
Lemma running_playable t rs :
  bracket t rs → state t = TournState.Running → pending_matches t ≠ [].
Proof.
  intros B Hst Hp. destruct (bracket_final B) as (f & Ef & Hin & _).
  pose proof (bracket_all_decided B Hp) as H. rewrite Forall_forall in H.
  destruct (H f Hin) as [w Hw]. pose proof (bk_state _ _ B f Ef) as E. rewrite Hw in E. cbn in E.
  congruence.
Qed.

(** A finished one has a champion, who registered. *)
Lemma finished_champion t rs :
  bracket t rs → state t = TournState.Finished → ∃ p, champion t = Some p ∧ p ∈ players t.
Proof.
  intros B Hst. destruct (bracket_final B) as (f & Ef & Hin & Hfind).
  pose proof (bk_state _ _ B f Ef) as E. rewrite Hst in E.
  destruct (winner f) as [w|] eqn:Hw; [|done]. exists w. split.
  - unfold champion. rewrite bool_decide_eq_true_2 by done. cbn [negb]. by rewrite Hfind.
  - pose proof (bracket_players B) as Hp. pose proof (bk_won _ _ B) as Hwon.
    rewrite Forall_forall in Hp, Hwon. apply (Hp f Hin), (Hwon f Hin), Hw.
Qed.

(** * Reporting a result *)

Lemma Forall2_ext_insert ms i m m' :
  ms !! i = Some m → ext m m' → Forall2 ext ms (<[i := m']> ms).
Proof.
  intros Hi E. apply Forall2_same_length_lookup. split; [by rewrite length_insert|].
  intros j x y Hx Hy. destruct (decide (i = j)) as [->|Hne].
  - rewrite list_lookup_insert_eq in Hy by (by eapply lookup_lt_Some). congruence.
  - rewrite list_lookup_insert_ne in Hy by done.
    assert (x = y) as -> by congruence. apply ext_refl.
Qed.

(** What an accepted report is. *)
Lemma report_winner_inv t i w t' :
  report_winner t i w = Ok t' →
  ∃ k m, matches t !! k = Some m ∧ m_id m = i ∧ winner m = None ∧ seats_winner m w = true
    ∧ state t = TournState.Running
    ∧ t' = propagate (t <| matches := <[k := m <| winner := Some w |>]> (matches t) |>).
Proof.
  unfold report_winner. case_bool_decide as Hst; [|done]. cbn [negb].
  destruct (position _ (matches t)) as [k|] eqn:Ek; [|done].
  destruct (matches t !! k) as [m|] eqn:Em; [|done].
  destruct (winner m) as [x|] eqn:Ew; [done|]. cbn [is_Some_b].
  destruct (seats_winner m w) eqn:Es; [|done]. intros [= <-].
  exists k, m. split_and!; try done.
  destruct (position_Some _ _ _ Ek) as (x & Hx & Hid). by apply Z.eqb_eq; simplify_eq.
Qed.

Lemma propagate_frame t : players (propagate t) = players t ∧ rounds (propagate t) = rounds t.
Proof. unfold propagate. repeat case_match; done. Qed.

Lemma report_bracket t rs i w t' :
  bracket t rs → report_winner t i w = Ok t' → ∃ rs', bracket t' rs' ∧ players t' = players t.
Proof.
  intros [Bm Br Bs Bf B1 Bw _] E.
  destruct (report_winner_inv t i w t' E) as (k & m & Hk & _ & Hw & Hseat & Hst & ->).
  set (m' := m <| winner := Some w |>).
  assert (ext m m') as Em by (split; [done..|by left]).
  pose proof (Forall2_ext_insert (matches t) k m m' Hk Em) as HE. rewrite Bm in HE at 1.
  destruct (concat_ext _ _ HE) as (rs1 & Ers & HF).
  destruct (propagate_bracket (t <| matches := <[k := m']> (matches t) |>) rs1) as (rs' & B' & _).
  - exact Ers.
  - cbn [rounds set_field]. by rewrite Br, (Forall2_length _ _ _ HF).
  - by eapply shape_ext.
  - by eapply chain_ext.
  - cbn [players set_field]. destruct HF as [|x x' rs rs1 Hx HF]; [constructor|]. cbn [hd] in *.
    clear - Hx B1. induction Hx as [|y y' x x' Ey Hx IH]; [constructor|].
    apply Forall_cons in B1 as [(Ha & Hb & Hp) B1]. constructor; [|auto].
    rewrite <-(ex_a _ _ Ey), <-(ex_b _ _ Ey) in *. split_and!; [done| |done].
    destruct Hb as [|Hb]; [by left|right]. by destruct (ex_winner _ _ Ey) as [En| ->]; [rewrite En in Hb; destruct Hb|].
  - cbn [matches set_field]. apply Forall_insert; [done|].
    intros w' [= <-]. unfold seats_winner in Hseat. apply orb_true_iff in Hseat as [H|H];
      apply bool_decide_eq_true in H; [by left|by right].
  - exact Hst.
  - exists rs'. split; [done|]. by destruct (propagate_frame (t <| matches := <[k := m']> (matches t) |>)) as [-> _].
Qed.

(** * Counting decided matches *)

Lemma map_insert_same {A B} (f : A → B) l k x y :
  l !! k = Some x → f y = f x → map f (<[k := y]> l) = map f l.
Proof.
  revert k. induction l as [|z l IH]; intros [|k] Hk Hf; cbn in *; try done.
  - injection Hk as ->. by rewrite Hf.
  - f_equal. by apply IH.
Qed.

Lemma feed_keeps {A} (f : Match → A) s ms pw :
  (∀ m x, f (m <| a := x |>) = f m ∧ f (m <| b := x |>) = f m) → map f (feed s ms pw) = map f ms.
Proof.
  intros Hf. destruct pw as [k [w|]]; [|done]. unfold feed.
  destruct (ms !! _) as [m|] eqn:E; [|done].
  repeat case_match; try done; apply (map_insert_same f _ _ m); try done; apply Hf.
Qed.

Lemma propagate_keeps {A} (f : Match → A) t :
  (∀ m x, f (m <| a := x |>) = f m ∧ f (m <| b := x |>) = f m) →
  map f (matches (propagate t)) = map f (matches t).
Proof.
  intros Hf.
  assert (∀ l ms, map f (foldl propagate_round ms l) = map f ms) as H.
  { intros l ms. apply (foldl_inv (fun ms' => map f ms' = map f ms)); [done|].
    intros r ms' _ <-. unfold propagate_round. case_match; [|done].
    apply (foldl_inv (fun ms0 => map f ms0 = map f ms')); [done|].
    intros pw ms0 _ <-. by apply feed_keeps. }
  unfold propagate. cbn [matches set_field]. repeat case_match; cbn [matches set_field]; apply H.
Qed.

Definition decided (t : Tournament) : nat := count_if is_Some_b (map winner (matches t)).

Lemma count_if_insert {A} (p : A → bool) l k x y :
  l !! k = Some x → p x = false → p y = true → count_if p (<[k := y]> l) = S (count_if p l).
Proof.
  unfold count_if. revert k. induction l as [|z l IH]; intros [|k] Hk Hx Hy; cbn in *; try done.
  - injection Hk as ->. by rewrite Hx, Hy.
  - specialize (IH k Hk Hx Hy). destruct (p z); [cbn [length]; f_equal|]; exact IH.
Qed.

Lemma report_decides t i w t' :
  report_winner t i w = Ok t' → decided t' = S (decided t) ∧ length (matches t') = length (matches t).
Proof.
  intros E. destruct (report_winner_inv t i w t' E) as (k & m & Hk & _ & Hw & _ & _ & ->).
  set (t1 := t <| matches := _ |>).
  pose proof (propagate_keeps winner t1 ltac:(done)) as E1. split.
  - unfold decided. rewrite E1. unfold t1. cbn [matches set_field].
    rewrite !count_if_map.
    apply (count_if_insert _ _ _ m); [done|by rewrite Hw|done].
  - rewrite <-(length_map winner), E1, length_map. unfold t1. cbn [matches set_field].
    apply length_insert.
Qed.

(** * Starting *)

(** What a successful [start] does, whatever its guards. *)
Lemma bracket_started t :
  2 ≤ length (players t) →
  ∃ ms, build_bracket t = Some ms ∧
    let t' := propagate (t <| matches := ms |> <| rounds := ceil_log2 (length (players t)) |>
                           <| state := TournState.Running |>) in
    ∃ rs, bracket t' rs ∧ players t' = players t ∧ seated_players (hd [] rs) = players t
      ∧ rounds t' = ceil_log2 (length (players t)) ∧ length (hd [] rs) = 2 ^ (rounds t' - 1).
Proof.
  intros Hn.
  destruct (build_bracket_ok t Hn) as (r1 & rest & E & Hl & Hs & Hc & Hf & Hw & Hseat & Hl1).
  exists (concat (r1 :: rest)). split; [exact E|].
  set (t1 := t <| matches := concat (r1 :: rest) |> <| rounds := ceil_log2 (length (players t)) |>
               <| state := TournState.Running |>).
  destruct (propagate_bracket t1 (r1 :: rest)) as (rs & B & Hhd); [done|exact (eq_sym Hl)|done..|].
  exists rs. destruct (propagate_frame t1) as [-> ->]. rewrite Hhd. done.
Qed.

Lemma start_inv t t' :
  start t = Some (Ok t') → ∃ rs, bracket t' rs ∧ players t' = players t.
Proof.
  unfold start. case_bool_decide as Hst; [|done]. cbn [negb].
  destruct (Nat.ltb_spec (length (players t)) 2) as [|Hn]; [done|].
  destruct (bracket_started t Hn) as (ms & -> & rs & B & Hp & _).
  do 2 (case_match; [done|]). intros [= <-]. by exists rs.
Qed.

Lemma start_not_registering t t' : start t = Some (Ok t') → state t' ≠ TournState.Registering.
Proof.
  unfold start. do 4 (case_match; [done|]). destruct (build_bracket t); [|done].
  intros [= <-]. unfold propagate. by repeat case_match.
Qed.

(** * The properties of a tournament *)

(** Starting: a tournament in registration with two or more players (a
    power of two and a buy-in, if it is paid) starts, never going out of range;
    every registered player is seated in exactly one match of round 1, and round
    1 is the smallest power of two of matches that seats them. *)
Lemma start_builds_bracket t :
  state t = TournState.Registering → 2 ≤ length (players t) →
  (paid t = true → buyin_zat t ≠ 0%Z ∧ is_power_of_two (length (players t)) = true) →
  ∃ t' rs, start t = Some (Ok t') ∧ bracket t' rs
    ∧ players t' = players t ∧ seated_players (hd [] rs) = players t
    ∧ length (hd [] rs) = 2 ^ (rounds t' - 1) ∧ length (hd [] rs) < length (players t)
    ∧ length (players t) ≤ 2 * length (hd [] rs).
Proof.
  intros Hst Hn Hpaid. destruct (bracket_started t Hn) as (ms & E & rs & B & Hp & Hseat & Hr & Hl).
  do 2 eexists. destruct (ceil_log2_spec _ Hn) as (_ & Hle & Hpow & Hlt). rewrite Hr in Hl.
  split_and!; [|exact B|done|done|by rewrite Hr|lia|lia].
  unfold start. rewrite bool_decide_eq_true_2 by done. cbn [negb].
  rewrite (proj2 (Nat.ltb_ge _ _)), E by done. destruct (paid t); [|done].
  destruct (Hpaid eq_refl) as [H1 ->]. by rewrite (proj2 (Z.eqb_neq _ _) H1).
Qed.

Definition five : Tournament :=
  (Tournament_new "t1" "cup" "org" false 0) <| players := ["ann"; "bob"; "cyd"; "dan"; "eve"]%string |>.

Lemma start_builds_bracket_witness :
  ∃ t' rs, start five = Some (Ok t') ∧ bracket t' rs
    ∧ players t' = players five ∧ seated_players (hd [] rs) = players five
    ∧ length (hd [] rs) = 2 ^ (rounds t' - 1) ∧ length (hd [] rs) < length (players five)
    ∧ length (players five) ≤ 2 * length (hd [] rs).
Proof. apply (start_builds_bracket five); [reflexivity|cbn; lia|discriminate]. Defined.

(** The states a tournament goes through once started, by accepted reports. *)
Inductive plays (t : Tournament) : Tournament → Prop :=
| plays_start t' : start t = Some (Ok t') → plays t t'
| plays_report t1 t' i w : plays t t1 → report_winner t1 i w = Ok t' → plays t t'.

Lemma plays_bracket t t' : plays t t' → ∃ rs, bracket t' rs ∧ players t' = players t.
Proof.
  induction 1 as [t' E|t1 t' i w _ (rs & B & Ep) E]; [by apply start_inv|].
  destruct (report_bracket t1 rs i w t' B E) as (rs' & B' & Ep'). exists rs'. by rewrite Ep'.
Qed.

(** C23.  A started tournament never stalls: whatever results are reported, it
    is running with a match that can be played, or finished with a champion who
    was a registered player. *)
Theorem tournament_never_stalls t t' :
  plays t t' →
  state t' = TournState.Running ∧ pending_matches t' ≠ []
  ∨ state t' = TournState.Finished ∧ ∃ p, champion t' = Some p ∧ p ∈ players t.
Proof.
  intros (rs & B & Ep)%plays_bracket. destruct (bracket_final B) as (f & Ef & _).
  pose proof (bk_state _ _ B f Ef) as E. rewrite <-Ep.
  destruct (is_Some_b (winner f)); [right|left]; split; [done| |done|].
  - by eapply finished_champion.
  - by eapply running_playable.
Qed.

Definition started : Tournament :=
  match start five with Some (Ok t) => t | _ => five end.

Lemma tournament_never_stalls_witness :
  state started = TournState.Running ∧ pending_matches started ≠ []
  ∨ state started = TournState.Finished ∧ ∃ p, champion started = Some p ∧ p ∈ players five.
Proof. apply tournament_never_stalls, plays_start. vm_compute. reflexivity. Defined.

(** A tournament ends: each accepted report decides one more match and
    adds none, so no more than the undecided matches can follow. *)
Lemma report_makes_progress t i w t' :
  report_winner t i w = Ok t' →
  length (matches t') - decided t' < length (matches t) - decided t.
Proof.
  intros E. destruct (report_decides t i w t' E) as [-> ->].
  destruct (report_winner_inv t i w t' E) as (k & m & Hk & _ & Hw & _).
  enough (decided t < length (matches t)) by lia. unfold decided. rewrite count_if_map.
  replace (length (matches t)) with (count_if (fun _ => true) (matches t)) by (by apply count_if_all).
  apply (count_if_lt _ _ _ m); [done|by eapply list_elem_of_lookup_2|done|by rewrite Hw].
Qed.

Definition reported : Tournament :=
  match report_winner started 3 "dan" with Ok t => t | _ => started end.

Lemma report_makes_progress_witness :
  length (matches reported) - decided reported < length (matches started) - decided started.
Proof. apply (report_makes_progress started 3 "dan"). vm_compute. reflexivity. Defined.
