(* ===== verification/Registry.v ===== *)
(** The tournament registry of [crates/poker-server/src/tournament.rs], and the
    money side of a tournament: stakes, sponsor prizes, who may do what. *)
From stdpp Require Import base list strings sets gmap pretty.
From Stdlib Require Import ZArith Lia.
From S2P Require Import Prelude Tournament Bracket.

Local Open Scope Z_scope.

Record Registry := mkRegistry {
  tournaments : gmap string Tournament;
  reg_seq : Z;
}.
#[export] Instance Registry_eta : Eta Registry := fun r => mkRegistry (tournaments r) (reg_seq r).

Definition Registry_new : Registry := mkRegistry ∅ 0.

(** [format!("t{}", self.seq)] *)
Definition seq_id (n : Z) : string := ("t" +:+ pretty n)%string.

Definition create (r : Registry) (nm org : string) (pd : bool) (buyin : Z) (sched : option Z) (bps : Z)
  : Registry * string :=
  let s := wadd 64 (reg_seq r) 1 in
  let i := seq_id s in
  let t := (Tournament_new i nm org pd buyin) <| scheduled_start := sched |>
             <| roll_bps := clamp 1 10000 bps |> in
  (mkRegistry (<[i := t]> (tournaments r)) s, i).

(** [with]: runs [f] on one tournament, storing what it leaves if it succeeds;
    the methods passed to it change nothing when they fail. *)
Definition with_ (r : Registry) (i : string) (f : Tournament → result Tournament string)
  : result Registry string :=
  match tournaments r !! i with
  | None => Err "no such tournament"%string
  | Some t => let? t' := f t in Ok (r <| tournaments := <[i := t']> (tournaments r) |>)
  end.

(** One tournament's part in [tick]; [None] for the outcome when it is skipped. *)
Definition tick_one (now : Z) (t : Tournament) : Tournament * option string :=
  if negb (bool_decide (state t = TournState.Registering)) then (t, None)
  else
    match scheduled_start t with
    | Some ts =>
        if ts <=? now then
          if (length (players t) <? 2)%nat then
            (t <| state := TournState.Cancelled |>, Some "cancelled (too few players)"%string)
          else
            match start t with
            | Some (Ok t') => (t', Some "started"%string)
            | _ => (t <| state := TournState.Cancelled |>, Some "cancelled (bracket unbuildable)"%string)
            end
        else (t, None)
    | None => (t, None)
    end.

(** The outcomes as a map; the code lists them in the map's order. *)
Definition tick (r : Registry) (now : Z) : Registry * gmap string string :=
  (r <| tournaments := (fun t => (tick_one now t).1) <$> tournaments r |>,
   omap (fun t => (tick_one now t).2) (tournaments r)).

Definition get (r : Registry) (i : string) : option Tournament := tournaments r !! i.

(** [list]: the values, in the map's order. *)
Definition list_all (r : Registry) : list Tournament := (map_to_list (tournaments r)).*2.

Definition reg_join (r : Registry) (i : string) (p : PlayerId) : result Registry string :=
  with_ r i (fun t => join t p).

Definition reg_leave (r : Registry) (i : string) (p : PlayerId) : result Registry string :=
  with_ r i (fun t => leave t p).

(** The panic of [start] cannot happen ([start_builds_bracket]); the error
    string stands in for it to keep the function total. *)
Definition reg_start (r : Registry) (i : string) (who : PlayerId) : result Registry string :=
  with_ r i (fun t =>
    if negb (bool_decide (organizer t = who)) then Err "only the organizer can start this tournament"%string
    else match start t with Some x => x | None => Err "panic"%string end).

Definition reg_add_sponsor (r : Registry) (i : string) (who : PlayerId) (s : Sponsor) : result Registry string :=
  with_ r i (fun t => Ok (add_sponsor t who s)).

Definition reg_remove_sponsor (r : Registry) (i : string) (who target_by : PlayerId) : result Registry string :=
  with_ r i (fun t => remove_sponsor t who target_by).

Definition reg_mark_sponsor_funded (r : Registry) (i : string) (target_by : PlayerId) (room : string)
  : result Registry string := with_ r i (fun t => mark_sponsor_funded t target_by room).

Definition reg_cancel (r : Registry) (i : string) (who : PlayerId) : result Registry string :=
  with_ r i (fun t =>
    if negb (bool_decide (organizer t = who)) then Err "only the organizer can cancel this tournament"%string
    else cancel t).

Definition reg_report_winner (r : Registry) (i : string) (match_id : Z) (w : PlayerId) : result Registry string :=
  with_ r i (fun t => report_winner t match_id w).

(** * Stakes *)

Lemma roll_stake_le roll s : 0 ≤ s → 1 ≤ roll ≤ 10000 → 0 ≤ roll_stake roll s ≤ 2 * s.
Proof.
  intros Hs Hr. unfold roll_stake, sat_mul.
  assert (0 ≤ umax 128) by (vm_compute; discriminate).
  assert (0 ≤ Z.min (umax 128) (s * 2) ≤ 2 * s) as Hm by lia.
  set (m := Z.min (umax 128) (s * 2)) in *. clearbody m.
  assert (0 ≤ m * roll ≤ 2 * s * 10000) by nia.
  split; [apply Z.div_pos; lia|]. apply Z.div_le_upper_bound; lia.
Qed.

Lemma iter_roll_nonneg roll s k : 0 ≤ s → 1 ≤ roll ≤ 10000 → 0 ≤ Nat.iter k (roll_stake roll) s.
Proof. intros Hs Hr. induction k as [|k IH]; cbn; [done|]. by apply roll_stake_le. Qed.

(** A winner can always afford the next round: the stake of a round is at
    most twice the stake of the round before, the pot just won. *)
Lemma next_stake_affordable t r :
  0 ≤ buyin_zat t → (1 ≤ r)%nat → 0 ≤ stake_for_round t (S r) ≤ 2 * stake_for_round t r.
Proof.
  intros Hb Hr. unfold stake_for_round. destruct (paid t); cbn [negb orb]; [|lia].
  rewrite (proj2 (Nat.eqb_neq r 0)) by lia. cbn [Nat.eqb].
  assert (1 ≤ clamp 1 10000 (roll_bps t) ≤ 10000) as Hroll by (unfold clamp; lia).
  replace (S r - 1)%nat with (S (r - 1)) by lia. cbn [Nat.iter nat_rect].
  pose proof (iter_roll_nonneg _ (buyin_zat t) (r - 1) Hb Hroll) as H0.
  change (nat_rect _ _ _ (r - 1)) with (Nat.iter (r - 1) (roll_stake (clamp 1 10000 (roll_bps t))) (buyin_zat t)).
  set (x := Nat.iter (r - 1) _ _) in *. clearbody x.
  pose proof (roll_stake_le _ x H0 Hroll). assert (0 ≤ umax 64) by (vm_compute; discriminate). lia.
Qed.

Definition paid_cup (bps : Z) : Tournament :=
  (Tournament_new "t1" "cup" "org" true 1000) <| roll_bps := bps |>.

Lemma next_stake_affordable_witness : 0 ≤ stake_for_round (paid_cup 7500) 2 ≤ 2 * 1000.
Proof. apply (next_stake_affordable (paid_cup 7500) 1); [by vm_compute|lia]. Defined.

(** With full roll-over the stake doubles every round, as the
    documentation says, until it reaches the end of the [u64] range. *)
Lemma full_roll_doubles t r :
  paid t = true → roll_bps t = 10000 → 0 ≤ buyin_zat t → (1 ≤ r)%nat →
  buyin_zat t * 2 ^ Z.of_nat (r - 1) < 2 ^ 64 →
  stake_for_round t r = buyin_zat t * 2 ^ Z.of_nat (r - 1).
Proof.
  intros Hp Hroll Hb Hr Hfit. unfold stake_for_round. rewrite Hp, Hroll.
  rewrite (proj2 (Nat.eqb_neq r 0)) by lia. cbn [negb orb].
  change (clamp 1 10000 10000) with 10000.
  assert (∀ k, buyin_zat t * 2 ^ Z.of_nat k < 2 ^ 64 →
            Nat.iter k (roll_stake 10000) (buyin_zat t) = buyin_zat t * 2 ^ Z.of_nat k) as H.
  { induction k as [|k IH]; intros Hk; [cbn; lia|].
    rewrite Nat2Z.inj_succ, Z.pow_succ_r in * by lia.
    assert (0 ≤ 2 ^ Z.of_nat k) by (apply Z.pow_nonneg; lia).
    change (Nat.iter (S k) ?f ?x) with (f (Nat.iter k f x)). rewrite IH by nia.
    unfold roll_stake, sat_mul. change (umax 128) with (2 ^ 128 - 1).
    set (p := 2 ^ Z.of_nat k) in *. clearbody p.
    rewrite (Z.min_r _ (buyin_zat t * p * 2)) by nia. rewrite Z.min_r by nia.
    rewrite Z.div_mul by lia. lia. }
  rewrite H by done. change (umax 64) with (2 ^ 64 - 1). lia.
Qed.

Lemma full_roll_doubles_witness : stake_for_round (paid_cup 10000) 4 = 8000.
Proof. apply (full_roll_doubles (paid_cup 10000) 4); vm_compute; try reflexivity; try discriminate; lia. Defined.

(** * Sponsors *)

(** Only the organizer's word counts: what anyone else pledges adds
    nothing to the prize when it is added, whatever tier or funding the pledge
    claims; the organizer's pledge adds its amount, saturating. *)
Lemma pledge_counts t who s :
  total_prize (add_sponsor t who s) =
  if bool_decide (who = organizer t) then sat_add 64 (total_prize t) (added_prize_zat s)
  else total_prize t.
Proof.
  unfold total_prize, add_sponsor. cbn [sponsors set_field].
  rewrite List.filter_app, foldl_app. destruct (bool_decide (who = organizer t)); reflexivity.
Qed.

(** Only the sponsor or the organizer removes an entry, and exactly one
    entry of that sponsor goes. *)
Lemma remove_sponsor_authorized t who target t' :
  remove_sponsor t who target = Ok t' →
  (who = target ∨ who = organizer t)
  ∧ ∃ k s, sponsors t !! k = Some s ∧ by_ s = target ∧ sponsors t' = delete k (sponsors t).
Proof.
  unfold remove_sponsor. destruct (position _ _) as [k|] eqn:Ek; [|done].
  destruct (negb (bool_decide (who = target)) && _) eqn:G; [done|]. intros [= <-].
  apply andb_false_iff in G. split.
  - destruct G as [G|G]; apply negb_false_iff, bool_decide_eq_true in G; auto.
  - destruct (position_Some _ _ _ Ek) as (s & Hs & Hb). exists k, s.
    split_and!; [done|by apply bool_decide_eq_true in Hb|done].
Qed.

Definition backed : Tournament :=
  add_sponsor (Tournament_new "t1" "cup" "org" false 0) "acme"
    (mkSponsor "Acme" "" "" 500 "org" SponsorTier.Gold true None).

Lemma remove_sponsor_authorized_witness :
  total_prize backed = 0 ∧ ("org" = "acme" ∨ "org" = organizer backed)%string.
Proof.
  split; [reflexivity|].
  refine (proj1 (remove_sponsor_authorized backed "org" "acme" (backed <| sponsors := [] |>) _)).
  reflexivity.
Defined.

(** * The registry *)

(** The ticker acts on exactly the tournaments in registration whose
    scheduled time has come: afterwards none of them is still registering, and
    every other tournament is as it was. *)
Lemma tick_settles_schedule r now i t :
  tournaments r !! i = Some t →
  ∃ t', tournaments (tick r now).1 !! i = Some t'
    ∧ (if bool_decide (state t = TournState.Registering)
          && match scheduled_start t with Some ts => ts <=? now | None => false end
       then state t' ≠ TournState.Registering ∧ is_Some ((tick r now).2 !! i)
       else t' = t ∧ (tick r now).2 !! i = None).
Proof.
  intros Ht. exists (tick_one now t).1. unfold tick. cbn [fst snd tournaments set_field].
  rewrite lookup_fmap, lookup_omap, Ht. cbn [fmap option_fmap option_map mbind option_bind].
  split; [done|]. unfold tick_one. destruct (bool_decide_reflect (state t = TournState.Registering)) as [Hst|Hst]; [|done].
  cbn [negb andb]. destruct (scheduled_start t) as [ts|]; [|done].
  destruct (ts <=? now); [|done]. case_match; [by split; [|eexists]|].
  destruct (start t) as [[t'|e]|] eqn:E; cbn; (split; [|by eexists]); try done.
  by apply start_not_registering in E.
Qed.

Definition scheduled : Registry :=
  let '(r, i) := create Registry_new "cup" "org" false 0 (Some 100) 10000 in
  match reg_join r i "ann" with Ok r => r | Err _ => r end.

Lemma tick_settles_schedule_witness :
  ∃ t', tournaments (tick scheduled 100).1 !! "t1"%string = Some t' ∧ state t' ≠ TournState.Registering.
Proof.
  destruct (tick_settles_schedule scheduled 100 "t1"
    ((Tournament_new "t1" "cup" "org" false 0) <| players := ["ann"%string] |>
       <| scheduled_start := Some 100 |>)) as (t' & E & H1 & _); [vm_compute; reflexivity|].
  by exists t'.
Defined.

(** Every id in the registry was assigned by the counter. *)
Definition registry_ok (r : Registry) : Prop :=
  0 ≤ reg_seq r ∧ ∀ i, is_Some (tournaments r !! i) → ∃ k, 0 < k ≤ reg_seq r ∧ i = seq_id k.

(** A new tournament gets an id no tournament had, belongs to its creator,
    is open for registration, and disturbs no other; the registry stays well
    formed, so ids are never reused. *)
Lemma create_fresh r nm org pd buyin sched bps :
  registry_ok r → reg_seq r + 1 < 2 ^ 64 →
  let '(r', i) := create r nm org pd buyin sched bps in
  tournaments r !! i = None ∧ registry_ok r'
  ∧ (∀ j, j ≠ i → tournaments r' !! j = tournaments r !! j)
  ∧ ∃ t, tournaments r' !! i = Some t ∧ organizer t = org ∧ state t = TournState.Registering
         ∧ players t = [] ∧ 1 ≤ roll_bps t ≤ 10000.
Proof.
  intros [H0 Hids] Hfit. unfold create. rewrite wadd_small by lia.
  assert (tournaments r !! seq_id (reg_seq r + 1) = None) as Hnone.
  { destruct (tournaments r !! _) as [t|] eqn:E; [|done]. exfalso.
    destruct (Hids (seq_id (reg_seq r + 1))) as (k & Hk & Ek); [by eexists|].
    unfold seq_id in Ek. apply (inj (String.append "t")) in Ek. apply (inj pretty) in Ek. lia. }
  split_and!; [done| | |].
  - split; cbn [reg_seq tournaments]; [lia|]. intros j [t Hj].
    destruct (decide (j = seq_id (reg_seq r + 1))) as [->|Hne]; [exists (reg_seq r + 1); split; [lia|done]|].
    rewrite lookup_insert_ne in Hj by done. destruct (Hids j) as (k & Hk & ->); [by eexists|].
    exists k. split; [lia|done].
  - intros j Hj. cbn [tournaments]. by rewrite lookup_insert_ne.
  - eexists. cbn [tournaments]. rewrite lookup_insert_eq. split_and!; try reflexivity;
      cbn [roll_bps set_field]; unfold clamp; lia.
Qed.

Lemma create_fresh_witness :
  let '(r', i) := create Registry_new "cup" "org" false 0 None 10000 in
  tournaments Registry_new !! i = None ∧ registry_ok r'
  ∧ (∀ j, j ≠ i → tournaments r' !! j = tournaments Registry_new !! j)
  ∧ ∃ t, tournaments r' !! i = Some t ∧ organizer t = "org"%string ∧ state t = TournState.Registering
         ∧ players t = [] ∧ 1 ≤ roll_bps t ≤ 10000.
Proof.
  apply (create_fresh Registry_new "cup" "org" false 0 None 10000).
  - split; [by vm_compute|]. intros i [t Ht]. cbn [tournaments Registry_new] in Ht.
    by rewrite lookup_empty in Ht.
  - by vm_compute.
Defined.

(** Starting and cancelling are the organizer's: anyone else is refused
    and changes nothing; the organizer's cancel works at any time before the
    tournament is finished. *)
Lemma organizer_only r i t who :
  tournaments r !! i = Some t → who ≠ organizer t →
  is_ok (reg_start r i who) = false ∧ is_ok (reg_cancel r i who) = false
  ∧ (state t ≠ TournState.Finished →
     ∃ r' t', reg_cancel r i (organizer t) = Ok r' ∧ tournaments r' !! i = Some t'
       ∧ state t' = TournState.Cancelled).
Proof.
  intros Ht Hne. unfold reg_start, reg_cancel, with_. rewrite Ht.
  rewrite bool_decide_eq_false_2 by congruence. cbn [negb]. split_and!; [done|done|].
  intros Hst. rewrite bool_decide_eq_true_2 by done. cbn [negb]. unfold cancel.
  destruct (state t) eqn:E; try done; (do 2 eexists; split; [reflexivity|]);
    cbn [tournaments set_field]; rewrite lookup_insert_eq; (split; [reflexivity|done]).
Qed.

Lemma organizer_only_witness :
  is_ok (reg_start scheduled "t1" "ann") = false.
Proof.
  refine (proj1 (organizer_only scheduled "t1"
    ((Tournament_new "t1" "cup" "org" false 0) <| players := ["ann"%string] |>
       <| scheduled_start := Some 100 |>) "ann" _ _)).
  - vm_compute. reflexivity.
  - discriminate.
Defined.
