(* ===== verification/Bytes.v ===== *)
(** Byte buffers: slices, writes in place, and integers in either byte order.

    A buffer [[u8; N]] or a [Vec<u8>] is a list of bytes.  SHA-256 is a parameter. *)
From stdpp Require Import base list strings.
From Stdlib Require Import ZArith Lia Init.Byte Strings.Byte.
From coqutil Require Import Byte Word.LittleEndianList.
From S2P Require Import Prelude.

Local Open Scope Z_scope.

Abbreviation u8 := (Init.Byte.byte).
Abbreviation bytes := (list u8).

#[global] Instance byte_eq_dec : EqDecision u8 := Byte.byte_eq_dec.
#[global] Instance byte_inhabited : Inhabited u8 := populate x00.
(** * Buffers *)

Definition zeros (n : nat) : bytes := replicate n x00.

(** [l[a..b]] *)
Definition slice (a b : nat) (l : bytes) : bytes := take (b - a) (drop a l).

(** [l[off..off + v.len()].copy_from_slice(v)] *)
Definition put (off : nat) (v l : bytes) : bytes := take off l ++ v ++ drop (off + length v) l.

(** The first [n] bytes of [v], zeros after its end. *)
Definition fill (n : nat) (v : bytes) : bytes := take n v ++ zeros (n - length v).

Definition from_le (l : bytes) : Z := le_combine l.
Definition to_le (n : nat) (x : Z) : bytes := le_split n x.
Definition from_be (l : bytes) : Z := le_combine (rev l).
Definition to_be (n : nat) (x : Z) : bytes := rev (le_split n x).

Definition ascii (s : string) : bytes := String.list_byte_of_string s.

(** A byte as a number and back. *)
Definition b2z (b : u8) : Z := byte.unsigned b.
Definition z2b (x : Z) : u8 := byte.of_Z x.

(** * Lemmas *)

Lemma length_zeros n : length (zeros n) = n.
Proof. apply length_replicate. Qed.

Lemma length_fill n v : length (fill n v) = n.
Proof. unfold fill. rewrite length_app, length_take, length_zeros. lia. Qed.

Lemma fill_id n v : length v = n → fill n v = v.
Proof.
  intros <-. unfold fill. rewrite Nat.sub_diag, app_nil_r. apply take_ge. done.
Qed.

Lemma fill_app n l1 l2 : length l1 = n → fill n (l1 ++ l2) = l1.
Proof.
  intros <-. unfold fill. rewrite take_app_length, length_app, (proj2 (Nat.sub_0_le _ _)) by lia.
  apply app_nil_r.
Qed.

Lemma length_slice a b l : (b ≤ length l)%nat → length (slice a b l) = (b - a)%nat.
Proof. intros. unfold slice. rewrite length_take, length_drop. lia. Qed.

Lemma length_put off v l : (off + length v ≤ length l)%nat → length (put off v l) = length l.
Proof. intros. unfold put. rewrite !length_app, length_take, length_drop. lia. Qed.

Lemma slice_app_l a b (l k : bytes) : (b ≤ length l)%nat → slice a b (l ++ k) = slice a b l.
Proof.
  intros Hb. unfold slice. destruct (le_lt_dec b a); [by replace (b - a)%nat with 0%nat by lia|].
  rewrite drop_app_le by lia. rewrite take_app_le; [done|]. rewrite length_drop. lia.
Qed.

Lemma slice_app_r a b (l k : bytes) : (length l ≤ a)%nat → slice a b (l ++ k) = slice (a - length l) (b - length l) k.
Proof.
  intros Ha. unfold slice. rewrite drop_app_ge by lia. f_equal. lia.
Qed.

Lemma slice_whole a b (l : bytes) : a = 0%nat → b = length l → slice a b l = l.
Proof. intros -> ->. unfold slice. rewrite drop_0, Nat.sub_0_r. by apply take_ge. Qed.

(** A buffer cut in two at [a]. *)
Lemma slice_cut a b (l : bytes) : (a ≤ b ≤ length l)%nat → drop a l = slice a b l ++ drop b l.
Proof.
  intros Hab. unfold slice. rewrite <-(take_drop (b - a) (drop a l)) at 1. f_equal. rewrite drop_drop. f_equal. lia.
Qed.

Lemma slice_put_eq off v l :
  (off + length v ≤ length l)%nat → slice off (off + length v) (put off v l) = v.
Proof.
  intros H. unfold slice, put. rewrite drop_app_length' by (rewrite length_take; lia).
  rewrite take_app_length' by lia. done.
Qed.

Lemma slice_put_below a b off v l :
  (b ≤ off)%nat → (off ≤ length l)%nat → slice a b (put off v l) = slice a b l.
Proof.
  intros Hb Hl. unfold slice, put. destruct (le_lt_dec b a).
  { by replace (b - a)%nat with 0%nat by lia. }
  rewrite drop_app_le by (rewrite length_take; lia).
  rewrite take_app_le by (rewrite length_drop, length_take; lia).
  rewrite !take_drop_commute, take_take. do 2 f_equal. lia.
Qed.

Lemma slice_put_above a b off v l :
  (off + length v ≤ a)%nat → (off + length v ≤ length l)%nat → slice a b (put off v l) = slice a b l.
Proof.
  intros Ha Hl. unfold slice, put. f_equal. rewrite app_assoc, drop_app_ge
    by (rewrite length_app, length_take; lia).
  rewrite drop_drop, length_app, length_take. f_equal. lia.
Qed.

Lemma from_le_to_le n x : from_le (to_le n x) = wrap (Z.of_nat n * 8) x.
Proof. apply le_combine_split. Qed.

Lemma from_be_to_be n x : from_be (to_be n x) = wrap (Z.of_nat n * 8) x.
Proof. unfold from_be, to_be. rewrite rev_involutive. apply le_combine_split. Qed.

Lemma length_to_le n x : length (to_le n x) = n.
Proof. apply length_le_split. Qed.

Lemma length_to_be n x : length (to_be n x) = n.
Proof. unfold to_be. rewrite length_rev. apply length_le_split. Qed.

Lemma to_be_inj n x y : fits (Z.of_nat n * 8) x → fits (Z.of_nat n * 8) y → to_be n x = to_be n y → x = y.
Proof.
  intros Hx Hy E. apply (f_equal from_be) in E. rewrite !from_be_to_be in E.
  by rewrite !wrap_small in E.
Qed.

Lemma from_le_fits l : fits (Z.of_nat (length l) * 8) (from_le l).
Proof.
  pose proof (le_combine_bound l) as H. unfold fits, from_le.
  by replace (Z.of_nat (length l) * 8) with (8 * Z.of_nat (length l)) by lia.
Qed.

Lemma from_be_fits l : fits (Z.of_nat (length l) * 8) (from_be l).
Proof. rewrite <-length_rev. apply from_le_fits. Qed.

Lemma from_le_nonneg l : 0 ≤ from_le l.
Proof. apply from_le_fits. Qed.

Lemma from_be_nonneg l : 0 ≤ from_be l.
Proof. apply from_be_fits. Qed.

(** The last [k] bytes of a big-endian integer are its value modulo [2^(8k)]. *)
Lemma from_be_low n k x :
  (k ≤ n)%nat → from_be (slice (n - k) n (to_be n x)) = wrap (Z.of_nat k * 8) x.
Proof.
  intros Hk. unfold from_be, slice, to_be.
  replace (n - (n - k))%nat with k by lia.
  rewrite take_ge by (rewrite length_drop, length_rev, length_le_split; lia).
  pose proof (length_le_split n x) as Hl. revert Hl. generalize (le_combine_split n x).
  set (l := le_split n x). intros E Hl.
  assert (rev (drop (n - k) (rev l)) = take k l) as ->.
  { rewrite <-(rev_involutive (take k l)). f_equal.
    rewrite <-(take_drop k l) at 1. rewrite rev_app_distr.
    rewrite drop_app_length'; [done|]. rewrite length_rev, length_drop. lia. }
  change (take k l) with (firstn k l).
  rewrite le_combine_firstn, E. unfold wrap.
  replace (8 * Z.of_nat k) with (Z.of_nat k * 8) by lia.
  replace (Z.of_nat n * 8) with (Z.of_nat k * 8 + Z.of_nat (n - k) * 8) by lia.
  rewrite Z.pow_add_r by lia. rewrite Z.mul_comm.
  apply Z.mod_mod_divide. exists (2 ^ (Z.of_nat (n - k) * 8)). lia.
Qed.

Lemma b2z_z2b x : b2z (z2b x) = wrap 8 x.
Proof. apply byte.unsigned_of_Z. Qed.

Lemma z2b_b2z b : z2b (b2z b) = b.
Proof. apply byte.of_Z_unsigned. Qed.

Lemma b2z_range b : 0 ≤ b2z b < 256.
Proof. apply byte.unsigned_range. Qed.

Lemma insert_slice (l : bytes) i b x y : (i < x)%nat ∨ (y ≤ i)%nat → slice x y (<[i := b]> l) = slice x y l.
Proof.
  intros H. unfold slice. destruct (le_lt_dec y x).
  { by replace (y - x)%nat with 0%nat by lia. }
  destruct H as [H|H].
  - by rewrite drop_insert_lt.
  - by rewrite drop_insert_ge, take_insert_ge by lia.
Qed.

Lemma put_lookup_ne off v (l : bytes) i :
  (i < off)%nat ∨ (off + length v ≤ i)%nat → (off + length v ≤ length l)%nat → put off v l !!! i = l !!! i.
Proof.
  intros H Hl. unfold put. destruct H.
  - rewrite lookup_total_app_l by (rewrite length_take; lia). by rewrite lookup_total_take_lt.
  - rewrite !list_lookup_total_alt. f_equal.
    rewrite app_assoc, lookup_app_r by (rewrite length_app, length_take; lia).
    rewrite length_app, length_take, lookup_drop. f_equal. lia.
Qed.

(** * SHA-256

    A parameter wherever it is used; its output is a number. *)
Class Sha256 := sha256 : bytes → Z.

(** An injective stand-in for the hash: the bytes spelled out in base 257. *)
Fixpoint spell (l : bytes) : Z := match l with [] => 0 | b :: l => b2z b + 1 + 257 * spell l end.

Lemma spell_nonneg l : 0 ≤ spell l.
Proof. induction l as [|b l IH]; cbn [spell]; [done|]. pose proof (b2z_range b). lia. Qed.

Lemma spell_inj : Inj (=) (=) spell.
Proof.
  intros l. induction l as [|b l IH]; intros [|c k] E; cbn [spell] in E; [done|..].
  - pose proof (b2z_range c). pose proof (spell_nonneg k). lia.
  - pose proof (b2z_range b). pose proof (spell_nonneg l). lia.
  - pose proof (b2z_range b). pose proof (b2z_range c).
    assert (b2z b = b2z c) as Eb by lia. apply (f_equal z2b) in Eb. rewrite !z2b_b2z in Eb. subst c.
    f_equal. apply IH. lia.
Qed.

Definition spelled : Sha256 := spell.
