(* ===== verification/RevHost.v ===== *)
(** What the contracts of [crates/poker-channel-revive] and [crates/escrow-revive]
    use of their host: call data, storage, events and calls, and the helpers both
    contracts have around them.

    Contract storage is a class, so the contract
    is proved correct for any storage with the laws of a map; call data, the hash
    and the precompiles of the host are parameters of the contract. *)
From stdpp Require Import base list strings sets.
From Stdlib Require Import ZArith Lia Init.Byte Strings.Byte.
From coqutil Require Import Byte Word.LittleEndianList.
From S2P Require Import Prelude Bytes.

Local Open Scope Z_scope.

(** * Storage *)

(** [st_buffer n v] is what a zeroed buffer of [n] bytes holds once the host has
    read the value [v] into it: [n] bytes, and [v] if that is its size. *)
Class Storage (S : Type) := {
  st_get : S → bytes → option bytes;
  st_set : S → bytes → bytes → S;
  st_buffer : nat → bytes → bytes;
  st_get_set_eq s k v : st_get (st_set s k v) k = Some v;
  st_get_set_ne s k k' v : k ≠ k' → st_get (st_set s k v) k' = st_get s k';
  st_buffer_length n v : length (st_buffer n v) = n;
  st_buffer_exact v : st_buffer (length v) v = v;
}.

(** [sget(key, &mut [0; n])]: whether the key is there, and what the buffer
    holds. *)
Definition sget {S} `{Storage S} (s : S) (key : bytes) (n : nat) : option bytes :=
  st_buffer (S := S) n <$> st_get s key.

(** * The host *)

(** The host's functions: [call_data_copy n off cd], what a buffer of [n] bytes
    holds once the call data [cd] from [off] on is copied into it; the hash, the
    precompile at address 1 ([None] when the call fails), and how 256-bit numbers
    pass through 32-byte buffers. *)
Class Host := {
  call_data_copy : nat → Z → bytes → bytes;
  call_data_length n off cd : length (call_data_copy n off cd) = n;
  keccak256 : bytes → bytes;
  precompile1 : bytes → option bytes;
  host_word : Z → bytes;
  host_amount : bytes → Z;
}.

(** The call being executed.  [e_accepts] says whether the [i]-th transfer of the
    call succeeds at the receiving end. *)
Record Env := mkEnv {
  e_chain_id : bytes;
  e_address : bytes;
  e_caller : bytes;
  e_value : Z;
  e_block : Z;
  e_accepts : nat → bytes → Z → bool;
}.

Record Event := mkEvent { topics : list bytes; ev_data : bytes }.

(** The contract's storage and balance, the transfers it has made and the events
    it has emitted. *)
Record World {ST : Type} := mkWorld {
  store : ST;
  balance : Z;
  sent : list (bytes * Z);
  events : list Event;
}.
Arguments World : clear implicits.
Arguments mkWorld {ST}.
#[export] Instance World_eta {ST} : Eta (World ST) := fun w =>
  mkWorld (store w) (balance w) (sent w) (events w).

Inductive outcome (ST : Type) :=
| Return (w : World ST) (data : bytes)
| Revert (code : Z)
| Trap.
Arguments Return {ST}.
Arguments Revert {ST}.
Arguments Trap {ST}.

(** [if !b { api::return_value(ReturnFlags::REVERT, &[code]) }] *)
Definition require {ST} (b : bool) (code : Z) (k : outcome ST) : outcome ST :=
  if b then k else Revert code.
Notation "'require!' b 'else' e ';;' k" := (require b e k)
  (at level 10, b at level 200, e at level 0, k at level 200) : rust_scope.

(** The last four bytes of a 32-byte word, as the contract reads offsets and
    lengths. *)
Definition word_u32 (w : bytes) : Z := from_be (slice 28 32 w).

Section host.
Context {ST : Type} `{Storage ST} `{Host}.

Definition emit (w : World ST) (ts : list bytes) (data : bytes) : World ST :=
  w <| events := events w ++ [mkEvent ts data] |>.
Definition topic (sg : string) : bytes := keccak256 (ascii sg).
Definition pad20 (a : bytes) : bytes := zeros 12 ++ a.

Definition sset (w : World ST) (key v : bytes) : World ST := w <| store := st_set (store w) key v |>.

Definition caller (env : Env) : bytes := fill 20 (e_caller env).

Definition sel (signature : string) : bytes := slice 0 4 (fill 32 (keccak256 (ascii signature))).
End host.

(** * Lemmas *)

(** Storage as the log of its writes, latest first; a buffer takes as much of the
    value as it has room for. *)
#[export] Instance log_storage : Storage (list (bytes * bytes)).
Proof.
  refine (Build_Storage _ (fun s k => snd <$> find_first (fun kv => bool_decide (kv.1 = k)) s)
                          (fun s k v => (k, v) :: s) fill _ _ length_fill _).
  - intros s k v. cbn. by rewrite bool_decide_true.
  - intros s k k' v Hne. cbn. by rewrite bool_decide_false.
  - intros v. by apply fill_id.
Defined.

Lemma sget_set_eq {S} `{Storage S} (s : S) k v n : length v = n → sget (st_set s k v) k n = Some v.
Proof. intros Hl. unfold sget. rewrite st_get_set_eq. cbn. subst n. by rewrite st_buffer_exact. Qed.

Lemma sget_set_ne {S} `{Storage S} (s : S) k k' v n : k ≠ k' → sget (st_set s k v) k' n = sget s k' n.
Proof. intros. unfold sget. by rewrite st_get_set_ne. Qed.

Lemma sget_length {S} `{Storage S} (s : S) k n d : sget s k n = Some d → length d = n.
Proof. unfold sget. intros (v & _ & ->)%fmap_Some. apply st_buffer_length. Qed.

(** Whether a key is present does not depend on the buffer. *)
Lemma sget_present {S} `{Storage S} (s : S) k n m : is_Some (sget s k n) ↔ is_Some (sget s k m).
Proof. unfold sget. by rewrite !fmap_is_Some. Qed.
