(* ===== verification/Revive.v ===== *)
(** The channel contract, [crates/poker-channel-revive/src/main.rs]: games with
    deposits, state updates signed by every player, disputes and settlement.

    Call data, stored records and signed messages are the byte strings the
    contract reads and writes, at its offsets.  A handler returns what the call
    leaves behind, or reverts, which undoes it, or traps.  Offsets into call data
    are [u32]s. *)
From stdpp Require Import base list strings sets.
From Stdlib Require Import ZArith Lia Init.Byte.
From coqutil Require Import Byte.
From S2P Require Import Prelude Bytes RevHost.

Local Open Scope Z_scope.

(** * Storage layout *)

Definition GAME_PREFIX : u8 := x10.
Definition PLAYER_PREFIX : u8 := x20.

Definition STATE_CREATED : Z := 0.
Definition STATE_ACTIVE : Z := 1.
Definition STATE_DISPUTED : Z := 2.
Definition STATE_SETTLED : Z := 3.

Definition GAME_DATA_SIZE : nat := 96.
Definition PLAYER_DATA_SIZE : nat := 68.

Definition game_key (game_id : bytes) : bytes := GAME_PREFIX :: game_id.
Definition player_key (game_id : bytes) (seat : nat) : bytes :=
  PLAYER_PREFIX :: game_id ++ [z2b (Z.of_nat seat)].

Definition gd_state (d : bytes) : Z := b2z (d !!! 0%nat).
Definition gd_host (d : bytes) : bytes := slice 1 21 d.
Definition gd_big_blind (d : bytes) : Z := from_le (slice 21 37 d).
Definition gd_min_players (d : bytes) : Z := b2z (d !!! 37%nat).
Definition gd_max_players (d : bytes) : nat := Z.to_nat (b2z (d !!! 38%nat)).
Definition gd_current_players (d : bytes) : Z := b2z (d !!! 39%nat).
Definition gd_state_hash (d : bytes) : bytes := slice 40 72 d.
Definition gd_nonce (d : bytes) : Z := from_le (slice 72 80 d).
Definition gd_dispute_block (d : bytes) : Z := from_le (slice 80 88 d).
Definition gd_dispute_timeout (d : bytes) : Z := from_le (slice 88 96 d).

Definition pd_address (d : bytes) : bytes := slice 0 20 d.
Definition pd_deposit (d : bytes) : Z := from_le (slice 20 36 d).

(** [for seat in 0..max_players] *)
Definition seats_of (game_data : bytes) : list nat := seq 0 (gd_max_players game_data).

Section contract.
Context {ST : Type} `{Storage ST} `{Host}.
Implicit Types (w : World ST).

(** * Messages and signatures *)

Definition deployment_domain (env : Env) : bytes * bytes :=
  (fill 32 (e_chain_id env), fill 20 (e_address env)).

Definition state_message (chain_id contract_addr game_id : bytes) (nonce : Z) (state_hash : bytes) : bytes :=
  ascii "POKER_STATE" ++ chain_id ++ contract_addr ++ game_id ++ to_be 8 nonce ++ state_hash.

Definition state_message_hash (chain_id contract_addr game_id : bytes) (nonce : Z) (state_hash : bytes) : bytes :=
  keccak256 (state_message chain_id contract_addr game_id nonce state_hash).

Definition settle_message (chain_id contract_addr game_id : bytes) (nonce : Z)
    (state_hash payouts_hash : bytes) : bytes :=
  ascii "POKER_SETTLE" ++ chain_id ++ contract_addr ++ game_id ++ to_be 8 nonce ++ state_hash ++ payouts_hash.

Definition settle_message_hash (chain_id contract_addr game_id : bytes) (nonce : Z)
    (state_hash payouts_hash : bytes) : bytes :=
  keccak256 (settle_message chain_id contract_addr game_id nonce state_hash payouts_hash).

(** The input of the precompile: hash, recovery id, [r] and [s]. *)
Definition ecrecover_input (msg_hash signature : bytes) : bytes :=
  let v := if b2z (signature !!! 64%nat) <? 27 then z2b (b2z (signature !!! 64%nat) + 27)
           else signature !!! 64%nat in
  put 96 (slice 32 64 signature) (put 64 (slice 0 32 signature) (<[63%nat := v]> (put 0 msg_hash (zeros 128)))).

Definition ecrecover (msg_hash signature : bytes) : option bytes :=
  match precompile1 (ecrecover_input msg_hash signature) with
  | None => None
  | Some out =>
      let addr := slice 12 32 (fill 32 out) in
      if bool_decide (addr = zeros 20) then None else Some addr
  end.

(** The [i]-th element of the [bytes[]] array at [array]: [None] unless it is 65
    bytes long. *)
Definition nth_signature (cd : bytes) (array : Z) (i : nat) : option bytes :=
  let elem_offset_pos := wrap 32 (array + 32 + Z.of_nat i * 32) in
  let elem_offset := array + 32 + word_u32 (call_data_copy 32 elem_offset_pos cd) in
  let sig_len := word_u32 (call_data_copy 32 (wrap 32 elem_offset) cd) in
  if negb (sig_len =? 65) then None
  else Some (call_data_copy 32 (wrap 32 (elem_offset + 32)) cd
             ++ call_data_copy 32 (wrap 32 (elem_offset + 64)) cd
             ++ [call_data_copy 32 (wrap 32 (elem_offset + 96)) cd !!! 0%nat]).

Definition present (s : ST) (game_id : bytes) (seat : nat) : bool :=
  bool_decide (is_Some (sget s (player_key game_id seat) 1)).

Definition seat_holds (s : ST) (game_id addr : bytes) (seat : nat) : bool :=
  match sget s (player_key game_id seat) PLAYER_DATA_SIZE with
  | Some player_data => bool_decide (pd_address player_data = addr)
  | None => false
  end.

(** Marks the first seat the signer holds; [None] is the index past
    [player_signed]. *)
Definition mark_signed (s : ST) (game_id game_data signer : bytes) (signed : list bool) : option (list bool) :=
  match find_first (seat_holds s game_id signer) (seats_of game_data) with
  | None => Some signed
  | Some seat => if (seat <? 10)%nat then Some (<[seat := true]> signed) else None
  end.

(** The loop over the signatures: [None] is a panic, [Some None] is
    [return false]. *)
Fixpoint sign_loop (s : ST) (game_id game_data msg_hash cd : bytes) (array : Z)
    (idxs : list nat) (signed : list bool) : option (option (list bool)) :=
  match idxs with
  | [] => Some (Some signed)
  | i :: idxs' =>
      match nth_signature cd array i with
      | None => Some None
      | Some signature =>
          match ecrecover msg_hash signature with
          | None => Some None
          | Some signer =>
              match mark_signed s game_id game_data signer signed with
              | None => None
              | Some signed' => sign_loop s game_id game_data msg_hash cd array idxs' signed'
              end
          end
      end
  end.

(** The loop that checks that every player has signed; [None] is a panic. *)
Fixpoint check_loop (s : ST) (game_id : bytes) (signed : list bool) (seats : list nat) : option bool :=
  match seats with
  | [] => Some true
  | seat :: seats' =>
      if present s game_id seat then
        match signed !! seat with
        | None => None
        | Some false => Some false
        | Some true => check_loop s game_id signed seats'
        end
      else check_loop s game_id signed seats'
  end.

Definition verify_all_players_signed (s : ST) (game_id game_data msg_hash : bytes) (sigs_offset : Z)
    (cd : bytes) : option bool :=
  let array := 4 + word_u32 (call_data_copy 32 sigs_offset cd) in
  let num_sigs := word_u32 (call_data_copy 32 (wrap 32 array) cd) in
  match sign_loop s game_id game_data msg_hash cd array
          (seq 0 (Nat.min (Z.to_nat num_sigs) 10)) (replicate 10 false) with
  | None => None
  | Some None => Some false
  | Some (Some signed) => check_loop s game_id signed (seats_of game_data)
  end.

Definition verify_state_signatures (env : Env) (s : ST) (game_id : bytes) (nonce : Z)
    (state_hash game_data : bytes) (sigs_offset : Z) (cd : bytes) : option bool :=
  let '(chain_id, contract_addr) := deployment_domain env in
  verify_all_players_signed s game_id game_data
    (state_message_hash chain_id contract_addr game_id nonce state_hash) sigs_offset cd.

(** * Events *)

Definition emit_game_created w (game_id host : bytes) (big_blind : Z) :=
  emit w [topic "GameCreated(bytes32,address,uint128)"; game_id; pad20 host] (to_be 16 big_blind).
Definition emit_player_joined w (game_id player : bytes) (seat : u8) :=
  emit w [topic "PlayerJoined(bytes32,address,uint8)"; game_id; pad20 player] [seat].
Definition emit_game_started w (game_id : bytes) :=
  emit w [topic "GameStarted(bytes32)"; game_id] [].
Definition emit_state_updated w (game_id : bytes) (nonce : Z) (state_hash : bytes) :=
  emit w [topic "StateUpdated(bytes32,uint64,bytes32)"; game_id] (to_be 8 nonce ++ state_hash).
Definition emit_dispute_opened w (game_id initiator : bytes) :=
  emit w [topic "DisputeOpened(bytes32,address)"; game_id; pad20 initiator] [].
Definition emit_game_settled w (game_id : bytes) :=
  emit w [topic "GameSettled(bytes32)"; game_id] [].

(** * Handlers *)

Definition deposit (env : Env) : Z := from_be (slice 16 32 (fill 32 (host_word (e_value env)))).
Definition block_number (env : Env) : Z := from_be (slice 24 32 (fill 32 (host_word (e_block env)))).

Definition min_deposit (big_blind : Z) : Z := sat_mul 128 big_blind 10.

Definition player_record (addr : bytes) (dep : Z) (encryption_key : bytes) : bytes :=
  put 36 encryption_key (put 20 (to_le 16 dep) (put 0 addr (zeros PLAYER_DATA_SIZE))).

Definition new_game (host : bytes) (big_blind : Z) (min_players max_players : u8) (dispute_timeout : Z) : bytes :=
  put 88 (to_le 8 dispute_timeout)
    (<[39%nat := z2b 1]> (<[38%nat := max_players]> (<[37%nat := min_players]>
      (put 21 (to_le 16 big_blind) (put 1 host (<[0%nat := z2b STATE_CREATED]> (zeros GAME_DATA_SIZE))))))).

Definition handle_create_game (env : Env) (w : World ST) (cd : bytes) : outcome ST :=
  require! (4 + 192 <=? length cd)%nat else 2 ;;
  let calldata := call_data_copy 192 4 cd in
  let game_id := slice 0 32 calldata in
  let key := game_key game_id in
  require! negb (bool_decide (is_Some (sget (store w) key 1))) else 0x10 ;;
  let big_blind := from_be (slice 48 64 calldata) in
  let min_players := calldata !!! 95%nat in
  let max_players := calldata !!! 127%nat in
  let dispute_timeout := from_be (slice 152 160 calldata) in
  let encryption_key := slice 160 192 calldata in
  let host := caller env in
  let dep := deposit env in
  require! min_deposit big_blind <=? dep else 0x11 ;;
  let w := sset w key (new_game host big_blind min_players max_players dispute_timeout) in
  let w := sset w (player_key game_id 0) (player_record host dep encryption_key) in
  let w := emit_game_created w game_id host big_blind in
  let w := emit_player_joined w game_id host (z2b 0) in
  Return w game_id.

Definition handle_join_game (env : Env) (w : World ST) (cd : bytes) : outcome ST :=
  require! (4 + 96 <=? length cd)%nat else 2 ;;
  let calldata := call_data_copy 96 4 cd in
  let game_id := slice 0 32 calldata in
  let seat := calldata !!! 63%nat in
  let encryption_key := slice 64 96 calldata in
  let key := game_key game_id in
  match sget (store w) key GAME_DATA_SIZE with
  | None => Revert 3
  | Some game_data =>
      require! gd_state game_data =? STATE_CREATED else 4 ;;
      require! (Z.to_nat (b2z seat) <? gd_max_players game_data)%nat else 0x12 ;;
      let player_k := player_key game_id (Z.to_nat (b2z seat)) in
      require! negb (bool_decide (is_Some (sget (store w) player_k 20))) else 0x13 ;;
      let dep := deposit env in
      require! min_deposit (gd_big_blind game_data) <=? dep else 0x11 ;;
      let w := sset w player_k (player_record (caller env) dep encryption_key) in
      let game_data := <[39%nat := z2b (gd_current_players game_data + 1)]> game_data in
      let w := sset w key game_data in
      let w := emit_player_joined w game_id (caller env) seat in
      Return w [z2b 1]
  end.

Definition handle_start_game (env : Env) (w : World ST) (cd : bytes) : outcome ST :=
  require! (4 + 32 <=? length cd)%nat else 2 ;;
  let game_id := call_data_copy 32 4 cd in
  let key := game_key game_id in
  match sget (store w) key GAME_DATA_SIZE with
  | None => Revert 3
  | Some game_data =>
      require! bool_decide (caller env = gd_host game_data) else 5 ;;
      require! gd_state game_data =? STATE_CREATED else 4 ;;
      require! gd_min_players game_data <=? gd_current_players game_data else 0x14 ;;
      let game_data := <[0%nat := z2b STATE_ACTIVE]> game_data in
      let w := emit_game_started (sset w key game_data) game_id in
      Return w [z2b 1]
  end.

(** [state_hash] and [nonce] of a record. *)
Definition set_agreed (d state_hash : bytes) (nonce : Z) : bytes :=
  put 72 (to_le 8 nonce) (put 40 state_hash d).

Definition handle_update_state (env : Env) (w : World ST) (cd : bytes) : outcome ST :=
  require! (4 + 128 <=? length cd)%nat else 2 ;;
  let fixed := call_data_copy 96 4 cd in
  let game_id := slice 0 32 fixed in
  let nonce := from_be (slice 56 64 fixed) in
  let state_hash := slice 64 96 fixed in
  let key := game_key game_id in
  match sget (store w) key GAME_DATA_SIZE with
  | None => Revert 3
  | Some game_data =>
      require! gd_state game_data =? STATE_ACTIVE else 4 ;;
      require! gd_nonce game_data <? nonce else 0x15 ;;
      match verify_state_signatures env (store w) game_id nonce state_hash game_data 100 cd with
      | None => Trap
      | Some false => Revert 0x18
      | Some true =>
          let game_data := set_agreed game_data state_hash nonce in
          let w := emit_state_updated (sset w key game_data) game_id nonce state_hash in
          Return w [z2b 1]
      end
  end.

Definition handle_dispute (env : Env) (w : World ST) (cd : bytes) : outcome ST :=
  require! (4 + 128 <=? length cd)%nat else 2 ;;
  let fixed := call_data_copy 96 4 cd in
  let game_id := slice 0 32 fixed in
  let nonce := from_be (slice 56 64 fixed) in
  let state_hash := slice 64 96 fixed in
  let key := game_key game_id in
  match sget (store w) key GAME_DATA_SIZE with
  | None => Revert 3
  | Some game_data =>
      require! (gd_state game_data =? STATE_ACTIVE) || (gd_state game_data =? STATE_DISPUTED) else 4 ;;
      require! gd_nonce game_data <? nonce else 0x15 ;;
      match verify_state_signatures env (store w) game_id nonce state_hash game_data 100 cd with
      | None => Trap
      | Some false => Revert 0x18
      | Some true =>
          let game_data := <[0%nat := z2b STATE_DISPUTED]> game_data in
          let game_data := set_agreed game_data state_hash nonce in
          let game_data := put 80 (to_le 8 (block_number env)) game_data in
          let w := emit_dispute_opened (sset w key game_data) game_id (caller env) in
          Return w [z2b 1]
      end
  end.

(** * Settlement *)

Definition caller_is_participant (env : Env) (s : ST) (game_id game_data : bytes) : bool :=
  existsb (seat_holds s game_id (caller env)) (seats_of game_data).

(** May the game be settled now?  The error code if not. *)
Definition settle_phase (env : Env) (game_data : bytes) : option Z :=
  if gd_state game_data =? STATE_DISPUTED then
    if block_number env <? wadd 64 (gd_dispute_block game_data) (gd_dispute_timeout game_data)
    then Some 0x16 else None
  else if negb (gd_state game_data =? STATE_ACTIVE) then Some 4
  else None.

(** What the loop over the payouts has gathered. *)
Record Payouts := mkPayouts {
  py_preimage : bytes;
  py_list : list (Z * bytes);
  py_total : Z;
}.

(** The loop over the payouts; the error code if it reverts. *)
Fixpoint payouts_loop (s : ST) (game_id cd : bytes) (payouts_head : Z) (idxs : list nat) (p : Payouts)
  : result Payouts Z :=
  match idxs with
  | [] => Ok p
  | i :: idxs' =>
      let payout_bytes := call_data_copy 32 (wrap 32 (payouts_head + 32 + Z.of_nat i * 32)) cd in
      let payout := from_be (slice 16 32 payout_bytes) in
      let? l := (if 0 <? payout then
                   match sget s (player_key game_id i) PLAYER_DATA_SIZE with
                   | None => Err 0x19
                   | Some player_data => Ok (py_list p ++ [(payout, pd_address player_data)])
                   end
                 else Ok (py_list p)) in
      if 2 ^ 128 <=? py_total p + payout then Err 0x1A
      else payouts_loop s game_id cd payouts_head idxs'
             (mkPayouts (py_preimage p ++ payout_bytes) l (py_total p + payout))
  end.

(** The deposit stored for a seat, zero if nobody sits there. *)
Definition seat_deposit (s : ST) (game_id : bytes) (seat : nat) : Z :=
  match sget s (player_key game_id seat) PLAYER_DATA_SIZE with
  | Some player_data => pd_deposit player_data
  | None => 0
  end.

Definition total_deposits (s : ST) (game_id game_data : bytes) : Z :=
  foldl (fun acc seat => sat_add 128 acc (seat_deposit s game_id seat)) 0 (seats_of game_data).

(** The transfers; [None] when one fails. *)
Fixpoint pay_all (env : Env) (w : World ST) (i : nat) (l : list (Z * bytes)) : option (World ST) :=
  match l with
  | [] => Some w
  | (payout, addr) :: l' =>
      let payout_256 := put 16 (to_be 16 payout) (zeros 32) in
      let amount := host_amount payout_256 in
      if (amount <=? balance w) && e_accepts env i addr amount then
        pay_all env (w <| balance := balance w - amount |> <| sent := sent w ++ [(addr, amount)] |>) (S i) l'
      else None
  end.

Definition handle_settle (env : Env) (w : World ST) (cd : bytes) : outcome ST :=
  require! (4 + 96 <=? length cd)%nat else 2 ;;
  let head := call_data_copy 96 4 cd in
  let game_id := slice 0 32 head in
  let payouts_head := 4 + from_be (slice 60 64 head) in
  let sigs_offset := 4 + 64 in
  let key := game_key game_id in
  match sget (store w) key GAME_DATA_SIZE with
  | None => Revert 3
  | Some game_data =>
      require! caller_is_participant env (store w) game_id game_data else 0x20 ;;
      match settle_phase env game_data with
      | Some code => Revert code
      | None =>
          let payouts_len_bytes := call_data_copy 32 (wrap 32 payouts_head) cd in
          let payouts_len := Z.to_nat (word_u32 payouts_len_bytes) in
          require! (payouts_len <=? gd_max_players game_data)%nat && (payouts_len <=? 10)%nat else 0x17 ;;
          match payouts_loop (store w) game_id cd payouts_head (seq 0 payouts_len)
                  (mkPayouts payouts_len_bytes [] 0) with
          | Err code => Revert code
          | Ok p =>
              require! py_total p <=? total_deposits (store w) game_id game_data else 0x1B ;;
              let payouts_hash := keccak256 (py_preimage p) in
              let '(chain_id, contract_addr) := deployment_domain env in
              let settle_hash :=
                settle_message_hash chain_id contract_addr game_id (gd_nonce game_data)
                  (gd_state_hash game_data) payouts_hash in
              match verify_all_players_signed (store w) game_id game_data settle_hash sigs_offset cd with
              | None => Trap
              | Some false => Revert 0x18
              | Some true =>
                  let w := sset w key (<[0%nat := z2b STATE_SETTLED]> game_data) in
                  match pay_all env w 0 (py_list p) with
                  | None => Revert 0x1C
                  | Some w => Return (emit_game_settled w game_id) [z2b 1]
                  end
              end
          end
      end
  end.

(** * Views *)

Definition handle_get_game (w : World ST) (cd : bytes) : outcome ST :=
  require! (4 + 32 <=? length cd)%nat else 2 ;;
  match sget (store w) (game_key (call_data_copy 32 4 cd)) GAME_DATA_SIZE with
  | None => Revert 3
  | Some game_data => Return w game_data
  end.

Definition handle_get_player (w : World ST) (cd : bytes) : outcome ST :=
  require! (4 + 64 <=? length cd)%nat else 2 ;;
  let calldata := call_data_copy 64 4 cd in
  match sget (store w) (player_key (slice 0 32 calldata) (Z.to_nat (b2z (calldata !!! 63%nat)))) PLAYER_DATA_SIZE with
  | None => Revert 3
  | Some player_data => Return w player_data
  end.

(** * Dispatch *)

Definition call (env : Env) (w : World ST) (cd : bytes) : outcome ST :=
  require! (4 <=? length cd)%nat else 1 ;;
  let selector := call_data_copy 4 0 cd in
  let sel_is sg := bool_decide (selector = sel sg) in
  if sel_is "createGame(bytes32,uint128,uint8,uint8,uint64,bytes32)" then handle_create_game env w cd
  else if sel_is "joinGame(bytes32,uint8,bytes32)" then handle_join_game env w cd
  else if sel_is "startGame(bytes32)" then handle_start_game env w cd
  else if sel_is "updateState(bytes32,uint64,bytes32,bytes[])" then handle_update_state env w cd
  else if sel_is "dispute(bytes32,uint64,bytes32,bytes[])" then handle_dispute env w cd
  else if sel_is "settle(bytes32,uint128[],bytes[])" then handle_settle env w cd
  else if sel_is "getGame(bytes32)" then handle_get_game w cd
  else if sel_is "getPlayer(bytes32,uint8)" then handle_get_player w cd
  else Revert 0xFF.

(** A transaction: the value arrives with the call, and a call that reverts or
    traps leaves everything as it was. *)
Definition transact (w : World ST) (tx : Env * bytes) : World ST :=
  let '(env, cd) := tx in
  match call env (w <| balance := balance w + e_value env |>) cd with
  | Return w' _ => w'
  | Revert _ | Trap => w
  end.
End contract.
