(* ===== verification/ReviveStep.v ===== *)
(** What a call to the channel contract can do: every successful call is one of
    five kinds of change to the contract's records. *)
From stdpp Require Import base list strings sets.
From Stdlib Require Import ZArith Lia Init.Byte.
From coqutil Require Import Byte Word.LittleEndianList.
From S2P Require Import Prelude Bytes RevHost Revive.

Local Open Scope Z_scope.

(** * Bytes and records *)

Lemma gd_max_players_range d : (gd_max_players d < 256)%nat.
Proof. unfold gd_max_players. pose proof (b2z_range (d !!! 38%nat)). lia. Qed.

(** A game id, as cut out of call data. *)
Lemma game_id_length `{Host} n off cd : (32 ≤ n)%nat → length (slice 0 32 (call_data_copy n off cd)) = 32%nat.
Proof. intros. rewrite length_slice; rewrite ?call_data_length; lia. Qed.

Lemma game_key_inj g g' : game_key g = game_key g' → g = g'.
Proof. by intros [= ->]. Qed.

Lemma game_player_key g g' seat : game_key g ≠ player_key g' seat.
Proof. discriminate. Qed.

Lemma player_key_inj g g' a b :
  length g = length g' → (a < 256)%nat → (b < 256)%nat → player_key g a = player_key g' b → g = g' ∧ a = b.
Proof.
  intros Hl Ha Hb [= E]. apply app_inj_1 in E as [-> E]; [|done]. split; [done|].
  injection E as E. apply (f_equal b2z) in E. rewrite !b2z_z2b, !wrap_small in E by (unfold fits; lia). lia.
Qed.

#[export] Hint Resolve game_player_key : core.

(** The fields of a record after the agreed state has been replaced. *)
Lemma set_agreed_spec d h n :
  length d = GAME_DATA_SIZE → length h = 32%nat → fits 64 n →
  gd_state (set_agreed d h n) = gd_state d ∧ gd_max_players (set_agreed d h n) = gd_max_players d
  ∧ gd_state_hash (set_agreed d h n) = h ∧ gd_nonce (set_agreed d h n) = n
  ∧ length (set_agreed d h n) = GAME_DATA_SIZE.
Proof.
  intros Hd Hh Hn. unfold GAME_DATA_SIZE in Hd.
  assert (length (put 40 h d) = 96%nat) as H1 by (rewrite length_put; lia).
  assert (length (to_le 8 n) = 8%nat) as H2 by apply length_to_le.
  unfold set_agreed, gd_state, gd_max_players, gd_state_hash, gd_nonce. split_and!.
  - rewrite !put_lookup_ne by lia. done.
  - rewrite !put_lookup_ne by lia. done.
  - rewrite slice_put_below by lia. rewrite <-Hh at 1.
    change 72%nat with (40 + 32)%nat. rewrite <-Hh. apply slice_put_eq. lia.
  - pose proof (slice_put_eq 72 (to_le 8 n) (put 40 h d)) as E. rewrite H2 in E.
    change (72 + 8)%nat with 80%nat in E. rewrite E by lia. rewrite from_le_to_le. by apply wrap_small.
  - rewrite length_put by lia. done.
Qed.

Lemma insert_spec0 d b :
  length d = GAME_DATA_SIZE →
  gd_state (<[0%nat := b]> d) = b2z b ∧ gd_max_players (<[0%nat := b]> d) = gd_max_players d
  ∧ gd_state_hash (<[0%nat := b]> d) = gd_state_hash d ∧ gd_nonce (<[0%nat := b]> d) = gd_nonce d
  ∧ length (<[0%nat := b]> d) = GAME_DATA_SIZE.
Proof.
  intros Hd. unfold GAME_DATA_SIZE in Hd. unfold gd_state, gd_max_players, gd_state_hash, gd_nonce. split_and!.
  - by rewrite list_lookup_total_insert_eq by lia.
  - by rewrite list_lookup_total_insert_ne by lia.
  - by rewrite insert_slice by lia.
  - by rewrite insert_slice by lia.
  - by rewrite length_insert.
Qed.

Lemma insert_spec39 d b :
  length d = GAME_DATA_SIZE →
  gd_state (<[39%nat := b]> d) = gd_state d ∧ gd_max_players (<[39%nat := b]> d) = gd_max_players d
  ∧ gd_state_hash (<[39%nat := b]> d) = gd_state_hash d ∧ gd_nonce (<[39%nat := b]> d) = gd_nonce d
  ∧ length (<[39%nat := b]> d) = GAME_DATA_SIZE.
Proof.
  intros Hd. unfold GAME_DATA_SIZE in Hd. unfold gd_state, gd_max_players, gd_state_hash, gd_nonce. split_and!.
  - by rewrite list_lookup_total_insert_ne by lia.
  - by rewrite list_lookup_total_insert_ne by lia.
  - by rewrite insert_slice by lia.
  - by rewrite insert_slice by lia.
  - by rewrite length_insert.
Qed.

(** Writing the dispute block changes none of these fields. *)
Lemma put80_spec d v :
  length d = GAME_DATA_SIZE → length v = 8%nat →
  gd_state (put 80 v d) = gd_state d ∧ gd_max_players (put 80 v d) = gd_max_players d
  ∧ gd_state_hash (put 80 v d) = gd_state_hash d ∧ gd_nonce (put 80 v d) = gd_nonce d
  ∧ length (put 80 v d) = GAME_DATA_SIZE.
Proof.
  intros Hd Hv. unfold GAME_DATA_SIZE in Hd. unfold gd_state, gd_max_players, gd_state_hash, gd_nonce. split_and!.
  - by rewrite put_lookup_ne by lia.
  - by rewrite put_lookup_ne by lia.
  - by rewrite slice_put_below by lia.
  - by rewrite slice_put_below by lia.
  - by rewrite length_put by lia.
Qed.

Lemma player_record_spec addr dep key :
  length addr = 20%nat → length key = 32%nat → fits 128 dep →
  pd_address (player_record addr dep key) = addr ∧ pd_deposit (player_record addr dep key) = dep
  ∧ length (player_record addr dep key) = PLAYER_DATA_SIZE.
Proof.
  intros Ha Hk Hd. unfold player_record, pd_address, pd_deposit, PLAYER_DATA_SIZE.
  pose proof (length_zeros 68) as L0. set (z := zeros 68) in *.
  assert (length (put 0 addr z) = 68%nat) as L1 by (rewrite length_put; lia).
  pose proof (length_to_le 16 dep) as L2.
  assert (length (put 20 (to_le 16 dep) (put 0 addr z)) = 68%nat) as L3 by (rewrite length_put; lia).
  split_and!.
  - rewrite !slice_put_below by lia. pose proof (slice_put_eq 0 addr z) as E. rewrite Ha in E. apply E. lia.
  - rewrite slice_put_below by lia. pose proof (slice_put_eq 20 (to_le 16 dep) (put 0 addr z)) as E.
    rewrite L2 in E. change (20 + 16)%nat with 36%nat in E. rewrite E by lia.
    rewrite from_le_to_le. by apply wrap_small.
  - rewrite length_put; lia.
Qed.

Lemma new_game_spec host bb mn mx dt :
  length host = 20%nat →
  gd_state (new_game host bb mn mx dt) = STATE_CREATED ∧ length (new_game host bb mn mx dt) = GAME_DATA_SIZE.
Proof.
  intros Hh. unfold new_game, GAME_DATA_SIZE.
  pose proof (length_zeros 96) as L0. set (z := zeros 96) in *.
  set (z0 := <[0%nat := _]> z). assert (length z0 = 96%nat) as L1 by (unfold z0; by rewrite length_insert).
  assert (length (put 1 host z0) = 96%nat) as L2 by (rewrite length_put; lia).
  pose proof (length_to_le 16 bb) as L3. pose proof (length_to_le 8 dt) as L4.
  assert (length (put 21 (to_le 16 bb) (put 1 host z0)) = 96%nat) as L5 by (rewrite length_put; lia).
  split; [|rewrite length_put; rewrite !length_insert; lia].
  unfold gd_state. rewrite put_lookup_ne by (rewrite ?length_insert; lia).
  rewrite !list_lookup_total_insert_ne by lia. rewrite !put_lookup_ne by lia.
  unfold z0. rewrite list_lookup_total_insert_eq by lia. reflexivity.
Qed.

Lemma require_return {ST} (c : bool) e (k : outcome ST) w r :
  require c e k = Return w r → c = true ∧ k = Return w r.
Proof. unfold require. destruct c; [done|discriminate]. Qed.

Section effects.
Context {ST : Type} `{Storage ST} `{Host}.

Lemma length_caller env : length (caller env) = 20%nat.
Proof. apply length_fill. Qed.

Lemma deposit_fits env : fits 128 (deposit env).
Proof.
  unfold deposit. pose proof (from_be_fits (slice 16 32 (fill 32 (host_word (e_value env))))) as Hf.
  by rewrite length_slice in Hf by (rewrite length_fill; lia).
Qed.

(** * Signatures *)

Lemma sign_loop_spec (s : ST) g d msg cd array idxs signed signed' :
  sign_loop s g d msg cd array idxs signed = Some (Some signed') →
  ∀ seat, signed' !! seat = Some true → signed !! seat = Some true ∨
    ∃ i sig addr, i ∈ idxs ∧ nth_signature cd array i = Some sig ∧ ecrecover msg sig = Some addr
      ∧ find_first (seat_holds s g addr) (seats_of d) = Some seat.
Proof.
  revert signed. induction idxs as [|i idxs IH]; intros signed; cbn; [intros [= ->]; auto|].
  destruct (nth_signature cd array i) as [sig|] eqn:Es; [|done].
  destruct (ecrecover msg sig) as [addr|] eqn:Er; [|done].
  destruct (mark_signed s g d addr signed) as [m|] eqn:Em; [|done].
  intros Hl seat Hseat. destruct (IH m Hl seat Hseat) as [Hm|(j & sig' & addr' & Hj & ?)].
  - unfold mark_signed in Em. destruct (find_first _ _) as [seat0|] eqn:Ef; [|injection Em as <-; auto].
    destruct (seat0 <? 10)%nat; [|done]. injection Em as <-.
    destruct (decide (seat0 = seat)) as [->|Hne].
    + right. exists i, sig, addr. split_and!; [left|done|done|done].
    + rewrite list_lookup_insert_ne in Hm by done. auto.
  - right. exists j, sig', addr'. split; [by right|done].
Qed.

Lemma sign_loop_length (s : ST) g d msg cd array idxs signed signed' :
  sign_loop s g d msg cd array idxs signed = Some (Some signed') → length signed' = length signed.
Proof.
  revert signed. induction idxs as [|i idxs IH]; intros signed; cbn; [by intros [= ->]|].
  destruct (nth_signature cd array i) as [sig|]; [|done]. destruct (ecrecover msg sig) as [addr|]; [|done].
  destruct (mark_signed s g d addr signed) as [m|] eqn:Em; [|done]. intros Hl. rewrite (IH m Hl).
  unfold mark_signed in Em. destruct (find_first _ _) as [seat0|]; [|by injection Em as <-].
  destruct (seat0 <? 10)%nat; [|done]. injection Em as <-. apply length_insert.
Qed.

Lemma check_loop_spec (s : ST) g signed seats :
  check_loop s g signed seats = Some true →
  ∀ seat, seat ∈ seats → present s g seat = true → signed !! seat = Some true.
Proof.
  induction seats as [|x seats IH]; cbn; [set_solver|]. intros Hc seat [->|Hin]%elem_of_cons Hp.
  - rewrite Hp in Hc. destruct (signed !! x) as [[]|]; done.
  - apply IH; [|done|done]. destruct (present s g x); [|done]. by destruct (signed !! x) as [[]|].
Qed.

(** Every seated player has signed [msg] with the address stored at its seat. *)
Definition all_signed (s : ST) (g d msg cd : bytes) (sigs_offset : Z) : Prop :=
  ∀ seat, (seat < gd_max_players d)%nat → present s g seat = true →
    (seat < 10)%nat ∧
    ∃ i sig addr, (i < 10)%nat
      ∧ nth_signature cd (4 + word_u32 (call_data_copy 32 sigs_offset cd)) i = Some sig
      ∧ ecrecover msg sig = Some addr
      ∧ find_first (seat_holds s g addr) (seats_of d) = Some seat.

Lemma verify_spec (s : ST) g d msg off cd :
  verify_all_players_signed s g d msg off cd = Some true → all_signed s g d msg cd off.
Proof.
  unfold verify_all_players_signed. cbv zeta. intros Hv.
  destruct (sign_loop _ _ _ _ _ _ _ _) as [[signed|]|] eqn:El; [|done|done].
  intros seat Hseat Hp. pose proof (check_loop_spec _ _ _ _ Hv seat) as Hs.
  specialize (Hs ltac:(apply elem_of_seq; lia) Hp).
  pose proof (lookup_lt_Some _ _ _ Hs) as Hlt. rewrite (sign_loop_length _ _ _ _ _ _ _ _ _ El) in Hlt.
  split; [done|]. destruct (sign_loop_spec _ _ _ _ _ _ _ _ _ El seat Hs) as [Ht|(i & sig & addr & Hi & ?)].
  - apply lookup_replicate in Ht as [? _]. done.
  - exists i, sig, addr. apply elem_of_seq in Hi. split; [lia|done].
Qed.

Lemma seat_holds_spec (s : ST) g addr seat :
  seat_holds s g addr seat = true ↔ ∃ pd, sget s (player_key g seat) PLAYER_DATA_SIZE = Some pd ∧ pd_address pd = addr.
Proof.
  unfold seat_holds. destruct (sget _ _ _) as [pd|].
  - rewrite bool_decide_eq_true. split; [by exists pd|]. by intros (pd' & [= ->] & ?).
  - split; [done|]. by intros (? & ? & _).
Qed.

(** Who has signed sits at the first seat with its address, so a second seat with
    the same address never counts as signed. *)
Lemma all_signed_distinct (s : ST) g d msg cd off a b pa pb :
  all_signed s g d msg cd off → (a < b < gd_max_players d)%nat →
  sget s (player_key g a) PLAYER_DATA_SIZE = Some pa → sget s (player_key g b) PLAYER_DATA_SIZE = Some pb →
  pd_address pa ≠ pd_address pb.
Proof.
  intros Hs [Hab Hb] Ha Hpb E. destruct (Hs b Hb) as (_ & i & sig & addr & _ & _ & _ & Hf).
  { apply bool_decide_eq_true. eapply (sget_present _ _ PLAYER_DATA_SIZE). by rewrite Hpb. }
  assert (seat_holds s g addr b = true) as Hbh by (by apply find_first_Some in Hf as [_ ?]).
  apply seat_holds_spec in Hbh as (pb' & Hpb' & <-). rewrite Hpb in Hpb'. injection Hpb' as <-.
  assert (seat_holds s g (pd_address pb) a = true) as Hah by (apply seat_holds_spec; by exists pa).
  unfold seats_of in Hf. replace (gd_max_players d) with (b + (gd_max_players d - b))%nat in Hf by lia.
  rewrite seq_app in Hf. clear - Hf Hah Hab.
  assert (∀ l k p (x : nat), x ∈ l → p x = true → find_first p (l ++ k) = Some b → b ∈ l) as Hfirst.
  { clear. intros l k p x. induction l as [|y l IH]; [set_solver|]. cbn. intros Hx Hp.
    destruct (p y) eqn:Ey; [intros [= ->]; left|]. intros Hf. right.
    apply IH; [|done|done]. apply elem_of_cons in Hx as [->|Hx]; [congruence|done]. }
  apply (Hfirst _ _ _ a) in Hf; [apply elem_of_seq in Hf; lia|apply elem_of_seq; lia|done].
Qed.
(** * What a successful call does *)

(** The amount the host reads from the word of a transfer. *)
Definition transfer_amount (payout : Z) : Z := host_amount (put 16 (to_be 16 payout) (zeros 32)).

Definition quiet (w w' : World ST) : Prop := balance w' = balance w ∧ sent w' = sent w.

(** Every player has signed the state agreed in [d']. *)
Definition agreed_signed (env : Env) (s : ST) (g d d' : bytes) : Prop :=
  ∃ cd, all_signed s g d
    (state_message_hash (deployment_domain env).1 (deployment_domain env).2 g (gd_nonce d') (gd_state_hash d'))
    cd 100.

(** The record of a game before and after the calls that keep it open. *)
Record reopened (env : Env) (s : ST) (g d d' : bytes) : Prop := {
  ro_length : length d' = GAME_DATA_SIZE;
  ro_open : gd_state d ≠ STATE_SETTLED;
  ro_still : gd_state d' ≠ STATE_SETTLED;
  ro_seats : gd_max_players d' = gd_max_players d;
  ro_agreed : (gd_nonce d' = gd_nonce d ∧ gd_state_hash d' = gd_state_hash d)
              ∨ (gd_nonce d < gd_nonce d' ∧ agreed_signed env s g d d');
}.

(** The payouts of a settlement go to seats of the game and are covered by its
    deposits. *)
Record covered (s : ST) (g d : bytes) (pays : list (Z * bytes)) : Prop := {
  cv_open : gd_state d = STATE_ACTIVE ∨ gd_state d = STATE_DISPUTED;
  cv_seats : ∀ p addr, (p, addr) ∈ pays →
    fits 128 p ∧ ∃ seat, (seat < gd_max_players d)%nat ∧ seat_holds s g addr seat = true;
  cv_total : zsum (map fst pays) ≤ total_deposits s g d;
}.

Inductive effect (env : Env) (w w' : World ST) : Prop :=
| effect_view : store w' = store w → quiet w w' → effect env w w'
| effect_create g d pd :
    length g = 32%nat → sget (store w) (game_key g) GAME_DATA_SIZE = None →
    length d = GAME_DATA_SIZE → gd_state d = STATE_CREATED →
    length pd = PLAYER_DATA_SIZE → pd_deposit pd = deposit env →
    store w' = st_set (st_set (store w) (game_key g) d) (player_key g 0) pd → quiet w w' → effect env w w'
| effect_join g d d' seat pd :
    length g = 32%nat → sget (store w) (game_key g) GAME_DATA_SIZE = Some d → gd_state d = STATE_CREATED →
    (seat < gd_max_players d)%nat → sget (store w) (player_key g seat) PLAYER_DATA_SIZE = None →
    reopened env (store w) g d d' → length pd = PLAYER_DATA_SIZE → pd_deposit pd = deposit env →
    store w' = st_set (st_set (store w) (player_key g seat) pd) (game_key g) d' → quiet w w' → effect env w w'
| effect_record g d d' :
    length g = 32%nat → sget (store w) (game_key g) GAME_DATA_SIZE = Some d → reopened env (store w) g d d' →
    store w' = st_set (store w) (game_key g) d' → quiet w w' → effect env w w'
| effect_settle g d pays msg cd :
    length g = 32%nat → sget (store w) (game_key g) GAME_DATA_SIZE = Some d → covered (store w) g d pays →
    all_signed (store w) g d msg cd (4 + 64) →
    store w' = st_set (store w) (game_key g) (<[0%nat := z2b STATE_SETTLED]> d) →
    balance w' = balance w - zsum (map (fun p => transfer_amount p.1) pays) →
    sent w' = sent w ++ map (fun p => (p.2, transfer_amount p.1)) pays → effect env w w'.

Lemma reopened_start env s g d :
  length d = GAME_DATA_SIZE → gd_state d = STATE_CREATED → reopened env s g d (<[0%nat := z2b STATE_ACTIVE]> d).
Proof.
  intros Hl Hs. destruct (insert_spec0 d (z2b STATE_ACTIVE) Hl) as (E1 & E2 & E3 & E4 & E5).
  constructor; [done|by rewrite Hs|by rewrite E1|done|by left].
Qed.

Lemma reopened_agreed env s g d h n cd :
  length d = GAME_DATA_SIZE → gd_state d ≠ STATE_SETTLED → length h = 32%nat → fits 64 n → gd_nonce d < n →
  verify_state_signatures env s g n h d 100 cd = Some true →
  reopened env s g d (set_agreed d h n).
Proof.
  intros Hl Hs Hh Hn Hlt Hv%verify_spec. destruct (set_agreed_spec d h n Hl Hh Hn) as (E1 & E2 & E3 & E4 & E5).
  constructor; [done|done|by rewrite E1|done|right]. rewrite E4. split; [done|].
  exists cd. by rewrite E3, E4.
Qed.

Lemma reopened_dispute env s g d h n v cd :
  length d = GAME_DATA_SIZE → gd_state d ≠ STATE_SETTLED → length h = 32%nat → fits 64 n → gd_nonce d < n →
  length v = 8%nat → verify_state_signatures env s g n h d 100 cd = Some true →
  reopened env s g d (put 80 v (set_agreed (<[0%nat := z2b STATE_DISPUTED]> d) h n)).
Proof.
  intros Hl Hs Hh Hn Hlt Hv Hsig%verify_spec.
  destruct (insert_spec0 d (z2b STATE_DISPUTED) Hl) as (A1 & A2 & A3 & A4 & A5).
  destruct (set_agreed_spec _ h n A5 Hh Hn) as (E1 & E2 & E3 & E4 & E5).
  destruct (put80_spec _ v E5 Hv) as (F1 & F2 & F3 & F4 & F5).
  constructor; [done|done|by rewrite F1, E1, A1|by rewrite F2, E2|right].
  unfold agreed_signed. rewrite F4, E4, F3, E3. split; [done|]. by exists cd.
Qed.

Lemma reopened_count env s g d b :
  length d = GAME_DATA_SIZE → gd_state d = STATE_CREATED → reopened env s g d (<[39%nat := b]> d).
Proof.
  intros Hl Hs. destruct (insert_spec39 d b Hl) as (E1 & E2 & E3 & E4 & E5).
  constructor; [done|by rewrite Hs|by rewrite E1, Hs|done|by left].
Qed.

Lemma word64_fits cd n a : (a + 8 ≤ n)%nat → fits 64 (from_be (slice a (a + 8) (call_data_copy n 4 cd))).
Proof.
  intros Ha. pose proof (from_be_fits (slice a (a + 8) (call_data_copy n 4 cd))) as Hf.
  rewrite length_slice in Hf by (rewrite call_data_length; lia).
  replace (a + 8 - a)%nat with 8%nat in Hf by lia. exact Hf.
Qed.

Lemma create_effect env w cd w' r : handle_create_game env w cd = Return w' r → effect env w w'.
Proof.
  unfold handle_create_game. intros [_ [He [_ [= <- _]]%require_return]%require_return]%require_return.
  apply negb_true_iff, bool_decide_eq_false in He.
  destruct (new_game_spec (caller env) (from_be (slice 48 64 (call_data_copy 192 4 cd)))
    (call_data_copy 192 4 cd !!! 95%nat) (call_data_copy 192 4 cd !!! 127%nat)
    (from_be (slice 152 160 (call_data_copy 192 4 cd))) (length_caller env)) as [Hs Hl].
  destruct (player_record_spec (caller env) (deposit env) (slice 160 192 (call_data_copy 192 4 cd)))
    as (_ & Hd & Hp); [apply length_caller|by rewrite length_slice by (rewrite call_data_length; lia)|apply deposit_fits|].
  eapply (effect_create _ _ _ (slice 0 32 (call_data_copy 192 4 cd))); try done.
  - apply game_id_length; lia.
  - destruct (sget _ _ GAME_DATA_SIZE) eqn:E; [|done]. destruct He. eapply sget_present. by rewrite E.
Qed.

Lemma join_effect env w cd w' r : handle_join_game env w cd = Return w' r → effect env w w'.
Proof.
  unfold handle_join_game. intros [_ Hj]%require_return. cbv zeta in Hj.
  set (calldata := call_data_copy 96 4 cd) in *.
  assert (length calldata = 96%nat) as Lc by apply call_data_length.
  destruct (sget _ _ GAME_DATA_SIZE) as [d|] eqn:Hg; [|done].
  apply require_return in Hj as [Hst%Z.eqb_eq Hj]. apply require_return in Hj as [Hseat%Nat.ltb_lt Hj].
  apply require_return in Hj as [Hfree Hj]. apply negb_true_iff, bool_decide_eq_false in Hfree.
  apply require_return in Hj as [_ [= <- _]].
  pose proof (sget_length _ _ _ _ Hg) as Hl.
  destruct (player_record_spec (caller env) (deposit env) (slice 64 96 calldata))
    as (_ & Hd & Hp); [apply length_caller|by rewrite length_slice by lia|apply deposit_fits|].
  eapply (effect_join _ _ _ (slice 0 32 calldata) d _ (Z.to_nat (b2z (calldata !!! 63%nat)))); try done.
  - by rewrite length_slice by lia.
  - destruct (sget _ _ PLAYER_DATA_SIZE) eqn:E; [|done]. destruct Hfree. eapply sget_present. by rewrite E.
  - by apply reopened_count.
Qed.

Lemma start_effect env w cd w' r : handle_start_game env w cd = Return w' r → effect env w w'.
Proof.
  unfold handle_start_game. intros [_ Hj]%require_return. cbv zeta in Hj.
  destruct (sget _ _ GAME_DATA_SIZE) as [d|] eqn:Hg; [|done].
  apply require_return in Hj as [_ Hj]. apply require_return in Hj as [Hst%Z.eqb_eq Hj].
  apply require_return in Hj as [_ [= <- _]].
  pose proof (sget_length _ _ _ _ Hg) as Hl.
  eapply (effect_record _ _ _ (call_data_copy 32 4 cd) d); try done.
  - apply call_data_length.
  - by apply reopened_start.
Qed.

(** The record after a successful state update or dispute. *)
Lemma update_effect env w cd w' r : handle_update_state env w cd = Return w' r → effect env w w'.
Proof.
  unfold handle_update_state. intros [_ Hj]%require_return. cbv zeta in Hj.
  destruct (sget _ _ GAME_DATA_SIZE) as [d|] eqn:Hg; [|done].
  apply require_return in Hj as [Hst%Z.eqb_eq Hj]. apply require_return in Hj as [Hn%Z.ltb_lt Hj].
  destruct (verify_state_signatures _ _ _ _ _ _ _ _) as [[]|] eqn:Hv; try done. injection Hj as <- _.
  pose proof (sget_length _ _ _ _ Hg) as Hl.
  eapply (effect_record _ _ _ _ d); try done.
  - apply game_id_length; lia.
  - apply (reopened_agreed _ _ _ _ _ _ cd); [done|by rewrite Hst| |apply (word64_fits cd 96 56); lia|done|done].
    by rewrite length_slice by (rewrite call_data_length; lia).
Qed.

Lemma dispute_effect env w cd w' r : handle_dispute env w cd = Return w' r → effect env w w'.
Proof.
  unfold handle_dispute. intros [_ Hj]%require_return. cbv zeta in Hj.
  destruct (sget _ _ GAME_DATA_SIZE) as [d|] eqn:Hg; [|done].
  apply require_return in Hj as [Hst Hj]. apply require_return in Hj as [Hn%Z.ltb_lt Hj].
  destruct (verify_state_signatures _ _ _ _ _ _ _ _) as [[]|] eqn:Hv; try done. injection Hj as <- _.
  pose proof (sget_length _ _ _ _ Hg) as Hl.
  eapply (effect_record _ _ _ _ d); try done.
  - apply game_id_length; lia.
  - apply (reopened_dispute _ _ _ _ _ _ _ cd); [done| | |apply (word64_fits cd 96 56); lia|done|apply length_to_le|done].
    + intros E. rewrite E in Hst. discriminate.
    + by rewrite length_slice by (rewrite call_data_length; lia).
Qed.

(** * Settlement *)

(** The call data a settlement commits to: the length word and the payout words. *)
Definition payout_word (cd : bytes) (head : Z) (i : nat) : bytes :=
  call_data_copy 32 (wrap 32 (head + 32 + Z.of_nat i * 32)) cd.
Definition payouts_body (cd : bytes) (head : Z) (n : nat) : bytes :=
  call_data_copy 32 (wrap 32 head) cd ++ concat (map (payout_word cd head) (seq 0 n)).

(** [payouts_head] and the number of payouts of the call data. *)
Definition settle_head (cd : bytes) : Z := 4 + from_be (slice 60 64 (call_data_copy 96 4 cd)).
Definition settle_len (cd : bytes) : nat :=
  Z.to_nat (word_u32 (call_data_copy 32 (wrap 32 (settle_head cd)) cd)).
Definition settle_game (cd : bytes) : bytes := slice 0 32 (call_data_copy 96 4 cd).

(** The message that authorises the settlement of a record. *)
Definition settlement_hash (env : Env) (g d cd : bytes) : bytes :=
  settle_message_hash (deployment_domain env).1 (deployment_domain env).2 g (gd_nonce d) (gd_state_hash d)
    (keccak256 (payouts_body cd (settle_head cd) (settle_len cd))).

Lemma payouts_loop_spec (s : ST) g cd head idxs p p' :
  payouts_loop s g cd head idxs p = Ok p' →
  (zsum (map fst (py_list p)) = py_total p → zsum (map fst (py_list p')) = py_total p')
  ∧ py_preimage p' = py_preimage p ++ concat (map (payout_word cd head) idxs)
  ∧ ∀ x addr, (x, addr) ∈ py_list p' → (x, addr) ∈ py_list p ∨
      fits 128 x ∧ ∃ seat, seat ∈ idxs ∧ seat_holds s g addr seat = true.
Proof.
  revert p. induction idxs as [|i idxs IH]; intros p; cbn [payouts_loop].
  { intros [= ->]. split_and!; [done|by rewrite app_nil_r|auto]. }
  change (call_data_copy 32 (wrap 32 (head + 32 + Z.of_nat i * 32)) cd) with (payout_word cd head i).
  set (x := from_be (slice 16 32 (payout_word cd head i))). cbv zeta.
  assert (fits 128 x) as Hx.
  { pose proof (from_be_fits (slice 16 32 (payout_word cd head i))) as Hf.
    by rewrite length_slice in Hf by (unfold payout_word; rewrite call_data_length; lia). }
  destruct (Z.ltb_spec 0 x).
  - destruct (sget s (player_key g i) PLAYER_DATA_SIZE) as [pd|] eqn:Hp; [|done].
    destruct (2 ^ 128 <=? py_total p + x); [done|]. intros (I1 & I2 & I3)%IH. cbn in I1, I2, I3. split_and!.
    + intros Hs. apply I1. rewrite map_app, zsum_app, Hs. cbn. lia.
    + rewrite I2. cbn. by rewrite <-app_assoc.
    + intros y addr Hy. destruct (I3 y addr Hy) as [Hin|(Hf & seat & Hseat & ?)].
      * apply elem_of_app in Hin as [Hin|[= -> ->]%list_elem_of_singleton]; [by left|]. right.
        split; [done|]. exists i. split; [left|]. apply seat_holds_spec. by exists pd.
      * right. split; [done|]. exists seat. split; [by right|done].
  - destruct (2 ^ 128 <=? py_total p + x); [done|]. intros (I1 & I2 & I3)%IH. cbn in I1, I2, I3. split_and!.
    + intros Hs. apply I1. pose proof (proj1 Hx). lia.
    + rewrite I2. cbn. by rewrite <-app_assoc.
    + intros y addr Hy. destruct (I3 y addr Hy) as [?|(Hf & seat & Hseat & ?)]; [by left|].
      right. split; [done|]. exists seat. split; [by right|done].
Qed.

Lemma pay_all_spec env (w : World ST) i l w' :
  pay_all env w i l = Some w' →
  store w' = store w ∧ balance w' = balance w - zsum (map (fun p => transfer_amount p.1) l)
  ∧ sent w' = sent w ++ map (fun p => (p.2, transfer_amount p.1)) l.
Proof.
  revert w i. induction l as [|[x addr] l IH]; intros w i; cbn [pay_all].
  { intros [= ->]. cbn. split_and!; [done|lia|by rewrite app_nil_r]. }
  cbv zeta. fold (transfer_amount x). destruct (_ && _); [|done].
  intros (E1 & E2 & E3)%IH. rewrite E1, E2, E3. cbn. split_and!; [done|lia|by rewrite <-app_assoc].
Qed.

Lemma settle_inv env w cd w' r :
  handle_settle env w cd = Return w' r →
  ∃ d p w1, sget (store w) (game_key (settle_game cd)) GAME_DATA_SIZE = Some d
    ∧ caller_is_participant env (store w) (settle_game cd) d = true
    ∧ settle_phase env d = None
    ∧ (settle_len cd ≤ gd_max_players d)%nat ∧ (settle_len cd ≤ 10)%nat
    ∧ payouts_loop (store w) (settle_game cd) cd (settle_head cd) (seq 0 (settle_len cd))
        (mkPayouts (call_data_copy 32 (wrap 32 (settle_head cd)) cd) [] 0) = Ok p
    ∧ py_total p ≤ total_deposits (store w) (settle_game cd) d
    ∧ verify_all_players_signed (store w) (settle_game cd) d (settlement_hash env (settle_game cd) d cd)
        (4 + 64) cd = Some true
    ∧ pay_all env (sset w (game_key (settle_game cd)) (<[0%nat := z2b STATE_SETTLED]> d)) 0 (py_list p) = Some w1
    ∧ w' = emit_game_settled w1 (settle_game cd).
Proof.
  unfold handle_settle. intros [_ Hj]%require_return. cbv zeta in Hj.
  fold (settle_game cd) in Hj. fold (settle_head cd) in Hj. fold (settle_len cd) in Hj.
  destruct (sget _ _ GAME_DATA_SIZE) as [d|] eqn:Hg; [|done].
  apply require_return in Hj as [Hc Hj]. destruct (settle_phase env d) eqn:Hph; [done|].
  apply require_return in Hj as [[Hm%Nat.leb_le H10%Nat.leb_le]%andb_true_iff Hj].
  destruct (payouts_loop _ _ _ _ _ _) as [p|] eqn:Hp; [|done].
  apply require_return in Hj as [Ht%Z.leb_le Hj]. cbn [fst snd deployment_domain] in Hj.
  assert (py_preimage p = payouts_body cd (settle_head cd) (settle_len cd)) as Epre
    by apply (payouts_loop_spec _ _ _ _ _ _ _ Hp).
  rewrite Epre in Hj.
  destruct (verify_all_players_signed _ _ _ _ _ _) as [[]|] eqn:Hv; try done.
  destruct (pay_all _ _ _ _) as [w1|] eqn:Hpay; [|done]. injection Hj as <- _.
  exists d, p, w1. split_and!; done.
Qed.

Lemma settle_effect env w cd w' r : handle_settle env w cd = Return w' r → effect env w w'.
Proof.
  intros (d & p & w1 & Hg & _ & Hph & Hm & _ & Hp & Ht & Hv & Hpay & ->)%settle_inv.
  destruct (payouts_loop_spec _ _ _ _ _ _ _ Hp) as (I1 & _ & I3).
  apply pay_all_spec in Hpay as (E1 & E2 & E3).
  eapply (effect_settle _ _ _ (settle_game cd) d (py_list p) _ cd); try done.
  - apply game_id_length. lia.
  - constructor.
    + unfold settle_phase in Hph. destruct (Z.eqb_spec (gd_state d) STATE_DISPUTED); [by right|].
      destruct (Z.eqb_spec (gd_state d) STATE_ACTIVE); [by left|done].
    + intros x addr Hin. destruct (I3 x addr Hin) as [Hn|(Hf & seat & Hseat & ?)]; [set_solver|].
      split; [done|]. exists seat. apply elem_of_seq in Hseat. split; [lia|done].
    + rewrite I1 by done. done.
  - by apply verify_spec.
Qed.

Lemma call_effect env w cd w' r : call env w cd = Return w' r → effect env w w'.
Proof.
  unfold call. intros [_ Hj]%require_return. cbv zeta in Hj.
  destruct (bool_decide _); [by eapply create_effect|].
  destruct (bool_decide _); [by eapply join_effect|].
  destruct (bool_decide _); [by eapply start_effect|].
  destruct (bool_decide _); [by eapply update_effect|].
  destruct (bool_decide _); [by eapply dispute_effect|].
  destruct (bool_decide _); [by eapply settle_effect|].
  destruct (bool_decide _).
  { unfold handle_get_game in Hj. apply require_return in Hj as [_ Hj].
    destruct (sget _ _ _); [|done]. injection Hj as <- _. by apply effect_view. }
  destruct (bool_decide _); [|done].
  unfold handle_get_player in Hj. apply require_return in Hj as [_ Hj]. cbv zeta in Hj.
  destruct (sget _ _ _); [|done]. injection Hj as <- _. by apply effect_view.
Qed.

(** A transaction changes nothing, or has one of the effects once its value has
    arrived. *)
Lemma transact_effect w env cd :
  transact w (env, cd) = w ∨ effect env (w <| balance := balance w + e_value env |>) (transact w (env, cd)).
Proof.
  unfold transact. destruct (call _ _ _) as [w' r| |] eqn:E; [|by left|by left].
  right. by eapply call_effect.
Qed.
End effects.
