(* ===== verification/ReviveSafe.v ===== *)
(** What the channel contract guarantees whoever calls it, whatever they send:
    it can pay what it owes, a settlement pays out deposits and only with every
    player's signature, agreed states never go back, settled games stay settled;
    and two ways in which a table's deposits are locked for good. *)
From stdpp Require Import base list strings sets.
From Stdlib Require Import ZArith Lia Init.Byte.
From coqutil Require Import Byte Word.LittleEndianList.
From S2P Require Import Prelude Bytes RevHost Revive ReviveStep.

Local Open Scope Z_scope.

Section safety.
Context {ST : Type} `{Storage ST} `{Host}.

(** A sequence of transactions. *)
Definition run (w : World ST) (txs : list (Env * bytes)) : World ST := foldl transact w txs.

Definition game_of (w : World ST) (g : bytes) : option bytes := sget (store w) (game_key g) GAME_DATA_SIZE.
Definition player_of (w : World ST) (g : bytes) (seat : nat) : option bytes :=
  sget (store w) (player_key g seat) PLAYER_DATA_SIZE.

(** What one call makes of the record of a game. *)
Inductive game_change (env : Env) (s : ST) (g d d' : bytes) : Prop :=
| same_record : d' = d → game_change env s g d d'
| reopen_record : reopened env s g d d' → game_change env s g d d'
| settle_record msg cd : (gd_state d = STATE_ACTIVE ∨ gd_state d = STATE_DISPUTED) →
    all_signed s g d msg cd (4 + 64) → d' = <[0%nat := z2b STATE_SETTLED]> d → game_change env s g d d'.

Local Ltac other_key := rewrite !sget_set_ne by (done || (intros ?%game_key_inj; congruence)).

Lemma effect_game env w w' g d :
  effect env w w' → game_of w g = Some d →
  ∃ d', game_of w' g = Some d' ∧ game_change env (store w) g d d'.
Proof.
  unfold game_of. intros He Hg. pose proof (sget_length _ _ _ _ Hg) as Hl.
  destruct He as [Es _|g0 d0 pd Hlg Hnone Hld _ _ _ Es _|g0 d0 d' seat pd Hlg Hg0 _ _ _ Hr _ _ Es _
    |g0 d0 d' Hlg Hg0 Hr Es _|g0 d0 pays msg cd Hlg Hg0 Hc Hs Es _ _]; rewrite Es.
  - exists d. split; [done|by apply same_record].
  - destruct (decide (g = g0)) as [->|Hne]; [congruence|].
    exists d. split; [by other_key|by apply same_record].
  - destruct (decide (g = g0)) as [->|Hne].
    + rewrite Hg in Hg0. injection Hg0 as <-. exists d'. split; [|by apply reopen_record].
      apply sget_set_eq. by destruct Hr.
    + exists d. split; [by other_key|by apply same_record].
  - destruct (decide (g = g0)) as [->|Hne].
    + rewrite Hg in Hg0. injection Hg0 as <-. exists d'. split; [|by apply reopen_record].
      apply sget_set_eq. by destruct Hr.
    + exists d. split; [by other_key|by apply same_record].
  - destruct (decide (g = g0)) as [->|Hne].
    + rewrite Hg in Hg0. injection Hg0 as <-. exists (<[0%nat := z2b STATE_SETTLED]> d).
      split; [apply sget_set_eq; by rewrite length_insert|]. eapply settle_record; [by destruct Hc|done|done].
    + exists d. split; [by other_key|by apply same_record].
Qed.

(** Nobody leaves a seat, and nobody is put in its place. *)
Lemma effect_player env w w' g d seat pd :
  effect env w w' → length g = 32%nat → (seat < 256)%nat → game_of w g = Some d →
  player_of w g seat = Some pd → player_of w' g seat = Some pd.
Proof.
  unfold player_of, game_of. intros He Hlen Hseat Hg Hp.
  destruct He as [Es _|g0 d0 pd0 Hlg Hnone _ _ _ _ Es _|g0 d0 d' seat0 pd0 Hlg Hg0 _ Hs0 Hfree _ _ _ Es _
    |g0 d0 d' Hlg Hg0 Hr Es _|g0 d0 pays msg cd Hlg Hg0 Hc Hs Es _ _]; rewrite Es; [done| | |by rewrite sget_set_ne|by rewrite sget_set_ne].
  - rewrite sget_set_ne; [by rewrite sget_set_ne|].
    intros E. apply player_key_inj in E as [-> _]; [congruence|congruence|lia|lia].
  - rewrite sget_set_ne by done. rewrite sget_set_ne; [done|].
    pose proof (gd_max_players_range d0).
    intros E. apply player_key_inj in E as [-> ->]; [congruence|congruence|lia|lia].
Qed.

Lemma transact_game w tx g d :
  game_of w g = Some d → ∃ d', game_of (transact w tx) g = Some d' ∧ game_change tx.1 (store w) g d d'.
Proof.
  intros Hg. destruct tx as [env cd]. destruct (transact_effect w env cd) as [->|He].
  - exists d. split; [done|by apply same_record].
  - exact (effect_game _ _ _ _ _ He Hg).
Qed.

Lemma transact_player w tx g d seat pd :
  length g = 32%nat → (seat < 256)%nat → game_of w g = Some d → player_of w g seat = Some pd →
  player_of (transact w tx) g seat = Some pd.
Proof.
  intros. destruct tx as [env cd]. destruct (transact_effect w env cd) as [->|He]; [done|].
  by eapply effect_player.
Qed.

(** * Agreed states *)

(** The agreed state of a game only moves forward: over any transactions its
    nonce never decreases, and while the nonce stays the same so does the state
    hash, so an older signed state can never be put back. *)
Lemma agreed_state_moves_forward w txs g d :
  game_of w g = Some d →
  ∃ d', game_of (run w txs) g = Some d' ∧ gd_nonce d ≤ gd_nonce d'
    ∧ (gd_nonce d' = gd_nonce d → gd_state_hash d' = gd_state_hash d).
Proof.
  unfold run. revert w d. induction txs as [|tx txs IH]; intros w d Hg; cbn [foldl].
  { exists d. split_and!; [done|lia|done]. }
  pose proof (sget_length _ _ _ _ Hg) as Hl.
  destruct (transact_game w tx g d Hg) as (d1 & Hg1 & Hc).
  destruct (IH _ _ Hg1) as (d2 & Hg2 & Hn & Hh). exists d2. split; [done|].
  assert ((gd_nonce d1 = gd_nonce d ∧ gd_state_hash d1 = gd_state_hash d) ∨ gd_nonce d < gd_nonce d1) as Hd1.
  { destruct Hc as [->|[_ _ _ _ [?|[? _]]]|msg cd _ _ ->]; [by left|by left|by right|left].
    by destruct (insert_spec0 d (z2b STATE_SETTLED) Hl) as (_ & _ & -> & -> & _). }
  destruct Hd1 as [[E1 E2]|Hlt]; [|split; [lia|intros; lia]].
  split; [lia|]. intros E. rewrite <-E2. apply Hh. lia.
Qed.

(** No state is recorded that a player has not signed: when a transaction
    changes the agreed state of a game, every seated player's stored address has
    been recovered from a signature, in its call data, on the message that binds
    chain, contract, game, the new nonce and the new state hash. *)
Lemma new_state_signed w tx g d d' :
  game_of w g = Some d → game_of (transact w tx) g = Some d' →
  (gd_nonce d', gd_state_hash d') ≠ (gd_nonce d, gd_state_hash d) →
  gd_nonce d < gd_nonce d' ∧ agreed_signed tx.1 (store w) g d d'.
Proof.
  intros Hg Hg' Hne. pose proof (sget_length _ _ _ _ Hg) as Hl.
  destruct (transact_game w tx g d Hg) as (d1 & Hg1 & Hc). rewrite Hg' in Hg1. injection Hg1 as <-.
  destruct Hc as [->|[_ _ _ _ [[E1 E2]|?]]|msg cd _ _ ->]; [done|congruence|done|].
  destruct (insert_spec0 d (z2b STATE_SETTLED) Hl) as (_ & _ & E3 & E4 & _). by rewrite E3, E4 in Hne.
Qed.

(** A settled game stays as it is: no transaction changes its record, and no
    further settlement of it succeeds. *)
Lemma settled_is_final w txs g d :
  game_of w g = Some d → gd_state d = STATE_SETTLED →
  game_of (run w txs) g = Some d
  ∧ ∀ env cd w' r, settle_game cd = g → handle_settle env (run w txs) cd ≠ Return w' r.
Proof.
  intros Hg Hs.
  assert (game_of (run w txs) g = Some d) as Hrun.
  { unfold run. revert w Hg. induction txs as [|tx txs IH]; intros w Hg; [done|]. cbn [foldl]. apply IH.
    destruct (transact_game w tx g d Hg) as (d1 & Hg1 & Hc). rewrite Hg1. f_equal.
    destruct Hc as [->|[_ Ho _ _ _]|msg cd Ho _ _]; [done|done|]. rewrite Hs in Ho. by destruct Ho. }
  split; [done|]. intros env cd w' r <- (d1 & p & w1 & Hg1 & _ & Hph & _)%settle_inv.
  unfold game_of in Hrun. rewrite Hg1 in Hrun. injection Hrun as ->.
  unfold settle_phase in Hph. by rewrite Hs in Hph.
Qed.

(** * Locked tables *)

(** A table that can never be settled: an address sits twice, or someone sits
    past the tenth seat. *)
Definition unsettleable (w : World ST) (g d : bytes) : Prop :=
  (∃ a b pa pb, (a < b < gd_max_players d)%nat ∧ player_of w g a = Some pa ∧ player_of w g b = Some pb
     ∧ pd_address pa = pd_address pb)
  ∨ ∃ seat pd, (10 ≤ seat < gd_max_players d)%nat ∧ player_of w g seat = Some pd.

Lemma unsettleable_unsigned w g d msg cd off : unsettleable w g d → ¬ all_signed (store w) g d msg cd off.
Proof.
  intros [(a & b & pa & pb & Hab & Ha & Hb & E)|(seat & pd & [H10 Hm] & Hp)] Hs.
  - by eapply all_signed_distinct in E.
  - destruct (Hs seat Hm) as [? _]; [|lia]. apply bool_decide_eq_true.
    eapply (sget_present _ _ PLAYER_DATA_SIZE). unfold player_of in Hp. by rewrite Hp.
Qed.

Lemma game_change_seats env s g d d' :
  length d = GAME_DATA_SIZE → game_change env s g d d' → gd_max_players d' = gd_max_players d.
Proof.
  intros Hl [->|[_ _ _ ? _]|msg cd _ _ ->]; [done|done|]. by apply insert_spec0.
Qed.

(** Deposits can be locked for good.  Once one address sits at two seats of
    a table, or a seat past the tenth is taken, no sequence of transactions ever
    settles it, although joining checks neither. *)
Lemma unsettleable_is_locked w txs g d :
  length g = 32%nat → game_of w g = Some d → gd_state d ≠ STATE_SETTLED → unsettleable w g d →
  ∃ d', game_of (run w txs) g = Some d' ∧ gd_state d' ≠ STATE_SETTLED.
Proof.
  intros Hlen. unfold run. revert w d. induction txs as [|tx txs IH]; intros w d Hg Hs Hu; cbn [foldl].
  { by exists d. }
  pose proof (sget_length _ _ _ _ Hg) as Hl.
  destruct (transact_game w tx g d Hg) as (d1 & Hg1 & Hc). pose proof (gd_max_players_range d).
  apply (IH _ d1 Hg1).
  - destruct Hc as [->|[_ _ Hstill _ _]|msg cd _ Hsig ->]; [done|done|].
    by eapply unsettleable_unsigned in Hsig.
  - unfold unsettleable. rewrite (game_change_seats _ _ _ _ _ Hl Hc).
    destruct Hu as [(a & b & pa & pb & Hab & Ha & Hb & E)|(seat & pd & Hseat & Hp)]; [left|right].
    + exists a, b, pa, pb. split_and!; [lia|lia| | |done]; (eapply transact_player; [done|lia|done|done]).
    + exists seat, pd. split; [done|]. eapply transact_player; [done|lia|done|done].
Qed.

(** * Settlement *)

(** C4.  Settlement needs everybody.  When it succeeds the caller sits at the
    table, the game is active or its dispute period is over, and the stored
    address of every seated player has been recovered from a signature on the
    message that binds chain, contract, game, agreed nonce, agreed state and the
    exact list of payouts in the call data. *)
Theorem settlement_authorized env w cd w' r :
  handle_settle env w cd = Return w' r →
  ∃ d, game_of w (settle_game cd) = Some d
    ∧ (∃ seat, (seat < gd_max_players d)%nat ∧ seat_holds (store w) (settle_game cd) (caller env) seat = true)
    ∧ (gd_state d = STATE_ACTIVE
       ∨ gd_state d = STATE_DISPUTED
         ∧ wadd 64 (gd_dispute_block d) (gd_dispute_timeout d) ≤ block_number env)
    ∧ all_signed (store w) (settle_game cd) d (settlement_hash env (settle_game cd) d cd) cd (4 + 64).
Proof.
  intros (d & p & w1 & Hg & Hc & Hph & _ & _ & _ & _ & Hv & _)%settle_inv. exists d. split_and!; [done| | |].
  - unfold caller_is_participant in Hc. apply existsb_exists in Hc as (seat & Hin & Hs).
    apply in_seq in Hin. exists seat. split; [lia|done].
  - unfold settle_phase in Hph. destruct (Z.eqb_spec (gd_state d) STATE_DISPUTED).
    + right. split; [done|]. by destruct (Z.ltb_spec (block_number env) (wadd 64 (gd_dispute_block d) (gd_dispute_timeout d))).
    + destruct (Z.eqb_spec (gd_state d) STATE_ACTIVE); [by left|done].
  - by apply verify_spec.
Qed.

(** How the host passes 256-bit numbers.  The contract reads and writes them big-endian;
    the documented order of the host is little-endian. *)
Inductive byte_order := big_endian | little_endian.
Definition encode_word (o : byte_order) (x : Z) : bytes :=
  match o with big_endian => to_be 32 x | little_endian => to_le 32 x end.
Definition decode_word (o : byte_order) (l : bytes) : Z :=
  match o with big_endian => from_be l | little_endian => from_le l end.
Definition host_order (o : byte_order) : Prop :=
  (∀ x, host_word x = encode_word o x) ∧ ∀ l, length l = 32%nat → host_amount l = decode_word o l.

Lemma from_be_zeros n l : from_be (zeros n ++ l) = from_be l.
Proof.
  unfold from_be. rewrite rev_app_distr.
  assert (rev (zeros n) = List.repeat x00 n) as ->; [|apply le_combine_app_0].
  unfold zeros. induction n as [|n IH]; [done|]. cbn [replicate rev]. rewrite IH.
  symmetry. apply (repeat_cons n x00).
Qed.

Lemma transfer_amount_id x : host_order big_endian → fits 128 x → transfer_amount x = x.
Proof.
  intros [_ Ha] Hx. cbn in Ha. unfold transfer_amount, put.
  assert (drop (16 + length (to_be 16 x)) (zeros 32) = []) as -> by (rewrite length_to_be; reflexivity).
  rewrite app_nil_r. rewrite Ha by (rewrite length_app, length_take, length_zeros, length_to_be; lia).
  change (take 16 (zeros 32)) with (zeros 16). rewrite from_be_zeros, from_be_to_be. by apply wrap_small.
Qed.

Lemma deposit_le env : host_order big_endian → 0 ≤ e_value env → deposit env ≤ e_value env.
Proof.
  intros [Hw _] Hv. cbn in Hw. unfold deposit. rewrite Hw, fill_id by apply length_to_be.
  change 16%nat with (32 - 16)%nat at 1. rewrite from_be_low by lia. unfold wrap.
  apply Z.mod_le; [done|reflexivity].
Qed.

(** On a little-endian host the contract reads the upper half of the value, from its low
    byte on: nothing, for an amount below [2^128]. *)
Lemma deposit_unread env : host_order little_endian → fits 128 (e_value env) → deposit env = 0.
Proof.
  intros [Hw _] [Hv0 Hv]. cbn in Hw. unfold deposit. rewrite Hw, fill_id by apply length_to_le.
  unfold slice, to_le. rewrite skipn_le_split by lia.
  assert (Z.shiftr (e_value env) (8 * Z.of_nat 16) = 0) as ->.
  { change (8 * Z.of_nat 16) with 128. rewrite Z.shiftr_div_pow2 by lia. by apply Z.div_small. }
  vm_compute. reflexivity.
Qed.

Lemma transfer_amount_zero : host_order little_endian → transfer_amount 0 = 0.
Proof.
  intros [_ Ha]. cbn in Ha. unfold transfer_amount. rewrite Ha by (vm_compute; reflexivity).
  vm_compute. reflexivity.
Qed.

Lemma seat_deposit_nonneg (s : ST) g seat : 0 ≤ seat_deposit s g seat.
Proof. unfold seat_deposit. destruct (sget _ _ _); [|done]. apply from_le_nonneg. Qed.

(** The deposits of seats [0..n]. *)
Definition deposits (s : ST) (g : bytes) (n : nat) : Z := zsum (map (seat_deposit s g) (seq 0 n)).

Lemma deposits_mono (s : ST) g n m : (n ≤ m)%nat → deposits s g n ≤ deposits s g m.
Proof.
  intros Hn. unfold deposits. replace m with (n + (m - n))%nat by lia.
  rewrite seq_app, map_app, zsum_app.
  pose proof (zsum_nonneg (map (seat_deposit s g) (seq (0 + n) (m - n)))) as Hz.
  assert (0 ≤ zsum (map (seat_deposit s g) (seq (0 + n) (m - n)))); [|lia].
  apply Hz, Forall_forall. intros x (seat & <- & _)%list_elem_of_In%in_map_iff. apply seat_deposit_nonneg.
Qed.

Lemma total_deposits_le (s : ST) g d : total_deposits s g d ≤ deposits s g (gd_max_players d).
Proof.
  unfold total_deposits, deposits, seats_of. set (l := seq 0 (gd_max_players d)). clearbody l.
  assert (∀ acc, foldl (fun acc seat => sat_add 128 acc (seat_deposit s g seat)) acc l
            ≤ acc + zsum (map (seat_deposit s g) l)) as Hl.
  { induction l as [|x l IH]; intros acc; cbn [foldl map zsum]; [lia|].
    etrans; [apply IH|]. unfold sat_add. lia. }
  specialize (Hl 0). lia.
Qed.

(** A settlement moves exactly what it says, out of the table's own deposits:
    every transfer goes to an address seated at the table, together they are at
    most the deposits of its seats and exactly what the contract's balance loses,
    the game ends up settled and no other record changes. *)
Lemma settlement_pays_deposits env w cd w' r :
  host_order big_endian → handle_settle env w cd = Return w' r →
  ∃ d pays, game_of w (settle_game cd) = Some d
    ∧ sent w' = sent w ++ pays
    ∧ (∀ addr x, (addr, x) ∈ pays → ∃ seat, (seat < gd_max_players d)%nat ∧
          seat_holds (store w) (settle_game cd) addr seat = true)
    ∧ zsum (map snd pays) ≤ deposits (store w) (settle_game cd) (gd_max_players d)
    ∧ balance w' = balance w - zsum (map snd pays)
    ∧ (∃ d', game_of w' (settle_game cd) = Some d' ∧ gd_state d' = STATE_SETTLED)
    ∧ ∀ k n, k ≠ game_key (settle_game cd) → sget (store w') k n = sget (store w) k n.
Proof.
  intros Hbe (d & p & w1 & Hg & _ & _ & Hm & _ & Hp & Ht & _ & Hpay & ->)%settle_inv.
  destruct (payouts_loop_spec _ _ _ _ _ _ _ Hp) as (I1 & _ & I3).
  apply pay_all_spec in Hpay as (E1 & E2 & E3). pose proof (sget_length _ _ _ _ Hg) as Hl.
  assert (∀ q, q ∈ py_list p → fits 128 q.1 ∧ ∃ seat, (seat < settle_len cd)%nat ∧
            seat_holds (store w) (settle_game cd) q.2 seat = true) as Hq.
  { intros [x addr] Hin. destruct (I3 x addr Hin) as [Hn|(Hf & seat & Hseat & ?)]; [set_solver|].
    split; [done|]. exists seat. apply elem_of_seq in Hseat. split; [lia|done]. }
  assert (map (fun q => transfer_amount q.1) (py_list p) = map fst (py_list p)) as Hmap.
  { apply map_ext_in. intros q Hin%list_elem_of_In. apply transfer_amount_id; [done|by apply Hq]. }
  exists d, (map (fun q => (q.2, transfer_amount q.1)) (py_list p)). rewrite map_map. cbn [snd].
  rewrite Hmap, I1 by done. split_and!.
  - done.
  - cbn. by rewrite E3.
  - intros addr x ([y a] & [= <- <-] & Hin%list_elem_of_In)%list_elem_of_In%in_map_iff.
    destruct (Hq _ Hin) as (_ & seat & ? & ?). exists seat. split; [lia|done].
  - etrans; [exact Ht|]. apply total_deposits_le.
  - cbn. rewrite E2, Hmap, I1 by done. done.
  - exists (<[0%nat := z2b STATE_SETTLED]> d). split; [|by apply insert_spec0].
    unfold game_of. cbn. rewrite E1. apply sget_set_eq. by rewrite length_insert.
  - intros k n Hk. cbn. rewrite E1. cbn. by rewrite sget_set_ne.
Qed.

(** * Solvency *)

(** What the contract still owes to a game: its deposits, until it is settled. *)
Definition locked (s : ST) (g : bytes) : Z :=
  match sget s (game_key g) GAME_DATA_SIZE with
  | Some d => if gd_state d =? STATE_SETTLED then 0 else deposits s g 256
  | None => 0
  end.

Definition solvent (w : World ST) : Prop :=
  ∀ gs, NoDup gs → Forall (fun g => length g = 32%nat) gs → zsum (map (locked (store w)) gs) ≤ balance w.

(** Seats are only taken at games that exist. *)
Definition no_orphans (s : ST) : Prop :=
  ∀ g seat, length g = 32%nat → (seat < 256)%nat → sget s (game_key g) GAME_DATA_SIZE = None →
    sget s (player_key g seat) PLAYER_DATA_SIZE = None.

Lemma locked_other (s s' : ST) g :
  sget s' (game_key g) GAME_DATA_SIZE = sget s (game_key g) GAME_DATA_SIZE →
  (∀ seat, (seat < 256)%nat → sget s' (player_key g seat) PLAYER_DATA_SIZE = sget s (player_key g seat) PLAYER_DATA_SIZE) →
  locked s' g = locked s g.
Proof.
  intros Eg Ep. unfold locked, deposits. rewrite Eg. destruct (sget s _ _); [|done]. destruct (_ =? _); [done|].
  f_equal. apply map_ext_in. intros seat Hs%in_seq. unfold seat_deposit. rewrite Ep by lia. done.
Qed.

(** A game with one more occupied seat. *)
Lemma deposits_seat (s s' : ST) g seat dep :
  (seat < 256)%nat → seat_deposit s g seat = 0 → seat_deposit s' g seat = dep →
  (∀ x, (x < 256)%nat → x ≠ seat → seat_deposit s' g x = seat_deposit s g x) →
  deposits s' g 256 = deposits s g 256 + dep.
Proof.
  intros Hs E0 E1 Eo. unfold deposits.
  rewrite (zsum_update (seat_deposit s g) (seat_deposit s' g) seat).
  - rewrite decide_True by (apply elem_of_seq; lia). lia.
  - apply NoDup_seq.
  - intros y Hy%elem_of_seq Hne. apply Eo; [lia|done].
Qed.

(** One game changes by at most what the balance gains. *)
Lemma solvent_change (w w' : World ST) g :
  length g = 32%nat → solvent w →
  (∀ g', length g' = 32%nat → g' ≠ g → locked (store w') g' = locked (store w) g') →
  (locked (store w') g - locked (store w) g ≤ balance w' - balance w) →
  (balance w ≤ balance w' ∨ locked (store w') g = 0) → solvent w'.
Proof.
  intros Hlg Hs Ho Hd Hb gs Hnd Hlen.
  assert (zsum (map (locked (store w')) gs) = zsum (map (locked (store w)) gs)
    + (if decide (g ∈ gs) then locked (store w') g - locked (store w) g else 0)) as ->.
  { apply zsum_update; [done|]. intros y Hy Hne. apply Ho; [|done]. rewrite Forall_forall in Hlen. by apply Hlen. }
  destruct (decide (g ∈ gs)) as [Hin|Hout]; [specialize (Hs gs Hnd Hlen); lia|].
  destruct Hb as [Hb|Hz]; [specialize (Hs gs Hnd Hlen); lia|].
  pose proof (Hs (g :: gs)) as Hg. cbn [map zsum] in Hg.
  specialize (Hg ltac:(by constructor) ltac:(by constructor)). lia.
Qed.

Lemma solvent_more (w : World ST) x : 0 ≤ x → solvent w → solvent (w <| balance := balance w + x |>).
Proof. intros Hx Hs gs Hnd Hlen. specialize (Hs gs Hnd Hlen). cbn. lia. Qed.

Lemma game_key_ne g g' : g ≠ g' → game_key g ≠ game_key g'.
Proof. intros Hne E. by apply game_key_inj in E. Qed.

Lemma player_key_ne g g' a b :
  length g = length g' → (a < 256)%nat → (b < 256)%nat → (g ≠ g' ∨ a ≠ b) → player_key g a ≠ player_key g' b.
Proof. intros Hl Ha Hb Hne E. apply player_key_inj in E as [-> ->]; [by destruct Hne|done|done|done]. Qed.

(** Storing records of game [g] leaves every other game alone. *)
Lemma locked_set_game (s : ST) g g' d : g' ≠ g → locked (st_set s (game_key g) d) g' = locked s g'.
Proof.
  intros Hne. apply locked_other; [|intros seat _]; apply sget_set_ne; [|done]. intros E. by apply game_key_inj in E.
Qed.

Lemma locked_set_player (s : ST) g g' seat pd :
  length g = 32%nat → length g' = 32%nat → (seat < 256)%nat → g' ≠ g →
  locked (st_set s (player_key g seat) pd) g' = locked s g'.
Proof.
  intros Hl Hl' Hs Hne. apply locked_other; [by apply sget_set_ne|]. intros x Hx. apply sget_set_ne.
  apply player_key_ne; [congruence|done|done|left; congruence].
Qed.

(** A player record of a free seat adds its deposit. *)
Lemma deposits_join (s : ST) g seat pd :
  length g = 32%nat → (seat < 256)%nat → sget s (player_key g seat) PLAYER_DATA_SIZE = None →
  length pd = PLAYER_DATA_SIZE →
  deposits (st_set s (player_key g seat) pd) g 256 = deposits s g 256 + pd_deposit pd.
Proof.
  intros Hl Hs Hfree Hpd. apply (deposits_seat _ _ _ seat); [done| | |].
  - unfold seat_deposit. by rewrite Hfree.
  - unfold seat_deposit. by rewrite sget_set_eq.
  - intros x Hx Hne. unfold seat_deposit. rewrite sget_set_ne; [done|].
    apply player_key_ne; [done|done|done|by right].
Qed.

(** Game records do not count as seats. *)
Lemma deposits_set_game (s : ST) g g' d n : deposits (st_set s (game_key g) d) g' n = deposits s g' n.
Proof.
  unfold deposits. f_equal. apply map_ext. intros seat. unfold seat_deposit. by rewrite sget_set_ne.
Qed.

Lemma locked_open (s : ST) g d :
  sget s (game_key g) GAME_DATA_SIZE = Some d → gd_state d ≠ STATE_SETTLED → locked s g = deposits s g 256.
Proof. intros Hg Hs. unfold locked. rewrite Hg. by destruct (Z.eqb_spec (gd_state d) STATE_SETTLED). Qed.

Lemma effect_no_orphans env w w' : effect env w w' → no_orphans (store w) → no_orphans (store w').
Proof.
  intros He Ho g seat Hl Hs.
  destruct He as [Es _|g0 d0 pd Hlg Hnone Hld _ _ _ Es _|g0 d0 d' seat0 pd Hlg Hg0 _ Hs0 _ Hr _ _ Es _
    |g0 d0 d' Hlg Hg0 Hr Es _|g0 d0 pays msg cd Hlg Hg0 Hc Hsig Es _ _]; rewrite Es.
  - by apply Ho.
  - destruct (decide (g = g0)) as [->|Hne].
    + rewrite sget_set_ne by done. by rewrite sget_set_eq.
    + rewrite !sget_set_ne by (done || (apply player_key_ne; [congruence|lia|lia|left; congruence])
                               || (apply game_key_ne; congruence)). by apply Ho.
  - destruct (decide (g = g0)) as [->|Hne].
    + rewrite sget_set_eq by (by destruct Hr). done.
    + pose proof (gd_max_players_range d0).
      rewrite !sget_set_ne by (done || (apply player_key_ne; [congruence|lia|lia|left; congruence])
                               || (apply game_key_ne; congruence)). by apply Ho.
  - destruct (decide (g = g0)) as [->|Hne]; [rewrite sget_set_eq by (by destruct Hr); done|].
    other_key. by apply Ho.
  - destruct (decide (g = g0)) as [->|Hne].
    + rewrite sget_set_eq by (rewrite length_insert; by apply sget_length in Hg0). done.
    + other_key. by apply Ho.
Qed.

Lemma created_deposits (s : ST) g d pd dep :
  length g = 32%nat → length d = GAME_DATA_SIZE → gd_state d = STATE_CREATED →
  sget s (game_key g) GAME_DATA_SIZE = None → no_orphans s →
  length pd = PLAYER_DATA_SIZE → pd_deposit pd = dep →
  locked (st_set (st_set s (game_key g) d) (player_key g 0) pd) g ≤ dep.
Proof.
  intros Hlg Hld Hst Hnone Ho Hlp Hpd.
  rewrite (locked_open _ _ d); [|rewrite sget_set_ne by done; by apply sget_set_eq|by rewrite Hst].
  rewrite deposits_join; [|done|lia| |done].
  - rewrite deposits_set_game. unfold deposits.
    assert (zsum (map (seat_deposit s g) (seq 0 256)) ≤ zsum (map (fun _ => 0) (seq 0 256))) as Hz.
    { apply zsum_map_le. intros x Hx%elem_of_seq. unfold seat_deposit. rewrite Ho by (done || lia). done. }
    rewrite Hpd. change (zsum (map (fun _ => 0) (seq 0 256))) with 0 in Hz. lia.
  - rewrite sget_set_ne by done. apply Ho; [done|lia|done].
Qed.

(** What a settlement moves is covered by what the table had locked. *)
Definition settles_within (s : ST) : Prop :=
  ∀ g d pays, length g = 32%nat → sget s (game_key g) GAME_DATA_SIZE = Some d → covered s g d pays →
    zsum (map (fun q => transfer_amount q.1) pays) ≤ locked s g.

Lemma settlement_covered (s : ST) : host_order big_endian → settles_within s.
Proof.
  intros Hbe g d pays _ Hg [Hopen Hseats Htot].
  assert (map (fun q => transfer_amount q.1) pays = map fst pays) as ->.
  { apply map_ext_in. intros [x addr] Hin%list_elem_of_In. apply transfer_amount_id; [done|].
    by apply (Hseats x addr). }
  pose proof (total_deposits_le s g d). pose proof (gd_max_players_range d).
  pose proof (deposits_mono s g (gd_max_players d) 256 ltac:(lia)).
  rewrite (locked_open s g d); [lia|done|]. intros E. rewrite E in Hopen. by destruct Hopen.
Qed.

(** No seat has a deposit on record. *)
Definition unrecorded (s : ST) : Prop :=
  ∀ g seat, length g = 32%nat → (seat < 256)%nat → seat_deposit s g seat = 0.

Lemma unrecorded_set_player (s : ST) g seat pd :
  length g = 32%nat → (seat < 256)%nat → length pd = PLAYER_DATA_SIZE → pd_deposit pd = 0 →
  unrecorded s → unrecorded (st_set s (player_key g seat) pd).
Proof.
  intros Hlg Hs Hlp Hpd Hu g' seat' Hlg' Hs'. unfold seat_deposit.
  destruct (decide (player_key g seat = player_key g' seat')) as [<-|Hne].
  - by rewrite sget_set_eq.
  - rewrite sget_set_ne by done. by apply Hu.
Qed.

Lemma unrecorded_set_game (s : ST) g d : unrecorded s → unrecorded (st_set s (game_key g) d).
Proof. intros Hu g' seat' Hl Hs. unfold seat_deposit. rewrite sget_set_ne by done. by apply Hu. Qed.

Lemma effect_unrecorded env w w' :
  deposit env = 0 → effect env w w' → unrecorded (store w) → unrecorded (store w').
Proof.
  intros Hd He Hu.
  destruct He as [Es _|g d pd Hlg _ _ _ Hlp Hpd Es _|g d d' seat pd Hlg _ _ Hs _ _ Hlp Hpd Es _
    |g d d' _ _ _ Es _|g d pays msg cd _ _ _ _ Es _ _]; rewrite Es.
  - done.
  - apply unrecorded_set_player; [done|lia|done|congruence|]. by apply unrecorded_set_game.
  - pose proof (gd_max_players_range d). apply unrecorded_set_game, unrecorded_set_player; [done|lia|done|congruence|done].
  - by apply unrecorded_set_game.
  - by apply unrecorded_set_game.
Qed.

(** Without deposits on record nothing can be paid out. *)
Lemma unrecorded_pays_nothing (s : ST) g d pays :
  length g = 32%nat → unrecorded s → covered s g d pays → Forall (fun p => p.1 = 0) pays.
Proof.
  intros Hlg Hu [_ Hseats Htot]. pose proof (total_deposits_le s g d) as Ht. pose proof (gd_max_players_range d).
  assert (deposits s g (gd_max_players d) ≤ zsum (map (fun _ => 0) (seq 0 (gd_max_players d)))) as Hz.
  { apply zsum_map_le. intros x Hx%elem_of_seq. rewrite Hu by (done || lia). done. }
  rewrite zsum_map_zero in Hz by done.
  assert (zsum (map fst pays) ≤ 0) as Hle by lia. clear - Hle Hseats.
  assert (Forall (fun p => 0 ≤ p.1) pays) as Hpos.
  { apply Forall_forall. intros [x a] Hin. by destruct (Hseats x a Hin) as [[? _] _]. }
  clear Hseats. induction Hpos as [|[x a] l Hx Hl IH]; [done|]. cbn in *.
  assert (0 ≤ zsum (map fst l)) by (apply zsum_nonneg, Forall_map; done).
  constructor; [cbn; lia|]. apply IH. lia.
Qed.

Lemma unrecorded_transfers (s : ST) g d pays :
  host_order little_endian → length g = 32%nat → unrecorded s → covered s g d pays →
  Forall (fun p => transfer_amount p.1 = 0) pays.
Proof.
  intros Hle Hlg Hu Hc. eapply Forall_impl; [by eapply unrecorded_pays_nothing|].
  cbn. intros p ->. by apply transfer_amount_zero.
Qed.

Lemma unrecorded_within (s : ST) : host_order little_endian → unrecorded s → settles_within s.
Proof.
  intros Hle Hu g d pays Hlg _ Hc.
  rewrite (zsum_map_zero (fun p => transfer_amount p.1)) by (apply Forall_forall; by eapply unrecorded_transfers).
  unfold locked. destruct (sget _ _ _); [|done]. destruct (_ =? _); [done|].
  apply zsum_nonneg, Forall_forall. intros x (seat & <- & _)%list_elem_of_In%in_map_iff. apply seat_deposit_nonneg.
Qed.

(** The transfers one transaction adds are all of nothing. *)
Lemma effect_pays_nothing env w w' :
  host_order little_endian → unrecorded (store w) → effect env w w' →
  ∃ pays, sent w' = sent w ++ pays ∧ Forall (fun p => p.2 = 0) pays.
Proof.
  intros Hle Hu He.
  destruct He as [_ [_ E]|? ? ? _ _ _ _ _ _ _ [_ E]|? ? ? ? ? _ _ _ _ _ _ _ _ _ [_ E]
    |? ? ? _ _ _ _ [_ E]|g d pays msg cd Hlg _ Hc _ _ _ E]; rewrite E.
  1-4: exists []; by rewrite app_nil_r.
  eexists. split; [done|]. apply Forall_map. by eapply unrecorded_transfers.
Qed.

(** The balance before the call includes the value of the call. *)
Lemma effect_solvent env (w w' : World ST) v :
  settles_within (store w) → deposit env ≤ v → 0 ≤ v → no_orphans (store w) → solvent w →
  effect env (w <| balance := balance w + v |>) w' → solvent w'.
Proof.
  intros Hbe Hd Hv Ho Hs He.
  destruct He as [Es [Eb _]|g d pd Hlg Hnone Hld Hst Hlp Hpd Es [Eb _]
    |g d d' seat pd Hlg Hg Hst Hseat Hfree Hr Hlp Hpd Es [Eb _]
    |g d d' Hlg Hg Hr Es [Eb _]|g d pays msg cd Hlg Hg Hc Hsig Es Eb _]; cbn in *.
  - intros gs Hnd Hlen. specialize (Hs gs Hnd Hlen). rewrite Es, Eb. lia.
  - apply (solvent_change w w' g Hlg Hs).
    + intros g' Hl' Hne. rewrite Es, locked_set_player by (done || lia). by apply locked_set_game.
    + rewrite Eb, Es. unfold locked at 2. rewrite Hnone.
      pose proof (created_deposits (store w) g d pd _ Hlg Hld Hst Hnone Ho Hlp Hpd). lia.
    + left. lia.
  - pose proof (gd_max_players_range d). destruct Hr as [Hl' Hopen Hstill _ _].
    apply (solvent_change w w' g Hlg Hs).
    + intros g' Hlg' Hne. rewrite Es, locked_set_game by done. apply locked_set_player; (done || lia).
    + rewrite Eb, Es, (locked_open (store w) g d) by done.
      rewrite (locked_open _ _ d'); [|by apply sget_set_eq|done].
      rewrite deposits_set_game, deposits_join by (done || lia). lia.
    + left. lia.
  - destruct Hr as [Hl' Hopen Hstill _ _]. apply (solvent_change w w' g Hlg Hs).
    + intros g' Hlg' Hne. rewrite Es. by apply locked_set_game.
    + rewrite Eb, Es, (locked_open (store w) g d) by done.
      rewrite (locked_open _ _ d'); [|by apply sget_set_eq|done]. rewrite deposits_set_game. lia.
    + left. lia.
  - pose proof (Hbe g d pays Hlg Hg Hc).
    destruct (insert_spec0 d (z2b STATE_SETTLED) (sget_length _ _ _ _ Hg)) as (E1 & _ & _ & _ & E5).
    assert (locked (store w') g = 0) as Hz.
    { rewrite Es. unfold locked. by rewrite sget_set_eq, E1 by done. }
    apply (solvent_change w w' g Hlg Hs).
    + intros g' Hlg' Hne. rewrite Es. by apply locked_set_game.
    + lia.
    + by right.
Qed.

Lemma empty_solvent (w : World ST) :
  (∀ k, st_get (store w) k = None) → 0 ≤ balance w →
  solvent w ∧ no_orphans (store w) ∧ unrecorded (store w).
Proof.
  intros Hempty Hb. split_and!.
  - intros gs _ _. rewrite (zsum_map_zero (locked (store w))); [done|].
    intros g _. unfold locked, sget. by rewrite Hempty.
  - intros g seat _ _ _. unfold sget. by rewrite Hempty.
  - intros g seat _ _. unfold seat_deposit, sget. by rewrite Hempty.
Qed.

(** On a little-endian host every deposit is recorded as nothing, nothing is ever
    paid out, and what was sent to the contract stays there. *)
Lemma little_endian_loses_deposits w txs :
  host_order little_endian → Forall (fun tx => fits 128 (e_value tx.1)) txs → unrecorded (store w) →
  unrecorded (store (run w txs)) ∧ ∃ pays, sent (run w txs) = sent w ++ pays ∧ Forall (fun p => p.2 = 0) pays.
Proof.
  intros Hle Htx. unfold run. revert w. induction Htx as [|[env cd] txs Hv _ IH]; intros w Hu; cbn [foldl].
  { split; [done|]. exists []. by rewrite app_nil_r. }
  destruct (transact_effect w env cd) as [->|He]; [by apply IH|].
  pose proof (effect_unrecorded _ _ _ (deposit_unread _ Hle Hv) He) as Hu1. cbn [store] in Hu1.
  destruct (IH _ (Hu1 Hu)) as (Hu' & pays & E & Hp).
  assert (∃ first, sent (transact w (env, cd)) = sent w ++ first ∧ Forall (fun p => p.2 = 0) first) as (first & E1 & Hp1).
  { eapply effect_pays_nothing in He; [exact He|done|exact Hu]. }
  split; [done|].
  exists (first ++ pays). rewrite E, E1. cbn [sent]. split; [by rewrite <-app_assoc|]. by apply Forall_app.
Qed.

Lemma run_solvent w txs (ok : ST → Prop) :
  (∀ s, ok s → settles_within s) →
  (∀ env w w', fits 128 (e_value env) → effect env w w' → ok (store w) → ok (store w')) →
  (∀ env, fits 128 (e_value env) → deposit env ≤ e_value env) →
  Forall (fun tx => fits 128 (e_value tx.1)) txs →
  ok (store w) → no_orphans (store w) → solvent w → solvent (run w txs).
Proof.
  intros Hwithin Hok Hdep Htx. unfold run. revert w.
  induction Htx as [|[env cd] txs Hv _ IH]; intros w Hw Ho Hs; [done|]. cbn [foldl].
  destruct (transact_effect w env cd) as [->|He]; [by apply IH|]. apply IH.
  - by eapply Hok.
  - eapply effect_no_orphans; [exact He|]. exact Ho.
  - eapply effect_solvent; [by apply Hwithin|by apply Hdep|by destruct Hv|done|done|exact He].
Qed.

(** C3.  The contract can always pay what its records say it owes: from an empty contract,
    after any transactions by anyone with values below [2^128], its balance covers the
    recorded deposits of all games that are not settled, whichever way round the host passes
    256-bit numbers.  But the records hold the deposits only on a big-endian host, the one the
    contract is written for: on a little-endian one, as the host documents, every deposit is
    recorded as nothing and no transfer ever moves anything. *)
Theorem contract_solvent w txs o :
  host_order o → (∀ k, st_get (store w) k = None) → 0 ≤ balance w →
  Forall (fun tx => fits 128 (e_value tx.1)) txs →
  solvent (run w txs)
  ∧ (o = little_endian → unrecorded (store (run w txs))
      ∧ ∃ pays, sent (run w txs) = sent w ++ pays ∧ Forall (fun p => p.2 = 0) pays).
Proof.
  intros Ho Hempty Hb Htx. destruct (empty_solvent w Hempty Hb) as (Hs & Hno & Hu).
  split; [|intros ->; by apply little_endian_loses_deposits]. destruct o.
  - apply (run_solvent w txs (fun _ => True)); try done.
    + intros s _. by apply settlement_covered.
    + intros env [? _]. by apply deposit_le.
  - apply (run_solvent w txs unrecorded); try done.
    + intros s. by apply unrecorded_within.
    + intros env w1 w2 Hv. apply effect_unrecorded. by apply deposit_unread.
    + intros env Hv. rewrite deposit_unread by done. by destruct Hv.
Qed.
End safety.

(** * A table of two

    A host that reads zeros past the end of the call data, whose hash is the
    identity and whose precompile returns the address written in the signature:
    enough to run the contract. *)

#[local] Instance demo_host : Host := {|
  call_data_copy n off cd := fill n (drop (Z.to_nat off) cd);
  call_data_length n off cd := length_fill n _;
  keccak256 l := l;
  precompile1 input := Some (slice 64 96 input);
  host_word := to_be 32;
  host_amount := from_be;
|}.

Lemma demo_big_endian : host_order big_endian.
Proof. split; reflexivity. Defined.

Definition wd (x : Z) : bytes := to_be 32 x.
Definition alice : bytes := to_be 20 0xA11CE.
Definition bob : bytes := to_be 20 0xB0B.
Definition table_id : bytes := wd 7.

(** ABI encoding of an array of signatures. *)
Definition signatures_abi (signers : list bytes) : bytes :=
  let n := length signers in
  wd (Z.of_nat n) ++ concat (map (fun i => wd (Z.of_nat (n * 32 + i * 128)%nat)) (seq 0 n))
  ++ concat (map (fun a => wd 65 ++ (zeros 12 ++ a) ++ zeros 32 ++ [z2b 27] ++ zeros 31) signers).

Definition sent_by (who : bytes) (value block : Z) (cd : bytes) : Env * bytes :=
  (mkEnv (wd 1) (to_be 20 99) who value block (fun _ _ _ => true), cd).

Definition create_tx (who : bytes) (value maxp : Z) : Env * bytes :=
  sent_by who value 1 (sel "createGame(bytes32,uint128,uint8,uint8,uint64,bytes32)"
    ++ table_id ++ wd 10 ++ wd 2 ++ wd maxp ++ wd 50 ++ wd 0).
Definition join_tx (who : bytes) (value seat : Z) : Env * bytes :=
  sent_by who value 2 (sel "joinGame(bytes32,uint8,bytes32)" ++ table_id ++ wd seat ++ wd 0).
Definition start_tx (who : bytes) : Env * bytes := sent_by who 0 3 (sel "startGame(bytes32)" ++ table_id).
Definition update_tx (who : bytes) (nonce hash : Z) (signers : list bytes) : Env * bytes :=
  sent_by who 0 4 (sel "updateState(bytes32,uint64,bytes32,bytes[])"
    ++ table_id ++ wd nonce ++ wd hash ++ wd 128 ++ signatures_abi signers).
Definition settle_tx (who : bytes) (pays : list Z) (signers : list bytes) : Env * bytes :=
  sent_by who 0 5 (sel "settle(bytes32,uint128[],bytes[])"
    ++ table_id ++ wd 96 ++ wd (Z.of_nat (128 + 32 * length pays)%nat)
    ++ (wd (Z.of_nat (length pays)) ++ concat (map wd pays)) ++ signatures_abi signers).

Definition empty_world : World (list (bytes * bytes)) := mkWorld [] 0 [] [].
Definition opening : list (Env * bytes) := [create_tx alice 150 6; join_tx bob 100 1; start_tx alice].
Definition playing : World (list (bytes * bytes)) :=
  run empty_world (opening ++ [update_tx bob 5 1234 [bob; alice]]).
Definition playing_record : bytes := default [] (game_of playing table_id).
Definition final_settle : Env * bytes := settle_tx alice [200; 50] [alice; bob].
Definition settled : World (list (bytes * bytes)) := transact playing final_settle.
Definition settled_record : bytes := default [] (game_of settled table_id).

Example settled_pays : sent settled = [(alice, 200); (bob, 50)] ∧ balance settled = 0.
Proof. split; vm_compute; reflexivity. Qed.

(** An old state is refused, a newer one accepted. *)
Lemma agreed_state_moves_forward_witness :
  gd_nonce playing_record = 5 ∧
  ∃ d', game_of (run playing [update_tx alice 4 1 [alice; bob]; update_tx alice 8 2 [alice; bob]]) table_id = Some d'
    ∧ gd_nonce playing_record ≤ gd_nonce d'
    ∧ (gd_nonce d' = gd_nonce playing_record → gd_state_hash d' = gd_state_hash playing_record).
Proof.
  split; [vm_compute; reflexivity|]. apply agreed_state_moves_forward. vm_compute. reflexivity.
Defined.

Definition newer_tx : Env * bytes := update_tx alice 8 2 [alice; bob].
Definition newer_record : bytes := default [] (game_of (transact playing newer_tx) table_id).

Lemma new_state_signed_witness : agreed_signed newer_tx.1 (store playing) table_id playing_record newer_record.
Proof.
  assert (game_of playing table_id = Some playing_record) as H1 by (vm_compute; reflexivity).
  assert (game_of (transact playing newer_tx) table_id = Some newer_record) as H2 by (vm_compute; reflexivity).
  assert ((gd_nonce newer_record, gd_state_hash newer_record) ≠ (gd_nonce playing_record, gd_state_hash playing_record)) as H3.
  { intros E. apply (f_equal fst) in E. vm_compute in E. discriminate E. }
  exact (proj2 (new_state_signed playing newer_tx table_id playing_record newer_record H1 H2 H3)).
Defined.

Lemma settled_is_final_witness :
  game_of (run settled [newer_tx; final_settle]) table_id = Some settled_record.
Proof.
  assert (game_of settled table_id = Some settled_record) as H1 by (vm_compute; reflexivity).
  assert (gd_state settled_record = STATE_SETTLED) as H2 by (vm_compute; reflexivity).
  exact (proj1 (settled_is_final settled [newer_tx; final_settle] table_id settled_record H1 H2)).
Defined.

(** Bob sits down twice. *)
Definition doubled : World (list (bytes * bytes)) :=
  run empty_world [create_tx alice 150 6; join_tx bob 100 1; join_tx bob 100 2; start_tx alice].
Definition doubled_record : bytes := default [] (game_of doubled table_id).

Lemma unsettleable_is_locked_witness :
  balance doubled = 350 ∧
  ∃ d', game_of (run doubled [settle_tx alice [350; 0; 0] [alice; bob; bob]]) table_id = Some d'
    ∧ gd_state d' ≠ STATE_SETTLED.
Proof.
  split; [vm_compute; reflexivity|].
  apply (unsettleable_is_locked doubled _ table_id doubled_record).
  - reflexivity.
  - vm_compute. reflexivity.
  - vm_compute. discriminate.
  - left. exists 1%nat, 2%nat, (default [] (player_of doubled table_id 1)), (default [] (player_of doubled table_id 2)).
    split; [|split; [|split]]; [vm_compute; lia|vm_compute; reflexivity|vm_compute; reflexivity|vm_compute; reflexivity].
Defined.

Lemma settlement_authorized_witness :
  ∃ d, game_of playing table_id = Some d
    ∧ all_signed (store playing) table_id d (settlement_hash final_settle.1 table_id d final_settle.2) final_settle.2 (4 + 64).
Proof.
  assert (handle_settle final_settle.1 playing final_settle.2 = Return settled [z2b 1]) as E by (vm_compute; reflexivity).
  destruct (settlement_authorized final_settle.1 playing final_settle.2 settled [z2b 1] E) as (d & Hg & _ & _ & Hs).
  assert (settle_game final_settle.2 = table_id) as Eg by (vm_compute; reflexivity). rewrite Eg in Hg, Hs.
  exists d. split; [exact Hg|exact Hs].
Defined.

Lemma settlement_pays_deposits_witness :
  ∃ pays, sent settled = sent playing ++ pays ∧ balance settled = balance playing - zsum (map snd pays).
Proof.
  assert (handle_settle final_settle.1 playing final_settle.2 = Return settled [z2b 1]) as E by (vm_compute; reflexivity).
  destruct (settlement_pays_deposits final_settle.1 playing final_settle.2 settled [z2b 1] demo_big_endian E)
    as (d & pays & _ & Hs & _ & _ & Hb & _).
  exists pays. split; [exact Hs|exact Hb].
Defined.

(** The same host with its numbers the other way round. *)
Definition turned_host : Host := {|
  call_data_copy n off cd := fill n (drop (Z.to_nat off) cd);
  call_data_length n off cd := length_fill n _;
  keccak256 l := l;
  precompile1 input := Some (slice 64 96 input);
  host_word := to_le 32;
  host_amount := from_le;
|}.

Definition free_table_tx : Env * bytes :=
  sent_by alice 150 1 (sel "createGame(bytes32,uint128,uint8,uint8,uint64,bytes32)"
    ++ table_id ++ wd 0 ++ wd 2 ++ wd 6 ++ wd 50 ++ wd 0).

(** The contract on a host of either byte order. *)
Lemma contract_solvent_witness :
  @solvent _ _ (run empty_world (opening ++ [newer_tx; final_settle])) ∧
  (@solvent _ _ (@run _ _ turned_host empty_world [free_table_tx; join_tx bob 100 1; start_tx alice])
   ∧ unrecorded (store (@run _ _ turned_host empty_world [free_table_tx; join_tx bob 100 1; start_tx alice]))).
Proof.
  split.
  - apply (contract_solvent empty_world (opening ++ [newer_tx; final_settle]) big_endian demo_big_endian).
    + reflexivity.
    + vm_compute. discriminate.
    + repeat constructor; vm_compute; (discriminate || reflexivity).
  - destruct (@contract_solvent _ _ turned_host empty_world [free_table_tx; join_tx bob 100 1; start_tx alice]
      little_endian (conj (fun _ => eq_refl) (fun _ _ => eq_refl))) as [Hs Hl].
    + reflexivity.
    + vm_compute. discriminate.
    + repeat constructor; vm_compute; (discriminate || reflexivity).
    + exact (conj Hs (proj1 (Hl eq_refl))).
Defined.

(** There a table with a big blind is refused, and the deposits of one without are lost:
    what the players settle on is refused, and they get out nothing. *)
Example deposits_lost :
  let play := @run _ _ turned_host empty_world in
  balance (play [create_tx alice 150 6]) = 0
  ∧ balance (play [free_table_tx; join_tx bob 100 1; start_tx alice; settle_tx alice [200; 50] [alice; bob]]) = 250
  ∧ sent (play [free_table_tx; join_tx bob 100 1; start_tx alice; settle_tx alice [0; 0] [alice; bob]]) = []
  ∧ balance (play [free_table_tx; join_tx bob 100 1; start_tx alice; settle_tx alice [0; 0] [alice; bob]]) = 250.
Proof. split_and!; vm_compute; reflexivity. Qed.
