(* ===== verification/Escrow.v ===== *)
(** The escrow contract, [crates/escrow-revive/src/main.rs]: a seller commits to the
    shares of a key, a buyer joins, pays and is paid, or a dispute reveals the third
    share.

    The model has the form of [Revive]: call data, records and events are the bytes
    the contract reads and writes, a handler returns what the call leaves behind or
    reverts. *)
From stdpp Require Import base list strings sets.
From Stdlib Require Import ZArith Lia Init.Byte.
From coqutil Require Import Byte.
From S2P Require Import Prelude Bytes RevHost.

Local Open Scope Z_scope.

(** * Arithmetic in GF(2^32) *)

(** A [BF32] is a [u32]. *)
Definition BF32_ZERO : Z := 0.
Definition BF32_ONE : Z := 1.
Definition IRREDUCIBLE : Z := 0x8D.

Definition BF32_add (a b : Z) : Z := Z.lxor a b.

(** One turn of the loop of [mul], on [a], [b] and [result] as [u64]s. *)
Definition mul_step (a b res : Z) : Z * Z * Z :=
  let res := if negb (Z.land b 1 =? 0) then Z.lxor res a else res in
  let a := wrap 64 (Z.shiftl a 1) in
  let a := if negb (Z.land a (Z.shiftl 1 32) =? 0)
           then Z.lxor a (Z.lor (Z.shiftl 1 32) IRREDUCIBLE) else a in
  (a, Z.shiftr b 1, res).

(** [while b != 0], with fuel for the bits of [b]. *)
Fixpoint mul_loop (fuel : nat) (a b res : Z) : option Z :=
  if b =? 0 then Some res
  else match fuel with
       | O => None
       | S fuel => let '(a, b, res) := mul_step a b res in mul_loop fuel a b res
       end.

Definition BF32_mul (a b : Z) : option Z := wrap 32 <$> mul_loop 32 a b 0.

Definition BF32_from_le_bytes (b : bytes) : Z := from_le b.
Definition BF32_to_le_bytes (x : Z) : bytes := to_le 4 x.

(** * Storage layout *)

Definition ESCROW_PREFIX : u8 := x10.
Definition SHARE_PREFIX : u8 := x20.

Definition STATE_CREATED : Z := 0.
Definition STATE_BUYER_CONFIRMED : Z := 1.
Definition STATE_PAYMENT_SENT : Z := 2.
Definition STATE_COMPLETED : Z := 3.
Definition STATE_DISPUTED : Z := 4.
Definition STATE_RESOLVED_BUYER : Z := 5.
Definition STATE_RESOLVED_SELLER : Z := 6.

Definition escrow_key (escrow_id : bytes) : bytes := ESCROW_PREFIX :: escrow_id.
Definition share_key (escrow_id : bytes) : bytes := SHARE_PREFIX :: escrow_id.

Definition ed_state (d : bytes) : Z := b2z (d !!! 0%nat).
Definition ed_commitment (d : bytes) : bytes := slice 1 33 d.
Definition ed_pubkey (d : bytes) : bytes := slice 33 65 d.
Definition ed_seller (d : bytes) : bytes := slice 65 85 d.
Definition ed_buyer (d : bytes) : bytes := slice 85 105 d.

Definition set_state (d : bytes) (state : Z) : bytes := <[0%nat := z2b state]> d.

Definition new_escrow (commitment escrow_pubkey seller : bytes) : bytes :=
  put 65 seller (put 33 escrow_pubkey (put 1 commitment (set_state (zeros 85) STATE_CREATED))).

Section contract.
Context {ST : Type} `{Storage ST} `{Host}.
Implicit Types (w : World ST).

(** * Merkle proofs *)

Definition hash (data : bytes) : bytes := fill 32 (keccak256 data).

(** The eight values, four bytes each. *)
Definition share_bytes (values : list Z) : bytes :=
  foldl (fun data iv => put (iv.1 * 4) (BF32_to_le_bytes iv.2) data) (zeros 32)
    (imap pair values).

Definition hash_share_values (values : list Z) : bytes := hash (share_bytes values).

(** [combined], the current node on the side of the index's parity. *)
Definition combine (idx : nat) (current sibling : bytes) : bytes :=
  if Nat.even idx then put 32 sibling (put 0 current (zeros 64))
  else put 32 current (put 0 sibling (zeros 64)).

Fixpoint climb (current : bytes) (idx : nat) (proof : list bytes) : bytes :=
  match proof with
  | [] => current
  | sibling :: proof' => climb (hash (combine idx current sibling)) (idx / 2) proof'
  end.

Definition verify_merkle_proof_slice (root leaf_hash : bytes) (proof : list bytes) (index : nat) : bool :=
  bool_decide (climb leaf_hash index proof = root).

Definition verify_share (commitment : bytes) (share_index : nat) (share_values : list Z)
    (merkle_proof : list bytes) : bool :=
  verify_merkle_proof_slice commitment (hash_share_values share_values) merkle_proof share_index.

(** * Events *)

Definition emit_escrow_created w (escrow_id seller commitment escrow_pubkey : bytes) :=
  emit w [topic "EscrowCreated(bytes32,address,bytes32,bytes32)"; escrow_id; pad20 seller]
    (commitment ++ escrow_pubkey).
Definition emit_buyer_joined w (escrow_id buyer : bytes) :=
  emit w [topic "BuyerJoined(bytes32,address)"; escrow_id; pad20 buyer] [].
Definition emit_payment_sent w (escrow_id buyer : bytes) :=
  emit w [topic "PaymentSent(bytes32,address)"; escrow_id; pad20 buyer] [].
Definition emit_payment_confirmed w (escrow_id seller : bytes) :=
  emit w [topic "PaymentConfirmed(bytes32,address)"; escrow_id; pad20 seller] [].
Definition emit_dispute_opened w (escrow_id initiator : bytes) :=
  emit w [topic "DisputeOpened(bytes32,address)"; escrow_id; pad20 initiator] [].
Definition emit_dispute_resolved w (escrow_id winner share_c : bytes) :=
  emit w [topic "DisputeResolved(bytes32,address,bytes32)"; escrow_id; pad20 winner] share_c.

(** * Entry points *)

Definition create_escrow (env : Env) w (cd : bytes) : outcome ST :=
  require! (4 + 128 <=? length cd)%nat else 2 ;;
  let calldata := call_data_copy 128 4 cd in
  let escrow_id := slice 0 32 calldata in
  let commitment := slice 32 64 calldata in
  let escrow_pubkey := slice 64 96 calldata in
  let share_c := slice 96 128 calldata in
  let key := escrow_key escrow_id in
  require! negb (bool_decide (is_Some (sget (store w) key 1))) else 0x10 ;;
  let seller := caller env in
  let w := sset w key (new_escrow commitment escrow_pubkey seller) in
  let w := sset w (share_key escrow_id) share_c in
  let w := emit_escrow_created w escrow_id seller commitment escrow_pubkey in
  Return w escrow_id.

(** The first 85 bytes of the zeroed buffer are read. *)
Definition confirm_escrow (env : Env) w (cd : bytes) : outcome ST :=
  require! (4 + 32 <=? length cd)%nat else 2 ;;
  let escrow_id := call_data_copy 32 4 cd in
  let key := escrow_key escrow_id in
  match sget (store w) key 85 with
  | None => Revert 3
  | Some read =>
      let escrow_data := read ++ zeros 20 in
      require! ed_state escrow_data =? STATE_CREATED else 4 ;;
      let buyer := caller env in
      require! negb (bool_decide (buyer = ed_seller escrow_data)) else 0x11 ;;
      let escrow_data := put 85 buyer (set_state escrow_data STATE_BUYER_CONFIRMED) in
      let w := emit_buyer_joined (sset w key escrow_data) escrow_id buyer in
      Return w [z2b 1]
  end.

Definition mark_payment_sent (env : Env) w (cd : bytes) : outcome ST :=
  require! (4 + 32 <=? length cd)%nat else 2 ;;
  let escrow_id := call_data_copy 32 4 cd in
  let key := escrow_key escrow_id in
  match sget (store w) key 105 with
  | None => Revert 3
  | Some escrow_data =>
      require! bool_decide (caller env = ed_buyer escrow_data) else 5 ;;
      require! ed_state escrow_data =? STATE_BUYER_CONFIRMED else 4 ;;
      let w := sset w key (set_state escrow_data STATE_PAYMENT_SENT) in
      Return (emit_payment_sent w escrow_id (caller env)) [z2b 1]
  end.

Definition confirm_payment (env : Env) w (cd : bytes) : outcome ST :=
  require! (4 + 32 <=? length cd)%nat else 2 ;;
  let escrow_id := call_data_copy 32 4 cd in
  let key := escrow_key escrow_id in
  match sget (store w) key 105 with
  | None => Revert 3
  | Some escrow_data =>
      require! bool_decide (caller env = ed_seller escrow_data) else 6 ;;
      require! ed_state escrow_data =? STATE_PAYMENT_SENT else 4 ;;
      let w := sset w key (set_state escrow_data STATE_COMPLETED) in
      Return (emit_payment_confirmed w escrow_id (caller env)) [z2b 1]
  end.

Definition is_party (env : Env) (escrow_data : bytes) : bool :=
  bool_decide (caller env = ed_buyer escrow_data) || bool_decide (caller env = ed_seller escrow_data).

Definition dispute (env : Env) w (cd : bytes) : outcome ST :=
  require! (4 + 32 <=? length cd)%nat else 2 ;;
  let escrow_id := call_data_copy 32 4 cd in
  let key := escrow_key escrow_id in
  match sget (store w) key 105 with
  | None => Revert 3
  | Some escrow_data =>
      require! (ed_state escrow_data =? STATE_BUYER_CONFIRMED)
               || (ed_state escrow_data =? STATE_PAYMENT_SENT) else 4 ;;
      require! is_party env escrow_data else 7 ;;
      let w := sset w key (set_state escrow_data STATE_DISPUTED) in
      Return (emit_dispute_opened w escrow_id (caller env)) [z2b 1]
  end.

Definition resolve_dispute (env : Env) w (cd : bytes) : outcome ST :=
  require! (4 + 64 <=? length cd)%nat else 2 ;;
  let calldata := call_data_copy 64 4 cd in
  let escrow_id := slice 0 32 calldata in
  let to_buyer := negb (b2z (calldata !!! 63%nat) =? 0) in
  let key := escrow_key escrow_id in
  match sget (store w) key 105 with
  | None => Revert 3
  | Some escrow_data =>
      require! ed_state escrow_data =? STATE_DISPUTED else 4 ;;
      require! is_party env escrow_data else 7 ;;
      let share_c := default (zeros 32) (sget (store w) (share_key escrow_id) 32) in
      let winner := if to_buyer then ed_buyer escrow_data else ed_seller escrow_data in
      let escrow_data :=
        set_state escrow_data (if to_buyer then STATE_RESOLVED_BUYER else STATE_RESOLVED_SELLER) in
      let w := emit_dispute_resolved (sset w key escrow_data) escrow_id winner share_c in
      Return w [z2b 1]
  end.

(** The ABI encoding of [getEscrow]'s answer. *)
Definition escrow_response (escrow_data : bytes) : bytes :=
  let response := <[31%nat := escrow_data !!! 0%nat]> (zeros 160) in
  let response := put 32 (ed_commitment escrow_data) response in
  let response := put 64 (ed_pubkey escrow_data) response in
  let response := put 108 (ed_seller escrow_data) response in
  if STATE_BUYER_CONFIRMED <=? ed_state escrow_data
  then put 140 (ed_buyer escrow_data) response else response.

(** When the first read fails the second one, of the same key, fails as well. *)
Definition get_escrow w (cd : bytes) : outcome ST :=
  require! (4 + 32 <=? length cd)%nat else 2 ;;
  let key := escrow_key (call_data_copy 32 4 cd) in
  match sget (store w) key 105 with
  | Some escrow_data => Return w (escrow_response escrow_data)
  | None =>
      match sget (store w) key 85 with
      | Some read => Return w (escrow_response (read ++ zeros 20))
      | None => Revert 3
      end
  end.

(** The last four bytes of word [i] of the values, most significant first. *)
Definition share_value (fixed_data : bytes) (i : nat) : Z :=
  let offset := (64 + i * 32)%nat in
  BF32_from_le_bytes (rev (slice (offset + 28) (offset + 32) fixed_data)).

Definition proof_element (cd : bytes) (i : nat) : bytes :=
  call_data_copy 32 (4 + 320 + 32 + Z.of_nat i * 32) cd.

Definition verify_share_call w (cd : bytes) : outcome ST :=
  require! (4 + 32 + 32 + 256 + 32 + 32 <=? length cd)%nat else 2 ;;
  let fixed_data := call_data_copy 320 4 cd in
  let commitment := slice 0 32 fixed_data in
  let share_index := Z.to_nat (b2z (fixed_data !!! 63%nat)) in
  let share_values := share_value fixed_data <$> seq 0 8 in
  let proof_len := Z.to_nat (word_u32 (call_data_copy 32 (4 + 320) cd)) in
  require! (proof_len <=? 10)%nat else 8 ;;
  let proof := proof_element cd <$> seq 0 proof_len in
  require! verify_share commitment share_index share_values proof else 9 ;;
  Return w [z2b 1].

(** * Dispatch *)

Definition call (env : Env) w (cd : bytes) : outcome ST :=
  require! (4 <=? length cd)%nat else 1 ;;
  let selector := call_data_copy 4 0 cd in
  let sel_is sg := bool_decide (selector = sel sg) in
  if sel_is "createEscrow(bytes32,bytes32,bytes32,bytes32)" then create_escrow env w cd
  else if sel_is "confirmEscrow(bytes32)" then confirm_escrow env w cd
  else if sel_is "markPaymentSent(bytes32)" then mark_payment_sent env w cd
  else if sel_is "confirmPayment(bytes32)" then confirm_payment env w cd
  else if sel_is "dispute(bytes32)" then dispute env w cd
  else if sel_is "resolveDispute(bytes32,bool)" then resolve_dispute env w cd
  else if sel_is "getEscrow(bytes32)" then get_escrow w cd
  else if sel_is "verifyShare(bytes32,uint8,bytes32[8],bytes32[])" then verify_share_call w cd
  else Revert 0xFF.

(** A transaction: a call that reverts leaves everything as it was. *)
Definition transact w (tx : Env * bytes) : World ST :=
  match call tx.1 w tx.2 with
  | Return w' _ => w'
  | Revert _ | Trap => w
  end.
End contract.
