(* ===== verification/EscrowSafe.v ===== *)
(** What the escrow contract guarantees: it implements a small state machine, the
    history of an escrow has one of seven shapes, the third share stays unread until
    a dispute is resolved; and where it falls short: either party may resolve a
    dispute in its own favour, and share verification refuses what it should read. *)
From stdpp Require Import base list strings sets.
From Stdlib Require Import ZArith Lia Init.Byte.
From coqutil Require Import Byte.
From S2P Require Import Prelude Bytes RevHost Escrow.

Local Open Scope Z_scope.

(** * The state machine *)

Inductive status := Created | Confirmed | Sent | Completed | Disputed | Resolved (to_buyer : bool).

#[export] Instance status_eq_dec : EqDecision status.
Proof. solve_decision. Defined.

Record escrow := mkEscrow {
  e_status : status;
  e_commitment : bytes;
  e_pubkey : bytes;
  e_seller : bytes;
  e_buyer : option bytes;
  e_share : bytes;
}.
#[export] Instance escrow_eta : Eta escrow := fun e =>
  mkEscrow (e_status e) (e_commitment e) (e_pubkey e) (e_seller e) (e_buyer e) (e_share e).

Inductive op :=
| Create (commitment pubkey share : bytes)
| Confirm
| MarkSent
| ConfirmPayment
| OpenDispute
| Resolve (to_buyer : bool).

Definition party (who : bytes) (e : escrow) : Prop := e_buyer e = Some who ∨ e_seller e = who.

(** What [who] makes of an escrow; [None] if it is refused. *)
Definition spec (who : bytes) (o : op) (e : option escrow) : option escrow :=
  match o, e with
  | Create c k sh, None => Some (mkEscrow Created c k who None sh)
  | Confirm, Some e =>
      if decide (e_status e = Created ∧ who ≠ e_seller e)
      then Some (e <| e_status := Confirmed |> <| e_buyer := Some who |>) else None
  | MarkSent, Some e =>
      if decide (e_status e = Confirmed ∧ e_buyer e = Some who)
      then Some (e <| e_status := Sent |>) else None
  | ConfirmPayment, Some e =>
      if decide (e_status e = Sent ∧ e_seller e = who)
      then Some (e <| e_status := Completed |>) else None
  | OpenDispute, Some e =>
      if decide ((e_status e = Confirmed ∨ e_status e = Sent) ∧ (e_buyer e = Some who ∨ e_seller e = who))
      then Some (e <| e_status := Disputed |>) else None
  | Resolve to_buyer, Some e =>
      if decide (e_status e = Disputed ∧ (e_buyer e = Some who ∨ e_seller e = who))
      then Some (e <| e_status := Resolved to_buyer |>) else None
  | _, _ => None
  end.

(** * Records *)

Definition code (st : status) : Z :=
  match st with
  | Created => STATE_CREATED
  | Confirmed => STATE_BUYER_CONFIRMED
  | Sent => STATE_PAYMENT_SENT
  | Completed => STATE_COMPLETED
  | Disputed => STATE_DISPUTED
  | Resolved to_buyer => if to_buyer then STATE_RESOLVED_BUYER else STATE_RESOLVED_SELLER
  end.

(** The stored record, and what a buffer of 105 bytes holds of it. *)
Definition head_of (e : escrow) : bytes :=
  z2b (code (e_status e)) :: e_commitment e ++ e_pubkey e ++ e_seller e.
Definition record_of (e : escrow) : bytes := head_of e ++ default [] (e_buyer e).
Definition buffer_of (e : escrow) : bytes := head_of e ++ default (zeros 20) (e_buyer e).

Record escrow_ok (e : escrow) : Prop := mkOk {
  ok_commitment : length (e_commitment e) = 32%nat;
  ok_pubkey : length (e_pubkey e) = 32%nat;
  ok_seller : length (e_seller e) = 20%nat;
  ok_share : length (e_share e) = 32%nat;
  ok_buyer : match e_buyer e with
             | None => e_status e = Created
             | Some b => e_status e ≠ Created ∧ length b = 20%nat
             end;
}.

Lemma length_head e : escrow_ok e → length (head_of e) = 85%nat.
Proof. intros [H1 H2 H3 _ _]. unfold head_of. cbn. rewrite !length_app. lia. Qed.

Lemma length_buffer e : escrow_ok e → length (buffer_of e) = 105%nat.
Proof.
  intros Hok. unfold buffer_of. rewrite length_app, length_head by done.
  destruct Hok as [_ _ _ _ Hb]. destruct (e_buyer e); [|done]. cbn. lia.
Qed.

Lemma fill_record e : escrow_ok e → fill 105 (record_of e) = buffer_of e.
Proof.
  intros Hok. pose proof (length_head e Hok). pose proof (length_buffer e Hok) as Hl.
  unfold record_of, buffer_of in *. destruct (e_buyer e) as [b|]; cbn [default] in *.
  - by apply fill_id.
  - rewrite app_nil_r. unfold fill. rewrite take_ge by lia. by rewrite H.
Qed.

Lemma fill_head e : escrow_ok e → fill 85 (record_of e) = head_of e.
Proof. intros Hok. by apply fill_app, length_head. Qed.

Lemma code_range st : 0 ≤ code st < 256.
Proof. destruct st as [| | | | |[]]; cbv; split; congruence. Qed.

Lemma code_inj st st' : code st = code st' → st = st'.
Proof. destruct st as [| | | | |[]], st' as [| | | | |[]]; done. Qed.

Lemma slice_here n (l1 l2 : bytes) : length l1 = n → slice 0 n (l1 ++ l2) = l1.
Proof. intros <-. unfold slice. rewrite Nat.sub_0_r. apply take_app_length. Qed.

(** The fields of a buffer. *)
Lemma buffer_fields e tl :
  escrow_ok e →
  let d := head_of e ++ tl in
  ed_state d = code (e_status e) ∧ ed_commitment d = e_commitment e
  ∧ ed_pubkey d = e_pubkey e ∧ ed_seller d = e_seller e
  ∧ (length tl = 20%nat → ed_buyer d = tl).
Proof.
  intros [H1 H2 H3 _ _] d.
  assert (d = z2b (code (e_status e)) :: e_commitment e ++ e_pubkey e ++ e_seller e ++ tl) as ->.
  { unfold d, head_of. cbn. by rewrite <-!app_assoc. }
  split_and!.
  - unfold ed_state. cbn. rewrite b2z_z2b. apply wrap_small. pose proof (code_range (e_status e)).
    unfold fits. lia.
  - unfold ed_commitment. change (slice 0 32 (e_commitment e ++ e_pubkey e ++ e_seller e ++ tl) = e_commitment e).
    by apply slice_here.
  - unfold ed_pubkey. change (slice 32 64 (e_commitment e ++ e_pubkey e ++ e_seller e ++ tl) = e_pubkey e).
    rewrite slice_app_r by lia. rewrite H1. by apply slice_here.
  - unfold ed_seller. change (slice 64 84 (e_commitment e ++ e_pubkey e ++ e_seller e ++ tl) = e_seller e).
    rewrite !slice_app_r by lia. rewrite H1, H2. by apply slice_here.
  - intros Ht. unfold ed_buyer. change (slice 84 104 (e_commitment e ++ e_pubkey e ++ e_seller e ++ tl) = tl).
    rewrite !slice_app_r by lia. rewrite H1, H2, H3. unfold slice. cbn. apply take_ge. lia.
Qed.

(** Writing at the end of what has been written. *)
Lemma put_zeros off (l v : bytes) n :
  length l = off → (length v ≤ n)%nat → put off v (l ++ zeros n) = l ++ v ++ zeros (n - length v).
Proof.
  intros <- Hv. unfold put, zeros. rewrite take_app_length, drop_app_ge by lia.
  rewrite (Nat.add_comm (length l)), Nat.add_sub. by rewrite drop_replicate.
Qed.

Lemma put_end off v (l l' : bytes) :
  length l = off → length l' = length v → put off v (l ++ l') = l ++ v.
Proof.
  intros <- Hl. unfold put. rewrite take_app_length, drop_ge by (rewrite length_app; lia).
  by rewrite app_nil_r.
Qed.

Lemma set_state_head e tl st : set_state (head_of e ++ tl) (code st) = head_of (e <| e_status := st |>) ++ tl.
Proof. done. Qed.

Lemma record_new c k s sh :
  length c = 32%nat → length k = 32%nat → length s = 20%nat →
  new_escrow c k s = record_of (mkEscrow Created c k s None sh).
Proof.
  intros Hc Hk Hs. unfold new_escrow.
  change (set_state (zeros 85) STATE_CREATED) with ([z2b STATE_CREATED] ++ zeros 84).
  rewrite put_zeros, app_assoc, Hc by (cbn; lia).
  rewrite put_zeros, app_assoc, Hk by (rewrite ?length_app; cbn; lia).
  rewrite put_zeros, Hs by (rewrite ?length_app; cbn; lia).
  unfold record_of, head_of. cbn. by rewrite <-!app_assoc.
Qed.

(** * Refinement *)

Section refinement.
Context {ST : Type} `{Storage ST} `{Host}.
Implicit Types (w : World ST) (s : ST).

(** The host copies what fits into the zeroed buffer. *)
Definition host_fills : Prop := ∀ n v, st_buffer (S := ST) n v = fill n v.

(** The storage holds escrow [e], or none, under [id]. *)
Definition escrow_at s (id : bytes) (e : option escrow) : Prop :=
  match e with
  | None => st_get s (escrow_key id) = None
  | Some e => escrow_ok e ∧ st_get s (escrow_key id) = Some (record_of e)
              ∧ st_get s (share_key id) = Some (e_share e)
  end.

(** What a call asks for: which escrow, and what is to be done to it. *)
Definition requested (cd : bytes) : option (bytes * op) :=
  let sel_is sg := bool_decide (call_data_copy 4 0 cd = sel sg) in
  let word i := slice (i * 32) (i * 32 + 32) (call_data_copy 128 4 cd) in
  let simple o := if (36 <=? length cd)%nat then Some (call_data_copy 32 4 cd, o) else None in
  if (length cd <? 4)%nat then None
  else if sel_is "createEscrow(bytes32,bytes32,bytes32,bytes32)" then
    if (132 <=? length cd)%nat then Some (word 0%nat, Create (word 1%nat) (word 2%nat) (word 3%nat)) else None
  else if sel_is "confirmEscrow(bytes32)" then simple Confirm
  else if sel_is "markPaymentSent(bytes32)" then simple MarkSent
  else if sel_is "confirmPayment(bytes32)" then simple ConfirmPayment
  else if sel_is "dispute(bytes32)" then simple OpenDispute
  else if sel_is "resolveDispute(bytes32,bool)" then
    if (68 <=? length cd)%nat
    then let calldata := call_data_copy 64 4 cd in
         Some (slice 0 32 calldata, Resolve (negb (b2z (calldata !!! 63%nat) =? 0)))
    else None
  else None.

Lemma caller_length env : length (caller env) = 20%nat.
Proof. apply length_fill. Qed.

Lemma escrow_key_inj id id' : escrow_key id = escrow_key id' → id = id'.
Proof. by intros [= ->]. Qed.

Lemma share_key_inj id id' : share_key id = share_key id' → id = id'.
Proof. by intros [= ->]. Qed.

Lemma escrow_share_key id id' : escrow_key id ≠ share_key id'.
Proof. discriminate. Qed.

(** A write under another id. *)
Lemma escrow_at_other s id id' k v x :
  id ≠ id' → k = escrow_key id ∨ k = share_key id → escrow_at s id' x → escrow_at (st_set s k v) id' x.
Proof.
  intros Hne Hk Hx.
  assert (k ≠ escrow_key id' ∧ k ≠ share_key id') as [Ha Hb].
  { destruct Hk as [-> | ->]; split; intros E; try discriminate; congruence || (injection E; congruence). }
  destruct x; cbn in *; by rewrite !st_get_set_ne.
Qed.

Hypothesis fills : host_fills.

Lemma sget_fill s k v n : st_get s k = Some v → sget s k n = Some (fill n v).
Proof. intros Hr. unfold sget. by rewrite Hr, <-fills. Qed.

Lemma read_record s id e : escrow_at s id (Some e) → sget s (escrow_key id) 105 = Some (buffer_of e).
Proof. intros (Hok & Hr & _). by rewrite (sget_fill _ _ _ _ Hr), fill_record. Qed.

Lemma read_none s id n : escrow_at s id None → sget s (escrow_key id) n = None.
Proof. cbn. intros Hr. unfold sget. by rewrite Hr. Qed.

Lemma read_share s id e : escrow_at s id (Some e) → sget s (share_key id) 32 = Some (e_share e).
Proof.
  intros (Hok & _ & Hr). rewrite (sget_fill _ _ _ _ Hr). by rewrite fill_id by apply Hok.
Qed.

Lemma escrow_ok_step e st b :
  escrow_ok e → st ≠ Created → length b = 20%nat →
  escrow_ok (e <| e_status := st |> <| e_buyer := Some b |>).
Proof. by intros [H1 H2 H3 H4 _] Hst Hb; split. Qed.

(** [out], the outcome of a call that asks for [o] on escrow [id], is what the state
    machine says, and the other escrows stay as they were. *)
Definition implements w (who id : bytes) (o : op) (out : outcome ST) : Prop :=
  ∀ x, escrow_at (store w) id x →
  match spec who o x with
  | None => ∃ c, out = Revert c
  | Some e => ∃ w' r, out = Return w' r ∧ escrow_at (store w') id (Some e)
              ∧ ∀ id' x', id' ≠ id → escrow_at (store w) id' x' → escrow_at (store w') id' x'
  end.

(** A handler that writes the record back with its buyer and a new state. *)
Lemma writes_back w w' r id e b st :
  escrow_at (store w) id (Some e) → st ≠ Created → length b = 20%nat →
  store w' = st_set (store w) (escrow_key id) (head_of (e <| e_status := st |>) ++ b) →
  ∃ w'' r', Return w' r = Return w'' r'
    ∧ escrow_at (store w'') id (Some (e <| e_status := st |> <| e_buyer := Some b |>))
    ∧ ∀ id' x', id' ≠ id → escrow_at (store w) id' x' → escrow_at (store w'') id' x'.
Proof.
  intros (Hok & Hr & Hs) Hst Hb Ew. exists w', r. split; [done|]. rewrite Ew. split.
  - split; [by apply escrow_ok_step|]. rewrite st_get_set_eq, st_get_set_ne by done. done.
  - intros id' x' Hne Hx. apply (escrow_at_other _ id); auto.
Qed.

(** A handler that writes a new record and its share. *)
Lemma creates w w' r id e :
  escrow_ok e → store w' = st_set (st_set (store w) (escrow_key id) (record_of e)) (share_key id) (e_share e) →
  ∃ w'' r', Return w' r = Return w'' r' ∧ escrow_at (store w'') id (Some e)
    ∧ ∀ id' x', id' ≠ id → escrow_at (store w) id' x' → escrow_at (store w'') id' x'.
Proof.
  intros Hok Ew. exists w', r. split; [done|]. rewrite Ew. split.
  - split; [done|]. by rewrite st_get_set_ne, !st_get_set_eq.
  - intros id' x' Hne Hx. apply (escrow_at_other _ id); auto. apply (escrow_at_other _ id); auto.
Qed.

(** A buyer that is there stays. *)
Lemma keep_buyer e b st : e_buyer e = Some b → e <| e_status := st |> = e <| e_status := st |> <| e_buyer := Some b |>.
Proof. intros <-. by destruct e. Qed.

Lemma code_eqb st st' : (code st =? code st') = bool_decide (st = st').
Proof.
  case_bool_decide as E; [subst; apply Z.eqb_refl|]. apply Z.eqb_neq. by intros ?%code_inj.
Qed.

Lemma buffer_reads e :
  escrow_ok e →
  ed_state (buffer_of e) = code (e_status e) ∧ ed_seller (buffer_of e) = e_seller e
  ∧ ed_buyer (buffer_of e) = default (zeros 20) (e_buyer e).
Proof.
  intros Hok. pose proof (buffer_fields e (default (zeros 20) (e_buyer e)) Hok) as F. cbn zeta in F.
  destruct F as (F1 & _ & _ & F4 & F5). unfold buffer_of. rewrite F1, F4, F5; [done|].
  destruct Hok as [_ _ _ _ Hb]. destruct (e_buyer e); [by destruct Hb|done].
Qed.

(** Beyond the first step there is a buyer. *)
Lemma has_buyer e : escrow_ok e → e_status e ≠ Created → ∃ b, e_buyer e = Some b ∧ length b = 20%nat.
Proof. intros [_ _ _ _ Hb] Hst. destruct (e_buyer e) as [b|]; [|done]. exists b. by destruct Hb. Qed.

(** A handler that writes back the record it has read, with another state. *)
Lemma moves w w' r id e st :
  escrow_at (store w) id (Some e) → e_status e ≠ Created → st ≠ Created →
  store w' = st_set (store w) (escrow_key id) (set_state (buffer_of e) (code st)) →
  ∃ w'' r', Return w' r = Return w'' r'
    ∧ escrow_at (store w'') id (Some (e <| e_status := st |>))
    ∧ ∀ id' x', id' ≠ id → escrow_at (store w) id' x' → escrow_at (store w'') id' x'.
Proof.
  intros He Hc Hst Ew. destruct (has_buyer e) as (b & Eb & Hb); [apply He|done|].
  rewrite (keep_buyer e b st Eb). apply writes_back; [done..|]. rewrite Ew. unfold buffer_of. by rewrite Eb.
Qed.

Lemma create_implements env w cd :
  (132 ≤ length cd)%nat →
  let word i := slice (i * 32) (i * 32 + 32) (call_data_copy 128 4 cd) in
  implements w (caller env) (word 0%nat) (Create (word 1%nat) (word 2%nat) (word 3%nat)) (create_escrow env w cd).
Proof.
  intros Hcd word x Hx. unfold create_escrow. rewrite (proj2 (Nat.leb_le _ _)) by (cbn; lia). cbn [require].
  assert (∀ i, (i < 4)%nat → length (word i) = 32%nat) as Hl.
  { intros i Hi. unfold word. rewrite length_slice; rewrite ?call_data_length; lia. }
  change (slice 0 32 _) with (word 0%nat). change (slice 32 64 _) with (word 1%nat).
  change (slice 64 96 _) with (word 2%nat). change (slice 96 128 _) with (word 3%nat).
  clearbody word. destruct x as [e|]; cbn [spec].
  - assert (is_Some (sget (store w) (escrow_key (word 0%nat)) 1)) as Hp.
    { apply (sget_present _ _ 1 105). rewrite (read_record _ _ e) by done. done. }
    rewrite bool_decide_true by done. by eexists.
  - rewrite read_none by done. cbn [is_Some_b negb require].
    rewrite bool_decide_false by (intros [? [=]]). cbn [negb require].
    apply creates.
    + split; cbn; (done || apply caller_length || (apply Hl; lia)).
    + cbn [e_share]. rewrite <-record_new; [done|apply Hl; lia..|apply caller_length].
Qed.

Lemma confirm_implements env w cd :
  (36 ≤ length cd)%nat →
  implements w (caller env) (call_data_copy 32 4 cd) Confirm (confirm_escrow env w cd).
Proof.
  intros Hcd x Hx. unfold confirm_escrow. rewrite (proj2 (Nat.leb_le _ _)) by (cbn; lia). cbn [require].
  destruct x as [e|]; cbn [spec]; [|rewrite read_none by done; by eexists].
  pose proof Hx as (Hok & Hr & _). rewrite (sget_fill _ _ _ _ Hr), fill_head by done.
  pose proof (buffer_fields e (zeros 20) Hok) as F. cbn zeta in F. destruct F as (F1 & _ & _ & F4 & _).
  change STATE_CREATED with (code Created). rewrite F1, F4, code_eqb.
  case_bool_decide as E1; cbn [require]; [|rewrite decide_False by naive_solver; by eexists].
  case_bool_decide as E2; cbn [negb require]; [rewrite decide_False by naive_solver; by eexists|].
  rewrite decide_True by naive_solver. apply (writes_back w _ _ _ e); [done|done|apply caller_length|].
  change STATE_BUYER_CONFIRMED with (code Confirmed). rewrite set_state_head, put_end; [done|..].
  - apply (length_head e Hok).
  - by rewrite caller_length.
Qed.

Lemma mark_implements env w cd :
  (36 ≤ length cd)%nat →
  implements w (caller env) (call_data_copy 32 4 cd) MarkSent (mark_payment_sent env w cd).
Proof.
  intros Hcd x Hx. unfold mark_payment_sent. rewrite (proj2 (Nat.leb_le _ _)) by (cbn; lia). cbn [require].
  destruct x as [e|]; cbn [spec]; [|rewrite read_none by done; by eexists].
  rewrite (read_record _ _ e) by done. destruct (buffer_reads e) as (F1 & _ & F5); [apply Hx|].
  change STATE_BUYER_CONFIRMED with (code Confirmed). rewrite F1, F5, code_eqb.
  destruct (decide (e_status e = Confirmed ∧ e_buyer e = Some (caller env))) as [[E1 E2]|Hno].
  - rewrite E2, !bool_decide_true by done. apply (moves w _ _ _ e Sent); [done|congruence|done|done].
  - case_bool_decide as E1; [|by eexists]. case_bool_decide as E2; [|by eexists].
    destruct Hno. destruct (has_buyer e) as (b & Eb & _); [apply Hx|congruence|].
    rewrite Eb in E1 |- *. by rewrite E1.
Qed.

Lemma payment_implements env w cd :
  (36 ≤ length cd)%nat →
  implements w (caller env) (call_data_copy 32 4 cd) ConfirmPayment (confirm_payment env w cd).
Proof.
  intros Hcd x Hx. unfold confirm_payment. rewrite (proj2 (Nat.leb_le _ _)) by (cbn; lia). cbn [require].
  destruct x as [e|]; cbn [spec]; [|rewrite read_none by done; by eexists].
  rewrite (read_record _ _ e) by done. destruct (buffer_reads e) as (F1 & F4 & _); [apply Hx|].
  change STATE_PAYMENT_SENT with (code Sent). rewrite F1, F4, code_eqb.
  destruct (decide (e_status e = Sent ∧ e_seller e = caller env)) as [[E1 E2]|Hno].
  - rewrite !bool_decide_true by done. apply (moves w _ _ _ e Completed); [done|congruence|done|done].
  - repeat case_bool_decide; try by eexists. by destruct Hno.
Qed.

(** Once there is a buyer, the check is for the two parties. *)
Lemma is_party_spec env e :
  escrow_ok e → e_status e ≠ Created →
  is_party env (buffer_of e) = bool_decide (e_buyer e = Some (caller env) ∨ e_seller e = caller env).
Proof.
  intros Hok Hst. destruct (has_buyer e) as (b & Eb & _); [done..|].
  unfold is_party. destruct (buffer_reads e) as (_ & -> & ->); [done|]. rewrite Eb. cbn [default].
  rewrite <-bool_decide_or. apply bool_decide_ext. naive_solver.
Qed.

Lemma dispute_implements env w cd :
  (36 ≤ length cd)%nat →
  implements w (caller env) (call_data_copy 32 4 cd) OpenDispute (dispute env w cd).
Proof.
  intros Hcd x Hx. unfold dispute. rewrite (proj2 (Nat.leb_le _ _)) by (cbn; lia). cbn [require].
  destruct x as [e|]; cbn [spec]; [|rewrite read_none by done; by eexists].
  rewrite (read_record _ _ e) by done. destruct (buffer_reads e) as (F1 & _); [apply Hx|].
  change STATE_BUYER_CONFIRMED with (code Confirmed). change STATE_PAYMENT_SENT with (code Sent).
  rewrite F1, !code_eqb, <-bool_decide_or.
  case_bool_decide as E1; cbn [require]; [|rewrite decide_False by naive_solver; by eexists].
  assert (e_status e ≠ Created) as Hst by (destruct E1; congruence).
  rewrite is_party_spec by (done || apply Hx).
  case_bool_decide as E2; cbn [require]; [|rewrite decide_False by naive_solver; by eexists].
  rewrite decide_True by done. by apply (moves w _ _ _ e Disputed).
Qed.

Lemma resolve_implements env w cd :
  (68 ≤ length cd)%nat →
  let calldata := call_data_copy 64 4 cd in
  implements w (caller env) (slice 0 32 calldata) (Resolve (negb (b2z (calldata !!! 63%nat) =? 0)))
    (resolve_dispute env w cd).
Proof.
  intros Hcd calldata x Hx. unfold resolve_dispute. rewrite (proj2 (Nat.leb_le _ _)) by (cbn; lia). cbn [require].
  fold calldata. clearbody calldata. set (b := negb _).
  destruct x as [e|]; cbn [spec]; [|rewrite read_none by done; by eexists].
  rewrite (read_record _ _ e) by done. destruct (buffer_reads e) as (F1 & _); [apply Hx|].
  change STATE_DISPUTED with (code Disputed). rewrite F1, code_eqb.
  case_bool_decide as E1; cbn [require]; [|rewrite decide_False by naive_solver; by eexists].
  assert (e_status e ≠ Created) as Hst by congruence.
  rewrite is_party_spec by (done || apply Hx).
  case_bool_decide as E2; cbn [require]; [|rewrite decide_False by naive_solver; by eexists].
  rewrite decide_True by done. by apply (moves w _ _ _ e (Resolved b)).
Qed.

(** Calls that change nothing. *)
Definition idle w (out : outcome ST) : Prop := (∃ c, out = Revert c) ∨ ∃ r, out = Return w r.

Lemma view_idle w cd : idle w (get_escrow w cd).
Proof.
  unfold get_escrow, require. case_match; [|left; by eexists].
  repeat case_match; [right; by eexists..|left; by eexists].
Qed.

Lemma verify_idle w cd : idle w (verify_share_call w cd).
Proof. unfold verify_share_call, require. repeat case_match; [right; by eexists|left; by eexists..]. Qed.

(** A call too short for its arguments. *)
Lemma short w n (cd : bytes) (k : outcome ST) : ¬ (n ≤ length cd)%nat → idle w (require (n <=? length cd)%nat 2 k).
Proof. intros Hn. left. apply Nat.leb_nle in Hn. rewrite Hn. by eexists. Qed.

Lemma guarded w who n (cd : bytes) id o out :
  ((n ≤ length cd)%nat → implements w who id o out) → (¬ (n ≤ length cd)%nat → idle w out) →
  match (if (n <=? length cd)%nat then Some (id, o) else None) with
  | Some (id, o) => implements w who id o out
  | None => idle w out
  end.
Proof. destruct (Nat.leb_spec n (length cd)); [auto|]. intros _ Hs. apply Hs. lia. Qed.

(** One call, against the state machine. *)
Lemma call_implements env w cd :
  match requested cd with
  | Some (id, o) => implements w (caller env) id o (call env w cd)
  | None => idle w (call env w cd)
  end.
Proof.
  unfold call, requested. destruct (Nat.ltb_spec (length cd) 4).
  { left. rewrite (proj2 (Nat.leb_gt 4 (length cd))) by lia. by eexists. }
  rewrite (proj2 (Nat.leb_le 4 (length cd))) by lia. cbn [require].
  repeat (case_bool_decide; [try (apply guarded; [intros Hl|by apply short])|]).
  - by apply create_implements.
  - by apply confirm_implements.
  - by apply mark_implements.
  - by apply payment_implements.
  - by apply dispute_implements.
  - by apply resolve_implements.
  - apply view_idle.
  - apply verify_idle.
  - left. by eexists.
Qed.

(** * Runs *)

Definition returns (out : outcome ST) : bool := match out with Return _ _ => true | _ => false end.

(** A transaction, against the state machine on all escrows. *)
Lemma transact_step w env cd m :
  (∀ id, escrow_at (store w) id (m id)) →
  match requested cd with
  | None => store (transact w (env, cd)) = store w
  | Some (id, o) =>
      match spec (caller env) o (m id) with
      | None => returns (call env w cd) = false ∧ transact w (env, cd) = w
      | Some e => returns (call env w cd) = true
          ∧ ∀ id', escrow_at (store (transact w (env, cd))) id' (if decide (id' = id) then Some e else m id')
      end
  end.
Proof.
  intros Hm. pose proof (call_implements env w cd) as Hc. unfold transact. cbn [fst snd].
  destruct (requested cd) as [[id o]|].
  - specialize (Hc _ (Hm id)). destruct (spec (caller env) o (m id)) as [e|].
    + destruct Hc as (w' & r & -> & He & Ho). split; [done|].
      intros id'. destruct (decide (id' = id)) as [->|]; auto.
    + by destruct Hc as (c & ->).
  - by destruct Hc as [(c & ->)|(r & ->)].
Qed.

(** The state machine and the contract over a list of transactions: which of the
    requests were accepted, and the state in the end. *)
Fixpoint spec_run (txs : list (Env * bytes)) (m : bytes → option escrow)
  : list bool * (bytes → option escrow) :=
  match txs with
  | [] => ([], m)
  | (env, cd) :: txs' =>
      match requested cd with
      | None => spec_run txs' m
      | Some (id, o) =>
          match spec (caller env) o (m id) with
          | None => let '(bs, m') := spec_run txs' m in (false :: bs, m')
          | Some e =>
              let '(bs, m') := spec_run txs' (fun id' => if decide (id' = id) then Some e else m id') in
              (true :: bs, m')
          end
      end
  end.

Fixpoint contract_run w (txs : list (Env * bytes)) : list bool * World ST :=
  match txs with
  | [] => ([], w)
  | (env, cd) :: txs' =>
      let '(bs, w') := contract_run (transact w (env, cd)) txs' in
      match requested cd with
      | None => (bs, w')
      | Some _ => (returns (call env w cd) :: bs, w')
      end
  end.

(** C5.  The contract implements the escrow's state machine: whatever is sent to it,
    it accepts exactly the requests the state machine allows to their callers, and in
    the end its storage holds, under every id, the escrow the state machine has
    there. *)
Theorem escrow_refines w txs m :
  (∀ id, escrow_at (store w) id (m id)) →
  (contract_run w txs).1 = (spec_run txs m).1
  ∧ ∀ id, escrow_at (store (contract_run w txs).2) id ((spec_run txs m).2 id).
Proof.
  revert w m. induction txs as [|[env cd] txs IH]; intros w m Hm; [done|]. cbn [contract_run spec_run].
  pose proof (transact_step w env cd m Hm) as Hc. destruct (requested cd) as [[id o]|].
  - destruct (spec (caller env) o (m id)) as [e|]; destruct Hc as [-> Hc].
    + specialize (IH _ _ Hc). destruct (contract_run _ _), (spec_run _ _). cbn in *. by destruct IH as [-> IH].
    + rewrite Hc. specialize (IH w m Hm). destruct (contract_run _ _), (spec_run _ _). cbn in *.
      by destruct IH as [-> IH].
  - rewrite <-Hc in Hm. specialize (IH _ m Hm). by destruct (contract_run _ _).
Qed.

(** The steps that calls have taken on one escrow, and who called. *)
Fixpoint accepted w (txs : list (Env * bytes)) (id : bytes) : list (bytes * op) :=
  match txs with
  | [] => []
  | (env, cd) :: txs' =>
      (match requested cd with
       | Some (id', o) => if decide (id' = id ∧ returns (call env w cd)) then [(caller env, o)] else []
       | None => []
       end) ++ accepted (transact w (env, cd)) txs' id
  end.

(** The lives of an escrow: seller [a], buyer [b]. *)
Inductive lifecycle : list (bytes * op) → option escrow → Prop :=
| unborn : lifecycle [] None
| waiting a c k sh : lifecycle [(a, Create c k sh)] (Some (mkEscrow Created c k a None sh))
| joined a c k sh b : b ≠ a →
    lifecycle [(a, Create c k sh); (b, Confirm)] (Some (mkEscrow Confirmed c k a (Some b) sh))
| paid a c k sh b : b ≠ a →
    lifecycle [(a, Create c k sh); (b, Confirm); (b, MarkSent)] (Some (mkEscrow Sent c k a (Some b) sh))
| settled a c k sh b : b ≠ a →
    lifecycle [(a, Create c k sh); (b, Confirm); (b, MarkSent); (a, ConfirmPayment)]
      (Some (mkEscrow Completed c k a (Some b) sh))
| contested a c k sh b mid p : b ≠ a → mid = [] ∨ mid = [(b, MarkSent)] → p = a ∨ p = b →
    lifecycle ([(a, Create c k sh); (b, Confirm)] ++ mid ++ [(p, OpenDispute)])
      (Some (mkEscrow Disputed c k a (Some b) sh))
| decided a c k sh b mid p q x : b ≠ a → mid = [] ∨ mid = [(b, MarkSent)] → p = a ∨ p = b → q = a ∨ q = b →
    lifecycle ([(a, Create c k sh); (b, Confirm)] ++ mid ++ [(p, OpenDispute); (q, Resolve x)])
      (Some (mkEscrow (Resolved x) c k a (Some b) sh)).

Lemma lifecycle_step log x who o e :
  lifecycle log x → spec who o x = Some e → lifecycle (log ++ [(who, o)]) (Some e).
Proof.
  destruct 1 as [|a c k sh|a c k sh b Hb|a c k sh b Hb|a c k sh b Hb|a c k sh b mid p Hb Hm Hp
    |a c k sh b mid p q y Hb Hm Hp Hq]; destruct o; cbn [spec e_status e_seller e_buyer];
    repeat case_decide; intros [= <-]; destruct_and?; destruct_or?; simplify_eq; cbn;
    first [by constructor
          |by apply (contested _ _ _ _ _ []); auto
          |by eapply (contested _ _ _ _ ?[b] [(?b, MarkSent)]); auto
          |by apply (decided _ _ _ _ _ []); auto
          |by eapply (decided _ _ _ _ ?[b] [(?b, MarkSent)]); auto].
Qed.
Lemma history_from w txs id log m :
  (∀ id', escrow_at (store w) id' (m id')) → lifecycle log (m id) →
  ∃ x, escrow_at (store (contract_run w txs).2) id x ∧ lifecycle (log ++ accepted w txs id) x.
Proof.
  revert w log m. induction txs as [|[env cd] txs IH]; intros w log m Hm Hl.
  { exists (m id). by rewrite app_nil_r. }
  cbn [contract_run accepted]. rewrite app_assoc.
  set (w1 := transact w (env, cd)). set (l1 := match requested cd with Some _ => _ | None => _ end).
  assert (∃ m1, (∀ id', escrow_at (store w1) id' (m1 id')) ∧ lifecycle (log ++ l1) (m1 id)) as (m1 & Hm1 & Hl1).
  { pose proof (transact_step w env cd m Hm) as Hc. fold w1 in Hc. unfold l1. clear l1.
    destruct (requested cd) as [[id' o]|]; [|exists m; by rewrite Hc, app_nil_r].
    destruct (spec (caller env) o (m id')) as [e|] eqn:Es; destruct Hc as [-> Hc].
    - eexists. split; [exact Hc|]. cbn beta. destruct (decide (id' = id)) as [->|Hne].
      + rewrite !decide_True by done. by apply (lifecycle_step _ (m id)).
      + rewrite !decide_False by naive_solver. by rewrite app_nil_r.
    - exists m. rewrite Hc, decide_False by (intros [_ []]). by rewrite app_nil_r. }
  specialize (IH w1 _ _ Hm1 Hl1). destruct (contract_run w1 txs), (requested cd); exact IH.
Qed.

(** C33.  The life of an escrow has one of seven shapes: from the empty storage, whatever
    is sent to the contract, the steps accepted on an escrow are in order its creation
    by the seller, another's joining as the buyer, the buyer's word that he has paid,
    then the seller's that he has been paid; or one party's dispute after the joining
    or the paying, and one party's resolution of it.  The storage holds the escrow these steps
    have made, with the commitment, the key and the share of its creation. *)
Theorem escrow_history w txs id :
  (∀ k, st_get (store w) k = None) →
  ∃ x, escrow_at (store (contract_run w txs).2) id x ∧ lifecycle (accepted w txs id) x.
Proof.
  intros He. apply (history_from w txs id [] (fun _ => None)); [|constructor].
  intros id'. apply He.
Qed.
End refinement.

(** * The share *)

Section hiding.
Context {ST : Type} `{Storage ST} `{Host}.
Context (id : bytes).
Implicit Types (w : World ST) (s : ST).

(** Two storages that differ in the share of [id] at most, and worlds that look the
    same from outside. *)
Definition but_share s1 s2 : Prop := ∀ k, k ≠ share_key id → st_get s1 k = st_get s2 k.
Definition look_same w1 w2 : Prop := but_share (store w1) (store w2) ∧ events w1 = events w2.

(** The answer to a call. *)
Definition answer (out : outcome ST) : option (bytes + Z) :=
  match out with Return _ r => Some (inl r) | Revert c => Some (inr c) | Trap => None end.

Definition after w (out : outcome ST) : World ST := match out with Return w' _ => w' | _ => w end.

Definition same_out w1 w2 (o1 o2 : outcome ST) : Prop :=
  answer o1 = answer o2 ∧ look_same (after w1 o1) (after w2 o2).

Lemma reads_same s1 s2 k n : but_share s1 s2 → k ≠ share_key id → sget s1 k n = sget s2 k n.
Proof. intros Hs Hk. unfold sget. by rewrite Hs. Qed.

Lemma write_same s1 s2 k v : but_share s1 s2 → but_share (st_set s1 k v) (st_set s2 k v).
Proof.
  intros Hs k' Hk'. destruct (decide (k = k')) as [->|Hne]; [by rewrite !st_get_set_eq|].
  rewrite !st_get_set_ne by done. by apply Hs.
Qed.

Lemma emit_same w1 w2 ts d : look_same w1 w2 → look_same (emit w1 ts d) (emit w2 ts d).
Proof. intros [Hs He]. split; [done|]. cbn. by rewrite He. Qed.

Lemma sset_same w1 w2 k v : look_same w1 w2 → look_same (sset w1 k v) (sset w2 k v).
Proof. intros [Hs He]. split; [by apply write_same|done]. Qed.

Lemma require_same w1 w2 (b : bool) c k1 k2 :
  look_same w1 w2 → same_out w1 w2 k1 k2 → same_out w1 w2 (require b c k1) (require b c k2).
Proof. intros. by destruct b. Qed.

Lemma revert_same w1 w2 c : look_same w1 w2 → same_out w1 w2 (Revert c) (Revert c).
Proof. done. Qed.

Lemma return_same w1 w2 w1' w2' r : look_same w1' w2' → same_out w1 w2 (Return w1' r) (Return w2' r).
Proof. done. Qed.

(** Handlers that read no share: the same tests, the same writes, the same events. *)
Ltac hides Hw :=
  cbv zeta; rewrite ?(fun k n => reads_same _ _ (escrow_key k) n (proj1 Hw)) by discriminate;
  repeat first
    [ apply require_same; [done|] | apply revert_same; done
    | apply return_same; repeat (apply emit_same || apply sset_same); done | case_match ].

Lemma simple_hides env w1 w2 cd :
  look_same w1 w2 →
  same_out w1 w2 (create_escrow env w1 cd) (create_escrow env w2 cd)
  ∧ same_out w1 w2 (confirm_escrow env w1 cd) (confirm_escrow env w2 cd)
  ∧ same_out w1 w2 (mark_payment_sent env w1 cd) (mark_payment_sent env w2 cd)
  ∧ same_out w1 w2 (confirm_payment env w1 cd) (confirm_payment env w2 cd)
  ∧ same_out w1 w2 (dispute env w1 cd) (dispute env w2 cd)
  ∧ same_out w1 w2 (get_escrow w1 cd) (get_escrow w2 cd)
  ∧ same_out w1 w2 (verify_share_call w1 cd) (verify_share_call w2 cd).
Proof.
  intros Hw.
  split_and!; unfold create_escrow, confirm_escrow, mark_payment_sent, confirm_payment, dispute, get_escrow, verify_share_call.
  all: hides Hw.
Qed.

(** Of a resolution: the share of another escrow is the same, and a refusal does not
    depend on it. *)
Lemma resolve_hides env w1 w2 cd :
  look_same w1 w2 →
  slice 0 32 (call_data_copy 64 4 cd) ≠ id ∨ returns (resolve_dispute env w1 cd) = false →
  same_out w1 w2 (resolve_dispute env w1 cd) (resolve_dispute env w2 cd).
Proof.
  intros Hw Hid. unfold resolve_dispute in *. cbv zeta in *.
  rewrite <-(fun k n => reads_same _ _ (escrow_key k) n (proj1 Hw)) by discriminate.
  destruct (4 + 64 <=? length cd)%nat; [|done]. cbn [require] in *.
  destruct (sget (store w1) _ _) as [d|]; [|done].
  destruct (ed_state d =? STATE_DISPUTED); [|done]. cbn [require] in *.
  destruct (is_party env d); [|done]. cbn [require returns] in *.
  destruct Hid as [Hid|]; [|done].
  rewrite <-(reads_same (store w1) (store w2)) by (apply Hw || by intros ?%share_key_inj).
  apply return_same. by apply emit_same, sset_same.
Qed.

Lemma call_hides env w1 w2 cd :
  look_same w1 w2 →
  match requested cd with
  | Some (id', Resolve _) => id' ≠ id ∨ returns (call env w1 cd) = false
  | _ => True
  end →
  same_out w1 w2 (call env w1 cd) (call env w2 cd).
Proof.
  intros Hw. unfold call, requested. destruct (Nat.ltb_spec (length cd) 4) as [Hc|Hc].
  { rewrite (proj2 (Nat.leb_gt 4 (length cd))) by lia. done. }
  rewrite (proj2 (Nat.leb_le 4 (length cd))) by lia. cbn [require].
  pose proof (simple_hides env w1 w2 cd Hw) as S.
  repeat (case_bool_decide; [try (intros _; apply S)|]); [|done].
  intros Hid. apply resolve_hides; [done|]. destruct (Nat.leb_spec 68 (length cd)); [done|].
  right. unfold resolve_dispute. rewrite (proj2 (Nat.leb_gt _ _)) by (cbn; lia). done.
Qed.
(** The answers to a list of transactions. *)
Fixpoint answers w (txs : list (Env * bytes)) : list (option (bytes + Z)) :=
  match txs with
  | [] => []
  | (env, cd) :: txs' => answer (call env w cd) :: answers (transact w (env, cd)) txs'
  end.

Definition not_resolved (log : list (bytes * op)) : Prop := Forall (fun p => ∀ x, p.2 ≠ Resolve x) log.

Lemma transact_after w env cd : transact w (env, cd) = after w (call env w cd).
Proof. unfold transact. cbn. by destruct (call env w cd). Qed.

(** C31.  The share stays in the contract until a dispute is resolved: two
    contracts that differ in the stored share of one escrow give the same answers to
    the same transactions, and emit the same events, as long as no resolution
    of a dispute of this escrow is accepted. *)
Theorem share_hidden w1 w2 txs :
  look_same w1 w2 → not_resolved (accepted w1 txs id) →
  answers w1 txs = answers w2 txs
  ∧ events (contract_run w1 txs).2 = events (contract_run w2 txs).2.
Proof.
  revert w1 w2. induction txs as [|[env cd] txs IH]; intros w1 w2 Hw Hn.
  { split; [done|apply Hw]. }
  cbn [answers contract_run accepted] in *. apply Forall_app in Hn as [Hn Hn'].
  destruct (call_hides env w1 w2 cd Hw) as [Ha Hl].
  { destruct (requested cd) as [[id' []]|]; try done.
    destruct (decide (id' = id)) as [->|]; [right|by left].
    destruct (returns _) eqn:Er; [|done]. rewrite decide_True in Hn by done.
    apply Forall_cons in Hn as [Hn _]. by destruct (Hn to_buyer). }
  rewrite <-!transact_after in Hl. destruct (IH _ _ Hl Hn') as [E1 E2]. rewrite Ha, E1. split; [done|].
  destruct (contract_run (transact w1 _) txs), (contract_run (transact w2 _) txs), (requested cd); exact E2.
Qed.
End hiding.

(** * Who decides a dispute *)

Section resolution.
Context {ST : Type} `{Storage ST} `{Host}.
Implicit Types (w : World ST).

Lemma call_resolve env w cd id x :
  requested cd = Some (id, Resolve x) →
  call env w cd = resolve_dispute env w cd ∧ (68 ≤ length cd)%nat
  ∧ id = slice 0 32 (call_data_copy 64 4 cd) ∧ x = negb (b2z (call_data_copy 64 4 cd !!! 63%nat) =? 0).
Proof.
  unfold requested, call. destruct (Nat.ltb_spec (length cd) 4); [done|].
  rewrite (proj2 (Nat.leb_le 4 (length cd))) by lia. cbn [require].
  repeat (case_bool_decide; [case_match eqn:El; try done|]); [|done].
  apply Nat.leb_le in El. by intros [= <- <-].
Qed.

(** Either party decides its own dispute: whoever of the buyer and the seller asks
    for a resolution, in whoever's favour, is granted it, and the share is
    published.  Nobody else has a say. *)
Lemma either_party_resolves env w cd id x e :
  host_fills (ST := ST) → requested cd = Some (id, Resolve x) → escrow_at (store w) id (Some e) →
  e_status e = Disputed → party (caller env) e →
  ∃ w', call env w cd = Return w' [z2b 1]
    ∧ escrow_at (store w') id (Some (e <| e_status := Resolved x |>))
    ∧ events w' = events w ++ [mkEvent [topic "DisputeResolved(bytes32,address,bytes32)"; id;
                                        pad20 (if x then default [] (e_buyer e) else e_seller e)] (e_share e)].
Proof.
  intros fills Hr He Hst Hp. destruct (call_resolve env w cd id x Hr) as (-> & Hl & Hid & Hx).
  pose proof (resolve_implements fills env w cd Hl) as Hi. cbv zeta in Hi. rewrite <-Hid, <-Hx in Hi.
  specialize (Hi _ He). cbn [spec] in Hi. rewrite decide_True in Hi by done.
  destruct Hi as (w' & r & Ew & He' & _). exists w'. unfold resolve_dispute in *. cbv zeta in *.
  rewrite <-Hid, <-Hx in *. rewrite (proj2 (Nat.leb_le _ _)) in * by (cbn; lia). cbn [require] in *.
  rewrite (read_record fills _ _ e He) in *. rewrite (read_share fills _ _ e He) in *. cbn [default] in *.
  destruct (buffer_reads e) as (F1 & F4 & F5); [apply He|]. rewrite F4, F5 in *.
  destruct (has_buyer e) as (b & Eb & _); [apply He|congruence|]. rewrite Eb in *. cbn [default] in *.
  unfold require in *. repeat case_match; try done. all: by injection Ew as <- <-.
Qed.
End resolution.

(** * An escrow of two

    A host that reads zeros past the end of the call data and whose hash puts the
    length in front: enough to run the contract. *)

#[local] Instance escrow_host : Host := {|
  call_data_copy n off cd := fill n (drop (Z.to_nat off) cd);
  call_data_length n off cd := length_fill n _;
  keccak256 l := z2b (Z.of_nat (length l)) :: l;
  precompile1 input := None;
  host_word := to_be 32;
  host_amount := from_be;
|}.

Lemma log_fills : host_fills (ST := list (bytes * bytes)).
Proof. intros n v. reflexivity. Defined.

Definition seller : bytes := to_be 20 0x5E11.
Definition buyer : bytes := to_be 20 0xB0B.
Definition deal : bytes := to_be 32 7.
Definition the_commitment : bytes := to_be 32 101.
Definition the_key : bytes := to_be 32 102.
Definition share_a : bytes := to_be 32 103.
Definition share_b : bytes := to_be 32 104.

Definition from (who cd : bytes) : Env * bytes :=
  (mkEnv (to_be 32 1) (to_be 20 99) who 0 1 (fun _ _ _ => true), cd).
Definition creation (share : bytes) : Env * bytes :=
  from seller (sel "createEscrow(bytes32,bytes32,bytes32,bytes32)" ++ deal ++ the_commitment ++ the_key ++ share).
Definition step (who : bytes) (sg : string) : Env * bytes := from who (sel sg ++ deal).
Definition resolution (who : bytes) (x : Z) : Env * bytes :=
  from who (sel "resolveDispute(bytes32,bool)" ++ deal ++ to_be 32 x).

Definition empty_world : World (list (bytes * bytes)) := mkWorld [] 0 [] [].
Definition sale : list (Env * bytes) :=
  [creation share_a; step seller "confirmEscrow(bytes32)"; step buyer "confirmEscrow(bytes32)";
   step buyer "markPaymentSent(bytes32)"].
Definition contest : list (Env * bytes) := [step seller "dispute(bytes32)"; resolution buyer 1].

Definition the_escrow (st : status) : escrow :=
  mkEscrow st the_commitment the_key seller (Some buyer) share_a.

Lemma the_escrow_ok st : st ≠ Created → escrow_ok (the_escrow st).
Proof. intros Hst. by split. Defined.

(** The world in which the sale is disputed, with share [x]. *)
Definition disputed_with (share : bytes) : World (list (bytes * bytes)) :=
  (contract_run empty_world ([creation share] ++ tail sale ++ [step seller "dispute(bytes32)"])).2.

Example sale_goes_through :
  (contract_run empty_world (sale ++ contest)).1 = [true; false; true; true; true; true].
Proof. vm_compute. reflexivity. Qed.

Lemma escrow_refines_witness :
  (contract_run empty_world (sale ++ contest)).1 = (spec_run (sale ++ contest) (fun _ => None)).1
  ∧ escrow_at (store (contract_run empty_world (sale ++ contest)).2) deal
      ((spec_run (sale ++ contest) (fun _ => None)).2 deal).
Proof.
  destruct (escrow_refines log_fills empty_world (sale ++ contest) (fun _ => None)) as [H1 H2].
  - intros id. reflexivity.
  - split; [exact H1|apply H2].
Defined.

Lemma escrow_history_witness :
  ∃ x, escrow_at (store (contract_run empty_world (sale ++ contest)).2) deal x
    ∧ lifecycle (accepted empty_world (sale ++ contest) deal) x.
Proof. apply (escrow_history log_fills). intros k. reflexivity. Defined.

(** Two contracts with different shares, and one more attempt at the escrow. *)
Lemma share_hidden_witness :
  let w1 := disputed_with share_a in
  let w2 := w1 <| store := st_set (store w1) (share_key deal) share_b |> in
  answers w1 [step buyer "getEscrow(bytes32)"; resolution (to_be 20 5) 1]
  = answers w2 [step buyer "getEscrow(bytes32)"; resolution (to_be 20 5) 1].
Proof.
  intros w1 w2.
  refine (proj1 (share_hidden deal w1 w2 [step buyer "getEscrow(bytes32)"; resolution (to_be 20 5) 1] _ _)).
  - split; [|reflexivity]. intros k Hk. symmetry. apply st_get_set_ne. congruence.
  - vm_compute. constructor.
Defined.

Lemma either_party_resolves_witness :
  ∃ w', call (resolution seller 0).1 (disputed_with share_a) (resolution seller 0).2 = Return w' [z2b 1]
    ∧ escrow_at (store w') deal (Some (the_escrow (Resolved false)))
    ∧ events w' = events (disputed_with share_a)
        ++ [mkEvent [topic "DisputeResolved(bytes32,address,bytes32)"; deal; pad20 seller] share_a].
Proof.
  apply (either_party_resolves (resolution seller 0).1 (disputed_with share_a) (resolution seller 0).2
           deal false (the_escrow Disputed) log_fills).
  - vm_compute. reflexivity.
  - split; [by apply the_escrow_ok|]. split; vm_compute; reflexivity.
  - reflexivity.
  - right. reflexivity.
Defined.
