(* ===== verification/Merkle.v ===== *)
(** Trees of hashes: roots and paths of [2 ^ d] hashes of 32 bytes, and what a proof that climbs to
    the root shows of a leaf. *)
From stdpp Require Import base list sets.
From Stdlib Require Import ZArith Lia.
From S2P Require Import Prelude Bytes.

Section merkle.
Context (hash : bytes → bytes).
Hypothesis length_hash : ∀ x, length (hash x) = 32%nat.

(** One level up, the root of [2 ^ d] hashes, and the path from leaf [i], bottom up. *)
Fixpoint level (ls : list bytes) : list bytes :=
  match ls with
  | a :: b :: ls' => hash (a ++ b) :: level ls'
  | _ => []
  end.

Fixpoint root (d : nat) (ls : list bytes) : bytes :=
  match d with
  | O => ls !!! 0%nat
  | S d' => root d' (level ls)
  end.

Definition sibling (i : nat) : nat := if Nat.even i then S i else pred i.

Fixpoint path (d : nat) (ls : list bytes) (i : nat) : list bytes :=
  match d with
  | O => []
  | S d' => ls !!! sibling i :: path d' (level ls) (i / 2)
  end.

(** A node above [current], which is on the side of the index's parity, and its sibling. *)
Definition join (idx : nat) (current sib : bytes) : bytes :=
  if Nat.even idx then current ++ sib else sib ++ current.

Fixpoint climb (current : bytes) (idx : nat) (proof : list bytes) : bytes :=
  match proof with
  | [] => current
  | sib :: proof' => climb (hash (join idx current sib)) (idx / 2) proof'
  end.

(** What is hashed to build the tree, and to check a proof. *)
Fixpoint pairs (ls : list bytes) : list bytes :=
  match ls with
  | a :: b :: ls' => (a ++ b) :: pairs ls'
  | _ => []
  end.

Fixpoint tree_inputs (d : nat) (ls : list bytes) : list bytes :=
  match d with
  | O => []
  | S d' => pairs ls ++ tree_inputs d' (level ls)
  end.

Fixpoint climb_inputs (current : bytes) (idx : nat) (proof : list bytes) : list bytes :=
  match proof with
  | [] => []
  | sib :: proof' =>
      join idx current sib :: climb_inputs (hash (join idx current sib)) (idx / 2) proof'
  end.

Lemma level_pairs ls : level ls = hash <$> pairs ls.
Proof.
  revert ls. fix IH 1. intros [|a [|b ls]]; [done..|]. cbn. by rewrite IH.
Qed.

Lemma pairs_lookup ls n i :
  length ls = (2 * n)%nat → (i < n)%nat → pairs ls !! i = Some (ls !!! (2 * i)%nat ++ ls !!! S (2 * i)).
Proof.
  revert ls n. induction i as [|i IH]; intros [|a [|b ls]] n Hl Hi; cbn in Hl; try lia; [done|].
  transitivity (pairs ls !! i); [done|]. rewrite (IH ls (pred n)) by lia.
  replace (2 * S i)%nat with (S (S (2 * i))) by lia. done.
Qed.

Lemma length_pairs ls n : length ls = (2 * n)%nat → length (pairs ls) = n.
Proof.
  revert ls. induction n as [|n IH]; intros [|a [|b ls]] Hl; cbn in *; try lia. rewrite IH; lia.
Qed.

Lemma length_level ls n : length ls = (2 * n)%nat → length (level ls) = n.
Proof. intros. rewrite level_pairs, length_fmap. by apply length_pairs. Qed.

Lemma level_lengths ls : Forall (fun l => length l = 32%nat) (level ls).
Proof. rewrite level_pairs. apply Forall_fmap, Forall_true. intros. apply length_hash. Qed.

Lemma pair_of ls n i :
  length ls = (2 * n)%nat → (i < 2 * n)%nat → pairs ls !! (i / 2)%nat = Some (join i (ls !!! i) (ls !!! sibling i)).
Proof.
  intros Hl Hi. assert (i / 2 < n)%nat by (apply Nat.Div0.div_lt_upper_bound; lia).
  rewrite (pairs_lookup _ n) by lia. unfold sibling.
  destruct (Nat.even i) eqn:Ev.
  - apply Nat.even_spec in Ev as [k ->]. replace (2 * k / 2)%nat with k in * by (symmetry; rewrite Nat.mul_comm; apply Nat.div_mul; lia).
    unfold join. by rewrite Nat.even_mul.
  - destruct (proj1 (Nat.odd_spec i)) as [k ->]; [unfold Nat.odd; by rewrite Ev|].
    replace ((2 * k + 1) / 2)%nat with k in * by (symmetry; rewrite Nat.mul_comm; rewrite Nat.div_add_l; cbn; lia).
    replace (pred (2 * k + 1)) with (2 * k)%nat by lia.
    unfold join. rewrite Nat.even_add, Nat.even_mul. cbn.
    by replace (k + (k + 0) + 1)%nat with (S (k + (k + 0))) by lia.
Qed.

Implicit Types (ls proof : list bytes).
Local Abbreviation hashes := (Forall (fun l : bytes => length l = 32%nat)).

Lemma pow_S d : (2 ^ S d)%nat = (2 * 2 ^ d)%nat.
Proof. apply Nat.pow_succ_r'. Qed.

Lemma level_at ls n i :
  length ls = (2 * n)%nat → (i < 2 * n)%nat →
  level ls !!! (i / 2)%nat = hash (join i (ls !!! i) (ls !!! sibling i)).
Proof.
  intros Hl Hi. apply list_lookup_total_correct.
  by rewrite level_pairs, list_lookup_fmap, (pair_of _ n) by done.
Qed.

Lemma sibling_lt n i : (i < 2 * n)%nat → (sibling i < 2 * n)%nat.
Proof.
  intros Hi. unfold sibling. destruct (Nat.even i) eqn:Ev; [|lia].
  apply Nat.even_spec in Ev as [k ->]. lia.
Qed.

Lemma nth_hash ls i : hashes ls → (i < length ls)%nat → length (ls !!! i) = 32%nat.
Proof. intros Hf Hi. rewrite Forall_forall in Hf. apply Hf. by apply list_elem_of_lookup_total_2. Qed.

Lemma climb_path d ls i :
  length ls = (2 ^ d)%nat → hashes ls → (i < 2 ^ d)%nat → climb (ls !!! i) i (path d ls i) = root d ls.
Proof.
  revert ls i. induction d as [|d IH]; intros ls i Hl Hf Hi.
  { replace i with 0%nat by (cbn in Hi; lia). done. }
  rewrite pow_S in *. cbn [climb path root]. rewrite <-(level_at _ (2 ^ d)) by done.
  apply IH; [by apply length_level|apply level_lengths|]. apply Nat.Div0.div_lt_upper_bound. lia.
Qed.

(** The low bits of the index are all that counts. *)
Lemma climb_mod h i proof :
  climb h (i mod 2 ^ length proof) proof = climb h i proof
  ∧ climb_inputs h (i mod 2 ^ length proof) proof = climb_inputs h i proof.
Proof.
  revert h i. induction proof as [|sib proof IH]; intros h i; [done|]. cbn [climb climb_inputs length].
  rewrite pow_S, Nat.Div0.mod_mul_r.
  assert (∀ a b : nat, (2 * a + b mod 2)%nat / 2 = a)%nat as E.
  { intros a b. pose proof (Nat.mod_upper_bound b 2). rewrite Nat.mul_comm, Nat.div_add_l by lia.
    rewrite (Nat.div_small (b mod 2)) by lia. lia. }
  rewrite (Nat.add_comm (i mod 2)), E. unfold join.
  assert (Nat.even (2 * ((i / 2) mod 2 ^ length proof) + i mod 2) = Nat.even i) as ->.
  2: { fold (join i h sib). by destruct (IH (hash (join i h sib)) (i / 2)%nat) as [-> ->]. }
  transitivity (Nat.even (2 * (i / 2) + i mod 2)); [|by rewrite <-Nat.div_mod_eq].
  by rewrite !Nat.even_add, !Nat.even_mul.
Qed.

Definition no_collision (xs ys : list bytes) : Prop := ∀ x y, x ∈ xs → y ∈ ys → hash x = hash y → x = y.

Lemma join_inj i a b a' b' :
  length a = 32%nat → length b = 32%nat → length a' = 32%nat → length b' = 32%nat →
  join i a b = join i a' b' → a = a' ∧ b = b'.
Proof.
  unfold join. intros.
  destruct (Nat.even i); match goal with E : _ ++ _ = _ ++ _ |- _ => apply app_inj_1 in E; [naive_solver|lia] end.
Qed.

Lemma length_join i a b : length a = 32%nat → length b = 32%nat → length (join i a b) = 64%nat.
Proof. intros Ha Hb. unfold join. destruct (Nat.even i); rewrite length_app; lia. Qed.

Lemma no_collision_check xs ys :
  forallb (fun x => forallb (fun y => bool_decide (x = y) || negb (bool_decide (hash x = hash y))) ys) xs = true →
  no_collision xs ys.
Proof.
  intros E x y Hx Hy Eh. rewrite forallb_forall in E.
  specialize (E x (proj1 (list_elem_of_In _ _) Hx)). rewrite forallb_forall in E.
  specialize (E y (proj1 (list_elem_of_In _ _) Hy)). apply orb_true_iff in E as [E|E].
  - by apply bool_decide_eq_true in E.
  - by rewrite bool_decide_true in E.
Defined.

(** A proof of the right length is the path. *)
Lemma climb_inv d ls h i proof :
  length ls = (2 ^ d)%nat → hashes ls → hashes proof → length h = 32%nat → length proof = d →
  (i < 2 ^ d)%nat → no_collision (climb_inputs h i proof) (tree_inputs d ls) →
  climb h i proof = root d ls → h = ls !!! i ∧ proof = path d ls i.
Proof.
  revert ls h i proof.
  induction d as [|d IH]; intros ls h i [|sib proof] Hl Hf Hp Hh Hn Hi Hc E; try done.
  { replace i with 0%nat by (cbn in Hi; lia). done. }
  rewrite pow_S in *. apply Forall_cons in Hp as [Hs Hp]. cbn [climb root path tree_inputs climb_inputs] in *.
  destruct (IH (level ls) (hash (join i h sib)) (i / 2)%nat proof) as [E1 E2]; try done.
  - by apply length_level.
  - apply level_lengths.
  - by injection Hn.
  - apply Nat.Div0.div_lt_upper_bound. lia.
  - intros x y Hx Hy. apply Hc; set_solver.
  - rewrite (level_at _ (2 ^ d)) in E1 by done. apply Hc in E1; [|set_solver|].
    + apply join_inj in E1 as [-> ->]; auto using nth_hash.
      * by rewrite <-E2.
      * apply nth_hash; [done|]. lia.
      * apply nth_hash; [done|]. rewrite Hl. by apply sibling_lt.
    + apply elem_of_app. left. eapply list_elem_of_lookup_2. by apply (pair_of _ (2 ^ d)).
Qed.

(** Longer proofs climb into the leaves, shorter ones stop below the root. *)
Lemma climb_app h i p1 p2 : climb h i (p1 ++ p2) = climb (climb h i p1) (i / 2 ^ length p1) p2.
Proof.
  revert h i. induction p1 as [|sib p1 IH]; intros h i; [by rewrite Nat.div_1_r|].
  cbn [app climb length]. by rewrite IH, Nat.Div0.div_div, pow_S.
Qed.

Lemma climb_inputs_app h i p1 p2 :
  climb_inputs h i (p1 ++ p2) = climb_inputs h i p1 ++ climb_inputs (climb h i p1) (i / 2 ^ length p1) p2.
Proof.
  revert h i. induction p1 as [|sib p1 IH]; intros h i; [by rewrite Nat.div_1_r|].
  cbn [app climb climb_inputs length]. by rewrite IH, Nat.Div0.div_div, pow_S.
Qed.

Lemma climb_hashed h i proof :
  length h = 32%nat → hashes proof → proof ≠ [] →
  ∃ x, x ∈ climb_inputs h i proof ∧ climb h i proof = hash x ∧ length x = 64%nat.
Proof.
  revert h i. induction proof as [|sib proof IH]; intros h i Hh Hp; [done|]. intros _.
  apply Forall_cons in Hp as [Hs Hp]. cbn [climb climb_inputs].
  destruct proof as [|sib' proof].
  - exists (join i h sib). split_and!; [set_solver|done|by apply length_join].
  - destruct (IH (hash (join i h sib)) (i / 2)%nat) as (x & Hx & E); [apply length_hash|done|done|].
    exists x. split; [set_solver|done].
Qed.

Fixpoint up (k : nat) ls : list bytes := match k with O => ls | S k' => up k' (level ls) end.

Lemma root_up k n ls : root (k + n) ls = root n (up k ls).
Proof. revert ls. induction k as [|k IH]; intros ls; [done|]. apply IH. Qed.

Lemma inputs_up k n ls : tree_inputs n (up k ls) ⊆ tree_inputs (k + n) ls.
Proof.
  revert ls. induction k as [|k IH]; intros ls; [done|]. cbn [up Nat.add tree_inputs].
  intros x Hx. apply elem_of_app. right. by apply IH.
Qed.

Lemma up_ok k n ls :
  length ls = (2 ^ (k + n))%nat → hashes ls → length (up k ls) = (2 ^ n)%nat ∧ hashes (up k ls).
Proof.
  revert ls. induction k as [|k IH]; intros ls Hl Hf; [done|]. cbn [Nat.add] in Hl. rewrite pow_S in Hl.
  apply IH; [by apply length_level|apply level_lengths].
Qed.

Lemma up_hashed k n ls j :
  length ls = (2 ^ (S k + n))%nat → hashes ls → (j < 2 ^ n)%nat →
  ∃ y, y ∈ tree_inputs (S k + n) ls ∧ up (S k) ls !!! j = hash y ∧ length y = 64%nat.
Proof.
  revert ls. induction k as [|k IH]; intros ls Hl Hf Hj; cbn [Nat.add] in *; rewrite pow_S in Hl.
  - assert (2 * j < 2 * 2 ^ n)%nat as Hj' by lia.
    assert ((2 * j) / 2 = j)%nat as Ej by (rewrite Nat.mul_comm; by apply Nat.div_mul).
    exists (join (2 * j) (ls !!! (2 * j)%nat) (ls !!! sibling (2 * j))). split_and!.
    + apply elem_of_app. left. eapply list_elem_of_lookup_2. by apply (pair_of _ (2 ^ n)).
    + cbn [up]. rewrite <-(level_at _ (2 ^ n)) by done. by rewrite Ej.
    + apply length_join; apply nth_hash; rewrite ?Hl; auto using sibling_lt.
  - destruct (IH (level ls)) as (y & Hy & E); [by apply length_level|apply level_lengths|done|].
    exists y. split; [|done]. cbn [tree_inputs]. apply elem_of_app. by right.
Qed.

(** * What a proof shows *)

(** The leaves are the hashes of data, none of it as long as an inner node, or padding. *)
Section leaves.
Context (d : nat) (data : list (option bytes)) (padding : bytes).
Hypothesis data_count : length data = (2 ^ d)%nat.
Hypothesis data_short : ∀ x, Some x ∈ data → length x ≠ 64%nat.
Hypothesis padding_32 : length padding = 32%nat.

Definition leaf_of (x : option bytes) : bytes := from_option hash padding x.

Definition leaves : list bytes := leaf_of <$> data.

(** All that is hashed for the root. *)
Definition committed_inputs : list bytes := tree_inputs d leaves ++ omap id data.

Lemma leaves_length : length leaves = (2 ^ d)%nat.
Proof. unfold leaves. by rewrite length_fmap. Qed.

Lemma leaves_hashes : hashes leaves.
Proof.
  unfold leaves. apply Forall_fmap, Forall_true. intros [x|]; [apply length_hash|exact padding_32].
Qed.

Lemma leaf_at i : (i < 2 ^ d)%nat → ∃ x, data !! i = Some x ∧ leaves !!! i = leaf_of x.
Proof.
  intros Hi. destruct (lookup_lt_is_Some_2 data i) as [x Hx]; [lia|]. exists x. split; [done|].
  apply list_lookup_total_correct. unfold leaves. by rewrite list_lookup_fmap, Hx.
Qed.

Lemma data_input i x : data !! i = Some (Some x) → x ∈ committed_inputs ∧ length x ≠ 64%nat.
Proof.
  intros Hx%list_elem_of_lookup_2. split; [|by apply data_short]. apply elem_of_app. right.
  apply list_elem_of_omap. by exists (Some x).
Qed.

Lemma width_pos : (2 ^ d ≠ 0)%nat.
Proof. by apply Nat.pow_nonzero. Qed.

(** Nothing that is hashed on either side collides, or gives the padding where there is any. *)
Definition collision_free (x : bytes) (index : nat) (proof : list bytes) : Prop :=
  no_collision (x :: climb_inputs (hash x) index proof) committed_inputs ∧
  (None ∈ data → ∀ y, y ∈ x :: climb_inputs (hash x) index proof → hash y ≠ padding).

(** A proof that reaches the root has a sibling for each level. *)
Lemma proof_length x index proof :
  length x ≠ 64%nat → hashes proof → collision_free x index proof →
  climb (hash x) index proof = root d leaves → length proof = d.
Proof.
  intros Hv Hp [Hc Hpad] E. set (h := hash x) in *. set (n := length proof).
  destruct (lt_eq_lt_dec n d) as [[Hn|Hn]|Hn]; [|done|]; exfalso.
  - destruct (climb_mod h index proof) as [E1 E2]. fold n in E1, E2. pose proof leaves_length as Hl.
    assert (d = S (d - n - 1) + n)%nat as Ed by lia. remember (d - n - 1)%nat as k. rewrite Ed in Hl, E.
    destruct (up_ok (S k) n leaves Hl leaves_hashes) as [Hlu Hfu].
    assert (index mod 2 ^ n < 2 ^ n)%nat as Hi by (by apply Nat.mod_upper_bound, Nat.pow_nonzero).
    rewrite root_up, <-E1 in E. destruct (climb_inv n (up (S k) leaves) h (index mod 2 ^ n) proof) as [Eh _];
      auto; [apply length_hash| |].
    + rewrite E2. intros a b Ha Hb. apply Hc; [set_solver|]. apply elem_of_app. left.
      rewrite Ed. by apply inputs_up.
    + destruct (up_hashed k n leaves (index mod 2 ^ n) Hl leaves_hashes Hi) as (y & Hy & Ey & Hly).
      rewrite Ey in Eh. apply Hc in Eh; [|set_solver|apply elem_of_app; left; by rewrite Ed]. by subst.
  - set (p1 := take (n - d) proof). set (p2 := drop (n - d) proof).
    assert (proof = p1 ++ p2) as Ep by (symmetry; apply take_drop).
    assert (length p1 = n - d ∧ length p2 = d)%nat as [Hl1 Hl2].
    { unfold p1, p2. rewrite length_take, length_drop. fold n. lia. }
    rewrite Ep in *. rewrite climb_app in E. rewrite climb_inputs_app in Hc, Hpad. apply Forall_app in Hp as [Hp1 Hp2].
    destruct (climb_hashed h index p1) as (y & Hy & Ey & Hly);
      [apply length_hash|done|by intros E0; rewrite E0 in Hl1; cbn in Hl1; lia|].
    set (h1 := climb h index p1) in *. set (j := (index / 2 ^ length p1)%nat) in *.
    destruct (climb_mod h1 j p2) as [E1 E2]. rewrite Hl2 in E1, E2. rewrite <-E1 in E.
    assert (j mod 2 ^ d < 2 ^ d)%nat as Hj by (apply Nat.mod_upper_bound, width_pos).
    destruct (climb_inv d leaves h1 (j mod 2 ^ d) p2) as [Eh _];
      auto using leaves_length, leaves_hashes; [by rewrite Ey; apply length_hash| |].
    + rewrite E2. intros a b Ha Hb. apply Hc; [set_solver|]. apply elem_of_app. by left.
    + destruct (leaf_at _ Hj) as (z & Hz & Ez). rewrite Ez, Ey in Eh. destruct z as [z|]; cbn in Eh.
      * destruct (data_input _ _ Hz) as [Hin Hlz]. apply Hc in Eh; [by rewrite Eh in Hly|set_solver|done].
      * apply Hpad in Eh; [done|by eapply list_elem_of_lookup_2|set_solver].
Qed.

Lemma path_length ls i : length (path d ls i) = d.
Proof. clear. revert ls i. induction d as [|n IH]; intros; cbn; [done|]. by rewrite IH. Qed.

Lemma path_hashes ls i : length ls = (2 ^ d)%nat → (i < 2 ^ d)%nat → hashes ls → hashes (path d ls i).
Proof.
  clear - length_hash. revert ls i. induction d as [|n IH]; intros ls i Hl Hi Hf; cbn [path]; [done|]. rewrite pow_S in *. apply Forall_cons. split.
  - apply nth_hash; [done|]. rewrite Hl. by apply sibling_lt.
  - apply IH; [by apply length_level|apply Nat.Div0.div_lt_upper_bound; lia|apply level_lengths].
Qed.

(** A proof reaches the root exactly when it is the path of the leaf it starts from; the index
    counts modulo the number of leaves. *)
Lemma opens_exactly x index proof :
  length x ≠ 64%nat → hashes proof → collision_free x index proof →
  let i := (index mod 2 ^ d)%nat in
  climb (hash x) index proof = root d leaves ↔ data !! i = Some (Some x) ∧ proof = path d leaves i.
Proof.
  intros Hv Hp Hcf i. destruct Hcf as [Hc Hpad] eqn:Ecf. clear Ecf.
  assert (i < 2 ^ d)%nat as Hi by (apply Nat.mod_upper_bound, width_pos). split.
  - intros E. assert (length proof = d) as Hn by (by apply (proof_length x index)).
    destruct (climb_mod (hash x) index proof) as [E1 E2]. rewrite Hn in E1, E2. fold i in E1, E2.
    destruct (climb_inv d leaves (hash x) i proof) as [Eh Ep];
      auto using leaves_length, leaves_hashes.
    + rewrite E2. intros a b Ha Hb. apply Hc; [set_solver|]. apply elem_of_app. by left.
    + by rewrite E1.
    + split; [|done]. destruct (leaf_at i Hi) as ([z|] & Hz & Ez); rewrite Ez in Eh; cbn in Eh.
      * destruct (data_input _ _ Hz) as [Hin _]. apply Hc in Eh; [by subst|set_solver|done].
      * apply Hpad in Eh; [done|by eapply list_elem_of_lookup_2|set_solver].
  - intros [Hx ->]. rewrite <-(climb_path d leaves i) by auto using leaves_length, leaves_hashes.
    destruct (leaf_at i Hi) as (z & Hz & ->). rewrite Hx in Hz. injection Hz as <-. cbn.
    destruct (climb_mod (hash x) index (path d leaves i)) as [E _]. rewrite path_length in E. by rewrite <-E.
Qed.
End leaves.
End merkle.
