(* ===== verification/EscrowShare.v ===== *)
(** The share verification of the escrow contract: a proof is accepted exactly when it
    is the path of a committed share, calls in the standard encoding are refused, and the
    field multiplication is the product of polynomials modulo the field's. *)
From stdpp Require Import base list strings sets.
From Stdlib Require Import ZArith Lia Init.Byte.
From coqutil Require Import Byte.
From S2P Require Import Prelude Bytes RevHost Merkle Escrow EscrowSafe.

Local Open Scope Z_scope.

(** * Trees of hashes *)

Section merkle.
Context `{Host}.

Lemma length_hash x : length (hash x) = 32%nat.
Proof. apply length_fill. Qed.

Local Abbreviation hashes := (Forall (fun l : bytes => length l = 32%nat)).

(** The two halves of a node. *)
Lemma combine_app idx a b :
  length a = 32%nat → length b = 32%nat → combine idx a b = join idx a b.
Proof.
  intros Ha Hb. unfold combine, join.
  assert (∀ x y : bytes, length x = 32%nat → length y = 32%nat → put 32 y (put 0 x (zeros 64)) = x ++ y) as E.
  { intros x y Hx Hy. unfold put. rewrite take_0. cbn [app]. rewrite Hx. cbn [drop zeros replicate Nat.add].
    rewrite take_app_length' by lia. rewrite drop_app_ge by lia. rewrite Hx, Hy. cbn [drop zeros replicate Nat.add Nat.sub].
    by rewrite app_nil_r. }
  destruct (Nat.even idx); by apply E.
Qed.

(** The contract climbs as in any such tree. *)
Lemma climb_node h i proof : length h = 32%nat → hashes proof → Escrow.climb h i proof = Merkle.climb hash h i proof.
Proof.
  revert h i. induction proof as [|sib proof IH]; intros h i Hh Hp; [done|]. apply Forall_cons in Hp as [Hs Hp].
  cbn. rewrite combine_app by done. apply IH; [apply length_hash|done].
Qed.

(** * Shares *)

Definition is_share (values : list Z) : Prop := length values = 8%nat ∧ Forall (fits 32) values.

Lemma share_bytes_concat values :
  length values = 8%nat → share_bytes values = mjoin (BF32_to_le_bytes <$> values).
Proof.
  intros Hl. do 9 (destruct values as [|? values]; try done).
Qed.

Lemma join_le_inj (v v' : list Z) :
  length v = length v' → Forall (fits 32) v → Forall (fits 32) v' →
  mjoin (BF32_to_le_bytes <$> v) = mjoin (BF32_to_le_bytes <$> v') → v = v'.
Proof.
  revert v'. induction v as [|x v IH]; intros [|x' v'] Hl Hf Hf'; try done.
  apply Forall_cons in Hf as [Hx Hf]. apply Forall_cons in Hf' as [Hx' Hf'].
  cbn [fmap list_fmap mjoin list_join]. intros E. apply app_inj_1 in E as [E1 E2].
  - f_equal; [|by apply IH; [injection Hl|..]].
    apply (f_equal from_le) in E1. unfold BF32_to_le_bytes in E1.
    rewrite !from_le_to_le, !wrap_small in E1 by done. done.
  - unfold BF32_to_le_bytes. by rewrite !length_to_le.
Qed.

Lemma share_bytes_inj v v' : is_share v → is_share v' → share_bytes v = share_bytes v' → v = v'.
Proof.
  intros [Hl Hf] [Hl' Hf']. rewrite !share_bytes_concat by done. apply join_le_inj; [congruence|done..].
Qed.

Lemma length_share_bytes values : length values = 8%nat → length (share_bytes values) = 32%nat.
Proof.
  intros Hl. rewrite share_bytes_concat by done. do 9 (destruct values as [|? values]; try done).
Qed.

Section committed.
Context (d : nat) (shares : list (list Z)).
Hypothesis shares_count : length shares = (2 ^ d)%nat.
Hypothesis shares_ok : Forall is_share shares.

Let data : list (option bytes) := (fun s => Some (share_bytes s)) <$> shares.

Definition commitment_of : bytes := root hash d (leaves hash data (zeros 32)).
Definition share_path (i : nat) : list bytes := path hash d (leaves hash data (zeros 32)) i.

(** All that is hashed to commit to the shares. *)
Definition commitment_inputs : list bytes := committed_inputs hash d data (zeros 32).

Lemma pow_pos : (2 ^ d ≠ 0)%nat.
Proof. by apply Nat.pow_nonzero. Qed.

Lemma data_at i s : shares !! i = Some s → data !! i = Some (Some (share_bytes s)).
Proof. intros Hs. unfold data. by rewrite list_lookup_fmap, Hs. Qed.

(** A proof shows what was committed to: for a commitment to [2 ^ d] shares,
    [verify_share] accepts values with a proof exactly when the values are the share at
    the index and the proof is its path, of length [d], as long as no two
    different inputs of the hashes computed on either side collide.  The index counts
    modulo [2 ^ d]. *)
Lemma verify_share_exact values index proof :
  is_share values → hashes proof →
  no_collision hash (share_bytes values :: climb_inputs hash (hash_share_values values) index proof) commitment_inputs →
  verify_share commitment_of index values proof = true
  ↔ values = shares !!! (index mod 2 ^ d)%nat ∧ proof = share_path (index mod 2 ^ d).
Proof.
  intros Hv Hp Hc. assert (index mod 2 ^ d < 2 ^ d)%nat as Hi by (apply Nat.mod_upper_bound, pow_pos).
  unfold verify_share, verify_merkle_proof_slice. rewrite bool_decide_eq_true.
  rewrite climb_node by (apply length_hash || done). unfold hash_share_values at 1.
  rewrite (opens_exactly hash length_hash d data (zeros 32)); [|by unfold data; rewrite length_fmap| | |by rewrite length_share_bytes by apply Hv|done|].
  - rewrite Forall_forall in shares_ok. destruct (lookup_lt_is_Some_2 shares (index mod 2 ^ d)) as [s Hs]; [lia|].
    rewrite (data_at _ s Hs), (list_lookup_total_correct _ _ _ Hs). split; [|by intros [-> ->]]. intros [[= E] ->].
    split; [|done]. symmetry. apply share_bytes_inj; [by eapply shares_ok, list_elem_of_lookup_2|done|done].
  - intros x Hx. unfold data in Hx. apply list_elem_of_fmap in Hx as (s & [= ->] & Hs). rewrite Forall_forall in shares_ok.
    by rewrite length_share_bytes by (by apply shares_ok).
  - apply length_zeros.
  - split; [exact Hc|]. intros Hn. unfold data in Hn. by apply list_elem_of_fmap in Hn as (? & ? & _).
Qed.
End committed.
End merkle.

(** * Calls in the standard encoding *)

Section encoding.
Context {ST : Type} `{Storage ST} `{Host}.

(** The host copies what there is into the zeroed buffer. *)
Definition host_copies : Prop := ∀ n off cd, call_data_copy n off cd = fill n (drop (Z.to_nat off) cd).

(** The arguments of [verifyShare(bytes32,uint8,bytes32[8],bytes32[])] as the contract
    ABI encodes them: the dynamic array's place in the head holds its offset. *)
Definition abi_verify_share (commitment : bytes) (index : Z) (values : list Z) (proof : list bytes) : bytes :=
  sel "verifyShare(bytes32,uint8,bytes32[8],bytes32[])"
  ++ commitment ++ to_be 32 index ++ mjoin (to_be 32 <$> values) ++ to_be 32 (32 + 32 + 256 + 32)
  ++ to_be 32 (Z.of_nat (length proof)) ++ mjoin proof.

Lemma length_sel sg : length (sel sg) = 4%nat.
Proof. unfold sel. rewrite length_slice; [done|]. rewrite length_fill. lia. Qed.

Lemma length_words (values : list Z) : length (mjoin (to_be 32 <$> values)) = (length values * 32)%nat.
Proof.
  induction values as [|x values IH]; [done|].
  change (length (to_be 32 x ++ mjoin (to_be 32 <$> values)) = (32 + length values * 32)%nat).
  by rewrite length_app, length_to_be, IH.
Qed.

(** No share verifies through a standard client: the contract takes the word at the
    array's place in the head for the length of the proof, but the ABI has the offset of
    the array there, 352, so every call in the standard encoding is
    refused as too long a proof. *)
Lemma standard_calls_refused (w : World ST) commitment index values proof :
  host_copies → length commitment = 32%nat → length values = 8%nat →
  verify_share_call w (abi_verify_share commitment index values proof) = Revert 8.
Proof.
  intros Hc Hl Hv. unfold verify_share_call. set (cd := abi_verify_share commitment index values proof).
  assert (drop 324 cd = to_be 32 352 ++ to_be 32 (Z.of_nat (length proof)) ++ mjoin proof) as E.
  { set (front := sel "verifyShare(bytes32,uint8,bytes32[8],bytes32[])"
                  ++ commitment ++ to_be 32 index ++ mjoin (to_be 32 <$> values)).
    assert (length front = 324%nat) as Hf.
    { unfold front. by rewrite !length_app, length_sel, length_to_be, length_words, Hl, Hv. }
    assert (cd = front ++ to_be 32 352 ++ to_be 32 (Z.of_nat (length proof)) ++ mjoin proof) as ->.
    { unfold cd, abi_verify_share, front. by rewrite <-!app_assoc. }
    by apply drop_app_length'. }
  assert (388 ≤ length cd)%nat as Hcd.
  { assert (64 ≤ length (drop 324 cd))%nat as Hd by (rewrite E, !length_app, !length_to_be; lia).
    rewrite length_drop in Hd. lia. }
  replace (4 + 32 + 32 + 256 + 32 + 32 <=? length cd)%nat with true by (symmetry; apply Nat.leb_le; lia).
  cbn [require]. cbv zeta. rewrite (Hc 32%nat). change (Z.to_nat (4 + 320)) with 324%nat. rewrite E.
  rewrite fill_app by apply length_to_be. unfold word_u32.
  change 28%nat with (32 - 4)%nat. rewrite from_be_low by lia. done.
Qed.
End encoding.

(** * Multiplication in GF(2^32) *)

(** The product of polynomials over GF(2), bit [i] the coefficient of [x^i], and
    congruence modulo the field's polynomial. *)
Fixpoint clmul (n : nat) (a b : Z) : Z :=
  match n with
  | O => 0
  | S n' => Z.lxor (if Z.odd b then a else 0) (2 * clmul n' a (Z.div2 b))
  end.

Definition modulus : Z := 2 ^ 32 + IRREDUCIBLE.

Definition cong (x y : Z) : Prop := ∃ q, Z.lxor x y = clmul 32 modulus q.

Lemma lxor_swap a b c d : Z.lxor (Z.lxor a b) (Z.lxor c d) = Z.lxor (Z.lxor a c) (Z.lxor b d).
Proof. rewrite !Z.lxor_assoc. f_equal. rewrite <-!Z.lxor_assoc. f_equal. apply Z.lxor_comm. Qed.

Lemma double_lxor a b : 2 * Z.lxor a b = Z.lxor (2 * a) (2 * b).
Proof.
  assert (∀ x, 2 * x = Z.shiftl x 1) as E by (intros x; rewrite Z.shiftl_mul_pow2; lia).
  rewrite !E. apply Z.shiftl_lxor.
Qed.

Lemma clmul_0_r n a : clmul n a 0 = 0.
Proof. induction n as [|n IH]; [done|]. cbn. by rewrite IH. Qed.

Lemma clmul_double n a b : clmul n (2 * a) b = 2 * clmul n a b.
Proof.
  revert b. induction n as [|n IH]; intros b; [done|]. cbn [clmul].
  rewrite IH, double_lxor. by destruct (Z.odd b).
Qed.

Lemma clmul_lxor_l n a c b : clmul n (Z.lxor a c) b = Z.lxor (clmul n a b) (clmul n c b).
Proof.
  revert b. induction n as [|n IH]; intros b; [done|]. cbn [clmul].
  rewrite IH, double_lxor, lxor_swap. by destruct (Z.odd b).
Qed.

Lemma clmul_lxor_r n a b c : clmul n a (Z.lxor b c) = Z.lxor (clmul n a b) (clmul n a c).
Proof.
  revert b c. induction n as [|n IH]; intros b c; [done|]. cbn [clmul].
  assert (Z.div2 (Z.lxor b c) = Z.lxor (Z.div2 b) (Z.div2 c)) as ->.
  { rewrite !Z.div2_spec. apply Z.shiftr_lxor. }
  rewrite IH, double_lxor, lxor_swap. f_equal.
  rewrite <-!Z.bit0_odd, Z.lxor_spec. destruct (Z.testbit b 0), (Z.testbit c 0); cbn;
    by rewrite ?Z.lxor_nilpotent, ?Z.lxor_0_r, ?Z.lxor_0_l.
Qed.

Lemma div2_fits n b : 0 ≤ b < 2 ^ Z.of_nat (S n) → 0 ≤ Z.div2 b < 2 ^ Z.of_nat n.
Proof.
  rewrite Nat2Z.inj_succ, Z.pow_succ_r, Z.div2_div by lia. intros Hb. split; [apply Z.div_pos; lia|].
  apply Z.div_lt_upper_bound; lia.
Qed.

(** Steps past the last bit add nothing. *)
Lemma clmul_more n k a b : 0 ≤ b < 2 ^ Z.of_nat n → clmul (n + k) a b = clmul n a b.
Proof.
  revert b. induction n as [|n IH]; intros b Hb; cbn [Nat.add clmul].
  - replace b with 0 by (cbn in Hb; lia). apply clmul_0_r.
  - by rewrite IH by (by apply div2_fits).
Qed.

(** The remainder of the division is congruent to what is divided. *)
Lemma cong_refl x : cong x x.
Proof. exists 0. by rewrite Z.lxor_nilpotent, clmul_0_r. Qed.

Lemma cong_trans x y z : cong x y → cong y z → cong x z.
Proof.
  intros [q E] [q' E']. exists (Z.lxor q q'). rewrite clmul_lxor_r, <-E, <-E'.
  rewrite Z.lxor_assoc. f_equal. by rewrite <-Z.lxor_assoc, Z.lxor_nilpotent, Z.lxor_0_l.
Qed.

Lemma fits_shiftr x : 0 ≤ x → fits 32 x ↔ Z.shiftr x 32 = 0.
Proof.
  intros Hx. rewrite Z.shiftr_div_pow2 by lia. rewrite Z.div_small_iff by lia. unfold fits. lia.
Qed.

Lemma fits_lxor x y : fits 32 x → fits 32 y → fits 32 (Z.lxor x y).
Proof.
  intros Hx Hy. assert (0 ≤ Z.lxor x y) by (apply Z.lxor_nonneg; split; intros; apply Hx || apply Hy).
  apply fits_shiftr; [done|]. rewrite Z.shiftr_lxor.
  rewrite (proj1 (fits_shiftr x (proj1 Hx)) Hx), (proj1 (fits_shiftr y (proj1 Hy)) Hy). done.
Qed.

Lemma land_bit a n : 0 ≤ n → Z.land a (Z.shiftl 1 n) = Z.shiftl (Z.land (Z.shiftr a n) 1) n.
Proof.
  intros Hn. rewrite Z.shiftl_land. apply Z.bits_inj'. intros i Hi. rewrite !Z.land_spec.
  destruct (Z.lt_ge_cases i n).
  - by rewrite (Z.shiftl_spec_low 1), !andb_false_r by lia.
  - rewrite (Z.shiftl_spec_high (Z.shiftr a n)), Z.shiftr_spec by lia. by rewrite Z.sub_add.
Qed.

(** Doubling [a] and reducing it, as a step of the loop does. *)
Definition double (a : Z) : Z :=
  let a := wrap 64 (Z.shiftl a 1) in
  if negb (Z.land a (Z.shiftl 1 32) =? 0) then Z.lxor a (Z.lor (Z.shiftl 1 32) IRREDUCIBLE) else a.

Lemma double_spec a : fits 32 a → fits 32 (double a) ∧ (double a = 2 * a ∨ double a = Z.lxor (2 * a) modulus).
Proof.
  intros Ha. unfold double. assert (0 ≤ a < 2 ^ 32) as Hb by exact Ha.
  rewrite Z.shiftl_mul_pow2 by lia. change (2 ^ 1) with 2. rewrite Z.mul_comm, wrap_small by (unfold fits; lia).
  rewrite land_bit by lia. change (Z.lor (Z.shiftl 1 32) IRREDUCIBLE) with modulus.
  assert (Z.shiftr (2 * a) 32 = 0 ∨ Z.shiftr (2 * a) 32 = 1) as [E|E].
  { rewrite Z.shiftr_div_pow2 by lia. assert (0 ≤ 2 * a / 2 ^ 32 < 2); [|lia].
    split; [apply Z.div_pos; lia|apply Z.div_lt_upper_bound; lia]. }
  - rewrite E. change (Z.shiftl (Z.land 0 1) 32 =? 0) with true. cbn [negb]. split; [|by left]. apply fits_shiftr; [lia|done].
  - rewrite E. change (Z.shiftl (Z.land 1 1) 32 =? 0) with false. cbn [negb]. split; [|by right]. apply fits_shiftr.
    + apply Z.lxor_nonneg. split; [done|lia].
    + rewrite Z.shiftr_lxor, E. done.
Qed.

Lemma mul_step_eq a b res :
  mul_step a b res = (double a, Z.div2 b, if Z.odd b then Z.lxor res a else res).
Proof.
  unfold mul_step. rewrite <-Z.div2_spec.
  assert (Z.land b 1 = if Z.odd b then 1 else 0) as ->.
  { change 1 with (Z.ones 1) at 1. rewrite Z.land_ones by lia. change (2 ^ 1) with 2. apply Zmod_odd. }
  by destruct (Z.odd b).
Qed.

Lemma mul_loop_spec n a b res :
  (n ≤ 32)%nat → 0 ≤ b < 2 ^ Z.of_nat n → fits 32 a → fits 32 res →
  ∃ r, mul_loop n a b res = Some r ∧ fits 32 r ∧ cong r (Z.lxor res (clmul n a b)).
Proof.
  revert a b res. induction n as [|n IH]; intros a b res Hn Hb Ha Hr; cbn [mul_loop].
  { replace b with 0 by (cbn in Hb; lia). exists res. cbn. rewrite Z.lxor_0_r. auto using cong_refl. }
  destruct (Z.eqb_spec b 0) as [->|Hb0].
  { exists res. rewrite clmul_0_r, Z.lxor_0_r. auto using cong_refl. }
  rewrite mul_step_eq. destruct (double_spec a Ha) as [Hd Ed].
  destruct (IH (double a) (Z.div2 b) (if Z.odd b then Z.lxor res a else res)) as (r & E & Hf & Hc);
    [lia|by apply div2_fits|done|destruct (Z.odd b); auto using fits_lxor|].
  exists r. split_and!; [done..|]. eapply cong_trans; [exact Hc|]. cbn [clmul].
  exists (if decide (double a = 2 * a) then 0 else Z.div2 b).
  rewrite <-clmul_double.
  assert (∀ x y, Z.lxor (Z.lxor (if Z.odd b then Z.lxor res a else res) x) (Z.lxor res (Z.lxor (if Z.odd b then a else 0) y)) = Z.lxor x y) as Ex.
  { intros x y. rewrite <-(Z.lxor_assoc res). destruct (Z.odd b); rewrite ?Z.lxor_0_r;
      by rewrite lxor_swap, Z.lxor_nilpotent, Z.lxor_0_l. }
  rewrite Ex. case_decide as Ed'.
  - by rewrite Ed', Z.lxor_nilpotent, clmul_0_r.
  - destruct Ed as [|Ed]; [done|]. rewrite Ed, clmul_lxor_l, Z.lxor_comm, <-Z.lxor_assoc, Z.lxor_nilpotent, Z.lxor_0_l.
    replace 32%nat with (n + (32 - n))%nat by lia. symmetry. apply clmul_more. by apply div2_fits.
Qed.

(** The field multiplication ends and is right: on two elements of the field the loop
    ends within the 32 bits of its counter, with an element of the field that is
    congruent to the product of the polynomials modulo [x^32 + x^7 + x^3 + x^2 + 1]. *)
Lemma BF32_mul_spec a b :
  fits 32 a → fits 32 b →
  ∃ r, BF32_mul a b = Some r ∧ fits 32 r ∧ cong r (clmul 32 a b).
Proof.
  intros Ha Hb. destruct (mul_loop_spec 32 a b 0) as (r & E & Hf & Hc); [done|done|done|done|].
  exists r. unfold BF32_mul. rewrite E. cbn [fmap option_fmap option_map].
  rewrite wrap_small by done. split_and!; [done..|]. by rewrite Z.lxor_0_l in Hc.
Qed.

Lemma BF32_mul_spec_witness :
  ∃ r, BF32_mul (2 ^ 31) 3 = Some r ∧ fits 32 r ∧ cong r (clmul 32 (2 ^ 31) 3).
Proof. apply (BF32_mul_spec (2 ^ 31) 3); unfold fits; lia. Defined.

(** * Two shares

    The host of [EscrowSafe], which also copies what there is. *)

#[local] Existing Instance escrow_host.

Definition two_shares : list (list Z) := [[1; 2; 3; 4; 5; 6; 7; 8]; [11; 12; 13; 14; 15; 16; 17; 18]].

(** The index of the second share may as well be 3. *)
Lemma verify_share_exact_witness :
  verify_share (commitment_of 1 two_shares) 3 [11; 12; 13; 14; 15; 16; 17; 18] (share_path 1 two_shares 1) = true.
Proof.
  apply (verify_share_exact 1 two_shares).
  - reflexivity.
  - repeat constructor; vm_compute; congruence.
  - repeat constructor; vm_compute; congruence.
  - vm_compute. repeat constructor.
  - apply (no_collision_check hash). vm_compute. reflexivity.
  - split; vm_compute; reflexivity.
Defined.

Lemma standard_calls_refused_witness :
  verify_share_call empty_world (abi_verify_share deal 1 [1; 2; 3; 4; 5; 6; 7; 8] [deal]) = Revert 8.
Proof.
  apply (standard_calls_refused empty_world deal 1 [1; 2; 3; 4; 5; 6; 7; 8] [deal]); [|reflexivity..].
  intros n off cd. reflexivity.
Defined.
