(* ===== verification/OrdMap.v ===== *)
(** The ordered maps of [crates/narsil]: a [BTreeMap] is a [gmap] together with the
    order in which it is walked, and sums over its values.

    A [Hash32] is the integer its 32 bytes write most significant first, so that the
    order of the keys is that of the byte arrays. *)
From stdpp Require Import base list gmap sorting.
From Stdlib Require Import ZArith Lia Sorting.Sorted Sorting.Permutation.
From S2P Require Import Prelude.

Local Open Scope Z_scope.

(** * Walking a map in the order of its keys *)

Class KeyOrder (K : Type) := {
  key_le : relation K;
  key_le_dec :: RelDecision key_le;
  key_le_total :: Total key_le;
  key_le_trans :: Transitive key_le;
}.

#[export] Instance Z_order : KeyOrder Z.
Proof. refine {| key_le := Z.le |}. Defined.

(** Pairs, first components first. *)
Definition pair_le (x y : Z * Z) : Prop := x.1 < y.1 ∨ x.1 = y.1 ∧ x.2 ≤ y.2.

#[export] Instance pair_order : KeyOrder (Z * Z).
Proof.
  refine {| key_le := pair_le |}.
  - intros x y. unfold pair_le. apply _.
  - intros x y. unfold pair_le. lia.
  - intros x y z. unfold pair_le. lia.
Defined.

Section walk.
Context {K : Type} `{Countable K, !KeyOrder K} {V : Type}.
Implicit Types m : gmap K V.

Definition entry_le (x y : K * V) : Prop := key_le x.1 y.1.

#[export] Instance entry_le_dec : RelDecision entry_le.
Proof. intros x y. apply key_le_dec. Defined.
#[export] Instance entry_le_total : Total entry_le.
Proof. intros x y. apply key_le_total. Qed.
#[export] Instance entry_le_trans : Transitive entry_le.
Proof. intros x y z. apply key_le_trans. Qed.

(** [map.iter()], [map.keys()], [map.values()] *)
Definition entries m : list (K * V) := merge_sort entry_le (map_to_list m).
Definition keys m : list K := (entries m).*1.
Definition values m : list V := (entries m).*2.

Lemma entries_perm m : entries m ≡ₚ map_to_list m.
Proof. apply merge_sort_Permutation. Qed.

Lemma elem_of_entries m k v : (k, v) ∈ entries m ↔ m !! k = Some v.
Proof. by rewrite entries_perm, elem_of_map_to_list. Qed.

Lemma keys_NoDup m : NoDup (keys m).
Proof. unfold keys. rewrite entries_perm. apply NoDup_fst_map_to_list. Qed.

Lemma entries_NoDup m : NoDup (entries m).
Proof. rewrite entries_perm. apply NoDup_map_to_list. Qed.

Lemma elem_of_keys m k : k ∈ keys m ↔ is_Some (m !! k).
Proof.
  unfold keys. rewrite list_elem_of_fmap. split.
  - intros ([k' v] & -> & Hx). exists v. by apply elem_of_entries.
  - intros [v Hv]. exists (k, v). split; [done|]. by apply elem_of_entries.
Qed.

Lemma elem_of_values m v : v ∈ values m ↔ ∃ k, m !! k = Some v.
Proof.
  unfold values. rewrite list_elem_of_fmap. split.
  - intros ([k v'] & -> & Hx). exists k. by apply elem_of_entries.
  - intros [k Hv]. exists (k, v). split; [done|]. by apply elem_of_entries.
Qed.

Lemma entries_sorted m : StronglySorted entry_le (entries m).
Proof. apply StronglySorted_merge_sort; apply _. Qed.

Lemma length_entries m : length (entries m) = size m.
Proof. by rewrite entries_perm, length_map_to_list. Qed.
End walk.

(** * Sums *)

Section sums.
Context {K : Type} `{Countable K, !KeyOrder K} {V : Type}.
Implicit Types (m : gmap K V) (f : K → V → Z).

(** The sum of [f] over the entries. *)
Definition msum f m : Z := zsum (map (fun kv => f kv.1 kv.2) (entries m)).

Definition at_key f m (k : K) : Z := match m !! k with Some v => f k v | None => 0 end.

Lemma zsum_perm (l k : list Z) : l ≡ₚ k → zsum l = zsum k.
Proof. induction 1; cbn; lia. Qed.

Lemma msum_alt f m : msum f m = zsum (map (fun kv => f kv.1 kv.2) (map_to_list m)).
Proof. unfold msum. apply zsum_perm, Permutation_map, entries_perm. Qed.

Lemma msum_empty f : msum f (∅ : gmap K V) = 0.
Proof. by rewrite msum_alt, map_to_list_empty. Qed.

Lemma msum_insert_new f m k v : m !! k = None → msum f (<[k := v]> m) = f k v + msum f m.
Proof.
  intros Hk. rewrite !msum_alt.
  transitivity (zsum (map (fun kv => f kv.1 kv.2) ((k, v) :: map_to_list m))); [|done].
  by apply zsum_perm, Permutation_map, map_to_list_insert.
Qed.

Lemma msum_delete f m k : msum f (delete k m) = msum f m - at_key f m k.
Proof.
  unfold at_key. destruct (m !! k) as [v|] eqn:E.
  - rewrite <-(insert_delete_id m k v E) at 2. rewrite msum_insert_new by apply lookup_delete_eq. lia.
  - rewrite delete_id by done. lia.
Qed.

Lemma msum_insert f m k v : msum f (<[k := v]> m) = msum f m - at_key f m k + f k v.
Proof.
  rewrite <-insert_delete_eq, msum_insert_new by apply lookup_delete_eq. rewrite msum_delete. lia.
Qed.

Lemma msum_nonneg f m : (∀ k v, m !! k = Some v → 0 ≤ f k v) → 0 ≤ msum f m.
Proof.
  intros Hf. apply zsum_nonneg, Forall_forall. intros x ([k v] & -> & Hx)%list_elem_of_fmap.
  apply Hf. by apply elem_of_entries.
Qed.

Lemma msum_lookup_le f m k v :
  (∀ k v, m !! k = Some v → 0 ≤ f k v) → m !! k = Some v → f k v ≤ msum f m.
Proof.
  intros Hf Hk. rewrite <-(insert_delete_id m k v Hk), msum_insert_new by apply lookup_delete_eq.
  assert (0 ≤ msum f (delete k m)); [|lia].
  apply msum_nonneg. intros k' v' Hk'. apply lookup_delete_Some in Hk' as [_ Hk']. by apply Hf.
Qed.

Lemma msum_ext f g m : (∀ k v, m !! k = Some v → f k v = g k v) → msum f m = msum g m.
Proof.
  intros Hf. unfold msum. f_equal. apply map_ext_in. intros [k v] Hx.
  apply Hf. apply elem_of_entries. by apply list_elem_of_In.
Qed.

Lemma msum_le f g m : (∀ k v, m !! k = Some v → f k v ≤ g k v) → msum f m ≤ msum g m.
Proof.
  intros Hf. apply zsum_map_le. intros [k v] Hx. apply Hf. by apply elem_of_entries.
Qed.
End sums.

(** * Sums over lists *)

Lemma zsum_map_add {A} (f g : A → Z) l : zsum (map (fun x => f x + g x) l) = zsum (map f l) + zsum (map g l).
Proof. induction l as [|x l IH]; cbn [map zsum]; lia. Qed.

Lemma zsum_swap {A B} (f : A → B → Z) (l : list A) (k : list B) :
  zsum (map (fun x => zsum (map (f x) k)) l) = zsum (map (fun y => zsum (map (fun x => f x y) l)) k).
Proof.
  induction l as [|x l IH]; cbn [map zsum]; [by induction k; cbn [map zsum]; lia|].
  rewrite IH, <-zsum_map_add. done.
Qed.

Lemma zsum_map_const {A} (P : A → bool) c l :
  zsum (map (fun x => if P x then c else 0) l) = Z.of_nat (length (filter (fun x => P x = true) l)) * c.
Proof.
  induction l as [|x l IH]; [done|]. cbn [map zsum]. rewrite IH, filter_cons.
  destruct (P x); repeat case_decide; try done; cbn [length]; lia.
Qed.

Lemma zsum_map_ext {A} (f g : A → Z) l : (∀ x, x ∈ l → f x = g x) → zsum (map f l) = zsum (map g l).
Proof. intros Hf. apply Z.le_antisymm; apply zsum_map_le; intros x Hx; by rewrite Hf. Qed.

Lemma zsum_omap_cons {A B} (f : B → Z) (g : A → option B) x l :
  zsum (map f (omap g (x :: l))) = match g x with Some y => f y | None => 0 end + zsum (map f (omap g l)).
Proof.
  change (omap g (x :: l)) with (match g x with Some y => y :: omap g l | None => omap g l end). by destruct (g x).
Qed.

Lemma zsum_elem_le {A} (f : A → Z) l x : Forall (fun x => 0 ≤ f x) l → x ∈ l → 0 ≤ f x ≤ zsum (map f l).
Proof.
  intros Hl Hx. assert (∀ k, Forall (fun x => 0 ≤ f x) k → 0 ≤ zsum (map f k)) as H0.
  { intros k Hk. by apply zsum_nonneg, Forall_fmap. }
  apply list_elem_of_split in Hx as (l1 & l2 & ->). apply Forall_app in Hl as [H1 [H2 H3]%Forall_cons].
  rewrite map_app, zsum_app. cbn [map zsum]. pose proof (H0 l1 H1). pose proof (H0 l2 H3). lia.
Qed.

(** Distinct elements of a list count for no more than the list. *)
Lemma zsum_subset {A} (f : A → Z) l k :
  NoDup l → l ⊆ k → (∀ x, x ∈ k → 0 ≤ f x) → zsum (map f l) ≤ zsum (map f k).
Proof.
  intros Hl Hs Hf. assert (l ⊆+ k) as [r Hr]%submseteq_Permutation by (by apply NoDup_submseteq).
  rewrite (zsum_perm (map f k) (map f (l ++ r))) by (by apply Permutation_map).
  rewrite map_app, zsum_app. assert (0 ≤ zsum (map f r)); [|lia].
  apply zsum_nonneg, Forall_forall. intros x (c & -> & Hc)%list_elem_of_fmap.
  apply Hf. rewrite Hr. apply elem_of_app. by right.
Qed.

(** It is enough that those with a weight are in the list. *)
Lemma zsum_support {A} `{EqDecision A} (f : A → Z) l k :
  NoDup l → (∀ x, x ∈ l → x ∉ k → f x = 0) → (∀ x, x ∈ k → 0 ≤ f x) → zsum (map f l) ≤ zsum (map f k).
Proof.
  intros Hl Ho Hf. transitivity (zsum (map f (filter (fun x => x ∈ k) l))).
  - clear Hl Hf. induction l as [|x l IH]; [done|]. rewrite filter_cons.
    specialize (IH ltac:(intros y Hy; apply Ho; by right)). case_decide as Hx; cbn [map zsum]; [lia|].
    rewrite (Ho x) by (by left || done). lia.
  - apply zsum_subset; [by apply NoDup_filter| |done]. intros x [Hx _]%list_elem_of_filter. done.
Qed.

(** A single hit among distinct elements. *)
Lemma zsum_hit {A} `{EqDecision A} (a : A) c l :
  NoDup l → zsum (map (fun x => if bool_decide (a = x) then c else 0) l) = if bool_decide (a ∈ l) then c else 0.
Proof.
  induction l as [|x l IH]; [done|]. intros [Hx Hl]%NoDup_cons. cbn [map zsum]. rewrite IH by done.
  destruct (decide (a = x)) as [->|Hn].
  - rewrite (bool_decide_eq_true_2 (x = x)), (bool_decide_eq_false_2 (x ∈ l)), bool_decide_eq_true_2 by (done || left). lia.
  - rewrite (bool_decide_eq_false_2 (a = x)) by done. rewrite (bool_decide_ext (a ∈ x :: l) (a ∈ l)); [lia|].
    rewrite elem_of_cons. naive_solver.
Qed.

(** A sum over a map, by its keys. *)
Lemma msum_keys {K} `{Countable K, !KeyOrder K} {V} (f : K → V → Z) (g : K → Z) (m : gmap K V) :
  (∀ k v, m !! k = Some v → f k v = g k) → msum f m = zsum (map g (keys m)).
Proof.
  intros Hf. unfold msum, keys. rewrite <-list_fmap_compose. apply zsum_map_ext. intros [k v] Hx. cbn.
  apply Hf. by apply elem_of_entries.
Qed.
