(* ===== verification/NarGov.v ===== *)
(** Shares and votes of a syndicate, [crates/narsil/src/governance.rs], and how a
    syndicate is formed, [formation.rs]. *)
From stdpp Require Import base list gmap.
From Stdlib Require Import ZArith Lia Sorting.Sorted Sorting.Permutation.
From S2P Require Import Prelude OrdMap.

Local Open Scope Z_scope.

(** * Shares *)

Definition MAX_SHARES : Z := 100.

Inductive GovernanceError :=
| ZeroShares
| ExceedsMaxShares (requested available : Z)
| InsufficientShares (has needs : Z)
| NotAMember
| AlreadyVoted
| ProposalNotOpen
| TransferNotAllowed
| TransferRequiresApproval.

Record ShareRegistry := mkShareRegistry {
  holdings : gmap Z Z;
  total_issued : Z;
}.
#[export] Instance ShareRegistry_eta : Eta ShareRegistry := fun r => mkShareRegistry (holdings r) (total_issued r).

Definition registry_new : ShareRegistry := mkShareRegistry ∅ 0.

Definition shares_of (r : ShareRegistry) (member : Z) : Z := default 0 (holdings r !! member).

(** [*holdings.entry(member).or_insert(0) += shares] *)
Definition credit (r : ShareRegistry) (member shares : Z) : ShareRegistry :=
  r <| holdings := <[member := wadd 32 (shares_of r member) shares]> (holdings r) |>.

(** The balance less [shares], the entry removed when nothing is left. *)
Definition deduct (r : ShareRegistry) (member shares : Z) : ShareRegistry :=
  if Z.eqb (shares_of r member) shares then (r <| holdings := delete member (holdings r) |>)
  else (r <| holdings := <[member := wsub 32 (shares_of r member) shares]> (holdings r) |>).

Definition issue (r : ShareRegistry) (member shares : Z) : result ShareRegistry GovernanceError :=
  if shares =? 0 then Err ZeroShares
  else if MAX_SHARES <? wadd 32 (total_issued r) shares
  then Err (ExceedsMaxShares shares (wsub 32 MAX_SHARES (total_issued r)))
  else Ok ((credit r member shares) <| total_issued := wadd 32 (total_issued r) shares |>).

Fixpoint issue_all (r : ShareRegistry) (allocations : list (Z * Z)) : result ShareRegistry GovernanceError :=
  match allocations with
  | [] => Ok r
  | (member, shares) :: rest => let? r := issue r member shares in issue_all r rest
  end.

Definition with_allocation (allocations : list (Z * Z)) : result ShareRegistry GovernanceError :=
  issue_all registry_new allocations.

Definition transfer (r : ShareRegistry) (from to shares : Z) : result ShareRegistry GovernanceError :=
  if shares =? 0 then Err ZeroShares
  else if shares_of r from <? shares then Err (InsufficientShares (shares_of r from) shares)
  else Ok (credit (deduct r from shares) to shares).

Definition burn (r : ShareRegistry) (member shares : Z) : result ShareRegistry GovernanceError :=
  if shares_of r member <? shares then Err (InsufficientShares (shares_of r member) shares)
  else Ok ((deduct r member shares) <| total_issued := wsub 32 (total_issued r) shares |>).

Definition percentage_of (r : ShareRegistry) (member : Z) : Z :=
  if total_issued r =? 0 then 0 else wmul 32 (shares_of r member) 100 / total_issued r.

Definition weight_of (r : ShareRegistry) (member : Z) : Z * Z := (shares_of r member, total_issued r).

Definition available (r : ShareRegistry) : Z := wsub 32 MAX_SHARES (total_issued r).

Definition members (r : ShareRegistry) : list (Z * Z) := entries (holdings r).

Definition is_member (r : ShareRegistry) (member : Z) : bool := bool_decide (is_Some (holdings r !! member)).

(** * Rules and proposals *)

Module ActionType.
Inductive ActionType := Routine | Major | Amendment | Existential.
End ActionType.

Record GovernanceRules := mkGovernanceRules {
  routine_threshold : Z;
  major_threshold : Z;
  amendment_threshold : Z;
  existential_threshold : Z;
  require_quorum : bool;
  quorum_percentage : Z;
  transfers_allowed : bool;
  transfer_approval_required : bool;
}.

Definition rules_default : GovernanceRules := mkGovernanceRules 51 67 75 90 true 50 true true.
Definition rules_strict : GovernanceRules := mkGovernanceRules 67 75 90 100 true 67 true true.
Definition rules_permissive : GovernanceRules := mkGovernanceRules 51 51 67 75 false 0 true false.

Definition threshold_for (rules : GovernanceRules) (action : ActionType.ActionType) : Z :=
  match action with
  | ActionType.Routine => routine_threshold rules
  | ActionType.Major => major_threshold rules
  | ActionType.Amendment => amendment_threshold rules
  | ActionType.Existential => existential_threshold rules
  end.

Module ProposalState.
Inductive ProposalState := Open | Passed | Failed | Executed | Cancelled.
End ProposalState.

#[export] Instance ProposalState_eq_dec : EqDecision ProposalState.ProposalState.
Proof. solve_decision. Defined.

(** The description and the action data are not looked at. *)
Record Proposal := mkProposal {
  p_id : Z;
  action_type : ActionType.ActionType;
  votes : gmap Z (bool * Z);
  yes_shares : Z;
  no_shares : Z;
  p_state : ProposalState.ProposalState;
}.
#[export] Instance Proposal_eta : Eta Proposal := fun p =>
  mkProposal (p_id p) (action_type p) (votes p) (yes_shares p) (no_shares p) (p_state p).

Definition proposal_new (id : Z) (action : ActionType.ActionType) : Proposal :=
  mkProposal id action ∅ 0 0 ProposalState.Open.

Definition vote (p : Proposal) (member : Z) (approve : bool) (r : ShareRegistry) : result Proposal GovernanceError :=
  if negb (bool_decide (p_state p = ProposalState.Open)) then Err ProposalNotOpen
  else if bool_decide (is_Some (votes p !! member)) then Err AlreadyVoted
  else
    let shares := shares_of r member in
    if shares =? 0 then Err NotAMember
    else
      let p := p <| votes := <[member := (approve, shares)]> (votes p) |> in
      Ok (if approve then p <| yes_shares := wadd 32 (yes_shares p) shares |>
          else p <| no_shares := wadd 32 (no_shares p) shares |>).

Definition check_threshold (p : Proposal) (rules : GovernanceRules) (r : ShareRegistry) : bool :=
  let total := total_issued r in
  if total =? 0 then false
  else if require_quorum rules
          && (wadd 32 (yes_shares p) (no_shares p) <? wmul 32 total (quorum_percentage rules) / 100) then false
  else threshold_for rules (action_type p) <=? wmul 32 (yes_shares p) 100 / total.

Definition finalize (p : Proposal) (rules : GovernanceRules) (r : ShareRegistry) : Proposal :=
  if negb (bool_decide (p_state p = ProposalState.Open)) then p
  else if check_threshold p rules r then p <| p_state := ProposalState.Passed |>
  else p <| p_state := ProposalState.Failed |>.

Definition mark_executed (p : Proposal) : Proposal :=
  if bool_decide (p_state p = ProposalState.Passed) then p <| p_state := ProposalState.Executed |> else p.

(** * Distributions *)

(** One member's amount, the last of [n] taking what is left; [None] is the division
    by zero. *)
Definition member_amount (amount total distributed : Z) (n i : nat) (shares : Z) : option Z :=
  if (i =? n - 1)%nat then Some (wsub 128 amount distributed)
  else if total =? 0 then None
  else Some (wmul 128 amount shares / total).

Fixpoint distribute (amount total distributed : Z) (n i : nat) (ms : list (Z * Z)) (allocations : gmap Z Z)
  : option (gmap Z Z) :=
  match ms with
  | [] => Some allocations
  | (member, shares) :: ms' =>
      match member_amount amount total distributed n i shares with
      | None => None
      | Some a => distribute amount total (wadd 128 distributed a) n (S i) ms' (<[member := a]> allocations)
      end
  end.

Definition calculate (amount : Z) (r : ShareRegistry) : option (gmap Z Z) :=
  distribute amount (total_issued r) 0 (length (members r)) 0 (members r) ∅.

Definition allocation_for (allocations : gmap Z Z) (member : Z) : Z := default 0 (allocations !! member).

(** * Formation *)

Inductive FormationMode :=
| CapitalWeighted (min_contribution : Z)
| FounderControlled (founder : Z)
| EqualShares.

Inductive SharePolicy := Fixed | OpenEnded (min_investment : Z) | Locked.

Inductive FormationError :=
| AlreadyFinalized
| NoCommitments
| NoCapital
| BelowMinimum (provided minimum : Z)
| DuplicateMember (member : Z)
| AllocationFailed (e : GovernanceError).

(** The payment address is kept for the caller. *)
Record Commitment := mkCommitment { c_member : Z; c_amount : Z; c_address : list Byte.byte }.

Record Formation := mkFormation {
  f_mode : FormationMode;
  f_policy : SharePolicy;
  f_rules : GovernanceRules;
  commitments : list Commitment;
  finalized : bool;
}.
#[export] Instance Formation_eta : Eta Formation := fun f =>
  mkFormation (f_mode f) (f_policy f) (f_rules f) (commitments f) (finalized f).

Definition formation_new (mode : FormationMode) : Formation := mkFormation mode Fixed rules_default [] false.

Definition with_policy (f : Formation) (policy : SharePolicy) : Formation := f <| f_policy := policy |>.
Definition with_rules (f : Formation) (rules : GovernanceRules) : Formation := f <| f_rules := rules |>.

Definition commit (f : Formation) (member amount : Z) (address : list Byte.byte) : result Formation FormationError :=
  if finalized f then Err AlreadyFinalized
  else
    let below := match f_mode f with
                 | CapitalWeighted minimum => if amount <? minimum then Some minimum else None
                 | _ => None
                 end in
    match below with
    | Some minimum => Err (BelowMinimum amount minimum)
    | None =>
        if existsb (fun c => c_member c =? member) (commitments f) then Err (DuplicateMember member)
        else Ok (f <| commitments := commitments f ++ [mkCommitment member amount address] |>)
    end.

Definition total_committed (f : Formation) : Z := foldl (fun s c => wadd 128 s (c_amount c)) 0 (commitments f).

(** The loop of the weighted allocation: rounded down, the last of [n] takes the
    rest, members without a share are left out. *)
Fixpoint weigh (total : Z) (n i : nat) (allocated : Z) (cs : list Commitment) : list (Z * Z) :=
  match cs with
  | [] => []
  | c :: cs' =>
      let shares := if (i =? n - 1)%nat then wsub 32 MAX_SHARES allocated
                    else wrap 32 (wmul 128 (c_amount c) MAX_SHARES / total) in
      if 0 <? shares then (c_member c, shares) :: weigh total n (S i) (wadd 32 allocated shares) cs'
      else weigh total n (S i) allocated cs'
  end.

Definition map_alloc_err (x : result ShareRegistry GovernanceError) : result ShareRegistry FormationError :=
  match x with Ok r => Ok r | Err e => Err (AllocationFailed e) end.

Definition allocate_capital_weighted (f : Formation) : result ShareRegistry FormationError :=
  let total := total_committed f in
  if total =? 0 then Err NoCapital
  else map_alloc_err (with_allocation (weigh total (length (commitments f)) 0 0 (commitments f))).

Definition allocate_founder_controlled (founder : Z) : result ShareRegistry FormationError :=
  map_alloc_err (with_allocation [(founder, MAX_SHARES)]).

Definition allocate_equal (f : Formation) : result ShareRegistry FormationError :=
  let n := wrap 32 (Z.of_nat (length (commitments f))) in
  if n =? 0 then Err NoCommitments
  else
    let shares_each := MAX_SHARES / n in
    let remainder := MAX_SHARES mod n in
    map_alloc_err (with_allocation
      (imap (fun i c => (c_member c, shares_each + (if wrap 32 (Z.of_nat i) <? remainder then 1 else 0)))
            (commitments f))).

Definition formation_finalize (f : Formation) : result (ShareRegistry * GovernanceRules * SharePolicy) FormationError :=
  if finalized f then Err AlreadyFinalized
  else if bool_decide (commitments f = []) then Err NoCommitments
  else
    let? r := (match f_mode f with
               | CapitalWeighted _ => allocate_capital_weighted f
               | FounderControlled founder => allocate_founder_controlled founder
               | EqualShares => allocate_equal f
               end) in
    Ok (r, f_rules f, f_policy f).

Definition shares_for_investment (investment current_nav total_shares : Z) : Z :=
  if (current_nav =? 0) || (total_shares =? 0) then MAX_SHARES
  else Z.min (wmul 128 total_shares investment / current_nav) MAX_SHARES.

Definition nav_per_share (total_assets total_shares : Z) : Z :=
  if total_shares =? 0 then 0 else total_assets / total_shares.

Definition buyout_value (shares total_assets total_shares : Z) : Z :=
  if total_shares =? 0 then 0 else wmul 128 total_assets shares / total_shares.

(** * The registry keeps account of every share *)

(** A number held by each member. *)
Abbreviation total_of := (msum (fun _ v : Z => v)).

#[local] Arguments credit : simpl never.
#[local] Arguments deduct : simpl never.

Record registry_ok (r : ShareRegistry) : Prop := {
  held_positive : ∀ m s, holdings r !! m = Some s → 0 < s;
  held_sum : total_of (holdings r) = total_issued r;
  held_cap : total_issued r ≤ MAX_SHARES;
}.

(** One call on the registry. An issue is taken below the point where the sum of its
    check wraps, see [issue_wraps]. *)
Inductive registry_step : ShareRegistry → ShareRegistry → Prop :=
| step_issue r r' m s : 0 ≤ s < 2 ^ 32 - MAX_SHARES → issue r m s = Ok r' → registry_step r r'
| step_transfer r r' a b s : 0 ≤ s → transfer r a b s = Ok r' → registry_step r r'
| step_burn r r' m s : 0 ≤ s → burn r m s = Ok r' → registry_step r r'.

Lemma registry_new_ok : registry_ok registry_new.
Proof. split; cbn; [done | by rewrite msum_empty | done]. Qed.

Lemma shares_of_at r m : shares_of r m = at_key (fun _ v : Z => v) (holdings r) m.
Proof. unfold shares_of, at_key. by destruct (_ !! m). Qed.

Section registry.
Implicit Types r : ShareRegistry.

Lemma shares_nonneg r m : registry_ok r → 0 ≤ shares_of r m.
Proof.
  intros Hr. unfold shares_of. destruct (_ !! m) eqn:E; cbn; [|done]. apply (held_positive _ Hr) in E. lia.
Qed.

Lemma shares_le_total r m : registry_ok r → shares_of r m ≤ total_issued r.
Proof.
  intros Hr. rewrite <-(held_sum _ Hr). unfold shares_of. destruct (_ !! m) as [s|] eqn:E; cbn.
  - apply (msum_lookup_le (fun _ v => v) _ m s); [|done]. intros k v Hk. apply (held_positive _ Hr) in Hk. lia.
  - apply msum_nonneg. intros k v Hk. apply (held_positive _ Hr) in Hk. lia.
Qed.

Lemma total_nonneg r : registry_ok r → 0 ≤ total_issued r.
Proof. intros Hr. pose proof (shares_nonneg r 0 Hr). pose proof (shares_le_total r 0 Hr). lia. Qed.

Lemma shares_of_pos r m s : holdings r !! m = Some s → shares_of r m = s.
Proof. unfold shares_of. by intros ->. Qed.

(** What a holder loses. *)
Lemma deduct_spec r m s :
  registry_ok r → 0 ≤ s ≤ shares_of r m →
  total_issued (deduct r m s) = total_issued r ∧
  total_of (holdings (deduct r m s)) = total_of (holdings r) - s ∧
  (∀ k v, holdings (deduct r m s) !! k = Some v → 0 < v) ∧
  (∀ k, shares_of (deduct r m s) k = if decide (k = m) then shares_of r m - s else shares_of r k).
Proof.
  intros Hr Hs. pose proof (shares_le_total r m Hr) as Ht. pose proof (held_cap _ Hr). unfold MAX_SHARES in *.
  unfold deduct. destruct (Z.eqb_spec (shares_of r m) s) as [E|E]; cbn.
  - split; [done|]. rewrite msum_delete, <-shares_of_at. split; [lia|]. split.
    + intros k v [_ Hk]%lookup_delete_Some. by apply (held_positive _ Hr k).
    + intros k. unfold shares_of at 1. cbn. case_decide as Hk; [subst k; rewrite lookup_delete_eq; cbn; lia|].
      by rewrite lookup_delete_ne by done.
  - rewrite wsub_small by lia. split; [done|]. rewrite msum_insert, <-shares_of_at. split; [lia|]. split.
    + intros k v. destruct (decide (k = m)) as [->|Hk].
      * rewrite lookup_insert_eq. intros [= <-]. lia.
      * rewrite lookup_insert_ne by done. apply (held_positive _ Hr).
    + intros k. unfold shares_of at 1. cbn. case_decide as Hk; [subst k; by rewrite lookup_insert_eq|].
      by rewrite lookup_insert_ne by done.
Qed.

(** What a receiver gains. *)
Lemma credit_spec r m s :
  (∀ k v, holdings r !! k = Some v → 0 < v) → 0 < s → total_of (holdings r) + s < 2 ^ 32 →
  total_issued (credit r m s) = total_issued r ∧
  total_of (holdings (credit r m s)) = total_of (holdings r) + s ∧
  (∀ k v, holdings (credit r m s) !! k = Some v → 0 < v) ∧
  (∀ k, shares_of (credit r m s) k = if decide (k = m) then shares_of r m + s else shares_of r k).
Proof.
  intros Hp Hs Hf. assert (0 ≤ shares_of r m ≤ total_of (holdings r)) as Hm.
  { assert (∀ k v, holdings r !! k = Some v → 0 ≤ v) as Hp' by (intros k v Hk; specialize (Hp k v Hk); lia).
    unfold shares_of. destruct (_ !! m) as [v|] eqn:E; cbn.
    - split; [by apply (Hp' m)|]. by apply (msum_lookup_le (fun _ v => v) _ m v).
    - split; [done|]. by apply msum_nonneg. }
  unfold credit; cbn. rewrite wadd_small by lia. split; [done|]. rewrite msum_insert, <-shares_of_at.
  split; [lia|]. split.
  - intros k v. destruct (decide (k = m)) as [->|Hk].
    + rewrite lookup_insert_eq. intros [= <-]. lia.
    + rewrite lookup_insert_ne by done. apply Hp.
  - intros k. unfold shares_of at 1. cbn. case_decide as Hk; [subst k; by rewrite lookup_insert_eq|].
    by rewrite lookup_insert_ne by done.
Qed.

Lemma issue_spec r m s :
  registry_ok r → 0 < s < 2 ^ 32 - MAX_SHARES →
  (total_issued r + s ≤ MAX_SHARES →
     ∃ r', issue r m s = Ok r' ∧ registry_ok r' ∧ total_issued r' = total_issued r + s ∧
           ∀ k, shares_of r' k = if decide (k = m) then shares_of r m + s else shares_of r k) ∧
  (MAX_SHARES < total_issued r + s → issue r m s = Err (ExceedsMaxShares s (MAX_SHARES - total_issued r))).
Proof.
  intros Hr Hs. pose proof (total_nonneg r Hr). pose proof (held_cap _ Hr). unfold issue.
  rewrite (proj2 (Z.eqb_neq s 0)) by lia. rewrite wadd_small by (unfold MAX_SHARES in *; lia). split; intros Hm.
  - rewrite (proj2 (Z.ltb_ge _ _)) by lia. eexists; split; [done|].
    destruct (credit_spec r m s) as (E1 & E2 & E3 & E4); [apply (held_positive _ Hr) | lia | |].
    { rewrite (held_sum _ Hr). unfold MAX_SHARES in *. lia. }
    split; [|split; [done|apply E4]]. split; cbn; [apply E3 | by rewrite E2, (held_sum _ Hr) | done].
  - rewrite (proj2 (Z.ltb_lt _ _)) by lia. do 2 f_equal. apply wsub_small; unfold MAX_SHARES in *; lia.
Qed.

Lemma transfer_spec r a b s :
  registry_ok r → 0 < s →
  (s ≤ shares_of r a →
     ∃ r', transfer r a b s = Ok r' ∧ registry_ok r' ∧ total_issued r' = total_issued r ∧
           shares_of r' b = (if decide (a = b) then shares_of r b else shares_of r b + s) ∧
           (a ≠ b → shares_of r' a = shares_of r a - s) ∧
           ∀ k, k ≠ a → k ≠ b → shares_of r' k = shares_of r k) ∧
  (shares_of r a < s → transfer r a b s = Err (InsufficientShares (shares_of r a) s)).
Proof.
  intros Hr Hs. unfold transfer. rewrite (proj2 (Z.eqb_neq s 0)) by lia. split; intros Ha.
  - rewrite (proj2 (Z.ltb_ge _ _)) by lia. eexists; split; [done|].
    destruct (deduct_spec r a s Hr) as (D1 & D2 & D3 & D4); [lia|]. pose proof (held_cap _ Hr) as Hc.
    destruct (credit_spec (deduct r a s) b s D3) as (E1 & E2 & E3 & E4); [lia| |].
    { rewrite D2, (held_sum _ Hr). unfold MAX_SHARES in *. lia. }
    split; [split; [apply E3 | rewrite E1, E2, D1, D2, (held_sum _ Hr); lia | by rewrite E1, D1]|].
    split; [by rewrite E1|]. split; [|split].
    + rewrite E4, D4, decide_True by done. destruct (decide (b = a)), (decide (a = b)); subst; try done; lia.
    + intros Hab. rewrite E4, !D4. by destruct (decide (a = b)), (decide (a = a)).
    + intros k Hka Hkb. by rewrite E4, !D4; destruct (decide (k = b)), (decide (k = a)).
  - by rewrite (proj2 (Z.ltb_lt _ _)) by lia.
Qed.

Lemma burn_spec r m s :
  registry_ok r → 0 ≤ s →
  (s ≤ shares_of r m →
     ∃ r', burn r m s = Ok r' ∧ registry_ok r' ∧ total_issued r' = total_issued r - s ∧
           ∀ k, shares_of r' k = if decide (k = m) then shares_of r m - s else shares_of r k) ∧
  (shares_of r m < s → burn r m s = Err (InsufficientShares (shares_of r m) s)).
Proof.
  intros Hr Hs. pose proof (shares_le_total r m Hr). pose proof (held_cap _ Hr). unfold burn. split; intros Hm.
  - rewrite (proj2 (Z.ltb_ge _ _)) by lia. eexists; split; [done|].
    destruct (deduct_spec r m s Hr) as (D1 & D2 & D3 & D4); [lia|].
    assert (wsub 32 (total_issued r) s = total_issued r - s) as Ew by (apply wsub_small; unfold MAX_SHARES in *; lia).
    split; [split; cbn; [apply D3 | rewrite D2, (held_sum _ Hr), Ew; lia | rewrite Ew; lia]|].
    split; [cbn; by rewrite Ew | apply D4].
  - by rewrite (proj2 (Z.ltb_lt _ _)) by lia.
Qed.

Lemma registry_step_ok r r' : registry_step r r' → registry_ok r → registry_ok r'.
Proof.
  intros Hst Hr. destruct Hst as [r r' m s Hs E | r r' a b s Hs E | r r' m s Hs E].
  - destruct (decide (s = 0)) as [->|Hn]; [by unfold issue in E|].
    destruct (issue_spec r m s Hr) as [H1 H2]; [lia|].
    destruct (decide (total_issued r + s ≤ MAX_SHARES)) as [Hm|Hm].
    + destruct (H1 Hm) as (? & E' & Hok & _). congruence.
    + rewrite H2 in E by lia. done.
  - destruct (decide (s = 0)) as [->|Hn]; [by unfold transfer in E|].
    destruct (transfer_spec r a b s Hr) as [H1 H2]; [lia|].
    destruct (decide (s ≤ shares_of r a)) as [Hm|Hm].
    + destruct (H1 Hm) as (? & E' & Hok & _). congruence.
    + rewrite H2 in E by lia. done.
  - destruct (burn_spec r m s Hr) as [H1 H2]; [lia|].
    destruct (decide (s ≤ shares_of r m)) as [Hm|Hm].
    + destruct (H1 Hm) as (? & E' & Hok & _). congruence.
    + rewrite H2 in E by lia. done.
Qed.

Lemma registry_reach_ok r r' : rtc registry_step r r' → registry_ok r → registry_ok r'.
Proof. induction 1; [done|]. intros Hr. eauto using registry_step_ok. Qed.
End registry.

(** A request within [MAX_SHARES] of 2^32 passes the check of [issue]: the sum wraps
    below the cap, and the member is left with far more shares than are issued. *)
Lemma issue_wraps r m d :
  registry_ok r → shares_of r m = 0 → 1 ≤ d ≤ total_issued r →
  ∃ r', issue r m (2 ^ 32 - d) = Ok r' ∧ total_issued r' = total_issued r - d ∧ shares_of r' m = 2 ^ 32 - d.
Proof.
  intros Hr Hm Hd. pose proof (held_cap _ Hr). unfold MAX_SHARES in *.
  assert (wadd 32 (total_issued r) (2 ^ 32 - d) = total_issued r - d) as E.
  { unfold wadd, wrap. replace (total_issued r + (2 ^ 32 - d)) with (total_issued r - d + 1 * 2 ^ 32) by lia.
    rewrite Z_mod_plus_full. apply Z.mod_small. lia. }
  unfold issue. rewrite E, (proj2 (Z.eqb_neq _ 0)) by lia. unfold MAX_SHARES. rewrite (proj2 (Z.ltb_ge _ _)) by lia.
  eexists; split; [done|]. split; [done|]. unfold shares_of at 1. cbn. unfold credit. cbn.
  rewrite lookup_insert_eq, Hm. cbn. apply wadd_small. lia.
Qed.

(** * Voting *)

Definition votes_in (r : ShareRegistry) (p p' : Proposal) : Prop := ∃ m approve, vote p m approve r = Ok p'.

(** The shares in [r] of those who voted one way. *)
Definition side (approve : bool) (r : ShareRegistry) : Z → bool * Z → Z :=
  fun m v => if eqb v.1 approve then shares_of r m else 0.

Record tally_ok (r : ShareRegistry) (p : Proposal) : Prop := {
  tally_open : p_state p = ProposalState.Open;
  tally_yes : yes_shares p = msum (side true r) (votes p);
  tally_no : no_shares p = msum (side false r) (votes p);
}.

Lemma msum_add {V} (f g h : Z → V → Z) (m : gmap Z V) :
  (∀ k v, h k v = f k v + g k v) → msum h m = msum f m + msum g m.
Proof.
  intros Hh. induction m as [|k v m Hk IH] using map_ind; [by rewrite !msum_empty|].
  rewrite !msum_insert_new by done. rewrite IH, Hh. lia.
Qed.

(** The voters of [r] hold at most what is issued, each counted once. *)
Lemma voters_within {V} (f : Z → V → Z) r (m : gmap Z V) :
  registry_ok r → (∀ k v, f k v ≤ shares_of r k) → msum f m ≤ total_issued r.
Proof.
  intros Hr Hf. rewrite <-(held_sum _ Hr).
  transitivity (msum (fun k (_ : V) => shares_of r k) m); [by apply msum_le|]. clear f Hf.
  assert (∀ h : gmap Z Z, (∀ k v, h !! k = Some v → 0 ≤ v) →
          msum (fun k (_ : V) => default 0 (h !! k)) m ≤ total_of h) as Hgen.
  { induction m as [|k v m Hk IH] using map_ind; intros h Hh; [rewrite msum_empty; by apply msum_nonneg|].
    rewrite msum_insert_new by done.
    rewrite (msum_ext _ (fun k' (_ : V) => default 0 (delete k h !! k')) m).
    2: { intros k' v' Hk'. rewrite lookup_delete_ne; [done|]. congruence. }
    assert (msum (fun k' (_ : V) => default 0 (delete k h !! k')) m ≤ total_of (delete k h)) as Hd.
    { apply IH. intros k' v' [_ Hk']%lookup_delete_Some. by apply (Hh k'). }
    rewrite msum_delete in Hd. unfold at_key in Hd. destruct (h !! k); cbn; lia. }
  apply Hgen. intros k v Hk. apply (held_positive _ Hr) in Hk. lia.
Qed.

Lemma side_bounds b r k v : registry_ok r → 0 ≤ side b r k v ≤ shares_of r k.
Proof. intros Hr. pose proof (shares_nonneg r k Hr). unfold side. case_match; lia. Qed.

Lemma tally_bounds r p :
  registry_ok r → tally_ok r p → 0 ≤ yes_shares p ∧ 0 ≤ no_shares p ∧ yes_shares p + no_shares p ≤ total_issued r.
Proof.
  intros Hr [_ -> ->]. split; [|split].
  1,2: apply msum_nonneg; intros; by apply side_bounds.
  rewrite <-(msum_add _ _ (fun k v => side true r k v + side false r k v)) by done.
  apply voters_within; [done|]. intros k v. pose proof (shares_nonneg r k Hr). unfold side.
  destruct v as [[] ?]; cbn; lia.
Qed.

Lemma vote_tally r p p' : registry_ok r → tally_ok r p → votes_in r p p' → tally_ok r p'.
Proof.
  intros Hr Hp (m & b & E). pose proof (tally_bounds r p Hr Hp) as Hb. pose proof (held_cap _ Hr) as Hc.
  pose proof (shares_nonneg r m Hr). pose proof (shares_le_total r m Hr). unfold MAX_SHARES in *.
  destruct Hp as [Ho Hy Hn]. unfold vote in E. rewrite Ho, bool_decide_eq_true_2 in E by done. cbn [negb] in E.
  destruct (votes p !! m) as [w|] eqn:Em; [by rewrite bool_decide_eq_true_2 in E|].
  case_bool_decide as Hx; [by destruct Hx|]. destruct (Z.eqb_spec (shares_of r m) 0); [done|].
  injection E as <-. destruct b; (split; cbn; [done| |]); rewrite msum_insert_new by done; cbn;
    rewrite <-?Hy, <-?Hn, ?wadd_small by lia; lia.
Qed.

Lemma votes_tally r id act p : registry_ok r → rtc (votes_in r) (proposal_new id act) p → tally_ok r p.
Proof.
  intros Hr Hp. assert (tally_ok r (proposal_new id act)) as H0 by (split; cbn; by rewrite ?msum_empty).
  induction Hp as [|p p' p'' E _ IH]; [done|]. apply IH. by eapply vote_tally.
Qed.

(** Deciding a proposal. *)
Lemma finalize_passed r p rules :
  p_state p = ProposalState.Open → 0 ≤ yes_shares p → 0 ≤ no_shares p →
  yes_shares p + no_shares p ≤ 2 * MAX_SHARES →
  0 ≤ total_issued r ≤ MAX_SHARES → 0 ≤ quorum_percentage rules < 2 ^ 25 →
  p_state (finalize p rules r) = ProposalState.Passed ↔
  0 < total_issued r ∧
  threshold_for rules (action_type p) * total_issued r ≤ 100 * yes_shares p ∧
  (require_quorum rules = true → total_issued r * quorum_percentage rules / 100 ≤ yes_shares p + no_shares p).
Proof.
  intros Ho Hy Hn Hyn Ht Hq. unfold MAX_SHARES in *. unfold finalize. rewrite Ho, bool_decide_eq_true_2 by done. cbn [negb].
  assert (check_threshold p rules r = true ↔ 0 < total_issued r ∧
    threshold_for rules (action_type p) * total_issued r ≤ 100 * yes_shares p ∧
    (require_quorum rules = true → total_issued r * quorum_percentage rules / 100 ≤ yes_shares p + no_shares p)) as <-;
    [|destruct (check_threshold p rules r); cbn; [done|split; [|done]; by rewrite Ho || done]].
  unfold check_threshold. destruct (Z.eqb_spec (total_issued r) 0) as [E|E]; [split; [done|lia]|].
  rewrite wadd_small by lia. rewrite (wmul_small 32 (total_issued r)) by nia. rewrite wmul_small by lia.
  destruct (require_quorum rules) eqn:Er; cbn.
  - destruct (Z.ltb_spec (yes_shares p + no_shares p) (total_issued r * quorum_percentage rules / 100)).
    + split; [done|]. intros (_ & _ & Hx). specialize (Hx eq_refl). lia.
    + rewrite Z.leb_le. split.
      * intros Hth. split; [lia|]. split; [|done]. pose proof (Z.mul_div_le (yes_shares p * 100) (total_issued r)). nia.
      * intros (_ & Hth & _). apply Z.div_le_lower_bound; lia.
  - rewrite Z.leb_le. split.
    + intros Hth. split; [lia|]. split; [|done]. pose proof (Z.mul_div_le (yes_shares p * 100) (total_issued r)). nia.
    + intros (_ & Hth & _). apply Z.div_le_lower_bound; lia.
Qed.
