(* ===== verification/NarForm.v ===== *)
(** What a syndicate's shares are worth, over [NarGov.v]: distributions pay out exactly
    the amount, a formation hands out exactly the hundred shares, and a vote is only as
    good as the registry it is weighed in. *)
From stdpp Require Import base list gmap.
From Stdlib Require Import ZArith Lia.
From S2P Require Import Prelude OrdMap NarGov.

Local Open Scope Z_scope.

(** * Distributions *)

Section distribution.
Context (amount total : Z) (n : nat).
Hypothesis total_pos : 0 < total.
Hypothesis amount_ok : 0 ≤ amount.
Hypothesis amount_fits : amount * total < 2 ^ 128.

(** The loop at member [i], [D] paid so far to members with [total - left] shares. *)
Lemma distribute_spec ms : ∀ i D acc,
  (i + length ms = n)%nat → ms ≠ [] → NoDup ms.*1 → (∀ k, k ∈ ms.*1 → acc !! k = None) →
  Forall (fun ks => 0 < ks.2) ms → zsum ms.*2 ≤ total → 0 ≤ D →
  D * total ≤ amount * (total - zsum ms.*2) →
  amount * (total - zsum ms.*2) ≤ D * total + Z.of_nat i * (total - 1) →
  ∃ al, distribute amount total D n i ms acc = Some al ∧
        total_of al = total_of acc + (amount - D) ∧
        dom al = dom acc ∪ list_to_set ms.*1 ∧
        (∀ k, k ∉ ms.*1 → al !! k = acc !! k) ∧
        ∀ k s, (k, s) ∈ ms → ∃ a, al !! k = Some a ∧ amount * s / total ≤ a ≤ amount * s / total + Z.of_nat (n - 1).
Proof.
  induction ms as [|[m s] ms IH]; intros i D acc Hi Hne Hnd Hacc Hpos Hsum HD Hlo Hhi; [done|].
  cbn [distribute fmap list_fmap fst snd zsum length] in *.
  apply NoDup_cons in Hnd as [Hm Hnd]. apply Forall_cons in Hpos as [Hs Hpos]. cbn [snd] in Hs.
  assert (0 ≤ zsum ms.*2) as Hz.
  { apply zsum_nonneg, Forall_fmap. eapply Forall_impl; [exact Hpos|]. intros [] ?; cbn in *; lia. }
  assert (acc !! m = None) as Em by (apply Hacc; left).
  assert (amount < 2 ^ 128) as Ha by nia. assert (D ≤ amount) as HDa by nia.
  pose proof (Z.div_mod (amount * s) total ltac:(lia)) as Hdm.
  pose proof (Z.mod_pos_bound (amount * s) total ltac:(lia)) as Hmb.
  unfold member_amount. destruct (Nat.eqb_spec i (n - 1)) as [El|El].
  - destruct ms as [|]; [|cbn in Hi; lia]. cbn [distribute fmap list_fmap zsum length] in *.
    rewrite wsub_small by lia. eexists; split; [done|].
    split; [rewrite msum_insert_new by done; lia|]. split; [rewrite dom_insert_L; set_solver|].
    split; [intros k Hk; apply lookup_insert_ne; set_solver|].
    intros k v Hkv. apply list_elem_of_singleton in Hkv as [= -> ->]. eexists.
    split; [apply lookup_insert_eq|]. rewrite <-El.
    replace (s + 0) with s in * by lia. remember (amount * s) as X. remember (X / total) as q.
    rewrite Z.mul_sub_distr_l in Hlo, Hhi. rewrite <-HeqX in Hlo, Hhi. clear HeqX Heqq IH.
    split; [apply (Z.mul_le_mono_pos_r _ _ total); nia|].
    apply Z.lt_succ_r, (Z.mul_lt_mono_pos_r total); nia.
  - rewrite (proj2 (Z.eqb_neq total 0)) by lia. rewrite wmul_small by nia.
    assert (0 ≤ amount * s / total) as Hq by (apply Z.div_pos; nia).
    assert (amount * s / total + D ≤ amount) as Hqa by nia. rewrite wadd_small by lia.
    assert (ms ≠ []) as Hne' by (intros ->; cbn in Hi; lia).
    destruct (IH (S i) (D + amount * s / total) (<[m := amount * s / total]> acc))
      as (al & -> & E1 & E2 & E3 & E4); try done; [lia| |lia|lia|nia|nia|].
    { intros k Hk. rewrite lookup_insert_ne by set_solver. apply Hacc. by right. }
    exists al. split; [done|]. rewrite E1, msum_insert_new by done. split; [lia|].
    split; [rewrite E2, dom_insert_L; set_solver|].
    split; [intros k Hk; rewrite E3 by set_solver; apply lookup_insert_ne; set_solver|].
    intros k v Hkv. apply elem_of_cons in Hkv as [[= -> ->]|Hkv]; [|by apply E4].
    rewrite E3 by done. eexists. split; [apply lookup_insert_eq|]. lia.
Qed.
End distribution.

Lemma zsum_members r : zsum (members r).*2 = total_of (holdings r).
Proof. done. Qed.

Lemma members_keys r : list_to_set (members r).*1 = dom (holdings r).
Proof.
  apply set_eq. intros k. rewrite elem_of_list_to_set, elem_of_dom. apply elem_of_keys.
Qed.

(** A distribution pays every member of the registry and nobody else, and pays out
    exactly the amount: each member gets their percentage rounded down, the last also what
    the rounding left, less than one unit for each of the others. *)
Lemma distribution_exact amount r :
  registry_ok r → 0 < total_issued r → 0 ≤ amount → amount * MAX_SHARES < 2 ^ 128 →
  ∃ al, calculate amount r = Some al ∧
        dom al = dom (holdings r) ∧
        total_of al = amount ∧
        ∀ m s, holdings r !! m = Some s →
          amount * s / total_issued r ≤ allocation_for al m
            ≤ amount * s / total_issued r + Z.of_nat (size (holdings r) - 1).
Proof.
  intros Hr Ht Ha Hf. pose proof (held_sum _ Hr) as Hs. pose proof (held_cap _ Hr).
  assert (members r ≠ []) as Hne.
  { intros E. assert (zsum (members r).*2 = total_issued r) by done. rewrite E in *. cbn in *. lia. }
  destruct (distribute_spec amount (total_issued r) (length (members r)) Ht Ha ltac:(nia) (members r) 0 0 ∅)
    as (al & E & E1 & E2 & _ & E4); try done.
  - apply keys_NoDup.
  - apply Forall_forall. intros [k v] Hk. apply elem_of_entries in Hk. by apply (held_positive _ Hr k).
  - rewrite zsum_members. lia.
  - rewrite zsum_members. lia.
  - rewrite zsum_members. lia.
  - exists al. split; [exact E|]. rewrite E2, members_keys. split; [set_solver|].
    rewrite E1, msum_empty. split; [lia|]. intros m s Hm.
    destruct (E4 m s) as (a & Hal & Hb); [by apply elem_of_entries|].
    unfold allocation_for. rewrite Hal. unfold members in Hb. by rewrite length_entries in Hb.
Qed.

(** * Formation *)

(** What an allocation gives to one member. *)
Definition allocated_to (m : Z) (l : list (Z * Z)) : Z :=
  zsum (map (fun ks => if ks.1 =? m then ks.2 else 0) l).

Lemma issue_all_spec l : ∀ r,
  registry_ok r → Forall (fun ks => 0 < ks.2) l → total_issued r + zsum l.*2 ≤ MAX_SHARES →
  ∃ r', issue_all r l = Ok r' ∧ registry_ok r' ∧ total_issued r' = total_issued r + zsum l.*2 ∧
        ∀ k, shares_of r' k = shares_of r k + allocated_to k l.
Proof.
  induction l as [|[m s] l IH]; intros r Hr Hpos Hsum.
  - exists r. split; [done|]. split; [done|]. split; [cbn; lia|]. intros k. unfold allocated_to. cbn. lia.
  - apply Forall_cons in Hpos as [Hs Hpos]. cbn in Hs. cbn [fmap list_fmap zsum snd] in *.
    assert (0 ≤ zsum l.*2) as Hz.
    { apply zsum_nonneg, Forall_fmap. eapply Forall_impl; [exact Hpos|]. intros [] ?; cbn in *; lia. }
    pose proof (total_nonneg r Hr). unfold MAX_SHARES in *.
    destruct (issue_spec r m s Hr) as [Hi _]; [unfold MAX_SHARES; lia|].
    destruct Hi as (r1 & E & Hr1 & Et & Es); [unfold MAX_SHARES; lia|]. cbn [issue_all]. rewrite E.
    destruct (IH r1 Hr1 Hpos) as (r' & E' & Hr' & Et' & Es'); [lia|].
    exists r'. split; [done|]. split; [done|]. split; [lia|].
    intros k. rewrite Es', Es. unfold allocated_to. cbn [map zsum fst snd].
    case_decide as Hk; [subst k; rewrite Z.eqb_refl; lia|]. rewrite (proj2 (Z.eqb_neq m k)) by done. lia.
Qed.

Lemma with_allocation_spec l :
  Forall (fun ks => 0 < ks.2) l → zsum l.*2 ≤ MAX_SHARES →
  ∃ r, with_allocation l = Ok r ∧ registry_ok r ∧ total_issued r = zsum l.*2 ∧
       ∀ k, shares_of r k = allocated_to k l.
Proof.
  intros Hp Hs. destruct (issue_all_spec l registry_new registry_new_ok Hp) as (r & E & Hr & Et & Es); [done|].
  exists r. split; [done|]. split; [done|]. split; [done|]. intros k. by rewrite Es.
Qed.

Lemma total_committed_sum f :
  Forall (fun c => 0 ≤ c_amount c) (commitments f) → zsum (map c_amount (commitments f)) < 2 ^ 128 →
  total_committed f = zsum (map c_amount (commitments f)).
Proof.
  unfold total_committed. intros Hp. change (zsum ?l) with (0 + zsum l).
  assert (∀ cs s, Forall (fun c => 0 ≤ c_amount c) cs → 0 ≤ s → s + zsum (map c_amount cs) < 2 ^ 128 →
          foldl (fun s c => wadd 128 s (c_amount c)) s cs = s + zsum (map c_amount cs)) as Hg; [|by apply Hg].
  clear Hp. induction cs as [|c cs IH]; intros s Hp Hs Hf; cbn [foldl map zsum] in *; [lia|].
  apply Forall_cons in Hp as [Hc Hp].
  assert (0 ≤ zsum (map c_amount cs)).
  { apply zsum_nonneg, Forall_forall. intros x (c' & -> & Hc')%list_elem_of_fmap.
    rewrite Forall_forall in Hp. by apply Hp. }
  rewrite wadd_small by lia. rewrite IH by (done || lia). lia.
Qed.

Lemma allocated_none k l : k ∉ l.*1 → allocated_to k l = 0.
Proof.
  unfold allocated_to. induction l as [|[m s] l IH]; cbn; [done|]. intros [Hk Hl]%not_elem_of_cons.
  rewrite (proj2 (Z.eqb_neq m k)) by done. rewrite IH by done. lia.
Qed.

Section weigh.
Context (total : Z) (n : nat).
Hypothesis total_pos : 0 < total.
Hypothesis total_fits : total * MAX_SHARES < 2 ^ 128.

Definition percent (c : Commitment) : Z := c_amount c * MAX_SHARES / total.

Lemma weigh_spec cs : ∀ i A,
  (i + length cs = n)%nat → cs ≠ [] → 0 ≤ A → Forall (fun c => 0 ≤ c_amount c) cs →
  zsum (map c_amount cs) ≤ total → A * total ≤ MAX_SHARES * (total - zsum (map c_amount cs)) →
  Forall (fun ks => 0 < ks.2) (weigh total n i A cs) ∧
  zsum (weigh total n i A cs).*2 = MAX_SHARES - A ∧
  (∀ k, k ∈ (weigh total n i A cs).*1 → k ∈ map c_member cs) ∧
  (NoDup (map c_member cs) → ∀ j c, cs !! j = Some c → (S j < length cs)%nat →
     allocated_to (c_member c) (weigh total n i A cs) = percent c).
Proof.
  induction cs as [|c cs IH]; intros i A Hi Hne HA Hpos Hsum Hlo; [done|].
  apply Forall_cons in Hpos as [Hc Hpos]. cbn [map zsum length] in *.
  assert (0 ≤ zsum (map c_amount cs)) as Hz.
  { apply zsum_nonneg, Forall_forall. intros x (c' & -> & Hc')%list_elem_of_fmap.
    rewrite Forall_forall in Hpos. by apply Hpos. }
  unfold MAX_SHARES in *. cbn [weigh]. destruct (Nat.eqb_spec i (n - 1)) as [El|El].
  - destruct cs as [|]; [|cbn in Hi; lia]. unfold MAX_SHARES. rewrite wsub_small by nia.
    cbn [weigh length map zsum] in *. destruct (Z.ltb_spec 0 (100 - A)); cbn; repeat split.
    + by constructor.
    + lia.
    + set_solver.
    + intros _ j c' _ Hj. lia.
    + constructor.
    + assert (A ≤ 100) by nia. lia.
    + set_solver.
    + intros _ j c' _ Hj. lia.
  - assert (cs ≠ []) as Hne' by (intros ->; cbn in Hi; lia).
    assert (c_amount c * 100 < 2 ^ 128) by nia. unfold MAX_SHARES.
    rewrite wmul_small by lia.
    pose proof (Z.div_mod (c_amount c * 100) total ltac:(lia)) as Hdm.
    pose proof (Z.mod_pos_bound (c_amount c * 100) total ltac:(lia)) as Hmb.
    assert (0 ≤ c_amount c * 100 / total ≤ 100) as Hq by (split; [apply Z.div_pos|]; nia).
    rewrite wrap_small by (unfold fits; lia).
    assert (A + c_amount c * 100 / total ≤ 100) as HAq by nia.
    assert (percent c = c_amount c * 100 / total) as Hpc by done.
    destruct (Z.ltb_spec 0 (c_amount c * 100 / total)) as [Hlt|Hge].
    + rewrite wadd_small by lia.
      destruct (IH (S i) (A + c_amount c * 100 / total)) as (F1 & F2 & F3 & F4); try done; [lia|lia|lia|nia|].
      cbn [fmap list_fmap fst snd zsum]. split; [by constructor|]. split; [rewrite F2; lia|].
      split; [intros k; rewrite !elem_of_cons; intros [->|Hk]; [by left | right; by apply F3]|].
      intros [Hn Hnd]%NoDup_cons [|j] c' Hc' Hj; cbn in Hc'.
      * injection Hc' as <-. unfold allocated_to. cbn [map zsum fst snd]. rewrite Z.eqb_refl.
        fold (allocated_to (c_member c) (weigh total n (S i) (A + c_amount c * 100 / total) cs)).
        rewrite allocated_none; [lia|]. by intros Hk%F3.
      * unfold allocated_to. cbn [map zsum fst snd]. rewrite (proj2 (Z.eqb_neq _ _)).
        2: { intros E. apply Hn. rewrite E. apply list_elem_of_fmap. exists c'. split; [done|].
             by apply list_elem_of_lookup_2 in Hc'. }
        fold (allocated_to (c_member c') (weigh total n (S i) (A + c_amount c * 100 / total) cs)).
        rewrite (F4 Hnd j c' Hc') by lia. lia.
    + assert (c_amount c * 100 / total = 0) as E0 by lia.
      destruct (IH (S i) A) as (F1 & F2 & F3 & F4); try done; [lia|lia|nia|].
      split; [done|]. split; [done|]. split; [intros k Hk; right; by apply F3|].
      intros [Hn Hnd]%NoDup_cons [|j] c' Hc' Hj; cbn in Hc'.
      * injection Hc' as <-. rewrite allocated_none; [lia|]. by intros Hk%F3.
      * apply (F4 Hnd j c' Hc'). lia.
Qed.
End weigh.

(** The calls that fill a formation. *)
Inductive formation_step : Formation → Formation → Prop :=
| fs_commit f f' m a addr : 0 ≤ a → commit f m a addr = Ok f' → formation_step f f'
| fs_policy f p : formation_step f (with_policy f p)
| fs_rules f r : formation_step f (with_rules f r).

Record forming (mode : FormationMode) (f : Formation) : Prop := {
  fm_open : finalized f = false;
  fm_mode : f_mode f = mode;
  fm_nodup : NoDup (map c_member (commitments f));
  fm_pos : Forall (fun c => 0 ≤ c_amount c) (commitments f);
}.

Lemma formation_step_forming mode f f' : formation_step f f' → forming mode f → forming mode f'.
Proof.
  intros Hst [Ho Hm Hn Hp]. destruct Hst as [f f' m a addr Ha E | f p | f r]; [|by split..].
  unfold commit in E. rewrite Ho in E. destruct (match f_mode f with CapitalWeighted _ => _ | _ => _ end); [done|].
  destruct (existsb _ _) eqn:Ex; [done|]. injection E as <-. split; cbn; [done|done| |].
  - rewrite map_app. apply NoDup_app. split; [done|]. split; [|apply NoDup_singleton].
    intros x Hx Hx'%list_elem_of_singleton. cbn in Hx'. subst x.
    apply list_elem_of_fmap in Hx as (c & Ec & Hc). apply not_true_iff_false in Ex. apply Ex, existsb_exists.
    exists c. split; [by apply list_elem_of_In|]. by apply Z.eqb_eq.
  - apply Forall_app. split; [done|]. by constructor.
Qed.

Lemma formation_reach mode f : rtc formation_step (formation_new mode) f → forming mode f.
Proof.
  intros Hf. assert (forming mode (formation_new mode)) as H0 by (split; cbn; [done|done|constructor|constructor]).
  induction Hf; [done|]. eauto using formation_step_forming.
Qed.

(** An equal part, one more for the first [extra] of them, counted from [k]. *)
Definition equal_parts (q extra : Z) (k : nat) (cs : list Commitment) : list (Z * Z) :=
  imap (fun i c => (c_member c, q + (if wrap 32 (Z.of_nat (k + i)) <? extra then 1 else 0))) cs.

Lemma equal_parts_cons q extra k c cs :
  equal_parts q extra k (c :: cs) =
  (c_member c, q + (if wrap 32 (Z.of_nat k) <? extra then 1 else 0)) :: equal_parts q extra (S k) cs.
Proof.
  unfold equal_parts. rewrite imap_cons, Nat.add_0_r. f_equal. apply imap_ext. intros i x _. cbn.
  by rewrite Nat.add_succ_r.
Qed.

Lemma equal_parts_spec q extra cs : ∀ k,
  0 < q → Z.of_nat (k + length cs) < 2 ^ 32 →
  Forall (fun ks => 0 < ks.2) (equal_parts q extra k cs) ∧
  zsum (equal_parts q extra k cs).*2 =
    Z.of_nat (length cs) * q + Z.max 0 (Z.min (Z.of_nat (length cs)) (extra - Z.of_nat k)) ∧
  (∀ m, m ∈ (equal_parts q extra k cs).*1 → m ∈ map c_member cs) ∧
  (NoDup (map c_member cs) → ∀ j c, cs !! j = Some c →
     allocated_to (c_member c) (equal_parts q extra k cs)
     = q + (if Z.of_nat (k + j) <? extra then 1 else 0)).
Proof.
  induction cs as [|c cs IH]; intros k Hq Hk;
    [split; [constructor | split; [cbn; lia | split; [set_solver | done]]]|].
  cbn [length] in Hk. destruct (IH (S k) Hq ltac:(lia)) as (F1 & F2 & F3 & F4).
  rewrite equal_parts_cons. rewrite wrap_small by (unfold fits; lia).
  cbn [fmap list_fmap fst snd zsum map length]. split; [|split; [|split]].
  - constructor; [|done]. cbn. case_match; lia.
  - rewrite F2. destruct (Z.ltb_spec (Z.of_nat k) extra); lia.
  - intros m. rewrite !elem_of_cons. intros [->|Hm]; [by left | right; by apply F3].
  - intros [Hn Hnd]%NoDup_cons [|j] c' Hc'; cbn in Hc'; unfold allocated_to; cbn [map zsum fst snd].
    + injection Hc' as <-. rewrite Z.eqb_refl, Nat.add_0_r.
      fold (allocated_to (c_member c) (equal_parts q extra (S k) cs)).
      rewrite allocated_none; [lia|]. by intros Hm%F3.
    + rewrite (proj2 (Z.eqb_neq _ _)).
      2: { intros E. apply Hn. rewrite E. apply list_elem_of_fmap. exists c'. split; [done|].
           by apply list_elem_of_lookup_2 in Hc'. }
      fold (allocated_to (c_member c') (equal_parts q extra (S k) cs)).
      rewrite (F4 Hnd j c' Hc'). rewrite Nat.add_succ_r. cbn. lia.
Qed.

Lemma issue_all_zero r m l : issue_all r ((m, 0) :: l) = Err ZeroShares.
Proof. done. Qed.

(** Every mode hands out the hundred shares, to whom the mode says. *)
Definition formed (mode : FormationMode) (f : Formation) (r : ShareRegistry) : Prop :=
  let cs := commitments f in
  let total := zsum (map c_amount cs) in
  ∀ i c, cs !! i = Some c →
    match mode with
    | CapitalWeighted _ => (S i < length cs)%nat → shares_of r (c_member c) = c_amount c * MAX_SHARES / total
    | FounderControlled h => shares_of r (c_member c) = if c_member c =? h then MAX_SHARES else 0
    | EqualShares =>
        let n := Z.of_nat (length cs) in
        shares_of r (c_member c) = MAX_SHARES / n + (if Z.of_nat i <? MAX_SHARES mod n then 1 else 0)
    end.

(** What [formation_finalize] needs to succeed. *)
Definition can_finalize (f : Formation) : Prop :=
  commitments f ≠ [] ∧
  match f_mode f with
  | CapitalWeighted _ => 0 < zsum (map c_amount (commitments f))
  | FounderControlled _ => True
  | EqualShares => Z.of_nat (length (commitments f)) ≤ MAX_SHARES
  end.

Lemma finalize_weighted f m :
  forming (CapitalWeighted m) f → can_finalize f →
  zsum (map c_amount (commitments f)) * MAX_SHARES < 2 ^ 128 →
  ∃ r, allocate_capital_weighted f = Ok r ∧ registry_ok r ∧ total_issued r = MAX_SHARES ∧
       formed (CapitalWeighted m) f r.
Proof.
  intros [Ho Em Hn Hp] [Hne Hc] Hf. rewrite Em in Hc. unfold allocate_capital_weighted.
  rewrite total_committed_sum by (done || unfold MAX_SHARES in *; lia).
  rewrite (proj2 (Z.eqb_neq _ 0)) by lia.
  destruct (weigh_spec _ (length (commitments f)) Hc Hf (commitments f) 0 0) as (F1 & F2 & F3 & F4);
    try done; try lia.
  destruct (with_allocation_spec _ F1) as (r & E & Hr & Et & Es); [rewrite F2; lia|].
  exists r. rewrite E. split; [done|]. split; [done|]. split; [rewrite Et, F2; lia|].
  intros i c Hi Hl. rewrite Es. by apply (F4 Hn i).
Qed.

Lemma finalize_equal f :
  forming EqualShares f → can_finalize f →
  ∃ r, allocate_equal f = Ok r ∧ registry_ok r ∧ total_issued r = MAX_SHARES ∧ formed EqualShares f r.
Proof.
  intros [Ho Em Hn Hp] [Hne Hc]. rewrite Em in Hc. unfold MAX_SHARES in *.
  assert (0 < length (commitments f))%nat as Hl by (destruct (commitments f); cbn; [done|lia]).
  unfold allocate_equal, MAX_SHARES. rewrite wrap_small by (unfold fits; lia).
  rewrite (proj2 (Z.eqb_neq _ 0)) by lia.
  remember (Z.of_nat (length (commitments f))) as n.
  pose proof (Z.div_mod 100 n ltac:(lia)) as Hdm. pose proof (Z.mod_pos_bound 100 n ltac:(lia)) as Hmb.
  assert (0 < 100 / n) as Hq by (apply Z.div_str_pos; lia).
  destruct (equal_parts_spec (100 / n) (100 mod n) (commitments f) 0 Hq) as (F1 & F2 & F3 & F4); [lia|].
  destruct (with_allocation_spec _ F1) as (r & E & Hr & Et & Es); [rewrite F2; unfold MAX_SHARES; lia|].
  exists r. split; [change (map_alloc_err (with_allocation (equal_parts (100 / n) (100 mod n) 0 (commitments f))) = Ok r); by rewrite E|].
  split; [done|]. split; [rewrite Et, F2; lia|].
  intros i c Hi. rewrite Es. rewrite (F4 Hn i c Hi). by rewrite <-Heqn.
Qed.

(** However a formation was filled, finalizing it hands out exactly the hundred
    shares and as its mode says: by capital, each contributor but the last gets their
    percentage rounded down (so nothing for less than one percent) and the last the rest;
    the founder gets everything; equal parts differ by at most one share. *)
Lemma formation_allocates_all mode f :
  rtc formation_step (formation_new mode) f → can_finalize f →
  zsum (map c_amount (commitments f)) * MAX_SHARES < 2 ^ 128 →
  ∃ r, formation_finalize f = Ok (r, f_rules f, f_policy f) ∧ registry_ok r ∧
       total_issued r = MAX_SHARES ∧ formed mode f r.
Proof.
  intros Hf%formation_reach Hc Hs. pose proof Hf as [Ho Em Hn Hp]. pose proof Hc as [Hne _].
  assert (∀ x r, (match f_mode f with
                  | CapitalWeighted _ => allocate_capital_weighted f
                  | FounderControlled founder => allocate_founder_controlled founder
                  | EqualShares => allocate_equal f end) = x → x = Ok r →
          formation_finalize f = Ok (r, f_rules f, f_policy f)) as Hfin.
  { intros x r Ex ->. unfold formation_finalize. by rewrite Ho, bool_decide_eq_false_2, Ex. }
  rewrite Em in Hfin. destruct mode as [m|h|].
  - destruct (finalize_weighted f m Hf Hc Hs) as (r & E & Hr). exists r. split; [by eapply Hfin|done].
  - destruct (with_allocation_spec [(h, MAX_SHARES)]) as (r & E & Hr & Et & Es); [by repeat constructor|done|].
    exists r. split; [eapply Hfin; [done|]; unfold allocate_founder_controlled; by rewrite E|].
    split; [done|]. split; [done|]. intros i c Hi. rewrite Es. unfold allocated_to. cbn.
    rewrite (Z.eqb_sym h). destruct (c_member c =? h); lia.
  - destruct (finalize_equal f Hf Hc) as (r & E & Hr). exists r. split; [by eapply Hfin|done].
Qed.

(** Equal parts for more than a hundred members are refused. *)
Lemma too_many_for_equal f :
  forming EqualShares f → MAX_SHARES < Z.of_nat (length (commitments f)) < 2 ^ 32 →
  ∃ r, issue_all registry_new (firstn 100 (equal_parts 0 100 0 (commitments f))) = Ok r ∧
       formation_finalize f = Err (AllocationFailed ZeroShares).
Proof.
  intros [Ho Em Hn Hp] Hl. unfold MAX_SHARES in *.
  assert (commitments f ≠ []) as Hne by (intros E; rewrite E in Hl; cbn in Hl; lia).
  assert (∀ l1 l2 r, issue_all registry_new l1 = Ok r →
                     issue_all registry_new (l1 ++ l2) = issue_all r l2) as Happ.
  { intros l1 l2. generalize registry_new. induction l1 as [|[m s] l1 IH]; intros r0 r; cbn; [by intros [= <-]|].
    destruct (issue r0 m s); [apply IH|done]. }
  assert (∀ cs k, Z.of_nat (k + length cs) < 2 ^ 32 → (k + length cs ≤ 100)%nat →
          equal_parts 0 100 k cs = map (fun c => (c_member c, 1)) cs) as Hones.
  { induction cs as [|c cs IH]; intros k Hk Hk'; [done|]. cbn [length] in *. rewrite equal_parts_cons, wrap_small by (unfold fits; lia).
    rewrite (proj2 (Z.ltb_lt _ _)) by lia. cbn [map]. by rewrite IH by lia. }
  set (cs := commitments f) in *.
  assert (firstn 100 (equal_parts 0 100 0 cs) = map (fun c => (c_member c, 1)) (firstn 100 cs)) as Efst.
  { rewrite <-(Hones _ 0%nat) by (rewrite length_take; lia). unfold equal_parts. rewrite <-(firstn_skipn 100 cs) at 1.
    rewrite imap_app, take_app_length' by (rewrite length_imap, length_take; lia). done. }
  destruct (with_allocation_spec (map (fun c => (c_member c, 1)) (firstn 100 cs))) as (r & E & Hr & Et & _).
  { apply Forall_fmap, Forall_true. done. }
  { rewrite <-list_fmap_compose. change (fmap (snd ∘ _) ?l) with (map (fun _ : Commitment => 1) l).
    assert (∀ l : list Commitment, zsum (map (fun _ => 1) l) = Z.of_nat (length l)) as Hlen.
    { induction l; cbn [map zsum length]; lia. }
    rewrite Hlen, length_take. unfold MAX_SHARES. lia. }
  exists r. rewrite Efst. split; [done|].
  unfold formation_finalize. rewrite Ho, bool_decide_eq_false_2, Em by done. unfold allocate_equal, MAX_SHARES.
  fold cs. rewrite wrap_small by (unfold fits; lia). rewrite (proj2 (Z.eqb_neq _ 0)) by lia.
  rewrite Z.div_small, Z.mod_small by lia.
  change (imap _ cs) with (equal_parts 0 100 0 cs). unfold with_allocation.
  rewrite <-(firstn_skipn 100 (equal_parts 0 100 0 cs)). erewrite Happ by (rewrite Efst; exact E).
  destruct (cs !! 100%nat) as [c|] eqn:Ec; [|apply lookup_ge_None in Ec; lia].
  assert (equal_parts 0 100 0 cs !! 100%nat = Some (c_member c, 0)) as E100.
  { unfold equal_parts. rewrite list_lookup_imap, Ec. done. }
  erewrite drop_S by exact E100. done.
Qed.

(** * Votes *)

(** Over any history of issues, transfers and burns the shares held add up to the
    shares issued, at most a hundred; and a proposal voted on in such a registry passes
    exactly when the shares of the members who approved it, each counted once, reach the
    threshold of its kind and, where the rules ask for one, the quorum. *)
Lemma passed_by_shares r id act p rules :
  rtc registry_step registry_new r → rtc (votes_in r) (proposal_new id act) p →
  0 ≤ quorum_percentage rules < 2 ^ 25 →
  registry_ok r ∧
  (p_state (finalize p rules r) = ProposalState.Passed ↔
   let yes := msum (side true r) (votes p) in
   let no := msum (side false r) (votes p) in
   0 < total_issued r ∧ threshold_for rules (action_type p) * total_issued r ≤ 100 * yes ∧
   (require_quorum rules = true → total_issued r * quorum_percentage rules / 100 ≤ yes + no)).
Proof.
  intros Hreach Hv Hq. assert (registry_ok r) as Hr by (eapply registry_reach_ok, registry_new_ok; done).
  split; [done|]. pose proof (votes_tally r id act p Hr Hv) as Hp. destruct (tally_bounds r p Hr Hp) as (Hy & Hn & Hb).
  pose proof (held_cap _ Hr). pose proof (total_nonneg r Hr). destruct Hp as [Ho Ey En].
  rewrite finalize_passed by (done || unfold MAX_SHARES in *; lia). by rewrite Ey, En.
Qed.

Lemma vote_fresh p m approve r s :
  p_state p = ProposalState.Open → votes p !! m = None → shares_of r m = s → s ≠ 0 →
  vote p m approve r =
    Ok (let p := p <| votes := <[m := (approve, s)]> (votes p) |> in
        if approve then p <| yes_shares := wadd 32 (yes_shares p) s |>
        else p <| no_shares := wadd 32 (no_shares p) s |>).
Proof.
  intros Ho Hm <- Hs. unfold vote. rewrite Ho, bool_decide_eq_true_2 by done. cbn [negb].
  rewrite Hm, bool_decide_eq_false_2 by (by intros []). by rewrite (proj2 (Z.eqb_neq _ 0)) by done.
Qed.

(** The weight of a vote is read when it is cast and nothing stops the shares from
    moving while the proposal is open: a member who votes, transfers the shares to an
    account without any and votes again from there counts them twice, and passes whatever
    twice their shares would pass. *)
Lemma shares_vote_twice r id act rules a b s :
  registry_ok r → shares_of r a = s → 0 < s → shares_of r b = 0 →
  0 ≤ quorum_percentage rules < 2 ^ 25 →
  ∃ p r' p',
    vote (proposal_new id act) a true r = Ok p ∧
    transfer r a b s = Ok r' ∧
    vote p b true r' = Ok p' ∧
    yes_shares p' = 2 * s ∧
    (threshold_for rules act * total_issued r ≤ 200 * s →
     (require_quorum rules = true → total_issued r * quorum_percentage rules / 100 ≤ 2 * s) →
     p_state (finalize p' rules r') = ProposalState.Passed).
Proof.
  intros Hr Ha Hs Hb Hq. pose proof (held_cap _ Hr) as Hc. pose proof (shares_le_total r a Hr) as Hl.
  pose proof (total_nonneg r Hr) as Ht. assert (a ≠ b) as Hab by (intros ->; lia). unfold MAX_SHARES in *.
  destruct (transfer_spec r a b s Hr Hs) as [(r' & Er & Hr' & Et & Eb & _) _]; [lia|].
  rewrite decide_False in Eb by done.
  eexists _, r', _. split; [apply vote_fresh; [done | apply lookup_empty | exact Ha | lia]|]. split; [exact Er|].
  split; [apply (vote_fresh _ b true r' s); [done | | lia | lia]; cbn; by rewrite lookup_insert_ne, lookup_empty by done|].
  assert (∀ x, x = wadd 32 (wadd 32 0 s) s → x = 2 * s) as Hy by (intros x ->; rewrite (wadd_small 32 0), wadd_small; lia).
  split; [by apply Hy|]. intros Hth Hqr. apply finalize_passed; cbn; rewrite ?(Hy _ eq_refl); try done;
    unfold MAX_SHARES in *; try lia. split; [lia|]. split; [rewrite Et; lia|]. rewrite Et. intros Hrq. specialize (Hqr Hrq). lia.
Qed.

(** * Witnesses *)

Definition thirds : ShareRegistry := mkShareRegistry {[1 := 33; 2 := 33; 3 := 34]} 100.

Lemma thirds_ok : registry_ok thirds.
Proof.
  split; [|vm_compute; reflexivity|vm_compute; congruence]. intros m s. unfold thirds. cbn [holdings].
  intros [[_ <-]|[_ [[_ <-]|[_ [_ <-]%lookup_singleton_Some]]%lookup_insert_Some]]%lookup_insert_Some; lia.
Qed.

Lemma distribution_exact_witness :
  calculate 1000 thirds = Some {[1 := 330; 2 := 330; 3 := 340]} ∧
  ∃ al, calculate 1001 thirds = Some al ∧ total_of al = 1001.
Proof.
  split; [vm_compute; reflexivity|].
  destruct (distribution_exact 1001 thirds thirds_ok) as (al & E & _ & Et & _); [done..|].
  exists al. by split.
Defined.

Definition three_founders : Formation :=
  mkFormation (CapitalWeighted 100) Fixed rules_default
    [mkCommitment 1 300 []; mkCommitment 2 500 []; mkCommitment 3 203 []] false.

Lemma formation_allocates_all_witness :
  ∃ r, formation_finalize three_founders = Ok (r, rules_default, Fixed) ∧
       total_issued r = 100 ∧ shares_of r 1 = 29 ∧ shares_of r 2 = 49.
Proof.
  destruct (formation_allocates_all (CapitalWeighted 100) three_founders) as (r & E & _ & Et & Hf).
  - eapply rtc_l; [apply (fs_commit _ _ 1 300 []); [lia | reflexivity]|].
    eapply rtc_l; [apply (fs_commit _ _ 2 500 []); [lia | reflexivity]|].
    eapply rtc_l; [apply (fs_commit _ _ 3 203 []); [lia | reflexivity]|]. apply rtc_refl.
  - split; [done|]. cbn. lia.
  - vm_compute. reflexivity.
  - exists r. split; [exact E|]. split; [exact Et|].
    assert (S 0 < 3 ∧ S 1 < 3)%nat as [H0 H1] by lia.
    split; [exact (Hf 0%nat (mkCommitment 1 300 []) eq_refl H0) | exact (Hf 1%nat (mkCommitment 2 500 []) eq_refl H1)].
Defined.

(** Two issues, a transfer, and a vote for. *)
Lemma passed_by_shares_witness :
  ∃ r p, total_issued r = 100 ∧
    p_state (finalize p rules_default r) = ProposalState.Passed ∧ registry_ok r.
Proof.
  set (r1 := mkShareRegistry {[1 := 70]} 70). set (r2 := mkShareRegistry {[2 := 30; 1 := 70]} 100).
  set (r := mkShareRegistry {[2 := 40; 1 := 60]} 100).
  set (p := (proposal_new 0 ActionType.Routine) <| votes := {[1 := (true, 60)]} |> <| yes_shares := 60 |>).
  destruct (passed_by_shares r 0 ActionType.Routine p rules_default) as [Hr Hp].
  - eapply rtc_l; [apply (step_issue _ r1 1 70); [unfold MAX_SHARES; lia | vm_compute; reflexivity]|].
    eapply rtc_l; [apply (step_issue _ r2 2 30); [unfold MAX_SHARES; lia | vm_compute; reflexivity]|].
    eapply rtc_l; [apply (step_transfer _ r 1 2 10); [lia | vm_compute; reflexivity]|]. apply rtc_refl.
  - eapply rtc_l; [exists 1, true; vm_compute; reflexivity | apply rtc_refl].
  - vm_compute. split; congruence.
  - exists r, p. split; [done|]. split; [|done]. apply Hp. vm_compute. repeat split; congruence.
Defined.

Lemma shares_vote_twice_witness :
  ∃ p r' p', vote (proposal_new 7 ActionType.Routine) 3 true thirds = Ok p ∧ transfer thirds 3 4 34 = Ok r' ∧
    vote p 4 true r' = Ok p' ∧ p_state (finalize p' rules_default r') = ProposalState.Passed.
Proof.
  destruct (shares_vote_twice thirds 7 ActionType.Routine rules_default 3 4 34 thirds_ok)
    as (p & r' & p' & E1 & E2 & E3 & _ & H); [vm_compute; reflexivity | lia | vm_compute; reflexivity | vm_compute; split; congruence |].
  exists p, r', p'. repeat split; [exact E1 | exact E2 | exact E3 |]. apply H; vm_compute; congruence.
Defined.
