(* ===== verification/NarStake.v ===== *)
(** The staking token, [crates/narsil/src/staking.rs]: one pool per validator with its own
    exchange rate, delegations, undelegations waiting out their time, and the rake of an
    era shared out by raising the rates.

    What the pools and the waiting undelegations are worth is bounded by what came in. *)
From stdpp Require Import base list gmap.
From Stdlib Require Import ZArith Lia.
From S2P Require Import Prelude OrdMap.

Local Open Scope Z_scope.

Definition RATE_SCALE : Z := 100000000.
Definition INITIAL_RATE : Z := RATE_SCALE.

Record ValidatorPool := mkValidatorPool {
  v_validator : Z;
  exchange_rate : Z;
  total_nzec : Z;
  commission_bps : Z;
  active : bool;
}.
#[export] Instance ValidatorPool_eta : Eta ValidatorPool := fun p =>
  mkValidatorPool (v_validator p) (exchange_rate p) (total_nzec p) (commission_bps p) (active p).

Definition pool_new (validator bps : Z) : ValidatorPool := mkValidatorPool validator INITIAL_RATE 0 bps true.

(** [total_nzec * exchange_rate / RATE_SCALE] *)
Definition pool_value (p : ValidatorPool) : Z := wmul 128 (total_nzec p) (exchange_rate p) / RATE_SCALE.

Definition total_zec (p : ValidatorPool) : Z := wrap 64 (pool_value p).

(** [None] is the division by a zero rate. *)
Definition zec_to_nzec (p : ValidatorPool) (zec : Z) : option Z :=
  if exchange_rate p =? 0 then None else Some (wmul 128 zec RATE_SCALE / exchange_rate p).

Definition nzec_to_zec (p : ValidatorPool) (nzec : Z) : Z := wrap 64 (wmul 128 nzec (exchange_rate p) / RATE_SCALE).

Record Delegation := mkDelegation { d_delegator : Z; d_validator : Z; d_nzec : Z; d_start_era : Z }.
#[export] Instance Delegation_eta : Eta Delegation := fun d =>
  mkDelegation (d_delegator d) (d_validator d) (d_nzec d) (d_start_era d).

Record Undelegation := mkUndelegation {
  u_delegator : Z;
  u_validator : Z;
  u_nzec : Z;
  u_zec_value : Z;
  u_completion_era : Z;
}.
#[export] Instance Undelegation_eta : Eta Undelegation := fun u =>
  mkUndelegation (u_delegator u) (u_validator u) (u_nzec u) (u_zec_value u) (u_completion_era u).

Inductive StakingError :=
| UnknownValidator (v : Z)
| PoolInactive
| InsufficientBalance (has needs : Z)
| StillUnbonding (current_era completion_era : Z)
| AlreadyRegistered
| ZeroAmount.

Record EraRewards := mkEraRewards { er_era : Z; er_total_rake : Z; er_distributions : list (Z * Z * Z) }.

Record Staking := mkStaking {
  pools : gmap Z ValidatorPool;
  delegations : gmap (Z * Z) Delegation;
  undelegations : list Undelegation;
  current_era : Z;
  unbonding_eras : Z;
  era_rake : Z;
}.
#[export] Instance Staking_eta : Eta Staking := fun s =>
  mkStaking (pools s) (delegations s) (undelegations s) (current_era s) (unbonding_eras s) (era_rake s).

Definition staking_new (unbonding : Z) : Staking := mkStaking ∅ ∅ [] 0 unbonding 0.

Definition register_pool (s : Staking) (validator bps : Z) : result Staking StakingError :=
  if bool_decide (is_Some (pools s !! validator)) then Err AlreadyRegistered
  else Ok (s <| pools := <[validator := pool_new validator bps]> (pools s) |>).

(** The new state and the nZEC handed out. *)
Definition delegate (s : Staking) (delegator validator zec : Z) : option (result (Staking * Z) StakingError) :=
  if zec =? 0 then Some (Err ZeroAmount)
  else
    match pools s !! validator with
    | None => Some (Err (UnknownValidator validator))
    | Some p =>
        if negb (active p) then Some (Err PoolInactive)
        else
          match zec_to_nzec p zec with
          | None => None
          | Some nzec =>
              let d := default (mkDelegation delegator validator 0 (current_era s))
                               (delegations s !! (delegator, validator)) in
              Some (Ok (s <| pools := <[validator := p <| total_nzec := wadd 128 (total_nzec p) nzec |>]> (pools s) |>
                          <| delegations := <[(delegator, validator) := d <| d_nzec := wadd 128 (d_nzec d) nzec |>]>
                                              (delegations s) |>,
                        nzec))
          end
    end.

Definition undelegate (s : Staking) (delegator validator nzec : Z) : result (Staking * Undelegation) StakingError :=
  if nzec =? 0 then Err ZeroAmount
  else
    match delegations s !! (delegator, validator) with
    | None => Err (UnknownValidator validator)
    | Some d =>
        if d_nzec d <? nzec then Err (InsufficientBalance (d_nzec d) nzec)
        else
          match pools s !! validator with
          | None => Err (UnknownValidator validator)
          | Some p =>
              let left := wsub 128 (d_nzec d) nzec in
              let u := mkUndelegation delegator validator nzec (nzec_to_zec p nzec)
                         (wadd 64 (current_era s) (unbonding_eras s)) in
              Ok (s <| pools := <[validator := p <| total_nzec := wsub 128 (total_nzec p) nzec |>]> (pools s) |>
                    <| delegations := if left =? 0 then delete (delegator, validator) (delegations s)
                                      else <[(delegator, validator) := d <| d_nzec := left |>]> (delegations s) |>
                    <| undelegations := undelegations s ++ [u] |>,
                  u)
          end
    end.

(** Claimable: the delegator's own, with their time over. *)
Definition claimable (s : Staking) (delegator : Z) (u : Undelegation) : bool :=
  (u_delegator u =? delegator) && (u_completion_era u <=? current_era s).

Definition claim_undelegations (s : Staking) (delegator : Z) : Staking * Z :=
  (s <| undelegations := filter (fun u => claimable s delegator u = false) (undelegations s) |>,
   foldl (fun t u => wadd 64 t (u_zec_value u)) 0 (filter (fun u => claimable s delegator u = true) (undelegations s))).

Definition add_rake (s : Staking) (amount : Z) : Staking := s <| era_rake := wadd 64 (era_rake s) amount |>.

(** ** The end of an era *)

(** A pool's part of the rake: [(delegator_reward, commission)]. *)
Definition pool_rewards (distributable staked : Z) (p : ValidatorPool) : Z * Z :=
  let pool_reward := wmul 128 distributable (pool_value p) / staked in
  let commission := wmul 128 pool_reward (commission_bps p) / 10000 in
  (wsub 128 pool_reward commission, commission).

Definition earns (p : ValidatorPool) : bool := active p && negb (total_nzec p =? 0).

(** The rate after the reward. *)
Definition reward_pool (distributable staked : Z) (p : ValidatorPool) : ValidatorPool :=
  if earns p then
    if 0 <? pool_value p then
      p <| exchange_rate := wadd 128 (exchange_rate p)
             (wmul 128 (exchange_rate p) (pool_rewards distributable staked p).1 / pool_value p) |>
    else p
  else p.

Definition dev_cut (total_rake bps : Z) : Z := wrap 64 (wmul 128 total_rake bps / 10000).

Definition sum128 (l : list Z) : Z := foldl (wadd 128) 0 l.

(** The value of the active pools. *)
Definition staked_value (s : Staking) : Z :=
  sum128 (map pool_value (filter (fun p => active p = true) (values (pools s)))).

Definition end_era (s : Staking) (dev_fund_bps : Z) : Staking * EraRewards :=
  let total_rake := era_rake s in
  let distributable := wsub 64 total_rake (dev_cut total_rake dev_fund_bps) in
  let staked := staked_value s in
  let pays := (0 <? staked) && (0 <? distributable) in
  let pools' := if pays then reward_pool distributable staked <$> pools s else pools s in
  let paid := if pays then
      map (fun p => (v_validator p, wrap 64 (pool_rewards distributable staked p).1,
                     wrap 64 (pool_rewards distributable staked p).2))
          (filter (fun p => earns p = true) (values (pools s)))
    else [] in
  let era := wadd 64 (current_era s) 1 in
  (s <| pools := pools' |> <| current_era := era |> <| era_rake := 0 |>,
   mkEraRewards era total_rake paid).

(** ** Slashing *)

Definition slash_undelegation (s : Staking) (validator bps : Z) (u : Undelegation) : Undelegation :=
  if (u_validator u =? validator) && (current_era s <? u_completion_era u)
  then u <| u_zec_value := sat_sub (u_zec_value u) (wrap 64 (wmul 128 (u_zec_value u) bps / 10000)) |>
  else u.

Definition slash (s : Staking) (validator bps : Z) : result (Staking * Z) StakingError :=
  match pools s !! validator with
  | None => Err (UnknownValidator validator)
  | Some p =>
      let p' := p <| exchange_rate := wmul 128 (exchange_rate p) (wsub 128 10000 bps) / 10000 |> in
      Ok (s <| pools := <[validator := p']> (pools s) |>
            <| undelegations := map (slash_undelegation s validator bps) (undelegations s) |>,
          sat_sub (total_zec p) (total_zec p'))
  end.

(** ** Queries *)

Definition total_staked (s : Staking) : Z := foldl (wadd 64) 0 (map total_zec (values (pools s))).

Definition nzec_balance (s : Staking) (delegator : Z) : list (Z * Z * Z) :=
  omap (fun '((d, v), del) =>
          if d =? delegator
          then (fun p => (v, d_nzec del, nzec_to_zec p (d_nzec del))) <$> pools s !! v
          else None)
       (entries (delegations s)).

Definition nomination_power (s : Staking) (delegator : Z) : Z :=
  foldl (wadd 64) 0 (map snd (nzec_balance s delegator)).
