(* ===== verification/NarBooks.v ===== *)
(** The books of the staking token of [NarStake.v]: what its pools and its waiting
    undelegations are worth, against what was deposited, raked and paid out. *)
From stdpp Require Import base list gmap.
From Stdlib Require Import ZArith Lia.
From S2P Require Import Prelude OrdMap NarStake.

Local Open Scope Z_scope.

(** * Arithmetic *)

Lemma wrap_le w x : 0 ≤ x → 0 ≤ w → 0 ≤ wrap w x ≤ x.
Proof.
  intros Hx Hw. unfold wrap. pose proof (Z.pow_pos_nonneg 2 w ltac:(lia) Hw).
  split; [apply Z.mod_pos_bound; lia | apply Z.mod_le; lia].
Qed.

Lemma wmul_le w a b : 0 ≤ a → 0 ≤ b → 0 ≤ w → 0 ≤ wmul w a b ≤ a * b.
Proof. intros. apply wrap_le; [nia|done]. Qed.

Lemma wadd_le w a b : 0 ≤ a → 0 ≤ b → 0 ≤ w → 0 ≤ wadd w a b ≤ a + b.
Proof. intros. apply wrap_le; lia. Qed.

Lemma foldl_wadd_le w l : ∀ s, 0 ≤ w → 0 ≤ s → Forall (Z.le 0) l → 0 ≤ foldl (wadd w) s l ≤ s + zsum l.
Proof.
  induction l as [|x l IH]; intros s Hw Hs Hl; cbn [foldl zsum]; [lia|].
  apply Forall_cons in Hl as [Hx Hl]. pose proof (wadd_le w s x Hs Hx Hw) as Hb.
  destruct (IH (wadd w s x) Hw (proj1 Hb) Hl). lia.
Qed.

Lemma foldl_wadd_exact w l : ∀ s,
  0 ≤ s → Forall (Z.le 0) l → s + zsum l < 2 ^ w → foldl (wadd w) s l = s + zsum l.
Proof.
  induction l as [|x l IH]; intros s Hs Hl Hf; cbn [foldl zsum] in *; [lia|].
  apply Forall_cons in Hl as [Hx Hl]. pose proof (zsum_nonneg l Hl).
  rewrite wadd_small by lia. rewrite IH by (done || lia). lia.
Qed.

(** * Invariant *)

(** What a delegation holds of the pool of [v]. *)
Definition held_in (v : Z) (k : Z * Z) (d : Delegation) : Z := if k.2 =? v then d_nzec d else 0.

Record pool_ok (p : ValidatorPool) : Prop := {
  pk_rate : 0 ≤ exchange_rate p;
  pk_nzec : 0 ≤ total_nzec p;
  pk_bps : 0 ≤ commission_bps p ≤ 10000;
}.

Record staking_ok (s : Staking) : Prop := {
  so_pool : ∀ v p, pools s !! v = Some p → pool_ok p ∧ total_nzec p = msum (held_in v) (delegations s);
  so_delegation : ∀ k d, delegations s !! k = Some d → 0 ≤ d_nzec d ∧ is_Some (pools s !! k.2);
  so_waiting : Forall (fun u => 0 ≤ u_zec_value u) (undelegations s);
  so_rake : 0 ≤ era_rake s;
}.

(** In units of [1 / RATE_SCALE]: the pools at their rates, the undelegations as locked in. *)
Definition pool_worth (v : Z) (p : ValidatorPool) : Z := total_nzec p * exchange_rate p.

Definition worth (s : Staking) : Z :=
  msum pool_worth (pools s) + RATE_SCALE * zsum (map u_zec_value (undelegations s)).

Lemma worth_nonneg s : staking_ok s → 0 ≤ worth s.
Proof.
  intros Hs. unfold worth. assert (0 ≤ msum pool_worth (pools s)).
  { apply msum_nonneg. intros k p [[] _]%(so_pool _ Hs). unfold pool_worth. nia. }
  assert (0 ≤ zsum (map u_zec_value (undelegations s))); [|unfold RATE_SCALE; lia].
  apply zsum_nonneg, Forall_fmap. apply (so_waiting _ Hs).
Qed.

Lemma held_nonneg s v : staking_ok s → 0 ≤ msum (held_in v) (delegations s).
Proof.
  intros Hs. apply msum_nonneg. intros k d Hd. unfold held_in. destruct (so_delegation _ Hs k d Hd). case_match; lia.
Qed.

Lemma held_le s k d : staking_ok s → delegations s !! k = Some d → d_nzec d ≤ msum (held_in k.2) (delegations s).
Proof.
  intros Hs Hd. transitivity (held_in k.2 k d); [unfold held_in; by rewrite Z.eqb_refl|].
  apply msum_lookup_le; [|done]. intros k' d' Hd'. unfold held_in.
  destruct (so_delegation _ Hs k' d' Hd'). case_match; lia.
Qed.

(** A delegation to another validator does not count. *)
Lemma held_in_other (v : Z) (k : Z * Z) d : k.2 ≠ v → held_in v k d = 0.
Proof. intros Hk. unfold held_in. by rewrite (proj2 (Z.eqb_neq _ _)). Qed.

Lemma at_key_other (v : Z) (k : Z * Z) (m : gmap (Z * Z) Delegation) : k.2 ≠ v → at_key (held_in v) m k = 0.
Proof. intros Hk. unfold at_key. destruct (m !! k); [by apply held_in_other|done]. Qed.

Lemma staking_new_ok n : staking_ok (staking_new n).
Proof. split; cbn; try done; intros; by apply lookup_empty_Some in H || done. Qed.

(** Putting back one pool. *)
Lemma worth_pool s v p p' :
  pools s !! v = Some p →
  msum pool_worth (<[v := p']> (pools s)) =
    msum pool_worth (pools s) - total_nzec p * exchange_rate p + total_nzec p' * exchange_rate p'.
Proof. intros Hp. rewrite msum_insert. unfold at_key. rewrite Hp. unfold pool_worth. lia. Qed.

(** * Delegating *)

Lemma delegate_spec s d v zec s' nzec :
  staking_ok s → 0 ≤ zec < 2 ^ 64 → delegate s d v zec = Some (Ok (s', nzec)) →
  (∀ p, pools s !! v = Some p → total_nzec p + nzec < 2 ^ 128) →
  staking_ok s' ∧ 0 ≤ nzec ∧ era_rake s' = era_rake s ∧
  ∃ p, pools s !! v = Some p ∧ nzec = zec * RATE_SCALE / exchange_rate p ∧
       worth s' = worth s + nzec * exchange_rate p ∧
       worth s + RATE_SCALE * zec - exchange_rate p < worth s' ≤ worth s + RATE_SCALE * zec.
Proof.
  intros Hs Hz E Hf. unfold delegate in E. destruct (Z.eqb_spec zec 0); [done|].
  destruct (pools s !! v) as [p|] eqn:Ep; [|done]. destruct (active p); [|done]. cbn [negb] in E.
  specialize (Hf p eq_refl). destruct (so_pool _ Hs v p Ep) as [[Hr Hn Hb] Hsum].
  unfold zec_to_nzec in E. destruct (Z.eqb_spec (exchange_rate p) 0); [done|].
  rewrite wmul_small in E by (unfold RATE_SCALE; lia).
  remember (zec * RATE_SCALE / exchange_rate p) as q eqn:Eq.
  assert (0 ≤ q) as Hq by (subst q; apply Z.div_pos; unfold RATE_SCALE; lia).
  pose proof (Z.mul_div_le (zec * RATE_SCALE) (exchange_rate p) ltac:(lia)) as Hlo.
  pose proof (Z.mul_succ_div_gt (zec * RATE_SCALE) (exchange_rate p) ltac:(lia)) as Hhi.
  rewrite <-Eq in Hlo, Hhi. injection E as <- <-.
  set (old := default (mkDelegation d v 0 (current_era s)) (delegations s !! (d, v))).
  assert (0 ≤ d_nzec old ≤ total_nzec p) as Hold.
  { subst old. destruct (delegations s !! (d, v)) as [x|] eqn:Ed; cbn; [|lia].
    rewrite Hsum. split; [apply (so_delegation _ Hs _ _ Ed) | by apply (held_le s (d, v))]. }
  assert (at_key (held_in v) (delegations s) (d, v) = d_nzec old) as Hat.
  { subst old. unfold at_key, held_in. cbn. destruct (delegations s !! (d, v)); cbn; [by rewrite Z.eqb_refl|done]. }
  split; [split|]; cbn.
  - intros v' p'. destruct (decide (v' = v)) as [->|Hv].
    + rewrite lookup_insert_eq. intros [= <-]. rewrite !wadd_small by lia. cbn.
      split; [split; cbn; lia|]. rewrite msum_insert, Hat, <-Hsum. unfold held_in. cbn. rewrite Z.eqb_refl. lia.
    + rewrite lookup_insert_ne by done. intros Hp'. destruct (so_pool _ Hs v' p' Hp') as [Hk ->].
      split; [done|]. rewrite msum_insert, at_key_other, held_in_other by done. lia.
  - intros k x. destruct (decide (k = (d, v))) as [->|Hk].
    + rewrite lookup_insert_eq. intros [= <-]. cbn. rewrite wadd_small by lia. split; [lia|].
      rewrite lookup_insert_eq. by eexists.
    + rewrite lookup_insert_ne by done. intros Hx. destruct (so_delegation _ Hs k x Hx) as [H0 H1].
      split; [done|]. destruct (decide (k.2 = v)) as [->|Hv]; [rewrite lookup_insert_eq; by eexists|].
      by rewrite lookup_insert_ne.
  - apply (so_waiting _ Hs).
  - apply (so_rake _ Hs).
  - split; [done|]. split; [done|]. exists p. split; [done|]. split; [done|].
    unfold worth. cbn. erewrite worth_pool by done. cbn. rewrite wadd_small by lia. lia.
Qed.

(** * Undelegating and claiming *)

Lemma nzec_to_zec_le p n : 0 ≤ n → 0 ≤ exchange_rate p → 0 ≤ nzec_to_zec p n ∧ RATE_SCALE * nzec_to_zec p n ≤ n * exchange_rate p.
Proof.
  intros Hn Hr. unfold nzec_to_zec. pose proof (wmul_le 128 n (exchange_rate p) Hn Hr ltac:(lia)) as Hm.
  assert (0 ≤ wmul 128 n (exchange_rate p) / RATE_SCALE) as Hq by (apply Z.div_pos; [lia|done]).
  pose proof (wrap_le 64 _ Hq ltac:(lia)). pose proof (Z.mul_div_le (wmul 128 n (exchange_rate p)) RATE_SCALE eq_refl).
  unfold RATE_SCALE in *. lia.
Qed.

Lemma undelegate_spec s d v n s' u :
  staking_ok s → 0 ≤ n → undelegate s d v n = Ok (s', u) → (∀ p, pools s !! v = Some p → total_nzec p < 2 ^ 128) →
  staking_ok s' ∧ worth s' ≤ worth s ∧ era_rake s' = era_rake s ∧ u ∈ undelegations s' ∧
  ∃ p, pools s !! v = Some p ∧ u_zec_value u = nzec_to_zec p n.
Proof.
  intros Hs Hn E Hf. unfold undelegate in E. destruct (Z.eqb_spec n 0); [done|].
  destruct (delegations s !! (d, v)) as [x|] eqn:Ed; [|done].
  destruct (Z.ltb_spec (d_nzec x) n) as [|Hle]; [done|]. destruct (pools s !! v) as [p|] eqn:Ep; [|done].
  destruct (so_pool _ Hs v p Ep) as [[Hr Hpn Hb] Hsum]. specialize (Hf p eq_refl).
  pose proof (held_le s (d, v) x Hs Ed) as Hx. cbn [snd] in Hx. rewrite <-Hsum in Hx.
  assert (wsub 128 (d_nzec x) n = d_nzec x - n) as El by (apply wsub_small; lia).
  assert (at_key (held_in v) (delegations s) (d, v) = d_nzec x) as Hat.
  { unfold at_key, held_in. rewrite Ed. cbn. by rewrite Z.eqb_refl. }
  destruct (nzec_to_zec_le p n Hn Hr) as [Hz0 Hz1]. rewrite El in E. injection E as <- <-.
  assert (∀ v', msum (held_in v') (if d_nzec x - n =? 0 then delete (d, v) (delegations s)
                 else <[(d, v) := x <| d_nzec := d_nzec x - n |>]> (delegations s)) =
                msum (held_in v') (delegations s) - if decide (v' = v) then n else 0) as Hsums.
  { intros v'. destruct (Z.eqb_spec (d_nzec x - n) 0); rewrite ?msum_delete, ?msum_insert;
      (case_decide as Hv; [subst v'; rewrite Hat | rewrite at_key_other by (cbn; congruence)]).
    - lia.
    - lia.
    - unfold held_in at 2. cbn. rewrite Z.eqb_refl. lia.
    - rewrite held_in_other by (cbn; congruence). lia. }
  split; [split|]; cbn.
  - intros v' p'. rewrite Hsums. destruct (decide (v' = v)) as [->|Hv].
    + rewrite lookup_insert_eq. intros [= <-]. cbn. rewrite wsub_small by lia.
      split; [split; cbn; lia|]. lia.
    + rewrite lookup_insert_ne by done. intros Hp'. destruct (so_pool _ Hs v' p' Hp') as [Hk ->].
      split; [done|lia].
  - assert (∀ k y, (delegations s !! k = Some y ∨ y = x <| d_nzec := d_nzec x - n |> ∧ k = (d, v)) →
       0 ≤ d_nzec y ∧ is_Some (<[v := p <| total_nzec := wsub 128 (total_nzec p) n |>]> (pools s) !! k.2)) as Hk.
    { intros k y [Hy|[-> ->]]; cbn; [|rewrite lookup_insert_eq; split; [lia|by eexists]].
      destruct (so_delegation _ Hs k y Hy) as [H0 H1]. split; [done|].
      destruct (decide (k.2 = v)) as [->|Hv]; [rewrite lookup_insert_eq; by eexists|]. by rewrite lookup_insert_ne. }
    intros k y. destruct (Z.eqb_spec (d_nzec x - n) 0).
    + intros [_ Hy]%lookup_delete_Some. apply Hk. by left.
    + intros [[<- <-]|[_ Hy]]%lookup_insert_Some; apply Hk; [by right|by left].
  - apply Forall_app. split; [apply (so_waiting _ Hs)|]. by constructor.
  - apply (so_rake _ Hs).
  - split; [|split; [done|split; [apply elem_of_app; right; by left|by exists p]]].
    unfold worth. cbn. erewrite worth_pool by done. cbn. rewrite map_app, zsum_app, wsub_small by lia. cbn [map zsum u_zec_value].
    unfold RATE_SCALE in *. lia.
Qed.

Lemma zsum_filter {A} (f : A → Z) (P : A → bool) l :
  zsum (map f (filter (fun x => P x = true) l)) + zsum (map f (filter (fun x => P x = false) l)) = zsum (map f l).
Proof.
  induction l as [|x l IH]; [done|]. rewrite !filter_cons. cbn [map zsum].
  destruct (P x); repeat case_decide; try done; cbn [map zsum]; lia.
Qed.

Lemma Forall_sub {A} (Q P : A → Prop) `{!∀ x, Decision (P x)} l : Forall Q l → Forall Q (filter P l).
Proof. rewrite !Forall_forall. intros Hl x [_ Hx]%list_elem_of_filter. by apply Hl. Qed.

Lemma claim_spec s d s' paid :
  staking_ok s → claim_undelegations s d = (s', paid) →
  staking_ok s' ∧ 0 ≤ paid ∧ worth s' + RATE_SCALE * paid ≤ worth s ∧ era_rake s' = era_rake s.
Proof.
  intros Hs [= <- <-]. pose proof (so_waiting _ Hs) as Hw. split; [split|]; cbn.
  - apply (so_pool _ Hs).
  - apply (so_delegation _ Hs).
  - by apply Forall_sub.
  - apply (so_rake _ Hs).
  - assert (∀ l t, foldl (fun t u => wadd 64 t (u_zec_value u)) t l = foldl (wadd 64) t (map u_zec_value l)) as Hm
      by (induction l; intros t; cbn; done).
    rewrite Hm. pose proof (zsum_filter u_zec_value (claimable s d) (undelegations s)) as Hsum.
    destruct (foldl_wadd_le 64 (map u_zec_value (filter (fun u => claimable s d u = true) (undelegations s))) 0)
      as [H0 H1]; [done|done|apply Forall_fmap; by apply Forall_sub|].
    split; [done|]. split; [|done]. unfold worth. cbn. unfold RATE_SCALE in *. lia.
Qed.

(** * Slashing *)

Lemma slash_spec s v bps s' z :
  staking_ok s → 0 ≤ bps ≤ 10000 → slash s v bps = Ok (s', z) →
  staking_ok s' ∧ worth s' ≤ worth s ∧ era_rake s' = era_rake s.
Proof.
  intros Hs Hb E. unfold slash in E. destruct (pools s !! v) as [p|] eqn:Ep; [|done].
  destruct (so_pool _ Hs v p Ep) as [[Hr Hn Hc] Hsum]. rewrite wsub_small in E by lia.
  pose proof (wmul_le 128 (exchange_rate p) (10000 - bps) ltac:(lia) ltac:(lia) ltac:(lia)) as Hm.
  remember (wmul 128 (exchange_rate p) (10000 - bps) / 10000) as r eqn:Er.
  assert (0 ≤ r ≤ exchange_rate p) as Hrr.
  { subst r. split; [apply Z.div_pos; lia|]. apply Z.div_le_upper_bound; nia. }
  injection E as <- _. split; [split|]; cbn.
  - intros v' p'. destruct (decide (v' = v)) as [->|Hv].
    + rewrite lookup_insert_eq. intros [= <-]. split; [split; cbn; lia|done].
    + rewrite lookup_insert_ne by done. apply (so_pool _ Hs).
  - intros k d Hd. destruct (so_delegation _ Hs k d Hd) as [H0 H1]. split; [done|].
    destruct (decide (k.2 = v)) as [->|Hv]; [rewrite lookup_insert_eq; by eexists|]. by rewrite lookup_insert_ne.
  - apply Forall_fmap. eapply Forall_impl; [apply (so_waiting _ Hs)|]. intros u Hu. unfold slash_undelegation.
    cbn. case_match; [|done]. cbn. unfold sat_sub. lia.
  - apply (so_rake _ Hs).
  - split; [|done]. unfold worth. cbn. erewrite worth_pool by done. cbn.
    assert (zsum (map u_zec_value (map (slash_undelegation s v bps) (undelegations s)))
            ≤ zsum (map u_zec_value (undelegations s))) as Hz.
    { rewrite map_map. apply zsum_map_le. intros u Hu. pose proof (so_waiting _ Hs) as Hw.
      rewrite Forall_forall in Hw. specialize (Hw u Hu). cbn in Hw. unfold slash_undelegation.
      case_match; [|lia]. cbn. unfold sat_sub.
      destruct (wmul_le 128 (u_zec_value u) bps) as [Hx _]; [lia..|].
      apply (Z.div_pos _ 10000) in Hx; [|done]. apply (wrap_le 64) in Hx; lia. }
    unfold RATE_SCALE in *. nia.
Qed.

(** * The end of an era *)

Lemma msum_filter_values {V} (f : V → Z) (P : V → bool) (m : gmap Z V) :
  zsum (map f (filter (fun v => P v = true) (values m))) = msum (fun _ v => if P v then f v else 0) m.
Proof.
  unfold values, msum. induction (entries m) as [|[k v] l IH]; [done|].
  cbn [fmap list_fmap fst snd map zsum]. rewrite filter_cons. destruct (P v); repeat case_decide; try done.
  cbn [map zsum]. rewrite IH. lia.
Qed.

Lemma msum_fmap {V W} (f : Z → W → Z) (g : V → W) (m : gmap Z V) :
  msum f (g <$> m) = msum (fun k v => f k (g v)) m.
Proof.
  induction m as [|k v m Hk IH] using map_ind; [by rewrite fmap_empty, !msum_empty|].
  rewrite fmap_insert, !msum_insert_new; [by rewrite IH|done|]. by rewrite lookup_fmap, Hk.
Qed.

Section era.
Context (distributable staked K : Z).
Hypothesis D_ok : 0 ≤ distributable < 2 ^ 64.
Hypothesis staked_pos : 0 < staked.
Hypothesis K_pos : 0 < K.

(** A pool's part before commission. *)
Definition part (p : ValidatorPool) : Z := distributable * pool_value p / staked.

Lemma pool_rewards_le p :
  0 ≤ commission_bps p ≤ 10000 → 0 ≤ pool_value p → 0 ≤ (pool_rewards distributable staked p).1 ≤ part p.
Proof.
  intros Hb Hv. unfold pool_rewards, part. cbn.
  pose proof (wmul_le 128 distributable (pool_value p) ltac:(lia) Hv ltac:(lia)) as Hm.
  assert (0 ≤ wmul 128 distributable (pool_value p) / staked ≤ distributable * pool_value p / staked) as Hq.
  { split; [apply Z.div_pos; lia | apply Z.div_le_mono; lia]. }
  set (r := wmul 128 distributable (pool_value p) / staked) in *.
  pose proof (wmul_le 128 r (commission_bps p) ltac:(lia) ltac:(lia) ltac:(lia)) as Hc.
  assert (0 ≤ wmul 128 r (commission_bps p) / 10000 ≤ r) as Hcr.
  { split; [apply Z.div_pos; lia|]. apply Z.div_le_upper_bound; nia. }
  assert (r < 2 ^ 128) as Hr.
  { assert (wmul 128 distributable (pool_value p) < 2 ^ 128) as Hx by (apply Z.mod_pos_bound; done).
    eapply Z.le_lt_trans; [|exact Hx]. apply Z.div_le_upper_bound; nia. }
  rewrite wsub_small by lia. lia.
Qed.

(** A pool gains at most its part, and what its value lost to rounding in the same
    proportion: nothing but the part when the value is large. *)
Lemma reward_pool_worth v p :
  pool_ok p → total_nzec p * exchange_rate p < 2 ^ 128 → (earns p = true → 0 < pool_value p → K ≤ pool_value p) →
  pool_ok (reward_pool distributable staked p) ∧
  total_nzec (reward_pool distributable staked p) = total_nzec p ∧
  K * (pool_worth v (reward_pool distributable staked p) - pool_worth v p)
    ≤ RATE_SCALE * (K + 1) * (if earns p then part p else 0).
Proof.
  intros [Hr Hn Hb] Hf HK. assert (pool_value p = total_nzec p * exchange_rate p / RATE_SCALE) as Ev.
  { unfold pool_value. rewrite wmul_small; [done|]. nia. }
  assert (0 ≤ pool_value p) as Hv by (rewrite Ev; apply Z.div_pos; unfold RATE_SCALE; nia).
  assert (0 ≤ part p) as Hp by (unfold part; apply Z.div_pos; [nia|done]).
  unfold reward_pool. destruct (earns p); [|split; [by split|]; unfold RATE_SCALE; lia].
  specialize (HK eq_refl). destruct (Z.ltb_spec 0 (pool_value p)) as [Hlt|]; [|split; [by split|]; unfold RATE_SCALE; nia].
  specialize (HK Hlt). destruct (pool_rewards_le p Hb Hv) as [Hd0 Hd1].
  set (dr := (pool_rewards distributable staked p).1) in *.
  pose proof (wmul_le 128 (exchange_rate p) dr Hr Hd0 ltac:(lia)) as Hm.
  assert (0 ≤ wmul 128 (exchange_rate p) dr / pool_value p) as Hi by (apply Z.div_pos; lia).
  pose proof (wadd_le 128 (exchange_rate p) _ Hr Hi ltac:(lia)) as Ha.
  set (inc := wmul 128 (exchange_rate p) dr / pool_value p) in *.
  assert (inc * pool_value p ≤ exchange_rate p * dr) as Hinc.
  { pose proof (Z.mul_div_le (wmul 128 (exchange_rate p) dr) (pool_value p) Hlt). subst inc. lia. }
  split; [split; cbn; lia|]. split; [done|]. unfold pool_worth. cbn.
  pose proof (Z.mul_succ_div_gt (total_nzec p * exchange_rate p) RATE_SCALE eq_refl) as Hgt. rewrite <-Ev in Hgt.
  set (pv := pool_value p) in *. set (N := total_nzec p) in *. set (R := exchange_rate p) in *.
  assert (K * (N * wadd 128 R inc - N * R) ≤ K * (N * inc)) as H1 by (apply Z.mul_le_mono_nonneg_l; [lia|]; rewrite <-Z.mul_sub_distr_l; apply Z.mul_le_mono_nonneg_l; lia).
  transitivity (K * (N * inc)); [done|].
  assert (N * inc * pv ≤ RATE_SCALE * (pv + 1) * part p) as H2.
  { assert (0 ≤ N * R) as HNR by nia. unfold Z.succ in Hgt.
    transitivity (N * (R * dr)); [rewrite <-Z.mul_assoc; apply Z.mul_le_mono_nonneg_l; lia|].
    rewrite Z.mul_assoc. transitivity (N * R * part p); [apply Z.mul_le_mono_nonneg_l; lia|].
    apply Z.mul_le_mono_nonneg_r; lia. }
  assert (K * (pv + 1) ≤ (K + 1) * pv) as H3 by lia.
  apply (Z.mul_le_mono_pos_r _ _ pv); [done|].
  transitivity (K * (RATE_SCALE * (pv + 1) * part p)); [nia|].
  replace (K * (RATE_SCALE * (pv + 1) * part p)) with ((K * (pv + 1)) * (RATE_SCALE * part p)) by ring.
  replace (RATE_SCALE * (K + 1) * part p * pv) with (((K + 1) * pv) * (RATE_SCALE * part p)) by ring.
  apply Z.mul_le_mono_nonneg_r; [unfold RATE_SCALE; lia|done].
Qed.
End era.

Definition active_value (_ : Z) (p : ValidatorPool) : Z := if active p then pool_value p else 0.

Lemma pool_worth_fits s v p :
  staking_ok s → msum pool_worth (pools s) < 2 ^ 128 → pools s !! v = Some p →
  0 ≤ total_nzec p * exchange_rate p < 2 ^ 128 ∧ pool_value p = total_nzec p * exchange_rate p / RATE_SCALE ∧
  0 ≤ pool_value p ≤ pool_worth v p.
Proof.
  intros Hs Hf Hp. destruct (so_pool _ Hs v p Hp) as [[Hr Hn _] _].
  assert (pool_worth v p ≤ msum pool_worth (pools s)) as Hle.
  { apply msum_lookup_le; [|done]. intros k q [[] _]%(so_pool _ Hs). unfold pool_worth. nia. }
  unfold pool_worth in *. assert (0 ≤ total_nzec p * exchange_rate p) by nia.
  assert (pool_value p = total_nzec p * exchange_rate p / RATE_SCALE) as Ev.
  { unfold pool_value. rewrite wmul_small by lia. done. }
  split; [lia|]. split; [done|]. rewrite Ev. split; [by apply Z.div_pos|].
  apply Z.div_le_upper_bound; [done|]. unfold RATE_SCALE. lia.
Qed.

Lemma staked_value_sum s :
  staking_ok s → msum pool_worth (pools s) < 2 ^ 128 → staked_value s = msum active_value (pools s).
Proof.
  intros Hs Hf. unfold staked_value, sum128. rewrite foldl_wadd_exact; rewrite ?msum_filter_values; try done.
  - apply Forall_fmap, Forall_sub, Forall_forall. intros p [v Hp]%elem_of_values. cbn.
    by apply (pool_worth_fits s v).
  - eapply Z.le_lt_trans; [|exact Hf]. apply msum_le. intros v p Hp.
    destruct (pool_worth_fits s v p Hs Hf Hp) as (_ & _ & ?). destruct (active p); lia.
Qed.

Lemma parts_within s D :
  staking_ok s → msum pool_worth (pools s) < 2 ^ 128 → 0 ≤ D → 0 < msum active_value (pools s) →
  msum (fun _ p => if earns p then part D (msum active_value (pools s)) p else 0) (pools s) ≤ D.
Proof.
  intros Hs Hf HD Hpos. set (S := msum active_value (pools s)) in *.
  apply (Z.mul_le_mono_pos_r _ _ S Hpos).
  transitivity (msum (fun v p => D * active_value v p) (pools s)).
  - assert (∀ (f : Z → ValidatorPool → Z) m, msum f m * S = msum (fun k p => f k p * S) m) as Hmul.
    { intros f m. induction m as [|k p m Hk IH] using map_ind; [by rewrite !msum_empty|].
      rewrite !msum_insert_new by done. rewrite <-IH. lia. }
    rewrite Hmul. apply msum_le. intros v p Hp. destruct (pool_worth_fits s v p Hs Hf Hp) as (_ & _ & Hv).
    unfold earns, active_value. destruct (active p); cbn; [|lia]. destruct (total_nzec p =? 0); cbn; [nia|].
    unfold part. pose proof (Z.mul_div_le (D * pool_value p) S Hpos). lia.
  - assert (∀ (f : Z → ValidatorPool → Z) m, msum (fun k p => D * f k p) m = D * msum f m) as Hmul.
    { intros f m. induction m as [|k p m Hk IH] using map_ind; [by rewrite !msum_empty; lia|].
      rewrite !msum_insert_new by done. rewrite IH. lia. }
    rewrite Hmul. done.
Qed.

Lemma end_era_spec s bps K s' er :
  staking_ok s → msum pool_worth (pools s) < 2 ^ 128 → era_rake s < 2 ^ 64 → 0 ≤ bps ≤ 10000 → 0 < K →
  (∀ v p, pools s !! v = Some p → 0 < pool_value p → K ≤ pool_value p) →
  end_era s bps = (s', er) →
  staking_ok s' ∧ era_rake s' = 0 ∧ K * (worth s' - worth s) ≤ RATE_SCALE * (K + 1) * era_rake s.
Proof.
  intros Hs Hf Hrake Hb HK Hbig E. pose proof (so_rake _ Hs) as Hr0. unfold end_era in E.
  assert (0 ≤ dev_cut (era_rake s) bps ≤ era_rake s) as Hcut.
  { unfold dev_cut. destruct (wmul_le 128 (era_rake s) bps) as [Hx Hy]; [lia..|].
    assert (0 ≤ wmul 128 (era_rake s) bps / 10000 ≤ era_rake s) as [Hq1 Hq2].
    { split; [apply Z.div_pos; lia|]. apply Z.div_le_upper_bound; nia. }
    pose proof (wrap_le 64 _ Hq1 ltac:(lia)). lia. }
  rewrite wsub_small in E by lia. rewrite (staked_value_sum s Hs Hf) in E.
  set (D := era_rake s - dev_cut (era_rake s) bps) in *. set (S := msum active_value (pools s)) in *.
  injection E as <- _. destruct ((0 <? S) && (0 <? D)) eqn:Epay.
  2: { split; [by split; cbn; apply Hs || done|]. split; [done|]. unfold worth. cbn. unfold RATE_SCALE. nia. }
  apply andb_prop in Epay as [HS%Z.ltb_lt HD%Z.ltb_lt].
  assert (∀ v p, pools s !! v = Some p →
    pool_ok (reward_pool D S p) ∧ total_nzec (reward_pool D S p) = total_nzec p ∧
    K * (pool_worth v (reward_pool D S p) - pool_worth v p)
      ≤ RATE_SCALE * (K + 1) * (if earns p then part D S p else 0)) as Hpool.
  { intros v p Hp. destruct (pool_worth_fits s v p Hs Hf Hp) as (Hfit & _). destruct (so_pool _ Hs v p Hp) as [Hok _].
    apply reward_pool_worth; try done; [lia|lia|]. intros _. by apply (Hbig v). }
  split; [split; cbn|].
  - intros v p'. rewrite lookup_fmap. intros (p & Hp & ->)%fmap_Some.
    destruct (Hpool v p Hp) as (H1 & H2 & _). split; [done|]. rewrite H2. by apply (so_pool _ Hs).
  - intros k d Hd. destruct (so_delegation _ Hs k d Hd) as [H0 [p Hp]]. split; [done|].
    rewrite lookup_fmap, Hp. by eexists.
  - apply (so_waiting _ Hs).
  - done.
  - split; [done|]. unfold worth. cbn. rewrite msum_fmap.
    pose proof (parts_within s D Hs Hf ltac:(lia) HS) as Hparts. fold S in Hparts.
    assert (∀ m, (∀ v p, m !! v = Some p → pools s !! v = Some p) →
      K * (msum (fun v p => pool_worth v (reward_pool D S p)) m - msum pool_worth m)
      ≤ RATE_SCALE * (K + 1) * msum (fun _ p => if earns p then part D S p else 0) m) as Hm.
    { induction m as [|v p m Hv IH] using map_ind; intros Hsub; [rewrite !msum_empty; lia|].
      rewrite !msum_insert_new by done. destruct (Hpool v p) as (_ & _ & H3); [apply Hsub; by rewrite lookup_insert_eq|].
      assert (∀ v0 p0, m !! v0 = Some p0 → pools s !! v0 = Some p0) as Hsub'.
      { intros v0 p0 H0. apply Hsub. rewrite lookup_insert_ne; [done|congruence]. }
      specialize (IH Hsub'). lia. }
    specialize (Hm (pools s) ltac:(done)). unfold RATE_SCALE in *. nia.
Qed.

(** * Histories *)

Record Books := mkBooks { deposited : Z; raked : Z; paid_out : Z }.

(** One call, with what it moves. An era is ended while no product of the code wraps. *)
Inductive staking_step : Staking * Books → Staking * Books → Prop :=
| ss_register s s' b v bps :
    0 ≤ bps ≤ 10000 → register_pool s v bps = Ok s' → staking_step (s, b) (s', b)
| ss_delegate s s' b d v zec n :
    0 ≤ zec < 2 ^ 64 → delegate s d v zec = Some (Ok (s', n)) →
    (∀ p, pools s !! v = Some p → total_nzec p + n < 2 ^ 128) →
    staking_step (s, b) (s', mkBooks (deposited b + zec) (raked b) (paid_out b))
| ss_undelegate s s' b d v n u :
    0 ≤ n → undelegate s d v n = Ok (s', u) → (∀ p, pools s !! v = Some p → total_nzec p < 2 ^ 128) →
    staking_step (s, b) (s', b)
| ss_claim s s' b d z :
    claim_undelegations s d = (s', z) → staking_step (s, b) (s', mkBooks (deposited b) (raked b) (paid_out b + z))
| ss_rake s b z :
    0 ≤ z → staking_step (s, b) (add_rake s z, mkBooks (deposited b) (raked b + z) (paid_out b))
| ss_era s s' b bps er :
    0 ≤ bps ≤ 10000 → era_rake s < 2 ^ 64 → msum pool_worth (pools s) < 2 ^ 128 →
    end_era s bps = (s', er) → staking_step (s, b) (s', b)
| ss_slash s s' b v bps z :
    0 ≤ bps ≤ 10000 → slash s v bps = Ok (s', z) → staking_step (s, b) (s', b).

Definition books_new : Books := mkBooks 0 0 0.

Definition balanced (sb : Staking * Books) : Prop :=
  staking_ok sb.1 ∧ 0 ≤ paid_out sb.2 ∧
  RATE_SCALE * paid_out sb.2 + worth sb.1 + 2 * RATE_SCALE * era_rake sb.1
    ≤ RATE_SCALE * (deposited sb.2 + 2 * raked sb.2).

Lemma register_ok s v bps s' :
  staking_ok s → 0 ≤ bps ≤ 10000 → register_pool s v bps = Ok s' →
  staking_ok s' ∧ worth s' = worth s ∧ era_rake s' = era_rake s.
Proof.
  intros Hs Hb E. unfold register_pool in E. case_bool_decide as Hv; [done|].
  assert (pools s !! v = None) as Hn by (by apply eq_None_not_Some). injection E as <-.
  split; [split; cbn|].
  - intros v' p'. destruct (decide (v' = v)) as [->|Hne].
    + rewrite lookup_insert_eq. intros [= <-]. split; [split; cbn; lia || done|]. cbn.
      rewrite (msum_ext _ (fun _ _ => 0)).
      * induction (delegations s) as [|k d m Hk IH] using map_ind; [by rewrite msum_empty|].
        by rewrite msum_insert_new.
      * intros k d Hd. apply held_in_other. intros Ek. destruct (so_delegation _ Hs k d Hd) as [_ H1].
        rewrite Ek, Hn in H1. by destruct H1.
    + rewrite lookup_insert_ne by done. apply (so_pool _ Hs).
  - intros k d Hd. destruct (so_delegation _ Hs k d Hd) as [H0 H1]. split; [done|].
    destruct (decide (k.2 = v)) as [->|Hne]; [rewrite lookup_insert_eq; by eexists|]. by rewrite lookup_insert_ne.
  - apply (so_waiting _ Hs).
  - apply (so_rake _ Hs).
  - split; [|done]. unfold worth. cbn. rewrite msum_insert_new by done. unfold pool_worth at 1. cbn. lia.
Qed.

Lemma staking_step_balanced sb sb' : staking_step sb sb' → balanced sb → balanced sb'.
Proof.
  intros Hst (Hs & Hp & Hb). unfold balanced.
  destruct Hst as [s s' b v bps Hv E | s s' b d v zec n Hz E Hf | s s' b d v n u Hn E Hf | s s' b d z E | s b z Hz
                   | s s' b bps er Hc Hr Hf E | s s' b v bps z Hc E]; cbn [fst snd deposited raked paid_out] in *.
  - destruct (register_ok s v bps s' Hs Hv E) as (H1 & -> & ->). done.
  - destruct (delegate_spec s d v zec s' n Hs Hz E Hf) as (H1 & _ & -> & p & _ & _ & _ & _ & H2).
    split; [done|]. split; [done|]. lia.
  - destruct (undelegate_spec s d v n s' u Hs Hn E Hf) as (H1 & H2 & -> & _). split; [done|]. split; [done|]. lia.
  - destruct (claim_spec s d s' z Hs E) as (H1 & H0 & H2 & ->). split; [done|]. split; [lia|]. lia.
  - pose proof (so_rake _ Hs) as Hr. pose proof (wadd_le 64 (era_rake s) z Hr Hz ltac:(lia)) as Hw.
    split; [split; cbn; [apply (so_pool _ Hs) | apply (so_delegation _ Hs) | apply (so_waiting _ Hs) | lia]|].
    split; [done|]. change (worth (add_rake s z)) with (worth s). cbn. unfold RATE_SCALE in *. lia.
  - destruct (end_era_spec s bps 1 s' er Hs Hf Hr Hc) as (H1 & -> & H2); [done|intros; lia|done|].
    split; [done|]. split; [done|]. lia.
  - destruct (slash_spec s v bps s' z Hs Hc E) as (H1 & H2 & ->). split; [done|]. split; [done|]. lia.
Qed.

(** C8.  Over any history of the staking token every pool holds exactly the nZEC of the
    delegations to it, and what was paid out, the undelegations still waiting and the
    pools at their rates are together worth no more than the deposits and twice the rake:
    slashes, commissions and roundings only ever lower it.  Commissions, distributions and
    slashes are at most ten thousand basis points, and the amounts of a pool and an era fit
    their words. *)
Theorem staking_never_overpays n s b :
  rtc staking_step (staking_new n, books_new) (s, b) →
  (∀ v p, pools s !! v = Some p → total_nzec p = msum (held_in v) (delegations s)) ∧
  RATE_SCALE * paid_out b + worth s ≤ RATE_SCALE * (deposited b + 2 * raked b) ∧
  paid_out b ≤ deposited b + 2 * raked b.
Proof.
  intros Hst. assert (balanced (s, b)) as (Hs & Hp & Hb).
  { assert (balanced (staking_new n, books_new)) as H0.
    { split; [apply staking_new_ok|]. split; [done|]. unfold worth. cbn. by rewrite msum_empty. }
    induction Hst; [done|]. eauto using staking_step_balanced. }
  cbn in *. pose proof (so_rake _ Hs). pose proof (worth_nonneg s Hs). unfold RATE_SCALE in *.
  split; [intros v p Hv; by apply (so_pool _ Hs v p Hv)|]. lia.
Qed.

(** When every pool that is worth anything is worth at least [K] ZEC units, an era
    adds to the pools at most [(K + 1) / K] of its rake. *)
Lemma era_adds_the_rake s bps K s' er :
  staking_ok s → msum pool_worth (pools s) < 2 ^ 128 → era_rake s < 2 ^ 64 → 0 ≤ bps ≤ 10000 → 0 < K →
  (∀ v p, pools s !! v = Some p → 0 < pool_value p → K ≤ pool_value p) →
  end_era s bps = (s', er) →
  era_rake s' = 0 ∧ K * (worth s' - worth s) ≤ RATE_SCALE * (K + 1) * era_rake s.
Proof. intros. by eapply end_era_spec. Qed.

(** The factor two is real: a pool of two units slashed by a hundredth of a percent is
    credited with 199 units out of a rake of 100. *)
Example dust_pool_doubles_the_rake :
  ∃ s1 s2 s3 z, register_pool (staking_new 2) 1 0 = Ok s1 ∧ delegate s1 10 1 2 = Some (Ok (s2, 2)) ∧
    slash s2 1 1 = Ok (s3, z) ∧
    let s4 := (end_era (add_rake s3 100) 0).1 in
    map total_zec (values (pools s4)) = [201].
Proof. do 4 eexists. repeat split; vm_compute; reflexivity. Qed.

(** A pool slashed in full keeps accepting delegations, and the next one divides by its
    rate of zero. *)
Lemma delegate_after_full_slash s d v zec s' z p :
  slash s v 10000 = Ok (s', z) → pools s !! v = Some p → active p = true → zec ≠ 0 → delegate s' d v zec = None.
Proof.
  intros E Ep Ha Hz. unfold slash in E. rewrite Ep in E. injection E as <- _. unfold delegate. cbn.
  rewrite (proj2 (Z.eqb_neq zec 0)) by done. rewrite lookup_insert_eq. cbn. rewrite Ha. cbn.
  unfold zec_to_nzec. cbn. change (wsub 128 10000 10000) with 0. unfold wmul. rewrite Z.mul_0_r. done.
Qed.

(** Rake collected while nobody stakes, or dust only, is dropped at the end of the era. *)
Lemma rake_without_stake_is_dropped s bps :
  staked_value s = 0 → pools (end_era s bps).1 = pools s ∧ era_rake (end_era s bps).1 = 0.
Proof. intros E. unfold end_era. cbn. rewrite E. done. Qed.

(** ** Witnesses *)

Definition one_pool (p : ValidatorPool) (del : gmap (Z * Z) Delegation) (us : list Undelegation) (era rake : Z) : Staking :=
  mkStaking {[1 := p]} del us era 0 rake.

(** A hundred thousand staked, a thousand raked, and all of it back with the reward. *)
Lemma staking_never_overpays_witness :
  ∃ s b, deposited b = 100000 ∧ raked b = 1000 ∧ paid_out b = 101000 ∧
    RATE_SCALE * paid_out b + worth s ≤ RATE_SCALE * (deposited b + 2 * raked b).
Proof.
  set (held := {[(10, 1) := mkDelegation 10 1 100000 0]} : gmap (Z * Z) Delegation).
  set (u := mkUndelegation 10 1 100000 101000 1).
  set (s1 := one_pool (pool_new 1 0) ∅ [] 0 0).
  set (s2 := one_pool (mkValidatorPool 1 INITIAL_RATE 100000 0 true) held [] 0 0).
  set (s3 := one_pool (mkValidatorPool 1 101000000 100000 0 true) held [] 1 0).
  set (s4 := one_pool (mkValidatorPool 1 101000000 0 0 true) ∅ [u] 1 0).
  set (s5 := one_pool (mkValidatorPool 1 101000000 0 0 true) ∅ [] 1 0).
  exists s5, (mkBooks 100000 1000 101000).
  destruct (staking_never_overpays 0 s5 (mkBooks 100000 1000 101000)) as (_ & H & _); [|by repeat split].
  eapply rtc_l; [apply (ss_register _ s1 _ 1 0); [lia | vm_compute; reflexivity]|].
  eapply rtc_l; [apply (ss_delegate _ s2 _ 10 1 100000 100000); [lia | vm_compute; reflexivity |]|].
  { intros p Hp. vm_compute in Hp. injection Hp as <-. reflexivity. }
  eapply rtc_l; [apply (ss_rake s2 _ 1000); lia|].
  eapply rtc_l; [apply (ss_era _ s3 _ 0 (mkEraRewards 1 1000 [(1, 1000, 0)]));
                 [lia | reflexivity | vm_compute; reflexivity | vm_compute; reflexivity]|].
  eapply rtc_l; [apply (ss_undelegate _ s4 _ 10 1 100000 u); [lia | vm_compute; reflexivity |]|].
  { intros p Hp. vm_compute in Hp. injection Hp as <-. reflexivity. }
  eapply rtc_l; [apply (ss_claim _ s5 _ 10 101000); vm_compute; reflexivity|]. apply rtc_refl.
Defined.

Lemma era_adds_the_rake_witness :
  let s := add_rake (one_pool (mkValidatorPool 1 INITIAL_RATE 100000 500 true)
                       {[(10, 1) := mkDelegation 10 1 100000 0]} [] 0 0) 1000 in
  ∃ s' er, end_era s 100 = (s', er) ∧ 100000 * (worth s' - worth s) ≤ RATE_SCALE * 100001 * 1000.
Proof.
  intros s. do 2 eexists. split; [apply surjective_pairing|].
  eapply (era_adds_the_rake s 100 100000); try done.
  - split; cbn.
    + intros v p [<- <-]%lookup_singleton_Some. split; [by split|]. vm_compute. reflexivity.
    + intros k d [<- <-]%lookup_singleton_Some. split; [done|]. by eexists.
    + constructor.
    + done.
  - intros v p Hp _. cbn in Hp. apply lookup_singleton_Some in Hp as [<- <-]. vm_compute. congruence.
Defined.
