(* ===== verification/NarElect.v ===== *)
(** The election of the custodians, [crates/narsil/src/election.rs]: registrations and
    nominations, the sequential election with its loads in 64-bit floats, the split of the
    nominators' stakes, and the allocation of the custody shares.

    A float is the [spec_float] of the Standard Library at 53 and 1024 bits, every
    operation rounded to nearest even. *)
From stdpp Require Import base list gmap sorting.
From Stdlib Require Import ZArith Lia Floats.SpecFloat.
From S2P Require Import Prelude OrdMap.

Local Open Scope Z_scope.

(** * Floats *)

Definition f64 : Type := spec_float.
Definition f64_add : f64 → f64 → f64 := SFadd 53 1024.
Definition f64_mul : f64 → f64 → f64 := SFmul 53 1024.
Definition f64_div : f64 → f64 → f64 := SFdiv 53 1024.

(** [x as f64] of an unsigned integer. *)
Definition f64_of (x : Z) : f64 := binary_normalize 53 1024 x 0 false.

Definition f64_zero : f64 := S754_zero false.
Definition f64_one : f64 := f64_of 1.
(** [f64::MAX] *)
Definition f64_max : f64 := S754_finite false (2 ^ 53 - 1) 971.

(** * Data *)

Record Validator := mkValidator {
  val_pubkey : Z;
  val_self_stake : Z;
  accepting : bool;
  val_commission_bps : Z;
}.
#[export] Instance Validator_eta : Eta Validator := fun v =>
  mkValidator (val_pubkey v) (val_self_stake v) (accepting v) (val_commission_bps v).

Record Nominator := mkNominator { nom_pubkey : Z; nom_stake : Z; nominations : list Z }.

Record ElectedValidator := mkElectedValidator {
  ev_pubkey : Z;
  ev_total_stake : Z;
  ev_self_stake : Z;
  backers : list (Z * Z);
}.

Record ElectionResult := mkElectionResult {
  res_era : Z;
  elected : list ElectedValidator;
  res_total_stake : Z;
  waiting : list Z;
}.

Record EraConfig := mkEraConfig {
  seats : Z;
  era_length : Z;
  min_self_stake : Z;
  min_total_stake : Z;
  max_nominations : Z;
  min_nominator_stake : Z;
}.

Definition config_default : EraConfig := mkEraConfig 10 1000 1000 5000 16 100.

Inductive ElectionError :=
| NotEnoughCandidates (candidates seats : Z)
| StakeTooLow (stake minimum : Z)
| TooManyNominations (count max : Z)
| UnknownValidator (v : Z)
| AlreadyRegistered (v : Z)
| SelfStakeTooLow (stake minimum : Z).

Record Election := mkElection {
  config : EraConfig;
  validators : gmap Z Validator;
  nominators : gmap Z Nominator;
  el_current_era : Z;
  current_result : option ElectionResult;
}.
#[export] Instance Election_eta : Eta Election := fun e =>
  mkElection (config e) (validators e) (nominators e) (el_current_era e) (current_result e).

Definition election_new (c : EraConfig) : Election := mkElection c ∅ ∅ 0 None.

(** * Registrations *)

Definition register_validator (e : Election) (pubkey self_stake bps : Z) : result Election ElectionError :=
  if bool_decide (is_Some (validators e !! pubkey)) then Err (AlreadyRegistered pubkey)
  else if self_stake <? min_self_stake (config e) then Err (SelfStakeTooLow self_stake (min_self_stake (config e)))
  else Ok (e <| validators := <[pubkey := mkValidator pubkey self_stake true bps]> (validators e) |>).

(** Whether there was one. *)
Definition unregister_validator (e : Election) (pubkey : Z) : Election * bool :=
  (e <| validators := delete pubkey (validators e) |>, bool_decide (is_Some (validators e !! pubkey))).

Definition update_self_stake (e : Election) (pubkey stake : Z) : result Election ElectionError :=
  match validators e !! pubkey with
  | None => Err (UnknownValidator pubkey)
  | Some v =>
      if stake <? min_self_stake (config e) then Err (SelfStakeTooLow stake (min_self_stake (config e)))
      else Ok (e <| validators := <[pubkey := v <| val_self_stake := stake |>]> (validators e) |>)
  end.

Definition nominate (e : Election) (pubkey stake : Z) (noms : list Z) : result Election ElectionError :=
  if stake <? min_nominator_stake (config e) then Err (StakeTooLow stake (min_nominator_stake (config e)))
  else if max_nominations (config e) <? Z.of_nat (length noms)
  then Err (TooManyNominations (Z.of_nat (length noms)) (max_nominations (config e)))
  else
    match find (fun v => negb (bool_decide (is_Some (validators e !! v)))) noms with
    | Some v => Err (UnknownValidator v)
    | None => Ok (e <| nominators := <[pubkey := mkNominator pubkey stake noms]> (nominators e) |>)
    end.

Definition unnominate (e : Election) (pubkey : Z) : Election * bool :=
  (e <| nominators := delete pubkey (nominators e) |>, bool_decide (is_Some (nominators e !! pubkey))).

Definition candidates (e : Election) : list Validator :=
  filter (fun v => accepting v && (min_self_stake (config e) <=? val_self_stake v) = true) (values (validators e)).

(** * The sequential election *)

(** [slice.contains] *)
Definition contains (l : list Z) (x : Z) : bool := bool_decide (x ∈ l).

Section phragmen.
Context (self_stakes : gmap Z Z) (noms : list (Z * Z * list Z)).

Definition stake_of (cand : Z) : Z := default 0 (self_stakes !! cand).

(** The nominators that back [cand]. *)
Definition backing (cand : Z) : list (Z * Z * list Z) := filter (fun n => contains n.2 cand = true) noms.

Definition load_of (loads : gmap Z f64) (pk : Z) : f64 := default f64_zero (loads !! pk).

(** [stake / (1.0 + load)] *)
Definition contribution (loads : gmap Z f64) (pk stake : Z) : f64 :=
  f64_div (f64_of stake) (f64_add f64_one (load_of loads pk)).

Definition support (loads : gmap Z f64) (cand : Z) : f64 :=
  f64_add (f64_of (stake_of cand))
    (foldl (fun s n => f64_add s (contribution loads n.1.1 n.1.2)) f64_zero (backing cand)).

(** The candidate with the least score so far; none is looked at without support. *)
Definition consider (loads : gmap Z f64) (best : option Z * f64) (cand : Z) : option Z * f64 :=
  let total_support := support loads cand in
  if SFleb total_support f64_zero then best
  else
    let score := f64_div f64_one total_support in
    if SFltb score best.2 then (Some cand, score) else best.

Definition best_of (loads : gmap Z f64) (available : list Z) : option Z * f64 :=
  foldl (consider loads) (None, f64_max) available.

Definition raise_load (winner : Z) (score : f64) (loads : gmap Z f64) (n : Z * Z * list Z) : gmap Z f64 :=
  if contains n.2 winner then
    <[n.1.1 := f64_add (load_of loads n.1.1) (f64_mul score (contribution loads n.1.1 n.1.2))]> loads
  else loads.

(** The rounds that are left: the winners in the order of their election. *)
Fixpoint rounds (k : nat) (loads : gmap Z f64) (available : list Z) : list Z :=
  match k with
  | O => []
  | S k =>
      if bool_decide (available = []) then []
      else
        match best_of loads available with
        | (None, _) => []
        | (Some winner, score) =>
            winner :: rounds k (foldl (raise_load winner score) loads noms)
                             (filter (fun c => c ≠ winner) available)
        end
  end.

Definition initial_loads : gmap Z f64 := foldl (fun m n => <[n.1.1 := f64_zero]> m) ∅ noms.

(** How many of their nominations were elected, for the nominators with any. *)
Definition elected_counts (winners : list Z) : gmap Z Z :=
  foldl (fun m n =>
           let count := Z.of_nat (length (filter (fun v => contains winners v = true) n.2)) in
           if 0 <? count then <[n.1.1 := count]> m else m) ∅ noms.

(** An equal split over the elected nominations; parts of nothing are dropped. *)
Definition backer_share (winners : list Z) (n : Z * Z * list Z) : option (Z * Z) :=
  let share := n.1.2 / default 1 (elected_counts winners !! n.1.1) in
  if 0 <? share then Some (n.1.1, share) else None.

Definition assign (winners : list Z) (cand : Z) : ElectedValidator :=
  if bool_decide (backing cand = []) then mkElectedValidator cand (stake_of cand) (stake_of cand) []
  else
    let backers := omap (backer_share winners) (backing cand) in
    mkElectedValidator cand (wadd 64 (stake_of cand) (foldl (wadd 64) 0 (map snd backers))) (stake_of cand) backers.

(** Descending by stake, equal ones in the order of their election. *)
Definition by_stake (a b : ElectedValidator) : Prop := ev_total_stake b ≤ ev_total_stake a.

#[export] Instance by_stake_dec : RelDecision by_stake.
Proof. intros a b. apply Z_le_dec. Defined.

Definition seq_phragmen (seats : nat) (cands : list Z) : list ElectedValidator :=
  let winners := rounds seats initial_loads cands in
  merge_sort by_stake (map (assign winners) winners).
End phragmen.

(** The nominators with a candidate that runs. *)
Definition running_nominators (keys : list Z) (ns : list Nominator) : list (Z * Z * list Z) :=
  omap (fun n =>
          let valid := filter (fun v => contains keys v = true) (nominations n) in
          if bool_decide (valid = []) then None else Some (nom_pubkey n, nom_stake n, valid)) ns.

Definition run_election (e : Election) : result (Election * ElectionResult) ElectionError :=
  let cs := candidates e in
  if Z.of_nat (length cs) <? seats (config e)
  then Err (NotEnoughCandidates (Z.of_nat (length cs)) (seats (config e)))
  else
    let keys := map val_pubkey cs in
    let self_stakes := list_to_map (reverse (map (fun c => (val_pubkey c, val_self_stake c)) cs)) in
    let elected := seq_phragmen self_stakes (running_nominators keys (values (nominators e)))
                     (Z.to_nat (seats (config e))) keys in
    let r := mkElectionResult (wadd 64 (el_current_era e) 1) elected
               (foldl (wadd 64) 0 (map ev_total_stake elected))
               (filter (fun c => contains (map ev_pubkey elected) c = false) keys) in
    Ok (e <| el_current_era := res_era r |> <| current_result := Some r |>, r).

(** * Queries *)

Definition is_active (e : Election) (pubkey : Z) : bool :=
  match current_result e with
  | Some r => existsb (fun v => ev_pubkey v =? pubkey) (elected r)
  | None => false
  end.

Definition elected_pubkeys (e : Election) : list Z :=
  match current_result e with Some r => map ev_pubkey (elected r) | None => [] end.

Definition outgoing_validators (e : Election) (previous : list Z) : list Z :=
  filter (fun p => contains (elected_pubkeys e) p = false) previous.

Definition incoming_validators (e : Election) (previous : list Z) : list Z :=
  filter (fun c => contains previous c = false) (elected_pubkeys e).

(** * Custody shares *)

Definition TOTAL_SHARES : Z := 200.
Definition FROST_COMMITTEE_SIZE : nat := 5.

Record ShareAllocation := mkShareAllocation {
  sa_pubkey : Z;
  osst_shares : Z;
  frost_executor : bool;
  stake_bps : Z;
}.
#[export] Instance ShareAllocation_eta : Eta ShareAllocation := fun a =>
  mkShareAllocation (sa_pubkey a) (osst_shares a) (frost_executor a) (stake_bps a).

Record CustodyAllocation := mkCustodyAllocation {
  ca_era : Z;
  allocations : list ShareAllocation;
  frost_committee : list Z;
  total_allocated : Z;
}.

Definition sum32 (l : list ShareAllocation) : Z := foldl (wadd 32) 0 (map osst_shares l).

(** One share, and a part of the rest by stake. *)
Definition first_shares (total distributable : Z) (v : ElectedValidator) : ShareAllocation :=
  mkShareAllocation (ev_pubkey v)
    (wadd 32 1 (wrap 32 (wmul 128 (ev_total_stake v) distributable / total))) false
    (wrap 32 (wmul 128 (ev_total_stake v) 10000 / total)).

(** The largest holder takes what the rounding left, or gives what is too much. *)
Definition fix_rounding (l : list ShareAllocation) : list ShareAllocation :=
  let total := sum32 l in
  match l with
  | [] => []
  | a :: l' =>
      if total <? TOTAL_SHARES then (a <| osst_shares := wadd 32 (osst_shares a) (wsub 32 TOTAL_SHARES total) |>) :: l'
      else if TOTAL_SHARES <? total
      then (a <| osst_shares := sat_sub (osst_shares a) (wsub 32 total TOTAL_SHARES) |>) :: l'
      else l
  end.

Definition allocate_custody (r : ElectionResult) : CustodyAllocation :=
  if bool_decide (elected r = []) || (res_total_stake r =? 0) then mkCustodyAllocation (res_era r) [] [] 0
  else
    let n := wrap 32 (Z.of_nat (length (elected r))) in
    let distributable := sat_sub TOTAL_SHARES (Z.min n TOTAL_SHARES) in
    let l := fix_rounding (map (first_shares (res_total_stake r) distributable) (elected r)) in
    let size := Nat.min FROST_COMMITTEE_SIZE (length l) in
    let l' := imap (fun i a => if (i <? size)%nat then a <| frost_executor := true |> else a) l in
    mkCustodyAllocation (res_era r) l' (map sa_pubkey (firstn size l)) (sum32 l').
