(* ===== verification/NarElected.v ===== *)
(** What an election of [NarElect.v] promises: the elected are distinct candidates in the
    order of their stake, no nominator's stake is counted twice, and the custody shares are
    all handed out. *)
From stdpp Require Import base list gmap sorting.
From Stdlib Require Import ZArith Lia Floats.SpecFloat Sorting.Sorted.
From S2P Require Import Prelude OrdMap NarElect NarBooks.

Local Open Scope Z_scope.

Lemma contains_true l x : contains l x = true ↔ x ∈ l.
Proof. unfold contains. apply bool_decide_eq_true. Qed.

(** * The rounds *)

Section rounds.
Context (self_stakes : gmap Z Z) (noms : list (Z * Z * list Z)).

Abbreviation best_of := (best_of self_stakes noms).
Abbreviation rounds := (rounds self_stakes noms).

Lemma best_of_in loads l w s : best_of loads l = (Some w, s) → w ∈ l.
Proof.
  unfold best_of. assert (∀ b, foldl (consider self_stakes noms loads) b l = (Some w, s) → b.1 = Some w ∨ w ∈ l) as Hg.
  { induction l as [|c l IH]; intros b Hb; cbn [foldl] in Hb; [left; by rewrite Hb|].
    destruct (IH _ Hb) as [H|H]; [|right; by right]. unfold consider in H.
    destruct (SFleb _ _); [by left|]. destruct (SFltb _ _); cbn in H; [injection H as ->; right; left|by left]. }
  intros [H|H]%Hg; [done|done].
Qed.

Lemma rounds_spec k : ∀ loads l, rounds k loads l ⊆ l ∧ NoDup (rounds k loads l) ∧ (length (rounds k loads l) ≤ k)%nat.
Proof.
  induction k as [|k IH]; intros loads l; cbn [NarElect.rounds]; [split; [set_solver|split; [constructor|done]]|].
  case_bool_decide; [split; [set_solver|split; [constructor|cbn; lia]]|].
  destruct (best_of loads l) as [[w|] s] eqn:E; [|split; [set_solver|split; [constructor|cbn; lia]]].
  apply best_of_in in E. destruct (IH (foldl (raise_load w s) loads noms) (filter (λ c, c ≠ w) l)) as (H1 & H2 & H3).
  split; [|split].
  - intros x [->|Hx]%elem_of_cons; [done|]. apply H1, list_elem_of_filter in Hx. apply Hx.
  - apply NoDup_cons. split; [|done]. intros Hw%H1. apply list_elem_of_filter in Hw. by destruct Hw.
  - cbn [length]. lia.
Qed.
End rounds.

(** * The split of the stakes *)

Section assign.
Context (self_stakes : gmap Z Z) (noms : list (Z * Z * list Z)) (winners : list Z).
Hypothesis noms_nodup : NoDup (map (fun n => n.1.1) noms).
Hypothesis noms_pos : Forall (fun n => 0 ≤ n.1.2) noms.
Hypothesis winners_nodup : NoDup winners.

Definition count (n : Z * Z * list Z) : Z := Z.of_nat (length (filter (fun v => contains winners v = true) n.2)).

Lemma counts_lookup n : n ∈ noms → 0 < count n → elected_counts noms winners !! n.1.1 = Some (count n).
Proof.
  unfold elected_counts. intros Hn Hc.
  assert (∀ l (m : gmap Z Z), NoDup (map (fun n => n.1.1) l) → (n ∈ l ∨ (¬ (n.1.1 ∈ map (fun n => n.1.1) l) ∧ m !! n.1.1 = Some (count n))) →
          foldl (fun m n => let c := count n in if 0 <? c then <[n.1.1 := c]> m else m) m l !! n.1.1 = Some (count n)) as Hg.
  { clear Hn noms_nodup noms_pos. induction l as [|x l IH]; intros m Hnd Hx; cbn [foldl map] in *.
    - destruct Hx as [Hx|[_ Hx]]; [by apply elem_of_nil in Hx|done].
    - apply NoDup_cons in Hnd as [Hxl Hnd]. apply IH; [done|]. destruct Hx as [[->|Hx]%elem_of_cons|[Hx Hm]].
      + right. split; [done|]. rewrite (proj2 (Z.ltb_lt _ _)) by done. apply lookup_insert_eq.
      + by left.
      + apply not_elem_of_cons in Hx as [Hne Hx]. right. split; [done|]. case_match; [|done].
        by rewrite lookup_insert_ne. }
  apply Hg; [done|by left].
Qed.

(** What [n] gives to [cand]. *)
Definition gives (n : Z * Z * list Z) (cand : Z) : Z := if contains n.2 cand then n.1.2 / count n else 0.

Lemma count_pos n cand : cand ∈ winners → contains n.2 cand = true → 0 < count n.
Proof.
  intros Hc Hn%contains_true. unfold count.
  assert (cand ∈ filter (fun v => contains winners v = true) n.2) as Hf.
  { apply list_elem_of_filter. split; [by apply contains_true|done]. }
  destruct (filter _ n.2); [by apply elem_of_nil in Hf|]. cbn [length]. lia.
Qed.

Lemma gives_nonneg n cand : n ∈ noms → 0 ≤ gives n cand.
Proof.
  intros Hn. unfold gives. destruct (contains _ _); [|done]. rewrite Forall_forall in noms_pos.
  specialize (noms_pos n Hn). unfold count. cbn in noms_pos.
  destruct (length _); [cbn; by rewrite Z.div_0_r | apply Z.div_pos; lia].
Qed.

(** Over all winners a nominator gives at most their stake. *)
Lemma gives_within n : n ∈ noms → zsum (map (gives n) winners) ≤ n.1.2.
Proof.
  intros Hn. rewrite Forall_forall in noms_pos. specialize (noms_pos n Hn). cbn in noms_pos.
  unfold gives. rewrite zsum_map_const. set (f := filter (fun x => contains n.2 x = true) winners).
  assert (Z.of_nat (length f) ≤ count n) as Hle.
  { unfold count. apply Nat2Z.inj_le. apply NoDup_incl_length; [apply NoDup_ListNoDup, NoDup_filter; done|].
    intros x Hx. apply list_elem_of_In in Hx. apply list_elem_of_In. apply list_elem_of_filter in Hx as [H1%contains_true H2].
    apply list_elem_of_filter. split; [by apply contains_true|done]. }
  destruct (decide (count n = 0)) as [E|E]; [rewrite E, Z.div_0_r; lia|].
  assert (0 < count n) as Hpos by (unfold count in *; lia).
  pose proof (Z.mul_div_le n.1.2 (count n) Hpos). assert (0 ≤ n.1.2 / count n) by (apply Z.div_pos; lia). nia.
Qed.

Lemma backers_sum cand :
  cand ∈ winners →
  zsum (map snd (omap (backer_share noms winners) (backing noms cand))) = zsum (map (fun n => gives n cand) noms).
Proof.
  intros Hc. unfold backing.
  assert (∀ l, l ⊆ noms → zsum (map snd (omap (backer_share noms winners) (filter (fun n => contains n.2 cand = true) l)))
                          = zsum (map (fun n => gives n cand) l)) as Hg; [|by apply Hg].
  induction l as [|n l IH]; intros Hl; [done|]. cbn [map zsum].
  assert (n ∈ noms) as Hn by (apply Hl; left). rewrite <-IH by (intros x Hx; apply Hl; by right).
  rewrite filter_cons. pose proof (gives_nonneg n cand Hn) as H0. unfold gives in *. destruct (contains n.2 cand) eqn:E.
  - rewrite decide_True by done.
    assert (backer_share noms winners n = if 0 <? n.1.2 / count n then Some (n.1.1, n.1.2 / count n) else None) as Eb.
    { unfold backer_share. by rewrite (counts_lookup n Hn) by (by eapply count_pos). }
    cbn [omap list_omap]. rewrite Eb. destruct (Z.ltb_spec 0 (n.1.2 / count n)); cbn [map zsum snd]; lia.
  - rewrite decide_False by done. lia.
Qed.
End assign.

(** * Reachable elections *)

Inductive election_step : Election → Election → Prop :=
| es_register e e' k s bps : 0 ≤ s → register_validator e k s bps = Ok e' → election_step e e'
| es_unregister e k : election_step e (unregister_validator e k).1
| es_update e e' k s : 0 ≤ s → update_self_stake e k s = Ok e' → election_step e e'
| es_nominate e e' k s l : 0 ≤ s → nominate e k s l = Ok e' → election_step e e'
| es_unnominate e k : election_step e (unnominate e k).1
| es_run e e' r : run_election e = Ok (e', r) → election_step e e'.

Record election_ok (e : Election) : Prop := {
  ek_val : ∀ k v, validators e !! k = Some v → val_pubkey v = k ∧ 0 ≤ val_self_stake v;
  ek_nom : ∀ k n, nominators e !! k = Some n → nom_pubkey n = k ∧ 0 ≤ nom_stake n;
}.

Lemma election_step_ok e e' : election_step e e' → election_ok e → election_ok e'.
Proof.
  intros Hst [Hv Hn]. destruct Hst as [e e' k s bps Hs E | e k | e e' k s Hs E | e e' k s l Hs E | e k | e e' r E].
  - unfold register_validator in E. case_bool_decide; [done|]. case_match; [done|]. injection E as <-. split; cbn; [|done].
    intros k' v [[<- <-]|[_ H']]%lookup_insert_Some; [done|by apply Hv].
  - split; cbn; [|done]. intros k' v [_ H']%lookup_delete_Some. by apply Hv.
  - unfold update_self_stake in E. destruct (validators e !! k) as [v|] eqn:Ek; [|done]. case_match; [done|].
    injection E as <-. split; cbn; [|done]. intros k' v' [[<- <-]|[_ H']]%lookup_insert_Some; [|by apply Hv].
    split; [apply (Hv k v Ek)|done].
  - unfold nominate in E. case_match; [done|]. case_match; [done|]. case_match; [done|]. injection E as <-. split; cbn; [done|].
    intros k' v [[<- <-]|[_ H']]%lookup_insert_Some; [done|by apply Hn].
  - split; cbn; [done|]. intros k' v [_ H']%lookup_delete_Some. by apply Hn.
  - unfold run_election in E. case_match; [done|]. injection E as <- _. by split.
Qed.

Lemma election_reach c e : rtc election_step (election_new c) e → election_ok e.
Proof.
  intros He. assert (election_ok (election_new c)) as H0 by (split; cbn; intros k x Hx; by apply lookup_empty_Some in Hx).
  induction He; [done|]. eauto using election_step_ok.
Qed.

(** * Running an election *)

Definition self_of (e : Election) : gmap Z Z :=
  list_to_map (reverse (map (fun c => (val_pubkey c, val_self_stake c)) (candidates e))).
Definition keys_of (e : Election) : list Z := map val_pubkey (candidates e).
Definition noms_of (e : Election) : list (Z * Z * list Z) := running_nominators (keys_of e) (values (nominators e)).

(** A map whose values carry their keys is walked by those keys. *)
Lemma values_by_key {V} (f : V → Z) (m : gmap Z V) : (∀ k v, m !! k = Some v → f v = k) → map f (values m) = keys m.
Proof.
  intros Hf. unfold values, keys. rewrite <-list_fmap_compose. apply map_ext_in. intros [k v] Hx. cbn.
  apply Hf, elem_of_entries. by apply list_elem_of_In.
Qed.

Lemma map_filter_NoDup {A} (f : A → Z) (P : A → Prop) `{!∀ x, Decision (P x)} l : NoDup (map f l) → NoDup (map f (filter P l)).
Proof.
  induction l as [|x l IH]; [done|]. cbn [map]. intros [Hx Hl]%NoDup_cons. rewrite filter_cons. case_decide; [|by apply IH].
  cbn [map]. apply NoDup_cons. split; [|by apply IH]. intros (y & Ey & Hy)%list_elem_of_fmap. apply Hx, list_elem_of_fmap.
  exists y. split; [done|]. apply list_elem_of_filter in Hy. apply Hy.
Qed.

Section election.
Context (e : Election).
Hypothesis e_ok : election_ok e.

Lemma keys_of_NoDup : NoDup (keys_of e).
Proof.
  unfold keys_of, candidates. apply map_filter_NoDup. rewrite values_by_key; [apply keys_NoDup|].
  intros k v Hk. apply (ek_val _ e_ok k v Hk).
Qed.

(** Candidates are the accepting validators with enough of their own. *)
Lemma elem_of_keys_of k :
  k ∈ keys_of e ↔ ∃ v, validators e !! k = Some v ∧ accepting v = true ∧ min_self_stake (config e) ≤ val_self_stake v.
Proof.
  unfold keys_of, candidates. rewrite list_elem_of_fmap. split.
  - intros (v & -> & [Hp Hv]%list_elem_of_filter). apply elem_of_values in Hv as [k Hk].
    destruct (ek_val _ e_ok k v Hk) as [-> _]. exists v. apply andb_prop in Hp as [H1 H2%Z.leb_le]. done.
  - intros (v & Hk & Ha & Hm). exists v. split; [symmetry; apply (ek_val _ e_ok k v Hk)|].
    apply list_elem_of_filter. split; [by rewrite Ha, (proj2 (Z.leb_le _ _))|]. apply elem_of_values. by exists k.
Qed.

Lemma self_of_lookup k v : validators e !! k = Some v → k ∈ keys_of e → stake_of (self_of e) k = val_self_stake v.
Proof.
  intros Hk Hc. unfold stake_of, self_of. erewrite elem_of_list_to_map_1; [done| |].
  - rewrite fmap_reverse. rewrite reverse_Permutation. rewrite <-list_fmap_compose. apply keys_of_NoDup.
  - apply elem_of_reverse, list_elem_of_fmap. apply elem_of_keys_of in Hc as (v' & Hk' & Ha & Hm).
    assert (v' = v) as -> by congruence. destruct (ek_val _ e_ok k v Hk) as [Ev _]. exists v. split; [by rewrite Ev|].
    apply list_elem_of_filter. split; [by rewrite Ha, (proj2 (Z.leb_le _ _))|]. apply elem_of_values. by exists k.
Qed.

Lemma elem_of_noms_of pk st l :
  (pk, st, l) ∈ noms_of e ↔
  ∃ n, nominators e !! pk = Some n ∧ nom_stake n = st ∧ l = filter (fun v => contains (keys_of e) v = true) (nominations n) ∧ l ≠ [].
Proof.
  unfold noms_of, running_nominators. rewrite list_elem_of_omap. split.
  - intros (n & Hn & E). case_bool_decide; [done|]. injection E as <- <- <-. apply elem_of_values in Hn as [k Hk].
    destruct (ek_nom _ e_ok k n Hk) as [-> _]. by exists n.
  - intros (n & Hk & <- & -> & Hne). exists n. split; [apply elem_of_values; by exists pk|].
    rewrite bool_decide_eq_false_2 by done. destruct (ek_nom _ e_ok pk n Hk) as [-> _]. done.
Qed.

Lemma noms_of_NoDup : NoDup (map (fun n => n.1.1) (noms_of e)).
Proof.
  unfold noms_of, running_nominators.
  assert (NoDup (map nom_pubkey (values (nominators e)))) as Hnd.
  { rewrite values_by_key; [apply keys_NoDup|]. intros k n Hk. apply (ek_nom _ e_ok k n Hk). }
  revert Hnd. generalize (values (nominators e)). intros ns. induction ns as [|n ns IH]; [intros; constructor|].
  cbn [map]. intros [Hn Hns]%NoDup_cons. cbn [omap list_omap]. case_bool_decide; [by apply IH|]. cbn [map fst].
  apply NoDup_cons. split; [|by apply IH]. intros (x & Ex & Hx)%list_elem_of_fmap. apply Hn.
  apply list_elem_of_omap in Hx as (n' & Hn' & Ex'). case_bool_decide; [done|]. injection Ex' as <-. cbn in Ex.
  apply list_elem_of_fmap. by exists n'.
Qed.

Lemma noms_of_pos : Forall (fun n => 0 ≤ n.1.2) (noms_of e).
Proof.
  apply Forall_forall. intros [[pk st] l] (n & Hn & <- & _)%elem_of_noms_of. cbn. apply (ek_nom _ e_ok pk n Hn).
Qed.
End election.

(** ** The result *)

(** The stake of [pk] that backs [v]. *)
Definition backed_by (pk : Z) (v : ElectedValidator) : Z :=
  zsum (map (fun b => if b.1 =? pk then b.2 else 0) (backers v)).

(** All that is at stake. *)
Definition at_stake (e : Election) : Z :=
  zsum (map (stake_of (self_of e)) (keys_of e)) + zsum (map (fun n => n.1.2) (noms_of e)).

Lemma backers_in ss ns ws cand pk a :
  (pk, a) ∈ backers (assign ss ns ws cand) →
  ∃ st l, (pk, st, l) ∈ ns ∧ cand ∈ l ∧ 0 < a ∧ a = st / default 1 (elected_counts ns ws !! pk).
Proof.
  unfold assign. case_bool_decide; cbn; [by intros ?%elem_of_nil|].
  intros ([[p st] l] & [Hc Hn]%list_elem_of_filter & E)%list_elem_of_omap. unfold backer_share in E. cbn in *.
  destruct (Z.ltb_spec 0 (st / default 1 (elected_counts ns ws !! p))); [|done]. injection E as <- <-.
  exists st, l. split; [done|]. split; [by apply contains_true|]. done.
Qed.

Section result.
Context (e : Election) (k : nat).
Hypothesis e_ok : election_ok e.
Hypothesis fits : at_stake e < 2 ^ 64.

Let ss := self_of e.
Let ns := noms_of e.
Let winners := rounds ss ns k (initial_loads ns) (keys_of e).

Lemma winners_spec : winners ⊆ keys_of e ∧ NoDup winners ∧ (length winners ≤ k)%nat.
Proof. apply rounds_spec. Qed.

Lemma stake_of_nonneg c : c ∈ keys_of e → 0 ≤ stake_of ss c.
Proof.
  intros Hc. pose proof Hc as (v & Hv & _)%elem_of_keys_of; [|done]. unfold ss.
  rewrite (self_of_lookup e e_ok c v Hv Hc). apply (ek_val _ e_ok c v Hv).
Qed.

(** What a winner is backed with. *)
Lemma assign_spec c :
  c ∈ winners →
  let v := assign ss ns winners c in
  ev_pubkey v = c ∧ ev_self_stake v = stake_of ss c ∧
  ev_total_stake v = stake_of ss c + zsum (map snd (backers v)) ∧
  zsum (map snd (backers v)) = zsum (map (fun n => gives winners n c) ns).
Proof.
  intros Hc. destruct winners_spec as (Hsub & Hnd & _).
  pose proof (backers_sum ns winners (noms_of_NoDup e e_ok) (noms_of_pos e e_ok) c Hc) as Hb.
  assert (0 ≤ zsum (map (fun n => gives winners n c) ns) ≤ zsum (map (fun n => n.1.2) ns)) as Hg.
  { split.
    - apply zsum_nonneg, Forall_forall. intros x (n & -> & Hn)%list_elem_of_fmap.
      by apply (gives_nonneg ns winners (noms_of_pos e e_ok)).
    - apply zsum_map_le. intros n Hn.
      etransitivity; [|apply (gives_within ns winners (noms_of_pos e e_ok) Hnd n Hn)].
      rewrite <-(Z.add_0_r (gives winners n c)). apply list_elem_of_split in Hc as (l1 & l2 & El). rewrite El.
      rewrite map_app, zsum_app. cbn [map zsum].
      assert (∀ l, 0 ≤ zsum (map (gives winners n) l)) as H0.
      { intros l. apply zsum_nonneg, Forall_forall. intros x (y & -> & _)%list_elem_of_fmap.
        by apply (gives_nonneg ns winners (noms_of_pos e e_ok)). }
      rewrite <-El. pose proof (H0 l1). pose proof (H0 l2). lia. }
  pose proof (stake_of_nonneg c (Hsub c Hc)) as Hs.
  assert (stake_of ss c ≤ zsum (map (stake_of ss) (keys_of e))) as Hs'.
  { transitivity (zsum (map (stake_of ss) [c])); [cbn; lia|].
    apply zsum_subset; [apply NoDup_singleton | intros x ->%list_elem_of_singleton; by apply Hsub | apply stake_of_nonneg]. }
  unfold at_stake in fits. fold ss ns in fits. cbn zeta. unfold assign. case_bool_decide as Eb; cbn [ev_pubkey ev_self_stake ev_total_stake backers].
  - rewrite Eb in Hb. cbn in Hb. cbn. split; [done|]. split; [done|]. split; [lia|]. done.
  - split; [done|]. split; [done|]. split; [|done]. rewrite foldl_wadd_exact; rewrite ?Hb; try lia.
    + rewrite wadd_small; [done|]. lia.
    + apply Forall_forall. intros x ([pk a] & -> & Hx)%list_elem_of_fmap. cbn.
      assert ((pk, a) ∈ NarElect.backers (assign ss ns winners c)) as Hx' by (unfold assign; by rewrite bool_decide_eq_false_2).
      apply backers_in in Hx' as (_ & _ & _ & _ & H0 & _). lia.
Qed.

(** What the winners are backed with altogether. *)
Lemma winners_total :
  zsum (map ev_total_stake (map (assign ss ns winners) winners)) ≤ at_stake e.
Proof.
  destruct winners_spec as (Hsub & Hnd & _). rewrite map_map.
  rewrite (zsum_map_ext _ (fun c => stake_of ss c + zsum (map (fun n => gives winners n c) ns))).
  2: { intros c Hc. destruct (assign_spec c Hc) as (_ & _ & -> & ->). done. }
  rewrite zsum_map_add, (zsum_swap (fun c n => gives winners n c)). unfold at_stake. fold ss ns.
  apply Z.add_le_mono; [apply zsum_subset; [done|done|apply stake_of_nonneg]|].
  apply zsum_map_le. intros n Hn. by apply (gives_within ns winners (noms_of_pos e e_ok) Hnd n).
Qed.

(** The parts of one nominator. *)
Lemma nominator_total pk st l :
  (pk, st, l) ∈ ns → zsum (map (backed_by pk) (map (assign ss ns winners) winners)) ≤ st.
Proof.
  intros Hn. destruct winners_spec as (Hsub & Hnd & _). rewrite map_map.
  etransitivity; [|apply (gives_within ns winners (noms_of_pos e e_ok) Hnd (pk, st, l) Hn)].
  apply zsum_map_le. intros c Hc. unfold backed_by, assign.
  pose proof (gives_nonneg ns winners (noms_of_pos e e_ok) (pk, st, l) c Hn) as H0.
  case_bool_decide; cbn [backers]; [done|]. unfold backing.
  assert (∀ r, NoDup (map (fun n => n.1.1) r) → r ⊆ ns →
    zsum (map (fun b => if b.1 =? pk then b.2 else 0) (omap (backer_share ns winners) (filter (fun n => contains n.2 c = true) r)))
    ≤ if decide (pk ∈ map (fun n => n.1.1) r) then gives winners (pk, st, l) c else 0) as Hg.
  { induction r as [|[[p s] m] r IH]; [done|]. cbn [map fst]. intros [Hp Hr]%NoDup_cons Hs.
    specialize (IH Hr ltac:(set_solver)). rewrite filter_cons.
    destruct (decide (p = pk)) as [->|Hne].
    - rewrite (decide_True _ _ (list_elem_of_here _ _)). rewrite decide_False in IH by done.
      assert ((pk, s, m) = (pk, st, l)) as [= -> ->].
      { assert ((pk, s, m) ∈ ns) as Hin by (apply Hs; left). apply elem_of_noms_of in Hin; [|done].
        pose proof Hn as Hn'. apply elem_of_noms_of in Hn'; [|done]. destruct Hin as (n1 & E1 & <- & -> & _), Hn' as (n2 & E2 & <- & -> & _).
        by assert (n1 = n2) as -> by congruence. }
      case_decide as Ec; [|unfold gives in *; cbn [snd] in *; lia].
      assert (backer_share ns winners (pk, st, l) = if 0 <? gives winners (pk, st, l) c
              then Some (pk, gives winners (pk, st, l) c) else None) as Eb.
      { pose proof (counts_lookup ns winners (noms_of_NoDup e e_ok) (pk, st, l) Hn
          (count_pos winners (pk, st, l) c Hc Ec)) as El.
        unfold backer_share, gives. cbn [fst snd] in *. by rewrite Ec, El. }
      rewrite zsum_omap_cons, Eb. destruct (Z.ltb_spec 0 (gives winners (pk, st, l) c)); cbn [fst snd];
        rewrite ?Z.eqb_refl; lia.
    - assert ((if decide (pk ∈ p :: map (fun n => n.1.1) r) then gives winners (pk, st, l) c else 0)
              = if decide (pk ∈ map (fun n => n.1.1) r) then gives winners (pk, st, l) c else 0) as ->.
      { destruct (decide (pk ∈ p :: _)) as [[?|?]%elem_of_cons|Hnot], (decide (pk ∈ map _ r)); try done.
        exfalso. apply Hnot. by right. }
      destruct (decide (contains (p, s, m).2 c = true)); [|exact IH]. rewrite zsum_omap_cons. destruct (backer_share ns winners (p, s, m)) as [[p' a]|] eqn:Eb; [|lia].
      unfold backer_share in Eb. cbn [fst snd] in Eb. case_match; [|done]. injection Eb as <- _. cbn [fst snd].
      rewrite (proj2 (Z.eqb_neq _ _)) by done. lia. }
  etransitivity; [apply Hg; [apply noms_of_NoDup; done|done]|]. case_decide; lia.
Qed.
End result.

(** A nominator none of whose nominees runs backs nobody. *)
Lemma backs_nobody e ws pk n :
  election_ok e → nominators e !! pk = Some n →
  filter (fun v => contains (keys_of e) v = true) (nominations n) = [] →
  zsum (map (backed_by pk) (map (assign (self_of e) (noms_of e) ws) ws)) = 0.
Proof.
  intros He Hn Em. apply zsum_map_zero. intros v (x & -> & Hx)%list_elem_of_fmap. unfold backed_by.
  apply zsum_map_zero. intros [p a] Hb. cbn. destruct (Z.eqb_spec p pk) as [->|]; [|done].
  apply backers_in in Hb as (st & m' & Hb & _). apply elem_of_noms_of in Hb as (n' & Hn' & _ & -> & Hne); [|done].
  assert (n' = n) as -> by congruence. done.
Qed.

Lemma merge_by_stake l : merge_sort by_stake l ≡ₚ l ∧ StronglySorted by_stake (merge_sort by_stake l).
Proof.
  split; [apply merge_sort_Permutation|]. apply StronglySorted_merge_sort; try apply _.
  - intros a b c. unfold by_stake. lia.
  - intros a b. unfold by_stake. lia.
Qed.

(** C26.  An election of reachable registrations, with less than 2^64 at stake in all,
    elects at most as many distinct candidates as there are seats, in the order of their
    stake, the candidates left out waiting. Each is elected with their own stake and the
    parts of nominators who named them; over all the elected no nominator counts for more
    than their stake, and the total is the sum of the stakes of the elected. *)
Theorem election_conserves_stake c e e' r :
  rtc election_step (election_new c) e → at_stake e < 2 ^ 64 → run_election e = Ok (e', r) →
  let pks := map ev_pubkey (elected r) in
  NoDup pks ∧ Z.of_nat (length pks) ≤ Z.max 0 (seats (config e)) ∧ StronglySorted by_stake (elected r) ∧
  (∀ k, k ∈ keys_of e ↔ k ∈ pks ∨ k ∈ waiting r) ∧ (∀ k, k ∈ pks → ¬ (k ∈ waiting r) ∧ k ∈ keys_of e) ∧
  (∀ v, v ∈ elected r →
     (∃ x, validators e !! ev_pubkey v = Some x ∧ ev_self_stake v = val_self_stake x) ∧
     ev_total_stake v = ev_self_stake v + zsum (map snd (backers v)) ∧
     ∀ pk a, (pk, a) ∈ backers v → 0 < a ∧ ∃ n, nominators e !! pk = Some n ∧ ev_pubkey v ∈ nominations n) ∧
  (∀ pk n, nominators e !! pk = Some n → zsum (map (backed_by pk) (elected r)) ≤ nom_stake n) ∧
  res_total_stake r = zsum (map ev_total_stake (elected r)) ∧ res_total_stake r ≤ at_stake e.
Proof.
  intros Hreach Hfit E. pose proof (election_reach c e Hreach) as He. unfold run_election in E. case_match; [done|].
  injection E as _ <-. cbn [elected res_total_stake waiting]. fold (keys_of e) (self_of e) (noms_of e).
  unfold seq_phragmen. set (k := Z.to_nat (seats (config e))).
  set (ws := rounds (self_of e) (noms_of e) k (initial_loads (noms_of e)) (keys_of e)).
  set (l := map (assign (self_of e) (noms_of e) ws) ws).
  destruct (merge_by_stake l) as [Hperm Hsort]. set (el := merge_sort by_stake l) in *.
  destruct (winners_spec e k) as (Hsub & Hnd & Hlen). fold ws in Hsub, Hnd, Hlen.
  assert (map ev_pubkey l = ws) as Hpk.
  { unfold l. rewrite map_map. rewrite <-(map_id ws) at 2. apply map_ext. intros x. unfold assign. by case_bool_decide. }
  assert (map ev_pubkey el ≡ₚ ws) as Hpke by (rewrite <-Hpk; by apply Permutation_map).
  assert (∀ x, contains (map ev_pubkey el) x = true ↔ x ∈ ws) as Hct by (intros x; rewrite contains_true; by rewrite Hpke).
  assert (∀ v, v ∈ el → ∃ x, x ∈ ws ∧ v = assign (self_of e) (noms_of e) ws x) as Hin.
  { intros v. rewrite Hperm. intros (x & -> & Hx)%list_elem_of_fmap. by exists x. }
  pose proof (winners_total e k He Hfit) as Htot. fold ws l in Htot.
  assert (zsum (map ev_total_stake el) = zsum (map ev_total_stake l)) as Hsum by (by apply zsum_perm, Permutation_map).
  split; [by rewrite Hpke|]. split; [rewrite Hpke; unfold k in Hlen; lia|]. split; [done|].
  split; [|split; [|split; [|split]]].
  - intros x. rewrite Hpke, list_elem_of_filter. split; [|intros [Hx|[_ Hx]]; [by apply Hsub|done]].
    intros Hx. destruct (contains (map ev_pubkey el) x) eqn:Ec; [left; by apply Hct|by right].
  - intros x. rewrite Hpke. intros Hx. split; [|by apply Hsub]. intros [Hf _]%list_elem_of_filter.
    apply Hct in Hx. congruence.
  - intros v Hv. destruct (Hin v Hv) as (x & Hx & ->). destruct (assign_spec e k He Hfit x Hx) as (E1 & E2 & E3 & _).
    fold ws in E1, E2, E3. rewrite E1, E2. split; [|split; [exact E3|]].
    + pose proof (Hsub x Hx) as Hk. pose proof Hk as (y & Hy & _)%elem_of_keys_of; [|done]. exists y. split; [done|].
      by apply self_of_lookup.
    + intros pk a Ha. apply backers_in in Ha as (st & m & Hn & Hm & H0 & _). split; [done|].
      apply elem_of_noms_of in Hn as (n & Hn & _ & -> & _); [|done]. exists n. split; [done|].
      by apply list_elem_of_filter in Hm as [_ Hm].
  - intros pk n Hn. rewrite (zsum_perm _ (map (backed_by pk) l)) by (by apply Permutation_map).
    set (m := filter (fun v => contains (keys_of e) v = true) (nominations n)).
    destruct (decide (m = [])) as [Em|Em].
    + unfold l. rewrite (backs_nobody e ws pk n He Hn Em). apply (ek_nom _ He pk n Hn).
    + apply (nominator_total e k He Hfit pk (nom_stake n) m). apply elem_of_noms_of; [done|]. by exists n.
  - assert (Forall (Z.le 0) (map ev_total_stake el)) as Hpos.
    { apply Forall_forall. intros y (v & -> & Hv)%list_elem_of_fmap. destruct (Hin v Hv) as (x & Hx & ->).
      destruct (assign_spec e k He Hfit x Hx) as (_ & _ & E3 & E4). fold ws in E3, E4. rewrite E3, E4.
      pose proof (stake_of_nonneg e He x (Hsub x Hx)).
      assert (0 ≤ zsum (map (fun n => gives ws n x) (noms_of e))); [|lia].
      apply zsum_nonneg, Forall_forall. intros z (n & -> & Hn)%list_elem_of_fmap.
      by apply (gives_nonneg (noms_of e) ws (noms_of_pos e He)). }
    rewrite foldl_wadd_exact; [lia|done|done|lia].
Qed.

(** * Custody shares *)

Section custody.
Context (total d : Z).
Hypothesis total_ok : 0 < total < 2 ^ 64.
Hypothesis d_ok : 0 ≤ d < 200.

(** What stake [s] is given beside the first share. *)
Definition by_part (s : Z) : Z := s * d / total.

Lemma by_part_bounds s : 0 ≤ s ≤ total → 0 ≤ by_part s ≤ d ∧ s * d - total < total * by_part s ≤ s * d.
Proof.
  intros Hs. unfold by_part. pose proof (Z.div_mod (s * d) total ltac:(lia)).
  pose proof (Z.mod_pos_bound (s * d) total ltac:(lia)).
  assert (0 ≤ s * d / total) by (apply Z.div_pos; nia).
  split; [|lia]. split; [done|]. apply Z.div_le_upper_bound; nia.
Qed.

Lemma first_shares_osst v : 0 ≤ ev_total_stake v ≤ total → osst_shares (first_shares total d v) = 1 + by_part (ev_total_stake v).
Proof.
  intros Hs. destruct (by_part_bounds _ Hs) as [Hb _]. unfold first_shares, by_part in *. cbn.
  rewrite wmul_small by nia. rewrite wrap_small by (unfold fits; lia). rewrite wadd_small by lia. done.
Qed.

Lemma parts_sum l :
  Forall (fun v => 0 ≤ ev_total_stake v) l → zsum (map ev_total_stake l) ≤ total →
  0 ≤ zsum (map (fun v => by_part (ev_total_stake v)) l) ∧
  zsum (map ev_total_stake l) * d - total * Z.of_nat (length l)
    ≤ total * zsum (map (fun v => by_part (ev_total_stake v)) l) ≤ zsum (map ev_total_stake l) * d.
Proof.
  induction l as [|v l IH]; intros Hp Hs; cbn [map zsum length] in *; [lia|].
  apply Forall_cons in Hp as [Hv Hp]. assert (0 ≤ zsum (map ev_total_stake l)).
  { apply zsum_nonneg, Forall_fmap. done. }
  destruct (IH Hp) as (H1 & H2); [lia|]. destruct (by_part_bounds (ev_total_stake v)) as [H3 H4]; [lia|]. lia.
Qed.
End custody.

Lemma nonneg_map {A} (f : A → Z) l : Forall (Z.le 0) (map f l) → Forall (fun x => 0 ≤ f x) l.
Proof. rewrite !Forall_forall. intros H x Hx. apply H, list_elem_of_fmap. by exists x. Qed.

Lemma sum32_exact l : Forall (fun a => 0 ≤ osst_shares a) l → zsum (map osst_shares l) < 2 ^ 32 → sum32 l = zsum (map osst_shares l).
Proof. intros Hl Hs. unfold sum32. rewrite foldl_wadd_exact; [lia|done|by apply Forall_fmap|done]. Qed.

Lemma fix_rounding_short a l :
  Forall (fun a => 0 ≤ osst_shares a) (a :: l) → zsum (map osst_shares (a :: l)) ≤ TOTAL_SHARES →
  fix_rounding (a :: l) = (a <| osst_shares := osst_shares a + (TOTAL_SHARES - zsum (map osst_shares (a :: l))) |>) :: l.
Proof.
  intros Hp Hs. unfold TOTAL_SHARES in *.
  assert (0 ≤ osst_shares a ≤ zsum (map osst_shares (a :: l))) as Ha by (apply zsum_elem_le; [done|left]).
  unfold fix_rounding. rewrite sum32_exact by (done || lia). unfold TOTAL_SHARES.
  destruct (Z.ltb_spec (zsum (map osst_shares (a :: l))) 200).
  - rewrite wsub_small by lia. rewrite wadd_small by lia. done.
  - rewrite (proj2 (Z.ltb_ge 200 _)) by lia. assert (zsum (map osst_shares (a :: l)) = 200) as -> by lia.
    rewrite Z.sub_diag, Z.add_0_r. by destruct a.
Qed.

Definition flagged (size i : nat) (a : ShareAllocation) : ShareAllocation :=
  if (i <? size)%nat then a <| frost_executor := true |> else a.

Lemma flag_keeps {B} (f : ShareAllocation → B) size l :
  (∀ a, f (a <| frost_executor := true |>) = f a) → map f (imap (flagged size) l) = map f l.
Proof.
  intros Hf. assert (∀ g : nat → ShareAllocation → ShareAllocation, (∀ i a, f (g i a) = f a) → map f (imap g l) = map f l) as Hg.
  { induction l as [|a l IH]; intros g Hga; [done|]. rewrite imap_cons. cbn [map]. rewrite Hga. f_equal. apply (IH (g ∘ S)). intros. apply Hga. }
  apply Hg. intros i a. unfold flagged. by case_match.
Qed.

(** The marks are on the first five. *)
Lemma marks_first {B} (l : list ShareAllocation) (k : list B) :
  Forall (fun b => frost_executor b = false) l → length l = length k →
  map frost_executor (imap (flagged (Nat.min FROST_COMMITTEE_SIZE (length l))) l)
    = imap (fun i _ => bool_decide (i < FROST_COMMITTEE_SIZE)%nat) k.
Proof.
  intros Hf Hl. apply list_eq. intros i. rewrite list_lookup_fmap, !list_lookup_imap.
  destruct (l !! i) as [b|] eqn:Eb; cbn [fmap option_fmap option_map].
  - pose proof (lookup_lt_Some _ _ _ Eb) as Hi. destruct (lookup_lt_is_Some_2 k i) as [y Ey]; [lia|].
    rewrite Ey. cbn [fmap option_fmap option_map]. f_equal. rewrite Forall_forall in Hf.
    specialize (Hf b (list_elem_of_lookup_2 _ _ _ Eb)). cbn in Hf. unfold flagged.
    case_bool_decide; destruct (Nat.ltb_spec i (Nat.min FROST_COMMITTEE_SIZE (length l))); cbn [frost_executor]; (done || lia).
  - apply lookup_ge_None in Eb. rewrite lookup_ge_None_2 by lia. done.
Qed.

(** The list before the executors are marked. *)
Lemma shares_before_marks T vs v :
  let l := v :: vs in
  let n := Z.of_nat (length l) in
  let part v := 1 + ev_total_stake v * (TOTAL_SHARES - n) / T in
  n ≤ TOTAL_SHARES → 0 < T < 2 ^ 64 → Forall (fun v => 0 ≤ ev_total_stake v) l → zsum (map ev_total_stake l) = T →
  ∃ x, fix_rounding (map (first_shares T (TOTAL_SHARES - n)) l)
         = ((first_shares T (TOTAL_SHARES - n) v) <| osst_shares := x |>) :: map (first_shares T (TOTAL_SHARES - n)) vs ∧
       part v ≤ x ≤ part v + n ∧ map osst_shares (map (first_shares T (TOTAL_SHARES - n)) vs) = map part vs ∧
       x + zsum (map part vs) = TOTAL_SHARES ∧ Forall (fun v => 1 ≤ part v) l.
Proof.
  intros l n part Hn HT Hp Hs. assert (1 ≤ n) as Hn1 by (subst n l; cbn; lia). unfold TOTAL_SHARES in *.
  set (d := 200 - n) in *. assert (0 ≤ d < 200) as Hd by lia.
  assert (∀ x, x ∈ l → osst_shares (first_shares T d x) = part x ∧ 1 ≤ part x) as Hx.
  { intros x Hx. pose proof (zsum_elem_le ev_total_stake l x Hp Hx) as Hb. rewrite Hs in Hb.
    rewrite (first_shares_osst T d HT Hd x Hb). destruct (by_part_bounds T d HT Hd _ Hb) as [Hb' _].
    split; [done|]. change (part x) with (1 + by_part T d (ev_total_stake x)). lia. }
  destruct (parts_sum T d HT Hd l Hp ltac:(lia)) as [H0 H1]. rewrite Hs in H1. fold n in H1.
  assert (map osst_shares (map (first_shares T d) l) = map part l) as Hm.
  { rewrite map_map. apply map_ext_in. intros x Hi%list_elem_of_In. by apply Hx. }
  assert (zsum (map part l) = n + zsum (map (fun v => by_part T d (ev_total_stake v)) l)) as Hz.
  { transitivity (zsum (map (fun v => 1 + by_part T d (ev_total_stake v)) l)); [done|].
    rewrite zsum_map_add. f_equal. subst n. clear. induction l; cbn [map zsum length]; lia. }
  assert (200 - n ≤ zsum (map part l) ≤ 200) as Hb by (rewrite Hz; nia).
  assert (Forall (fun a => 0 ≤ osst_shares a) (map (first_shares T d) l)) as Hf.
  { apply Forall_fmap, Forall_forall. intros x Hi. destruct (Hx x Hi) as [Ex ?]. change (0 ≤ osst_shares (first_shares T d x)). rewrite Ex. lia. }
  exists (part v + (200 - zsum (map part l))). split.
  - subst l. change (map (first_shares T d) (v :: vs)) with (first_shares T d v :: map (first_shares T d) vs) in Hm, Hf |- *.
    rewrite fix_rounding_short; [|done|rewrite Hm; unfold TOTAL_SHARES; lia].
    rewrite Hm. destruct (Hx v) as [-> _]; [left|]. done.
  - split; [lia|]. subst l. cbn [map] in *. injection Hm as _ Hm. split; [done|]. split; [cbn [zsum]; lia|].
    apply Forall_forall. intros y Hy. by apply Hx.
Qed.

(** When the stake of an election's result is that of its elected, at most two
    hundred of them, the custody shares handed out are exactly the two hundred: one for
    each of the elected and their part of the rest by stake, rounded down, the first also
    what the rounding left, at most one share for each of the elected. The executors are
    the first five of the list. *)
Lemma custody_hands_out_all r :
  let n := Z.of_nat (length (elected r)) in
  1 ≤ n ≤ TOTAL_SHARES → 0 < res_total_stake r < 2 ^ 64 →
  Forall (fun v => 0 ≤ ev_total_stake v) (elected r) → zsum (map ev_total_stake (elected r)) = res_total_stake r →
  let c := allocate_custody r in
  let part v := 1 + ev_total_stake v * (TOTAL_SHARES - n) / res_total_stake r in
  total_allocated c = TOTAL_SHARES ∧ zsum (map osst_shares (allocations c)) = TOTAL_SHARES ∧
  map sa_pubkey (allocations c) = map ev_pubkey (elected r) ∧
  map frost_executor (allocations c) = imap (fun i _ => bool_decide (i < FROST_COMMITTEE_SIZE)%nat) (elected r) ∧
  frost_committee c = map ev_pubkey (firstn FROST_COMMITTEE_SIZE (elected r)) ∧
  ∃ v vs a l, elected r = v :: vs ∧ allocations c = a :: l ∧
    map osst_shares l = map part vs ∧ part v ≤ osst_shares a ≤ part v + n.
Proof.
  cbn zeta. destruct (elected r) as [|v vs] eqn:El; [cbn; lia|]. intros Hn Ht Hp Hs.
  destruct (shares_before_marks (res_total_stake r) vs v (proj2 Hn) Ht Hp Hs) as (x & Ex & Hx & Hm & Hsum & Hone).
  set (d := TOTAL_SHARES - Z.of_nat (length (v :: vs))) in *. set (T := res_total_stake r) in *.
  set (a := (first_shares T d v) <| osst_shares := x |>) in *. set (l := map (first_shares T d) vs) in *.
  assert (allocate_custody r = mkCustodyAllocation (res_era r)
            (imap (flagged (Nat.min FROST_COMMITTEE_SIZE (length (a :: l)))) (a :: l))
            (map sa_pubkey (firstn (Nat.min FROST_COMMITTEE_SIZE (length (a :: l))) (a :: l)))
            (sum32 (imap (flagged (Nat.min FROST_COMMITTEE_SIZE (length (a :: l)))) (a :: l)))) as ->.
  { unfold allocate_custody. rewrite El, bool_decide_eq_false_2 by done.
    rewrite (proj2 (Z.eqb_neq _ 0)) by lia. cbn [orb]. unfold TOTAL_SHARES in *. rewrite wrap_small by (unfold fits; lia).
    rewrite Z.min_l by lia. assert (sat_sub 200 (Z.of_nat (length (v :: vs))) = d) as -> by (unfold sat_sub; subst d; lia).
    fold T. by rewrite Ex. }
  apply Forall_cons in Hone as [Hv Hvs].
  assert (Forall (fun a => 0 ≤ osst_shares a) (a :: l)) as Hnn.
  { constructor; [cbn; lia|]. assert (Forall (Z.le 0) (map osst_shares l)) as H0.
    { rewrite Hm. apply Forall_fmap. eapply Forall_impl; [exact Hvs|]. cbn. lia. }
    by apply nonneg_map. }
  assert (zsum (map osst_shares (a :: l)) = TOTAL_SHARES) as Hall by (cbn [map zsum]; rewrite Hm; exact Hsum).
  cbn [total_allocated allocations frost_committee].
  assert (map sa_pubkey (a :: l) = map ev_pubkey (v :: vs)) as Hpk by (cbn [map]; f_equal; subst l; by rewrite map_map).
  split; [|split; [|split; [|split; [|split]]]].
  - unfold sum32. rewrite flag_keeps by done. fold (sum32 (a :: l)). rewrite sum32_exact; [done|done|]. by rewrite Hall.
  - by rewrite flag_keeps.
  - by rewrite flag_keeps.
  - apply marks_first; [constructor; [done|]; by apply Forall_fmap, Forall_true|]. subst l. cbn [length]. by rewrite length_map.
  - rewrite <-!firstn_map, Hpk. assert (length (a :: l) = length (map ev_pubkey (v :: vs))) as -> by (by rewrite <-Hpk, length_map).
    destruct (Nat.min_spec FROST_COMMITTEE_SIZE (length (map ev_pubkey (v :: vs)))) as [[? ->]|[? ->]]; [done|].
    by rewrite firstn_all, firstn_all2.
  - exists v, vs. do 2 eexists. split; [done|]. split; [by rewrite imap_cons|]. split; [|done].
    rewrite <-Hm. pose proof (flag_keeps osst_shares (Nat.min FROST_COMMITTEE_SIZE (length (a :: l))) (a :: l) ltac:(done)) as Hk.
    rewrite imap_cons in Hk. cbn [map] in Hk. by injection Hk as Hk.
Qed.

(** More than two hundred elected get a share each, but for the first, who pays for those
    above the two hundred with the only one they have. *)
Example too_many_custodians :
  let v := mkElectedValidator 1 10 10 [] in
  let r := mkElectionResult 1 (replicate 205 v) 2050 [] in
  map osst_shares (firstn 2 (allocations (allocate_custody r))) = [0; 1] ∧
  total_allocated (allocate_custody r) = 204.
Proof. vm_compute. done. Qed.

(** Nominating the same validator twice halves what the nominator's other nominees get
    and loses the rest. *)
Example nominated_twice :
  map (fun v => (ev_pubkey v, ev_total_stake v))
    (seq_phragmen {[1 := 0; 2 := 0]} [(10, 90, [1; 1; 2])] 2 [1; 2]) = [(1, 30); (2, 30)].
Proof. vm_compute. done. Qed.

(** * Witnesses *)

Definition small_config : EraConfig := mkEraConfig 2 1000 100 0 16 10.

Definition small_election : Election :=
  mkElection small_config
    {[1 := mkValidator 1 500 true 0; 2 := mkValidator 2 800 true 0; 3 := mkValidator 3 100 true 0]}
    {[10 := mkNominator 10 10001 [1; 2]]} 0 None.

Definition small_result : ElectionResult :=
  mkElectionResult 1 [mkElectedValidator 2 5800 800 [(10, 5000)]; mkElectedValidator 1 5500 500 [(10, 5000)]] 11300 [3].

Lemma election_conserves_stake_witness :
  ∃ e', run_election small_election = Ok (e', small_result) ∧ res_total_stake small_result ≤ at_stake small_election.
Proof.
  eexists. split; [vm_compute; reflexivity|].
  refine (proj2 (proj2 (proj2 (proj2 (proj2 (proj2 (proj2 (proj2
    (election_conserves_stake small_config small_election _ small_result _ _ _))))))))); [| |vm_compute; reflexivity].
  - eapply rtc_l; [apply (es_register _ (mkElection small_config {[1 := mkValidator 1 500 true 0]} ∅ 0 None) 1 500 0);
                   [lia | vm_compute; reflexivity]|].
    eapply rtc_l; [apply (es_register _ (mkElection small_config
                     {[1 := mkValidator 1 500 true 0; 2 := mkValidator 2 800 true 0]} ∅ 0 None) 2 800 0);
                   [lia | vm_compute; reflexivity]|].
    eapply rtc_l; [apply (es_register _ (mkElection small_config
                     {[1 := mkValidator 1 500 true 0; 2 := mkValidator 2 800 true 0; 3 := mkValidator 3 100 true 0]} ∅ 0 None) 3 100 0);
                   [lia | vm_compute; reflexivity]|].
    eapply rtc_l; [apply (es_nominate _ small_election 10 10001 [1; 2]); [lia | vm_compute; reflexivity]|]. apply rtc_refl.
  - vm_compute. reflexivity.
Defined.

Lemma custody_hands_out_all_witness :
  map osst_shares (allocations (allocate_custody small_result)) = [103; 97] ∧
  total_allocated (allocate_custody small_result) = 200.
Proof.
  split; [vm_compute; reflexivity|].
  apply (custody_hands_out_all small_result); [vm_compute; split; congruence | vm_compute; split; congruence | | reflexivity].
  repeat constructor; vm_compute; congruence.
Defined.
