(* ===== verification/NarBallot.v ===== *)
(** Secret ballots by commit and reveal, [crates/narsil/src/ballot.rs]: votes sealed under
    a nullifier, opened later, tallied by stake; and the staked ballot, whose powers come
    from the election and in which a nominator's own vote takes their part from their
    validator's.

    SHA-256 is a parameter: what it makes of the bytes, as the integer the digest writes.
    A [Hash32] (a public key, a nullifier, a commitment) is such an integer too. *)
From stdpp Require Import base list gmap strings.
From Stdlib Require Import ZArith Lia.
From S2P Require Import Prelude Bytes OrdMap NarElect.

Local Open Scope Z_scope.

(** * Votes *)

Module Vote.
Inductive Vote := Yes | No | Abstain.
End Vote.

#[export] Instance Vote_eq_dec : EqDecision Vote.Vote.
Proof. solve_decision. Defined.

Definition as_byte (v : Vote.Vote) : Z :=
  match v with Vote.Yes => 1 | Vote.No => 2 | Vote.Abstain => 3 end.

Definition from_byte (b : Z) : option Vote.Vote :=
  if b =? 1 then Some Vote.Yes else if b =? 2 then Some Vote.No else if b =? 3 then Some Vote.Abstain else None.

Section hashes.
Context `{Sha256}.

Definition nullifier_derive (voter_secret : bytes) (proposal_id : Z) : Z :=
  sha256 (ascii "narsil.ballot.nullifier" ++ voter_secret ++ to_le 8 proposal_id).

Definition commitment_compute (vote : Vote.Vote) (blinding : bytes) (nullifier : Z) : Z :=
  sha256 (ascii "narsil.ballot.commitment" ++ [z2b (as_byte vote)] ++ blinding ++ to_be 32 nullifier).

Definition commitment_verify (c : Z) (vote : Vote.Vote) (blinding : bytes) (nullifier : Z) : bool :=
  commitment_compute vote blinding nullifier =? c.
End hashes.

(** The signature is carried, not looked at. *)
Record SealedVote := mkSealedVote {
  sv_commitment : Z;
  sv_nullifier : Z;
  sv_power : Z;
  sv_signature : bytes;
  sv_signer : Z;
}.

Record RevealedVote := mkRevealedVote { rv_vote : Vote.Vote; rv_blinding : bytes; rv_nullifier : Z }.

(** * Tallies *)

Record Tally := mkTally { t_yes : Z; t_no : Z; t_abstain : Z }.
#[export] Instance Tally_eta : Eta Tally := fun t => mkTally (t_yes t) (t_no t) (t_abstain t).

Definition tally_default : Tally := mkTally 0 0 0.

Definition tally_total (t : Tally) : Z := wadd 64 (wadd 64 (t_yes t) (t_no t)) (t_abstain t).

Definition tally_add (t : Tally) (vote : Vote.Vote) (power : Z) : Tally :=
  match vote with
  | Vote.Yes => t <| t_yes := wadd 64 (t_yes t) power |>
  | Vote.No => t <| t_no := wadd 64 (t_no t) power |>
  | Vote.Abstain => t <| t_abstain := wadd 64 (t_abstain t) power |>
  end.

Definition yes_ratio (t : Tally) : Z * Z :=
  let denom := wadd 64 (t_yes t) (t_no t) in
  if denom =? 0 then (0, 1) else (t_yes t, denom).

Definition meets_quorum (t : Tally) (total_power quorum_bps : Z) : bool :=
  if total_power =? 0 then false else wmul 128 total_power quorum_bps <=? wmul 128 (tally_total t) 10000.

Module BallotOutcome.
Inductive BallotOutcome := Pass | Fail | Slash.
End BallotOutcome.

#[export] Instance BallotOutcome_eq_dec : EqDecision BallotOutcome.BallotOutcome.
Proof. solve_decision. Defined.

Definition outcome_of (t : Tally) (total_power quorum_bps pass_bps slash_bps : Z) : BallotOutcome.BallotOutcome :=
  if negb (meets_quorum t total_power quorum_bps) then BallotOutcome.Fail
  else
    let total_voted := tally_total t in
    if (0 <? total_voted) && (wmul 128 total_voted slash_bps <? wmul 128 (t_no t) 10000) then BallotOutcome.Slash
    else
      let '(yes, denom) := yes_ratio t in
      if (0 <? denom) && (wmul 128 denom pass_bps <=? wmul 128 yes 10000) then BallotOutcome.Pass
      else BallotOutcome.Fail.

(** * Ballots *)

Module BallotPhase.
Inductive BallotPhase := Commit | Reveal | Tallied | Cancelled.
End BallotPhase.

#[export] Instance BallotPhase_eq_dec : EqDecision BallotPhase.BallotPhase.
Proof. solve_decision. Defined.

Inductive BallotError :=
| WrongPhase (expected got : BallotPhase.BallotPhase)
| DuplicateNullifier
| InvalidReveal
| NoCommitment
| ZeroPower.

Record Ballot := mkBallot {
  proposal_id : Z;
  phase : BallotPhase.BallotPhase;
  sealed : gmap Z SealedVote;
  revealed : gmap Z RevealedVote;
  tally : Tally;
  commit_deadline : Z;
  reveal_deadline : Z;
}.
#[export] Instance Ballot_eta : Eta Ballot := fun b =>
  mkBallot (proposal_id b) (phase b) (sealed b) (revealed b) (tally b) (commit_deadline b) (reveal_deadline b).

Definition ballot_new (id commit_by reveal_by : Z) : Ballot :=
  mkBallot id BallotPhase.Commit ∅ ∅ tally_default commit_by reveal_by.

Definition ballot_commit (b : Ballot) (sv : SealedVote) : result Ballot BallotError :=
  if negb (bool_decide (phase b = BallotPhase.Commit)) then Err (WrongPhase BallotPhase.Commit (phase b))
  else if sv_power sv =? 0 then Err ZeroPower
  else if bool_decide (is_Some (sealed b !! sv_nullifier sv)) then Err DuplicateNullifier
  else Ok (b <| sealed := <[sv_nullifier sv := sv]> (sealed b) |>).

Definition start_reveal (b : Ballot) : Ballot :=
  if bool_decide (phase b = BallotPhase.Commit) then b <| phase := BallotPhase.Reveal |> else b.

Definition ballot_reveal `{Sha256} (b : Ballot) (rv : RevealedVote) : result Ballot BallotError :=
  if negb (bool_decide (phase b = BallotPhase.Reveal)) then Err (WrongPhase BallotPhase.Reveal (phase b))
  else
    match sealed b !! rv_nullifier rv with
    | None => Err NoCommitment
    | Some sv =>
        if negb (commitment_verify (sv_commitment sv) (rv_vote rv) (rv_blinding rv) (rv_nullifier rv))
        then Err InvalidReveal
        else Ok (b <| revealed := <[rv_nullifier rv := rv]> (revealed b) |>)
    end.

Definition ballot_finalize (b : Ballot) : Ballot :=
  b <| tally := foldl (fun t nr => match sealed b !! nr.1 with
                                   | Some sv => tally_add t (rv_vote nr.2) (sv_power sv)
                                   | None => t
                                   end) tally_default (entries (revealed b)) |>
    <| phase := BallotPhase.Tallied |>.

Definition unrevealed (b : Ballot) : list SealedVote :=
  map snd (filter (fun nv => revealed b !! nv.1 = None) (entries (sealed b))).

(** * Staked ballots *)

Record StakedBallot := mkStakedBallot {
  ballot : Ballot;
  validator_stakes : gmap Z Z;
  nominator_stakes : gmap Z (Z * Z);
  voted : gmap Z Z;
  total_power : Z;
}.
#[export] Instance StakedBallot_eta : Eta StakedBallot := fun s =>
  mkStakedBallot (ballot s) (validator_stakes s) (nominator_stakes s) (voted s) (total_power s).

(** The elected enter with their stake, their backers with their part and the validator
    backed; one who backs several keeps the last. *)
Definition from_election (id commit_by reveal_by : Z) (e : Election) : option StakedBallot :=
  match current_result e with
  | None => None
  | Some r =>
      Some (mkStakedBallot (ballot_new id commit_by reveal_by)
        (foldl (fun m v => <[ev_pubkey v := ev_total_stake v]> m) ∅ (elected r))
        (foldl (fun m v => foldl (fun m b => <[b.1 := (b.2, ev_pubkey v)]> m) m (backers v)) ∅ (elected r))
        ∅ (res_total_stake r))
  end.

Definition power_of (s : StakedBallot) (pubkey : Z) : Z :=
  match validator_stakes s !! pubkey with
  | Some stake => stake
  | None => match nominator_stakes s !! pubkey with Some (stake, _) => stake | None => 0 end
  end.

Section staked.
Context `{Sha256}.

Definition staked_commit (s : StakedBallot) (voter : Z) (voter_secret : bytes) (vote : Vote.Vote)
    (blinding signature : bytes) : result StakedBallot BallotError :=
  let power := power_of s voter in
  if power =? 0 then Err ZeroPower
  else
    let nf := nullifier_derive voter_secret (proposal_id (ballot s)) in
    let sv := mkSealedVote (commitment_compute vote blinding nf) nf power signature voter in
    let? b := ballot_commit (ballot s) sv in
    Ok (s <| ballot := b |> <| voted := <[nf := voter]> (voted s) |>).

Definition staked_reveal (s : StakedBallot) (rv : RevealedVote) : result StakedBallot BallotError :=
  let? b := ballot_reveal (ballot s) rv in Ok (s <| ballot := b |>).

(** What the nominators who committed take from each validator. *)
Definition validator_overrides (s : StakedBallot) : gmap Z Z :=
  foldl (fun m pk => match nominator_stakes s !! pk with
                     | Some (stake, v) => <[v := wadd 64 (default 0 (m !! v)) stake]> m
                     | None => m
                     end) ∅ (values (voted s)).

(** The power a revealed vote counts with. *)
Definition effective_power (s : StakedBallot) (nf : Z) (sv : SealedVote) : Z :=
  match voted s !! nf with
  | Some pk =>
      if bool_decide (is_Some (validator_stakes s !! pk))
      then sat_sub (sv_power sv) (default 0 (validator_overrides s !! pk))
      else sv_power sv
  | None => sv_power sv
  end.

Definition staked_finalize (s : StakedBallot) : StakedBallot :=
  let s := s <| ballot := ballot_finalize (ballot s) |> in
  let t := foldl (fun t nr =>
                    match sealed (ballot s) !! nr.1 with
                    | Some sv =>
                        let power := effective_power s nr.1 sv in
                        if 0 <? power then tally_add t (rv_vote nr.2) power else t
                    | None => t
                    end) tally_default (entries (revealed (ballot s))) in
  s <| ballot := (ballot s) <| tally := t |> |>.

Definition staked_outcome (s : StakedBallot) (quorum_bps pass_bps slash_bps : Z) : BallotOutcome.BallotOutcome :=
  outcome_of (tally (ballot s)) (total_power s) quorum_bps pass_bps slash_bps.
End staked.
