(* ===== verification/NarTally.v ===== *)
(** What the ballots of [NarBallot.v] count: the votes that were committed, once per
    nullifier; and no more power than is staked as long as every voter keeps to one
    nullifier, which the code does not make them do. *)
From stdpp Require Import base list gmap strings.
From Stdlib Require Import ZArith Lia.
From S2P Require Import Prelude Bytes OrdMap NarElect NarBooks NarBallot.

Local Open Scope Z_scope.

(** * Adding up votes *)

Definition vote_power (v : Vote.Vote) (t : Tally) : Z :=
  match v with Vote.Yes => t_yes t | Vote.No => t_no t | Vote.Abstain => t_abstain t end.

(** The weight a list of weighted votes gives to [v]. *)
Definition weight_for (v : Vote.Vote) (l : list (Vote.Vote * Z)) : Z :=
  zsum (map (fun x => if bool_decide (x.1 = v) then x.2 else 0) l).

Definition add_all (t : Tally) (l : list (Vote.Vote * Z)) : Tally := foldl (fun t x => tally_add t x.1 x.2) t l.

Lemma weight_split l : weight_for Vote.Yes l + weight_for Vote.No l + weight_for Vote.Abstain l = zsum (map snd l).
Proof.
  unfold weight_for. induction l as [|[[] p] l IH]; cbn [map zsum fst snd]; [done|..];
    repeat case_bool_decide; (done || lia).
Qed.

Lemma weight_nonneg v l : Forall (fun x => 0 ≤ x.2) l → 0 ≤ weight_for v l.
Proof.
  intros Hl. apply zsum_nonneg, Forall_fmap. eapply Forall_impl; [exact Hl|]. intros x Hx. cbn. case_bool_decide; [done|lia].
Qed.

Lemma add_all_exact l : ∀ t,
  Forall (fun x => 0 ≤ x.2) l → 0 ≤ t_yes t → 0 ≤ t_no t → 0 ≤ t_abstain t →
  t_yes t + t_no t + t_abstain t + zsum (map snd l) < 2 ^ 64 →
  ∀ v, vote_power v (add_all t l) = vote_power v t + weight_for v l.
Proof.
  unfold weight_for. induction l as [|[w p] l IH]; intros t Hl H1 H2 H3 Hf v; cbn [add_all foldl map zsum fst snd] in *; [lia|].
  apply Forall_cons in Hl as [Hp Hl]. cbn in Hp. assert (0 ≤ zsum (map snd l)) by (by apply zsum_nonneg, Forall_fmap).
  fold (add_all (tally_add t w p) l). rewrite IH; destruct w; cbn [tally_add t_yes t_no t_abstain]; try done;
    unfold set_field; cbn; rewrite ?wadd_small by lia; try lia.
  all: destruct v; repeat case_bool_decide; cbn; try done; lia.
Qed.

Lemma tally_total_exact l :
  Forall (fun x => 0 ≤ x.2) l → zsum (map snd l) < 2 ^ 64 → tally_total (add_all tally_default l) = zsum (map snd l).
Proof.
  intros Hl Hf. pose proof (add_all_exact l tally_default Hl ltac:(done) ltac:(done) ltac:(done) ltac:(cbn; lia)) as H.
  pose proof (H Vote.Yes) as Hy. pose proof (H Vote.No) as Hn. pose proof (H Vote.Abstain) as Ha. cbn in Hy, Hn, Ha.
  pose proof (weight_split l). pose proof (weight_nonneg Vote.Yes l Hl). pose proof (weight_nonneg Vote.No l Hl).
  pose proof (weight_nonneg Vote.Abstain l Hl). unfold tally_total. rewrite Hy, Hn, Ha. rewrite (wadd_small 64 (weight_for Vote.Yes l)), wadd_small by lia. lia.
Qed.

(** * Reachable ballots *)

Section ballots.
Context `{Sha256}.

(** A staked ballot and the commitments made to it: by nullifier, who voted what. *)
Definition traced : Type := StakedBallot * gmap Z (Z * Vote.Vote).

Inductive ballot_step : traced → traced → Prop :=
| bs_commit s s' log voter secret vote blinding sg :
    staked_commit s voter secret vote blinding sg = Ok s' →
    ballot_step (s, log) (s', <[nullifier_derive secret (proposal_id (ballot s)) := (voter, vote)]> log)
| bs_start s log : ballot_step (s, log) (s <| ballot := start_reveal (ballot s) |>, log)
| bs_reveal s s' log rv : staked_reveal s rv = Ok s' → ballot_step (s, log) (s', log)
| bs_finalize s log : ballot_step (s, log) (staked_finalize s, log).

Record traced_ok (x : traced) : Prop := {
  tk_sealed : ∀ nf sv, sealed (ballot x.1) !! nf = Some sv →
    sv_nullifier sv = nf ∧ voted x.1 !! nf = Some (sv_signer sv) ∧ sv_power sv = power_of x.1 (sv_signer sv) ∧
    ∃ vote blinding, x.2 !! nf = Some (sv_signer sv, vote) ∧ sv_commitment sv = commitment_compute vote blinding nf;
  tk_voted : voted x.1 = fst <$> x.2;
  tk_revealed : ∀ nf rv, revealed (ballot x.1) !! nf = Some rv →
    rv_nullifier rv = nf ∧ ∃ sv, sealed (ballot x.1) !! nf = Some sv ∧
    sv_commitment sv = commitment_compute (rv_vote rv) (rv_blinding rv) nf;
}.

(** A ballot just opened on some stakes. *)
Definition opened (s : StakedBallot) : Prop :=
  sealed (ballot s) = ∅ ∧ revealed (ballot s) = ∅ ∧ voted s = ∅.

Lemma opened_ok s : opened s → traced_ok (s, ∅).
Proof.
  intros (E1 & E2 & E3). split; cbn; rewrite ?E1, ?E2, ?E3; [|by rewrite fmap_empty|];
    intros nf x Hx; by apply lookup_empty_Some in Hx.
Qed.

Lemma staked_commit_inv s voter secret vote blinding sg s' :
  staked_commit s voter secret vote blinding sg = Ok s' →
  let nf := nullifier_derive secret (proposal_id (ballot s)) in
  let sv := mkSealedVote (commitment_compute vote blinding nf) nf (power_of s voter) sg voter in
  sealed (ballot s) !! nf = None ∧
  s' = s <| ballot := (ballot s) <| sealed := <[nf := sv]> (sealed (ballot s)) |> |> <| voted := <[nf := voter]> (voted s) |>.
Proof.
  unfold staked_commit. destruct (Z.eqb_spec (power_of s voter) 0) as [|Hp]; [done|]. unfold ballot_commit.
  case_bool_decide; [|done]. cbn [negb sv_power sv_nullifier]. rewrite (proj2 (Z.eqb_neq _ 0)) by done.
  case_bool_decide as Hs; [done|]. intros [= <-]. split; [by apply eq_None_not_Some|done].
Qed.

Lemma ballot_reveal_inv b rv b' :
  ballot_reveal b rv = Ok b' →
  ∃ sv, sealed b !! rv_nullifier rv = Some sv ∧
        sv_commitment sv = commitment_compute (rv_vote rv) (rv_blinding rv) (rv_nullifier rv) ∧
        b' = b <| revealed := <[rv_nullifier rv := rv]> (revealed b) |>.
Proof.
  unfold ballot_reveal. case_bool_decide; [|done]. cbn [negb]. destruct (sealed b !! rv_nullifier rv) as [sv|]; [|done].
  unfold commitment_verify. destruct (Z.eqb_spec (commitment_compute (rv_vote rv) (rv_blinding rv) (rv_nullifier rv)) (sv_commitment sv)) as [E|];
    [|done]. intros [= <-]. by exists sv.
Qed.

Lemma ballot_step_ok x y : ballot_step x y → traced_ok x → traced_ok y.
Proof.
  intros Hst Hx. destruct Hst as [s s' log voter secret vote blinding sg E | s log | s s' log rv E | s log].
  - apply staked_commit_inv in E as [Hn ->]. set (nf := nullifier_derive secret (proposal_id (ballot s))) in *.
    split; cbn.
    + intros k sv [[<- <-]|[Hk Hsv]]%lookup_insert_Some; cbn.
      * rewrite !lookup_insert_eq. split; [done|]. split; [done|]. split; [done|]. by exists vote, blinding.
      * rewrite !lookup_insert_ne by done. by apply (tk_sealed _ Hx).
    + rewrite fmap_insert. f_equal. apply (tk_voted _ Hx).
    + intros k rv Hk. destruct (tk_revealed _ Hx k rv Hk) as (E & sv & Hsv & Hc). split; [done|]. exists sv.
      split; [|done]. cbn in Hsv. rewrite lookup_insert_ne; [done|]. intros <-. congruence.
  - unfold start_reveal. case_bool_decide; [|by destruct s]. destruct Hx as [H1 H2 H3]. by split.
  - unfold staked_reveal in E. destruct (ballot_reveal (ballot s) rv) as [b|] eqn:Eb; [|done]. injection E as <-.
    apply ballot_reveal_inv in Eb as (sv & Hsv & Hc & ->). split; cbn.
    + apply (tk_sealed _ Hx).
    + apply (tk_voted _ Hx).
    + intros k rv' [[<- <-]|[Hk Hrv]]%lookup_insert_Some; [split; [done|]; by exists sv|]. by apply (tk_revealed _ Hx).
  - destruct Hx as [H1 H2 H3]. by split.
Qed.

(** Nothing but the ballot moves. *)
Lemma ballot_step_stakes x y :
  ballot_step x y → validator_stakes y.1 = validator_stakes x.1 ∧ nominator_stakes y.1 = nominator_stakes x.1.
Proof.
  intros [s s' log voter secret vote blinding sg E | s log | s s' log rv E | s log]; cbn; try done.
  - by apply staked_commit_inv in E as [_ ->].
  - unfold staked_reveal in E. destruct (ballot_reveal (ballot s) rv); [|done]. by injection E as <-.
Qed.

Lemma ballot_steps_stakes x y :
  rtc ballot_step x y → validator_stakes y.1 = validator_stakes x.1 ∧ nominator_stakes y.1 = nominator_stakes x.1.
Proof.
  induction 1 as [|x y z Hxy _ [E1 E2]]; [done|]. destruct (ballot_step_stakes x y Hxy) as [<- <-]. done.
Qed.

Lemma ballot_reach s x : opened s → rtc ballot_step (s, ∅) x → traced_ok x.
Proof. intros Ho%opened_ok Hx. induction Hx; [done|]. eauto using ballot_step_ok. Qed.

(** The weighted votes of the revealed, each with a power of [w]. *)
Definition revealed_votes (w : Z → SealedVote → Z) (b : Ballot) : list (Vote.Vote * Z) :=
  omap (fun nr => (fun sv => (rv_vote nr.2, w nr.1 sv)) <$> sealed b !! nr.1) (entries (revealed b)).

Lemma finalize_votes b : tally (ballot_finalize b) = add_all tally_default (revealed_votes (fun _ => sv_power) b).
Proof.
  cbn. unfold revealed_votes. generalize tally_default. induction (entries (revealed b)) as [|[nf rv] l IH]; intros t; [done|].
  cbn [foldl fst snd]. change (omap ?f (?x :: ?l)) with (match f x with Some y => y :: omap f l | None => omap f l end).
  cbn [fst snd]. destruct (sealed b !! nf); cbn; apply IH.
Qed.

Lemma staked_finalize_votes s :
  tally (ballot (staked_finalize s)) =
    add_all tally_default (filter (fun x => 0 < x.2) (revealed_votes (effective_power s) (ballot s))).
Proof.
  unfold staked_finalize. cbn. unfold revealed_votes. generalize tally_default.
  induction (entries (revealed (ballot s))) as [|[nf rv] l IH]; intros t; [done|].
  cbn [foldl fst snd]. change (omap ?f (?x :: ?l)) with (match f x with Some y => y :: omap f l | None => omap f l end).
  cbn [fst snd]. destruct (sealed (ballot s) !! nf) as [sv|]; cbn [fmap option_fmap option_map]; [|apply IH].
  rewrite filter_cons. cbn [snd]. change (effective_power _ nf sv) with (effective_power s nf sv).
  destruct (Z.ltb_spec 0 (effective_power s nf sv)); case_decide; try lia; cbn [add_all foldl]; apply IH.
Qed.
End ballots.

(** * The votes that count *)

Section claims.
Context `{Sha256}.

(** The power with which the vote under a nullifier counts in the end. *)
Definition counted (s : StakedBallot) (nf : Z) : Z :=
  match sealed (ballot s) !! nf with Some sv => effective_power s nf sv | None => 0 end.

Lemma effective_nonneg s nf sv : 0 ≤ sv_power sv → 0 ≤ effective_power s nf sv.
Proof. intros Hp. unfold effective_power. repeat case_match; unfold sat_sub; lia. Qed.

(** Stakes are unsigned numbers. *)
Record stakes_nonneg (s : StakedBallot) : Prop := {
  sn_val : ∀ v x, validator_stakes s !! v = Some x → 0 ≤ x;
  sn_nom : ∀ pk x v, nominator_stakes s !! pk = Some (x, v) → 0 ≤ x;
}.

(** The stakes of an election in which no validator nominates. *)
Record stakes_ok (s : StakedBallot) : Prop := {
  st_val : ∀ v x, validator_stakes s !! v = Some x → 0 ≤ x;
  st_nom : ∀ pk x v, nominator_stakes s !! pk = Some (x, v) →
             0 ≤ x ∧ is_Some (validator_stakes s !! v) ∧ validator_stakes s !! pk = None;
  st_fits : msum (fun _ x => x) (validator_stakes s) < 2 ^ 64;
}.

Lemma stakes_ok_nonneg s : stakes_ok s → stakes_nonneg s.
Proof. intros [H1 H2 _]. split; [done|]. intros pk x v Hn. by destruct (H2 pk x v Hn). Qed.

Lemma power_nonneg s pk : stakes_nonneg s → 0 ≤ power_of s pk.
Proof.
  intros Hs. unfold power_of. destruct (validator_stakes s !! pk) eqn:E; [by apply (sn_val _ Hs pk)|].
  destruct (nominator_stakes s !! pk) as [[x v]|] eqn:En; [by apply (sn_nom _ Hs pk x v)|done].
Qed.

(** The stake of nominator [pk] with validator [v], and with whichever it is. *)
Definition staked_with (s : StakedBallot) (v pk : Z) : Z :=
  match nominator_stakes s !! pk with Some (x, w) => if bool_decide (w = v) then x else 0 | None => 0 end.
Definition nominated (s : StakedBallot) (pk : Z) : Z :=
  match nominator_stakes s !! pk with Some (x, _) => x | None => 0 end.

Lemma staked_with_bounds s v pk : stakes_nonneg s → 0 ≤ staked_with s v pk ≤ nominated s pk.
Proof.
  intros Hs. unfold staked_with, nominated. destruct (nominator_stakes s !! pk) as [[x w]|] eqn:E; [|done].
  pose proof (sn_nom _ Hs pk x w E). case_bool_decide; lia.
Qed.

(** What the nominators who committed take from validator [v], once for each commitment. *)
Definition taken (s : StakedBallot) (v : Z) : Z := zsum (map (staked_with s v) (values (voted s))).

Lemma overrides_sum s v : stakes_nonneg s → taken s v < 2 ^ 64 → default 0 (validator_overrides s !! v) = taken s v.
Proof.
  intros Hs Ht. unfold validator_overrides.
  assert (∀ l (m : gmap Z Z), 0 ≤ default 0 (m !! v) → default 0 (m !! v) + zsum (map (staked_with s v) l) < 2 ^ 64 →
    default 0 (foldl (fun m pk => match nominator_stakes s !! pk with
                                  | Some (stake, v) => <[v := wadd 64 (default 0 (m !! v)) stake]> m
                                  | None => m end) m l !! v)
    = default 0 (m !! v) + zsum (map (staked_with s v) l)) as Hg.
  { induction l as [|pk l IH]; intros m H0 Hf; cbn [foldl map zsum] in *; [lia|].
    assert (0 ≤ zsum (map (staked_with s v) l)) as Hl.
    { apply zsum_nonneg, Forall_forall. intros y (q & -> & _)%list_elem_of_fmap. by apply staked_with_bounds. }
    destruct (staked_with_bounds s v pk Hs) as [Hp _].
    assert (staked_with s v pk = match nominator_stakes s !! pk with
                                 | Some (x, w) => if bool_decide (w = v) then x else 0 | None => 0 end) as Es by done.
    rewrite Es in Hf, Hp |- *. destruct (nominator_stakes s !! pk) as [[y w]|] eqn:E; [|rewrite IH; lia].
    case_bool_decide as Hw; [subst w|].
    - rewrite IH; rewrite lookup_insert_eq; cbn; rewrite wadd_small by lia; lia.
    - rewrite IH; rewrite lookup_insert_ne by done; lia. }
  rewrite Hg; [done|done|]. rewrite lookup_empty. cbn. unfold taken in Ht. lia.
Qed.

Lemma counted_nonneg s log nf : stakes_nonneg s → traced_ok (s, log) → 0 ≤ counted s nf.
Proof.
  intros Hs Ht. unfold counted. destruct (sealed (ballot s) !! nf) as [sv|] eqn:E; [|done].
  apply effective_nonneg. destruct (tk_sealed _ Ht nf sv E) as (_ & _ & -> & _). by apply power_nonneg.
Qed.

(** What the revealed votes weigh, by vote. *)
Lemma revealed_weight s log v :
  traced_ok (s, log) →
  weight_for v (revealed_votes (effective_power s) (ballot s)) =
    msum (fun nf rv => if bool_decide (rv_vote rv = v) then counted s nf else 0) (revealed (ballot s)).
Proof.
  intros Ht. unfold weight_for, revealed_votes, msum.
  assert (∀ nr, nr ∈ entries (revealed (ballot s)) → is_Some (sealed (ballot s) !! nr.1)) as Hin.
  { intros [nf rv] Hx%elem_of_entries. destruct (tk_revealed _ Ht nf rv Hx) as (_ & sv & Hsv & _). by exists sv. }
  induction (entries (revealed (ballot s))) as [|[nf rv] l IH]; [done|].
  rewrite zsum_omap_cons, IH by (intros nr Hnr; apply Hin; by right).
  destruct (Hin (nf, rv) ltac:(left)) as [sv Hsv]. cbn [fst snd map zsum] in *. unfold counted at 2. by rewrite Hsv.
Qed.

Lemma revealed_total s log :
  traced_ok (s, log) →
  zsum (map snd (revealed_votes (effective_power s) (ballot s))) = msum (fun nf _ => counted s nf) (revealed (ballot s)).
Proof.
  intros Ht. rewrite <-weight_split, !(revealed_weight s log _ Ht). unfold msum. rewrite <-!zsum_map_add.
  apply zsum_map_ext. intros [nf [[] bl n]] _; cbn [fst snd rv_vote]; repeat case_bool_decide; (done || lia).
Qed.

Lemma revealed_nonneg s log :
  stakes_nonneg s → traced_ok (s, log) → Forall (fun x => 0 ≤ x.2) (revealed_votes (effective_power s) (ballot s)).
Proof.
  intros Hs Ht. apply Forall_forall. intros [v p] ([nf rv] & _ & E)%list_elem_of_omap. cbn in *.
  destruct (sealed (ballot s) !! nf) as [sv|] eqn:Esv; [|done]. injection E as _ <-. apply effective_nonneg.
  destruct (tk_sealed _ Ht nf sv Esv) as (_ & _ & -> & _). by apply power_nonneg.
Qed.

(** Votes without power make no difference. *)
Lemma weight_positive v l : Forall (fun x => 0 ≤ x.2) l → weight_for v (filter (fun x => 0 < x.2) l) = weight_for v l.
Proof.
  unfold weight_for. induction l as [|[w p] l IH]; [done|]. intros [Hp Hl]%Forall_cons. cbn [snd] in Hp.
  rewrite filter_cons. cbn [snd]. case_decide; cbn [map zsum fst snd]; rewrite IH by done; [done|].
  case_bool_decide; lia.
Qed.

Lemma staked_tally s log :
  stakes_nonneg s → traced_ok (s, log) → msum (fun nf _ => counted s nf) (revealed (ballot s)) < 2 ^ 64 →
  (∀ v, vote_power v (tally (ballot (staked_finalize s))) =
    msum (fun nf rv => if bool_decide (rv_vote rv = v) then counted s nf else 0) (revealed (ballot s))) ∧
  tally_total (tally (ballot (staked_finalize s))) = msum (fun nf _ => counted s nf) (revealed (ballot s)).
Proof.
  intros Hs Ht Hf. rewrite staked_finalize_votes. pose proof (revealed_nonneg s log Hs Ht) as Hn.
  set (l := revealed_votes (effective_power s) (ballot s)) in *.
  assert (zsum (map snd (filter (fun x => 0 < x.2) l)) = zsum (map snd l)) as E.
  { by rewrite <-!weight_split, !weight_positive. }
  assert (Forall (fun x => 0 ≤ x.2) (filter (fun x => 0 < x.2) l)) as Hn' by (by apply Forall_sub).
  assert (zsum (map snd l) < 2 ^ 64) as Hf' by (subst l; by rewrite (revealed_total s log Ht)).
  split.
  - intros v. rewrite add_all_exact; [|done|done..|cbn; lia]. rewrite weight_positive by done.
    subst l. rewrite (revealed_weight s log v Ht). by destruct v.
  - rewrite tally_total_exact by (done || lia). rewrite E. by apply (revealed_total s log).
Qed.

Lemma commitment_binds `{!Inj (=) (=) sha256} v v' b b' nf :
  commitment_compute v b nf = commitment_compute v' b' nf → v = v'.
Proof.
  unfold commitment_compute. intros E%(inj sha256)%app_inv_head. cbn [app] in E. injection E as E _.
  apply (f_equal b2z) in E. rewrite !b2z_z2b in E. by destruct v, v'.
Qed.

Lemma overrides_nonneg s v : 0 ≤ default 0 (validator_overrides s !! v).
Proof.
  unfold validator_overrides. assert (∀ l (m : gmap Z Z), (∀ k, 0 ≤ default 0 (m !! k)) → ∀ k, 0 ≤ default 0
    (foldl (fun m pk => match nominator_stakes s !! pk with
                        | Some (stake, v) => <[v := wadd 64 (default 0 (m !! v)) stake]> m
                        | None => m end) m l !! k)) as Hg; [|apply Hg; intros k; by rewrite lookup_empty].
  induction l as [|pk l IH]; intros m Hm; cbn [foldl]; [done|]. apply IH. intros k.
  destruct (nominator_stakes s !! pk) as [[x w]|]; [|done]. destruct (decide (w = k)) as [->|Hne].
  - rewrite lookup_insert_eq. unfold wadd, wrap. cbn. by apply Z.mod_pos_bound.
  - by rewrite lookup_insert_ne.
Qed.

(** ** The specification *)

(** What the commitments of [log] take from validator [v]: the stake each of their voters has
    nominated [v] with. *)
Definition overridden (s : StakedBallot) (log : gmap Z (Z * Vote.Vote)) (v : Z) : Z :=
  msum (fun _ c => staked_with s v c.1) log.

(** What a vote of [pk] weighs, given the commitments. *)
Definition weight_of (s : StakedBallot) (log : gmap Z (Z * Vote.Vote)) (pk : Z) : Z :=
  match validator_stakes s !! pk with
  | Some x => Z.max 0 (x - overridden s log pk)
  | None => nominated s pk
  end.

Lemma taken_overridden s log v : voted s = fst <$> log → taken s v = overridden s log v.
Proof.
  intros E. unfold taken, overridden, values. rewrite E, msum_alt, map_map.
  rewrite (zsum_perm _ _ (Permutation_map _ (entries_perm (fst <$> log)))), map_to_list_fmap, map_map. done.
Qed.

Lemma power_of_weight s pk :
  power_of s pk = match validator_stakes s !! pk with Some x => x | None => nominated s pk end.
Proof. unfold power_of, nominated. by destruct (validator_stakes s !! pk), (nominator_stakes s !! pk) as [[]|]. Qed.

(** All commitments together weigh less than [2^64], and so does what they take. *)
Definition committed_fits (s : StakedBallot) (log : gmap Z (Z * Vote.Vote)) : Prop :=
  msum (fun _ c => power_of s c.1 + nominated s c.1) log < 2 ^ 64.

Lemma nominated_nonneg s pk : stakes_nonneg s → 0 ≤ nominated s pk.
Proof. intros Hs. destruct (staked_with_bounds s 0 pk Hs). lia. Qed.

Lemma overridden_fits s log v : stakes_nonneg s → committed_fits s log → overridden s log v < 2 ^ 64.
Proof.
  intros Hs Hc. eapply Z.le_lt_trans; [|exact Hc]. apply msum_le. intros nf [pk w] _. cbn.
  destruct (staked_with_bounds s v pk Hs). pose proof (power_nonneg s pk Hs). lia.
Qed.

Lemma counted_weight s log nf pk vote :
  stakes_nonneg s → traced_ok (s, log) → committed_fits s log →
  is_Some (revealed (ballot s) !! nf) → log !! nf = Some (pk, vote) → counted s nf = weight_of s log pk.
Proof.
  intros Hs Ht Hc [rv Hrv] Hl. destruct (tk_revealed _ Ht nf rv Hrv) as (_ & sv & Hsv & _).
  destruct (tk_sealed _ Ht nf sv Hsv) as (_ & Hv & Hp & v' & bl & Hl' & _). cbn in Hsv, Hv, Hp, Hl'.
  rewrite Hl in Hl'. injection Hl' as -> _. unfold counted, effective_power, weight_of.
  rewrite Hsv, Hv, Hp, power_of_weight. destruct (validator_stakes s !! sv_signer sv) as [x|] eqn:Ev.
  - rewrite bool_decide_eq_true_2 by (by eexists). pose proof (tk_voted _ Ht) as E. cbn in E.
    rewrite overrides_sum; [|done|]; rewrite (taken_overridden _ _ _ E); [done|by apply overridden_fits].
  - by rewrite bool_decide_eq_false_2 by (by intros []).
Qed.

Lemma counted_le s log nf pk vote :
  stakes_nonneg s → traced_ok (s, log) → log !! nf = Some (pk, vote) → counted s nf ≤ power_of s pk.
Proof.
  intros Hs Ht Hl. unfold counted. destruct (sealed (ballot s) !! nf) as [sv|] eqn:Hsv; [|by apply power_nonneg].
  destruct (tk_sealed _ Ht nf sv Hsv) as (_ & Hv & Hp & v' & bl & Hl' & _). cbn in Hv, Hp, Hl'.
  rewrite Hl in Hl'. injection Hl' as -> _. pose proof (power_nonneg s (sv_signer sv) Hs).
  unfold effective_power. rewrite Hv, Hp. destruct (bool_decide _) eqn:Eb; [|lia].
  apply bool_decide_eq_true in Eb as [x Ex]. unfold sat_sub.
  enough (0 ≤ default 0 (validator_overrides s !! sv_signer sv)) by lia. by apply overrides_nonneg.
Qed.

Lemma counted_fits s log :
  stakes_nonneg s → traced_ok (s, log) → committed_fits s log →
  msum (fun nf _ => counted s nf) (revealed (ballot s)) < 2 ^ 64.
Proof.
  intros Hs Ht Hc. eapply Z.le_lt_trans; [|exact Hc].
  set (g := fun nf => match log !! nf with Some c => power_of s c.1 + nominated s c.1 | None => 0 end).
  assert (∀ nf, 0 ≤ g nf) as Hg.
  { intros nf. unfold g. destruct (log !! nf) as [[pk w]|]; [|done]. cbn.
    pose proof (power_nonneg s pk Hs). pose proof (nominated_nonneg s pk Hs). lia. }
  assert (∀ nf, is_Some (revealed (ballot s) !! nf) → is_Some (log !! nf)) as Hin.
  { intros nf [rv Hrv]. destruct (tk_revealed _ Ht nf rv Hrv) as (_ & sv & Hsv & _).
    destruct (tk_sealed _ Ht nf sv Hsv) as (_ & _ & _ & v & bl & Hl & _). by eexists. }
  transitivity (msum (fun nf _ => g nf) (revealed (ballot s))).
  - apply msum_le. intros nf rv Hrv. destruct (Hin nf) as [[pk w] Hl]; [by eexists|].
    unfold g. rewrite Hl. pose proof (counted_le s log nf pk w Hs Ht Hl). pose proof (nominated_nonneg s pk Hs). cbn. lia.
  - rewrite (msum_keys _ g) by done. rewrite (msum_keys _ g log); [|intros nf c Hl; unfold g; by rewrite Hl].
    apply zsum_subset; [apply keys_NoDup| |intros nf _; apply Hg].
    intros nf. rewrite !elem_of_keys. apply Hin.
Qed.

(** C22.  In whatever order votes are committed and revealed, with SHA-256 free of collisions a vote
    that was revealed is the one that was committed under its nullifier, and finalizing counts every
    revealed vote once for what was committed there: a nominator's with their stake, a validator's with
    theirs less, for each commitment of one of their nominators, that nominator's stake, and nothing if that is more.  Each
    commitment stands for itself: the stake of a nominator who commits under two secrets is taken
    twice, and counted for each of the two that is revealed.  The stakes of all commitments, and what
    they take, are together less than [2^64]. *)
Theorem votes_counted_as_committed `{!Inj (=) (=) sha256} s0 s log :
  opened s0 → stakes_nonneg s0 → rtc ballot_step (s0, ∅) (s, log) → committed_fits s0 log →
  (∀ nf rv, revealed (ballot s) !! nf = Some rv → ∃ pk, log !! nf = Some (pk, rv_vote rv)) ∧
  ∀ v, vote_power v (tally (ballot (staked_finalize s))) =
       msum (fun nf _ => match log !! nf with
                         | Some (pk, vote) => if bool_decide (vote = v) then weight_of s0 log pk else 0
                         | None => 0
                         end) (revealed (ballot s)).
Proof.
  intros Ho Hs0 Hr Hc0. pose proof (ballot_reach s0 (s, log) Ho Hr) as Ht.
  destruct (ballot_steps_stakes _ _ Hr) as [Ev En]. cbn in Ev, En.
  assert (stakes_nonneg s) as Hs by (destruct Hs0; split; by rewrite ?Ev, ?En).
  assert (committed_fits s log) as Hc by (revert Hc0; unfold committed_fits, power_of, nominated; by rewrite Ev, En).
  assert (∀ pk, weight_of s0 log pk = weight_of s log pk) as Ew
    by (intros pk; unfold weight_of, overridden, staked_with, nominated; by rewrite Ev, En).
  assert (∀ nf rv, revealed (ballot s) !! nf = Some rv → ∃ pk, log !! nf = Some (pk, rv_vote rv)) as Hlog.
  { intros nf rv Hrv. destruct (tk_revealed _ Ht nf rv Hrv) as (_ & sv & Hsv & E).
    destruct (tk_sealed _ Ht nf sv Hsv) as (_ & _ & _ & vote & bl & Hl & E'). cbn in Hl. rewrite E in E'.
    exists (sv_signer sv). by rewrite Hl, (commitment_binds _ _ _ _ _ E'). }
  split; [done|]. intros v. destruct (staked_tally s log Hs Ht) as [-> _]; [by apply (counted_fits s log)|].
  apply msum_ext. intros nf rv Hrv. destruct (Hlog nf rv Hrv) as [pk Hl].
  rewrite Hl, Ew, <-(counted_weight s log nf pk (rv_vote rv)); [done|done..|by eexists|done].
Qed.
End claims.

(** * One voice per stake *)

Section voices.
Context `{Sha256}.
Context (s : StakedBallot) (log : gmap Z (Z * Vote.Vote)).
Hypothesis s_stakes : stakes_ok s.
Hypothesis s_ok : traced_ok (s, log).

Local Abbreviation staked_with := (staked_with s).
Local Abbreviation taken := (taken s).
Local Abbreviation nominated := (nominated s).

(** No validator is backed with more than their stake. *)
Hypothesis backed : ∀ v x, validator_stakes s !! v = Some x → zsum (map (staked_with v) (keys (nominator_stakes s))) ≤ x.

(** Every voter uses one nullifier. *)
Hypothesis single : ∀ nf nf' pk, voted s !! nf = Some pk → voted s !! nf' = Some pk → nf = nf'.

Lemma staked_with_nonneg v pk : 0 ≤ staked_with v pk.
Proof. by apply staked_with_bounds, stakes_ok_nonneg. Qed.

Definition voter (nf : Z) : Z := default 0 (voted s !! nf).

Lemma voters_NoDup l : NoDup l → (∀ nf, nf ∈ l → is_Some (voted s !! nf)) → NoDup (map voter l).
Proof.
  intros Hl Hin. induction l as [|nf l IH]; [constructor|]. apply NoDup_cons in Hl as [Hn Hl]. cbn [map].
  apply NoDup_cons. split; [|apply IH; [done|intros; apply Hin; by right]].
  intros (nf' & E & Hn')%list_elem_of_fmap. destruct (Hin nf ltac:(left)) as [pk E1].
  destruct (Hin nf' ltac:(by right)) as [pk' E2]. unfold voter in E. rewrite E1, E2 in E. cbn in E. subst pk'.
  by rewrite (single nf nf' pk E1 E2) in Hn.
Qed.

Lemma values_voters : values (voted s) = map voter (keys (voted s)).
Proof.
  unfold values, keys. rewrite <-list_fmap_compose. apply map_ext_in. intros [nf pk] Hx%list_elem_of_In%elem_of_entries.
  cbn. unfold voter. by rewrite Hx.
Qed.

Lemma voted_NoDup : NoDup (values (voted s)).
Proof. rewrite values_voters. apply voters_NoDup; [apply keys_NoDup|]. intros nf. by rewrite elem_of_keys. Qed.

Lemma taken_within v x : validator_stakes s !! v = Some x → 0 ≤ taken v ≤ x.
Proof.
  intros Hv. split.
  - apply zsum_nonneg, Forall_forall. intros y (pk & -> & _)%list_elem_of_fmap. apply staked_with_nonneg.
  - etransitivity; [|by apply backed]. apply zsum_support; [apply voted_NoDup| |intros; apply staked_with_nonneg].
    intros pk _ Hpk. unfold staked_with. destruct (nominator_stakes s !! pk) as [[y w]|] eqn:E; [|done].
    exfalso. apply Hpk, elem_of_keys. by eexists.
Qed.

Lemma stake_fits v x : validator_stakes s !! v = Some x → x < 2 ^ 64.
Proof.
  intros Hv. eapply Z.le_lt_trans; [|apply (st_fits _ s_stakes)].
  apply (msum_lookup_le (fun _ x => x) _ v x); [|done]. intros k y Hk. by apply (st_val _ s_stakes k).
Qed.

Lemma overrides_taken v x : validator_stakes s !! v = Some x → default 0 (validator_overrides s !! v) = taken v.
Proof.
  intros Hv. apply overrides_sum; [by apply stakes_ok_nonneg|].
  pose proof (taken_within v x Hv). pose proof (stake_fits v x Hv). lia.
Qed.

(** The parts of the nominators who voted, by validator. *)
Lemma nominators_by_validator pk :
  zsum (map (fun v => staked_with v pk) (keys (validator_stakes s))) =
  match nominator_stakes s !! pk with Some (x, _) => x | None => 0 end.
Proof.
  unfold staked_with. destruct (nominator_stakes s !! pk) as [[x w]|] eqn:E.
  - rewrite zsum_hit by apply keys_NoDup. rewrite bool_decide_eq_true_2; [done|].
    apply elem_of_keys. by destruct (st_nom _ s_stakes pk x w E) as (_ & ? & _).
  - by apply zsum_map_zero.
Qed.

(** A voter's power, split into a validator's own rest and a nominator's part. *)
Definition own_rest (pk : Z) : Z :=
  match validator_stakes s !! pk with Some x => x - taken pk | None => 0 end.

Lemma counted_split nf : is_Some (revealed (ballot s) !! nf) → counted s nf = own_rest (voter nf) + nominated (voter nf).
Proof.
  intros [rv Hrv]. destruct (tk_revealed _ s_ok nf rv Hrv) as (_ & sv & Hsv & _).
  destruct (tk_sealed _ s_ok nf sv Hsv) as (_ & Hv & Hp & _). cbn in Hsv, Hv, Hp.
  unfold counted, effective_power, voter, own_rest, nominated. rewrite Hsv, Hv, Hp. cbn. unfold power_of.
  destruct (validator_stakes s !! sv_signer sv) as [x|] eqn:Ev.
  - rewrite bool_decide_eq_true_2 by (by eexists). rewrite (overrides_taken _ x Ev).
    pose proof (taken_within _ x Ev). destruct (nominator_stakes s !! sv_signer sv) as [[y w]|] eqn:En.
    + destruct (st_nom _ s_stakes _ y w En) as (_ & _ & ?). congruence.
    + unfold sat_sub. lia.
  - rewrite bool_decide_eq_false_2 by (by intros []). by destruct (nominator_stakes s !! sv_signer sv) as [[y w]|].
Qed.

Lemma revealed_within :
  msum (fun nf _ => counted s nf) (revealed (ballot s)) ≤ msum (fun _ x => x) (validator_stakes s).
Proof.
  rewrite (msum_keys _ (fun nf => own_rest (voter nf) + nominated (voter nf))) by (intros nf rv Hrv; apply counted_split; by exists rv).
  set (R := keys (revealed (ballot s))). rewrite zsum_map_add.
  assert (∀ f : Z → Z, map (fun nf => f (voter nf)) R = map f (map voter R)) as Em by (intros f; by rewrite map_map).
  rewrite !Em. set (L := map voter R).
  assert (∀ nf, nf ∈ R → is_Some (voted s !! nf)) as HR.
  { intros nf [rv Hrv]%elem_of_keys. destruct (tk_revealed _ s_ok nf rv Hrv) as (_ & sv & Hsv & _).
    destruct (tk_sealed _ s_ok nf sv Hsv) as (_ & Hv & _). by eexists. }
  assert (NoDup L) as HL by (apply voters_NoDup; [apply keys_NoDup|done]).
  assert (zsum (map own_rest L) ≤ zsum (map own_rest (keys (validator_stakes s)))) as H1.
  { apply zsum_support; [done| |].
    - intros pk _ Hpk. unfold own_rest. destruct (validator_stakes s !! pk) eqn:E; [|done].
      exfalso. apply Hpk, elem_of_keys. by eexists.
    - intros pk _. unfold own_rest. destruct (validator_stakes s !! pk) as [x|] eqn:E; [|done].
      pose proof (taken_within pk x E). lia. }
  assert (zsum (map nominated L) ≤ zsum (map nominated (values (voted s)))) as H2.
  { apply zsum_subset; [done| |].
    - intros pk (nf & -> & Hnf)%list_elem_of_fmap. rewrite values_voters. apply list_elem_of_fmap. exists nf.
      split; [done|]. apply elem_of_keys. by apply HR.
    - intros pk _. unfold nominated. destruct (nominator_stakes s !! pk) as [[x w]|] eqn:E; [|done].
      by destruct (st_nom _ s_stakes pk x w E). }
  assert (zsum (map nominated (values (voted s))) = zsum (map taken (keys (validator_stakes s)))) as H3.
  { unfold taken. rewrite zsum_swap. apply zsum_map_ext. intros pk _. by rewrite nominators_by_validator. }
  rewrite (msum_keys _ (fun v => own_rest v + taken v)); [rewrite zsum_map_add; lia|].
  intros v x Hv. unfold own_rest. rewrite Hv. lia.
Qed.
End voices.

Section more_claims.
Context `{Sha256}.

(** When the nominators are no validators and no validator is backed with more than
    their stake, and every voter kept to one nullifier, the finalized tally of a staked
    ballot counts no more power than the validators have in all: a nominator's own vote
    only replaces what their validator would have cast for them. *)
Lemma one_voice_per_stake s0 s log :
  opened s0 → rtc ballot_step (s0, ∅) (s, log) → stakes_ok s →
  (∀ v x, validator_stakes s !! v = Some x → zsum (map (staked_with s v) (keys (nominator_stakes s))) ≤ x) →
  (∀ nf nf' pk, voted s !! nf = Some pk → voted s !! nf' = Some pk → nf = nf') →
  tally_total (tally (ballot (staked_finalize s))) ≤ msum (fun _ x => x) (validator_stakes s).
Proof.
  intros Ho Hr Hs Hb Hv. pose proof (ballot_reach s0 (s, log) Ho Hr) as Ht.
  pose proof (revealed_within s log Hs Ht Hb Hv) as Hle. pose proof (st_fits _ Hs).
  destruct (staked_tally s log (stakes_ok_nonneg _ Hs) Ht) as [_ ->]; [lia|done].
Qed.

Lemma commit_new s pk secret vote bl sg :
  phase (ballot s) = BallotPhase.Commit → 0 < power_of s pk →
  let nf := nullifier_derive secret (proposal_id (ballot s)) in
  sealed (ballot s) !! nf = None →
  staked_commit s pk secret vote bl sg =
    Ok (s <| ballot := (ballot s) <| sealed :=
              <[nf := mkSealedVote (commitment_compute vote bl nf) nf (power_of s pk) sg pk]> (sealed (ballot s)) |> |>
          <| voted := <[nf := pk]> (voted s) |>).
Proof.
  intros Hp Hw nf Hn. unfold staked_commit. rewrite (proj2 (Z.eqb_neq _ 0)) by lia. unfold ballot_commit.
  rewrite Hp, bool_decide_eq_true_2 by done. cbn [negb sv_power sv_nullifier]. rewrite (proj2 (Z.eqb_neq _ 0)) by lia.
  fold nf. by rewrite Hn, bool_decide_eq_false_2 by (by intros []).
Qed.

Lemma reveal_new s nf sv vote bl :
  phase (ballot s) = BallotPhase.Reveal → sealed (ballot s) !! nf = Some sv →
  sv_commitment sv = commitment_compute vote bl nf →
  staked_reveal s (mkRevealedVote vote bl nf) =
    Ok (s <| ballot := (ballot s) <| revealed := <[nf := mkRevealedVote vote bl nf]> (revealed (ballot s)) |> |>).
Proof.
  intros Hp Hs Hc. unfold staked_reveal, ballot_reveal. rewrite Hp, bool_decide_eq_true_2 by done. cbn [negb rv_nullifier].
  rewrite Hs. unfold commitment_verify. cbn [rv_vote rv_blinding]. by rewrite Hc, Z.eqb_refl.
Qed.

(** Two votes committed and revealed, under different nullifiers. *)
Definition two_revealed (s0 : StakedBallot) (pk : Z) (v : Vote.Vote) (secret : bytes)
    (pk' : Z) (v' : Vote.Vote) (secret' bl : bytes) : traced :=
  let nf := nullifier_derive secret (proposal_id (ballot s0)) in
  let nf' := nullifier_derive secret' (proposal_id (ballot s0)) in
  let sv := mkSealedVote (commitment_compute v bl nf) nf (power_of s0 pk) [] pk in
  let sv' := mkSealedVote (commitment_compute v' bl nf') nf' (power_of s0 pk') [] pk' in
  (mkStakedBallot
     (mkBallot (proposal_id (ballot s0)) BallotPhase.Reveal (<[nf' := sv']> (<[nf := sv]> ∅))
        (<[nf' := mkRevealedVote v' bl nf']> (<[nf := mkRevealedVote v bl nf]> ∅))
        (tally (ballot s0)) (commit_deadline (ballot s0)) (reveal_deadline (ballot s0)))
     (validator_stakes s0) (nominator_stakes s0) (<[nf' := pk']> (<[nf := pk]> ∅)) (total_power s0),
   <[nf' := (pk', v')]> (<[nf := (pk, v)]> ∅)).

Lemma two_revealed_reached s0 pk v secret pk' v' secret' bl :
  opened s0 → phase (ballot s0) = BallotPhase.Commit → 0 < power_of s0 pk → 0 < power_of s0 pk' →
  nullifier_derive secret (proposal_id (ballot s0)) ≠ nullifier_derive secret' (proposal_id (ballot s0)) →
  rtc ballot_step (s0, ∅) (two_revealed s0 pk v secret pk' v' secret' bl).
Proof.
  destruct s0 as [[id ph se re ta d1 d2] vs ns vo tp]. intros (E1 & E2 & E3) Hp Hw Hw' Hne. cbn in E1, E2, E3, Hp, Hne.
  subst se re vo ph. unfold two_revealed. cbn [ballot proposal_id tally commit_deadline reveal_deadline validator_stakes nominator_stakes total_power] in *.
  set (nf := nullifier_derive secret id) in *. set (nf' := nullifier_derive secret' id) in *.
  eapply rtc_l; [eapply bs_commit, commit_new; [done|exact Hw|apply lookup_empty]|].
  eapply rtc_l; [eapply bs_commit, (commit_new _ pk' secret' v' bl []); [done|exact Hw'|exact (eq_trans (lookup_insert_ne _ nf nf' _ Hne) (lookup_empty _))]|].
  eapply rtc_l; [apply bs_start|].
  eapply rtc_l; [eapply bs_reveal, (reveal_new _ nf _ v bl); [done|exact (eq_trans (lookup_insert_ne _ nf' nf _ (not_eq_sym Hne)) (lookup_insert_eq _ _ _))|done]|].
  eapply rtc_l; [eapply bs_reveal, (reveal_new _ nf' _ v' bl); [done|exact (lookup_insert_eq _ nf' _)|done]|].
  apply rtc_refl.
Qed.

(** Nothing ties a voter to one nullifier: it is derived from a secret the voter
    brings along, and a voter who commits under two secrets casts their full power twice,
    in every ballot and with any power. *)
Lemma two_secrets_two_votes s0 pk w secret secret' (bl : bytes) :
  opened s0 → stakes_ok s0 → phase (ballot s0) = BallotPhase.Commit →
  validator_stakes s0 !! pk = None → power_of s0 pk = w → 0 < w → 2 * w < 2 ^ 64 →
  nullifier_derive secret (proposal_id (ballot s0)) ≠ nullifier_derive secret' (proposal_id (ballot s0)) →
  ∃ s log, rtc ballot_step (s0, ∅) (s, log) ∧ t_yes (tally (ballot (staked_finalize s))) = 2 * w.
Proof.
  intros Ho Hst Hp Hv Hw Hpos Hfit Hne.
  pose proof (two_revealed_reached s0 pk Vote.Yes secret pk Vote.Yes secret' bl Ho Hp ltac:(lia) ltac:(lia) Hne) as Hr.
  set (nf := nullifier_derive secret (proposal_id (ballot s0))) in *.
  set (nf' := nullifier_derive secret' (proposal_id (ballot s0))) in *.
  destruct (two_revealed s0 pk Vote.Yes secret pk Vote.Yes secret' bl) as [s log] eqn:Es.
  exists s, log. split; [done|]. pose proof (ballot_reach s0 (s, log) Ho Hr) as Ht.
  injection Es as Es _. fold nf nf' in Es. rewrite Hw in Es.
  assert (stakes_ok s) as Hs by (subst s; destruct Hst; by split).
  assert (counted s nf = w ∧ counted s nf' = w) as [K1 K2].
  { subst s. unfold counted, effective_power. cbn [ballot sealed voted validator_stakes].
    rewrite !(lookup_insert_ne _ nf' nf) by done. rewrite !lookup_insert_eq, Hv. by rewrite bool_decide_eq_false_2 by (by intros []). }
  assert (∀ f : Z → RevealedVote → Z, msum f (revealed (ballot s)) =
            f nf' (mkRevealedVote Vote.Yes bl nf') + f nf (mkRevealedVote Vote.Yes bl nf)) as Hm.
  { intros f. subst s. cbn [ballot revealed]. rewrite !msum_insert_new, msum_empty;
      rewrite ?lookup_insert_ne, ?lookup_empty by done; (done || lia). }
  destruct (staked_tally s log (stakes_ok_nonneg _ Hs) Ht) as [Hy _]; [rewrite Hm, K1, K2; lia|].
  specialize (Hy Vote.Yes). rewrite Hm in Hy. cbn [rv_vote vote_power] in Hy.
  rewrite K1, K2, !bool_decide_eq_true_2 in Hy by done. lia.
Qed.
End more_claims.

(** * Witnesses *)

(** A validator of a hundred, forty of them a nominator's. *)
Definition hundred : StakedBallot :=
  mkStakedBallot (ballot_new 7 100 200) {[1 := 100]} {[10 := (40, 1)]} ∅ 100.

Lemma hundred_ok : stakes_ok hundred.
Proof.
  split; [|intros pk x v Hn|vm_compute; done].
  - intros v x Hv. cbn in Hv. apply lookup_singleton_Some in Hv as [_ <-]. done.
  - cbn in Hn. apply lookup_singleton_Some in Hn as [<- [= <- <-]]. split; [done|]. split; [by eexists|done].
Qed.

Definition secret_a : bytes := to_be 32 1.
Definition secret_b : bytes := to_be 32 2.
Definition blinding : bytes := to_be 32 3.

(** The validator for and the nominator against, both revealed. *)
Definition divided : traced :=
  two_revealed (H := spelled) hundred 1 Vote.Yes secret_a 10 Vote.No secret_b blinding.

Lemma secrets_differ : nullifier_derive (H := spelled) secret_a 7 ≠ nullifier_derive (H := spelled) secret_b 7.
Proof. vm_compute. congruence. Qed.

Lemma divided_reached : rtc (ballot_step (H := spelled)) (hundred, ∅) (divided.1, divided.2).
Proof. apply two_revealed_reached; [by repeat split | done | done | done | exact secrets_differ]. Qed.

Lemma votes_counted_as_committed_witness :
  vote_power Vote.Yes (tally (ballot (staked_finalize divided.1))) = 60 ∧
  (∃ nf, divided.2 !! nf = Some (10, Vote.No)) ∧
  ∀ v, vote_power v (tally (ballot (staked_finalize divided.1))) =
    msum (fun nf _ => match divided.2 !! nf with
                      | Some (pk, vote) => if bool_decide (vote = v) then weight_of hundred divided.2 pk else 0
                      | None => 0
                      end) (revealed (ballot divided.1)).
Proof.
  split; [vm_compute; reflexivity|].
  split; [exists (nullifier_derive (H := spelled) secret_b 7); vm_compute; reflexivity|].
  refine (proj2 (@votes_counted_as_committed spelled spell_inj hundred divided.1 divided.2 _ _ divided_reached _)).
  - by repeat split.
  - apply stakes_ok_nonneg. destruct hundred_ok; by split.
  - vm_compute. reflexivity.
Defined.

Lemma one_voice_per_stake_witness : tally_total (tally (ballot (staked_finalize divided.1))) ≤ 100.
Proof.
  apply (one_voice_per_stake (H := spelled) hundred divided.1 divided.2).
  - by repeat split.
  - exact divided_reached.
  - destruct hundred_ok; by split.
  - intros v x Hv. cbn in Hv. apply lookup_singleton_Some in Hv as [<- <-]. vm_compute. congruence.
  - intros nf nf' pk E E'. cbn in E, E'.
    apply lookup_insert_Some in E as [[<- <-]|[_ [[<- <-]|[_ ?]]%lookup_insert_Some]]; [| |done];
      apply lookup_insert_Some in E' as [[<- ?]|[_ [[<- ?]|[_ ?]]%lookup_insert_Some]]; done.
Defined.

Lemma two_secrets_two_votes_witness :
  ∃ s log, rtc (ballot_step (H := spelled)) (hundred, ∅) (s, log) ∧ t_yes (tally (ballot (staked_finalize s))) = 80.
Proof.
  apply (two_secrets_two_votes (H := spelled) hundred 10 40 secret_a secret_b blinding);
    [by repeat split | exact hundred_ok | done | done | done | done | done | exact secrets_differ].
Defined.
