(* ===== verification/NarReplay.v ===== *)
(** Replay protection, [crates/narsil/src/replay.rs]: a message is taken once, in the order
    of its sender's sequence numbers and for the current state only. *)
From stdpp Require Import base list gmap.
From Stdlib Require Import ZArith Lia.
From S2P Require Import Prelude.

Local Open Scope Z_scope.

Module ReplayCheck.
Inductive ReplayCheck :=
| Valid
| StaleState (expected got : Z)
| DuplicateSequence (sender expected_min got : Z)
| FutureSequence (sender current_max got : Z)
| UnknownSender (pubkey : Z).
End ReplayCheck.

#[export] Instance ReplayCheck_eq_dec : EqDecision ReplayCheck.ReplayCheck.
Proof. solve_decision. Defined.

(** The part of an [Envelope] that is looked at. *)
Record Envelope := mkEnvelope { env_state_hash : Z; env_sequence : Z }.

Record ReplayValidator := mkReplayValidator {
  state_hash : Z;
  sequences : gmap Z Z;
  max_sequence_gap : Z;
}.
#[export] Instance ReplayValidator_eta : Eta ReplayValidator := fun v =>
  mkReplayValidator (state_hash v) (sequences v) (max_sequence_gap v).

Definition validator_new (hash : Z) : ReplayValidator := mkReplayValidator hash ∅ 1000.

(** The hash of the state is computed by the caller. *)
Definition validator_from_state (hash : Z) (members : list Z) : ReplayValidator :=
  mkReplayValidator hash (foldl (fun m pk => <[pk := 0]> m) ∅ members) 1000.

Definition with_max_gap (v : ReplayValidator) (gap : Z) : ReplayValidator := v <| max_sequence_gap := gap |>.

Definition update_state (v : ReplayValidator) (hash : Z) : ReplayValidator := v <| state_hash := hash |>.

Definition add_sender (v : ReplayValidator) (pubkey : Z) : ReplayValidator :=
  v <| sequences := <[pubkey := default 0 (sequences v !! pubkey)]> (sequences v) |>.

Definition remove_sender (v : ReplayValidator) (pubkey : Z) : ReplayValidator :=
  v <| sequences := delete pubkey (sequences v) |>.

Definition validate (v : ReplayValidator) (e : Envelope) (sender : Z) : ReplayCheck.ReplayCheck :=
  if negb (env_state_hash e =? state_hash v) then ReplayCheck.StaleState (state_hash v) (env_state_hash e)
  else
    match sequences v !! sender with
    | None => ReplayCheck.UnknownSender sender
    | Some last =>
        if env_sequence e <=? last then ReplayCheck.DuplicateSequence sender (wadd 64 last 1) (env_sequence e)
        else
          let most := wadd 64 last (max_sequence_gap v) in
          if most <? env_sequence e then ReplayCheck.FutureSequence sender most (env_sequence e)
          else ReplayCheck.Valid
    end.

Definition record (v : ReplayValidator) (sender sequence : Z) : ReplayValidator :=
  match sequences v !! sender with
  | Some last => if last <? sequence then v <| sequences := <[sender := sequence]> (sequences v) |> else v
  | None => v
  end.

Definition validate_and_record (v : ReplayValidator) (e : Envelope) (sender : Z)
  : ReplayValidator * ReplayCheck.ReplayCheck :=
  let r := validate v e sender in
  if bool_decide (r = ReplayCheck.Valid) then (record v sender (env_sequence e), r) else (v, r).

Definition next_sequence (v : ReplayValidator) (sender : Z) : option Z :=
  (fun s => wadd 64 s 1) <$> sequences v !! sender.

(** * What is accepted *)

(** A validator at work, with the messages accepted so far, the latest first; a sender
    known before is removed only in [ReplayValidator::remove_sender]. *)
Inductive replay_step : ReplayValidator * list (Z * Z) → ReplayValidator * list (Z * Z) → Prop :=
| rs_message v log e sender v' r :
    validate_and_record v e sender = (v', r) →
    replay_step (v, log) (v', if bool_decide (r = ReplayCheck.Valid) then (sender, env_sequence e) :: log else log)
| rs_state v log h : replay_step (v, log) (update_state v h, log)
| rs_gap v log g : replay_step (v, log) (with_max_gap v g, log)
| rs_add v log pk : replay_step (v, log) (add_sender v pk, log).

Lemma validate_valid v e sender :
  validate v e sender = ReplayCheck.Valid ↔
  env_state_hash e = state_hash v ∧
  ∃ last, sequences v !! sender = Some last ∧ last < env_sequence e ≤ wadd 64 last (max_sequence_gap v).
Proof.
  unfold validate. destruct (Z.eqb_spec (env_state_hash e) (state_hash v)) as [Eh|]; cbn [negb]; [|split; [done|by intros []]].
  destruct (sequences v !! sender) as [last|]; [|split; [done|by intros (_ & ? & ? & _)]].
  destruct (Z.leb_spec (env_sequence e) last); [split; [done|intros (_ & x & [= <-] & ?); lia]|].
  destruct (Z.ltb_spec (wadd 64 last (max_sequence_gap v)) (env_sequence e)).
  - split; [done|]. intros (_ & x & [= <-] & ?). lia.
  - split; [|done]. intros _. split; [done|]. by exists last.
Qed.

Lemma record_accepted v e sender last :
  sequences v !! sender = Some last → last < env_sequence e →
  record v sender (env_sequence e) = v <| sequences := <[sender := env_sequence e]> (sequences v) |>.
Proof. intros Hl Hs. unfold record. rewrite Hl. by rewrite (proj2 (Z.ltb_lt _ _)) by done. Qed.

(** Nothing accepted is above what is recorded of its sender. *)
Definition log_ok (x : ReplayValidator * list (Z * Z)) : Prop :=
  NoDup x.2 ∧ ∀ pk s, (pk, s) ∈ x.2 → ∃ last, sequences x.1 !! pk = Some last ∧ s ≤ last.

Lemma replay_step_ok x y : replay_step x y → log_ok x → log_ok y.
Proof.
  intros Hst [Hnd Hin]. destruct Hst as [v log e sender v' r E | v log h | v log g | v log pk]; cbn in *; [|by split..|].
  - unfold validate_and_record in E. destruct (bool_decide (validate v e sender = ReplayCheck.Valid)) eqn:Eb.
    + apply bool_decide_eq_true in Eb. injection E as <- <-. rewrite bool_decide_eq_true_2 by done.
      apply validate_valid in Eb as (_ & last & Hl & Hs & _). rewrite (record_accepted v e sender last Hl Hs).
      split; cbn.
      * apply NoDup_cons. split; [|done]. intros Hx. destruct (Hin _ _ Hx) as (last' & Hl' & Hle).
        rewrite Hl in Hl'. injection Hl' as <-. lia.
      * intros pk s [[= -> ->]|Hx]%elem_of_cons; [exists (env_sequence e); by rewrite lookup_insert_eq|].
        destruct (Hin pk s Hx) as (last' & Hl' & Hle). destruct (decide (pk = sender)) as [->|Hne].
        -- exists (env_sequence e). rewrite lookup_insert_eq. split; [done|]. rewrite Hl in Hl'. injection Hl' as <-. lia.
        -- exists last'. by rewrite lookup_insert_ne.
    + apply bool_decide_eq_false in Eb. injection E as <- <-. by rewrite bool_decide_eq_false_2.
  - split; [done|]. intros pk' s Hx. destruct (Hin pk' s Hx) as (last & Hl & Hle). cbn.
    destruct (decide (pk' = pk)) as [->|Hne]; [exists last; by rewrite lookup_insert_eq, Hl|].
    exists last. by rewrite lookup_insert_ne.
Qed.

(** Over any history of messages, state updates and new senders in which no sender is
    removed, no message is accepted twice: a sequence number of a sender is accepted once,
    whatever the states it was sent for. *)
Lemma no_message_twice v0 v log :
  rtc replay_step (v0, []) (v, log) → NoDup log.
Proof.
  intros Hr. assert (log_ok (v0, [])) as H0 by (split; [constructor|by intros pk s ?%elem_of_nil]).
  assert (log_ok (v, log)) as [? _]; [|done]. induction Hr; [done|]. eauto using replay_step_ok.
Qed.

(** Removing a sender forgets their sequence: once added again they start over, and all
    their messages for the current state are accepted a second time. *)
Lemma replay_after_rejoin v e sender :
  env_state_hash e = state_hash v → 0 < env_sequence e ≤ max_sequence_gap v → max_sequence_gap v < 2 ^ 64 →
  validate (add_sender (remove_sender v sender) sender) e sender = ReplayCheck.Valid.
Proof.
  intros Hh Hs Hg. apply validate_valid. split; [done|]. exists 0. cbn. rewrite lookup_delete_eq, lookup_insert_eq. cbn.
  rewrite wadd_small by lia. split; [done|lia].
Qed.

Lemma no_message_twice_witness :
  ∃ v, NoDup [(7, 3); (7, 1)] ∧ sequences v !! 7 = Some 3.
Proof.
  set (v0 := validator_from_state 5 [7]).
  exists (v0 <| sequences := {[7 := 3]} |>). split; [|done].
  apply (no_message_twice v0 (v0 <| sequences := {[7 := 3]} |>)).
  eapply rtc_l; [apply (rs_message v0 [] (mkEnvelope 5 1) 7 (v0 <| sequences := {[7 := 1]} |>) ReplayCheck.Valid); vm_compute; reflexivity|].
  eapply rtc_l; [apply (rs_message _ _ (mkEnvelope 5 1) 7 (v0 <| sequences := {[7 := 1]} |>)
                          (ReplayCheck.DuplicateSequence 7 2 1)); vm_compute; reflexivity|].
  eapply rtc_l; [apply (rs_message _ _ (mkEnvelope 5 3) 7 (v0 <| sequences := {[7 := 3]} |>) ReplayCheck.Valid); vm_compute; reflexivity|].
  apply rtc_refl.
Defined.
