(* ===== verification/NarState.v ===== *)
(** The replicated state of a syndicate, [crates/narsil/src/state.rs]: the transitions as
    bytes, the consumed nullifiers, and the manager of members, proposals and votes. *)
From stdpp Require Import base list relations.
From Stdlib Require Import ZArith Lia.
From coqutil Require Import Word.LittleEndianList.
From S2P Require Import Prelude Bytes.

Local Open Scope Z_scope.

(** * Transitions *)

(** A [StateRoot] is its 32 bytes. *)
Record StateTransition := mkStateTransition {
  prev_root : bytes;
  new_root : bytes;
  tr_data : bytes;
  tr_nullifiers : list bytes;
}.
#[export] Instance StateTransition_eta : Eta StateTransition := fun t =>
  mkStateTransition (prev_root t) (new_root t) (tr_data t) (tr_nullifiers t).

Definition transition_new (prev new data : bytes) : StateTransition := mkStateTransition prev new data [].

Definition with_nullifiers (t : StateTransition) (ns : list bytes) : StateTransition := t <| tr_nullifiers := ns |>.

Definition len32 {A} (l : list A) : Z := wrap 32 (Z.of_nat (length l)).

Definition transition_to_bytes (t : StateTransition) : bytes :=
  prev_root t ++ new_root t ++ to_le 4 (len32 (tr_data t)) ++ tr_data t
  ++ to_le 4 (len32 (tr_nullifiers t)) ++ mjoin (tr_nullifiers t).

(** [n] chunks of 32 bytes from [offset] on. *)
Fixpoint read_nullifiers (n : nat) (offset : nat) (b : bytes) : option (list bytes) :=
  match n with
  | O => Some []
  | S n =>
      if (length b <? offset + 32)%nat then None
      else match read_nullifiers n (offset + 32) b with
           | None => None
           | Some ns => Some (slice offset (offset + 32) b :: ns)
           end
  end.

Definition transition_from_bytes (b : bytes) : option StateTransition :=
  if (length b <? 64 + 4)%nat then None
  else
    let data_len := Z.to_nat (from_le (slice 64 68 b)) in
    if (length b <? 68 + data_len + 4)%nat then None
    else
      let nullifier_offset := (68 + data_len)%nat in
      let count := Z.to_nat (from_le (slice nullifier_offset (nullifier_offset + 4) b)) in
      match read_nullifiers count (nullifier_offset + 4) b with
      | None => None
      | Some ns => Some (mkStateTransition (slice 0 32 b) (slice 32 64 b) (slice 68 nullifier_offset b) ns)
      end.

(** * Nullifiers *)

Definition consumed (ns : list bytes) (n : bytes) : bool := bool_decide (n ∈ ns).

(** The set, and whether the nullifier was new. *)
Definition nullifier_insert (ns : list bytes) (n : bytes) : list bytes * bool :=
  if consumed ns n then (ns, false) else (ns ++ [n], true).

Definition insert_all (ns new : list bytes) : list bytes * bool :=
  if existsb (consumed ns) new then (ns, false) else (ns ++ new, true).

(** * The state *)

Module VoteType.
Inductive VoteType := Yes | No | Abstain.
End VoteType.

Module ProposalKind.
Inductive ProposalKind := Signaling | Action | Amendment | Emergency | Text.
End ProposalKind.

#[export] Instance VoteType_eq_dec : EqDecision VoteType.VoteType.
Proof. solve_decision. Defined.

(** Titles, descriptions and action data are not looked at. *)
Record Proposal := mkProposal {
  id : Z;
  kind : ProposalKind.ProposalKind;
  threshold_required : Z;
  deadline : Z;
}.

Record RecordedVote := mkRecordedVote { v_proposal : Z; v_share : Z; v_type : VoteType.VoteType }.

Record ShareOwnership := mkShareOwnership { share_id : Z; owner_pubkey : Z }.

Record MemberInfo := mkMemberInfo { m_pubkey : Z; m_shares : list Z }.

Record Rules := mkRules {
  routine_threshold : Z;
  major_threshold : Z;
  amendment_threshold : Z;
  existential_threshold : Z;
  quorum : Z;
}.

Definition rules_default : Rules := mkRules 51 67 75 90 51.

Record SyndicateState := mkSyndicateState {
  syndicate_id : Z;
  epoch : Z;
  shares : list ShareOwnership;
  rules : Rules;
  proposals : list Proposal;
  votes : list RecordedVote;
  members : list MemberInfo;
  sequence : Z;
}.
#[export] Instance SyndicateState_eta : Eta SyndicateState := fun s =>
  mkSyndicateState (syndicate_id s) (epoch s) (shares s) (rules s) (proposals s) (votes s) (members s) (sequence s).

Inductive StateError :=
| ProposalExists (id : Z)
| ProposalNotFound (id : Z)
| ProposalExpired (id : Z)
| AlreadyVoted (proposal share : Z)
| ShareNotFound (share : Z)
| NotAuthorized (share : Z)
| ThresholdNotMet (required got : Z)
| MemberNotFound (pubkey : Z)
| MemberExists (pubkey : Z).

Record Manager := mkManager {
  state : SyndicateState;
  nullifiers : list bytes;
  next_proposal_id : Z;
}.
#[export] Instance Manager_eta : Eta Manager := fun m => mkManager (state m) (nullifiers m) (next_proposal_id m).

Definition manager_new (sid : Z) (r : Rules) : Manager := mkManager (mkSyndicateState sid 0 [] r [] [] [] 0) [] 1.

(** The consumed nullifiers start anew. *)
Definition manager_from_state (s : SyndicateState) : Manager :=
  mkManager s [] (wadd 64 (foldr Z.max 0 (map id (proposals s))) 1).

Definition bump (s : SyndicateState) : SyndicateState := s <| sequence := wadd 64 (sequence s) 1 |>.

Definition add_member (m : Manager) (pubkey : Z) (share_ids : list Z) : result Manager StateError :=
  let s := state m in
  if existsb (fun x => m_pubkey x =? pubkey) (members s) then Err (MemberExists pubkey)
  else
    let s := s <| shares := shares s ++ map (fun i => mkShareOwnership i pubkey) share_ids |> in
    let s := s <| members := members s ++ [mkMemberInfo pubkey share_ids] |> in
    Ok (m <| state := bump s |>).

Definition share_owner (s : SyndicateState) (share : Z) : option Z :=
  owner_pubkey <$> find (fun x => share_id x =? share) (shares s).

Definition shares_of (s : SyndicateState) (pubkey : Z) : list Z :=
  map share_id (filter (fun x => owner_pubkey x = pubkey) (shares s)).

Definition share_count (s : SyndicateState) (pubkey : Z) : Z := wrap 8 (Z.of_nat (length (shares_of s pubkey))).

Definition submit_proposal (m : Manager) (k : ProposalKind.ProposalKind) (threshold deadline : Z) : Manager * Z :=
  let i := next_proposal_id m in
  let s := (state m) <| proposals := proposals (state m) ++ [mkProposal i k threshold deadline] |> in
  (m <| state := bump s |> <| next_proposal_id := wadd 64 i 1 |>, i).

Definition get_proposal (s : SyndicateState) (i : Z) : option Proposal := find (fun p => id p =? i) (proposals s).

Definition record_vote (m : Manager) (proposal share : Z) (vote : VoteType.VoteType) (voter : Z)
  : result Manager StateError :=
  let s := state m in
  if negb (existsb (fun p => id p =? proposal) (proposals s)) then Err (ProposalNotFound proposal)
  else
    match share_owner s share with
    | None => Err (ShareNotFound share)
    | Some owner =>
        if negb (owner =? voter) then Err (NotAuthorized share)
        else if existsb (fun v => (v_proposal v =? proposal) && (v_share v =? share)) (votes s)
        then Err (AlreadyVoted proposal share)
        else Ok (m <| state := bump (s <| votes := votes s ++ [mkRecordedVote proposal share vote] |>) |>)
    end.

Record VoteTally := mkVoteTally { yes : Z; no : Z; abstain : Z }.
#[export] Instance VoteTally_eta : Eta VoteTally := fun t => mkVoteTally (yes t) (no t) (abstain t).

(** The counters are bytes. *)
Definition count_vote (t : VoteTally) (v : VoteType.VoteType) : VoteTally :=
  match v with
  | VoteType.Yes => t <| yes := wadd 8 (yes t) 1 |>
  | VoteType.No => t <| no := wadd 8 (no t) 1 |>
  | VoteType.Abstain => t <| abstain := wadd 8 (abstain t) 1 |>
  end.

Definition tally (s : SyndicateState) (proposal : Z) : VoteTally :=
  foldl (fun t v => if v_proposal v =? proposal then count_vote t (v_type v) else t) (mkVoteTally 0 0 0) (votes s).

Definition vt_total (t : VoteTally) : Z := sat_add 8 (sat_add 8 (yes t) (no t)) (abstain t).

Definition meets_threshold (t : VoteTally) (threshold : Z) : bool := threshold <=? yes t.

Definition proposal_passed (s : SyndicateState) (proposal : Z) : bool :=
  match get_proposal s proposal with
  | Some p => meets_threshold (tally s proposal) (threshold_required p)
  | None => false
  end.

Definition threshold_for (s : SyndicateState) (k : ProposalKind.ProposalKind) : Z :=
  match k with
  | ProposalKind.Action => major_threshold (rules s)
  | ProposalKind.Amendment => amendment_threshold (rules s)
  | ProposalKind.Signaling | ProposalKind.Emergency | ProposalKind.Text => routine_threshold (rules s)
  end.

Definition cleanup_proposals (m : Manager) (now : Z) : Manager :=
  let s := state m in
  let live := filter (fun p => now < deadline p) (proposals s) in
  let s := s <| proposals := live |>
             <| votes := filter (fun v => v_proposal v ∈ map id live) (votes s) |> in
  m <| state := bump s |>.

Definition increment_epoch (m : Manager) : Manager :=
  m <| state := bump ((state m) <| epoch := wadd 64 (epoch (state m)) 1 |>) |>.

Definition record_nullifier (m : Manager) (n : bytes) : Manager * bool :=
  let (ns, new) := nullifier_insert (nullifiers m) n in (m <| nullifiers := ns |>, new).

(** * Transitions and their bytes *)

Definition transition_ok (t : StateTransition) : Prop :=
  length (prev_root t) = 32%nat ∧ length (new_root t) = 32%nat ∧ Z.of_nat (length (tr_data t)) < 2 ^ 32 ∧
  Z.of_nat (length (tr_nullifiers t)) < 2 ^ 32 ∧ Forall (fun n => length n = 32%nat) (tr_nullifiers t).

Lemma read_nullifiers_join ns : ∀ (pre rest : bytes),
  Forall (fun n => length n = 32%nat) ns →
  read_nullifiers (length ns) (length pre) (pre ++ mjoin ns ++ rest) = Some ns.
Proof.
  induction ns as [|n ns IH]; intros pre rest Hl; [done|]. apply Forall_cons in Hl as [Hn Hl].
  cbn [length read_nullifiers]. change (mjoin (n :: ns)) with (n ++ mjoin ns). rewrite <-!app_assoc.
  rewrite (proj2 (Nat.ltb_ge _ _)) by (rewrite !length_app; lia).
  specialize (IH (pre ++ n) rest Hl). rewrite <-!app_assoc, length_app, Hn in IH. rewrite IH.
  rewrite slice_app_r by lia. rewrite slice_app_l by lia. by rewrite slice_whole by lia.
Qed.

Lemma read_nullifiers_sound n : ∀ offset b ns,
  read_nullifiers n offset b = Some ns → (offset ≤ length b)%nat →
  length ns = n ∧ Forall (fun n => length n = 32%nat) ns ∧ ∃ rest, drop offset b = mjoin ns ++ rest.
Proof.
  induction n as [|n IH]; intros offset b ns E Ho; cbn [read_nullifiers] in E.
  - injection E as <-. split; [done|]. split; [constructor|]. by exists (drop offset b).
  - destruct (Nat.ltb_spec (length b) (offset + 32)); [done|].
    destruct (read_nullifiers n (offset + 32) b) as [ms|] eqn:Er; [|done]. injection E as <-.
    destruct (IH _ _ _ Er ltac:(lia)) as (Hl & Hf & rest & Hd). split; [cbn; lia|].
    split; [constructor; [rewrite length_slice; lia|done]|]. exists rest.
    rewrite (slice_cut offset (offset + 32) b) by lia. rewrite Hd.
    change (mjoin (?n :: ms)) with (n ++ mjoin ms). by rewrite app_assoc.
Qed.

(** The length written and read back. *)
Lemma len32_read {A} (l : list A) : Z.of_nat (length l) < 2 ^ 32 → Z.to_nat (from_le (to_le 4 (len32 l))) = length l.
Proof.
  intros Hl. rewrite from_le_to_le. unfold len32.
  assert (wrap 32 (Z.of_nat (length l)) = Z.of_nat (length l)) as -> by (apply wrap_small; unfold fits; lia).
  change (Z.of_nat 4 * 8) with 32. rewrite wrap_small by (unfold fits; lia). lia.
Qed.

(** Four bytes read as a length and written again. *)
Lemma len32_write {A} (w : bytes) (l : list A) :
  length w = 4%nat → length l = Z.to_nat (from_le w) → to_le 4 (len32 l) = w ∧ Z.of_nat (length l) < 2 ^ 32.
Proof.
  intros Hw Hl. pose proof (from_le_fits w) as Hf. rewrite Hw in Hf. change (Z.of_nat 4 * 8) with 32 in Hf. unfold fits in Hf.
  assert (Z.of_nat (length l) = from_le w) as E by lia. split; [|lia].
  unfold len32. rewrite wrap_small by (unfold fits; lia). rewrite E. unfold to_le, from_le. rewrite <-Hw. apply split_le_combine.
Qed.

Lemma from_bytes_sound b t :
  transition_from_bytes b = Some t → transition_ok t ∧ ∃ rest, b = transition_to_bytes t ++ rest.
Proof.
  unfold transition_from_bytes. destruct (Nat.ltb_spec (length b) (64 + 4)); [done|].
  set (dl := Z.to_nat (from_le (slice 64 68 b))). destruct (Nat.ltb_spec (length b) (68 + dl + 4)); [done|].
  set (c := Z.to_nat (from_le (slice (68 + dl) (68 + dl + 4) b))).
  destruct (read_nullifiers c (68 + dl + 4) b) as [ns|] eqn:Er; [|done]. intros E.
  assert (t = mkStateTransition (slice 0 32 b) (slice 32 64 b) (slice 68 (68 + dl) b) ns) as -> by congruence. clear E.
  destruct (read_nullifiers_sound _ _ _ _ Er ltac:(lia)) as (Hc & Hf & rest & Hd).
  assert (length (slice 68 (68 + dl) b) = dl) as Hdl by (rewrite length_slice; lia).
  destruct (len32_write (slice 64 68 b) (slice 68 (68 + dl) b)) as [W1 F1]; [rewrite length_slice; lia|by rewrite Hdl|].
  destruct (len32_write (slice (68 + dl) (68 + dl + 4) b) ns) as [W2 F2]; [rewrite length_slice; lia|done|].
  split; [split; [|split; [|split; [|split]]]; cbn [prev_root new_root tr_data tr_nullifiers]; try done; rewrite length_slice; lia|].
  exists rest. unfold transition_to_bytes. cbn [prev_root new_root tr_data tr_nullifiers]. rewrite W1, W2, <-!app_assoc, <-Hd.
  rewrite <-(slice_cut (68 + dl) (68 + dl + 4) b), <-(slice_cut 68 (68 + dl) b), <-(slice_cut 64 68 b),
    <-(slice_cut 32 64 b), <-(slice_cut 0 32 b) by lia. by rewrite drop_0.
Qed.

(** C35.  The bytes of a transition are read back as that transition, whatever follows
    them; and whatever bytes are read as a transition begin with the bytes of it, so two
    different transitions never share a message. *)
Theorem transition_roundtrip t rest b :
  (transition_ok t → transition_from_bytes (transition_to_bytes t ++ rest) = Some t) ∧
  (transition_from_bytes b = Some t → transition_ok t ∧ ∃ rest', b = transition_to_bytes t ++ rest').
Proof.
  split.
  - intros (H1 & H2 & H3 & H4 & H5). destruct t as [p n d ns]. cbn [prev_root new_root tr_data tr_nullifiers] in *.
    set (b' := transition_to_bytes _ ++ rest).
    assert (b' = p ++ n ++ to_le 4 (len32 d) ++ d ++ to_le 4 (len32 ns) ++ mjoin ns ++ rest) as Eb.
    { subst b'. unfold transition_to_bytes. cbn. by rewrite <-!app_assoc. }
    assert (length b' = 72 + length d + length (mjoin ns ++ rest))%nat as Elen.
    { rewrite Eb, !(length_app p), !(length_app n), !length_app, !length_to_le. lia. }
    assert (slice 64 68 b' = to_le 4 (len32 d)) as S1.
    { rewrite Eb, !slice_app_r by lia. rewrite slice_app_l by (rewrite length_to_le; lia).
      apply slice_whole; rewrite ?length_to_le; lia. }
    assert (∀ a e, (length d + 68 ≤ a)%nat → slice a e b' = slice (a - 68 - length d) (e - 68 - length d) (to_le 4 (len32 ns) ++ mjoin ns ++ rest)) as S2.
    { intros a e Ha. rewrite Eb, !slice_app_r by (rewrite ?length_to_le; lia). rewrite length_to_le. f_equal; lia. }
    unfold transition_from_bytes. rewrite (proj2 (Nat.ltb_ge (length b') (64 + 4))) by lia. rewrite S1, len32_read by done.
    rewrite (proj2 (Nat.ltb_ge _ _)) by lia. rewrite S2 by lia.
    rewrite slice_app_l by (rewrite length_to_le; lia). rewrite slice_whole by (rewrite ?length_to_le; lia).
    rewrite len32_read by done.
    pose proof (read_nullifiers_join ns (p ++ n ++ to_le 4 (len32 d) ++ d ++ to_le 4 (len32 ns)) rest H5) as Hr.
    rewrite <-!app_assoc, <-Eb in Hr. rewrite !length_app, !length_to_le in Hr.
    replace (68 + length d + 4)%nat with (length p + (length n + (4 + (length d + 4))))%nat by lia. rewrite Hr.
    do 2 f_equal; rewrite Eb.
    + rewrite slice_app_l by lia. by apply slice_whole.
    + rewrite slice_app_r, slice_app_l by lia. apply slice_whole; lia.
    + rewrite !slice_app_r by (rewrite ?length_to_le; lia). rewrite slice_app_l by (rewrite ?length_to_le; lia).
      apply slice_whole; rewrite ?length_to_le; lia.
  - apply from_bytes_sound.
Qed.

(** * The manager *)

(** The calls on a manager; shares are numbered from 1 to 100, as [ShareOwnership] says. *)
Inductive manager_step : Manager → Manager → Prop :=
| ms_member m m' pk l : Forall (fun i => 1 ≤ i ≤ 100) l → add_member m pk l = Ok m' → manager_step m m'
| ms_propose m k t d : manager_step m (submit_proposal m k t d).1
| ms_vote m m' p i v pk : record_vote m p i v pk = Ok m' → manager_step m m'
| ms_cleanup m now : manager_step m (cleanup_proposals m now)
| ms_epoch m : manager_step m (increment_epoch m)
| ms_nullifier m n : manager_step m (record_nullifier m n).1.

Definition ballot_key (v : RecordedVote) : Z * Z := (v_proposal v, v_share v).

Record manager_ok (m : Manager) : Prop := {
  mk_once : NoDup (map ballot_key (votes (state m)));
  mk_owned : Forall (fun v => v_share v ∈ map share_id (shares (state m)) ∧ v_proposal v ∈ map id (proposals (state m)))
               (votes (state m));
  mk_shares : Forall (fun x => 1 ≤ share_id x ≤ 100) (shares (state m));
  mk_nullifiers : NoDup (nullifiers m);
}.

Lemma existsb_map {A} (f : A → Z) x l : existsb (fun a => f a =? x) l = true ↔ x ∈ map f l.
Proof.
  rewrite existsb_exists, list_elem_of_fmap. split.
  - intros (a & Ha & E%Z.eqb_eq). exists a. split; [done|]. by apply list_elem_of_In.
  - intros (a & -> & Ha). exists a. split; [by apply list_elem_of_In|]. apply Z.eqb_refl.
Qed.

Lemma record_vote_inv m p i v pk m' :
  record_vote m p i v pk = Ok m' →
  p ∈ map id (proposals (state m)) ∧ share_owner (state m) i = Some pk ∧ ¬ ((p, i) ∈ map ballot_key (votes (state m))) ∧
  m' = m <| state := bump ((state m) <| votes := votes (state m) ++ [mkRecordedVote p i v] |>) |>.
Proof.
  unfold record_vote. destruct (existsb (fun q => id q =? p) (proposals (state m))) eqn:Ep; [|done]. cbn [negb].
  destruct (share_owner (state m) i) as [o|]; [|done]. destruct (Z.eqb_spec o pk) as [->|]; [|done]. cbn [negb].
  destruct (existsb _ (votes (state m))) eqn:Ev; [done|]. intros [= <-]. split; [by apply existsb_map|]. split; [done|].
  split; [|done]. intros (x & Ex & Hx)%list_elem_of_fmap. apply not_true_iff_false in Ev. apply Ev, existsb_exists.
  exists x. split; [by apply list_elem_of_In|]. injection Ex as -> ->. by rewrite !Z.eqb_refl.
Qed.

Lemma share_owner_in s i pk : share_owner s i = Some pk → i ∈ map share_id (shares s).
Proof.
  unfold share_owner. destruct (find _ (shares s)) as [x|] eqn:E; [|done]. intros _. apply find_some in E as [Hx E].
  apply list_elem_of_fmap. exists x. split; [by apply Z.eqb_eq in E|by apply list_elem_of_In].
Qed.

Lemma manager_step_ok m m' : manager_step m m' → manager_ok m → manager_ok m'.
Proof.
  intros Hst [H1 H2 H3 H4]. destruct Hst as [m m' pk l Hl E | m k t d | m m' p i v pk E | m now | m | m n].
  - unfold add_member in E. destruct (existsb _ _); [done|]. injection E as <-. split; cbn; [done| | |done].
    + eapply Forall_impl; [exact H2|]. intros v [Hv Hp]. split; [|done]. rewrite map_app. apply elem_of_app. by left.
    + apply Forall_app. split; [done|]. apply Forall_fmap. eapply Forall_impl; [exact Hl|]. done.
  - split; cbn; [done| |done|done]. eapply Forall_impl; [exact H2|]. intros v [Hv Hp]. split; [done|].
    rewrite map_app. apply elem_of_app. by left.
  - apply record_vote_inv in E as (Hp & Ho & Hn & ->). apply share_owner_in in Ho. split; cbn; [| |done|done].
    + rewrite map_app. apply NoDup_app. split; [done|]. split; [|apply NoDup_singleton].
      intros x Hx ->%list_elem_of_singleton. done.
    + apply Forall_app. split; [done|]. by constructor.
  - split; cbn; [| |done|done].
    + clear H2. induction (votes (state m)) as [|v vs IH]; [constructor|]. cbn [map] in H1.
      apply NoDup_cons in H1 as [Hv Hvs]. rewrite filter_cons. case_decide; [|by apply IH]. cbn [map].
      apply NoDup_cons. split; [|by apply IH]. intros (x & Ex & [_ Hx]%list_elem_of_filter)%list_elem_of_fmap.
      apply Hv, list_elem_of_fmap. by exists x.
    + apply Forall_forall. intros v [Hp Hv]%list_elem_of_filter. rewrite Forall_forall in H2.
      split; [by apply H2|done].
  - by split.
  - unfold record_nullifier, nullifier_insert, consumed. case_bool_decide; cbn; [by split|]. split; cbn; [done|done|done|].
    apply NoDup_app. split; [done|]. split; [|apply NoDup_singleton]. intros x Hx ->%list_elem_of_singleton. done.
Qed.

Lemma manager_reach sid r m : rtc manager_step (manager_new sid r) m → manager_ok m.
Proof.
  intros Hm. assert (manager_ok (manager_new sid r)) as H0 by (split; cbn; constructor).
  induction Hm; [done|]. eauto using manager_step_ok.
Qed.

(** The shares that voted one way on a proposal. *)
Definition voted_for (s : SyndicateState) (p : Z) (t : VoteType.VoteType) : list Z :=
  map v_share (filter (fun v => v_proposal v = p ∧ v_type v = t) (votes s)).

Definition tally_of (t : VoteTally) (v : VoteType.VoteType) : Z :=
  match v with VoteType.Yes => yes t | VoteType.No => no t | VoteType.Abstain => abstain t end.

Lemma tally_counts s p t :
  Z.of_nat (length (voted_for s p t)) < 2 ^ 8 → tally_of (tally s p) t = Z.of_nat (length (voted_for s p t)).
Proof.
  unfold tally, voted_for. rewrite length_map.
  assert (∀ l a, 0 ≤ tally_of a t →
    tally_of a t + Z.of_nat (length (filter (fun v => v_proposal v = p ∧ v_type v = t) l)) < 2 ^ 8 →
    tally_of (foldl (fun t v => if v_proposal v =? p then count_vote t (v_type v) else t) a l) t
    = tally_of a t + Z.of_nat (length (filter (fun v => v_proposal v = p ∧ v_type v = t) l))) as Hg.
  { induction l as [|v l IH]; intros a Ha Hf; [cbn in *; lia|]. cbn [foldl]. rewrite filter_cons in Hf |- *.
    destruct (Z.eqb_spec (v_proposal v) p) as [Ep|Ep].
    - destruct (decide (v_type v = t)) as [Et|Et].
      + rewrite decide_True in Hf |- * by done. cbn [length] in Hf |- *.
        assert (tally_of (count_vote a (v_type v)) t = tally_of a t + 1) as E1.
        { rewrite Et. destruct t; cbn in *; apply wadd_small; lia. }
        rewrite IH; rewrite E1; lia.
      + rewrite decide_False in Hf |- * by naive_solver.
        assert (tally_of (count_vote a (v_type v)) t = tally_of a t) as E1 by (by destruct (v_type v), t).
        rewrite IH; rewrite E1; done.
    - rewrite decide_False in Hf |- * by naive_solver. by apply IH. }
  intros Hf. rewrite Hg; destruct t; cbn in *; lia.
Qed.

(** The votes on one proposal come from different shares. *)
Lemma voted_distinct m p t : manager_ok m → NoDup (voted_for (state m) p t).
Proof.
  intros Hm. pose proof (mk_once _ Hm) as Hn. unfold voted_for. induction (votes (state m)) as [|v vs IH]; [constructor|].
  cbn [map] in Hn. apply NoDup_cons in Hn as [Hv Hvs]. rewrite filter_cons. case_decide as Hd; [|by apply IH].
  cbn [map]. apply NoDup_cons. split; [|by apply IH].
  intros (x & Ex & [[Hp _] Hx]%list_elem_of_filter)%list_elem_of_fmap. apply Hv, list_elem_of_fmap. exists x.
  split; [|done]. unfold ballot_key. destruct Hd as [Hd _]. congruence.
Qed.

Lemma voted_share m p t i :
  manager_ok m → i ∈ voted_for (state m) p t → i ∈ map share_id (shares (state m)) ∧ 1 ≤ i ≤ 100.
Proof.
  intros Hm (v & -> & [_ Hv]%list_elem_of_filter)%list_elem_of_fmap.
  pose proof (mk_owned _ Hm) as Ho. rewrite Forall_forall in Ho. destruct (Ho v Hv) as [Hi _]. split; [done|].
  apply list_elem_of_fmap in Hi as (x & -> & Hx). pose proof (mk_shares _ Hm) as Hs. rewrite Forall_forall in Hs. by apply Hs.
Qed.

Lemma voted_few m p t : manager_ok m → (length (voted_for (state m) p t) ≤ 100)%nat.
Proof.
  intros Hm. transitivity (length (seqZ 1 100)); [|by rewrite length_seqZ].
  apply submseteq_length, NoDup_submseteq; [by apply voted_distinct|].
  intros i [_ Hi]%voted_share; [|done]. apply elem_of_seqZ. lia.
Qed.

(** Over any history of a syndicate's members, proposals, votes and cleanups no share
    votes twice on a proposal and no nullifier is consumed twice; the tally of a proposal
    counts, for each way to vote, the distinct shares that voted so, all of them members'
    shares; and a proposal has passed exactly when it is there and as many shares as it
    asks for voted yes. *)
Lemma passed_by_distinct_shares sid r m p :
  rtc manager_step (manager_new sid r) m →
  NoDup (nullifiers m) ∧
  (∀ t, NoDup (voted_for (state m) p t) ∧ tally_of (tally (state m) p) t = Z.of_nat (length (voted_for (state m) p t)) ∧
        ∀ i, i ∈ voted_for (state m) p t → i ∈ map share_id (shares (state m))) ∧
  (∀ i t t', i ∈ voted_for (state m) p t → i ∈ voted_for (state m) p t' → t = t') ∧
  (proposal_passed (state m) p = true ↔
   ∃ q, get_proposal (state m) p = Some q ∧ threshold_required q ≤ Z.of_nat (length (voted_for (state m) p VoteType.Yes))).
Proof.
  intros Hm%manager_reach.
  assert (∀ t, tally_of (tally (state m) p) t = Z.of_nat (length (voted_for (state m) p t))) as Ht.
  { intros t. apply tally_counts. pose proof (voted_few m p t Hm). lia. }
  split; [apply (mk_nullifiers _ Hm)|]. split; [|split].
  - intros t. split; [by apply voted_distinct|]. split; [done|]. intros i Hi. by apply (voted_share m p t i Hm).
  - intros i t t' (v & -> & [[Hp <-] Hv]%list_elem_of_filter)%list_elem_of_fmap
      (v' & E & [[Hp' <-] Hv']%list_elem_of_filter)%list_elem_of_fmap.
    assert (v = v') as ->; [|done]. apply list_elem_of_lookup in Hv as [j Hj], Hv' as [j' Hj'].
    assert (j = j') as <-; [|congruence]. apply (NoDup_lookup (map ballot_key (votes (state m))) j j' (ballot_key v)).
    + apply (mk_once _ Hm).
    + by rewrite list_lookup_fmap, Hj.
    + rewrite list_lookup_fmap, Hj'. cbn. unfold ballot_key. by rewrite E, Hp, Hp'.
  - unfold proposal_passed, meets_threshold. rewrite <-(Ht VoteType.Yes).
    destruct (get_proposal (state m) p) as [q|]; [|split; [done|by intros (? & ? & _)]]. rewrite Z.leb_le. cbn [tally_of].
    split; [intros Hq; by exists q|by intros (x & [= <-] & Hx)].
Qed.

(** Sets of nullifiers are checked against what was consumed, not against themselves. *)
Lemma insert_all_repeats ns n : n ∉ ns → insert_all ns [n; n] = (ns ++ [n; n], true).
Proof. intros Hn. unfold insert_all, consumed. cbn. by rewrite !bool_decide_eq_false_2. Qed.

(** A manager restored from a state has forgotten every nullifier. *)
Lemma restored_accepts_again m n : (record_nullifier (manager_from_state (state m)) n).2 = true.
Proof. unfold record_nullifier, nullifier_insert, consumed. cbn. by rewrite bool_decide_eq_false_2 by apply not_elem_of_nil. Qed.

(** A share given to a second member stays with the first, who alone can vote it. *)
Lemma second_owner_cannot_vote m m' a b i p v :
  share_owner (state m) i = Some a → a ≠ b → add_member m b [i] = Ok m' → p ∈ map id (proposals (state m)) →
  i ∈ shares_of (state m') b ∧ record_vote m' p i v b = Err (NotAuthorized i).
Proof.
  intros Ho Hab E Hp. unfold add_member in E. destruct (existsb _ _); [done|].
  assert (shares (state m') = shares (state m) ++ [mkShareOwnership i b] ∧ proposals (state m') = proposals (state m))
    as [Es Ep] by (by injection E as <-). split.
  - unfold shares_of. rewrite Es. apply list_elem_of_fmap. exists (mkShareOwnership i b). split; [done|].
    apply list_elem_of_filter. split; [done|]. apply elem_of_app. right. by left.
  - unfold record_vote. rewrite Ep. apply existsb_map in Hp. rewrite Hp. cbn [negb].
    assert (share_owner (state m') i = Some a) as ->; [|by rewrite (proj2 (Z.eqb_neq a b))].
    unfold share_owner in *. rewrite Es. destruct (find _ (shares (state m))) as [x|] eqn:Ef; [|done].
    assert (∀ l k, find (fun x => share_id x =? i) l = Some x → find (fun x => share_id x =? i) (l ++ k) = Some x) as Happ.
    { induction l as [|y l IH]; [done|]. cbn. destruct (share_id y =? i); [done|]. apply IH. }
    by rewrite (Happ _ _ Ef).
Qed.

(** * Witnesses *)

Lemma transition_roundtrip_witness :
  let t := with_nullifiers (transition_new (zeros 32) (to_be 32 7) (to_be 5 9)) [to_be 32 1; to_be 32 2] in
  transition_from_bytes (transition_to_bytes t ++ [z2b 1]) = Some t.
Proof.
  intros t. apply (transition_roundtrip t [z2b 1] (transition_to_bytes t)).
  split; [done|]. split; [done|]. split; [done|]. split; [done|]. by repeat constructor.
Defined.

Lemma passed_by_distinct_shares_witness :
  ∃ m, proposal_passed (state m) 1 = true ∧ voted_for (state m) 1 VoteType.Yes = [3; 4] ∧ NoDup [3; 4].
Proof.
  set (m1 := mkManager (mkSyndicateState 9 0 [mkShareOwnership 3 20; mkShareOwnership 4 20] rules_default [] []
                          [mkMemberInfo 20 [3; 4]] 1) [] 1).
  set (m2 := (submit_proposal m1 ProposalKind.Action 2 100).1).
  set (m3 := m2 <| state := bump ((state m2) <| votes := [mkRecordedVote 1 3 VoteType.Yes] |>) |>).
  set (m4 := m3 <| state := bump ((state m3) <| votes := [mkRecordedVote 1 3 VoteType.Yes; mkRecordedVote 1 4 VoteType.Yes] |>) |>).
  exists m4.
  destruct (passed_by_distinct_shares 9 rules_default m4 1) as (_ & Hd & _ & Hp).
  - eapply rtc_l; [apply (ms_member _ m1 20 [3; 4]); [repeat constructor; lia | reflexivity]|].
    eapply rtc_l; [apply (ms_propose m1 ProposalKind.Action 2 100)|].
    eapply rtc_l; [apply (ms_vote m2 m3 1 3 VoteType.Yes 20); reflexivity|].
    eapply rtc_l; [apply (ms_vote m3 m4 1 4 VoteType.Yes 20); reflexivity|]. apply rtc_refl.
  - split; [|split; [reflexivity|apply (Hd VoteType.Yes)]]. apply Hp. exists (mkProposal 1 ProposalKind.Action 2 100).
    split; [reflexivity|]. vm_compute. congruence.
Defined.
