(* ===== verification/NarShares.v ===== *)
(** The hundred numbered shares, [crates/narsil/src/shares.rs], and the proposals members
    sign, [proposal.rs].

    A public key is an integer, a text or a plan its bytes; SHA-256 is a parameter. *)
From stdpp Require Import base list gmap strings.
From Stdlib Require Import ZArith Lia.
From S2P Require Import Prelude Bytes OrdMap NarGov.

Local Open Scope Z_scope.

(** * Shares *)

Definition TOTAL_SHARES : Z := 100.

Inductive ShareError :=
| ExceedsTotalShares
| NoFounders
| TooManyFounders
| ShareNotFound (share_id : Z)
| NotOwner (share_id : Z)
| InvalidShareId (share_id : Z).

(** The owners by share. *)
Abbreviation owners := (gmap Z Z).

(** [count] shares from [next] on; the next free one. *)
Fixpoint give (count : nat) (pubkey next : Z) (r : owners) : result (owners * Z) ShareError :=
  match count with
  | O => Ok (r, next)
  | S count =>
      if TOTAL_SHARES <? next then Err ExceedsTotalShares
      else give count pubkey (wadd 8 next 1) (<[next := pubkey]> r)
  end.

Fixpoint allocate (allocations : list (Z * Z)) (next : Z) (r : owners) : result owners ShareError :=
  match allocations with
  | [] => Ok r
  | (pubkey, count) :: rest =>
      let? rn := give (Z.to_nat count) pubkey next r in allocate rest rn.2 rn.1
  end.

Definition with_allocation (allocations : list (Z * Z)) : result owners ShareError := allocate allocations 1 ∅.

Definition founder_controlled (founder : Z) : owners := foldl (fun m i => <[i := founder]> m) ∅ (seqZ 1 100).

Definition equal_split (founders : list Z) : result owners ShareError :=
  let n := Z.of_nat (length founders) in
  if bool_decide (founders = []) then Err NoFounders
  else if TOTAL_SHARES <? n then Err TooManyFounders
  else
    let shares_each := TOTAL_SHARES / n in
    let remainder := TOTAL_SHARES mod n in
    with_allocation (imap (fun i pk => (pk, if Z.of_nat i <? remainder then wadd 8 shares_each 1 else shares_each)) founders).

Definition owner (r : owners) (share : Z) : option Z := r !! share.

Definition owned_by (r : owners) (pubkey : Z) : list Z := map fst (filter (fun io => io.2 = pubkey) (entries r)).

Definition owned_count (r : owners) (pubkey : Z) : Z := wrap 8 (Z.of_nat (length (owned_by r pubkey))).

Definition allocated_shares (r : owners) : Z := wrap 8 (Z.of_nat (size r)).

Definition is_fully_allocated (r : owners) : bool := allocated_shares r =? TOTAL_SHARES.

(** The first share that is not [from]'s. *)
Fixpoint check_owned (r : owners) (share_ids : list Z) (from : Z) : option ShareError :=
  match share_ids with
  | [] => None
  | i :: rest =>
      match r !! i with
      | Some o => if o =? from then check_owned r rest from else Some (NotOwner i)
      | None => Some (ShareNotFound i)
      end
  end.

Definition transfer_shares (r : owners) (share_ids : list Z) (from to : Z) : result owners ShareError :=
  match check_owned r share_ids from with
  | Some e => Err e
  | None => Ok (foldl (fun m i => <[i := to]> m) r share_ids)
  end.

Definition owns_all (r : owners) (pubkey : Z) (share_ids : list Z) : bool :=
  forallb (fun i => match r !! i with Some o => o =? pubkey | None => false end) share_ids.

(** The count of valid shares, and those seen. *)
Definition count_share (r : owners) (cs : Z * list Z) (i : Z) : Z * list Z :=
  if (1 <=? i) && (i <=? TOTAL_SHARES) && negb (bool_decide (i ∈ cs.2)) then
    if bool_decide (is_Some (r !! i)) then (wadd 8 cs.1 1, i :: cs.2) else cs
  else cs.

Definition shares_meet_threshold (r : owners) (share_ids : list Z) (threshold : Z) : bool :=
  threshold <=? (foldl (count_share r) (0, []) share_ids).1.

(** * Proposals *)

Module ProposalKind.
Inductive ProposalKind := Signaling | Action | Amendment | Emergency.
End ProposalKind.

Definition kind_action_type (k : ProposalKind.ProposalKind) : ActionType.ActionType :=
  match k with
  | ProposalKind.Signaling => ActionType.Routine
  | ProposalKind.Action => ActionType.Major
  | ProposalKind.Amendment => ActionType.Amendment
  | ProposalKind.Emergency => ActionType.Major
  end.

Inductive ParameterKind :=
| RoutineThreshold | MajorThreshold | AmendmentThreshold | QuorumPercentage | TransfersAllowed.

Inductive ShareSource := Dilution | Transfer (from : Z) | Reserve.

Record BuyoutTerms := mkBuyoutTerms { bt_amount : Z; payment_address : bytes }.

Inductive MembershipChangeKind :=
| AddMember (pubkey shares : Z) (source : ShareSource)
| RemoveMember (member_id : Z) (buyout : BuyoutTerms)
| TransferShares (from to shares : Z).

Module ProposalPayload.
Inductive ProposalPayload :=
| Signaling (reference : option bytes)
| Action (action_plan : bytes)
| ParameterChange (parameter : ParameterKind) (new_value : bytes)
| MembershipChange (change : MembershipChangeKind)
| Emergency (action_plan : option bytes) (reason : bytes)
| Text (text : bytes).
End ProposalPayload.

Record SyndicateProposal := mkSyndicateProposal {
  sp_id : Z;
  sp_title : bytes;
  sp_description : bytes;
  sp_payload : ProposalPayload.ProposalPayload;
  sp_proposer : Z;
  sp_proposed_at : Z;
  sp_deadline : Z;
}.

Definition proposal_signaling (id : Z) (title description : bytes) (reference : option bytes)
    (proposer proposed_at deadline : Z) : SyndicateProposal :=
  mkSyndicateProposal id title description (ProposalPayload.Signaling reference) proposer proposed_at deadline.

Definition proposal_text (id : Z) (title resolution : bytes) (proposer proposed_at deadline : Z) : SyndicateProposal :=
  mkSyndicateProposal id title resolution (ProposalPayload.Text resolution) proposer proposed_at deadline.

Definition proposal_kind (p : SyndicateProposal) : ProposalKind.ProposalKind :=
  match sp_payload p with
  | ProposalPayload.Signaling _ => ProposalKind.Signaling
  | ProposalPayload.Action _ => ProposalKind.Action
  | ProposalPayload.ParameterChange _ _ => ProposalKind.Amendment
  | ProposalPayload.MembershipChange _ => ProposalKind.Amendment
  | ProposalPayload.Emergency _ _ => ProposalKind.Emergency
  | ProposalPayload.Text _ => ProposalKind.Signaling
  end.

Definition required_approval (p : SyndicateProposal) : ActionType.ActionType := kind_action_type (proposal_kind p).

Definition has_on_chain_effect (p : SyndicateProposal) : bool :=
  match sp_payload p with
  | ProposalPayload.Action _ => true
  | ProposalPayload.Emergency (Some _) _ => true
  | _ => false
  end.

Definition payload_type (p : ProposalPayload.ProposalPayload) : Z :=
  match p with
  | ProposalPayload.Signaling _ => 0
  | ProposalPayload.Action _ => 1
  | ProposalPayload.ParameterChange _ _ => 2
  | ProposalPayload.MembershipChange _ => 3
  | ProposalPayload.Emergency _ _ => 4
  | ProposalPayload.Text _ => 5
  end.

(** What is hashed for signing. *)
Definition proposal_preimage (p : SyndicateProposal) : bytes :=
  ascii "narsil-proposal-v1" ++ to_le 8 (sp_id p)
  ++ to_le 4 (wrap 32 (Z.of_nat (length (sp_title p)))) ++ sp_title p
  ++ to_le 4 (wrap 32 (Z.of_nat (length (sp_description p)))) ++ sp_description p
  ++ to_le 4 (sp_proposer p) ++ to_le 8 (sp_proposed_at p) ++ to_le 8 (sp_deadline p)
  ++ [z2b (payload_type (sp_payload p))].

Definition proposal_hash `{Sha256} (p : SyndicateProposal) : Z := sha256 (proposal_preimage p).

(** * The numbered shares *)

Lemma give_spec count : ∀ pubkey next r,
  1 ≤ next → next + Z.of_nat count ≤ 101 →
  ∃ r', give count pubkey next r = Ok (r', next + Z.of_nat count) ∧
        ∀ i, r' !! i = if bool_decide (next ≤ i < next + Z.of_nat count) then Some pubkey else r !! i.
Proof.
  induction count as [|count IH]; intros pubkey next r Hn Hc; cbn [give].
  - exists r. split; [do 2 f_equal; lia|]. intros i. rewrite bool_decide_eq_false_2 by lia. done.
  - unfold TOTAL_SHARES. rewrite (proj2 (Z.ltb_ge _ _)) by lia. rewrite wadd_small by lia.
    destruct (IH pubkey (next + 1) (<[next := pubkey]> r)) as (r' & E & Hr); [lia|lia|].
    exists r'. split; [rewrite E; do 2 f_equal; lia|]. intros i. rewrite Hr.
    destruct (decide (i = next)) as [->|Hi].
    + rewrite lookup_insert_eq, bool_decide_eq_false_2, bool_decide_eq_true_2 by lia. done.
    + rewrite lookup_insert_ne by done. erewrite bool_decide_ext; [done|]. lia.
Qed.

(** Nothing is given once the shares are gone. *)
Lemma give_too_many count : ∀ pubkey next r,
  1 ≤ next ≤ 101 → 101 < next + Z.of_nat count → give count pubkey next r = Err ExceedsTotalShares.
Proof.
  induction count as [|count IH]; intros pubkey next r Hn Hc; cbn [give]; [lia|].
  unfold TOTAL_SHARES. destruct (Z.ltb_spec 100 next); [done|]. rewrite wadd_small by lia. apply IH; lia.
Qed.

(** The shares of one allocation, numbered on from [next]. *)
Fixpoint numbered (l : list (Z * Z)) (next i : Z) : option Z :=
  match l with
  | [] => None
  | (pk, n) :: l => if bool_decide (next ≤ i < next + n) then Some pk else numbered l (next + n) i
  end.

Lemma numbered_below l : ∀ next i, Forall (fun x => 0 ≤ x.2) l → i < next → numbered l next i = None.
Proof.
  induction l as [|[pk n] l IH]; intros next i Hl Hi; [done|]. apply Forall_cons in Hl as [Hn Hl]. cbn in *.
  rewrite bool_decide_eq_false_2 by lia. apply IH; [done|lia].
Qed.

Lemma allocate_spec l : ∀ next r,
  Forall (fun x => 0 ≤ x.2) l → 1 ≤ next ≤ 101 → (∀ i, next ≤ i → r !! i = None) →
  (next + zsum (map snd l) ≤ 101 →
     ∃ r', allocate l next r = Ok r' ∧ ∀ i, r' !! i = if bool_decide (i < next) then r !! i else numbered l next i) ∧
  (101 < next + zsum (map snd l) → allocate l next r = Err ExceedsTotalShares).
Proof.
  induction l as [|[pk n] l IH]; intros next r Hl Hn Hr; cbn [allocate map zsum snd numbered] in *.
  - split; [|lia]. intros _. exists r. split; [done|]. intros i. case_bool_decide; [done|]. apply Hr. lia.
  - apply Forall_cons in Hl as [H0 Hl]. cbn in H0. assert (0 ≤ zsum (map snd l)) by (by apply zsum_nonneg, Forall_fmap).
    destruct (decide (next + n ≤ 101)) as [Hf|Hf].
    + destruct (give_spec (Z.to_nat n) pk next r) as (r1 & E & H1); [lia|lia|].
      rewrite E. cbn [fst snd]. rewrite Z2Nat.id in * by done.
      destruct (IH (next + n) r1 Hl) as [I1 I2]; [lia|intros i Hi; rewrite H1, bool_decide_eq_false_2 by lia; apply Hr; lia|].
      split; [|intros; apply I2; lia]. intros Hs. destruct I1 as (r' & E' & Hr'); [lia|]. exists r'. split; [done|].
      intros i. rewrite Hr', H1. repeat case_bool_decide; (done || lia).
    + split; [lia|]. intros _. rewrite give_too_many by lia. done.
Qed.

(** Equal parts: every share is handed out, in order, the first founders one more each. *)
Lemma equal_split_spec founders :
  let n := Z.of_nat (length founders) in
  1 ≤ n ≤ TOTAL_SHARES →
  ∃ r, equal_split founders = Ok r ∧ (∀ i, is_Some (r !! i) ↔ 1 ≤ i ≤ 100) ∧
       ∀ i, r !! i = numbered (imap (fun j pk => (pk, 100 / n + (if Z.of_nat j <? 100 mod n then 1 else 0))) founders) 1 i.
Proof.
  intros n Hn. unfold TOTAL_SHARES in *. pose proof (Z.div_mod 100 n ltac:(lia)) as Hdm.
  pose proof (Z.mod_pos_bound 100 n ltac:(lia)) as Hm. set (q := 100 / n) in *. set (e := 100 mod n) in *.
  assert (1 ≤ q ≤ 100) as Hq by nia.
  set (l := imap (fun j pk => (pk, q + (if Z.of_nat j <? e then 1 else 0))) founders).
  assert (equal_split founders = with_allocation l) as ->.
  { unfold equal_split. fold n. unfold TOTAL_SHARES. fold q e.
    rewrite bool_decide_eq_false_2 by (intros ->; cbn in n; lia). rewrite (proj2 (Z.ltb_ge _ _)) by lia.
    f_equal. apply imap_ext. intros j pk _. f_equal. destruct (Z.of_nat j <? e); [apply wadd_small; lia|lia]. }
  assert (∀ (ks : list Z) (k : nat), zsum (map snd (imap (fun j pk => (pk, q + (if Z.of_nat (k + j) <? e then 1 else 0))) ks))
            = Z.of_nat (length ks) * q + Z.max 0 (Z.min (Z.of_nat (length ks)) (e - Z.of_nat k))) as Hs.
  { induction ks as [|x ks IH]; intros k; [cbn; lia|]. rewrite imap_cons. cbn [map zsum snd length].
    rewrite (imap_ext _ (fun j pk => (pk, q + (if Z.of_nat (S k + j) <? e then 1 else 0)))).
    2: { intros j y _. cbn. by rewrite Nat.add_succ_r. }
    rewrite IH, Nat.add_0_r. destruct (Z.ltb_spec (Z.of_nat k) e); lia. }
  specialize (Hs founders 0%nat). cbn [Nat.add] in Hs. fold l n in Hs.
  assert (zsum (map snd l) = 100) as Hl by (rewrite Hs; nia).
  assert (Forall (fun x => 0 ≤ x.2) l) as Hp.
  { apply Forall_forall. intros [pk x] Hx. subst l. apply elem_of_lookup_imap in Hx as (j & y & E & _). injection E as -> ->.
    cbn. case_match; lia. }
  destruct (allocate_spec l 1 ∅ Hp ltac:(lia)) as [(r & E & Hr) _]; [intros; apply lookup_empty|lia|].
  assert (∀ i, r !! i = numbered l 1 i) as Hr'.
  { intros i. rewrite Hr. case_bool_decide; [|done]. by rewrite lookup_empty, numbered_below. }
  exists r. split; [done|]. split; [|done]. intros i. rewrite Hr'.
  assert (∀ l next, Forall (fun x => 0 ≤ x.2) l → is_Some (numbered l next i) ↔ next ≤ i < next + zsum (map snd l)) as Hn'.
  { clear. induction l as [|[pk n] l IH]; intros next Hl; cbn [numbered map zsum snd]; [split; [by intros []|lia]|].
    apply Forall_cons in Hl as [H0 Hl]. cbn in H0. assert (0 ≤ zsum (map snd l)) by (by apply zsum_nonneg, Forall_fmap).
    case_bool_decide; [split; [lia|by eexists]|]. rewrite IH by done. lia. }
  rewrite Hn' by done. rewrite Hl. lia.
Qed.

(** A transfer moves the shares it names and no other, or nothing. *)
Lemma check_owned_none r ids from : check_owned r ids from = None ↔ Forall (fun i => r !! i = Some from) ids.
Proof.
  induction ids as [|i ids IH]; cbn; [split; [constructor|done]|]. rewrite Forall_cons, <-IH.
  destruct (r !! i) as [o|]; [|naive_solver]. destruct (Z.eqb_spec o from); naive_solver.
Qed.

Lemma transfer_shares_spec r ids from to r' :
  transfer_shares r ids from to = Ok r' →
  Forall (fun i => r !! i = Some from) ids ∧
  (∀ i, r' !! i = if bool_decide (i ∈ ids) then Some to else r !! i) ∧ dom r' = dom r.
Proof.
  unfold transfer_shares. destruct (check_owned r ids from) eqn:E; [done|]. apply check_owned_none in E. intros [= <-].
  assert (∀ (m : gmap Z Z) i, foldl (fun m i => <[i := to]> m) m ids !! i = if bool_decide (i ∈ ids) then Some to else m !! i) as Hl.
  { clear E. induction ids as [|j ids IH]; intros m i; [done|]. cbn [foldl]. rewrite IH.
    destruct (decide (i = j)) as [->|Hij].
    - rewrite lookup_insert_eq, (bool_decide_eq_true_2 (j ∈ j :: ids)) by left. by case_bool_decide.
    - rewrite lookup_insert_ne by done. erewrite bool_decide_ext; [done|]. rewrite elem_of_cons. naive_solver. }
  split; [done|]. split; [apply Hl|]. apply set_eq. intros i. rewrite !elem_of_dom, Hl. case_bool_decide as Hi; [|done].
  rewrite Forall_forall in E. specialize (E i Hi). cbn in E. rewrite E. split; by eexists.
Qed.

(** The shares that count towards a threshold. *)
Definition valid_share (r : owners) (i : Z) : Prop := 1 ≤ i ≤ TOTAL_SHARES ∧ is_Some (r !! i).
#[export] Instance valid_share_dec r i : Decision (valid_share r i).
Proof. apply _. Defined.

Lemma count_share_spec r ids : ∀ c seen,
  NoDup seen → Forall (valid_share r) seen → c = Z.of_nat (length seen) →
  let x := foldl (count_share r) (c, seen) ids in
  NoDup x.2 ∧ Forall (valid_share r) x.2 ∧ x.1 = Z.of_nat (length x.2) ∧
  ∀ i, i ∈ x.2 ↔ i ∈ seen ∨ (i ∈ ids ∧ valid_share r i).
Proof.
  induction ids as [|i ids IH]; intros c seen Hn Hv Hc; cbn [foldl].
  - split; [done|]. split; [done|]. split; [done|]. cbn. set_solver.
  - assert (count_share r (c, seen) i = if bool_decide (valid_share r i ∧ i ∉ seen) then (wadd 8 c 1, i :: seen) else (c, seen)) as ->.
    { unfold count_share, valid_share. cbn [fst snd].
      destruct (Z.leb_spec 1 i), (Z.leb_spec i TOTAL_SHARES); cbn [andb];
        repeat case_bool_decide; cbn [negb]; try done; exfalso; naive_solver lia. }
    case_bool_decide as Hi.
    + destruct Hi as [Hi1 Hi2].
      assert (length (i :: seen) ≤ 100)%nat as Hle.
      { transitivity (length (seqZ 1 100)); [|by rewrite length_seqZ].
        apply submseteq_length, NoDup_submseteq; [by apply NoDup_cons|]. intros j Hj.
        apply elem_of_seqZ. apply elem_of_cons in Hj as [->|Hj]; [destruct Hi1; unfold TOTAL_SHARES in *; lia|].
        rewrite Forall_forall in Hv. destruct (Hv j Hj). unfold TOTAL_SHARES in *. lia. }
      destruct (IH (wadd 8 c 1) (i :: seen)) as (H1 & H2 & H3 & H4).
      * by apply NoDup_cons.
      * by constructor.
      * cbn [length] in *. rewrite wadd_small by lia. lia.
      * split; [done|]. split; [done|]. split; [done|]. intros j. rewrite H4, !elem_of_cons. naive_solver.
    + destruct (IH c seen Hn Hv Hc) as (H1 & H2 & H3 & H4). split; [done|]. split; [done|]. split; [done|].
      intros j. rewrite H4, elem_of_cons. destruct (decide (j ∈ seen)); naive_solver.
Qed.

(** A list of shares meets a threshold exactly when it names at least that many
    different allocated shares, however often and in whatever order it names them. *)
Lemma threshold_counts_distinct r ids threshold :
  shares_meet_threshold r ids threshold = true ↔
  threshold ≤ Z.of_nat (size (filter (valid_share r) (list_to_set ids : gset Z))).
Proof.
  destruct (count_share_spec r ids 0 [] NoDup_nil_2 (Forall_nil_2 _) eq_refl) as (H1 & _ & H3 & H4).
  unfold shares_meet_threshold. rewrite Z.leb_le, H3.
  assert (filter (valid_share r) (list_to_set ids : gset Z) = list_to_set (foldl (count_share r) (0, []) ids).2) as ->.
  { apply set_eq. intros i. rewrite elem_of_filter, !elem_of_list_to_set, H4. split; [naive_solver|].
    intros [[]%elem_of_nil|?]; naive_solver. }
  by rewrite size_list_to_set.
Qed.

(** * What a signature on a proposal covers *)

Definition proposal_fits (p : SyndicateProposal) : Prop :=
  fits 64 (sp_id p) ∧ Z.of_nat (length (sp_title p)) < 2 ^ 32 ∧ Z.of_nat (length (sp_description p)) < 2 ^ 32 ∧
  fits 32 (sp_proposer p) ∧ fits 64 (sp_proposed_at p) ∧ fits 64 (sp_deadline p).

Lemma to_le_inj n x y : fits (Z.of_nat n * 8) x → fits (Z.of_nat n * 8) y → to_le n x = to_le n y → x = y.
Proof. intros Hx Hy E. apply (f_equal from_le) in E. rewrite !from_le_to_le, !wrap_small in E; done. Qed.

(** A length-prefixed text is where it ends. *)
Lemma prefixed_inj (a b x y : bytes) :
  Z.of_nat (length a) < 2 ^ 32 → Z.of_nat (length b) < 2 ^ 32 →
  to_le 4 (wrap 32 (Z.of_nat (length a))) ++ a ++ x = to_le 4 (wrap 32 (Z.of_nat (length b))) ++ b ++ y → a = b ∧ x = y.
Proof.
  intros Ha Hb E. apply app_inj_1 in E as [El E]; [|by rewrite !length_to_le].
  apply to_le_inj in El; [|apply wrap_fits; lia..]. rewrite !wrap_small in El by (unfold fits; lia).
  apply app_inj_1 in E; [done|lia].
Qed.

(** What is hashed for signing a proposal tells apart everything about it but what it
    does: of the payload only its kind is hashed. Whoever signs a proposal to execute one
    plan has signed every plan under the same title. *)
Lemma proposal_hash_covers `{Sha256} `{!Inj (=) (=) sha256} p q :
  proposal_fits p → proposal_fits q →
  proposal_hash p = proposal_hash q ↔
  sp_id p = sp_id q ∧ sp_title p = sp_title q ∧ sp_description p = sp_description q ∧
  sp_proposer p = sp_proposer q ∧ sp_proposed_at p = sp_proposed_at q ∧ sp_deadline p = sp_deadline q ∧
  payload_type (sp_payload p) = payload_type (sp_payload q).
Proof.
  intros (P1 & P2 & P3 & P4 & P5 & P6) (Q1 & Q2 & Q3 & Q4 & Q5 & Q6). unfold proposal_hash. split.
  - intros E%(inj sha256). unfold proposal_preimage in E. apply app_inv_head in E.
    apply app_inj_1 in E as [E1%to_le_inj E]; [|done|done|by rewrite !length_to_le].
    apply prefixed_inj in E as [E2 E]; [|done|done]. apply prefixed_inj in E as [E3 E]; [|done|done].
    apply app_inj_1 in E as [E4%to_le_inj E]; [|done|done|by rewrite !length_to_le].
    apply app_inj_1 in E as [E5%to_le_inj E]; [|done|done|by rewrite !length_to_le].
    apply app_inj_1 in E as [E6%to_le_inj E]; [|done|done|by rewrite !length_to_le].
    injection E as E. apply (f_equal b2z) in E. rewrite !b2z_z2b in E.
    repeat split; try done. by destruct (sp_payload p), (sp_payload q).
  - intros (E1 & E2 & E3 & E4 & E5 & E6 & E7). unfold proposal_preimage. by rewrite E1, E2, E3, E4, E5, E6, E7.
Qed.

Lemma proposal_hash_covers_witness :
  let p plan := mkSyndicateProposal 7 (ascii "pay") (ascii "the rent") (ProposalPayload.Action plan) 1 10 20 in
  proposal_hash (H := spelled) (p (ascii "pay the landlord")) = proposal_hash (H := spelled) (p (ascii "pay me")) ∧
  proposal_hash (H := spelled) (p (ascii "pay me")) ≠
    proposal_hash (H := spelled) (mkSyndicateProposal 7 (ascii "pay") (ascii "a loan") (ProposalPayload.Action []) 1 10 20).
Proof.
  intros p. assert (∀ plan, proposal_fits (p plan)) as Hp by (intros plan; repeat split; vm_compute; congruence).
  split.
  - apply (@proposal_hash_covers spelled spell_inj _ _ (Hp _) (Hp _)). by repeat split.
  - intros E. apply (@proposal_hash_covers spelled spell_inj _ _ (Hp _)) in E; [|repeat split; vm_compute; congruence].
    destruct E as (_ & _ & E & _). vm_compute in E. congruence.
Defined.
