(* ===== verification/LendTypes.v ===== *)
(** The lending pool of the chain, [crates/zeratul-blockchain/src/lending/types.rs]: amounts,
    ratios and prices over [u128], interest, pools, risk limits and the health of a position.

    A function of the code that returns a plain value and can panic ([expect], a division by
    zero) is an [option] here, [None] the panic; one that returns an [Option] is that [Option]
    and does not panic.  Asset identifiers are numbers in the order of their bytes. *)
From stdpp Require Import base list gmap.
From Stdlib Require Import ZArith Lia.
From S2P Require Import Prelude OrdMap.

Local Open Scope Z_scope.

(** * Checked arithmetic of [u128] *)

Definition checked_add (a b : Z) : option Z := if a + b <? 2 ^ 128 then Some (a + b) else None.
Definition checked_sub (a b : Z) : option Z := if b <=? a then Some (a - b) else None.
Definition checked_mul (a b : Z) : option Z := if a * b <? 2 ^ 128 then Some (a * b) else None.
Definition checked_div (a b : Z) : option Z := if b =? 0 then None else Some (a / b).

(** [match o { Some(x) => x, None => return .. }] *)
Notation "'try!' x ':=' o 'else' bad 'in' k" := (match o with Some x => k | None => bad end)
  (at level 10, x name, o at level 200, bad at level 200, k at level 200) : rust_scope.

(** * Ratios and prices *)

Record Ratio := mkRatio { num : Z; den : Z }.

Definition Ratio_ZERO : Ratio := mkRatio 0 1.
Definition Ratio_ONE : Ratio := mkRatio 1 1.
Definition from_percent (percent : Z) : Ratio := mkRatio percent 100.
Definition from_bps (bps : Z) : Ratio := mkRatio bps 10000.

Definition ratio_checked_add (a b : Ratio) : option Ratio :=
  common_denom ← checked_mul (den a) (den b);
  a_num ← checked_mul (num a) (den b);
  b_num ← checked_mul (num b) (den a);
  total ← checked_add a_num b_num;
  Some (mkRatio total common_denom).

Definition ratio_lt (a b : Ratio) : bool := wmul 128 (num a) (den b) <? wmul 128 (num b) (den a).
Definition ratio_ge (a b : Ratio) : bool := wmul 128 (num b) (den a) <=? wmul 128 (num a) (den b).

Record Price := mkPrice { p_num : Z; p_den : Z }.

Definition Price_ONE : Price := mkPrice 1 1.

Definition from_parts (whole frac_num frac_denom : Z) : option Price :=
  w ← checked_mul whole frac_denom;
  n ← checked_add w frac_num;
  Some (mkPrice n frac_denom).

Definition from_ratio (r : Ratio) : Price := mkPrice (num r) (den r).

Definition checked_mul_amount (p : Price) (amount : Z) : option Z :=
  v ← checked_mul amount (p_num p); checked_div v (p_den p).

Definition apply_slippage (p : Price) (slippage_percent : Z) (positive : bool) : option Price :=
  let factor := if positive then 100 + slippage_percent else sat_sub 100 slippage_percent in
  n ← checked_mul (p_num p) factor;
  d ← checked_mul (p_den p) 100;
  Some (mkPrice n d).

(** In basis points of [other]. *)
Definition percent_diff (p other : Price) : option Z :=
  self_scaled ← checked_mul (p_num p) (p_den other);
  other_scaled ← checked_mul (p_num other) (p_den p);
  let diff := if other_scaled <? self_scaled then self_scaled - other_scaled else other_scaled - self_scaled in
  m ← checked_mul diff 10000;
  Some (default (umax 128) (checked_div m other_scaled)).

Definition price_lt (p other : Price) : option bool :=
  a ← checked_mul (p_num p) (p_den other);
  b ← checked_mul (p_num other) (p_den p);
  Some (a <? b).

Definition price_gt (p other : Price) : option bool := price_lt other p.

(** The loop of [normalize]; two iterations halve [b]. *)
Fixpoint gcd (fuel : nat) (a b : Z) : option Z :=
  match fuel with
  | O => None
  | S fuel => if b =? 0 then Some a else gcd fuel b (a mod b)
  end.

Definition gcd_fuel : nat := 257.

Definition normalize (p : Price) : option Price :=
  divisor ← gcd gcd_fuel (p_num p) (p_den p);
  n ← checked_div (p_num p) divisor;
  d ← checked_div (p_den p) divisor;
  Some (mkPrice n d).

Definition price_cmp (p other : Price) : comparison :=
  sat_mul 128 (p_num p) (p_den other) ?= sat_mul 128 (p_num other) (p_den p).

Definition is_less_than_percent (p : Price) (threshold_percent : Z) : bool :=
  sat_mul 128 (p_num p) 100 <? sat_mul 128 threshold_percent (p_den p).

(** * Pools *)

Definition BLOCKS_PER_YEAR : Z := 5256000.

(** [InterestRate::calculate_interest] of a rate in basis points. *)
Definition calculate_interest (bps principal blocks : Z) : option Z :=
  v ← checked_mul (wmul 128 bps principal) blocks;
  Some (v / (10000 * BLOCKS_PER_YEAR)).

Record PoolParams := mkPoolParams {
  base_rate : Z;
  optimal_utilization : Ratio;
  optimal_rate : Z;
  max_rate : Z;
  reserve_factor : Z;
  collateral_factor : Ratio;
  liquidation_threshold : Ratio;
  liquidation_penalty : Ratio;
}.

Definition params_default : PoolParams :=
  mkPoolParams 200 (from_percent 80) 1000 5000 1000 (from_percent 75) (from_percent 80) (from_percent 5).

Record PoolState := mkPoolState {
  asset_id : Z;
  total_supplied : Z;
  total_borrowed : Z;
  last_update_block : Z;
  params : PoolParams;
}.
#[export] Instance PoolState_eta : Eta PoolState := fun s =>
  mkPoolState (asset_id s) (total_supplied s) (total_borrowed s) (last_update_block s) (params s).

Definition utilization (s : PoolState) : Ratio :=
  if total_supplied s =? 0 then Ratio_ZERO else mkRatio (total_borrowed s) (total_supplied s).

Definition borrow_rate (s : PoolState) : option Z :=
  let util := utilization s in
  let optimal := optimal_utilization (params s) in
  if ratio_lt util optimal then
    slope ← checked_div (wmul 128 (num util) (optimal_rate (params s))) (wmul 128 (den util) (num optimal));
    Some (wadd 128 (base_rate (params s)) slope)
  else
    let excess_util := wsub 128 (num util) (num optimal) in
    excess ← checked_div (wmul 128 excess_util (max_rate (params s))) (wsub 128 1 (num optimal));
    Some (wadd 128 (optimal_rate (params s)) excess).

Definition supply_rate (s : PoolState) : option Z :=
  rate ← borrow_rate s;
  let util := utilization s in
  let after_reserves := wmul 128 rate (wsub 128 10000 (reserve_factor (params s))) in
  checked_div (wmul 128 (num util) after_reserves) (wmul 128 (den util) 10000).

Definition accrue_interest (s : PoolState) (current_block : Z) : option PoolState :=
  let blocks_elapsed := sat_sub current_block (last_update_block s) in
  if blocks_elapsed =? 0 then Some s
  else
    rate ← borrow_rate s;
    interest ← calculate_interest rate (total_borrowed s) blocks_elapsed;
    total ← checked_add (total_borrowed s) interest;
    Some (s <| total_borrowed := total |> <| last_update_block := current_block |>).

Record LendingPool := mkLendingPool { pools : gmap Z PoolState; reserves : gmap Z Z }.
#[export] Instance LendingPool_eta : Eta LendingPool := fun l => mkLendingPool (pools l) (reserves l).

Definition lending_pool_new : LendingPool := mkLendingPool ∅ ∅.

Definition add_pool (l : LendingPool) (asset : Z) (ps : PoolParams) : LendingPool :=
  l <| pools := <[asset := mkPoolState asset 0 0 0 ps]> (pools l) |> <| reserves := <[asset := 0]> (reserves l) |>.

Definition get_pool (l : LendingPool) (asset : Z) : option PoolState := pools l !! asset.

Definition accrue_all (l : LendingPool) (current_block : Z) : option LendingPool :=
  m ← foldl (fun acc kv => m ← acc; s ← accrue_interest kv.2 current_block; Some (<[kv.1 := s]> m))
        (Some (pools l)) (entries (pools l));
  Some (l <| pools := m |>).

Definition get_tvl (l : LendingPool) (asset : Z) : Z := default 0 (total_supplied <$> pools l !! asset).
Definition get_total_borrowed (l : LendingPool) (asset : Z) : Z := default 0 (total_borrowed <$> pools l !! asset).

(** * Risk limits *)

Record LeverageTier := mkLeverageTier { max_leverage : Z; max_size_tvl_percent : Z }.

Record RiskManagementConfig := mkRiskManagementConfig {
  max_position_tvl_percent : Z;
  max_notional_per_user : Z;
  leverage_tiers : list LeverageTier;
  circuit_breaker_liquidation_threshold_percent : Z;
  circuit_breaker_cooldown_blocks : Z;
  max_borrow_utilization_percent : Z;
}.

Definition risk_default : RiskManagementConfig :=
  mkRiskManagementConfig 10 1000000000000
    [mkLeverageTier 2 10; mkLeverageTier 5 5; mkLeverageTier 10 2; mkLeverageTier 20 1] 20 10 80.

Inductive RiskError :=
| SizeOverflow
| PositionTooLarge (size max : Z)
| BorrowOverflow
| UtilizationOverflow
| UtilizationLimit (percent : Z).

(** The first tier that covers the leverage, else the last one. *)
Definition get_max_size_for_leverage (c : RiskManagementConfig) (leverage : Z) : Z :=
  match find_first (fun t => leverage <=? max_leverage t) (leverage_tiers c) with
  | Some t => max_size_tvl_percent t
  | None => default 1 (max_size_tvl_percent <$> last (leverage_tiers c))
  end.

Definition validate_position_size (c : RiskManagementConfig) (position_size leverage pool_tvl : Z)
  : result unit RiskError :=
  try! v := checked_mul pool_tvl (get_max_size_for_leverage c leverage) else Err SizeOverflow in
  if v / 100 <? position_size then Err (PositionTooLarge position_size (v / 100)) else Ok tt.

Definition validate_borrow_utilization (c : RiskManagementConfig) (new_borrow supplied borrowed : Z)
  : result unit RiskError :=
  try! total := checked_add borrowed new_borrow else Err BorrowOverflow in
  try! percent := (if 0 <? supplied then v ← checked_mul total 100; checked_div v supplied else Some 100)
    else Err UtilizationOverflow in
  if max_borrow_utilization_percent c <? percent then Err (UtilizationLimit percent) else Ok tt.

Definition should_trigger_circuit_breaker (c : RiskManagementConfig) (num_liquidated total_positions : Z) : bool :=
  if total_positions =? 0 then false
  else circuit_breaker_liquidation_threshold_percent c <? wmul 32 num_liquidated 100 / total_positions.

(** * Positions *)

Record Position := mkPosition {
  owner : Z;
  collateral : gmap Z Z;
  debt : gmap Z Z;
  pos_update_block : Z;
}.
#[export] Instance Position_eta : Eta Position := fun p =>
  mkPosition (owner p) (collateral p) (debt p) (pos_update_block p).

Definition position_new (owner : Z) : Position := mkPosition owner ∅ ∅ 0.

(** The value of collateral after its factor. *)
Fixpoint collateral_value (l : LendingPool) (prices : gmap Z Z) (es : list (Z * Z)) (total : Z) : option Z :=
  match es with
  | [] => Some total
  | (asset, amount) :: es =>
      price ← prices !! asset;
      s ← get_pool l asset;
      value ← checked_mul amount price;
      weighted ← checked_mul value (num (collateral_factor (params s)));
      adjusted ← checked_div weighted (den (collateral_factor (params s)));
      total ← checked_add total adjusted;
      collateral_value l prices es total
  end.

Fixpoint debt_value (prices : gmap Z Z) (es : list (Z * Z)) (total : Z) : option Z :=
  match es with
  | [] => Some total
  | (asset, amount) :: es =>
      price ← prices !! asset;
      value ← checked_mul amount price;
      total ← checked_add total value;
      debt_value prices es total
  end.

Definition health_factor (p : Position) (l : LendingPool) (prices : gmap Z Z) : option Ratio :=
  collateral ← collateral_value l prices (entries (collateral p)) 0;
  owed ← debt_value prices (entries (debt p)) 0;
  if owed =? 0 then Some (mkRatio (umax 128) 1) else Some (mkRatio collateral owed).

Definition is_liquidatable (p : Position) (l : LendingPool) (prices : gmap Z Z) : bool :=
  match health_factor p l prices with Some health => ratio_lt health Ratio_ONE | None => false end.

(** * Checked arithmetic *)

Lemma checked_add_Some a b x : checked_add a b = Some x ↔ x = a + b ∧ a + b < 2 ^ 128.
Proof. unfold checked_add. case_match eqn:E; [apply Z.ltb_lt in E|apply Z.ltb_ge in E]; naive_solver lia. Qed.

Lemma checked_sub_Some a b x : checked_sub a b = Some x ↔ x = a - b ∧ b ≤ a.
Proof. unfold checked_sub. case_match eqn:E; [apply Z.leb_le in E|apply Z.leb_gt in E]; naive_solver lia. Qed.

Lemma checked_mul_Some a b x : checked_mul a b = Some x ↔ x = a * b ∧ a * b < 2 ^ 128.
Proof. unfold checked_mul. case_match eqn:E; [apply Z.ltb_lt in E|apply Z.ltb_ge in E]; naive_solver lia. Qed.

Lemma checked_div_Some a b x : checked_div a b = Some x ↔ x = a / b ∧ b ≠ 0.
Proof. unfold checked_div. case_match eqn:E; [apply Z.eqb_eq in E|apply Z.eqb_neq in E]; naive_solver. Qed.

(** Turns what checked operations returned into equations. *)
Ltac checked :=
  repeat match goal with
  | H : checked_add _ _ = Some _ |- _ => apply checked_add_Some in H as [-> ?]
  | H : checked_sub _ _ = Some _ |- _ => apply checked_sub_Some in H as [-> ?]
  | H : checked_mul _ _ = Some _ |- _ => apply checked_mul_Some in H as [-> ?]
  | H : checked_div _ _ = Some _ |- _ => apply checked_div_Some in H as [-> ?]
  | H : (_ ← ?o; _) = Some _ |- _ => apply bind_Some in H as (? & ? & ?)
  | H : Some _ = Some _ |- _ => injection H as <-
  end.

(** * The loop of [normalize] *)

Lemma mod_halves b c : 0 < c ≤ b → 2 * (b mod c) < b.
Proof.
  intros Hc. pose proof (Z.mod_pos_bound b c ltac:(lia)). destruct (Z_le_gt_dec (2 * c) b); [lia|].
  assert (1 ≤ b / c) by (apply Z.div_le_lower_bound; lia).
  pose proof (Z.div_mod b c ltac:(lia)). nia.
Qed.

Lemma gcd_enough k : ∀ a b, 0 ≤ a → 0 ≤ b < 2 ^ Z.of_nat k → gcd (2 * k + 1) a b = Some (Z.gcd a b).
Proof.
  induction k as [|k IH]; intros a b Ha Hb.
  - assert (b = 0) as -> by (change (2 ^ Z.of_nat 0) with 1 in Hb; lia). cbn. by rewrite Z.gcd_0_r_nonneg.
  - replace (2 * S k + 1)%nat with (S (S (2 * k + 1))) by lia. cbn [gcd].
    destruct (Z.eqb_spec b 0) as [->|Hb0]; [by rewrite Z.gcd_0_r_nonneg|].
    pose proof (Z.mod_pos_bound a b ltac:(lia)).
    rewrite (Z.gcd_comm a b), <-(Z.gcd_mod a b), (Z.gcd_comm (a mod b) b) by lia.
    destruct (Z.eqb_spec (a mod b) 0) as [->|Hc0]; [by rewrite Z.gcd_0_r_nonneg by lia|].
    pose proof (mod_halves b (a mod b) ltac:(lia)). pose proof (Z.mod_pos_bound b (a mod b) ltac:(lia)).
    rewrite IH; [|lia|].
    + by rewrite Z.gcd_comm, Z.gcd_mod, Z.gcd_comm by lia.
    + split; [lia|]. rewrite Nat2Z.inj_succ, Z.pow_succ_r in Hb by lia. lia.
Qed.

(** [normalize] ends on every price of [u128]s and gives its reduced fraction; it panics only
    on 0/0. *)
Lemma normalize_spec p :
  0 ≤ p_num p → fits 128 (p_den p) → 0 < p_num p ∨ 0 < p_den p →
  let g := Z.gcd (p_num p) (p_den p) in
  0 < g ∧ normalize p = Some (mkPrice (p_num p / g) (p_den p / g)) ∧
  p_num p = g * (p_num p / g) ∧ p_den p = g * (p_den p / g).
Proof.
  intros Hn Hd Hz g. assert (0 < g) as Hg.
  { pose proof (Z.gcd_nonneg (p_num p) (p_den p)). destruct (Z.eq_dec g 0) as [E|]; [|lia].
    apply Z.gcd_eq_0 in E. lia. }
  split; [done|]. split.
  - unfold normalize. change gcd_fuel with (2 * 128 + 1)%nat. rewrite (gcd_enough 128 _ _ Hn Hd). cbn [mbind option_bind].
    unfold checked_div. fold g. by destruct (Z.eqb_spec g 0); [lia|].
  - pose proof (Z.gcd_divide_l (p_num p) (p_den p)) as [x Hx]. pose proof (Z.gcd_divide_r (p_num p) (p_den p)) as [y Hy].
    fold g in Hx, Hy. rewrite Hx, Hy, !Z.div_mul by lia. lia.
Qed.

(** * Interest *)

(** With the default parameters the rate is two percent and less than a tenth of a percent
    more below 80 % utilization, and ten percent from there on, whatever the utilization:
    neither of the two slopes of the curve is there. *)
Lemma default_rate_flat s :
  params s = params_default → fits 112 (total_supplied s) → 0 < total_supplied s → fits 112 (total_borrowed s) →
  borrow_rate s =
    Some (if 100 * total_borrowed s <? 80 * total_supplied s
          then 200 + total_borrowed s * 1000 / (total_supplied s * 80) else 1000).
Proof.
  intros Ep [Hs1 Hs2] Hs [Hb1 Hb2]. unfold borrow_rate, utilization. rewrite Ep.
  destruct (Z.eqb_spec (total_supplied s) 0); [lia|].
  unfold ratio_lt. cbn [optimal_utilization params_default from_percent num den optimal_rate base_rate max_rate].
  rewrite !(wmul_small 128 _ 100), !(wmul_small 128 80), Z.mul_comm by lia.
  destruct (Z.ltb_spec (100 * total_borrowed s) (80 * total_supplied s)).
  - rewrite !wmul_small by lia. unfold checked_div.
    destruct (Z.eqb_spec (total_supplied s * 80) 0); [lia|]. cbn.
    assert (0 ≤ total_borrowed s * 1000 / (total_supplied s * 80) < 10).
    { split; [apply Z.div_pos; lia|apply Z.div_lt_upper_bound; lia]. }
    by rewrite wadd_small by lia.
  - change (wsub 128 1 80) with (2 ^ 128 - 79).
    assert (0 ≤ wmul 128 (wsub 128 (total_borrowed s) 80) 5000 < 2 ^ 128 - 79) as Hw.
    { unfold wmul, wsub, wrap. rewrite Z.mul_mod_idemp_l by lia.
      destruct (Z_le_gt_dec 80 (total_borrowed s)).
      - rewrite Z.mod_small by lia. lia.
      - rewrite <-(Z.mod_unique ((total_borrowed s - 80) * 5000) (2 ^ 128) (-1) ((total_borrowed s - 80) * 5000 + 2 ^ 128)); lia. }
    unfold checked_div. cbn [Z.eqb]. cbn. by rewrite Z.div_small by done.
Qed.
