(* ===== verification/LendActions.v ===== *)
(** The actions on a lending pool, [crates/zeratul-blockchain/src/lending/actions.rs]: supply,
    withdraw, borrow, repay, and collateral in and out.

    An action changes the pool and the position it is handed as it goes, so it gives them back
    also when it fails. *)
From stdpp Require Import base list gmap.
From Stdlib Require Import ZArith Lia.
From S2P Require Import Prelude OrdMap LendTypes.

Local Open Scope Z_scope.

Inductive ActionError :=
| Panic
| SupplyOverflow
| OverBorrowed
| InsufficientLiquidity
| InsufficientSupply
| DebtOverflow
| NoHealthFactor
| Undercollateralized
| PoolOverflow
| NoDebt
| RepayUnderflow
| PoolUnderflow
| CollateralOverflow
| NoCollateral
| InsufficientCollateral
| CollateralUnderflow.

Inductive LendingEvent :=
| Supplied (user asset amount : Z)
| Withdrawn (user asset amount : Z)
| Borrowed (user asset amount : Z)
| Repaid (user asset amount : Z)
| CollateralAdded (user asset amount : Z)
| CollateralRemoved (user asset amount : Z).

Abbreviation outcome := (result LendingEvent ActionError).

Definition execute_supply (pool : PoolState) (user amount current_block : Z) : PoolState * outcome :=
  try! pool' := accrue_interest pool current_block else (pool, Err Panic) in
  try! supplied := checked_add (total_supplied pool') amount else (pool', Err SupplyOverflow) in
  ((pool') <| total_supplied := supplied |>, Ok (Supplied user (asset_id pool') amount)).

Definition execute_withdraw (pool : PoolState) (user amount current_block : Z) : PoolState * outcome :=
  try! pool' := accrue_interest pool current_block else (pool, Err Panic) in
  try! available := checked_sub (total_supplied pool') (total_borrowed pool') else (pool', Err OverBorrowed) in
  if available <? amount then (pool', Err InsufficientLiquidity)
  else
    try! supplied := checked_sub (total_supplied pool') amount else (pool', Err InsufficientSupply) in
    ((pool') <| total_supplied := supplied |>, Ok (Withdrawn user (asset_id pool') amount)).

Definition execute_borrow (pool : PoolState) (position : Position) (asset amount current_block : Z)
    (oracle_prices : gmap Z Z) (lending_pool : LendingPool) : PoolState * Position * outcome :=
  try! pool' := accrue_interest pool current_block else (pool, position, Err Panic) in
  try! available := checked_sub (total_supplied pool') (total_borrowed pool')
    else (pool', position, Err OverBorrowed) in
  if available <? amount then (pool', position, Err InsufficientLiquidity)
  else
    try! new_debt := checked_add (default 0 (debt position !! asset)) amount
      else (pool', position, Err DebtOverflow) in
    let position' := position <| debt := <[asset := new_debt]> (debt position) |>
                              <| pos_update_block := current_block |> in
    try! health := health_factor position' lending_pool oracle_prices
      else (pool', position', Err NoHealthFactor) in
    if ratio_lt health Ratio_ONE then (pool', position', Err Undercollateralized)
    else
      try! borrowed := checked_add (total_borrowed pool') amount else (pool', position', Err PoolOverflow) in
      ((pool') <| total_borrowed := borrowed |>, position', Ok (Borrowed (owner position') asset amount)).

Definition execute_repay (pool : PoolState) (position : Position) (asset amount current_block : Z)
  : PoolState * Position * outcome :=
  try! pool' := accrue_interest pool current_block else (pool, position, Err Panic) in
  try! current_debt := debt position !! asset else (pool', position, Err NoDebt) in
  let repay_amount := if current_debt <? amount then current_debt else amount in
  try! new_debt := checked_sub current_debt repay_amount else (pool', position, Err RepayUnderflow) in
  let position' := position <| debt := if new_debt =? 0 then delete asset (debt position)
                                       else <[asset := new_debt]> (debt position) |>
                            <| pos_update_block := current_block |> in
  try! borrowed := checked_sub (total_borrowed pool') repay_amount else (pool', position', Err PoolUnderflow) in
  ((pool') <| total_borrowed := borrowed |>, position', Ok (Repaid (owner position') asset repay_amount)).

Definition execute_add_collateral (position : Position) (asset amount current_block : Z) : Position * outcome :=
  try! new_collateral := checked_add (default 0 (collateral position !! asset)) amount
    else (position, Err CollateralOverflow) in
  (position <| collateral := <[asset := new_collateral]> (collateral position) |>
            <| pos_update_block := current_block |>,
   Ok (CollateralAdded (owner position) asset amount)).

Definition execute_remove_collateral (position : Position) (asset amount current_block : Z)
    (oracle_prices : gmap Z Z) (lending_pool : LendingPool) : Position * outcome :=
  try! current_collateral := collateral position !! asset else (position, Err NoCollateral) in
  if current_collateral <? amount then (position, Err InsufficientCollateral)
  else
    try! new_collateral := checked_sub current_collateral amount else (position, Err CollateralUnderflow) in
    let position' := position <| collateral := if new_collateral =? 0 then delete asset (collateral position)
                                               else <[asset := new_collateral]> (collateral position) |> in
    try! health := health_factor position' lending_pool oracle_prices else (position', Err NoHealthFactor) in
    if ratio_lt health Ratio_ONE then
      ((position') <| collateral := <[asset := current_collateral]> (collateral position') |>,
       Err Undercollateralized)
    else ((position') <| pos_update_block := current_block |>,
          Ok (CollateralRemoved (owner position') asset amount)).

