(* ===== verification/LendSafe.v ===== *)
(** What the lending pool keeps: positions stay covered by their collateral, and the books of a
    pool, on which interest is charged but never repaid. *)
From stdpp Require Import base list gmap.
From Stdlib Require Import ZArith Lia.
From S2P Require Import Prelude OrdMap LendTypes LendActions.

Local Open Scope Z_scope.

(** * What a position is worth *)

(** The value of an entry of collateral after its factor, and of an entry of debt. *)
Definition weighed (l : LendingPool) (prices : gmap Z Z) (asset amount : Z) : Z :=
  match prices !! asset, get_pool l asset with
  | Some price, Some s =>
      amount * price * num (collateral_factor (params s)) / den (collateral_factor (params s))
  | _, _ => 0
  end.
Definition priced (prices : gmap Z Z) (asset amount : Z) : Z := amount * default 0 (prices !! asset).
Arguments weighed : simpl never.
Arguments priced : simpl never.

Lemma collateral_value_Some l prices es : ∀ total t,
  collateral_value l prices es total = Some t →
  t = total + zsum (map (fun kv => weighed l prices kv.1 kv.2) es) ∧ (es ≠ [] → t < 2 ^ 128).
Proof.
  induction es as [|[a x] es IH]; intros total t H; cbn in H.
  - injection H as ->. cbn. split; [lia|done].
  - checked. match goal with H : collateral_value _ _ _ _ = _ |- _ => apply IH in H as (-> & Hlt) end.
    assert (weighed l prices a x = x * x0 * num (collateral_factor (params x1)) / den (collateral_factor (params x1))) as E.
    { unfold weighed. repeat match goal with H : _ = Some _ |- _ => rewrite H end. done. }
    cbn [map zsum foldr fst snd]. rewrite E.
    split; [lia|]. intros _. destruct es; [cbn in *; lia|]. by apply Hlt.
Qed.

Lemma debt_value_Some prices es : ∀ total t,
  debt_value prices es total = Some t →
  t = total + zsum (map (fun kv => priced prices kv.1 kv.2) es) ∧ (es ≠ [] → t < 2 ^ 128) ∧
  Forall (fun kv => is_Some (prices !! kv.1)) es.
Proof.
  induction es as [|[a x] es IH]; intros total t H; cbn in H.
  - injection H as ->. cbn. split; [lia|done].
  - checked. match goal with H : debt_value _ _ _ = _ |- _ => apply IH in H as (-> & Hlt & Hf) end.
    assert (priced prices a x = x * x0) as E.
    { unfold priced. repeat match goal with H : _ = Some _ |- _ => rewrite H end. done. }
    cbn [map zsum foldr fst snd]. rewrite E.
    split; [lia|]. split; [|constructor; cbn; eauto].
    intros _. destruct es; [cbn in *; lia|]. by apply Hlt.
Qed.

Definition u128_map (m : gmap Z Z) : Prop := map_Forall (fun _ x => fits 128 x) m.
Definition factors_ok (l : LendingPool) : Prop :=
  ∀ a s, get_pool l a = Some s → 0 ≤ num (collateral_factor (params s)) ∧ 0 < den (collateral_factor (params s)).
Definition position_fits (p : Position) : Prop := u128_map (collateral p) ∧ u128_map (debt p).

(** All debts have a price and are worth no more than the weighed collateral. *)
Definition covered (l : LendingPool) (prices : gmap Z Z) (p : Position) : Prop :=
  (∀ a, is_Some (debt p !! a) → is_Some (prices !! a)) ∧
  msum (priced prices) (debt p) ≤ msum (weighed l prices) (collateral p).

Section covered.
Context (l : LendingPool) (prices : gmap Z Z).
Context (Hl : factors_ok l) (Hp : u128_map prices).

Lemma weighed_nonneg a x : 0 ≤ x → 0 ≤ weighed l prices a x.
Proof using Hl Hp.
  intros Hx. unfold weighed. destruct (prices !! a) as [y|] eqn:Ey; [|done].
  destruct (get_pool l a) as [s|] eqn:Es; [|done]. apply Hp in Ey as [? _]. apply Hl in Es as [? ?].
  apply Z.div_pos; [|done]. repeat apply Z.mul_nonneg_nonneg; done.
Qed.

Lemma weighed_mono a x y : 0 ≤ x ≤ y → weighed l prices a x ≤ weighed l prices a y.
Proof using Hl Hp.
  intros Hx. unfold weighed. destruct (prices !! a) as [z|] eqn:Ez; [|done].
  destruct (get_pool l a) as [s|] eqn:Es; [|done]. apply Hp in Ez as [? _]. apply Hl in Es as [? ?].
  destruct Hx. apply Z.div_le_mono; [done|]. by repeat apply Z.mul_le_mono_nonneg_r.
Qed.

Lemma priced_nonneg a x : 0 ≤ x → 0 ≤ priced prices a x.
Proof using Hp.
  intros Hx. unfold priced. destruct (prices !! a) as [z|] eqn:Ez; cbn; [|lia].
  apply Hp in Ez as [? _]. by apply Z.mul_nonneg_nonneg.
Qed.

Lemma priced_mono a x y : x ≤ y → priced prices a x ≤ priced prices a y.
Proof using Hp.
  intros Hx. unfold priced. destruct (prices !! a) as [z|] eqn:Ez; cbn; [|lia].
  apply Hp in Ez as [? _]. by apply Z.mul_le_mono_nonneg_r.
Qed.

(** A health factor that is not below one says that the position is covered. *)
Lemma healthy_covered p health :
  position_fits p → health_factor p l prices = Some health → ratio_lt health Ratio_ONE = false →
  covered l prices p.
Proof using Hl Hp.
  intros [Hc Hd] H Hlt. unfold health_factor in H.
  destruct (collateral_value _ _ _ _) as [c|] eqn:Ec; [|done]. apply collateral_value_Some in Ec as [Ec Hcb].
  cbn in H. destruct (debt_value _ _ _) as [d|] eqn:Ed; [|done]. apply debt_value_Some in Ed as (Ed & Hdb & Hf).
  cbn in H. rewrite Z.add_0_l in Ec, Ed.
  change (c = msum (weighed l prices) (collateral p)) in Ec. change (d = msum (priced prices) (debt p)) in Ed.
  assert (0 ≤ c). { rewrite Ec. apply msum_nonneg. intros k v Hk. apply weighed_nonneg. by apply Hc in Hk as [? _]. }
  assert (0 ≤ d). { rewrite Ed. apply msum_nonneg. intros k v Hk. apply priced_nonneg. by apply Hd in Hk as [? _]. }
  assert (c < 2 ^ 128). { destruct (entries (collateral p)) eqn:E; [|by apply Hcb]. rewrite Ec. unfold msum. by rewrite E. }
  assert (d < 2 ^ 128). { destruct (entries (debt p)) eqn:E; [|by apply Hdb]. rewrite Ed. unfold msum. by rewrite E. }
  split.
  - intros a [x Hx]. rewrite Forall_forall in Hf. apply (Hf (a, x)). by apply elem_of_entries.
  - rewrite <-Ec, <-Ed. destruct (Z.eqb_spec d 0); [lia|]. injection H as <-.
    unfold ratio_lt in Hlt. cbn in Hlt. rewrite !wmul_small in Hlt by lia. apply Z.ltb_ge in Hlt. lia.
Qed.

(** ** What successful actions do *)

Lemma execute_borrow_Ok pool p asset amount b pool' p' ev :
  execute_borrow pool p asset amount b prices l = (pool', p', Ok ev) →
  ∃ pool1 x, accrue_interest pool b = Some pool1 ∧ x = default 0 (debt p !! asset) + amount ∧ x < 2 ^ 128 ∧
    total_borrowed pool1 + amount ≤ total_supplied pool1 ∧
    pool' = (pool1) <| total_borrowed := total_borrowed pool1 + amount |> ∧
    p' = p <| debt := <[asset := x]> (debt p) |> <| pos_update_block := b |> ∧
    ∃ health, health_factor p' l prices = Some health ∧ ratio_lt health Ratio_ONE = false.
Proof.
  unfold execute_borrow. intros H. repeat case_match; simplify_eq. checked.
  match goal with H : (_ <? _) = false |- _ => apply Z.ltb_ge in H end. eexists _, _. split_and!; eauto; lia.
Qed.

Lemma execute_repay_Ok pool p asset amount b pool' p' ev :
  execute_repay pool p asset amount b = (pool', p', Ok ev) →
  ∃ pool1 x y, accrue_interest pool b = Some pool1 ∧ debt p !! asset = Some x ∧ y = Z.min x amount ∧
    y ≤ total_borrowed pool1 ∧ pool' = (pool1) <| total_borrowed := total_borrowed pool1 - y |> ∧
    p' = p <| debt := if x - y =? 0 then delete asset (debt p) else <[asset := x - y]> (debt p) |>
           <| pos_update_block := b |>.
Proof.
  unfold execute_repay. intros H. destruct (accrue_interest pool b) as [pool1|] eqn:E1; [|done].
  destruct (debt p !! asset) as [x|] eqn:E2; [|done].
  assert ((if x <? amount then x else amount) = Z.min x amount) as E by (destruct (Z.ltb_spec x amount); lia).
  rewrite E in H. unfold checked_sub in H at 1. destruct (Z.leb_spec (Z.min x amount) x); [|lia].
  destruct (checked_sub _ _) eqn:E3; [|done]. checked. injection H as <- <- <-. exists pool1, x, (Z.min x amount). by split_and!.
Qed.

Lemma execute_remove_Ok p asset amount b p' ev :
  execute_remove_collateral p asset amount b prices l = (p', Ok ev) →
  ∃ x, collateral p !! asset = Some x ∧ amount ≤ x ∧
    p' = p <| collateral := if x - amount =? 0 then delete asset (collateral p)
                            else <[asset := x - amount]> (collateral p) |> <| pos_update_block := b |> ∧
    ∃ health, health_factor p' l prices = Some health ∧ ratio_lt health Ratio_ONE = false.
Proof.
  unfold execute_remove_collateral. intros H. repeat case_match; simplify_eq; checked;
    match goal with H : (_ <? _) = false |- _ => apply Z.ltb_ge in H end; eexists; split_and!; eauto; by case_match.
Qed.

(** A successful action of the owner, on whatever pool. *)
Inductive owner_step (p : Position) : Position → Prop :=
| os_borrow pool asset amount b pool' p' ev :
    0 ≤ amount → execute_borrow pool p asset amount b prices l = (pool', p', Ok ev) → owner_step p p'
| os_repay pool asset amount b pool' p' ev :
    0 ≤ amount → execute_repay pool p asset amount b = (pool', p', Ok ev) → owner_step p p'
| os_add asset amount b p' ev :
    0 ≤ amount → execute_add_collateral p asset amount b = (p', Ok ev) → owner_step p p'
| os_remove asset amount b p' ev :
    0 ≤ amount → execute_remove_collateral p asset amount b prices l = (p', Ok ev) → owner_step p p'.

Lemma u128_insert m a x : u128_map m → fits 128 x → u128_map (<[a := x]> m).
Proof. intros. by apply map_Forall_insert_2. Qed.

Lemma u128_insert_or_delete m a x (c : bool) :
  u128_map m → fits 128 x → u128_map (if c then delete a m else <[a := x]> m).
Proof. destruct c; [intros; by apply map_Forall_delete|apply u128_insert]. Qed.

Lemma u128_default m a : u128_map m → fits 128 (default 0 (m !! a)).
Proof. intros H. destruct (m !! a) eqn:E; [by apply H in E|done]. Qed.

Lemma msum_repaid a x y (m : gmap Z Z) :
  u128_map m → m !! a = Some x → 0 ≤ y ≤ x →
  msum (priced prices) (if x - y =? 0 then delete a m else <[a := x - y]> m) ≤ msum (priced prices) m.
Proof using Hp.
  intros Hm Ha Hy. pose proof (priced_mono a (x - y) x ltac:(lia)). pose proof (priced_nonneg a x ltac:(lia)).
  destruct (_ =? 0); rewrite ?msum_delete, ?msum_insert; unfold at_key; rewrite Ha; lia.
Qed.

Lemma msum_pledged a y (m : gmap Z Z) :
  u128_map m → 0 ≤ y → msum (weighed l prices) m ≤ msum (weighed l prices) (<[a := default 0 (m !! a) + y]> m).
Proof using Hl Hp.
  intros Hm Hy. rewrite msum_insert. unfold at_key. destruct (u128_default m a Hm).
  destruct (m !! a) as [x|]; cbn in *.
  - pose proof (weighed_mono a x (x + y) ltac:(lia)). lia.
  - pose proof (weighed_nonneg a y ltac:(lia)). rewrite Z.add_0_l. lia.
Qed.

Lemma owner_step_covered p p' :
  position_fits p ∧ covered l prices p → owner_step p p' → position_fits p' ∧ covered l prices p'.
Proof using Hl Hp.
  intros [[Fc Fd] [Hk Hc]] [pool asset amount b pool' p1 ev Ha H|pool asset amount b pool' p1 ev Ha H
                            |asset amount b p1 ev Ha H|asset amount b p1 ev Ha H].
  - apply execute_borrow_Ok in H as (pool1 & x & _ & Ex & Hx & _ & _ & E & health & Hh & Hlt).
    destruct (u128_default _ asset Fd). assert (position_fits p1) by (subst p1; split; [done|apply u128_insert; [done|split; lia]]).
    split; [done|]. by eapply healthy_covered.
  - apply execute_repay_Ok in H as (pool1 & x & y & _ & Hx & Hy & _ & _ & ->).
    pose proof (Fd _ _ Hx) as [? ?]. split; [split; [done|apply u128_insert_or_delete; [done|split; lia]]|].
    split; cbn.
    + intros a. case_match.
      * rewrite lookup_delete_is_Some. naive_solver.
      * rewrite lookup_insert_is_Some. intros [<-|[_ ?]]; eauto.
    + etrans; [apply msum_repaid; [done..|lia]|done].
  - unfold execute_add_collateral in H. destruct (checked_add _ _) eqn:E; [|done]. checked. injection H as <- <-.
    destruct (u128_default _ asset Fc). split; [split; [apply u128_insert; [done|split; lia]|done]|].
    split; [done|]. cbn. etrans; [exact Hc|]. by apply msum_pledged.
  - apply execute_remove_Ok in H as (x & Hx & Hle & E & health & Hh & Hlt).
    pose proof (Fc _ _ Hx) as [? ?].
    assert (position_fits p1) by (subst p1; split; [apply u128_insert_or_delete; [done|split; lia]|done]).
    split; [done|]. by eapply healthy_covered.
Qed.

(** C9.  At prices that do not move, whatever a borrower does with success, every debt has a
    price and what is owed is worth no more than the collateral after its factors. *)
Theorem loans_stay_covered o p : rtc owner_step (position_new o) p → covered l prices p.
Proof using Hl Hp.
  intros Hr. assert (position_fits (position_new o) ∧ covered l prices (position_new o)) as H0.
  { split; [split; apply map_Forall_empty|]. split; [intros a [x Hx]; cbn in Hx; by rewrite lookup_empty in Hx|].
    cbn. by rewrite !msum_empty. }
  assert (position_fits p ∧ covered l prices p) as [_ ?]; [|done].
  induction Hr; [done|]. eauto using owner_step_covered.
Qed.
End covered.

(** A borrow that is refused for lack of collateral has already been written into the position:
    the debt stays, without the money. *)
Lemma refused_borrow_leaves_debt pool p asset amount b prices l pool' p' :
  execute_borrow pool p asset amount b prices l = (pool', p', Err Undercollateralized) →
  debt p' !! asset = Some (default 0 (debt p !! asset) + amount) ∧
  accrue_interest pool b = Some pool'.
Proof.
  unfold execute_borrow. intros H. repeat case_match; simplify_eq; checked. cbn. by rewrite lookup_insert_eq.
Qed.

(** * The books of a pool *)

Record Book := mkBook { deposited : Z; withdrawn : Z; interest : Z }.
#[export] Instance Book_eta : Eta Book := fun k => mkBook (deposited k) (withdrawn k) (interest k).

(** What accruing adds to the borrowed. *)
Definition accrued (pool : PoolState) (b : Z) : Z :=
  match accrue_interest pool b with Some pool' => total_borrowed pool' - total_borrowed pool | None => 0 end.

Definition owed_in (asset : Z) (ps : gmap Z Position) : Z := msum (fun _ p => default 0 (debt p !! asset)) ps.

(** The history of one pool and its borrowers, with successful actions and accruals. *)
Inductive book_step (l : LendingPool) (prices : gmap Z Z) :
  PoolState * gmap Z Position * Book → PoolState * gmap Z Position * Book → Prop :=
| bs_supply pool ps k user amount b pool' ev :
    0 ≤ amount → execute_supply pool user amount b = (pool', Ok ev) →
    book_step l prices (pool, ps, k)
      (pool', ps, mkBook (deposited k + amount) (withdrawn k) (interest k + accrued pool b))
| bs_withdraw pool ps k user amount b pool' ev :
    0 ≤ amount → execute_withdraw pool user amount b = (pool', Ok ev) →
    book_step l prices (pool, ps, k)
      (pool', ps, mkBook (deposited k) (withdrawn k + amount) (interest k + accrued pool b))
| bs_borrow pool ps k user amount b pool' p' ev :
    0 ≤ amount →
    execute_borrow pool (default (position_new user) (ps !! user)) (asset_id pool) amount b prices l = (pool', p', Ok ev) →
    book_step l prices (pool, ps, k)
      (pool', <[user := p']> ps, k <| interest := interest k + accrued pool b |>)
| bs_repay pool ps k user p amount b pool' p' ev :
    0 ≤ amount → ps !! user = Some p →
    execute_repay pool p (asset_id pool) amount b = (pool', p', Ok ev) →
    book_step l prices (pool, ps, k)
      (pool', <[user := p']> ps, k <| interest := interest k + accrued pool b |>)
| bs_add pool ps k user asset amount b p' ev :
    0 ≤ amount →
    execute_add_collateral (default (position_new user) (ps !! user)) asset amount b = (p', Ok ev) →
    book_step l prices (pool, ps, k) (pool, <[user := p']> ps, k)
| bs_remove pool ps k user p asset amount b p' ev :
    0 ≤ amount → ps !! user = Some p →
    execute_remove_collateral p asset amount b prices l = (p', Ok ev) →
    book_step l prices (pool, ps, k) (pool, <[user := p']> ps, k)
| bs_accrue pool ps k b pool' :
    accrue_interest pool b = Some pool' →
    book_step l prices (pool, ps, k) (pool', ps, k <| interest := interest k + accrued pool b |>).

(** The books agree. *)
Record balanced (pool : PoolState) (ps : gmap Z Position) (k : Book) : Prop := {
  ba_supplied : total_supplied pool = deposited k - withdrawn k;
  ba_borrowed : total_borrowed pool = owed_in (asset_id pool) ps + interest k;
  ba_interest : 0 ≤ interest k;
  ba_debts : ∀ u p a x, ps !! u = Some p → debt p !! a = Some x → 0 ≤ x;
}.

Lemma accrue_spec pool b pool' :
  accrue_interest pool b = Some pool' →
  0 ≤ accrued pool b ∧ total_borrowed pool' = total_borrowed pool + accrued pool b ∧
  total_supplied pool' = total_supplied pool ∧ asset_id pool' = asset_id pool.
Proof.
  intros H. unfold accrued. rewrite H. unfold accrue_interest in H. case_match; [injection H as <-; lia|].
  destruct (borrow_rate pool) as [r|]; [|done]. cbn in H.
  destruct (calculate_interest _ _ _) as [i|] eqn:Ei; [|done]. cbn in H. checked.
  unfold calculate_interest in Ei. checked. cbn.
  assert (0 ≤ wmul 128 r (total_borrowed pool) * sat_sub b (last_update_block pool) / (10000 * BLOCKS_PER_YEAR)); [|lia].
  apply Z.div_pos; [|done]. apply Z.mul_nonneg_nonneg; [|unfold sat_sub; lia]. by apply Z.mod_pos_bound.
Qed.

Lemma owed_insert asset ps u p : owed_in asset (<[u := p]> ps)
  = owed_in asset ps - default 0 (debt (default (position_new u) (ps !! u)) !! asset) + default 0 (debt p !! asset).
Proof. unfold owed_in. rewrite msum_insert. unfold at_key. by destruct (ps !! u). Qed.

Lemma owed_nonneg pool ps k asset : balanced pool ps k → 0 ≤ owed_in asset ps.
Proof.
  intros B. apply msum_nonneg. intros u p Hp. destruct (debt p !! asset) as [x|] eqn:E; [|done].
  by apply (ba_debts _ _ _ B u p asset).
Qed.

Lemma balanced_accrued pool ps k b pool' :
  balanced pool ps k → accrue_interest pool b = Some pool' →
  balanced pool' ps (k <| interest := interest k + accrued pool b |>) ∧ asset_id pool' = asset_id pool.
Proof.
  intros [B1 B2 B3 B4] (A1 & A2 & A3 & A4)%accrue_spec. split; [|done].
  split; cbn; rewrite ?A4; [lia|lia|lia|done].
Qed.

Lemma debts_insert (ps : gmap Z Position) user p' :
  (∀ u p a x, ps !! u = Some p → debt p !! a = Some x → 0 ≤ x) →
  (∀ a x, debt p' !! a = Some x → 0 ≤ x) →
  ∀ u p a x, <[user := p']> ps !! u = Some p → debt p !! a = Some x → 0 ≤ x.
Proof.
  intros Hps Hp u p a x. rewrite lookup_insert_Some. intros [[<- <-]|[_ Hu]]; [apply Hp|by apply Hps with u].
Qed.

Lemma balanced_same_debt pool ps k user p' :
  balanced pool ps k → debt p' = debt (default (position_new user) (ps !! user)) →
  balanced pool (<[user := p']> ps) k.
Proof.
  intros [B1 B2 B3 B4] E. split; [done| |done|].
  - rewrite owed_insert, E. lia.
  - apply debts_insert; [done|]. rewrite E. intros a x Hx.
    destruct (ps !! user) as [p|] eqn:Eu; cbn in Hx; [by eapply B4|by rewrite lookup_empty in Hx].
Qed.

Lemma book_step_balanced l prices pool ps k pool' ps' k' :
  balanced pool ps k → book_step l prices (pool, ps, k) (pool', ps', k') → balanced pool' ps' k'.
Proof.
  intros B H. inversion H; subst; clear H.
  - match goal with H : execute_supply _ _ _ _ = _ |- _ => unfold execute_supply in H; repeat case_match; simplify_eq; checked end.
    match goal with H : accrue_interest _ _ = _ |- _ => destruct (balanced_accrued _ _ _ _ _ B H) as [[] _] end.
    cbn in *. by split; cbn; try lia.
  - match goal with H : execute_withdraw _ _ _ _ = _ |- _ => unfold execute_withdraw in H; repeat case_match; simplify_eq; checked end.
    match goal with H : accrue_interest _ _ = _ |- _ => destruct (balanced_accrued _ _ _ _ _ B H) as [[] _] end.
    cbn in *. by split; cbn; try lia.
  - match goal with H : execute_borrow _ _ _ _ _ _ _ = _ |- _ =>
      apply execute_borrow_Ok in H as (pool1 & x & HA & Ex & _ & _ & -> & -> & _) end.
    destruct (balanced_accrued _ _ _ _ _ B HA) as [[B1 B2 B3 B4] Ea]. cbn in *.
    split; cbn; [done| |done|].
    + rewrite owed_insert. cbn. rewrite Ea in *. rewrite lookup_insert_eq. cbn. lia.
    + apply debts_insert; [done|]. cbn. intros a y. rewrite lookup_insert_Some. intros [[_ <-]|[_ Hy]].
      * destruct (ps !! user) as [p|] eqn:Eu; cbn in Ex; [|rewrite lookup_empty in Ex; cbn in Ex; lia].
        destruct (debt p !! asset_id pool) as [z|] eqn:Ez; cbn in Ex; [|lia]. specialize (B4 _ _ _ _ Eu Ez). lia.
      * destruct (ps !! user) as [p|] eqn:Eu; cbn in Hy; [by eapply B4|by rewrite lookup_empty in Hy].
  - match goal with H : execute_repay _ _ _ _ _ = _ |- _ =>
      apply execute_repay_Ok in H as (pool1 & x & y & HA & Hx & Hy & _ & -> & ->) end.
    destruct (balanced_accrued _ _ _ _ _ B HA) as [[B1 B2 B3 B4] Ea]. cbn in *.
    match goal with H : ps !! user = Some _ |- _ => rename H into Hu end. pose proof (B4 _ _ _ _ Hu Hx).
    split; cbn; [done| |done|].
    + rewrite owed_insert, Hu. cbn. rewrite Ea in *. rewrite Hx. cbn.
      destruct (Z.eqb_spec (x - y) 0); [rewrite lookup_delete_eq|rewrite lookup_insert_eq]; cbn; lia.
    + apply debts_insert; [done|]. cbn. intros a z. case_match.
      * rewrite lookup_delete_Some. intros [_ Hz]. by eapply B4.
      * rewrite lookup_insert_Some. intros [[_ <-]|[_ Hz]]; [lia|by eapply B4].
  - match goal with H : execute_add_collateral _ _ _ _ = _ |- _ =>
      unfold execute_add_collateral in H; repeat case_match; simplify_eq end.
    by eapply balanced_same_debt.
  - match goal with H : execute_remove_collateral _ _ _ _ _ _ = _ |- _ =>
      apply execute_remove_Ok in H as (x & _ & _ & -> & _) end.
    eapply balanced_same_debt; [done|]. by match goal with H : ps !! user = Some _ |- _ => rewrite H end.
  - by eapply balanced_accrued.
Qed.

Lemma book_reach l prices asset ps0 x :
  rtc (book_step l prices) (mkPoolState asset 0 0 0 ps0, ∅, mkBook 0 0 0) x → balanced x.1.1 x.1.2 x.2.
Proof.
  intros Hr. refine (rtc_ind_r (fun x => balanced x.1.1 x.1.2 x.2) _ _ _ x Hr).
  - split; cbn; [done| |done|by intros u p a y ?%lookup_empty_Some]. unfold owed_in. by rewrite msum_empty.
  - intros [[? ?] ?] [[? ?] ?] _ Hs IH. by eapply book_step_balanced.
Qed.

(** Over any history of a pool what is borrowed is the debts of the borrowers and all the
    interest that ever accrued: interest is charged to the pool and to no borrower, no
    repayment reduces it, and since a withdrawal needs what is supplied to exceed what is
    borrowed, the suppliers together get back at most their deposits less the interest and the debts. *)
Lemma interest_is_never_repaid l prices asset ps0 pool ps k :
  rtc (book_step l prices) (mkPoolState asset 0 0 0 ps0, ∅, mkBook 0 0 0) (pool, ps, k) →
  total_supplied pool = deposited k - withdrawn k ∧
  total_borrowed pool = owed_in (asset_id pool) ps + interest k ∧ 0 ≤ interest k ∧
  ∀ user amount b pool' ev, execute_withdraw pool user amount b = (pool', Ok ev) →
    withdrawn k + amount ≤ deposited k - interest k - owed_in (asset_id pool) ps.
Proof.
  intros B%book_reach. cbn in B.
  pose proof B as [B1 B2 B3 B4]. split_and!; [done..|]. intros user amount b pool' ev H.
  unfold execute_withdraw in H. repeat case_match; simplify_eq; checked.
  match goal with H : accrue_interest _ _ = _ |- _ => apply accrue_spec in H as (? & ? & ? & ?) end.
  match goal with H : (_ <? _) = false |- _ => apply Z.ltb_ge in H end. lia.
Qed.

(** * One pool *)

Definition one_pool : LendingPool := add_pool lending_pool_new 1 params_default.
Definition unit_prices : gmap Z Z := {[1 := 1]}.

Lemma one_pool_factors : factors_ok one_pool.
Proof.
  intros a s Hs. change (<[1 := mkPoolState 1 0 0 0 params_default]> (∅ : gmap Z PoolState) !! a = Some s) in Hs. apply lookup_insert_Some in Hs as [[_ <-]|[_ Hs]]; [done|].
  by rewrite lookup_empty in Hs.
Qed.

Lemma unit_prices_fit : u128_map unit_prices.
Proof. by apply map_Forall_singleton. Qed.

Definition with_collateral : Position := (execute_add_collateral (position_new 7) 1 1000000000000 0).1.
Definition supplied_pool : PoolState :=
  (execute_supply (mkPoolState 1 0 0 0 params_default) 8 1000000000000 0).1.
Definition lent : PoolState * Position * outcome :=
  execute_borrow supplied_pool with_collateral 1 500000000000 0 unit_prices one_pool.

Lemma loans_stay_covered_witness :
  covered one_pool unit_prices lent.1.2 ∧ debt lent.1.2 !! 1 = Some 500000000000.
Proof.
  split; [|vm_compute; reflexivity].
  apply (loans_stay_covered one_pool unit_prices one_pool_factors unit_prices_fit 7).
  apply rtc_l with with_collateral.
  - apply (os_add _ _ _ 1 1000000000000 0 _ (CollateralAdded 7 1 1000000000000)); [lia|vm_compute; reflexivity].
  - apply rtc_once.
    apply (os_borrow _ _ _ supplied_pool 1 500000000000 0 lent.1.1 _ (Borrowed 7 1 500000000000));
      [lia|vm_compute; reflexivity].
Defined.

Definition borrowers : gmap Z Position := <[7 := lent.1.2]> (<[7 := with_collateral]> ∅).

(** After a year ten billion of interest are on the books. *)
Definition after_a_year : PoolState := default lent.1.1 (accrue_interest lent.1.1 5256000).

Lemma interest_is_never_repaid_witness :
  total_borrowed after_a_year = owed_in 1 borrowers + 10300000000.
Proof.
  destruct (interest_is_never_repaid one_pool unit_prices 1 params_default after_a_year borrowers
              (mkBook 1000000000000 0 10300000000)) as (_ & H & _); [|exact H].
  apply rtc_l with (supplied_pool, ∅, mkBook 1000000000000 0 0).
  { apply (bs_supply _ _ (mkPoolState 1 0 0 0 params_default) ∅ (mkBook 0 0 0) 8 1000000000000 0 _
             (Supplied 8 1 1000000000000)); [lia|vm_compute; reflexivity]. }
  apply rtc_l with (supplied_pool, (<[7 := with_collateral]> ∅), mkBook 1000000000000 0 0).
  { apply (bs_add _ _ supplied_pool ∅ _ 7 1 1000000000000 0 with_collateral
             (CollateralAdded 7 1 1000000000000)); [lia|vm_compute; reflexivity]. }
  apply rtc_l with (lent.1.1, borrowers, mkBook 1000000000000 0 0).
  { apply (bs_borrow _ _ supplied_pool (<[7 := with_collateral]> ∅) (mkBook 1000000000000 0 0) 7 500000000000 0 _ _
             (Borrowed 7 1 500000000000)); [lia|vm_compute; reflexivity]. }
  apply rtc_once.
  apply (bs_accrue _ _ lent.1.1 borrowers (mkBook 1000000000000 0 0) 5256000). vm_compute; reflexivity.
Defined.
