(* ===== verification/Margin.v ===== *)
(** Batched margin trading, [crates/zeratul-blockchain/src/lending/margin.rs]: all orders of a
    pair in a block are executed at one price, which moves away from the oracle's with the
    imbalance between longs and shorts, and what they borrow comes from the lending pool.

    Executing changes the lending pool, the positions and the tally of what was borrowed as it
    goes, so they are given back also when it fails.  The collateral proof that an order
    carries is not read by this code and is left out; the text of a rejection is the two
    numbers it prints. *)
From stdpp Require Import base list gmap.
From Stdlib Require Import ZArith Lia.
From S2P Require Import Prelude OrdMap LendTypes.

Local Open Scope Z_scope.

Inductive Side := Long | Short.
#[export] Instance Side_dec : EqDecision Side.
Proof. solve_decision. Defined.

(** [Leverage::new] *)
Definition leverage_new (x : Z) : option Z := if bool_decide (x ∈ [2; 3; 5; 10; 20]) then Some x else None.

Record MarginOrder := mkMarginOrder {
  o_owner : Z;
  o_base : Z;
  o_quote : Z;
  o_side : Side;
  o_size : Z;
  o_leverage : Z;
  max_slippage_percent : Z;
  submitted_block : Z;
}.

Definition calculate_max_acceptable_price (o : MarginOrder) (oracle_price : Price) : option Price :=
  apply_slippage oracle_price (max_slippage_percent o) (bool_decide (o_side o = Long)).

Inductive MarginError :=
| PairMismatch
| LongOverflow
| ShortOverflow
| ImbalanceTooHigh
| BatchOverflow
| ValueOverflow
| BadLeverage
| BorrowedOverflow
| PoolNotFound
| PoolBorrowOverflow
| TrackingOverflow
| PositionDebtOverflow
| MarginPanic.

(** What is wrong with executing at the price, if anything: the slippage in basis points and
    its limit. *)
Definition validate_execution_price (o : MarginOrder) (execution_price oracle_price : Price) : option (option (Z * Z)) :=
  slippage_bps ← percent_diff execution_price oracle_price;
  let limit := wmul 128 (max_slippage_percent o) 100 in
  Some (if limit <? slippage_bps then Some (slippage_bps, limit) else None).

Record MarginBatch := mkMarginBatch {
  b_base : Z;
  b_quote : Z;
  long_orders : list MarginOrder;
  short_orders : list MarginOrder;
  total_long_size : Z;
  total_short_size : Z;
  block_height : Z;
}.
#[export] Instance MarginBatch_eta : Eta MarginBatch := fun b =>
  mkMarginBatch (b_base b) (b_quote b) (long_orders b) (short_orders b) (total_long_size b) (total_short_size b)
    (block_height b).

Definition batch_new (base quote height : Z) : MarginBatch := mkMarginBatch base quote [] [] 0 0 height.

Definition add_order (b : MarginBatch) (o : MarginOrder) : result MarginBatch MarginError :=
  if negb (o_base o =? b_base b) || negb (o_quote o =? b_quote b) then Err PairMismatch
  else
    match o_side o with
    | Long =>
        try! total := checked_add (total_long_size b) (o_size o) else Err LongOverflow in
        Ok (b <| total_long_size := total |> <| long_orders := long_orders b ++ [o] |>)
    | Short =>
        try! total := checked_add (total_short_size b) (o_size o) else Err ShortOverflow in
        Ok (b <| total_short_size := total |> <| short_orders := short_orders b ++ [o] |>)
    end.

(** The value of 128 bits as a signed number. *)
Definition i128 (x : Z) : Z := let y := wrap 128 x in if y <? 2 ^ 127 then y else y - 2 ^ 128.

Definition net_imbalance (b : MarginBatch) : Z := i128 (i128 (total_long_size b) - i128 (total_short_size b)).

Definition is_executable (b : MarginBatch) (max_imbalance_ratio : Ratio) : bool :=
  match checked_add (total_long_size b) (total_short_size b) with
  | None => false
  | Some total_size =>
      if total_size =? 0 then false
      else ratio_lt (mkRatio (Z.abs (net_imbalance b)) total_size) max_imbalance_ratio
  end.

Definition calculate_clearing_price (oracle_price : Price) (imbalance total_size : Z) (max_slippage : Ratio)
  : option Price :=
  if total_size =? 0 then Some oracle_price
  else
    slippage_numerator ← checked_mul (Z.abs imbalance) (num max_slippage);
    slippage_denominator ← checked_mul total_size (den max_slippage);
    factor ← (if 0 <? imbalance then checked_add slippage_denominator slippage_numerator
              else Some (sat_sub slippage_denominator slippage_numerator));
    n ← checked_mul (p_num oracle_price) factor;
    d ← checked_mul (p_den oracle_price) slippage_denominator;
    normalize (mkPrice n d).

Record PositionUpdate := mkPositionUpdate {
  pu_owner : Z;
  pu_base : Z;
  pu_quote : Z;
  pu_side : Side;
  pu_size : Z;
  entry_price : Price;
  pu_leverage : Z;
  borrowed_amount : Z;
}.

Inductive MarginEvent :=
| OrderExecuted (owner base quote : Z) (side : Side) (size : Z) (price : Price) (leverage : Z)
| OrderRejected (owner : Z) (reason : Z * Z)
| PositionOpened (owner position_id size leverage : Z)
| PositionIncreased (owner position_id added_size : Z).

(** What executing a batch works on. *)
Record Books := mkBooks {
  lending_pool : LendingPool;
  positions : gmap Z Position;
  borrowed_from_pool : gmap Z Z;
}.
#[export] Instance Books_eta : Eta Books := fun s => mkBooks (lending_pool s) (positions s) (borrowed_from_pool s).

(** [position_value * (leverage - 1) / leverage] *)
Definition borrowed_for (o : MarginOrder) (price : Price) : result Z MarginError :=
  try! value := checked_mul_amount price (o_size o) else Err ValueOverflow in
  try! times := checked_sub (o_leverage o) 1 else Err BadLeverage in
  try! amount := (v ← checked_mul value times; checked_div v (o_leverage o)) else Err BorrowedOverflow in
  Ok amount.

Definition set_pool (s : Books) (asset : Z) (p : PoolState) : Books :=
  s <| lending_pool := (lending_pool s) <| pools := <[asset := p]> (pools (lending_pool s)) |> |>.

Definition execute_single_order (o : MarginOrder) (price : Price) (s : Books) (current_block : Z)
  : Books * result PositionUpdate MarginError :=
  match borrowed_for o price with
  | Err e => (s, Err e)
  | Ok amount =>
      let quote := o_quote o in
      try! pool := get_pool (lending_pool s) quote else (s, Err PoolNotFound) in
      try! pool' := accrue_interest pool current_block else (s, Err MarginPanic) in
      try! total := checked_add (total_borrowed pool') amount else (set_pool s quote pool', Err PoolBorrowOverflow) in
      let s1 := set_pool s quote ((pool') <| total_borrowed := total |>) in
      try! tracked := checked_add (default 0 (borrowed_from_pool s1 !! quote)) amount else (s1, Err TrackingOverflow) in
      let s2 := s1 <| borrowed_from_pool := <[quote := tracked]> (borrowed_from_pool s1) |> in
      let position := default (position_new (o_owner o)) (positions s2 !! o_owner o) in
      try! owed := checked_add (default 0 (debt position !! quote)) amount
        else (s2 <| positions := <[o_owner o := position]> (positions s2) |>, Err PositionDebtOverflow) in
      (s2 <| positions := <[o_owner o := position <| debt := <[quote := owed]> (debt position) |>]> (positions s2) |>,
       Ok (mkPositionUpdate (o_owner o) (o_base o) quote (o_side o) (o_size o) price (o_leverage o) amount))
  end.

Definition executed_event (o : MarginOrder) (price : Price) : MarginEvent :=
  OrderExecuted (o_owner o) (o_base o) (o_quote o) (o_side o) (o_size o) price (o_leverage o).

(** The loop over the orders of a side. *)
Fixpoint execute_orders (orders : list MarginOrder) (price oracle_price : Price) (current_block : Z)
    (s : Books) (ues : list PositionUpdate * list MarginEvent)
  : Books * result (list PositionUpdate * list MarginEvent) MarginError :=
  match orders with
  | [] => (s, Ok ues)
  | o :: orders =>
      match validate_execution_price o price oracle_price with
      | None => (s, Err MarginPanic)
      | Some (Some reason) =>
          execute_orders orders price oracle_price current_block s (ues.1, ues.2 ++ [OrderRejected (o_owner o) reason])
      | Some None =>
          match execute_single_order o price s current_block with
          | (s', Err e) => (s', Err e)
          | (s', Ok u) =>
              execute_orders orders price oracle_price current_block s'
                (ues.1 ++ [u], ues.2 ++ [executed_event o price])
          end
      end
  end.

Record BatchExecutionResult := mkBatchExecutionResult {
  clearing_price : Price;
  position_updates : list PositionUpdate;
  borrowed : gmap Z Z;
  new_pool_utilization : gmap Z Ratio;
  events : list MarginEvent;
}.

Definition execute_margin_batch (b : MarginBatch) (oracle_price : Price) (pool : LendingPool)
    (ps : gmap Z Position) (max_slippage : Ratio) (current_block : Z)
  : Books * result BatchExecutionResult MarginError :=
  let s := mkBooks pool ps ∅ in
  if negb (is_executable b (from_percent 20)) then (s, Err ImbalanceTooHigh)
  else
    try! total_size := checked_add (total_long_size b) (total_short_size b) else (s, Err BatchOverflow) in
    try! price := calculate_clearing_price oracle_price (net_imbalance b) total_size max_slippage
      else (s, Err MarginPanic) in
    match execute_orders (long_orders b) price oracle_price current_block s ([], []) with
    | (s1, Err e) => (s1, Err e)
    | (s1, Ok ues1) =>
        match execute_orders (short_orders b) price oracle_price current_block s1 ues1 with
        | (s2, Err e) => (s2, Err e)
        | (s2, Ok ues) =>
            (s2, Ok (mkBatchExecutionResult price ues.1 (borrowed_from_pool s2)
                       (map_imap (fun a _ => utilization <$> get_pool (lending_pool s2) a) (borrowed_from_pool s2))
                       ues.2))
        end
    end.
