(* ===== verification/MarginSafe.v ===== *)
(** What a margin batch does: the price stays within the slippage allowed, every order is
    executed at it or rejected, and what the orders borrow is on the books of the pool and of
    the positions. *)
From stdpp Require Import base list gmap.
From Stdlib Require Import ZArith Lia.
From S2P Require Import Prelude OrdMap LendTypes LendActions LendSafe Margin.

Local Open Scope Z_scope.

(** * The clearing price *)

Definition price_ok (p : Price) : Prop := 0 < p_num p ∧ 0 < p_den p.

Lemma normalize_ratio n d q :
  0 ≤ n → 0 < d < 2 ^ 128 → normalize (mkPrice n d) = Some q →
  p_num q * d = n * p_den q ∧ 0 < p_den q ∧ 0 ≤ p_num q ∧ Z.gcd (p_num q) (p_den q) = 1.
Proof.
  intros Hn Hd H. destruct (normalize_spec (mkPrice n d)) as (Hg & E & En & Ed); [done|split; cbn; lia|cbn; lia|].
  rewrite H in E. injection E as ->. clear H. cbn [p_num p_den] in *. set (g := Z.gcd n d) in *.
  assert (0 < d / g). { pose proof (Z.div_pos d g). nia. }
  split; [|split; [done|split; [apply Z.div_pos; lia|]]].
  - rewrite Ed at 1. rewrite En at 2. lia.
  - apply Z.gcd_div_gcd; [lia|done].
Qed.

(** The clearing price is the oracle's, moved by the imbalance's part of the slippage
    allowed, up when the longs exceed and down when the shorts do, as a reduced fraction; it
    therefore never leaves the oracle's price by more than the slippage allowed. *)
Lemma clearing_price_within_slippage oracle imbalance total ms p :
  price_ok oracle → 0 < total → Z.abs imbalance ≤ total → 0 ≤ num ms ≤ den ms → 0 < den ms →
  calculate_clearing_price oracle imbalance total ms = Some p →
  0 < p_den p ∧ Z.gcd (p_num p) (p_den p) = 1 ∧
  p_num p * (p_den oracle * (total * den ms)) = p_num oracle * (total * den ms + imbalance * num ms) * p_den p ∧
  p_num oracle * (den ms - num ms) * p_den p ≤ p_num p * (p_den oracle * den ms)
    ≤ p_num oracle * (den ms + num ms) * p_den p.
Proof.
  intros [Ho1 Ho2] Ht Hi Hms Hd H. unfold calculate_clearing_price in H.
  destruct (Z.eqb_spec total 0); [lia|].
  apply bind_Some in H as (sn & E1 & H). apply bind_Some in H as (sd & E2 & H).
  apply bind_Some in H as (f & E3 & H). checked.
  assert (Z.abs imbalance * num ms ≤ total * den ms) as Hle by (apply Z.mul_le_mono_nonneg; lia).
  assert (f = total * den ms + imbalance * num ms) as ->.
  { destruct (Z.ltb_spec 0 imbalance); [checked; by rewrite Z.abs_eq by lia|].
    injection E3 as <-. unfold sat_sub. rewrite Z.abs_neq in * by lia. lia. }
  assert (0 < total * den ms) by lia. assert (0 ≤ total * den ms + imbalance * num ms) by lia.
  match goal with H : normalize _ = _ |- _ => apply normalize_ratio in H as (E & Hp & Hp' & Hg) end;
    [|by apply Z.mul_nonneg_nonneg; lia|split; [by apply Z.mul_pos_pos|done]].
  split; [done|]. split; [done|]. split; [done|].
  assert (total * (den ms - num ms) ≤ total * den ms + imbalance * num ms ≤ total * (den ms + num ms)) as [HA HB] by nia.
  split.
  - apply (Z.mul_le_mono_pos_l _ _ total); [done|].
    apply (Z.mul_le_mono_nonneg_l _ _ (p_num oracle * p_den p)) in HA; [|lia]. nia.
  - apply (Z.mul_le_mono_pos_l _ _ total); [done|].
    apply (Z.mul_le_mono_nonneg_l _ _ (p_num oracle * p_den p)) in HB; [|lia]. nia.
Qed.

Lemma clearing_price_within_slippage_witness :
  calculate_clearing_price (mkPrice 1000 1) 400 1000 (from_percent 5) = Some (mkPrice 1020 1) ∧
  1000 * 95 * 1 ≤ 1020 * (1 * 100) ≤ 1000 * 105 * 1.
Proof.
  assert (calculate_clearing_price (mkPrice 1000 1) 400 1000 (from_percent 5) = Some (mkPrice 1020 1)) as E
    by (vm_compute; reflexivity).
  split; [exact E|].
  apply (clearing_price_within_slippage (mkPrice 1000 1) 400 1000 (from_percent 5) (mkPrice 1020 1));
    [split; cbn; lia|lia|lia|cbn; lia|cbn; lia|exact E].
Defined.

(** * What the orders of a batch do *)

(** How far a price is from the oracle's, in basis points of the oracle's, and how far an order
    lets it be. *)
Definition slippage (price oracle : Price) : Z :=
  let at_price := p_num price * p_den oracle in
  let at_oracle := p_num oracle * p_den price in
  if at_oracle =? 0 then umax 128 else Z.abs (at_price - at_oracle) * 10000 / at_oracle.

Definition tolerance (o : MarginOrder) : Z := wrap 128 (max_slippage_percent o * 100).

Definition accepted (price oracle : Price) (o : MarginOrder) : bool := slippage price oracle <=? tolerance o.

(** The part of the value of an order above its own stake. *)
Definition borrowed_by (price : Price) (o : MarginOrder) : Z :=
  o_size o * p_num price / p_den price * (o_leverage o - 1) / o_leverage o.

Definition update_of (price : Price) (o : MarginOrder) : PositionUpdate :=
  mkPositionUpdate (o_owner o) (o_base o) (o_quote o) (o_side o) (o_size o) price (o_leverage o) (borrowed_by price o).

Definition event_of (price oracle : Price) (o : MarginOrder) : MarginEvent :=
  if accepted price oracle o then executed_event o price
  else OrderRejected (o_owner o) (slippage price oracle, tolerance o).

Lemma borrowed_for_Ok o price x : borrowed_for o price = Ok x → x = borrowed_by price o.
Proof.
  unfold borrowed_for, borrowed_by. destruct (checked_mul_amount price (o_size o)) as [v|] eqn:E1; [|done].
  destruct (checked_sub (o_leverage o) 1) as [k|] eqn:E2; [|done].
  destruct (_ ← checked_mul v k; _) as [a|] eqn:E3; [|done]. intros [= <-].
  unfold checked_mul_amount in E1. checked. done.
Qed.

Lemma validate_exact o price oracle r :
  validate_execution_price o price oracle = Some r →
  r = if accepted price oracle o then None else Some (slippage price oracle, tolerance o).
Proof.
  unfold validate_execution_price. intros H. apply bind_Some in H as (d & Ed & H). injection H as <-.
  assert (d = slippage price oracle) as ->.
  { unfold percent_diff in Ed. apply bind_Some in Ed as (a & Ea & Ed). apply bind_Some in Ed as (b & Eb & Ed).
    apply bind_Some in Ed as (m & Em & Ed). checked. unfold slippage, checked_div.
    destruct (Z.eqb_spec (p_num oracle * p_den price) 0); [done|]. cbn [default].
    destruct (Z.ltb_spec (p_num oracle * p_den price) (p_num price * p_den oracle)); cbv [id]; f_equal; lia. }
  unfold accepted, tolerance, wmul. by rewrite Z.ltb_antisym; destruct (_ <=? _).
Qed.

Lemma accrue_again pool b pool' x :
  accrue_interest pool b = Some pool' →
  accrue_interest ((pool') <| total_borrowed := x |>) b = Some ((pool') <| total_borrowed := x |>).
Proof.
  intros H. assert (sat_sub b (last_update_block pool') = 0) as E.
  { unfold accrue_interest in H. case_match eqn:E; [apply Z.eqb_eq in E; by injection H as <-|].
    checked. cbn. unfold sat_sub. lia. }
  unfold accrue_interest. cbn. by rewrite E.
Qed.

(** After [us] borrowed from the pool of [q]: what changed since [s0]. *)
Record progress (q b : Z) (s0 s : Books) (sum : Z) (n : nat) : Prop := {
  pr_other : ∀ a, a ≠ q → get_pool (lending_pool s) a = get_pool (lending_pool s0) a;
  pr_none : n = 0%nat → sum = 0 ∧ get_pool (lending_pool s) q = get_pool (lending_pool s0) q;
  pr_pool : n ≠ 0%nat → ∃ pool pool', get_pool (lending_pool s0) q = Some pool ∧ accrue_interest pool b = Some pool' ∧
      get_pool (lending_pool s) q = Some ((pool') <| total_borrowed := total_borrowed pool' + sum |>);
  pr_tally : borrowed_from_pool s = if (n =? 0)%nat then ∅ else {[q := sum]};
  pr_owed : owed_in q (positions s) = owed_in q (positions s0) + sum;
}.

Lemma execute_single_progress q b s0 s sum n o price s' u :
  progress q b s0 s sum n → o_quote o = q → execute_single_order o price s b = (s', Ok u) →
  u = update_of price o ∧ progress q b s0 s' (sum + borrowed_by price o) (S n).
Proof.
  intros [P1 P2 P3 P4 P5] Hq H. unfold execute_single_order in H. rewrite Hq in H.
  destruct (borrowed_for o price) as [x|] eqn:Ex; [|done]. apply borrowed_for_Ok in Ex.
  unfold update_of. rewrite <-Ex. clear Ex.
  destruct (get_pool (lending_pool s) q) as [pool|] eqn:E1; [|done].
  destruct (accrue_interest pool b) as [pool'|] eqn:E2; [|done].
  destruct (checked_add (total_borrowed pool') x) eqn:E3; [|done].
  destruct (checked_add (default 0 (borrowed_from_pool _ !! q)) x) eqn:E4; [|done].
  destruct (checked_add (default 0 (debt _ !! q)) x) eqn:E5; [|done]. checked. injection H as <- <-.
  split; [by rewrite Hq|]. cbn [borrowed_from_pool positions lending_pool set_pool set_field] in *.
  assert (∃ pool0 pool0', get_pool (lending_pool s0) q = Some pool0 ∧ accrue_interest pool0 b = Some pool0' ∧
            (pool') <| total_borrowed := total_borrowed pool' + x |>
            = (pool0') <| total_borrowed := total_borrowed pool0' + (sum + x) |>) as (pool0 & pool0' & F1 & F2 & F3).
  { destruct n as [|n].
    - destruct (P2 eq_refl) as [-> E]. rewrite E in E1. exists pool, pool'. split_and!; [congruence|done|].
      by rewrite Z.add_0_l.
    - destruct (P3 ltac:(done)) as (p0 & p0' & F1 & F2 & F3). injection F3 as ->.
      pose proof (eq_trans (eq_sym (accrue_again _ _ _ _ F2)) E2) as [= <-]. exists p0, p0'. split_and!; [done..|].
      cbn. f_equal. lia. }
  split; cbn.
  - intros a Ha. unfold get_pool. cbn. rewrite lookup_insert_ne by done. by apply P1.
  - done.
  - intros _. exists pool0, pool0'. split_and!; [done..|]. unfold get_pool. cbn. rewrite lookup_insert_eq. f_equal. exact F3.
  - rewrite P4. destruct n as [|n]; cbn.
    + destruct (P2 eq_refl) as [-> _]. by rewrite lookup_empty.
    + rewrite lookup_singleton_eq. cbn. apply insert_singleton_eq.
  - rewrite owed_insert, P5. cbn. rewrite lookup_insert_eq. cbn. lia.
Qed.

(** The orders of a list that are executed. *)
Definition executed (price oracle : Price) (orders : list MarginOrder) : list MarginOrder :=
  List.filter (accepted price oracle) orders.

Lemma execute_orders_progress q b price oracle s0 orders : ∀ s sum n ues s' ues',
  progress q b s0 s sum n → Forall (fun o => o_quote o = q) orders →
  execute_orders orders price oracle b s ues = (s', Ok ues') →
  let done := executed price oracle orders in
  ues' = (ues.1 ++ map (update_of price) done, ues.2 ++ map (event_of price oracle) orders) ∧
  progress q b s0 s' (sum + zsum (map (borrowed_by price) done)) (n + length done).
Proof.
  induction orders as [|o orders IH]; intros s sum n ues s' ues' P Hq H; cbn [execute_orders] in H.
  - injection H as <- <-. cbn. rewrite !app_nil_r, Z.add_0_r, Nat.add_0_r. by destruct ues.
  - apply Forall_cons in Hq as [Ho Hq]. unfold executed in *. cbn [List.filter map].
    destruct (validate_execution_price o price oracle) as [reason|] eqn:Ev; [|done].
    apply validate_exact in Ev as ->. unfold event_of at 1. destruct (accepted price oracle o).
    2:{ eapply IH in H as [-> P']; [|done|done]. cbn. rewrite <-app_assoc. by split. }
    + destruct (execute_single_order o price s b) as [s1 [u|e]] eqn:E; [|done].
      eapply execute_single_progress in E as [-> P1]; [|done|done].
      eapply IH in H as [-> P']; [|done|done]. cbn. rewrite <-!app_assoc.
      split; [done|]. rewrite Z.add_assoc, Nat.add_succ_r. exact P'.
Qed.

(** * Batches *)

Definition add_step (b b' : MarginBatch) : Prop := ∃ o, 0 ≤ o_size o ∧ add_order b o = Ok b'.

(** A batch that was filled by [add_order]. *)
Record batch_ok (base quote : Z) (b : MarginBatch) : Prop := {
  bo_pair : b_base b = base ∧ b_quote b = quote;
  bo_orders : Forall (fun o => o_base o = base ∧ o_quote o = quote ∧ 0 ≤ o_size o) (long_orders b ++ short_orders b);
  bo_sides : Forall (fun o => o_side o = Long) (long_orders b) ∧ Forall (fun o => o_side o = Short) (short_orders b);
  bo_long : total_long_size b = zsum (map o_size (long_orders b));
  bo_short : total_short_size b = zsum (map o_size (short_orders b));
}.

Lemma batch_reach base quote h b : rtc add_step (batch_new base quote h) b → batch_ok base quote b.
Proof.
  intros Hr. refine (rtc_ind_r (batch_ok base quote) _ _ _ b Hr); [by split|].
  clear b Hr. intros b b' _ (o & Hs & Ha) [[B1 B1'] B2 [B3 B3'] B4 B5]. unfold add_order in Ha.
  destruct (Z.eqb_spec (o_base o) (b_base b)); [|done]. destruct (Z.eqb_spec (o_quote o) (b_quote b)); [|done].
  cbn in Ha. apply Forall_app in B2 as [B2 B2'].
  destruct (o_side o) eqn:Eo; destruct (checked_add _ _) eqn:E; [|done| |done]; checked; injection Ha as <-;
    (split; cbn; [done|rewrite !Forall_app, ?Forall_singleton; split_and!; naive_solver
                 |rewrite ?Forall_app, ?Forall_singleton; done|..];
     rewrite ?map_app, ?zsum_app; cbn; lia).
Qed.

(** C21.  A batch that was filled for its pair and executed without error accounts for every
    order: in turn, longs before shorts, each one whose tolerance the one price meets is
    executed at it, and each other is rejected.  What the executed orders borrow, the part of
    their value above their own stake, is on the books three times over: tallied, added to
    what the pool of the quote asset has lent (after its interest), and added to the debts of
    the positions.  No other pool changes. *)
Theorem margin_batch_accounts base quote h b oracle lp ps ms block s r :
  rtc add_step (batch_new base quote h) b →
  execute_margin_batch b oracle lp ps ms block = (s, Ok r) →
  let orders := long_orders b ++ short_orders b in
  let price := clearing_price r in
  let done := executed price oracle orders in
  let sum := zsum (map (borrowed_by price) done) in
  events r = map (event_of price oracle) orders ∧ position_updates r = map (update_of price) done ∧
  borrowed r = (if (length done =? 0)%nat then ∅ else {[quote := sum]}) ∧
  owed_in quote (positions s) = owed_in quote ps + sum ∧
  (done ≠ [] → ∃ pool pool', get_pool lp quote = Some pool ∧ accrue_interest pool block = Some pool' ∧
     get_pool (lending_pool s) quote = Some ((pool') <| total_borrowed := total_borrowed pool' + sum |>)) ∧
  (done = [] → get_pool (lending_pool s) quote = get_pool lp quote) ∧
  ∀ a, a ≠ quote → get_pool (lending_pool s) a = get_pool lp a.
Proof.
  intros [_ Ho _ _ _]%batch_reach H orders price done sum. unfold execute_margin_batch in H.
  destruct (negb _); [done|]. destruct (checked_add _ _) as [total|]; [|done].
  destruct (calculate_clearing_price _ _ _ _) as [p|]; [|done].
  destruct (execute_orders (long_orders b) _ _ _ _ _) as [s1 [ues1|]] eqn:E1; [|done].
  destruct (execute_orders (short_orders b) _ _ _ _ _) as [s2 [ues2|]] eqn:E2; [|done].
  injection H as <- <-. cbn [clearing_price position_updates borrowed events] in *.
  apply Forall_app in Ho as [Hl Hs].
  eapply execute_orders_progress with (q := quote) (s0 := mkBooks lp ps ∅) (sum := 0) (n := 0%nat) in E1 as [-> P1];
    [|split; cbn; [done|done|done|done|lia]|eapply Forall_impl; [exact Hl|naive_solver]].
  eapply execute_orders_progress in E2 as [-> P2]; [|exact P1|eapply Forall_impl; [exact Hs|naive_solver]].
  cbn [fst snd app] in *. rewrite <-!map_app, Z.add_0_l, <-zsum_app, <-map_app in *. cbn [Nat.add] in P2.
  rewrite <-length_app in P2. assert (executed price oracle (long_orders b) ++ executed price oracle (short_orders b) = done) as E.
  { unfold done, orders, executed. by rewrite List.filter_app. }
  fold price in P2. rewrite E in *. fold sum in P2. destruct P2 as [Q1 Q2 Q3 Q4 Q5].
  split_and!; [done|unfold price in *; by rewrite E|done|done| | |done].
  - intros Hd. apply Q3. by destruct done.
  - intros Hd. apply Q2. by rewrite Hd.
Qed.

(** * A batch of three orders *)

Definition order (owner : Z) (side : Side) (size leverage tolerance : Z) : MarginOrder :=
  mkMarginOrder owner 1 2 side size leverage tolerance 5.
Definition three_orders : MarginBatch :=
  mkMarginBatch 1 2 [order 7 Long 1000 20 1; order 9 Long 100 5 0] [order 8 Short 1000 5 1] 1100 1000 5.
(** The pool of the quote asset holds nothing. *)
Definition empty_quote : LendingPool := add_pool lending_pool_new 2 params_default.
Definition three_executed : Books * result BatchExecutionResult MarginError :=
  execute_margin_batch three_orders Price_ONE empty_quote ∅ (from_percent 2) 5.
Definition no_result : BatchExecutionResult := mkBatchExecutionResult Price_ONE [] ∅ ∅ [].
Definition three_result : BatchExecutionResult := match three_executed.2 with Ok r => r | Err _ => no_result end.

Lemma three_orders_added : rtc add_step (batch_new 1 2 5) three_orders.
Proof.
  eapply rtc_l; [exists (order 7 Long 1000 20 1); split; [cbn; lia|vm_compute; reflexivity]|].
  eapply rtc_l; [exists (order 8 Short 1000 5 1); split; [cbn; lia|vm_compute; reflexivity]|].
  apply rtc_once. exists (order 9 Long 100 5 0). split; [cbn; lia|vm_compute; reflexivity].
Qed.

(** Two orders are executed, the one without tolerance is rejected; and the pool, which was
    supplied nothing, has lent 1750 to two positions without collateral. *)
Lemma margin_batch_accounts_witness :
  events three_result = map (event_of (clearing_price three_result) Price_ONE)
                          (long_orders three_orders ++ short_orders three_orders) ∧
  map pu_owner (position_updates three_result) = [7; 8] ∧
  owed_in 2 (positions three_executed.1) = 1750.
Proof.
  assert (execute_margin_batch three_orders Price_ONE empty_quote ∅ (from_percent 2) 5 = (three_executed.1, Ok three_result)) as E by (vm_compute; reflexivity).
  destruct (margin_batch_accounts 1 2 5 three_orders Price_ONE empty_quote ∅ (from_percent 2) 5
              three_executed.1 three_result three_orders_added E) as (H1 & H2 & _ & H4 & _).
  split; [exact H1|]. rewrite H2, H4. split; vm_compute; reflexivity.
Defined.

Example margin_lends_what_is_not_there :
  get_tvl (lending_pool three_executed.1) 2 = 0 ∧ get_total_borrowed (lending_pool three_executed.1) 2 = 1750.
Proof. split; vm_compute; reflexivity. Qed.
