(* ===== verification/Liquid.v ===== *)
(** Liquidations, [crates/zeratul-blockchain/src/lending/liquidation.rs], and the threshold
    signatures under them, [src/frost.rs]: the penalty that decays with time, delegates drawn
    by a hash, the rounds in which validators sign a batch, and the engine that takes
    proposals and executes them together.

    The hashes SHA-256 and BLAKE3 are parameters.  A [[u8; 32]] that is only compared, hashed
    or sorted is the number its bytes write in big-endian order, which is the order of the
    bytes.  The proofs of the external proof system, which this code carries without reading,
    are left out, and so are the shares and commitments themselves, which it only counts. *)
From stdpp Require Import base list gmap.
From Stdlib Require Import ZArith Lia.
From S2P Require Import Prelude Bytes OrdMap LendTypes.

Local Open Scope Z_scope.

(** * Threshold signatures *)

Module ThresholdRequirement.
Inductive ThresholdRequirement := AnyValidator | SimpleMajority | ByzantineThreshold | Supermajority.
End ThresholdRequirement.

#[export] Instance threshold_dec : EqDecision ThresholdRequirement.ThresholdRequirement.
Proof. solve_decision. Defined.

Definition required_signers (t : ThresholdRequirement.ThresholdRequirement) (total_validators : Z) : Z :=
  match t with
  | ThresholdRequirement.AnyValidator => 1
  | ThresholdRequirement.SimpleMajority => wadd 64 (total_validators / 2) 1
  | ThresholdRequirement.ByzantineThreshold => wadd 64 (wmul 64 total_validators 2 / 3) 1
  | ThresholdRequirement.Supermajority =>
      Z.max (wmul 64 total_validators 13 / 15) (wsub 64 total_validators 2)
  end.

Definition is_met (t : ThresholdRequirement.ThresholdRequirement) (num_signers total_validators : Z) : bool :=
  required_signers t total_validators <=? num_signers.

Record FrostSignature := mkFrostSignature {
  signature : bytes;
  signers : list Z;
  threshold : ThresholdRequirement.ThresholdRequirement;
}.

Inductive LiquidationError :=
| InsufficientSigners
| DuplicateSigners
| InvalidSigner
| InsufficientShares
| TooEarly
| WrongThreshold
| MissingFrostSignature
| MissingSignatures
| BatchInProgress
| NoBatch
| InvalidValidator (id : Z)
| InsufficientCommitments
| NotCommitted (id : Z)
| DelegateRegistered
| InvalidProofs
| PenaltyOverflow
| MissingPrice
| ValueOverflow
| NotLiquidatable
| LiqPanic.

Definition verify_threshold (sig : FrostSignature) (total_validators : Z) : result unit LiquidationError :=
  if negb (is_met (threshold sig) (Z.of_nat (length (signers sig))) total_validators) then Err InsufficientSigners
  else if negb (length (dedup (sort_asc (signers sig))) =? length (signers sig))%nat then Err DuplicateSigners
  else if existsb (fun id => total_validators <=? id) (signers sig) then Err InvalidSigner
  else Ok tt.

(** The cryptographic check is not there yet: the threshold is checked again, for fifteen. *)
Definition verify_signature (sig : FrostSignature) (message : Z) (public_key : bytes) : result unit LiquidationError :=
  verify_threshold sig 15.

Record FrostCoordinator := mkFrostCoordinator { fc_total_validators : Z; public_keys : list bytes }.

Definition frost_coordinator_new (total : Z) : FrostCoordinator :=
  mkFrostCoordinator total (replicate (Z.to_nat total) (zeros 32)).

Record CommitmentData := mkCommitmentData { hiding : bytes; binding : bytes }.
Record SignatureShareData := mkSignatureShareData { share : bytes }.
Record SigningPackageData := mkSigningPackageData { message : Z; commitments : gmap Z CommitmentData }.

Definition aggregate (c : FrostCoordinator) (package : SigningPackageData) (shares : gmap Z SignatureShareData)
    (t : ThresholdRequirement.ThresholdRequirement) : result FrostSignature LiquidationError :=
  if negb (is_met t (Z.of_nat (size shares)) (fc_total_validators c)) then Err InsufficientShares
  else Ok (mkFrostSignature (zeros 64) (keys shares) t).

Definition frost_verify (c : FrostCoordinator) (message : Z) (sig : FrostSignature) : result unit LiquidationError :=
  let? _ := verify_threshold sig (fc_total_validators c) in
  verify_signature sig message (zeros 32).

(** * Configuration *)

Record LiquidationPublicInputs := mkLiquidationPublicInputs {
  li_commitment : Z;
  oracle_prices_hash : Z;
  state_root : Z;
  penalty_percent : Z;
  seized_collateral : Z;
  debt_repaid : Z;
  became_liquidatable_at : Z;
}.

Record LiquidationProof := mkLiquidationProof {
  position_commitment : Z;
  nomt_witness : bytes;
  public_inputs : LiquidationPublicInputs;
}.

Record LiquidationConfig := mkLiquidationConfig {
  min_liquidation_delay : Z;
  max_penalty_percent : Z;
  min_penalty_percent : Z;
  penalty_decay_blocks : Z;
  allow_partial_liquidations : bool;
  min_partial_liquidation_percent : Z;
}.

Definition config_default : LiquidationConfig := mkLiquidationConfig 2 5 1 10 true 20.

Definition calculate_penalty (c : LiquidationConfig) (became_liquidatable current_block : Z)
  : result Z LiquidationError :=
  let blocks_elapsed := sat_sub current_block became_liquidatable in
  if blocks_elapsed <? min_liquidation_delay c then Err TooEarly
  else if wadd 64 (min_liquidation_delay c) (penalty_decay_blocks c) <=? blocks_elapsed
  then Ok (min_penalty_percent c)
  else
    let decay_progress := wsub 64 blocks_elapsed (min_liquidation_delay c) in
    let penalty_range := wsub 8 (max_penalty_percent c) (min_penalty_percent c) in
    try! reduction := checked_div (wmul 64 penalty_range decay_progress) (penalty_decay_blocks c)
      else Err LiqPanic in
    Ok (wsub 8 (max_penalty_percent c) (wrap 8 reduction)).

Definition validate_timing (c : LiquidationConfig) (became_liquidatable current_block : Z)
  : result unit LiquidationError :=
  if sat_sub current_block became_liquidatable <? min_liquidation_delay c then Err TooEarly else Ok tt.

Definition calculate_max_liquidation_amount (c : LiquidationConfig) (total_debt : Z) (health : Ratio) : Z :=
  if negb (allow_partial_liquidations c) then total_debt
  else if match checked_mul (num health) 2 with Some v => v <? den health | None => false end
  then default 0 (checked_div total_debt 2)
  else default 0 (v ← checked_mul total_debt (min_partial_liquidation_percent c); checked_div v 100).

(** * Delegates *)

Record LiquidationDelegate := mkLiquidationDelegate {
  key : Z;
  stake : Z;
  active : bool;
  liquidations_executed : Z;
  fee_bps : Z;
}.

Definition register (ds : list LiquidationDelegate) (d : LiquidationDelegate)
  : result (list LiquidationDelegate) LiquidationError :=
  if existsb (fun x => key x =? key d) ds then Err DelegateRegistered else Ok (ds ++ [d]).

Definition active_delegates (ds : list LiquidationDelegate) : list LiquidationDelegate := List.filter active ds.

(** The first delegate at which the running total of stakes passes [r]; [None] when none does. *)
Fixpoint pick_weighted (r cumulative : Z) (ds : list LiquidationDelegate) : option LiquidationDelegate :=
  match ds with
  | [] => None
  | d :: ds =>
      let cumulative := wadd 64 cumulative (stake d) in
      if r <? cumulative then Some d else pick_weighted r cumulative ds
  end.

Section delegates.
Context (blake3 : bytes → bytes).

Definition draw (entropy position_commitment slot : Z) : bytes :=
  blake3 (to_be 32 entropy ++ to_be 32 position_commitment ++ to_le 8 slot).

Definition select_delegate (ds : list LiquidationDelegate) (entropy position_commitment slot : Z)
  : option LiquidationDelegate :=
  let act := active_delegates ds in
  if bool_decide (act = []) then None
  else
    let index := from_le (slice 0 4 (draw entropy position_commitment slot)) mod Z.of_nat (length act) in
    act !! Z.to_nat index.

Definition select_delegate_weighted (ds : list LiquidationDelegate) (entropy position_commitment slot : Z)
  : option LiquidationDelegate :=
  let act := active_delegates ds in
  if bool_decide (act = []) then None
  else
    let total_stake := foldl (wadd 64) 0 (map stake act) in
    if total_stake =? 0 then select_delegate ds entropy position_commitment slot
    else
      let rand_value := from_le (slice 0 8 (draw entropy position_commitment slot)) mod total_stake in
      match pick_weighted rand_value 0 act with Some d => Some d | None => last act end.

Definition is_authorized (ds : list LiquidationDelegate) (delegate_key entropy position_commitment slot : Z) : bool :=
  match select_delegate ds entropy position_commitment slot with
  | Some d => key d =? delegate_key
  | None => false
  end.
End delegates.

(** * Proposals and the rounds that sign them *)

Record LiquidationProposal := mkLiquidationProposal {
  proposer_id : Z;
  lp_height : Z;
  lp_proofs : list LiquidationProof;
  frost_signature : option FrostSignature;
  lp_signature : option bytes;
}.

(** A placeholder in the code. *)
Definition verify_liquidation_proof (proof : LiquidationProof) : result bool LiquidationError := Ok true.

Fixpoint verify_all_proofs (proofs : list LiquidationProof) : result bool LiquidationError :=
  match proofs with
  | [] => Ok true
  | p :: proofs => let? ok := verify_liquidation_proof p in if ok then verify_all_proofs proofs else Ok false
  end.

Record FrostLiquidationCoordinator := mkFrostLiquidationCoordinator {
  total_validators : Z;
  coordinator : FrostCoordinator;
  pending_commitments : gmap Z CommitmentData;
  pending_shares : gmap Z SignatureShareData;
  current_batch : option (list LiquidationProof);
  current_height : Z;
}.
#[export] Instance coordinator_eta : Eta FrostLiquidationCoordinator := fun c =>
  mkFrostLiquidationCoordinator (total_validators c) (coordinator c) (pending_commitments c) (pending_shares c)
    (current_batch c) (current_height c).

Definition liquidation_coordinator_new (total : Z) : FrostLiquidationCoordinator :=
  mkFrostLiquidationCoordinator total (frost_coordinator_new total) ∅ ∅ None 0.

Definition start_batch (c : FrostLiquidationCoordinator) (proofs : list LiquidationProof) (height : Z)
  : result FrostLiquidationCoordinator LiquidationError :=
  if bool_decide (is_Some (current_batch c)) then Err BatchInProgress
  else Ok (mkFrostLiquidationCoordinator (total_validators c) (coordinator c) ∅ ∅ (Some proofs) height).

Definition add_commitment (c : FrostLiquidationCoordinator) (validator_id : Z) (d : CommitmentData)
  : result FrostLiquidationCoordinator LiquidationError :=
  if negb (bool_decide (is_Some (current_batch c))) then Err NoBatch
  else if total_validators c <=? validator_id then Err (InvalidValidator validator_id)
  else Ok (c <| pending_commitments := <[validator_id := d]> (pending_commitments c) |>).

Definition can_proceed_to_round2 (c : FrostLiquidationCoordinator) : bool := (11 <=? size (pending_commitments c))%nat.
Definition can_finalize (c : FrostLiquidationCoordinator) : bool := (11 <=? size (pending_shares c))%nat.

Definition add_signature_share (c : FrostLiquidationCoordinator) (validator_id : Z) (s : SignatureShareData)
  : result FrostLiquidationCoordinator LiquidationError :=
  if negb (can_proceed_to_round2 c) then Err InsufficientCommitments
  else if negb (bool_decide (is_Some (pending_commitments c !! validator_id))) then Err (NotCommitted validator_id)
  else Ok (c <| pending_shares := <[validator_id := s]> (pending_shares c) |>).

Inductive LiquidationBatchStatus := Idle | Round1 (commitments required : nat) | Round2 (shares required : nat) | Ready.

Definition status (c : FrostLiquidationCoordinator) : LiquidationBatchStatus :=
  if negb (bool_decide (is_Some (current_batch c))) then Idle
  else if negb (can_proceed_to_round2 c) then Round1 (size (pending_commitments c)) 11
  else if negb (can_finalize c) then Round2 (size (pending_shares c)) 11
  else Ready.

Section signing.
Context `{Sha256}.

(** What a batch is signed as. *)
Definition batch_message (height : Z) (proofs : list LiquidationProof) : Z :=
  sha256 (to_le 8 height ++ to_le 8 (Z.of_nat (length proofs))
          ++ mjoin (map (fun p => to_be 32 (position_commitment p)) proofs)).

Definition verify_frost_signature (p : LiquidationProposal) (c : FrostCoordinator) : result unit LiquidationError :=
  match frost_signature p with
  | None => Err MissingFrostSignature
  | Some sig =>
      if negb (bool_decide (threshold sig = ThresholdRequirement.ByzantineThreshold)) then Err WrongThreshold
      else frost_verify c (batch_message (lp_height p) (lp_proofs p)) sig
  end.

Definition create_signing_package (c : FrostLiquidationCoordinator) : result SigningPackageData LiquidationError :=
  if negb (can_proceed_to_round2 c) then Err InsufficientCommitments
  else
    match current_batch c with
    | None => Err NoBatch
    | Some batch => Ok (mkSigningPackageData (batch_message (current_height c) batch) (pending_commitments c))
    end.

Definition finalize (c : FrostLiquidationCoordinator)
  : result (FrostLiquidationCoordinator * FrostSignature) LiquidationError :=
  if negb (can_finalize c) then Err InsufficientShares
  else
    let? package := create_signing_package c in
    let? sig := aggregate (coordinator c) package (pending_shares c) ThresholdRequirement.ByzantineThreshold in
    Ok (c <| current_batch := None |> <| pending_commitments := ∅ |> <| pending_shares := ∅ |>, sig).

Definition verify_batch_signature (c : FrostLiquidationCoordinator) (proofs : list LiquidationProof) (height : Z)
    (sig : FrostSignature) : result unit LiquidationError :=
  if negb (bool_decide (threshold sig = ThresholdRequirement.ByzantineThreshold)) then Err WrongThreshold
  else frost_verify (coordinator c) (batch_message height proofs) sig.

(** * The engine *)

Record LiquidationEngine := mkLiquidationEngine {
  config : LiquidationConfig;
  liquidation_threshold : Ratio;
  pending_proposals : list LiquidationProposal;
  frost_coordinator : FrostLiquidationCoordinator;
  delegate_registry : list LiquidationDelegate;
  current_entropy : Z;
}.
#[export] Instance engine_eta : Eta LiquidationEngine := fun e =>
  mkLiquidationEngine (config e) (liquidation_threshold e) (pending_proposals e) (frost_coordinator e)
    (delegate_registry e) (current_entropy e).

Definition engine_new (c : LiquidationConfig) (total : Z) : LiquidationEngine :=
  mkLiquidationEngine c Ratio_ONE [] (liquidation_coordinator_new total) [] 0.

Definition update_entropy (e : LiquidationEngine) (entropy : Z) : LiquidationEngine := e <| current_entropy := entropy |>.

Definition register_delegate (e : LiquidationEngine) (d : LiquidationDelegate)
  : result LiquidationEngine LiquidationError :=
  let? ds := register (delegate_registry e) d in Ok (e <| delegate_registry := ds |>).

(** A proposal is signed by a quorum, or carries some legacy signature. *)
Definition verify_proposal_signature (e : LiquidationEngine) (p : LiquidationProposal) : result unit LiquidationError :=
  match frost_signature p, lp_signature p with
  | Some _, _ => verify_frost_signature p (coordinator (frost_coordinator e))
  | None, Some _ => Ok tt
  | None, None => Err MissingSignatures
  end.

Fixpoint validate_timings (c : LiquidationConfig) (height : Z) (proofs : list LiquidationProof)
  : result unit LiquidationError :=
  match proofs with
  | [] => Ok tt
  | p :: proofs =>
      let? _ := validate_timing c (became_liquidatable_at (public_inputs p)) height in
      validate_timings c height proofs
  end.

Definition submit_proposal (e : LiquidationEngine) (p : LiquidationProposal)
  : result LiquidationEngine LiquidationError :=
  let? _ := verify_proposal_signature e p in
  let? ok := verify_all_proofs (lp_proofs p) in
  if negb ok then Err InvalidProofs
  else
    let? _ := validate_timings (config e) (lp_height p) (lp_proofs p) in
    Ok (e <| pending_proposals := pending_proposals e ++ [p] |>).
End signing.

(** ** Delegates and threshold signatures of the engine *)

(** The proof of the encrypted computation is not read. *)
Record FheHealthCheckResult := mkFheHealthCheckResult {
  hc_commitment : Z;
  hc_liquidatable : bool;
  checked_at_block : Z;
}.

Section selection.
Context (blake3 : bytes → bytes) (e : LiquidationEngine).

Definition get_selected_delegate (position_commitment slot : Z) : option LiquidationDelegate :=
  select_delegate blake3 (delegate_registry e) (current_entropy e) position_commitment slot.

Definition verify_delegate_authorization (delegate_key position_commitment slot : Z) : bool :=
  is_authorized blake3 (delegate_registry e) delegate_key (current_entropy e) position_commitment slot.

(** The delegate who is to liquidate, when the position can be. *)
Definition process_fhe_health_check (r : FheHealthCheckResult) (current_slot : Z) : option Z :=
  if negb (hc_liquidatable r) then None
  else key <$> select_delegate blake3 (delegate_registry e) (current_entropy e) (hc_commitment r) current_slot.
End selection.

Definition frost_status (e : LiquidationEngine) : LiquidationBatchStatus := status (frost_coordinator e).

Definition coordinate_frost_signature (e : LiquidationEngine) (proofs : list LiquidationProof) (height : Z)
  : result LiquidationEngine LiquidationError :=
  let? c := start_batch (frost_coordinator e) proofs height in Ok (e <| frost_coordinator := c |>).

Definition add_frost_commitment (e : LiquidationEngine) (validator_id : Z) (d : CommitmentData)
  : result LiquidationEngine LiquidationError :=
  let? c := add_commitment (frost_coordinator e) validator_id d in Ok (e <| frost_coordinator := c |>).

Definition get_signing_package `{Sha256} (e : LiquidationEngine) : result SigningPackageData LiquidationError :=
  create_signing_package (frost_coordinator e).

Definition add_frost_share (e : LiquidationEngine) (validator_id : Z) (s : SignatureShareData)
  : result LiquidationEngine LiquidationError :=
  let? c := add_signature_share (frost_coordinator e) validator_id s in Ok (e <| frost_coordinator := c |>).

Definition finalize_frost_signature `{Sha256} (e : LiquidationEngine)
  : result (LiquidationEngine * FrostSignature) LiquidationError :=
  let? c := finalize (frost_coordinator e) in Ok (e <| frost_coordinator := c.1 |>, c.2).

(** ** Executing a batch *)

Record SingleLiquidationResult := mkSingleLiquidationResult {
  sl_commitment : Z;
  sl_seized : gmap Z Z;
  sl_debt : gmap Z Z;
  sl_penalty : gmap Z Z;
  sl_health : Ratio;
}.

Definition execute_single_liquidation (e : LiquidationEngine) (proof : LiquidationProof)
  : result SingleLiquidationResult LiquidationError :=
  let seized := seized_collateral (public_inputs proof) in
  try! penalty := (v ← checked_mul seized (max_penalty_percent (config e)); checked_div v 100)
    else Err PenaltyOverflow in
  Ok (mkSingleLiquidationResult (position_commitment proof) {[0 := seized]}
        {[0 := debt_repaid (public_inputs proof)]} {[0 := penalty]} (from_percent 95)).

(** [*total.entry(asset).or_insert(ZERO) += amount] for each entry. *)
Definition add_amounts (total amounts : gmap Z Z) : gmap Z Z :=
  foldl (fun m kv => <[kv.1 := wadd 128 (default 0 (m !! kv.1)) kv.2]> m) total (entries amounts).

(** [sort_by_key]: stable. *)
Fixpoint insert_proof (p : LiquidationProof) (l : list LiquidationProof) : list LiquidationProof :=
  match l with
  | [] => [p]
  | q :: l' => if position_commitment p <=? position_commitment q then p :: l else q :: insert_proof p l'
  end.
Definition sort_proofs (l : list LiquidationProof) : list LiquidationProof := foldr insert_proof [] l.

(** [dedup_by_key]: the first of each run stays. *)
Fixpoint dedup_proofs (l : list LiquidationProof) : list LiquidationProof :=
  match l with
  | [] => []
  | p :: l' =>
      match dedup_proofs l' with
      | q :: l'' => if position_commitment p =? position_commitment q then p :: l'' else p :: q :: l''
      | [] => [p]
      end
  end.

Record Totals := mkTotals { t_seized : gmap Z Z; t_debt : gmap Z Z; t_penalties : gmap Z Z; t_health : Z }.

Fixpoint execute_all (e : LiquidationEngine) (proofs : list LiquidationProof) (t : Totals)
  : result Totals LiquidationError :=
  match proofs with
  | [] => Ok t
  | p :: proofs =>
      let? r := execute_single_liquidation e p in
      execute_all e proofs
        (mkTotals (add_amounts (t_seized t) (sl_seized r)) (add_amounts (t_debt t) (sl_debt r))
           (add_amounts (t_penalties t) (sl_penalty r)) (wadd 128 (t_health t) (num (sl_health r))))
  end.

Record BatchLiquidationResult := mkBatchLiquidationResult {
  r_height : Z;
  num_liquidated : Z;
  total_seized : gmap Z Z;
  total_debt_repaid : gmap Z Z;
  total_penalties : gmap Z Z;
  avg_health_factor : Ratio;
  r_frost_signature : option FrostSignature;
}.

Fixpoint first_signature (ps : list LiquidationProposal) : option FrostSignature :=
  match ps with
  | [] => None
  | p :: ps => match frost_signature p with Some s => Some s | None => first_signature ps end
  end.

Definition execute_batch_liquidation (e : LiquidationEngine) (height : Z)
  : result (LiquidationEngine * BatchLiquidationResult) LiquidationError :=
  if bool_decide (pending_proposals e = []) then Ok (e, mkBatchLiquidationResult height 0 ∅ ∅ ∅ Ratio_ONE None)
  else
    let all := dedup_proofs (sort_proofs (mjoin (map lp_proofs (pending_proposals e)))) in
    let? t := execute_all e all (mkTotals ∅ ∅ ∅ 0) in
    let n := Z.of_nat (length all) in
    let average := if bool_decide (all = []) then Ratio_ONE else mkRatio (t_health t / n) (den Ratio_ONE) in
    Ok (e <| pending_proposals := [] |>,
        mkBatchLiquidationResult height (wrap 32 n) (t_seized t) (t_debt t) (t_penalties t) average
          (first_signature (pending_proposals e))).

(** * Finding positions to liquidate *)

(** [PrivatePositionState] of [lending/privacy.rs]. *)
Record PrivatePositionState := mkPrivatePositionState {
  owner_key : Z;
  pp_collateral : list (Z * Z);
  pp_debt : list (Z * Z);
  pp_health_factor : Ratio;
  entry_prices : list (Z * Price);
  pp_leverage : Z;
}.

Record LiquidationWitness := mkLiquidationWitness {
  viewing_key : Z;
  w_position : PrivatePositionState;
  oracle_prices : gmap Z Z;
  w_nomt_witness : bytes;
  commitment_randomness : Z;
}.

(** The sum of [value amount price] over the entries, in arithmetic that wraps. *)
Fixpoint sum_values (value : Z → Z → Z) (prices : gmap Z Z) (es : list (Z * Z)) (total : Z)
  : result Z LiquidationError :=
  match es with
  | [] => Ok total
  | (asset, amount) :: es =>
      try! price := prices !! asset else Err MissingPrice in
      sum_values value prices es (wadd 128 total (value amount price))
  end.

(** Every asset counts with 80 %. *)
Definition adjusted (amount price : Z) : Z := wmul 128 (wmul 128 amount price) 80 / 100.

Definition calculate_health_factor (w : LiquidationWitness) : result Ratio LiquidationError :=
  let? collateral := sum_values adjusted (oracle_prices w) (pp_collateral (w_position w)) 0 in
  let? debt := sum_values (wmul 128) (oracle_prices w) (pp_debt (w_position w)) 0 in
  if debt =? 0 then Ok (mkRatio (umax 64) 1) else Ok (mkRatio collateral debt).

Definition witness_liquidatable (w : LiquidationWitness) : result bool LiquidationError :=
  let? health := calculate_health_factor w in Ok (ratio_lt health Ratio_ONE).

Fixpoint checked_debt_value (prices : gmap Z Z) (es : list (Z * Z)) (total : Z) : result Z LiquidationError :=
  match es with
  | [] => Ok total
  | (asset, amount) :: es =>
      try! price := prices !! asset else Err MissingPrice in
      try! value := checked_mul amount price else Err ValueOverflow in
      try! total := checked_add total value else Err ValueOverflow in
      checked_debt_value prices es total
  end.

(** The debt and five percent. *)
Definition calculate_seized_collateral (w : LiquidationWitness) : result Z LiquidationError :=
  let? total := checked_debt_value (oracle_prices w) (pp_debt (w_position w)) 0 in
  try! v := (x ← checked_mul total 105; checked_div x 100) else Err PenaltyOverflow in
  Ok v.

Definition calculate_debt_repaid (w : LiquidationWitness) : Z :=
  foldl (fun t e => wadd 128 t e.2) 0 (pp_debt (w_position w)).

Definition hash_oracle_prices `{Sha256} (prices : gmap Z Z) : Z :=
  sha256 (mjoin (map (fun kv => to_be 32 kv.1 ++ to_le 16 kv.2) (entries prices))).

Definition generate_liquidation_proof `{Sha256} (w : LiquidationWitness) : result LiquidationProof LiquidationError :=
  let? liquidatable := witness_liquidatable w in
  if negb liquidatable then Err NotLiquidatable
  else
    let? _ := calculate_health_factor w in
    let? seized := calculate_seized_collateral w in
    let inputs := mkLiquidationPublicInputs (owner_key (w_position w)) (hash_oracle_prices (oracle_prices w)) 0 5
                    seized (calculate_debt_repaid w) 0 in
    Ok (mkLiquidationProof (li_commitment inputs) (w_nomt_witness w) inputs).
