(* ===== verification/LiquidSafe.v ===== *)
(** What liquidations promise: the penalty stays in its band and only falls, every position
    is liquidated once however often it was proposed, a batch is signed by a quorum of
    validators; and what a proposal needs to be accepted. *)
From stdpp Require Import base list gmap.
From Stdlib Require Import ZArith Lia Sorting.Sorted Sorting.Permutation.
From S2P Require Import Prelude Bytes OrdMap LendTypes Liquid.

Local Open Scope Z_scope.

(** * The penalty *)

Definition config_ok (c : LiquidationConfig) : Prop :=
  0 ≤ min_penalty_percent c ≤ max_penalty_percent c ∧ max_penalty_percent c < 2 ^ 8 ∧
  0 ≤ min_liquidation_delay c ∧ 0 < penalty_decay_blocks c ∧
  min_liquidation_delay c + penalty_decay_blocks c < 2 ^ 56.

(** The penalty [n] blocks after the delay. *)
Definition decayed (c : LiquidationConfig) (n : Z) : Z :=
  max_penalty_percent c - (max_penalty_percent c - min_penalty_percent c) * Z.min n (penalty_decay_blocks c)
                          / penalty_decay_blocks c.

Lemma calculate_penaltyE c since now :
  config_ok c → 0 ≤ since →
  calculate_penalty c since now =
    let elapsed := sat_sub now since in
    if elapsed <? min_liquidation_delay c then Err TooEarly else Ok (decayed c (elapsed - min_liquidation_delay c)).
Proof.
  intros (Hp & Hp8 & Hd & Hb & H56) Hs. unfold calculate_penalty. cbn zeta.
  set (elapsed := sat_sub now since). destruct (Z.ltb_spec elapsed (min_liquidation_delay c)) as [|He]; [done|].
  rewrite wadd_small by lia. unfold decayed. set (n := elapsed - min_liquidation_delay c).
  destruct (Z.leb_spec (min_liquidation_delay c + penalty_decay_blocks c) elapsed) as [Hl|Hl].
  - rewrite Z.min_r by lia. rewrite Z.div_mul by lia. f_equal. lia.
  - rewrite Z.min_l by lia. unfold wsub at 1 2. rewrite (wrap_small 64) by (split; lia). rewrite (wrap_small 8) by (split; lia).
    fold n. set (g := max_penalty_percent c - min_penalty_percent c).
    assert (0 ≤ g * n ≤ g * penalty_decay_blocks c) as Hg by nia.
    assert (0 ≤ g * n / penalty_decay_blocks c ≤ g) as Hq.
    { split; [apply Z.div_pos; lia|]. apply Z.div_le_upper_bound; lia. }
    rewrite wmul_small by nia. unfold checked_div. destruct (Z.eqb_spec (penalty_decay_blocks c) 0); [lia|].
    rewrite wrap_small by (split; lia). by rewrite wsub_small by lia.
Qed.

Lemma decayed_mono c n m : config_ok c → 0 ≤ n ≤ m → decayed c m ≤ decayed c n.
Proof.
  intros (Hp & _ & _ & Hb & _) Hn. unfold decayed.
  assert ((max_penalty_percent c - min_penalty_percent c) * Z.min n (penalty_decay_blocks c) / penalty_decay_blocks c
          ≤ (max_penalty_percent c - min_penalty_percent c) * Z.min m (penalty_decay_blocks c) / penalty_decay_blocks c);
    [|lia].
  apply Z.div_le_mono; [done|]. apply Z.mul_le_mono_nonneg_l; lia.
Qed.

Lemma decayed_ends c : config_ok c →
  decayed c 0 = max_penalty_percent c ∧ ∀ n, penalty_decay_blocks c ≤ n → decayed c n = min_penalty_percent c.
Proof.
  intros (Hp & _ & _ & Hb & _). unfold decayed. split.
  - rewrite Z.min_l, Z.mul_0_r, Z.div_0_l by lia. lia.
  - intros n Hn. rewrite Z.min_r, Z.div_mul by lia. lia.
Qed.

(** No liquidation is possible before the delay; at the delay the penalty is the largest,
    it never rises from one block to a later one, never leaves the band of the configuration,
    and is the smallest from the end of the decay on. *)
Lemma penalty_decays c since now :
  config_ok c → 0 ≤ since ≤ now →
  (now - since < min_liquidation_delay c → calculate_penalty c since now = Err TooEarly) ∧
  (min_liquidation_delay c ≤ now - since → ∃ p, calculate_penalty c since now = Ok p ∧
     min_penalty_percent c ≤ p ≤ max_penalty_percent c ∧
     (now - since = min_liquidation_delay c → p = max_penalty_percent c) ∧
     (min_liquidation_delay c + penalty_decay_blocks c ≤ now - since → p = min_penalty_percent c) ∧
     ∀ later q, now ≤ later → calculate_penalty c since later = Ok q → q ≤ p).
Proof.
  intros Hc Hs. pose proof Hc as (Hp & _ & Hd & Hb & _). destruct (decayed_ends c Hc) as [H0 H1].
  assert (∀ n, 0 ≤ n → min_penalty_percent c ≤ decayed c n ≤ max_penalty_percent c) as Hband.
  { intros n Hn. rewrite <-H0, <-(H1 (Z.max n (penalty_decay_blocks c))) by lia.
    split; apply decayed_mono; (done || lia). }
  rewrite calculate_penaltyE by (done || lia). cbn zeta. unfold sat_sub. rewrite Z.max_r by lia. split.
  - intros H. apply Z.ltb_lt in H. by rewrite H.
  - intros H. destruct (Z.ltb_spec (now - since) (min_liquidation_delay c)); [lia|].
    eexists. split; [done|]. split; [apply Hband; lia|]. split; [intros E; rewrite E, Z.sub_diag; done|].
    split; [intros E; apply H1; lia|]. intros later q Hl Hq.
    rewrite calculate_penaltyE in Hq by (done || lia). cbn zeta in Hq. unfold sat_sub in Hq. rewrite Z.max_r in Hq by lia.
    destruct (Z.ltb_spec (later - since) (min_liquidation_delay c)); [done|]. injection Hq as <-.
    apply decayed_mono; [done|lia].
Qed.

Lemma penalty_decays_witness :
  calculate_penalty config_default 100 107 = Ok 3 ∧ 1 ≤ 3 ≤ 5 ∧
  ∀ later q, 107 ≤ later → calculate_penalty config_default 100 later = Ok q → q ≤ 3.
Proof.
  assert (calculate_penalty config_default 100 107 = Ok 3) as E by (vm_compute; reflexivity).
  destruct (penalty_decays config_default 100 107) as [_ H]; [repeat split; cbn; lia|lia|].
  destruct H as (p & Hp & Hb & _ & _ & Hm); [cbn; lia|]. rewrite E in Hp. injection Hp as <-.
  split; [exact E|]. split; [exact Hb|exact Hm].
Defined.

(** * A batch of proposals *)

Abbreviation pkey := position_commitment.

(** The first proof submitted for a position. *)
Definition first_of (l : list LiquidationProof) (k : Z) : option LiquidationProof := find_first (fun p => pkey p =? k) l.

Lemma first_insert p l k : first_of (insert_proof p l) k = first_of (p :: l) k.
Proof.
  unfold first_of. induction l as [|q l IH]; [done|]. cbn [insert_proof].
  destruct (Z.leb_spec (pkey p) (pkey q)); [done|]. cbn [find_first] in *. rewrite IH.
  destruct (Z.eqb_spec (pkey q) k), (Z.eqb_spec (pkey p) k); (done || lia).
Qed.

Lemma first_sort l k : first_of (sort_proofs l) k = first_of l k.
Proof.
  induction l as [|p l IH]; [done|]. change (sort_proofs (p :: l)) with (insert_proof p (sort_proofs l)). rewrite first_insert. unfold first_of in *. cbn [find_first]. by rewrite IH.
Qed.

Lemma first_dedup l k : first_of (dedup_proofs l) k = first_of l k.
Proof.
  unfold first_of. induction l as [|p l IH]; [done|]. cbn [dedup_proofs find_first].
  destruct (dedup_proofs l) as [|q l'] eqn:E; cbn [find_first] in *; [by rewrite <-IH|].
  destruct (Z.eqb_spec (pkey p) (pkey q)) as [Epq|]; cbn [find_first]; rewrite <-IH.
  - destruct (Z.eqb_spec (pkey p) k), (Z.eqb_spec (pkey q) k); (done || lia).
  - done.
Qed.

Definition le_key (p q : LiquidationProof) : Prop := pkey p ≤ pkey q.
Definition lt_key (p q : LiquidationProof) : Prop := pkey p < pkey q.

Lemma insert_proof_perm p l : insert_proof p l ≡ₚ p :: l.
Proof.
  induction l as [|q l IH]; [done|]. cbn. case_match; [done|]. etrans; [by apply perm_skip|constructor].
Qed.

Lemma sort_proofs_sorted l : StronglySorted le_key (sort_proofs l).
Proof.
  induction l as [|p l IH]; [constructor|]. change (sort_proofs (p :: l)) with (insert_proof p (sort_proofs l)). revert IH. generalize (sort_proofs l).
  clear l. intros l; induction l as [|q l IH]; intros Hs; cbn; [by repeat constructor|].
  apply StronglySorted_inv in Hs as [Hs Hq]. destruct (Z.leb_spec (pkey p) (pkey q)) as [H|H].
  - constructor; [by constructor|]. constructor; [done|]. eapply Forall_impl; [exact Hq|]. unfold le_key. lia.
  - constructor; [by apply IH|]. rewrite insert_proof_perm. constructor; [unfold le_key; lia|done].
Qed.

Lemma dedup_proofs_sorted l : StronglySorted le_key l → StronglySorted lt_key (dedup_proofs l).
Proof.
  induction l as [|p l IH]; intros Hs; [constructor|]. apply StronglySorted_inv in Hs as [Hs Hp].
  specialize (IH Hs). cbn.
  assert (∀ x, x ∈ dedup_proofs l → pkey p ≤ pkey x) as Hle.
  { intros x Hx. assert (is_Some (first_of (dedup_proofs l) (pkey x))) as [y Hy].
    { apply find_first_exists with x; [done|apply Z.eqb_refl]. }
    rewrite first_dedup in Hy. apply find_first_Some in Hy as [Hy E]. apply Z.eqb_eq in E. rewrite <-E.
    rewrite Forall_forall in Hp. by apply Hp. }
  destruct (dedup_proofs l) as [|q l']; [by repeat constructor|].
  apply StronglySorted_inv in IH as [IH Hq]. pose proof (Hle q (list_elem_of_here _ _)).
  destruct (Z.eqb_spec (pkey p) (pkey q)) as [E|E].
  - constructor; [done|]. eapply Forall_impl; [exact Hq|]. unfold lt_key. lia.
  - constructor; [by constructor|]. constructor; [unfold lt_key; lia|].
    eapply Forall_impl; [exact Hq|]. unfold lt_key. lia.
Qed.

Lemma lt_sorted_NoDup l : StronglySorted lt_key l → NoDup (map pkey l).
Proof.
  induction 1 as [|p l Hs IH Hp]; [constructor|]. cbn. constructor; [|done].
  intros (q & E & Hq)%list_elem_of_fmap. rewrite Forall_forall in Hp. specialize (Hp q Hq). unfold lt_key in Hp. lia.
Qed.

Lemma first_of_unique l p : NoDup (map pkey l) → p ∈ l ↔ first_of l (pkey p) = Some p.
Proof.
  intros Hn. split; [|by intros [? _]%find_first_Some].
  induction l as [|q l IH]; [by intros ?%elem_of_nil|]. cbn in Hn. apply NoDup_cons in Hn as [Hq Hn].
  intros [->|Hp]%elem_of_cons; unfold first_of; cbn [find_first]; [by rewrite Z.eqb_refl|].
  destruct (Z.eqb_spec (pkey q) (pkey p)) as [E|]; [|by apply IH].
  destruct Hq. rewrite E. apply list_elem_of_fmap. eauto.
Qed.

(** What is executed of a list of proofs: one for each position, the first. *)
Lemma selected_spec l :
  let ls := dedup_proofs (sort_proofs l) in
  NoDup (map pkey ls) ∧ ∀ p, p ∈ ls ↔ first_of l (pkey p) = Some p.
Proof.
  intros ls. assert (NoDup (map pkey ls)) as Hn.
  { apply lt_sorted_NoDup, dedup_proofs_sorted, sort_proofs_sorted. }
  split; [done|]. intros p. rewrite first_of_unique by done. unfold ls. by rewrite first_dedup, first_sort.
Qed.

(** ** The totals *)

Definition penalty_of (e : LiquidationEngine) (p : LiquidationProof) : Z :=
  seized_collateral (public_inputs p) * max_penalty_percent (config e) / 100.

Definition in_total (m : gmap Z Z) : Z := default 0 (m !! 0).

Lemma add_single m x : in_total (add_amounts m {[0 := x]}) = wadd 128 (in_total m) x.
Proof.
  assert (entries ({[0 := x]} : gmap Z Z) = [(0, x)]) as E.
  { apply Permutation_singleton_r. rewrite entries_perm. by rewrite map_to_list_singleton. }
  unfold add_amounts, in_total. rewrite E. cbn. by rewrite lookup_insert_eq.
Qed.

Lemma wadd_sum x y z : wadd 128 (wadd 128 x y) z = wadd 128 x (y + z).
Proof. unfold wadd, wrap. rewrite Z.add_mod_idemp_l by done. f_equal. lia. Qed.

Lemma execute_all_Ok e ls : ∀ t,
  Forall (fun p => seized_collateral (public_inputs p) * max_penalty_percent (config e) < 2 ^ 128) ls →
  ∃ t', execute_all e ls t = Ok t' ∧ (ls = [] → t' = t) ∧
    (ls ≠ [] →
       in_total (t_seized t') = wadd 128 (in_total (t_seized t)) (zsum (map (fun p => seized_collateral (public_inputs p)) ls)) ∧
       in_total (t_debt t') = wadd 128 (in_total (t_debt t)) (zsum (map (fun p => debt_repaid (public_inputs p)) ls)) ∧
       in_total (t_penalties t') = wadd 128 (in_total (t_penalties t)) (zsum (map (penalty_of e) ls)) ∧
       t_health t' = wadd 128 (t_health t) (95 * Z.of_nat (length ls))).
Proof.
  induction ls as [|p ls IH]; intros t Hf; [by exists t|]. apply Forall_cons in Hf as [Hp Hf]. cbn [execute_all].
  unfold execute_single_liquidation. unfold checked_mul. destruct (Z.ltb_spec (seized_collateral (public_inputs p) * max_penalty_percent (config e)) (2 ^ 128)); [|lia].
  cbn [mbind option_bind checked_div Z.eqb].
  destruct (IH (mkTotals (add_amounts (t_seized t) {[0 := seized_collateral (public_inputs p)]})
     (add_amounts (t_debt t) {[0 := debt_repaid (public_inputs p)]})
     (add_amounts (t_penalties t) {[0 := penalty_of e p]}) (wadd 128 (t_health t) 95)) Hf) as (t' & Ht' & H0 & H1).
  exists t'. split; [exact Ht'|]. split; [done|]. intros _. destruct ls as [|q ls].
  - rewrite (H0 eq_refl). cbn. rewrite !add_single, !Z.add_0_r. done.
  - destruct (H1 ltac:(done)) as (A & B & C & D). cbn [t_seized t_debt t_penalties t_health] in *.
    rewrite add_single, wadd_sum in A. rewrite add_single, wadd_sum in B. rewrite add_single, wadd_sum in C.
    rewrite wadd_sum in D. cbn [map zsum length] in *. split_and!; [done..|]. rewrite D. f_equal. lia.
Qed.

(** Executing the pending proposals liquidates every position once, however many
    proposals name it and in whatever order, and for each it is the proof submitted first that
    counts: the totals are the sums over these proofs, and the proposals are gone. The penalty
    is the largest of the configuration for all of them, whenever they became liquidatable,
    and the average health reported is 95 over 1. *)
Lemma batch_liquidates_once e height :
  let all := mjoin (map lp_proofs (pending_proposals e)) in
  all ≠ [] → Z.of_nat (length all) < 2 ^ 64 →
  Forall (fun p => seized_collateral (public_inputs p) * max_penalty_percent (config e) < 2 ^ 128) all →
  ∃ ls e' r,
    NoDup (map pkey ls) ∧ (∀ p, p ∈ ls ↔ first_of all (pkey p) = Some p) ∧
    execute_batch_liquidation e height = Ok (e', r) ∧ pending_proposals e' = [] ∧
    num_liquidated r = wrap 32 (Z.of_nat (length ls)) ∧
    in_total (total_seized r) = wrap 128 (zsum (map (fun p => seized_collateral (public_inputs p)) ls)) ∧
    in_total (total_debt_repaid r) = wrap 128 (zsum (map (fun p => debt_repaid (public_inputs p)) ls)) ∧
    in_total (total_penalties r) = wrap 128 (zsum (map (penalty_of e) ls)) ∧
    avg_health_factor r = mkRatio 95 1.
Proof.
  intros all Hne Hlen Hf. destruct (selected_spec all) as [Hn Hin]. set (ls := dedup_proofs (sort_proofs all)) in *.
  assert (∀ p, p ∈ ls → p ∈ all) as Hsub by (intros p [? _]%Hin%find_first_Some; done).
  destruct (execute_all_Ok e ls (mkTotals ∅ ∅ ∅ 0)) as (t & Ht & _ & H).
  { rewrite Forall_forall in *. auto. }
  assert (ls ≠ []) as Hls.
  { destruct all as [|p all'] eqn:Ea; [done|]. assert (is_Some (first_of all (pkey p))) as [q Hq].
    { rewrite Ea. unfold first_of. cbn. rewrite Z.eqb_refl. eauto. }
    pose proof (find_first_Some _ _ _ Hq) as [_ E%Z.eqb_eq]. rewrite <-E, Ea in Hq. apply Hin in Hq. intros El.
    rewrite El in Hq. by apply elem_of_nil in Hq. }
  destruct (H Hls) as (A & B & C & D). cbn [t_seized t_debt t_penalties t_health] in *.
  assert (length ls ≤ length all)%nat as Hle.
  { apply submseteq_length, NoDup_submseteq; [by eapply NoDup_fmap_1|done]. }
  exists ls. eexists _, _. split; [done|]. split; [done|]. unfold execute_batch_liquidation.
  rewrite bool_decide_false. 2: { intros E. apply Hne. unfold all. by rewrite E. }
  fold all. fold ls. rewrite Ht. rewrite bool_decide_false by done.
  split; [done|]. cbn [pending_proposals num_liquidated total_seized total_debt_repaid total_penalties avg_health_factor].
  split_and!; [done|done|exact A|exact B|exact C|]. rewrite D. f_equal. unfold wadd. rewrite Z.add_0_l.
  assert (0 < Z.of_nat (length ls)) by (destruct ls; [done|cbn; lia]).
  rewrite wrap_small by (split; lia). by rewrite Z.div_mul by lia.
Qed.

(** Position 1 proposed twice, by two validators, and position 2. *)
Definition demo_claim (position seized : Z) : LiquidationProof :=
  mkLiquidationProof position [] (mkLiquidationPublicInputs position 0 0 5 seized (seized / 2) 90).
Definition demo_proposals : list LiquidationProposal :=
  [mkLiquidationProposal 0 100 [demo_claim 2 1000; demo_claim 1 500] None (Some []);
   mkLiquidationProposal 1 100 [demo_claim 1 900] None (Some [])].
Definition demo_engine : LiquidationEngine := (engine_new config_default 15) <| pending_proposals := demo_proposals |>.

Lemma batch_liquidates_once_witness :
  ∃ e' r, execute_batch_liquidation demo_engine 100 = Ok (e', r) ∧ avg_health_factor r = mkRatio 95 1 ∧
          num_liquidated r = 2 ∧ in_total (total_seized r) = 1500 ∧ in_total (total_penalties r) = 75.
Proof.
  destruct (batch_liquidates_once demo_engine 100) as (ls & e' & r & _ & _ & H & _ & _ & _ & _ & _ & Ha);
    [done|vm_compute; reflexivity|repeat constructor|].
  exists e', r. split; [exact H|]. split; [exact Ha|].
  assert (∀ e r, execute_batch_liquidation demo_engine 100 = Ok (e, r) →
          num_liquidated r = 2 ∧ in_total (total_seized r) = 1500 ∧ in_total (total_penalties r) = 75) as Hc.
  { intros e0 r0 E0. vm_compute in E0. injection E0 as <- <-. split_and!; vm_compute; reflexivity. }
  exact (Hc e' r H).
Defined.

(** * Quorums *)

(** A quorum of the [m] validators: two thirds and one more, each once. *)
Definition quorum (m : Z) (l : list Z) : Prop := NoDup l ∧ 2 * m / 3 + 1 ≤ Z.of_nat (length l) ∧ Forall (fun id => id < m) l.

Lemma dedup_length_le l : (length (dedup l) ≤ length l)%nat.
Proof.
  induction l as [|x [|y l] IH]; [done|done|].
  change (dedup (x :: y :: l)) with (if x =? y then dedup (y :: l) else x :: dedup (y :: l)).
  cbn [length] in *. case_match; cbn [length]; lia.
Qed.

Lemma dedup_full l : StronglySorted Z.le l → length (dedup l) = length l ↔ NoDup l.
Proof.
  induction l as [|x [|y l] IH]; intros Hs.
  - split; [constructor|done].
  - split; [intros _; apply NoDup_singleton|done].
  - apply StronglySorted_inv in Hs as [Hs Hx]. specialize (IH Hs).
    change (dedup (x :: y :: l)) with (if x =? y then dedup (y :: l) else x :: dedup (y :: l)).
    destruct (Z.eqb_spec x y) as [->|Hxy].
    + pose proof (dedup_length_le (y :: l)). split; [cbn [length] in *; lia|].
      intros [Hy _]%NoDup_cons. destruct Hy. constructor.
    + change (length (x :: dedup (y :: l)) = length (x :: y :: l) ↔ NoDup (x :: y :: l)).
      rewrite NoDup_cons, <-IH. cbn [length]. split; [|lia]. intros E. split; [|lia]. intros Hin.
      rewrite Forall_forall in Hx. apply StronglySorted_inv in Hs as [_ Hy]. rewrite Forall_forall in Hy.
      pose proof (Hx y (list_elem_of_here _ _)). apply elem_of_cons in Hin as [->|Hin]; [done|].
      specialize (Hy x Hin). lia.
Qed.

Lemma verify_threshold_spec sig m :
  0 ≤ m < 2 ^ 62 → threshold sig = ThresholdRequirement.ByzantineThreshold →
  verify_threshold sig m = Ok tt ↔ quorum m (signers sig).
Proof.
  intros Hm Et. unfold verify_threshold, is_met, required_signers. rewrite Et.
  assert (0 ≤ m * 2 / 3 < 2 ^ 62) by (split; [apply Z.div_pos|apply Z.div_lt_upper_bound]; lia).
  rewrite (wmul_small 64 m 2), wadd_small by lia.
  rewrite (Z.mul_comm m 2). unfold quorum.
  destruct (Z.leb_spec (2 * m / 3 + 1) (Z.of_nat (length (signers sig)))); cbn [negb]; [|split; [done|lia]].
  assert (NoDup (signers sig) ↔ length (dedup (sort_asc (signers sig))) = length (signers sig)) as ->.
  { rewrite <-(Permutation_length (sort_asc_perm (signers sig))). rewrite dedup_full by apply sort_asc_sorted.
    by rewrite sort_asc_perm. }
  destruct (Nat.eqb_spec (length (dedup (sort_asc (signers sig)))) (length (signers sig))); cbn [negb]; [|naive_solver].
  destruct (existsb _ _) eqn:E.
  - split; [done|]. intros (_ & _ & Hf). apply existsb_exists in E as (x & Hx & E). apply Z.leb_le in E.
    rewrite Forall_forall in Hf. apply list_elem_of_In in Hx. specialize (Hf x Hx). lia.
  - split; [intros _|done]. split_and!; [done|done|]. apply Forall_forall. intros x Hx. apply Z.nle_gt. intros Hle.
    assert (existsb (fun id => m <=? id) (signers sig) = true); [|congruence].
    apply existsb_exists. exists x. split; [by apply list_elem_of_In|by apply Z.leb_le].
Qed.

Lemma verify_all_true ps : verify_all_proofs ps = Ok true.
Proof. induction ps; [done|]. cbn. done. Qed.

Lemma validate_timings_Ok c h ps :
  validate_timings c h ps = Ok tt ↔
  Forall (fun p => min_liquidation_delay c ≤ sat_sub h (became_liquidatable_at (public_inputs p))) ps.
Proof.
  induction ps as [|p ps IH]; [split; [constructor|done]|]. cbn. unfold validate_timing. rewrite Forall_cons.
  destruct (Z.ltb_spec (sat_sub h (became_liquidatable_at (public_inputs p))) (min_liquidation_delay c));
    [split; [done|lia]|]. rewrite IH. naive_solver.
Qed.

(** A proposal is accepted exactly when each of its proofs says that its position has
    been liquidatable for the delay, and it carries the indices of a quorum of the validators,
    or no such list and any bytes as a legacy signature. Neither the signature, nor the
    message, nor the proofs, nor the amounts they claim are looked at. *)
Lemma proposal_accepted_iff `{Sha256} c n pending frost ds entropy p e' :
  let e := mkLiquidationEngine c Ratio_ONE pending frost ds entropy in
  fc_total_validators (coordinator frost) = n → 0 ≤ n < 2 ^ 62 →
  submit_proposal e p = Ok e' ↔
  e' = (e <| pending_proposals := pending ++ [p] |>) ∧
  Forall (fun x => min_liquidation_delay c ≤ sat_sub (lp_height p) (became_liquidatable_at (public_inputs x)))
         (lp_proofs p) ∧
  match frost_signature p with
  | Some sig => threshold sig = ThresholdRequirement.ByzantineThreshold ∧ quorum n (signers sig) ∧ quorum 15 (signers sig)
  | None => is_Some (lp_signature p)
  end.
Proof.
  intros e Hn Hm. unfold submit_proposal. rewrite verify_all_true. cbn [negb].
  assert (verify_proposal_signature e p = Ok tt ↔
    match frost_signature p with
    | Some sig => threshold sig = ThresholdRequirement.ByzantineThreshold ∧ quorum n (signers sig) ∧ quorum 15 (signers sig)
    | None => is_Some (lp_signature p)
    end) as Hsig.
  { unfold verify_proposal_signature, verify_frost_signature. destruct (frost_signature p) as [sig|].
    - case_bool_decide as Et; cbn [negb]; [|split; [done|naive_solver]].
      unfold frost_verify, verify_signature. cbn [frost_coordinator e]. rewrite Hn.
      rewrite <-(verify_threshold_spec sig n), <-(verify_threshold_spec sig 15) by (done || lia).
      destruct (verify_threshold sig n) as [[]|]; [naive_solver|]. split; [done|]. by intros (_ & ? & _).
    - destruct (lp_signature p); [naive_solver|]. split; [done|]. by intros [? ?]. }
  rewrite <-Hsig, <-validate_timings_Ok. destruct (verify_proposal_signature e p) as [[]|]; [|naive_solver].
  cbn [config e]. destruct (validate_timings c (lp_height p) (lp_proofs p)) as [[]|]; [|naive_solver].
  cbn [pending_proposals e]. naive_solver.
Qed.

Definition unsigned_claim : LiquidationProposal := mkLiquidationProposal 3 100 [demo_claim 1 (2 ^ 100)] None (Some []).

Lemma proposal_accepted_iff_witness :
  @submit_proposal spelled (engine_new config_default 15) unsigned_claim
  = Ok ((engine_new config_default 15) <| pending_proposals := [unsigned_claim] |>).
Proof.
  apply (@proposal_accepted_iff spelled config_default 15 [] (liquidation_coordinator_new 15) [] 0 unsigned_claim
           ((engine_new config_default 15) <| pending_proposals := [unsigned_claim] |>) eq_refl); [lia|].
  split; [reflexivity|]. split; [|by eexists]. constructor; [vm_compute; discriminate|constructor].
Defined.

(** * The rounds *)

(** A call of the coordinator that has succeeded; one that fails changes nothing. *)
Inductive event :=
| Started (proofs : list LiquidationProof) (height : Z)
| Committed (id : Z) (d : CommitmentData)
| Shared (id : Z) (s : SignatureShareData)
| Finalized.

Definition perform `{Sha256} (c : FrostLiquidationCoordinator) (ev : event)
  : result FrostLiquidationCoordinator LiquidationError :=
  match ev with
  | Started ps h => start_batch c ps h
  | Committed id d => add_commitment c id d
  | Shared id s => add_signature_share c id s
  | Finalized => let? r := finalize c in Ok r.1
  end.

Fixpoint perform_all `{Sha256} (evs : list event) (c : FrostLiquidationCoordinator)
  : result FrostLiquidationCoordinator LiquidationError :=
  match evs with [] => Ok c | ev :: evs => let? c := perform c ev in perform_all evs c end.

(** Nothing but commitments and shares. *)
Definition collecting (evs : list event) : Prop :=
  Forall (fun ev => match ev with Committed _ _ | Shared _ _ => True | _ => False end) evs.

(** [id] has committed and then sent a share. *)
Definition took_part (evs : list event) (id : Z) : Prop :=
  ∃ d s l1 l2 l3, evs = l1 ++ Committed id d :: l2 ++ Shared id s :: l3.

(** After the calls [log] the coordinator is idle and holds nothing, or holds what has come in
    since the last batch was started. *)
Record coordinator_ok (n : Z) (log : list event) (c : FrostLiquidationCoordinator) : Prop := {
  co_total : total_validators c = n ∧ fc_total_validators (coordinator c) = n;
  co_committed : ∀ id, is_Some (pending_commitments c !! id) → id < n;
  co_shared : ∀ id, is_Some (pending_shares c !! id) → is_Some (pending_commitments c !! id);
  co_idle : current_batch c = None → pending_commitments c = ∅;
  co_batch : ∀ batch, current_batch c = Some batch → ∃ before since,
    log = before ++ Started batch (current_height c) :: since ∧ collecting since ∧
    (∀ id, is_Some (pending_commitments c !! id) → ∃ d, Committed id d ∈ since) ∧
    (∀ id, is_Some (pending_shares c !! id) → took_part since id) ∧
    (∀ id s, Shared id s ∈ since → is_Some (pending_shares c !! id));
}.

Lemma took_part_more evs ev id : took_part evs id → took_part (evs ++ [ev]) id.
Proof.
  intros (d & s & l1 & l2 & l3 & ->). exists d, s, l1, l2, (l3 ++ [ev]).
  by rewrite <-app_assoc; cbn; rewrite <-app_assoc.
Qed.

Lemma took_part_now evs id d s : Committed id d ∈ evs → took_part (evs ++ [Shared id s]) id.
Proof.
  intros (l1 & l2 & ->)%list_elem_of_split. exists d, s, l1, l2, []. by rewrite <-app_assoc.
Qed.

Lemma took_part_shared evs id : took_part evs id → ∃ s, Shared id s ∈ evs.
Proof. intros (d & s & l1 & l2 & l3 & ->). exists s. set_solver. Qed.

Section rounds.
Context `{Sha256}.

Lemma finalize_Ok c c' sig :
  finalize c = Ok (c', sig) →
  (11 ≤ size (pending_shares c))%nat ∧ is_Some (current_batch c) ∧
  is_met ThresholdRequirement.ByzantineThreshold (Z.of_nat (size (pending_shares c))) (fc_total_validators (coordinator c)) = true ∧
  sig = mkFrostSignature (zeros 64) (keys (pending_shares c)) ThresholdRequirement.ByzantineThreshold ∧
  c' = c <| current_batch := None |> <| pending_commitments := ∅ |> <| pending_shares := ∅ |>.
Proof.
  unfold finalize, can_finalize. intros Hf. destruct (Nat.leb_spec 11 (size (pending_shares c))); [|done]. cbn [negb] in Hf.
  unfold create_signing_package in Hf. destruct (negb (can_proceed_to_round2 c)); [done|].
  destruct (current_batch c) as [batch|]; [|done]. unfold aggregate in Hf.
  destruct (is_met _ _ _); [|done]. cbn [negb] in Hf. by injection Hf as <- <-.
Qed.

Lemma perform_all_snoc evs ev c c' :
  perform_all (evs ++ [ev]) c = Ok c' ↔ ∃ c1, perform_all evs c = Ok c1 ∧ perform c1 ev = Ok c'.
Proof.
  revert c. induction evs as [|x evs IH]; intros c; cbn.
  - split; [|by intros (? & [= <-] & ->)]. intros E. exists c. split; [done|]. by destruct (perform c ev).
  - destruct (perform c x) as [c1|]; [apply IH|]. split; [done|]. by intros (? & ? & _).
Qed.

Lemma perform_ok n log c ev c' : coordinator_ok n log c → perform c ev = Ok c' → coordinator_ok n (log ++ [ev]) c'.
Proof.
  intros [[C1 C1'] C2 CS C3 C4] Hs. assert (∀ A id, is_Some ((∅ : gmap Z A) !! id) → False) as He.
  { intros A id [x Hx]. by rewrite lookup_empty in Hx. }
  destruct ev as [ps h|id d|id s|]; cbn in Hs.
  - unfold start_batch in Hs. case_bool_decide; [done|]. injection Hs as <-. split; cbn; [done|intros id []%He|intros id []%He|done|].
    intros batch [= <-]. exists log, []. split_and!; [done|constructor|intros id []%He|intros id []%He|].
    intros id s Hin. by apply not_elem_of_nil in Hin.
  - unfold add_commitment in Hs. case_bool_decide as Hb; [|done]. cbn [negb] in Hs.
    destruct (Z.leb_spec (total_validators c) id); [done|]. injection Hs as <-. split; cbn; [done| | | |].
    + intros i. rewrite lookup_insert_is_Some. intros [<-|[_ Hi]]; [lia|auto].
    + intros i Hi. rewrite lookup_insert_is_Some. destruct (decide (id = i)); auto.
    + intros Hn. rewrite Hn in Hb. by destruct Hb.
    + intros batch (before & since & -> & Hc & I1 & I2 & I3)%C4. exists before, (since ++ [Committed id d]).
      split_and!; [by rewrite <-app_assoc|by apply Forall_app; split; [|by repeat constructor]| | |].
      * intros i. rewrite lookup_insert_is_Some. intros [<-|[_ Hi]]; [exists d; set_solver|].
        destruct (I1 i Hi) as [d' ?]. exists d'. set_solver.
      * intros i Hi. by apply took_part_more, I2.
      * intros i s' [Hin|Hin]%elem_of_app; [by eapply I3|]. by apply list_elem_of_singleton in Hin.
  - unfold add_signature_share in Hs. destruct (negb (can_proceed_to_round2 c)); [done|].
    case_bool_decide as Hc; [|done]. injection Hs as <-. split; cbn; [done|done| |done|].
    { intros i. rewrite lookup_insert_is_Some. intros [<-|[_ Hi]]; auto. }
    intros batch (before & since & -> & Hcol & I1 & I2 & I3)%C4. exists before, (since ++ [Shared id s]).
    split_and!; [by rewrite <-app_assoc|by apply Forall_app; split; [|by repeat constructor]| | |].
    + intros i Hi. destruct (I1 i Hi) as [d' ?]. exists d'. set_solver.
    + intros i. rewrite lookup_insert_is_Some. intros [<-|[_ Hi]]; [|by apply took_part_more, I2].
      destruct (I1 id Hc) as [d Hd]. by eapply took_part_now.
    + intros i s' [Hin|Hin]%elem_of_app; rewrite lookup_insert_is_Some.
      * destruct (decide (id = i)); [by left|right]. split; [done|]. by eapply I3.
      * apply list_elem_of_singleton in Hin. injection Hin as -> _. by left.
  - destruct (finalize c) as [[c1 sig]|] eqn:Ef; [|done]. injection Hs as <-. cbn.
    apply finalize_Ok in Ef as (_ & _ & _ & _ & ->). by split; cbn; [|intros id []%He|intros id []%He| |].
Qed.

Lemma perform_all_ok n log c : perform_all log (liquidation_coordinator_new n) = Ok c → coordinator_ok n log c.
Proof.
  revert c. induction log as [|ev log IH] using rev_ind; intros c.
  - intros [= <-]. split; cbn; [done|intros id [x Hx]; by rewrite lookup_empty in Hx|intros id [x Hx]; by rewrite lookup_empty in Hx|done|done].
  - intros (c1 & H1 & H2)%perform_all_snoc. eapply perform_ok; [by apply IH|done].
Qed.

(** C32.  In whatever order batches are started and finalized and commitments and shares arrive, a batch is
    finalized only by a quorum for it: since the last batch was started nothing but commitments and
    shares has been taken, and the signers are exactly the validators who have sent a share since then, each after having
    committed since then; they are at least eleven different ones, two thirds and one more of all.
    The coordinator is idle again, and with fifteen validators the signature verifies for
    the batch. *)
Theorem finalized_by_quorum n log c c' sig :
  0 ≤ n < 2 ^ 62 → perform_all log (liquidation_coordinator_new n) = Ok c → finalize c = Ok (c', sig) →
  quorum n (signers sig) ∧ (11 ≤ length (signers sig))%nat ∧ status c' = Idle ∧
  ∃ before batch height since,
    log = before ++ Started batch height :: since ∧ collecting since ∧
    (∀ id, id ∈ signers sig ↔ ∃ s, Shared id s ∈ since) ∧
    (∀ id, id ∈ signers sig → took_part since id) ∧
    (n = 15 → verify_batch_signature c' batch height sig = Ok tt).
Proof.
  intros Hn [[C1 C1'] C2 CS _ C4]%perform_all_ok Hf.
  apply finalize_Ok in Hf as (H11 & [batch Hb] & Hm & -> & ->). rewrite C1' in Hm. cbn [signers].
  destruct (C4 batch Hb) as (before & since & Elog & Hcol & I1 & I2 & I3).
  assert (length (keys (pending_shares c)) = size (pending_shares c)) as Hlen.
  { unfold keys. by rewrite length_fmap, length_entries. }
  assert (quorum n (keys (pending_shares c))) as Hq.
  { unfold is_met, required_signers in Hm. apply Z.leb_le in Hm.
    assert (0 ≤ n * 2 / 3 < 2 ^ 62) by (split; [apply Z.div_pos|apply Z.div_lt_upper_bound]; lia).
    rewrite (wmul_small 64 n 2), wadd_small, (Z.mul_comm n 2) in Hm by lia.
    split_and!; [apply keys_NoDup|by rewrite Hlen|]. apply Forall_forall. intros id Hid%elem_of_keys.
    auto. }
  split; [done|]. split; [by rewrite Hlen|]. split; [done|].
  exists before, batch, (current_height c), since. split_and!; [done|done| | |].
  - intros id. rewrite elem_of_keys. split; [intros Hi; by apply took_part_shared, I2|]. intros [s Hs]. by eapply I3.
  - intros id Hid%elem_of_keys. by apply I2.
  - intros ->. set (sig := mkFrostSignature _ _ _).
    assert (verify_threshold sig 15 = Ok tt) as E by (apply verify_threshold_spec; [lia|done|exact Hq]).
    unfold verify_batch_signature, frost_verify, verify_signature. rewrite bool_decide_true by done. cbn [negb].
    assert (fc_total_validators (coordinator (c <| current_batch := None |> <| pending_commitments := ∅ |>
      <| pending_shares := ∅ |>)) = 15) as -> by done.
    by rewrite E.
Qed.
End rounds.

(** Eleven of fifteen sign a batch, and then eleven others another. *)
Definition demo_round (proofs : list LiquidationProof) (height : Z) (ids : list Z) : list event :=
  Started proofs height :: map (fun id => Committed id (mkCommitmentData [] [])) ids
  ++ map (fun id => Shared id (mkSignatureShareData [])) ids.
Definition demo_log : list event :=
  demo_round [demo_claim 1 500] 100 (seqZ 2 11) ++ Finalized :: demo_round [demo_claim 2 700] 101 (seqZ 4 11).
Definition demo_ready : FrostLiquidationCoordinator :=
  match @perform_all spelled demo_log (liquidation_coordinator_new 15) with
  | Ok c => c | Err _ => liquidation_coordinator_new 15 end.

Definition demo_finalized : FrostLiquidationCoordinator * FrostSignature :=
  match @finalize spelled demo_ready with
  | Ok cs => cs
  | Err _ => (demo_ready, mkFrostSignature [] [] ThresholdRequirement.AnyValidator)
  end.

Lemma finalized_by_quorum_witness :
  signers demo_finalized.2 = seqZ 4 11 ∧
  ∃ before batch height since, demo_log = before ++ Started batch height :: since ∧ collecting since ∧
    (∀ id, id ∈ signers demo_finalized.2 ↔ ∃ s, Shared id s ∈ since) ∧
    @verify_batch_signature spelled demo_finalized.1 batch height demo_finalized.2 = Ok tt.
Proof.
  assert (@perform_all spelled demo_log (liquidation_coordinator_new 15) = Ok demo_ready) as Hr by (vm_compute; reflexivity).
  assert (@finalize spelled demo_ready = Ok (demo_finalized.1, demo_finalized.2)) as Hf by (vm_compute; reflexivity).
  split; [vm_compute; reflexivity|].
  destruct (@finalized_by_quorum spelled 15 demo_log demo_ready _ _ ltac:(lia) Hr Hf)
    as (_ & _ & _ & before & batch & height & since & E & Hc & Hs & _ & Hv).
  exists before, batch, height, since. exact (conj E (conj Hc (conj Hs (Hv eq_refl)))).
Defined.

(** * Delegates *)

(** The fallback after the loop over the stakes is never reached, as the code's comment says. *)
Lemma weighted_pick_found ds : ∀ r cumulative,
  Forall (fun d => 0 ≤ stake d) ds → 0 ≤ cumulative → cumulative + zsum (map stake ds) < 2 ^ 64 →
  r < cumulative + zsum (map stake ds) → 0 ≤ r → cumulative ≤ r → ∃ d, pick_weighted r cumulative ds = Some d ∧ d ∈ ds.
Proof.
  induction ds as [|d ds IH]; intros r cumulative Hf Hc Hs Hr H0 Hcr; cbn in *; [lia|].
  apply Forall_cons in Hf as [Hd Hf]. assert (0 ≤ zsum (map stake ds)).
  { apply zsum_nonneg, Forall_map. eapply Forall_impl; [exact Hf|done]. }
  rewrite wadd_small by lia. destruct (Z.ltb_spec r (cumulative + stake d)).
  - exists d. split; [done|constructor].
  - destruct (IH r (cumulative + stake d)) as (x & Hx & Hin); [done|lia..|]. exists x. split; [done|by constructor].
Qed.

Lemma selected_delegate_active blake3 ds entropy position slot d :
  select_delegate blake3 ds entropy position slot = Some d → d ∈ ds ∧ active d = true.
Proof.
  unfold select_delegate. case_bool_decide; [done|]. intros Hd%list_elem_of_lookup_2.
  unfold active_delegates in Hd. apply list_elem_of_In, filter_In in Hd as [Hin Ha]. split; [by apply list_elem_of_In|done].
Qed.
