(* ===== verification/LendPrivacy.v ===== *)
(** Private positions, [crates/zeratul-blockchain/src/lending/privacy.rs]: positions kept under
    commitments, with nullifiers that entitle to change them.

    SHA-256 and the serialization of a position are parameters; the randomness of a commitment
    is an argument, the proofs that the code stores without reading are left out.  Decrypting
    and finding liquidatable positions are placeholders in the code and are left out. *)
From stdpp Require Import base list gmap strings.
From Stdlib Require Import ZArith Lia.
From S2P Require Import Prelude Bytes OrdMap LendTypes Liquid.

Local Open Scope Z_scope.

Record EncryptedPosition := mkEncryptedPosition { ep_commitment : Z; ep_nullifier : Z; ciphertext : bytes }.

Record PrivatePositionManager := mkPrivatePositionManager {
  m_positions : gmap Z EncryptedPosition;
  m_nullifiers : gset Z;
}.
#[export] Instance manager_eta : Eta PrivatePositionManager := fun m =>
  mkPrivatePositionManager (m_positions m) (m_nullifiers m).

Definition manager_new : PrivatePositionManager := mkPrivatePositionManager ∅ ∅.

Section manager.
Context `{Sha256} (serialize : PrivatePositionState → bytes).

Definition create_commitment (viewing_key : Z) (collateral : list (Z * Z)) (leverage randomness : Z) : Z :=
  sha256 (to_be 32 viewing_key ++ mjoin (map (fun aa => to_be 32 aa.1 ++ to_le 16 aa.2) collateral)
          ++ to_le 1 leverage ++ to_be 32 randomness).

Definition create_nullifier (viewing_key commitment : Z) : Z :=
  sha256 (to_be 32 viewing_key ++ to_be 32 commitment ++ ascii "nullifier").

(** Storing a position under its commitment and nullifier. *)
Definition store (m : PrivatePositionManager) (commitment nullifier : Z) (s : PrivatePositionState) : PrivatePositionManager :=
  m <| m_positions := <[commitment := mkEncryptedPosition commitment nullifier (serialize s)]> (m_positions m) |>
    <| m_nullifiers := {[nullifier]} ∪ m_nullifiers m |>.

Definition open_position (m : PrivatePositionManager) (viewing_key : Z) (collateral : list (Z * Z))
    (leverage randomness : Z) : PrivatePositionManager * Z :=
  let commitment := create_commitment viewing_key collateral leverage randomness in
  let nullifier := create_nullifier viewing_key commitment in
  (store m commitment nullifier (mkPrivatePositionState viewing_key collateral [] Ratio_ONE [] leverage), commitment).

(** [None] is the error. *)
Definition update_position (m : PrivatePositionManager) (old_commitment old_nullifier : Z)
    (new_state : PrivatePositionState) (viewing_key randomness : Z) : option (PrivatePositionManager * Z) :=
  if bool_decide (old_nullifier ∈ m_nullifiers m) then
    let m := m <| m_positions := delete old_commitment (m_positions m) |>
               <| m_nullifiers := m_nullifiers m ∖ {[old_nullifier]} |> in
    let commitment := create_commitment viewing_key (pp_collateral new_state) (pp_leverage new_state) randomness in
    let nullifier := create_nullifier viewing_key commitment in
    Some (store m commitment nullifier new_state, commitment)
  else None.

(** A nullifier entitles once, as long as the one drawn next differs. *)
Lemma nullifier_spent m c nf s key r m' c' :
  update_position m c nf s key r = Some (m', c') → create_nullifier key c' ≠ nf →
  ∀ c2 s2 key2 r2, update_position m' c2 nf s2 key2 r2 = None.
Proof.
  unfold update_position. case_bool_decide; [|done]. intros [= <- <-] Hne c2 s2 key2 r2.
  rewrite bool_decide_false; [done|]. cbn. set_solver.
Qed.

(** Any nullifier entitles to replace any position: the code does not look whether it belongs
    to the commitment that is removed. *)
Lemma foreign_position_removed m mine other nf s key r :
  nf ∈ m_nullifiers m → is_Some (m_positions m !! other) → mine ≠ other →
  create_commitment key (pp_collateral s) (pp_leverage s) r ≠ other →
  ∃ m' c, update_position m other nf s key r = Some (m', c) ∧ m_positions m' !! other = None ∧
          (is_Some (m_positions m !! mine) → is_Some (m_positions m' !! mine)).
Proof.
  intros Hn Ho Hm Hc. unfold update_position. rewrite bool_decide_true by done. eexists _, _. split; [done|]. cbn. split.
  - rewrite lookup_insert_ne by done. apply lookup_delete_eq.
  - intros Hs. rewrite lookup_insert_is_Some, lookup_delete_ne by done. destruct (decide (create_commitment key (pp_collateral s) (pp_leverage s) r = mine)); auto.
Qed.
End manager.
