(* ===== verification/BatchTree.v ===== *)
(** Merkle trees whose leaves are opened in batches, [merkle-tree/src]: trees ([lib.rs]), proofs
    for several leaves at once and their check ([batch.rs]); an honest proof is accepted for
    any leaves that are asked for in order, and leaves that are accepted are those of the
    tree.

    A leaf is the bytes of a value; SHA-256 is a parameter.  A panic is [None]. *)
From stdpp Require Import base list sets.
From Stdlib Require Import ZArith Lia Sorting.Sorted.
From S2P Require Import Prelude Bytes Merkle.

Section tree.
Context `{Sha256}.

Record CompleteMerkleTree := mkTree { layers : list (list bytes) }.

Definition is_power_of_two (n : nat) : bool := (0 <? n) && (Nat.land n (n - 1) =? 0).

Definition hash_leaf (leaf : bytes) : bytes := to_be 32 (sha256 leaf).
Definition hash_siblings (left right : bytes) : bytes := to_be 32 (sha256 (left ++ right)).

(** [chunks_exact(2)] of a layer, hashed. *)
Fixpoint next_layer (layer : list bytes) : list bytes :=
  match layer with a :: b :: layer => hash_siblings a b :: next_layer layer | _ => [] end.

Fixpoint build_layers (fuel : nat) (current_layer : list bytes) : list (list bytes) :=
  match fuel with
  | O => [current_layer]
  | S fuel =>
      if 1 <? length current_layer then current_layer :: build_layers fuel (next_layer current_layer)
      else [current_layer]
  end.

Definition build_merkle_tree (leaves : list bytes) : option CompleteMerkleTree :=
  if length leaves =? 0 then Some (mkTree [])
  else if negb (is_power_of_two (length leaves)) then None
  else Some (mkTree (build_layers (length leaves) (map hash_leaf leaves))).

Definition get_root (t : CompleteMerkleTree) : option bytes := last (layers t) ≫= head.
Definition get_depth (t : CompleteMerkleTree) : nat := if length (layers t) =? 0 then 0 else length (layers t) - 1.

(** * Proofs *)

Definition sibling_of (query : nat) : nat := Nat.lxor query 1.

(** One layer: the queries of the next, and the siblings that are pushed.  The code rewrites
    the queries in place, behind the place it reads. *)
Fixpoint ith_layer (current_layer : list bytes) (queries : list nat) : option (list nat * list bytes) :=
  match queries with
  | [] => Some ([], [])
  | query :: queries' =>
      let push r :=
        match current_layer !! sibling_of query, r with
        | Some s, Some (next, siblings) => Some (Nat.div2 query :: next, s :: siblings)
        | _, _ => None
        end in
      match queries' with
      | [] => push (Some ([], []))
      | query' :: queries'' =>
          if Nat.odd query then push (ith_layer current_layer queries')
          else if negb (query' =? sibling_of query) then push (ith_layer current_layer queries')
          else
            match ith_layer current_layer queries'' with
            | Some (next, siblings) => Some (Nat.div2 query :: next, siblings)
            | None => None
            end
      end
  end.

Fixpoint prove_layers (ls : list (list bytes)) (queries : list nat) : option (list bytes) :=
  match ls with
  | [] => Some []
  | layer :: ls =>
      match ith_layer layer queries with
      | Some (next, siblings) =>
          match prove_layers ls next with Some r => Some (siblings ++ r) | None => None end
      | None => None
      end
  end.

Definition prove_batch (t : CompleteMerkleTree) (queries : list nat) : option (list bytes) :=
  let depth := get_depth t in
  if (depth =? 0) || (length queries =? 0) then Some []
  else prove_layers (take depth (layers t)) queries.

(** * Verification *)

(** One layer of queries with their hashes; a sibling that is missing from the proof is zero,
    and counted. *)
Fixpoint verify_ith_layer (proof : list bytes) (l : list (nat * bytes)) (proof_cnt : nat) : list (nat * bytes) * nat :=
  match l with
  | [] => ([], proof_cnt)
  | (query, h) :: l' =>
      let pp := default (zeros 32) (proof !! proof_cnt) in
      let alone := (Nat.div2 query, if Nat.odd query then hash_siblings pp h else hash_siblings h pp) in
      match l' with
      | [] => ([alone], S proof_cnt)
      | (query', h') :: l'' =>
          if Nat.odd query || negb (query' =? sibling_of query) then
            let '(next, cnt) := verify_ith_layer proof l' (S proof_cnt) in (alone :: next, cnt)
          else
            let '(next, cnt) := verify_ith_layer proof l'' proof_cnt in
            ((Nat.div2 query, hash_siblings h h') :: next, cnt)
      end
  end.

Fixpoint verify_layers (depth : nat) (proof : list bytes) (l : list (nat * bytes)) (proof_cnt : nat) : list (nat * bytes) * nat :=
  match depth with
  | O => (l, proof_cnt)
  | S depth => let '(l, cnt) := verify_ith_layer proof l proof_cnt in verify_layers depth proof l cnt
  end.

(** Fewer leaves than indices panic. *)
Definition verify_batch (root : option bytes) (proof : list bytes) (depth : nat) (leaves : list bytes) (leaf_indices : list nat)
  : option bool :=
  match root with
  | None => Some false
  | Some expected_root =>
      if depth =? 0 then
        Some (match leaves, leaf_indices with
              | [leaf], [O] => bool_decide (hash_leaf leaf = expected_root)
              | _, _ => false
              end)
      else if length leaves <? length leaf_indices then None
      else
        let '(l, proof_cnt) := verify_layers depth proof (zip leaf_indices (map hash_leaf leaves)) 0 in
        Some (match l with
              | [(_, h)] => (proof_cnt =? length proof) && bool_decide (h = expected_root)
              | _ => false
              end)
  end.
End tree.

Section safe.
Context `{Sha256}.

#[local] Abbreviation hashes := (Forall (fun l : bytes => length l = 32)).

Lemma hash_leaf_32 x : length (hash_leaf x) = 32.
Proof. apply length_to_be. Qed.

(** * The code's trees are those of [Merkle] *)

Lemma next_layer_level l : next_layer l = level hash_leaf l.
Proof. revert l. fix IH 1. intros [|a [|b l]]; [done..|]. cbn. by rewrite IH. Qed.

Lemma lxor_double k : Nat.lxor (2 * k) 1 = 2 * k + 1.
Proof.
  symmetry. apply Nat.add_nocarry_lxor. change 1 with (Nat.ones 1). by rewrite Nat.land_ones, Nat.mul_comm, Nat.Div0.mod_mul.
Qed.

Lemma sibling_of_sibling q : sibling_of q = sibling q.
Proof.
  unfold sibling_of, sibling. destruct (Nat.Even_or_Odd q) as [[k ->]|[k ->]].
  - rewrite lxor_double, Nat.even_mul. cbn [Nat.even orb]. lia.
  - rewrite <-lxor_double, Nat.lxor_assoc, Nat.lxor_nilpotent, Nat.lxor_0_r, lxor_double.
    rewrite Nat.even_add, Nat.even_mul. cbn. lia.
Qed.

Lemma is_power_spec d : is_power_of_two (2 ^ d) = true.
Proof.
  unfold is_power_of_two. pose proof (Nat.pow_nonzero 2 d). rewrite (proj2 (Nat.ltb_lt _ _)) by lia.
  apply Nat.eqb_eq. replace (2 ^ d - 1) with (Nat.ones d) by (rewrite Nat.ones_equiv; lia).
  rewrite Nat.land_ones. apply Nat.Div0.mod_same.
Qed.

(** The layers, bottom up. *)
Definition layers_of (d : nat) (ls : list bytes) : list (list bytes) := map (fun k => up hash_leaf k ls) (seq 0 (S d)).

Lemma layers_of_S d ls : layers_of (S d) ls = ls :: layers_of d (level hash_leaf ls).
Proof.
  unfold layers_of. change (seq 0 (S (S d))) with (0 :: seq 1 (S d)). cbn [map up]. f_equal.
  rewrite <-seq_shift, map_map. by apply map_ext.
Qed.

Lemma build_layers_spec d fuel ls : length ls = 2 ^ d → d ≤ fuel → build_layers fuel ls = layers_of d ls.
Proof.
  revert fuel ls. induction d as [|d IH]; intros fuel ls Hl Hf.
  - destruct fuel; cbn in *; [done|]. by rewrite Hl.
  - destruct fuel as [|fuel]; [lia|]. cbn [build_layers]. rewrite layers_of_S, next_layer_level. rewrite Hl.
    rewrite pow_S in *. pose proof (Nat.pow_nonzero 2 d). rewrite (proj2 (Nat.ltb_lt _ _)) by lia.
    f_equal. apply IH; [by apply length_level|lia].
Qed.

Lemma build_tree d leaves :
  length leaves = 2 ^ d → build_merkle_tree leaves = Some (mkTree (layers_of d (map hash_leaf leaves))).
Proof.
  intros Hl. unfold build_merkle_tree. rewrite Hl, is_power_spec. pose proof (Nat.pow_nonzero 2 d).
  rewrite (proj2 (Nat.eqb_neq _ _)) by lia. cbn [negb]. do 2 f_equal.
  apply build_layers_spec; [by rewrite length_map|]. pose proof (Nat.pow_gt_lin_r 2 d). lia.
Qed.

Lemma depth_of d ls : get_depth (mkTree (layers_of d ls)) = d.
Proof. unfold get_depth, layers_of. cbn [layers]. rewrite length_map, length_seq. cbn. lia. Qed.

Lemma root_of d ls : length ls = 2 ^ d → hashes ls → get_root (mkTree (layers_of d ls)) = Some (root hash_leaf d ls).
Proof.
  intros Hl Hh. unfold get_root, layers_of. cbn [layers]. rewrite seq_S, map_app. cbn [map]. rewrite last_snoc.
  change (0 + d) with d. pose proof (root_up hash_leaf d 0 ls) as Er. rewrite Nat.add_0_r in Er. rewrite Er.
  destruct (up_ok hash_leaf hash_leaf_32 d 0 ls) as [Hu _]; [by rewrite Nat.add_0_r|done|].
  by destruct (up hash_leaf d ls) as [|x [|? ?]].
Qed.

(** * One layer *)

(** Queries in order. *)
#[local] Abbreviation ordered := (StronglySorted lt).

Lemma div2_sibling q q' : q < q' → q' ≠ sibling q ∨ Nat.odd q = true → Nat.div2 q < Nat.div2 q'.
Proof.
  intros Hlt Hs. unfold sibling in Hs. rewrite !Nat.div2_div. destruct (Nat.Even_or_Odd q) as [[k ->]|[k ->]].
  - rewrite Nat.even_mul, Nat.odd_mul in Hs. cbn in Hs. rewrite (Nat.mul_comm 2 k), Nat.div_mul by done.
    apply Nat.div_le_lower_bound; [done|]. destruct Hs; [lia|done].
  - replace ((2 * k + 1) / 2) with k by (rewrite Nat.mul_comm, Nat.div_add_l by done; cbn; lia).
    apply Nat.div_le_lower_bound; lia.
Qed.

(** The nodes that a list of queries stands for. *)
Definition opened (ls : list bytes) (queries : list nat) : list (nat * bytes) := map (fun q => (q, ls !!! q)) queries.

Lemma parent_hash n ls q :
  length ls = 2 * n → q < 2 * n →
  (if Nat.odd q then hash_siblings (ls !!! sibling q) (ls !!! q) else hash_siblings (ls !!! q) (ls !!! sibling q)) =
  level hash_leaf ls !!! Nat.div2 q.
Proof.
  intros Hl Hq. rewrite Nat.div2_div, (level_at hash_leaf ls n q) by done. unfold join. rewrite <-Nat.negb_even.
  by destruct (Nat.even q).
Qed.

(** A query whose sibling is not the next one. *)
Definition alone (q : nat) (tl : list nat) : Prop := match tl with [] => True | q' :: _ => Nat.odd q = true ∨ q' ≠ sibling q end.

Lemma ith_layer_alone ls q tl :
  alone q tl →
  ith_layer ls (q :: tl) =
  match ls !! sibling q, ith_layer ls tl with Some s, Some (next, siblings) => Some (Nat.div2 q :: next, s :: siblings) | _, _ => None end.
Proof.
  intros Ha. cbn [ith_layer]. rewrite sibling_of_sibling. destruct tl as [|q' tl]; [done|]. cbn in Ha.
  destruct (Nat.odd q); [done|]. destruct (Nat.eqb_spec q' (sibling q)) as [->|]; [|done]. by destruct Ha.
Qed.

Lemma verify_layer_alone proof q h l cnt :
  alone q (map fst l) →
  verify_ith_layer proof ((q, h) :: l) cnt =
  let pp := default (zeros 32) (proof !! cnt) in
  let '(next, c) := verify_ith_layer proof l (S cnt) in
  ((Nat.div2 q, if Nat.odd q then hash_siblings pp h else hash_siblings h pp) :: next, c).
Proof.
  intros Ha. cbn [verify_ith_layer]. rewrite sibling_of_sibling. destruct l as [|[q' h'] l]; [done|]. cbn in Ha.
  destruct (Nat.odd q); [done|]. destruct (Nat.eqb_spec q' (sibling q)) as [->|]; [|done]. by destruct Ha.
Qed.

Lemma verify_layer_pair proof q h h' l cnt :
  Nat.odd q = false →
  verify_ith_layer proof ((q, h) :: (sibling q, h') :: l) cnt =
  let '(next, c) := verify_ith_layer proof l cnt in ((Nat.div2 q, hash_siblings h h') :: next, c).
Proof. intros Ho. cbn [verify_ith_layer]. rewrite sibling_of_sibling, Ho, Nat.eqb_refl. done. Qed.

Lemma alone_or_pair q tl : alone q tl ∨ ∃ tl', tl = sibling q :: tl' ∧ Nat.odd q = false.
Proof.
  destruct tl as [|q' tl]; [by left|]. cbn. destruct (Nat.odd q) eqn:Ho; [by left; left|].
  destruct (decide (q' = sibling q)) as [->|]; [right; by eexists|left; by right].
Qed.

(** What the prover of a layer pushes is what its verifier takes. *)
Definition honest (n : nat) (ls : list bytes) (queries : list nat) : Prop :=
  ∃ next siblings, ith_layer ls queries = Some (next, siblings) ∧ ordered next ∧ Forall (fun q => q < n) next ∧
    (queries ≠ [] → next ≠ []) ∧ (∀ q', q' ∈ next → ∃ q, q ∈ queries ∧ q' = Nat.div2 q) ∧
    ∀ pre post, verify_ith_layer (pre ++ siblings ++ post) (opened ls queries) (length pre) =
      (opened (level hash_leaf ls) next, length pre + length siblings).

Section layer.
Context (n : nat) (ls : list bytes).
Hypothesis layer_length : length ls = 2 * n.

Lemma honest_nil : honest n ls [].
Proof.
  exists [], []. split_and!; try done; [constructor|set_solver|]. intros pre post. cbn. by rewrite Nat.add_0_r.
Qed.

Lemma half_lt q : q < 2 * n → Nat.div2 q < n.
Proof. intros Hq. rewrite Nat.div2_div. apply Nat.Div0.div_lt_upper_bound. lia. Qed.

(** The next queries stay in order when one is put in front of them. *)
Lemma ordered_next q (tl next : list nat) :
  (∀ q', q' ∈ tl → Nat.div2 q < Nat.div2 q') → (∀ q', q' ∈ next → ∃ q, q ∈ tl ∧ q' = Nat.div2 q) → ordered next →
  ordered (Nat.div2 q :: next).
Proof.
  intros Hlt Hn Ho. constructor; [done|]. apply Forall_forall. intros q' (q'' & Hq'' & ->)%Hn. by apply Hlt.
Qed.

Lemma honest_alone q tl :
  alone q tl → Forall (lt q) tl → ordered tl → q < 2 * n → honest n ls tl → honest n ls (q :: tl).
Proof.
  intros Ha Hgt Ho Hq (next & siblings & E & Hon & Hr & _ & Hd & Hv). exists (Nat.div2 q :: next), (ls !!! sibling q :: siblings).
  assert (sibling q < length ls) as Hs by (rewrite layer_length; by apply sibling_lt).
  rewrite ith_layer_alone, E, (list_lookup_lookup_total_lt ls) by done. split; [done|]. split.
  { eapply ordered_next; [|exact Hd|done]. intros q' Hq'. rewrite Forall_forall in Hgt.
    apply div2_sibling; [by apply Hgt|]. destruct tl as [|q0 tl]; [by apply elem_of_nil in Hq'|]. cbn in Ha.
    destruct Ha as [|Hne]; [by right|]. destruct (Nat.odd q) eqn:Hodd; [by right|]. left.
    pose proof (Hgt q0 ltac:(left)) as Hq0. unfold sibling in *. rewrite <-Nat.negb_even in Hodd. apply negb_false_iff in Hodd.
    rewrite Hodd in *. apply elem_of_cons in Hq' as [->|Hq']; [done|]. apply StronglySorted_inv in Ho as [_ Ho].
    rewrite Forall_forall in Ho. specialize (Ho q' Hq'). lia. }
  split; [by constructor; [apply half_lt|]|]. split; [done|]. split.
  { intros q' [->|Hq']%elem_of_cons; [exists q; split; [left|done]|]. apply Hd in Hq' as (q'' & ? & ->). exists q''. split; [by right|done]. }
  intros pre post. cbn [opened map]. fold (opened ls tl). rewrite verify_layer_alone by (unfold opened; by rewrite map_map, map_id).
  specialize (Hv (pre ++ [ls !!! sibling q]) post). rewrite length_app, <-app_assoc in Hv. cbn [length app] in *.
  rewrite Nat.add_1_r in Hv. rewrite Hv, list_lookup_middle by done. cbn [default from_option]. unfold id.
  rewrite (parent_hash n) by done. cbn [length opened map]. f_equal. lia.
Qed.

Lemma honest_pair q tl :
  Nat.odd q = false → Forall (lt q) (sibling q :: tl) → ordered (sibling q :: tl) → q < 2 * n → honest n ls tl →
  honest n ls (q :: sibling q :: tl).
Proof.
  intros Hodd Hgt Ho Hq (next & siblings & E & Hon & Hr & _ & Hd & Hv). exists (Nat.div2 q :: next), siblings.
  cbn [ith_layer]. rewrite sibling_of_sibling, Hodd, Nat.eqb_refl, E. split; [done|]. split.
  { eapply ordered_next; [|exact Hd|done]. intros q' Hq'. apply StronglySorted_inv in Ho as [_ Ho].
    rewrite Forall_forall in Ho. specialize (Ho q' Hq'). apply Forall_cons in Hgt as [Hgt _].
    apply div2_sibling; [lia|left; lia]. }
  split; [by constructor; [apply half_lt|]|]. split; [done|]. split.
  { intros q' [->|Hq']%elem_of_cons; [exists q; split; [left|done]|]. apply Hd in Hq' as (q'' & ? & ->).
    exists q''. split; [by right; right|done]. }
  intros pre post. cbn [opened map]. fold (opened ls tl). rewrite verify_layer_pair, Hv by done.
  pose proof (parent_hash n ls q layer_length Hq) as Ep. rewrite Hodd in Ep. by rewrite Ep.
Qed.

Lemma layer_honest queries : ordered queries → Forall (fun q => q < 2 * n) queries → honest n ls queries.
Proof.
  assert (∀ m queries, length queries ≤ m → ordered queries → Forall (fun q => q < 2 * n) queries → honest n ls queries) as Hm;
    [|by apply (Hm (length queries))]. clear queries.
  induction m as [|m IH]; intros [|q tl] Hlen Ho Hr; [apply honest_nil|cbn in Hlen; lia|apply honest_nil|].
  apply StronglySorted_inv in Ho as [Ho Hgt]. apply Forall_cons in Hr as [Hq Hr]. cbn in Hlen.
  destruct (alone_or_pair q tl) as [Ha|(tl' & -> & Hodd)].
  - apply honest_alone; try done. apply IH; [lia|done|done].
  - apply honest_pair; try done. apply StronglySorted_inv in Ho as [Ho _]. apply Forall_cons in Hr as [_ Hr].
    apply IH; [cbn in Hlen; lia|done|done].
Qed.
End layer.

(** * All layers *)

Lemma layers_honest d ls queries :
  length ls = 2 ^ d → queries ≠ [] → ordered queries → Forall (fun q => q < 2 ^ d) queries →
  ∃ siblings, prove_layers (take d (layers_of d ls)) queries = Some siblings ∧
    ∀ pre post, verify_layers d (pre ++ siblings ++ post) (opened ls queries) (length pre) =
      ([(0, root hash_leaf d ls)], length pre + length siblings).
Proof.
  revert ls queries. induction d as [|d IH]; intros ls queries Hl Hne Ho Hr.
  - assert (queries = [0]) as ->.
    { destruct queries as [|q [|q' tl]]; [done| |].
      - apply Forall_cons in Hr as [Hq _]. cbn in Hq. f_equal. lia.
      - apply Forall_cons in Hr as [Hq Hr]. apply Forall_cons in Hr as [Hq' _]. apply StronglySorted_inv in Ho as [_ Hgt].
        apply Forall_cons in Hgt as [Hlt _]. cbn in *. lia. }
    exists []. split; [done|]. intros pre post. cbn. by rewrite Nat.add_0_r.
  - rewrite pow_S in Hl, Hr.
    destruct (layer_honest (2 ^ d) ls Hl queries Ho Hr) as (next & sib & E & Hon & Hrn & Hnn & _ & Hv).
    rewrite layers_of_S. cbn [take prove_layers]. rewrite E.
    destruct (IH (level hash_leaf ls) next) as (siblings & Es & Hvs); [by apply length_level|by apply Hnn|done|done|].
    rewrite Es. exists (sib ++ siblings). split; [done|]. intros pre post. cbn [verify_layers].
    rewrite <-app_assoc, (Hv pre), length_app. specialize (Hvs (pre ++ sib) post).
    rewrite <-app_assoc, length_app in Hvs. rewrite Hvs. f_equal. lia.
Qed.

Lemma zip_opened (leaves : list bytes) queries :
  Forall (fun q => q < length leaves) queries →
  zip queries (map hash_leaf (map (fun q => leaves !!! q) queries)) = opened (map hash_leaf leaves) queries.
Proof.
  intros Hr. induction Hr as [|q queries Hq Hr IH]; [done|]. cbn [map zip zip_with opened]. f_equal; [|exact IH].
  f_equal. symmetry. apply list_lookup_total_correct. by rewrite list_lookup_fmap, (list_lookup_lookup_total_lt leaves).
Qed.

Lemma only_zero queries : queries ≠ [] → ordered queries → Forall (fun q => q < 1) queries → queries = [0].
Proof.
  intros Hne Ho Hr. destruct queries as [|q [|q' tl]]; [done| |].
  - apply Forall_cons in Hr as [Hq _]. f_equal. lia.
  - apply Forall_cons in Hr as [Hq Hr]. apply Forall_cons in Hr as [Hq' _]. apply StronglySorted_inv in Ho as [_ Hgt].
    apply Forall_cons in Hgt as [Hlt _]. lia.
Qed.

(** C39.  Every batch of leaves opens: for a tree of a power of two leaves and any places in
    ascending order, the prover finds all the siblings it needs and its proof is accepted
    with the leaves at these places. *)
Theorem honest_openings_verify d leaves queries :
  length leaves = 2 ^ d → queries ≠ [] → ordered queries → Forall (fun q => q < 2 ^ d) queries →
  ∃ t proof, build_merkle_tree leaves = Some t ∧ prove_batch t queries = Some proof ∧ get_depth t = d ∧
    verify_batch (get_root t) proof d (map (fun q => leaves !!! q) queries) queries = Some true.
Proof.
  intros Hl Hne Ho Hr. set (ls := map hash_leaf leaves). assert (length ls = 2 ^ d) as Hls by (unfold ls; by rewrite length_map).
  assert (hashes ls) as Hh by (apply Forall_fmap, Forall_true; intros; apply hash_leaf_32).
  exists (mkTree (layers_of d ls)). unfold prove_batch, verify_batch. rewrite depth_of, root_of, (build_tree d) by done.
  rewrite (proj2 (Nat.eqb_neq (length queries) 0)) by (by destruct queries).
  destruct d as [|d].
  - exists []. split_and!; try done. rewrite (only_zero queries) by done. cbn [Nat.eqb map]. f_equal.
    apply bool_decide_eq_true. cbn. symmetry. apply list_lookup_total_correct. unfold ls.
    by rewrite list_lookup_fmap, (list_lookup_lookup_total_lt leaves) by (rewrite Hl; cbn; lia).
  - destruct (layers_honest (S d) ls queries Hls Hne Ho Hr) as (siblings & Es & Hv). exists siblings.
    cbn [Nat.eqb orb layers]. rewrite Es. split_and!; try done.
    rewrite (proj2 (Nat.ltb_ge _ _)) by (by rewrite length_map). rewrite zip_opened by (by rewrite Hl). fold ls.
    specialize (Hv [] []). cbn [app length plus] in Hv. rewrite app_nil_r in Hv. rewrite Hv.
    by rewrite Nat.eqb_refl, bool_decide_true.
Qed.

(** * What is accepted *)

(** What is hashed for a layer, and for all of them. *)
Fixpoint layer_inputs (proof : list bytes) (l : list (nat * bytes)) (cnt : nat) : list (nat * bytes) :=
  match l with
  | [] => []
  | (q, h) :: l' =>
      let pp := default (zeros 32) (proof !! cnt) in
      let up_alone := (Nat.div2 q, if Nat.odd q then pp ++ h else h ++ pp) in
      match l' with
      | [] => [up_alone]
      | (q', h') :: l'' =>
          if Nat.odd q || negb (q' =? sibling_of q) then up_alone :: layer_inputs proof l' (S cnt)
          else (Nat.div2 q, h ++ h') :: layer_inputs proof l'' cnt
      end
  end.

Fixpoint check_inputs (d : nat) (proof : list bytes) (l : list (nat * bytes)) (cnt : nat) : list bytes :=
  match d with
  | O => []
  | S d =>
      map snd (layer_inputs proof l cnt) ++
      check_inputs d proof (verify_ith_layer proof l cnt).1 (verify_ith_layer proof l cnt).2
  end.

Lemma short_induction {A} (P : list A → Prop) :
  P [] → (∀ x l, (∀ l', length l' ≤ length l → P l') → P (x :: l)) → ∀ l, P l.
Proof.
  intros H0 HS l. assert (∀ m l, length l ≤ m → P l) as Hm; [|by apply (Hm (length l))]. clear l.
  induction m as [|m IH]; intros [|x l] Hl; [done|cbn in Hl; lia|done|]. apply HS. intros l' Hl'. apply IH. cbn in Hl. lia.
Qed.

Lemma verify_layer_inputs proof l cnt :
  (verify_ith_layer proof l cnt).1 = map (fun qx => (qx.1, hash_leaf qx.2)) (layer_inputs proof l cnt).
Proof.
  revert cnt. induction l as [|[q h] l IH] using short_induction; intros cnt; [done|].
  cbn [verify_ith_layer layer_inputs]. destruct l as [|[q' h'] l].
  - cbn. by destruct (Nat.odd q).
  - destruct (Nat.odd q || negb (q' =? sibling_of q)).
    + specialize (IH ((q', h') :: l) (le_n _) (S cnt)). destruct (verify_ith_layer proof ((q', h') :: l) (S cnt)) as [next c].
      cbn [fst map] in *. rewrite IH. by destruct (Nat.odd q).
    + specialize (IH l ltac:(cbn; lia) cnt). destruct (verify_ith_layer proof l cnt) as [next c]. cbn [fst map] in *. by rewrite IH.
Qed.

Lemma sibling_mod n q : 0 < n → Nat.odd q = false → sibling q mod (2 * n) = sibling (q mod (2 * n)).
Proof.
  intros Hn Hodd. rewrite <-Nat.negb_even in Hodd. apply negb_false_iff, Nat.even_spec in Hodd as [k ->].
  rewrite Nat.Div0.mul_mod_distr_l. unfold sibling. rewrite !Nat.even_mul. cbn [Nat.even orb].
  pose proof (Nat.mod_upper_bound k n). rewrite <-Nat.add_1_r, Nat.Div0.add_mod, Nat.Div0.mul_mod_distr_l.
  rewrite (Nat.mod_small 1) by lia. rewrite Nat.mod_small by lia. lia.
Qed.

(** When every parent is the hash of the right children, every child is right. *)
Lemma parents_right proof n ls l cnt :
  length ls = 2 * n → 0 < n → hashes ls → hashes proof → Forall (fun qh => length qh.2 = 32) l →
  (∀ q x, (q, x) ∈ layer_inputs proof l cnt → pairs ls !! (q mod n) = Some x) →
  ∀ q h, (q, h) ∈ l → ls !!! (q mod (2 * n)) = h.
Proof.
  intros Hl Hn Hh Hp. assert (∀ c, length (default (zeros 32) (proof !! c)) = 32) as Hpp.
  { intros c. destruct (proof !! c) as [s|] eqn:Es; [|done]. rewrite Forall_forall in Hp. apply Hp. by eapply list_elem_of_lookup_2. }
  assert (∀ q h s x, length h = 32 → length s = 32 → pairs ls !! (Nat.div2 q mod n) = Some x →
    x = (if Nat.odd q then s ++ h else h ++ s) → ls !!! (q mod (2 * n)) = h ∧ ls !!! sibling (q mod (2 * n)) = s) as Hone.
  { intros q h s x Lh Ls Hx ->. assert (q mod (2 * n) < 2 * n) as Hq by (apply Nat.mod_upper_bound; lia).
    pose proof (pair_of ls n (q mod (2 * n)) Hl Hq) as Epair.
    assert (q mod (2 * n) / 2 = Nat.div2 q mod n) as Ed.
    { rewrite Nat.div2_div, Nat.Div0.mod_mul_r. pose proof (Nat.mod_upper_bound q 2).
      rewrite (Nat.add_comm (q mod 2)), (Nat.mul_comm 2), Nat.div_add_l, (Nat.div_small (q mod 2)) by lia. lia. }
    rewrite Ed, Hx in Epair. apply (inj Some) in Epair. unfold join in Epair.
    assert (Nat.even (q mod (2 * n)) = negb (Nat.odd q)) as Ev.
    { rewrite Nat.negb_odd. transitivity (Nat.even (2 * n * (q / (2 * n)) + q mod (2 * n))); [|by rewrite <-Nat.div_mod_eq].
      rewrite Nat.even_add, <-Nat.mul_assoc, Nat.even_mul. by destruct (Nat.even (q mod (2 * n))). }
    rewrite Ev in Epair.
    assert (length (ls !!! (q mod (2 * n))) = 32) as L1 by (apply nth_hash; [done|lia]).
    assert (length (ls !!! sibling (q mod (2 * n))) = 32) as L2.
    { apply nth_hash; [done|]. rewrite Hl. by apply sibling_lt. }
    destruct (Nat.odd q); cbn [negb] in Epair; apply app_inj_1 in Epair; naive_solver lia. }
  revert cnt. induction l as [|[q0 h0] l IH] using short_induction; intros cnt Hlen Hin q h Hqh; [by apply elem_of_nil in Hqh|].
  apply Forall_cons in Hlen as [L0 Hlen]. cbn [layer_inputs] in Hin.
  destruct l as [|[q1 h1] l].
  - apply list_elem_of_singleton in Hqh as [= -> ->]. eapply Hone; [exact L0|apply (Hpp cnt)|apply Hin; left|done].
  - destruct (Nat.odd q0) eqn:Hodd; cbn [orb] in Hin.
    + apply elem_of_cons in Hqh as [[= -> ->]|Hqh].
      * eapply Hone; [exact L0|apply (Hpp cnt)|apply Hin; left|by rewrite Hodd].
      * eapply (IH _ (le_n _) (S cnt)); [done| |done]. intros q' x Hx. apply Hin. by right.
    + rewrite sibling_of_sibling in Hin. destruct (Nat.eqb_spec q1 (sibling q0)) as [->|]; cbn [negb] in Hin.
      * apply Forall_cons in Hlen as [L1 Hlen]. pose proof (Hin _ _ ltac:(left)) as Hx.
        destruct (Hone q0 h0 h1 _ L0 L1 Hx) as [E0 E1]; [by rewrite Hodd|].
        apply elem_of_cons in Hqh as [[= -> ->]|Hqh]; [done|]. apply elem_of_cons in Hqh as [[= -> ->]|Hqh].
        -- by rewrite sibling_mod by done.
        -- eapply (IH l ltac:(cbn; lia) cnt); [done| |done]. intros q' x Hx'. apply Hin. by right.
      * apply elem_of_cons in Hqh as [[= -> ->]|Hqh].
        -- eapply Hone; [exact L0|apply (Hpp cnt)|apply Hin; left|by rewrite Hodd].
        -- eapply (IH _ (le_n _) (S cnt)); [done| |done]. intros q' x Hx. apply Hin. by right.
Qed.

Lemma layers_right d proof ls l cnt qf c :
  length ls = 2 ^ d → hashes ls → hashes proof → Forall (fun qh => length qh.2 = 32) l →
  no_collision hash_leaf (check_inputs d proof l cnt) (tree_inputs hash_leaf d ls) →
  verify_layers d proof l cnt = ([(qf, root hash_leaf d ls)], c) →
  ∀ q h, (q, h) ∈ l → ls !!! (q mod 2 ^ d) = h.
Proof.
  revert ls l cnt. induction d as [|d IH]; intros ls l cnt Hl Hh Hp Hlen Hc Hv q h Hqh; cbn [verify_layers] in Hv.
  - injection Hv as -> _. apply list_elem_of_singleton in Hqh as [= -> ->]. by rewrite Nat.mod_1_r.
  - rewrite pow_S in *. pose proof (verify_layer_inputs proof l cnt) as Ei. cbn [check_inputs tree_inputs] in Hc.
    destruct (verify_ith_layer proof l cnt) as [next cnt'] eqn:El. cbn [fst snd] in *.
    eapply (parents_right proof (2 ^ d) ls l cnt); try done; [pose proof (Nat.pow_nonzero 2 d); lia|].
    intros q' x Hx. assert (level hash_leaf ls !!! (q' mod 2 ^ d) = hash_leaf x) as Ex.
    { apply (IH (level hash_leaf ls) next cnt'); try done.
      - by apply length_level.
      - apply level_lengths, hash_leaf_32.
      - rewrite Ei. apply Forall_fmap, Forall_true. intros. apply hash_leaf_32.
      - intros a b Ha Hb. apply Hc; apply elem_of_app; by right.
      - rewrite Ei. apply list_elem_of_fmap. by exists (q', x). }
    assert (q' mod 2 ^ d < length (pairs ls)) as Hlt.
    { rewrite (length_pairs ls (2 ^ d)) by done. by apply Nat.mod_upper_bound, Nat.pow_nonzero. }
    destruct (lookup_lt_is_Some_2 _ _ Hlt) as [y Hy]. rewrite Hy. f_equal.
    rewrite level_pairs in Ex. rewrite (list_lookup_total_correct _ _ (hash_leaf y)) in Ex by (by rewrite list_lookup_fmap, Hy).
    symmetry. apply Hc; [apply elem_of_app; left|apply elem_of_app; left|done].
    + apply list_elem_of_fmap. by exists (q', x).
    + by eapply list_elem_of_lookup_2.
Qed.

(** C20.  What is accepted is in the tree: a proof of siblings that passes for some leaves
    at some places, whatever their order and number, shows for each of them that the tree has
    this leaf at this place, counted modulo the number of leaves, as long as nothing hashed
    for the check collides with what was hashed for the tree. *)
Theorem accepted_openings_are_leaves d leaves t proof openings queries :
  length leaves = 2 ^ d → build_merkle_tree leaves = Some t → hashes proof →
  no_collision hash_leaf (openings ++ check_inputs d proof (zip queries (map hash_leaf openings)) 0)
    (tree_inputs hash_leaf d (map hash_leaf leaves) ++ leaves) →
  verify_batch (get_root t) proof d openings queries = Some true →
  length queries ≤ length openings ∧
  ∀ k q leaf, queries !! k = Some q → openings !! k = Some leaf → leaves !! (q mod 2 ^ d) = Some leaf.
Proof.
  intros Hl Et Hp Hc Hv. rewrite (build_tree d) in Et by done. injection Et as <-. set (ls := map hash_leaf leaves) in *.
  assert (length ls = 2 ^ d) as Hls by (unfold ls; by rewrite length_map).
  assert (hashes ls) as Hh by (apply Forall_fmap, Forall_true; intros; apply hash_leaf_32).
  rewrite root_of in Hv by done. unfold verify_batch in Hv.
  assert (∀ q leaf, leaf ∈ openings → ls !!! (q mod 2 ^ d) = hash_leaf leaf → leaves !! (q mod 2 ^ d) = Some leaf) as Hin.
  { intros q leaf Ho E. destruct (lookup_lt_is_Some_2 leaves (q mod 2 ^ d)) as [y Hy].
    { rewrite Hl. by apply Nat.mod_upper_bound, Nat.pow_nonzero. }
    rewrite Hy. f_equal. unfold ls in E. rewrite (list_lookup_total_correct _ _ (hash_leaf y)) in E by (by rewrite list_lookup_fmap, Hy).
    symmetry. apply Hc; [apply elem_of_app; by left|apply elem_of_app; right; by eapply list_elem_of_lookup_2|done]. }
  destruct d as [|d].
  - cbn [Nat.eqb] in Hv. injection Hv as Hv. destruct openings as [|leaf [|? ?]], queries as [|[|?] [|? ?]]; try done.
    split; [done|]. intros [|k] q leaf' Hq Hleaf; [|done]. injection Hq as <-. injection Hleaf as <-.
    apply Hin; [left|]. apply bool_decide_eq_true in Hv. by rewrite Hv.
  - cbn [Nat.eqb] in Hv. destruct (Nat.ltb_spec (length openings) (length queries)) as [|Hle]; [done|]. split; [done|].
    destruct (verify_layers (S d) proof _ 0) as [l c] eqn:Ev. injection Hv as Hv.
    destruct l as [|[qf hf] [|? ?]]; [done| |done]. apply andb_true_iff in Hv as [_ Hv]. apply bool_decide_eq_true in Hv. subst hf.
    intros k q leaf Hq Hleaf. apply Hin; [by eapply list_elem_of_lookup_2|].
    apply (layers_right (S d) proof ls (zip queries (map hash_leaf openings)) 0 qf c); try done.
    + apply Forall_forall. intros [q' h'] Hqh. apply elem_of_zip_r in Hqh.
      apply list_elem_of_fmap in Hqh as (x & -> & _). apply hash_leaf_32.
    + intros a b Ha Hb. apply Hc; [apply elem_of_app; by right|apply elem_of_app; by left].
    + apply list_elem_of_lookup. exists k. rewrite lookup_zip_with, Hq. cbn. by rewrite list_lookup_fmap, Hleaf.
Qed.
End safe.

(** * Witnesses *)

#[local] Existing Instance spelled.

Definition demo_leaves : list bytes := map (fun i => to_le 4 (Z.of_nat (100 + i))) (seq 0 8).
Definition demo_tree : CompleteMerkleTree := default (mkTree []) (build_merkle_tree demo_leaves).
Definition demo_queries : list nat := [0; 1; 6].
Definition demo_opening : list bytes := map (fun q => demo_leaves !!! q) demo_queries.
Definition demo_proof : list bytes := default [] (prove_batch demo_tree demo_queries).

Lemma honest_openings_verify_witness :
  length demo_leaves = 8 ∧ ∃ t proof, build_merkle_tree demo_leaves = Some t ∧ prove_batch t demo_queries = Some proof ∧
    get_depth t = 3 ∧ verify_batch (get_root t) proof 3 demo_opening demo_queries = Some true.
Proof.
  split; [reflexivity|]. apply (honest_openings_verify 3 demo_leaves demo_queries).
  - reflexivity.
  - discriminate.
  - repeat constructor.
  - repeat constructor; lia.
Defined.

Lemma accepted_openings_are_leaves_witness :
  length demo_proof = 3 ∧ verify_batch (get_root demo_tree) demo_proof 3 demo_opening demo_queries = Some true ∧
  ∀ k q leaf, demo_queries !! k = Some q → demo_opening !! k = Some leaf → demo_leaves !! (q mod 8) = Some leaf.
Proof.
  assert (verify_batch (get_root demo_tree) demo_proof 3 demo_opening demo_queries = Some true) as Hv by (vm_compute; reflexivity).
  split; [vm_compute; reflexivity|]. split; [exact Hv|].
  refine (proj2 (accepted_openings_are_leaves 3 demo_leaves demo_tree demo_proof demo_opening demo_queries eq_refl _ _ _ Hv)).
  - vm_compute. reflexivity.
  - apply (bool_decide_unpack _). vm_compute. exact I.
  - apply no_collision_check. vm_compute. reflexivity.
Defined.

(** The places count modulo the number of leaves only. *)
Example shifted_places_accepted :
  verify_batch (get_root demo_tree) demo_proof 3 demo_opening (map (fun q => q + 8) demo_queries) = Some true.
Proof. vm_compute. reflexivity. Qed.
