(* ===== verification/GF.v ===== *)
(** Fields of two to the [w] elements on machine words: what to check of a multiplication of
    words so that it is that of a field.

    A word is the polynomial over GF(2) of its bits and addition is [Z.lxor].  A multiplication
    that distributes over it is determined by the powers of two, so the ring laws follow from
    finitely many products; and it is that of a field when squaring [w] times gives the word
    back and only 0 and 1 are their own squares, which is again a finite check. *)
From stdpp Require Import base list sets.
From Stdlib Require Import ZArith Lia.
From S2P Require Import Prelude.

Local Open Scope Z_scope.

(** * Words and their exclusive or *)

Lemma lxor_lt w a b : fits w a → fits w b → fits w (Z.lxor a b).
Proof.
  intros [Ha Ha'] [Hb Hb']. assert (0 ≤ w) by (destruct (Z.lt_ge_cases w 0); [rewrite Z.pow_neg_r in Ha' by done; lia|done]).
  assert (0 ≤ Z.lxor a b) as Hx by (apply Z.lxor_nonneg; tauto). split; [done|].
  rewrite <-(Z.mod_small a (2 ^ w)), <-(Z.mod_small b (2 ^ w)) by lia.
  rewrite <-!Z.land_ones by done.
  assert (Z.lxor (Z.land a (Z.ones w)) (Z.land b (Z.ones w)) = Z.land (Z.lxor a b) (Z.ones w)) as ->.
  { apply Z.bits_inj'. intros i Hi. rewrite Z.lxor_spec, !Z.land_spec, Z.lxor_spec.
    by destruct (Z.testbit a i), (Z.testbit b i), (Z.testbit (Z.ones w) i). }
  rewrite Z.land_ones by done. apply Z.mod_pos_bound. lia.
Qed.

Lemma lxor_flip a b c d : Z.lxor (Z.lxor a b) (Z.lxor c d) = Z.lxor (Z.lxor a c) (Z.lxor b d).
Proof. rewrite !Z.lxor_assoc. f_equal. rewrite <-!Z.lxor_assoc. f_equal. apply Z.lxor_comm. Qed.

Lemma lxor_cancel a b : Z.lxor a (Z.lxor a b) = b.
Proof. by rewrite <-Z.lxor_assoc, Z.lxor_nilpotent, Z.lxor_0_l. Qed.

Lemma fits_pow2 w i : 0 ≤ i < w → fits w (2 ^ i).
Proof. intros Hi. split; [lia|]. apply Z.pow_lt_mono_r; lia. Qed.

Lemma fits_testbit w r i : fits w r → w ≤ i → Z.testbit r i = false.
Proof.
  intros [Hr Hr'] Hi. destruct (Z.lt_ge_cases w 0) as [|Hw]; [rewrite Z.pow_neg_r in Hr' by done; lia|].
  rewrite <-(Z.mod_small r (2 ^ w)) by done. by rewrite Z.mod_pow2_bits_high.
Qed.

Lemma pow2_add_lxor i r : 0 ≤ i → fits i r → 2 ^ i + r = Z.lxor (2 ^ i) r.
Proof.
  intros Hi Hr. apply Z.add_nocarry_lxor. apply Z.bits_inj'. intros j Hj. rewrite Z.land_spec, Z.bits_0.
  destruct (Z.eq_dec j i) as [->|Hne]; [|by rewrite Z.pow2_bits_false].
  by rewrite (fits_testbit i r), andb_false_r.
Qed.

(** What holds of the powers of two and of sums holds of all words. *)
Lemma word_ind (w : nat) (P : Z → Prop) :
  P 0 → (∀ i, (i < w)%nat → P (2 ^ Z.of_nat i)) →
  (∀ a b, fits (Z.of_nat w) a → fits (Z.of_nat w) b → P a → P b → P (Z.lxor a b)) →
  ∀ a, fits (Z.of_nat w) a → P a.
Proof.
  intros P0 Pi Px. assert (∀ k, (k ≤ w)%nat → ∀ a, fits (Z.of_nat k) a → P a) as Hk; [|by apply Hk].
  induction k as [|k IH]; intros Hk a [Ha Ha'].
  { cbn in Ha'. by replace a with 0 by lia. }
  assert (fits (Z.of_nat w) (2 ^ Z.of_nat k)) as Hp by (apply fits_pow2; lia).
  destruct (Z.lt_ge_cases a (2 ^ Z.of_nat k)) as [|Hge]; [apply IH; [lia|done]|].
  rewrite Nat2Z.inj_succ, Z.pow_succ_r in Ha' by lia.
  assert (fits (Z.of_nat k) (a - 2 ^ Z.of_nat k)) as Hr by (unfold fits; lia).
  replace a with (Z.lxor (2 ^ Z.of_nat k) (a - 2 ^ Z.of_nat k)) by (rewrite <-pow2_add_lxor; [lia|lia|done]).
  apply Px; [done| |apply Pi; lia|apply IH; [lia|done]].
  destruct Hr, Hp. split; lia.
Qed.

(** ** Maps that distribute over the exclusive or *)

Definition additive (w : nat) (f : Z → Z) : Prop :=
  ∀ a b, fits (Z.of_nat w) a → fits (Z.of_nat w) b → f (Z.lxor a b) = Z.lxor (f a) (f b).

Lemma additive_0 w f : additive w f → f 0 = 0.
Proof.
  intros Hf. assert (fits (Z.of_nat w) 0) as H0 by (split; lia).
  specialize (Hf 0 0 H0 H0). rewrite Z.lxor_nilpotent in Hf. by rewrite Hf, Z.lxor_nilpotent.
Qed.

Lemma additive_eq w f g :
  additive w f → additive w g → (∀ i, (i < w)%nat → f (2 ^ Z.of_nat i) = g (2 ^ Z.of_nat i)) →
  ∀ a, fits (Z.of_nat w) a → f a = g a.
Proof.
  intros Hf Hg E. apply word_ind; [by rewrite (additive_0 w f), (additive_0 w g)|done|].
  intros a b Ha Hb Ea Eb. by rewrite Hf, Hg, Ea, Eb.
Qed.

Lemma additive_comp w f g :
  additive w f → additive w g → (∀ a, fits (Z.of_nat w) a → fits (Z.of_nat w) (g a)) → additive w (fun a => f (g a)).
Proof. intros Hf Hg Hw a b Ha Hb. rewrite Hg by done. apply Hf; auto. Qed.

Lemma additive_iter w f n :
  additive w f → (∀ a, fits (Z.of_nat w) a → fits (Z.of_nat w) (f a)) → additive w (Nat.iter n f).
Proof.
  intros Hf Hw. induction n as [|n IH]; [by intros a b|]. apply (additive_comp w f (Nat.iter n f)); [done..|].
  intros a Ha. clear IH. induction n as [|n IH]; cbn; auto.
Qed.

Lemma additive_id w : additive w id.
Proof. done. Qed.

Lemma additive_lxor w f g : additive w f → additive w g → additive w (fun a => Z.lxor (f a) (g a)).
Proof. intros Hf Hg a b Ha Hb. rewrite Hf, Hg by done. apply lxor_flip. Qed.

(** The map that takes the power [2 ^ i] to the entry [i] of a table. *)
Fixpoint by_table (table : list Z) (a : Z) : Z :=
  match table with
  | [] => 0
  | t :: table => Z.lxor (if Z.odd a then t else 0) (by_table table (Z.div2 a))
  end.

Lemma by_table_additive w table : additive w (by_table table).
Proof.
  intros a b _ _. revert a b. induction table as [|t table IH]; intros a b; [done|]. cbn [by_table].
  assert (Z.div2 (Z.lxor a b) = Z.lxor (Z.div2 a) (Z.div2 b)) as ->.
  { rewrite !Z.div2_spec. apply Z.shiftr_lxor. }
  rewrite IH, lxor_flip. f_equal.
  rewrite <-!Z.bit0_odd, Z.lxor_spec. destruct (Z.testbit a 0), (Z.testbit b 0); cbn;
    by rewrite ?Z.lxor_nilpotent, ?Z.lxor_0_r, ?Z.lxor_0_l.
Qed.

(** * Rings *)

Definition basis_check (w : nat) (f g : Z → Z) : bool :=
  forallb (fun i => f (2 ^ Z.of_nat i) =? g (2 ^ Z.of_nat i)) (seq 0 w).

Lemma basis_check_spec w f g :
  basis_check w f g = true → ∀ i, (i < w)%nat → f (2 ^ Z.of_nat i) = g (2 ^ Z.of_nat i).
Proof.
  unfold basis_check. rewrite forallb_forall. intros E i Hi. apply Z.eqb_eq, E, in_seq. lia.
Qed.

(** A multiplication of words of [w] bits: it distributes, and multiplying by a power of two is
    doubling, which takes 1 to the powers of two. *)
Record binary_ring (w : nat) (mul : Z → Z → Z) : Prop := {
  ring_pos : (1 < w)%nat;
  mul_fits a b : fits (Z.of_nat w) a → fits (Z.of_nat w) b → fits (Z.of_nat w) (mul a b);
  mul_left b : fits (Z.of_nat w) b → additive w (fun a => mul a b);
  mul_right a : fits (Z.of_nat w) a → additive w (mul a);
  mul_unit a : fits (Z.of_nat w) a → mul a 1 = a;
  mul_step a i : (S i < w)%nat → fits (Z.of_nat w) a → mul a (2 ^ Z.of_nat (S i)) = mul (mul a (2 ^ Z.of_nat i)) 2;
  step_one i : (S i < w)%nat → mul (2 ^ Z.of_nat i) 2 = 2 ^ Z.of_nat (S i);
}.

Section ring.
Context (w : nat) (mul : Z → Z → Z) (R : binary_ring w mul).
#[local] Abbreviation word := (fits (Z.of_nat w)).
Definition twice (a : Z) : Z := mul a 2.

Lemma word_2 : word 2.
Proof. change 2 with (2 ^ 1) at 1. apply fits_pow2. pose proof (ring_pos w mul R). lia. Qed.

Lemma word_1 : word 1.
Proof. change 1 with (2 ^ 0) at 1. apply fits_pow2. pose proof (ring_pos w mul R). lia. Qed.

Lemma word_0 : word 0.
Proof. split; lia. Qed.

Lemma word_pow i : (i < w)%nat → word (2 ^ Z.of_nat i).
Proof. intros Hi. apply fits_pow2. lia. Qed.

Lemma twice_iter_word n a : word a → word (Nat.iter n twice a).
Proof. intros Ha. induction n as [|n IH]; cbn; [done|]. apply mul_fits; [done..|apply word_2]. Qed.

Lemma mul_pow a i : (i < w)%nat → word a → mul a (2 ^ Z.of_nat i) = Nat.iter i twice a.
Proof.
  intros Hi Ha. induction i as [|i IH]; [by apply (mul_unit w mul R)|]. rewrite !Nat.iter_succ.
  rewrite <-IH by lia. by apply (mul_step w mul R).
Qed.

Lemma pow_twice i : (i < w)%nat → 2 ^ Z.of_nat i = Nat.iter i twice 1.
Proof.
  intros Hi. induction i as [|i IH]; [done|]. rewrite !Nat.iter_succ. rewrite <-IH by lia. symmetry. by apply (step_one w mul R).
Qed.

Lemma iter_swap n m a : Nat.iter n twice (Nat.iter m twice a) = Nat.iter m twice (Nat.iter n twice a).
Proof. by rewrite <-!Nat.iter_add, Nat.add_comm. Qed.

Lemma mul_comm a b : word a → word b → mul a b = mul b a.
Proof.
  intros Ha Hb. revert b Hb. apply additive_eq; [by apply mul_right|by apply mul_left|]. intros i Hi.
  revert a Ha. apply additive_eq; [by apply mul_left, word_pow|by apply mul_right, word_pow|]. intros j Hj.
  rewrite !mul_pow by (done || by apply word_pow). rewrite (pow_twice i), (pow_twice j) by done. apply iter_swap.
Qed.

Lemma mul_twice a b : word a → word b → mul a (twice b) = twice (mul a b).
Proof.
  intros Ha. revert b. apply additive_eq.
  - apply (additive_comp w (mul a) twice); [by apply mul_right|apply mul_left; [done|apply word_2]|].
    intros c Hc. apply mul_fits; [done..|apply word_2].
  - apply (additive_comp w twice (mul a)); [apply mul_left; [done|apply word_2]|by apply mul_right|].
    intros c Hc. by apply mul_fits.
  - intros j Hj. revert a Ha. apply additive_eq.
    + apply mul_left; [done|]. apply mul_fits; [done|by apply word_pow|apply word_2].
    + apply (additive_comp w twice (fun a => mul a _)); [apply mul_left; [done|apply word_2]|by apply mul_left, word_pow|].
      intros c Hc. apply mul_fits; [done..|by apply word_pow].
    + intros i Hi. assert (word (twice (2 ^ Z.of_nat j))) as Ht by (apply mul_fits; [done|by apply word_pow|apply word_2]).
      rewrite mul_comm by (done || by apply word_pow). rewrite (mul_comm (2 ^ Z.of_nat i)) by (by apply word_pow).
      rewrite !mul_pow by (done || by apply word_pow). apply (iter_swap i 1).
Qed.

Lemma mul_assoc a b c : word a → word b → word c → mul a (mul b c) = mul (mul a b) c.
Proof.
  intros Ha Hb. revert c. apply additive_eq.
  - apply additive_comp; [by apply mul_right|by apply mul_right|]. intros c Hc. by apply mul_fits.
  - apply mul_right; [done|]. by apply mul_fits.
  - intros i Hi. rewrite !mul_pow by (done || by apply mul_fits). clear Hi. induction i as [|i IH]; [done|]. rewrite !Nat.iter_succ.
    rewrite mul_twice by (done || by apply twice_iter_word). by rewrite IH.
Qed.

Lemma mul_0 a : word a → mul a 0 = 0.
Proof. intros Ha. apply (additive_0 w). by apply mul_right. Qed.

Lemma mul_0_l a : word a → mul 0 a = 0.
Proof. intros Ha. rewrite mul_comm; [by apply mul_0|apply word_0|done]. Qed.

Lemma mul_1 a : word a → mul 1 a = a.
Proof. intros Ha. rewrite mul_comm; [by apply (mul_unit w mul R)|apply word_1|done]. Qed.

Lemma mul_add_r a b c : word a → word b → word c → mul a (Z.lxor b c) = Z.lxor (mul a b) (mul a c).
Proof. intros Ha. by apply mul_right. Qed.

Lemma mul_add_l a b c : word a → word b → word c → mul (Z.lxor a b) c = Z.lxor (mul a c) (mul b c).
Proof. intros Ha Hb Hc. by apply (mul_left w mul R c Hc). Qed.

Lemma mul_swap a b c d : word a → word b → word c → word d → mul (mul a b) (mul c d) = mul (mul c b) (mul a d).
Proof.
  intros Ha Hb Hc Hd. pose proof (mul_fits w mul R) as Hm.
  rewrite <-!mul_assoc by auto. rewrite (mul_assoc b c d), (mul_assoc b a d) by auto.
  rewrite (mul_comm b c), (mul_comm b a) by auto. rewrite <-(mul_assoc c b d), <-(mul_assoc a b d) by auto.
  rewrite !(mul_assoc _ _ (mul b d)) by auto. by rewrite (mul_comm a c).
Qed.

(** The line through two points, at zero; [i] is one over the distance of the points. *)
Lemma line_at_zero c m x y i :
  word c → word m → word x → word y → word i → mul (Z.lxor x y) i = 1 →
  Z.lxor (mul (Z.lxor c (mul x m)) (mul y i)) (mul (Z.lxor c (mul y m)) (mul x i)) = c.
Proof.
  intros Hc Hm Hx Hy Hi E. pose proof (mul_fits w mul R) as Hf.
  rewrite !mul_add_l, lxor_flip, (mul_swap x m y i), Z.lxor_nilpotent, Z.lxor_0_r by auto.
  rewrite <-mul_add_r, <-mul_add_l by auto. rewrite (Z.lxor_comm y x), E. by apply (mul_unit w mul R).
Qed.

(** * Squares *)

Definition square (a : Z) : Z := mul a a.

Lemma square_word a : word a → word (square a).
Proof. intros Ha. by apply mul_fits. Qed.

Lemma square_additive : additive w square.
Proof.
  intros a b Ha Hb. unfold square. assert (word (Z.lxor a b)) by (by apply lxor_lt).
  rewrite mul_add_r, !mul_add_l by done. rewrite (mul_comm b a) by done.
  by rewrite (Z.lxor_comm (mul a b) (mul b b)), lxor_flip, Z.lxor_nilpotent, Z.lxor_0_r.
Qed.

Lemma squares_word n a : word a → word (Nat.iter n square a).
Proof. intros Ha. induction n as [|n IH]; [done|]. rewrite Nat.iter_succ. by apply square_word. Qed.

Lemma square_mul a b : word a → word b → square (mul a b) = mul (square a) (square b).
Proof.
  intros Ha Hb. unfold square. assert (word (mul a b)) by (by apply mul_fits).
  rewrite <-(mul_assoc a b), (mul_assoc b a b), (mul_comm b a), <-(mul_assoc a b b) by (done || by apply mul_fits).
  apply mul_assoc; [done..|by apply mul_fits].
Qed.

Lemma squares_mul n a b : word a → word b → Nat.iter n square (mul a b) = mul (Nat.iter n square a) (Nat.iter n square b).
Proof.
  intros Ha Hb. induction n as [|n IH]; [done|]. rewrite !Nat.iter_succ, IH. apply square_mul; by apply squares_word.
Qed.

Lemma squares_1 n : Nat.iter n square 1 = 1.
Proof. induction n as [|n IH]; [done|]. rewrite Nat.iter_succ, IH. apply mul_1, word_1. Qed.

(** If squaring [n] times keeps the word 2, it keeps every word. *)
Lemma squares_id n : Nat.iter n square 2 = 2 → ∀ a, word a → Nat.iter n square a = a.
Proof.
  intros E2. apply (additive_eq w _ id); [apply additive_iter; [apply square_additive|apply square_word]|apply additive_id|].
  intros i Hi. unfold id. rewrite pow_twice by done. clear Hi. induction i as [|i IH]; [apply squares_1|].
  rewrite Nat.iter_succ. unfold twice at 1 3. rewrite squares_mul, IH, E2; [done|by apply twice_iter_word, word_1|apply word_2].
Qed.

(** * Powers *)

(** The power [2 ^ k - 1]. *)
Fixpoint ones_power (k : nat) (a : Z) : Z :=
  match k with O => 1 | S k => mul (square (ones_power k a)) a end.

Lemma ones_word k a : word a → word (ones_power k a).
Proof. intros Ha. induction k as [|k IH]; [apply word_1|]. cbn. apply mul_fits; [done|by apply square_word|done]. Qed.

Lemma ones_mul k a : word a → mul (ones_power k a) a = Nat.iter k square a.
Proof.
  intros Ha. induction k as [|k IH]; [by apply mul_1|]. cbn [ones_power]. rewrite Nat.iter_succ, <-IH.
  pose proof (ones_word k a Ha) as Hk. rewrite square_mul by done. unfold square at 3.
  apply eq_sym, mul_assoc; [by apply square_word|done..].
Qed.

Lemma ones_snoc k a : word a → ones_power (S k) a = mul (ones_power k a) (Nat.iter k square a).
Proof.
  intros Ha. cbn [ones_power]. rewrite <-ones_mul by done. unfold square. apply eq_sym, mul_assoc; [by apply ones_word..|done].
Qed.

Lemma ones_square k a : word a → ones_power k (square a) = square (ones_power k a).
Proof.
  intros Ha. induction k as [|k IH]; [symmetry; exact (squares_1 1)|].
  cbn [ones_power]. rewrite square_mul by (by apply square_word, ones_word || done). by rewrite IH.
Qed.

(** * Fields *)

(** Only 0 and 1 are their own squares. *)
Definition idempotents_trivial : Prop := ∀ a, word a → square a = a → a = 0 ∨ a = 1.

(** A left inverse of [a ↦ a² + a] up to the last bit shows it. *)
Lemma idempotents_by_table table :
  basis_check w (fun a => by_table table (Z.lxor (square a) a)) (fun a => if a =? 1 then 0 else a) = true →
  idempotents_trivial.
Proof.
  intros E a Ha Hs.
  assert (by_table table (Z.lxor (square a) a) = Z.lxor a (if Z.odd a then 1 else 0)) as Ea.
  { clear Hs. revert a Ha. apply additive_eq.
    - apply (additive_comp w (by_table table) (fun a => Z.lxor (square a) a)); [apply by_table_additive| |].
      + apply additive_lxor; [apply square_additive|apply additive_id].
      + intros a Ha. apply lxor_lt; [by apply square_word|done].
    - apply additive_lxor; [apply additive_id|]. intros a b _ _. rewrite <-!Z.bit0_odd, Z.lxor_spec.
      by destruct (Z.testbit a 0), (Z.testbit b 0).
    - intros i Hi. rewrite (basis_check_spec _ _ _ E i Hi). destruct i as [|i]; [done|].
      rewrite Nat2Z.inj_succ, Z.pow_succ_r by lia.
      rewrite Z.odd_mul. cbn [Z.odd andb]. rewrite Z.lxor_0_r. destruct (Z.eqb_spec (2 * 2 ^ Z.of_nat i) 1); [lia|done]. }
  rewrite Hs, Z.lxor_nilpotent in Ea. rewrite (additive_0 w) in Ea by apply by_table_additive.
  symmetry in Ea. apply Z.lxor_eq in Ea. destruct (Z.odd a); auto.
Qed.

Lemma inverse_exists :
  Nat.iter w square 2 = 2 → idempotents_trivial →
  ∀ a, word a → a ≠ 0 → mul a (square (ones_power (w - 1) a)) = 1.
Proof.
  intros E2 Hi a Ha Hne. pose proof (ring_pos w mul R) as Hw.
  assert (word (square (ones_power (w - 1) a))) as Hs by (by apply square_word, ones_word).
  assert (ones_power w a = mul a (square (ones_power (w - 1) a))) as Ew.
  { replace w with (S (w - 1)) at 1 by lia. cbn [ones_power]. by apply mul_comm. }
  assert (mul (ones_power w a) a = a) as Ea by (rewrite ones_mul by done; by apply squares_id).
  pose proof (ones_word w a Ha) as He. rewrite <-Ew.
  destruct (Hi (ones_power w a) He) as [E|E]; [| |exact E].
  - unfold square at 1. rewrite Ew at 2. rewrite mul_assoc, Ea by done. by rewrite <-Ew.
  - rewrite E, mul_0_l in Ea by done. by destruct Hne.
Qed.

Lemma mul_cancel a b :
  Nat.iter w square 2 = 2 → idempotents_trivial → word a → word b → mul a b = 0 → a = 0 ∨ b = 0.
Proof.
  intros E2 Hi Ha Hb E. destruct (Z.eq_dec a 0) as [|Hne]; [by left|right].
  pose proof (inverse_exists E2 Hi a Ha Hne) as Ei.
  assert (word (square (ones_power (w - 1) a))) as Hs by (by apply square_word, ones_word).
  rewrite <-(mul_1 b), <-Ei, (mul_comm a), <-mul_assoc, E by done. by apply mul_0.
Qed.
End ring.

(** ** The table *)

(** A row is a word and what it came from; a pivot is a row with the bit that is its own. *)
Definition add_row (pivots : list (Z * (Z * Z))) (row : Z * Z) : list (Z * (Z * Z)) :=
  let '(image, source) :=
    foldl (fun r '(p, (i, s)) => if Z.testbit r.1 p then (Z.lxor r.1 i, Z.lxor r.2 s) else r) row pivots in
  if image =? 0 then pivots
  else
    let p := Z.log2 image in
    (p, (image, source)) ::
      map (fun '(q, (i, s)) => (q, if Z.testbit i p then (Z.lxor i image, Z.lxor s source) else (i, s))) pivots.

(** A table that undoes [a ↦ a² + a] up to the last bit, by elimination. *)
Definition artin_table (w : nat) (mul : Z → Z → Z) : list Z :=
  let rows := map (fun i => let b := 2 ^ Z.of_nat i in (Z.lxor (mul b b) b, if (i =? 0)%nat then 0 else b)) (seq 0 w) in
  let pivots := foldl add_row [] rows in
  map (fun i => default 0 ((fun x => x.2.2) <$> find_first (fun x => x.1 =? Z.of_nat i) pivots)) (seq 0 w).

(** ** Bits of loops *)

(** [(x >> i) & 1 == 1] *)
Definition bit (x : Z) (i : nat) : bool := Z.land (Z.shiftr x (Z.of_nat i)) 1 =? 1.

Lemma bit_testbit x i : bit x i = Z.testbit x (Z.of_nat i).
Proof.
  unfold bit. change 1 with (Z.ones 1) at 1. rewrite Z.land_ones by lia. change (2 ^ 1) with 2.
  rewrite Zmod_odd, <-Z.bit0_odd, Z.shiftr_spec, Z.add_0_l by lia. by destruct (Z.testbit x _).
Qed.

(** Maps that distribute over the exclusive or of any two numbers. *)
Definition linear (f : Z → Z) : Prop := ∀ a b, f (Z.lxor a b) = Z.lxor (f a) (f b).

Lemma linear_additive w f : linear f → additive w f.
Proof. intros Hf a b _ _. apply Hf. Qed.

Lemma linear_wrap w : 0 ≤ w → linear (wrap w).
Proof.
  intros Hw a b. unfold wrap. rewrite <-!Z.land_ones by done. apply Z.bits_inj'. intros i Hi.
  rewrite Z.lxor_spec, !Z.land_spec, Z.lxor_spec. by destruct (Z.testbit a i), (Z.testbit b i), (Z.testbit (Z.ones w) i).
Qed.

Lemma linear_shiftl n : linear (fun a => Z.shiftl a n).
Proof. intros a b. apply Z.shiftl_lxor. Qed.

Lemma linear_comp f g : linear f → linear g → linear (fun a => f (g a)).
Proof. intros Hf Hg a b. by rewrite Hg, Hf. Qed.

(** The sum of the words [g i] for the bits [i] of [b]. *)
Definition add_bits (g : nat → Z) (b : Z) (acc : Z) (l : list nat) : Z :=
  foldl (fun r i => if bit b i then Z.lxor r (g i) else r) acc l.

Lemma add_bits_acc g b acc l : add_bits g b acc l = Z.lxor acc (add_bits g b 0 l).
Proof.
  unfold add_bits. revert acc. induction l as [|i l IH]; intros acc; cbn; [by rewrite Z.lxor_0_r|].
  rewrite IH, (IH (if bit b i then _ else _)). destruct (bit b i); [|done]. by rewrite Z.lxor_assoc.
Qed.

Lemma add_bits_cons g b i l : add_bits g b 0 (i :: l) = Z.lxor (if bit b i then g i else 0) (add_bits g b 0 l).
Proof.
  change (add_bits g b 0 (i :: l)) with (add_bits g b (if bit b i then Z.lxor 0 (g i) else 0) l).
  by rewrite add_bits_acc, Z.lxor_0_l.
Qed.

Lemma add_bits_linear g l : linear (fun b => add_bits g b 0 l).
Proof.
  intros a b. induction l as [|i l IH]; [done|]. rewrite !add_bits_cons, IH, lxor_flip. f_equal.
  rewrite !bit_testbit, Z.lxor_spec. destruct (Z.testbit a _), (Z.testbit b _); cbn;
    by rewrite ?Z.lxor_nilpotent, ?Z.lxor_0_r, ?Z.lxor_0_l.
Qed.

Lemma add_bits_linear_l (g : Z → nat → Z) b l :
  (∀ i, linear (fun a => g a i)) → linear (fun a => add_bits (g a) b 0 l).
Proof.
  intros Hg a a'. induction l as [|i l IH]; [done|]. rewrite !add_bits_cons, IH, lxor_flip. f_equal.
  destruct (bit b i); [apply Hg|done].
Qed.

Lemma add_bits_fits w g b l : 0 ≤ w → (∀ i, fits w (g i)) → fits w (add_bits g b 0 l).
Proof.
  intros Hw Hg. assert (fits w 0) as H0 by (split; lia). induction l as [|i l IH]; [done|]. rewrite add_bits_cons.
  apply lxor_lt; [|done]. by destruct (bit b i).
Qed.

Lemma add_bits_wrap w g b l : 0 ≤ w → wrap w (add_bits g b 0 l) = add_bits (fun i => wrap w (g i)) b 0 l.
Proof.
  intros Hw. induction l as [|i l IH]; [by apply Z.mod_0_l, Z.pow_nonzero|]. rewrite !add_bits_cons, (linear_wrap w), IH by done.
  f_equal. destruct (bit b i); [done|]. by apply Z.mod_0_l, Z.pow_nonzero.
Qed.

(** A power of two has one bit. *)
Lemma add_bits_pow g n i : (i < n)%nat → add_bits g (2 ^ Z.of_nat i) 0 (seq 0 n) = g i.
Proof.
  intros Hi. assert (∀ l, NoDup l → add_bits g (2 ^ Z.of_nat i) 0 l = if bool_decide (i ∈ l) then g i else 0) as H.
  { induction l as [|j l IH]; intros Hd; [done|]. apply NoDup_cons in Hd as [Hj Hd].
    rewrite add_bits_cons, IH, bit_testbit by done. destruct (decide (j = i)) as [->|Hne].
    - rewrite Z.pow2_bits_true by lia. rewrite bool_decide_false by done. rewrite bool_decide_true by set_solver. apply Z.lxor_0_r.
    - rewrite Z.pow2_bits_false, Z.lxor_0_l by lia.
      by rewrite (bool_decide_ext (i ∈ l) (i ∈ j :: l)) by set_solver. }
  rewrite H by apply NoDup_seq. rewrite bool_decide_true; [done|]. apply elem_of_seq. lia.
Qed.

(** Reduction from the top bit down. *)
Definition reduce_at (f : Z) (n : nat) (p : Z) (i : nat) : Z :=
  if bit p i then Z.lxor p (Z.shiftl f (Z.of_nat (i - n))) else p.

Lemma reduce_linear f n l : linear (fun p => foldl (reduce_at f n) p l).
Proof.
  induction l as [|i l IH]; intros a b; [done|]. cbn [foldl]. rewrite <-IH. f_equal.
  unfold reduce_at. rewrite !bit_testbit, Z.lxor_spec. destruct (Z.testbit a _), (Z.testbit b _); cbn; [| | |done].
  - by rewrite lxor_flip, Z.lxor_nilpotent, Z.lxor_0_r.
  - by rewrite !Z.lxor_assoc, (Z.lxor_comm b).
  - by rewrite Z.lxor_assoc.
Qed.

(** ** A ring by finitely many products *)

Definition ring_check (w : nat) (mul : Z → Z → Z) : bool :=
  basis_check w (fun a => mul a 1) id &&
  forallb (fun i => basis_check w (fun a => mul a (2 ^ Z.of_nat (S i))) (fun a => mul (mul a (2 ^ Z.of_nat i)) 2)
                    && (mul (2 ^ Z.of_nat i) 2 =? 2 ^ Z.of_nat (S i))) (seq 0 (w - 1)).

Lemma ring_by_check w mul :
  (1 < w)%nat → (∀ a b, fits (Z.of_nat w) (mul a b)) → (∀ b, linear (fun a => mul a b)) → (∀ a, linear (mul a)) →
  ring_check w mul = true → binary_ring w mul.
Proof.
  intros Hw Hf Hl Hr [Hu Hs]%andb_true_iff. rewrite forallb_forall in Hs.
  assert (∀ i, (S i < w)%nat →
    basis_check w (fun a => mul a (2 ^ Z.of_nat (S i))) (fun a => mul (mul a (2 ^ Z.of_nat i)) 2) = true ∧
    mul (2 ^ Z.of_nat i) 2 = 2 ^ Z.of_nat (S i)) as Hi.
  { intros i Hi. rewrite <-Z.eqb_eq. apply andb_true_iff, Hs, in_seq. lia. }
  split; [done|done| | | | |].
  - intros b _. by apply linear_additive.
  - intros a _. by apply linear_additive.
  - apply (additive_eq w _ id); [by apply linear_additive|apply additive_id|exact (basis_check_spec _ _ _ Hu)].
  - intros a i Hi'. revert a. apply additive_eq; [by apply linear_additive| |].
    + apply linear_additive, (linear_comp (fun a => mul a 2) (fun a => mul a _)); apply Hl.
    + exact (basis_check_spec _ _ _ (proj1 (Hi i Hi'))).
  - intros i Hi'. by apply Hi.
Qed.

(** The multiplication of two loops: the product of the polynomials, and its reduction. *)
Definition two_loops (n : nat) (f : Z) (g : Z → nat → Z) (l : list nat) (a b : Z) : Z :=
  wrap (Z.of_nat n) (foldl (reduce_at f n) (add_bits (g a) b 0 l) (rev (seq n n))).

Lemma two_loops_linear n f g l :
  (∀ i, linear (fun a => g a i)) →
  (∀ b, linear (fun a => two_loops n f g l a b)) ∧ (∀ a, linear (two_loops n f g l a)).
Proof.
  intros Hg. split; intros c; unfold two_loops; apply (linear_comp (wrap (Z.of_nat n))); try (by apply linear_wrap; lia);
    apply (linear_comp (fun p => foldl (reduce_at f n) p _)); try apply reduce_linear;
    [by apply add_bits_linear_l|apply add_bits_linear].
Qed.

Lemma two_loops_fits n f g l a b : fits (Z.of_nat n) (two_loops n f g l a b).
Proof. apply wrap_fits. lia. Qed.

Lemma two_loops_ring n f g l :
  (1 < n)%nat → (∀ i, linear (fun a => g a i)) → ring_check n (two_loops n f g l) = true → binary_ring n (two_loops n f g l).
Proof.
  intros Hn Hg. destruct (two_loops_linear n f g l Hg) as [Hl Hr].
  apply ring_by_check; [done|intros; apply two_loops_fits|done|done].
Qed.

Lemma ring_ext w mul mul' : (∀ a b, mul a b = mul' a b) → binary_ring w mul → binary_ring w mul'.
Proof.
  intros E [R1 R2 R3 R4 R5 R6 R7]. split; [done|..].
  - intros a b. rewrite <-E. apply R2.
  - intros b Hb x y Hx Hy. rewrite <-!E. by apply R3.
  - intros a Ha x y Hx Hy. rewrite <-!E. by apply R4.
  - intros a. rewrite <-E. apply R5.
  - intros a i. rewrite <-!E. apply R6.
  - intros i. rewrite <-E. apply R7.
Qed.

(** ** A field by finitely many products *)

(** A field of [2 ^ w] elements. *)
Record binary_field (w : nat) (mul : Z → Z → Z) (inv : Z → option Z) : Prop := {
  is_ring : binary_ring w mul;
  inv_none : inv 0 = None;
  inv_some a : fits (Z.of_nat w) a → a ≠ 0 → ∃ b, inv a = Some b ∧ fits (Z.of_nat w) b ∧ mul a b = 1;
}.

(** The checks may run on another definition of the same product. *)
Lemma field_by_checks w mul mul' inv :
  binary_ring w mul → (∀ a b, fits (Z.of_nat w) a → mul a b = mul' a b) →
  Nat.iter w (square mul') 2 = 2 →
  (let table := artin_table w mul' in
   basis_check w (fun a => by_table table (Z.lxor (square mul' a) a)) (fun a => if a =? 1 then 0 else a)) = true →
  inv 0 = None → (∀ a, fits (Z.of_nat w) a → a ≠ 0 → inv a = Some (square mul (ones_power mul (w - 1) a))) →
  binary_field w mul inv.
Proof.
  intros R Em E2 Et H0 Hi. split; [done|done|]. intros a Ha Hne.
  exists (square mul (ones_power mul (w - 1) a)). split; [by apply Hi|]. split.
  - by apply (square_word w mul R), (ones_word w mul R).
  - apply (inverse_exists w mul R); [| |done|done].
    + assert (∀ n, Nat.iter n (square mul) 2 = Nat.iter n (square mul') 2) as Es; [|by rewrite Es].
      induction n as [|n IH]; [done|]. rewrite !Nat.iter_succ, <-IH. apply Em.
      by apply (squares_word w mul R), (word_2 w mul R).
    + apply (idempotents_by_table w mul R (artin_table w mul')). cbv zeta in Et. unfold basis_check in *.
      rewrite forallb_forall in *. intros i Hii. rewrite <-(Et i Hii). do 2 f_equal. f_equal. apply Em.
      apply (word_pow w). apply in_seq in Hii. lia.
Qed.
