(* ===== verification/BinField.v ===== *)
(** The binary fields of [binary-fields/src]: polynomials over GF(2) of machine words
    ([poly.rs], with the portable code of [simd.rs]), field elements ([elem.rs]) and the trait
    that the encoders and the secret sharing use ([lib.rs]).

    A polynomial and an element are the number their word holds.  A division by zero and the
    inverse of zero, which panic, are [None].  The property-giving lemmas are in [GF]. *)
From stdpp Require Import base list.
From Stdlib Require Import ZArith Lia.
From S2P Require Import Prelude GF.

Local Open Scope Z_scope.

(** * Polynomials, of a word of [w] bits *)

Section poly.
Context (w : nat).
#[local] Abbreviation W := (Z.of_nat w).

Definition leading_zeros (x : Z) : Z := if x =? 0 then W else W - 1 - Z.log2 x.

(** A shift by the width or more panics. *)
Definition poly_shl (x n : Z) : option Z := if n <? W then Some (wrap W (Z.shiftl x n)) else None.
Definition poly_shr (x n : Z) : option Z := if n <? W then Some (Z.shiftr x n) else None.

(** The high and the low half. *)
Definition poly_split (x : Z) : Z * Z :=
  let half_bits := W / 2 in
  let mask := Z.shiftl 1 half_bits - 1 in
  (Z.shiftr x half_bits, Z.land x mask).

Definition poly_add (a b : Z) : Z := Z.lxor a b.

Definition poly_mul (a b : Z) : Z :=
  foldl (fun result i => if bit b i then Z.lxor result (wrap W (Z.shiftl a (Z.of_nat i))) else result) 0 (seq 0 w).

(** The loop of [div_rem]. *)
Fixpoint div_loop (fuel : nat) (divisor divisor_bits quotient remainder : Z) : option (Z * Z) :=
  let remainder_bits := W - leading_zeros remainder in
  if (divisor_bits <=? remainder_bits) && negb (remainder =? 0) then
    match fuel with
    | O => None
    | S fuel =>
        let shift := remainder_bits - divisor_bits in
        div_loop fuel divisor divisor_bits (Z.lor quotient (wrap W (Z.shiftl 1 shift)))
          (Z.lxor remainder (wrap W (Z.shiftl divisor shift)))
    end
  else Some (quotient, remainder).

Definition div_rem (a divisor : Z) : option (Z * Z) :=
  if divisor =? 0 then None
  else if a =? 0 then Some (0, a)
  else div_loop w divisor (W - leading_zeros divisor) 0 a.
End poly.

(** The full product of two words of 64 bits. *)
Definition carryless_mul (a b : Z) : Z :=
  foldl (fun result i => if bit b i then Z.lxor result (Z.shiftl a (Z.of_nat i)) else result) 0 (seq 0 64).

Definition poly64_mul (a b : Z) : Z := wrap 64 (carryless_mul a b).

(** [BinaryPoly128::mul], after Karatsuba. *)
Definition poly128_mul (a b : Z) : Z :=
  let a_lo := wrap 64 a in let a_hi := Z.shiftr a 64 in
  let b_lo := wrap 64 b in let b_hi := Z.shiftr b 64 in
  let z0 := poly64_mul a_lo b_lo in
  let z2 := poly64_mul a_hi b_hi in
  let z1 := Z.lxor (Z.lxor (poly64_mul (Z.lxor a_lo a_hi) (Z.lxor b_lo b_hi)) z0) z2 in
  Z.lxor z0 (wrap 128 (Z.shiftl z1 64)).

(** [BinaryPoly256]: the high and the low part. *)
Definition from_parts (hi lo : Z) : Z * Z := (hi, lo).

(** * Elements *)

Definition IRREDUCIBLE_16 : Z := 0x1002D.
Definition IRREDUCIBLE_32 : Z :=
  Z.lor (Z.lor (Z.lor (Z.lor (Z.shiftl 1 32) 25) (Z.shiftl 1 7)) (Z.shiftl 1 9)) (Z.shiftl 1 15).
Definition IRREDUCIBLE_128 : Z := 135.

(** ** The macro for the elements of 16 and 32 bits *)

Section elem.
Context (n : nat) (irreducible : Z).
#[local] Abbreviation D := (2 * n)%nat.

Definition find_high_bit (p : Z) : nat := default 0%nat (find_first (bit p) (rev (seq n n))).

Fixpoint reduce_loop (fuel : nat) (p : Z) (high_bit : nat) : Z :=
  match fuel with
  | O => p
  | S fuel =>
      if (high_bit <? n)%nat then p
      else
        let p := Z.lxor p (wrap (Z.of_nat D) (Z.shiftl irreducible (Z.of_nat (high_bit - n)))) in
        reduce_loop fuel p (find_high_bit p)
  end.

Definition mod_irreducible_wide (poly : Z) : Z := wrap (Z.of_nat n) (reduce_loop (S n) poly (find_high_bit poly)).

Definition elem_mul (poly_mul : Z → Z → Z) (a b : Z) : Z := mod_irreducible_wide (poly_mul a b).
End elem.

Definition elem16_mul : Z → Z → Z := elem_mul 16 IRREDUCIBLE_16 (poly_mul 32).
Definition elem32_mul : Z → Z → Z := elem_mul 32 IRREDUCIBLE_32 poly64_mul.

(** ** Elements of 128 and 64 bits *)

(** One step of the loop: the result, and the first factor times a power of [x]. *)
Definition elem128_step (b : Z) (rt : Z * Z) (i : nat) : Z * Z :=
  let '(result, temp) := rt in
  let result := if bit b i then Z.lxor result temp else result in
  let high_bit := Z.land (Z.shiftr temp 127) 1 in
  let temp := wrap 128 (Z.shiftl temp 1) in
  let temp := if high_bit =? 1 then Z.lxor temp 135 else temp in
  (result, temp).

Definition elem128_mul (a b : Z) : Z := (foldl (elem128_step b) (0, a) (seq 0 128)).1.

(** Nothing is reduced here. *)
Definition mod_irreducible (poly : Z) : Z := poly.

Definition elem64_mul (a b : Z) : Z := poly64_mul a b.

(** ** Powers and inverses *)

Section power.
Context (mul : Z → Z → Z).

Fixpoint pow_loop (fuel : nat) (result base exp : Z) : Z :=
  match fuel with
  | O => result
  | S fuel =>
      if 0 <? exp then
        let result := if Z.land exp 1 =? 1 then mul result base else result in
        pow_loop fuel result (mul base base) (Z.shiftr exp 1)
      else result
  end.

Definition elem_pow (a exp : Z) : Z := if a =? 0 then 0 else pow_loop 64 1 a exp.

(** The product of [a ^ 2], [a ^ 4] and so on, [k] factors after the first. *)
Definition inv_chain (k : nat) (a : Z) : Z :=
  let acc := mul a a in
  (Nat.iter k (fun ar => let acc := mul ar.1 ar.1 in (acc, mul ar.2 acc)) (acc, acc)).2.
End power.

Definition elem16_inv (a : Z) : option Z :=
  if a =? 0 then None else Some (elem_pow elem16_mul a (Z.shiftl 1 16 - 2)).
Definition elem32_inv (a : Z) : option Z := if a =? 0 then None else Some (inv_chain elem32_mul (32 - 2) a).
Definition elem128_inv (a : Z) : option Z := if a =? 0 then None else Some (inv_chain elem128_mul (127 - 1) a).
Definition elem64_inv (a : Z) : option Z :=
  if a =? 0 then None else Some (elem_pow elem64_mul a 0xFFFFFFFFFFFFFFFE).

(** The embeddings: the word is kept. *)
Definition embed (a : Z) : Z := a.

(** * The trait *)

Class BinaryFieldElement (E : Type) := {
  fzero : E;
  fone : E;
  from_poly : Z → E;
  poly : E → Z;
  fadd : E → E → E;
  fmul : E → E → E;
  finv : E → option E;
  fpow : E → Z → E;
}.

Definition from_bits {E} `{BinaryFieldElement E} (bits : Z) : E :=
  let generator := from_poly 2 in
  (foldl (fun rp i =>
     let '(result, power) := rp in
     let result := if bit bits i then fadd result power else result in
     let power := if (i <? 63)%nat then fmul power generator else power in
     (result, power)) (fzero, fone) (seq 0 64)).1.

(** What a field of characteristic two promises. *)
Class BinaryFieldLaws (E : Type) `{BinaryFieldElement E} := {
  field_dec :: EqDecision E;
  field_ring : ring_theory (fzero : E) fone fadd fmul fadd id eq;
  one_not_zero : (fone : E) ≠ fzero;
  inv_zero : finv (fzero : E) = None;
  inv_spec (a : E) : a ≠ fzero → ∃ b, finv a = Some b ∧ fmul a b = fone;
}.
