(* ===== verification/BinFieldSafe.v ===== *)
(** Properties of the binary fields of [binary-fields/src]: the elements of 16, 32 and 128 bits
    are fields and their inverses are right, those of 64 bits are not; the division of
    polynomials ends and is right. *)
From stdpp Require Import base list sets.
From Stdlib Require Import ZArith Lia Ring.
From S2P Require Import Prelude GF BinField.

Local Open Scope Z_scope.

(** * The product of polynomials *)

Lemma poly_mul_bits w a b : poly_mul w a b = add_bits (fun i => wrap (Z.of_nat w) (Z.shiftl a (Z.of_nat i))) b 0 (seq 0 w).
Proof. unfold poly_mul, add_bits. reflexivity. Qed.

Lemma wrap_shift_linear w i : 0 ≤ w → linear (fun a => wrap w (Z.shiftl a i)).
Proof. intros Hw. apply (linear_comp (wrap w)); [by apply linear_wrap|apply linear_shiftl]. Qed.

Lemma poly_mul_linear w : (∀ b, linear (fun a => poly_mul w a b)) ∧ (∀ a, linear (poly_mul w a)).
Proof.
  split; intros c; [|apply add_bits_linear]. apply add_bits_linear_l. intros i. apply wrap_shift_linear. lia.
Qed.

Lemma carryless_mul_bits a b : carryless_mul a b = add_bits (fun i => Z.shiftl a (Z.of_nat i)) b 0 (seq 0 64).
Proof. unfold carryless_mul, add_bits. reflexivity. Qed.

Lemma poly64_mul_poly a b : poly64_mul a b = poly_mul 64 a b.
Proof.
  rewrite poly_mul_bits. change (Z.of_nat 64) with 64. unfold poly64_mul. rewrite carryless_mul_bits.
  generalize (seq 0 64). intros l. by apply add_bits_wrap.
Qed.

Lemma poly_mul_pow w a i : (i < w)%nat → poly_mul w a (2 ^ Z.of_nat i) = wrap (Z.of_nat w) (Z.shiftl a (Z.of_nat i)).
Proof. intros Hi. rewrite poly_mul_bits. by apply (add_bits_pow (fun i => wrap (Z.of_nat w) (Z.shiftl a (Z.of_nat i)))). Qed.

Lemma poly_mul_comm w a b : fits (Z.of_nat w) a → fits (Z.of_nat w) b → poly_mul w a b = poly_mul w b a.
Proof.
  destruct (poly_mul_linear w) as [Hl Hr]. intros Ha Hb. revert b Hb. apply additive_eq; [by apply linear_additive..|].
  intros i Hi. revert a Ha. apply additive_eq; [by apply linear_additive..|]. intros j Hj. rewrite !poly_mul_pow by done.
  rewrite !Z.shiftl_mul_pow2 by lia. by rewrite Z.mul_comm.
Qed.

(** * The reduction *)

Section reduce.
Context (n : nat) (f : Z).
Hypothesis f_degree : 2 ^ Z.of_nat n ≤ f < 2 ^ Z.of_nat (S n).
Hypothesis n_pos : (0 < n)%nat.

Lemma f_bit i : (n ≤ i)%nat → Z.testbit f (Z.of_nat i) = (i =? n)%nat.
Proof.
  intros Hi. destruct (Nat.eqb_spec i n) as [->|Hne].
  - replace f with (2 ^ Z.of_nat n + (f - 2 ^ Z.of_nat n)) by lia.
    rewrite Nat2Z.inj_succ, Z.pow_succ_r in f_degree by lia.
    assert (fits (Z.of_nat n) (f - 2 ^ Z.of_nat n)) as Hr by (unfold fits; lia).
    rewrite pow2_add_lxor by (lia || done).
    by rewrite Z.lxor_spec, Z.pow2_bits_true, (fits_testbit (Z.of_nat n) (f - 2 ^ Z.of_nat n)) by (lia || done).
  - apply (fits_testbit (Z.of_nat (S n))); [|lia]. split; lia.
Qed.

(** No bit from [k] on. *)
Definition below (k : nat) (p : Z) : Prop := ∀ i, (k ≤ i < 2 * n)%nat → bit p i = false.

Lemma find_high_bit_skip m p :
  (m ≤ n)%nat → below (n + m) p →
  find_high_bit n p = default 0%nat (find_first (bit p) (rev (seq n m))).
Proof.
  intros Hm Hb. unfold find_high_bit. f_equal. replace n with (m + (n - m))%nat at 2 by lia.
  rewrite seq_app, rev_app_distr.
  assert (∀ l k, (∀ i, i ∈ l → bit p i = false) → find_first (bit p) (l ++ k) = find_first (bit p) k) as Hs.
  { induction l as [|i l IH]; intros k Hl; [done|]. cbn. rewrite (Hl i) by set_solver. apply IH. set_solver. }
  apply Hs. intros i Hi. apply list_elem_of_In, in_rev, in_seq in Hi. apply Hb. lia.
Qed.

(** The loop that looks for the highest bit does what a loop over all bits does. *)
Lemma reduce_loop_fold m p fuel :
  (m < fuel)%nat → (m ≤ n)%nat → below (n + m) p →
  reduce_loop n f fuel p (find_high_bit n p) = foldl (reduce_at f n) p (rev (seq n m)).
Proof.
  revert p fuel. induction m as [|m IH]; intros p fuel Hf Hm Hb.
  { rewrite (find_high_bit_skip 0) by (lia || done). destruct fuel as [|fuel]; [lia|].
    cbn [seq rev find_first default foldl reduce_loop]. destruct (Nat.ltb_spec 0 n); [done|lia]. }
  rewrite seq_S, rev_app_distr. cbn [rev app foldl]. unfold reduce_at at 2. destruct (bit p (n + m)) eqn:Eb.
  - destruct fuel as [|fuel]; [lia|]. cbn [reduce_loop]. rewrite (find_high_bit_skip (S m)) by done.
    rewrite seq_S, rev_app_distr. cbn [rev app find_first]. rewrite Eb. change (default 0%nat (Some (n + m)%nat)) with (n + m)%nat.
    destruct (Nat.ltb_spec (n + m) n); [lia|]. replace (n + m - n)%nat with m by lia.
    assert (wrap (Z.of_nat (2 * n)) (Z.shiftl f (Z.of_nat m)) = Z.shiftl f (Z.of_nat m)) as ->.
    { apply wrap_small. rewrite Z.shiftl_mul_pow2 by lia. split; [apply Z.mul_nonneg_nonneg; lia|].
      apply Z.lt_le_trans with (2 ^ Z.of_nat (S n) * 2 ^ Z.of_nat m); [apply Z.mul_lt_mono_pos_r; lia|].
      rewrite <-Z.pow_add_r by lia. apply Z.pow_le_mono_r; lia. }
    apply IH; [lia|lia|]. intros i Hi. rewrite bit_testbit, Z.lxor_spec, Z.shiftl_spec by lia.
    replace (Z.of_nat i - Z.of_nat m) with (Z.of_nat (i - m)) by lia. rewrite f_bit by lia.
    destruct (Nat.eqb_spec (i - m) n) as [E|Hne].
    + replace i with (n + m)%nat by lia. rewrite <-bit_testbit. by rewrite Eb.
    + rewrite <-bit_testbit, Hb by lia. done.
  - apply IH; [lia|lia|]. intros i Hi. destruct (decide (i = n + m)%nat) as [->|]; [done|apply Hb; lia].
Qed.

Lemma mod_irreducible_loops p :
  mod_irreducible_wide n f p = wrap (Z.of_nat n) (foldl (reduce_at f n) p (rev (seq n n))).
Proof.
  unfold mod_irreducible_wide. rewrite (reduce_loop_fold n); [done|lia|lia|]. intros i Hi. lia.
Qed.
End reduce.

Definition shift_in (D : Z) (a : Z) (i : nat) : Z := wrap D (Z.shiftl a (Z.of_nat i)).

Lemma elem_mul_loops n f w pm a b :
  2 ^ Z.of_nat n ≤ f < 2 ^ Z.of_nat (S n) → (0 < n)%nat → pm a b = poly_mul w a b →
  elem_mul n f pm a b = two_loops n f (shift_in (Z.of_nat w)) (seq 0 w) a b.
Proof. intros Hf Hn E. unfold elem_mul, two_loops. by rewrite mod_irreducible_loops, E, poly_mul_bits. Qed.

Lemma elem16_mul_loops a b : elem16_mul a b = two_loops 16 IRREDUCIBLE_16 (shift_in (Z.of_nat 32)) (seq 0 32) a b.
Proof. apply elem_mul_loops; [by vm_compute|lia|reflexivity]. Qed.

Lemma elem32_mul_loops a b : elem32_mul a b = two_loops 32 IRREDUCIBLE_32 (shift_in (Z.of_nat 64)) (seq 0 64) a b.
Proof. apply elem_mul_loops; [by vm_compute|lia|apply poly64_mul_poly]. Qed.

(** * Division *)

Definition bit_length (x : Z) : Z := if x =? 0 then 0 else Z.log2 x + 1.

Lemma leading_zeros_length w x : Z.of_nat w - leading_zeros w x = bit_length x.
Proof. unfold leading_zeros, bit_length. destruct (x =? 0); lia. Qed.

Lemma bit_length_fits x : 0 ≤ x → fits (bit_length x) x ∧ (x ≠ 0 → 0 < bit_length x ∧ Z.testbit x (bit_length x - 1) = true).
Proof.
  intros Hx. unfold bit_length. destruct (Z.eqb_spec x 0) as [->|Hne]; [by split; [split|]|].
  assert (0 < x) as Hp by lia. pose proof (Z.log2_nonneg x). destruct (Z.log2_spec x Hp). split; [by split|].
  intros _. split; [lia|]. replace (Z.log2 x + 1 - 1) with (Z.log2 x) by lia. by apply Z.bit_log2.
Qed.

Lemma bit_length_le k x : fits k x → bit_length x ≤ k.
Proof.
  intros Hx. unfold bit_length. destruct (Z.eqb_spec x 0) as [->|Hne].
  - destruct (Z.lt_ge_cases k 0) as [Hk|]; [|done]. destruct Hx as [? Hx]. rewrite Z.pow_neg_r in Hx by done. lia.
  - destruct Hx as [? Hx]. apply Z.log2_lt_pow2 in Hx; lia.
Qed.

Lemma fits_by_bits k x : 0 ≤ k → 0 ≤ x → (∀ i, k ≤ i → Z.testbit x i = false) → fits k x.
Proof.
  intros Hk Hx Hb. split; [done|]. assert (Z.shiftr x k = 0) as E.
  { apply Z.bits_inj'. intros i Hi. rewrite Z.shiftr_spec, Z.bits_0 by done. apply Hb. lia. }
  rewrite Z.shiftr_div_pow2 in E by done. apply Z.div_small_iff in E; lia.
Qed.

(** Two words of the same length cancel their top bits. *)
Lemma top_cancels k x y :
  0 < k → fits k x → fits k y → Z.testbit x (k - 1) = true → Z.testbit y (k - 1) = true → fits (k - 1) (Z.lxor x y).
Proof.
  intros Hk Hx Hy Tx Ty. apply fits_by_bits; [lia|by apply (lxor_lt k)|]. intros i Hi. rewrite Z.lxor_spec.
  destruct (Z.eq_dec i (k - 1)) as [->|Hne]; [by rewrite Tx, Ty|].
  by rewrite (fits_testbit k x), (fits_testbit k y) by (done || lia).
Qed.

Section division.
Context (w : nat) (b : Z).
#[local] Abbreviation word := (fits (Z.of_nat w)).
Hypothesis b_word : word b.
Hypothesis b_nonzero : b ≠ 0.

Lemma div_loop_spec a fuel q r :
  word q → word r → a = Z.lxor (poly_mul w b q) r →
  (∀ i, 0 ≤ i → i + bit_length b ≤ bit_length r → Z.testbit q i = false) →
  bit_length r < bit_length b + Z.of_nat fuel →
  ∃ q' r', div_loop w fuel b (bit_length b) q r = Some (q', r') ∧ word q' ∧ word r' ∧
    a = Z.lxor (poly_mul w b q') r' ∧ bit_length r' < bit_length b.
Proof using b_word b_nonzero.
  destruct (bit_length_fits b) as [Fb Tb]; [apply b_word|]. destruct (Tb b_nonzero) as [Lb Tb']. clear Tb.
  revert q r. induction fuel as [|fuel IH]; intros q r Hq Hr Ea Hbits Hf; cbn [div_loop];
    rewrite !leading_zeros_length; destruct (Z.leb_spec (bit_length b) (bit_length r)) as [Hle|Hlt]; cbn [andb]; try lia;
    try (exists q, r; by split_and!).
  assert (r ≠ 0) as Hr0 by (intros ->; cbn in Hle; lia). rewrite (proj2 (Z.eqb_neq r 0) Hr0). cbn [negb].
  destruct (bit_length_fits r) as [Fr Tr]; [apply Hr|]. destruct (Tr Hr0) as [Lr Tr']. clear Tr.
  pose proof (bit_length_le _ _ Hr) as Lw. set (s := bit_length r - bit_length b) in *.
  assert (0 ≤ s < Z.of_nat w) as Hs by lia.
  assert (fits (bit_length r) (Z.shiftl b s)) as Fs.
  { rewrite Z.shiftl_mul_pow2 by lia. split; [apply Z.mul_nonneg_nonneg; [apply b_word|lia]|].
    replace (bit_length r) with (bit_length b + s) by lia. rewrite Z.pow_add_r by lia. apply Z.mul_lt_mono_pos_r; [lia|apply Fb]. }
  assert (word (Z.shiftl b s)) as Ws.
  { split; [apply Fs|]. eapply Z.lt_le_trans; [apply Fs|]. apply Z.pow_le_mono_r; lia. }
  assert (wrap (Z.of_nat w) (Z.shiftl b s) = Z.shiftl b s) as -> by (by apply wrap_small).
  assert (word (2 ^ s)) as W2 by (by apply fits_pow2).
  assert (wrap (Z.of_nat w) (Z.shiftl 1 s) = 2 ^ s) as -> by (rewrite Z.shiftl_1_l; by apply wrap_small).
  assert (Z.lor q (2 ^ s) = Z.lxor q (2 ^ s)) as ->.
  { symmetry. apply Z.lxor_lor. apply Z.bits_inj'. intros i Hi. rewrite Z.land_spec, Z.bits_0.
    destruct (Z.eq_dec i s) as [->|Hne]; [by rewrite Hbits by lia|]. by rewrite Z.pow2_bits_false, andb_false_r by lia. }
  assert (fits (bit_length r - 1) (Z.lxor r (Z.shiftl b s))) as Fx.
  { apply top_cancels; [lia|done|done|done|]. rewrite Z.shiftl_spec by lia. by replace (bit_length r - 1 - s) with (bit_length b - 1) by lia. }
  pose proof (bit_length_le _ _ Fx) as Lx. apply IH.
  - by apply lxor_lt.
  - by apply lxor_lt.
  - rewrite (proj2 (poly_mul_linear w) b). replace s with (Z.of_nat (Z.to_nat s)) at 1 by lia.
    rewrite poly_mul_pow by lia. rewrite Z2Nat.id by lia. rewrite (wrap_small _ (Z.shiftl b s)) by done.
    by rewrite lxor_flip, Z.lxor_nilpotent, Z.lxor_0_r.
  - intros i Hi Hle'. rewrite Z.lxor_spec, Z.pow2_bits_false, Hbits by lia. done.
  - lia.
Qed.
End division.

(** The division of polynomials ends and is right: for a divisor that is not zero it
    returns a quotient and a remainder of lower degree with [a = q * b + r], where nothing of
    the product is cut off; a division by zero panics. *)
Lemma div_rem_right w a b :
  fits (Z.of_nat w) a → fits (Z.of_nat w) b →
  (b = 0 → div_rem w a b = None) ∧
  (b ≠ 0 → ∃ q r, div_rem w a b = Some (q, r) ∧ fits (Z.of_nat w) q ∧ fits (Z.of_nat w) r ∧
     a = poly_add (poly_mul w q b) r ∧ (r = 0 ∨ leading_zeros w b < leading_zeros w r)).
Proof.
  intros Ha Hb. unfold div_rem. split; [by intros ->|]. intros Hne. rewrite (proj2 (Z.eqb_neq b 0) Hne).
  assert (fits (Z.of_nat w) 0) as H0 by (split; lia). pose proof (bit_length_le _ _ Ha) as La.
  destruct (bit_length_fits b) as [_ Tb]; [apply Hb|]. destruct (Tb Hne) as [Lb _].
  assert (poly_mul w b 0 = 0) as E0 by apply (additive_0 w), linear_additive, (proj2 (poly_mul_linear w)).
  destruct (Z.eqb_spec a 0) as [->|Ha0].
  { exists 0, 0. split_and!; [done..| |by left]. by rewrite poly_mul_comm, E0 by done. }
  rewrite leading_zeros_length.
  destruct (div_loop_spec w b Hb Hne a w 0 a) as (q & r & Ed & Hq & Hr & E & Hl); [done|done| | |lia|].
  - by rewrite E0, Z.lxor_0_l.
  - intros i _ _. apply Z.bits_0.
  - exists q, r. split_and!; [done..| |].
    + by rewrite poly_mul_comm.
    + right. pose proof (leading_zeros_length w b). pose proof (leading_zeros_length w r). lia.
Qed.

Lemma div_rem_right_witness :
  ∃ q r, div_rem 64 0x123456789ABCDEF0 0xFEDCBA98 = Some (q, r) ∧
    0x123456789ABCDEF0 = poly_add (poly_mul 64 q 0xFEDCBA98) r ∧ (r = 0 ∨ leading_zeros 64 0xFEDCBA98 < leading_zeros 64 r).
Proof.
  destruct (div_rem_right 64 0x123456789ABCDEF0 0xFEDCBA98) as [_ H].
  - split; reflexivity || discriminate.
  - split; reflexivity || discriminate.
  - destruct H as (q & r & E & _ & _ & H1 & H2); [discriminate|]. exists q, r. exact (conj E (conj H1 H2)).
Defined.

(** * Rings *)

Lemma elem16_ring : binary_ring 16 elem16_mul.
Proof.
  eapply ring_ext; [intros a b; symmetry; apply elem16_mul_loops|]. apply two_loops_ring; [lia|intros i; apply wrap_shift_linear; lia|by vm_compute].
Qed.

Lemma elem32_ring : binary_ring 32 elem32_mul.
Proof.
  eapply ring_ext; [intros a b; symmetry; apply elem32_mul_loops|]. apply two_loops_ring; [lia|intros i; apply wrap_shift_linear; lia|by vm_compute].
Qed.

(** ** 128 bits *)

Definition times_x (temp : Z) : Z :=
  let t := wrap 128 (Z.shiftl temp 1) in if bit temp 127 then Z.lxor t 135 else t.

Lemma times_x_linear : linear times_x.
Proof.
  intros a b. unfold times_x. cbv zeta. rewrite (wrap_shift_linear 128 1) by done.
  rewrite !bit_testbit, Z.lxor_spec. destruct (Z.testbit a _), (Z.testbit b _); cbn [xorb]; [| | |done].
  - by rewrite lxor_flip, Z.lxor_nilpotent, Z.lxor_0_r.
  - by rewrite !Z.lxor_assoc, (Z.lxor_comm 135).
  - by rewrite Z.lxor_assoc.
Qed.

Lemma times_x_fits a : fits 128 (times_x a).
Proof.
  unfold times_x. cbv zeta. assert (fits 128 (wrap 128 (Z.shiftl a 1))) by (by apply wrap_fits).
  destruct (bit a 127); [apply lxor_lt; [done|by split]|done].
Qed.

Lemma elem128_loop a b k n :
  foldl (elem128_step b) (0, Nat.iter k times_x a) (seq k n) =
  (add_bits (fun i => Nat.iter i times_x a) b 0 (seq k n), Nat.iter (k + n) times_x a).
Proof.
  assert (∀ acc, foldl (elem128_step b) (acc, Nat.iter k times_x a) (seq k n) =
    (add_bits (fun i => Nat.iter i times_x a) b acc (seq k n), Nat.iter (k + n) times_x a)) as H; [|apply H].
  revert k. induction n as [|n IH]; intros k acc; [by rewrite Nat.add_0_r|]. cbn [seq].
  rewrite <-Nat.add_succ_comm. apply (IH (S k)).
Qed.

Lemma elem128_mul_bits a b : elem128_mul a b = add_bits (fun i => Nat.iter i times_x a) b 0 (seq 0 128).
Proof. unfold elem128_mul. change (0, a) with (0, Nat.iter 0 times_x a). by rewrite elem128_loop. Qed.

Lemma times_x_iter_linear i : linear (Nat.iter i times_x).
Proof. induction i as [|i IH]; [done|]. apply (linear_comp times_x _ times_x_linear IH). Qed.

Lemma elem128_pow a i : (i < 128)%nat → elem128_mul a (2 ^ Z.of_nat i) = Nat.iter i times_x a.
Proof. intros Hi. rewrite elem128_mul_bits. by apply (add_bits_pow (fun i => Nat.iter i times_x a)). Qed.

(** The same product by Horner's rule, on which the checks below run. *)
Definition double128 (t : Z) : Z := let d := 2 * t in if Z.testbit d 128 then Z.lxor d 0x100000000000000000000000000000087 else d.

Fixpoint horner128 (n : nat) (a b : Z) : Z :=
  match n with
  | O => 0
  | S n => Z.lxor (if Z.odd b then a else 0) (double128 (horner128 n a (Z.div2 b)))
  end.

Lemma double128_linear : linear double128.
Proof.
  assert (∀ t, 2 * t = Z.shiftl t 1) as D by (intros t; rewrite Z.shiftl_mul_pow2; lia).
  intros a b. unfold double128. cbv zeta. rewrite !D, Z.shiftl_lxor, Z.lxor_spec.
  destruct (Z.testbit (Z.shiftl a 1) 128), (Z.testbit (Z.shiftl b 1) 128); cbn [xorb]; [| | |done].
  - by rewrite lxor_flip, Z.lxor_nilpotent, Z.lxor_0_r.
  - by rewrite !Z.lxor_assoc, (Z.lxor_comm 0x100000000000000000000000000000087).
  - by rewrite Z.lxor_assoc.
Qed.

Lemma double128_spec t : fits 128 t → double128 t = times_x t.
Proof.
  revert t. apply (additive_eq 128); [apply linear_additive, double128_linear|apply linear_additive, times_x_linear|].
  apply basis_check_spec. by vm_compute.
Qed.

Lemma horner128_bits n a b : fits 128 a → horner128 n a b = add_bits (fun i => Nat.iter i times_x a) b 0 (seq 0 n).
Proof.
  intros Ha. revert b. induction n as [|n IH]; intros b; [done|]. cbn [horner128 seq]. rewrite IH, add_bits_cons.
  rewrite bit_testbit, <-Z.bit0_odd. f_equal. rewrite double128_spec.
  - assert (∀ l c, times_x (add_bits (fun i => Nat.iter i times_x a) (Z.div2 c) 0 l) =
      add_bits (fun i => Nat.iter i times_x a) c 0 (map S l)) as E.
    { intros l c. induction l as [|i l IHl]; [done|]. cbn [map]. rewrite !add_bits_cons, times_x_linear, IHl. f_equal.
      rewrite !bit_testbit, Z.div2_spec, Z.shiftr_spec, Nat2Z.inj_succ by lia. unfold Z.succ. by destruct (Z.testbit c _). }
    by rewrite E, seq_shift.
  - apply add_bits_fits; [done|]. intros [|i]; [done|apply times_x_fits].
Qed.

Lemma elem128_mul_horner a b : fits 128 a → elem128_mul a b = horner128 128 a b.
Proof. intros Ha. by rewrite horner128_bits, elem128_mul_bits. Qed.

Lemma elem128_ring : binary_ring 128 elem128_mul.
Proof.
  assert (∀ b, linear (fun a => elem128_mul a b)) as Hl.
  { intros b x y. rewrite !elem128_mul_bits.
    apply (add_bits_linear_l (fun a i => Nat.iter i times_x a) b (seq 0 128) times_x_iter_linear). }
  assert (∀ a, linear (elem128_mul a)) as Hr by (intros a x y; rewrite !elem128_mul_bits; apply add_bits_linear).
  split; [lia| | | | | |].
  - intros a b Ha _. rewrite elem128_mul_bits. apply add_bits_fits; [done|]. intros i.
    destruct i as [|i]; [done|]. apply times_x_fits.
  - intros b _. by apply linear_additive.
  - intros a _. by apply linear_additive.
  - intros a _. apply (elem128_pow a 0). lia.
  - intros a i Hi _. rewrite (elem128_pow a (S i)), (elem128_pow a i), (elem128_pow _ 1) by lia. done.
  - intros i Hi. rewrite (elem128_pow _ 1) by lia.
    assert (forallb (fun i => times_x (2 ^ Z.of_nat i) =? 2 ^ Z.of_nat (S i)) (seq 0 127) = true) as E by (by vm_compute).
    rewrite forallb_forall in E. apply Z.eqb_eq, E, in_seq. lia.
Qed.

(** * Fields *)

(** The chain of squares multiplies to the power [2 ^ n - 2]. *)
Lemma inv_chain_power w mul a k :
  binary_ring w mul → fits (Z.of_nat w) a → inv_chain mul k a = square mul (ones_power mul (S k) a).
Proof.
  intros R Ha. unfold inv_chain. cbv zeta.
  assert (Nat.iter k (fun ar => (mul ar.1 ar.1, mul ar.2 (mul ar.1 ar.1))) (mul a a, mul a a) =
    (Nat.iter (S k) (square mul) a, square mul (ones_power mul (S k) a))) as E; [|by rewrite E].
  induction k as [|k IH].
  - cbn. unfold square. by rewrite (mul_1 w mul R 1), (mul_1 w mul R a) by (done || eapply word_1, R).
  - rewrite Nat.iter_succ, IH. cbn [fst snd]. f_equal.
    change (mul (Nat.iter (S k) (square mul) a) (Nat.iter (S k) (square mul) a)) with (square mul (Nat.iter (S k) (square mul) a)).
    rewrite (ones_snoc w mul R (S k)) by done. symmetry.
    apply (square_mul w mul R); [by apply (ones_word w)|by apply (squares_word w)].
Qed.

(** *** The power of 16 bits *)

Lemma pow_loop_ones w mul k :
  binary_ring w mul →
  ∀ fuel result base, (k ≤ fuel)%nat → fits (Z.of_nat w) base → fits (Z.of_nat w) result →
  pow_loop mul fuel result base (2 ^ Z.of_nat k - 1) = mul result (ones_power mul k base).
Proof.
  intros R. induction k as [|k IH]; intros fuel result base Hf Hb Hr.
  { cbn [ones_power]. rewrite (mul_unit w mul R) by done. by destruct fuel. }
  destruct fuel as [|fuel]; [lia|]. cbn [pow_loop]. rewrite Nat2Z.inj_succ, Z.pow_succ_r by lia.
  destruct (Z.ltb_spec 0 (2 * 2 ^ Z.of_nat k - 1)); [|lia].
  assert (Z.land (2 * 2 ^ Z.of_nat k - 1) 1 = 1) as ->.
  { change 1 with (Z.ones 1) at 2. rewrite Z.land_ones by lia. change (2 ^ 1) with 2.
    replace (2 * 2 ^ Z.of_nat k - 1) with (1 + (2 ^ Z.of_nat k - 1) * 2) by lia. by rewrite Z.mod_add. }
  assert (Z.shiftr (2 * 2 ^ Z.of_nat k - 1) 1 = 2 ^ Z.of_nat k - 1) as ->.
  { rewrite Z.shiftr_div_pow2 by lia. change (2 ^ 1) with 2.
    replace (2 * 2 ^ Z.of_nat k - 1) with (1 + (2 ^ Z.of_nat k - 1) * 2) by lia. rewrite Z.div_add by lia. done. }
  cbn [Z.eqb Pos.eqb]. rewrite IH by (lia || by apply (mul_fits w mul R)).
  rewrite <-(mul_assoc w mul R) by (done || apply (ones_word w mul R); by apply (mul_fits w mul R)). f_equal.
  cbn [ones_power]. rewrite (mul_comm w mul R base) by (done || apply (ones_word w mul R); by apply (mul_fits w mul R)). f_equal.
  by apply (ones_square w mul R).
Qed.

Lemma pow_loop_even mul fuel result base e :
  0 < e → pow_loop mul (S fuel) result base (2 * e) = pow_loop mul fuel result (square mul base) e.
Proof.
  intros He. cbn [pow_loop]. destruct (Z.ltb_spec 0 (2 * e)); [|lia].
  assert (Z.land (2 * e) 1 = 0) as ->.
  { change 1 with (Z.ones 1). rewrite Z.land_ones by lia. change (2 ^ 1) with 2. rewrite Z.mul_comm. by apply Z.mod_mul. }
  rewrite Z.shiftr_div_pow2 by lia. change (2 ^ 1) with 2. by rewrite Z.mul_comm, Z.div_mul.
Qed.

Lemma elem16_field : binary_field 16 elem16_mul elem16_inv.
Proof.
  eapply field_by_checks; [apply elem16_ring|intros a b _; apply elem16_mul_loops|by vm_compute|by vm_compute|done|].
  intros a Ha Hne. unfold elem16_inv, elem_pow. rewrite (proj2 (Z.eqb_neq a 0)) by done. f_equal.
  change (16 - 1)%nat with 15%nat. rewrite <-(ones_square 16 _ elem16_ring) by done.
  change (Z.shiftl 1 16 - 2) with (2 * (2 ^ Z.of_nat 15 - 1)).
  rewrite pow_loop_even by lia.
  pose proof (word_1 16 _ elem16_ring) as H1. pose proof (square_word 16 _ elem16_ring a Ha) as Hs.
  rewrite (pow_loop_ones 16 _ 15 elem16_ring 63 1 _ ltac:(lia) Hs H1).
  apply (mul_1 16 _ elem16_ring), (ones_word 16 _ elem16_ring), (square_word 16 _ elem16_ring), Ha.
Qed.

Lemma elem32_field : binary_field 32 elem32_mul elem32_inv.
Proof.
  eapply field_by_checks; [apply elem32_ring|intros a b _; apply elem32_mul_loops|by vm_compute|by vm_compute|done|].
  intros a Ha Hne. unfold elem32_inv. rewrite (proj2 (Z.eqb_neq a 0)) by done. f_equal.
  by apply (inv_chain_power 32 _ _ 30 elem32_ring).
Qed.

Lemma elem128_field : binary_field 128 elem128_mul elem128_inv.
Proof.
  apply (field_by_checks 128 _ (horner128 128)); [apply elem128_ring|apply elem128_mul_horner|by vm_compute|by vm_compute|done|].
  intros a Ha Hne. unfold elem128_inv. rewrite (proj2 (Z.eqb_neq a 0)) by done. f_equal.
  change (127 - 1)%nat with 126%nat. change (128 - 1)%nat with 127%nat. exact (inv_chain_power 128 _ a 126 elem128_ring Ha).
Qed.

Definition field_laws (w : nat) (mul : Z → Z → Z) (inv : Z → option Z) : Prop :=
  let word := fits (Z.of_nat w) in
  (∀ a b c, word a → word b → word c →
     word (mul a b) ∧ mul a b = mul b a ∧ mul a (mul b c) = mul (mul a b) c ∧
     mul a (poly_add b c) = poly_add (mul a b) (mul a c) ∧ mul a 1 = a) ∧
  inv 0 = None ∧
  ∀ a, word a → a ≠ 0 → ∃ b, inv a = Some b ∧ word b ∧ mul a b = 1.

Lemma binary_field_laws w mul inv : binary_field w mul inv → field_laws w mul inv.
Proof.
  intros [R H0 Hi]. split; [|split; [exact H0|exact Hi]]. intros a b c Ha Hb Hc. split_and!.
  - by apply (mul_fits w mul R).
  - by apply (mul_comm w mul R).
  - by apply (mul_assoc w mul R).
  - by apply (mul_add_r w mul R).
  - by apply (mul_unit w mul R).
Qed.

(** C15.  The elements of 16, 32 and 128 bits are fields: the multiplication, carried out by
    loops over bits and a search for the highest one, is commutative and associative and
    distributes over addition, 1 is its unit, and the inverse that the chain of squares
    computes is one for every element but zero, where it panics. *)
Theorem elements_are_fields :
  field_laws 16 elem16_mul elem16_inv ∧ field_laws 32 elem32_mul elem32_inv ∧ field_laws 128 elem128_mul elem128_inv.
Proof.
  split_and!; apply binary_field_laws; [apply elem16_field|apply elem32_field|apply elem128_field].
Qed.

(** ** What is no field *)

(** The elements of 64 bits are polynomials without the upper half of their product: the
    polynomial [x] has no inverse among them, and what [inv] returns for it is zero. *)
Lemma elem64_no_inverse b : elem64_mul 2 b ≠ 1.
Proof.
  unfold elem64_mul. rewrite poly64_mul_poly. intros E.
  assert (∀ l, Z.testbit (add_bits (fun i => wrap (Z.of_nat 64) (Z.shiftl 2 (Z.of_nat i))) b 0 l) 0 = false) as H.
  { induction l as [|i l IH]; [done|]. rewrite add_bits_cons, Z.lxor_spec, IH. destruct (bit b i); [|done].
    unfold wrap. rewrite Z.mod_pow2_bits_low by lia. rewrite Z.shiftl_spec by lia.
    destruct (Z.of_nat i) eqn:Ei; [done| |lia]. rewrite (Z.testbit_neg_r 2) by lia. done. }
  specialize (H (seq 0 64)). rewrite <-poly_mul_bits, E in H. done.
Qed.

Example elem64_inverse_of_x : elem64_inv 2 = Some 0.
Proof. vm_compute. reflexivity. Qed.

Example elem64_zero_divisors : elem64_mul 2 (2 ^ 63) = 0.
Proof. vm_compute. reflexivity. Qed.

(** The product of two polynomials of 128 bits loses what passes bit 64 of the low halves. *)
Example poly128_mul_loses : poly128_mul 2 (2 ^ 63) = 0 ∧ poly_mul 128 2 (2 ^ 63) = 2 ^ 64.
Proof. by vm_compute. Qed.

(** The embedding of the smaller field into the larger does not keep products. *)
Example embed_not_multiplicative :
  elem32_mul (embed (2 ^ 8)) (embed (2 ^ 8)) = 2 ^ 16 ∧ embed (elem16_mul (2 ^ 8) (2 ^ 8)) = 45.
Proof. by vm_compute. Qed.

(** * The trait *)

(** An element, with the proof that it fits the word. *)
Record elem (w : nat) := mkElem { value : Z; value_fits : (0 <=? value) && (value <? 2 ^ Z.of_nat w) = true }.
#[global] Arguments mkElem {w} _ _.
#[global] Arguments value {w} _.
#[global] Arguments value_fits {w} _.

Lemma elem_fits {w} (e : elem w) : fits (Z.of_nat w) (value e).
Proof. destruct (andb_prop _ _ (value_fits e)) as [? ?]. unfold fits. lia. Qed.

Lemma wrap_fits_b w x : (0 <=? wrap (Z.of_nat w) x) && (wrap (Z.of_nat w) x <? 2 ^ Z.of_nat w) = true.
Proof. destruct (wrap_fits (Z.of_nat w) x) as [? ?]; [lia|]. apply andb_true_iff. lia. Qed.

Definition elem_of (w : nat) (x : Z) : elem w := mkElem (wrap (Z.of_nat w) x) (wrap_fits_b w x).

Lemma elem_eq {w} (a b : elem w) : value a = value b → a = b.
Proof.
  destruct a as [x p], b as [y q]; cbn. intros ->. f_equal. apply Eqdep_dec.UIP_dec, Bool.bool_dec.
Qed.

Lemma value_elem_of w x : fits (Z.of_nat w) x → value (elem_of w x) = x.
Proof. intros Hx. by apply wrap_small. Qed.

Section trait.
Context (w : nat) (mul : Z → Z → Z) (inv : Z → option Z) (pow : Z → Z → Z).

Definition trait_of : BinaryFieldElement (elem w) := {|
  fzero := elem_of w 0;
  fone := elem_of w 1;
  from_poly := elem_of w;
  poly := value;
  fadd a b := elem_of w (poly_add (value a) (value b));
  fmul a b := elem_of w (mul (value a) (value b));
  finv a := elem_of w <$> inv (value a);
  fpow a n := elem_of w (pow (value a) n);
|}.

Hypothesis F : binary_field w mul inv.
#[local] Existing Instance trait_of.

Lemma trait_laws : @BinaryFieldLaws (elem w) trait_of.
Proof using F.
  destruct F as [R H0 Hi]. pose proof (word_1 w mul R) as W1. pose proof (word_0 w) as W0.
  assert (∀ a b : elem w, value (fmul a b) = mul (value a) (value b)) as Em.
  { intros a b. apply value_elem_of, (mul_fits w mul R); apply elem_fits. }
  assert (∀ a b : elem w, value (fadd a b) = Z.lxor (value a) (value b)) as Ea.
  { intros a b. apply value_elem_of, lxor_lt; apply elem_fits. }
  assert (value (fone : elem w) = 1) as E1 by (by apply value_elem_of).
  assert (value (fzero : elem w) = 0) as E0 by (by apply value_elem_of).
  unshelve refine (Build_BinaryFieldLaws _ _ _ _ _ _ _).
  - intros a b. destruct (decide (value a = value b)) as [E|E]; [left; by apply elem_eq|right; congruence].
  - split; intros; apply elem_eq; unfold id; rewrite ?Em, ?Ea, ?Em, ?E0, ?E1.
    + apply Z.lxor_0_l.
    + apply Z.lxor_comm.
    + symmetry. apply Z.lxor_assoc.
    + apply (mul_1 w mul R), elem_fits.
    + apply (mul_comm w mul R); apply elem_fits.
    + apply (mul_assoc w mul R); apply elem_fits.
    + apply (mul_add_l w mul R); apply elem_fits.
    + done.
    + apply Z.lxor_nilpotent.
  - intros E. apply (f_equal value) in E. rewrite E0, E1 in E. done.
  - change (elem_of w <$> inv (value (fzero : elem w)) = None). by rewrite E0, H0.
  - intros a Ha. destruct (Hi (value a) (elem_fits a)) as (b & Eb & Hb & E).
    { intros Ev. apply Ha, elem_eq. by rewrite Ev, E0. }
    exists (elem_of w b). cbn [finv trait_of]. rewrite Eb. split; [done|]. apply elem_eq. rewrite Em, E1.
    by rewrite value_elem_of.
Qed.
End trait.

Definition BinaryElem16 : Type := elem 16.
Definition BinaryElem32 : Type := elem 32.
Definition BinaryElem128 : Type := elem 128.

#[export] Instance BinaryElem16_field : BinaryFieldElement BinaryElem16 := trait_of 16 elem16_mul elem16_inv (elem_pow elem16_mul).
#[export] Instance BinaryElem32_field : BinaryFieldElement BinaryElem32 := trait_of 32 elem32_mul elem32_inv (elem_pow elem32_mul).
#[export] Instance BinaryElem128_field : BinaryFieldElement BinaryElem128 :=
  trait_of 128 elem128_mul elem128_inv (elem_pow elem128_mul).

#[export] Instance BinaryElem16_laws : BinaryFieldLaws BinaryElem16 := trait_laws _ _ _ _ elem16_field.
#[export] Instance BinaryElem32_laws : BinaryFieldLaws BinaryElem32 := trait_laws _ _ _ _ elem32_field.
#[export] Instance BinaryElem128_laws : BinaryFieldLaws BinaryElem128 := trait_laws _ _ _ _ elem128_field.
