(* ===== verification/Zoda.v ===== *)
(** Verifiable secret sharing over a binary field, [crates/ligerito-escrow/src]: the shares and
    their commitment ([shares.rs]), interpolation ([reconstruct.rs]), the three-party escrow
    ([escrow.rs]) and the sharing of scalars ([frost.rs]).

    The field is that of another crate; it is a parameter through the trait of [BinField], with
    [from_poly] for [From<u32>].  SHA-256 is a parameter too. *)
From stdpp Require Import base list strings.
From Stdlib Require Import ZArith Lia.
From S2P Require Import Prelude Bytes BinField.

Local Open Scope Z_scope.

Inductive EscrowError :=
| Panicked
| InvalidShare
| InsufficientShares (have need : nat)
| DuplicateShareIndex
| InvalidThreshold
| SecretTooLarge
| MerkleProofInvalid
| IndexOutOfBounds.

(** [Option] results of panicking calls. *)
Definition or_panic {A} (o : option A) : result A EscrowError :=
  match o with Some x => Ok x | None => Err Panicked end.

Section zoda.
Context {E : Type} `{BinaryFieldElement E} `{Sha256}.

Record Share := mkShare { index : Z; values : list E; merkle_proof : list bytes }.

Record ShareSet := mkShareSet {
  threshold : nat;
  num_shares : nat;
  shares : list Share;
  commitment : bytes;
}.

Record SecretSharer := mkSecretSharer { k_threshold : nat; n_shares : nat }.

(** * Trees *)

Definition hash_bytes (x : bytes) : bytes := to_be 32 (sha256 x).

Definition hash_share_values (vs : list E) : bytes := hash_bytes (mjoin (map (fun v => to_le 4 (poly v)) vs)).

Fixpoint next_power_of_two_from (fuel p n : nat) : nat :=
  match fuel with
  | O => p
  | S fuel => if (n <=? p)%nat then p else next_power_of_two_from fuel (2 * p) n
  end.
Definition next_power_of_two (n : nat) : nat := next_power_of_two_from n 1 n.

Fixpoint next_level (l : list bytes) : list bytes :=
  match l with a :: b :: l => hash_bytes (a ++ b) :: next_level l | _ => [] end.

(** The levels, from the leaves to the root. *)
Fixpoint build_levels (fuel : nat) (current : list bytes) : list (list bytes) :=
  match fuel with
  | O => [current]
  | S fuel => if (1 <? length current)%nat then current :: build_levels fuel (next_level current) else [current]
  end.

(** The proof of leaf [idx], from the levels but the last. *)
Fixpoint proof_from (levels : list (list bytes)) (idx : nat) : list bytes :=
  match levels with
  | [] => []
  | level :: levels =>
      let sibling_idx := if (idx mod 2 =? 0)%nat then (idx + 1)%nat else (idx - 1)%nat in
      let s := if (sibling_idx <? length level)%nat then level !!! sibling_idx else zeros 32 in
      s :: proof_from levels (idx / 2)
  end.

Definition build_merkle_tree (leaves : list bytes) : bytes * list (list bytes) :=
  let n := length leaves in
  if (n =? 0)%nat then (zeros 32, [])
  else if (n =? 1)%nat then (leaves !!! 0%nat, [[]])
  else
    let padded_len := next_power_of_two n in
    let current := leaves ++ replicate (padded_len - n) (zeros 32) in
    let levels := build_levels n current in
    let root := (last levels ≫= head) in
    (default [] root, map (fun i => proof_from (take (length levels - 1) levels) i) (seq 0 n)).

Fixpoint compute_merkle_root (idx : nat) (current : bytes) (proof : list bytes) : bytes :=
  match proof with
  | [] => current
  | sibling :: proof =>
      let data := if (idx mod 2 =? 0)%nat then current ++ sibling else sibling ++ current in
      compute_merkle_root (idx / 2) (hash_bytes data) proof
  end.

(** [ShareSet::verify_share] *)
Definition verify_share (s : ShareSet) (sh : Share) : result unit EscrowError :=
  if Z.of_nat (num_shares s) <=? index sh then Err IndexOutOfBounds
  else
    let computed := compute_merkle_root (Z.to_nat (index sh)) (hash_share_values (values sh)) (merkle_proof sh) in
    if bool_decide (computed = commitment s) then Ok tt else Err MerkleProofInvalid.

Definition get_share (s : ShareSet) (i : nat) : option Share := shares s !! i.

(** * Sharing *)

(** [SecretSharer::new] *)
Definition new_sharer (t n : nat) : result SecretSharer EscrowError :=
  if (t <? 2)%nat then Err InvalidThreshold
  else if (n <? t)%nat then Err InvalidThreshold
  else Ok (mkSecretSharer t n).

(** [bytes.chunks(4)] of 32 bytes. *)
Definition bytes_to_field_elements (b : bytes) : list E :=
  map (fun i => from_poly (from_le (slice (4 * i) (4 * i + 4) b))) (seq 0 8).

(** More than eight elements run past the end of the array. *)
Definition field_elements_to_bytes (elements : list E) : option bytes :=
  if (8 <? length elements)%nat then None
  else Some (foldl (fun b ie => put (ie.1 * 4) (to_le 4 (poly ie.2)) b) (zeros 32) (imap pair elements)).

Definition evaluate_polynomial (coeffs : list E) (x : E) : E :=
  foldl (fun result c => fadd (fmul result x) c) fzero (rev coeffs).

(** One element of the secret: its polynomial is evaluated for every share; [rng] are the
    numbers drawn so far and to come. *)
Definition share_element (sharer : SecretSharer) (st : list (list E) * list Z) (secret_elem : E) : list (list E) * list Z :=
  let '(all, rng) := st in
  let drawn := take (k_threshold sharer - 1) rng in
  let coeffs := secret_elem :: map from_poly drawn in
  (imap (fun i vs => vs ++ [evaluate_polynomial coeffs (from_poly (wrap 32 (Z.of_nat i + 1)))]) all,
   drop (k_threshold sharer - 1) rng).

Definition share_secret_with_rng (sharer : SecretSharer) (secret : bytes) (rng : list Z) : ShareSet :=
  let elems := bytes_to_field_elements secret in
  let '(all, _) := foldl (share_element sharer) (replicate (n_shares sharer) [], rng) elems in
  let '(root, proofs) := build_merkle_tree (map hash_share_values all) in
  mkShareSet (k_threshold sharer) (n_shares sharer)
    (imap (fun i vs => mkShare (wrap 32 (Z.of_nat i)) vs (proofs !!! i)) all) root.

(** * Reconstruction *)

(** The indices of two shares are equal. *)
Fixpoint has_duplicate (l : list Z) : bool :=
  match l with [] => false | x :: l => existsb (Z.eqb x) l || has_duplicate l end.

Definition basis_step (i : nat) (xi : E) (nd : E * E) (jx : nat * E) : E * E :=
  if (jx.1 =? i)%nat then nd else (fmul nd.1 jx.2, fmul nd.2 (fadd xi jx.2)).

Definition lagrange_interpolate_at_zero (x_coords y_coords : list E) : option E :=
  foldl (fun acc ix =>
    match acc with
    | None => None
    | Some result =>
        let '(numerator, denominator) := foldl (basis_step ix.1 ix.2) (fone, fone) (imap pair x_coords) in
        match finv denominator, y_coords !! ix.1 with
        | Some d, Some y => Some (fadd result (fmul y (fmul numerator d)))
        | _, _ => None
        end
    end) (Some fzero) (imap pair x_coords).

(** The element at a place of every share; a share that is shorter panics. *)
Fixpoint elements_at (l : list (list E)) (i : nat) : option (list E) :=
  match l with
  | [] => Some []
  | vs :: l => match vs !! i, elements_at l i with Some v, Some r => Some (v :: r) | _, _ => None end
  end.

Fixpoint reconstruct_elements (x_coords : list E) (all : list (list E)) (places : list nat) : option (list E) :=
  match places with
  | [] => Some []
  | p :: places =>
      match elements_at all p with
      | None => None
      | Some ys =>
          match lagrange_interpolate_at_zero x_coords ys, reconstruct_elements x_coords all places with
          | Some e, Some r => Some (e :: r)
          | _, _ => None
          end
      end
  end.

(** [reconstruct_from_indexed_shares] *)
Definition reconstruct_from_indexed_shares (indexed : list (Z * list E)) (t : nat) : result bytes EscrowError :=
  if (length indexed <? t)%nat then Err (InsufficientShares (length indexed) t)
  else if has_duplicate (map fst indexed) then Err DuplicateShareIndex
  else
    let used := take t indexed in
    let x_coords := map (fun iv => from_poly (wadd 32 iv.1 1)) used in
    match used with
    | [] => Err Panicked
    | first :: _ =>
        or_panic (reconstruct_elements x_coords (map snd used) (seq 0 (length first.2)) ≫= field_elements_to_bytes)
    end.

(** [reconstruct_secret], which is written out once more for shares. *)
Definition reconstruct_secret (l : list Share) (t : nat) : result bytes EscrowError :=
  if (length l <? t)%nat then Err (InsufficientShares (length l) t)
  else if has_duplicate (map index l) then Err DuplicateShareIndex
  else
    let used := take t l in
    let x_coords := map (fun s => from_poly (wadd 32 (index s) 1)) used in
    match used with
    | [] => Err Panicked
    | first :: _ =>
        or_panic (reconstruct_elements x_coords (map values used) (seq 0 (length (values first))) ≫= field_elements_to_bytes)
    end.

(** * The escrow of three *)

Inductive EscrowParty := Buyer | Seller | Arbitrator.

Definition share_index (p : EscrowParty) : nat := match p with Buyer => 0 | Seller => 1 | Arbitrator => 2 end.
Definition from_index (i : nat) : option EscrowParty :=
  match i with 0%nat => Some Buyer | 1%nat => Some Seller | 2%nat => Some Arbitrator | _ => None end.

Inductive EscrowState := Created | Funded | PaymentSent | Disputed | ReleasedToBuyer | ReturnedToSeller | Cancelled.

Record EscrowSetup := mkEscrowSetup {
  escrow_id : bytes;
  share_set : ShareSet;
  state : EscrowState;
  buyer_pubkey : option bytes;
  seller_pubkey : option bytes;
  arbitrator_pubkey : option bytes;
}.

Definition from_shares (id : bytes) (s : ShareSet) : EscrowSetup := mkEscrowSetup id s Created None None None.

(** [EscrowSetup::new] *)
Definition new_escrow (id secret : bytes) (rng : list Z) : result EscrowSetup EscrowError :=
  let? sharer := new_sharer 2 3 in
  Ok (from_shares id (share_secret_with_rng sharer secret rng)).

(** [EscrowSetup::get_share] and [verify_share] *)
Definition party_share (e : EscrowSetup) (p : EscrowParty) : option Share := get_share (share_set e) (share_index p).
Definition setup_verify_share (e : EscrowSetup) (sh : Share) : result unit EscrowError := verify_share (share_set e) sh.

Definition with_state (e : EscrowSetup) (st : EscrowState) : EscrowSetup :=
  mkEscrowSetup (escrow_id e) (share_set e) st (buyer_pubkey e) (seller_pubkey e) (arbitrator_pubkey e).

Definition set_public_keys (e : EscrowSetup) (b s a : bytes) : EscrowSetup :=
  mkEscrowSetup (escrow_id e) (share_set e) (state e) (Some b) (Some s) (Some a).

Definition mark_funded (e : EscrowSetup) : result EscrowSetup EscrowError :=
  match state e with Created => Ok (with_state e Funded) | _ => Err InvalidShare end.
Definition mark_payment_sent (e : EscrowSetup) : result EscrowSetup EscrowError :=
  match state e with Funded => Ok (with_state e PaymentSent) | _ => Err InvalidShare end.
Definition raise_dispute (e : EscrowSetup) : result EscrowSetup EscrowError :=
  match state e with PaymentSent => Ok (with_state e Disputed) | _ => Err InvalidShare end.

Record EscrowParticipant := mkEscrowParticipant {
  party : EscrowParty;
  p_escrow_id : bytes;
  p_share : Share;
  p_commitment : bytes;
}.

Definition participant_verify (p : EscrowParticipant) (s : ShareSet) : result unit EscrowError := verify_share s (p_share p).

Definition combine_shares (a b : Share) : result bytes EscrowError := reconstruct_secret [a; b] 2.

Definition generate_escrow_id (trade_id buyer seller : bytes) (amount : Z) : bytes :=
  hash_bytes (ascii "ligerito-escrow-v1" ++ trade_id ++ buyer ++ seller ++ to_le 8 amount).

(** * Scalars *)

Definition zoda_split_scalar (scalar : bytes) (t n : nat) (rng : list Z) : result (bytes * list Share) EscrowError :=
  let? sharer := new_sharer t n in
  let s := share_secret_with_rng sharer scalar rng in
  Ok (commitment s, shares s).

(** The number of shares is not looked at. *)
Definition zoda_verify_share (sh : Share) (root : bytes) (n : nat) : bool :=
  let leaf_hash := hash_share_values (values sh) in
  bool_decide (compute_merkle_root (Z.to_nat (index sh)) leaf_hash (merkle_proof sh) = root).

Definition zoda_reconstruct_scalar (l : list Share) (t : nat) : result bytes EscrowError := reconstruct_secret l t.

(** A placeholder that accepts. *)
Definition verify_share_ligerito (seed_share root : bytes) (i : Z) (proof : bytes) : result bool EscrowError := Ok true.
End zoda.
