(* ===== verification/FieldPoly.v ===== *)
(** Polynomials over a field of characteristic two, given by their coefficients and evaluated as
    [Zoda] does: roots, sums, products and the functions that are one. *)
From stdpp Require Import base list sets.
From Stdlib Require Import ZArith Lia Ring.
From S2P Require Import Prelude BinField Zoda.

Section polynomials.
Context {E : Type} `{BinaryFieldLaws E}.

#[local] Abbreviation zero := (fzero : E).
#[local] Abbreviation one := (fone : E).
#[local] Infix "+" := fadd.
#[local] Infix "*" := fmul.

Add Ring E_ring : (field_ring : ring_theory zero one fadd fmul fadd id eq).

#[local] Abbreviation ev := evaluate_polynomial.

Lemma add_self (a : E) : a + a = zero.
Proof. pose proof (Ropp_def field_ring a) as Ea. exact Ea. Qed.

Lemma add_zero_eq (a b : E) : a + b = zero → a = b.
Proof. intros Es. transitivity (a + (b + b)); [rewrite add_self; ring|]. transitivity ((a + b) + b); [ring|]. rewrite Es. ring. Qed.

Lemma mul_zero (a b : E) : a * b = zero → a ≠ zero → b = zero.
Proof.
  intros Es Ha. destruct (inv_spec a Ha) as (c & _ & Ec). transitivity ((a * c) * b); [rewrite Ec; ring|].
  transitivity (c * (a * b)); [ring|]. rewrite Es. ring.
Qed.

(** * Evaluation *)

Lemma ev_nil x : ev [] x = zero.
Proof. done. Qed.

Lemma ev_cons c p x : ev (c :: p) x = ev p x * x + c.
Proof.
  unfold evaluate_polynomial. change (c :: p) with ([c] ++ p). by rewrite rev_app_distr, foldl_app.
Qed.

Lemma ev_zero c p : ev (c :: p) zero = c.
Proof. rewrite ev_cons. ring. Qed.

(** Division by a linear factor. *)
Lemma ev_factor p r : ∃ q, length q = pred (length p) ∧ ∀ x, ev p x = (x + r) * ev q x + ev p r.
Proof.
  induction p as [|c [|c' p] IH].
  - exists []. split; [done|]. intros x. rewrite !ev_nil. ring.
  - exists []. split; [done|]. intros x. rewrite !ev_cons, !ev_nil. ring.
  - destruct IH as (q & Hq & Eq). exists (ev (c' :: p) r :: q). split; [by cbn in *; rewrite Hq|].
    intros x. rewrite (ev_cons c), (ev_cons c _ r), (ev_cons _ q), (Eq x). set (s := ev (c' :: p) r).
    transitivity ((x + r) * (ev q x * x) + s * x + (r * s + r * s) + c); [rewrite add_self; ring|ring].
Qed.

(** A polynomial with as many roots as coefficients is zero. *)
Lemma ev_roots rs p : NoDup rs → length p ≤ length rs → (∀ r, r ∈ rs → ev p r = zero) → ∀ x, ev p x = zero.
Proof.
  revert p. induction rs as [|r rs IH]; intros p Hd Hl Hr x; [destruct p; [done|cbn in Hl; lia]|].
  apply NoDup_cons in Hd as [Hn Hd]. destruct (ev_factor p r) as (q & Hq & Eq).
  assert (∀ x, ev p x = (x + r) * ev q x) as Ep by (intros z; rewrite Eq, (Hr r) by set_solver; ring).
  rewrite Ep, (IH q Hd); [ring|cbn in Hl; lia|]. intros z Hz. apply (mul_zero (z + r)).
  - rewrite <-Ep. apply Hr. set_solver.
  - intros Es. apply add_zero_eq in Es as ->. done.
Qed.

(** A function that is a polynomial of [n] coefficients. *)
Definition polynomial (n : nat) (f : E → E) : Prop := ∃ p, length p ≤ n ∧ ∀ x, f x = ev p x.

Lemma polynomial_mono n m f : n ≤ m → polynomial n f → polynomial m f.
Proof. intros Hm (p & Hp & Ep). exists p. split; [lia|done]. Qed.

Lemma polynomial_add n f g : polynomial n f → polynomial n g → polynomial n (fun x => f x + g x).
Proof.
  intros (p & Hp & Ep) (q & Hq & Eq). assert (∃ s, length s ≤ n ∧ ∀ x, ev p x + ev q x = ev s x) as (s & Hs & Es).
  { clear Ep Eq. revert q n Hp Hq. induction p as [|c p IH]; intros q n Hp Hq.
    - exists q. split; [done|]. intros x. rewrite ev_nil. ring.
    - destruct q as [|d q]; [exists (c :: p); split; [done|]; intros x; rewrite ev_nil; ring|].
      cbn in Hp, Hq. destruct (IH q (pred n)) as (s & Hs & Es); [lia..|]. exists (c + d :: s). split; [cbn; lia|].
      intros x. rewrite !ev_cons, <-Es. ring. }
  exists s. split; [done|]. intros x. by rewrite Ep, Eq, Es.
Qed.

Lemma polynomial_scale n f c : polynomial n f → polynomial n (fun x => c * f x).
Proof.
  intros (p & Hp & Ep). exists (map (fmul c) p). split; [by rewrite length_map|]. intros x. rewrite Ep.
  clear Hp Ep. induction p as [|d p IH]; [rewrite !ev_nil; ring|]. cbn [map]. rewrite !ev_cons, <-IH. ring.
Qed.

Lemma polynomial_factor n f r : polynomial n f → polynomial (S n) (fun x => (x + r) * f x).
Proof.
  intros Hf. apply (fun P => polynomial_mono _ _ _ (le_n (S n)) P).
  assert (polynomial (S n) (fun x => x * f x + r * f x)) as (p & Hp & Ep).
  { apply polynomial_add; [|eapply (polynomial_mono n); [lia|by apply polynomial_scale]].
    destruct Hf as (p & Hp & Ep). exists (zero :: p). split; [cbn; lia|]. intros x. rewrite ev_cons, Ep. ring. }
  exists p. split; [done|]. intros x. rewrite <-Ep. ring.
Qed.

Lemma polynomial_const c : polynomial 1 (fun _ => c).
Proof. exists [c]. split; [done|]. intros x. rewrite ev_cons, ev_nil. ring. Qed.

Lemma polynomial_mul n m f g : polynomial (S n) f → polynomial (S m) g → polynomial (S (n + m)) (fun x => f x * g x).
Proof.
  intros (p & Hp & Ep) Hg. assert (∀ p n, length p ≤ S n → polynomial (S (n + m)) (fun x => ev p x * g x)) as Hm.
  { clear n p f Hp Ep. induction p as [|c p IH]; intros n Hp.
    - exists []. split; [cbn; lia|]. intros x. rewrite !ev_nil. ring.
    - assert (polynomial (S (n + m)) (fun x => (x + zero) * (ev p x * g x) + c * g x)) as (q & Hq & Eq).
      { apply polynomial_add; [|eapply polynomial_mono; [|apply (polynomial_scale _ _ c), Hg]; lia].
        destruct n as [|n]; [destruct p; [|cbn in Hp; lia]|].
        - exists []. split; [cbn; lia|]. intros x. rewrite !ev_nil. ring.
        - apply (polynomial_factor _ (fun x => ev p x * g x)), IH. cbn in Hp. lia. }
      exists q. split; [done|]. intros x. rewrite <-Eq, ev_cons. ring. }
  destruct (Hm p n Hp) as (q & Hq & Eq). exists q. split; [done|]. intros x. by rewrite Ep, <-Eq.
Qed.

(** Two polynomials that agree at as many points as they have coefficients are equal. *)
Lemma polynomial_eq xs f g :
  NoDup xs → polynomial (length xs) f → polynomial (length xs) g → (∀ x, x ∈ xs → f x = g x) → ∀ x, f x = g x.
Proof.
  intros Hd Hf Hg Hx x. apply add_zero_eq. destruct (polynomial_add _ f g Hf Hg) as (p & Hp & Ep). rewrite Ep.
  apply (ev_roots xs); [done|done|]. intros r Hr. rewrite <-Ep, Hx by done. apply add_self.
Qed.

(** * Products and sums *)

Definition product (f : E → E) (l : list E) : E := foldr (fun x acc => f x * acc) one l.
Definition esum (l : list E) : E := foldr fadd zero l.

Lemma product_root f l x : x ∈ l → f x = zero → product f l = zero.
Proof.
  intros Hx Ef. induction l as [|y l IH]; [by apply elem_of_nil in Hx|]. change (f y * product f l = zero).
  apply elem_of_cons in Hx as [->|Hx]; [rewrite Ef|rewrite (IH Hx)]; ring.
Qed.

Lemma product_ext f g l : (∀ x, f x = g x) → product f l = product g l.
Proof. intros Hfg. unfold product. induction l as [|x l IH]; [done|]. cbn. by rewrite Hfg, IH. Qed.

Lemma product_nonzero f l : (∀ x, x ∈ l → f x ≠ zero) → product f l ≠ zero.
Proof.
  induction l as [|x l IH]; intros Hf; [apply one_not_zero|]. cbn. intros Es.
  apply mul_zero in Es; [|apply Hf; set_solver]. apply IH in Es; [done|]. set_solver.
Qed.

Lemma product_polynomial l : polynomial (S (length l)) (fun x => product (fun r => x + r) l).
Proof.
  induction l as [|r l IH]; [apply (polynomial_const one)|]. cbn. by apply (polynomial_factor _ (fun x => product (fun r => x + r) l)).
Qed.

Lemma esum_single l m w : l !! m = Some w → (∀ i v, i ≠ m → l !! i = Some v → v = zero) → esum l = w.
Proof.
  revert m. induction l as [|v l IH]; intros m Hm Hz; [done|]. change (v + esum l = w). destruct m as [|m].
  - injection Hm as ->. assert (esum l = zero) as ->; [|ring].
    assert (∀ i v, l !! i = Some v → v = zero) as Hl by (intros i u Hu; by apply (Hz (S i))).
    clear IH Hz. induction l as [|u l IH]; [done|].
    change (u + esum l = zero). rewrite (Hl O u), IH by (done || intros i v'; apply (Hl (S i))). ring.
  - rewrite (Hz O v), (IH m) by (done || intros i u Hi Hu; by apply (Hz (S i)); [lia|]). ring.
Qed.

Lemma esum_polynomial n (l : list (E → E)) : (∀ f, f ∈ l → polynomial n f) → polynomial n (fun x => esum (map (fun f => f x) l)).
Proof.
  induction l as [|f l IH]; intros Hl; cbn.
  - exists []. split; [cbn; lia|done].
  - apply (polynomial_add n f (fun x => esum (map (fun f => f x) l))); [apply Hl; set_solver|apply IH; set_solver].
Qed.
End polynomials.
