(* ===== verification/ZodaSafe.v ===== *)
(** Properties of the secret sharing of [Zoda]: any threshold of the shares gives the secret back,
    every share that was dealt verifies, what verifies was dealt, and fewer than the
    threshold go with every secret. *)
From stdpp Require Import base list sets strings.
From Stdlib Require Import ZArith Lia Ring.
From coqutil Require Import Word.LittleEndianList.
From S2P Require Import Prelude Bytes Merkle GF BinField BinFieldSafe Zoda FieldPoly.

(** * Interpolation *)

Section interpolation.
Context {E : Type} `{BinaryFieldLaws E}.

#[local] Abbreviation zero := (fzero : E).
#[local] Abbreviation one := (fone : E).
#[local] Infix "+" := fadd.
#[local] Infix "*" := fmul.

Add Ring E_ring : (field_ring : ring_theory zero one fadd fmul fadd id eq).

#[local] Abbreviation ev := evaluate_polynomial.

(** ** The code's loops *)

Lemma product_foldl (f : E → E) l a : foldl (fun acc x => acc * f x) a l = a * product f l.
Proof.
  revert a. induction l as [|x l IH]; intros a; cbn; [ring|]. rewrite IH. change (a * f x * product f l = a * (f x * product f l)). ring.
Qed.

(** Numbered from [k] on. *)
Definition numbered (k : nat) (xs : list E) : list (nat * E) := imap (fun j x => ((k + j)%nat, x)) xs.

Lemma numbered_cons k x xs : numbered k (x :: xs) = (k, x) :: numbered (S k) xs.
Proof.
  unfold numbered. cbn. rewrite Nat.add_0_r. f_equal. apply imap_ext. intros j y _. cbn. f_equal. lia.
Qed.

Lemma imap_pair_numbered (xs : list E) : imap pair xs = numbered 0 xs.
Proof. by apply imap_ext. Qed.

(** The numerator and the denominator of the basis polynomial [i], without the point [i]. *)
Lemma basis_after i xi xs k n d :
  i < k → foldl (basis_step i xi) (n, d) (numbered k xs) = (n * product id xs, d * product (fadd xi) xs).
Proof.
  revert k n d. induction xs as [|x xs IH]; intros k n d Hi.
  - cbn. f_equal; ring.
  - rewrite numbered_cons. cbn [foldl]. unfold basis_step at 2. cbn [fst snd].
    rewrite (proj2 (Nat.eqb_neq k i)) by lia. rewrite IH by lia. cbn [product foldr]. unfold id at 2.
    f_equal; change (foldr (fun x acc => ?f x * acc) one xs) with (product f xs); ring.
Qed.

Lemma basis_of i xi xs k n d :
  k ≤ i → foldl (basis_step i xi) (n, d) (numbered k xs) =
    (n * product id (delete (i - k) xs), d * product (fadd xi) (delete (i - k) xs)).
Proof.
  revert k n d. induction xs as [|x xs IH]; intros k n d Hi.
  - replace (delete (i - k) (@nil E)) with (@nil E) by (by destruct (i - k)). cbn. f_equal; ring.
  - rewrite numbered_cons. cbn [foldl]. unfold basis_step at 2. cbn [fst snd]. destruct (Nat.eqb_spec k i) as [->|Hne].
    + rewrite basis_after by lia. by rewrite Nat.sub_diag.
    + rewrite IH by lia. replace (i - k) with (S (i - S k)) by lia.
      set (l := delete (i - S k) xs). change (delete (S (i - S k)) (x :: xs)) with (x :: l).
      change (product id (x :: l)) with (x * product id l).
      change (product (fadd xi) (x :: l)) with ((xi + x) * product (fadd xi) l). f_equal; ring.
Qed.

Lemma numbered_lookup k (xs : list E) j i x : numbered k xs !! j = Some (i, x) → i = (k + j)%nat ∧ xs !! j = Some x.
Proof.
  unfold numbered. rewrite list_lookup_imap. destruct (xs !! j) as [y|]; [|done]. cbn. by intros [= <- <-].
Qed.

(** ** Interpolation at zero *)

Section points.
Context (xs : list E) (p : list E).
Hypothesis distinct : NoDup xs.
Hypothesis enough : length p ≤ length xs.

Definition others (i : nat) : list E := delete i xs.
Definition weight (i : nat) (x : E) : E := default zero (finv (product (fadd x) (others i))).

(** The basis polynomial [i], scaled by the value at its point. *)
Definition term (ix : nat * E) (z : E) : E := ev p ix.2 * weight ix.1 ix.2 * product (fun r => z + r) (others ix.1).

Lemma others_spec i x : xs !! i = Some x → (x ∉ others i) ∧ (∀ y, y ∈ xs → y = x ∨ y ∈ others i).
Proof.
  intros Hi. unfold others. rewrite (delete_Permutation _ _ _ Hi) in distinct. apply NoDup_cons in distinct as [Hn _].
  split; [done|]. intros y Hy. rewrite (delete_Permutation _ _ _ Hi) in Hy. by apply elem_of_cons in Hy.
Qed.

Lemma weight_spec i x :
  xs !! i = Some x → finv (product (fadd x) (others i)) = Some (weight i x) ∧ product (fadd x) (others i) * weight i x = one.
Proof.
  intros Hi. destruct (inv_spec (product (fadd x) (others i))) as (c & Ec & E1).
  - apply product_nonzero. intros y Hy Es%add_zero_eq. subst y. by destruct (others_spec i x Hi).
  - unfold weight. by rewrite Ec.
Qed.

Lemma terms_at x : x ∈ xs → esum (map (fun ix => term ix x) (imap pair xs)) = ev p x.
Proof.
  intros [m Hm]%list_elem_of_lookup. rewrite imap_pair_numbered. apply (esum_single _ m).
  - rewrite list_lookup_fmap. unfold numbered. rewrite list_lookup_imap, Hm. cbn. f_equal. unfold term. cbn [fst snd].
    change (ev p x * weight m x * product (fadd x) (others m) = ev p x).
    destruct (weight_spec m x Hm) as [_ Ew]. transitivity (ev p x * (product (fadd x) (others m) * weight m x)); [ring|].
    rewrite Ew. ring.
  - intros i v Hne Hv. rewrite list_lookup_fmap in Hv. destruct (numbered 0 xs !! i) as [[i' y]|] eqn:Ei; [|done].
    apply numbered_lookup in Ei as [-> Hy]. injection Hv as <-. unfold term. cbn [fst snd plus].
    rewrite (product_root _ _ x); [ring| |apply add_self]. destruct (others_spec i y Hy) as [_ Ho].
    destruct (Ho x) as [->|]; [by eapply list_elem_of_lookup_2| |done]. destruct Hne. by eapply (NoDup_lookup xs).
Qed.

Lemma terms_polynomial : polynomial (length xs) (fun z => esum (map (fun ix => term ix z) (imap pair xs))).
Proof.
  assert (∀ l, (∀ ix, ix ∈ l → xs !! ix.1 = Some ix.2) → polynomial (length xs) (fun z => esum (map (fun ix => term ix z) l))) as Hp.
  { induction l as [|ix l IH]; intros Hl; [exists []; split; [cbn; lia|done]|].
    apply (polynomial_add _ (term ix) (fun z => esum (map (fun ix => term ix z) l))); [|apply IH; set_solver].
    apply (polynomial_scale _ (fun z => product (fun r => z + r) (others ix.1))).
    pose proof (product_polynomial (others ix.1)) as Ho. unfold others in Ho at 1.
    assert (xs !! ix.1 = Some ix.2) as Hi by (apply Hl; set_solver).
    rewrite length_delete in Ho by (by eexists). apply lookup_lt_Some in Hi.
    by replace (length xs) with (S (length xs - 1)) by lia. }
  apply Hp. intros [i x] [j Hj]%list_elem_of_lookup. rewrite imap_pair_numbered in Hj. by apply numbered_lookup in Hj as [-> ?].
Qed.

Lemma terms_zero : esum (map (fun ix => term ix zero) (imap pair xs)) = ev p zero.
Proof.
  apply add_zero_eq.
  assert (polynomial (length xs) (fun z => esum (map (fun ix => term ix z) (imap pair xs)) + ev p z)) as (q & Hq & Eq).
  { apply polynomial_add; [apply terms_polynomial|by exists p]. }
  rewrite Eq. apply (ev_roots xs); [done|done|]. intros r Hr. rewrite <-Eq, terms_at by done. apply add_self.
Qed.

Lemma interpolate_zero : lagrange_interpolate_at_zero xs (map (ev p) xs) = Some (ev p zero).
Proof.
  unfold lagrange_interpolate_at_zero. set (step := fun _ _ => _).
  assert (∀ l r, (∀ ix, ix ∈ l → xs !! ix.1 = Some ix.2) →
    foldl step (Some r) l = Some (r + esum (map (fun ix => term ix zero) l))) as Hs.
  { induction l as [|[i x] l IH]; intros r Hl; [cbn; f_equal; ring|].
    assert (xs !! i = Some x) as Hi by (apply (Hl (i, x)); set_solver). destruct (weight_spec i x Hi) as [Ew _].
    cbn [foldl]. unfold step at 2. cbn [fst snd]. rewrite imap_pair_numbered, basis_of, Nat.sub_0_r by lia.
    fold (others i). replace (one * product (fadd x) (others i)) with (product (fadd x) (others i)) by ring.
    rewrite Ew, list_lookup_fmap, Hi. cbn [fmap option_fmap option_map]. rewrite IH by set_solver. f_equal.
    change (esum (map (fun ix => term ix zero) ((i, x) :: l))) with
      (term (i, x) zero + esum (map (fun ix => term ix zero) l)).
    unfold term at 2. cbn [fst snd].
    assert (product (fun r => zero + r) (others i) = product id (others i)) as ->.
    { apply product_ext. intros y. unfold id. ring. }
    ring. }
  rewrite Hs; [f_equal|].
  - rewrite terms_zero. ring.
  - intros [i x] [j Hj]%list_elem_of_lookup. rewrite imap_pair_numbered in Hj. by apply numbered_lookup in Hj as [-> ?].
Qed.
End points.
End interpolation.

(** * Elements that hold a [u32] *)

Class U32Elements (E : Type) `{BinaryFieldElement E} := {
  poly_from v : fits 32 v → poly (from_poly v : E) = v;
  from_of_poly (e : E) : from_poly (poly e) = e;
  poly_fits (e : E) : fits 32 (poly e);
  poly_zero : poly (fzero : E) = 0%Z;
}.

#[export] Instance BinaryElem32_u32 : U32Elements BinaryElem32.
Proof.
  split.
  - intros v Hv. by apply (value_elem_of 32).
  - intros e. apply elem_eq. apply (value_elem_of 32), elem_fits.
  - intros e. apply (elem_fits e).
  - by apply (value_elem_of 32).
Qed.

Section bytes.
Context {E : Type} `{U32Elements E}.

Lemma from_poly_inj a b : fits 32 a → fits 32 b → (from_poly a : E) = from_poly b → a = b.
Proof. intros Ha Hb Eab%(f_equal poly). rewrite !poly_from in Eab by done. done. Qed.

Lemma to_le_from_le (l : bytes) : to_le (length l) (from_le l) = l.
Proof. apply split_le_combine. Qed.

Lemma bytes_elements_bytes secret :
  length secret = 32 → field_elements_to_bytes (bytes_to_field_elements secret : list E) = Some secret.
Proof.
  intros Hl. unfold bytes_to_field_elements.
  assert (∀ i, i < 8 → to_le 4 (poly (from_poly (from_le (slice (4 * i) (4 * i + 4) secret)) : E)) =
    slice (4 * i) (4 * i + 4) secret) as Ei.
  { intros i Hi. assert (length (slice (4 * i) (4 * i + 4) secret) = 4) as L by (rewrite length_slice; lia).
    rewrite poly_from; [|pose proof (from_le_fits (slice (4 * i) (4 * i + 4) secret)) as F; by rewrite L in F].
    rewrite <-L at 1. apply to_le_from_le. }
  unfold field_elements_to_bytes. cbn [map seq length imap foldl Nat.ltb Nat.leb]. unfold compose. cbn [fst snd].
  rewrite !Ei by lia. f_equal. clear Ei.
  do 32 (destruct secret as [|? secret]; [done|]). by destruct secret.
Qed.
End bytes.

(** * What is dealt *)

Section dealt.
Context {E : Type} `{BinaryFieldLaws E} `{!U32Elements E} `{Sha256}.

(** The point of share [i], and the shares of some polynomials. *)
Definition point (i : nat) : E := from_poly (wrap 32 (Z.of_nat i + 1)).
Definition dealt (n : nat) (polys : list (list E)) : list (list E) :=
  map (fun i => map (fun p => evaluate_polynomial p (point i)) polys) (seq 0 n).

Lemma imap_map_seq {A B} (f : nat → A → B) (g : nat → A) n :
  imap f (map g (seq 0 n)) = map (fun i => f i (g i)) (seq 0 n).
Proof.
  apply list_eq. intros i. rewrite list_lookup_imap, !list_lookup_fmap.
  destruct (decide (i < n)); [by rewrite lookup_seq_lt by lia|by rewrite lookup_seq_ge by lia].
Qed.

Lemma dealt_nil n : dealt n [] = replicate n [].
Proof.
  unfold dealt. cbn [map]. generalize 0 as k. induction n as [|n IH]; intros k; cbn; [done|]. by rewrite IH.
Qed.

(** The polynomials that hide the elements of a secret. *)
Definition hides (t : nat) (e : E) (p : list E) : Prop := length p ≤ t ∧ ∃ tl, p = e :: tl.

Lemma share_elements sharer n elems rng polys :
  1 ≤ k_threshold sharer →
  ∃ polys' rng', foldl (share_element sharer) (dealt n polys, rng) elems = (dealt n (polys ++ polys'), rng') ∧
    Forall2 (hides (k_threshold sharer)) elems polys'.
Proof.
  intros Ht. revert rng polys. induction elems as [|e elems IH]; intros rng polys.
  - exists [], rng. by rewrite app_nil_r.
  - cbn [foldl]. unfold share_element at 2.
    set (p := e :: map from_poly (take (k_threshold sharer - 1) rng)).
    assert (imap (fun i vs => vs ++ [evaluate_polynomial p (from_poly (wrap 32 (Z.of_nat i + 1)))]) (dealt n polys) =
      dealt n (polys ++ [p])) as ->.
    { unfold dealt. rewrite imap_map_seq. apply map_ext. intros i. by rewrite map_app. }
    destruct (IH (drop (k_threshold sharer - 1) rng) (polys ++ [p])) as (polys' & rng' & -> & Hf).
    exists (p :: polys'), rng'. rewrite <-app_assoc. split; [done|]. constructor; [|done]. split; [|by eexists].
    unfold p. cbn. rewrite length_map, length_take. lia.
Qed.

Lemma shares_dealt t n sharer secret rng :
  new_sharer t n = Ok sharer →
  ∃ polys, let s := share_secret_with_rng sharer secret rng in
    let tree := build_merkle_tree (map hash_share_values (dealt n polys)) in
    s = mkShareSet t n (imap (fun i vs => mkShare (wrap 32 (Z.of_nat i)) vs (tree.2 !!! i)) (dealt n polys)) tree.1 ∧
    Forall2 (hides t) (bytes_to_field_elements secret) polys ∧ 2 ≤ t ≤ n.
Proof.
  unfold new_sharer. destruct (Nat.ltb_spec t 2); [done|]. destruct (Nat.ltb_spec n t); [done|]. intros [= <-].
  destruct (share_elements (mkSecretSharer t n) n (bytes_to_field_elements secret) rng []) as (polys & rng' & Es & Hf); [cbn; lia|].
  exists polys. cbv zeta. split; [|split; [done|lia]]. unfold share_secret_with_rng. cbn [n_shares k_threshold] in *.
  rewrite dealt_nil in Es. rewrite Es. cbn [app]. by destruct (build_merkle_tree _).
Qed.

(** A share of the set. *)
Lemma dealt_share n polys (tree : bytes * list (list bytes)) sh :
  (Z.of_nat n < 2 ^ 32)%Z →
  sh ∈ imap (fun i vs => mkShare (wrap 32 (Z.of_nat i)) vs (tree.2 !!! i)) (dealt n polys) ↔
  ∃ i, i < n ∧ sh = mkShare (Z.of_nat i) (map (fun p => evaluate_polynomial p (point i)) polys) (tree.2 !!! i).
Proof.
  intros Hn. unfold dealt. rewrite imap_map_seq. rewrite list_elem_of_fmap. split.
  - intros (i & -> & Hi%elem_of_seq). exists i. split; [lia|]. by rewrite wrap_small by (unfold fits; lia).
  - intros (i & Hi & ->). exists i. rewrite wrap_small by (unfold fits; lia). split; [done|]. apply elem_of_seq. lia.
Qed.

(** ** Reconstruction *)

Lemma has_duplicate_NoDup l : has_duplicate l = false ↔ NoDup l.
Proof.
  induction l as [|x l IH]; [split; [constructor|done]|]. cbn. rewrite orb_false_iff, IH, NoDup_cons.
  assert (existsb (Z.eqb x) l = false ↔ x ∉ l) as ->; [|done].
  rewrite <-not_true_iff_false, existsb_exists. split; intros Hx Hin; apply Hx.
  - exists x. rewrite Z.eqb_refl. by rewrite list_elem_of_In in Hin.
  - destruct Hin as (y & Hy & ->%Z.eqb_eq). by rewrite list_elem_of_In.
Qed.

(** A share that lies on the polynomials. *)
Definition lies_on (polys : list (list E)) (x : Z) (vs : list E) : Prop :=
  vs = map (fun p => evaluate_polynomial p (from_poly (wadd 32 x 1))) polys.

Lemma elements_of (polys : list (list E)) (used : list (Z * list E)) k :
  (∀ iv, iv ∈ used → lies_on polys iv.1 iv.2) → (k < length polys) →
  elements_at (map snd used) k =
  Some (map (evaluate_polynomial (polys !!! k)) (map (fun iv => from_poly (wadd 32 iv.1 1)) used)).
Proof.
  intros Hu Hk. induction used as [|[x vs] used IH]; [done|]. cbn [map elements_at snd].
  rewrite IH by set_solver. assert (lies_on polys x vs) as -> by (apply (Hu (x, vs)); set_solver).
  by rewrite list_lookup_fmap, (list_lookup_lookup_total_lt polys) by done.
Qed.

Lemma elements_reconstructed t (polys : list (list E)) (elems : list E) (used : list (Z * list E)) :
  (∀ iv, iv ∈ used → lies_on polys iv.1 iv.2 ∧ (0 ≤ iv.1 < 2 ^ 32 - 1)%Z) → NoDup (map fst used) →
  Forall2 (hides t) elems polys → t ≤ length used →
  reconstruct_elements (map (fun iv => from_poly (wadd 32 iv.1 1)) used) (map snd used) (seq 0 (length polys)) = Some elems.
Proof.
  intros Hu Hd Hf Ht. set (xs := map (fun iv => from_poly (wadd 32 iv.1 1) : E) used).
  assert (NoDup xs) as Hxs.
  { unfold xs. clear Ht. induction used as [|iv used IH]; [constructor|]. cbn [map] in *.
    apply NoDup_cons in Hd as [Hn Hd]. apply NoDup_cons. split; [|apply IH; set_solver].
    intros (iv' & Ei & Hin)%list_elem_of_fmap. apply Hn. apply list_elem_of_fmap. exists iv'. split; [|done].
    destruct (Hu iv) as [_ R]; [set_solver|]. destruct (Hu iv') as [_ R']; [set_solver|].
    rewrite !wadd_small in Ei by lia. apply from_poly_inj in Ei; [|unfold fits; lia..]. lia. }
  assert (∀ k e, elems !! k = Some e → elements_at (map snd used) k = Some (map (evaluate_polynomial (polys !!! k)) xs) ∧
    lagrange_interpolate_at_zero xs (map (evaluate_polynomial (polys !!! k)) xs) = Some e) as Hk.
  { intros k e He. destruct (Forall2_lookup_l _ _ _ _ _ Hf He) as (p & Hp & Hl & tl & ->).
    rewrite (list_lookup_total_correct _ _ _ Hp). split.
    - rewrite <-(list_lookup_total_correct _ _ _ Hp). apply elements_of; [naive_solver|by eapply lookup_lt_Some].
    - rewrite interpolate_zero; [by rewrite ev_zero|done|]. unfold xs. rewrite length_map. lia. }
  rewrite <-(Forall2_length _ _ _ Hf). clear Hf.
  assert (∀ j l, (∀ k e, l !! k = Some e → elems !! (j + k)%nat = Some e) →
    reconstruct_elements xs (map snd used) (seq j (length l)) = Some l) as Hj; [|by apply (Hj 0)].
  intros j l. revert j. induction l as [|e l IH]; intros j Hl; [done|]. cbn [length seq reconstruct_elements].
  destruct (Hk j e) as [-> ->]; [rewrite <-(Nat.add_0_r j); by apply Hl|].
  rewrite IH; [done|]. intros k e' He'. replace (S j + k) with (j + S k) by lia. by apply Hl.
Qed.

(** C16.  Any threshold of the shares of a secret gives it back: whatever the random numbers, and
    in whatever order distinct shares of the set are put together, fewer than the threshold
    are refused and the others interpolate to the secret, in any field of characteristic two
    whose elements hold 32 bits. *)
Theorem shares_reconstruct t n sharer secret rng l :
  new_sharer t n = Ok sharer → (Z.of_nat n < 2 ^ 32 - 1)%Z → length secret = 32 →
  (∀ sh, sh ∈ l → sh ∈ shares (share_secret_with_rng sharer secret rng)) → NoDup (map index l) →
  reconstruct_secret l t = if (t <=? length l) then Ok secret else Err (InsufficientShares (length l) t).
Proof.
  intros Hs Hn Hsec Hl Hd. destruct (shares_dealt t n sharer secret rng Hs) as (polys & Es & Hf & Ht).
  rewrite Es in Hl. cbn [shares] in Hl.
  unfold reconstruct_secret. destruct (Nat.ltb_spec (length l) t) as [|Hge]; [by rewrite (proj2 (Nat.leb_gt _ _))|].
  rewrite (proj2 (Nat.leb_le _ _) Hge), (proj2 (has_duplicate_NoDup _) Hd).
  assert (∀ sh, sh ∈ l → lies_on polys (index sh) (values sh) ∧ (0 ≤ index sh < 2 ^ 32 - 1)%Z) as Hu.
  { intros sh Hsh%Hl. apply dealt_share in Hsh as (i & Hi & ->); [|lia]. cbn [index values]. split; [|lia].
    unfold lies_on, point. apply map_ext. by intros p. }
  set (used := take t l). assert (length used = t) as Lu by (unfold used; rewrite length_take; lia).
  assert (∀ sh, sh ∈ used → sh ∈ l) as Hul by (intros sh; apply subseteq_take).
  assert (NoDup (map index used)) as Hdu by (unfold used; rewrite <-firstn_map; by apply (sublist_NoDup _ (map index l)), sublist_take).
  set (ivs := map (fun s => (index s, values s)) used).
  assert (map (fun s => from_poly (wadd 32 (index s) 1) : E) used = map (fun iv => from_poly (wadd 32 iv.1 1)) ivs) as ->.
  { unfold ivs. by rewrite map_map. }
  assert (map values used = map snd ivs) as -> by (unfold ivs; by rewrite map_map).
  assert (reconstruct_elements (map (fun iv => from_poly (wadd 32 iv.1 1)) ivs) (map snd ivs) (seq 0 (length polys))
    = Some (bytes_to_field_elements secret : list E)) as Hr.
  { apply (elements_reconstructed t); [| |done|unfold ivs; rewrite length_map; lia].
    - intros iv (sh & -> & Hsh)%list_elem_of_fmap. cbn [fst snd]. apply Hu, Hul, Hsh.
    - unfold ivs. by rewrite map_map. }
  clearbody ivs. destruct used as [|first used']; [cbn in Lu; lia|].
  destruct (Hu first) as [-> _]; [apply Hul; set_solver|]. rewrite length_map, Hr.
  change (or_panic (field_elements_to_bytes (bytes_to_field_elements secret : list E)) = Ok secret).
  by rewrite bytes_elements_bytes.
Qed.
End dealt.

(** * The commitment *)

Section commitment.
Context {E : Type} `{BinaryFieldElement E} `{!U32Elements E} `{Sha256}.

#[local] Abbreviation hashes := (Forall (fun l : bytes => length l = 32)).

Lemma hash_32 x : length (hash_bytes x) = 32.
Proof. apply length_to_be. Qed.

(** What is hashed for a leaf. *)
Definition payload (vs : list E) : bytes := mjoin (map (fun v => to_le 4 (poly v)) vs).

Lemma length_payload vs : length (payload vs) = 4 * length vs.
Proof.
  induction vs as [|v vs IH]; [done|]. change (payload (v :: vs)) with (to_le 4 (poly v) ++ payload vs).
  rewrite length_app, length_to_le, IH. cbn [length]. lia.
Qed.

Lemma payload_inj vs vs' : payload vs = payload vs' → vs = vs'.
Proof.
  intros Ep. assert (length vs = length vs') as Hl.
  { apply (f_equal length) in Ep. rewrite !length_payload in Ep. lia. }
  revert vs' Ep Hl. induction vs as [|v vs IH]; intros [|v' vs'] Ep Hl; try done.
  change (to_le 4 (poly v) ++ payload vs = to_le 4 (poly v') ++ payload vs') in Ep.
  apply app_inj_1 in Ep as [Ev Ep]; [|by rewrite !length_to_le]. f_equal; [|apply IH; [done|by injection Hl]].
  apply (f_equal from_le) in Ev. rewrite !from_le_to_le, !wrap_small in Ev by apply poly_fits.
  by rewrite <-(from_of_poly v), <-(from_of_poly v'), Ev.
Qed.

(** ** The code's tree is one of [Merkle] *)

Lemma even_mod i : (i mod 2 =? 0) = Nat.even i.
Proof.
  destruct (Nat.Even_or_Odd i) as [[k ->]|[k ->]].
  - by rewrite Nat.even_mul, Nat.mul_comm, Nat.Div0.mod_mul.
  - by rewrite Nat.even_add, Nat.even_mul, Nat.mul_comm, Nat.add_comm, Nat.Div0.mod_add.
Qed.

Lemma next_level_spec l : next_level l = level hash_bytes l.
Proof. revert l. fix IH 1. intros [|a [|b l]]; [done..|]. cbn. by rewrite IH. Qed.

Lemma compute_climb i h proof : compute_merkle_root i h proof = climb hash_bytes h i proof.
Proof.
  revert i h. induction proof as [|sib proof IH]; intros i h; [done|]. cbn [compute_merkle_root climb].
  rewrite even_mod. apply IH.
Qed.

Lemma build_levels_spec d fuel l :
  length l = 2 ^ d → d ≤ fuel → build_levels fuel l = map (fun k => up hash_bytes k l) (seq 0 (S d)).
Proof.
  revert fuel l. induction d as [|d IH]; intros fuel l Hl Hf.
  - cbn in Hl. destruct fuel; cbn; [done|]. by rewrite Hl.
  - destruct fuel as [|fuel]; [lia|]. cbn [build_levels]. rewrite Hl.
    rewrite pow_S in *. destruct (Nat.ltb_spec 1 (2 * 2 ^ d)) as [|Hle]; [|pose proof (Nat.pow_nonzero 2 d); lia].
    rewrite IH by (rewrite ?next_level_spec; by apply length_level || lia).
    change (seq 0 (S (S d))) with (0 :: seq 1 (S d)). cbn [map up]. f_equal. rewrite <-seq_shift, map_map.
    apply map_ext. intros k. cbn [up]. by rewrite next_level_spec.
Qed.

Lemma next_power_from_spec fuel k n :
  n ≤ k + fuel → ∃ d, next_power_of_two_from fuel (2 ^ k) n = 2 ^ d ∧ n ≤ 2 ^ d ∧ d ≤ k + fuel.
Proof.
  revert k. induction fuel as [|fuel IH]; intros k Hn; cbn [next_power_of_two_from].
  - exists k. pose proof (Nat.pow_gt_lin_r 2 k). split; [done|]. lia.
  - destruct (Nat.leb_spec n (2 ^ k)) as [Hle|_]; [exists k; split; [done|]; lia|].
    rewrite <-pow_S. destruct (IH (S k)) as (d & Ed & Hd); [lia|]. exists d. split; [done|]. lia.
Qed.

Lemma next_power_spec n : ∃ d, next_power_of_two n = 2 ^ d ∧ n ≤ 2 ^ d ∧ d ≤ n.
Proof. by apply (next_power_from_spec n 0 n). Qed.

Lemma sibling_index i : (if i mod 2 =? 0 then i + 1 else i - 1) = sibling i.
Proof. unfold sibling. rewrite even_mod. destruct (Nat.even i); lia. Qed.

Lemma proof_from_path d l i :
  length l = 2 ^ d → i < 2 ^ d → proof_from (map (fun k => up hash_bytes k l) (seq 0 d)) i = path hash_bytes d l i.
Proof.
  revert l i. induction d as [|d IH]; intros l i Hl Hi; [done|]. rewrite pow_S in *.
  cbn [seq map proof_from path up]. rewrite sibling_index, Hl. rewrite (proj2 (Nat.ltb_lt _ _)) by (by apply sibling_lt).
  f_equal. rewrite <-seq_shift, map_map. cbn [up]. apply IH; [by apply length_level|].
  apply Nat.Div0.div_lt_upper_bound. lia.
Qed.

Definition padded (d : nat) (l : list bytes) : list bytes := l ++ replicate (2 ^ d - length l) (zeros 32).

Lemma padded_hashes d l : hashes l → hashes (padded d l).
Proof. intros Hl. apply Forall_app. split; [done|]. by apply Forall_replicate. Qed.

Lemma tree_spec l :
  2 ≤ length l → hashes l → ∃ d, next_power_of_two (length l) = 2 ^ d ∧ length l ≤ 2 ^ d ∧
    build_merkle_tree l = (root hash_bytes d (padded d l), map (path hash_bytes d (padded d l)) (seq 0 (length l))).
Proof.
  intros Hl Hh. destruct (next_power_spec (length l)) as (d & Ed & Hd & Hn). exists d. split; [done|]. split; [done|].
  unfold build_merkle_tree. rewrite (proj2 (Nat.eqb_neq _ 0)), (proj2 (Nat.eqb_neq _ 1)) by lia. rewrite Ed.
  fold (padded d l). assert (length (padded d l) = 2 ^ d) as Hp.
  { unfold padded. rewrite length_app, length_replicate. lia. }
  rewrite (build_levels_spec d) by done. rewrite length_map, length_seq. f_equal.
  - rewrite seq_S, map_app. cbn [map]. rewrite last_snoc. change (0 + d) with d. pose proof (root_up hash_bytes d 0 (padded d l)) as Er.
    rewrite Nat.add_0_r in Er. rewrite Er.
    destruct (up_ok hash_bytes hash_32 d 0 (padded d l)) as [Hu _]; [by rewrite Nat.add_0_r|by apply padded_hashes|].
    by destruct (up hash_bytes d (padded d l)) as [|x [|? ?]].
  - apply map_ext_in. intros i Hi%in_seq. replace (S d - 1) with d by lia. rewrite seq_S, map_app.
    rewrite take_app_length' by (by rewrite length_map, length_seq). apply proof_from_path; [done|]. lia.
Qed.
End commitment.

(** * What verifies *)

Section verified.
Context {E : Type} `{BinaryFieldLaws E} `{!U32Elements E} `{Sha256}.

#[local] Abbreviation hashes := (Forall (fun l : bytes => length l = 32)).

(** What the leaves of a share set are the hashes of; the rest of them is padding. *)
Definition committed_data (s : ShareSet (E := E)) : list (option bytes) :=
  map (fun sh => Some (payload (values sh))) (shares s) ++
  replicate (next_power_of_two (num_shares s) - num_shares s) None.

(** Nothing hashed to check a share collides with what was hashed for the commitment. *)
Definition unforged (s : ShareSet) (sh : Share) : Prop :=
  collision_free hash_bytes (Nat.log2 (next_power_of_two (num_shares s))) (committed_data s) (zeros 32)
    (payload (values sh)) (Z.to_nat (index sh)) (merkle_proof sh).

Lemma dealt_lookup n (polys : list (list E)) i :
  i < n → dealt n polys !! i = Some (map (fun p => evaluate_polynomial p (point i)) polys).
Proof. intros Hi. unfold dealt. by rewrite list_lookup_fmap, lookup_seq_lt. Qed.

Lemma length_dealt n (polys : list (list E)) : length (dealt n polys) = n.
Proof. unfold dealt. by rewrite length_map, length_seq. Qed.

(** The set that is dealt, with its tree spelled out. *)
Lemma set_spec t n sharer secret rng :
  new_sharer t n = Ok sharer → (Z.of_nat n < 2 ^ 32)%Z →
  ∃ d (polys : list (list E)), let s := share_secret_with_rng sharer secret rng in
    let data := map (fun vs => Some (payload vs)) (dealt n polys) ++ replicate (2 ^ d - n) None in
    let ls := leaves hash_bytes data (zeros 32) in
    num_shares s = n ∧ committed_data s = data ∧ Nat.log2 (next_power_of_two n) = d ∧ n ≤ 2 ^ d ∧
    length polys = 8 ∧ commitment s = root hash_bytes d ls ∧
    (∀ sh, sh ∈ shares s ↔ ∃ i, i < n ∧ index sh = Z.of_nat i ∧
      data !! i = Some (Some (payload (values sh))) ∧ merkle_proof sh = path hash_bytes d ls i).
Proof.
  intros Hs Hn. destruct (shares_dealt (E := E) t n sharer secret rng Hs) as (polys & Es & Hf & Ht).
  set (lv := map hash_share_values (dealt n polys)) in *.
  assert (length lv = n) as Hlv by (unfold lv; by rewrite length_map, length_dealt).
  assert (hashes lv) as Hhl by (apply Forall_fmap, Forall_true; intros; apply hash_32).
  destruct (tree_spec lv) as (d & Ed & Hd & Etree); [lia|done|]. rewrite Hlv in *.
  exists d, polys. cbv zeta in *. rewrite Es, Etree. cbn [num_shares commitment shares].
  set (data := map _ (dealt n polys) ++ _).
  assert (padded d lv = leaves hash_bytes data (zeros 32)) as Epad.
  { unfold padded, data, leaves. rewrite fmap_app, Hlv. f_equal; [by rewrite <-list_fmap_compose|].
    by rewrite fmap_replicate. }
  rewrite Epad. split; [done|]. split.
  { unfold committed_data, data. cbn [shares num_shares]. rewrite Ed. f_equal.
    apply list_eq. intros i. rewrite !list_lookup_fmap, list_lookup_imap. by destruct (dealt n polys !! i). }
  split; [by rewrite Ed, Nat.log2_pow2 by lia|]. split; [done|]. split.
  { by rewrite <-(Forall2_length _ _ _ Hf). }
  split; [done|]. intros sh. rewrite dealt_share by done.
  assert (∀ i, i < n → data !! i = Some (Some (payload (map (fun p => evaluate_polynomial p (point i)) polys)))) as Hdata.
  { intros i Hi. unfold data. rewrite lookup_app_l by (by rewrite length_map, length_dealt).
    by rewrite list_lookup_fmap, dealt_lookup. }
  assert (∀ i, i < n → map (path hash_bytes d (leaves hash_bytes data (zeros 32))) (seq 0 n) !!! i =
    path hash_bytes d (leaves hash_bytes data (zeros 32)) i) as Hpath.
  { intros i Hi. apply list_lookup_total_correct. by rewrite list_lookup_fmap, lookup_seq_lt. }
  split.
  - intros (i & Hi & ->). exists i. cbn [index values merkle_proof fst snd]. split_and!; [done|done|by apply Hdata|by apply Hpath].
  - intros (i & Hi & Ex & Ev & Ep). exists i. split; [done|]. rewrite Hdata in Ev by done. injection Ev as Ev.
    apply payload_inj in Ev. cbn [snd]. rewrite Hpath, <-Ep, <-Ex by done. rewrite Ev. by destruct sh.
Qed.

(** C17.  What verifies was dealt: every share of a set passes the check against the set's
    commitment, and a share that passes it, with hashes for its proof, not as many values as
    make up an inner node and no collision of SHA-256 in its favour, is a share of the set:
    its values, its index and its proof are those that were dealt. *)
Theorem verified_shares_were_dealt t n sharer secret rng sh :
  new_sharer t n = Ok sharer → (Z.of_nat n < 2 ^ 32)%Z →
  let s : ShareSet := share_secret_with_rng sharer secret rng in
  (sh ∈ shares s → verify_share s sh = Ok tt) ∧
  ((0 ≤ index sh)%Z → length (values sh) ≠ 16 → hashes (merkle_proof sh) → unforged s sh →
   verify_share s sh = Ok tt → sh ∈ shares s).
Proof.
  intros Hs Hn s. destruct (set_spec t n sharer secret rng Hs Hn) as (d & polys & S). cbv zeta in S. fold s in S.
  destruct S as (En & Edata & Ed & Hd & Hp & Ec & Hsh).
  set (data := map _ (dealt n polys) ++ _) in *.
  assert (length data = 2 ^ d) as Hcount.
  { unfold data. rewrite length_app, length_map, length_dealt, length_replicate. lia. }
  assert (∀ x, Some x ∈ data → length x ≠ 64) as Hshort.
  { intros x [Hx|Hx]%elem_of_app; [|by apply elem_of_replicate in Hx as [? _]].
    apply list_elem_of_fmap in Hx as (vs & Ex & Hvs). injection Ex as ->. unfold dealt in Hvs.
    apply list_elem_of_fmap in Hvs as (i & -> & _). rewrite length_payload, length_map, Hp. done. }
  unfold verify_share. rewrite En, compute_climb, Ec. change (hash_share_values (values sh)) with (hash_bytes (payload (values sh))).
  split.
  - intros (i & Hi & -> & Hdi & ->)%Hsh. rewrite (proj2 (Z.leb_gt _ _)) by lia. rewrite Nat2Z.id.
    rewrite bool_decide_true; [done|].
    rewrite <-(climb_path hash_bytes hash_32 d _ i); [|by apply leaves_length|by apply leaves_hashes|lia].
    f_equal. symmetry. apply list_lookup_total_correct. unfold leaves. by rewrite list_lookup_fmap, Hdi.
  - intros Hpos Hv Hh Hu. destruct (Z.leb_spec (Z.of_nat n) (index sh)); [done|].
    destruct (bool_decide_reflect (climb hash_bytes (hash_bytes (payload (values sh))) (Z.to_nat (index sh)) (merkle_proof sh) =
      root hash_bytes d (leaves hash_bytes data (zeros 32)))) as [Eroot|]; [|done]. intros _.
    unfold unforged in Hu. rewrite Edata, En, Ed in Hu.
    apply (opens_exactly hash_bytes hash_32 d data (zeros 32)) in Eroot as [Edi Ep]; auto; [|rewrite length_payload; lia].
    rewrite Nat.mod_small in Edi, Ep by lia. apply Hsh. exists (Z.to_nat (index sh)). split_and!; [lia|lia|done|done].
Qed.
End verified.

(** * In the field of [ligerito-escrow] *)

#[local] Existing Instance spelled.

Definition demo_secret : bytes := to_be 32 123456789123456789123456789.
Definition demo_rng : list Z := [5; 4294967295; 7; 3000000000; 11; 13; 17; 19]%Z.
Definition demo_set : ShareSet (E := BinaryElem32) := share_secret_with_rng (mkSecretSharer 2 3) demo_secret demo_rng.
Definition demo_shares (l : list nat) : list Share := omap (get_share demo_set) l.

Lemma demo_shares_dealt l sh : sh ∈ demo_shares l → sh ∈ shares demo_set.
Proof. intros (i & _ & Hi)%list_elem_of_omap. by eapply list_elem_of_lookup_2. Defined.

Lemma shares_reconstruct_witness :
  map index (demo_shares [2; 0]) = [2; 0]%Z ∧ reconstruct_secret (demo_shares [2; 0]) 2 = Ok demo_secret.
Proof.
  assert (map index (demo_shares [2; 0]) = [2; 0]%Z) as Ei by (vm_compute; reflexivity).
  assert ((2 <=? length (demo_shares [2; 0])) = true) as El by (vm_compute; reflexivity).
  split; [exact Ei|].
  assert (NoDup (map index (demo_shares [2; 0]))) as Hd by (rewrite Ei; apply NoDup_cons; split; [set_solver|apply NoDup_singleton]).
  pose proof (shares_reconstruct 2 3 (mkSecretSharer 2 3) demo_secret demo_rng (demo_shares [2; 0])
    eq_refl ltac:(lia) eq_refl (demo_shares_dealt [2; 0]) Hd) as R.
  rewrite El in R. exact R.
Defined.

Definition demo_share : Share := default (mkShare 9 [] []) (get_share demo_set 1).

(** The leaf of [demo_share] and the nodes above it. *)
Definition demo_climb : list bytes :=
  payload (values demo_share) :: climb_inputs hash_bytes (hash_bytes (payload (values demo_share)))
    (Z.to_nat (index demo_share)) (merkle_proof demo_share).

Lemma verified_shares_were_dealt_witness :
  unforged demo_set demo_share ∧ verify_share demo_set demo_share = Ok tt ∧ demo_share ∈ shares demo_set.
Proof.
  assert (unforged demo_set demo_share) as Hu.
  { split.
    - apply no_collision_check. vm_compute. reflexivity.
    - intros _ y Hy. assert (forallb (fun y => negb (bool_decide (hash_bytes y = zeros 32))) demo_climb = true) as Hc
        by (vm_compute; reflexivity).
      rewrite forallb_forall in Hc. pose proof (Hc y (proj1 (list_elem_of_In _ _) Hy)) as Hn.
      intros Ez. rewrite bool_decide_true in Hn by exact Ez. discriminate Hn. }
  assert (verify_share demo_set demo_share = Ok tt) as Hv by (vm_compute; reflexivity).
  assert (forallb (fun l => length l =? 32) (merkle_proof demo_share) = true) as Hp by (vm_compute; reflexivity).
  assert ((0 <=? index demo_share)%Z = true) as Hi by (vm_compute; reflexivity).
  assert ((length (values demo_share) =? 16) = false) as Hl by (vm_compute; reflexivity).
  split; [exact Hu|]. split; [exact Hv|].
  destruct (verified_shares_were_dealt 2 3 (mkSecretSharer 2 3) demo_secret demo_rng demo_share eq_refl eq_refl) as [_ R].
  apply R.
  - apply Z.leb_le, Hi.
  - apply Nat.eqb_neq, Hl.
  - apply Forall_forall. intros x Hx. rewrite forallb_forall in Hp. apply Nat.eqb_eq, Hp, list_elem_of_In, Hx.
  - exact Hu.
  - exact Hv.
Defined.

(** ** What the commitment does not promise *)

(** The check looks at a leaf only: it accepts values that lie on no polynomial, as long as
    their tree is the committed one, for any values at all. *)
Lemma inconsistent_shares_verify {E : Type} `{BinaryFieldElement E, Sha256} (all : list (list E)) t i :
  2 ≤ length all → i < length all →
  let tree := build_merkle_tree (map hash_share_values all) in
  verify_share (mkShareSet t (length all) [] tree.1) (mkShare (Z.of_nat i) (all !!! i) (tree.2 !!! i)) = Ok tt.
Proof.
  intros Hl Hi tree. set (lv := map hash_share_values all) in *.
  assert (length lv = length all) as Hlv by (apply length_map).
  assert (Forall (fun l : bytes => length l = 32) lv) as Hh by (apply Forall_fmap, Forall_true; intros; apply hash_32).
  destruct (tree_spec lv) as (d & _ & Hd & Etree); [lia|done|].
  unfold verify_share, tree. rewrite Etree. cbn [num_shares index values merkle_proof commitment fst snd].
  rewrite (proj2 (Z.leb_gt _ _)) by lia. rewrite Nat2Z.id, compute_climb, bool_decide_true; [done|].
  rewrite (list_lookup_total_correct _ i (path hash_bytes d (padded d lv) i)) by (rewrite list_lookup_fmap, lookup_seq_lt by lia; done).
  rewrite <-(climb_path hash_bytes hash_32 d (padded d lv) i).
  - f_equal. symmetry. apply list_lookup_total_correct. unfold padded.
    rewrite lookup_app_l by lia. unfold lv. by rewrite list_lookup_fmap, (list_lookup_lookup_total_lt all) by lia.
  - unfold padded. rewrite length_app, length_replicate. lia.
  - by apply padded_hashes.
  - lia.
Qed.

(** Three values of one element each, on no line: all of them pass, and the pairs of them
    interpolate to different elements. *)
Example inconsistent_shares_disagree :
  let all := map (fun v => [from_poly v : BinaryElem32]) [1; 2; 4]%Z in
  reconstruct_from_indexed_shares (imap (fun i vs => (Z.of_nat i, vs)) (take 2 all)) 2 ≠
  reconstruct_from_indexed_shares (imap (fun i vs => (Z.of_nat (S i), vs)) (drop 1 all)) 2.
Proof. vm_compute. discriminate. Qed.

(** Leaves and inner nodes are hashed alike: the sixteen values that spell two leaves pass for a
    share of the two. *)
Definition inner_node_share : Share (E := BinaryElem32) :=
  let hs := map (fun sh => hash_share_values (values sh)) (shares demo_set) in
  let node := hs !!! 0 ++ hs !!! 1 in
  mkShare 0 (map (fun i => from_poly (from_le (slice (4 * i) (4 * i + 4) node))) (seq 0 16))
    (drop 1 (merkle_proof (default demo_share (get_share demo_set 0)))).

Example inner_node_accepted :
  verify_share demo_set inner_node_share = Ok tt ∧ length (values inner_node_share) = 16.
Proof. split; vm_compute; reflexivity. Qed.

(** [zoda_verify_share] is not bounded by the number of shares: a share passes under an index
    that is a whole tree further, and then interpolates to something else. *)
Definition renumbered_share : Share := mkShare (index demo_share + 4) (values demo_share) (merkle_proof demo_share).

Example renumbered_share_accepted :
  zoda_verify_share renumbered_share (commitment demo_set) 3 = true ∧
  verify_share demo_set renumbered_share = Err IndexOutOfBounds ∧
  match zoda_reconstruct_scalar (renumbered_share :: demo_shares [0]) 2 with
  | Ok secret => bool_decide (secret = demo_secret)
  | Err _ => true
  end = false.
Proof. split_and!; vm_compute; reflexivity. Qed.

Section hiding.
Context {E : Type} `{BinaryFieldLaws E} `{!U32Elements E} `{Sha256}.

#[local] Abbreviation zero := (fzero : E).
#[local] Abbreviation one := (fone : E).
#[local] Infix "+" := fadd.
#[local] Infix "*" := fmul.
#[local] Abbreviation ev := evaluate_polynomial.

Add Ring E_ring : (field_ring : ring_theory zero one fadd fmul fadd id eq).

(** ** A polynomial through given points *)

Lemma ev_zeros k (x : E) : ev (replicate k zero) x = zero.
Proof. induction k as [|k IH]; [done|]. cbn [replicate]. rewrite ev_cons, IH. ring. Qed.

Lemma ev_padded p k (x : E) : ev (p ++ replicate k zero) x = ev p x.
Proof.
  induction p as [|c p IH]; cbn [app]; [by rewrite ev_zeros|]. by rewrite !ev_cons, IH.
Qed.

Lemma interpolant (xs ys : list E) :
  NoDup xs → length ys = length xs →
  ∃ f, polynomial (length xs) f ∧ map f xs = ys.
Proof.
  revert ys. induction xs as [|x xs IH]; intros [|y ys] Hd Hl; try done.
  - exists (fun _ => zero). split; [|done]. exists []. by split; [cbn; lia|].
  - apply NoDup_cons in Hd as [Hn Hd]. destruct (IH ys Hd) as (f & Hf & <-); [by injection Hl|].
    set (m := fun z => product (fun r => z + r) xs).
    destruct (inv_spec (m x)) as (c & _ & Ec).
    { apply product_nonzero. intros r Hr Es%add_zero_eq. by subst r. }
    exists (fun z => f z + (f x + y) * c * m z). split.
    + apply polynomial_add; [eapply polynomial_mono; [|exact Hf]; cbn; lia|].
      apply (polynomial_scale _ m), product_polynomial.
    + cbn [map]. f_equal.
      * transitivity (f x + (f x + y) * (m x * c)); [ring|]. rewrite Ec.
        transitivity (y + (f x + f x)); [ring|]. rewrite add_self. ring.
      * apply map_ext_in. intros z Hz%list_elem_of_In. unfold m.
        rewrite (product_root _ _ z); [ring|done|apply add_self].
Qed.

(** Coefficients, the constant one given. *)
Lemma coefficients t (e : E) (xs ys : list E) :
  NoDup xs → zero ∉ xs → length ys = length xs → length xs < t →
  ∃ tl, length tl = (t - 1)%nat ∧ map (ev (e :: tl)) xs = ys.
Proof.
  intros Hd Hz Hl Ht. destruct (interpolant (zero :: xs) (e :: ys)) as (f & (p & Hp & Ep) & Ef).
  - by apply NoDup_cons.
  - cbn. by rewrite Hl.
  - cbn [map length] in *. injection Ef as E0 Ef.
    exists (drop 1 (p ++ replicate (t - length p) zero)).
    assert (p ++ replicate (t - length p) zero = e :: drop 1 (p ++ replicate (t - length p) zero)) as Ecut.
    { assert (ev (p ++ replicate (t - length p) zero) zero = e) as Ee by (by rewrite ev_padded, <-Ep).
      assert (length (p ++ replicate (t - length p) zero) = t) as Lt by (rewrite length_app, length_replicate; lia).
      destruct (p ++ replicate (t - length p) zero) as [|c q]; [cbn in Lt; lia|]. rewrite ev_zero in Ee. by rewrite Ee. }
    split.
    + rewrite length_drop, length_app, length_replicate. lia.
    + rewrite <-Ecut, <-Ef. apply map_ext. intros z. by rewrite ev_padded, Ep.
Qed.

(** ** The numbers drawn decide the polynomials *)

Lemma share_elements_drawn sharer n elems (tls : list (list E)) polys :
  Forall (fun tl => length tl = (k_threshold sharer - 1)%nat) tls → length tls = length elems →
  (foldl (share_element sharer) (dealt n polys, mjoin (map (map poly) tls)) elems).1 =
  dealt n (polys ++ zip_with cons elems tls).
Proof.
  revert tls polys. induction elems as [|e elems IH]; intros [|tl tls] polys Hf Hl; try done.
  - cbn. by rewrite app_nil_r.
  - apply Forall_cons in Hf as [Htl Hf]. cbn [foldl]. unfold share_element at 2.
    change (mjoin (map (map poly) (tl :: tls))) with (map poly tl ++ mjoin (map (map poly) tls)).
    assert (length (map poly tl) = (k_threshold sharer - 1)%nat) as Lm by (by rewrite length_map).
    rewrite take_app_length', drop_app_length' by done.
    assert (map from_poly (map poly tl) = tl) as ->.
    { rewrite map_map. rewrite (map_ext _ id); [by rewrite map_id|apply from_of_poly]. }
    assert (imap (fun i vs => vs ++ [ev (e :: tl) (from_poly (wrap 32 (Z.of_nat i + 1)))]) (dealt n polys) =
      dealt n (polys ++ [e :: tl])) as ->.
    { unfold dealt. rewrite imap_map_seq. apply map_ext. intros i. by rewrite map_app. }
    rewrite IH by (done || by injection Hl). cbn [zip_with]. by rewrite <-app_assoc.
Qed.

(** The elements of a share, for polynomials drawn with the numbers. *)
Lemma share_drawn t n sharer secret tls i :
  new_sharer t n = Ok sharer → Forall (fun tl => length tl = (t - 1)%nat) tls → length tls = 8 → i < n →
  values <$> get_share (share_secret_with_rng sharer secret (mjoin (map (map poly) tls))) i =
  Some (map (fun p => ev p (point i)) (zip_with cons (bytes_to_field_elements secret) tls)).
Proof.
  unfold new_sharer. destruct (Nat.ltb_spec t 2); [done|]. destruct (Nat.ltb_spec n t); [done|]. intros [= <-] Hf Hl Hi.
  pose proof (share_elements_drawn (mkSecretSharer t n) n (bytes_to_field_elements secret) tls [] Hf Hl) as Es.
  unfold share_secret_with_rng. cbn [n_shares k_threshold] in *.
  replace (replicate n []) with (dealt n ([] : list (list E))) by (apply dealt_nil).
  destruct (foldl _ _ _) as [all r] eqn:Ef. cbn [fst app] in Es. rewrite Es.
  destruct (build_merkle_tree _) as [root proofs]. unfold get_share. cbn [shares].
  by rewrite list_lookup_imap, dealt_lookup.
Qed.

Lemma share_values t n sharer secret rng :
  new_sharer t n = Ok sharer → (Z.of_nat n < 2 ^ 32)%Z →
  ∃ polys : list (list E), length polys = 8 ∧ ∀ i, i < n →
    values <$> get_share (share_secret_with_rng sharer secret rng) i = Some (map (fun p => ev p (point i)) polys).
Proof.
  intros Hs Hn. destruct (shares_dealt (E := E) t n sharer secret rng Hs) as (polys & Es & Hf & _).
  exists polys. split; [by rewrite <-(Forall2_length _ _ _ Hf)|]. intros i Hi. cbv zeta in Es. rewrite Es.
  unfold get_share. cbn [shares]. by rewrite list_lookup_imap, dealt_lookup.
Qed.

Lemma points_distinct n places :
  (Z.of_nat n < 2 ^ 32 - 1)%Z → NoDup places → (∀ i, i ∈ places → i < n) → NoDup (map point places) ∧ zero ∉ map point places.
Proof.
  intros Hn Hd Hp. assert (∀ i, i ∈ places → point i = from_poly (Z.of_nat i + 1) ∧ fits 32 (Z.of_nat i + 1)) as Hpt.
  { intros i Hi%Hp. unfold point. rewrite wrap_small by (unfold fits; lia). split; [done|unfold fits; lia]. }
  split.
  - apply NoDup_fmap_2_strong; [|done]. intros i j Hi Hj Eij. destruct (Hpt i Hi) as [Ei Fi], (Hpt j Hj) as [Ej Fj].
    rewrite Ei, Ej in Eij. apply from_poly_inj in Eij; [lia|done|done].
  - intros (i & Ez & Hi)%list_elem_of_fmap. destruct (Hpt i Hi) as [Ei Fi]. rewrite Ei in Ez.
    apply (f_equal poly) in Ez. rewrite poly_zero, poly_from in Ez by done. lia.
Qed.

(** C18.  Fewer shares than the threshold say nothing about the secret: whatever was dealt and
    to whichever places, for every other secret there are random numbers with which just the
    same values are dealt to these places. *)
Theorem fewer_shares_hide t n sharer secret rng secret' places :
  new_sharer t n = Ok sharer → (Z.of_nat n < 2 ^ 32 - 1)%Z →
  NoDup places → (∀ i, i ∈ places → i < n) → length places < t →
  ∃ rng', Forall (fits 32) rng' ∧ length rng' = (8 * (t - 1))%nat ∧ ∀ i, i ∈ places →
    values <$> get_share (share_secret_with_rng sharer secret' rng') i =
    values <$> get_share (share_secret_with_rng sharer secret rng) i.
Proof.
  intros Hs Hn Hd Hp Ht. destruct (share_values t n sharer secret rng Hs) as (polys & Hl & Hv); [lia|].
  destruct (points_distinct n places Hn Hd Hp) as [Hdx Hzx]. set (xs := map point places) in *.
  assert (∃ tls : list (list E), Forall (fun tl => length tl = (t - 1)%nat) tls ∧ length tls = 8 ∧
    ∀ x, x ∈ xs → map (fun p => ev p x) (zip_with cons (bytes_to_field_elements secret') tls) = map (fun p => ev p x) polys)
    as (tls & Hf & H8 & Etls).
  { assert (length (bytes_to_field_elements secret' : list E) = 8) as He by done.
    rewrite <-He in Hl. rewrite <-He. clear Hv He. generalize dependent polys.
    induction (bytes_to_field_elements secret' : list E) as [|e elems IH]; intros [|p polys] Hl; try done; [by exists []|].
    destruct (IH polys) as (tls & Hf & Hlt & Et); [by injection Hl|].
    destruct (coefficients t e xs (map (ev p) xs)) as (tl & Htl & Ep);
      [done|done|by rewrite length_map|unfold xs; by rewrite length_map|].
    exists (tl :: tls). split; [by constructor|]. split; [cbn; by rewrite Hlt|]. intros x Hx. cbn [zip_with map].
    rewrite Et by done. f_equal. apply list_elem_of_lookup in Hx as [k Hk].
    apply (f_equal (fun l => l !! k)) in Ep. rewrite !list_lookup_fmap, Hk in Ep. by injection Ep. }
  exists (mjoin (map (map poly) tls)). split; [|split].
  - apply Forall_forall. intros z (l & Hz & (tl & -> & _)%list_elem_of_fmap)%list_elem_of_join.
    apply list_elem_of_fmap in Hz as (c & -> & _). apply poly_fits.
  - clear Etls. rewrite <-H8. clear H8. induction Hf as [|tl tls Htl Hf IH]; [done|].
    change (mjoin (map (map poly) (tl :: tls))) with (map poly tl ++ mjoin (map (map poly) tls)).
    rewrite length_app, IH, length_map, Htl. cbn [length]. lia.
  - intros i Hi. rewrite (share_drawn t n), Hv by auto. f_equal. apply Etls. unfold xs. apply list_elem_of_fmap. by exists i.
Qed.
End hiding.

#[local] Existing Instance spelled.

Lemma fewer_shares_hide_witness :
  NoDup [1] ∧ ∃ rng', Forall (fits 32) rng' ∧ length rng' = 8 ∧ ∀ i, i ∈ [1] →
    values <$> get_share (E := BinaryElem32) (share_secret_with_rng (mkSecretSharer 2 3) (zeros 32) rng') i =
    values <$> get_share demo_set i.
Proof.
  split; [apply NoDup_singleton|].
  apply (fewer_shares_hide (E := BinaryElem32) 2 3 (mkSecretSharer 2 3) demo_secret demo_rng (zeros 32) [1]).
  - reflexivity.
  - reflexivity.
  - apply NoDup_singleton.
  - intros i ->%list_elem_of_singleton. lia.
  - cbn. lia.
Defined.
