(* ===== verification/ReedSolomon.v ===== *)
(** The Reed-Solomon code over a binary field, [reed-solomon/src]: twiddle factors and the
    additive transform ([fft.rs]), the code and its parameters ([lib.rs]) and the encoders
    ([encode.rs]).  The transform and its inverse undo each other, the twiddle factors make
    the transform evaluate, and what is encoded are the values of the polynomial through the
    message.

    The field is a parameter through the trait of [BinField].  A panic is [None]. *)
From stdpp Require Import base list sets.
From Stdlib Require Import ZArith Lia Ring.
From S2P Require Import Prelude Merkle BatchTree GF BinField BinFieldSafe Zoda FieldPoly.

Section code.
Context {E : Type} `{BinaryFieldElement E} `{!EqDecision E}.

(** [from_bits] of an index. *)
Definition element (i : nat) : E := from_bits (Z.of_nat i).

(** * Twiddle factors *)

Definition next_s (s_prev s_prev_at_root : E) : E := fadd (fmul s_prev s_prev) (fmul s_prev_at_root s_prev).

(** Before a layer: where the last one was written, the layer, the value at its root and the
    factors so far; no state once the loop has been left. *)
Record Twiddling := mkTwiddling {
  write_at : nat;
  layer : list E;
  s_prev_at_root : E;
  factors : list E;
}.

Definition update_layer (layer : list E) (layer_len : nat) (s_prev_at_root : E) : list E :=
  foldl (fun layer idx =>
    if idx * 2 <? length layer then <[idx := next_s (default fzero (layer !! (idx * 2))) s_prev_at_root]> layer else layer)
    layer (seq 0 layer_len).

Definition store_layer (twiddles layer : list E) (start_idx layer_len : nat) (s_inv : E) : list E :=
  foldl (fun twiddles i =>
    if (start_idx + i <? length twiddles) && (i <? length layer)
    then <[start_idx + i := fmul s_inv (default fzero (layer !! i))]> twiddles else twiddles)
    twiddles (seq 0 layer_len).

Definition layer_at_root (layer : list E) (s_prev_at_root : E) : E :=
  match layer with a :: b :: _ => next_s (fadd b a) s_prev_at_root | _ => fzero end.

(** The layers that are left; the loop ends early when the value at the root is zero. *)
Fixpoint twiddle_layers (count : nat) (t : Twiddling) : option (list E) :=
  match count with
  | O => Some (factors t)
  | S count =>
      let layer_len := write_at t / 2 in
      let s_at_root := layer_at_root (layer t) (s_prev_at_root t) in
      if bool_decide (s_at_root = fzero) then Some (factors t)
      else
        let layer' := update_layer (layer t) layer_len (s_prev_at_root t) in
        match finv s_at_root with
        | None => None
        | Some s_inv =>
            twiddle_layers count
              (mkTwiddling layer_len layer' s_at_root (store_layer (factors t) layer' (layer_len - 1) layer_len s_inv))
        end
  end.

Definition compute_twiddles (log_n : nat) (beta : E) : option (list E) :=
  if log_n =? 0 then Some []
  else
    let n := 2 ^ log_n in
    let layer := map (fun i => fadd beta (element (2 * i))) (seq 0 (n / 2)) in
    let twiddles := list_inserts (n / 2 - 1) (take (Nat.min (length layer) (n - 1 - (n / 2 - 1))) layer) (replicate (n - 1) fzero) in
    twiddle_layers (log_n - 1) (mkTwiddling (n / 2) layer fone twiddles).

(** * The transform *)

Definition fft_mul (v : list E) (lambda : E) : list E :=
  let mid := length v / 2 in
  let u := zip_with (fun u w => fadd u (fmul lambda w)) (take mid v) (drop mid v) in
  u ++ zip_with fadd (drop mid v) u.

(** [twiddles[idx - 1]], if there is one. *)
Definition twiddle (twiddles : list E) (idx : nat) : option E := if 0 <? idx then twiddles !! (idx - 1) else None.

Fixpoint fft_recursive (fuel : nat) (v twiddles : list E) (idx : nat) : list E :=
  match fuel with
  | O => v
  | S fuel =>
      if length v =? 1 then v
      else
        let v := match twiddle twiddles idx with Some lambda => fft_mul v lambda | None => v end in
        let mid := length v / 2 in
        fft_recursive fuel (take mid v) twiddles (2 * idx) ++ fft_recursive fuel (drop mid v) twiddles (2 * idx + 1)
  end.

Definition fft (v twiddles : list E) : option (list E) :=
  if negb (is_power_of_two (length v)) then None
  else if length v =? 1 then Some v
  else Some (fft_recursive (length v) v twiddles 1).

Definition ifft_mul (v : list E) (lambda : E) : list E :=
  let mid := length v / 2 in
  let hi := zip_with fadd (drop mid v) (take mid v) in
  zip_with (fun lo hi => fadd lo (fmul lambda hi)) (take mid v) hi ++ hi.

Fixpoint ifft_recursive (fuel : nat) (v twiddles : list E) (idx : nat) : list E :=
  match fuel with
  | O => v
  | S fuel =>
      if length v =? 1 then v
      else
        let mid := length v / 2 in
        let v := ifft_recursive fuel (take mid v) twiddles (2 * idx) ++ ifft_recursive fuel (drop mid v) twiddles (2 * idx + 1) in
        match twiddle twiddles idx with Some lambda => ifft_mul v lambda | None => v end
  end.

Definition ifft (v twiddles : list E) : option (list E) :=
  if negb (is_power_of_two (length v)) then None
  else if length v =? 1 then Some v
  else Some (ifft_recursive (length v) v twiddles 1).

(** * The code *)

(** One subspace: the value of its polynomial at its root, and the layer at the later roots. *)
Fixpoint eval_sks (count : nat) (layer : list E) (sk_vk : E) : list E :=
  match count with
  | O => []
  | S count =>
      match map (fun x => fadd (fmul x x) (fmul sk_vk x)) layer with
      | [] => []
      | val :: layer' => val :: eval_sks count layer' val
      end
  end.

Definition eval_sk_at_vks (n : nat) : option (list E) :=
  if negb (is_power_of_two n) then None
  else
    let num_subspaces := Nat.log2 n in
    Some (fone :: eval_sks num_subspaces (map (fun i => element (2 ^ i)) (seq 1 num_subspaces)) fone).

(** Places beyond [n] panic. *)
Definition compute_pis (n : nat) (sks_vks : list E) : option (list E) :=
  let pis := foldl (fun pis sk_vk => pis ++ map (fun p => fmul p sk_vk) pis) [fone] (take (length sks_vks - 1) sks_vks) in
  if length pis <=? n then Some (pis ++ replicate (n - length pis) fzero) else None.

Record ReedSolomon := mkReedSolomon {
  log_message_length : nat;
  log_block_length : nat;
  twiddles : list E;
  pis : list E;
}.

(** [ReedSolomon::new] *)
Definition reed_solomon (message_length block_length : nat) : option ReedSolomon :=
  if negb (is_power_of_two message_length) then None
  else if negb (is_power_of_two block_length) then None
  else if negb (message_length <? block_length) then None
  else
    let log_block_length := Nat.log2 block_length in
    match compute_twiddles log_block_length fzero, eval_sk_at_vks message_length with
    | Some twiddles, Some sks_vks =>
        match compute_pis message_length sks_vks with
        | Some pis => Some (mkReedSolomon (Nat.log2 message_length) log_block_length twiddles pis)
        | None => None
        end
    | _, _ => None
    end.

Definition message_length (rs : ReedSolomon) : nat := 2 ^ log_message_length rs.
Definition block_length (rs : ReedSolomon) : nat := 2 ^ log_block_length rs.

(** The factors of a subtree: the rows of the long table that start at [jump], its doubles
    and so on. *)
Fixpoint short_rows (count i jump idx : nat) (long_twiddles short_twiddles : list E) : list E :=
  match count with
  | O => short_twiddles
  | S count =>
      let jump := jump * 2 in
      let take := 2 ^ i in
      let short_twiddles := foldl (fun short j =>
        if (jump - 1 + j <? length long_twiddles) && (idx + j <? length short)
        then <[idx + j := default fzero (long_twiddles !! (jump - 1 + j))]> short else short) short_twiddles (seq 0 take) in
      short_rows count (S i) jump (idx + take) long_twiddles short_twiddles
  end.

(** A write to the first place of an empty table panics. *)
Definition short_from_long_twiddles (long_twiddles : list E) (log_n log_k : nat) : option (list E) :=
  let k := 2 ^ log_k in
  let short_twiddles := replicate (k - 1) fzero in
  let jump := 2 ^ (log_n - log_k) in
  let first := (0 <? jump) && (jump <=? length long_twiddles) in
  if first && (k - 1 =? 0) then None
  else
    let short_twiddles :=
      if first then <[0 := default fzero (long_twiddles !! (jump - 1))]> short_twiddles else short_twiddles in
    Some (short_rows (log_k - 1) 1 jump 1 long_twiddles short_twiddles).

(** * Encoders *)

Definition encode_in_place (rs : ReedSolomon) (data : list E) : option (list E) :=
  let message_len := message_length rs in
  match short_from_long_twiddles (twiddles rs) (log_block_length rs) (log_message_length rs) with
  | None => None
  | Some short_twiddles =>
      if length data <? message_len then None
      else
        match ifft (take message_len data) short_twiddles with
        | None => None
        | Some coefficients => fft (coefficients ++ drop message_len data) (twiddles rs)
        end
  end.

Definition encode (rs : ReedSolomon) (message : list E) : option (list E) :=
  if block_length rs <? length message then None
  else encode_in_place rs (message ++ replicate (block_length rs - length message) fzero).

Definition encode_non_systematic (rs : ReedSolomon) (data : list E) : option (list E) :=
  if negb (length data =? block_length rs) then None
  else
    let message_len := message_length rs in
    if length (pis rs) <? message_len then None
    else fft (zip_with fmul (take message_len data) (pis rs) ++ drop message_len data) (twiddles rs).
End code.

Section code.
Context {E : Type} `{BinaryFieldLaws E}.

#[local] Abbreviation zero := (fzero : E).
#[local] Abbreviation one := (fone : E).
#[local] Infix "+" := fadd.
#[local] Infix "*" := fmul.

Add Ring E_ring : (field_ring : ring_theory zero one fadd fmul fadd id eq).

#[local] Abbreviation ev := evaluate_polynomial.

(** * The transform by its depth *)

Fixpoint tfft (k : nat) (v tw : list E) (idx : nat) : list E :=
  match k with
  | O => v
  | S k =>
      let v := match twiddle tw idx with Some lambda => fft_mul v lambda | None => v end in
      tfft k (take (2 ^ k) v) tw (2 * idx)%nat ++ tfft k (drop (2 ^ k) v) tw (2 * idx + 1)%nat
  end.

Fixpoint tifft (k : nat) (v tw : list E) (idx : nat) : list E :=
  match k with
  | O => v
  | S k =>
      let v := tifft k (take (2 ^ k) v) tw (2 * idx)%nat ++ tifft k (drop (2 ^ k) v) tw (2 * idx + 1)%nat in
      match twiddle tw idx with Some lambda => ifft_mul v lambda | None => v end
  end.

Lemma halves (v : list E) k : length v = (2 ^ S k)%nat → length (take (2 ^ k) v) = (2 ^ k)%nat ∧ length (drop (2 ^ k) v) = (2 ^ k)%nat.
Proof. rewrite pow_S, length_take, length_drop. lia. Qed.

Lemma mid_of (v : list E) k : length v = (2 ^ S k)%nat → (length v / 2)%nat = (2 ^ k)%nat.
Proof. intros ->. rewrite pow_S, Nat.mul_comm. by apply Nat.div_mul. Qed.

Lemma length_fft_mul (v : list E) k l : length v = (2 ^ S k)%nat → length (fft_mul v l) = (2 ^ S k)%nat.
Proof.
  intros Hv. unfold fft_mul. rewrite (mid_of v k Hv). destruct (halves v k Hv) as [H1 H2].
  rewrite length_app, !length_zip_with, H1, H2, pow_S. lia.
Qed.

Lemma length_ifft_mul (v : list E) k l : length v = (2 ^ S k)%nat → length (ifft_mul v l) = (2 ^ S k)%nat.
Proof.
  intros Hv. unfold ifft_mul. rewrite (mid_of v k Hv). destruct (halves v k Hv) as [H1 H2].
  rewrite length_app, !length_zip_with, H1, H2, pow_S. lia.
Qed.

Lemma length_tfft k v tw idx : length v = (2 ^ k)%nat → length (tfft k v tw idx) = (2 ^ k)%nat.
Proof.
  revert v idx. induction k as [|k IH]; intros v idx Hv; [done|]. cbn [tfft]. rewrite length_app.
  destruct (twiddle tw idx) as [l|].
  - destruct (halves (fft_mul v l) k) as [H1 H2]; [by apply length_fft_mul|]. rewrite !IH, pow_S by done. lia.
  - destruct (halves v k Hv) as [H1 H2]. rewrite !IH, pow_S by done. lia.
Qed.

Lemma length_tifft k v tw idx : length v = (2 ^ k)%nat → length (tifft k v tw idx) = (2 ^ k)%nat.
Proof.
  revert v idx. induction k as [|k IH]; intros v idx Hv; [done|]. cbn [tifft]. destruct (halves v k Hv) as [H1 H2].
  assert (length (tifft k (take (2 ^ k) v) tw (2 * idx) ++ tifft k (drop (2 ^ k) v) tw (2 * idx + 1)) = (2 ^ S k)%nat) as Hl.
  { rewrite length_app, !IH, pow_S by done. lia. }
  destruct (twiddle tw idx) as [l|]; [by apply length_ifft_mul|done].
Qed.

Lemma one_or_more k : (2 ^ S k =? 1)%nat = false.
Proof. rewrite pow_S. apply Nat.eqb_neq. lia. Qed.

Lemma fft_recursive_tfft fuel k v tw idx : length v = (2 ^ k)%nat → k ≤ fuel → fft_recursive fuel v tw idx = tfft k v tw idx.
Proof.
  revert fuel v idx. induction k as [|k IH]; intros fuel v idx Hv Hf.
  - destruct fuel; cbn; [done|]. by rewrite Hv.
  - destruct fuel as [|fuel]; [lia|]. cbn [fft_recursive tfft]. rewrite Hv, one_or_more.
    destruct (twiddle tw idx) as [l|].
    + pose proof (length_fft_mul v k l Hv) as Hl. rewrite (mid_of _ k Hl). destruct (halves _ k Hl).
      by rewrite !IH by (done || lia).
    + rewrite (mid_of v k Hv). destruct (halves v k Hv). by rewrite !IH by (done || lia).
Qed.

Lemma ifft_recursive_tifft fuel k v tw idx : length v = (2 ^ k)%nat → k ≤ fuel → ifft_recursive fuel v tw idx = tifft k v tw idx.
Proof.
  revert fuel v idx. induction k as [|k IH]; intros fuel v idx Hv Hf.
  - destruct fuel; cbn; [done|]. by rewrite Hv.
  - destruct fuel as [|fuel]; [lia|]. cbn [ifft_recursive tifft]. rewrite Hv, one_or_more, <-Hv, (mid_of v k Hv).
    destruct (halves v k Hv). by rewrite !IH by (done || lia).
Qed.

Lemma pow_length k : (k ≤ 2 ^ k)%nat.
Proof. pose proof (Nat.pow_gt_lin_r 2 k). lia. Qed.

Lemma fft_spec k v tw : length v = (2 ^ k)%nat → fft v tw = Some (tfft k v tw 1).
Proof.
  intros Hv. unfold fft. rewrite Hv, is_power_spec. cbn [negb]. destruct k as [|k]; [done|]. rewrite one_or_more.
  f_equal. apply fft_recursive_tfft; [done|apply pow_length].
Qed.

Lemma ifft_spec k v tw : length v = (2 ^ k)%nat → ifft v tw = Some (tifft k v tw 1).
Proof.
  intros Hv. unfold ifft. rewrite Hv, is_power_spec. cbn [negb]. destruct k as [|k]; [done|]. rewrite one_or_more.
  f_equal. apply ifft_recursive_tifft; [done|apply pow_length].
Qed.

(** * Butterflies *)

Lemma add_twice (a b : E) : a + (a + b) = b.
Proof. transitivity ((a + a) + b); [ring|]. rewrite add_self. ring. Qed.

(** A butterfly on two halves. *)
Lemma fft_mul_app u w l :
  length u = length w →
  fft_mul (u ++ w) l =
  zip_with (fun u w => u + l * w) u w ++ zip_with fadd w (zip_with (fun u w => u + l * w) u w).
Proof.
  intros Hl. unfold fft_mul. rewrite length_app.
  replace ((length u + length w) / 2)%nat with (length u) by (rewrite Hl; apply Nat.div_unique_exact; lia).
  by rewrite take_app_length, drop_app_length.
Qed.

Lemma ifft_mul_app lo hi l :
  length lo = length hi →
  ifft_mul (lo ++ hi) l =
  zip_with (fun lo hi => lo + l * hi) lo (zip_with fadd hi lo) ++ zip_with fadd hi lo.
Proof.
  intros Hl. unfold ifft_mul. rewrite length_app.
  replace ((length lo + length hi) / 2)%nat with (length lo) by (rewrite Hl; apply Nat.div_unique_exact; lia).
  by rewrite take_app_length, drop_app_length.
Qed.

Lemma fft_then_ifft u w l : length u = length w → ifft_mul (fft_mul (u ++ w) l) l = u ++ w.
Proof.
  intros Hl. rewrite fft_mul_app, ifft_mul_app by (rewrite ?length_zip_with; lia).
  f_equal; revert w Hl; induction u as [|a u IH]; intros [|b w] Hl; try done; injection Hl as Hl;
    cbn [zip_with]; f_equal; try (by apply IH).
  - assert (b + (a + l * b) + (a + l * b) = b) as ->.
    { transitivity (b + ((a + l * b) + (a + l * b))); [ring|]. rewrite add_self. ring. }
    transitivity (a + (l * b + l * b)); [ring|]. rewrite add_self. ring.
  - transitivity (b + ((a + l * b) + (a + l * b))); [ring|]. rewrite add_self. ring.
Qed.

Lemma ifft_then_fft u w l : length u = length w → fft_mul (ifft_mul (u ++ w) l) l = u ++ w.
Proof.
  intros Hl. rewrite ifft_mul_app, fft_mul_app by (rewrite ?length_zip_with; lia).
  assert (∀ a b, a + l * (b + a) + l * (b + a) = a) as Ea.
  { intros a b. transitivity (a + (l * (b + a) + l * (b + a))); [ring|]. rewrite add_self. ring. }
  f_equal; revert w Hl; induction u as [|a u IH]; intros [|b w] Hl; try done; injection Hl as Hl;
    cbn [zip_with]; f_equal; try (by apply IH).
  - apply Ea.
  - rewrite Ea. transitivity (b + (a + a)); [ring|]. rewrite add_self. ring.
Qed.

Lemma butterfly_undone v k l : length v = (2 ^ S k)%nat → ifft_mul (fft_mul v l) l = v ∧ fft_mul (ifft_mul v l) l = v.
Proof.
  intros Hv. destruct (halves v k Hv). rewrite <-(take_drop (2 ^ k) v).
  by rewrite fft_then_ifft, ifft_then_fft by congruence.
Qed.

Lemma tfft_undone k v tw idx : length v = (2 ^ k)%nat → tifft k (tfft k v tw idx) tw idx = v.
Proof.
  revert v idx. induction k as [|k IH]; intros v idx Hv; [done|]. cbn [tfft tifft].
  set (v' := match twiddle tw idx with Some lambda => fft_mul v lambda | None => v end).
  assert (length v' = (2 ^ S k)%nat) as Hv' by (unfold v'; destruct (twiddle tw idx); [by apply length_fft_mul|done]).
  destruct (halves v' k Hv') as [H1 H2].
  rewrite take_app_length', drop_app_length' by (by rewrite length_tfft). rewrite !IH, take_drop by done.
  unfold v'. destruct (twiddle tw idx); [|done]. by apply (butterfly_undone v k).
Qed.

Lemma tifft_undone k v tw idx : length v = (2 ^ k)%nat → tfft k (tifft k v tw idx) tw idx = v.
Proof.
  revert v idx. induction k as [|k IH]; intros v idx Hv; [done|]. cbn [tfft tifft]. destruct (halves v k Hv) as [H1 H2].
  set (v' := tifft k (take (2 ^ k) v) tw (2 * idx) ++ tifft k (drop (2 ^ k) v) tw (2 * idx + 1)).
  assert (length v' = (2 ^ S k)%nat) as Hv' by (unfold v'; rewrite length_app, !length_tifft, pow_S by done; lia).
  assert (match twiddle tw idx with
    | Some lambda => fft_mul match twiddle tw idx with Some lambda0 => ifft_mul v' lambda0 | None => v' end lambda
    | None => match twiddle tw idx with Some lambda => ifft_mul v' lambda | None => v' end end = v') as ->.
  { destruct (twiddle tw idx); [|done]. by apply (butterfly_undone v' k). }
  unfold v'. rewrite take_app_length', drop_app_length' by (by rewrite length_tifft). by rewrite !IH, take_drop.
Qed.

(** * Loops that fill a table *)

Definition between (a n k : nat) : bool := (a <=? k) && (k <? a + n)%nat.

Lemma foldl_fill (f : list E → nat → list E) (g : nat → E) start len (l : list E) :
  (∀ l' i, length l' = length l → i < len → f l' i = <[(start + i)%nat := g i]> l') → (start + len)%nat ≤ length l →
  length (foldl f l (seq 0 len)) = length l ∧
  ∀ k, foldl f l (seq 0 len) !! k = if between start len k then Some (g (k - start)%nat) else l !! k.
Proof.
  induction len as [|len IH]; intros Hf Hl.
  - split; [done|]. intros k. cbn. unfold between. destruct (Nat.leb_spec start k); [|done].
    by rewrite (proj2 (Nat.ltb_ge _ _)) by lia.
  - destruct IH as [L IH]; [intros; apply Hf; [done|lia]|lia|]. rewrite seq_S, foldl_app. cbn [foldl].
    rewrite Hf by (done || lia). cbn [plus]. split; [by rewrite length_insert|]. intros k.
    destruct (decide (k = start + len)%nat) as [->|Hne].
    + rewrite list_lookup_insert_eq by lia. unfold between. rewrite (proj2 (Nat.leb_le _ _)), (proj2 (Nat.ltb_lt _ _)) by lia.
      cbn [andb]. do 2 f_equal. lia.
    + rewrite list_lookup_insert_ne by done. rewrite IH. unfold between.
      destruct (Nat.leb_spec start k); [|done]. cbn [andb].
      destruct (Nat.ltb_spec k (start + len)), (Nat.ltb_spec k (start + S len)); done || lia.
Qed.

(** ** The factors of a subtree *)

Section short.
Context (long : list E) (log_n log_k : nat).
Hypothesis long_length : length long = (2 ^ log_n - 1)%nat.
Hypothesis shorter : 1 ≤ log_k ≤ log_n.

#[local] Abbreviation jump := (2 ^ (log_n - log_k))%nat.

Definition row_filled (short : list E) (i : nat) : Prop :=
  ∀ j, j < 2 ^ i → short !! (2 ^ i - 1 + j)%nat = long !! (jump * 2 ^ i - 1 + j)%nat.

Lemma row_inside i j : i < log_k → j < 2 ^ i → (jump * 2 ^ i - 1 + j < length long)%nat ∧ (2 ^ i - 1 + j < 2 ^ log_k - 1)%nat.
Proof.
  intros Hi Hj. pose proof (Nat.pow_nonzero 2 (log_n - log_k)). pose proof (Nat.pow_nonzero 2 i).
  assert (2 ^ log_n = jump * 2 ^ i * 2 ^ (log_k - i))%nat as En by (rewrite <-!Nat.pow_add_r; f_equal; lia).
  assert (2 ^ log_k = 2 ^ i * 2 ^ (log_k - i))%nat as Ek by (rewrite <-Nat.pow_add_r; f_equal; lia).
  assert (2 ≤ 2 ^ (log_k - i)) as Htwo by (replace (log_k - i)%nat with (S (log_k - i - 1)) by lia; rewrite pow_S; pose proof (Nat.pow_nonzero 2 (log_k - i - 1)); lia).
  rewrite long_length, En, Ek. split; nia.
Qed.

Lemma short_rows_spec count i short :
  (i + count = log_k)%nat → length short = (2 ^ log_k - 1)%nat → (∀ i', i' < i → row_filled short i') →
  let r := short_rows count i (jump * 2 ^ (i - 1)) (2 ^ i - 1) long short in
  1 ≤ i → length r = (2 ^ log_k - 1)%nat ∧ ∀ i', i' < log_k → row_filled r i'.
Proof.
  revert i short. induction count as [|count IH]; intros i short Hi Hl Hr r H1; cbn [short_rows] in r.
  - split; [done|]. intros i' Hi'. apply Hr. lia.
  - set (f := fun (short : list E) (j : nat) => _) in r.
    assert (jump * 2 ^ (i - 1) * 2 = jump * 2 ^ i)%nat as Ej.
    { replace i with (S (i - 1)) at 2 by lia. rewrite pow_S. lia. }
    destruct (foldl_fill f (fun j => default zero (long !! (jump * 2 ^ i - 1 + j)%nat)) (2 ^ i - 1) (2 ^ i) short) as [L F].
    { intros l' j Hl' Hj. destruct (row_inside i j ltac:(lia) Hj). unfold f. rewrite Ej.
      rewrite (proj2 (Nat.ltb_lt _ _)), (proj2 (Nat.ltb_lt _ _)) by lia. done. }
    { pose proof (Nat.pow_nonzero 2 i). destruct (row_inside i (2 ^ i - 1) ltac:(lia)); lia. }
    specialize (IH (S i) (foldl f short (seq 0 (2 ^ i)))).
    replace (S i - 1)%nat with i in IH by lia. pose proof (Nat.pow_nonzero 2 i).
    replace (2 ^ S i - 1)%nat with (2 ^ i - 1 + 2 ^ i)%nat in IH by (rewrite pow_S; lia).
    unfold r. rewrite Ej. apply IH; [lia|by rewrite L| |lia].
    intros i' Hi' j Hj. rewrite F. unfold between. destruct (decide (i' = i)) as [->|Hne].
    + rewrite (proj2 (Nat.leb_le _ _)), (proj2 (Nat.ltb_lt _ _)) by lia. cbn [andb].
      destruct (row_inside i j ltac:(lia) Hj) as [Hj' _]. destruct (lookup_lt_is_Some_2 long _ Hj') as [x Hx].
      replace (2 ^ i - 1 + j - (2 ^ i - 1))%nat with j by lia. by rewrite Hx.
    + assert (2 ^ S i' ≤ 2 ^ i) as Hp by (apply Nat.pow_le_mono_r; lia). rewrite pow_S in Hp.
      pose proof (Nat.pow_nonzero 2 i'). rewrite (proj2 (Nat.leb_gt _ _)) by lia. apply Hr; [lia|done].
Qed.

Lemma short_spec :
  ∃ short, short_from_long_twiddles long log_n log_k = Some short ∧ length short = (2 ^ log_k - 1)%nat ∧
    ∀ i, i < log_k → row_filled short i.
Proof.
  unfold short_from_long_twiddles. destruct (row_inside 0 0) as [Hlt Hk]; [lia|cbn; lia|]. cbn [Nat.pow] in Hlt, Hk.
  rewrite Nat.mul_1_r in Hlt. pose proof (Nat.pow_nonzero 2 (log_n - log_k)).
  rewrite (proj2 (Nat.ltb_lt 0 _)), (proj2 (Nat.leb_le _ _)) by lia. cbn [andb].
  rewrite (proj2 (Nat.eqb_neq (2 ^ log_k - 1) 0)) by lia. eexists. split; [done|].
  set (first := <[0 := _]> _).
  pose proof (short_rows_spec (log_k - 1) 1 first) as S. cbn [Nat.sub Nat.pow Nat.mul Nat.add] in S.
  rewrite Nat.mul_1_r in S. apply S; [lia|by unfold first; rewrite length_insert, length_replicate| |lia].
  intros i' Hi' j Hj. assert (i' = 0) as -> by lia. cbn in Hj. assert (j = 0) as -> by lia. cbn [Nat.pow Nat.sub Nat.add].
  unfold first. rewrite Nat.mul_1_r, Nat.add_0_r, list_lookup_insert_eq by (rewrite length_replicate; lia).
  destruct (lookup_lt_is_Some_2 long (jump - 1)) as [x Hx]; [lia|]. by rewrite Hx.
Qed.

Lemma twiddle_short short i j :
  (∀ i, i < log_k → row_filled short i) → i < log_k → j < 2 ^ i →
  twiddle short (2 ^ i + j) = twiddle long (jump * 2 ^ i + j).
Proof.
  intros Hr Hi Hj. pose proof (Nat.pow_nonzero 2 i). pose proof (Nat.pow_nonzero 2 (log_n - log_k)). unfold twiddle.
  assert (0 < jump * 2 ^ i)%nat by nia. rewrite !(proj2 (Nat.ltb_lt _ _)) by lia.
  replace (2 ^ i + j - 1)%nat with (2 ^ i - 1 + j)%nat by lia. rewrite (Hr i Hi j Hj). f_equal. lia.
Qed.

(** A subtree of the long transform is the transform with the short table. *)
Lemma tifft_short short k v i j :
  (∀ i, i < log_k → row_filled short i) → (i + k)%nat = log_k → j < 2 ^ i →
  tifft k v short (2 ^ i + j) = tifft k v long (jump * 2 ^ i + j).
Proof.
  intros Hr. revert v i j. induction k as [|k IH]; intros v i j Hk Hj; [done|]. cbn [tifft].
  assert (2 * (2 ^ i + j) = 2 ^ S i + 2 * j)%nat as -> by (rewrite pow_S; lia).
  assert (2 * (jump * 2 ^ i + j) = jump * 2 ^ S i + 2 * j)%nat as -> by (rewrite pow_S; lia).
  rewrite <-!Nat.add_assoc. rewrite !IH by (rewrite ?pow_S; lia). rewrite (twiddle_short short i j) by (done || lia). done.
Qed.
End short.

(** * The elements that bits write *)

Definition bits_step (bits : Z) (rp : E * E) (i : nat) : E * E :=
  let '(result, power) := rp in
  (if bit bits i then result + power else result, if (i <? 63)%nat then power * from_poly 2 else power).

Lemma from_bits_steps bits : from_bits bits = (foldl (bits_step bits) (zero, one) (seq 0 64)).1.
Proof. unfold from_bits. f_equal. Qed.

Lemma bits_steps_add a b l r r' p :
  (foldl (bits_step (Z.lxor a b)) (r + r', p) l).1 = (foldl (bits_step a) (r, p) l).1 + (foldl (bits_step b) (r', p) l).1.
Proof.
  revert r r' p. induction l as [|i l IH]; intros r r' p; [done|]. cbn [foldl bits_step]. rewrite <-IH. do 3 f_equal.
  rewrite !bit_testbit, Z.lxor_spec. destruct (Z.testbit a (Z.of_nat i)), (Z.testbit b (Z.of_nat i)); cbn [xorb]; try ring.
  transitivity (r + r' + (p + p)); [rewrite add_self; ring|ring].
Qed.

Lemma from_bits_lxor a b : from_bits (Z.lxor a b) = (from_bits a + from_bits b : E).
Proof.
  rewrite !from_bits_steps. generalize (seq 0 64). intros l. rewrite <-bits_steps_add.
  assert (zero + zero = zero) as -> by ring. reflexivity.
Qed.

Lemma element_0 : element 0 = zero.
Proof. transitivity (element 0 + element 0 : E); [apply (from_bits_lxor 0 0)|apply add_self]. Qed.

Lemma bits_steps_none bits l r p : (∀ i, i ∈ l → bit bits i = false) → (foldl (bits_step bits) (r, p) l).1 = r.
Proof.
  revert r p. induction l as [|i l IH]; intros r p Hb; [done|]. cbn [foldl bits_step]. rewrite (Hb i) by left.
  apply IH. intros j Hj. apply Hb. by right.
Qed.

Lemma seq_head n : seq 0 (S n) = 0 :: seq 1 n.
Proof. done. Qed.

Lemma bits_steps_1 l : (∀ i, i ∈ l → 1 ≤ i) → (foldl (bits_step 1) (zero, one) (0 :: l)).1 = one.
Proof.
  intros Hl. cbn [foldl bits_step]. rewrite bits_steps_none; [change (bit 1 0) with true; cbn iota; ring|].
  intros i Hi%Hl. rewrite bit_testbit. change 1%Z with (2 ^ 0)%Z. apply Z.pow2_bits_false. lia.
Qed.

Lemma element_1 : element 1 = one.
Proof.
  unfold element. rewrite from_bits_steps, (seq_head 63). apply bits_steps_1. intros i Hi%elem_of_seq. lia.
Qed.

(** No carries between a multiple of a power of two and what is below it. *)
Lemma element_add j k i : i < 2 ^ k → element (j * 2 ^ k + i) = (element (j * 2 ^ k) + element i : E).
Proof.
  intros Hi. assert (Z.of_nat i < 2 ^ Z.of_nat k)%Z as Hi' by (apply Nat2Z.inj_lt in Hi; by rewrite Nat2Z.inj_pow in Hi).
  unfold element. rewrite <-from_bits_lxor. f_equal. rewrite Nat2Z.inj_add. apply Z.add_nocarry_lxor.
  apply Z.bits_inj'. intros n Hn. rewrite Z.land_spec, Z.bits_0, Nat2Z.inj_mul, Nat2Z.inj_pow. change (Z.of_nat 2) with 2%Z.
  destruct (Z.lt_ge_cases n (Z.of_nat k)) as [Hk|Hk]; [by rewrite Z.mul_pow2_bits_low|].
  rewrite <-(Z.mod_small (Z.of_nat i) (2 ^ Z.of_nat k)), Z.mod_pow2_bits_high by lia. apply andb_false_r.
Qed.

#[local] Opaque element.

(** * The polynomials that vanish on a subspace *)

Definition vk (k : nat) : E := element (2 ^ k).

(** Zero on the elements below [2 ^ k]. *)
Fixpoint sub (k : nat) (x : E) : E := match k with O => x | S k => next_s (sub k x) (sub k (vk k)) end.

Lemma next_s_add a b c : next_s (a + b) c = next_s a c + next_s b c.
Proof.
  unfold next_s. transitivity (a * a + c * a + (b * b + c * b) + (a * b + a * b)); [ring|]. rewrite add_self. ring.
Qed.

Lemma sub_add k x y : sub k (x + y) = sub k x + sub k y.
Proof. induction k as [|k IH]; [done|]. cbn. by rewrite IH, next_s_add. Qed.

Lemma element_vk k r : r < 2 ^ k → element (2 ^ k + r) = vk k + element r.
Proof. intros Hr. pose proof (element_add 1 k r Hr) as Ea. by rewrite Nat.mul_1_l in Ea. Qed.

Lemma sub_below k r : r < 2 ^ k → sub k (element r) = zero.
Proof.
  revert r. induction k as [|k IH]; intros r Hr.
  - assert (r = 0) as -> by (cbn in Hr; lia). apply element_0.
  - cbn [sub]. unfold next_s. rewrite pow_S in Hr. destruct (decide (r < 2 ^ k)) as [Hlt|Hge].
    + rewrite IH by done. ring.
    + replace r with (2 ^ k + (r - 2 ^ k))%nat by lia. rewrite element_vk, sub_add, IH by lia.
      set (a := sub k (vk k)). transitivity (a * a + a * a); [ring|apply add_self].
Qed.

Lemma sub_zero k : sub k zero = zero.
Proof. rewrite <-element_0. apply sub_below. pose proof (Nat.pow_nonzero 2 k). lia. Qed.

Lemma sub_roots k y : sub k y = zero → ∃ r, r < 2 ^ k ∧ y = element r.
Proof.
  revert y. induction k as [|k IH]; intros y Hy; cbn in Hy.
  - exists 0. split; [cbn; lia|]. by rewrite element_0.
  - rewrite pow_S. assert (sub k y * (sub k y + sub k (vk k)) = zero) as Em by (rewrite <-Hy; unfold next_s; ring).
    destruct (decide (sub k y = zero)) as [Ez|Hne].
    + destruct (IH y Ez) as (r & Hr & ->). exists r. split; [lia|done].
    + apply mul_zero in Em; [|done]. rewrite <-sub_add in Em. destruct (IH _ Em) as (r & Hr & Er).
      exists (2 ^ k + r)%nat. split; [lia|]. rewrite element_vk, <-Er by done.
      transitivity (y + (vk k + vk k)); [rewrite add_self; ring|ring].
Qed.

Lemma sub_polynomial k : polynomial (S (2 ^ k)) (sub k).
Proof.
  induction k as [|k IH].
  - exists [zero; one]. split; [done|]. intros x. rewrite !ev_cons, ev_nil. cbn. ring.
  - assert (polynomial (S (2 ^ k)) (fun x => sub k x + sub k (vk k))) as Hp.
    { apply polynomial_add; [done|]. eapply polynomial_mono; [|apply polynomial_const]. lia. }
    destruct (polynomial_mul _ _ _ _ IH Hp) as (p & Hl & Ep). exists p. rewrite pow_S. split; [lia|]. intros x.
    rewrite <-Ep. cbn. unfold next_s. ring.
Qed.

(** Scaled to be one at the root. *)
Definition shat (k : nat) (x : E) : E := sub k x * default zero (finv (sub k (vk k))).

Lemma shat_add k x y : shat k (x + y) = shat k x + shat k y.
Proof. unfold shat. rewrite sub_add. ring. Qed.

Lemma shat_below k r : r < 2 ^ k → shat k (element r) = zero.
Proof. intros Hr. unfold shat. rewrite sub_below by done. ring. Qed.

Lemma shat_polynomial k : polynomial (S (2 ^ k)) (shat k).
Proof.
  destruct (polynomial_scale _ _ (default zero (finv (sub k (vk k)))) (sub_polynomial k)) as (p & Hl & Ep).
  exists p. split; [done|]. intros x. rewrite <-Ep. unfold shat. ring.
Qed.

(** * The basis of the transform *)

Fixpoint novel (k : nat) (c : list E) (x : E) : E :=
  match k with
  | O => default zero (head c)
  | S k => novel k (take (2 ^ k) c) x + shat k x * novel k (drop (2 ^ k) c) x
  end.

Lemma novel_polynomial k c : polynomial (2 ^ k) (novel k c).
Proof.
  revert c. induction k as [|k IH]; intros c; [apply polynomial_const|]. cbn [novel]. apply polynomial_add.
  - eapply polynomial_mono; [|apply IH]. rewrite pow_S. lia.
  - pose proof (Nat.pow_nonzero 2 k). pose proof (IH (drop (2 ^ k) c)) as Hn.
    replace (2 ^ k)%nat with (S (2 ^ k - 1)) in Hn at 1 by lia.
    eapply polynomial_mono; [|apply (polynomial_mul _ _ _ _ (shat_polynomial k) Hn)]. rewrite pow_S. lia.
Qed.

Lemma novel_combine k u w a x :
  length u = (2 ^ k)%nat → length w = (2 ^ k)%nat →
  novel k (zip_with (fun u w => u + a * w) u w) x = novel k u x + a * novel k w x.
Proof.
  revert u w. induction k as [|k IH]; intros u w Hu Hw.
  - destruct u as [|b [|? ?]]; [done| |done]. by destruct w as [|d [|? ?]].
  - cbn [novel]. rewrite zip_with_take, zip_with_drop. destruct (halves u k Hu), (halves w k Hw). rewrite !IH by done. ring.
Qed.

(** The factors of a subtree are right for the points from [base] on. *)
Fixpoint good (tw : list E) (k idx : nat) (base : E) : Prop :=
  match k with
  | O => True
  | S k => twiddle tw idx = Some (shat k base) ∧ good tw k (2 * idx) base ∧ good tw k (2 * idx + 1) (base + vk k)
  end.

Lemma map_seq_double {A} (f : nat → A) n : map f (seq 0 (2 * n)) = map f (seq 0 n) ++ map (fun i => f (n + i)%nat) (seq 0 n).
Proof.
  replace (2 * n)%nat with (n + n)%nat by lia. rewrite seq_app, map_app. f_equal. cbn [plus].
  rewrite <-(Nat.add_0_r n) at 1. by rewrite <-fmap_add_seq, map_map.
Qed.

Lemma upper_half (u w : list E) l :
  zip_with fadd w (zip_with (fun u w => u + l * w) u w) = zip_with (fun u w => u + (l + one) * w) u w.
Proof. revert w. induction u as [|a u IH]; intros [|b w]; try done. cbn [zip_with]. rewrite IH. f_equal. ring. Qed.

Section independent.
Context (L : nat).
Hypothesis independent : ∀ i j, i < 2 ^ L → j < 2 ^ L → (element i : E) = element j → i = j.

Lemma sub_root_nonzero k : k < L → sub k (vk k) ≠ zero.
Proof.
  intros Hk Hz. apply sub_roots in Hz as (r & Hr & Er).
  assert (2 ^ S k ≤ 2 ^ L) as Hp by (apply Nat.pow_le_mono_r; lia). rewrite pow_S in Hp.
  apply independent in Er; lia.
Qed.

Lemma root_inverse k : k < L → finv (sub k (vk k)) = Some (default zero (finv (sub k (vk k)))) ∧ shat k (vk k) = one.
Proof.
  intros Hk. destruct (inv_spec _ (sub_root_nonzero k Hk)) as (c & Ec & E1). unfold shat. by rewrite Ec.
Qed.

(** With the right factors the transform evaluates. *)
Lemma tfft_eval k v tw idx base :
  k ≤ L → length v = (2 ^ k)%nat → good tw k idx base →
  tfft k v tw idx = map (fun i => novel k v (base + element i)) (seq 0 (2 ^ k)).
Proof.
  revert v idx base. induction k as [|k IH]; intros v idx base Hk Hv Hg.
  - destruct v as [|a [|? ?]]; [done|done|done].
  - destruct Hg as (Et & Hg1 & Hg2). cbn [tfft]. rewrite Et. destruct (halves v k Hv) as [H1 H2].
    rewrite <-(take_drop (2 ^ k) v) at 1 2. rewrite fft_mul_app by congruence.
    set (u := take (2 ^ k) v) in *. set (w := drop (2 ^ k) v) in *. set (l := shat k base).
    rewrite take_app_length', drop_app_length' by (rewrite length_zip_with; lia).
    assert (length (zip_with (fun u w => u + l * w) u w) = (2 ^ k)%nat) as Hz by (rewrite length_zip_with; lia).
    rewrite (IH _ _ base), (IH _ _ (base + vk k)) by (done || lia || (rewrite length_zip_with; lia)).
    rewrite pow_S, map_seq_double. f_equal; apply map_ext_in; intros i [_ Hi]%in_seq; cbn [novel]; fold u w.
    + rewrite novel_combine by done. unfold l. rewrite shat_add, shat_below by lia. ring.
    + rewrite upper_half, novel_combine, element_vk by (done || lia).
      replace (base + (vk k + element i)) with (base + vk k + element i) by ring.
      rewrite !shat_add, shat_below by lia. rewrite (proj2 (root_inverse k ltac:(lia))). unfold l. ring.
Qed.

(** ** The table *)

(** The row of the subtrees of depth [k]. *)
Definition row_right (tw : list E) (beta : E) (k : nat) : Prop :=
  ∀ j, j < 2 ^ (L - k) → tw !! (2 ^ (L - k) - 1 + j)%nat = Some (shat (k - 1) (beta + element (j * 2 ^ k))).

Lemma rows_good tw beta k j :
  (∀ k, 1 ≤ k ≤ L → row_right tw beta k) → k ≤ L → j < 2 ^ (L - k) →
  good tw k (2 ^ (L - k) + j) (beta + element (j * 2 ^ k)).
Proof.
  intros Hr. revert j. induction k as [|k IH]; intros j Hk Hj; [done|]. cbn [good].
  assert (2 ^ (L - k) = 2 * 2 ^ (L - S k))%nat as Ep by (rewrite <-pow_S; f_equal; lia).
  pose proof (Nat.pow_nonzero 2 (L - S k)). split; [|split].
  - unfold twiddle. rewrite (proj2 (Nat.ltb_lt _ _)) by lia. pose proof (Hr (S k) ltac:(lia) j Hj) as Ht.
    replace (S k - 1)%nat with k in Ht by lia. rewrite <-Ht. f_equal. lia.
  - replace (2 * (2 ^ (L - S k) + j))%nat with (2 ^ (L - k) + 2 * j)%nat by lia.
    replace (j * 2 ^ S k)%nat with (2 * j * 2 ^ k)%nat by (rewrite pow_S; lia). apply IH; lia.
  - replace (2 * (2 ^ (L - S k) + j) + 1)%nat with (2 ^ (L - k) + (2 * j + 1))%nat by lia.
    replace (beta + element (j * 2 ^ S k) + vk k) with (beta + element ((2 * j + 1) * 2 ^ k)); [apply IH; lia|].
    replace ((2 * j + 1) * 2 ^ k)%nat with (j * 2 ^ S k + 2 ^ k)%nat by (rewrite pow_S; lia).
    rewrite element_add by (rewrite pow_S; pose proof (Nat.pow_nonzero 2 k); lia). unfold vk. ring.
Qed.

(** What the loop of [compute_twiddles] has done when the rows up to depth [S t] are written. *)
Record reached (beta : E) (t : nat) (st : Twiddling) : Prop := {
  reached_write : write_at st = (2 ^ (L - S t))%nat;
  reached_length : length (layer st) = (2 ^ (L - 1))%nat;
  reached_layer i : i < 2 ^ (L - S t) → layer st !! i = Some (sub t (beta + element (i * 2 ^ S t)));
  reached_root : s_prev_at_root st = sub t (vk t);
  reached_table : length (factors st) = (2 ^ L - 1)%nat;
  reached_rows k : 1 ≤ k ≤ S t → row_right (factors st) beta k;
}.

Lemma update_layer_spec (l : list E) len c :
  (2 * len ≤ length l)%nat →
  length (update_layer l len c) = length l ∧
  ∀ i, i < len → update_layer l len c !! i = Some (next_s (default zero (l !! (2 * i)%nat)) c).
Proof.
  intros Hl. unfold update_layer. set (f := fun layer idx => _).
  assert (∀ m, m ≤ len → length (foldl f l (seq 0 m)) = length l ∧
    ∀ i, foldl f l (seq 0 m) !! i = if (i <? m)%nat then Some (next_s (default zero (l !! (2 * i)%nat)) c) else l !! i) as Hm.
  { induction m as [|m IH]; intros Hm; [split; [done|]; intros i; done|]. destruct IH as [Lm IH]; [lia|].
    rewrite seq_S, foldl_app. cbn [foldl plus]. unfold f at 1 3.
    rewrite (proj2 (Nat.ltb_lt _ _)) by lia. split; [by rewrite length_insert|]. intros i.
    assert (foldl f l (seq 0 m) !! (m * 2)%nat = l !! (2 * m)%nat) as ->.
    { rewrite IH, (proj2 (Nat.ltb_ge _ _)) by lia. f_equal. lia. }
    destruct (decide (i = m)) as [->|Hne].
    - rewrite list_lookup_insert_eq by lia. by rewrite (proj2 (Nat.ltb_lt _ _)) by lia.
    - rewrite list_lookup_insert_ne, IH by done. destruct (Nat.ltb_spec i m), (Nat.ltb_spec i (S m)); done || lia. }
  destruct (Hm len (le_n _)) as [Ll Hlen]. split; [done|]. intros i Hi. by rewrite Hlen, (proj2 (Nat.ltb_lt _ _)).
Qed.

Lemma store_layer_spec (tw l : list E) start len c :
  (start + len ≤ length tw)%nat → len ≤ length l →
  length (store_layer tw l start len c) = length tw ∧
  ∀ k, store_layer tw l start len c !! k = if between start len k then Some (c * default zero (l !! (k - start)%nat)) else tw !! k.
Proof.
  intros Hs Hl. apply (foldl_fill _ (fun i => c * default zero (l !! i))); [|done]. intros l' i Hl' Hi.
  by rewrite (proj2 (Nat.ltb_lt _ _)), (proj2 (Nat.ltb_lt _ _)) by lia.
Qed.

Lemma layer_at_root_spec beta t st :
  S t < L → reached beta t st → layer_at_root (layer st) (s_prev_at_root st) = sub (S t) (vk (S t)).
Proof.
  intros Ht R. assert (2 ≤ 2 ^ (L - S t)) as Hn.
  { replace (L - S t)%nat with (S (L - S t - 1)) by lia. rewrite pow_S. pose proof (Nat.pow_nonzero 2 (L - S t - 1)). lia. }
  pose proof (reached_layer _ _ _ R 0 ltac:(lia)) as E0. pose proof (reached_layer _ _ _ R 1 ltac:(lia)) as E1.
  destruct (layer st) as [|a [|b l]]; [done|done|]. change (Some a = Some (sub t (beta + element (0 * 2 ^ S t)))) in E0.
  change (Some b = Some (sub t (beta + element (1 * 2 ^ S t)))) in E1. apply (inj Some) in E0, E1. subst a b. cbn [layer_at_root].
  rewrite (reached_root _ _ _ R), Nat.mul_0_l, Nat.mul_1_l, element_0, <-sub_add. cbn [sub]. f_equal. f_equal.
  unfold vk. set (e := element _). transitivity (e + (beta + beta)); [ring|]. rewrite add_self. ring.
Qed.

Lemma twiddle_step beta t st count :
  S t < L → reached beta t st →
  ∃ st', twiddle_layers (S count) st = twiddle_layers count st' ∧ reached beta (S t) st'.
Proof.
  intros Ht R. cbn [twiddle_layers]. rewrite (layer_at_root_spec beta t st Ht R).
  rewrite bool_decide_false by (by apply sub_root_nonzero). destruct (root_inverse (S t) Ht) as [-> _].
  set (c := default zero (finv (sub (S t) (vk (S t))))).
  assert (2 ^ (L - S t) = 2 * 2 ^ (L - S (S t)))%nat as Ep by (rewrite <-pow_S; f_equal; lia).
  assert (write_at st / 2 = 2 ^ (L - S (S t)))%nat as ->.
  { rewrite (reached_write _ _ _ R), Ep, Nat.mul_comm. by apply Nat.div_mul. }
  set (n := (2 ^ (L - S (S t)))%nat) in *. pose proof (Nat.pow_nonzero 2 (L - S (S t))) as Hn. fold n in Hn.
  assert (2 * n ≤ 2 ^ (L - 1)) as Hle by (rewrite <-Ep; apply Nat.pow_le_mono_r; lia).
  assert (2 ^ L = 2 * 2 ^ (L - 1))%nat as EL by (rewrite <-pow_S; f_equal; lia).
  destruct (update_layer_spec (layer st) n (s_prev_at_root st)) as [Ll Hul]; [by rewrite (reached_length _ _ _ R)|].
  set (l' := update_layer (layer st) n (s_prev_at_root st)) in *. rewrite (reached_length _ _ _ R) in Ll.
  destruct (store_layer_spec (factors st) l' (n - 1) n c) as [Lf Hf]; [rewrite (reached_table _ _ _ R); lia|lia|].
  assert (∀ i, i < n → l' !! i = Some (sub (S t) (beta + element (i * 2 ^ S (S t))))) as Hl'.
  { intros i Hi. rewrite Hul by done. rewrite (reached_layer _ _ _ R) by lia. cbn [default from_option id sub].
    rewrite (reached_root _ _ _ R). do 3 f_equal. f_equal. rewrite (pow_S (S t)). f_equal. lia. }
  eexists. split; [done|]. split; cbn [write_at layer s_prev_at_root factors]; try done.
  - by rewrite Lf, (reached_table _ _ _ R).
  - intros k Hk j Hj. rewrite Hf. destruct (decide (k = S (S t))) as [->|Hne].
    + fold n in Hj |- *. unfold between. rewrite (proj2 (Nat.leb_le _ _)), (proj2 (Nat.ltb_lt _ _)) by lia. cbn [andb].
      replace (n - 1 + j - (n - 1))%nat with j by lia. rewrite Hl' by done. cbn [default from_option id].
      replace (S (S t) - 1)%nat with (S t) by lia. f_equal. unfold shat. fold c. ring.
    + assert (2 ^ (L - S t) ≤ 2 ^ (L - k)) as Hp by (apply Nat.pow_le_mono_r; lia).
      unfold between. rewrite (proj2 (Nat.leb_le _ _)), (proj2 (Nat.ltb_ge _ _)) by lia. cbn [andb].
      apply (reached_rows _ _ _ R); [lia|done].
Qed.

Lemma twiddles_reached beta count t st :
  (t + count + 1)%nat = L → reached beta t st →
  ∃ tw, twiddle_layers count st = Some tw ∧ length tw = (2 ^ L - 1)%nat ∧ ∀ k, 1 ≤ k ≤ L → row_right tw beta k.
Proof.
  revert t st. induction count as [|count IH]; intros t st Hc R.
  - exists (factors st). split; [done|]. split; [apply (reached_table _ _ _ R)|]. intros k Hk. apply (reached_rows _ _ _ R). lia.
  - destruct (twiddle_step beta t st count) as (st' & -> & R'); [lia|done|]. apply (IH (S t)); [lia|done].
Qed.

Lemma shat_0 x : 1 ≤ L → shat 0 x = x.
Proof.
  intros HL. destruct (root_inverse 0) as [_ E1]; [lia|]. unfold shat in *. cbn [sub] in *.
  assert (vk 0 = one) as Ev by apply element_1. rewrite Ev in *. set (c := default zero (finv one)) in *.
  transitivity (x * (one * c)); [ring|]. rewrite E1. ring.
Qed.

(** The table of the twiddle factors is right. *)
Lemma compute_twiddles_spec beta :
  1 ≤ L → ∃ tw, compute_twiddles L beta = Some tw ∧ length tw = (2 ^ L - 1)%nat ∧ ∀ k, 1 ≤ k ≤ L → row_right tw beta k.
Proof.
  intros HL. unfold compute_twiddles. rewrite (proj2 (Nat.eqb_neq L 0)) by lia.
  assert (2 ^ L = 2 * 2 ^ (L - 1))%nat as EL by (rewrite <-pow_S; f_equal; lia). pose proof (Nat.pow_nonzero 2 (L - 1)) as Hn.
  assert (2 ^ L / 2 = 2 ^ (L - 1))%nat as -> by (rewrite EL, Nat.mul_comm; by apply Nat.div_mul).
  set (l := map (fun i => beta + element (2 * i)) (seq 0 (2 ^ (L - 1)))).
  assert (length l = (2 ^ (L - 1))%nat) as Hl by (unfold l; by rewrite length_map, length_seq).
  rewrite take_ge by lia. apply (twiddles_reached beta (L - 1) 0); [lia|].
  assert (∀ i, i < 2 ^ (L - 1) → l !! i = Some (beta + element (i * 2))) as Hli.
  { intros i Hi. unfold l. rewrite list_lookup_fmap, lookup_seq_lt by done. cbn. do 2 f_equal. f_equal. lia. }
  split; cbn [write_at layer s_prev_at_root factors]; try done.
  - symmetry. apply element_1.
  - rewrite length_inserts, length_replicate. done.
  - intros k Hk j Hj. assert (k = 1) as -> by lia. rewrite list_lookup_inserts by (rewrite ?length_replicate; lia).
    replace (2 ^ (L - 1) - 1 + j - (2 ^ (L - 1) - 1))%nat with j by lia. rewrite Hli by done. cbn [Nat.sub Nat.pow Nat.mul Nat.add].
    by rewrite shat_0.
Qed.

(** ** The values at the roots, and the parameters *)

Lemma eval_sks_spec t count :
  eval_sks count (map (fun i => sub t (vk i)) (seq (S t) count)) (sub t (vk t)) = map (fun i => sub i (vk i)) (seq (S t) count).
Proof.
  revert t. induction count as [|count IH]; intros t; [done|]. cbn [eval_sks seq map]. f_equal.
  rewrite map_map. change (fadd (fmul (sub t (vk (S t))) (sub t (vk (S t)))) (fmul (sub t (vk t)) (sub t (vk (S t)))))
    with (sub (S t) (vk (S t))). by rewrite <-IH.
Qed.

Lemma eval_sk_at_vks_spec K : eval_sk_at_vks (2 ^ K) = Some (map (fun i => sub i (vk i)) (seq 0 (S K))).
Proof.
  unfold eval_sk_at_vks. rewrite is_power_spec, Nat.log2_pow2 by lia. cbn [negb seq map sub]. do 2 f_equal.
  - symmetry. apply element_1.
  - rewrite <-(eval_sks_spec 0). f_equal. symmetry. apply element_1.
Qed.

Lemma compute_pis_some K sks : length sks = S K → ∃ pis, compute_pis (2 ^ K) sks = Some pis ∧ length pis = (2 ^ K)%nat.
Proof.
  intros Hl. unfold compute_pis. set (step := fun pis sk_vk => _).
  assert (∀ l pis k, length pis = (2 ^ k)%nat → length (foldl step pis l) = (2 ^ (k + length l))%nat) as Hf.
  { induction l as [|a l IH]; intros ps k Hp; cbn [foldl length]; [by rewrite Nat.add_0_r|].
    replace (k + S (length l))%nat with (S k + length l)%nat by lia. apply IH. unfold step.
    rewrite length_app, length_map, Hp, pow_S. lia. }
  specialize (Hf (take (length sks - 1) sks) [one] 0 eq_refl).
  assert (length (take (length sks - 1) sks) = K) as Lt by (rewrite length_take; lia). rewrite Lt in Hf. cbn [plus] in Hf.
  rewrite Hf, Nat.leb_refl. eexists. split; [done|]. rewrite length_app, length_replicate, Hf. lia.
Qed.

Lemma reed_solomon_spec K :
  K < L → ∃ rs, reed_solomon (2 ^ K) (2 ^ L) = Some rs ∧ log_message_length rs = K ∧ log_block_length rs = L ∧
    length (twiddles rs) = (2 ^ L - 1)%nat ∧ ∀ k, 1 ≤ k ≤ L → row_right (twiddles rs) zero k.
Proof.
  intros HK. destruct (compute_twiddles_spec zero) as (tw & Et & Lt & Hr); [lia|].
  destruct (compute_pis_some K (map (fun i => sub i (vk i)) (seq 0 (S K)))) as (ps & Eps & _); [by rewrite length_map, length_seq|].
  unfold reed_solomon. rewrite !is_power_spec. cbn [negb].
  rewrite (proj2 (Nat.ltb_lt _ _)) by (by apply Nat.pow_lt_mono_r; lia). cbn [negb].
  rewrite !Nat.log2_pow2, Et, eval_sk_at_vks_spec, Eps by lia. eexists. split; [done|]. done.
Qed.

(** ** Encoding *)

Lemma novel_zeros k n x : novel k (replicate n zero) x = zero.
Proof.
  revert n. induction k as [|k IH]; intros n; [by destruct n|]. cbn [novel].
  rewrite take_replicate, drop_replicate, !IH. ring.
Qed.

Lemma novel_padded k d c x : length c = (2 ^ k)%nat → novel (k + d) (c ++ replicate (2 ^ (k + d) - 2 ^ k) zero) x = novel k c x.
Proof.
  intros Hc. induction d as [|d IH].
  - rewrite Nat.add_0_r, Nat.sub_diag, app_nil_r. done.
  - rewrite Nat.add_succ_r. cbn [novel]. assert (2 ^ k ≤ 2 ^ (k + d)) as Hp by (apply Nat.pow_le_mono_r; lia).
    rewrite take_app, drop_app, Hc, take_ge, drop_ge by lia. rewrite take_replicate, drop_replicate. cbn [app].
    rewrite novel_zeros. rewrite pow_S. replace (_ `min` _)%nat with (2 ^ (k + d) - 2 ^ k)%nat by lia. rewrite IH. ring.
Qed.

Lemma short_one (long : list E) : 1 ≤ L → length long = (2 ^ L - 1)%nat → short_from_long_twiddles long L 0 = Some [].
Proof.
  intros HL Hl. pose proof (Nat.pow_nonzero 2 L). unfold short_from_long_twiddles.
  rewrite Nat.sub_0_r, Hl, (proj2 (Nat.leb_gt _ _)) by lia. by rewrite andb_false_r.
Qed.

(** The coefficients that the inverse transform with the short table finds. *)
Lemma short_coefficients K long message :
  K < L → length long = (2 ^ L - 1)%nat →
  ∃ short, short_from_long_twiddles long L K = Some short ∧
    tifft K message short 1 = tifft K message long (2 ^ (L - K)).
Proof.
  intros HK Hl. destruct K as [|K].
  - exists []. split; [apply short_one; [lia|done]|done].
  - destruct (short_spec long L (S K) Hl) as (short & Es & _ & Hs); [lia|]. exists short. split; [done|].
    pose proof (tifft_short long L (S K) Hl ltac:(lia) short (S K) message 0 0 Hs eq_refl) as S. cbn [Nat.pow Nat.add] in S.
    rewrite Nat.mul_1_r, Nat.add_0_r in S. apply S. lia.
Qed.

(** The code words are the values of the polynomials with few coefficients. *)
Lemma encoded K rs message :
  K < L → reed_solomon (2 ^ K) (2 ^ L) = Some rs → length message = (2 ^ K)%nat →
  ∃ codeword p, encode rs message = Some codeword ∧ length p ≤ 2 ^ K ∧
    codeword = map (fun i => ev p (element i)) (seq 0 (2 ^ L)) ∧ take (2 ^ K) codeword = message.
Proof.
  intros HK Ers Hm. destruct (reed_solomon_spec K HK) as (rs' & Ers' & HlK & HlL & Lt & Hr).
  rewrite Ers in Ers'. injection Ers' as <-.
  assert (2 ^ K < 2 ^ L) as Hp by (apply Nat.pow_lt_mono_r; lia).
  unfold encode, encode_in_place, message_length, block_length. rewrite HlK, HlL, Hm.
  rewrite (proj2 (Nat.ltb_ge _ _)) by lia.
  destruct (short_coefficients K (twiddles rs) message) as (short & -> & Ec); [done|done|].
  rewrite length_app, length_replicate, Hm. rewrite (proj2 (Nat.ltb_ge _ _)) by lia.
  rewrite take_app_length', drop_app_length' by done. rewrite (ifft_spec K) by done.
  set (c := tifft K message short 1). assert (length c = (2 ^ K)%nat) as Hc by (by apply length_tifft).
  assert (length (c ++ replicate (2 ^ L - 2 ^ K) zero) = (2 ^ L)%nat) as Hcz by (rewrite length_app, length_replicate; lia).
  rewrite (fft_spec L) by done.
  assert (∀ k, k ≤ L → good (twiddles rs) k (2 ^ (L - k)) zero) as Hg.
  { intros k Hk. pose proof (rows_good (twiddles rs) zero k 0 Hr Hk) as G. rewrite Nat.add_0_r, Nat.mul_0_l, element_0 in G.
    replace (zero + zero) with zero in G by ring. apply G. pose proof (Nat.pow_nonzero 2 (L - k)). lia. }
  pose proof (Hg L (le_n _)) as Hg1. rewrite Nat.sub_diag in Hg1. rewrite (tfft_eval L _ _ _ zero) by done.
  destruct (novel_polynomial K c) as (p & Lp & Ep).
  assert (∀ i, novel L (c ++ replicate (2 ^ L - 2 ^ K) zero) (zero + element i) = ev p (element i)) as Ei.
  { intros i. rewrite <-Ep. replace (zero + element i) with (element i : E) by ring.
    pose proof (novel_padded K (L - K) c (element i) Hc) as En. by replace (K + (L - K))%nat with L in En by lia. }
  eexists _, p. split; [done|]. split; [done|]. split; [by apply map_ext|].
  rewrite <-(tifft_undone K message (twiddles rs) (2 ^ (L - K)) Hm), <-Ec. fold c.
  rewrite (tfft_eval K _ _ _ zero) by (done || lia || (apply Hg; lia)).
  assert (seq 0 (2 ^ L) = seq 0 (2 ^ K) ++ seq (2 ^ K) (2 ^ L - 2 ^ K)) as Eseq.
  { transitivity (seq 0 (2 ^ K + (2 ^ L - 2 ^ K))); [f_equal; lia|apply seq_app]. }
  rewrite Eseq, map_app, take_app_length' by (by rewrite length_map, length_seq). apply map_ext. intros i. rewrite Ei, <-Ep. f_equal. ring.
Qed.

(** C19.  The encoder is that of a Reed-Solomon code: with 2^K < 2^L and as many distinct elements
    as symbols, the code is set up and every message is encoded, its code word starts with the message and
    consists of the values of one polynomial of at most 2^K coefficients, and the code words
    of two messages agree at fewer than 2^K places. *)
Theorem encoding_is_reed_solomon K :
  K < L → ∃ rs, reed_solomon (2 ^ K) (2 ^ L) = Some rs ∧ ∀ message, length message = (2 ^ K)%nat →
  ∃ codeword p, encode rs message = Some codeword ∧ take (2 ^ K) codeword = message ∧ length p ≤ 2 ^ K ∧
    codeword = map (fun i => ev p (element i)) (seq 0 (2 ^ L)) ∧
    ∀ message' codeword' places, length message' = (2 ^ K)%nat → encode rs message' = Some codeword' → message' ≠ message →
      NoDup places → (∀ i, i ∈ places → i < 2 ^ L ∧ codeword !! i = codeword' !! i) → length places < 2 ^ K.
Proof.
  intros HK. destruct (reed_solomon_spec K HK) as (rs & Ers & _). exists rs. split; [exact Ers|]. intros message Hm.
  destruct (encoded K rs message HK Ers Hm) as (cw & p & Ecw & Hp & Ev & Et).
  exists cw, p. split_and!; try done. intros message' cw' places Hm' Ecw' Hne Hd Hpl.
  destruct (encoded K rs message' HK Ers Hm') as (cw2 & p' & E2 & Hp' & Ev' & Et'). rewrite Ecw' in E2. injection E2 as <-.
  destruct (Nat.lt_ge_cases (length places) (2 ^ K)) as [|Hge]; [done|]. destruct Hne.
  rewrite <-Et, <-Et', Ev, Ev'. f_equal. apply map_ext. intros i. symmetry.
  apply (polynomial_eq (map element places) (ev p) (ev p')).
  - apply NoDup_fmap_2_strong; [|done]. intros a b Ha Hb Eab.
    apply independent; [apply (Hpl a Ha)|apply (Hpl b Hb)|exact Eab].
  - exists p. rewrite length_map. split; [lia|done].
  - exists p'. rewrite length_map. split; [lia|done].
  - intros x (j & -> & Hj)%list_elem_of_fmap. destruct (Hpl j Hj) as [Hlt Eq]. rewrite Ev, Ev' in Eq.
    rewrite !list_lookup_fmap, lookup_seq_lt in Eq by done. by injection Eq.
Qed.
End independent.

(** The transforms undo each other, whatever the table. *)
Lemma transform_roundtrip k v tw :
  length v = (2 ^ k)%nat → (fft v tw ≫= fun u => ifft u tw) = Some v ∧ (ifft v tw ≫= fun u => fft u tw) = Some v.
Proof.
  intros Hv. rewrite (fft_spec k), (ifft_spec k) by done. cbn.
  rewrite (ifft_spec k), (fft_spec k) by (by apply length_tfft || by apply length_tifft).
  by rewrite tfft_undone, tifft_undone.
Qed.

End code.

(** * The fields of [binary-fields] *)

Section words.
Context (w : nat) (mul : Z → Z → Z) (inv : Z → option Z) (pow : Z → Z → Z).
#[local] Abbreviation elems := (elem w).
#[local] Instance field_of : BinaryFieldElement elems := trait_of w mul inv pow.

Hypothesis doubles : ∀ i, S i < w → mul (2 ^ Z.of_nat i)%Z 2%Z = (2 ^ Z.of_nat (S i))%Z.
Hypothesis wide : 2 ≤ w.

Lemma pow_fits i n : i < n → fits (Z.of_nat n) (2 ^ Z.of_nat i).
Proof. intros Hi. split; [lia|]. apply Z.pow_lt_mono_r; lia. Qed.

Lemma mod_succ bits k :
  (bits mod 2 ^ Z.of_nat (S k))%Z =
  (if bit bits k then Z.lxor (bits mod 2 ^ Z.of_nat k) (2 ^ Z.of_nat k) else bits mod 2 ^ Z.of_nat k)%Z.
Proof.
  rewrite bit_testbit. apply Z.bits_inj'. intros n Hn.
  assert (Z.testbit (if Z.testbit bits (Z.of_nat k) then Z.lxor (bits mod 2 ^ Z.of_nat k) (2 ^ Z.of_nat k) else bits mod 2 ^ Z.of_nat k) n =
    if (n =? Z.of_nat k)%Z then Z.testbit bits n else Z.testbit (bits mod 2 ^ Z.of_nat k) n) as ->.
  { destruct (Z.eqb_spec n (Z.of_nat k)) as [->|Hne].
    - destruct (Z.testbit bits (Z.of_nat k)); [|by rewrite Z.mod_pow2_bits_high by lia].
      by rewrite Z.lxor_spec, Z.mod_pow2_bits_high, Z.pow2_bits_true by lia.
    - destruct (Z.testbit bits (Z.of_nat k)); [|done]. rewrite Z.lxor_spec, (Z.pow2_bits_false (Z.of_nat k)) by lia.
      by rewrite xorb_false_r. }
  destruct (Z.eqb_spec n (Z.of_nat k)) as [->|Hne]; [rewrite Z.mod_pow2_bits_low by lia; done|].
  destruct (Z.lt_ge_cases n (Z.of_nat k)); [rewrite !Z.mod_pow2_bits_low by lia; done|].
  by rewrite !Z.mod_pow2_bits_high by lia.
Qed.

Lemma steps_value bits k :
  k ≤ w → k ≤ 64 →
  let rp := foldl (bits_step bits) (fzero : elems, fone : elems) (seq 0 k) in
  value rp.1 = (bits mod 2 ^ Z.of_nat k)%Z ∧ (k < w → k ≤ 63 → value rp.2 = (2 ^ Z.of_nat k)%Z).
Proof.
  induction k as [|k IH]; intros Hw H64 rp.
  - cbn in rp. subst rp. cbn [fst snd]. split; [by rewrite Z.mod_1_r|]. intros _ _. apply (wrap_small (Z.of_nat w)). apply (pow_fits 0 w). lia.
  - destruct IH as [IHr IHp]; [lia|lia|]. specialize (IHp ltac:(lia) ltac:(lia)).
    subst rp. rewrite seq_S, foldl_app. cbn [foldl plus].
    destruct (foldl (bits_step bits) (fzero : elems, fone : elems) (seq 0 k)) as [r p]. cbn [fst snd] in IHr, IHp.
    cbn [bits_step fst snd]. split.
    + rewrite mod_succ. destruct (bit bits k); [|done]. cbn [fadd field_of trait_of]. rewrite IHr, IHp. apply value_elem_of.
      unfold poly_add. pose proof (mod_succ bits k) as Em. apply lxor_lt; [|by apply pow_fits].
      assert (0 ≤ bits mod 2 ^ Z.of_nat k < 2 ^ Z.of_nat k)%Z as Hb by (apply Z.mod_pos_bound; lia).
      assert (2 ^ Z.of_nat k ≤ 2 ^ Z.of_nat w)%Z by (apply Z.pow_le_mono_r; lia). unfold fits. lia.
    + intros Hk H63. rewrite (proj2 (Nat.ltb_lt k 63)) by lia. cbn [fmul field_of trait_of from_poly]. rewrite IHp.
      rewrite (value_elem_of w 2) by (apply (pow_fits 1); lia). rewrite doubles by done. apply value_elem_of. by apply pow_fits.
Qed.

(** An index is the word of its element. *)
Lemma element_value i : (Z.of_nat i < 2 ^ Z.of_nat (Nat.min w 64))%Z → value (element i : elems) = Z.of_nat i.
Proof.
  intros Hi. unfold element. rewrite from_bits_steps.
  assert (seq 0 64 = seq 0 (Nat.min w 64) ++ seq (Nat.min w 64) (64 - Nat.min w 64)) as ->.
  { transitivity (seq 0 (Nat.min w 64 + (64 - Nat.min w 64))); [f_equal; lia|apply seq_app]. }
  rewrite foldl_app. destruct (steps_value (Z.of_nat i) (Nat.min w 64)) as [Er _]; [lia|lia|].
  destruct (foldl _ _ (seq 0 (Nat.min w 64))) as [r p]. rewrite bits_steps_none.
  - cbn [fst] in Er. rewrite Er. apply Z.mod_small. lia.
  - intros j Hj%elem_of_seq. rewrite bit_testbit.
    rewrite <-(Z.mod_small (Z.of_nat i) (2 ^ Z.of_nat (Nat.min w 64))) by lia. apply Z.mod_pow2_bits_high. lia.
Qed.

Lemma elements_distinct L i j : L ≤ w → L ≤ 64 → i < 2 ^ L → j < 2 ^ L → (element i : elems) = element j → i = j.
Proof.
  intros Hw H64 Hi Hj E. apply (f_equal value) in E.
  assert (∀ x, x < 2 ^ L → (Z.of_nat x < 2 ^ Z.of_nat (Nat.min w 64))%Z) as Hx.
  { intros x Hx. apply Nat2Z.inj_lt in Hx. rewrite Nat2Z.inj_pow in Hx. change (Z.of_nat 2) with 2%Z in Hx.
    eapply Z.lt_le_trans; [exact Hx|]. apply Z.pow_le_mono_r; lia. }
  rewrite !element_value in E by auto. lia.
Qed.
End words.

(** Doubling is a shift, up to the last bit. *)
Definition doubles_b (w : nat) (mul : Z → Z → Z) : bool :=
  forallb (fun i => mul (2 ^ Z.of_nat i) 2 =? 2 ^ Z.of_nat (S i))%Z (seq 0 (w - 1)).

Lemma doubles_check w mul : doubles_b w mul = true → ∀ i, S i < w → mul (2 ^ Z.of_nat i)%Z 2%Z = (2 ^ Z.of_nat (S i))%Z.
Proof.
  intros Hc i Hi. unfold doubles_b in Hc. rewrite forallb_forall in Hc. apply Z.eqb_eq, (Hc i), in_seq. lia.
Qed.

Lemma elements16_distinct L i j : L ≤ 16 → i < 2 ^ L → j < 2 ^ L → (element i : BinaryElem16) = element j → i = j.
Proof.
  intros HL. apply (elements_distinct 16 elem16_mul elem16_inv (elem_pow elem16_mul)); [|lia|lia|lia].
  apply doubles_check. vm_compute. reflexivity.
Qed.

Lemma elements32_distinct L i j : L ≤ 32 → i < 2 ^ L → j < 2 ^ L → (element i : BinaryElem32) = element j → i = j.
Proof.
  intros HL. apply (elements_distinct 32 elem32_mul elem32_inv (elem_pow elem32_mul)); [|lia|lia|lia].
  apply doubles_check. vm_compute. reflexivity.
Qed.

Lemma elements128_distinct L i j : L ≤ 64 → i < 2 ^ L → j < 2 ^ L → (element i : BinaryElem128) = element j → i = j.
Proof.
  intros HL. apply (elements_distinct 128 elem128_mul elem128_inv (elem_pow elem128_mul)); [|lia|lia|lia].
  apply doubles_check. vm_compute. reflexivity.
Qed.

(** A code of four symbols on sixteen, as in the tests of the crate. *)
Definition demo_message : list BinaryElem16 := map from_poly [1; 2; 3; 4]%Z.

Lemma encoding_is_reed_solomon_witness :
  ∃ rs codeword p, reed_solomon 4 16 = Some rs ∧ encode rs demo_message = Some codeword ∧ take 4 codeword = demo_message ∧
    length p ≤ 4 ∧ codeword = map (fun i => evaluate_polynomial p (element i)) (seq 0 16).
Proof.
  destruct (encoding_is_reed_solomon (E := BinaryElem16) 4 (fun i j => elements16_distinct 4 i j ltac:(lia)) 2 ltac:(lia))
    as (rs & Ers & Henc).
  destruct (Henc demo_message eq_refl) as (cw & p & E1 & E2 & E3 & E4 & _).
  exists rs, cw, p. split; [exact Ers|]. split; [exact E1|]. split; [exact E2|]. split; [exact E3|exact E4].
Defined.
