(* ===== verification/Pallet.v ===== *)
(** What the pallets of [crates/zanchor] take from Substrate: origins, balances, hashes and
    bounded vectors.

    A call is a function from the state of the chain to a [result]: the framework runs every
    call in a transaction of storage, so one that fails leaves everything as it was.  The
    runtime is built without overflow checks, so unchecked arithmetic wraps. *)
From stdpp Require Import base list gmap.
From Stdlib Require Import ZArith Lia.
From S2P Require Import Prelude Bytes.

Local Open Scope Z_scope.

Notation "'ensure!' c 'else' e ';;' k" := (if c then k else Err e)
  (at level 10, c at level 200, e at level 0, k at level 200) : rust_scope.

Inductive Origin := Signed (who : Z) | Root.

(** Cuts a call that succeeded into the branches on which it does. *)
Ltac branches H :=
  repeat (cbn zeta in H;
    match type of H with
    | Ok _ = Ok _ => injection H as H
    | Err _ = Ok _ => discriminate H
    | (match ?x with _ => _ end) = Ok _ => destruct x eqn:?; try discriminate H
    | (if ?b then _ else _) = Ok _ => destruct b eqn:?; try discriminate H
    end).

(** [T::Currency]: what an account has reserved. *)
Class Currency := {
  Bank : Type;
  reserve : Bank → Z → Z → option Bank;
  unreserve : Bank → Z → Z → Bank;
  reserved : Bank → Z → Z;
}.

(** A reserve that succeeds sets the amount aside; an unreserve gives back the amount or what
    there is of it. *)
Class CurrencyLaws `{Currency} := {
  reserved_nonneg b a : 0 ≤ reserved b a;
  reserve_spec b who x b' :
    0 ≤ x → reserve b who x = Some b' →
    ∀ a, reserved b' a = reserved b a + (if a =? who then x else 0);
  unreserve_spec b who x :
    0 ≤ x → ∀ a, reserved (unreserve b who x) a = reserved b a - (if a =? who then Z.min x (reserved b who) else 0);
}.

(** The hash of the runtime that is not SHA-256, the encoding of an account, and the order in
    which a map of storage is walked. *)
Class Runtime := {
  blake2_256 : bytes → Z;
  encode_account : Z → bytes;
  walk_order : list Z → list Z;
}.

Class RuntimeLaws `{Runtime} := {
  walk_perm l : walk_order l ≡ₚ l;
}.

(** [block_number().try_into().unwrap_or(0)] *)
Definition to_u32 (n : Z) : Z := if n <? 2 ^ 32 then n else 0.

(** [BoundedVec::try_push] *)
Definition try_push {A} (bound : nat) (x : A) (l : list A) : option (list A) :=
  if (length l <? bound)%nat then Some (l ++ [x]) else None.

Lemma try_push_Some {A} n (x : A) l l' : try_push n x l = Some l' ↔ l' = l ++ [x] ∧ (length l < n)%nat.
Proof. unfold try_push. destruct (Nat.ltb_spec (length l) n); naive_solver lia. Qed.

(** * A bank *)

(** The free and the reserved balance of an account, as the balances pallet keeps them. *)
Definition account (b : gmap Z (Z * Z)) (who : Z) : Z * Z :=
  let x := default (0, 0) (b !! who) in (x.1, Z.max 0 x.2).

#[export] Instance balances : Currency := {|
  Bank := gmap Z (Z * Z);
  reserve b who x :=
    if (account b who).1 <? x then None
    else Some (<[who := ((account b who).1 - x, (account b who).2 + x)]> b);
  unreserve b who x :=
    let y := Z.min x (account b who).2 in <[who := ((account b who).1 + y, (account b who).2 - y)]> b;
  reserved b who := (account b who).2;
|}.

#[global] Arguments account : simpl never.

Lemma account_insert b who x a : account (<[who := x]> b) a = if a =? who then (x.1, Z.max 0 x.2) else account b a.
Proof.
  unfold account. destruct (Z.eqb_spec a who) as [->|]; [by rewrite lookup_insert_eq|by rewrite lookup_insert_ne].
Qed.

Lemma account_held b a : 0 ≤ (account b a).2.
Proof. unfold account. cbn. lia. Qed.

#[export] Instance balances_laws : @CurrencyLaws balances.
Proof.
  split; unfold reserve, unreserve, reserved, balances.
  - intros b a. apply account_held.
  - intros b who x b' Hx E a. destruct (_ <? _); [done|]. apply (inj Some) in E. subst b'. rewrite account_insert.
    pose proof (account_held b who). destruct (Z.eqb_spec a who) as [->|]; cbn [snd]; lia.
  - intros b who x Hx a. rewrite account_insert.
    pose proof (account_held b who). destruct (Z.eqb_spec a who) as [->|]; cbn [snd]; lia.
Qed.
