(* ===== verification/ArbTypes.v ===== *)
(** The data of the escrow arbitration pallet,
    [crates/zanchor/pallets/escrow-arbitration/src/lib.rs] and [shielded_v1.rs]: its types, its
    storage, its events and errors.

    Accounts, keys and hashes are numbers, a [[u8; 32]] the one its bytes write in big-endian
    order.  What the pallet stores and nowhere reads, such as ciphertexts, is a list of
    bytes. *)
From stdpp Require Import base list gmap.
From Stdlib Require Import ZArith Lia.
From S2P Require Import Prelude Bytes Pallet.

Local Open Scope Z_scope.

(** * Types *)

Inductive TargetChain := Zcash | Penumbra.

Record ChainThresholdKey := mkChainThresholdKey {
  master_public_key : Z;
  key_threshold : Z * Z;
  established_at : Z;
  key_version : Z;
}.

Inductive SigningFailureReason := Timeout | InsufficientValidators | ProtocolError.

Module SigningRequestStatus.
Inductive SigningRequestStatus :=
| Pending
| InProgress (started_at : Z)
| Completed (signature : bytes)
| Failed (reason : SigningFailureReason).
End SigningRequestStatus.

Record ChainSigningRequest := mkChainSigningRequest {
  rq_escrow : Z;
  rq_tx_hash : Z;
  rq_recipient : Z;
  rq_amount : Z;
  rq_status : SigningRequestStatus.SigningRequestStatus;
  rq_created_at : Z;
  rq_deadline : Z;
}.
#[export] Instance request_eta : Eta ChainSigningRequest := fun r =>
  mkChainSigningRequest (rq_escrow r) (rq_tx_hash r) (rq_recipient r) (rq_amount r) (rq_status r)
    (rq_created_at r) (rq_deadline r).

Inductive FundingAttestation :=
| LightClient (height tx_hash : Z)
| Oracle (oracle_id : Z) (signature : bytes)
| SelfAttested (tx_hash : Z).

Record TraderProfile := mkTraderProfile {
  tp_x25519 : Z;
  tp_registered_at : Z;
  total_trades : Z;
  successful_trades : Z;
  disputes_lost : Z;
  avg_completion_blocks : Z;
}.
#[export] Instance trader_eta : Eta TraderProfile := fun p =>
  mkTraderProfile (tp_x25519 p) (tp_registered_at p) (total_trades p) (successful_trades p) (disputes_lost p)
    (avg_completion_blocks p).

Record EncryptedMessage := mkEncryptedMessage { sender : Z; ciphertext : bytes; sent_at : Z; sequence : Z }.

Inductive PaymentMethod := BankTransfer | CashDeposit | MobilePayment | CryptoToFiat | InPerson | Other.

Module DisputeInitiator.
Inductive DisputeInitiator := Buyer | Seller.
End DisputeInitiator.

Module EscrowState.
Inductive EscrowState :=
| AwaitingBuyerConfirmation
| AwaitingFunding
| AwaitingPayment
| PaymentClaimed (claimed_at : Z)
| Disputed (raised_at : Z) (raised_by : DisputeInitiator.DisputeInitiator)
| PendingReveal (to_buyer : bool) (decided_at : Z)
| ReleasedToBuyer
| ReleasedToSeller
| Expired
| Cancelled.
End EscrowState.

#[export] Instance initiator_dec : EqDecision DisputeInitiator.DisputeInitiator.
Proof. solve_decision. Defined.
#[export] Instance state_dec : EqDecision EscrowState.EscrowState.
Proof. solve_decision. Defined.

Record EscrowAgent := mkEscrowAgent {
  ag_account : Z;
  ag_x25519 : Z;
  ag_stake : Z;
  ag_registered_at : Z;
  ag_active : bool;
  reputation : Z;
  total_escrows : Z;
  successful_reveals : Z;
  failed_reveals : Z;
  total_bounties_earned : Z;
  avg_response_blocks : Z;
}.
#[export] Instance agent_eta : Eta EscrowAgent := fun a =>
  mkEscrowAgent (ag_account a) (ag_x25519 a) (ag_stake a) (ag_registered_at a) (ag_active a) (reputation a)
    (total_escrows a) (successful_reveals a) (failed_reveals a) (total_bounties_earned a) (avg_response_blocks a).

Record Escrow := mkEscrow {
  e_id : Z;
  chain : TargetChain;
  buyer : Z;
  seller : Z;
  crypto_amount : Z;
  asset_id : option Z;
  fiat_amount : Z;
  fiat_currency : bytes;
  payment_method : PaymentMethod;
  state : EscrowState.EscrowState;
  buyer_escrow_pubkey : Z;
  seller_escrow_pubkey : Z;
  chain_escrow_pubkey : Z;
  escrow_address : Z;
  chain_service_deposit : Z;
  created_at : Z;
  funding_deadline : Z;
  payment_timeout : Z;
  funding_attestation : option FundingAttestation;
  signing_request_id : option Z;
}.
#[export] Instance escrow_eta : Eta Escrow := fun e =>
  mkEscrow (e_id e) (chain e) (buyer e) (seller e) (crypto_amount e) (asset_id e) (fiat_amount e) (fiat_currency e)
    (payment_method e) (state e) (buyer_escrow_pubkey e) (seller_escrow_pubkey e) (chain_escrow_pubkey e)
    (escrow_address e) (chain_service_deposit e) (created_at e) (funding_deadline e) (payment_timeout e)
    (funding_attestation e) (signing_request_id e).

Record ArbitratorInfo := mkArbitratorInfo {
  ar_stake : Z;
  ar_registered_at : Z;
  disputes_resolved : Z;
  correct_votes : Z;
  ar_active : bool;
}.

Module DisputeVote.
Inductive DisputeVote := Buyer | Seller | Abstain.
End DisputeVote.

#[export] Instance vote_dec : EqDecision DisputeVote.DisputeVote.
Proof. solve_decision. Defined.

(** ** Shielded escrows *)

Record ShieldedEscrowV1 := mkShieldedEscrowV1 {
  commitment : Z;
  encrypted_data : bytes;
  nullifier_commitment : Z;
  sh_epoch : Z;
  timeout_epoch : Z;
}.
#[export] Instance shielded_eta : Eta ShieldedEscrowV1 := fun e =>
  mkShieldedEscrowV1 (commitment e) (encrypted_data e) (nullifier_commitment e) (sh_epoch e) (timeout_epoch e).

Record RingSignature := mkRingSignature { ring : Z * Z; rs_c : bytes; rs_s : bytes * bytes }.

Record VerifiableShare := mkVerifiableShare { vs_index : Z; vs_value : bytes; merkle_proof : list bytes }.

Record VssCommitment := mkVssCommitment { root : bytes; num_shares : Z; vss_threshold : Z }.

Record ShieldedDisputeInfo := mkShieldedDisputeInfo {
  sd_commitment : Z;
  encrypted_evidence : bytes;
  authorization : RingSignature;
  raised_epoch : Z;
  deadline_epoch : Z;
}.

(** The parts of [EscrowParams] that its commitment covers; the others stay off the chain. *)
Record EscrowParams := mkEscrowParams {
  pr_crypto_amount : Z;
  pr_fiat_amount : Z;
  pr_fiat_currency : bytes;
  pr_asset_id : option Z;
  buyer_chain_pubkey : Z;
  seller_chain_pubkey : Z;
  pr_chain_escrow_pubkey : Z;
  pr_escrow_address : Z;
  escrow_secret : Z;
}.

Record DecryptionShare := mkDecryptionShare { arbitrator_index : Z; ds_share : bytes; ds_proof : bytes }.

Record FrostSignature := mkFrostSignature { sig_r : Z; sig_s : Z }.

Module ShieldedSigningStatus.
Inductive ShieldedSigningStatus := Pending | Completed (signature : FrostSignature) | Failed.
End ShieldedSigningStatus.

Record ShieldedSigningRequest := mkShieldedSigningRequest {
  frost_request_id : Z;
  sr_commitment : Z;
  encrypted_recipient : bytes;
  sr_tx_hash : Z;
  sr_status : ShieldedSigningStatus.ShieldedSigningStatus;
  sr_created_at : Z;
}.
#[export] Instance shielded_request_eta : Eta ShieldedSigningRequest := fun r =>
  mkShieldedSigningRequest (frost_request_id r) (sr_commitment r) (encrypted_recipient r) (sr_tx_hash r)
    (sr_status r) (sr_created_at r).

(** * Configuration, events and errors *)

Record Config := mkConfig {
  MinAgentStake : Z;
  MinArbitratorStake : Z;
  DefaultFundingDeadline : Z;
  DefaultPaymentTimeout : Z;
  DisputeVotingPeriod : Z;
  MinArbitratorsForDispute : Z;
  MinAgentsPerEscrow : Z;
  SigningTimeout : Z;
  MinChainServiceDeposit : Z;
}.

Definition UNIT : Z := 1000000000000.

(** The values of [runtime/src/lib.rs]. *)
Definition runtime_config : Config := mkConfig (100 * UNIT) (500 * UNIT) 100 1000 500 3 1 100 UNIT.

Module Event.
Inductive Event :=
| TraderRegistered (trader x25519 : Z)
| TraderUpdated (trader x25519 : Z)
| MessageSent (escrow sender sequence : Z)
| AgentRegistered (agent x25519 stake : Z)
| AgentDeregistered (agent : Z)
| EscrowCreated (escrow : Z) (chain : TargetChain) (seller buyer crypto_amount fiat_amount address : Z)
| BuyerConfirmed (escrow buyer : Z)
| FundingAttested (escrow : Z) (attestation : FundingAttestation)
| TradeCompleted (escrow winner : Z)
| PaymentClaimed (escrow deadline : Z)
| DisputeRaised (escrow : Z) (raised_by : DisputeInitiator.DisputeInitiator)
| ArbitratorVoted (escrow arbitrator : Z) (vote : DisputeVote.DisputeVote)
| DisputeResolved (escrow : Z) (to_buyer : bool)
| ChainSigningRequested (escrow request recipient : Z)
| ChainSigningCompleted (escrow request : Z) (signature : bytes)
| SigningTimeout (escrow : Z)
| EscrowCancelled (escrow : Z)
| ArbitratorRegistered (who stake : Z)
| ArbitratorDeregistered (who : Z)
| ShieldedEscrowCreated (commitment : Z) (vss_root : bytes) (epoch : Z)
| ShieldedEscrowUpdated (commitment : Z)
| ShieldedEscrowConsumed (nullifier : Z)
| ShieldedDisputeRaised (commitment epoch : Z)
| ShieldedDisputeResolved (commitment : Z) (to_party_a : bool)
| EpochUpdated (old_epoch new_epoch : Z)
| VssShareVerified (commitment index : Z)
| FrostSigningRequested (commitment request tx_hash : Z)
| FrostSigningCompleted (commitment r s : Z)
| FrostSigningFailed (commitment request : Z)
| ShieldedEscrowExpired (commitment : Z)
| ShieldedDisputeTimedOut (commitment : Z).
End Event.

Inductive Error :=
| Panic
| BadOrigin
| InsufficientBalance
| AlreadyTrader
| NotTrader
| CounterpartyNotTrader
| TooManyMessages
| NotEscrowParty
| EscrowNotFound
| NotAuthorized
| WrongState
| TooManyEscrows
| AlreadyAgent
| NotAgent
| AlreadyArbitrator
| NotArbitrator
| AlreadyVoted
| NoChainKey
| InsufficientDeposit
| ShieldedEscrowNotFound
| InvalidRingSignature
| NullifierAlreadySpent
| InvalidNullifier
| TooManyShieldedDisputes
| InvalidVssProof
| CommitmentAlreadyExists
| InvalidEncryptedDataSize
| FrostRequestNotFound
| FrostSigningInProgress.

(** * Storage *)

(** The storage of the shielded escrows. *)
Record Shielded := mkShielded {
  ShieldedEscrows : gmap Z ShieldedEscrowV1;
  NullifierSet : gset Z;
  VssCommitments : gmap Z VssCommitment;
  ShieldedDisputeQueue : list ShieldedDisputeInfo;
  CurrentEpoch : Z;
  BlocksPerEpoch : Z;
  FrostSigningRequests : gmap Z ShieldedSigningRequest;
  NextFrostRequestId : Z;
}.
#[export] Instance shield_eta : Eta Shielded := fun s =>
  mkShielded (ShieldedEscrows s) (NullifierSet s) (VssCommitments s) (ShieldedDisputeQueue s) (CurrentEpoch s)
    (BlocksPerEpoch s) (FrostSigningRequests s) (NextFrostRequestId s).

Record State `{Currency} := mkState {
  bank : Bank;
  events : list Event.Event;
  ChainMasterKey : option ChainThresholdKey;
  SigningRequests : gmap Z ChainSigningRequest;
  NextSigningRequestId : Z;
  PendingSigningRequests : list Z;
  Traders : gmap Z TraderProfile;
  TraderCount : Z;
  EscrowMessages : gmap Z (list EncryptedMessage);
  MessageCount : gmap Z Z;
  Agents : gmap Z EscrowAgent;
  AgentCount : Z;
  AgentLeaderboard : list (Z * Z);
  Escrows : gmap Z Escrow;
  EscrowsByBuyer : gmap Z (list Z);
  EscrowsBySeller : gmap Z (list Z);
  Arbitrators : gmap Z ArbitratorInfo;
  ArbitratorCount : Z;
  DisputeVotes : gmap (Z * Z) DisputeVote.DisputeVote;
  VoteCounts : gmap Z (Z * Z * Z);
  EscrowNonce : Z;
  shielded : Shielded;
}.
#[export] Instance state_eta `{Currency} : Eta State := fun s =>
  mkState _ (bank s) (events s) (ChainMasterKey s) (SigningRequests s) (NextSigningRequestId s)
    (PendingSigningRequests s) (Traders s) (TraderCount s) (EscrowMessages s) (MessageCount s) (Agents s)
    (AgentCount s) (AgentLeaderboard s) (Escrows s) (EscrowsByBuyer s) (EscrowsBySeller s) (Arbitrators s)
    (ArbitratorCount s) (DisputeVotes s) (VoteCounts s) (EscrowNonce s) (shielded s).

(** Nothing stored but perhaps the key of the chain, which no call writes. *)
Definition genesis `{Currency} (b : Bank) (key : option ChainThresholdKey) : State :=
  mkState _ b [] key ∅ 0 [] ∅ 0 ∅ ∅ ∅ 0 [] ∅ ∅ ∅ ∅ 0 ∅ ∅ 0 (mkShielded ∅ ∅ ∅ [] 0 0 ∅ 0).

Definition deposit_event `{Currency} (s : State) (e : Event.Event) : State := s <| events := events s ++ [e] |>.
