(* ===== verification/Arb.v ===== *)
(** The open calls of the escrow arbitration pallet,
    [crates/zanchor/pallets/escrow-arbitration/src/lib.rs]: traders and their messages, agents,
    the life of an escrow, arbitrators and their votes, and the requests for the chain's
    signature with their time-outs.

    [n] is the number of the block in which a call is made. *)
From stdpp Require Import base list gmap strings.
From Stdlib Require Import ZArith Lia.
From S2P Require Import Prelude Bytes OrdMap Pallet ArbTypes.

Local Open Scope Z_scope.

Section pallet.
Context `{Currency} `{Runtime}.

Definition ensure_signed (o : Origin) : result Z Error :=
  match o with Signed who => Ok who | Root => Err BadOrigin end.
Definition ensure_root (o : Origin) : result unit Error :=
  match o with Root => Ok tt | Signed _ => Err BadOrigin end.

(** [T::Currency::reserve(..)?] and [T::Currency::unreserve(..)] *)
Definition set_aside (s : State) (who amount : Z) : result State Error :=
  match reserve (bank s) who amount with
  | Some b => Ok (s <| bank := b |>)
  | None => Err InsufficientBalance
  end.
Definition give_back (s : State) (who amount : Z) : State := s <| bank := unreserve (bank s) who amount |>.

(** * Traders and their messages *)

Definition register_trader (n : Z) (origin : Origin) (x25519 : Z) (s : State) : result State Error :=
  let? who := ensure_signed origin in
  ensure! negb (bool_decide (is_Some (Traders s !! who))) else AlreadyTrader ;;
  let s := s <| Traders := <[who := mkTraderProfile x25519 n 0 0 0 0]> (Traders s) |>
             <| TraderCount := wadd 32 (TraderCount s) 1 |> in
  Ok (deposit_event s (Event.TraderRegistered who x25519)).

Definition update_trader_key (origin : Origin) (x25519 : Z) (s : State) : result State Error :=
  let? who := ensure_signed origin in
  match Traders s !! who with
  | None => Err NotTrader
  | Some p =>
      let s := s <| Traders := <[who := p <| tp_x25519 := x25519 |>]> (Traders s) |> in
      Ok (deposit_event s (Event.TraderUpdated who x25519))
  end.

Definition send_message (n : Z) (origin : Origin) (escrow_id : Z) (encrypted : bytes) (s : State) : result State Error :=
  let? who := ensure_signed origin in
  match Escrows s !! escrow_id with
  | None => Err EscrowNotFound
  | Some e =>
      ensure! (who =? buyer e) || (who =? seller e) else NotEscrowParty ;;
      let sequence := default 0 (MessageCount s !! escrow_id) in
      match try_push 100 (mkEncryptedMessage who encrypted n sequence) (default [] (EscrowMessages s !! escrow_id)) with
      | None => Err TooManyMessages
      | Some l =>
          let s := s <| EscrowMessages := <[escrow_id := l]> (EscrowMessages s) |>
                     <| MessageCount := <[escrow_id := wadd 32 sequence 1]> (MessageCount s) |> in
          Ok (deposit_event s (Event.MessageSent escrow_id who sequence))
      end
  end.

(** * Agents *)

(** A stable sort with the highest reputation first. *)
Fixpoint insert_ranked (x : Z * Z) (l : list (Z * Z)) : list (Z * Z) :=
  match l with
  | [] => [x]
  | y :: l' => if y.1 <=? x.1 then x :: l else y :: insert_ranked x l'
  end.
Definition sort_ranked (l : list (Z * Z)) : list (Z * Z) := foldr insert_ranked [] l.

Definition without_agent (agent : Z) (board : list (Z * Z)) : list (Z * Z) :=
  List.filter (fun x => negb (x.2 =? agent)) board.

Definition update_leaderboard (s : State) (agent rank : Z) : State :=
  let board := without_agent agent (AgentLeaderboard s) in
  let board := default board (try_push 100 (rank, agent) board) in
  s <| AgentLeaderboard := take 100 (sort_ranked board) |>.

Definition remove_from_leaderboard (s : State) (agent : Z) : State :=
  s <| AgentLeaderboard := without_agent agent (AgentLeaderboard s) |>.

Definition register_agent (cfg : Config) (n : Z) (origin : Origin) (x25519 : Z) (s : State) : result State Error :=
  let? who := ensure_signed origin in
  ensure! negb (bool_decide (is_Some (Agents s !! who))) else AlreadyAgent ;;
  let stake := MinAgentStake cfg in
  let? s := set_aside s who stake in
  let s := s <| Agents := <[who := mkEscrowAgent who x25519 stake n true 0 0 0 0 0 0]> (Agents s) |>
             <| AgentCount := wadd 32 (AgentCount s) 1 |> in
  Ok (deposit_event (update_leaderboard s who 0) (Event.AgentRegistered who x25519 stake)).

Definition deregister_agent (origin : Origin) (s : State) : result State Error :=
  let? who := ensure_signed origin in
  match Agents s !! who with
  | None => Err NotAgent
  | Some a =>
      ensure! negb (ag_active a) || (total_escrows a =? wadd 32 (successful_reveals a) (failed_reveals a))
        else WrongState ;;
      let s := give_back s who (ag_stake a) in
      let s := s <| Agents := delete who (Agents s) |> <| AgentCount := sat_sub (AgentCount s) 1 |> in
      Ok (deposit_event (remove_from_leaderboard s who) (Event.AgentDeregistered who))
  end.

Definition update_agent_key (origin : Origin) (x25519 : Z) (s : State) : result State Error :=
  let? who := ensure_signed origin in
  match Agents s !! who with
  | None => Err NotAgent
  | Some a => Ok (s <| Agents := <[who := a <| ag_x25519 := x25519 |>]> (Agents s) |>)
  end.

(** * Escrows *)

Definition compute_escrow_id (seller buyer nonce pubkey : Z) : Z :=
  blake2_256 (encode_account seller ++ encode_account buyer ++ to_le 8 nonce ++ to_be 32 pubkey).

Definition derive_escrow_key (master_pk escrow_id : Z) : Z :=
  blake2_256 (to_be 32 master_pk ++ to_be 32 escrow_id ++ ascii "escrow-key").

Definition compute_multisig_address (c : TargetChain) (buyer_pk seller_pk chain_pk : Z) : Z :=
  blake2_256 (ascii (match c with Zcash => "zcash-2of3" | Penumbra => "penumbra-2of3" end)
              ++ mjoin (map (to_be 32) (sort_asc [buyer_pk; seller_pk; chain_pk]))).

Definition create_escrow (cfg : Config) (n : Z) (origin : Origin) (c : TargetChain) (buyer amount : Z)
    (asset : option Z) (fiat : Z) (currency : bytes) (method : PaymentMethod) (buyer_pk seller_pk deposit : Z) (s : State)
  : result State Error :=
  let? seller := ensure_signed origin in
  ensure! bool_decide (is_Some (Traders s !! seller)) else NotTrader ;;
  ensure! bool_decide (is_Some (Traders s !! buyer)) else CounterpartyNotTrader ;;
  ensure! MinChainServiceDeposit cfg <=? deposit else InsufficientDeposit ;;
  let? s := set_aside s seller deposit in
  match ChainMasterKey s with
  | None => Err NoChainKey
  | Some key =>
      let nonce := EscrowNonce s in
      let s := s <| EscrowNonce := wadd 64 nonce 1 |> in
      let id := compute_escrow_id seller buyer nonce seller_pk in
      let chain_pk := derive_escrow_key (master_public_key key) id in
      let address := compute_multisig_address c buyer_pk seller_pk chain_pk in
      let now := to_u32 n in
      let e := mkEscrow id c buyer seller amount asset fiat currency method EscrowState.AwaitingBuyerConfirmation
                 buyer_pk seller_pk chain_pk address deposit now (wadd 32 now (DefaultFundingDeadline cfg))
                 (DefaultPaymentTimeout cfg) None None in
      let s := s <| Escrows := <[id := e]> (Escrows s) |> in
      match try_push 100 id (default [] (EscrowsBySeller s !! seller)) with
      | None => Err TooManyEscrows
      | Some l =>
          let s := s <| EscrowsBySeller := <[seller := l]> (EscrowsBySeller s) |> in
          match try_push 100 id (default [] (EscrowsByBuyer s !! buyer)) with
          | None => Err TooManyEscrows
          | Some l =>
              let s := s <| EscrowsByBuyer := <[buyer := l]> (EscrowsByBuyer s) |> in
              Ok (deposit_event s (Event.EscrowCreated id c seller buyer amount fiat address))
          end
      end
  end.

Definition put_escrow (s : State) (escrow_id : Z) (e : Escrow) : State := s <| Escrows := <[escrow_id := e]> (Escrows s) |>.

Definition is_claimed (st : EscrowState.EscrowState) : bool :=
  match st with EscrowState.PaymentClaimed _ => true | _ => false end.
Definition is_disputed (st : EscrowState.EscrowState) : bool :=
  match st with EscrowState.Disputed _ _ => true | _ => false end.

Definition confirm_share (origin : Origin) (escrow_id : Z) (s : State) : result State Error :=
  let? who := ensure_signed origin in
  match Escrows s !! escrow_id with
  | None => Err EscrowNotFound
  | Some e =>
      ensure! who =? buyer e else NotAuthorized ;;
      ensure! bool_decide (state e = EscrowState.AwaitingBuyerConfirmation) else WrongState ;;
      let s := put_escrow s escrow_id (e <| state := EscrowState.AwaitingFunding |>) in
      Ok (deposit_event s (Event.BuyerConfirmed escrow_id who))
  end.

Definition attest_funding (origin : Origin) (escrow_id : Z) (a : FundingAttestation) (s : State) : result State Error :=
  let? who := ensure_signed origin in
  match Escrows s !! escrow_id with
  | None => Err EscrowNotFound
  | Some e =>
      ensure! who =? seller e else NotAuthorized ;;
      ensure! bool_decide (state e = EscrowState.AwaitingFunding) else WrongState ;;
      let s := put_escrow s escrow_id
                 (e <| funding_attestation := Some a |> <| state := EscrowState.AwaitingPayment |>) in
      Ok (deposit_event s (Event.FundingAttested escrow_id a))
  end.

Definition mark_paid (n : Z) (origin : Origin) (escrow_id : Z) (s : State) : result State Error :=
  let? who := ensure_signed origin in
  match Escrows s !! escrow_id with
  | None => Err EscrowNotFound
  | Some e =>
      ensure! who =? buyer e else NotAuthorized ;;
      ensure! bool_decide (state e = EscrowState.AwaitingPayment) else WrongState ;;
      let now := to_u32 n in
      let deadline := wadd 32 now (payment_timeout e) in
      let s := put_escrow s escrow_id (e <| state := EscrowState.PaymentClaimed now |>) in
      Ok (deposit_event s (Event.PaymentClaimed escrow_id deadline))
  end.

(** The mean of the completion times is kept in whole blocks; after 2^32 trades it divides by zero. *)
Definition update_trader_successful_trade (s : State) (trader created completed : Z) : result State Error :=
  match Traders s !! trader with
  | None => Ok s
  | Some p =>
      let total := wadd 32 (successful_trades p) 1 in
      ensure! negb (total =? 0) else Panic ;;
      let blocks := sat_sub completed created in
      let mean := wadd 64 (wmul 64 (avg_completion_blocks p) (wsub 32 total 1)) blocks / total in
      let p := p <| total_trades := wadd 32 (total_trades p) 1 |> <| successful_trades := total |>
                 <| avg_completion_blocks := wrap 32 mean |> in
      Ok (s <| Traders := <[trader := p]> (Traders s) |>)
  end.

Definition update_trader_dispute_lost (s : State) (trader : Z) : State :=
  match Traders s !! trader with
  | None => s
  | Some p =>
      s <| Traders := <[trader := p <| total_trades := wadd 32 (total_trades p) 1 |>
                                    <| disputes_lost := wadd 32 (disputes_lost p) 1 |>]> (Traders s) |>
  end.

Definition confirm_payment (n : Z) (origin : Origin) (escrow_id : Z) (s : State) : result State Error :=
  let? who := ensure_signed origin in
  match Escrows s !! escrow_id with
  | None => Err EscrowNotFound
  | Some e =>
      ensure! who =? seller e else NotAuthorized ;;
      ensure! is_claimed (state e) else WrongState ;;
      let s := give_back s (seller e) (chain_service_deposit e) in
      let now := to_u32 n in
      let? s := update_trader_successful_trade s (buyer e) (created_at e) now in
      let? s := update_trader_successful_trade s (seller e) (created_at e) now in
      let s := put_escrow s escrow_id (e <| state := EscrowState.ReleasedToBuyer |>) in
      Ok (deposit_event s (Event.TradeCompleted escrow_id (buyer e)))
  end.

Definition raise_dispute (n : Z) (origin : Origin) (escrow_id : Z) (s : State) : result State Error :=
  let? who := ensure_signed origin in
  match Escrows s !! escrow_id with
  | None => Err EscrowNotFound
  | Some e =>
      let? raised_by :=
        (if who =? buyer e then Ok DisputeInitiator.Buyer
         else if who =? seller e then Ok DisputeInitiator.Seller
         else Err NotAuthorized) in
      ensure! is_claimed (state e) else WrongState ;;
      let s := put_escrow s escrow_id (e <| state := EscrowState.Disputed (to_u32 n) raised_by |>) in
      Ok (deposit_event s (Event.DisputeRaised escrow_id raised_by))
  end.

Definition cancel_escrow (origin : Origin) (escrow_id : Z) (s : State) : result State Error :=
  let? who := ensure_signed origin in
  match Escrows s !! escrow_id with
  | None => Err EscrowNotFound
  | Some e =>
      ensure! who =? seller e else NotAuthorized ;;
      ensure! bool_decide (state e = EscrowState.AwaitingBuyerConfirmation) else WrongState ;;
      let s := give_back s (seller e) (chain_service_deposit e) in
      let s := put_escrow s escrow_id (e <| state := EscrowState.Cancelled |>) in
      Ok (deposit_event s (Event.EscrowCancelled escrow_id))
  end.

(** * Arbitrators and their votes *)

Definition register_arbitrator (cfg : Config) (n : Z) (origin : Origin) (s : State) : result State Error :=
  let? who := ensure_signed origin in
  ensure! negb (bool_decide (is_Some (Arbitrators s !! who))) else AlreadyArbitrator ;;
  let stake := MinArbitratorStake cfg in
  let? s := set_aside s who stake in
  let s := s <| Arbitrators := <[who := mkArbitratorInfo stake n 0 0 true]> (Arbitrators s) |>
             <| ArbitratorCount := wadd 32 (ArbitratorCount s) 1 |> in
  Ok (deposit_event s (Event.ArbitratorRegistered who stake)).

Definition deregister_arbitrator (origin : Origin) (s : State) : result State Error :=
  let? who := ensure_signed origin in
  match Arbitrators s !! who with
  | None => Err NotArbitrator
  | Some info =>
      let s := give_back s who (ar_stake info) in
      let s := s <| Arbitrators := delete who (Arbitrators s) |>
                 <| ArbitratorCount := sat_sub (ArbitratorCount s) 1 |> in
      Ok (deposit_event s (Event.ArbitratorDeregistered who))
  end.

Definition vote_counts (s : State) (escrow_id : Z) : Z * Z * Z := default (0, 0, 0) (VoteCounts s !! escrow_id).

Definition count_vote (counts : Z * Z * Z) (vote : DisputeVote.DisputeVote) : Z * Z * Z :=
  let '(b, l, a) := counts in
  match vote with
  | DisputeVote.Buyer => (wadd 32 b 1, l, a)
  | DisputeVote.Seller => (b, wadd 32 l 1, a)
  | DisputeVote.Abstain => (b, l, wadd 32 a 1)
  end.

(** Who has won, when enough have voted and there is no tie. *)
Definition decided (cfg : Config) (counts : Z * Z * Z) : option bool :=
  let '(b, l, _) := counts in
  if wadd 32 b l <? MinArbitratorsForDispute cfg then None
  else if l <? b then Some true
  else if b <? l then Some false
  else None.

Definition try_resolve_dispute (cfg : Config) (n : Z) (escrow_id : Z) (s : State) : result State Error :=
  match decided cfg (vote_counts s escrow_id) with
  | None => Ok s
  | Some to_buyer =>
      let now := to_u32 n in
      match Escrows s !! escrow_id with
      | None => Err EscrowNotFound
      | Some e =>
          let recipient := if to_buyer then buyer_escrow_pubkey e else seller_escrow_pubkey e in
          let request_id := NextSigningRequestId s in
          let s := s <| NextSigningRequestId := wadd 64 request_id 1 |> in
          let request := mkChainSigningRequest escrow_id 0 recipient (crypto_amount e)
                           SigningRequestStatus.Pending now (wadd 32 now (SigningTimeout cfg)) in
          let s := s <| SigningRequests := <[request_id := request]> (SigningRequests s) |>
                     <| PendingSigningRequests :=
                          default (PendingSigningRequests s) (try_push 1000 request_id (PendingSigningRequests s)) |> in
          let s := put_escrow s escrow_id (e <| state := EscrowState.PendingReveal to_buyer now |>
                                             <| signing_request_id := Some request_id |>) in
          let s := deposit_event s (Event.DisputeResolved escrow_id to_buyer) in
          Ok (deposit_event s (Event.ChainSigningRequested escrow_id request_id recipient))
      end
  end.

Definition vote_dispute (cfg : Config) (n : Z) (origin : Origin) (escrow_id : Z) (vote : DisputeVote.DisputeVote) (s : State)
  : result State Error :=
  let? who := ensure_signed origin in
  ensure! bool_decide (is_Some (Arbitrators s !! who)) else NotArbitrator ;;
  match Escrows s !! escrow_id with
  | None => Err EscrowNotFound
  | Some e =>
      ensure! is_disputed (state e) else WrongState ;;
      ensure! negb (bool_decide (is_Some (DisputeVotes s !! (escrow_id, who)))) else AlreadyVoted ;;
      let s := s <| DisputeVotes := <[(escrow_id, who) := vote]> (DisputeVotes s) |>
                 <| VoteCounts := <[escrow_id := count_vote (vote_counts s escrow_id) vote]> (VoteCounts s) |> in
      let s := deposit_event s (Event.ArbitratorVoted escrow_id who vote) in
      try_resolve_dispute cfg n escrow_id s
  end.

(** * The signature of the chain *)

Definition is_open (st : SigningRequestStatus.SigningRequestStatus) : bool :=
  match st with SigningRequestStatus.Pending | SigningRequestStatus.InProgress _ => true | _ => false end.

Definition submit_chain_signature (n : Z) (origin : Origin) (request_id : Z) (signature : bytes) (s : State)
  : result State Error :=
  let? _ := ensure_signed origin in
  match SigningRequests s !! request_id with
  | None => Err EscrowNotFound
  | Some r =>
      ensure! is_open (rq_status r) else WrongState ;;
      let s := s <| SigningRequests :=
                      <[request_id := r <| rq_status := SigningRequestStatus.Completed signature |>]> (SigningRequests s) |> in
      match Escrows s !! rq_escrow r with
      | None => Err EscrowNotFound
      | Some e =>
          match state e with
          | EscrowState.PendingReveal to_buyer _ =>
              let winner := if to_buyer then buyer e else seller e in
              let loser := if to_buyer then seller e else buyer e in
              let e' := e <| state := if to_buyer then EscrowState.ReleasedToBuyer else EscrowState.ReleasedToSeller |> in
              let s := give_back s (seller e) (chain_service_deposit e) in
              let s := update_trader_dispute_lost s loser in
              let? s := update_trader_successful_trade s winner (created_at e) (to_u32 n) in
              let s := s <| PendingSigningRequests :=
                              List.filter (fun id => negb (id =? request_id)) (PendingSigningRequests s) |> in
              let s := deposit_event s (Event.ChainSigningCompleted (rq_escrow r) request_id signature) in
              let s := deposit_event s (Event.TradeCompleted (rq_escrow r) winner) in
              Ok (put_escrow s (rq_escrow r) e')
          | _ => Err WrongState
          end
      end
  end.

(** One request of the loop of [process_signing_timeouts]. *)
Definition time_out (now : Z) (s : State) (request_id : Z) : State :=
  match SigningRequests s !! request_id with
  | None => s
  | Some r =>
      if (rq_deadline r <? now) && is_open (rq_status r) then
        let r' := r <| rq_status := SigningRequestStatus.Failed Timeout |> in
        let s := s <| SigningRequests := <[request_id := r']> (SigningRequests s) |> in
        match Escrows s !! rq_escrow r with
        | None => s
        | Some e =>
            let s := give_back s (seller e) (chain_service_deposit e) in
            let s := put_escrow s (rq_escrow r) (e <| state := EscrowState.Cancelled |>) in
            deposit_event s (Event.SigningTimeout (rq_escrow r))
        end
      else s
  end.

Definition still_open (s : State) (request_id : Z) : bool :=
  match SigningRequests s !! request_id with Some r => is_open (rq_status r) | None => false end.

Definition process_signing_timeouts (now : Z) (s : State) : State :=
  let s := foldl (time_out now) s (PendingSigningRequests s) in
  s <| PendingSigningRequests := List.filter (still_open s) (PendingSigningRequests s) |>.
End pallet.
