(* ===== verification/ArbShield.v ===== *)
(** The shielded part of the escrow arbitration pallet: the helpers of
    [crates/zanchor/pallets/escrow-arbitration/src/shielded_v1.rs] (ring signatures, shares with
    Merkle proofs, nullifiers, epochs), the shielded calls of [lib.rs], the work at the end of
    a block, and the dispatch of all calls of the pallet.

    SHA-256 is a parameter.  Encryption and what the workers do off the chain are left out. *)
From stdpp Require Import base list gmap strings.
From Stdlib Require Import ZArith Lia.
From S2P Require Import Prelude Bytes OrdMap Pallet ArbTypes Arb.

Local Open Scope Z_scope.

Section hashes.
Context `{Sha256}.

(** * Ring signatures *)

Definition ring_message (r : Z * Z) (s : bytes * bytes) (message : bytes) : bytes :=
  ascii "ring-sig-v1" ++ to_be 32 r.1 ++ to_be 32 r.2 ++ s.1 ++ s.2 ++ message.

(** Only the first half of the challenge is compared, and no key takes part. *)
Definition ring_verify (sig : RingSignature) (message : bytes) : bool :=
  if ((ring sig).1 =? 0) || ((ring sig).2 =? 0) then false
  else if bool_decide (rs_c sig = zeros 32) then false
  else
    let computed := to_be 32 (sha256 (ring_message (ring sig) (rs_s sig) message)) in
    bool_decide (slice 0 16 computed = slice 0 16 (rs_c sig)).

(** [RingSignature::sign]; [random] are the bytes it draws. *)
Definition ring_sign (secret_key : Z) (signer_index : nat) (r : Z * Z) (random message : bytes) : option RingSignature :=
  if (1 <? signer_index)%nat then None
  else
    let s_signer := to_be 32 (sha256 (ascii "ring-sig-signer" ++ to_be 32 secret_key ++ random ++ message)) in
    let s := if (signer_index =? 0)%nat then (s_signer, random) else (random, s_signer) in
    Some (mkRingSignature r (to_be 32 (sha256 (ring_message r s message))) s).

(** * Nullifiers, keys and commitments *)

(** As compiled with the standard library and without it. *)
Definition compute_nullifier (escrow_secret : Z) : Z := sha256 (to_be 32 escrow_secret ++ ascii "nullify").
Definition compute_nullifier_no_std (escrow_secret : Z) : Z :=
  sha256 (to_be 32 escrow_secret ++ ascii "nullify" ++ [z2b 0]).

Definition compute_nullifier_commitment (nullifier : Z) : Z := sha256 (to_be 32 nullifier).

Definition derive_auth_key (escrow_secret : Z) (party : string) : Z :=
  sha256 (to_be 32 escrow_secret ++ ascii "auth-key-" ++ ascii party).

Definition compute_escrow_commitment (p : EscrowParams) (salt : Z) : Z :=
  sha256 (to_le 16 (pr_crypto_amount p) ++ to_le 8 (pr_fiat_amount p) ++ pr_fiat_currency p
          ++ to_be 32 (buyer_chain_pubkey p) ++ to_be 32 (seller_chain_pubkey p)
          ++ to_be 32 (pr_chain_escrow_pubkey p) ++ to_be 32 salt).

(** * Shares *)

Definition hash_share_value (value : bytes) : bytes := to_be 32 (sha256 value).

Fixpoint compute_merkle_root_from_proof (index : Z) (leaf : bytes) (proof : list bytes) : bytes :=
  match proof with
  | [] => leaf
  | sibling :: proof =>
      let data := if index mod 2 =? 0 then leaf ++ sibling else sibling ++ leaf in
      compute_merkle_root_from_proof (index / 2) (to_be 32 (sha256 data)) proof
  end.

Definition verify_share (share : VerifiableShare) (c : VssCommitment) : bool :=
  if num_shares c <=? vs_index share then false
  else
    bool_decide
      (compute_merkle_root_from_proof (vs_index share) (hash_share_value (vs_value share)) (merkle_proof share) = root c).
End hashes.

Definition commitment_from_share_set (r : bytes) (shares threshold : Z) : VssCommitment :=
  mkVssCommitment r (wrap 8 shares) (wrap 8 threshold).

(** ** Arithmetic in GF(2^32) *)

Definition REDUCTION : Z := 0x10000008D.

(** The two loops: the product of the polynomials, and its reduction from the top bit down. *)
Definition mul_step (a b result : Z) (i : nat) : Z :=
  if Z.land (Z.shiftr b (Z.of_nat i)) 1 =? 1 then Z.lxor result (Z.shiftl a (Z.of_nat i)) else result.
Definition reduce_step (result : Z) (i : nat) : Z :=
  if Z.land (Z.shiftr result (Z.of_nat i)) 1 =? 1
  then Z.lxor result (Z.shiftl REDUCTION (Z.of_nat (i - 32))) else result.

Definition binary_field_multiply (a b : Z) : Z :=
  let result := foldl (mul_step a b) 0 (seq 0 32) in
  wrap 32 (foldl reduce_step result (rev (seq 32 32))).

Definition square_multiply (a result : Z) : Z :=
  binary_field_multiply (binary_field_multiply result result) a.

Definition binary_field_inverse (a : Z) : Z :=
  if a =? 0 then 0
  else let result := Nat.iter 30 (square_multiply a) a in binary_field_multiply result result.

Definition share_chunk (value : bytes) (i : nat) : Z := from_le (slice (4 * i) (4 * i + 4) value).

(** The point of a share is its index and one, in a [u8]. *)
Definition share_point (s : VerifiableShare) : Z := wadd 8 (vs_index s) 1.

Definition reconstruct_chunk (share1 share2 : VerifiableShare) (i : nat) : Z :=
  let x1 := share_point share1 in
  let x2 := share_point share2 in
  let inv := binary_field_inverse (Z.lxor x1 x2) in
  let l1 := binary_field_multiply x2 inv in
  let l2 := binary_field_multiply x1 inv in
  Z.lxor (binary_field_multiply (share_chunk (vs_value share1) i) l1)
         (binary_field_multiply (share_chunk (vs_value share2) i) l2).

Definition reconstruct_secret (share1 share2 : VerifiableShare) : bytes :=
  mjoin (map (fun i => to_le 4 (reconstruct_chunk share1 share2 i)) (seq 0 8)).

(** ** Decryption shares *)

(** A placeholder in the code. *)
Definition verify_decryption_share_proof (share : DecryptionShare) (public_share ephemeral_pubkey : Z) : bool := true.

(** The product of the other indices; the denominator is computed and not used. *)
Definition numerator (xs : list Z) (i : nat) : Z :=
  foldl (fun acc jx => if (jx.1 =? i)%nat then acc else wmul 64 acc jx.2) 1 (imap pair xs).

Definition add_share (weight : Z) (result share : bytes) : bytes :=
  zip_with (fun r b => z2b (Z.lxor (b2z r) (wmul 8 (b2z b) weight))) result share.

Definition combine_decryption_shares (shares : list DecryptionShare) (threshold : nat) : option bytes :=
  if (length shares <? threshold)%nat then None
  else
    let used := take threshold shares in
    let xs := map arbitrator_index used in
    Some (foldl (fun result ks => add_share (numerator xs ks.1 mod 256) result (ds_share ks.2)) (zeros 32) (imap pair used)).

(** * Epochs *)

Definition block_to_epoch (block blocks_per_epoch : Z) : Z := block / blocks_per_epoch.
Definition compute_timeout_epoch (current_epoch timeout_epochs : Z) : Z := sat_add 32 current_epoch timeout_epochs.

(** * The calls *)

Module Call.
Inductive Call :=
| register_trader (x25519 : Z)
| update_trader_key (x25519 : Z)
| send_message (escrow : Z) (encrypted : bytes)
| register_agent (x25519 : Z)
| deregister_agent
| update_agent_key (x25519 : Z)
| create_escrow (c : TargetChain) (buyer amount : Z) (asset : option Z) (fiat : Z) (currency : bytes)
    (method : PaymentMethod) (buyer_pk seller_pk deposit : Z)
| confirm_share (escrow : Z)
| attest_funding (escrow : Z) (a : FundingAttestation)
| mark_paid (escrow : Z)
| confirm_payment (escrow : Z)
| raise_dispute (escrow : Z)
| vote_dispute (escrow : Z) (vote : DisputeVote.DisputeVote)
| submit_chain_signature (request : Z) (signature : bytes)
| register_arbitrator
| deregister_arbitrator
| cancel_escrow (escrow : Z)
| shielded_create (e : ShieldedEscrowV1) (vss : VssCommitment)
| shielded_update (c : Z) (data auth : bytes)
| shielded_consume (c nullifier : Z) (data : bytes)
| shielded_dispute (c : Z) (evidence : bytes) (sig : RingSignature)
| verify_vss_share (c : Z) (share : VerifiableShare)
| resolve_dispute_with_frost (c : Z) (tx_data recipient : bytes)
| submit_frost_signature (c : Z) (signature : FrostSignature)
| mark_frost_signing_failed (c : Z).
End Call.
Import Call (Call).

Definition blocks_per_epoch `{Currency} (s : State) : Z :=
  if BlocksPerEpoch (shielded s) =? 0 then 100 else BlocksPerEpoch (shielded s).

Section calls.
Context `{Currency} `{Runtime} `{Sha256}.

Definition set_shielded (s : State) (f : Shielded → Shielded) : State := s <| shielded := f (shielded s) |>.

(** * The shielded calls *)

Definition shielded_create (origin : Origin) (e : ShieldedEscrowV1) (vss : VssCommitment) (s : State)
  : result State Error :=
  let? _ := ensure_signed origin in
  ensure! negb (bool_decide (is_Some (ShieldedEscrows (shielded s) !! commitment e))) else CommitmentAlreadyExists ;;
  ensure! (length (encrypted_data e) =? 512)%nat else InvalidEncryptedDataSize ;;
  let epoch := CurrentEpoch (shielded s) in
  let s := set_shielded s (fun h => h <| ShieldedEscrows := <[commitment e := e]> (ShieldedEscrows h) |>
                                      <| VssCommitments := <[commitment e := vss]> (VssCommitments h) |>) in
  Ok (deposit_event s (Event.ShieldedEscrowCreated (commitment e) (root vss) epoch)).

Definition put_shielded (s : State) (c : Z) (e : ShieldedEscrowV1) : State :=
  set_shielded s (fun h => h <| ShieldedEscrows := <[c := e]> (ShieldedEscrows h) |>).

Definition shielded_update (origin : Origin) (c : Z) (new_data auth : bytes) (s : State) : result State Error :=
  let? _ := ensure_signed origin in
  match ShieldedEscrows (shielded s) !! c with
  | None => Err ShieldedEscrowNotFound
  | Some e =>
      ensure! negb (bool_decide (auth = zeros 64)) else NotAuthorized ;;
      Ok (deposit_event (put_shielded s c (e <| encrypted_data := new_data |>)) (Event.ShieldedEscrowUpdated c))
  end.

Definition shielded_consume (origin : Origin) (c nullifier : Z) (final_data : bytes) (s : State) : result State Error :=
  let? _ := ensure_signed origin in
  ensure! negb (bool_decide (nullifier ∈ NullifierSet (shielded s))) else NullifierAlreadySpent ;;
  match ShieldedEscrows (shielded s) !! c with
  | None => Err ShieldedEscrowNotFound
  | Some e =>
      ensure! compute_nullifier_commitment nullifier =? nullifier_commitment e else InvalidNullifier ;;
      let s := set_shielded s (fun h => h <| NullifierSet := {[nullifier]} ∪ NullifierSet h |>) in
      let s := put_shielded s c (e <| encrypted_data := final_data |>) in
      Ok (deposit_event s (Event.ShieldedEscrowConsumed nullifier))
  end.

Definition shielded_dispute (origin : Origin) (c : Z) (evidence : bytes) (sig : RingSignature) (s : State)
  : result State Error :=
  let? _ := ensure_signed origin in
  ensure! bool_decide (is_Some (ShieldedEscrows (shielded s) !! c)) else ShieldedEscrowNotFound ;;
  ensure! ring_verify sig (to_be 32 c ++ evidence) else InvalidRingSignature ;;
  let epoch := CurrentEpoch (shielded s) in
  let info := mkShieldedDisputeInfo c evidence sig epoch (wadd 32 epoch 10) in
  match try_push 100 info (ShieldedDisputeQueue (shielded s)) with
  | None => Err TooManyShieldedDisputes
  | Some l =>
      let s := set_shielded s (fun h => h <| ShieldedDisputeQueue := l |>) in
      Ok (deposit_event s (Event.ShieldedDisputeRaised c epoch))
  end.

Definition verify_vss_share (origin : Origin) (c : Z) (share : VerifiableShare) (s : State) : result State Error :=
  let? _ := ensure_signed origin in
  match VssCommitments (shielded s) !! c with
  | None => Err ShieldedEscrowNotFound
  | Some vss =>
      ensure! verify_share share vss else InvalidVssProof ;;
      Ok (deposit_event s (Event.VssShareVerified c (vs_index share)))
  end.

Definition put_frost (s : State) (c : Z) (r : ShieldedSigningRequest) : State :=
  set_shielded s (fun h => h <| FrostSigningRequests := <[c := r]> (FrostSigningRequests h) |>).

Definition resolve_dispute_with_frost (n : Z) (origin : Origin) (c : Z) (tx_data recipient : bytes) (s : State)
  : result State Error :=
  let? _ := ensure_root origin in
  ensure! bool_decide (is_Some (ShieldedEscrows (shielded s) !! c)) else ShieldedEscrowNotFound ;;
  ensure! negb (bool_decide (is_Some (FrostSigningRequests (shielded s) !! c))) else FrostSigningInProgress ;;
  let tx_hash := sha256 tx_data in
  let id := NextFrostRequestId (shielded s) in
  let s := set_shielded s (fun h => h <| NextFrostRequestId := wadd 64 id 1 |>) in
  let s := put_frost s c (mkShieldedSigningRequest id c recipient tx_hash ShieldedSigningStatus.Pending (to_u32 n)) in
  Ok (deposit_event s (Event.FrostSigningRequested c id tx_hash)).

Definition submit_frost_signature (origin : Origin) (c : Z) (signature : FrostSignature) (s : State)
  : result State Error :=
  let? _ := ensure_signed origin in
  match FrostSigningRequests (shielded s) !! c with
  | None => Err FrostRequestNotFound
  | Some r =>
      let s := put_frost s c (r <| sr_status := ShieldedSigningStatus.Completed signature |>) in
      let s := deposit_event s (Event.FrostSigningCompleted c (sig_r signature) (sig_s signature)) in
      Ok (deposit_event s (Event.ShieldedDisputeResolved c true))
  end.

Definition mark_frost_signing_failed (origin : Origin) (c : Z) (s : State) : result State Error :=
  let? _ := ensure_root origin in
  match FrostSigningRequests (shielded s) !! c with
  | None => Err FrostRequestNotFound
  | Some r =>
      let s := put_frost s c (r <| sr_status := ShieldedSigningStatus.Failed |>) in
      Ok (deposit_event s (Event.FrostSigningFailed c (frost_request_id r)))
  end.

(** * The end of a block *)

Definition maybe_update_epoch (now : Z) (s : State) : State :=
  let current := CurrentEpoch (shielded s) in
  let new := block_to_epoch now (blocks_per_epoch s) in
  if current <? new then
    deposit_event (set_shielded s (fun h => h <| CurrentEpoch := new |>)) (Event.EpochUpdated current new)
  else s.

(** Whether an escrow has timed out; the set of the nullifiers is asked for the hash of one. *)
Definition expired_in (s : State) (current_epoch c : Z) : bool :=
  match ShieldedEscrows (shielded s) !! c with
  | Some e => (timeout_epoch e <=? current_epoch) && negb (bool_decide (nullifier_commitment e ∈ NullifierSet (shielded s)))
  | None => false
  end.

Definition expire (s : State) (c : Z) : State :=
  deposit_event (set_shielded s (fun h => h <| ShieldedEscrows := delete c (ShieldedEscrows h) |>))
    (Event.ShieldedEscrowExpired c).

Definition process_shielded_timeouts (now : Z) (s : State) : State :=
  let current_epoch := block_to_epoch now (blocks_per_epoch s) in
  let expired := List.filter (expired_in s current_epoch) (walk_order (keys (ShieldedEscrows (shielded s)))) in
  foldl expire s expired.

Definition timed_out (current_epoch : Z) (d : ShieldedDisputeInfo) : bool :=
  10 <? sat_sub current_epoch (raised_epoch d).

Definition process_dispute_timeouts (now : Z) (s : State) : State :=
  let current_epoch := block_to_epoch now (blocks_per_epoch s) in
  let queue := ShieldedDisputeQueue (shielded s) in
  let s := foldl (fun s d => deposit_event s (Event.ShieldedDisputeTimedOut (sd_commitment d))) s
             (List.filter (timed_out current_epoch) queue) in
  set_shielded s (fun h => h <| ShieldedDisputeQueue := List.filter (fun d => negb (timed_out current_epoch d)) queue |>).

Definition on_finalize (n : Z) (s : State) : State :=
  let now := to_u32 n in
  maybe_update_epoch now (process_dispute_timeouts now (process_shielded_timeouts now (process_signing_timeouts now s))).

(** * Dispatch *)

Definition dispatch (cfg : Config) (n : Z) (origin : Origin) (call : Call) (s : State) : result State Error :=
  match call with
  | Call.register_trader x => register_trader n origin x s
  | Call.update_trader_key x => update_trader_key origin x s
  | Call.send_message e m => send_message n origin e m s
  | Call.register_agent x => register_agent cfg n origin x s
  | Call.deregister_agent => deregister_agent origin s
  | Call.update_agent_key x => update_agent_key origin x s
  | Call.create_escrow c b amount asset fiat currency method bpk spk deposit =>
      create_escrow cfg n origin c b amount asset fiat currency method bpk spk deposit s
  | Call.confirm_share e => confirm_share origin e s
  | Call.attest_funding e a => attest_funding origin e a s
  | Call.mark_paid e => mark_paid n origin e s
  | Call.confirm_payment e => confirm_payment n origin e s
  | Call.raise_dispute e => raise_dispute n origin e s
  | Call.vote_dispute e v => vote_dispute cfg n origin e v s
  | Call.submit_chain_signature r sig => submit_chain_signature n origin r sig s
  | Call.register_arbitrator => register_arbitrator cfg n origin s
  | Call.deregister_arbitrator => deregister_arbitrator origin s
  | Call.cancel_escrow e => cancel_escrow origin e s
  | Call.shielded_create e v => shielded_create origin e v s
  | Call.shielded_update c d a => shielded_update origin c d a s
  | Call.shielded_consume c nf d => shielded_consume origin c nf d s
  | Call.shielded_dispute c ev sig => shielded_dispute origin c ev sig s
  | Call.verify_vss_share c sh => verify_vss_share origin c sh s
  | Call.resolve_dispute_with_frost c tx r => resolve_dispute_with_frost n origin c tx r s
  | Call.submit_frost_signature c sig => submit_frost_signature origin c sig s
  | Call.mark_frost_signing_failed c => mark_frost_signing_failed origin c s
  end.

(** A call that fails changes nothing. *)
Definition apply_call (cfg : Config) (n : Z) (origin : Origin) (call : Call) (s : State) : State :=
  match dispatch cfg n origin call s with Ok s' => s' | Err _ => s end.
End calls.
