(* ===== verification/ArbStep.v ===== *)
(** What a call of the escrow arbitration pallet can do: each one that succeeds has one of ten
    effects on the stakes, the escrows, the votes and the requests for the chain's signature,
    and so has the end of a block.  The properties of [ArbSafe] are read off these effects. *)
From stdpp Require Import base list gmap relations.
From Stdlib Require Import ZArith Lia.
From S2P Require Import Prelude Bytes OrdMap Pallet ArbTypes Arb ArbShield.

Local Open Scope Z_scope.

(** * What money and decisions depend on *)

Record View := mkView {
  v_agents : gmap Z Z;
  v_arbitrators : gmap Z Z;
  v_escrows : gmap Z Escrow;
  v_requests : gmap Z ChainSigningRequest;
  v_next : Z;
  v_votes : gmap (Z * Z) DisputeVote.DisputeVote;
  v_counts : gmap Z (Z * Z * Z);
  v_nonce : Z;
}.
#[export] Instance view_eta : Eta View := fun v =>
  mkView (v_agents v) (v_arbitrators v) (v_escrows v) (v_requests v) (v_next v) (v_votes v) (v_counts v) (v_nonce v).

Definition view `{Currency} (s : State) : View :=
  mkView (ag_stake <$> Agents s) (ar_stake <$> Arbitrators s) (Escrows s) (SigningRequests s)
    (NextSigningRequestId s) (DisputeVotes s) (VoteCounts s) (EscrowNonce s).

(** * The life of an escrow *)

(** A step of a party that keeps the deposit. *)
Inductive advance (n who : Z) (e : Escrow) : Escrow → Prop :=
| share_confirmed : who = buyer e → state e = EscrowState.AwaitingBuyerConfirmation →
    advance n who e (e <| state := EscrowState.AwaitingFunding |>)
| funding_attested a : who = seller e → state e = EscrowState.AwaitingFunding →
    advance n who e (e <| funding_attestation := Some a |> <| state := EscrowState.AwaitingPayment |>)
| payment_claimed : who = buyer e → state e = EscrowState.AwaitingPayment →
    advance n who e (e <| state := EscrowState.PaymentClaimed (to_u32 n) |>)
| dispute_raised t by_whom : who = buyer e ∨ who = seller e → state e = EscrowState.PaymentClaimed t →
    by_whom = (if who =? buyer e then DisputeInitiator.Buyer else DisputeInitiator.Seller) →
    advance n who e (e <| state := EscrowState.Disputed (to_u32 n) by_whom |>).

(** A step of the seller that ends the escrow and frees the deposit. *)
Inductive finish (who : Z) (e : Escrow) : Escrow → Prop :=
| payment_confirmed t : who = seller e → state e = EscrowState.PaymentClaimed t →
    finish who e (e <| state := EscrowState.ReleasedToBuyer |>)
| cancelled : who = seller e → state e = EscrowState.AwaitingBuyerConfirmation →
    finish who e (e <| state := EscrowState.Cancelled |>).

Definition released (to_buyer : bool) : EscrowState.EscrowState :=
  if to_buyer then EscrowState.ReleasedToBuyer else EscrowState.ReleasedToSeller.

(** * Guards *)

Section guards.
Context `{Currency}.

Lemma set_aside_Ok s who x s' :
  set_aside s who x = Ok s' ↔ ∃ b, reserve (bank s) who x = Some b ∧ s' = s <| bank := b |>.
Proof. unfold set_aside. destruct (reserve _ _ _); naive_solver. Qed.

Lemma ensure_signed_Ok o who : ensure_signed o = Ok who ↔ o = Signed who.
Proof. destruct o; cbn; naive_solver. Qed.

Lemma ensure_root_Ok o u : ensure_root o = Ok u → o = Root.
Proof. by destruct o. Qed.

Lemma trade_counted_quiet s t a b s' :
  update_trader_successful_trade s t a b = Ok s' → view s' = view s ∧ bank s' = bank s.
Proof. unfold update_trader_successful_trade. intros E. branches E; by subst. Qed.

Lemma dispute_lost_quiet s t :
  view (update_trader_dispute_lost s t) = view s ∧ bank (update_trader_dispute_lost s t) = bank s.
Proof. unfold update_trader_dispute_lost. by destruct (_ !! _). Qed.

Lemma view_event s ev : view (deposit_event s ev) = view s.
Proof. done. Qed.

Lemma view_put s id e : view (put_escrow s id e) = (view s) <| v_escrows := <[id := e]> (v_escrows (view s)) |>.
Proof. done. Qed.

Lemma view_give_back s who x : view (give_back s who x) = view s.
Proof. done. Qed.

End guards.

(** The reflection of the guards that a branch has passed. *)
Ltac guards :=
  repeat match goal with
  | H : ensure_signed _ = Ok _ |- _ => apply ensure_signed_Ok in H
  | H : ensure_root _ = Ok _ |- _ => apply ensure_root_Ok in H
  | H : set_aside _ _ _ = Ok _ |- _ => apply set_aside_Ok in H as (? & ? & ->)
  | H : update_trader_successful_trade _ _ _ _ = Ok _ |- _ => apply trade_counted_quiet in H as [? ?]
  | H : negb _ = true |- _ => apply negb_true_iff in H
  | H : bool_decide _ = true |- _ => apply bool_decide_eq_true_1 in H
  | H : bool_decide _ = false |- _ => apply bool_decide_eq_false_1 in H
  | H : (_ =? _) = true |- _ => apply Z.eqb_eq in H
  | H : (_ <=? _) = true |- _ => apply Z.leb_le in H
  | H : ¬ is_Some _ |- _ => apply eq_None_not_Some in H
  end.

Section effects.
Context `{Currency} `{Runtime} `{Sha256} (cfg : Config).

Definition new_escrow (seller buyer nonce deposit : Z) (e : Escrow) : Prop :=
  e_id e = compute_escrow_id seller buyer nonce (seller_escrow_pubkey e) ∧
  ArbTypes.seller e = seller ∧ ArbTypes.buyer e = buyer ∧ chain_service_deposit e = deposit ∧
  state e = EscrowState.AwaitingBuyerConfirmation ∧ funding_attestation e = None ∧ signing_request_id e = None.

Definition new_request (n id : Z) (e : Escrow) (to_buyer : bool) : ChainSigningRequest :=
  let now := to_u32 n in
  mkChainSigningRequest id 0 (if to_buyer then buyer_escrow_pubkey e else seller_escrow_pubkey e) (crypto_amount e)
    SigningRequestStatus.Pending now (wadd 32 now (SigningTimeout cfg)).

(** One more vote, for which there is room. *)
Definition with_vote (v : View) (id who : Z) (vote : DisputeVote.DisputeVote) : View :=
  v <| v_votes := <[(id, who) := vote]> (v_votes v) |>
    <| v_counts := <[id := count_vote (default (0, 0, 0) (v_counts v !! id)) vote]> (v_counts v) |>.

Inductive effect (n : Z) (origin : Origin) (s s' : State) : Prop :=
| quiet : view s' = view s → bank s' = bank s → effect n origin s s'
| agent_joined who :
    origin = Signed who → v_agents (view s) !! who = None →
    view s' = (view s) <| v_agents := <[who := MinAgentStake cfg]> (v_agents (view s)) |> →
    reserve (bank s) who (MinAgentStake cfg) = Some (bank s') → effect n origin s s'
| agent_left who x :
    origin = Signed who → v_agents (view s) !! who = Some x →
    view s' = (view s) <| v_agents := delete who (v_agents (view s)) |> →
    bank s' = unreserve (bank s) who x → effect n origin s s'
| arbitrator_joined who :
    origin = Signed who → v_arbitrators (view s) !! who = None →
    view s' = (view s) <| v_arbitrators := <[who := MinArbitratorStake cfg]> (v_arbitrators (view s)) |> →
    reserve (bank s) who (MinArbitratorStake cfg) = Some (bank s') → effect n origin s s'
| arbitrator_left who x :
    origin = Signed who → v_arbitrators (view s) !! who = Some x →
    view s' = (view s) <| v_arbitrators := delete who (v_arbitrators (view s)) |> →
    bank s' = unreserve (bank s) who x → effect n origin s s'
| escrow_created who b deposit e :
    origin = Signed who → new_escrow who b (v_nonce (view s)) deposit e → MinChainServiceDeposit cfg ≤ deposit →
    view s' = (view s) <| v_escrows := <[e_id e := e]> (v_escrows (view s)) |>
                       <| v_nonce := wadd 64 (v_nonce (view s)) 1 |> →
    reserve (bank s) who deposit = Some (bank s') → effect n origin s s'
| escrow_advanced who id e e' :
    origin = Signed who → v_escrows (view s) !! id = Some e → advance n who e e' →
    view s' = (view s) <| v_escrows := <[id := e']> (v_escrows (view s)) |> →
    bank s' = bank s → effect n origin s s'
| escrow_finished who id e e' :
    origin = Signed who → v_escrows (view s) !! id = Some e → finish who e e' →
    view s' = (view s) <| v_escrows := <[id := e']> (v_escrows (view s)) |> →
    bank s' = unreserve (bank s) (seller e) (chain_service_deposit e) → effect n origin s s'
| vote_cast who id e t by_whom vote :
    origin = Signed who → is_Some (v_arbitrators (view s) !! who) →
    v_escrows (view s) !! id = Some e → state e = EscrowState.Disputed t by_whom →
    v_votes (view s) !! (id, who) = None →
    let v := with_vote (view s) id who vote in
    view s' =
      match decided cfg (default (0, 0, 0) (v_counts v !! id)) with
      | None => v
      | Some to_buyer =>
          v <| v_escrows := <[id := e <| state := EscrowState.PendingReveal to_buyer (to_u32 n) |>
                                      <| signing_request_id := Some (v_next v) |>]> (v_escrows v) |>
            <| v_requests := <[v_next v := new_request n id e to_buyer]> (v_requests v) |>
            <| v_next := wadd 64 (v_next v) 1 |>
      end →
    bank s' = bank s → effect n origin s s'
| chain_signed who id r e to_buyer t signature :
    origin = Signed who → v_requests (view s) !! id = Some r → is_open (rq_status r) = true →
    v_escrows (view s) !! rq_escrow r = Some e → state e = EscrowState.PendingReveal to_buyer t →
    view s' = (view s) <| v_escrows := <[rq_escrow r := e <| state := released to_buyer |>]> (v_escrows (view s)) |>
                       <| v_requests := <[id := r <| rq_status := SigningRequestStatus.Completed signature |>]>
                                          (v_requests (view s)) |> →
    bank s' = unreserve (bank s) (seller e) (chain_service_deposit e) → effect n origin s s'.

(** A request that runs out of time at the end of a block. *)
Inductive expiry (n : Z) (s s' : State) : Prop :=
| not_expired : view s' = view s → bank s' = bank s → expiry n s s'
| request_lost id r :
    v_requests (view s) !! id = Some r → is_open (rq_status r) = true → v_escrows (view s) !! rq_escrow r = None →
    view s' = (view s) <| v_requests := <[id := r <| rq_status := SigningRequestStatus.Failed Timeout |>]>
                                          (v_requests (view s)) |> →
    bank s' = bank s → expiry n s s'
| request_expired id r e :
    v_requests (view s) !! id = Some r → is_open (rq_status r) = true → rq_deadline r < to_u32 n →
    v_escrows (view s) !! rq_escrow r = Some e →
    view s' = (view s) <| v_escrows := <[rq_escrow r := e <| state := EscrowState.Cancelled |>]> (v_escrows (view s)) |>
                       <| v_requests := <[id := r <| rq_status := SigningRequestStatus.Failed Timeout |>]>
                                          (v_requests (view s)) |> →
    bank s' = unreserve (bank s) (seller e) (chain_service_deposit e) → expiry n s s'.

(** * Every call has one of these effects *)

Ltac quietly := intros E; branches E; guards; subst; by apply quiet.

Lemma trader_effects n origin x s s' :
  register_trader n origin x s = Ok s' ∨ update_trader_key origin x s = Ok s' → effect n origin s s'.
Proof. intros [E|E]; revert E; unfold register_trader, update_trader_key; quietly. Qed.

Lemma message_effect n origin id m s s' : send_message n origin id m s = Ok s' → effect n origin s s'.
Proof. unfold send_message. quietly. Qed.

Lemma shielded_effects n origin c s s' :
  match c with
  | Call.shielded_create e v => shielded_create origin e v s
  | Call.shielded_update c d a => shielded_update origin c d a s
  | Call.shielded_consume c nf d => shielded_consume origin c nf d s
  | Call.shielded_dispute c ev sig => shielded_dispute origin c ev sig s
  | Call.verify_vss_share c sh => verify_vss_share origin c sh s
  | Call.resolve_dispute_with_frost c tx r => resolve_dispute_with_frost n origin c tx r s
  | Call.submit_frost_signature c sig => submit_frost_signature origin c sig s
  | Call.mark_frost_signing_failed c => mark_frost_signing_failed origin c s
  | _ => Err Panic
  end = Ok s' → effect n origin s s'.
Proof.
  destruct c; try done; unfold shielded_create, shielded_update, shielded_consume, shielded_dispute,
    verify_vss_share, resolve_dispute_with_frost, submit_frost_signature, mark_frost_signing_failed; quietly.
Qed.

Lemma agent_effects n origin x s s' :
  register_agent cfg n origin x s = Ok s' ∨ deregister_agent origin s = Ok s' ∨ update_agent_key origin x s = Ok s' →
  effect n origin s s'.
Proof.
  intros [E|[E|E]]; revert E.
  - unfold register_agent. intros E. branches E. guards. subst.
    eapply agent_joined; [done|by cbn; simplify_map_eq|by unfold view; cbn; rewrite fmap_insert|done].
  - unfold deregister_agent. intros E. branches E; guards; subst.
    all: eapply agent_left; [done|by cbn; simplify_map_eq|by unfold view; cbn; rewrite fmap_delete|done].
  - unfold update_agent_key. intros E. branches E. guards. subst. apply quiet; [|done].
    unfold view. cbn. rewrite fmap_insert, insert_id; [done|]. by simplify_map_eq.
Qed.

Lemma arbitrator_effects n origin s s' :
  register_arbitrator cfg n origin s = Ok s' ∨ deregister_arbitrator origin s = Ok s' → effect n origin s s'.
Proof.
  intros [E|E]; revert E.
  - unfold register_arbitrator. intros E. branches E. guards. subst.
    eapply arbitrator_joined; [done|by cbn; simplify_map_eq|by unfold view; cbn; rewrite fmap_insert|done].
  - unfold deregister_arbitrator. intros E. branches E; guards; subst.
    eapply arbitrator_left; [done|by cbn; simplify_map_eq|by unfold view; cbn; rewrite fmap_delete|done].
Qed.

Lemma create_escrow_effect n origin c b amount asset fiat cur meth bpk spk deposit s s' :
  create_escrow cfg n origin c b amount asset fiat cur meth bpk spk deposit s = Ok s' → effect n origin s s'.
Proof.
  unfold create_escrow. intros E. branches E. guards. subst.
  match goal with |- context [mkEscrow ?a1 ?a2 ?a3 ?a4 ?a5 ?a6 ?a7 ?a8 ?a9 ?a10 ?a11 ?a12 ?a13 ?a14 ?a15 ?a16 ?a17 ?a18 ?a19 ?a20] => set (e := mkEscrow a1 a2 a3 a4 a5 a6 a7 a8 a9 a10 a11 a12 a13 a14 a15 a16 a17 a18 a19 a20) end.
  eapply (escrow_created n _ _ _ _ b deposit e); done.
Qed.

Lemma advance_effects n origin id a s s' :
  confirm_share origin id s = Ok s' ∨ attest_funding origin id a s = Ok s' ∨ mark_paid n origin id s = Ok s' →
  effect n origin s s'.
Proof.
  intros [E|[E|E]]; revert E; unfold confirm_share, attest_funding, mark_paid; intros E;
    branches E; guards; subst.
  - eapply escrow_advanced; [done|done|by apply share_confirmed|done|done].
  - eapply escrow_advanced; [done|done|by apply funding_attested|done|done].
  - eapply escrow_advanced; [done|done|by apply payment_claimed|done|done].
Qed.

Lemma is_claimed_spec st : is_claimed st = true ↔ ∃ t, st = EscrowState.PaymentClaimed t.
Proof. destruct st; cbn; naive_solver. Qed.

Lemma is_disputed_spec st : is_disputed st = true ↔ ∃ t w, st = EscrowState.Disputed t w.
Proof. destruct st; cbn; naive_solver. Qed.

Lemma raise_effect n origin id s s' : raise_dispute n origin id s = Ok s' → effect n origin s s'.
Proof.
  unfold raise_dispute. intros E. destruct (ensure_signed origin) as [who|] eqn:Eo; [|done]. guards. subst.
  destruct (Escrows s !! id) as [e|] eqn:Ee; [|done].
  destruct (_ : result DisputeInitiator.DisputeInitiator Error) as [by_whom|] eqn:Ew in E; [|done].
  branches E. subst. match goal with H : is_claimed _ = true |- _ => apply is_claimed_spec in H as [t Ht] end.
  eapply escrow_advanced; [done|exact Ee|eapply dispute_raised; [|exact Ht|reflexivity]| |done].
  - destruct (Z.eqb_spec who (buyer e)); [by left|]. destruct (Z.eqb_spec who (seller e)); [by right|done].
  - unfold view. cbn. do 4 f_equal. destruct (who =? buyer e); [by injection Ew as <-|].
    destruct (who =? seller e); [by injection Ew as <-|done].
Qed.

Lemma finish_effects n origin id s s' :
  confirm_payment n origin id s = Ok s' ∨ cancel_escrow origin id s = Ok s' → effect n origin s s'.
Proof.
  intros [E|E]; revert E; unfold confirm_payment, cancel_escrow; intros E; branches E; guards; subst.
  - match goal with H : is_claimed _ = true |- _ => apply is_claimed_spec in H as [t Ht] end.
    eapply escrow_finished; [done|done|by eapply payment_confirmed|..].
    + rewrite view_event, view_put. match goal with H : view t1 = _ |- _ => rewrite H end.
      match goal with H : view t0 = _ |- _ => rewrite H end. done.
    + change (bank t1 = bank (give_back s (seller e) (chain_service_deposit e))). congruence.
  - eapply escrow_finished; [done|done|by apply cancelled|done|done].
Qed.

Lemma vote_effect n origin id vote s s' : vote_dispute cfg n origin id vote s = Ok s' → effect n origin s s'.
Proof.
  unfold vote_dispute. intros E. destruct (ensure_signed origin) as [who|] eqn:Eo; [|done].
  destruct (bool_decide _) eqn:Ea in E; [|done]. destruct (Escrows s !! id) as [e|] eqn:Ee; [|done].
  destruct (is_disputed _) eqn:Ed in E; [|done]. destruct (negb _) eqn:Ev in E; [|done]. guards. subst.
  apply is_disputed_spec in Ed as (t & by_whom & Est).
  eapply (vote_cast n _ _ _ who id e t by_whom vote); [done|cbn; rewrite lookup_fmap, fmap_is_Some; done|done|done|done| |].
  - revert E. unfold try_resolve_dispute, vote_counts. cbn.
    destruct (decided cfg _) as [to_buyer|]; [|by intros [= <-]].
    rewrite Ee. by intros [= <-].
  - revert E. unfold try_resolve_dispute. destruct (decided cfg _); [|by intros [= <-]].
    destruct (Escrows _ !! id); [|done]. by intros [= <-].
Qed.

Lemma sign_effect n origin id sig s s' : submit_chain_signature n origin id sig s = Ok s' → effect n origin s s'.
Proof.
  unfold submit_chain_signature. intros E. destruct (ensure_signed origin) as [who|] eqn:Eo; [|done].
  destruct (SigningRequests s !! id) as [r|] eqn:Er; [|done]. destruct (is_open _) eqn:Ep; [|done]. cbn zeta in E.
  destruct (Escrows _ !! rq_escrow r) as [e|] eqn:Ee; [|done]. destruct (state e) as [| | | | |to_buyer t| | | |] eqn:Est; try done.
  destruct (update_trader_successful_trade _ _ _ _) as [s1|] eqn:Et in E; [|done]. guards.
  destruct (dispute_lost_quiet
    (give_back (s <| SigningRequests := <[id := r <| rq_status := SigningRequestStatus.Completed sig |>]> (SigningRequests s) |>)
       (seller e) (chain_service_deposit e)) (if to_buyer then seller e else buyer e)) as [Hv Hb].
  injection E as <-. eapply (chain_signed n _ _ _ who id r e to_buyer t sig); [done|done|done|exact Ee|done|..].
  - set (e' := e <| state := released to_buyer |>).
    transitivity ((view s1) <| v_escrows := <[rq_escrow r := e']> (v_escrows (view s1)) |>); [by destruct to_buyer|].
    match goal with H : view s1 = _ |- _ => rewrite H end. rewrite Hv. done.
  - change (bank s1 = unreserve (bank s) (seller e) (chain_service_deposit e)). by etrans; [|exact Hb].
Qed.

(** Every call that succeeds has an effect. *)
Lemma dispatch_effect n origin c s s' : dispatch cfg n origin c s = Ok s' → effect n origin s s'.
Proof.
  pose proof (shielded_effects n origin c s s') as Hs. destruct c; cbn [dispatch]; intros E;
    first [ exact (Hs E) | exact (message_effect _ _ _ _ _ _ E) | exact (raise_effect _ _ _ _ _ E)
          | exact (vote_effect _ _ _ _ _ _ E) | exact (sign_effect _ _ _ _ _ _ E) | by eapply create_escrow_effect
          | eapply trader_effects; by eauto | eapply agent_effects; by eauto | eapply arbitrator_effects; by eauto
          | eapply finish_effects; by eauto | eapply (advance_effects _ _ _ (SelfAttested 0)); by eauto
          | eapply advance_effects; by eauto ].
Unshelve. all: exact 0.
Qed.

(** * The end of a block *)

Lemma time_out_expiry n id s : expiry n s (time_out (to_u32 n) s id).
Proof.
  unfold time_out. destruct (SigningRequests s !! id) as [r|] eqn:Er; [|by apply not_expired].
  destruct (Z.ltb_spec (rq_deadline r) (to_u32 n)); [|by apply not_expired].
  destruct (is_open (rq_status r)) eqn:Eo; [|by apply not_expired]. cbn [andb].
  destruct (Escrows _ !! rq_escrow r) as [e|] eqn:Ee.
  - by eapply (request_expired n _ _ id r e).
  - by eapply (request_lost n _ _ id r).
Qed.

Lemma timeouts_expiry n s : rtc (expiry n) s (process_signing_timeouts (to_u32 n) s).
Proof.
  unfold process_signing_timeouts. transitivity (foldl (time_out (to_u32 n)) s (PendingSigningRequests s)).
  - generalize (PendingSigningRequests s) as l. intros l. revert s.
    induction l as [|id l IH]; intros s; cbn; [done|]. eapply rtc_l; [apply time_out_expiry|apply IH].
  - apply rtc_once. by apply not_expired.
Qed.

Lemma foldl_quiet {A} (f : State → A → State) :
  (∀ s x, view (f s x) = view s ∧ bank (f s x) = bank s) →
  ∀ l s, view (foldl f s l) = view s ∧ bank (foldl f s l) = bank s.
Proof.
  intros Hf l. induction l as [|x l IH]; intros s; cbn; [done|]. destruct (IH (f s x)) as [-> ->]. apply Hf.
Qed.

Lemma shielded_work_quiet n s :
  let s' := maybe_update_epoch n (process_dispute_timeouts n (process_shielded_timeouts n s)) in
  view s' = view s ∧ bank s' = bank s.
Proof.
  assert (∀ s, view (maybe_update_epoch n s) = view s ∧ bank (maybe_update_epoch n s) = bank s) as Q1.
  { intros t. unfold maybe_update_epoch. by destruct (_ <? _). }
  assert (∀ s, view (process_dispute_timeouts n s) = view s ∧ bank (process_dispute_timeouts n s) = bank s) as Q2.
  { intros t. unfold process_dispute_timeouts. cbn zeta.
    match goal with |- view (set_shielded (foldl ?f _ ?l) _) = _ ∧ _ => exact (foldl_quiet f ltac:(done) l t) end. }
  cbn zeta. destruct (Q1 (process_dispute_timeouts n (process_shielded_timeouts n s))) as [-> ->].
  destruct (Q2 (process_shielded_timeouts n s)) as [-> ->]. by apply foldl_quiet.
Qed.

(** What the end of a block does is a sequence of expiries. *)
Lemma finalize_expiry n s : rtc (expiry n) s (on_finalize n s).
Proof.
  unfold on_finalize. eapply rtc_r; [apply timeouts_expiry|].
  destruct (shielded_work_quiet (to_u32 n) (process_signing_timeouts (to_u32 n) s)). by apply not_expired.
Qed.
End effects.
