(* ===== verification/ArbSafe.v ===== *)
(** Properties of the escrow arbitration pallet over every history of calls and blocks: what
    accounts have reserved is what the pallet holds for them, nobody but the parties moves an
    escrow, disputes go to the majority of the arbitrators; and what leaves deposits locked. *)
From stdpp Require Import base list gmap relations.
From Stdlib Require Import ZArith Lia.
From S2P Require Import Prelude Bytes OrdMap Pallet ArbTypes Arb ArbShield ArbStep.

Local Open Scope Z_scope.

(** * What the pallet holds *)

Definition is_final (st : EscrowState.EscrowState) : bool :=
  match st with
  | EscrowState.ReleasedToBuyer | EscrowState.ReleasedToSeller | EscrowState.Expired | EscrowState.Cancelled => true
  | _ => false
  end.

(** The deposit of an escrow that has not ended. *)
Definition locked (e : Escrow) : Z := if is_final (state e) then 0 else chain_service_deposit e.

Definition sold_by (who : Z) (e : Escrow) : Z := if seller e =? who then locked e else 0.

(** The stakes of an account and the deposits of its open escrows. *)
Definition held (v : View) (who : Z) : Z :=
  default 0 (v_agents v !! who) + default 0 (v_arbitrators v !! who) + msum (fun _ => sold_by who) (v_escrows v).

(** The votes of a kind on an escrow. *)
Definition votes_for (v : View) (id : Z) (vote : DisputeVote.DisputeVote) : Z :=
  msum (fun k x => if (k.1 =? id) && bool_decide (x = vote) then 1 else 0) (v_votes v).

(** The state of an escrow for which the chain has been asked to sign. *)
Definition decided_state (to_buyer : bool) (st : EscrowState.EscrowState) : Prop :=
  (∃ t, st = EscrowState.PendingReveal to_buyer t) ∨ st = released to_buyer ∨ st = EscrowState.Cancelled.

(** The states that only the chain's signature leads to. *)
Definition asked (st : EscrowState.EscrowState) : Prop :=
  (∃ b t, st = EscrowState.PendingReveal b t) ∨ st = EscrowState.ReleasedToSeller.

Definition winner_key (e : Escrow) (to_buyer : bool) : Z :=
  if to_buyer then buyer_escrow_pubkey e else seller_escrow_pubkey e.

(** What of an escrow never changes before the chain is asked to sign. *)
Definition terms (e : Escrow) : Escrow :=
  e <| state := EscrowState.AwaitingBuyerConfirmation |> <| funding_attestation := None |>.

Lemma terms_eq e e' : terms e' = terms e →
  e_id e' = e_id e ∧ buyer e' = buyer e ∧ seller e' = seller e ∧ crypto_amount e' = crypto_amount e ∧
  buyer_escrow_pubkey e' = buyer_escrow_pubkey e ∧ seller_escrow_pubkey e' = seller_escrow_pubkey e ∧
  chain_service_deposit e' = chain_service_deposit e ∧ signing_request_id e' = signing_request_id e.
Proof. by intros [=]. Qed.

Lemma advance_terms n who e e' : advance n who e e' → terms e' = terms e.
Proof. by destruct 1. Qed.

Lemma finish_terms who e e' : finish who e e' → terms e' = terms e.
Proof. by destruct 1. Qed.

Lemma advance_states n who e e' : advance n who e e' →
  (∀ b, ¬ decided_state b (state e)) ∧ ¬ asked (state e') ∧
  is_final (state e) = false ∧ is_final (state e') = false.
Proof.
  intros Ha. split_and!.
  - intros b [[t E]|[E|E]]; destruct Ha; try congruence; destruct b; cbn in E; congruence.
  - unfold asked. destruct Ha; naive_solver.
  - destruct Ha as [? E|? ? E|? E|? ? ? E]; by rewrite E.
  - by destruct Ha.
Qed.

Lemma finish_states who e e' : finish who e e' →
  (∀ b, ¬ decided_state b (state e)) ∧ ¬ asked (state e') ∧
  is_final (state e) = false ∧ is_final (state e') = true ∧ who = seller e.
Proof.
  intros Ha. split_and!.
  - intros b [[t E]|[E|E]]; destruct Ha; try congruence; destruct b; cbn in E; congruence.
  - unfold asked. destruct Ha; naive_solver.
  - destruct Ha as [? ? E|? E]; by rewrite E.
  - by destruct Ha.
  - by destruct Ha.
Qed.

Section safe.
Context `{CurrencyLaws} `{Runtime} `{Sha256} (cfg : Config).
Hypothesis blake2_inj : ∀ a b, blake2_256 a = blake2_256 b → a = b.
Hypothesis amounts_ok : 0 ≤ MinAgentStake cfg ∧ 0 ≤ MinArbitratorStake cfg ∧ 0 ≤ MinChainServiceDeposit cfg.

Record view_ok (v : View) : Prop := {
  agents_nonneg : map_Forall (fun _ x => 0 ≤ x) (v_agents v);
  arbitrators_nonneg : map_Forall (fun _ x => 0 ≤ x) (v_arbitrators v);
  deposits_nonneg : map_Forall (fun _ e => 0 ≤ chain_service_deposit e) (v_escrows v);
  ids_used : map_Forall (fun id e => e_id e = id ∧
    ∃ a b k pk, id = compute_escrow_id a b k pk ∧ 0 ≤ k < v_nonce v) (v_escrows v);
  nonce_fits : fits 64 (v_nonce v);
  next_fits : fits 64 (v_next v);
  votes_fit : Z.of_nat (size (v_votes v)) < 2 ^ 32;
  counts_exact : ∀ id, default (0, 0, 0) (v_counts v !! id) =
    (votes_for v id DisputeVote.Buyer, votes_for v id DisputeVote.Seller, votes_for v id DisputeVote.Abstain);
  requests_ok : map_Forall (fun rid r => 0 ≤ rid < v_next v ∧
    ∃ e b, v_escrows v !! rq_escrow r = Some e ∧ signing_request_id e = Some rid ∧ decided_state b (state e) ∧
      (is_open (rq_status r) = true → ∃ t, state e = EscrowState.PendingReveal b t) ∧
      decided cfg (default (0, 0, 0) (v_counts v !! rq_escrow r)) = Some b ∧
      rq_recipient r = winner_key e b ∧ rq_amount r = crypto_amount e) (v_requests v);
  asked_ok : map_Forall (fun id e => asked (state e) →
    ∃ rid r, v_requests v !! rid = Some r ∧ rq_escrow r = id ∧
      ((∃ b t, state e = EscrowState.PendingReveal b t) → is_open (rq_status r) = true)) (v_escrows v);
}.

(** * Sums *)

Lemma unreserve_full b who x a :
  0 ≤ x ≤ reserved b who → reserved (unreserve b who x) a = reserved b a - (if a =? who then x else 0).
Proof. intros Hx. rewrite unreserve_spec by lia. by rewrite Z.min_l by lia. Qed.

Lemma held_escrow v id e e' a :
  v_escrows v !! id = Some e → seller e' = seller e →
  held (v <| v_escrows := <[id := e']> (v_escrows v) |>) a = held v a + (if a =? seller e then locked e' - locked e else 0).
Proof.
  intros He Hs. unfold held. cbn. rewrite msum_insert. unfold at_key. rewrite He. unfold sold_by. rewrite Hs, (Z.eqb_sym a).
  destruct (seller e =? a); lia.
Qed.

Lemma held_bounds v a : view_ok v → 0 ≤ held v a ∧
  (∀ x, v_agents v !! a = Some x → 0 ≤ x ≤ held v a) ∧ (∀ x, v_arbitrators v !! a = Some x → 0 ≤ x ≤ held v a) ∧
  (∀ id e, v_escrows v !! id = Some e → seller e = a → 0 ≤ locked e ≤ held v a).
Proof.
  intros [K1 K2 K3 _ _ _ _ _ _ _].
  assert (∀ id e, v_escrows v !! id = Some e → 0 ≤ sold_by a e) as Hn.
  { intros id e He. specialize (K3 _ _ He). cbn in K3. unfold sold_by, locked. repeat case_match; lia. }
  assert (0 ≤ default 0 (v_agents v !! a)) as A1 by (destruct (v_agents v !! a) eqn:E; cbn; [exact (K1 _ _ E)|lia]).
  assert (0 ≤ default 0 (v_arbitrators v !! a)) as A2 by (destruct (v_arbitrators v !! a) eqn:E; cbn; [exact (K2 _ _ E)|lia]).
  assert (0 ≤ msum (fun _ => sold_by a) (v_escrows v)) as A3 by (apply msum_nonneg; exact Hn).
  unfold held. split_and!; [lia|intros x Hx; rewrite Hx in *; cbn in *; lia..|].
  intros id e He Hs. pose proof (msum_lookup_le (fun _ => sold_by a) (v_escrows v) id e Hn He) as Hle.
  pose proof (Hn _ _ He) as Hpos. cbn in Hle.
  assert (sold_by a e = locked e) as Es by (unfold sold_by; rewrite Hs; by rewrite Z.eqb_refl). lia.
Qed.

Lemma escrow_id_nonce a b k pk a' b' k' pk' :
  compute_escrow_id a b k pk = compute_escrow_id a' b' k' pk' → fits 64 k → fits 64 k' → k = k'.
Proof.
  unfold compute_escrow_id. intros E%blake2_inj Hk Hk'. rewrite !app_assoc in E.
  apply app_inj_2 in E as [E _]; [|by rewrite !length_to_be].
  apply app_inj_2 in E as [_ E]; [|by rewrite !length_to_le].
  apply (f_equal from_le) in E. rewrite !from_le_to_le, !wrap_small in E by done. done.
Qed.

Lemma decided_Some b l a w :
  decided cfg (b, l, a) = Some w ↔ MinArbitratorsForDispute cfg ≤ wadd 32 b l ∧ (if w then l < b else b < l).
Proof.
  unfold decided. destruct (Z.ltb_spec (wadd 32 b l) (MinArbitratorsForDispute cfg)); [split; [done|lia]|].
  destruct (Z.ltb_spec l b), (Z.ltb_spec b l), w; naive_solver lia.
Qed.

(** * Changes that keep a view in order *)

Lemma move_ok v id e e' :
  view_ok v → v_escrows v !! id = Some e → terms e' = terms e → (∀ b, ¬ decided_state b (state e)) →
  ¬ asked (state e') → view_ok (v <| v_escrows := <[id := e']> (v_escrows v) |>).
Proof.
  intros [K1 K2 K3 K4 K5 K6 KV K7 K8 K9] He (T1 & T2 & T3 & T4 & T5 & T6 & T7 & T8)%terms_eq Hd Hp. split; cbn; try done.
  - apply map_Forall_insert_2; [|done]. rewrite T7. exact (K3 _ _ He).
  - apply map_Forall_insert_2; [|done]. rewrite T1. exact (K4 _ _ He).
  - intros rid r Hr. destruct (K8 _ _ Hr) as (Hlt & f & b & Hf & Hsig & Hst & Hrest). split; [done|].
    exists f, b. split; [|done]. rewrite lookup_insert_ne; [done|]. intros Ei.
    rewrite <-Ei, He in Hf. injection Hf as <-. by apply (Hd b).
  - by apply map_Forall_insert_2.
Qed.

Lemma create_ok v e who b deposit :
  view_ok v → v_nonce v < 2 ^ 64 - 1 → new_escrow who b (v_nonce v) deposit e → 0 ≤ deposit →
  v_escrows v !! e_id e = None ∧
  view_ok (v <| v_escrows := <[e_id e := e]> (v_escrows v) |> <| v_nonce := wadd 64 (v_nonce v) 1 |>).
Proof.
  intros [K1 K2 K3 K4 K5 K6 KV K7 K8 K9] Hroom (E1 & E2 & E3 & E4 & E5 & E6 & E7) Hdep.
  assert (v_escrows v !! e_id e = None) as Hfresh.
  { destruct (v_escrows v !! e_id e) as [f|] eqn:Ef; [|done]. destruct (K4 _ _ Ef) as (_ & a & c & k & pk & Ek & Hk).
    rewrite E1 in Ek. apply escrow_id_nonce in Ek; [lia|done|]. destruct K5. split; lia. }
  split; [done|]. assert (wadd 64 (v_nonce v) 1 = v_nonce v + 1) as En by (apply wadd_small; destruct K5; lia).
  split; cbn; try done.
  - apply map_Forall_insert_2; [|done]. lia.
  - rewrite En. apply map_Forall_insert_2.
    + split; [done|]. exists who, b, (v_nonce v), (seller_escrow_pubkey e). split; [done|]. destruct K5. lia.
    + intros id f Hf. destruct (K4 _ _ Hf) as (? & a & c & k & pk & ? & ?). split; [done|]. exists a, c, k, pk. split; [done|lia].
  - rewrite En. destruct K5. split; lia.
  - intros rid r Hr. destruct (K8 _ _ Hr) as (Hlt & f & b' & Hf & Hrest). split; [done|]. exists f, b'. split; [|done].
    rewrite lookup_insert_ne; [done|]. intros Ei. rewrite Ei in Hfresh. by rewrite Hfresh in Hf.
  - apply map_Forall_insert_2; [|done]. unfold asked. rewrite E5. naive_solver.
Qed.

(** The request of a decided escrow is closed, the escrow has ended as decided or is cancelled. *)
Lemma close_ok v rid r e b t st status :
  view_ok v → v_requests v !! rid = Some r → is_open (rq_status r) = true → v_escrows v !! rq_escrow r = Some e →
  state e = EscrowState.PendingReveal b t → st = released b ∨ st = EscrowState.Cancelled → is_open status = false →
  view_ok (v <| v_escrows := <[rq_escrow r := e <| state := st |>]> (v_escrows v) |>
             <| v_requests := <[rid := r <| rq_status := status |>]> (v_requests v) |>).
Proof.
  intros [K1 K2 K3 K4 K5 K6 KV K7 K8 K9] Hr Ho He Est Hst Hc.
  assert (∀ b t, st ≠ EscrowState.PendingReveal b t) as Hn by (intros c u ->; destruct b, Hst; done).
  destruct (K8 _ _ Hr) as (Hlt & f & b' & Hf & Hsig & Hds & Hop & Hdec & Hk).
  rewrite He in Hf. injection Hf as <-. destruct (Hop Ho) as [u Hu]. rewrite Est in Hu. injection Hu as <- <-.
  split; cbn; try done.
  - apply map_Forall_insert_2; [|done]. exact (K3 _ _ He).
  - apply map_Forall_insert_2; [|done]. exact (K4 _ _ He).
  - intros rid' r' Hr'. apply lookup_insert_Some in Hr' as [[<- <-]|[Hne Hr']].
    + split; [done|]. exists (e <| state := st |>), b. cbn. rewrite lookup_insert_eq. split_and!; try done.
      * right. destruct Hst; auto.
      * by rewrite Hc.
      * destruct Hk as [-> _]. by destruct b.
      * by destruct Hk as [_ ->].
    + destruct (K8 _ _ Hr') as (Hlt' & f & b' & Hf & Hsig' & Hrest). split; [done|]. exists f, b'. split; [|done].
      rewrite lookup_insert_ne; [done|]. intros Ei. rewrite <-Ei, He in Hf. injection Hf as <-. congruence.
  - intros id f Hf Ha. apply lookup_insert_Some in Hf as [[<- <-]|[Hne Hf]].
    + exists rid, (r <| rq_status := status |>). rewrite lookup_insert_eq. split_and!; try done.
      intros (c & u & Ec). by destruct (Hn c u).
    + destruct (K9 _ _ Hf Ha) as (rid' & r' & Hr' & Er' & Ho'). exists rid', r'. split; [|done].
      rewrite lookup_insert_ne; [done|]. intros ->. congruence.
Qed.

(** ** Votes *)

Lemma votes_for_bounds v id x : 0 ≤ votes_for v id x ≤ Z.of_nat (size (v_votes v)).
Proof.
  unfold votes_for. split.
  - apply msum_nonneg. intros k y _. by destruct (_ && _).
  - transitivity (msum (fun _ _ => 1) (v_votes v)).
    + apply msum_le. intros k y _. by destruct (_ && _).
    + unfold msum. rewrite <-length_entries. induction (entries (v_votes v)); cbn [map zsum length]; lia.
Qed.

Lemma votes_for_two v id : votes_for v id DisputeVote.Buyer + votes_for v id DisputeVote.Seller ≤ Z.of_nat (size (v_votes v)).
Proof.
  unfold votes_for, msum. rewrite <-zsum_map_add, <-length_entries.
  induction (entries (v_votes v)) as [|[k x] l IH]; [done|]. cbn [map zsum length fst snd].
  destruct (k.1 =? id), x; cbn [andb bool_decide]; repeat case_bool_decide; try done; lia.
Qed.

Lemma votes_for_vote v id who vote id' x :
  v_votes v !! (id, who) = None →
  votes_for (with_vote v id who vote) id' x =
    votes_for v id' x + (if (id =? id') && bool_decide (vote = x) then 1 else 0).
Proof. intros Hn. unfold votes_for, with_vote. cbn. rewrite msum_insert_new by done. cbn. lia. Qed.

Lemma counts_after v id who vote :
  (∀ id, default (0, 0, 0) (v_counts v !! id) =
    (votes_for v id DisputeVote.Buyer, votes_for v id DisputeVote.Seller, votes_for v id DisputeVote.Abstain)) →
  Z.of_nat (size (v_votes v)) < 2 ^ 32 - 1 → v_votes v !! (id, who) = None →
  ∀ id', let w := with_vote v id who vote in default (0, 0, 0) (v_counts w !! id') =
    (votes_for w id' DisputeVote.Buyer, votes_for w id' DisputeVote.Seller, votes_for w id' DisputeVote.Abstain).
Proof.
  intros Hc Hroom Hn id' w. unfold w. rewrite !votes_for_vote by done. cbn [with_vote v_counts set_field].
  unfold with_vote. cbn. destruct (Z.eqb_spec id id') as [<-|Hne]; cbn [andb].
  - rewrite lookup_insert_eq. cbn [default]. rewrite Hc.
    pose proof (votes_for_bounds v id DisputeVote.Buyer). pose proof (votes_for_bounds v id DisputeVote.Seller).
    pose proof (votes_for_bounds v id DisputeVote.Abstain).
    destruct vote; cbn; rewrite wadd_small by lia; rewrite ?Z.add_0_r; done.
  - rewrite lookup_insert_ne by done. rewrite Hc, !Z.add_0_r. done.
Qed.

Lemma vote_ok v id who vote e t by_whom :
  view_ok v → Z.of_nat (size (v_votes v)) < 2 ^ 32 - 1 → v_votes v !! (id, who) = None →
  v_escrows v !! id = Some e → state e = EscrowState.Disputed t by_whom → view_ok (with_vote v id who vote).
Proof.
  intros [K1 K2 K3 K4 K5 K6 KV K7 K8 K9] Hroom Hn He Est. split; try done.
  - unfold with_vote. cbn. rewrite map_size_insert_None by done. lia.
  - by apply counts_after.
  - intros rid r Hr. destruct (K8 _ _ Hr) as (Hlt & f & b & Hf & Hsig & Hst & Hop & Hdec & Hk1 & Hk2). split; [done|].
    exists f, b. split_and!; try done. cbn. rewrite lookup_insert_ne; [done|]. intros Ei.
    rewrite <-Ei, He in Hf. injection Hf as <-. destruct Hst as [[u E]|[E|E]]; rewrite Est in E; by destruct b.
Qed.

(** An escrow in dispute for which the votes have decided. *)
Lemma resolve_ok v id e t by_whom b n :
  view_ok v → v_next v < 2 ^ 64 - 1 → v_escrows v !! id = Some e → state e = EscrowState.Disputed t by_whom →
  decided cfg (default (0, 0, 0) (v_counts v !! id)) = Some b →
  view_ok (v <| v_escrows := <[id := e <| state := EscrowState.PendingReveal b (to_u32 n) |>
                                       <| signing_request_id := Some (v_next v) |>]> (v_escrows v) |>
             <| v_requests := <[v_next v := new_request cfg n id e b]> (v_requests v) |>
             <| v_next := wadd 64 (v_next v) 1 |>).
Proof.
  intros [K1 K2 K3 K4 K5 K6 KV K7 K8 K9] Hroom He Est Hdec.
  assert (wadd 64 (v_next v) 1 = v_next v + 1) as En by (apply wadd_small; destruct K6; lia).
  split; cbn; try done.
  - apply map_Forall_insert_2; [|done]. exact (K3 _ _ He).
  - apply map_Forall_insert_2; [|done]. exact (K4 _ _ He).
  - rewrite En. destruct K6. split; lia.
  - rewrite En. intros rid r Hr. apply lookup_insert_Some in Hr as [[<- <-]|[Hne Hr]].
    + destruct K6. split; [lia|]. eexists _, b. split; [apply lookup_insert_eq|]. split_and!; try done.
      * left. by eexists.
      * by eexists.
    + destruct (K8 _ _ Hr) as (Hlt & f & b' & Hf & Hsig & Hst & Hrest). split; [lia|]. exists f, b'. split; [|done].
      rewrite lookup_insert_ne; [done|]. intros Ei. rewrite <-Ei, He in Hf. injection Hf as <-.
      destruct Hst as [[u E]|[E|E]]; rewrite Est in E; by destruct b'.
  - intros id' f Hf Ha. apply lookup_insert_Some in Hf as [[<- <-]|[Hne Hf]].
    + exists (v_next v), (new_request cfg n id e b). by rewrite lookup_insert_eq.
    + destruct (K9 _ _ Hf Ha) as (rid & r & Hr & Er & Ho). exists rid, r. split; [|done].
      rewrite lookup_insert_ne; [done|]. intros <-. destruct (K8 _ _ Hr) as [? _]. lia.
Qed.

(** * Money *)

(** What accounts have reserved besides what the pallet holds for them. *)
Definition surplus (s : State) (a : Z) : Z := reserved (bank s) a - held (view s) a.

(** The counters of the storage have not come to their end. *)
Definition room (s : State) : Prop :=
  EscrowNonce s < 2 ^ 64 - 1 ∧ NextSigningRequestId s < 2 ^ 64 - 1 ∧ Z.of_nat (size (DisputeVotes s)) < 2 ^ 32 - 1.

Lemma surplus_reserve s s' who x a :
  0 ≤ x → reserve (bank s) who x = Some (bank s') →
  (∀ a, held (view s') a = held (view s) a + (if a =? who then x else 0)) → surplus s' a = surplus s a.
Proof. intros Hx Hr Hh. unfold surplus. rewrite Hh, (reserve_spec _ _ _ _ Hx Hr). lia. Qed.

Lemma surplus_unreserve s s' who x a :
  0 ≤ x ≤ held (view s) who → 0 ≤ surplus s who → bank s' = unreserve (bank s) who x →
  (∀ a, held (view s') a = held (view s) a - (if a =? who then x else 0)) → surplus s' a = surplus s a.
Proof. intros Hx Hs Hb Hh. unfold surplus in *. rewrite Hh, Hb, unreserve_full by lia. lia. Qed.

Lemma surplus_same s s' a : held (view s') a = held (view s) a → bank s' = bank s → surplus s' a = surplus s a.
Proof. unfold surplus. by intros -> ->. Qed.

(** An escrow that ends gives its deposit back. *)
Lemma surplus_end s s' id e e' a :
  view_ok (view s) → 0 ≤ surplus s (seller e) → v_escrows (view s) !! id = Some e → seller e' = seller e →
  is_final (state e) = false → is_final (state e') = true →
  (∀ a, held (view s') a = held ((view s) <| v_escrows := <[id := e']> (v_escrows (view s)) |>) a) →
  bank s' = unreserve (bank s) (seller e) (chain_service_deposit e) → surplus s' a = surplus s a.
Proof.
  intros Hok Hs He Hse Hf Hf' Hh Hb. destruct (held_bounds _ (seller e) Hok) as (_ & _ & _ & Hd).
  pose proof (Hd _ _ He eq_refl) as Hl. assert (locked e = chain_service_deposit e) as El by (unfold locked; by rewrite Hf).
  rewrite El in Hl. apply (surplus_unreserve _ _ _ _ _ Hl Hs Hb). intros c.
  rewrite Hh, (held_escrow _ _ _ _ _ He Hse), El. unfold locked at 1. rewrite Hf'. destruct (c =? seller e); lia.
Qed.

Lemma held_escrow_same v id e e' a :
  v_escrows v !! id = Some e → seller e' = seller e → locked e' = locked e →
  held (v <| v_escrows := <[id := e']> (v_escrows v) |>) a = held v a.
Proof. intros He Hs El. rewrite (held_escrow _ _ _ _ _ He Hs), El. destruct (a =? seller e); lia. Qed.

Lemma agents_ok v m : view_ok v → map_Forall (fun _ x => 0 ≤ x) m → view_ok (v <| v_agents := m |>).
Proof. intros []. by split. Qed.

Lemma arbitrators_ok v m : view_ok v → map_Forall (fun _ x => 0 ≤ x) m → view_ok (v <| v_arbitrators := m |>).
Proof. intros []. by split. Qed.

Lemma stake_put (m : gmap Z Z) who x a :
  m !! who = None → default 0 (<[who := x]> m !! a) = default 0 (m !! a) + (if a =? who then x else 0).
Proof.
  intros Hn. destruct (Z.eqb_spec a who) as [->|]; [rewrite lookup_insert_eq, Hn; cbn; lia|rewrite lookup_insert_ne; lia || done].
Qed.

Lemma stake_taken (m : gmap Z Z) who x a :
  m !! who = Some x → default 0 (delete who m !! a) = default 0 (m !! a) - (if a =? who then x else 0).
Proof.
  intros Hx. destruct (Z.eqb_spec a who) as [->|]; [rewrite lookup_delete_eq, Hx; cbn; lia|rewrite lookup_delete_ne; lia || done].
Qed.

Lemma effect_ok n o s s' :
  view_ok (view s) → room s → (∀ a, 0 ≤ surplus s a) → effect cfg n o s s' →
  view_ok (view s') ∧ ∀ a, surplus s' a = surplus s a.
Proof.
  intros Hok (R1 & R2 & R3) Hs Heff. destruct amounts_ok as (A1 & A2 & A3).
  destruct Heff as [Ev Eb|who _ Hw Ev Eb|who x _ Hw Ev Eb|who _ Hw Ev Eb|who x _ Hw Ev Eb
    |who b dep e _ Hnew Hmin Ev Eb|who id e e' _ He Hadv Ev Eb|who id e e' _ He Hfin Ev Eb
    |who id e t by_whom vote _ Harb He Est Hnv v Ev Eb|who id r e b t sig _ Hr Hop He Est Ev Eb]; rewrite Ev.
  - split; [done|]. intros a. apply surplus_same; [by rewrite Ev|done].
  - split; [apply agents_ok, map_Forall_insert_2; try done; apply Hok|]. intros a. eapply surplus_reserve; [|done|]; [done|].
    intros c. rewrite Ev. unfold held. cbn [v_agents set_field v_arbitrators v_escrows]. rewrite stake_put by done. lia.
  - split; [apply agents_ok, map_Forall_delete; [done|apply Hok]|]. intros a.
    destruct (held_bounds _ who Hok) as (_ & Hx & _). eapply surplus_unreserve; [by apply Hx|done|done|].
    intros c. rewrite Ev. unfold held. cbn [v_agents set_field v_arbitrators v_escrows]. rewrite (stake_taken _ _ x) by done. lia.
  - split; [apply arbitrators_ok, map_Forall_insert_2; try done; apply Hok|]. intros a. eapply surplus_reserve; [|done|]; [done|].
    intros c. rewrite Ev. unfold held. cbn [v_agents set_field v_arbitrators v_escrows]. rewrite stake_put by done. lia.
  - split; [apply arbitrators_ok, map_Forall_delete; [done|apply Hok]|]. intros a.
    destruct (held_bounds _ who Hok) as (_ & _ & Hx & _). eapply surplus_unreserve; [by apply Hx|done|done|].
    intros c. rewrite Ev. unfold held. cbn [v_agents set_field v_arbitrators v_escrows]. rewrite (stake_taken _ _ x) by done. lia.
  - destruct (create_ok (view s) e who b dep Hok R1 Hnew) as [Hf Hv]; [lia|]. split; [done|]. intros a.
    apply (surplus_reserve _ _ who dep); [lia|done|]. intros c. rewrite Ev. unfold held.
    cbn [v_agents set_field v_arbitrators v_escrows]. rewrite msum_insert_new by done.
    destruct Hnew as (_ & E2 & _ & E4 & E5 & _). unfold sold_by at 1, locked. rewrite E2, E4, E5, Z.eqb_sym. cbn. lia.
  - pose proof (advance_states _ _ _ _ Hadv) as (D1 & D2 & D3 & D4).
    pose proof (advance_terms _ _ _ _ Hadv) as T. split; [by eapply move_ok|]. apply terms_eq in T.
    intros a. apply surplus_same; [|done]. rewrite Ev. eapply held_escrow_same; [done|by apply T|].
    unfold locked. rewrite D3, D4. by apply T.
  - pose proof (finish_states _ _ _ Hfin) as (D1 & D2 & D3 & D4 & D5).
    pose proof (finish_terms _ _ _ Hfin) as T. split; [by eapply move_ok|]. apply terms_eq in T.
    intros a. eapply (surplus_end s s' id e e'); try done; [by apply T|]. intros c. by rewrite Ev.
  - assert (view_ok v) as Hv by (by eapply vote_ok).
    destruct (decided cfg _) as [b|] eqn:Ed in Ev |- *.
    + split; [by eapply resolve_ok|]. intros a. apply surplus_same; [|done]. rewrite Ev.
      set (e' := e <| state := EscrowState.PendingReveal b (to_u32 n) |> <| signing_request_id := Some (v_next v) |>).
      assert (locked e' = locked e) as El by (unfold locked; by rewrite Est).
      exact (held_escrow_same v id e e' a He eq_refl El).
    + split; [done|]. intros a. apply surplus_same; [|done]. by rewrite Ev.
  - split; [eapply close_ok; try done; by left|]. intros a.
    eapply (surplus_end s s' (rq_escrow r) e (e <| state := released b |>)); try done;
      [by rewrite Est|by destruct b|intros c; by rewrite Ev].
Qed.

Lemma expiry_ok n s s' :
  view_ok (view s) → (∀ a, 0 ≤ surplus s a) → expiry n s s' →
  view_ok (view s') ∧ ∀ a, surplus s' a = surplus s a.
Proof.
  intros Hok Hs [Ev Eb|id r Hr Ho He Ev Eb|id r e Hr Ho _ He Ev Eb]; rewrite Ev.
  - split; [done|]. intros a. apply surplus_same; [by rewrite Ev|done].
  - destruct (requests_ok _ Hok _ _ Hr) as (_ & e & b & Hf & _). congruence.
  - destruct (requests_ok _ Hok _ _ Hr) as (_ & f & b & Hf & _ & _ & Hp & _). rewrite He in Hf. injection Hf as <-.
    destruct (Hp Ho) as [t Et]. split; [eapply close_ok; try done; by right|]. intros a.
    eapply (surplus_end s s' (rq_escrow r) e (e <| state := EscrowState.Cancelled |>)); try done;
      [by rewrite Et|intros c; by rewrite Ev].
Qed.

(** * Histories *)

(** A state of the chain, and what each account has reserved with other pallets, which move
    only that. *)
Inductive step (who_signs : Z → Prop) : State * (Z → Z) → State * (Z → Z) → Prop :=
| call_step n origin c s s' o :
    room s → (∀ who, origin = Signed who → who_signs who) → dispatch cfg n origin c s = Ok s' →
    step who_signs (s, o) (s', o)
| block_step n s o : step who_signs (s, o) (on_finalize n s, o)
| others_step s b o o' :
    (∀ a, 0 ≤ o' a) → (∀ a, reserved b a - o' a = reserved (bank s) a - o a) →
    step who_signs (s, o) (s <| bank := b |>, o').

Definition anyone (who : Z) : Prop := True.

(** From a chain without escrows, with any key of the chain. *)
Definition reachable (b : Bank) (key : option ChainThresholdKey) (so : State * (Z → Z)) : Prop :=
  rtc (step anyone) (genesis b key, reserved b) so.

Definition state_ok (so : State * (Z → Z)) : Prop :=
  view_ok (view so.1) ∧ ∀ a, 0 ≤ so.2 a ∧ surplus so.1 a = so.2 a.

Lemma expiries_ok n s s' :
  rtc (expiry n) s s' → view_ok (view s) → (∀ a, 0 ≤ surplus s a) →
  view_ok (view s') ∧ ∀ a, surplus s' a = surplus s a.
Proof using blake2_inj amounts_ok H0.
  induction 1 as [s|s s1 s' Hstep _ IH]; intros Hok Hs; [done|].
  destruct (expiry_ok n s s1 Hok Hs Hstep) as [Hok1 E1]. destruct IH as [Hok' E']; [done|intros a; by rewrite E1|].
  split; [done|]. intros a. by rewrite E', E1.
Qed.

Lemma chain_step_ok signs so so' : step signs so so' → state_ok so → state_ok so'.
Proof using blake2_inj amounts_ok H0.
  intros Hstep [Hok Hs]. destruct Hstep as [n origin c s s' o Hr _ Hd|n s o|s b o o' Ho Hb]; cbn [fst snd] in *.
  - destruct (effect_ok n origin s s' Hok Hr) as [Hok' E]; [intros a; destruct (Hs a); lia|by eapply dispatch_effect|].
    split; [done|]. intros a. rewrite E. apply Hs.
  - destruct (expiries_ok n s _ (finalize_expiry n s) Hok) as [Hok' E]; [intros a; destruct (Hs a); lia|].
    split; [done|]. intros a. rewrite E. apply Hs.
  - split; [done|]. intros a. split; [apply Ho|]. specialize (Hb a). destruct (Hs a) as [_ E].
    unfold surplus in *. change (reserved b a - held (view s) a = o' a). lia.
Qed.

Lemma genesis_ok b key : state_ok (genesis b key, reserved b).
Proof using H0.
  split; [|intros a; split; [apply reserved_nonneg|unfold surplus, held]].
  - split; cbn; rewrite ?fmap_empty; first [by intros id x Hx; rewrite lookup_empty in Hx | done].
  - cbn. rewrite msum_empty, !lookup_fmap, !lookup_empty. cbn. lia.
Qed.

Lemma chain_steps_ok signs so so' : rtc (step signs) so so' → state_ok so → state_ok so'.
Proof using blake2_inj amounts_ok H0. induction 1; eauto using chain_step_ok. Qed.

Lemma reach_ok b key so : reachable b key so → state_ok so.
Proof using blake2_inj amounts_ok H0. intros Hr. eapply chain_steps_ok; [exact Hr|apply genesis_ok]. Qed.

(** * The deposits *)

Lemma deposit_held s o id e :
  state_ok (s, o) → Escrows s !! id = Some e → is_final (state e) = false →
  0 ≤ chain_service_deposit e ≤ reserved (bank s) (seller e).
Proof.
  intros [Hok Hs] He Hf. cbn in Hok, Hs. destruct (held_bounds _ (seller e) Hok) as (_ & _ & _ & Hd).
  pose proof (Hd id e He eq_refl) as Hl. unfold locked in Hl. rewrite Hf in Hl.
  destruct (Hs (seller e)) as [? E]. unfold surplus in E. lia.
Qed.

(** The signature of the chain for a decided dispute gives the seller the whole deposit back,
    whoever has won: the chain is paid nothing for it, though the comments say that the deposit
    pays for the signature and goes to the chain. *)
Lemma signature_returns_deposit n origin rid sig s s' :
  submit_chain_signature n origin rid sig s = Ok s' →
  ∃ r e to_buyer t, SigningRequests s !! rid = Some r ∧ Escrows s !! rq_escrow r = Some e ∧
    state e = EscrowState.PendingReveal to_buyer t ∧
    bank s' = unreserve (bank s) (seller e) (chain_service_deposit e).
Proof.
  unfold submit_chain_signature. intros E. destruct (ensure_signed origin) as [who|]; [|done].
  destruct (SigningRequests s !! rid) as [r|] eqn:Er; [|done]. destruct (is_open _); [|done]. cbn zeta in E.
  destruct (Escrows _ !! rq_escrow r) as [e|] eqn:Ee; [|done]. destruct (state e) as [| | | | |to_buyer t| | | |] eqn:Est; try done.
  destruct (update_trader_successful_trade _ _ _ _) as [s1|] eqn:Et in E; [|done].
  apply trade_counted_quiet in Et as [_ Hb]. injection E as <-. exists r, e, to_buyer, t. split_and!; [done|exact Ee|done|].
  cbn. rewrite Hb. by destruct (dispute_lost_quiet
    (give_back (s <| SigningRequests := <[rid := r <| rq_status := SigningRequestStatus.Completed sig |>]> (SigningRequests s) |>)
       (seller e) (chain_service_deposit e)) (if to_buyer then seller e else buyer e)) as [_ ->].
Qed.

(** C10.  Over any history, next to what an account has reserved elsewhere its reserve is
    exactly its stakes and the deposits of its open escrows: every stake and every deposit is
    set aside once and given back once to who set it aside, whether a trade is confirmed,
    cancelled or runs out of time, and also when a dispute has been decided and the chain has
    signed, where the comments of the code say that the chain keeps the deposit. *)
Theorem deposits_accounted b key s o :
  reachable b key (s, o) →
  (∀ who, 0 ≤ o who ∧ reserved (bank s) who = o who + held (view s) who) ∧
  ∀ id e, Escrows s !! id = Some e → is_final (state e) = false →
    0 ≤ chain_service_deposit e ≤ reserved (bank s) (seller e).
Proof using blake2_inj amounts_ok H0.
  intros Hr%reach_ok. split; [|intros id e; by apply (deposit_held s o)].
  destruct Hr as [_ Hs]. cbn in Hs. intros who. destruct (Hs who) as [? E]. unfold surplus in E. lia.
Qed.

(** * Disputes *)

(** C11.  The chain is asked to sign for an escrow only after a dispute that a strict majority
    of at least the required number of votes has decided, each of another account; the
    request names the winner's key and the amount, there is one request for an escrow, and
    without one no escrow is released to its seller. *)
Theorem disputes_decided_by_majority b key s o :
  reachable b key (s, o) →
  (∀ rid r, SigningRequests s !! rid = Some r → ∃ e to_buyer,
     Escrows s !! rq_escrow r = Some e ∧ signing_request_id e = Some rid ∧
     rq_recipient r = winner_key e to_buyer ∧ rq_amount r = crypto_amount e ∧ decided_state to_buyer (state e) ∧
     let for_buyer := votes_for (view s) (rq_escrow r) DisputeVote.Buyer in
     let for_seller := votes_for (view s) (rq_escrow r) DisputeVote.Seller in
     (if to_buyer then for_seller < for_buyer else for_buyer < for_seller) ∧
     MinArbitratorsForDispute cfg ≤ for_buyer + for_seller) ∧
  ∀ id e, Escrows s !! id = Some e → asked (state e) →
    ∃ rid r, SigningRequests s !! rid = Some r ∧ rq_escrow r = id.
Proof using blake2_inj amounts_ok H0.
  intros [Hok _]%reach_ok. cbn in Hok. split.
  - intros rid r Hr. destruct (requests_ok _ Hok _ _ Hr) as (_ & e & w & He & Hsig & Hst & _ & Hd & Hk & Ha).
    rewrite (counts_exact _ Hok), decided_Some in Hd. destruct Hd as [Hm Hw]. exists e, w. cbn zeta. split_and!; try done.
    pose proof (votes_for_bounds (view s) (rq_escrow r) DisputeVote.Buyer).
    pose proof (votes_for_bounds (view s) (rq_escrow r) DisputeVote.Seller).
    pose proof (votes_for_two (view s) (rq_escrow r)). pose proof (votes_fit _ Hok). rewrite wadd_small in Hm by lia. lia.
  - intros id e He Ha. destruct (asked_ok _ Hok _ _ He Ha) as (rid & r & Hr & Er & _). by exists rid, r.
Qed.
End safe.

(** * A dispute, played out *)

Section play.
Context `{Currency} `{Runtime} `{Sha256} (cfg : Config).

#[export] Instance room_dec s : Decision (room s).
Proof. unfold room. apply _. Defined.

(** The state after calls that all succeed. *)
Fixpoint play (calls : list (Z * Z * Call.Call)) (s : State) : option State :=
  match calls with
  | [] => Some s
  | (n, who, c) :: calls =>
      if bool_decide (room s) then
        match dispatch cfg n (Signed who) c s with Ok s' => play calls s' | Err _ => None end
      else None
  end.

Lemma calls_steps calls s s' o : play calls s = Some s' → rtc (step cfg anyone) (s, o) (s', o).
Proof.
  revert s. induction calls as [|[[n who] c] calls IH]; intros s E; cbn in E; [by injection E as <-|].
  case_bool_decide as Hr; [|done]. destruct (dispatch _ _ _ _ _) as [s1|] eqn:Ed; [|done].
  eapply rtc_l; [by eapply call_step|by apply IH].
Qed.
End play.

(** The hashes spell out what they hash. *)
#[export] Instance toy_runtime : Runtime :=
  {| blake2_256 := spell; encode_account := to_be 32; walk_order := id |}.
#[export] Instance toy_sha : Sha256 := spelled.

Definition rich : gmap Z (Z * Z) := list_to_map (map (fun a => (a, (10 ^ 18, 0))) [1; 2; 3; 4; 5]).
Definition toy_key : ChainThresholdKey := mkChainThresholdKey 9 (5, 7) 0 0.
Definition toy_start : State := genesis rich (Some toy_key).
Definition toy_id : Z := compute_escrow_id 1 2 0 7.

(** One sells to two; two claims to have paid, one disputes it, and three arbitrators vote. *)
Definition toy_trade : list (Z * Z * Call.Call) :=
  [(1, 1, Call.register_trader 11); (1, 2, Call.register_trader 12);
   (2, 1, Call.create_escrow Zcash 2 500 None 100 [] BankTransfer 8 7 UNIT);
   (3, 2, Call.confirm_share toy_id); (4, 1, Call.attest_funding toy_id (SelfAttested 0));
   (5, 2, Call.mark_paid toy_id); (6, 1, Call.raise_dispute toy_id)].
Definition toy_votes : list (Z * Z * Call.Call) :=
  [(7, 3, Call.register_arbitrator); (7, 4, Call.register_arbitrator); (7, 5, Call.register_arbitrator);
   (8, 3, Call.vote_dispute toy_id DisputeVote.Seller); (8, 4, Call.vote_dispute toy_id DisputeVote.Buyer);
   (8, 5, Call.vote_dispute toy_id DisputeVote.Buyer)].

Definition played (calls : list (Z * Z * Call.Call)) : State := default toy_start (play runtime_config calls toy_start).

Lemma played_reachable calls :
  match play runtime_config calls toy_start with Some _ => true | None => false end = true →
  reachable runtime_config rich (Some toy_key) (played calls, reserved rich).
Proof.
  unfold played, reachable. intros E. destruct (play _ _ _) as [s|] eqn:Ep; [|done]. by eapply calls_steps.
Qed.

Lemma toy_inj : ∀ a b, @blake2_256 toy_runtime a = @blake2_256 toy_runtime b → a = b.
Proof. intros a b E. by apply spell_inj in E. Qed.

Lemma toy_amounts_ok :
  0 ≤ MinAgentStake runtime_config ∧ 0 ≤ MinArbitratorStake runtime_config ∧ 0 ≤ MinChainServiceDeposit runtime_config.
Proof. done. Qed.

Definition toy_dispute : State := played (toy_trade ++ toy_votes).

Lemma toy_dispute_reachable : reachable runtime_config rich (Some toy_key) (toy_dispute, reserved rich).
Proof. apply played_reachable. by vm_compute. Qed.

Lemma deposits_accounted_witness :
  reachable runtime_config rich (Some toy_key) (toy_dispute, reserved rich) ∧
  ∀ who, reserved (bank toy_dispute) who = reserved rich who + held (view toy_dispute) who.
Proof.
  split; [exact toy_dispute_reachable|]. intros who.
  apply (@deposits_accounted balances balances_laws toy_runtime toy_sha runtime_config toy_inj toy_amounts_ok
           _ _ _ _ toy_dispute_reachable).
Defined.

Lemma disputes_decided_by_majority_witness :
  (rq_escrow <$> SigningRequests toy_dispute !! 0) = Some toy_id ∧
  ∃ e to_buyer, Escrows toy_dispute !! toy_id = Some e ∧ signing_request_id e = Some 0 ∧
    decided_state to_buyer (state e) ∧ 3 ≤ votes_for (view toy_dispute) toy_id DisputeVote.Buyer
                                          + votes_for (view toy_dispute) toy_id DisputeVote.Seller.
Proof.
  assert ((rq_escrow <$> SigningRequests toy_dispute !! 0) = Some toy_id) as E by (by vm_compute).
  split; [exact E|]. apply fmap_Some in E as (r & Er & E). symmetry in E.
  destruct (@disputes_decided_by_majority balances balances_laws toy_runtime toy_sha runtime_config toy_inj toy_amounts_ok
    _ _ _ _ toy_dispute_reachable) as [Hr _].
  destruct (Hr 0 r Er) as (e & b & H1 & H2 & _ & _ & H3 & _ & H4). rewrite E in H1, H4.
  exists e, b. exact (conj H1 (conj H2 (conj H3 H4))).
Defined.
