(* ===== verification/ArbLife.v ===== *)
(** Who can move an escrow of the arbitration pallet, and what can stop one from being made:
    only the parties it waits for move it, no deadline does, nothing is created before the
    chain has a key, and the list of a trader fills up for good. *)
From stdpp Require Import base list gmap relations.
From Stdlib Require Import ZArith Lia.
From S2P Require Import Prelude Bytes OrdMap Pallet ArbTypes Arb ArbShield ArbStep ArbSafe.

Local Open Scope Z_scope.

(** The one state that has a clock. *)
Definition timed (e : Escrow) : Prop := ∃ b t, state e = EscrowState.PendingReveal b t.

Section life.
Context `{CurrencyLaws} `{Runtime} `{Sha256} (cfg : Config).
Hypothesis blake2_inj : ∀ a b, blake2_256 a = blake2_256 b → a = b.
Hypothesis amounts_ok : 0 ≤ MinAgentStake cfg ∧ 0 ≤ MinArbitratorStake cfg ∧ 0 ≤ MinChainServiceDeposit cfg.

(** * Who moves an escrow *)

(** Escrow [id] moves: in each state, whose call of what moves it, and to where.  Nothing moves
    an escrow that has ended. *)
Inductive moves (n : Z) (s : State) (id : Z) (e : Escrow) : Z → Call.Call → Escrow → Prop :=
| share_is_confirmed :
    state e = EscrowState.AwaitingBuyerConfirmation →
    moves n s id e (buyer e) (Call.confirm_share id) (e <| state := EscrowState.AwaitingFunding |>)
| seller_cancels :
    state e = EscrowState.AwaitingBuyerConfirmation →
    moves n s id e (seller e) (Call.cancel_escrow id) (e <| state := EscrowState.Cancelled |>)
| funding_is_attested a :
    state e = EscrowState.AwaitingFunding →
    moves n s id e (seller e) (Call.attest_funding id a)
      (e <| funding_attestation := Some a |> <| state := EscrowState.AwaitingPayment |>)
| payment_is_claimed :
    state e = EscrowState.AwaitingPayment →
    moves n s id e (buyer e) (Call.mark_paid id) (e <| state := EscrowState.PaymentClaimed (to_u32 n) |>)
| payment_is_confirmed t :
    state e = EscrowState.PaymentClaimed t →
    moves n s id e (seller e) (Call.confirm_payment id) (e <| state := EscrowState.ReleasedToBuyer |>)
| dispute_is_raised t who by_whom :
    state e = EscrowState.PaymentClaimed t → who = buyer e ∨ who = seller e →
    by_whom = (if who =? buyer e then DisputeInitiator.Buyer else DisputeInitiator.Seller) →
    moves n s id e who (Call.raise_dispute id) (e <| state := EscrowState.Disputed (to_u32 n) by_whom |>)
| vote_decides t by_whom who vote to_buyer :
    state e = EscrowState.Disputed t by_whom →
    is_Some (Arbitrators s !! who) → DisputeVotes s !! (id, who) = None →
    decided cfg (count_vote (vote_counts s id) vote) = Some to_buyer →
    moves n s id e who (Call.vote_dispute id vote)
      (e <| state := EscrowState.PendingReveal to_buyer (to_u32 n) |>
         <| signing_request_id := Some (NextSigningRequestId s) |>)
| chain_signs to_buyer t who rid r sig :
    state e = EscrowState.PendingReveal to_buyer t →
    SigningRequests s !! rid = Some r → rq_escrow r = id → is_open (rq_status r) = true →
    moves n s id e who (Call.submit_chain_signature rid sig) (e <| state := released to_buyer |>).

Lemma moves_open n s id e who c e' : moves n s id e who c e' → is_final (state e) = false.
Proof. by destruct 1 as [E|E|? E|E|? E|? ? ? E|? ? ? ? ? E|? ? ? ? ? ? E]; rewrite E. Qed.

(** An escrow after a call: as it was, or moved by it. *)
Definition moved_or_not (n : Z) (origin : Origin) (c : Call.Call) (s s' : State) : Prop :=
  ∀ id e, Escrows s !! id = Some e →
    Escrows s' !! id = Some e ∨
    ∃ who e', origin = Signed who ∧ moves n s id e who c e' ∧ Escrows s' !! id = Some e'.

Lemma not_moved n origin c s s' : Escrows s' = Escrows s → moved_or_not n origin c s s'.
Proof. intros E id e He. left. by rewrite E. Qed.

Lemma one_moved n who c s s' id e e' :
  Escrows s !! id = Some e → Escrows s' = <[id := e']> (Escrows s) → moves n s id e who c e' →
  moved_or_not n (Signed who) c s s'.
Proof.
  intros He E Hm id' f Hf. rewrite E. destruct (decide (id = id')) as [<-|Hne].
  - rewrite He in Hf. injection Hf as <-. right. exists who, e'. by rewrite lookup_insert_eq.
  - left. by rewrite lookup_insert_ne.
Qed.

Lemma trade_counted_escrows s t a b s' : update_trader_successful_trade s t a b = Ok s' → Escrows s' = Escrows s.
Proof. intros [E _]%trade_counted_quiet. exact (f_equal v_escrows E). Qed.

Lemma dispute_lost_escrows s t : Escrows (update_trader_dispute_lost s t) = Escrows s.
Proof. exact (f_equal v_escrows (proj1 (dispute_lost_quiet s t))). Qed.

Lemma party_moves n origin c s s' :
  match c with
  | Call.confirm_share i => confirm_share origin i s
  | Call.cancel_escrow i => cancel_escrow origin i s
  | Call.attest_funding i a => attest_funding origin i a s
  | Call.mark_paid i => mark_paid n origin i s
  | _ => Err Panic
  end = Ok s' → moved_or_not n origin c s s'.
Proof.
  destruct c; try done; unfold confirm_share, cancel_escrow, attest_funding, mark_paid; intros E;
    branches E; guards; subst; (eapply one_moved; [done|done|by constructor]).
Qed.

Lemma confirm_moves n origin id s s' :
  confirm_payment n origin id s = Ok s' → moved_or_not n origin (Call.confirm_payment id) s s'.
Proof.
  unfold confirm_payment. intros E. branches E.
  repeat match goal with H : update_trader_successful_trade _ _ _ _ = Ok _ |- _ => apply trade_counted_escrows in H end.
  guards. subst. match goal with H : is_claimed _ = true |- _ => apply is_claimed_spec in H as [t Ht] end.
  eapply one_moved; [done| |by eapply payment_is_confirmed]. cbn in *. by f_equal; congruence.
Qed.

Lemma raise_moves n origin id s s' :
  raise_dispute n origin id s = Ok s' → moved_or_not n origin (Call.raise_dispute id) s s'.
Proof.
  unfold raise_dispute. intros E. destruct (ensure_signed origin) as [who|] eqn:Eo; [|done]. guards. subst.
  destruct (Escrows s !! id) as [e|] eqn:Ee; [|done].
  destruct (_ : result DisputeInitiator.DisputeInitiator Error) as [by_whom|] eqn:Ew in E; [|done].
  branches E. subst. match goal with H : is_claimed _ = true |- _ => apply is_claimed_spec in H as [t Ht] end.
  eapply one_moved; [exact Ee|done|]. eapply dispute_is_raised; [exact Ht|..].
  - destruct (Z.eqb_spec who (buyer e)); [by left|]. destruct (Z.eqb_spec who (seller e)); [by right|done].
  - destruct (who =? buyer e); [by injection Ew as <-|]. destruct (who =? seller e); [by injection Ew as <-|done].
Qed.

Lemma vote_moves n origin id vote s s' :
  vote_dispute cfg n origin id vote s = Ok s' → moved_or_not n origin (Call.vote_dispute id vote) s s'.
Proof.
  unfold vote_dispute. intros E. destruct (ensure_signed origin) as [who|] eqn:Eo; [|done].
  destruct (bool_decide _) eqn:Ea in E; [|done]. destruct (Escrows s !! id) as [e|] eqn:Ee; [|done].
  destruct (is_disputed _) eqn:Ed in E; [|done]. destruct (negb _) eqn:Ev in E; [|done]. guards. subst.
  apply is_disputed_spec in Ed as (t & by_whom & Est). revert E.
  unfold try_resolve_dispute. unfold vote_counts at 1. cbn. rewrite lookup_insert_eq. cbn.
  destruct (decided cfg _) as [to_buyer|] eqn:Edc; [|intros [= <-]; by apply not_moved].
  rewrite Ee. intros [= <-]. eapply one_moved; [done|done|]. by eapply vote_decides.
Qed.

Lemma sign_moves n origin rid sig s s' :
  submit_chain_signature n origin rid sig s = Ok s' → moved_or_not n origin (Call.submit_chain_signature rid sig) s s'.
Proof.
  unfold submit_chain_signature. intros E. destruct (ensure_signed origin) as [who|] eqn:Eo; [|done].
  destruct (SigningRequests s !! rid) as [r|] eqn:Er; [|done]. destruct (is_open _) eqn:Ep; [|done]. cbn zeta in E.
  destruct (Escrows _ !! rq_escrow r) as [e|] eqn:Ee; [|done]. destruct (state e) as [| | | | |to_buyer t| | | |] eqn:Est; try done.
  destruct (update_trader_successful_trade _ _ _ _) as [s1|] eqn:Et in E; [|done].
  apply trade_counted_escrows in Et. rewrite dispute_lost_escrows in Et. guards. subst. injection E as <-.
  eapply one_moved; [exact Ee|cbn in *; by rewrite Et|by eapply chain_signs].
Qed.

Lemma create_moves n origin c b amount asset fiat cur meth bpk spk deposit s s' :
  view_ok cfg (view s) → room s →
  create_escrow cfg n origin c b amount asset fiat cur meth bpk spk deposit s = Ok s' →
  moved_or_not n origin (Call.create_escrow c b amount asset fiat cur meth bpk spk deposit) s s'.
Proof using blake2_inj amounts_ok.
  intros Hok (R1 & _ & _) E id e He. left. unfold create_escrow in E. branches E. guards. subst. cbn.
  rewrite lookup_insert_ne; [exact He|]. intros Ei. destruct (ids_used _ _ Hok _ _ He) as (_ & a & b' & k & pk & Ek & Hk).
  cbn in Hk, Ei. rewrite Ek in Ei. apply (escrow_id_nonce blake2_inj) in Ei; [lia|apply Hok|].
  destruct (nonce_fits _ _ Hok). cbn in *. split; lia.
Qed.

Lemma dispatch_moves n origin c s s' :
  view_ok cfg (view s) → room s → dispatch cfg n origin c s = Ok s' → moved_or_not n origin c s s'.
Proof using blake2_inj amounts_ok.
  intros Hok Hr E. pose proof (party_moves n origin c s s') as Hp. destruct c; cbn [dispatch] in E;
    first [ exact (Hp E) | by apply confirm_moves | by apply raise_moves | by apply vote_moves
          | by apply sign_moves | by apply create_moves
          | apply not_moved; revert E;
            unfold register_trader, update_trader_key, send_message, register_agent, deregister_agent, update_agent_key,
              register_arbitrator, deregister_arbitrator, shielded_create, shielded_update, shielded_consume,
              shielded_dispute, verify_vss_share, resolve_dispute_with_frost, submit_frost_signature,
              mark_frost_signing_failed; intros E; branches E; guards; by subst ].
Qed.

(** ** Deadlines *)

(** Escrow [id] ends because the chain has not signed for it in time. *)
Definition overdue (n : Z) (s : State) (id : Z) (e : Escrow) : Prop :=
  timed e ∧ ∃ rid r, SigningRequests s !! rid = Some r ∧ rq_escrow r = id ∧ rq_deadline r < to_u32 n.

Lemma expiry_moves n s s' id e :
  view_ok cfg (view s) → expiry n s s' → Escrows s !! id = Some e →
  Escrows s' !! id = Some e ∨ overdue n s id e ∧ Escrows s' !! id = Some (e <| state := EscrowState.Cancelled |>).
Proof.
  intros Hok Hx He. change (v_escrows (view s) !! id = Some e) in He.
  change (v_escrows (view s') !! id = Some e ∨
    overdue n s id e ∧ v_escrows (view s') !! id = Some (e <| state := EscrowState.Cancelled |>)).
  destruct Hx as [Ev _|id' r _ _ _ Ev _|id' r f Hr Ho Hd Hf Ev _]; rewrite Ev; [by left..|]. cbn.
  destruct (decide (rq_escrow r = id)) as [<-|Hne]; [|rewrite lookup_insert_ne by done; by left].
  rewrite He in Hf. injection Hf as <-. rewrite lookup_insert_eq. right. split; [|done].
  destruct (requests_ok _ _ Hok _ _ Hr) as (_ & g & b & Hg & _ & _ & Hp & _). rewrite He in Hg. injection Hg as <-.
  destruct (Hp Ho) as [t E]. split; [by exists b, t|]. by exists id', r.
Qed.

(** An expiry closes a request and changes nothing else of it. *)
Lemma expiry_requests n s s' rid r :
  expiry n s s' → SigningRequests s' !! rid = Some r →
  ∃ r0, SigningRequests s !! rid = Some r0 ∧ rq_escrow r0 = rq_escrow r ∧ rq_deadline r0 = rq_deadline r.
Proof.
  intros Hx Hr. change (v_requests (view s') !! rid = Some r) in Hr.
  change (∃ r0, v_requests (view s) !! rid = Some r0 ∧ rq_escrow r0 = rq_escrow r ∧ rq_deadline r0 = rq_deadline r).
  destruct Hx as [Ev _|id' r' Hr' _ _ Ev _|id' r' f Hr' Ho Hd Hf Ev _]; rewrite Ev in Hr; cbn in Hr; [by exists r|..];
    (destruct (decide (id' = rid)) as [->|Hne];
      [rewrite lookup_insert_eq in Hr; injection Hr as <-; by exists r'
      |rewrite lookup_insert_ne in Hr by done; by exists r]).
Qed.

Lemma overdue_before n s s' id e : expiry n s s' → overdue n s' id e → overdue n s id e.
Proof.
  intros Hx (Ht & rid & r & Hr & Er & Hd). split; [done|].
  destruct (expiry_requests _ _ _ _ _ Hx Hr) as (r0 & Hr0 & E1 & E2). exists rid, r0. split_and!; [done|congruence|lia].
Qed.

Lemma expiries_moves n s s' id e :
  rtc (expiry n) s s' → view_ok cfg (view s) → (∀ a, 0 ≤ surplus s a) → Escrows s !! id = Some e →
  Escrows s' !! id = Some e ∨ overdue n s id e ∧ Escrows s' !! id = Some (e <| state := EscrowState.Cancelled |>).
Proof using blake2_inj amounts_ok H0.
  intros Hx. revert e. induction Hx as [s|s s1 s' Hx _ IH]; intros e Hok Hs He; [by left|].
  destruct (expiry_ok cfg n s s1 Hok Hs Hx) as [Hok1 E1].
  assert (∀ a, 0 ≤ surplus s1 a) as Hs1 by (intros a; by rewrite E1).
  destruct (expiry_moves _ _ _ _ _ Hok Hx He) as [He1|[Hov He1]].
  - destruct (IH e Hok1 Hs1 He1) as [?|[? ?]]; [by left|right]. split; [by eapply overdue_before|done].
  - right. split; [done|]. destruct (IH _ Hok1 Hs1 He1) as [?|[[(b & t & Et) _] _]]; done.
Qed.

(** * Histories *)

(** One step of the chain at which [e], the escrow [id], becomes another. *)
Definition moved_by (id : Z) (e : Escrow) (so so' : State * (Z → Z)) : Prop :=
  (∃ n who c e', dispatch cfg n (Signed who) c so.1 = Ok so'.1 ∧ moves n so.1 id e who c e' ∧
     Escrows so'.1 !! id = Some e') ∨
  (∃ n, so'.1 = on_finalize n so.1 ∧ overdue n so.1 id e ∧
     Escrows so'.1 !! id = Some (e <| state := EscrowState.Cancelled |>)).

Lemma step_moves so so' id e :
  step cfg anyone so so' → state_ok cfg so → Escrows so.1 !! id = Some e →
  Escrows so'.1 !! id = Some e ∨ moved_by id e so so'.
Proof using blake2_inj amounts_ok H0.
  intros Hstep [Hok Hs] He. destruct Hstep as [n origin c s s' o Hr _ Hd|n s o|s b o o' _ _]; cbn [fst snd] in *; [| |by left].
  - destruct (dispatch_moves _ _ _ _ _ Hok Hr Hd id e He) as [?|(who & e' & -> & Hm & He')]; [by left|].
    right. left. by exists n, who, c, e'.
  - destruct (expiries_moves n s (on_finalize n s) id e (finalize_expiry n s) Hok) as [?|[? ?]];
      [intros a; destruct (Hs a); lia|done|by left|]. right. right. by exists n.
Qed.

Lemma steps_move so so' id e :
  rtc (step cfg anyone) so so' → state_ok cfg so → Escrows so.1 !! id = Some e →
  Escrows so'.1 !! id = Some e ∨
  ∃ so1 so2, rtc (step cfg anyone) so so1 ∧ Escrows so1.1 !! id = Some e ∧
    moved_by id e so1 so2 ∧ rtc (step cfg anyone) so2 so'.
Proof using blake2_inj amounts_ok H0.
  induction 1 as [|so so1 so' Hstep Hrest IH]; intros Hok He; [by left|].
  destruct (step_moves _ _ _ _ Hstep Hok He) as [He1|Hm].
  - destruct IH as [?|(u & v & Hu & Hrest')]; [by eapply chain_step_ok|done|by left|].
    right. exists u, v. split; [by eapply rtc_l|done].
  - right. by exists so, so1.
Qed.

(** C28.  Only the one an escrow waits for can move it, and only as the protocol says: over any
    history of calls by anyone, ends of blocks and deadlines an escrow is what it was, or the
    first that changed it was the successful call of its buyer, its seller, or, in a dispute, an
    account that was a registered arbitrator at that moment, had not voted on it and whose
    vote decided it; once the dispute is decided, the signature for its request, which any account may
    hand in, or the end of a block after the deadline of the request.  The new record is the
    protocol's next one and nothing moves an escrow that has ended.  Until it has ended the seller's deposit
    stays reserved. *)
Theorem moved_by_its_parties_only b key s o s' o' id e :
  reachable cfg b key (s, o) → rtc (step cfg anyone) (s, o) (s', o') → Escrows s !! id = Some e →
  (Escrows s' !! id = Some e ∧
    (is_final (state e) = false → 0 ≤ chain_service_deposit e ≤ reserved (bank s') (seller e))) ∨
  (is_final (state e) = false ∧
   ∃ so1 so2, rtc (step cfg anyone) (s, o) so1 ∧ Escrows so1.1 !! id = Some e ∧
     moved_by id e so1 so2 ∧ rtc (step cfg anyone) so2 (s', o')).
Proof using blake2_inj amounts_ok H0.
  intros Hok%reach_ok Hsteps He; [|done..].
  destruct (steps_move _ _ id e Hsteps Hok He) as [He'|(so1 & so2 & Hbefore & He1 & Hm & Hafter)]; [left|right].
  - split; [done|]. intros Hf. by apply (deposit_held cfg s' o' id); [eapply chain_steps_ok|..].
  - split; [|by exists so1, so2].
    destruct Hm as [(n & who & c & e' & _ & Hm & _)|(n & _ & [(w & t & ->) _] & _)]; [by eapply moves_open|done].
Qed.
End life.

(** * The key of the chain, and the lists of the traders *)

Definition bought {C : Currency} (s : State) (who : Z) : list Z := default [] (EscrowsByBuyer s !! who).

Section kept.
Context `{Currency} `{Runtime} `{Sha256} (cfg : Config).

(** What every step keeps: the key, the absence of escrows without it, and what is in the lists. *)
Definition kept (s s' : State) : Prop :=
  ChainMasterKey s' = ChainMasterKey s ∧
  (ChainMasterKey s = None → Escrows s = ∅ → Escrows s' = ∅) ∧
  ∀ who, (length (bought s who) ≤ length (bought s' who))%nat.

#[export] Instance kept_refl : Reflexive kept.
Proof. by intros s. Qed.
#[export] Instance kept_trans : Transitive kept.
Proof.
  intros s1 s2 s3 (K1 & E1 & L1) (K2 & E2 & L2). split_and!; [congruence| |intros who; etrans; [apply L1|apply L2]].
  intros Hk He. apply E2; [congruence|by apply E1].
Qed.

(** A step that touches neither the key nor the lists, and no escrow that is not there. *)
Lemma kept_same s s' :
  ChainMasterKey s' = ChainMasterKey s → EscrowsByBuyer s' = EscrowsByBuyer s →
  (Escrows s = ∅ → Escrows s' = ∅) → kept s s'.
Proof. intros Hk Hl He. split_and!; [done|by intros _|]. intros who. unfold bought. by rewrite Hl. Qed.

(** An escrow that is there is changed. *)
Lemma kept_put s s' id e f :
  Escrows s !! id = Some e → ChainMasterKey s' = ChainMasterKey s → EscrowsByBuyer s' = EscrowsByBuyer s →
  Escrows s' = <[id := f]> (Escrows s) → kept s s'.
Proof. intros He Hk Hl _. apply kept_same; [done|done|]. intros E. rewrite E, lookup_empty in He. done. Qed.

Lemma trade_counted_kept s t a b s' :
  update_trader_successful_trade s t a b = Ok s' → ∃ m, s' = s <| Traders := m |>.
Proof.
  unfold update_trader_successful_trade. intros E. branches E; subst; eexists; [reflexivity|].
  by instantiate (1 := Traders s'); destruct s'.
Qed.

Lemma dispute_lost_kept s t : ∃ m, update_trader_dispute_lost s t = s <| Traders := m |>.
Proof. unfold update_trader_dispute_lost. destruct (_ !! _); eexists; [done|]. by instantiate (1 := Traders s); destruct s. Qed.

Ltac keep :=
  repeat match goal with
  | H : set_aside _ _ _ = Ok _ |- _ => apply set_aside_Ok in H as (? & ? & ->)
  | H : update_trader_successful_trade _ _ _ _ = Ok _ |- _ => apply trade_counted_kept in H as (? & ->)
  end;
  subst; first [ by apply kept_same | by eapply kept_put ].

Lemma vote_kept n origin id vote s s' : vote_dispute cfg n origin id vote s = Ok s' → kept s s'.
Proof.
  unfold vote_dispute, try_resolve_dispute. intros E. branches E; subst; [by eapply kept_put|by apply kept_same].
Qed.

Lemma sign_kept n origin id sig s s' : submit_chain_signature n origin id sig s = Ok s' → kept s s'.
Proof.
  unfold submit_chain_signature. intros E. destruct (ensure_signed origin) as [who|]; [|done].
  destruct (SigningRequests s !! id) as [r|]; [|done]. destruct (is_open _); [|done]. cbn zeta in E.
  destruct (Escrows _ !! rq_escrow r) as [e|] eqn:Ee; [|done]. destruct (state e) as [| | | | |b t| | | |]; try done.
  destruct (update_trader_successful_trade _ _ _ _) as [s1|] eqn:Et in E; [|done].
  apply trade_counted_kept in Et as [m ->].
  match type of E with context [update_trader_dispute_lost ?s0 ?who] => destruct (dispute_lost_kept s0 who) as [m' Em] end.
  rewrite Em in E. injection E as <-. by eapply kept_put.
Qed.

Lemma create_kept n origin c b amount asset fiat cur meth bpk spk deposit s s' :
  create_escrow cfg n origin c b amount asset fiat cur meth bpk spk deposit s = Ok s' → kept s s'.
Proof.
  unfold create_escrow. intros E. branches E. subst.
  match goal with H : set_aside _ _ _ = Ok _ |- _ => apply set_aside_Ok in H as (bank' & _ & ->) end.
  match goal with H : ChainMasterKey _ = Some _ |- _ => cbn in H; rename H into Hk end.
  split_and!; [done|by rewrite Hk|]. intros who. unfold bought. cbn.
  match goal with H : try_push _ _ (default _ (EscrowsByBuyer _ !! _)) = Some _ |- _ =>
    apply try_push_Some in H as [-> _] end.
  destruct (decide (who = b)) as [->|Hne]; [|by rewrite lookup_insert_ne].
  rewrite lookup_insert_eq. cbn. rewrite length_app. lia.
Qed.

Lemma dispatch_kept n origin c s s' : dispatch cfg n origin c s = Ok s' → kept s s'.
Proof.
  destruct c; cbn [dispatch];
    first [ by apply create_kept | by apply vote_kept | by apply sign_kept
          | unfold register_trader, update_trader_key, send_message, register_agent, deregister_agent, update_agent_key,
              confirm_share, attest_funding, mark_paid, confirm_payment, raise_dispute, register_arbitrator,
              deregister_arbitrator, cancel_escrow, shielded_create, shielded_update, shielded_consume,
              shielded_dispute, verify_vss_share, resolve_dispute_with_frost, submit_frost_signature,
              mark_frost_signing_failed; intros E; branches E; keep ].
Qed.

Lemma time_out_kept now s id : kept s (time_out now s id).
Proof.
  unfold time_out. destruct (SigningRequests s !! id) as [r|]; [|done]. destruct (_ && _); [|done].
  destruct (Escrows _ !! _) as [e|] eqn:Ee; [by eapply kept_put|by apply kept_same].
Qed.

Lemma finalize_kept n s : kept s (on_finalize n s).
Proof.
  assert (∀ f : State → Z → State, (∀ s x, kept s (f s x)) → ∀ l s, kept s (foldl f s l)) as Hf.
  { intros f Hf l. induction l as [|x l IH]; intros t; cbn; [done|]. etrans; [apply Hf|apply IH]. }
  unfold on_finalize.
  transitivity (process_signing_timeouts (to_u32 n) s);
    [etrans; [apply Hf, time_out_kept|by apply kept_same]|].
  transitivity (process_shielded_timeouts (to_u32 n) (process_signing_timeouts (to_u32 n) s)).
  { apply Hf. intros t c. by apply kept_same. }
  generalize (process_shielded_timeouts (to_u32 n) (process_signing_timeouts (to_u32 n) s)) as t. intros t.
  transitivity (process_dispute_timeouts (to_u32 n) t).
  - unfold process_dispute_timeouts. cbn zeta.
    match goal with |- kept t (set_shielded (foldl ?f _ ?l) ?g) => transitivity (foldl f t l); [|by apply kept_same] end.
    generalize (List.filter (timed_out (block_to_epoch (to_u32 n) (blocks_per_epoch t))) (ShieldedDisputeQueue (shielded t))).
    intros l. generalize t. induction l as [|d l IH]; intros u; cbn; [done|]. etrans; [|apply IH]. by apply kept_same.
  - unfold maybe_update_epoch. destruct (_ <? _); [|done]. by apply kept_same.
Qed.

Lemma step_kept signs so so' : step cfg signs so so' → kept so.1 so'.1.
Proof. destruct 1; cbn; [by eapply dispatch_kept|apply finalize_kept|by apply kept_same]. Qed.

Lemma steps_kept signs so so' : rtc (step cfg signs) so so' → kept so.1 so'.1.
Proof. induction 1 as [|so so1 so2 Hs _ IH]; [done|]. etrans; [by eapply step_kept|exact IH]. Qed.

(** No call writes the key of the chain: on a chain that starts without one there is
    never an escrow, whoever calls what. *)
Lemma no_escrow_without_key b s o : reachable cfg b None (s, o) → ChainMasterKey s = None ∧ Escrows s = ∅.
Proof. intros (K & E & _)%steps_kept. split; [exact K|by apply E]. Qed.

(** C36.  Once a hundred escrows have named an account as their buyer no escrow ever can
    again, however few of them are still open: its list only grows.  The account need not
    have signed anything but its registration. *)
Theorem full_list_is_final signs s o s' o' who n c seller amount asset fiat cur meth bpk spk deposit :
  (100 ≤ length (bought s who))%nat → rtc (step cfg signs) (s, o) (s', o') →
  ∃ err, create_escrow cfg n (Signed seller) c who amount asset fiat cur meth bpk spk deposit s' = Err err.
Proof.
  intros Hf (_ & _ & Hl)%steps_kept. specialize (Hl who). cbn in Hl.
  destruct (create_escrow _ _ _ _ _ _ _ _ _ _ _ _ _ _) as [s2|err] eqn:E; [exfalso|by exists err].
  unfold create_escrow in E. branches E. subst.
  match goal with H : set_aside _ _ _ = Ok _ |- _ => apply set_aside_Ok in H as (bank' & _ & ->) end.
  match goal with H : try_push _ _ (default _ (EscrowsByBuyer _ !! _)) = Some _ |- _ =>
    apply try_push_Some in H as [_ H]; cbn in H; unfold bought in Hl, Hf; lia end.
Qed.
End kept.

(** * Played out *)

(** Two and one disagree, and the third vote decides. *)
Definition toy_disputed : State := played toy_trade.

Lemma toy_disputed_reachable : reachable runtime_config rich (Some toy_key) (toy_disputed, reserved rich).
Proof. apply played_reachable. by vm_compute. Qed.

Lemma play_app calls more s :
  play runtime_config (calls ++ more) s =
    match play runtime_config calls s with Some s' => play runtime_config more s' | None => None end.
Proof.
  revert s. induction calls as [|[[n who] c] calls IH]; intros s; cbn; [done|].
  case_bool_decide; [|done]. by destruct (dispatch _ _ _ _ _).
Qed.

Lemma toy_votes_cast o : rtc (step runtime_config anyone) (toy_disputed, o) (toy_dispute, o).
Proof.
  apply (calls_steps _ toy_votes). unfold toy_disputed, toy_dispute, played.
  assert (is_Some (play runtime_config (toy_trade ++ toy_votes) toy_start)) as [s E].
  { destruct (play _ (toy_trade ++ toy_votes) _) eqn:E; [done|]. exfalso.
    apply (f_equal (fun x => match x with Some _ => true | None => false end)) in E. by vm_compute in E. }
  rewrite E. rewrite play_app in E. by destruct (play runtime_config toy_trade toy_start).
Qed.

Definition toy_escrow : Escrow := default (mkEscrow 0 Zcash 0 0 0 None 0 [] Other EscrowState.Expired 0 0 0 0 0 0 0 0 None None)
  (Escrows toy_disputed !! toy_id).

Lemma moved_by_its_parties_only_witness :
  state toy_escrow = EscrowState.Disputed 6 DisputeInitiator.Seller ∧
  ∃ so1 so2, Escrows so1.1 !! toy_id = Some toy_escrow ∧ moved_by runtime_config toy_id toy_escrow so1 so2.
Proof.
  assert (state toy_escrow = EscrowState.Disputed 6 DisputeInitiator.Seller) as Est by (by vm_compute).
  assert (Escrows toy_disputed !! toy_id = Some toy_escrow) as He by (by vm_compute). split; [exact Est|].
  destruct (@moved_by_its_parties_only balances balances_laws toy_runtime toy_sha runtime_config toy_inj toy_amounts_ok
    _ _ _ _ toy_dispute (@reserved balances rich) toy_id toy_escrow toy_disputed_reachable
    (toy_votes_cast _) He) as [[E _]|(_ & so1 & so2 & _ & He1 & Hm & _)].
  - exfalso. apply (f_equal (fmap (fun e => is_disputed (state e)))) in E. vm_compute in E. discriminate E.
  - exists so1, so2. exact (conj He1 Hm).
Defined.

Lemma played_out calls s :
  match play runtime_config calls s with Some _ => true | None => false end = true →
  ∃ s' : State, play runtime_config calls s = Some s'.
Proof. destruct (play _ _ _) as [s'|]; [by exists s'|done]. Qed.

Lemma no_escrow_without_key_witness :
  ∃ s : State, play runtime_config (take 2 toy_trade) (@genesis balances rich None) = Some s ∧ ChainMasterKey s = None ∧ Escrows s = ∅.
Proof.
  destruct (played_out (take 2 toy_trade) (@genesis balances rich None)) as [s E]; [by vm_compute|].
  exists s. split; [exact E|]. apply (@no_escrow_without_key balances _ _ runtime_config rich s (@reserved balances rich)). by eapply calls_steps.
Defined.

(** One creates a hundred escrows that name two, and cancels each. *)
Definition toy_flood : list (Z * Z * Call.Call) :=
  take 2 toy_trade ++
  mjoin (map (fun k => [(2, 1, Call.create_escrow Zcash 2 500 None 100 [] BankTransfer 8 7 UNIT);
                        (2, 1, Call.cancel_escrow (compute_escrow_id 1 2 (Z.of_nat k) 7))]) (seq 0 100)).

Lemma full_list_is_final_witness :
  reserved (bank (played toy_flood)) 1 = 0 ∧ ∃ err,
  create_escrow runtime_config 9 (Signed 3) Zcash 2 500 None 100 [] BankTransfer 8 7 UNIT
    (on_finalize 8 (played toy_flood)) = Err err.
Proof.
  split; [by vm_compute|].
  apply (@full_list_is_final balances _ _ runtime_config (fun _ => True) (played toy_flood) (@reserved balances rich) _ (@reserved balances rich)).
  - apply Nat.leb_le. by vm_compute.
  - apply rtc_once, block_step.
Defined.
