(* ===== verification/ArbVss.v ===== *)
(** The shares of the shielded escrows: the field that
    [crates/zanchor/pallets/escrow-arbitration/src/shielded_v1.rs] computes in, and that any two
    shares give the secret back. *)
From stdpp Require Import base list.
From Stdlib Require Import ZArith Lia.
From S2P Require Import Prelude Bytes GF BinField BinFieldSafe Pallet ArbTypes Arb ArbShield.

Local Open Scope Z_scope.

(** * The field *)

Lemma multiply_loops a b :
  binary_field_multiply a b = two_loops 32 REDUCTION (fun a i => Z.shiftl a (Z.of_nat i)) (seq 0 32) a b.
Proof. unfold binary_field_multiply, two_loops, mul_step, reduce_step, add_bits, reduce_at, bit. reflexivity. Qed.

Lemma multiply_ring : binary_ring 32 binary_field_multiply.
Proof.
  eapply ring_ext; [intros a b; symmetry; apply multiply_loops|].
  apply two_loops_ring; [lia|intros i; apply linear_shiftl|by vm_compute].
Qed.

Definition multiply_inverse (a : Z) : option Z := if a =? 0 then None else Some (binary_field_inverse a).

Lemma inverse_power a : fits 32 a → a ≠ 0 → binary_field_inverse a = square binary_field_multiply (ones_power binary_field_multiply 31 a).
Proof.
  intros Ha Hne. unfold binary_field_inverse. rewrite (proj2 (Z.eqb_neq a 0)) by done. unfold square.
  assert (∀ k, Nat.iter k (square_multiply a) a = ones_power binary_field_multiply (S k) a) as E; [|by rewrite (E 30%nat)].
  induction k as [|k IH].
  - cbn [ones_power]. symmetry. unfold square. rewrite (mul_1 32 _ multiply_ring 1) by by vm_compute.
    by apply (mul_1 32 _ multiply_ring).
  - rewrite Nat.iter_succ, IH. cbn [ones_power]. unfold square_multiply, square. reflexivity.
Qed.

Lemma multiply_field : binary_field 32 binary_field_multiply multiply_inverse.
Proof.
  eapply field_by_checks; [apply multiply_ring|intros a b _; apply multiply_loops|by vm_compute|by vm_compute|done|].
  intros a Ha Hne. unfold multiply_inverse. rewrite (proj2 (Z.eqb_neq a 0)) by done. f_equal. by apply inverse_power.
Qed.

(** * Shares *)

(** The share of the line with the given values at zero and slopes, eight of each. *)
Definition line_share (secret slopes : list Z) (index : Z) (proof : list bytes) : VerifiableShare :=
  mkVerifiableShare index
    (mjoin (zip_with (fun c m => to_le 4 (Z.lxor c (binary_field_multiply (wadd 8 index 1) m))) secret slopes)) proof.

Lemma slice_chunk (l : list bytes) k x :
  (∀ y, y ∈ l → length y = 4%nat) → l !! k = Some x → slice (4 * k) (4 * k + 4) (mjoin l) = x.
Proof.
  revert k. induction l as [|y l IH]; intros k Hl Hk; [done|]. assert (length y = 4%nat) as Hy by (apply Hl; by left).
  cbn [mjoin list_join]. destruct k as [|k].
  - injection Hk as ->. unfold slice. rewrite drop_0. by rewrite take_app_length'.
  - rewrite slice_app_r by lia. replace (4 * S k - length y)%nat with (4 * k)%nat by lia.
    replace (4 * S k + 4 - length y)%nat with (4 * k + 4)%nat by lia. apply IH; [|done]. intros z Hz. apply Hl. by right.
Qed.

Definition words (l : list Z) : Prop := length l = 8%nat ∧ Forall (fits 32) l.

Lemma chunk_of_line secret slopes index proof k c m :
  words secret → words slopes → secret !! k = Some c → slopes !! k = Some m → fits 32 c → fits 32 m →
  share_chunk (vs_value (line_share secret slopes index proof)) k =
  Z.lxor c (binary_field_multiply (wadd 8 index 1) m).
Proof.
  intros _ _ Hc Hm Wc Wm. unfold share_chunk, line_share, vs_value.
  erewrite slice_chunk; [| |by rewrite lookup_zip_with, Hc; cbn; rewrite Hm].
  - rewrite from_le_to_le. change (Z.of_nat 4 * 8) with 32. apply wrap_small, lxor_lt; [done|].
    unfold binary_field_multiply. by apply wrap_fits.
  - intros y Hy. apply elem_of_lookup_zip_with in Hy as (i & a & b & -> & _). apply length_to_le.
Qed.

Lemma share_point_8 index : fits 8 (wadd 8 index 1).
Proof. by apply wrap_fits. Qed.

(** Any two shares of one line at different places give back the secret the line starts
    from, in the field the pallet computes in, whatever the slopes: the interpolation and the
    inverse by repeated squaring are right. *)
Lemma two_shares_reconstruct secret slopes i j proof_i proof_j :
  words secret → words slopes → fits 8 i → fits 8 j → i ≠ j →
  reconstruct_secret (line_share secret slopes i proof_i) (line_share secret slopes j proof_j) =
  mjoin (map (to_le 4) secret).
Proof.
  intros Hc Hm Hi Hj Hne. unfold reconstruct_secret.
  assert (∀ k c, secret !! k = Some c →
    reconstruct_chunk (line_share secret slopes i proof_i) (line_share secret slopes j proof_j) k = c) as Hk.
  { intros k c Ek. destruct (lookup_lt_is_Some_2 slopes k) as [m Em].
    { destruct Hm as [-> _]. apply lookup_lt_Some in Ek. by destruct Hc as [<- _]. }
    assert (fits 32 c) as Wc by (by eapply (Forall_lookup_1 _ _ _ _ (proj2 Hc))).
    assert (fits 32 m) as Wm by (by eapply (Forall_lookup_1 _ _ _ _ (proj2 Hm))).
    unfold reconstruct_chunk. rewrite !(chunk_of_line _ _ _ _ _ c m) by done. unfold share_point, vs_index, line_share.
    set (x := wadd 8 i 1). set (y := wadd 8 j 1).
    assert (∀ z, fits 8 z → fits 32 z) as W by (unfold fits; lia).
    assert (fits 32 x ∧ fits 32 y) as [Wx Wy] by (split; apply W, share_point_8).
    assert (Z.lxor x y ≠ 0) as Hxy.
    { intros E%Z.lxor_eq. unfold x, y, wadd, wrap, fits in *. change (2 ^ 8) with 256 in *.
      pose proof (Z.div_mod (i + 1) 256). pose proof (Z.div_mod (j + 1) 256). lia. }
    destruct (inv_some _ _ _ multiply_field (Z.lxor x y)) as (d & Ed & Wd & E); [by apply lxor_lt|done|].
    unfold multiply_inverse in Ed. rewrite (proj2 (Z.eqb_neq _ 0) Hxy) in Ed. injection Ed as ->.
    by apply (line_at_zero 32 _ multiply_ring). }
  f_equal. apply list_eq. intros k. rewrite !list_lookup_fmap. destruct (secret !! k) as [c|] eqn:Ek.
  - rewrite lookup_seq_lt by (apply lookup_lt_Some in Ek; by destruct Hc as [<- _]). cbn. by rewrite (Hk k c).
  - rewrite lookup_seq_ge; [done|]. apply lookup_ge_None in Ek. by destruct Hc as [<- _].
Qed.

Lemma two_shares_reconstruct_witness :
  reconstruct_secret (line_share [1; 2; 3; 4; 5; 6; 7; 8] [9; 10; 11; 12; 13; 14; 15; 16] 0 [])
    (line_share [1; 2; 3; 4; 5; 6; 7; 8] [9; 10; 11; 12; 13; 14; 15; 16] 2 []) =
  mjoin (map (to_le 4) [1; 2; 3; 4; 5; 6; 7; 8]).
Proof.
  apply (two_shares_reconstruct [1; 2; 3; 4; 5; 6; 7; 8] [9; 10; 11; 12; 13; 14; 15; 16] 0 2 [] []).
  - split; [reflexivity|]. repeat constructor; vm_compute; congruence.
  - split; [reflexivity|]. repeat constructor; vm_compute; congruence.
  - split; vm_compute; congruence.
  - split; vm_compute; congruence.
  - discriminate.
Defined.

(** Shares that another field of 32 bits has made, such as the one of [binary-fields], do not
    give the secret back here. *)
Definition other_share (secret slopes : list Z) (index : Z) : VerifiableShare :=
  mkVerifiableShare index
    (mjoin (zip_with (fun c m => to_le 4 (Z.lxor c (elem32_mul (wadd 8 index 1) m))) secret slopes)) [].

Example other_field_differs :
  bool_decide (reconstruct_secret (other_share (replicate 8 5) (replicate 8 (2 ^ 31)) 0)
                 (other_share (replicate 8 5) (replicate 8 (2 ^ 31)) 1) = mjoin (map (to_le 4) (replicate 8 5))) = false.
Proof. vm_compute. reflexivity. Qed.

(** * What the checks of the pallet let through *)

Section forge.
Context `{Sha256}.

(** Anyone who has neither key of a ring can sign for it. *)
Lemma ring_signature_without_key r random message :
  r.1 ≠ 0 → r.2 ≠ 0 → to_be 32 (sha256 (ring_message r (random, random) message)) ≠ zeros 32 →
  ring_verify (mkRingSignature r (to_be 32 (sha256 (ring_message r (random, random) message))) (random, random)) message = true.
Proof.
  intros H1 H2 H3. unfold ring_verify. cbn [ring rs_c rs_s].
  rewrite (proj2 (Z.eqb_neq _ 0) H1), (proj2 (Z.eqb_neq _ 0) H2), bool_decide_false by done. by apply bool_decide_true.
Qed.

(** A nullifier made with the standard library is not the one made without. *)
Lemma nullifiers_differ :
  (∀ a b, sha256 a = sha256 b → a = b) → ∀ secret, compute_nullifier secret ≠ compute_nullifier_no_std secret.
Proof.
  intros Hinj secret E%Hinj. apply (f_equal length) in E. rewrite !length_app in E. cbn in E. lia.
Qed.
End forge.
