(* ===== verification/BridgeApi.v ===== *)
(** What the signing bridge of [crates/zanchor/pallets/frost-bridge] promises to the other
    pallets: addresses on the Bitcoin chain and the trait [FrostBridgeInterface] at the end of
    [src/lib.rs].

    [S] is the storage of the pallet that implements the trait. *)
From stdpp Require Import base list strings.
From Stdlib Require Import ZArith.
From S2P Require Import Prelude Bytes Pallet.

Local Open Scope Z_scope.

Inductive BtcAddressType := P2PKH | P2SH | P2WPKH | P2WSH | P2TR.

Record BtcAddress := mkBtcAddress { address_type : BtcAddressType; address_hash : Z }.

#[export] Instance address_type_dec : EqDecision BtcAddressType.
Proof. solve_decision. Defined.
#[export] Instance address_dec : EqDecision BtcAddress.
Proof. solve_decision. Defined.

Definition is_zero (a : BtcAddress) : bool := address_hash a =? 0.

(** [now] is the number of the block in which a pallet asks. *)
Class FrostBridgeInterface (S : Type) := {
  is_bridge_active : S → bool;
  custody_address : S → option BtcAddress;
  request_signature_for : Z → Z → bytes → Z → S → S * result Z string;
}.
