(* ===== verification/Bridge.v ===== *)
(** The signing bridge of the parachain, [crates/zanchor/pallets/frost-bridge/src/lib.rs]:
    registration of signers, the rounds of key generation as the chain follows them, signing
    requests and their signatures, heartbeats, reports and the circuit breaker.

    [n] is the number of the block in which a call is made.  Keys, commitments and the two
    halves of a signature are the numbers their bytes write in big-endian order. *)
From stdpp Require Import base list gmap strings.
From Stdlib Require Import ZArith Lia.
From S2P Require Import Prelude Bytes OrdMap Pallet BridgeApi.

Local Open Scope Z_scope.

(** * Types *)

(** The errors of the pallet, and the one of the framework that a wrong origin gets. *)
Module Error.
Inductive Error :=
| BadOrigin
| AlreadyRegistered
| NotRegistered
| InsufficientSigners
| TooManySigners
| WrongDkgPhase
| DkgTimeout
| InvalidCommitment
| InvalidShare
| NoGroupKey
| InvalidRequest
| SigningTimeout
| InvalidPartialSignature
| AlreadySigned
| RequestNotFound
| NonceReused
| BridgeHalted
| InvalidHeartbeat
| SignerNotMissing
| SignerFrozen
| NotAuthorized
| RecoveryInProgress
| NotHalted
| TimeNotExpired.
End Error.
Import Error.

Record FrostSignature := mkFrostSignature { sig_r : Z; sig_s : Z }.

Inductive DkgFailureReason := Timeout | InvalidCommitment | InvalidShare | InsufficientParticipation.

Inductive DkgPhase :=
| Idle
| Round1 (deadline : Z)
| Round2 (deadline : Z)
| Round3 (deadline : Z)
| DkgFailed (reason : DkgFailureReason).

Inductive SigningRequestStatus := WaitingForCommitments | Signing | Complete | Failed.

Record SigningRequest := mkSigningRequest {
  rq_id : Z;
  requester : Z;
  tx_data : bytes;
  rq_created_at : Z;
  rq_deadline : Z;
  signer_fee : Z;
  committed_signers : list (Z * Z);
  partial_sigs : list (Z * FrostSignature);
  final_sig : option FrostSignature;
  rq_status : SigningRequestStatus;
}.
#[export] Instance request_eta : Eta SigningRequest := fun r =>
  mkSigningRequest (rq_id r) (requester r) (tx_data r) (rq_created_at r) (rq_deadline r) (signer_fee r)
    (committed_signers r) (partial_sigs r) (final_sig r) (rq_status r).

Inductive FreezeReason := MissedSigning | MissedHeartbeat | DkgFailure.

Inductive SignerStatus :=
| Active
| Frozen (since_block : Z) (reason : FreezeReason)
| Offline (since_block : Z)
| PendingRemoval.

Record SignerInfo := mkSignerInfo {
  si_account : Z;
  si_index : Z;
  public_share : Z;
  encryption_key : Z;
  joined_at : Z;
  si_status : SignerStatus;
}.
#[export] Instance signer_eta : Eta SignerInfo := fun s =>
  mkSignerInfo (si_account s) (si_index s) (public_share s) (encryption_key s) (joined_at s) (si_status s).

Record ParticipationStats := mkParticipationStats {
  signing_rounds_available : Z;
  signing_rounds_participated : Z;
  last_participation_block : Z;
  consecutive_misses : Z;
  epoch_penalty : Z;
  lifetime_penalty : Z;
  freeze_count : Z;
}.
#[export] Instance stats_eta : Eta ParticipationStats := fun p =>
  mkParticipationStats (signing_rounds_available p) (signing_rounds_participated p) (last_participation_block p)
    (consecutive_misses p) (epoch_penalty p) (lifetime_penalty p) (freeze_count p).

Inductive CircuitBreakReason := InsufficientLiveness | RepeatedSigningFailure | RepeatedDkgFailure | ManualHalt.

Module BridgeState.
Inductive BridgeState :=
| Active
| CircuitBroken (reason : CircuitBreakReason) (since_block : Z)
| EmergencyRecovery (initiated_at : Z) (recovery_address : bytes).
End BridgeState.

Inductive PenaltyReason := MissedSigningRound | InvalidPartialSignature | LateParticipation.

Inductive ViolationReason := DoubleSign | Equivocation.

#[export] Instance freeze_dec : EqDecision FreezeReason.
Proof. solve_decision. Defined.
#[export] Instance break_dec : EqDecision CircuitBreakReason.
Proof. solve_decision. Defined.
#[export] Instance status_dec : EqDecision SignerStatus.
Proof. solve_decision. Defined.
#[export] Instance bridge_state_dec : EqDecision BridgeState.BridgeState.
Proof. solve_decision. Defined.

(** * Configuration, events and errors *)

Record Config := mkConfig {
  MinSigners : Z;
  MaxSigners : Z;
  Threshold : Z;
  DkgTimeout : Z;
  SigningTimeout : Z;
  RotationPeriod : Z;
  HeartbeatInterval : Z;
  OfflineThreshold : Z;
  SlashingGracePeriod : Z;
  MinParticipationRate : Z;
  CircuitBreakerThreshold : Z;
}.

(** The values of [runtime/src/lib.rs]. *)
Definition runtime_config : Config := mkConfig 3 100 2 100 50 28800 100 300 3 80 5.

Definition MaxTxDataSize : Z := 8192.
Definition MaxPartialSigs : nat := 256.
Definition MaxSignerCount : nat := 256.

Module Event.
Inductive Event :=
| SignerRegistered (who index encryption_key : Z)
| DkgStarted (round participants deadline : Z)
| DkgRoundCompleted (round : Z)
| DkgCompleted (group_public_key threshold signers : Z)
| DkgFailed (reason : DkgFailureReason)
| SigningRequestCreated (request requester deadline : Z)
| PartialSignatureSubmitted (request signer_index : Z)
| SigningCompleted (request : Z) (signature : FrostSignature) (participants : Z)
| SigningFailed (request : Z)
| SigningRewardPaid (signer amount : Z)
| RotationStarted (old_signers new_signers : Z)
| SignerPenalized (who amount : Z) (reason : PenaltyReason)
| SignerFrozen (who : Z) (reason : FreezeReason)
| SignerReactivated (who : Z)
| SevereViolation (who : Z) (reason : ViolationReason)
| HeartbeatReceived (who block : Z)
| SignerWentOffline (who : Z)
| CircuitBreakerTriggered (reason : CircuitBreakReason)
| BridgeResumed
| EmergencyRecoveryInitiated (recovery_address : bytes)
| MissingSignerReported (reporter missing signing_round : Z)
| HeartbeatChallengeRotated (challenge : Z).
End Event.

(** * Storage *)

Record State := mkState {
  events : list Event.Event;
  Signers : gmap Z SignerInfo;
  ActiveSignerList : list Z;
  CurrentDkgPhase : DkgPhase;
  DkgCommitments : gmap Z Z;
  DkgShares : gmap (Z * Z) bytes;
  GroupPublicKey : option Z;
  NextRequestId : Z;
  SigningQueue : gmap Z SigningRequest;
  LastRotation : Z;
  UsedNonces : gmap Z bool;
  SignerParticipation : gmap Z ParticipationStats;
  LastHeartbeat : gmap Z Z;
  CurrentBridgeState : BridgeState.BridgeState;
  ConsecutiveSigningFailures : Z;
  HeartbeatChallenge : Z;
  EpochStartBlock : Z;
}.
#[export] Instance state_eta : Eta State := fun s =>
  mkState (events s) (Signers s) (ActiveSignerList s) (CurrentDkgPhase s) (DkgCommitments s) (DkgShares s)
    (GroupPublicKey s) (NextRequestId s) (SigningQueue s) (LastRotation s) (UsedNonces s) (SignerParticipation s)
    (LastHeartbeat s) (CurrentBridgeState s) (ConsecutiveSigningFailures s) (HeartbeatChallenge s) (EpochStartBlock s).

Definition genesis : State := mkState [] ∅ [] Idle ∅ ∅ None 0 ∅ 0 ∅ ∅ ∅ BridgeState.Active 0 0 0.

Definition deposit_event (s : State) (e : Event.Event) : State := s <| events := events s ++ [e] |>.

Definition ensure_signed (o : Origin) : result Z Error :=
  match o with Signed who => Ok who | Root => Err BadOrigin end.
Definition ensure_root (o : Origin) : result unit Error :=
  match o with Root => Ok tt | Signed _ => Err BadOrigin end.

(** [block_number().saturated_into()] *)
Definition saturated_u32 (n : Z) : Z := Z.min n (umax 32).

Definition put_signer (s : State) (who : Z) (i : SignerInfo) : State := s <| Signers := <[who := i]> (Signers s) |>.

(** [SignerParticipation::mutate(who, f)] *)
Definition ParticipationStats_default : ParticipationStats := mkParticipationStats 0 0 0 0 0 0 0.
Definition stats_of (s : State) (who : Z) : ParticipationStats := default ParticipationStats_default (SignerParticipation s !! who).
Definition mutate_stats (s : State) (who : Z) (f : ParticipationStats → ParticipationStats) : State :=
  s <| SignerParticipation := <[who := f (stats_of s who)]> (SignerParticipation s) |>.

(** * Key generation *)

Definition maybe_start_dkg (cfg : Config) (n : Z) (s : State) : State :=
  match CurrentDkgPhase s with
  | Idle =>
      let signers := ActiveSignerList s in
      if MinSigners cfg <=? Z.of_nat (length signers) then
        let deadline := wadd 32 (saturated_u32 n) (DkgTimeout cfg) in
        deposit_event (s <| CurrentDkgPhase := Round1 deadline |>)
          (Event.DkgStarted 1 (Z.of_nat (length signers)) deadline)
      else s
  | _ => s
  end.

Definition check_dkg_round1_complete (cfg : Config) (n : Z) (s : State) : State :=
  let signers := ActiveSignerList s in
  let commitment_count := length (List.filter (fun i => bool_decide (is_Some (DkgCommitments s !! Z.of_nat i))) (seq 1 (length signers))) in
  if (commitment_count =? length signers)%nat then
    let deadline := wadd 32 (saturated_u32 n) (DkgTimeout cfg) in
    let s := deposit_event (s <| CurrentDkgPhase := Round2 deadline |>) (Event.DkgRoundCompleted 1) in
    deposit_event s (Event.DkgStarted 2 (Z.of_nat (length signers)) deadline)
  else s.

(** The pairs of different indices from 1 to [k]. *)
Definition share_pairs (k : nat) : list (Z * Z) :=
  concat (map (fun from => map (fun to => (Z.of_nat from, Z.of_nat to)) (List.filter (fun to => negb (from =? to)%nat) (seq 1 k))) (seq 1 k)).

Definition check_dkg_round2_complete (cfg : Config) (n : Z) (s : State) : State :=
  let k := Z.of_nat (length (ActiveSignerList s)) in
  let expected_shares := wmul 16 k (wsub 16 k 1) in
  let share_count := length (List.filter (fun p => bool_decide (is_Some (DkgShares s !! p))) (share_pairs (length (ActiveSignerList s)))) in
  if Z.of_nat share_count =? expected_shares then
    let deadline := wadd 32 (saturated_u32 n) (DkgTimeout cfg) in
    let s := deposit_event (s <| CurrentDkgPhase := Round3 deadline |>) (Event.DkgRoundCompleted 2) in
    deposit_event s (Event.DkgStarted 3 k deadline)
  else s.

Definition is_active (s : State) (account : Z) : bool :=
  match Signers s !! account with Some i => bool_decide (si_status i = Active) | None => false end.

Definition compute_group_public_key (s : State) : Z :=
  foldl (fun result account =>
    match Signers s !! account with Some info => Z.lxor result (public_share info) | None => result end)
    0 (ActiveSignerList s).

Definition check_dkg_complete (cfg : Config) (n : Z) (s : State) : State :=
  let signers := ActiveSignerList s in
  if (length (List.filter (is_active s) signers) =? length signers)%nat then
    let group_key := compute_group_public_key s in
    let s := s <| GroupPublicKey := Some group_key |> <| CurrentDkgPhase := Idle |>
               <| LastRotation := saturated_u32 n |> in
    deposit_event s (Event.DkgCompleted group_key (Threshold cfg) (Z.of_nat (length signers)))
  else s.

(** * Registration and the rounds *)

Definition register_signer (cfg : Config) (n : Z) (origin : Origin) (encryption_key : Z) (s : State) : result State Error :=
  let? who := ensure_signed origin in
  ensure! negb (bool_decide (is_Some (Signers s !! who))) else AlreadyRegistered ;;
  let signers := ActiveSignerList s in
  ensure! Z.of_nat (length signers) <? MaxSigners cfg else TooManySigners ;;
  let index := wrap 16 (Z.of_nat (length signers) + 1) in
  match try_push MaxSignerCount who signers with
  | None => Err TooManySigners
  | Some signers =>
      let s := s <| ActiveSignerList := signers |> in
      let s := put_signer s who (mkSignerInfo who index 0 encryption_key (saturated_u32 n) Active) in
      let s := deposit_event s (Event.SignerRegistered who index encryption_key) in
      Ok (maybe_start_dkg cfg n s)
  end.

Definition submit_dkg_commitment (cfg : Config) (n : Z) (origin : Origin) (commitment : Z) (s : State) : result State Error :=
  let? who := ensure_signed origin in
  match Signers s !! who with
  | None => Err NotRegistered
  | Some signer =>
      match CurrentDkgPhase s with
      | Round1 _ => Ok (check_dkg_round1_complete cfg n (s <| DkgCommitments := <[si_index signer := commitment]> (DkgCommitments s) |>))
      | _ => Err WrongDkgPhase
      end
  end.

Definition submit_dkg_share (cfg : Config) (n : Z) (origin : Origin) (to_index : Z) (encrypted_share : bytes) (s : State) : result State Error :=
  let? who := ensure_signed origin in
  match Signers s !! who with
  | None => Err NotRegistered
  | Some signer =>
      match CurrentDkgPhase s with
      | Round2 _ =>
          Ok (check_dkg_round2_complete cfg n (s <| DkgShares := <[(si_index signer, to_index) := encrypted_share]> (DkgShares s) |>))
      | _ => Err WrongDkgPhase
      end
  end.

(** The proof of knowledge is not looked at. *)
Definition submit_dkg_verification (cfg : Config) (n : Z) (origin : Origin) (share : Z) (proof : bytes) (s : State) : result State Error :=
  let? who := ensure_signed origin in
  match Signers s !! who with
  | None => Err NotRegistered
  | Some signer =>
      match CurrentDkgPhase s with
      | Round3 _ =>
          Ok (check_dkg_complete cfg n (put_signer s who (signer <| public_share := share |> <| si_status := Active |>)))
      | _ => Err WrongDkgPhase
      end
  end.

(** * Signing *)

Definition new_request (id who : Z) (tx_data : bytes) (now deadline : Z) : SigningRequest :=
  mkSigningRequest id who tx_data now deadline 0 [] [] None WaitingForCommitments.

Definition request_signature (cfg : Config) (n : Z) (origin : Origin) (tx_data : bytes) (nonce : Z) (s : State) : result State Error :=
  let? who := ensure_signed origin in
  ensure! negb (default false (UsedNonces s !! nonce)) else NonceReused ;;
  ensure! bool_decide (is_Some (GroupPublicKey s)) else NoGroupKey ;;
  let s := s <| UsedNonces := <[nonce := true]> (UsedNonces s) |> in
  let id := NextRequestId s in
  let now := saturated_u32 n in
  let deadline := wadd 32 now (SigningTimeout cfg) in
  let s := s <| NextRequestId := wadd 64 id 1 |>
             <| SigningQueue := <[id := new_request id who tx_data now deadline]> (SigningQueue s) |> in
  Ok (deposit_event s (Event.SigningRequestCreated id who deadline)).

Definition add_signature (f : FrostSignature) (p : Z * FrostSignature) : FrostSignature :=
  mkFrostSignature (Z.lxor (sig_r f) (sig_r p.2)) (Z.lxor (sig_s f) (sig_s p.2)).

Definition aggregate_signatures (partials : list (Z * FrostSignature)) : option FrostSignature :=
  match partials with [] => None | _ => Some (foldl add_signature (mkFrostSignature 0 0) partials) end.

Definition signer_by_index (s : State) (index : Z) : option Z :=
  find_first (fun account =>
    match Signers s !! account with Some info => si_index info =? index | None => false end) (ActiveSignerList s).

Definition distribute_signing_rewards (s : State) (participants : list (Z * FrostSignature)) : State :=
  match participants with
  | [] => s
  | _ =>
      let per_signer := 1000 / Z.of_nat (length participants) in
      foldl (fun s p =>
        match signer_by_index s p.1 with
        | Some account => deposit_event s (Event.SigningRewardPaid account per_signer)
        | None => s
        end) s participants
  end.

Definition participated (now : Z) (stats : ParticipationStats) : ParticipationStats :=
  stats <| signing_rounds_participated := wadd 32 (signing_rounds_participated stats) 1 |>
        <| consecutive_misses := 0 |> <| last_participation_block := now |>.

Definition credit_signers (s : State) (now : Z) (participants : list (Z * FrostSignature)) : State :=
  foldl (fun s p =>
    match signer_by_index s p.1 with Some account => mutate_stats s account (participated now) | None => s end)
    s participants.

(** What happens when the signatures are enough and there is no final one yet. *)
Definition complete_signing (s : State) (now request_id : Z) (request : SigningRequest) : State * SigningRequest :=
  match aggregate_signatures (partial_sigs request) with
  | None => (s, request)
  | Some signature =>
      let s := credit_signers (distribute_signing_rewards s (partial_sigs request)) now (partial_sigs request) in
      (deposit_event s (Event.SigningCompleted request_id signature (wrap 16 (Z.of_nat (length (partial_sigs request))))),
       request <| final_sig := Some signature |>)
  end.

Definition put_request (s : State) (id : Z) (r : SigningRequest) : State := s <| SigningQueue := <[id := r]> (SigningQueue s) |>.

(** A full list of signatures drops the new one without an error. *)
Definition submit_partial_signature (cfg : Config) (n : Z) (origin : Origin) (request_id signer_index : Z)
    (partial_sig : FrostSignature) (s : State) : result State Error :=
  let? who := ensure_signed origin in
  match Signers s !! who with
  | None => Err NotRegistered
  | Some signer =>
      ensure! si_index signer =? signer_index else NotRegistered ;;
      ensure! bool_decide (si_status signer = Active) else SignerFrozen ;;
      match SigningQueue s !! request_id with
      | None => Err RequestNotFound
      | Some request =>
          ensure! negb (existsb (fun p => p.1 =? signer_index) (partial_sigs request)) else AlreadySigned ;;
          let now := saturated_u32 n in
          ensure! now <=? rq_deadline request else Error.SigningTimeout ;;
          let sigs := default (partial_sigs request) (try_push MaxPartialSigs (signer_index, partial_sig) (partial_sigs request)) in
          let request := request <| partial_sigs := sigs |> in
          let s := deposit_event s (Event.PartialSignatureSubmitted request_id signer_index) in
          let '(s, request) :=
            if (Threshold cfg <=? Z.of_nat (length (partial_sigs request))) && negb (bool_decide (is_Some (final_sig request)))
            then complete_signing s now request_id request else (s, request) in
          Ok (put_request s request_id request)
      end
  end.

(** * Liveness *)

(** The answer to the challenge is not looked at. *)
Definition verify_heartbeat_signature (who challenge : Z) (response : bytes) : bool := true.

Definition submit_heartbeat (n : Z) (origin : Origin) (challenge_response : bytes) (s : State) : result State Error :=
  let? who := ensure_signed origin in
  match Signers s !! who with
  | None => Err NotRegistered
  | Some signer =>
      ensure! verify_heartbeat_signature who (HeartbeatChallenge s) challenge_response else InvalidHeartbeat ;;
      let now := saturated_u32 n in
      let s := s <| LastHeartbeat := <[who := now]> (LastHeartbeat s) |> in
      let s :=
        match si_status signer with
        | Frozen _ _ =>
            let s := put_signer s who (signer <| si_status := Active |>) in
            let s := mutate_stats s who (fun stats => stats <| consecutive_misses := 0 |>) in
            deposit_event s (Event.SignerReactivated who)
        | _ => s
        end in
      Ok (deposit_event s (Event.HeartbeatReceived who now))
  end.

Definition calculate_penalty_amount (reason : PenaltyReason) : Z :=
  match reason with MissedSigningRound => 1 | InvalidPartialSignature => 5 | LateParticipation => 0 end.

Definition apply_penalty (s : State) (who : Z) (reason : PenaltyReason) : State :=
  let amount := calculate_penalty_amount reason in
  let s := mutate_stats s who (fun stats =>
    stats <| epoch_penalty := sat_add 128 (epoch_penalty stats) amount |>
          <| lifetime_penalty := sat_add 128 (lifetime_penalty stats) amount |>) in
  deposit_event s (Event.SignerPenalized who amount reason).

Definition freeze_signer (s : State) (who : Z) (reason : FreezeReason) (now : Z) : State :=
  match Signers s !! who with
  | None => s
  | Some signer =>
      let s := put_signer s who (signer <| si_status := Frozen now reason |>) in
      let s := mutate_stats s who (fun stats => stats <| freeze_count := sat_add 32 (freeze_count stats) 1 |>) in
      deposit_event s (Event.SignerFrozen who reason)
  end.

Definition max_consecutive_misses : Z := 5.

Definition missed (stats : ParticipationStats) : ParticipationStats :=
  stats <| signing_rounds_available := wadd 32 (signing_rounds_available stats) 1 |>
        <| consecutive_misses := wadd 32 (consecutive_misses stats) 1 |>.

Definition report_missing_signer (n : Z) (origin : Origin) (missing_signer signing_round_id : Z) (s : State) : result State Error :=
  let? reporter := ensure_signed origin in
  ensure! bool_decide (is_Some (Signers s !! reporter)) else NotRegistered ;;
  match SigningQueue s !! signing_round_id with
  | None => Err RequestNotFound
  | Some request =>
      match Signers s !! missing_signer with
      | None => Err NotRegistered
      | Some signer_info =>
          let now := saturated_u32 n in
          ensure! rq_deadline request <? now else TimeNotExpired ;;
          ensure! negb (existsb (fun p => p.1 =? si_index signer_info) (partial_sigs request)) else SignerNotMissing ;;
          let s := apply_penalty (mutate_stats s missing_signer missed) missing_signer MissedSigningRound in
          let s :=
            if max_consecutive_misses <=? consecutive_misses (stats_of s missing_signer)
            then freeze_signer s missing_signer MissedSigning now else s in
          Ok (deposit_event s (Event.MissingSignerReported reporter missing_signer signing_round_id))
      end
  end.

(** * The breaker *)

Definition initiate_emergency_recovery (n : Z) (origin : Origin) (recovery_address : bytes) (s : State) : result State Error :=
  let? _ := ensure_root origin in
  match CurrentBridgeState s with
  | BridgeState.EmergencyRecovery _ _ => Err RecoveryInProgress
  | _ =>
      let s := s <| CurrentBridgeState := BridgeState.EmergencyRecovery (saturated_u32 n) recovery_address |> in
      Ok (deposit_event s (Event.EmergencyRecoveryInitiated recovery_address))
  end.

Definition resume_bridge (origin : Origin) (s : State) : result State Error :=
  let? _ := ensure_root origin in
  match CurrentBridgeState s with
  | BridgeState.CircuitBroken _ _ =>
      let s := s <| CurrentBridgeState := BridgeState.Active |> <| ConsecutiveSigningFailures := 0 |> in
      Ok (deposit_event s Event.BridgeResumed)
  | _ => Err NotHalted
  end.

Definition halt_bridge (n : Z) (origin : Origin) (s : State) : result State Error :=
  let? _ := ensure_root origin in
  let s := s <| CurrentBridgeState := BridgeState.CircuitBroken ManualHalt (saturated_u32 n) |> in
  Ok (deposit_event s (Event.CircuitBreakerTriggered ManualHalt)).

Definition trigger_circuit_breaker (s : State) (reason : CircuitBreakReason) (now : Z) : State :=
  match CurrentBridgeState s with
  | BridgeState.Active =>
      deposit_event (s <| CurrentBridgeState := BridgeState.CircuitBroken reason now |>) (Event.CircuitBreakerTriggered reason)
  | _ => s
  end.

(** * The end of a block *)

Definition check_dkg_timeout (now : Z) (s : State) : State :=
  match CurrentDkgPhase s with
  | Round1 deadline | Round2 deadline | Round3 deadline =>
      if deadline <? now then
        deposit_event (s <| CurrentDkgPhase := DkgFailed Timeout |>) (Event.DkgFailed Timeout)
      else s
  | _ => s
  end.

(** The statistics of one signer when a request has expired. *)
Definition mark_round (now : Z) (request : SigningRequest) (s : State) (account : Z) : State :=
  match Signers s !! account with
  | None => s
  | Some info =>
      mutate_stats s account (fun stats =>
        if existsb (fun p => p.1 =? si_index info) (partial_sigs request)
        then participated now (stats <| signing_rounds_available := wadd 32 (signing_rounds_available stats) 1 |>)
        else missed stats)
  end.

Definition expire_request (now : Z) (sf : State * Z) (request_id : Z) : State * Z :=
  let '(s, failures_this_block) := sf in
  match SigningQueue s !! request_id with
  | Some request =>
      if (rq_deadline request <? now) && negb (bool_decide (is_Some (final_sig request))) then
        let s := foldl (mark_round now request) s (ActiveSignerList s) in
        let s := deposit_event s (Event.SigningFailed request_id) in
        (s <| SigningQueue := delete request_id (SigningQueue s) |>, wadd 32 failures_this_block 1)
      else sf
  | None => sf
  end.

Definition process_expired_signing_rounds `{Runtime} (cfg : Config) (now : Z) (s : State) : State :=
  let '(s, failures_this_block) := foldl (expire_request now) (s, 0) (walk_order (keys (SigningQueue s))) in
  if 0 <? failures_this_block then
    let total := sat_add 32 (ConsecutiveSigningFailures s) failures_this_block in
    let s := s <| ConsecutiveSigningFailures := total |> in
    if CircuitBreakerThreshold cfg <=? total then trigger_circuit_breaker s RepeatedSigningFailure now else s
  else s.

Definition blocks_since (s : State) (now account : Z) : Z := sat_sub now (default 0 (LastHeartbeat s !! account)).

Definition check_signer (cfg : Config) (now : Z) (so : State * Z) (account : Z) : State * Z :=
  let '(s, offline_count) := so in
  match Signers s !! account with
  | None => so
  | Some signer =>
      if negb (bool_decide (si_status signer = Active)) then (s, wadd 32 offline_count 1)
      else
        let since := blocks_since s now account in
        if OfflineThreshold cfg <? since then
          (if wmul 32 (OfflineThreshold cfg) 2 <? since then freeze_signer s account MissedHeartbeat now else s,
           wadd 32 offline_count 1)
        else so
  end.

Definition check_signer_liveness (cfg : Config) (now : Z) (s : State) : State :=
  let signers := ActiveSignerList s in
  let '(s, offline_count) := foldl (check_signer cfg now) (s, 0) signers in
  if sat_sub (Z.of_nat (length signers)) offline_count <? Threshold cfg
  then trigger_circuit_breaker s InsufficientLiveness now else s.

Definition rotate_heartbeat_challenge (now parent_hash : Z) (s : State) : State :=
  let challenge := Z.lxor parent_hash (from_be (to_le 4 now ++ zeros 28)) in
  deposit_event (s <| HeartbeatChallenge := challenge |>) (Event.HeartbeatChallengeRotated challenge).

(** An interval of zero blocks panics. *)
Definition on_finalize `{Runtime} (cfg : Config) (n parent_hash : Z) (s : State) : option State :=
  let now := saturated_u32 n in
  let s := check_signer_liveness cfg now (process_expired_signing_rounds cfg now (check_dkg_timeout now s)) in
  if HeartbeatInterval cfg =? 0 then None
  else if now mod HeartbeatInterval cfg =? 0 then Some (rotate_heartbeat_challenge now parent_hash s)
  else Some s.

(** * Dispatch *)

Module Call.
Inductive Call :=
| register_signer (encryption_key : Z)
| submit_dkg_commitment (commitment : Z)
| submit_dkg_share (to_index : Z) (encrypted_share : bytes)
| submit_dkg_verification (public_share : Z) (proof : bytes)
| request_signature (tx_data : bytes) (nonce : Z)
| submit_partial_signature (request_id signer_index : Z) (partial_sig : FrostSignature)
| submit_heartbeat (challenge_response : bytes)
| report_missing_signer (missing_signer signing_round_id : Z)
| initiate_emergency_recovery (recovery_address : bytes)
| resume_bridge
| halt_bridge.
End Call.

Definition dispatch (cfg : Config) (n : Z) (origin : Origin) (call : Call.Call) (s : State) : result State Error :=
  match call with
  | Call.register_signer k => register_signer cfg n origin k s
  | Call.submit_dkg_commitment c => submit_dkg_commitment cfg n origin c s
  | Call.submit_dkg_share i e => submit_dkg_share cfg n origin i e s
  | Call.submit_dkg_verification k p => submit_dkg_verification cfg n origin k p s
  | Call.request_signature d k => request_signature cfg n origin d k s
  | Call.submit_partial_signature r i sig => submit_partial_signature cfg n origin r i sig s
  | Call.submit_heartbeat r => submit_heartbeat n origin r s
  | Call.report_missing_signer m r => report_missing_signer n origin m r s
  | Call.initiate_emergency_recovery a => initiate_emergency_recovery n origin a s
  | Call.resume_bridge => resume_bridge origin s
  | Call.halt_bridge => halt_bridge n origin s
  end.

(** A call that fails changes nothing. *)
Definition apply_call (cfg : Config) (n : Z) (s : State) (oc : Origin * Call.Call) : State :=
  match dispatch cfg n oc.1 oc.2 s with Ok s' => s' | Err _ => s end.

(** * The interface to other pallets *)

(** The trait's own way to a signature: the identifier is spent before the size is checked. *)
Definition interface_request_signature (requester n : Z) (data : bytes) (deadline : Z) (s : State) : State * result Z string :=
  match CurrentBridgeState s with
  | BridgeState.Active =>
      match GroupPublicKey s with
      | None => (s, Err "no group key"%string)
      | Some _ =>
          let id := NextRequestId s in
          let s := s <| NextRequestId := wadd 64 id 1 |> in
          if MaxTxDataSize <? Z.of_nat (length data) then (s, Err "tx data too large"%string)
          else (put_request s id (new_request id requester data (saturated_u32 n) deadline), Ok id)
      end
  | _ => (s, Err "bridge not active"%string)
  end.

Definition interface_is_bridge_active (s : State) : bool := bool_decide (CurrentBridgeState s = BridgeState.Active).

Definition interface_custody_address (s : State) : option BtcAddress :=
  match GroupPublicKey s with Some pubkey => Some (mkBtcAddress P2TR pubkey) | None => None end.

#[export] Instance frost_bridge : FrostBridgeInterface State := {|
  is_bridge_active := interface_is_bridge_active;
  custody_address := interface_custody_address;
  request_signature_for := interface_request_signature;
|}.
