(* ===== verification/BridgeSafe.v ===== *)
(** Properties of the signing bridge over every history of calls and blocks: who signs a request
    and when it gets its signature, what it means that the bridge is active at the end of a
    block; and where key generation, reports and the breaker do not do what they are for. *)
From stdpp Require Import base list gmap.
From Stdlib Require Import ZArith Lia.
From S2P Require Import Prelude Bytes OrdMap Pallet BridgeApi Bridge.

Local Open Scope Z_scope.

Section safe.
Context `{RuntimeLaws} (cfg : Config).

(** * Histories *)

(** The calls made so far, each with its block and its origin, and the state they lead to. *)
Inductive reachable : list (Z * Origin * Call.Call) → State → Prop :=
| at_genesis : reachable [] genesis
| after_call made n origin call s :
    reachable made s → reachable (made ++ [(n, origin, call)]) (apply_call cfg n s (origin, call))
| after_block made n parent_hash s s' :
    reachable made s → on_finalize cfg n parent_hash s = Some s' → reachable made s'.

(** * Effects *)

(** The index of every account that is registered. *)
Definition indexes (s : State) : gmap Z Z := si_index <$> Signers s.

Definition same_signers (s s' : State) : Prop :=
  ActiveSignerList s' = ActiveSignerList s ∧ indexes s' = indexes s.

(** A request with one signature more. *)
Definition signed (r : SigningRequest) (i : Z) (sig : FrostSignature) : SigningRequest :=
  let r := r <| partial_sigs := default (partial_sigs r) (try_push MaxPartialSigs (i, sig) (partial_sigs r)) |> in
  if (Threshold cfg <=? Z.of_nat (length (partial_sigs r))) && negb (bool_decide (is_Some (final_sig r)))
  then r <| final_sig := aggregate_signatures (partial_sigs r) |> else r.

Inductive effect (origin : Origin) (call : Call.Call) (s s' : State) : Prop :=
| quiet : same_signers s s' → SigningQueue s' = SigningQueue s → effect origin call s s'
| registers who :
    Signers s !! who = None → (length (ActiveSignerList s) < MaxSignerCount)%nat →
    ActiveSignerList s' = ActiveSignerList s ++ [who] →
    indexes s' = <[who := wrap 16 (Z.of_nat (length (ActiveSignerList s)) + 1)]> (indexes s) →
    SigningQueue s' = SigningQueue s → effect origin call s s'
| requests id r :
    same_signers s s' → partial_sigs r = [] → final_sig r = None →
    SigningQueue s' = <[id := r]> (SigningQueue s) → effect origin call s s'
| signs who id i sig r :
    origin = Signed who → call = Call.submit_partial_signature id i sig →
    same_signers s s' → indexes s !! who = Some i → SigningQueue s !! id = Some r →
    i ∉ (partial_sigs r).*1 → SigningQueue s' = <[id := signed r i sig]> (SigningQueue s) → effect origin call s s'.

#[local] Hint Unfold same_signers : core.

Lemma same_refl s : same_signers s s.
Proof. done. Qed.

Lemma same_trans s1 s2 s3 : same_signers s1 s2 → same_signers s2 s3 → same_signers s1 s3.
Proof. intros [E1 E2] [E3 E4]. split; congruence. Qed.

(** Changing the record of a signer but for its index changes no index. *)
Lemma same_put s who i i' : Signers s !! who = Some i → si_index i' = si_index i → same_signers s (put_signer s who i').
Proof.
  intros Hi Ei. split; [done|]. unfold indexes, put_signer. cbn. rewrite fmap_insert, Ei. apply insert_id.
  by rewrite lookup_fmap, Hi.
Qed.

Lemma status_index i st : si_index (i <| si_status := st |>) = si_index i.
Proof. done. Qed.

Lemma same_freeze s who reason now : same_signers s (freeze_signer s who reason now) ∧
  SigningQueue (freeze_signer s who reason now) = SigningQueue s.
Proof.
  unfold freeze_signer. destruct (Signers s !! who) as [i|] eqn:E; [|done]. split; [|done].
  exact (same_put s who i (i <| si_status := Frozen now reason |>) E (status_index i _)).
Qed.

(** What a fold over signers or signatures leaves alone. *)
Lemma foldl_keeps {A B} (P : A → A → Prop) (f : A → B → A) l a :
  (∀ a, P a a) → (∀ a b c, P a b → P b c → P a c) → (∀ a x, P a (f a x)) → P a (foldl f a l).
Proof. intros Hr Ht Hf. revert a. induction l as [|x l IH]; intros a; cbn; [done|]. eauto. Qed.

Definition only_books (s s' : State) : Prop :=
  same_signers s s' ∧ SigningQueue s' = SigningQueue s ∧ CurrentBridgeState s' = CurrentBridgeState s ∧
  Signers s' = Signers s ∧ LastHeartbeat s' = LastHeartbeat s.

Lemma books_refl s : only_books s s.
Proof. done. Qed.

Lemma books_trans s1 s2 s3 : only_books s1 s2 → only_books s2 s3 → only_books s1 s3.
Proof. intros (E1 & E2 & E3 & E4 & E5) (F1 & F2 & F3 & F4 & F5). split; [by eapply same_trans|]. split_and!; congruence. Qed.

Lemma rewards_books s l : only_books s (distribute_signing_rewards s l).
Proof.
  destruct l as [|p l]; [done|]. unfold distribute_signing_rewards.
  apply (foldl_keeps only_books); [apply books_refl|apply books_trans|]. intros a x. by destruct (signer_by_index a x.1).
Qed.

Lemma credit_books s now l : only_books s (credit_signers s now l).
Proof.
  apply (foldl_keeps only_books); [apply books_refl|apply books_trans|]. intros a x. by destruct (signer_by_index a x.1).
Qed.

Lemma complete_effect s now id r s' r' :
  complete_signing s now id r = (s', r') → partial_sigs r ≠ [] →
  only_books s s' ∧ r' = r <| final_sig := aggregate_signatures (partial_sigs r) |>.
Proof.
  unfold complete_signing. intros E Hne. destruct (aggregate_signatures (partial_sigs r)) as [f|] eqn:Ef.
  - injection E as <- <-. split; [|done].
    pose proof (books_trans _ _ _ (rewards_books s (partial_sigs r)) (credit_books (distribute_signing_rewards s (partial_sigs r)) now (partial_sigs r))).
    done.
  - by destruct (partial_sigs r).
Qed.

Definition same_key (s s' : State) : Prop := CurrentDkgPhase s' = CurrentDkgPhase s ∧ GroupPublicKey s' = GroupPublicKey s.

Lemma complete_keeps_key s now id r s' r' : complete_signing s now id r = (s', r') → same_key s s'.
Proof.
  assert (∀ (f : State → Z * FrostSignature → State) l s, (∀ s p, same_key s (f s p)) → same_key s (foldl f s l)) as Hf.
  { intros f l s0 Hf. apply (foldl_keeps same_key); [done| |done]. intros a b c [E1 E2] [E3 E4]. split; congruence. }
  unfold complete_signing. destruct (aggregate_signatures _); intros [= <- <-]; [|done].
  unfold same_key, credit_signers. cbn.
  destruct (Hf (fun s p => match signer_by_index s p.1 with Some account => mutate_stats s account (participated now) | None => s end)
    (partial_sigs r) (distribute_signing_rewards s (partial_sigs r))) as [-> ->]; [intros a p; by destruct (signer_by_index a p.1)|].
  unfold distribute_signing_rewards. destruct (partial_sigs r); [done|]. apply Hf. intros a p'. by destruct (signer_by_index a p'.1).
Qed.

Lemma freeze_keeps_key s who reason now : same_key s (freeze_signer s who reason now).
Proof. unfold freeze_signer. by destruct (Signers s !! who). Qed.

Lemma bridge_origin o who : ensure_signed o = Ok who ↔ o = Signed who.
Proof. destruct o; naive_solver. Qed.

Lemma existsb_index (l : list (Z * FrostSignature)) i : existsb (fun p => p.1 =? i) l = false → i ∉ l.*1.
Proof.
  intros Hf (p & -> & Hp)%list_elem_of_fmap. rewrite <-not_true_iff_false in Hf. destruct Hf.
  apply existsb_exists. exists p. split; [by apply list_elem_of_In|lia].
Qed.

Lemma start_quiet n s : same_signers s (maybe_start_dkg cfg n s) ∧ SigningQueue (maybe_start_dkg cfg n s) = SigningQueue s.
Proof. unfold maybe_start_dkg. destruct (CurrentDkgPhase s); try done. by destruct (_ <=? _). Qed.

Lemma register_effect n origin key s s' call :
  register_signer cfg n origin key s = Ok s' → effect origin call s s'.
Proof.
  intros E. unfold register_signer in E. branches E.
  match goal with H : negb _ = true |- _ => apply negb_true_iff, bool_decide_eq_false_1, eq_None_not_Some in H; rename H into Hn end.
  match goal with H : try_push _ _ _ = Some _ |- _ => apply try_push_Some in H as [-> Hl] end. subst s'.
  match goal with |- effect _ _ s (maybe_start_dkg _ _ ?s1) => destruct (start_quiet n s1) as [[El Ei] Eq] end.
  eapply registers; [exact Hn|exact Hl|by rewrite El| |by rewrite Eq]. rewrite Ei. unfold indexes. cbn. by rewrite fmap_insert.
Qed.

Lemma rounds_effect n origin call s s' :
  (∃ c, submit_dkg_commitment cfg n origin c s = Ok s') ∨ (∃ i e, submit_dkg_share cfg n origin i e s = Ok s') ∨
  (∃ k p, submit_dkg_verification cfg n origin k p s = Ok s') → effect origin call s s'.
Proof.
  intros [[c E]|[(i & e & E)|(k & p & E)]].
  - unfold submit_dkg_commitment in E. branches E. subst. apply quiet; unfold check_dkg_round1_complete; by destruct (_ =? _)%nat.
  - unfold submit_dkg_share in E. branches E. subst. apply quiet; unfold check_dkg_round2_complete; by destruct (_ =? _).
  - unfold submit_dkg_verification in E. branches E. subst.
    match goal with H : Signers s !! ?who = Some ?i |- context [put_signer s ?who ?i'] => assert (same_signers s (put_signer s who i')) as Hs by (by apply (same_put s who i)) end.
    apply quiet; unfold check_dkg_complete; destruct (_ =? _)%nat; try done; exact Hs.
Qed.

Lemma request_effect n origin data nonce s s' call :
  request_signature cfg n origin data nonce s = Ok s' → effect origin call s s'.
Proof. intros E. unfold request_signature in E. branches E. subst. by eapply requests; [| | |reflexivity]. Qed.

Lemma submit_effect n origin id i sig s s' :
  submit_partial_signature cfg n origin id i sig s = Ok s' → effect origin (Call.submit_partial_signature id i sig) s s'.
Proof.
  intros E. unfold submit_partial_signature in E. branches E; subst s';
  match goal with H : ensure_signed _ = Ok _ |- _ => apply bridge_origin in H end;
  match goal with H : negb (existsb _ _) = true |- _ => apply negb_true_iff, existsb_index in H; rename H into Hni end;
  match goal with H : (si_index _ =? i) = true |- _ => apply Z.eqb_eq in H end;
  match goal with H : SigningQueue s !! id = Some ?r |- _ => rename r into r0, H into Hr end;
  match goal with H : Signers s !! ?who = Some ?w |- _ =>
    assert (indexes s !! who = Some i) as Hi by (unfold indexes; rewrite lookup_fmap, H; cbn; congruence) end.
  match goal with H : (if ?b then _ else _) = _ |- _ => destruct b eqn:Eb; [apply complete_effect in H as [(Hs & Hq & _) ->]|injection H as <- <-] end.
  - eapply signs; [done|done|exact Hs|exact Hi|exact Hr|exact Hni|]. cbn. rewrite Hq. cbn. f_equal. unfold signed.
    cbn in Eb |- *. by rewrite Eb.
  - cbn. unfold try_push. destruct (_ <? _)%nat eqn:El; cbn; [by destruct (partial_sigs r0)|].
    intros Hnil. rewrite Hnil in El. discriminate.
  - eapply signs; [done|done|done|exact Hi|exact Hr|exact Hni|]. cbn. f_equal. unfold signed. cbn in Eb |- *. by rewrite Eb.
Qed.

Lemma heartbeat_effect n origin resp s s' call : submit_heartbeat n origin resp s = Ok s' → effect origin call s s'.
Proof.
  intros E. unfold submit_heartbeat in E. branches E. subst.
  match goal with H : Signers s !! ?who = Some ?i |- _ => pose proof (same_put s who i (i <| si_status := Active |>) H (status_index i _)) as Hs;
    destruct (si_status i); apply quiet; (done || exact Hs) end.
Qed.

Lemma report_effect n origin m id s s' call : report_missing_signer n origin m id s = Ok s' → effect origin call s s'.
Proof.
  intros E. unfold report_missing_signer in E. branches E. subst. destruct (_ <=? _); [|by apply quiet].
  match goal with |- effect _ _ _ (deposit_event (freeze_signer ?s1 ?a ?r ?t) _) => destruct (same_freeze s1 a r t) as [Hs Hq] end.
  by apply quiet.
Qed.

Lemma breaker_effect n origin call s s' :
  (∃ a, initiate_emergency_recovery n origin a s = Ok s') ∨ resume_bridge origin s = Ok s' ∨ halt_bridge n origin s = Ok s' →
  effect origin call s s'.
Proof.
  intros [[a E]|[E|E]]; unfold initiate_emergency_recovery, resume_bridge, halt_bridge in E; branches E; subst; by apply quiet.
Qed.

Lemma bridge_effect n origin call s s' : dispatch cfg n origin call s = Ok s' → effect origin call s s'.
Proof.
  destruct call; cbn [dispatch]; intros E;
    first [by eapply register_effect|by eapply request_effect|by apply submit_effect with n|by eapply heartbeat_effect
      |by eapply report_effect|by eapply (rounds_effect n); eauto|by eapply (breaker_effect n); eauto].
Qed.

(** * The end of a block *)

Lemma mark_books now r s a : only_books s (mark_round now r s a).
Proof. unfold mark_round. by destruct (Signers s !! a). Qed.

(** What expired requests change: some of them go. *)
Definition fewer (s s' : State) : Prop :=
  same_signers s s' ∧ CurrentBridgeState s' = CurrentBridgeState s ∧ Signers s' = Signers s ∧ LastHeartbeat s' = LastHeartbeat s ∧
  SigningQueue s' ⊆ SigningQueue s.

Lemma fewer_trans s1 s2 s3 : fewer s1 s2 → fewer s2 s3 → fewer s1 s3.
Proof.
  intros (E1 & E2 & E3 & E4 & E5) (F1 & F2 & F3 & F4 & F5). split; [by eapply same_trans|].
  split_and!; try congruence. by trans (SigningQueue s2).
Qed.

Lemma books_fewer s s' : only_books s s' → fewer s s'.
Proof. intros (E1 & E2 & E3 & E4 & E5). unfold fewer. rewrite E2. split_and!; done. Qed.

Lemma expire_fewer now sf id : fewer sf.1 (expire_request now sf id).1.
Proof.
  destruct sf as [s k]. unfold expire_request. destruct (SigningQueue s !! id) as [r|]; [|by apply books_fewer].
  destruct (_ && _); [|by apply books_fewer]. cbn [fst].
  assert (only_books s (foldl (mark_round now r) s (ActiveSignerList s))) as Hb.
  { apply (foldl_keeps only_books); [apply books_refl|apply books_trans|]. intros; apply mark_books. }
  apply (fewer_trans _ _ _ (books_fewer _ _ Hb)). split_and!; try done. apply delete_subseteq.
Qed.

Lemma trigger_same s reason now :
  same_signers s (trigger_circuit_breaker s reason now) ∧ SigningQueue (trigger_circuit_breaker s reason now) = SigningQueue s ∧
  Signers (trigger_circuit_breaker s reason now) = Signers s ∧
  LastHeartbeat (trigger_circuit_breaker s reason now) = LastHeartbeat s ∧
  CurrentBridgeState (trigger_circuit_breaker s reason now) ≠ BridgeState.Active.
Proof. unfold trigger_circuit_breaker. destruct (CurrentBridgeState s) eqn:E; cbn; rewrite ?E; done. Qed.

Definition trimmed (s s' : State) : Prop := same_signers s s' ∧ SigningQueue s' ⊆ SigningQueue s.

Lemma trimmed_refl s : trimmed s s.
Proof. by split. Qed.
#[local] Hint Resolve trimmed_refl : core.

Lemma trimmed_trans s1 s2 s3 : trimmed s1 s2 → trimmed s2 s3 → trimmed s1 s3.
Proof. intros [E1 E2] [F1 F2]. split; [by eapply same_trans|by trans (SigningQueue s2)]. Qed.

Lemma expired_trimmed now s : trimmed s (process_expired_signing_rounds cfg now s).
Proof.
  unfold process_expired_signing_rounds. set (l := walk_order _).
  assert (fewer s (foldl (expire_request now) (s, 0) l).1) as (E1 & E2 & E3 & E4 & E5).
  { apply (foldl_keeps (fun a b => fewer a.1 b.1) (expire_request now) l (s, 0)).
    - intros a. by apply books_fewer.
    - intros a b c. apply fewer_trans.
    - intros a x. apply expire_fewer. }
  destruct (foldl (expire_request now) (s, 0) l) as [s1 k]. cbn [fst] in *.
  destruct (0 <? k); [|by split]. destruct (_ <=? _); [|by split].
  match goal with |- trimmed _ (trigger_circuit_breaker ?s2 ?r ?t) => destruct (trigger_same s2 r t) as ([Hl Hi] & Hq & _) end.
  split; [|by rewrite Hq]. destruct E1 as [El Ei]. split; [rewrite Hl; exact El|rewrite Hi; exact Ei].
Qed.

(** A signer that the end of a block counts: active, and heard of not too long ago. *)
Definition live (s : State) (now account : Z) : bool :=
  is_active s account && (blocks_since s now account <=? OfflineThreshold cfg).

Lemma check_signer_live now s k a b : live (check_signer cfg now (s, k) a).1 now b = live s now b.
Proof.
  unfold check_signer. destruct (Signers s !! a) as [i|] eqn:Ea; [|done].
  destruct (bool_decide (si_status i = Active)) eqn:Es; cbn [negb]; [|done].
  destruct (Z.ltb_spec (OfflineThreshold cfg) (blocks_since s now a)) as [Hlt|]; [|done].
  destruct (_ <? _); [|done]. cbn [fst]. unfold freeze_signer. rewrite Ea. unfold live, is_active, blocks_since. cbn.
  destruct (Z.eq_dec a b) as [<-|Hne]; [|by rewrite lookup_insert_ne].
  rewrite lookup_insert_eq, Ea. cbn. rewrite Es. cbn. symmetry. apply Z.leb_gt. done.
Qed.

Lemma check_signer_count now s k a :
  is_Some (Signers s !! a) → 0 ≤ k < 2 ^ 32 - 1 → (check_signer cfg now (s, k) a).2 = k + (if live s now a then 0 else 1).
Proof.
  intros [i Ea] Hk. unfold check_signer, live, is_active. rewrite Ea.
  destruct (bool_decide (si_status i = Active)); cbn [negb andb]; [|by apply wadd_small; lia].
  unfold blocks_since. destruct (Z.ltb_spec (OfflineThreshold cfg) (sat_sub now (default 0 (LastHeartbeat s !! a)))); cbn [snd].
  - rewrite wadd_small by lia. rewrite (proj2 (Z.leb_gt _ _)) by done. lia.
  - rewrite (proj2 (Z.leb_le _ _)) by done. cbn. lia.
Qed.

Lemma check_signer_trimmed now sk a : trimmed sk.1 (check_signer cfg now sk a).1 ∧
  (∀ b, is_Some (Signers sk.1 !! b) → is_Some (Signers (check_signer cfg now sk a).1 !! b)).
Proof.
  destruct sk as [s k]. unfold check_signer. destruct (Signers s !! a) as [i|] eqn:Ea; [|done].
  destruct (negb _); [done|]. destruct (_ <? _); [|done]. destruct (_ <? _); [|done]. cbn [fst].
  destruct (same_freeze s a MissedHeartbeat now) as [Hs Hq]. split; [split; [done|by rewrite Hq]|].
  intros b Hb. unfold freeze_signer. rewrite Ea. cbn. destruct (Z.eq_dec a b) as [<-|]; [rewrite lookup_insert_eq; eauto|by rewrite lookup_insert_ne].
Qed.

(** The loop counts those who are not live, and changes nobody's being so. *)
Lemma check_loop now l s k :
  Forall (fun a => is_Some (Signers s !! a)) l → 0 ≤ k → k + Z.of_nat (length l) < 2 ^ 32 →
  let r := foldl (check_signer cfg now) (s, k) l in
  r.2 = k + Z.of_nat (length (List.filter (fun a => negb (live s now a)) l)) ∧ (∀ b, live r.1 now b = live s now b) ∧ trimmed s r.1.
Proof.
  revert s k. induction l as [|a l IH]; intros s k Hl Hk0 Hk; cbn zeta; cbn [foldl].
  { cbn. split_and!; [lia|done|done]. }
  apply Forall_cons in Hl as [Ha Hl]. cbn [length] in Hk.
  pose proof (check_signer_count now s k a Ha ltac:(lia)) as Hc. pose proof (check_signer_live now s k a) as Hv.
  pose proof (check_signer_trimmed now (s, k) a) as [Ht Hr].
  destruct (check_signer cfg now (s, k) a) as [s1 k1]. cbn [fst snd] in *.
  destruct (IH s1 k1) as (E1 & E2 & E3).
  - eapply Forall_impl; [exact Hl|]. intros b Hb. by apply Hr.
  - subst k1. destruct (live s now a); lia.
  - subst k1. destruct (live s now a); lia.
  - split_and!.
    + rewrite E1, Hc. cbn [List.filter]. rewrite (filter_ext (fun a => negb (live s1 now a)) (fun a => negb (live s now a))) by (intros b; by rewrite Hv).
      destruct (live s now a); cbn [negb length]; lia.
    + intros b. by rewrite E2, Hv.
    + exact (trimmed_trans _ _ _ Ht E3).
Qed.

(** * The committee *)

(** The list and the map agree, and the k-th of the list has index k. *)
Record committee (s : State) : Prop := {
  listed : ∀ k a, ActiveSignerList s !! k = Some a → indexes s !! a = Some (Z.of_nat k + 1);
  registered : ∀ a i, indexes s !! a = Some i → a ∈ ActiveSignerList s;
  few : (length (ActiveSignerList s) ≤ MaxSignerCount)%nat;
}.

Lemma committee_same s s' : same_signers s s' → committee s → committee s'.
Proof. intros [El Ei] [Hl Hr Hf]. split; rewrite El, ?Ei; done. Qed.

Lemma committee_index s a i : committee s → indexes s !! a = Some i → ∃ k, ActiveSignerList s !! k = Some a ∧ i = Z.of_nat k + 1.
Proof.
  intros Hc Hi. destruct (proj1 (list_elem_of_lookup _ _) (registered _ Hc _ _ Hi)) as [k Hk]. exists k. split; [done|].
  pose proof (listed _ Hc _ _ Hk). congruence.
Qed.

Lemma effect_committee origin call s s' : committee s → effect origin call s s' → committee s'.
Proof.
  intros Hc [Hs _|who Hn Hl El Ei _|id r Hs _ _ _|who id i sig r _ _ Hs _ _ _ _]; try by eapply committee_same.
  assert (indexes s !! who = None) as Hni by (unfold indexes; by rewrite lookup_fmap, Hn).
  split; rewrite El, ?Ei.
  - intros k a. destruct (decide (a = who)) as [->|Hne].
    + rewrite lookup_insert_eq. intros [Hk|(Hk & Ek)]%lookup_app_Some.
      * rewrite (listed _ Hc _ _ Hk) in Hni. discriminate.
      * unfold MaxSignerCount in Hl. destruct (k - length (ActiveSignerList s))%nat eqn:E; [|done].
        f_equal. rewrite wrap_small; [lia|]. split; lia.
    + rewrite lookup_insert_ne by done. intros [Hk|(Hk & Ek)]%lookup_app_Some; [by apply (listed _ Hc)|].
      destruct (k - length (ActiveSignerList s))%nat; [|done]. injection Ek as <-. done.
  - intros a i. destruct (decide (a = who)) as [->|Hne]; [rewrite elem_of_app; intros; right; by left|].
    rewrite lookup_insert_ne by done. intros Ha%(registered _ Hc). apply elem_of_app. by left.
  - rewrite length_app. cbn. lia.
Qed.

(** Different accounts have different indices, which run up to the number of signers. *)
Lemma indexes_bounded s (l : list Z) : committee s → NoDup l → (∀ i, i ∈ l → ∃ a, indexes s !! a = Some i) →
  (length l ≤ length (ActiveSignerList s))%nat.
Proof.
  intros Hc Hd Hl. rewrite <-(length_seq (length (ActiveSignerList s)) 0), <-(length_map (fun k => Z.of_nat k + 1)).
  apply NoDup_incl_length; [by apply NoDup_ListNoDup|].
  intros i Hi%list_elem_of_In. destruct (Hl i Hi) as [a Ha]. destruct (committee_index s a i Hc Ha) as (k & Hk & ->).
  apply in_map_iff. exists k. split; [done|]. apply in_seq. apply lookup_lt_Some in Hk. lia.
Qed.

(** * Requests *)

Definition threshold : Z := Z.max 1 (Threshold cfg).

(** A request: its signatures come from different signers who have asked for it, and it has
    its final signature exactly when there are enough, made of the first of them. *)
Record request_ok (made : list (Z * Origin * Call.Call)) (s : State) (id : Z) (r : SigningRequest) : Prop := {
  one_each : NoDup (partial_sigs r).*1;
  by_signers : ∀ i sig, (i, sig) ∈ partial_sigs r → ∃ n who,
    indexes s !! who = Some i ∧ (n, Signed who, Call.submit_partial_signature id i sig) ∈ made;
  completed : match final_sig r with
    | None => Z.of_nat (length (partial_sigs r)) < threshold
    | Some f => threshold ≤ Z.of_nat (length (partial_sigs r)) ∧
        aggregate_signatures (take (Z.to_nat threshold) (partial_sigs r)) = Some f
    end;
}.

Definition requests_ok made s : Prop := map_Forall (request_ok made s) (SigningQueue s).

Lemma request_ok_mono made made' s s' id r :
  request_ok made s id r → made ⊆ made' → (∀ a i, indexes s !! a = Some i → indexes s' !! a = Some i) → request_ok made' s' id r.
Proof. intros [H1 H2 H3] Hm Hi. split; [done| |done]. intros i sig (n & who & Hw & Hc)%H2. exists n, who. auto. Qed.

Lemma signed_ok made s id r i sig who n :
  committee s → request_ok made s id r → indexes s !! who = Some i → i ∉ (partial_sigs r).*1 →
  request_ok (made ++ [(n, Signed who, Call.submit_partial_signature id i sig)]) s id (signed r i sig).
Proof.
  intros Hc Hr Hw Hi. destruct Hr as [H1 H2 H3]. set (made' := made ++ _).
  assert (NoDup ((partial_sigs r ++ [(i, sig)]).*1)) as Hd.
  { rewrite fmap_app. apply NoDup_app. split_and!; [done| |apply NoDup_singleton].
    intros x Hx Hx'%list_elem_of_singleton. by subst x. }
  assert (∀ j t, (j, t) ∈ partial_sigs r ++ [(i, sig)] → ∃ n who,
    indexes s !! who = Some j ∧ (n, Signed who, Call.submit_partial_signature id j t) ∈ made') as Hb.
  { intros j t [Hj|Hj%list_elem_of_singleton]%elem_of_app.
    - destruct (H2 j t Hj) as (m & a & Ha & Hm). exists m, a. split; [done|]. apply elem_of_app. by left.
    - injection Hj as -> ->. exists n, who. split; [done|]. apply elem_of_app. right. by apply list_elem_of_singleton. }
  assert (length (partial_sigs r) < MaxPartialSigs)%nat as Hlen.
  { pose proof (indexes_bounded s ((partial_sigs r ++ [(i, sig)]).*1) Hc Hd) as Hle. rewrite length_fmap, length_app in Hle.
    assert (length (partial_sigs r) + 1 ≤ length (ActiveSignerList s))%nat; [|pose proof (few _ Hc); unfold MaxSignerCount, MaxPartialSigs in *; lia].
    apply Hle. intros j ([j' t] & -> & (? & ? & ? & _)%Hb)%list_elem_of_fmap. eauto. }
  assert (signed r i sig = let r' := r <| partial_sigs := partial_sigs r ++ [(i, sig)] |> in
    if (Threshold cfg <=? Z.of_nat (length (partial_sigs r')) ) && negb (bool_decide (is_Some (final_sig r)))
    then r' <| final_sig := aggregate_signatures (partial_sigs r') |> else r') as ->.
  { unfold signed, try_push. by rewrite (proj2 (Nat.ltb_lt _ _) Hlen). }
  cbn zeta. destruct (Z.leb_spec (Threshold cfg) (Z.of_nat (length (partial_sigs (r <| partial_sigs := partial_sigs r ++ [(i, sig)] |>))))) as [Ht|Ht];
    cbn in Ht; rewrite length_app in Ht; cbn in Ht; destruct (final_sig r) as [f|] eqn:Ef; cbn [andb negb bool_decide decide_rel].
  - rewrite bool_decide_true by done. cbn [negb]. split; cbn; [done|done|]. rewrite Ef. destruct H3 as [H3 H4].
    rewrite length_app. cbn. split; [lia|]. rewrite take_app_le by lia. done.
  - rewrite bool_decide_false by (by intros [? ?]). cbn [negb]. split; cbn; [done|done|].
    assert (Z.to_nat threshold = length (partial_sigs r ++ [(i, sig)])) as Et by (rewrite length_app; unfold threshold in *; cbn; lia).
    destruct (aggregate_signatures (partial_sigs r ++ [(i, sig)])) as [f|] eqn:Ea; [|by destruct (partial_sigs r)].
    rewrite Et, firstn_all. rewrite length_app in *. cbn in *. split; [unfold threshold in *; lia|done].
  - split; cbn; [done|done|]. rewrite Ef. destruct H3 as [H3 H4]. unfold threshold in H3. lia.
  - split; cbn; [done|done|]. rewrite Ef, length_app. cbn. unfold threshold. lia.
Qed.

Lemma effect_requests made n origin call s s' :
  committee s → requests_ok made s → effect origin call s s' → requests_ok (made ++ [(n, origin, call)]) s'.
Proof.
  intros Hc Hr Heff.
  assert (∀ id r, request_ok made s id r → (∀ a i, indexes s !! a = Some i → indexes s' !! a = Some i) → request_ok (made ++ [(n, origin, call)]) s' id r) as Hm.
  { intros id r Hok Hi. eapply request_ok_mono; [exact Hok| |exact Hi]. intros x Hx. apply elem_of_app. by left. }
  destruct Heff as [[_ Ei] Eq|who Hn Hl El Ei Eq|id r [_ Ei] Hp Hf Eq|who id i sig r Eo Ec [El Ei] Hw Hq Hi Eq];
    unfold requests_ok; rewrite Eq.
  - intros id r Hid. apply Hm; [by apply Hr|]. by rewrite Ei.
  - intros id r Hid. apply Hm; [by apply Hr|]. intros a i Ha. rewrite Ei, lookup_insert_ne; [done|]. intros <-.
    unfold indexes in Ha. by rewrite lookup_fmap, Hn in Ha.
  - apply map_Forall_insert_2; [|intros id' r' Hid; apply Hm; [by apply Hr|by rewrite Ei]].
    split; rewrite Hp; [constructor|by intros ? ? ?%elem_of_nil|]. rewrite Hf. unfold threshold. cbn. lia.
  - apply map_Forall_insert_2; [|intros id' r' Hid; apply Hm; [by apply Hr|by rewrite Ei]].
    subst origin call. eapply request_ok_mono; [exact (signed_ok made s id r i sig who n Hc (Hr _ _ Hq) Hw Hi)|done|by rewrite Ei].
Qed.

Lemma trimmed_ok made s s' : trimmed s s' → committee s → requests_ok made s → committee s' ∧ requests_ok made s'.
Proof.
  intros [Hs Hq] Hc Hr. split; [by eapply committee_same|]. intros id r Hid.
  eapply request_ok_mono; [apply (Hr id); by eapply lookup_weaken|done|]. destruct Hs as [_ Ei]. by rewrite Ei.
Qed.

(** * Every history *)

Lemma liveness_trimmed s now : committee s → trimmed s (check_signer_liveness cfg now s).
Proof.
  intros Hc. unfold check_signer_liveness.
  destruct (check_loop now (ActiveSignerList s) s 0) as (_ & _ & Ht).
  - apply Forall_lookup. intros k a Hk%(listed _ Hc). unfold indexes in Hk. rewrite lookup_fmap in Hk.
    destruct (Signers s !! a); [eauto|done].
  - done.
  - pose proof (few _ Hc). unfold MaxSignerCount in *. lia.
  - destruct (foldl _ _ _) as [s1 k]. cbn [fst] in Ht. destruct (_ <? _); [|done].
    destruct (trigger_same s1 InsufficientLiveness now) as (Hs & Hq & _). destruct Ht as [Ht1 Ht2].
    split; [by eapply same_trans|by rewrite Hq].
Qed.

Lemma timeout_trimmed s now : trimmed s (check_dkg_timeout now s).
Proof. unfold check_dkg_timeout. destruct (CurrentDkgPhase s); try done; by destruct (_ <? _). Qed.

Lemma finalize_steps n parent_hash s s' :
  on_finalize cfg n parent_hash s = Some s' →
  let now := saturated_u32 n in
  let s1 := check_signer_liveness cfg now (process_expired_signing_rounds cfg now (check_dkg_timeout now s)) in
  trimmed s1 s' ∧ CurrentBridgeState s' = CurrentBridgeState s1 ∧ (∀ a, live s' now a = live s1 now a).
Proof.
  unfold on_finalize. destruct (_ =? 0); [done|]. destruct (_ =? 0); intros E; apply (inj Some) in E; subst s'; done.
Qed.

Lemma bridge_ok made s : reachable made s → committee s ∧ requests_ok made s.
Proof.
  induction 1 as [|made n origin call s _ [IHc IHr]|made n parent_hash s s' _ [IHc IHr] E].
  - split; [|apply map_Forall_empty]. split; cbn; [done|done|lia].
  - unfold apply_call. cbn [fst snd]. destruct (dispatch cfg n origin call s) as [s'|e] eqn:E.
    + apply bridge_effect in E. split; [by eapply effect_committee|by eapply effect_requests].
    + split; [done|]. intros id r Hid. eapply request_ok_mono; [by apply IHr| |done]. intros x Hx. apply elem_of_app. by left.
  - apply finalize_steps in E as (Ht & _).
    destruct (trimmed_ok made _ _ (timeout_trimmed s (saturated_u32 n)) IHc IHr) as [Hc1 Hr1].
    destruct (trimmed_ok made _ _ (expired_trimmed (saturated_u32 n) _) Hc1 Hr1) as [Hc2 Hr2].
    destruct (trimmed_ok made _ _ (liveness_trimmed _ (saturated_u32 n) Hc2) Hc2 Hr2) as [Hc3 Hr3].
    by apply (trimmed_ok made _ _ Ht).
Qed.

(** C13.  A request for a signature is completed by the committee and by nobody else: over
    every history each of its partial signatures was submitted, for this request, by a
    different registered signer under the index of its own; the final signature is there
    exactly when the threshold has been reached, it is the combination of the signatures up
    to the threshold, and those that come later do not change it. *)
Theorem signatures_by_threshold made s id r :
  reachable made s → SigningQueue s !! id = Some r →
  NoDup (partial_sigs r).*1 ∧
  (∀ i sig, (i, sig) ∈ partial_sigs r → ∃ n who info, Signers s !! who = Some info ∧ si_index info = i ∧
    (n, Signed who, Call.submit_partial_signature id i sig) ∈ made) ∧
  match final_sig r with
  | None => Z.of_nat (length (partial_sigs r)) < threshold
  | Some f => threshold ≤ Z.of_nat (length (partial_sigs r)) ∧
      aggregate_signatures (take (Z.to_nat threshold) (partial_sigs r)) = Some f
  end.
Proof.
  intros Hs Hr. destruct (proj2 (bridge_ok _ _ Hs) id r Hr) as [H1 H2 H3]. split_and!; [done| |done].
  intros i sig (n & who & Hi & Hm)%H2. unfold indexes in Hi. rewrite lookup_fmap in Hi.
  destruct (Signers s !! who) as [info|] eqn:E; [|done]. injection Hi as Hi. by exists n, who, info.
Qed.

(** A bridge that is active when a block has ended has a live signer for every vote that
    a signature needs. *)
Lemma active_has_quorum made s n parent_hash s' :
  reachable made s → on_finalize cfg n parent_hash s = Some s' → CurrentBridgeState s' = BridgeState.Active →
  Threshold cfg ≤ Z.of_nat (length (List.filter (live s' (saturated_u32 n)) (ActiveSignerList s'))).
Proof.
  intros Hs E Ha. destruct (bridge_ok _ _ Hs) as [Hc Hr]. apply finalize_steps in E as ([[El _] _] & Eb & Hv).
  rewrite El, (filter_ext _ _ Hv). rewrite Eb in Ha. clear s' El Eb Hv. set (now := saturated_u32 n) in *.
  destruct (trimmed_ok made _ _ (timeout_trimmed s now) Hc Hr) as [Hc1 Hr1].
  destruct (trimmed_ok made _ _ (expired_trimmed now _) Hc1 Hr1) as [Hc2 _].
  set (s2 := process_expired_signing_rounds _ _ _) in *. unfold check_signer_liveness in *.
  destruct (check_loop now (ActiveSignerList s2) s2 0) as (Ek & Hv & [[El _] _]).
  - apply Forall_lookup. intros k a Hk%(listed _ Hc2). unfold indexes in Hk. rewrite lookup_fmap in Hk.
    destruct (Signers s2 !! a); [eauto|done].
  - done.
  - pose proof (few _ Hc2). unfold MaxSignerCount in *. lia.
  - destruct (foldl _ _ _) as [s3 k]. cbn [fst snd] in *.
    destruct (Z.ltb_spec (sat_sub (Z.of_nat (length (ActiveSignerList s2))) k) (Threshold cfg)) as [|Hge].
    + destruct (trigger_same s3 InsufficientLiveness now) as (_ & _ & _ & _ & Hna). done.
    + rewrite El, (filter_ext _ _ Hv). pose proof (List.filter_length (live s2 now) (ActiveSignerList s2)).
      unfold sat_sub in Hge. lia.
Qed.
End safe.

(** No signed call changes whether the bridge is active. *)
Lemma signed_keeps_state cfg n who call s s' :
  dispatch cfg n (Signed who) call s = Ok s' → CurrentBridgeState s' = CurrentBridgeState s.
Proof.
  intros E. destruct call; cbn [dispatch] in E.
  - unfold register_signer in E. branches E. subst. unfold maybe_start_dkg. cbn.
    destruct (CurrentDkgPhase s); try done. by destruct (_ <=? _).
  - unfold submit_dkg_commitment in E. branches E. subst. unfold check_dkg_round1_complete. by destruct (_ =? _)%nat.
  - unfold submit_dkg_share in E. branches E. subst. unfold check_dkg_round2_complete. by destruct (_ =? _).
  - unfold submit_dkg_verification in E. branches E. subst. unfold check_dkg_complete. by destruct (_ =? _)%nat.
  - unfold request_signature in E. branches E. by subst.
  - unfold submit_partial_signature in E. branches E. subst. cbn.
    match goal with H : (if ?b then _ else _) = (?s2, _) |- _ => destruct b; [|by injection H as <- <-] end.
    match goal with H : complete_signing _ _ _ _ = _ |- _ => apply complete_effect in H as [(_ & _ & Hb & _) _]; [exact Hb|] end.
    cbn. unfold try_push. destruct (_ <? _)%nat eqn:El; cbn; [by destruct (partial_sigs _)|]. intros Hnil. by rewrite Hnil in El.
  - unfold submit_heartbeat in E. branches E. subst. by destruct (si_status _).
  - unfold report_missing_signer in E. branches E. subst. destruct (_ <=? _); [|done].
    unfold freeze_signer. cbn. by destruct (Signers s !! missing_signer).
  - discriminate E.
  - discriminate E.
  - discriminate E.
Qed.

(** * What goes wrong *)

#[export] Instance in_order : Runtime := {| blake2_256 _ := 0; encode_account _ := []; walk_order l := l |}.
#[export] Instance in_order_laws : RuntimeLaws.
Proof. split. intros l. reflexivity. Qed.

Definition play (s : State) (calls : list (Z * Origin * Call.Call)) : State :=
  foldl (fun s c => apply_call runtime_config c.1.1 s (c.1.2, c.2)) s calls.

Lemma play_reachable made s calls : reachable runtime_config made s → reachable runtime_config (made ++ calls) (play s calls).
Proof.
  revert made s. induction calls as [|[[n o] c] calls IH]; intros made s Hs; [by rewrite app_nil_r|].
  rewrite cons_middle, app_assoc. apply IH. by apply after_call.
Qed.

(** Three signers register, commit and share; in the third round they send the given shares. *)
Definition round_calls (n : Z) (c : Z → Call.Call) (who : list Z) : list (Z * Origin * Call.Call) := map (fun a => (n, Signed a, c a)) who.
Definition up_to_round3 : list (Z * Origin * Call.Call) :=
  round_calls 1 (fun a => Call.register_signer a) [1; 2; 3] ++ round_calls 2 (fun a => Call.submit_dkg_commitment a) [1; 2; 3] ++
  concat (map (fun i => round_calls 3 (fun _ => Call.submit_dkg_share i []) [1; 2; 3]) [1; 2; 3]).

Definition sign_calls (n id : Z) (who : list Z) : list (Z * Origin * Call.Call) :=
  map (fun a => (n, Signed a, Call.submit_partial_signature id a (mkFrostSignature a (16 * a)))) who.

Definition demo_calls : list (Z * Origin * Call.Call) :=
  up_to_round3 ++ round_calls 4 (fun a => Call.submit_dkg_verification (100 + a) []) [1; 2; 3] ++
  [(5, Signed 9, Call.request_signature [] 7)] ++ sign_calls 6 0 [1; 3; 2].
Definition demo_state : State := play genesis demo_calls.
Definition demo_request : SigningRequest := default (new_request 0 0 [] 0 0) (SigningQueue demo_state !! 0).

Lemma signatures_by_threshold_witness :
  SigningQueue demo_state !! 0 = Some demo_request ∧ map fst (partial_sigs demo_request) = [1; 3; 2] ∧
  final_sig demo_request = Some (mkFrostSignature 2 32) ∧ NoDup (partial_sigs demo_request).*1.
Proof.
  assert (SigningQueue demo_state !! 0 = Some demo_request) as Hr by (vm_compute; reflexivity).
  split; [exact Hr|]. split; [vm_compute; reflexivity|]. split; [vm_compute; reflexivity|].
  exact (proj1 (signatures_by_threshold runtime_config demo_calls demo_state 0 demo_request
    (play_reachable [] genesis demo_calls (at_genesis runtime_config)) Hr)).
Defined.

(** A signer is active as soon as it has registered, so the first who answers in the third
    round ends it: the key is the share of this one signer, and the others are too late. *)
Example first_verification_ends_dkg :
  let s := play genesis (up_to_round3 ++ round_calls 4 (fun a => Call.submit_dkg_verification (100 + a) []) [1]) in
  CurrentDkgPhase s = Idle ∧ GroupPublicKey s = Some 101 ∧
  dispatch runtime_config 4 (Signed 2) (Call.submit_dkg_verification 102 []) s = Err Error.WrongDkgPhase.
Proof. vm_compute. split_and!; reflexivity. Qed.

(** The first block ends without signers and breaks the circuit. *)
Example first_block_halts parent_hash :
  match on_finalize runtime_config 1 parent_hash genesis with
  | Some s => CurrentBridgeState s = BridgeState.CircuitBroken InsufficientLiveness 1
  | None => False
  end.
Proof. vm_compute. reflexivity. Qed.

(** A halted bridge takes requests and signs them. *)
Example halted_bridge_signs :
  let s := play (play genesis (up_to_round3 ++ round_calls 4 (fun a => Call.submit_dkg_verification (100 + a) []) [1]))
    ([(5, Root, Call.halt_bridge); (5, Signed 9, Call.request_signature [] 7)] ++ sign_calls 6 0 [1; 3]) in
  CurrentBridgeState s = BridgeState.CircuitBroken ManualHalt 5 ∧
  (SigningQueue s !! 0) ≫= final_sig = Some (mkFrostSignature 2 32).
Proof. vm_compute. split; reflexivity. Qed.

(** One signer freezes another by reporting five times that it was not needed for a request
    that has been signed. *)
Example repeated_reports_freeze :
  let s := play genesis (up_to_round3 ++ round_calls 4 (fun a => Call.submit_dkg_verification (100 + a) []) [1] ++
    [(5, Signed 9, Call.request_signature [] 7)] ++ sign_calls 6 0 [1; 3] ++
    replicate 5 (60, Signed 1, Call.report_missing_signer 2 0)) in
  (SigningQueue s !! 0) ≫= final_sig = Some (mkFrostSignature 2 32) ∧
  si_status <$> Signers s !! 2 = Some (Frozen 60 MissedSigning).
Proof. vm_compute. split; reflexivity. Qed.

(** Who registers late in the life of the chain is frozen at the end of the block. *)
Example newcomer_frozen parent_hash :
  match on_finalize runtime_config 1000 parent_hash (play genesis [(1000, Signed 1, Call.register_signer 1)]) with
  | Some s => si_status <$> Signers s !! 1 = Some (Frozen 1000 MissedHeartbeat)
  | None => False
  end.
Proof. vm_compute. reflexivity. Qed.

(** A key generation that has failed is never tried again: no history leaves this phase, and
    the key stays what it was. *)
Lemma failed_dkg_is_final cfg n origin call s s' reason :
  CurrentDkgPhase s = DkgFailed reason → dispatch cfg n origin call s = Ok s' →
  CurrentDkgPhase s' = DkgFailed reason ∧ GroupPublicKey s' = GroupPublicKey s.
Proof.
  intros Hp E. destruct call; cbn [dispatch] in E.
  - unfold register_signer in E. branches E. subst. unfold maybe_start_dkg. cbn. by rewrite Hp.
  - unfold submit_dkg_commitment in E. rewrite Hp in E. branches E.
  - unfold submit_dkg_share in E. rewrite Hp in E. branches E.
  - unfold submit_dkg_verification in E. rewrite Hp in E. branches E.
  - unfold request_signature in E. branches E. by subst.
  - unfold submit_partial_signature in E. branches E. subst. cbn.
    match goal with H : (if ?b then _ else _) = (?s2, _) |- _ =>
      assert (CurrentDkgPhase s2 = CurrentDkgPhase s ∧ GroupPublicKey s2 = GroupPublicKey s) as [-> ->]; [|done];
      destruct b; [|by injection H as <- <-] end.
    match goal with H : complete_signing _ _ _ _ = _ |- _ => by apply complete_keeps_key in H as [-> ->] end.
  - unfold submit_heartbeat in E. branches E. subst. by destruct (si_status _).
  - unfold report_missing_signer in E. branches E. subst. destruct (_ <=? _); [|done].
    match goal with |- context [freeze_signer ?s1 ?a ?r ?t] => destruct (freeze_keeps_key s1 a r t) as [E1 E2]; split; [exact (eq_trans E1 Hp)|exact E2] end.
  - unfold initiate_emergency_recovery in E. branches E; by subst.
  - unfold resume_bridge in E. branches E. by subst.
  - unfold halt_bridge in E. branches E. by subst.
Qed.
