(* ===== verification/Custody.v ===== *)
(** The custody pallet, [crates/zanchor/pallets/custody/src/lib.rs]: deposits of Bitcoin against
    minted tokens, withdrawals against burned ones, and the checkpoints that collect withdrawals
    into one transaction.

    [f] is the bridge behind the trait [FrostBridgeInterface], [n] the number of the block and
    [parent_hash] the hash of the one before.  Identifiers are the numbers their bytes write in
    big-endian order. *)
From stdpp Require Import base list gmap strings.
From Stdlib Require Import ZArith Lia.
From S2P Require Import Prelude Bytes Pallet BridgeApi.

Local Open Scope Z_scope.

(** * Types *)

Module DepositStatus.
Inductive DepositStatus := Pending | Confirmed | Minted | Expired | Cancelled.
End DepositStatus.

Record DepositRequest := mkDepositRequest {
  dp_id : Z;
  depositor : Z;
  expected_amount : Z;
  dp_btc_txid : option Z;
  confirmed_amount : Z;
  dp_created_at : Z;
  confirmed_at : option Z;
  minted_at : option Z;
  dp_status : DepositStatus.DepositStatus;
}.
#[export] Instance deposit_eta : Eta DepositRequest := fun d =>
  mkDepositRequest (dp_id d) (depositor d) (expected_amount d) (dp_btc_txid d) (confirmed_amount d) (dp_created_at d)
    (confirmed_at d) (minted_at d) (dp_status d).

Module WithdrawalStatus.
Inductive WithdrawalStatus := Pending | InCheckpoint | Signed | Broadcast | Completed | Cancelled.
End WithdrawalStatus.

Record WithdrawalRequest := mkWithdrawalRequest {
  wd_id : Z;
  wd_requester : Z;
  btc_dest : BtcAddress;
  wd_amount : Z;
  wd_fee : Z;
  wd_created_at : Z;
  checkpoint_id : option Z;
  wd_btc_txid : option Z;
  wd_status : WithdrawalStatus.WithdrawalStatus;
}.
#[export] Instance withdrawal_eta : Eta WithdrawalRequest := fun w =>
  mkWithdrawalRequest (wd_id w) (wd_requester w) (btc_dest w) (wd_amount w) (wd_fee w) (wd_created_at w)
    (checkpoint_id w) (wd_btc_txid w) (wd_status w).

Module CheckpointStatus.
Inductive CheckpointStatus := Building | PendingSignature | Signed | Broadcast | Confirmed | Failed.
End CheckpointStatus.

Record Checkpoint := mkCheckpoint {
  cp_id : Z;
  withdrawal_ids : list Z;
  total_amount : Z;
  btc_tx_unsigned : bytes;
  btc_tx_signed : option bytes;
  signing_request_id : option Z;
  cp_created_at : Z;
  signed_at : option Z;
  broadcast_at : option Z;
  btc_confirmed_at : option Z;
  cp_status : CheckpointStatus.CheckpointStatus;
}.

#[export] Instance deposit_status_dec : EqDecision DepositStatus.DepositStatus.
Proof. solve_decision. Defined.
#[export] Instance withdrawal_status_dec : EqDecision WithdrawalStatus.WithdrawalStatus.
Proof. solve_decision. Defined.

(** * Configuration, events and errors *)

Record Config := mkConfig {
  ZbtcAssetId : Z;
  ZzecAssetId : Z;
  MinDepositAmount : Z;
  MinWithdrawalAmount : Z;
  WithdrawalFeeBps : Z;
  DepositExpiry : Z;
  MaxWithdrawalsPerCheckpoint : Z;
  CheckpointInterval : Z;
  RequiredConfirmations : Z;
}.

(** The values of [runtime/src/lib.rs]. *)
Definition runtime_config : Config := mkConfig 1 2 10000 50000 30 14400 256 100 6.

Definition MaxWithdrawals : nat := 256.
Definition MaxBtcTxSize : Z := 65536.

Module Event.
Inductive Event :=
| DepositRequested (deposit depositor : Z) (custody_address : BtcAddress)
| DepositConfirmed (deposit btc_txid amount : Z)
| ZbtcMinted (deposit depositor amount : Z)
| DepositCancelled (deposit : Z) (reason : bytes)
| WithdrawalRequested (withdrawal requester : Z) (btc_dest : BtcAddress) (amount fee : Z)
| WithdrawalQueued (withdrawal checkpoint : Z)
| WithdrawalCompleted (withdrawal btc_txid : Z)
| CheckpointCreated (checkpoint withdrawal_count total_amount : Z)
| CheckpointSigned (checkpoint signing_request : Z)
| CheckpointBroadcast (checkpoint btc_txid : Z)
| CheckpointConfirmed (checkpoint btc_block : Z).
End Event.

(** The errors of the pallet, the one of the framework that a wrong origin gets, and those of
    the assets. *)
Inductive Error :=
| BadOrigin
| AssetsError
| DepositNotFound
| WithdrawalNotFound
| CheckpointNotFound
| InvalidDepositStatus
| InvalidWithdrawalStatus
| AmountBelowMinimum
| InsufficientBalance
| InvalidBtcAddress
| BtcVerificationFailed
| InsufficientConfirmations
| BridgeNotActive
| NoCustodyAddress
| Overflow
| DepositExpired
| NotAuthorized.

(** * Storage *)

(** [T::Assets]: balances and supplies of fungible assets. *)
Class Assets := {
  Book : Type;
  balance : Book → Z → Z → Z;
  total_issuance : Book → Z → Z;
  mint_into : Book → Z → Z → Z → option Book;
  burn_from : Book → Z → Z → Z → option Book;
}.

(** Minting and burning change the supply by their amount; a supply is a [u128]. *)
Class AssetsLaws `{Assets} := {
  issuance_fits b asset : fits 128 (total_issuance b asset);
  mint_spec b asset who x b' : 0 ≤ x → mint_into b asset who x = Some b' →
    total_issuance b' asset = total_issuance b asset + x;
  burn_spec b asset who x b' : 0 ≤ x → burn_from b asset who x = Some b' →
    x ≤ balance b asset who ∧ total_issuance b' asset = total_issuance b asset - x;
}.

Record State `{Assets} := mkState {
  book : Book;
  events : list Event.Event;
  DepositRequests : gmap Z DepositRequest;
  WithdrawalRequests : gmap Z WithdrawalRequest;
  PendingWithdrawals : list Z;
  Checkpoints : gmap Z Checkpoint;
  NextCheckpointId : Z;
  LastCheckpointBlock : Z;
  TotalSupply : Z;
  TotalCustody : Z;
  Nonce : Z;
}.
#[export] Instance state_eta `{Assets} : Eta State := fun s =>
  mkState _ (book s) (events s) (DepositRequests s) (WithdrawalRequests s) (PendingWithdrawals s) (Checkpoints s)
    (NextCheckpointId s) (LastCheckpointBlock s) (TotalSupply s) (TotalCustody s) (Nonce s).

Definition genesis `{Assets} (b : Book) : State := mkState _ b [] ∅ ∅ [] ∅ 0 0 0 0 0.

Section pallet.
Context `{Assets} `{Runtime} `{Sha256} {S : Type} `{FrostBridgeInterface S}.

Definition deposit_event (s : State) (e : Event.Event) : State := s <| events := events s ++ [e] |>.

Definition ensure_signed (o : Origin) : result Z Error :=
  match o with Signed who => Ok who | Root => Err BadOrigin end.
Definition ensure_root (o : Origin) : result unit Error :=
  match o with Root => Ok tt | Signed _ => Err BadOrigin end.

(** * Identifiers *)

Definition id_data (account nonce parent_hash : Z) : bytes := encode_account account ++ to_le 8 nonce ++ to_be 32 parent_hash.

Definition generate_id (parent_hash account : Z) (s : State) : State * Z :=
  let nonce := wadd 64 (Nonce s) 1 in
  (s <| Nonce := nonce |>, sha256 (id_data account nonce parent_hash)).

(** * Deposits *)

Definition put_deposit (s : State) (id : Z) (d : DepositRequest) : State := s <| DepositRequests := <[id := d]> (DepositRequests s) |>.

Definition request_deposit (f : S) (n parent_hash : Z) (origin : Origin) (expected : Z) (s : State) : result State Error :=
  let? who := ensure_signed origin in
  ensure! is_bridge_active f else BridgeNotActive ;;
  match custody_address f with
  | None => Err NoCustodyAddress
  | Some address =>
      let '(s, deposit_id) := generate_id parent_hash who s in
      let s := put_deposit s deposit_id (mkDepositRequest deposit_id who expected None 0 n None None DepositStatus.Pending) in
      Ok (deposit_event s (Event.DepositRequested deposit_id who address))
  end.

(** No proof of the payment is asked for. *)
Definition confirm_deposit (cfg : Config) (n : Z) (origin : Origin) (deposit_id btc_txid amount : Z) (s : State) : result State Error :=
  let? _ := ensure_signed origin in
  match DepositRequests s !! deposit_id with
  | None => Err DepositNotFound
  | Some request =>
      ensure! bool_decide (dp_status request = DepositStatus.Pending) else InvalidDepositStatus ;;
      let expiry := sat_add 32 (dp_created_at request) (DepositExpiry cfg) in
      ensure! n <=? expiry else DepositExpired ;;
      ensure! MinDepositAmount cfg <=? amount else AmountBelowMinimum ;;
      let request := request <| dp_btc_txid := Some btc_txid |> <| confirmed_amount := amount |>
                             <| confirmed_at := Some n |> <| dp_status := DepositStatus.Confirmed |> in
      Ok (deposit_event (put_deposit s deposit_id request) (Event.DepositConfirmed deposit_id btc_txid amount))
  end.

Definition mint_zbtc (cfg : Config) (n : Z) (origin : Origin) (deposit_id : Z) (s : State) : result State Error :=
  let? _ := ensure_signed origin in
  match DepositRequests s !! deposit_id with
  | None => Err DepositNotFound
  | Some request =>
      ensure! bool_decide (dp_status request = DepositStatus.Confirmed) else InvalidDepositStatus ;;
      let amount := confirmed_amount request in
      match mint_into (book s) (ZbtcAssetId cfg) (depositor request) amount with
      | None => Err AssetsError
      | Some b =>
          let s := s <| book := b |> <| TotalSupply := sat_add 128 (TotalSupply s) amount |>
                     <| TotalCustody := sat_add 128 (TotalCustody s) amount |> in
          let request := request <| minted_at := Some n |> <| dp_status := DepositStatus.Minted |> in
          Ok (deposit_event (put_deposit s deposit_id request) (Event.ZbtcMinted deposit_id (depositor request) amount))
      end
  end.

(** * Withdrawals *)

Definition withdrawal_fee (cfg : Config) (amount : Z) : Z := sat_mul 128 amount (WithdrawalFeeBps cfg) / 10000.

(** A full list of pending withdrawals drops the new one without an error. *)
Definition request_withdrawal (cfg : Config) (f : S) (n parent_hash : Z) (origin : Origin) (dest : BtcAddress) (amount : Z) (s : State)
  : result State Error :=
  let? who := ensure_signed origin in
  ensure! is_bridge_active f else BridgeNotActive ;;
  ensure! negb (is_zero dest) else InvalidBtcAddress ;;
  let fee := withdrawal_fee cfg amount in
  let net_amount := sat_sub amount fee in
  ensure! MinWithdrawalAmount cfg <=? net_amount else AmountBelowMinimum ;;
  ensure! amount <=? balance (book s) (ZbtcAssetId cfg) who else InsufficientBalance ;;
  match burn_from (book s) (ZbtcAssetId cfg) who amount with
  | None => Err AssetsError
  | Some b =>
      let s := s <| book := b |> in
      let '(s, withdrawal_id) := generate_id parent_hash who s in
      let request := mkWithdrawalRequest withdrawal_id who dest net_amount fee n None None WithdrawalStatus.Pending in
      let s := s <| WithdrawalRequests := <[withdrawal_id := request]> (WithdrawalRequests s) |>
                 <| PendingWithdrawals := default (PendingWithdrawals s) (try_push MaxWithdrawals withdrawal_id (PendingWithdrawals s)) |>
                 <| TotalSupply := sat_sub (TotalSupply s) amount |> in
      Ok (deposit_event s (Event.WithdrawalRequested withdrawal_id who dest net_amount fee))
  end.

(** * Checkpoints *)

Definition tx_header : bytes := ascii "UNSIGNED_BTC_TX:"%string.
Definition tx_output (o : BtcAddress * Z) : bytes := to_be 32 (address_hash o.1) ++ to_le 16 o.2.

(** The outputs one after the other; a transaction that is too long becomes the empty one. *)
Definition construct_btc_tx (outputs : list (BtcAddress * Z)) : bytes :=
  let tx := tx_header ++ concat (map tx_output outputs) in
  if Z.of_nat (length tx) <=? MaxBtcTxSize then tx else [].

(** One pending withdrawal: its output, the sum and its record. *)
Definition collect_withdrawal (checkpoint : Z) (acc : State * list (BtcAddress * Z) * Z) (withdrawal_id : Z)
  : State * list (BtcAddress * Z) * Z :=
  let '(s, outputs, total) := acc in
  match WithdrawalRequests s !! withdrawal_id with
  | None => acc
  | Some request =>
      let outputs := outputs ++ [(btc_dest request, wd_amount request)] in
      let request' := request <| checkpoint_id := Some checkpoint |> <| wd_status := WithdrawalStatus.InCheckpoint |> in
      (s <| WithdrawalRequests := <[withdrawal_id := request']> (WithdrawalRequests s) |>, outputs,
       sat_add 128 total (wd_amount request))
  end.

Definition create_checkpoint (n : Z) (s : State) : State :=
  let pending := PendingWithdrawals s in
  let s := s <| PendingWithdrawals := [] |> in
  match pending with
  | [] => s
  | _ =>
      let id := wadd 64 (NextCheckpointId s) 1 in
      let s := s <| NextCheckpointId := id |> in
      let '(s, outputs, total) := foldl (collect_withdrawal id) (s, [], 0) pending in
      let checkpoint := mkCheckpoint id pending total (construct_btc_tx outputs) None None n None None None
                          CheckpointStatus.PendingSignature in
      let s := s <| Checkpoints := <[id := checkpoint]> (Checkpoints s) |> <| LastCheckpointBlock := n |> in
      deposit_event s (Event.CheckpointCreated id (Z.of_nat (length pending)) total)
  end.

Definition force_checkpoint (n : Z) (origin : Origin) (s : State) : result State Error :=
  let? _ := ensure_root origin in Ok (create_checkpoint n s).

Definition on_finalize (cfg : Config) (n : Z) (s : State) : State :=
  let pending := Z.of_nat (length (PendingWithdrawals s)) in
  let should_checkpoint := negb (pending =? 0) &&
    ((MaxWithdrawalsPerCheckpoint cfg <=? pending) || (CheckpointInterval cfg <=? sat_sub n (LastCheckpointBlock s))) in
  if should_checkpoint then create_checkpoint n s else s.
End pallet.

(** * Dispatch *)

Module Call.
Inductive Call :=
| request_deposit (expected_amount : Z)
| confirm_deposit (deposit_id btc_txid amount : Z)
| mint_zbtc (deposit_id : Z)
| request_withdrawal (btc_dest : BtcAddress) (amount : Z)
| force_checkpoint.
End Call.

Definition dispatch `{Assets} `{Runtime} `{Sha256} {S : Type} `{FrostBridgeInterface S} (cfg : Config) (f : S) (n parent_hash : Z)
    (origin : Origin) (call : Call.Call) (s : State) : result State Error :=
  match call with
  | Call.request_deposit x => request_deposit f n parent_hash origin x s
  | Call.confirm_deposit d t x => confirm_deposit cfg n origin d t x s
  | Call.mint_zbtc d => mint_zbtc cfg n origin d s
  | Call.request_withdrawal a x => request_withdrawal cfg f n parent_hash origin a x s
  | Call.force_checkpoint => force_checkpoint n origin s
  end.
