(* ===== verification/CustodySafe.v ===== *)
(** Properties of the custody pallet over every history: its books agree with the tokens that
    circulate, every withdrawal is paid by at most one checkpoint, what a checkpoint pays is
    what its withdrawals ask for, and one that finds the list full is lost.  Run together with
    the bridge, it takes nothing in unless the committee of the bridge was live. *)
From stdpp Require Import base list gmap strings relations.
From Stdlib Require Import ZArith Lia.
From S2P Require Import Prelude Bytes OrdMap Pallet BridgeApi Bridge BridgeSafe Custody.

Local Open Scope Z_scope.

(** * Identifiers *)

Section ids.
Context `{Runtime} `{Sha256}.
Hypothesis sha256_inj : ∀ a b : bytes, sha256 a = sha256 b → a = b.

Lemma id_data_nonce a k p a' k' p' : fits 64 k → fits 64 k' → id_data a k p = id_data a' k' p' → k = k'.
Proof.
  intros Hk Hk' E. unfold id_data in E. apply app_inj_2 in E as [_ E]; [|by rewrite !length_app, !length_to_le, !length_to_be].
  apply app_inj_1 in E as [E _]; [|by rewrite !length_to_le]. apply (f_equal from_le) in E. rewrite !from_le_to_le in E.
  change (Z.of_nat 8 * 8) with 64 in E. by rewrite !wrap_small in E.
Qed.

(** The identifiers that have been given out when the counter is at [nonce]. *)
Definition given (nonce id : Z) : Prop := ∃ a k p, id = sha256 (id_data a k p) ∧ 0 < k ≤ nonce.

Lemma given_mono nonce nonce' id : given nonce id → nonce ≤ nonce' → given nonce' id.
Proof. intros (a & k & p & E & Hk) Hn. exists a, k, p. split; [done|lia]. Qed.

Lemma not_given nonce a p : 0 ≤ nonce < 2 ^ 64 - 1 → ¬ given nonce (sha256 (id_data a (nonce + 1) p)).
Proof.
  intros Hn (a' & k & p' & E & Hk). apply sha256_inj, id_data_nonce in E; [lia|split; lia..].
Qed.
End ids.

(** * Checkpoints *)

Definition pay (w : WithdrawalRequest) : BtcAddress * Z := (btc_dest w, wd_amount w).

(** What the withdrawals of a list are to be paid. *)
Definition pays (m : gmap Z WithdrawalRequest) (ids : list Z) : list (BtcAddress * Z) := omap (fun id => pay <$> m !! id) ids.

Definition in_checkpoint (c : Z) (w : WithdrawalRequest) : WithdrawalRequest :=
  w <| checkpoint_id := Some c |> <| wd_status := WithdrawalStatus.InCheckpoint |>.

(** The records after a checkpoint with the withdrawals of a list. *)
Definition collected (c : Z) (ids : list Z) (m : gmap Z WithdrawalRequest) : gmap Z WithdrawalRequest :=
  foldl (fun m id => match m !! id with Some w => <[id := in_checkpoint c w]> m | None => m end) m ids.

Lemma pay_in_checkpoint c w : pay (in_checkpoint c w) = pay w.
Proof. done. Qed.

Lemma pays_ext m m' ids : (∀ id, id ∈ ids → pay <$> m' !! id = pay <$> m !! id) → pays m' ids = pays m ids.
Proof.
  intros Hm. unfold pays. induction ids as [|id ids IH]; [done|]. cbn. rewrite (Hm id) by left.
  rewrite IH; [done|]. intros i Hi. apply Hm. by right.
Qed.

Lemma collected_lookup c ids m id :
  collected c ids m !! id = if bool_decide (id ∈ ids) then in_checkpoint c <$> m !! id else m !! id.
Proof.
  revert m. induction ids as [|j ids IH]; intros m; [done|].
  change (collected c (j :: ids) m) with (collected c ids (match m !! j with Some w => <[j := in_checkpoint c w]> m | None => m end)).
  rewrite IH. clear IH.
  assert (∀ w, in_checkpoint c (in_checkpoint c w) = in_checkpoint c w) as Hi by done.
  destruct (decide (id = j)) as [->|Hne].
  - rewrite (bool_decide_true (j ∈ j :: ids)) by left.
    destruct (m !! j) as [w|] eqn:Ej; cbn; [rewrite lookup_insert_eq|rewrite Ej]; cbn; by case_bool_decide.
  - rewrite (bool_decide_ext (id ∈ j :: ids) (id ∈ ids)) by (rewrite elem_of_cons; naive_solver).
    destruct (m !! j); [|done]. by rewrite lookup_insert_ne.
Qed.

Lemma pays_cons c m id ids w :
  m !! id = Some w → pays m (id :: ids) = pay w :: pays (<[id := in_checkpoint c w]> m) ids.
Proof.
  intros Ew. unfold pays at 1. cbn. rewrite Ew. cbn. f_equal. symmetry. apply pays_ext. intros j _.
  destruct (decide (j = id)) as [->|]; [by rewrite lookup_insert_eq, Ew|by rewrite lookup_insert_ne].
Qed.

Lemma collected_cons c m id ids w : m !! id = Some w → collected c (id :: ids) m = collected c ids (<[id := in_checkpoint c w]> m).
Proof. intros Ew. unfold collected. cbn [foldl]. by rewrite Ew. Qed.

Lemma pays_skip m id ids : m !! id = None → pays m (id :: ids) = pays m ids.
Proof. intros Ew. unfold pays. cbn. by rewrite Ew. Qed.

Lemma collected_skip c m id ids : m !! id = None → collected c (id :: ids) m = collected c ids m.
Proof. intros Ew. unfold collected. cbn [foldl]. by rewrite Ew. Qed.

Lemma collected_pay c ids m id : pay <$> collected c ids m !! id = pay <$> m !! id.
Proof. rewrite collected_lookup. case_bool_decide; [|done]. by destruct (m !! id). Qed.

Section custody.
Context `{AssetsLaws} `{Runtime} `{Sha256} {B : Type} `{FrostBridgeInterface B} (cfg : Custody.Config).
Hypothesis sha256_inj : ∀ a b : bytes, sha256 a = sha256 b → a = b.
Hypothesis terms_ok : 0 ≤ MinDepositAmount cfg ∧ 0 ≤ MinWithdrawalAmount cfg ∧ 0 ≤ WithdrawalFeeBps cfg ≤ 10000.

#[local] Abbreviation State := Custody.State.
#[local] Abbreviation supply s := (total_issuance (book s) (ZbtcAssetId cfg)).

Lemma collect_loop c ids (s : State) outs t :
  0 ≤ t → map_Forall (fun _ w => 0 ≤ wd_amount w) (WithdrawalRequests s) →
  let '(s', outs', t') := foldl (collect_withdrawal c) (s, outs, Z.min (umax 128) t) ids in
  s' = s <| WithdrawalRequests := collected c ids (WithdrawalRequests s) |> ∧
  outs' = outs ++ pays (WithdrawalRequests s) ids ∧ t' = Z.min (umax 128) (t + zsum (map snd (pays (WithdrawalRequests s) ids))).
Proof.
  revert s outs t. induction ids as [|id ids IH]; intros s outs t Ht Hw; cbn [foldl].
  { split_and!; [by destruct s|by rewrite app_nil_r|cbn; f_equal; lia]. }
  unfold collect_withdrawal at 2. cbn beta iota. destruct (WithdrawalRequests s !! id) as [w|] eqn:Ew.
  - pose proof (Hw _ _ Ew) as Hw0. cbn in Hw0. rewrite (pays_cons c _ id ids w Ew), (collected_cons c _ id ids w Ew).
    specialize (IH (s <| WithdrawalRequests := <[id := in_checkpoint c w]> (WithdrawalRequests s) |>) (outs ++ [pay w]) (t + wd_amount w)).
    replace (sat_add 128 (Z.min (umax 128) t) (wd_amount w)) with (Z.min (umax 128) (t + wd_amount w)) by (unfold sat_add; lia).
    unfold in_checkpoint, pay in IH |- *.
    destruct (foldl (collect_withdrawal c) _ ids) as [[s' outs'] t']. destruct IH as (Es & Eo & Et); [lia| |].
    { cbn. apply map_Forall_insert_2; [done|done]. }
    split_and!; [rewrite Es; reflexivity|rewrite Eo, <-app_assoc; reflexivity|]. rewrite Et. cbn [map zsum snd]. f_equal. cbn. lia.
  - rewrite pays_skip, collected_skip by done. by apply IH.
Qed.

Lemma length_pays m ids : (length (pays m ids) ≤ length ids)%nat.
Proof. unfold pays. induction ids as [|id ids IH]; cbn; [done|]. destruct (pay <$> m !! id); cbn; lia. Qed.

(** A transaction of as many outputs as a checkpoint has withdrawals is never too long. *)
Lemma construct_fits outs : (length outs ≤ MaxWithdrawals)%nat → construct_btc_tx outs = tx_header ++ concat (map tx_output outs).
Proof.
  intros Hl. unfold construct_btc_tx. rewrite (proj2 (Z.leb_le _ _)); [done|].
  assert (length (concat (map tx_output outs)) = 48 * length outs)%nat as E.
  { clear Hl. induction outs as [|o outs IH]; [done|]. cbn [map concat]. unfold tx_output at 1.
    rewrite !length_app, length_to_be, length_to_le, IH. cbn [length]. lia. }
  rewrite length_app, E. unfold MaxWithdrawals, MaxBtcTxSize in *. change (length tx_header) with 16%nat. lia.
Qed.

Definition new_checkpoint (n : Z) (s : State) (c : Z) : Checkpoint :=
  mkCheckpoint c (PendingWithdrawals s) (Z.min (umax 128) (zsum (map snd (pays (WithdrawalRequests s) (PendingWithdrawals s)))))
    (construct_btc_tx (pays (WithdrawalRequests s) (PendingWithdrawals s))) None None n None None None CheckpointStatus.PendingSignature.

(** What a checkpoint changes. *)
Record checkpointed (n c : Z) (s s' : State) : Prop := {
  cd_book : book s' = book s;
  cd_deposits : DepositRequests s' = DepositRequests s;
  cd_withdrawals : WithdrawalRequests s' = collected c (PendingWithdrawals s) (WithdrawalRequests s);
  cd_pending : PendingWithdrawals s' = [];
  cd_checkpoints : Checkpoints s' = <[c := new_checkpoint n s c]> (Checkpoints s);
  cd_next : NextCheckpointId s' = c;
  cd_supply : TotalSupply s' = TotalSupply s;
  cd_custody : TotalCustody s' = TotalCustody s;
  cd_nonce : Nonce s' = Nonce s;
}.

Lemma create_checkpoint_spec n s :
  map_Forall (fun _ w => 0 ≤ wd_amount w) (WithdrawalRequests s) → PendingWithdrawals s ≠ [] →
  checkpointed n (wadd 64 (NextCheckpointId s) 1) s (create_checkpoint n s).
Proof.
  intros Hw Hp. unfold create_checkpoint. destruct (PendingWithdrawals s) as [|p ps] eqn:Ep; [done|].
  set (c := wadd 64 _ 1). set (s1 := _ <| NextCheckpointId := _ |>).
  pose proof (collect_loop c (p :: ps) s1 [] 0 ltac:(lia)) as Hl. change (Z.min (umax 128) 0) with 0 in Hl.
  destruct (foldl (collect_withdrawal c) (s1, [], 0) (p :: ps)) as [[s2 outs] t].
  destruct (Hl Hw) as (-> & -> & ->). rewrite app_nil_l, Z.add_0_l.
  split; try reflexivity; cbn; unfold new_checkpoint; by rewrite Ep.
Qed.

Lemma create_checkpoint_none n s : PendingWithdrawals s = [] → create_checkpoint n s = s.
Proof. intros E. unfold create_checkpoint. rewrite E. destruct s. cbn in E. by subst. Qed.

(** * Histories *)

Definition call_ok (call : Call.Call) : Prop :=
  match call with
  | Call.request_deposit x | Call.confirm_deposit _ _ x | Call.request_withdrawal _ x => fits 128 x
  | _ => True
  end.

(** The counters have not come to their end. *)
Definition room (s : State) : Prop := Nonce s < 2 ^ 64 - 1 ∧ NextCheckpointId s < 2 ^ 64 - 1.

(** A call, the end of a block, or what others do with their tokens: any bridge may be there
    at any call. *)
Inductive step : State → State → Prop :=
| called f n parent_hash origin call s s' :
    call_ok call → room s → dispatch cfg f n parent_hash origin call s = Ok s' → step s s'
| ended n s : room s → step s (on_finalize cfg n s)
| others b s : total_issuance b (ZbtcAssetId cfg) = supply s → step s (s <| book := b |>).

Definition minted (s : State) : Z :=
  msum (fun _ d => if bool_decide (dp_status d = DepositStatus.Minted) then confirmed_amount d else 0) (DepositRequests s).
Definition asked_back (s : State) : Z := msum (fun _ w => wd_amount w + wd_fee w) (WithdrawalRequests s).

Record books_ok (s : State) : Prop := {
  issued : supply s = TotalSupply s;
  flow : TotalSupply s + asked_back s = minted s;
  kept : TotalCustody s = Z.min (umax 128) (minted s);
  deposits_ok : map_Forall (fun id d => 0 ≤ confirmed_amount d ∧ given (Nonce s) id) (DepositRequests s);
  withdrawals_ok : map_Forall (fun id w => 0 ≤ wd_amount w ∧ 0 ≤ wd_fee w ∧ given (Nonce s) id) (WithdrawalRequests s);
  nonce_ok : 0 ≤ Nonce s < 2 ^ 64;
}.

Record lists_ok (s : State) : Prop := {
  next_ok : 0 ≤ NextCheckpointId s < 2 ^ 64;
  pending_once : NoDup (PendingWithdrawals s);
  pending_few : (length (PendingWithdrawals s) ≤ MaxWithdrawals)%nat;
  pending_free : ∀ id, id ∈ PendingWithdrawals s → ∃ w, WithdrawalRequests s !! id = Some w ∧ checkpoint_id w = None;
  checkpoints_ok : map_Forall (fun c cp => 0 < c ≤ NextCheckpointId s ∧ NoDup (withdrawal_ids cp) ∧
    (∀ id, id ∈ withdrawal_ids cp → ∃ w, WithdrawalRequests s !! id = Some w ∧ checkpoint_id w = Some c ∧
       wd_status w = WithdrawalStatus.InCheckpoint) ∧
    total_amount cp = Z.min (umax 128) (zsum (map snd (pays (WithdrawalRequests s) (withdrawal_ids cp)))) ∧
    btc_tx_unsigned cp = tx_header ++ concat (map tx_output (pays (WithdrawalRequests s) (withdrawal_ids cp)))) (Checkpoints s);
  owned : map_Forall (fun id w => match checkpoint_id w with
    | Some c => ∃ cp, Checkpoints s !! c = Some cp ∧ id ∈ withdrawal_ids cp
    | None => wd_status w = WithdrawalStatus.Pending end) (WithdrawalRequests s);
}.

(** ** The books *)

Lemma custody_origin o who : Custody.ensure_signed o = Ok who ↔ o = Signed who.
Proof. destruct o; naive_solver. Qed.

Lemma fee_le x : 0 ≤ x → 0 ≤ withdrawal_fee cfg x ≤ x.
Proof.
  intros Hx. destruct terms_ok as (_ & _ & Hf). unfold withdrawal_fee, sat_mul.
  assert (0 ≤ Z.min (umax 128) (x * WithdrawalFeeBps cfg) ≤ x * 10000) as Hm by (split; [apply Z.min_glb; [done|nia]|nia]).
  split; [apply Z.div_pos; lia|]. apply Z.div_le_upper_bound; lia.
Qed.

Lemma nonce_next s : books_ok s → room s → wadd 64 (Nonce s) 1 = Nonce s + 1.
Proof. intros Hb [Hr _]. pose proof (nonce_ok _ Hb). apply wadd_small. lia. Qed.

Lemma fresh_withdrawal s a p : books_ok s → room s →
  WithdrawalRequests s !! sha256 (id_data a (wadd 64 (Nonce s) 1) p) = None.
Proof.
  intros Hb Hr. rewrite nonce_next by done. destruct (_ !! _) as [w|] eqn:E; [|done].
  apply (withdrawals_ok _ Hb) in E as (_ & _ & Hg). pose proof (nonce_ok _ Hb). destruct Hr as [Hr _].
  by apply not_given in Hg; [|done|lia].
Qed.

Lemma fresh_deposit s a p : books_ok s → room s →
  DepositRequests s !! sha256 (id_data a (wadd 64 (Nonce s) 1) p) = None.
Proof.
  intros Hb Hr. rewrite nonce_next by done. destruct (_ !! _) as [w|] eqn:E; [|done].
  apply (deposits_ok _ Hb) in E as (_ & Hg). pose proof (nonce_ok _ Hb). destruct Hr as [Hr _].
  by apply not_given in Hg; [|done|lia].
Qed.

(** Only the counter of the identifiers moves on. *)
Lemma given_next s a p id :
  books_ok s → room s → given (Nonce s) id ∨ id = sha256 (id_data a (wadd 64 (Nonce s) 1) p) → given (wadd 64 (Nonce s) 1) id.
Proof.
  intros Hb Hr. pose proof (nonce_ok _ Hb). rewrite nonce_next by done. intros [Hg| ->].
  - eapply given_mono; [exact Hg|lia].
  - exists a, (Nonce s + 1), p. split; [done|lia].
Qed.

Lemma deposits_grow s : books_ok s → room s →
  map_Forall (fun id d => 0 ≤ confirmed_amount d ∧ given (wadd 64 (Nonce s) 1) id) (DepositRequests s).
Proof.
  intros Hb Hr. eapply map_Forall_impl; [exact (deposits_ok _ Hb)|]. intros id d [Hd Hg]. split; [done|].
  apply (given_next s 0 0); auto.
Qed.

Lemma withdrawals_grow s : books_ok s → room s →
  map_Forall (fun id w => 0 ≤ wd_amount w ∧ 0 ≤ wd_fee w ∧ given (wadd 64 (Nonce s) 1) id) (WithdrawalRequests s).
Proof.
  intros Hb Hr. eapply map_Forall_impl; [exact (withdrawals_ok _ Hb)|]. intros id w (Hd & Hf & Hg). split_and!; [done..|].
  apply (given_next s 0 0); auto.
Qed.

Lemma deposit_books f n p origin x s s' :
  room s → books_ok s → Custody.request_deposit f n p origin x s = Ok s' → books_ok s'.
Proof.
  intros Hr Hb E. unfold Custody.request_deposit, generate_id in E. branches E. subst s'.
  pose proof (fresh_deposit s t p Hb Hr) as Hf. pose proof (deposits_grow s Hb Hr) as Hd. pose proof (withdrawals_grow s Hb Hr) as Hw.
  pose proof (flow _ Hb) as H4. pose proof (kept _ Hb) as H5. unfold minted, asked_back in *.
  split; unfold minted, asked_back; cbn; [exact (issued _ Hb)| | |apply map_Forall_insert_2; [|exact Hd]|exact Hw|apply wrap_fits; lia].
  - rewrite msum_insert_new by done. cbn. rewrite bool_decide_false by done. lia.
  - rewrite msum_insert_new by done. cbn. rewrite bool_decide_false by done. by rewrite Z.add_0_l.
  - split; [cbn; lia|]. eapply given_next; auto.
Qed.

(** The sum of what is minted when one deposit is written anew. *)
Lemma minted_put s id d d' :
  DepositRequests s !! id = Some d →
  minted (put_deposit s id d') = minted s - (if bool_decide (dp_status d = DepositStatus.Minted) then confirmed_amount d else 0)
    + (if bool_decide (dp_status d' = DepositStatus.Minted) then confirmed_amount d' else 0).
Proof. intros E. unfold minted, put_deposit. cbn. rewrite msum_insert. unfold at_key. by rewrite E. Qed.

Lemma confirm_books n origin id txid x s s' :
  books_ok s → confirm_deposit cfg n origin id txid x s = Ok s' → books_ok s'.
Proof.
  intros Hb E. unfold confirm_deposit in E. branches E. subst s'.
  match goal with H : DepositRequests s !! id = Some ?d |- _ => rename d into d0, H into Hd end.
  match goal with H : bool_decide (dp_status d0 = _) = true |- _ => apply bool_decide_eq_true_1 in H; rename H into Hst end.
  match goal with H : (MinDepositAmount cfg <=? x) = true |- _ => apply Z.leb_le in H; rename H into Hx end.
  set (d' := d0 <| dp_btc_txid := Some txid |> <| confirmed_amount := x |> <| confirmed_at := Some n |> <| dp_status := DepositStatus.Confirmed |>).
  assert (minted (put_deposit s id d') = minted s) as Em.
  { rewrite (minted_put s id d0) by done. rewrite Hst. cbn. rewrite !bool_decide_false by done. lia. }
  destruct Hb as [H4 H5 H6 H7 H8 H9]. split; try done; cbn.
  - change (minted _) with (minted (put_deposit s id d')). by rewrite Em.
  - change (minted _) with (minted (put_deposit s id d')). by rewrite Em.
  - apply map_Forall_insert_2; [|done]. split; [cbn; lia|]. exact (proj2 (H7 _ _ Hd)).
Qed.

Lemma mint_books n origin id s s' : books_ok s → mint_zbtc cfg n origin id s = Ok s' → books_ok s'.
Proof.
  intros Hb E. unfold mint_zbtc in E. branches E. subst s'.
  match goal with H : DepositRequests s !! id = Some ?d |- _ => rename d into d0, H into Hd end.
  match goal with H : bool_decide (dp_status d0 = _) = true |- _ => apply bool_decide_eq_true_1 in H; rename H into Hst end.
  match goal with H : mint_into _ _ _ _ = Some ?b |- _ => rename b into b', H into Hm end.
  pose proof (deposits_ok _ Hb _ _ Hd) as [Hx Hg]. cbn in Hx.
  apply mint_spec in Hm; [|done]. pose proof (issuance_fits b' (ZbtcAssetId cfg)) as [_ Hfit].
  pose proof (issuance_fits (book s) (ZbtcAssetId cfg)) as [Hfit0 _].
  set (d' := d0 <| minted_at := Some n |> <| dp_status := DepositStatus.Minted |>).
  assert (minted (put_deposit s id d') = minted s + confirmed_amount d0) as Em.
  { rewrite (minted_put s id d0) by done. rewrite Hst. cbn. rewrite bool_decide_false, bool_decide_true by done. lia. }
  destruct Hb as [H4 H5 H6 H7 H8 H9].
  assert (sat_add 128 (TotalSupply s) (confirmed_amount d0) = TotalSupply s + confirmed_amount d0) as Es.
  { unfold sat_add, umax. lia. }
  split; try done; cbn.
  - lia.
  - change (minted _) with (minted (put_deposit s id d')). rewrite Em, Es. change (asked_back _) with (asked_back s). lia.
  - change (minted _) with (minted (put_deposit s id d')). rewrite Em, H6. unfold sat_add. lia.
  - apply map_Forall_insert_2; [|done]. split; [done|exact Hg].
Qed.

Lemma withdrawal_books f n p origin dest x s s' :
  fits 128 x → room s → books_ok s → Custody.request_withdrawal cfg f n p origin dest x s = Ok s' → books_ok s'.
Proof.
  intros Hx Hr Hb E. unfold Custody.request_withdrawal, generate_id in E. branches E. subst s'.
  match goal with H : burn_from _ _ _ _ = Some ?b |- _ => rename b into b', H into Hm end.
  apply burn_spec in Hm as [_ Hm]; [|apply Hx]. pose proof (issuance_fits b' (ZbtcAssetId cfg)) as [Hfit _].
  pose proof (fresh_withdrawal s t p Hb Hr) as Hf. pose proof (deposits_grow s Hb Hr) as Hd. pose proof (withdrawals_grow s Hb Hr) as Hw.
  pose proof (fee_le x (proj1 Hx)) as Hfee.
  pose proof (issued _ Hb) as H3'. pose proof (flow _ Hb) as H4. pose proof (kept _ Hb) as H5.
  split; cbn; try done.
  - unfold sat_sub. lia.
  - unfold asked_back in *. cbn. rewrite msum_insert_new by done. cbn. change (minted _) with (minted s). unfold sat_sub in *. lia.
  - apply map_Forall_insert_2; [|done]. cbn. split_and!; [unfold sat_sub; lia|lia|]. eapply given_next; auto.
  - apply wrap_fits. lia.
Qed.

Lemma asked_collected c ids m :
  msum (fun (_ : Z) w => wd_amount w + wd_fee w) (collected c ids m) = msum (fun (_ : Z) w => wd_amount w + wd_fee w) m.
Proof.
  revert m. induction ids as [|id ids IH]; intros m; [done|].
  destruct (m !! id) as [w|] eqn:E; [|by rewrite collected_skip].
  rewrite (collected_cons c m id ids w E), IH, msum_insert. unfold at_key. rewrite E. cbn. lia.
Qed.

Lemma checkpoint_books n s : books_ok s → books_ok (create_checkpoint n s).
Proof.
  intros Hb. destruct (decide (PendingWithdrawals s = [])) as [E|Hp]; [by rewrite create_checkpoint_none|].
  destruct (create_checkpoint_spec n s) as [C1 C2 C3 C4 C5 C6 C7 C8 C9]; [|done|].
  { eapply map_Forall_impl; [exact (withdrawals_ok _ Hb)|]. by intros ? ? (? & _). }
  destruct Hb as [H4 H5 H6 H7 H8 H9].
  split; unfold minted, asked_back; rewrite ?C1, ?C2, ?C3, ?C7, ?C8, ?C9, ?asked_collected; try done.
  intros id w. rewrite collected_lookup. case_bool_decide; [|by apply H8].
  destruct (_ !! id) as [w0|] eqn:Ew; [|done]. intros [= <-]. exact (H8 _ _ Ew).
Qed.

Lemma call_books f n p origin call s s' :
  call_ok call → room s → books_ok s → dispatch cfg f n p origin call s = Ok s' → books_ok s'.
Proof.
  destruct call; cbn [dispatch call_ok]; intros Hc Hr Hb E;
    eauto using deposit_books, confirm_books, mint_books, withdrawal_books.
  unfold force_checkpoint in E. branches E. subst s'. by apply checkpoint_books.
Qed.

Lemma step_books s s' : step s s' → books_ok s → books_ok s'.
Proof.
  intros [f n p origin call s1 s1' Hc Hr E|n s1 Hr|b s1 E] Hb.
  - by eapply call_books.
  - unfold Custody.on_finalize. destruct (_ && _); [by apply checkpoint_books|done].
  - destruct Hb as [H4 H5 H6 H7 H8 H9]. split; try done. cbn. congruence.
Qed.

(** ** The lists *)

Lemma same_lists s s' :
  WithdrawalRequests s' = WithdrawalRequests s → PendingWithdrawals s' = PendingWithdrawals s → Checkpoints s' = Checkpoints s →
  NextCheckpointId s' = NextCheckpointId s → lists_ok s → lists_ok s'.
Proof. intros E1 E2 E3 E4 [H4 H5 H6 H7 H8 H9]. split; rewrite ?E1, ?E2, ?E3, ?E4; done. Qed.

(** A new withdrawal, pending if there was a place. *)
Record queued (id : Z) (w : WithdrawalRequest) (s s' : State) : Prop := {
  q_fresh : WithdrawalRequests s !! id = None;
  q_free : checkpoint_id w = None ∧ wd_status w = WithdrawalStatus.Pending;
  q_withdrawals : WithdrawalRequests s' = <[id := w]> (WithdrawalRequests s);
  q_pending : PendingWithdrawals s' = default (PendingWithdrawals s) (try_push MaxWithdrawals id (PendingWithdrawals s));
  q_checkpoints : Checkpoints s' = Checkpoints s;
  q_next : NextCheckpointId s' = NextCheckpointId s;
}.

Lemma withdrawal_queued f n p origin dest x s s' :
  room s → books_ok s → Custody.request_withdrawal cfg f n p origin dest x s = Ok s' →
  ∃ id w, queued id w s s' ∧ origin = Signed (wd_requester w) ∧ btc_dest w = dest ∧ wd_fee w = withdrawal_fee cfg x ∧
    wd_amount w = sat_sub x (withdrawal_fee cfg x) ∧ is_bridge_active f = true ∧
    (fits 128 x → supply s' = supply s - x).
Proof.
  intros Hr Hb E. unfold Custody.request_withdrawal, generate_id in E. branches E. subst s'.
  match goal with H : Custody.ensure_signed _ = Ok _ |- _ => apply custody_origin in H end.
  match goal with H : burn_from _ _ _ _ = Some ?b |- _ => rename b into b', H into Hm end.
  set (id := sha256 (id_data t (wadd 64 (Nonce s) 1) p)).
  exists id, (mkWithdrawalRequest id t dest (sat_sub x (withdrawal_fee cfg x)) (withdrawal_fee cfg x) n None None WithdrawalStatus.Pending).
  split; [split; [exact (fresh_withdrawal s t p Hb Hr)|by split|reflexivity..]|].
  split_and!; [done..|]. intros [Hx _]. cbn. by apply burn_spec in Hm as [_ Hm].
Qed.

Lemma queued_lists id w s s' : queued id w s s' → lists_ok s → lists_ok s'.
Proof.
  intros [Q1 [Q2 Q2'] Q3 Q4 Q5 Q6] Hl.
  assert (∀ j w', WithdrawalRequests s !! j = Some w' → WithdrawalRequests s' !! j = Some w') as Hold.
  { intros j w' Hj. rewrite Q3, lookup_insert_ne; [done|]. intros <-. congruence. }
  assert (id ∉ PendingWithdrawals s) as Hni by (intros (w' & E & _)%(pending_free _ Hl); congruence).
  assert (PendingWithdrawals s' = PendingWithdrawals s ∨
    PendingWithdrawals s' = PendingWithdrawals s ++ [id] ∧ (length (PendingWithdrawals s) < MaxWithdrawals)%nat) as Hp.
  { rewrite Q4. unfold try_push. destruct (Nat.ltb_spec (length (PendingWithdrawals s)) MaxWithdrawals); cbn; auto. }
  split.
  - rewrite Q6. exact (next_ok _ Hl).
  - destruct Hp as [->|[-> _]]; [exact (pending_once _ Hl)|]. apply NoDup_app. split_and!; [exact (pending_once _ Hl)| |apply NoDup_singleton].
    intros j Hj ->%list_elem_of_singleton. done.
  - destruct Hp as [->|[-> Hlt]]; [exact (pending_few _ Hl)|]. rewrite length_app. cbn. lia.
  - intros j Hj. assert (j ∈ PendingWithdrawals s ∨ j = id) as [(w' & Hw & Hn)%(pending_free _ Hl)| ->].
    { destruct Hp as [Hp|[Hp _]]; rewrite Hp in Hj; [by left|]. apply elem_of_app in Hj as [|?%list_elem_of_singleton]; auto. }
    + exists w'. auto.
    + exists w. split; [|done]. by rewrite Q3, lookup_insert_eq.
  - rewrite Q5, Q6. eapply map_Forall_impl; [exact (checkpoints_ok _ Hl)|]. intros c cp (C1 & C2 & C3 & C4 & C5). cbn beta.
    assert (pays (WithdrawalRequests s') (withdrawal_ids cp) = pays (WithdrawalRequests s) (withdrawal_ids cp)) as ->.
    { apply pays_ext. intros j (w' & Hw & _)%C3. by rewrite Hw, (Hold _ _ Hw). }
    split_and!; [lia..|done| |done|done]. intros j (w' & Hw & ? & ?)%C3. exists w'. auto.
  - rewrite Q3, Q5. apply map_Forall_insert_2; [by rewrite Q2|exact (owned _ Hl)].
Qed.

Lemma checkpoint_lists n s : books_ok s → room s → lists_ok s → lists_ok (create_checkpoint n s).
Proof.
  intros Hb [_ Hr] Hl. destruct (decide (PendingWithdrawals s = [])) as [E|Hp]; [by rewrite create_checkpoint_none|].
  destruct (create_checkpoint_spec n s) as [_ _ C3 C4 C5 C6 _ _ _]; [|done|].
  { eapply map_Forall_impl; [exact (withdrawals_ok _ Hb)|]. by intros ? ? (? & _). }
  pose proof (next_ok _ Hl) as Hn. rewrite wadd_small in * by lia. set (c := NextCheckpointId s + 1) in *.
  set (ps := PendingWithdrawals s) in *.
  assert (∀ ids, pays (WithdrawalRequests (create_checkpoint n s)) ids = pays (WithdrawalRequests s) ids) as Ep.
  { intros ids. rewrite C3. apply pays_ext. intros; apply collected_pay. }
  assert (∀ j w, WithdrawalRequests s !! j = Some w → checkpoint_id w ≠ None → WithdrawalRequests (create_checkpoint n s) !! j = Some w) as Hold.
  { intros j w Hj Hc. rewrite C3, collected_lookup. case_bool_decide as Hin; [|done].
    apply (pending_free _ Hl) in Hin as (w' & E & E'). congruence. }
  split.
  - rewrite C6. lia.
  - rewrite C4. constructor.
  - rewrite C4. cbn. lia.
  - rewrite C4. by intros j ?%elem_of_nil.
  - rewrite C5, C6. apply map_Forall_insert_2.
    + rewrite Ep. cbn [withdrawal_ids total_amount btc_tx_unsigned new_checkpoint]. fold ps. split_and!; [lia..|exact (pending_once _ Hl)| |done|].
      * intros j Hj. destruct (pending_free _ Hl j Hj) as (w & Hw & _). exists (in_checkpoint c w).
        rewrite C3, collected_lookup, bool_decide_true, Hw by done. done.
      * apply construct_fits. etrans; [apply length_pays|exact (pending_few _ Hl)].
    + eapply map_Forall_impl; [exact (checkpoints_ok _ Hl)|]. intros c' cp (D1 & D2 & D3 & D4 & D5). cbn beta. rewrite Ep.
      split_and!; [lia..|done| |done|done]. intros j (w & Hw & Hc & Hs)%D3. exists w. split_and!; [|done..]. apply Hold; congruence.
  - intros j w Hj. rewrite C3, collected_lookup in Hj. rewrite C5. case_bool_decide as Hin.
    + destruct (_ !! j) as [w0|]; [|done]. injection Hj as <-. cbn. exists (new_checkpoint n s c). by rewrite lookup_insert_eq.
    + pose proof (owned _ Hl _ _ Hj) as Ho. cbn in Ho. destruct (checkpoint_id w) as [c'|]; [|done].
      destruct Ho as (cp & Hcp & Hin'). exists cp. split; [|done]. rewrite lookup_insert_ne; [done|]. intros <-.
      apply (checkpoints_ok _ Hl) in Hcp as (D1 & _). lia.
Qed.

Lemma step_lists s s' : step s s' → books_ok s → lists_ok s → lists_ok s'.
Proof.
  intros [f n p origin call s1 s1' Hc Hr E|n s1 Hr|b s1 E] Hb Hl.
  - destruct call; cbn [dispatch] in E.
    + unfold Custody.request_deposit, generate_id in E. branches E. subst s1'. by apply (same_lists s1).
    + unfold confirm_deposit in E. branches E. subst s1'. by apply (same_lists s1).
    + unfold mint_zbtc in E. branches E. subst s1'. by apply (same_lists s1).
    + apply withdrawal_queued in E as (id & w & Q & _); [|done..]. by eapply queued_lists.
    + unfold force_checkpoint in E. branches E. subst s1'. by apply checkpoint_lists.
  - unfold Custody.on_finalize. destruct (_ && _); [by apply checkpoint_lists|done].
  - by apply (same_lists s1).
Qed.

Definition starts (s : State) : Prop := ∃ b, s = Custody.genesis b ∧ total_issuance b (ZbtcAssetId cfg) = 0.
Definition reachable (s : State) : Prop := ∃ s0, starts s0 ∧ rtc step s0 s.

Lemma custody_steps s s' : rtc step s s' → books_ok s → lists_ok s → books_ok s' ∧ lists_ok s'.
Proof.
  induction 1 as [|s s1 s2 Hs _ IH]; [done|]. intros Hb Hl. apply IH; [by eapply step_books|by eapply step_lists].
Qed.

Lemma custody_ok s : reachable s → books_ok s ∧ lists_ok s.
Proof.
  intros (s0 & (b & -> & Hb) & Hs). apply (custody_steps _ _ Hs).
  - split; unfold minted, asked_back; cbn; rewrite ?msum_empty; try done; apply map_Forall_empty.
  - split; cbn; [done|constructor|lia|by intros ? ?%elem_of_nil|apply map_Forall_empty..].
Qed.

(** C14.  The custody of the parachain keeps its books: over every history of deposits, withdrawals,
    checkpoints and transfers between holders the tokens that circulate are what the pallet
    counts as its supply, this supply and all that was ever asked back, fees included, make
    up what was ever minted, and the custody it counts is what was ever minted, up to the
    largest number. *)
Theorem custody_books_balance s :
  reachable s → supply s = TotalSupply s ∧ TotalSupply s + asked_back s = minted s ∧ TotalCustody s = Z.min (umax 128) (minted s).
Proof. intros Hs. destruct (custody_ok s Hs) as [[H4 H5 H6 H7 H8 H9] _]. done. Qed.

(** C37.  A withdrawal is paid once: over every history a checkpoint holds different
    withdrawals, all of them marked with it; its total and its transaction are those of the
    amounts they ask for, to the addresses they name and in their order; whatever is marked
    with a checkpoint is in this one; and what is pending is in none. *)
Theorem withdrawals_paid_once s :
  reachable s →
  (∀ c cp, Checkpoints s !! c = Some cp → NoDup (withdrawal_ids cp) ∧
    (∀ id, id ∈ withdrawal_ids cp → ∃ w, WithdrawalRequests s !! id = Some w ∧ checkpoint_id w = Some c) ∧
    total_amount cp = Z.min (umax 128) (zsum (map snd (pays (WithdrawalRequests s) (withdrawal_ids cp)))) ∧
    btc_tx_unsigned cp = tx_header ++ concat (map tx_output (pays (WithdrawalRequests s) (withdrawal_ids cp)))) ∧
  (∀ id w c, WithdrawalRequests s !! id = Some w → checkpoint_id w = Some c →
    ∃ cp, Checkpoints s !! c = Some cp ∧ id ∈ withdrawal_ids cp) ∧
  (∀ id, id ∈ PendingWithdrawals s → ∀ c cp, Checkpoints s !! c = Some cp → id ∉ withdrawal_ids cp).
Proof.
  intros Hs. destruct (custody_ok s Hs) as [_ Hl]. split_and!.
  - intros c cp (C1 & C2 & C3 & C4 & C5)%(checkpoints_ok _ Hl). split_and!; [done| |done..].
    intros id (w & Hw & Hc & _)%C3. by exists w.
  - intros id w c Hw Hc. pose proof (owned _ Hl _ _ Hw) as Ho. cbn in Ho. by rewrite Hc in Ho.
  - intros id (w & Hw & Hn)%(pending_free _ Hl) c cp (_ & _ & C3 & _)%(checkpoints_ok _ Hl) (w' & Hw' & Hc & _)%C3. congruence.
Qed.

(** What is pending does not stay so: the first block that ends with a full list, or an interval
    after the last checkpoint, puts all of it into one. *)
Lemma pending_withdrawals_leave n s :
  reachable s → room s → PendingWithdrawals s ≠ [] →
  MaxWithdrawalsPerCheckpoint cfg ≤ Z.of_nat (length (PendingWithdrawals s)) ∨ CheckpointInterval cfg ≤ n - LastCheckpointBlock s →
  let s' := Custody.on_finalize cfg n s in
  PendingWithdrawals s' = [] ∧ ∃ cp, Checkpoints s' !! cp_id cp = Some cp ∧ withdrawal_ids cp = PendingWithdrawals s.
Proof.
  intros Hs Hr Hp Hdue. destruct (custody_ok s Hs) as [Hb Hl]. cbn zeta. unfold Custody.on_finalize.
  assert (negb (Z.of_nat (length (PendingWithdrawals s)) =? 0) = true) as -> by (by destruct (PendingWithdrawals s)).
  assert ((MaxWithdrawalsPerCheckpoint cfg <=? Z.of_nat (length (PendingWithdrawals s)))
    || (CheckpointInterval cfg <=? sat_sub n (LastCheckpointBlock s)) = true) as ->.
  { apply orb_true_iff. unfold sat_sub. destruct Hdue; [left|right]; apply Z.leb_le; lia. }
  cbn [andb]. destruct (create_checkpoint_spec n s) as [_ _ C3 C4 C5 C6 _ _ _]; [|done|].
  { eapply map_Forall_impl; [exact (withdrawals_ok _ Hb)|]. by intros ? ? (? & _). }
  split; [done|]. exists (new_checkpoint n s (wadd 64 (NextCheckpointId s) 1)). rewrite C5. cbn. by rewrite lookup_insert_eq.
Qed.

(** ** The withdrawal that finds no place *)

Definition dropped (id : Z) (w : WithdrawalRequest) (s : State) : Prop :=
  WithdrawalRequests s !! id = Some w ∧ checkpoint_id w = None ∧ id ∉ PendingWithdrawals s.

Lemma checkpoint_dropped n id w s : books_ok s → dropped id w s → dropped id w (create_checkpoint n s).
Proof.
  intros Hb (D1 & D2 & D3). destruct (decide (PendingWithdrawals s = [])) as [E|Hp]; [by rewrite create_checkpoint_none|].
  destruct (create_checkpoint_spec n s) as [_ _ C3 C4 _ _ _ _ _]; [|done|].
  { eapply map_Forall_impl; [exact (withdrawals_ok _ Hb)|]. by intros ? ? (? & _). }
  split_and!; [|done|rewrite C4; apply not_elem_of_nil]. by rewrite C3, collected_lookup, bool_decide_false.
Qed.

Lemma step_dropped id w s s' : step s s' → books_ok s → dropped id w s → dropped id w s'.
Proof.
  intros [f n p origin call s1 s1' Hc Hr E|n s1 Hr|b s1 E] Hb Hd.
  - destruct call; cbn [dispatch] in E.
    + unfold Custody.request_deposit, generate_id in E. branches E. by subst s1'.
    + unfold confirm_deposit in E. branches E. by subst s1'.
    + unfold mint_zbtc in E. branches E. by subst s1'.
    + apply withdrawal_queued in E as (j & w' & [Q1 _ Q3 Q4 _ _] & _); [|done..]. destruct Hd as (D1 & D2 & D3).
      assert (id ≠ j) as Hne by (intros ->; congruence).
      split_and!; [by rewrite Q3, lookup_insert_ne|done|]. rewrite Q4. unfold try_push.
      destruct (_ <? _)%nat; cbn; [|done]. intros [?|?%list_elem_of_singleton]%elem_of_app; done.
    + unfold force_checkpoint in E. branches E. subst s1'. by apply checkpoint_dropped.
  - unfold Custody.on_finalize. destruct (_ && _); [by apply checkpoint_dropped|done].
  - done.
Qed.

Lemma steps_dropped id w s s' : rtc step s s' → books_ok s → dropped id w s → dropped id w s'.
Proof.
  induction 1 as [|a b c Hab _ IH]; [done|]. intros Hb Hd. apply IH; [by eapply step_books|by eapply step_dropped].
Qed.

(** The list of pending withdrawals has 256 places, and the one that finds it full is lost
    without an error: its tokens are burned, its record says that it is pending, and in no
    later history does it change or come into a checkpoint. *)
Lemma withdrawal_without_place_is_lost f n parent_hash origin dest x s s' :
  reachable s → room s → fits 128 x → length (PendingWithdrawals s) = MaxWithdrawals →
  dispatch cfg f n parent_hash origin (Call.request_withdrawal dest x) s = Ok s' →
  supply s' = supply s - x ∧
  ∃ id w, WithdrawalRequests s !! id = None ∧ btc_dest w = dest ∧ wd_amount w = sat_sub x (withdrawal_fee cfg x) ∧
    wd_status w = WithdrawalStatus.Pending ∧
    ∀ s'', rtc step s' s'' → WithdrawalRequests s'' !! id = Some w ∧
      ∀ c cp, Checkpoints s'' !! c = Some cp → id ∉ withdrawal_ids cp.
Proof.
  intros Hs Hr Hx Hfull E. pose proof Hs as (s0 & Hs0 & Hs1). destruct (custody_ok s Hs) as [Hb Hl].
  assert (step s s') as Hstep by exact (called f n parent_hash origin (Call.request_withdrawal dest x) s s' Hx Hr E).
  apply withdrawal_queued in E as (id & w & [Q1 [Q2 Q2'] Q3 Q4 Q5 Q6] & _ & Hdest & _ & Ham & _ & Hsup); [|done..].
  split; [by apply Hsup|]. exists id, w. split_and!; [done..|]. intros s'' Hlater.
  assert (dropped id w s') as Hd.
  { split_and!; [by rewrite Q3, lookup_insert_eq|done|]. rewrite Q4. unfold try_push. rewrite Hfull, Nat.ltb_irrefl. cbn.
    intros (w' & E & _)%(pending_free _ Hl). congruence. }
  assert (books_ok s' ∧ lists_ok s') as [Hb' Hl'] by (split; [by eapply step_books|by eapply step_lists]).
  assert (dropped id w s'') as (D1 & D2 & _) by (by eapply steps_dropped).
  split; [done|]. destruct (custody_steps _ _ Hlater Hb' Hl') as [_ Hl'']. intros c cp (_ & _ & C3 & _)%(checkpoints_ok _ Hl'') (w' & Hw' & Hc & _)%C3.
  congruence.
Qed.
End custody.

(** * The two pallets on one chain *)

Section chain.
Context `{AssetsLaws} `{RuntimeLaws} `{Sha256} (bcfg : Bridge.Config) (cfg : Custody.Config) (b0 : Book).

Record World := mkWorld { bridge : Bridge.State; vault : Custody.State }.

Inductive Tx := ToBridge (c : Bridge.Call.Call) | ToCustody (c : Call.Call).

(** A transaction in the block [n]: the custody asks the bridge as it stands. *)
Definition exec (n parent_hash : Z) (w : World) (tx : Origin * Tx) : World :=
  match tx.2 with
  | ToBridge c => mkWorld (Bridge.apply_call bcfg n (bridge w) (tx.1, c)) (vault w)
  | ToCustody c =>
      match dispatch cfg (bridge w) n parent_hash tx.1 c (vault w) with Ok v => mkWorld (bridge w) v | Err _ => w end
  end.

Definition block (n parent_hash : Z) (txs : list (Origin * Tx)) (w : World) : option World :=
  let w := foldl (exec n parent_hash) w txs in
  match Bridge.on_finalize bcfg n parent_hash (bridge w) with
  | Some b => Some (mkWorld b (Custody.on_finalize cfg n (vault w)))
  | None => None
  end.

(** The chain after the block [n]. *)
Inductive chain : Z → World → Prop :=
| no_block : chain 0 (mkWorld Bridge.genesis (Custody.genesis b0))
| next_block n parent_hash txs w w' : chain n w → block (n + 1) parent_hash txs w = Some w' → chain (n + 1) w'.

Lemma exec_reachable n parent_hash txs w made :
  BridgeSafe.reachable bcfg made (bridge w) → ∃ made', BridgeSafe.reachable bcfg made' (bridge (foldl (exec n parent_hash) w txs)).
Proof.
  revert w made. induction txs as [|[o tx] txs IH]; intros w made Hw; [eauto|]. cbn [foldl]. unfold exec at 2. cbn.
  destruct tx as [c|c].
  - eapply IH. cbn. by apply after_call.
  - destruct (dispatch _ _ _ _ _ _ _); by eapply IH.
Qed.

Lemma chain_reachable n w : chain n w → ∃ made, BridgeSafe.reachable bcfg made (bridge w).
Proof.
  induction 1 as [|n parent_hash txs w w' _ [made IH] E]; [exists []; apply at_genesis|].
  destruct (exec_reachable (n + 1) parent_hash txs w made IH) as [made' Hr]. unfold block in E.
  destruct (Bridge.on_finalize _ _ _ _) as [b|] eqn:Eb; [|done]. apply (inj Some) in E. subst w'. exists made'.
  by eapply after_block.
Qed.

Lemma signed_exec n parent_hash txs w :
  Forall (fun tx : Origin * Tx => tx.1 ≠ Root) txs →
  CurrentBridgeState (bridge (foldl (exec n parent_hash) w txs)) = CurrentBridgeState (bridge w).
Proof.
  revert w. induction txs as [|[o tx] txs IH]; intros w Hs; [done|]. apply Forall_cons in Hs as [Ho Hs]. cbn [foldl].
  rewrite IH by done. unfold exec. cbn. destruct tx as [c|c].
  - unfold Bridge.apply_call. cbn. destruct (Bridge.dispatch _ _ _ _ _) as [s'|] eqn:E; [|done].
    destruct o as [who|]; [|by destruct Ho]. by eapply signed_keeps_state.
  - by destruct (dispatch _ _ _ _ _ _ _).
Qed.

(** C12.  The custody takes nothing in without the committee: on the chain on which it runs with the
    bridge, a deposit or a withdrawal that is accepted after the first block, with no
    intervention of root earlier in its block, finds a bridge which at the end of the block
    before had as many live signers as a signature needs. *)
Theorem custody_waits_for_committee n w parent_hash txs origin call v :
  chain n w → 0 < n → Forall (fun tx : Origin * Tx => tx.1 ≠ Root) txs →
  (∃ x, call = Call.request_deposit x) ∨ (∃ dest x, call = Call.request_withdrawal dest x) →
  let w1 := foldl (exec (n + 1) parent_hash) w txs in
  dispatch cfg (bridge w1) (n + 1) parent_hash origin call (vault w1) = Ok v →
  Threshold bcfg ≤ Z.of_nat (length (List.filter (live bcfg (bridge w) (saturated_u32 n)) (ActiveSignerList (bridge w)))).
Proof.
  intros Hc Hn Hs Hcall w1 E.
  assert (is_bridge_active (bridge w1) = true) as Ha.
  { destruct Hcall as [[x ->]|(dest & x & ->)]; cbn [dispatch] in E; unfold Custody.request_deposit, Custody.request_withdrawal in E; by branches E. }
  apply bool_decide_eq_true_1 in Ha. unfold w1 in Ha. rewrite signed_exec in Ha by done.
  destruct Hc as [|n ph txs' w0 w Hc Eb]; [lia|]. destruct (chain_reachable _ _ Hc) as [made Hr].
  destruct (exec_reachable (n + 1) ph txs' w0 made Hr) as [made' Hr']. unfold block in Eb.
  destruct (Bridge.on_finalize _ _ _ _) as [b|] eqn:Ef; [|done]. apply (inj Some) in Eb. subst w. cbn in *.
  by eapply active_has_quorum.
Qed.
End chain.

(** * Concrete histories *)

(** The assets pallet: balances by asset and account, and the supply of each asset. *)
Definition supply_of (b : gmap (Z * Z) Z * gmap Z Z) (asset : Z) : Z := wrap 128 (default 0 (b.2 !! asset)).
Definition balance_of (b : gmap (Z * Z) Z * gmap Z Z) (asset who : Z) : Z := default 0 (b.1 !! (asset, who)).
Definition set_balance (b : gmap (Z * Z) Z * gmap Z Z) (asset who x supply : Z) : gmap (Z * Z) Z * gmap Z Z :=
  (<[(asset, who) := x]> b.1, <[asset := supply]> b.2).

#[export] Instance pallet_assets : Assets := {|
  Book := gmap (Z * Z) Z * gmap Z Z;
  balance := balance_of;
  total_issuance := supply_of;
  mint_into b asset who x :=
    if supply_of b asset + x <? 2 ^ 128 then Some (set_balance b asset who (balance_of b asset who + x) (supply_of b asset + x)) else None;
  burn_from b asset who x :=
    if (x <=? balance_of b asset who) && (x <=? supply_of b asset)
    then Some (set_balance b asset who (balance_of b asset who - x) (supply_of b asset - x)) else None;
|}.

Lemma supply_set b asset who x supply : fits 128 supply → supply_of (set_balance b asset who x supply) asset = supply.
Proof. intros Hs. unfold supply_of, set_balance. cbn. rewrite lookup_insert_eq. by apply wrap_small. Qed.

#[export] Instance pallet_assets_laws : @AssetsLaws pallet_assets.
Proof.
  split; cbn.
  - intros b asset. by apply wrap_fits.
  - intros b asset who x b' Hx E. pose proof (wrap_fits 128 (default 0 (b.2 !! asset)) ltac:(lia)) as Hf.
    destruct (Z.ltb_spec (supply_of b asset + x) (2 ^ 128)); [|done]. apply (inj Some) in E. subst b'.
    apply supply_set. unfold supply_of in *. split; [destruct Hf; lia|done].
  - intros b asset who x b' Hx E. pose proof (wrap_fits 128 (default 0 (b.2 !! asset)) ltac:(lia)) as Hf.
    destruct ((x <=? _) && _) eqn:Ec; [|done]. apply andb_true_iff in Ec as [E1%Z.leb_le E2%Z.leb_le].
    apply (inj Some) in E. subst b'. split; [done|]. apply supply_set. unfold supply_of in *. split; [lia|destruct Hf; lia].
Qed.

#[local] Instance spelled_hash : Sha256 := spelled.

(** A bridge that is always active. *)
#[local] Instance open_bridge : FrostBridgeInterface unit := {|
  is_bridge_active _ := true;
  custody_address _ := Some (mkBtcAddress P2TR 1);
  request_signature_for _ _ _ _ f := (f, Ok 0);
|}.

Definition demo_fees : 0 ≤ MinDepositAmount Custody.runtime_config ∧ 0 ≤ MinWithdrawalAmount Custody.runtime_config ∧
  0 ≤ WithdrawalFeeBps Custody.runtime_config ≤ 10000.
Proof. cbn. lia. Defined.

Definition call_okb (c : Call.Call) : bool :=
  match c with
  | Call.request_deposit x | Call.confirm_deposit _ _ x | Call.request_withdrawal _ x => (0 <=? x) && (x <? 2 ^ 128)
  | _ => true
  end.
Definition roomb (s : Custody.State) : bool := (Nonce s <? 2 ^ 64 - 1) && (NextCheckpointId s <? 2 ^ 64 - 1).

Lemma call_okb_spec c : call_okb c = true → call_ok c.
Proof. destruct c; cbn; try done; intros [?%Z.leb_le ?%Z.ltb_lt]%andb_true_iff; by split. Qed.

Lemma roomb_spec s : roomb s = true → room s.
Proof. intros [?%Z.ltb_lt ?%Z.ltb_lt]%andb_true_iff. by split. Qed.

(** The state after calls in the block [n]; a call that fails stops the history. *)
Fixpoint history (n : Z) (calls : list (Z * Call.Call)) (s : Custody.State) : option Custody.State :=
  match calls with
  | [] => Some s
  | (who, c) :: calls =>
      if call_okb c && roomb s then
        match dispatch Custody.runtime_config tt n 0 (Signed who) c s with Ok s' => history n calls s' | Err _ => None end
      else None
  end.

Lemma history_steps n calls s s' : history n calls s = Some s' → rtc (step Custody.runtime_config (B := unit)) s s'.
Proof.
  revert s. induction calls as [|[who c] calls IH]; intros s E; cbn in E; [injection E as <-; apply rtc_refl|].
  destruct (call_okb c && roomb s) eqn:Ec; [|done]. apply andb_true_iff in Ec as [Ec Er].
  destruct (dispatch _ _ _ _ _ _ _) as [s1|] eqn:Ed; [|done]. apply rtc_l with s1; [|by apply IH].
  eapply called; [by apply call_okb_spec|by apply roomb_spec|exact Ed].
Qed.

Definition demo_vault : Custody.State := Custody.genesis ((∅, ∅) : @Book pallet_assets).
Definition demo_deposit : Z := sha256 (id_data 7 1 0).
Definition demo_dest : BtcAddress := mkBtcAddress P2TR 99.

(** One account deposits what it likes, and asks for it back in parts. *)
Definition demo_calls (parts : nat) : list (Z * Call.Call) :=
  [(7, Call.request_deposit 0); (8, Call.confirm_deposit demo_deposit 3 100000000); (8, Call.mint_zbtc demo_deposit)] ++
  replicate parts (7, Call.request_withdrawal demo_dest 100000).
Definition after_calls (parts : nat) : Custody.State := default demo_vault (history 5 (demo_calls parts) demo_vault).
Definition demo_full : Custody.State := after_calls 256.
Definition demo_two : Custody.State := Custody.on_finalize Custody.runtime_config 200 (after_calls 2).

Definition is_some_b {A} (o : option A) : bool := match o with Some _ => true | None => false end.

Lemma after_calls_steps parts :
  is_some_b (history 5 (demo_calls parts) demo_vault) = true → rtc (step Custody.runtime_config (B := unit)) demo_vault (after_calls parts).
Proof.
  unfold after_calls. destruct (history 5 (demo_calls parts) demo_vault) as [s|] eqn:E; [|discriminate].
  intros _. by eapply history_steps.
Qed.

Lemma demo_full_reachable : reachable Custody.runtime_config (B := unit) demo_full.
Proof. exists demo_vault. split; [by exists (∅, ∅)|]. apply after_calls_steps. vm_compute. reflexivity. Qed.

Lemma demo_two_reachable : reachable Custody.runtime_config (B := unit) demo_two.
Proof.
  exists demo_vault. split; [by exists (∅, ∅)|]. eapply rtc_r; [apply (after_calls_steps 2); vm_compute; reflexivity|].
  apply ended. vm_compute. split; reflexivity.
Qed.

Lemma custody_books_balance_witness :
  TotalSupply demo_two = 99800000 ∧ asked_back demo_two = 200000 ∧ TotalCustody demo_two = 100000000 ∧
  TotalSupply demo_two + asked_back demo_two = minted demo_two.
Proof.
  split; [vm_compute; reflexivity|]. split; [vm_compute; reflexivity|]. split; [vm_compute; reflexivity|].
  exact (proj1 (proj2 (custody_books_balance Custody.runtime_config spell_inj demo_fees demo_two demo_two_reachable))).
Defined.

Definition demo_checkpoint : Checkpoint :=
  default (mkCheckpoint 0 [] 0 [] None None 0 None None None CheckpointStatus.Failed) (Checkpoints demo_two !! 1).

Lemma withdrawals_paid_once_witness :
  Checkpoints demo_two !! 1 = Some demo_checkpoint ∧ total_amount demo_checkpoint = 199400 ∧ NoDup (withdrawal_ids demo_checkpoint).
Proof.
  assert (Checkpoints demo_two !! 1 = Some demo_checkpoint) as E by (vm_compute; reflexivity).
  split; [exact E|]. split; [vm_compute; reflexivity|].
  exact (proj1 (proj1 (withdrawals_paid_once Custody.runtime_config spell_inj demo_fees demo_two demo_two_reachable) 1 demo_checkpoint E)).
Defined.

Definition demo_call : result Custody.State Custody.Error :=
  dispatch Custody.runtime_config tt 5 0 (Signed 7) (Call.request_withdrawal demo_dest 100000) demo_full.

Lemma withdrawal_without_place_is_lost_witness :
  length (PendingWithdrawals demo_full) = MaxWithdrawals ∧
  ∃ s', demo_call = Ok s' ∧ total_issuance (book s') 1 = total_issuance (book demo_full) 1 - 100000.
Proof.
  assert (length (PendingWithdrawals demo_full) = MaxWithdrawals) as Hf by (vm_compute; reflexivity).
  assert (is_ok demo_call = true) as Ho by (vm_compute; reflexivity).
  assert (roomb demo_full = true) as Hr by (vm_compute; reflexivity).
  split; [exact Hf|]. destruct demo_call as [s'|] eqn:E; [|discriminate Ho]. exists s'. split; [reflexivity|].
  exact (proj1 (withdrawal_without_place_is_lost Custody.runtime_config spell_inj demo_fees tt 5 0 (Signed 7) demo_dest 100000
    demo_full s' demo_full_reachable (roomb_spec _ Hr) ltac:(split; [lia|vm_compute; reflexivity]) Hf E)).
Defined.

(** Anybody confirms a deposit, of any amount, for a payment that nobody has made. *)
Example anyone_mints :
  let s := default demo_vault (history 5 [(7, Call.request_deposit 0); (7, Call.confirm_deposit demo_deposit 0 (2 ^ 127));
    (7, Call.mint_zbtc demo_deposit)] demo_vault) in balance (book s) 1 7 = 2 ^ 127.
Proof. vm_compute. reflexivity. Qed.

(** ** The chain of both *)

Definition demo_txs : list (Origin * Tx) := map (fun c => (c.1.2, ToBridge c.2))
  (up_to_round3 ++ round_calls 4 (fun a => Bridge.Call.submit_dkg_verification (100 + a) []) [1]).
Definition demo_block : option World := block Bridge.runtime_config Custody.runtime_config 1 0 demo_txs (mkWorld Bridge.genesis demo_vault).
Definition demo_accepted (w : World) : result Custody.State Custody.Error :=
  dispatch Custody.runtime_config (bridge w) 2 0 (Signed 9) (Call.request_deposit 5) (vault w).

Lemma custody_waits_for_committee_witness :
  ∃ w v, demo_block = Some w ∧ demo_accepted w = Ok v ∧
    2 ≤ Z.of_nat (length (List.filter (live Bridge.runtime_config (bridge w) (saturated_u32 1)) (ActiveSignerList (bridge w)))).
Proof.
  assert (match demo_block with Some w => is_ok (demo_accepted w) | None => false end = true) as Ho by (vm_compute; reflexivity).
  destruct demo_block as [w|] eqn:Eb; [|discriminate Ho]. destruct (demo_accepted w) as [v|] eqn:E; [|discriminate Ho].
  exists w, v. split; [reflexivity|]. split; [exact E|].
  exact (custody_waits_for_committee Bridge.runtime_config Custody.runtime_config (∅, ∅) 1 w 0 [] (Signed 9) (Call.request_deposit 5) v
    (next_block Bridge.runtime_config Custody.runtime_config (∅, ∅) 0 0 demo_txs _ w (no_block _ _ _) Eb)
    eq_refl (Forall_nil_2 _) (or_introl (ex_intro _ 5 eq_refl)) E).
Defined.
