(* ===== verification/OsstCurve.v ===== *)
(** What the threshold-signature crate [crates/osst] uses of its curves, and its
    Lagrange coefficients: the traits [OsstScalar] and [OsstPoint] of
    [src/curve.rs], the errors of [src/error.rs], [src/lagrange.rs].

    The scalars of a curve are a field and its points a vector space over it,
    which is what the curve libraries behind the traits document; the remaining
    trait methods are fields of the class [Curve].  Indices are [u32]s as [nat]s.
    A [Result] is [result]; a failed assertion is its own error. *)
From Stdlib Require Import Init.Byte Strings.Byte.
From mathcomp Require Import ssreflect ssrfun ssrbool eqtype ssrnat seq path div choice fintype bigop ssralg poly.
From mathcomp Require Import ssrnum ssrint rat zmodp.

Set Implicit Arguments.
Unset Strict Implicit.
Unset Printing Implicit Defensive.

Import GRing.Theory.
Local Open Scope ring_scope.

Abbreviation bytes := (seq byte).

Inductive OsstError :=
| EmptyContributions
| InsufficientContributions (got need : nat)
| DuplicateIndex (i : nat)
| ZeroChallenge
| InvalidCommitment
| InvalidResponse
| LagrangeError
| InvalidIndex
| Panic.

Inductive result (T : Type) :=
| Ok (t : T)
| Err (e : OsstError).
Arguments Ok {T}.
Arguments Err {T}.

Definition is_ok (T : Type) (r : result T) : bool := if r is Ok _ then true else false.
Definition force (T : Type) (d : T) (r : result T) : T := if r is Ok x then x else d.

Lemma forceK T (d : T) r : is_ok r -> r = Ok (force d r).
Proof. by case: r. Qed.

Notation "'let?' x ':=' c 'in' k" :=
  (match c with Ok x => k | Err e => Err e end)
  (at level 10, x pattern, c at level 100, k at level 200).

(** [c.ok()?] in a function that returns an [Option]: [None] is [Ok None]. *)
Notation "'try?' x ':=' c 'in' k" :=
  (match c with Ok x => k | Err Panic => Err Panic | Err _ => Ok None end)
  (at level 10, x pattern, c at level 100, k at level 200).

(** [if !b { return Err(e) }] *)
Notation "'ensure!' b 'else' e ';;' k" := (if b then k else Err e)
  (at level 10, b at level 200, e at level 10, k at level 200).

(** [u32::to_le_bytes] and its inverse; a byte is its value. *)
Definition byte_of (n : nat) : byte := match Byte.of_nat (n %% 256) with Some b => b | None => x00 end.
Definition nat_of_byte (b : byte) : nat := Byte.to_nat b.
Fixpoint to_le_bytes (w n : nat) : bytes :=
  match w with 0%N => [::] | w'.+1 => byte_of n :: to_le_bytes w' (n %/ 256) end.
Definition from_le_bytes (s : bytes) : nat := foldr (fun b n => (nat_of_byte b + 256 * n)%N) 0%N s.

(** [bytes[a..b]] *)
Definition slice (a b : nat) (s : bytes) : bytes := take (b - a)%N (drop a s).

(** The trait methods that are not field or group operations. *)
Class Curve (F : fieldType) (P : lmodType F) := {
  generator : P;
  multiscalar_mul : seq F -> seq P -> P;
  compress : P -> bytes;
  decompress : bytes -> option P;
  compressed_size : nat;
  compress_vec : P -> bytes;
  decompress_slice : bytes -> option P;
  scalar_to_bytes : F -> bytes;
  from_canonical_bytes : bytes -> option F;
  from_bytes_wide : bytes -> F;
  sha512 : bytes -> bytes;
  blake2b : bytes -> bytes -> bytes;  (* personalisation, input *)
}.

(** What the curves promise: the generator is not the identity, multiscalar
    multiplication is the sum of the products, and no [u32] but zero vanishes in
    the scalar field. *)
Class CurveLaws (F : fieldType) (P : lmodType F) `{Curve F P} := {
  generator_neq0 : generator != 0;
  multiscalar_mulE s p :
    size s = size p -> multiscalar_mul s p = \sum_(sp <- zip s p) sp.1 *: sp.2;
  u32_neq0 i : (0 < i < 2 ^ 32)%N -> i%:R != 0 :> F;
}.

(** The encodings: they parse back, and those of fixed size have it. *)
Class CurveCodec (F : fieldType) (P : lmodType F) `{Curve F P} := {
  compressK p : decompress (compress p) = Some p;
  size_compress p : size (compress p) = 32%N;
  compress_vecK p : decompress_slice (compress_vec p) = Some p;
  size_compress_vec p : size (compress_vec p) = compressed_size;
  scalar_to_bytesK x : from_canonical_bytes (scalar_to_bytes x) = Some x;
  size_scalar_to_bytes x : size (scalar_to_bytes x) = 32%N;
}.

(** [BTreeMap<u32, T>]: its entries in the order of their keys. *)
Definition btree (T : Type) := seq (nat * T).

Fixpoint bt_insert T (k : nat) (v : T) (m : btree T) : btree T :=
  match m with
  | [::] => [:: (k, v)]
  | kv :: m' =>
      if (k < kv.1)%N then (k, v) :: m
      else if k == kv.1 then (k, v) :: m' else kv :: bt_insert k v m'
  end.

Fixpoint bt_get T (k : nat) (m : btree T) : option T :=
  match m with [::] => None | kv :: m' => if kv.1 == k then Some kv.2 else bt_get k m' end.

Abbreviation keys := unzip1.
Abbreviation values := unzip2.

(** [iter().position(|&i| i == x)] *)
Definition position (x : nat) (s : seq nat) : option nat := if x \in s then Some (index x s) else None.

Section lagrange.
Context {F : fieldType}.

(** [OsstScalar::from_u32] *)
Definition from_u32 (i : nat) : F := i%:R.

(** The first repetition in a sorted vector. *)
Fixpoint adjacent_dup (s : seq nat) : option nat :=
  match s with
  | a :: ((b :: _) as s') => if b == a then Some b else adjacent_dup s'
  | _ => None
  end.

Definition xi (scalars : seq F) : F := foldl (fun acc x => acc * x) 1 scalars.

Definition d_value (scalars : seq F) (i : nat) : F :=
  foldl (fun d j => if i != j then d * (scalars`_j - scalars`_i) else d) scalars`_i
    (iota 0 (size scalars)).

(** [rho[i] = rho[i - 1].mul(&d_values[i - 1])], from [rho[0] = 1]. *)
Fixpoint forward_pass (acc : F) (d_values : seq F) : seq F :=
  match d_values with [::] => [::] | d :: ds => acc :: forward_pass (acc * d) ds end.

(** From the right: each [rho] times the suffix, which then takes in [d]. *)
Definition backward_pass (rho d_values : seq F) : seq F * F :=
  foldr (fun rd acc => (rd.1 * acc.2 :: acc.1, acc.2 * rd.2)) ([::], 1) (zip rho d_values).

Definition lagrange_coefficients (scalars : seq F) : seq F :=
  let d_values := mkseq (d_value scalars) (size scalars) in
  let '(rho, d_bar) := backward_pass (forward_pass 1 d_values) d_values in
  let delta := xi scalars * d_bar^-1 in
  [seq delta * r | r <- rho].

Definition compute_lagrange_coefficients (indices : seq nat) : result (seq F) :=
  let k := size indices in
  ensure! k != 0%N else EmptyContributions ;;
  ensure! all (fun i => i != 0%N) indices else InvalidIndex ;;
  match adjacent_dup (sort leq indices) with
  | Some i => Err (DuplicateIndex i)
  | None =>
      if k == 1%N then Ok [:: 1] else Ok (lagrange_coefficients [seq from_u32 i | i <- indices])
  end.
End lagrange.

(** * The coefficients interpolate at zero *)

Section interpolation.
Context {F : fieldType}.
Implicit Types (s : seq F) (x y a : F).

Lemma foldl_mul a s : foldl (fun acc x => acc * x) a s = a * \prod_(x <- s) x.
Proof. by elim: s a => [|x s IH] a /=; rw ?big_nil ?mulr1 // big_cons IH mulrA. Qed.

Lemma foldl_mul_if (p : pred nat) (f : nat -> F) a (js : seq nat) :
  foldl (fun d j => if p j then d * f j else d) a js = a * \prod_(j <- js | p j) f j.
Proof.
elim: js a => [|j js IH] a /=; rw ?big_nil ?mulr1 // big_cons IH.
by case: (p j); rw ?mulrA.
Qed.

(** A product over the other indices is one over the other elements. *)
Lemma prod_others (f : F -> F) s i :
  uniq s -> (i < size s)%N ->
  \prod_(j <- iota 0 (size s) | i != j) f s`_j = \prod_(y <- s | y != s`_i) f y.
Proof.
move=> us lis; rw [RHS](big_nth 0) /index_iota subn0 big_seq_cond [RHS]big_seq_cond.
apply: eq_bigl => j; rw mem_iota /= add0n.
by case: ltnP => //= ljs; rw nth_uniq // eq_sym.
Qed.

Lemma d_valueE s i :
  uniq s -> (i < size s)%N -> d_value s i = s`_i * \prod_(y <- s | y != s`_i) (y - s`_i).
Proof. by move=> us lis; rw /d_value foldl_mul_if (prod_others (fun y => y - s`_i)). Qed.

Lemma backward_passE a d :
  (backward_pass (forward_pass a d) d).2 = \prod_(x <- d) x
  /\ size (backward_pass (forward_pass a d) d).1 = size d
  /\ forall i, (i < size d)%N ->
       (backward_pass (forward_pass a d) d).1`_i * d`_i = a * \prod_(x <- d) x.
Proof.
elim: d a => [|x d IH] a; first by rw big_nil.
have [E2 [Es E1]] := IH (a * x); rw /backward_pass /= -/(backward_pass _ _) big_cons.
split; first by rw E2 mulrC.
split; first by rw Es.
case=> [|i] lid /=; first by rw E2 -mulrA (mulrC x).
by rw E1 // mulrA.
Qed.

(** The coefficient of [x] among [s], as the paper writes it. *)
Definition lagrange s x : F := \prod_(y <- s | y != x) (y / (y - x)).

Lemma lagrange_perm s s' : perm_eq s s' -> lagrange s =1 lagrange s'.
Proof. by move=> ps x; rw /lagrange (perm_big _ ps). Qed.

Lemma lagrange_coefficientsE s :
  uniq s -> 0 \notin s -> lagrange_coefficients s = [seq lagrange s x | x <- s].
Proof.
move=> us s0; rw /lagrange_coefficients; set d := mkseq _ _.
have sd : size d = size s by rw size_mkseq.
have [E2 [Es E1]] := backward_passE 1 d.
case E: (backward_pass _ _) E2 Es E1 => [rho d_bar] /= -> Es E1.
have xn0 x : x \in s -> x != 0 by move=> xs; apply: contraNneq s0 => <-.
have dn0 i : (i < size s)%N -> d`_i != 0.
  move=> lis; rw nth_mkseq // d_valueE //; apply: mulf_neq0; first by rw xn0 ?mem_nth.
  by rw prodf_seq_neq0; apply/allP => y ys; apply/implyP; rw subr_eq0.
have db : \prod_(x <- d) x != 0.
  rw prodf_seq_neq0; apply/allP => x /(nthP 0)[i]; rw sd => lis <-; exact: dn0.
apply: (@eq_from_nth _ 0); first by rw !size_map Es sd.
move=> i; rw size_map Es sd => lis.
rw (nth_map 0) ?Es ?sd // (nth_map 0) //.
have Er : rho`_i = \prod_(x <- d) x / d`_i.
  by rw -[LHS](mulfK (dn0 i lis)) E1 ?sd // mul1r.
rw Er mulrA divfK // /xi foldl_mul mul1r nth_mkseq // d_valueE //.
rw (bigD1_seq s`_i) ?mem_nth //= /lagrange big_split /= prodfV.
by rw invfM mulrACA divff ?xn0 ?mem_nth // mul1r.
Qed.

Lemma lagrange_interpolates s (p : {poly F}) :
  uniq s -> (size p <= size s)%N -> \sum_(x <- s) lagrange s x * p.[x] = p.[0].
Proof.
move=> us sp.
pose L x := (\prod_(y <- s | y != x) (x - y))^-1 *: \prod_(y <- [seq y <- s | y != x]) ('X - y%:P).
have Lx x z : (L x).[z] = (\prod_(y <- s | y != x) (x - y))^-1 * \prod_(y <- s | y != x) (z - y).
  rw hornerZ horner_prod big_filter; congr (_ * _).
  by apply: eq_bigr => y _; rw hornerXsubC.
pose q := p - \sum_(x <- s) p.[x] *: L x.
suff q0 : q = 0.
  move/eqP: q0; rw subr_eq0 => /eqP ->.
  rw horner_sum; apply: eq_big_seq => x xs; rw hornerZ Lx.
  rw horner_sum (bigD1_seq x) //= hornerZ Lx mulVf ?mulr1.
    by rw prodf_seq_neq0; apply/allP => y _; rw subr_eq0 eq_sym implybb.
  rw big1_seq ?addr0.
    move=> y /andP[yx ys]; rw hornerZ Lx [X in _ * (_ * X)](big_rem x) //= eq_sym yx subrr mul0r !mulr0 //.
  rw mulrC; congr (_ * _).
  rw -prodfV -big_split /=; apply: eq_bigr => y yx.
  by rw sub0r mulrN -mulNr -invrN opprB mulrC.
apply/eqP; apply: contraT => qn0.
have /(max_poly_roots qn0)/(_ us) : all (root q) s.
  apply/allP => z zs; rw rootE hornerD hornerN horner_sum (bigD1_seq z) //=.
  rw hornerZ Lx mulVf ?mulr1.
    by rw prodf_seq_neq0; apply/allP => y _; rw subr_eq0 eq_sym implybb.
  rw big1_seq ?addr0 ?subrr // => y /andP[yz ys].
  by rw hornerZ Lx [X in _ * (_ * X)](big_rem z) //= eq_sym yz subrr mul0r !mulr0 //.
suff: (size q <= size s)%N by rw leqNgt => /negbTE ->.
rw (leq_trans (size_polyD _ _)) // geq_max sp size_polyN /=.
rw (leq_trans (size_sum _ _ _)) //; apply/bigmax_leqP_seq => x xs _.
rw (leq_trans (size_scale_leq _ _)) // (leq_trans (size_scale_leq _ _)) //.
rw size_prod_XsubC size_filter -(count_predC (pred1 x) s) -addn1 addnC leq_add2r.
by rw -has_count has_pred1.
Qed.
End interpolation.

Lemma size_add_le (F : fieldType) (p q : {poly F}) m :
  (size p <= m)%N -> (size q <= m)%N -> (size (p + q)%R <= m)%N.
Proof. by move=> sp sq; rw (leq_trans (size_polyD _ _)) // geq_max sp. Qed.

(** * Valid index sets *)

Lemma adjacent_dupP s : sorted leq s -> (adjacent_dup s == None) = uniq s.
Proof.
elim: s => [|a [|b s] IH] //= /andP[ab sbs].
case: (eqVneq b a) => [->|nba]; first by rw inE eqxx.
rw IH // inE negb_or eq_sym nba andTb.
suff -> : a \notin s by [].
apply/negP => ains; move: nba; rw eqn_leq ab andbT.
have /allP/(_ a) := order_path_min leq_trans sbs.
by move=> ->.
Qed.

Lemma adjacent_dup_sort s : (adjacent_dup (sort leq s) == None) = uniq s.
Proof. by rw adjacent_dupP ?sort_sorted ?sort_uniq //; apply: leq_total. Qed.

Section coefficients.
Context {F : fieldType} {P : lmodType F} {C : Curve P} {L : @CurveLaws F P C}.
Local Abbreviation from_u32 := (@from_u32 F).

(** An index set the crate accepts: distinct, positive, within [u32]. *)
Definition valid_indices (s : seq nat) : bool := [&& s != [::], uniq s & all (fun i => 0 < i < 2 ^ 32)%N s].

Lemma from_u32_inj : {in [pred i | (i < 2 ^ 32)%N] &, injective from_u32}.
Proof.
move=> i j; rw !inE; wlog ij : i j / (i <= j)%N => [H|].
  by case/orP: (leq_total i j) => [/H{}H|/H{}H] *; [|symmetry]; apply: H.
move=> _ lj /eqP; rw /OsstCurve.from_u32 eq_sym -subr_eq0 -natrB // => E.
apply/eqP; rw eqn_leq ij -subn_eq0; apply: contraTT E; rw -lt0n => ji.
by apply: u32_neq0; rw ji (leq_ltn_trans (leq_subr _ _)).
Qed.

Lemma valid_scalars s :
  valid_indices s -> uniq [seq from_u32 i | i <- s] /\ 0 \notin [seq from_u32 i | i <- s].
Proof.
case/and3P=> _ us /allP rs; split.
  rw map_inj_in_uniq // => i j /rs/andP[_ li] /rs/andP[_ lj]; exact: from_u32_inj.
by apply/mapP=> -[i /rs/u32_neq0 ni E]; move: ni; rw -/(from_u32 i) -E eqxx.
Qed.

(** On a valid index set the coefficients are those of the paper. *)
Lemma compute_lagrangeE s :
  valid_indices s ->
  compute_lagrange_coefficients s
  = Ok [seq lagrange [seq from_u32 j | j <- s] (from_u32 i) | i <- s].
Proof.
move=> vs; have [us s0] := valid_scalars vs; case/and3P: vs => sn0 ud rs.
rw /compute_lagrange_coefficients size_eq0 sn0.
have -> : all (fun i => i != 0%N) s by apply: sub_all rs => i /andP[]; rw -lt0n.
have /eqP -> : adjacent_dup (sort leq s) == None by rw adjacent_dup_sort.
case: eqP => [|_]; last by rw lagrange_coefficientsE // -map_comp.
case: s us s0 sn0 ud rs => [|i [|j s]] //= us s0 _ _ _ _.
by rw /lagrange big_cons eqxx big_nil.
Qed.

(** The points of a polynomial of low degree reconstruct its value at zero. *)
Lemma shares_interpolate s (f : {poly F}) :
  valid_indices s -> (size f <= size s)%N ->
  \sum_(i <- s) lagrange [seq from_u32 j | j <- s] (from_u32 i) * f.[from_u32 i] = f.[0].
Proof.
move=> vs sf; have [us _] := valid_scalars vs.
rw -(lagrange_interpolates us) ?size_map //.
by rw big_map.
Qed.
End coefficients.

Lemma foldl_add (V : nmodType) T (g : T -> V) (a : V) (s : seq T) :
  foldl (fun acc x => acc + g x) a s = a + \sum_(x <- s) g x.
Proof. by elim: s a => [|x s IH] a /=; rw ?big_nil ?addr0 // big_cons IH addrA. Qed.

Lemma foldl_result_add (V : nmodType) T (g : T -> V) (h : T -> result V) (a : V) (s : seq T) :
  (forall x, h x = Ok (g x)) ->
  foldl (fun acc x => (let? v := acc in let? y := h x in Ok (v + y))) (Ok a) s = Ok (a + \sum_(x <- s) g x).
Proof.
move=> H; elim: s a => [|x s IH] a /=; first by rw big_nil addr0.
by rw H IH big_cons addrA.
Qed.

Lemma zip_map2 T V W (f : T -> V) (g : T -> W) (s : seq T) : zip (map f s) (map g s) = [seq (f x, g x) | x <- s].
Proof. by elim: s => //= x s ->. Qed.

Lemma zip_map_l T V (f : T -> V) (s : seq T) : zip (map f s) s = [seq (f x, x) | x <- s].
Proof. by elim: s => //= x s ->. Qed.

Lemma zip_map_r T U (f : T -> U) (s : seq T) : zip s (map f s) = [seq (x, f x) | x <- s].
Proof. by elim: s => //= x s ->. Qed.

(** * Little-endian integers and slices *)

Lemma byte_ofK n : nat_of_byte (byte_of n) = (n %% 256)%N.
Proof.
rw /nat_of_byte /byte_of; case E: (Byte.of_nat _) => [b|]; first exact: Byte.to_of_nat E.
have /ltP := proj1 (Byte.of_nat_None_iff _) E.
by rw ltnNge -ltnS ltn_mod.
Qed.

Lemma size_to_le_bytes w n : size (to_le_bytes w n) = w.
Proof. by elim: w n => //= w IH n; rw IH. Qed.

Lemma to_le_bytesK w n : (n < 256 ^ w)%N -> from_le_bytes (to_le_bytes w n) = n.
Proof.
elim: w n => [|w IH] n; first by rw expn0 ltnS leqn0 => /eqP ->.
rw expnSr => ln; rw /= -/(from_le_bytes _) IH ?ltn_divLR //.
by rw byte_ofK mulnC addnC -divn_eq.
Qed.

Lemma u32_bytesK n : (n < 2 ^ 32)%N -> from_le_bytes (to_le_bytes 4 n) = n.
Proof. by move=> ln; apply: to_le_bytesK; rw -[256%N]/(2 ^ 8)%N -expnM. Qed.

Lemma slice_l n s t : size s = n -> slice 0 n (s ++ t) = s.
Proof. by move=> <-; rw /slice drop0 subn0 take_size_cat. Qed.

Lemma slice_r n a b s t : size s = n -> slice (n + a) (n + b) (s ++ t) = slice a b t.
Proof. by move=> <-; rw /slice subnDl addnC -drop_drop drop_size_cat. Qed.

Lemma slice_all n s : size s = n -> slice 0 n s = s.
Proof. by move=> <-; rw /slice drop0 subn0 take_size. Qed.

Lemma eq_in_foldl (T : eqType) A (f g : A -> T -> A) a (s : seq T) :
  {in s, forall x, forall acc, f acc x = g acc x} -> foldl f a s = foldl g a s.
Proof.
elim: s a => //= x s IH a H; rw H ?mem_head // IH // => y ys.
by apply: H; rw inE ys orbT.
Qed.

Lemma foldl_map T V A (h : T -> V) (f : A -> V -> A) a (s : seq T) :
  foldl f a (map h s) = foldl (fun acc x => f acc (h x)) a s.
Proof. by elim: s a => //= x s IH a; rw IH. Qed.

Lemma iota_rcons a n : iota a n.+1 = rcons (iota a n) (a + n)%N.
Proof. by rw -addn1 iotaD cats1. Qed.

(** * Maps *)

Section maps.
Context {T : Type}.
Implicit Type m : btree T.

Lemma bt_get_some m k : isSome (bt_get k m) = (k \in keys m).
Proof. by elim: m => //= -[k' v'] m IH /=; rw inE eq_sym; case: eqP. Qed.

Lemma values_get m : uniq (keys m) -> [seq bt_get k m | k <- keys m] = [seq Some v | v <- values m].
Proof.
elim: m => //= -[k v] m IH /= /andP[km um]; rw eqxx; congr (_ :: _); rw -IH //.
by apply/eq_in_map => k' k'm; case: eqP => // E; move: km; rw E k'm.
Qed.

Lemma bt_get_insert m k k' v : bt_get k (bt_insert k' v m) = if k' == k then Some v else bt_get k m.
Proof.
elim: m => //= -[x y] m IH /=; case: ifP => //= _; case: (eqVneq k' x) => [->|nx] /=; first by case: eqP.
by rw IH; case: (eqVneq x k) => // <-; rw (negbTE nx).
Qed.

Lemma keys_graph (g : nat -> T) s : keys [seq (i, g i) | i <- s] = s.
Proof. by elim: s => //= i s ->. Qed.

Lemma keys_insert m k v : keys (bt_insert k v m) =i k :: keys m.
Proof.
elim: m => //= -[k' v'] m IH x /=; case: ifP => // _; case: eqP => [<-|_] /=.
  by rw !inE orbA orbb.
by rw inE IH !inE orbCA.
Qed.

Lemma sorted_insert m k v : sorted ltn (keys m) -> sorted ltn (keys (bt_insert k v m)).
Proof.
elim: m => //= -[k' v'] m IH /= sm; case: (ltngtP k k') => [lk|gk|E] /=; last by rw E.
  by rw lk.
rw path_min_sorted ?IH ?(path_sorted sm) //; apply/allP => x; rw keys_insert inE.
by case/orP=> [/eqP -> //|]; move/allP: (order_path_min ltn_trans sm); apply.
Qed.

End maps.

Lemma insert_perm (T : eqType) (m : btree T) k v :
  k \notin keys m -> perm_eq (bt_insert k v m) ((k, v) :: m).
Proof.
elim: m => //= -[k' v'] m IH /=; rw inE negb_or => /andP[/negbTE -> /IH pm]; case: ifP => // _.
by rw (perm_trans (y := [:: (k', v'), (k, v) & m])) ?perm_cons // (perm_catCA [:: _] [:: _] m).
Qed.

Lemma get_in (T : eqType) (m : btree T) k v : uniq (keys m) -> (k, v) \in m -> bt_get k m = Some v.
Proof.
elim: m => //= -[k' v'] m IH /= /andP[km um]; rw inE => /orP[/eqP[-> ->]|kvm]; first by rw eqxx.
by case: eqP => [E|_]; [case/mapP: km; exists (k, v)|exact: IH].
Qed.

(** A map is determined by its entries. *)
Lemma btree_eq (T : eqType) (m m' : btree T) :
  sorted ltn (keys m) -> sorted ltn (keys m') -> m =i m' -> m = m'.
Proof.
rw !sorted_map => s s'; apply: (irr_sorted_eq (leT := relpre fst ltn)) => //.
- by move=> x y z; apply: ltn_trans.
- by move=> x; apply: ltnn.
Qed.

(** [iter().map(f).collect::<Result<Vec<_>, _>>()] *)
Fixpoint traverse T U (f : T -> result U) (s : seq T) : result (seq U) :=
  match s with
  | [::] => Ok [::]
  | x :: s' => let? y := f x in let? ys := traverse f s' in Ok (y :: ys)
  end.

Lemma traverse_ok (T : eqType) U (f : T -> result U) (g : T -> U) (s : seq T) :
  {in s, forall x, f x = Ok (g x)} -> traverse f s = Ok (map g s).
Proof.
elim: s => //= x s IH H; rw H ?mem_head // IH // => y ys.
by apply: H; rw inE ys orbT.
Qed.

Lemma traverse_map T V U (h : T -> V) (f : V -> result U) (s : seq T) :
  traverse f (map h s) = traverse (fun x => f (h x)) s.
Proof. by elim: s => //= x s ->. Qed.

(** * Two concrete curves

    The rationals over themselves satisfy the laws of the curve, the field of
    two elements over itself those of the encodings. *)
Module Demo.
Definition Q := (rat : fieldType).
Definition QP : lmodType Q := rat^o.

#[refine] Instance rat_curve : Curve QP := {
  generator := 1 : rat;
  multiscalar_mul s p := \sum_(sp <- zip s p) sp.1 *: sp.2;
  compress p := [:: byte_of `|numq p|];
  decompress _ := None;
  compressed_size := 1%N;
  compress_vec p := [::];
  decompress_slice _ := None;
  scalar_to_bytes _ := [::];
  from_canonical_bytes _ := None;
  from_bytes_wide s := (foldr (fun b n => nat_of_byte b + n)%N 0%N s %% 3).+1%:R : rat;
  sha512 s := s;
  blake2b personal s := personal ++ s;
}.
Proof. Defined.

Instance rat_laws : @CurveLaws Q QP rat_curve.
Proof.
split=> //.
by move=> i /andP[i0 _]; rw Num.Theory.pnatr_eq0 -lt0n.
Qed.

Lemma wide_neq0 s : @from_bytes_wide Q QP rat_curve s != 0.
Proof. by rw Num.Theory.pnatr_eq0. Qed.

Definition B : fieldType := 'F_2.
Definition BP : lmodType B := B^o.
Definition pad (x : 'F_2) : bytes := rcons (nseq 31 x00) (byte_of x).
Definition unpad (s : bytes) : option 'F_2 := Some ((nat_of_byte (last x00 s))%:R).

#[refine] Instance bit_curve : Curve BP := {
  generator := 1 : 'F_2;
  multiscalar_mul s p := \sum_(sp <- zip s p) sp.1 *: sp.2;
  compress := pad;
  decompress := unpad;
  compressed_size := 32%N;
  compress_vec := pad;
  decompress_slice := unpad;
  scalar_to_bytes := pad;
  from_canonical_bytes := unpad;
  from_bytes_wide s := 1;
  sha512 s := s;
  blake2b personal s := personal ++ s;
}.
Proof. Defined.

Lemma unpadK x : unpad (pad x) = Some x.
Proof.
rw /unpad /pad last_rcons byte_ofK modn_small ?natr_Zp //.
by apply: leq_trans (ltn_ord x) _.
Qed.

Lemma size_pad x : size (pad x) = 32%N.
Proof. by rw size_rcons size_nseq. Qed.

Instance bit_codec : @CurveCodec B BP bit_curve.
Proof. by split; [exact: unpadK|exact: size_pad|exact: unpadK|exact: size_pad|exact: unpadK|exact: size_pad]. Qed.
End Demo.
