(* ===== verification/Osst.v ===== *)
(** One-step Schnorr threshold identification, [crates/osst/src/lib.rs] and
    [types.rs]: shares, contributions, their weights, verification, proofs and
    the builder that collects them.

    The nonce a contribution draws from the random number generator is an
    argument. *)
From Stdlib Require Import Init.Byte.
From HB Require Import structures.
From mathcomp Require Import ssreflect ssrfun ssrbool eqtype ssrnat seq path div choice fintype bigop ssralg poly.
From S2P Require Import OsstCurve.

Set Implicit Arguments.
Unset Strict Implicit.
Unset Printing Implicit Defensive.
Set Warnings "-redundant-canonical-projection".

Import GRing.Theory.
Local Open Scope ring_scope.

Section osst.
Context {F : fieldType} {P : lmodType F} {C : Curve P}.
Local Abbreviation from_u32 := (@from_u32 F).
Local Abbreviation G := (@generator F P C).

Definition hash_to_challenge (commitment : P) (payload : bytes) : F :=
  from_bytes_wide (sha512 (compress commitment ++ payload)).

Record SecretShare := mkSecretShare { sh_index : nat; scalar : F }.

Definition SecretShare_new (index : nat) (x : F) : result SecretShare :=
  ensure! (0 < index)%N else Panic ;; Ok (mkSecretShare index x).

Record Contribution := mkContribution { index : nat; commitment : P; response : F }.

(** Contributions can be compared. *)
Definition contribution_tuple (c : Contribution) : nat * P * F := (index c, commitment c, response c).
Definition tuple_contribution (x : nat * P * F) : Contribution := mkContribution x.1.1 x.1.2 x.2.
Lemma contribution_tupleK : cancel contribution_tuple tuple_contribution.
Proof. by case. Qed.
HB.instance Definition _ := Equality.copy Contribution (can_type contribution_tupleK).

(** [contribute], with the nonce it draws. *)
Definition contribute (share : SecretShare) (r : F) (payload : bytes) : Contribution :=
  let commitment := r *: G in
  let challenge := hash_to_challenge commitment payload in
  mkContribution (sh_index share) commitment (r + challenge * scalar share).

Definition public_share (share : SecretShare) : P := scalar share *: G.

Definition to_bytes (c : Contribution) : bytes :=
  to_le_bytes 4 (index c) ++ compress (commitment c) ++ scalar_to_bytes (response c).

Definition from_bytes (s : bytes) : result Contribution :=
  let index := from_le_bytes (slice 0 4 s) in
  match decompress (slice 4 36 s) with
  | None => Err InvalidCommitment
  | Some commitment =>
      match from_canonical_bytes (slice 36 68 s) with
      | None => Err InvalidResponse
      | Some response => Ok (mkContribution index commitment response)
      end
  end.

Definition to_bytes_vec (c : Contribution) : bytes :=
  to_le_bytes 4 (index c) ++ compress_vec (commitment c) ++ scalar_to_bytes (response c).

Definition from_bytes_vec (s : bytes) : result Contribution :=
  let size_P := @compressed_size F P C in
  ensure! size s == (4 + size_P + 32)%N else InvalidCommitment ;;
  let index := from_le_bytes (slice 0 4 s) in
  match decompress_slice (slice 4 (4 + size_P) s) with
  | None => Err InvalidCommitment
  | Some commitment =>
      match from_canonical_bytes (slice (4 + size_P) (4 + size_P + 32) s) with
      | None => Err InvalidResponse
      | Some response => Ok (mkContribution index commitment response)
      end
  end.

(** The weight of the [i]-th contribution. *)
Definition weight (challenges : seq F) (i : nat) (lambda : F) : F :=
  foldl (fun w j => if i != j then w * challenges`_j else w) lambda (iota 0 (size challenges)).

Definition compute_weights (contributions : seq Contribution) (payload : bytes)
  : result (F * seq F) :=
  ensure! size contributions != 0%N else EmptyContributions ;;
  let challenges := [seq hash_to_challenge (commitment c) payload | c <- contributions] in
  ensure! all (fun c => c != 0) challenges else ZeroChallenge ;;
  let normalizer := foldl (fun acc c => acc * c) 1 challenges in
  (let? lagrange := compute_lagrange_coefficients [seq index c | c <- contributions] in
   Ok (normalizer, [seq weight challenges il.1 il.2 | il <- zip (iota 0 (size contributions)) lagrange])).

Definition verify (group_pubkey : P) (contributions : seq Contribution) (threshold : nat)
    (payload : bytes) : result bool :=
  ensure! (threshold <= size contributions)%N
    else InsufficientContributions (size contributions) threshold ;;
  match adjacent_dup (sort leq [seq index c | c <- contributions]) with
  | Some i => Err (DuplicateIndex i)
  | None =>
      let? (normalizer, weights) := compute_weights contributions payload in
      let lhs_exponent :=
        foldl (fun acc cw => acc + cw.2 * response cw.1) 0 (zip contributions weights) in
      let lhs := lhs_exponent *: G in
      let scalars := normalizer :: [seq cw.2 | cw <- zip contributions weights] in
      let points := group_pubkey :: [seq commitment cw.1 | cw <- zip contributions weights] in
      Ok (lhs == multiscalar_mul scalars points)
  end.

Definition verify_incremental (group_pubkey : P) (existing : seq Contribution)
    (new_contribution : Contribution) (threshold : nat) (payload : bytes) : result bool :=
  ensure! all (fun c => index c != index new_contribution) existing
    else DuplicateIndex (index new_contribution) ;;
  verify group_pubkey (rcons existing new_contribution) threshold payload.

(** * Proofs and their builder *)

Record OsstProof := mkOsstProof { contributions : seq Contribution; payload : bytes }.

Definition OsstProof_verify (p : OsstProof) (group_pubkey : P) (threshold : nat) : result bool :=
  verify group_pubkey (contributions p) threshold (payload p).

Definition OsstProof_to_bytes (p : OsstProof) : bytes :=
  to_le_bytes 4 (size (payload p)) ++ payload p
  ++ to_le_bytes 4 (size (contributions p)) ++ flatten [seq to_bytes c | c <- contributions p].

Fixpoint parse_contributions (n offset : nat) (s : bytes) : result (seq Contribution) :=
  match n with
  | 0%N => Ok [::]
  | m.+1 =>
      let? c := from_bytes (slice offset (offset + 68) s) in
      let? cs := parse_contributions m (offset + 68) s in
      Ok (c :: cs)
  end.

Definition OsstProof_from_bytes (s : bytes) : result OsstProof :=
  ensure! (8 <= size s)%N else InvalidCommitment ;;
  let payload_len := from_le_bytes (slice 0 4 s) in
  ensure! (4 + payload_len + 4 <= size s)%N else InvalidCommitment ;;
  let payload := slice 4 (4 + payload_len) s in
  let offset := (4 + payload_len)%N in
  let num_contributions := from_le_bytes (slice offset (offset + 4) s) in
  let offset := (offset + 4)%N in
  ensure! (offset + num_contributions * 68 <= size s)%N else InvalidCommitment ;;
  (let? cs := parse_contributions num_contributions offset s in
   Ok (mkOsstProof cs payload)).

(** [OsstBuilder]; its fields are those of a proof. *)
Definition builder_add (b : OsstProof) (c : Contribution) : result OsstProof :=
  ensure! all (fun x => index x != index c) (contributions b) else DuplicateIndex (index c) ;;
  Ok (mkOsstProof (rcons (contributions b) c) (payload b)).

Definition threshold_reached (b : OsstProof) (threshold : nat) : bool :=
  (threshold <= size (contributions b))%N.

(** [add] one contribution after the other. *)
Definition collect (payload : bytes) (cs : seq Contribution) : result OsstProof :=
  foldl (fun b c => (let? b := b in builder_add b c)) (Ok (mkOsstProof [::] payload)) cs.
End osst.

(** * Verification *)

Section verification.
Context {F : fieldType} {P : lmodType F} {C : Curve P} {L : @CurveLaws F P C}.
Local Abbreviation from_u32 := (@from_u32 F).
Local Abbreviation G := (@generator F P C).
Local Abbreviation Contribution := (@Contribution F P).

(** The challenge of a contribution, and its weight as the paper writes it. *)
Definition challenge (payload : bytes) (c : Contribution) : F := hash_to_challenge (commitment c) payload.

Definition mu (payload : bytes) (cs : seq Contribution) (c : Contribution) : F :=
  lagrange [seq from_u32 i | i <- [seq index c | c <- cs]] (from_u32 (index c))
  * ((\prod_(c <- cs) challenge payload c) / challenge payload c).

Lemma weightE (ch : seq F) i lambda :
  (i < size ch)%N -> ch`_i != 0 -> weight ch i lambda = lambda * (\prod_(x <- ch) x / ch`_i).
Proof.
move=> lis ci; rw /weight foldl_mul_if; congr (_ * _).
rw [X in _ = X / _](big_nth 0) /index_iota subn0 (bigD1_seq i) ?mem_iota ?iota_uniq //=.
by rw mulrAC divff // mul1r; apply: eq_bigl => j; rw eq_sym.
Qed.

Lemma compute_weightsE payload cs :
  valid_indices [seq index c | c <- cs] -> all (fun c => challenge payload c != 0) cs ->
  compute_weights cs payload
  = Ok (\prod_(c <- cs) challenge payload c, [seq mu payload cs c | c <- cs]).
Proof.
move=> vs cn0; rw /compute_weights.
have -> : size cs != 0%N by case/and3P: vs; case: (cs).
rw all_map cn0 foldl_mul mul1r compute_lagrangeE // big_map; congr (Ok (_, _)).
case E: cs (vs) => [|c0 cs'] vs'; first by case/and3P: vs'.
rw -{}E {vs'}.
apply: (@eq_from_nth _ 0) => [|i]; first by rw !size_map size_zip !size_map size_iota minnn.
rw !size_map size_zip !size_map size_iota minnn => lis.
rw (nth_map (0%N, 0)) ?size_zip ?size_map ?size_iota ?minnn // (nth_map c0) // nth_zip ?size_map ?size_iota //=.
rw nth_iota // add0n -!map_comp (nth_map c0) //= weightE ?size_map ?(nth_map c0) //.
- by move/allP: cn0; apply; apply: mem_nth.
- by rw big_map /mu -map_comp.
Qed.

(** What verification computes on an acceptable set of contributions. *)
Lemma verifyE Y payload cs t :
  valid_indices [seq index c | c <- cs] -> all (fun c => challenge payload c != 0) cs -> (t <= size cs)%N ->
  verify Y cs t payload
  = Ok ((\sum_(c <- cs) mu payload cs c * response c) *: G
        == (\prod_(c <- cs) challenge payload c) *: Y
           + \sum_(c <- cs) mu payload cs c *: commitment c).
Proof.
move=> vs cn0 tc; rw /verify tc.
have /eqP -> : adjacent_dup (sort leq [seq index c | c <- cs]) == None.
  by rw adjacent_dup_sort; case/and3P: vs.
rw compute_weightsE // zip_map_r -!map_comp; congr (Ok (_ == _)).
- by rw foldl_add add0r big_map.
- by rw multiscalar_mulE /= ?size_map // zip_map big_cons big_map.
Qed.

(** The contribution is [e] off what the share polynomial [f] asks for. *)
Definition off_by (f : {poly F}) (payload : bytes) (c : Contribution) (e : F) : Prop :=
  exists2 r, commitment c = r *: G
    & response c = r + challenge payload c * f.[from_u32 (index c)] + e.

(** The check succeeds exactly when the weighted errors cancel. *)
Lemma verify_balance (f : {poly F}) payload cs t (e : Contribution -> F) :
  valid_indices [seq index c | c <- cs] -> all (fun c => challenge payload c != 0) cs ->
  (t <= size cs)%N -> (size f <= size cs)%N -> {in cs, forall c, off_by f payload c (e c)} ->
  verify (f.[0] *: G) cs t payload = Ok (\sum_(c <- cs) mu payload cs c * e c == 0).
Proof.
move=> vs cn0 tc sf hon; rw verifyE // scalerA; congr Ok.
set N := \prod_(c <- cs) _.
have -> : N * f.[0] = \sum_(c <- cs) mu payload cs c * (challenge payload c * f.[from_u32 (index c)]).
  rw -(shares_interpolate vs) ?size_map // mulr_sumr big_map; apply: eq_big_seq => c ccs.
  have cn : challenge payload c != 0 by move/allP: cn0; apply.
  by rw /mu -/N [RHS]mulrA -[X in _ = X * _]mulrA divfK // mulrCA mulrA.
have -> : (\sum_(c <- cs) mu payload cs c * response c) *: G
  = (\sum_(c <- cs) mu payload cs c * (challenge payload c * f.[from_u32 (index c)])) *: G
    + \sum_(c <- cs) mu payload cs c *: commitment c
    + (\sum_(c <- cs) mu payload cs c * e c) *: G.
  rw !scaler_suml -!big_split /=; apply: eq_big_seq => c /hon[r -> ->].
  by rw !mulrDr !scalerDl [X in _ = X + _]addrC scalerA.
set A := _ *: G + \sum_(c <- cs) _; rw -subr_eq0 [A + _]addrC addrK scaler_eq0.
by rw (negbTE generator_neq0) orbF.
Qed.

Lemma mu_neq0 payload cs c :
  valid_indices [seq index c | c <- cs] -> all (fun c => challenge payload c != 0) cs -> c \in cs ->
  mu payload cs c != 0.
Proof.
move=> vs cn0 ccs; have [us s0] := valid_scalars vs.
have cn c' : c' \in cs -> challenge payload c' != 0 by move/(allP cn0).
rw /mu !mulf_neq0 ?invr_neq0 ?cn //.
- rw /lagrange prodf_seq_neq0; apply/allP => x xs; apply/implyP => xc.
  by rw mulf_neq0 ?invr_neq0 ?subr_eq0 //; apply: contraNneq s0 => <-.
- by rw prodf_seq_neq0; apply/allP => c' /cn.
Qed.

Lemma honest_verify (f : {poly F}) cs payload t :
  (size f <= t)%N -> (t <= size cs)%N -> valid_indices [seq index c | c <- cs] ->
  all (fun c => challenge payload c != 0) cs ->
  {in cs, forall c, exists r, c = contribute (mkSecretShare (index c) f.[from_u32 (index c)]) r payload} ->
  verify (f.[0] *: G) cs t payload = Ok true.
Proof.
move=> sf tc vs cn0 hon.
have H : {in cs, forall c, off_by f payload c 0} by move=> c /hon[r ->]; exists r; rw /= ?addr0.
rw (verify_balance vs cn0 tc (leq_trans sf tc) H) big1 ?eqxx // => c _; exact: mulr0.
Qed.

(** C24.  Enough honest contributions verify: whatever nonces [t] or more distinct
    shareholders of a key draw, their contributions to a payload are accepted
    under the group key (unless one of the challenges hashes to zero). *)
Theorem honest_contributions_verify (f : {poly F}) cs payload t :
  (size f <= t)%N -> (t <= size cs)%N -> valid_indices [seq index c | c <- cs] ->
  all (fun c => challenge payload c != 0) cs ->
  {in cs, forall c, exists r, c = contribute (mkSecretShare (index c) f.[from_u32 (index c)]) r payload} ->
  verify (f.[0] *: G) cs t payload = Ok true.
Proof. exact: honest_verify. Qed.

(** One wrong response is enough to be rejected: if all contributions but one
    are honest and the response of that one is off, verification fails. *)
Lemma tampered_contribution_rejected (f : {poly F}) cs payload t c0 e :
  (size f <= t)%N -> (t <= size cs)%N -> valid_indices [seq index c | c <- cs] ->
  all (fun c => challenge payload c != 0) cs -> c0 \in cs -> e != 0 ->
  off_by f payload c0 e -> {in cs, forall c, c != c0 -> off_by f payload c 0} ->
  verify (f.[0] *: G) cs t payload = Ok false.
Proof.
move=> sf tc vs cn0 c0cs en0 bad hon.
pose d c := if c == c0 then e else 0.
have H : {in cs, forall c, off_by f payload c (d c)}.
  by move=> c ccs; rw /d; case: eqVneq => [->|/hon]; last apply.
have us : uniq cs by case/and3P: vs => _ /map_uniq.
rw (verify_balance vs cn0 tc (leq_trans sf tc) H) (bigD1_seq c0) //= /d eqxx.
rw big1 ?addr0 => [c /negbTE ->|]; first exact: mulr0.
by rw mulf_eq0 (negbTE (mu_neq0 vs cn0 c0cs)) (negbTE en0).
Qed.

(** Verification gives a verdict only on a quorum of distinct, positive indices
    and non-zero challenges; everything else is an error. *)
Lemma verify_defined Y cs payload t :
  (exists b, verify Y cs t payload = Ok b)
  <-> [&& (t <= size cs)%N, size cs != 0%N, uniq [seq index c | c <- cs],
         all (fun i => i != 0%N) [seq index c | c <- cs] & all (fun c => challenge payload c != 0) cs].
Proof.
rw /verify /compute_weights /compute_lagrange_coefficients size_map -adjacent_dup_sort all_map.
case: leqP => //= _; last by split => // -[].
case: adjacent_dup => [i|] /=; first by rw andbF; split => // -[].
case: eqP => //= [_|/eqP /negbTE nz]; first by split => // -[].
rw [all (preim _ _) cs](_ : _ = all (fun c => challenge payload c != 0) cs) //.
case: (all (fun c => _ != 0) cs); rw ?andbT ?andbF /=; last by split => // -[].
case: (all _ _) => /=; last by split => // -[].
by split => // _; case: ifP => _; eexists.
Qed.
End verification.

(** * Encodings and collection *)

Section encodings.
Context {F : fieldType} {P : lmodType F} {C : Curve P} {K : @CurveCodec F P C}.
Local Abbreviation Contribution := (@Contribution F P).

Lemma size_to_bytes (c : Contribution) : size (to_bytes c) = 68%N.
Proof. by rw /to_bytes !size_cat size_to_le_bytes size_compress size_scalar_to_bytes. Qed.

Lemma contribution_roundtrip (c : Contribution) :
  (index c < 2 ^ 32)%N -> from_bytes (to_bytes c) = Ok c.
Proof.
case: c => i p x li; rw /from_bytes /to_bytes [index _]/= [commitment _]/= [response _]/=.
rw (slice_l _ (size_to_le_bytes 4 i)) u32_bytesK //.
rw (slice_r 0 32 _ (size_to_le_bytes 4 i)) (slice_l _ (size_compress p)) compressK.
rw (slice_r 32 64 _ (size_to_le_bytes 4 i)) (slice_r 0 32 _ (size_compress p)).
by rw (slice_all (size_scalar_to_bytes x)) scalar_to_bytesK.
Qed.

Lemma contribution_vec_roundtrip (c : Contribution) :
  (index c < 2 ^ 32)%N -> from_bytes_vec (to_bytes_vec c) = Ok c.
Proof.
case: c => i p x li; rw /from_bytes_vec /to_bytes_vec [index _]/= [commitment _]/= [response _]/=.
rw !size_cat size_to_le_bytes size_compress_vec size_scalar_to_bytes -addnA eqxx.
rw (slice_l _ (size_to_le_bytes 4 i)) u32_bytesK //.
rw (slice_r 0 compressed_size _ (size_to_le_bytes 4 i)) (slice_l _ (size_compress_vec p)) compress_vecK.
rw (slice_r _ _ _ (size_to_le_bytes 4 i)).
rw -{1}(addn0 (@compressed_size F P C)) (slice_r _ _ _ (size_compress_vec p)).
by rw (slice_all (size_scalar_to_bytes x)) scalar_to_bytesK.
Qed.

Lemma parse_contributionsS m o s :
  parse_contributions m.+1 o s
  = (let? c := from_bytes (slice o (o + 68) s) in
     let? cs := parse_contributions m (o + 68) s in Ok (c :: cs : seq Contribution)).
Proof. by []. Qed.

Lemma parse_contributionsK (cs : seq Contribution) pre t :
  all (fun c => index c < 2 ^ 32)%N cs ->
  parse_contributions (size cs) (size pre) (pre ++ flatten [seq to_bytes c | c <- cs] ++ t) = Ok cs.
Proof.
elim: cs pre => [//|c cs IH] pre /andP[lc /IH{}IH].
rw [size (c :: cs)]/= map_cons -[flatten _]/(to_bytes c ++ flatten _) parse_contributionsS.
rw -{1}(addn0 (size pre)) (slice_r _ _ _ erefl) -catA (slice_l _ (size_to_bytes c)) (contribution_roundtrip lc).
by have := IH (pre ++ @to_bytes F P C c); rw size_cat size_to_bytes -catA => ->.
Qed.

Lemma from_bytes_parts hp pl hc body :
  size hp = 4%N -> from_le_bytes hp = size pl -> size hc = 4%N -> (from_le_bytes hc * 68 <= size body)%N ->
  OsstProof_from_bytes (hp ++ pl ++ hc ++ body)
  = (let? cs := parse_contributions (from_le_bytes hc) (size (hp ++ pl ++ hc)) (hp ++ pl ++ hc ++ body) in
     Ok (@mkOsstProof F P cs pl)).
Proof.
move=> sh eh sc sb; rw /OsstProof_from_bytes (slice_l _ sh) eh !size_cat sh sc.
have -> : (8 <= 4 + (size pl + (4 + size body)))%N by rw (addnCA _ 4) addnA leq_addr.
rw -{2}(addnA 4) !leq_add2l leq_addr.
have E n s : slice (4 + size pl) n (hp ++ pl ++ s) = slice (size (hp ++ pl) + 0) n ((hp ++ pl) ++ s).
  by rw addn0 -catA size_cat sh.
rw (slice_r 0 _ _ sh) (slice_l _ erefl) !E.
have -> : (4 + size pl + 4)%N = (size (hp ++ pl) + 4)%N by rw size_cat sh.
rw (slice_r _ _ _ erefl) (slice_l _ sc) size_cat sh -!addnA !leq_add2l sb.
by rw !addnA.
Qed.

(** A proof survives its encoding: what [to_bytes] writes, followed by anything,
    [from_bytes] reads back, as long as the lengths and the indices are [u32]s. *)
Lemma proof_roundtrip (p : @OsstProof F P) t :
  (size (payload p) < 2 ^ 32)%N -> (size (contributions p) < 2 ^ 32)%N ->
  all (fun c => index c < 2 ^ 32)%N (contributions p) ->
  OsstProof_from_bytes (OsstProof_to_bytes p ++ t) = Ok p.
Proof.
case: p => cs pl; rw /OsstProof_to_bytes [contributions _]/= [payload _]/= => lp lc ics.
have sb : size (flatten [seq to_bytes c | c <- cs]) = (size cs * 68)%N.
  by elim: (cs) => [//|c s IH]; rw map_cons -[flatten _]/(to_bytes c ++ flatten _) size_cat size_to_bytes IH mulSn.
rw -!catA from_bytes_parts ?size_to_le_bytes ?u32_bytesK // ?size_cat ?sb ?leq_addr //.
have := parse_contributionsK (to_le_bytes 4 (size pl) ++ pl ++ to_le_bytes 4 (size cs)) t ics.
by rw -!catA !size_cat => ->.
Qed.

(** The builder takes exactly the sequences without a repeated index, in their order. *)
Lemma collect_spec pl (cs : seq Contribution) b :
  collect pl cs = Ok b <-> uniq [seq index c | c <- cs] /\ b = mkOsstProof cs pl.
Proof.
rw /collect; elim/last_ind: cs b => [|cs c IH] b; first by split => [[<-]|[_ ->]].
rw foldl_rcons map_rcons rcons_uniq.
case E: (foldl _ _ cs) IH => [b'|e] IH.
  have [us ->] := proj1 (IH b') erefl; rw us andbT /builder_add /=.
  rw (_ : all _ cs = (index c \notin [seq index c | c <- cs])).
    by rw -has_pred1 has_map -all_predC; apply: eq_all => x /=; rw eq_sym.
  case: (_ \notin _) => /=; last by split=> // -[].
  by split=> [[<-]|[_ ->]].
split=> // -[/andP[_ us] _]; suff: Err e = Ok (mkOsstProof cs pl) by [].
by apply/IH.
Qed.
End encodings.

(** * Witnesses *)

Section witnesses.
Import Demo.
Local Abbreviation u := (@from_u32 Q).

(** The secret 7, shared among 1, 2, 3 with threshold 2. *)
Definition demo_poly : {poly Q} := 'X + 7%:R%:P.
Definition demo_share (i : nat) : @SecretShare Q := mkSecretShare i demo_poly.[u i].
Definition demo_payload : bytes := [:: x01; x02].
Definition demo_contributions : seq (@Contribution Q QP) :=
  [:: contribute (demo_share 1) 4%:R demo_payload; contribute (demo_share 3) 9%:R demo_payload].

Lemma demo_poly_size : (size demo_poly <= 2)%N.
Proof. by rw size_XaddC. Qed.

Lemma honest_contributions_verify_witness :
  verify (demo_poly.[0] *: generator) demo_contributions 2 demo_payload = Ok true.
Proof.
apply: (honest_contributions_verify (f := demo_poly)) => //.
- exact: demo_poly_size.
- move=> c; rw !inE => /orP[] /eqP ->; by [exists 4%:R|exists 9%:R].
Defined.

(** The second response is one too large. *)
Definition demo_bad : @Contribution Q QP :=
  let c := contribute (demo_share 3) 9%:R demo_payload in
  mkContribution (index c) (commitment c) (response c + 1).

Lemma tampered_contribution_rejected_witness :
  verify (demo_poly.[0] *: generator)
    [:: contribute (demo_share 1) 4%:R demo_payload; demo_bad] 2 demo_payload = Ok false.
Proof.
apply: (tampered_contribution_rejected (f := demo_poly) (c0 := demo_bad) (e := 1)) => //.
- exact: demo_poly_size.
- by rw !inE eqxx orbT.
- by exists 9%:R.
- move=> c; rw !inE => /orP[] /eqP -> => [_|]; last by rw eqxx.
  by exists 4%:R; rw /= ?addr0.
Defined.

Lemma proof_roundtrip_witness :
  OsstProof_from_bytes
    (OsstProof_to_bytes (mkOsstProof [:: mkContribution 3 (1 : BP) (0 : B)] [:: x07]) ++ [:: x00])
  = Ok (mkOsstProof [:: mkContribution 3 (1 : BP) (0 : B)] [:: x07]).
Proof.
by apply: (proof_roundtrip (C := bit_curve)).
Defined.
End witnesses.
