(* ===== verification/Frost.v ===== *)
(** FROST threshold signatures, [crates/osst/src/frost.rs]: nonce commitments,
    the signing package, signing, aggregation, verification.

    Honest signers produce a Schnorr signature of the group key; shares that pass
    the verification shares' check aggregate to one, provided no signer is counted
    twice.  Nonces are arguments where the code draws them. *)
From Stdlib Require Import Init.Byte Strings.Byte.
From Stdlib Require String.
From HB Require Import structures.
From mathcomp Require Import ssreflect ssrfun ssrbool eqtype ssrnat seq path div choice fintype bigop ssralg poly.
From mathcomp Require Import ssrnum ssrint rat.
From S2P Require Import OsstCurve Osst.
Import String.StringSyntax.

Set Implicit Arguments.
Unset Strict Implicit.
Unset Printing Implicit Defensive.
Set Warnings "-redundant-canonical-projection".

Import GRing.Theory.
Local Open Scope ring_scope.

(** [b"..."] *)
Definition label (s : String.string) : bytes := String.list_byte_of_string s.
Arguments label _%_string_scope.

(** A ciphersuite: the hashes for the binding factors, for the Schnorr challenge and
    for the binding factors among the holders of a nested position.  [frost.rs] and
    [nested.rs] use SHA-512, [redpallas.rs] runs the same protocol with personalised
    BLAKE2b. *)
Class Suite (F : fieldType) (P : lmodType F) := {
  bind_hash : nat -> bytes -> bytes -> F;
  challenge_hash : P -> P -> bytes -> F;
  inner_hash : nat -> bytes -> bytes -> F;
}.

Section hashes.
Context {F : fieldType} {P : lmodType F} {C : Curve P}.

Definition compute_binding_factor (index : nat) (message encoded : bytes) : F :=
  from_bytes_wide (sha512 (label "frost-binding-v1" ++ to_le_bytes 4 index
                           ++ to_le_bytes 8 (size message) ++ message ++ encoded)).

Definition compute_challenge (group_commitment group_pubkey : P) (message : bytes) : F :=
  from_bytes_wide (sha512 (label "frost-challenge-v1" ++ compress group_commitment
                           ++ compress group_pubkey ++ message)).

(** The hash of [inner_binding_factor] in [nested.rs]. *)
Definition inner_binding_hash (holder_index : nat) (outer_message encoded : bytes) : F :=
  from_bytes_wide (sha512 (label "frostito-inner-bind" ++ to_le_bytes 4 holder_index
                           ++ to_le_bytes 8 (size outer_message) ++ outer_message ++ encoded)).

Definition frost_suite : Suite P :=
  {| bind_hash := compute_binding_factor; challenge_hash := compute_challenge;
     inner_hash := inner_binding_hash |}.
End hashes.

Section frost.
Context {F : fieldType} {P : lmodType F} {C : Curve P} {U : Suite P}.
Local Abbreviation G := (@generator F P C).
Local Abbreviation SecretShare := (@SecretShare F).

Record Nonces := mkNonces { n_hiding : F; n_binding : F }.

Definition compute_response (n : Nonces) (rho lambda challenge secret : F) : F :=
  n_hiding n + rho * n_binding n + lambda * (challenge * secret).

Record SigningCommitments := mkSigningCommitments { sc_index : nat; hiding : P; binding : P }.

Definition commitments_to_bytes (c : SigningCommitments) : bytes :=
  to_le_bytes 4 (sc_index c) ++ compress (hiding c) ++ compress (binding c).

Definition commitments_from_bytes (s : bytes) : result SigningCommitments :=
  let index := from_le_bytes (slice 0 4 s) in
  ensure! index != 0%N else InvalidIndex ;;
  match decompress (slice 4 36 s) with
  | None => Err InvalidCommitment
  | Some hiding =>
      match decompress (slice 36 68 s) with
      | None => Err InvalidCommitment
      | Some binding => Ok (mkSigningCommitments index hiding binding)
      end
  end.

Record SigningPackage := mkSigningPackage {
  message : bytes;
  commitments : btree SigningCommitments;
  encoded_commitments : bytes;
}.

Definition encode_commitments (m : btree SigningCommitments) : bytes :=
  flatten [seq to_le_bytes 4 (sc_index c) ++ compress (hiding c) ++ compress (binding c) | c <- values m].

(** The loop over the received commitments. *)
Fixpoint collect_commitments (m : btree SigningCommitments) (cs : seq SigningCommitments)
  : result (btree SigningCommitments) :=
  match cs with
  | [::] => Ok m
  | c :: cs' =>
      ensure! sc_index c != 0%N else InvalidIndex ;;
      ensure! ~~ isSome (bt_get (sc_index c) m) else DuplicateIndex (sc_index c) ;;
      collect_commitments (bt_insert (sc_index c) c m) cs'
  end.

Definition SigningPackage_new (message : bytes) (cs : seq SigningCommitments) : result SigningPackage :=
  let? map := collect_commitments [::] cs in
  ensure! size map != 0%N else EmptyContributions ;;
  Ok (mkSigningPackage message map (encode_commitments map)).

Definition num_signers (p : SigningPackage) : nat := size (commitments p).
Definition signer_indices (p : SigningPackage) : seq nat := keys (commitments p).
Definition get_commitments (p : SigningPackage) (i : nat) : option SigningCommitments := bt_get i (commitments p).

Definition binding_factor (p : SigningPackage) (index : nat) : F :=
  bind_hash index (message p) (encoded_commitments p).

Definition group_commitment (p : SigningPackage) : P :=
  foldl (fun r c => r + hiding c + binding_factor p (sc_index c) *: binding c) 0 (values (commitments p)).

Definition challenge (p : SigningPackage) (group_commitment group_pubkey : P) : F :=
  challenge_hash group_commitment group_pubkey (message p).

Record SignatureShare := mkSignatureShare { ss_index : nat; ss_response : F }.

Definition share_to_bytes (s : SignatureShare) : bytes :=
  to_le_bytes 4 (ss_index s) ++ scalar_to_bytes (ss_response s).

Definition share_from_bytes (s : bytes) : result SignatureShare :=
  let index := from_le_bytes (slice 0 4 s) in
  ensure! index != 0%N else InvalidIndex ;;
  match from_canonical_bytes (slice 4 36 s) with
  | None => Err InvalidResponse
  | Some response => Ok (mkSignatureShare index response)
  end.

Record Signature := mkSignature { sig_r : P; sig_z : F }.

Definition signature_to_bytes (s : Signature) : bytes := compress (sig_r s) ++ scalar_to_bytes (sig_z s).

Definition signature_from_bytes (s : bytes) : result Signature :=
  match decompress (slice 0 32 s) with
  | None => Err InvalidCommitment
  | Some r =>
      match from_canonical_bytes (slice 32 64 s) with
      | None => Err InvalidResponse
      | Some z => Ok (mkSignature r z)
      end
  end.

(** Commitments can be compared. *)
Definition sc_tuple (c : SigningCommitments) : nat * P * P := (sc_index c, hiding c, binding c).
Definition tuple_sc (x : nat * P * P) : SigningCommitments := mkSigningCommitments x.1.1 x.1.2 x.2.
Lemma sc_tupleK : cancel sc_tuple tuple_sc.
Proof. by case. Qed.
HB.instance Definition _ := Equality.copy SigningCommitments (can_type sc_tupleK).

(** Round 1, with the nonces it draws. *)
Definition commit (index : nat) (d e : F) : result (Nonces * SigningCommitments) :=
  ensure! (0 < index)%N else Panic ;;
  Ok (mkNonces d e, mkSigningCommitments index (d *: G) (e *: G)).

(** Round 2. *)
Definition sign (package : SigningPackage) (nonces : Nonces) (share : SecretShare) (group_pubkey : P)
  : result SignatureShare :=
  ensure! isSome (get_commitments package (sh_index share)) else InvalidIndex ;;
  let rho := binding_factor package (sh_index share) in
  let c := challenge package (group_commitment package) group_pubkey in
  let indices := signer_indices package in
  let? lagrange := compute_lagrange_coefficients indices in
  match position (sh_index share) indices with
  | None => Err InvalidIndex
  | Some my_pos =>
      let lambda := lagrange`_my_pos in
      Ok (mkSignatureShare (sh_index share)
            (n_hiding nonces + rho * n_binding nonces + lambda * c * scalar share))
  end.

(** The check of one share in [aggregate]. *)
Definition check_share (package : SigningPackage) (group_pubkey : P) (lagrange : seq F)
    (vshares : btree P) (share : SignatureShare) : result unit :=
  let c := challenge package (group_commitment package) group_pubkey in
  match position (ss_index share) (signer_indices package), bt_get (ss_index share) vshares,
        get_commitments package (ss_index share) with
  | Some pos, Some yi, Some comm =>
      let rho := binding_factor package (ss_index share) in
      let lhs := ss_response share *: G in
      let rhs := hiding comm + rho *: binding comm + (lagrange`_pos * c) *: yi in
      ensure! lhs == rhs else InvalidResponse ;; Ok tt
  | _, _, _ => Err InvalidIndex
  end.

Fixpoint check_shares (package : SigningPackage) (group_pubkey : P) (lagrange : seq F)
    (vshares : btree P) (shares : seq SignatureShare) : result unit :=
  match shares with
  | [::] => Ok tt
  | share :: shares' =>
      let? _ := check_share package group_pubkey lagrange vshares share in
      check_shares package group_pubkey lagrange vshares shares'
  end.

Definition aggregate (package : SigningPackage) (shares : seq SignatureShare) (group_pubkey : P)
    (verifier_shares : option (btree P)) : result Signature :=
  ensure! (num_signers package <= size shares)%N
    else InsufficientContributions (size shares) (num_signers package) ;;
  let? _ := match verifier_shares with
            | None => Ok tt
            | Some vshares =>
                let? lagrange := compute_lagrange_coefficients (signer_indices package) in
                check_shares package group_pubkey lagrange vshares shares
            end in
  Ok (mkSignature (group_commitment package) (foldl (fun z s => z + ss_response s) 0 shares)).

Definition verify_signature (group_pubkey : P) (message : bytes) (signature : Signature) : bool :=
  let c := challenge_hash (sig_r signature) group_pubkey message in
  sig_z signature *: G == sig_r signature + c *: group_pubkey.
End frost.

(** * The package *)

Section packages.
Context {F : fieldType} {P : lmodType F} {C : Curve P} {U : Suite P}.
Local Abbreviation SigningCommitments := (@SigningCommitments F P).
Implicit Types (m : btree SigningCommitments) (cs : seq SigningCommitments).

(** What a package holds: the commitments of distinct, positive signers in their
    order, each under its own index, and their encoding. *)
Definition map_ok m : bool :=
  sorted ltn (keys m) && all (fun kc => (kc.1 == sc_index kc.2) && (kc.1 != 0%N)) m.

Definition package_ok (p : @SigningPackage F P) : Prop :=
  [/\ map_ok (commitments p), size (commitments p) != 0%N
    & encoded_commitments p = encode_commitments (commitments p)].

Definition entry (c : SigningCommitments) : nat * SigningCommitments := (sc_index c, c).

Lemma map_ok_insert m c :
  map_ok m -> sc_index c != 0%N -> sc_index c \notin keys m ->
  map_ok (bt_insert (sc_index c) c m) /\ perm_eq (bt_insert (sc_index c) c m) (entry c :: m).
Proof.
case/andP=> sm am c0 cm; have pm := insert_perm c cm; split=> //.
by rw /map_ok sorted_insert // (perm_all _ pm) /= eqxx c0.
Qed.

Lemma collect_commitments_ok m cs :
  map_ok m -> all (fun c => sc_index c != 0%N) cs -> uniq (keys m ++ [seq sc_index c | c <- cs]) ->
  exists m', [/\ collect_commitments m cs = Ok m', map_ok m' & perm_eq m' (m ++ [seq entry c | c <- cs])].
Proof.
elim: cs m => [|c cs IH] m /=; first by move=> *; exists m; rw cats0.
move=> okm /andP[c0 cs0] um; rw c0 bt_get_some.
have cm : sc_index c \notin keys m.
  by move: um; rw cat_uniq /= negb_or => /and3P[_ /andP[]].
rw cm; have [okm' pm] := map_ok_insert okm c0 cm.
have [|m' [E okm2 pm2]] := IH _ okm' cs0.
  rw (perm_uniq (s2 := keys m ++ sc_index c :: [seq sc_index c | c <- cs])) //.
  by rw -cat1s catA perm_cat2r perm_sym perm_catC perm_sym; apply: (perm_map fst pm).
exists m'; split=> //; rw (perm_trans pm2) // -cat1s catA perm_cat2r perm_sym perm_catC perm_sym.
exact: pm.
Qed.

Lemma collect_commitments_inv m cs m' :
  collect_commitments m cs = Ok m' -> uniq (keys m) ->
  all (fun c => sc_index c != 0%N) cs /\ uniq (keys m ++ [seq sc_index c | c <- cs]).
Proof.
elim: cs m => [|c cs IH] m /=; first by rw cats0.
case: ifP => // c0; rw bt_get_some; case: ifP => // cm /IH{}IH um.
have pk := perm_map fst (insert_perm c cm).
have [|-> u] := IH; first by rw (perm_uniq pk) /= cm.
split=> //; rw (perm_uniq (s2 := keys (bt_insert (sc_index c) c m) ++ [seq sc_index c | c <- cs])) //.
by rw -cat1s catA perm_cat2r perm_catC perm_sym.
Qed.

(** A package is built exactly from non-empty lists of distinct, positive signers. *)
Lemma SigningPackage_newP msg cs :
  (exists p, SigningPackage_new msg cs = Ok p)
  <-> [&& size cs != 0%N, all (fun c => sc_index c != 0%N) cs & uniq [seq sc_index c | c <- cs]].
Proof.
rw /SigningPackage_new; split=> [[p]|/and3P[cs0 c0 us]].
  case E: collect_commitments => [m|//]; have [//|-> u] := collect_commitments_inv E.
  rw u andbT; case: cs E {u} => [[<-] //|c cs _ _] //.
have [//|m [-> _ pm]] := collect_commitments_ok (m := [::]) _ c0 us.
by rw (perm_size pm) size_map cs0; eexists.
Qed.

Lemma SigningPackage_new_ok msg cs p :
  SigningPackage_new msg cs = Ok p ->
  [/\ package_ok p, message p = msg & perm_eq (commitments p) [seq entry c | c <- cs]].
Proof.
rw /SigningPackage_new; case E: collect_commitments => [m|//]; case: ifP => // m0 [<-].
have [//|c0 u] := collect_commitments_inv E.
have [//|m' []] := collect_commitments_ok (m := [::]) _ c0 u.
by rw E => -[<-] okm pm.
Qed.

(** C40.  All signers sign the same package: the order in which the commitments
    arrive does not matter.  The package is well formed — its signers positive,
    distinct and in order, each commitment under its own index — and any
    permutation of the commitments gives the same one, so the same binding
    factors and group commitment. *)
Theorem package_canonical msg cs p :
  SigningPackage_new msg cs = Ok p ->
  package_ok p /\ forall cs', perm_eq cs cs' -> SigningPackage_new msg cs' = Ok p.
Proof.
move=> E; have [okp mp pp] := SigningPackage_new_ok E; split=> // cs' pc.
have /SigningPackage_newP/and3P[s0 c0 us] : exists p, SigningPackage_new msg cs = Ok p by exists p.
have [|p' E'] := proj2 (SigningPackage_newP msg cs').
  by rw -(perm_size pc) s0 -(perm_all _ pc) c0 -(perm_uniq (perm_map _ pc)).
have [okp' mp' pp'] := SigningPackage_new_ok E'; rw E'; congr Ok.
have Em : commitments p = commitments p'.
  case: okp okp' => /andP[sp _] _ _ [/andP[sp' _] _ _]; apply: btree_eq => // x.
  by rw (perm_mem pp) (perm_mem pp') (perm_mem (perm_map _ pc)).
case: p p' okp okp' mp mp' Em {E E' pp pp'} => [x m e] [x' m' e'] [_ _ /= ->] [_ _ /= ->] -> ->.
by move=> /= ->.
Qed.

(** The signers' entries of a well-formed package. *)
Definition com (p : @SigningPackage F P) (i : nat) : SigningCommitments :=
  odflt (mkSigningCommitments 0 0 0) (get_commitments p i).

Lemma package_keys p : package_ok p -> uniq (signer_indices p) /\ 0%N \notin signer_indices p.
Proof.
case=> /andP[sp ap] _ _; split; first exact: (sorted_uniq ltn_trans ltnn).
by apply/mapP => -[[k c] /(allP ap)/andP[_ /= k0] E]; rw -E in k0.
Qed.

Lemma package_values p : package_ok p -> values (commitments p) = [seq com p i | i <- signer_indices p].
Proof.
move=> okp; have [up _] := package_keys okp.
pose d : SigningCommitments := mkSigningCommitments 0 0 0.
transitivity (map (odflt d) [seq Some v | v <- values (commitments p)]).
  by elim: (values _) => //= v vs <-.
by rw -values_get // /signer_indices; elim: (keys _) => //= k ks ->.
Qed.

Lemma com_get p i : i \in signer_indices p -> get_commitments p i = Some (com p i).
Proof. by rw -bt_get_some /com /get_commitments; case: bt_get. Qed.

Lemma com_index p i : package_ok p -> i \in signer_indices p -> sc_index (com p i) = i.
Proof.
case=> /andP[sp ap] _ _ ip; have up := sorted_uniq ltn_trans ltnn sp.
case/mapP: (ip) => -[k c] kc /= Ei; move/(allP ap)/andP: (kc) => /= [/eqP Ek _].
by rw /com /get_commitments Ei (get_in up kc) /= -Ek.
Qed.

Lemma com_in p c : package_ok p -> c \in values (commitments p) -> com p (sc_index c) = c.
Proof.
case=> /andP[sp ap] _ _ /mapP[[k c'] kc /= ->]; have up := sorted_uniq ltn_trans ltnn sp.
by move/(allP ap)/andP: (kc) => /= [/eqP <- _]; rw /com /get_commitments (get_in up kc).
Qed.

Lemma package_signers msg cs p :
  SigningPackage_new msg cs = Ok p ->
  perm_eq (signer_indices p) [seq sc_index c | c <- cs] /\ {in cs, forall c, com p (sc_index c) = c}.
Proof.
move=> /SigningPackage_new_ok[okp _ pp]; split.
  by have := perm_map fst pp; rw -[X in perm_eq _ X]map_comp.
move=> c ccs; apply: com_in => //; apply/mapP; exists (entry c) => //.
by rw (perm_mem pp) map_f.
Qed.

Lemma group_commitmentE p :
  package_ok p ->
  group_commitment p
  = \sum_(i <- signer_indices p) (hiding (com p i) + binding_factor p i *: binding (com p i)).
Proof.
move=> okp; rw /group_commitment package_values //.
transitivity (0 + \sum_(c <- [seq com p i | i <- signer_indices p])
                    (hiding c + binding_factor p (sc_index c) *: binding c)).
  by rw -foldl_add; elim: [seq _ | _ <- _] (0 : P) => //= c s IH a; rw IH addrA.
by rw add0r big_map; apply: eq_big_seq => i ip; rw com_index.
Qed.
End packages.

(** * Signatures *)

Section signatures.
Context {F : fieldType} {P : lmodType F} {C : Curve P} {L : @CurveLaws F P C} {U : Suite P}.
Local Abbreviation G := (@generator F P C).
Local Abbreviation from_u32 := (@from_u32 F).
Implicit Types (p : @SigningPackage F P) (Y : P) (f : {poly F}).

Definition lam p (i : nat) : F := lagrange [seq from_u32 j | j <- signer_indices p] (from_u32 i).
Definition sig_challenge p Y : F := challenge p (group_commitment p) Y.

(** What the share of signer [i] must commit to, given its public share [y]. *)
Definition share_point p Y (i : nat) (y : P) : P :=
  hiding (com p i) + binding_factor p i *: binding (com p i) + (lam p i * sig_challenge p Y) *: y.

Definition u32_signers p : bool := all (fun i => i < 2 ^ 32)%N (signer_indices p).

Lemma package_valid p : package_ok p -> u32_signers p -> valid_indices (signer_indices p).
Proof.
move=> okp ps; have [up p0] := package_keys okp; case: okp => _ sp _.
rw /valid_indices up -size_eq0 size_map sp; apply/allP => i ip.
by rw (allP ps i ip) andbT lt0n; apply: contraNneq p0 => <-.
Qed.

Lemma position_nth i (s : seq nat) (g : nat -> F) :
  i \in s -> position i s = Some (seq.index i s) /\ [seq g j | j <- s]`_(seq.index i s) = g i.
Proof. by move=> ins; rw /position ins (nth_map 0%N) ?index_mem // nth_index. Qed.

Lemma check_shareE p Y vs (s : @SignatureShare F) y :
  ss_index s \in signer_indices p -> bt_get (ss_index s) vs = Some y ->
  check_share p Y [seq lam p i | i <- signer_indices p] vs s
  = if ss_response s *: G == share_point p Y (ss_index s) y then Ok tt else Err InvalidResponse.
Proof.
move=> sp ys; have [ps ns] := position_nth (lam p) sp.
by rw /check_share ps ys com_get // ns.
Qed.

(** The shares that pass are those of signers of the package with a public share,
    whose response commits to the right point. *)
Definition share_ok p Y vs (s : @SignatureShare F) : bool :=
  (ss_index s \in signer_indices p)
  && if bt_get (ss_index s) vs is Some y then ss_response s *: G == share_point p Y (ss_index s) y else false.

Lemma check_sharesP p Y vs (shares : seq (@SignatureShare F)) :
  check_shares p Y [seq lam p i | i <- signer_indices p] vs shares = Ok tt
  <-> all (share_ok p Y vs) shares.
Proof.
elim: shares => [|s ss IH] //=; rw {1}/share_ok.
case sp: (ss_index s \in signer_indices p); last by rw /check_share /position sp.
case ys: (bt_get (ss_index s) vs) => [y|]; last by rw /check_share /position sp ys.
by rw (check_shareE Y sp ys); case: eqP.
Qed.

Lemma aggregate_check p shares Y vs sig :
  package_ok p -> u32_signers p ->
  aggregate p shares Y (Some vs) = Ok sig
  <-> [/\ (num_signers p <= size shares)%N,
         check_shares p Y [seq lam p i | i <- signer_indices p] vs shares = Ok tt
       & sig = mkSignature (group_commitment p) (\sum_(s <- shares) ss_response s)].
Proof.
move=> okp ps; rw /aggregate compute_lagrangeE ?package_valid // -/(lam p) foldl_add add0r.
case: leqP => ls; last by split=> // -[].
case: check_shares => [[]|e]; last by split=> // -[].
by split=> [[<-]|[_ _ ->]].
Qed.

Lemma lam_interpolates p f :
  package_ok p -> u32_signers p -> (size f <= num_signers p)%N ->
  \sum_(i <- signer_indices p) lam p i * f.[from_u32 i] = f.[0].
Proof. by move=> okp ps sf; apply: shares_interpolate; rw ?package_valid // size_map. Qed.

Lemma share_points_sum p Y f :
  package_ok p -> u32_signers p -> (size f <= num_signers p)%N ->
  \sum_(i <- signer_indices p) share_point p Y i (f.[from_u32 i] *: G)
  = group_commitment p + sig_challenge p Y *: (f.[0] *: G).
Proof.
move=> okp ps sf; rw big_split /= -group_commitmentE //; congr (_ + _).
rw -(lam_interpolates okp ps sf) scaler_suml scaler_sumr; apply: eq_bigr => i _.
by rw !scalerA mulrCA mulrA.
Qed.

(** What a signer responds, and that it commits to its point. *)
Definition response p (n : @Nonces F) (i : nat) (x : F) Y : F :=
  n_hiding n + binding_factor p i * n_binding n + lam p i * sig_challenge p Y * x.

Lemma signE p n i x Y :
  package_ok p -> u32_signers p -> i \in signer_indices p ->
  sign p n (mkSecretShare i x) Y = Ok (mkSignatureShare i (response p n i x Y)).
Proof.
move=> okp ps ip; rw /sign /= com_get //= compute_lagrangeE ?package_valid // -/(lam p).
by have [-> ->] := position_nth (lam p) ip.
Qed.

Lemma response_point p n i x Y :
  n_hiding n *: G = hiding (com p i) -> n_binding n *: G = binding (com p i) ->
  response p n i x Y *: G = share_point p Y i (x *: G).
Proof. by move=> hn bn; rw !scalerDl -!scalerA hn bn /share_point !scalerA. Qed.

(** Checking or not, the signature is the same. *)
Lemma aggregate_unchecked p shares Y vs sig :
  aggregate p shares Y (Some vs) = Ok sig -> aggregate p shares Y None = Ok sig.
Proof.
rw /aggregate; case: leqP => // _; case: compute_lagrange_coefficients => // lag.
by case: check_shares => // -[].
Qed.

(** An aggregator without public shares accepts the shares of anyone: the result
    depends on the sum of the responses only. *)
Lemma unchecked_shares p shares Y :
  aggregate p shares Y None
  = if (num_signers p <= size shares)%N
    then Ok (mkSignature (group_commitment p) (\sum_(s <- shares) ss_response s))
    else Err (InsufficientContributions (size shares) (num_signers p)).
Proof. by rw /aggregate foldl_add add0r. Qed.

(** Responses that commit to the signers' points, one for each, sum to a signature. *)
Lemma points_sign f p (shares : seq (@SignatureShare F)) :
  package_ok p -> u32_signers p -> (size f <= num_signers p)%N ->
  perm_eq [seq ss_index s | s <- shares] (signer_indices p) ->
  all (fun s => ss_response s *: G
                == share_point p (f.[0] *: G) (ss_index s) (f.[from_u32 (ss_index s)] *: G)) shares ->
  verify_signature (f.[0] *: G) (message p)
    (mkSignature (group_commitment p) (\sum_(s <- shares) ss_response s)).
Proof.
move=> okp ps sf pk ok; rw /verify_signature scaler_suml -/(challenge _ _ _) -/(sig_challenge _ _).
rw -share_points_sum // -(perm_big _ pk) /= big_map; apply/eqP.
elim: (shares) ok => [|s ss IH] /=; first by rw !big_nil.
by case/andP=> /eqP E /IH; rw !big_cons E => ->.
Qed.

(** C29.  Checked shares make a signature: if the package has at least a threshold of signers, as many as
    the shared polynomial has coefficients, aggregation checks the shares against
    the signers' public shares and succeeds, and no signer's share is given twice,
    the result verifies under the group key.  Nothing is assumed of how the signers made their
    shares; that the signers are enough is for the caller to see to, aggregation does not check it. *)
Theorem checked_shares_sign f msg cs p shares vs sig :
  SigningPackage_new msg cs = Ok p -> u32_signers p -> (size f <= num_signers p)%N ->
  {in signer_indices p, forall i, bt_get i vs = Some (f.[from_u32 i] *: G)} ->
  uniq [seq ss_index s | s <- shares] ->
  aggregate p shares (f.[0] *: G) (Some vs) = Ok sig ->
  verify_signature (f.[0] *: G) msg sig.
Proof.
move=> /SigningPackage_new_ok[okp mp _] ps sf vsf us /(aggregate_check _ _ _ _ okp ps)[ls /check_sharesP cs' ->].
have [up _] := package_keys okp.
have sub : {subset [seq ss_index s | s <- shares] <= signer_indices p}.
  by elim: (shares) cs' => //= s ss IH /andP[/andP[sp _] /IH H] i; rw inE => /orP[/eqP -> |/H].
have pk : perm_eq [seq ss_index s | s <- shares] (signer_indices p).
  by have [|_ E] := uniq_min_size us sub; [rw !size_map|apply: uniq_perm].
rw -mp; apply: points_sign => //; apply: sub_all cs' => s /andP[sp]; by rw vsf.
Qed.

(** A signing session: every signer, given with its two nonces, commits and signs
    with its share, and the signature shares are aggregated. *)
Definition session (share : nat -> F) msg (signers : seq (nat * (F * F))) Y (vs : option (btree P)) : result (@Signature F P) :=
  let? rounds := traverse (fun s => @commit F P C s.1 s.2.1 s.2.2) signers in
  let? pkg := SigningPackage_new msg [seq r.2 | r <- rounds] in
  let? shares := traverse (fun sn => sign pkg sn.2.1 (mkSecretShare sn.1.1 (share sn.1.1)) Y)
                   (zip signers rounds) in
  aggregate pkg shares Y vs.

Lemma honest_session f msg (signers : seq (nat * (F * F))) vs :
  valid_indices [seq s.1 | s <- signers] -> (size f <= size signers)%N ->
  (forall v, vs = Some v -> {in [seq s.1 | s <- signers], forall i, bt_get i v = Some (f.[from_u32 i] *: G)}) ->
  exists2 sig, session (fun i => f.[from_u32 i]) msg signers (f.[0] *: G) vs = Ok sig & verify_signature (f.[0] *: G) msg sig.
Proof.
move=> vi sf vsok; set Y := _ *: G.
pose r s : Nonces * SigningCommitments :=
  (mkNonces s.2.1 s.2.2, mkSigningCommitments s.1 (s.2.1 *: G) (s.2.2 *: G)).
have i0 s : s \in signers -> (0 < s.1 < 2 ^ 32)%N.
  by case/and3P: vi => _ _ /allP H ss; apply: H; apply: map_f.
rw /session (traverse_ok (g := r)) => [s /i0/andP[s0 _]|]; first by rw /commit s0.
set cs := [seq _ | _ <- [seq r _ | _ <- _]].
have ics : [seq sc_index c | c <- cs] = [seq s.1 | s <- signers] by rw -!map_comp.
have [|pkg E] := proj2 (SigningPackage_newP msg cs).
  case/and3P: vi; rw !size_map ics -size_eq0 size_map => -> -> _; rw andbT !all_map.
  by apply/allP => s /i0/andP[]; rw /= -lt0n.
have [okp mp pp] := SigningPackage_new_ok E; have [pk comE] := package_signers E; rw ics in pk; rw E.
have ip s : s \in signers -> s.1 \in signer_indices pkg by move=> ss; rw (perm_mem pk) map_f.
have ps : u32_signers pkg by rw /u32_signers (perm_all _ pk) all_map; apply/allP => s /i0/andP[].
have nk : num_signers pkg = size signers by move/perm_size: pk; rw !size_map.
pose sh s := mkSignatureShare s.1 (response pkg (r s).1 s.1 f.[from_u32 s.1] Y).
rw zip_map_r traverse_map (traverse_ok (g := sh)) => [s ss|]; first by rw signE ?ip.
have points s : s \in signers -> ss_response (sh s) *: G = share_point pkg Y s.1 (f.[from_u32 s.1] *: G).
  have rs : (r s).2 \in cs -> com pkg s.1 = (r s).2 := comE (r s).2.
  have cr : s \in signers -> (r s).2 \in cs by rw /cs -map_comp; apply: (map_f (snd \o r)).
  by move=> ss; apply: (response_point (n := (r s).1)); rw rs ?cr.
exists (mkSignature (group_commitment pkg) (\sum_(s <- [seq sh s | s <- signers]) ss_response s)).
  case: vs vsok => [v|] vok; last by rw unchecked_shares size_map nk leqnn.
  apply/(aggregate_check _ _ _ _ okp ps); split=> //; first by rw size_map nk.
  apply/check_sharesP; rw all_map; apply/allP => s ss.
  by rw /= /share_ok /= ip // (vok v erefl) ?map_f // points // eqxx.
rw -mp; apply: points_sign => //; first by rw nk.
  by rw -map_comp perm_sym.
by rw all_map; apply/allP => s ss; rw /= points.
Qed.

(** C25.  Honest signers sign: whatever nonces enough distinct shareholders of a key
    draw, the session ends in a signature that verifies under the key, also when
    the aggregator checks the shares against the right public shares. *)
Theorem honest_session_signs f msg (signers : seq (nat * (F * F))) vs :
  valid_indices [seq s.1 | s <- signers] -> (size f <= size signers)%N ->
  (forall v, vs = Some v -> {in [seq s.1 | s <- signers], forall i, bt_get i v = Some (f.[from_u32 i] *: G)}) ->
  exists2 sig, session (fun i => f.[from_u32 i]) msg signers (f.[0] *: G) vs = Ok sig & verify_signature (f.[0] *: G) msg sig.
Proof. exact: honest_session. Qed.

(** The check does not count signers: repeating a share that passes, in a list
    that aggregates to a valid signature, still passes, and the signature returned
    is not valid. *)
Lemma repeated_share_spoils msg cs p s ss Y vs sig :
  SigningPackage_new msg cs = Ok p -> u32_signers p ->
  aggregate p (s :: ss) Y (Some vs) = Ok sig -> verify_signature Y msg sig -> ss_response s != 0 ->
  exists2 sig', aggregate p [:: s, s & ss] Y (Some vs) = Ok sig' & ~~ verify_signature Y msg sig'.
Proof.
move=> /SigningPackage_new_ok[okp _ _] ps A V s0.
have /(aggregate_check _ _ _ _ okp ps)[ls /check_sharesP /= /andP[sok ssok] E] := A.
exists (mkSignature (group_commitment p) (\sum_(x <- [:: s, s & ss]) ss_response x)).
  apply/(aggregate_check _ _ _ _ okp ps); split=> //; first exact: leqW.
  by apply/check_sharesP; rw /= sok ssok.
move: V; rw E /verify_signature /= => /eqP <-.
rw [X in X *: _ == _]big_cons scalerDl -subr_eq0 addrK scaler_eq0.
by rw (negbTE s0) (negbTE generator_neq0).
Qed.

(** [sign] computes the response [compute_response] documents. *)
Lemma sign_compute_response p n i x Y :
  response p n i x Y = compute_response n (binding_factor p i) (lam p i) (sig_challenge p Y) x.
Proof. by rw /response /compute_response mulrA. Qed.
End signatures.

(** * Encodings *)

Section encodings.
Context {F : fieldType} {P : lmodType F} {C : Curve P} {K : @CurveCodec F P C}.

Lemma commitments_roundtrip (c : @SigningCommitments F P) :
  (0 < sc_index c < 2 ^ 32)%N -> commitments_from_bytes (commitments_to_bytes c) = Ok c.
Proof.
case: c => i d e /andP[i0 li]; rw /commitments_from_bytes /commitments_to_bytes.
rw (slice_l _ (size_to_le_bytes 4 i)) u32_bytesK // -lt0n i0.
rw (slice_r 0 32 _ (size_to_le_bytes 4 i)) (slice_l _ (size_compress d)) compressK.
rw (slice_r 32 64 _ (size_to_le_bytes 4 i)) (slice_r 0 32 _ (size_compress d)).
by rw (slice_all (size_compress e)) compressK.
Qed.

Lemma share_roundtrip (s : @SignatureShare F) :
  (0 < ss_index s < 2 ^ 32)%N -> share_from_bytes (share_to_bytes s) = Ok s.
Proof.
case: s => i z /andP[i0 li]; rw /share_from_bytes /share_to_bytes.
rw (slice_l _ (size_to_le_bytes 4 i)) u32_bytesK // -lt0n i0.
by rw (slice_r 0 32 _ (size_to_le_bytes 4 i)) (slice_all (size_scalar_to_bytes z)) scalar_to_bytesK.
Qed.

Lemma signature_roundtrip (s : @Signature F P) : signature_from_bytes (signature_to_bytes s) = Ok s.
Proof.
case: s => r z; rw /signature_from_bytes /signature_to_bytes (slice_l _ (size_compress r)) compressK.
by rw (slice_r 0 32 _ (size_compress r)) (slice_all (size_scalar_to_bytes z)) scalar_to_bytesK.
Qed.
End encodings.

(** * Witnesses *)

Section witnesses.
Import Demo.
#[local] Existing Instance frost_suite.
Local Abbreviation u := (@from_u32 Q).
Local Abbreviation G := (@generator Q QP rat_curve).

Definition demo_x (i : nat) : Q := i%:R + 7%:R.
Definition demo_key : QP := 7%:R *: G.
Definition demo_signers : seq (nat * (Q * Q)) := [:: (3, (2%:R, 5%:R)); (1, (4%:R, 9%:R))]%N.
Definition demo_commitments : seq (@SigningCommitments Q QP) :=
  [seq mkSigningCommitments s.1 (s.2.1 *: G) (s.2.2 *: G) | s <- demo_signers].
Definition demo_package : @SigningPackage Q QP :=
  force (mkSigningPackage [::] [::] [::]) (SigningPackage_new demo_payload demo_commitments).
Definition demo_shares : seq (@SignatureShare Q) :=
  [seq force (mkSignatureShare 0 0)
         (sign demo_package (mkNonces s.2.1 s.2.2) (mkSecretShare s.1 (demo_x s.1)) demo_key)
  | s <- demo_signers].
Definition demo_vs : btree QP := [:: (1%N, demo_x 1 *: G); (3%N, demo_x 3 *: G)].
Definition demo_signature : @Signature Q QP :=
  force (mkSignature 0 0) (aggregate demo_package demo_shares demo_key (Some demo_vs)).

Lemma demo_poly_at i : demo_poly.[u i] = demo_x i.
Proof. by rw hornerD hornerX hornerC. Qed.

Lemma demo_poly_at0 : demo_poly.[0] *: G = demo_key.
Proof. by rw hornerD hornerX hornerC add0r. Qed.

Lemma demo_new : SigningPackage_new demo_payload demo_commitments = Ok demo_package.
Proof. by apply: forceK; vm_compute. Qed.

Lemma demo_aggregate :
  aggregate demo_package demo_shares demo_key (Some demo_vs) = Ok demo_signature.
Proof. by apply: forceK; vm_compute. Qed.

Lemma package_canonical_witness :
  package_ok demo_package /\ SigningPackage_new demo_payload (rev demo_commitments) = Ok demo_package.
Proof.
have [okp H] := package_canonical demo_new; split=> //.
Defined.

Lemma checked_shares_sign_witness :
  verify_signature (demo_poly.[0] *: G) demo_payload demo_signature.
Proof.
apply: (@checked_shares_sign _ _ _ _ _ demo_poly demo_payload demo_commitments demo_package demo_shares demo_vs).
- exact: demo_new.
- by [].
- by rw size_XaddC.
- by move=> i; rw demo_poly_at !inE => /orP[] /eqP ->.
- by vm_compute.
- by rw demo_poly_at0 demo_aggregate.
Defined.

Lemma honest_session_signs_witness :
  exists2 sig, session (fun i => demo_poly.[u i]) demo_payload demo_signers (demo_poly.[0] *: G) (Some demo_vs) = Ok sig
             & verify_signature (demo_poly.[0] *: G) demo_payload sig.
Proof.
apply: honest_session_signs => //; first by rw size_XaddC.
by move=> _ [<-] i; rw demo_poly_at !inE => /orP[] /eqP ->.
Defined.

Lemma repeated_share_spoils_witness :
  exists2 sig, aggregate demo_package (head (mkSignatureShare 0 0) demo_shares :: demo_shares) demo_key (Some demo_vs) = Ok sig
             & ~~ verify_signature demo_key demo_payload sig.
Proof.
apply: (repeated_share_spoils (ss := behead demo_shares) demo_new _ demo_aggregate).
- by [].
- by vm_compute.
- by vm_compute.
Defined.
End witnesses.
