(* ===== verification/Reshare.v ===== *)
(** Verifiable sub-shares and resharing, [crates/osst/src/reshare.rs]: dealers
    commit to polynomials and deal evaluations of them, players check and combine
    what they receive.

    A resharing keeps the key for players who combine the same dealers, whatever
    the order; players who combine different ones do not hold shares of one
    polynomial.  What a dealer draws at random is an argument. *)
From Stdlib Require Import Init.Byte.
From mathcomp Require Import ssreflect ssrfun ssrbool eqtype ssrnat seq path div choice fintype bigop ssralg poly.
From mathcomp Require Import ssrnum ssrint rat.
From S2P Require Import OsstCurve Osst.

Set Implicit Arguments.
Unset Strict Implicit.
Unset Printing Implicit Defensive.

Import GRing.Theory.
Local Open Scope ring_scope.

(** * Dealers *)

Section dealing.
Context {F : fieldType} {P : lmodType F} {C : Curve P}.
Local Abbreviation G := (@generator F P C).
Local Abbreviation from_u32 := (@from_u32 F).

Record DealerCommitment := mkDealerCommitment { dealer_index : nat; coefficients : seq P }.

Definition from_polynomial (dealer_index : nat) (coefficients : seq F) : result DealerCommitment :=
  ensure! (0 < dealer_index)%N else Panic ;;
  ensure! size coefficients != 0%N else Panic ;;
  Ok (mkDealerCommitment dealer_index [seq a *: G | a <- coefficients]).

Definition threshold (c : DealerCommitment) : nat := size (coefficients c).

(** [&self.coefficients[0]] *)
Definition share_commitment (c : DealerCommitment) : result P :=
  if coefficients c is c0 :: _ then Ok c0 else Err Panic.

Definition evaluate_at (c : DealerCommitment) (player_index : nat) : result P :=
  ensure! (0 < player_index)%N else Panic ;;
  let j := from_u32 player_index in
  Ok (foldl (fun result coeff => j *: result + coeff) 0 (rev (coefficients c))).

Definition verify_subshare (c : DealerCommitment) (player_index : nat) (sub_share : F) : bool :=
  if player_index == 0%N then false
  else
    let expected := evaluate_at c player_index in
    let actual := sub_share *: G in
    if expected is Ok e then actual == e else false.

Definition DealerCommitment_to_bytes (c : DealerCommitment) : bytes :=
  to_le_bytes 4 (dealer_index c) ++ flatten [seq compress p | p <- coefficients c].

(** The loop of [from_bytes] over the coefficients. *)
Fixpoint parse_points (n offset : nat) (s : bytes) : result (seq P) :=
  match n with
  | 0%N => Ok [::]
  | m.+1 =>
      match decompress (slice offset (offset + 32) s) with
      | None => Err InvalidCommitment
      | Some point => let? points := parse_points m (offset + 32) s in Ok (point :: points)
      end
  end.

Definition DealerCommitment_from_bytes (s : bytes) (threshold : nat) : result DealerCommitment :=
  let expected_len := (4 + threshold * 32)%N in
  ensure! size s == expected_len else InvalidCommitment ;;
  let dealer_index := from_le_bytes (slice 0 4 s) in
  ensure! dealer_index != 0%N else InvalidIndex ;;
  let? coefficients := parse_points threshold 4 s in
  Ok (mkDealerCommitment dealer_index coefficients).

Record SubShare := mkSubShare { sub_dealer : nat; sub_player : nat; value : F }.

Definition SubShare_new (dealer_index player_index : nat) (value : F) : result SubShare :=
  ensure! (0 < dealer_index)%N else Panic ;;
  ensure! (0 < player_index)%N else Panic ;;
  Ok (mkSubShare dealer_index player_index value).

Definition SubShare_to_bytes (s : SubShare) : bytes :=
  to_le_bytes 4 (sub_dealer s) ++ to_le_bytes 4 (sub_player s) ++ scalar_to_bytes (value s).

Definition SubShare_from_bytes (s : bytes) : result SubShare :=
  let dealer_index := from_le_bytes (slice 0 4 s) in
  let player_index := from_le_bytes (slice 4 8 s) in
  ensure! (dealer_index != 0%N) && (player_index != 0%N) else InvalidIndex ;;
  match from_canonical_bytes (slice 8 40 s) with
  | None => Err InvalidResponse
  | Some value => Ok (mkSubShare dealer_index player_index value)
  end.

Record Dealer := mkDealer { d_index : nat; polynomial : seq F; commitment : DealerCommitment }.

(** The [i]-th coefficient drawn is [draw i]. *)
Definition Dealer_new (index : nat) (share : F) (new_threshold : nat) (draw : nat -> F) : result Dealer :=
  ensure! (0 < index)%N else Panic ;;
  ensure! (0 < new_threshold)%N else Panic ;;
  let polynomial := share :: [seq draw i | i <- iota 1 (new_threshold - 1)] in
  let? commitment := from_polynomial index polynomial in
  Ok (mkDealer index polynomial commitment).

Definition generate_subshare (d : Dealer) (player_index : nat) : result SubShare :=
  ensure! (0 < player_index)%N else Panic ;;
  let j := from_u32 player_index in
  let res := foldl (fun result coeff => result * j + coeff) 0 (rev (polynomial d)) in
  SubShare_new (d_index d) player_index res.

Definition generate_subshares (d : Dealer) (num_players : nat) : result (seq SubShare) :=
  traverse (generate_subshare d) (iota 1 num_players).

(** * Players *)

Record Aggregator := mkAggregator {
  player_index : nat;
  subshares : seq (nat * F);
  commitments : seq DealerCommitment;
}.

Definition Aggregator_new (player_index : nat) : result Aggregator :=
  ensure! (0 < player_index)%N else Panic ;; Ok (mkAggregator player_index [::] [::]).

Definition has_threshold (a : Aggregator) (old_threshold : nat) : bool :=
  (old_threshold <= size (subshares a))%N.

Definition add_subshare (a : Aggregator) (s : SubShare) (c : DealerCommitment) : result (bool * Aggregator) :=
  ensure! sub_player s == player_index a else InvalidIndex ;;
  ensure! sub_dealer s == dealer_index c else InvalidIndex ;;
  ensure! sub_dealer s != 0%N else InvalidIndex ;;
  if has (fun x => x.1 == sub_dealer s) (subshares a) then Ok (false, a)
  else
    ensure! verify_subshare c (player_index a) (value s) else InvalidResponse ;;
    Ok (true, mkAggregator (player_index a) (rcons (subshares a) (sub_dealer s, value s))
                (rcons (commitments a) c)).

(** The invalid and the duplicate ones are skipped. *)
Definition add_subshares_batch (a : Aggregator) (ss : seq SubShare) (cs : seq DealerCommitment)
  : nat * Aggregator :=
  foldl (fun na sc =>
           match add_subshare na.2 sc.1 sc.2 with
           | Ok (true, a') => (na.1.+1, a')
           | _ => na
           end) (0%N, a) (zip ss cs).

Definition aggregate (a : Aggregator) (old_threshold : nat) : result F :=
  ensure! has_threshold a old_threshold
    else InsufficientContributions (size (subshares a)) old_threshold ;;
  let? lagrange := compute_lagrange_coefficients (keys (subshares a)) in
  Ok (foldl (fun acc sl => acc + sl.2 * sl.1.2) 0 (zip (subshares a) lagrange)).

(** The sum of the constant terms' commitments, weighted. *)
Definition combine_constants (cs : seq DealerCommitment) (lagrange : seq F) : result P :=
  foldl (fun acc cl => (let? key := acc in let? c0 := share_commitment cl.1 in Ok (key + cl.2 *: c0)))
    (Ok 0) (zip cs lagrange).

Definition derive_group_key (a : Aggregator) (old_threshold : nat) : result P :=
  ensure! has_threshold a old_threshold
    else InsufficientContributions (size (commitments a)) old_threshold ;;
  let? lagrange := compute_lagrange_coefficients [seq dealer_index c | c <- commitments a] in
  combine_constants (commitments a) lagrange.

Definition finalize (a : Aggregator) (old_threshold : nat) (expected_group_key : P) : result F :=
  let? derived_key := derive_group_key a old_threshold in
  ensure! derived_key == expected_group_key else InvalidCommitment ;;
  aggregate a old_threshold.

(** * The round on chain *)

Record ReshareState := mkReshareState {
  target_epoch : nat;
  old_threshold : nat;
  new_threshold : nat;
  new_player_count : nat;
  rs_commitments : seq (option DealerCommitment);
  group_key : P;
}.

Definition ReshareState_new (target_epoch old_dealer_count old_threshold new_threshold
    new_player_count : nat) (group_key : P) : ReshareState :=
  mkReshareState target_epoch old_threshold new_threshold new_player_count
    (nseq old_dealer_count None) group_key.

(** [submit_commitment] on the slots and the threshold, for this round and for [dkg.rs]. *)
Definition submit_slot (slots : seq (option DealerCommitment)) (t : nat) (c : DealerCommitment)
  : result (bool * seq (option DealerCommitment)) :=
  ensure! dealer_index c != 0%N else InvalidIndex ;;
  let idx := (dealer_index c - 1)%N in
  ensure! (idx < size slots)%N else InvalidIndex ;;
  ensure! threshold c == t else InvalidCommitment ;;
  if isSome (nth None slots idx) then Ok (false, slots)
  else Ok (true, set_nth None slots idx (Some c)).

Definition submit_commitment (st : ReshareState) (c : DealerCommitment) : result (bool * ReshareState) :=
  let? (fresh, slots) := submit_slot (rs_commitments st) (new_threshold st) c in
  Ok (fresh, mkReshareState (target_epoch st) (old_threshold st) (new_threshold st)
               (new_player_count st) slots (group_key st)).

Definition commitment_count (st : ReshareState) : nat := count isSome (rs_commitments st).
Definition has_quorum (st : ReshareState) : bool := (old_threshold st <= commitment_count st)%N.
Definition get_commitments (st : ReshareState) : seq DealerCommitment := pmap id (rs_commitments st).

Definition verify_group_key (st : ReshareState) : result bool :=
  ensure! has_quorum st else InsufficientContributions (commitment_count st) (old_threshold st) ;;
  let cs := get_commitments st in
  let? lagrange := compute_lagrange_coefficients [seq dealer_index c | c <- cs] in
  let? derived_key := combine_constants cs lagrange in
  Ok (derived_key == group_key st).

(** The weights are drawn. *)
Definition batch_verify_subshares (player_index : nat) (subshares : seq SubShare)
    (commitments : seq DealerCommitment) (draw : nat -> F) : result bool :=
  if (size subshares != size commitments) || (size subshares == 0%N) then Ok false
  else
    let weights := [seq draw i | i <- iota 0 (size subshares)] in
    if ~~ all (fun s => sub_player s == player_index) subshares then Ok false
    else
      let lhs := foldl (fun acc sw => acc + sw.2 * value sw.1) 0 (zip subshares weights) *: G in
      let? rhs := foldl (fun acc cw => (let? r := acc in let? eval := evaluate_at cw.1 player_index in
                                        Ok (r + cw.2 *: eval)))
                    (Ok 0) (zip commitments weights) in
      Ok (lhs == rhs).
End dealing.

(** * Commitments and evaluations *)

Section commitments.
Context {F : fieldType} {P : lmodType F} {C : Curve P} {L : @CurveLaws F P C}.
Local Abbreviation G := (@generator F P C).
Local Abbreviation from_u32 := (@from_u32 F).
Local Abbreviation DealerCommitment := (@DealerCommitment F P).
Implicit Types (s : seq F).

(** The combination of a commitment's points by the powers of [x]. *)
Definition points_at (cs : seq P) (x : F) : P := foldl (fun r c => x *: r + c) 0 (rev cs).

Definition committed (s : seq F) : seq P := [seq a *: G | a <- s].

Lemma foldl_horner s x : foldl (fun r c => r * x + c) 0 (rev s) = (Poly s).[x].
Proof. by rw foldl_rev horner_Poly; elim: s => //= a s ->. Qed.

Lemma points_at_committed s x : points_at (committed s) x = (Poly s).[x] *: G.
Proof.
rw /points_at foldl_rev horner_Poly; elim: s => [|a s IH] /=; first by rw scale0r.
by rw IH scalerDl scalerA mulrC.
Qed.

Lemma evaluate_atE (c : DealerCommitment) j : (0 < j)%N -> evaluate_at c j = Ok (points_at (coefficients c) (from_u32 j)).
Proof. by move=> j0; rw /evaluate_at j0. Qed.

Lemma verify_subshareE (c : DealerCommitment) j x :
  verify_subshare c j x = (0 < j)%N && (x *: G == points_at (coefficients c) (from_u32 j)).
Proof. by rw /verify_subshare; case: j => // j; rw evaluate_atE. Qed.

Lemma scale_gen_inj : injective (fun x : F => x *: G).
Proof.
move=> x y /eqP; rw -subr_eq0 -scalerBl scaler_eq0 (negbTE generator_neq0) orbF subr_eq0.
by move/eqP.
Qed.

(** A sub-share is accepted exactly when it is the evaluation: against the
    commitment to a polynomial, the check passes for a positive player index and
    the polynomial's value there, and for nothing else. *)
Lemma verify_subshare_exact i s c j x :
  from_polynomial i s = Ok c -> verify_subshare c j x = (0 < j)%N && (x == (Poly s).[from_u32 j]).
Proof.
rw /from_polynomial; case: ifP => // _; case: ifP => // _ [<-]; rw verify_subshareE /=.
by rw points_at_committed (inj_eq scale_gen_inj).
Qed.

(** What a dealer deals. *)
Definition dealt (x : F) (t : nat) (draw : nat -> F) : seq F := x :: [seq draw i | i <- iota 1 (t - 1)].

Lemma Dealer_newE i x t draw :
  (0 < i)%N -> (0 < t)%N ->
  Dealer_new i x t draw
  = Ok (mkDealer i (dealt x t draw) (mkDealerCommitment i (committed (dealt x t draw)))).
Proof. by move=> i0 t0; rw /Dealer_new i0 t0 /from_polynomial i0. Qed.

Lemma dealt_0 x t draw : (Poly (dealt x t draw)).[0] = x.
Proof. by rw horner_Poly /= mulr0 add0r. Qed.

Lemma size_dealt x t draw : (0 < t)%N -> (size (Poly (dealt x t draw)) <= t)%N.
Proof. by move=> t0; rw (leq_trans (size_Poly _)) //= size_map size_iota subn1 prednK. Qed.

Lemma generate_subshareE (d : @Dealer F P) j :
  (0 < d_index d)%N -> (0 < j)%N ->
  generate_subshare d j = Ok (mkSubShare (d_index d) j (Poly (polynomial d)).[from_u32 j]).
Proof. by move=> i0 j0; rw /generate_subshare j0 foldl_horner /SubShare_new i0 j0. Qed.
End commitments.

(** * What a player holds *)

Section players.
Context {F : fieldType} {P : lmodType F} {C : Curve P} {L : @CurveLaws F P C}.
Local Abbreviation G := (@generator F P C).
Local Abbreviation from_u32 := (@from_u32 F).
Local Abbreviation DealerCommitment := (@DealerCommitment F P).
Implicit Types (a : @Aggregator F P).

(** The players reached by [add_subshare]. *)
Inductive reachable (j : nat) : Aggregator -> Prop :=
| reach_new a : Aggregator_new j = Ok a -> reachable j a
| reach_add a s c b a' : reachable j a -> add_subshare a s c = Ok (b, a') -> reachable j a'.

(** Each sub-share passed the check against the commitment it came with, and no
    dealer counts twice. *)
Record player_ok (j : nat) a : Prop := {
  ok_player : player_index a = j;
  ok_positive : (0 < j)%N;
  ok_keys : keys (subshares a) = [seq dealer_index c | c <- commitments a];
  ok_uniq : uniq (keys (subshares a));
  ok_dealers : all (fun i => i != 0%N) (keys (subshares a));
  ok_checked : [seq x.2 *: G | x <- subshares a]
               = [seq points_at (coefficients c) (from_u32 j) | c <- commitments a];
}.

Lemma add_subshare_ok j a s c b a' :
  player_ok j a -> add_subshare a s c = Ok (b, a') -> player_ok j a'.
Proof.
case=> <- j0 ks us ds ck; rw /add_subshare; case: ifP => // _; case: ifP => // /eqP Ed.
case: ifP => // d0; case: ifP => [_ [_ <-] //|fresh]; case: ifP => // + [_ <-].
rw verify_subshareE => /andP[_ /eqP V]; split=> //=; rw /keys /= ?map_rcons.
- by rw -[map fst _]/(keys _) ks Ed.
- rw rcons_uniq us andbT -has_pred1 has_map; apply: contraFN fresh.
  by move=> H; apply: sub_has H => x /=.
- by rw all_rcons d0.
- by rw ck V.
Qed.

Lemma add_subshare_fresh j a i (s : seq F) :
  player_index a = j -> (0 < j)%N -> (0 < i)%N -> i \notin keys (subshares a) ->
  add_subshare a (mkSubShare i j (Poly s).[from_u32 j]) (mkDealerCommitment i (committed s))
  = Ok (true, mkAggregator j (rcons (subshares a) (i, (Poly s).[from_u32 j]))
                (rcons (commitments a) (mkDealerCommitment i (committed s)))).
Proof.
move=> <- j0 i0 ia; rw /add_subshare !eqxx -lt0n i0 [sub_dealer _]/= [value _]/=.
rw (_ : has _ _ = false); last by rw verify_subshareE j0 points_at_committed eqxx.
by apply: contraNF ia => /hasP[x xa /eqP <-]; apply: map_f.
Qed.

Lemma reachable_ok j a : reachable j a -> player_ok j a.
Proof.
elim=> [{}a|{}a s c b a' _ IH E]; last exact: add_subshare_ok IH E.
by rw /Aggregator_new; case: ifP => // j0 [<-]; split.
Qed.

(** The dealers' weights. *)
Definition weight_of a (i : nat) : F := lagrange [seq from_u32 k | k <- keys (subshares a)] (from_u32 i).
Definition u32_dealers a : bool := all (fun i => i < 2 ^ 32)%N (keys (subshares a)).

Lemma player_valid j a : player_ok j a -> u32_dealers a -> subshares a <> [::] -> valid_indices (keys (subshares a)).
Proof.
case=> _ _ _ us ds _ ua a0; rw /valid_indices us; apply/andP; split; first by case: (subshares a) a0.
apply/allP => i ia; rw (allP ua i ia) andbT lt0n; exact: (allP ds i ia).
Qed.

Lemma combine_constantsE (cs : seq DealerCommitment) (g : nat -> F) y :
  combine_constants cs [seq g (dealer_index c) | c <- cs] = Ok y
  <-> all (fun c => size (coefficients c) != 0%N) cs
      /\ y = \sum_(c <- cs) g (dealer_index c) *: points_at (coefficients c) 0.
Proof.
have p0 (c0 : P) ps : points_at (c0 :: ps) 0 = c0.
  by rw /points_at foldl_rev /= scale0r add0r.
rw /combine_constants zip_map_r.
suff H acc : foldl (fun acc cl => (let? key := acc in let? c0 := share_commitment cl.1 in Ok (key + cl.2 *: c0)))
    (Ok acc) [seq (c, g (dealer_index c)) | c <- cs] = Ok y
  <-> all (fun c => size (coefficients c) != 0%N) cs
      /\ y = acc + \sum_(c <- cs) g (dealer_index c) *: points_at (coefficients c) 0.
  by rw H add0r.
have err (l : seq (DealerCommitment * F)) e :
    foldl (fun acc cl => (let? key := acc in let? c0 := share_commitment cl.1 in Ok (key + cl.2 *: c0)))
    (Err e) l = Err e by elim: l.
elim: cs acc => [|c cs IH] acc /=; first by rw big_nil addr0; split=> [[<-]|[_ ->]].
rw big_cons /share_commitment; case E: (coefficients c) => [|c0 ps] /=; first by rw err; split=> // -[].
by rw IH p0 addrA.
Qed.

Lemma size_commitments j a : player_ok j a -> size (commitments a) = size (subshares a).
Proof. by move/ok_keys/(congr1 size); rw !size_map. Qed.

Lemma aggregateE j a t :
  player_ok j a -> valid_indices (keys (subshares a)) -> (t <= size (subshares a))%N ->
  aggregate a t = Ok (\sum_(x <- subshares a) weight_of a x.1 * x.2).
Proof.
move=> ok va ta; rw /aggregate /has_threshold ta compute_lagrangeE //; congr Ok.
by rw -map_comp zip_map_r foldl_add add0r big_map.
Qed.

Lemma derive_group_keyE j a t y :
  player_ok j a -> valid_indices (keys (subshares a)) -> (t <= size (subshares a))%N ->
  derive_group_key a t = Ok y
  <-> all (fun c => size (coefficients c) != 0%N) (commitments a)
      /\ y = \sum_(c <- commitments a) weight_of a (dealer_index c) *: points_at (coefficients c) 0.
Proof.
move=> ok va ta; rw /derive_group_key /has_threshold ta -(ok_keys ok) compute_lagrangeE //.
by rw {2}(ok_keys ok) -map_comp -/(weight_of a) (combine_constantsE _ (weight_of a)).
Qed.

(** What a player finalizes fits the key: whatever the dealers sent, if [finalize]
    succeeds the new share commits to the value at the player's index, and the
    expected group key is the value at zero, of one combination of the polynomials
    the dealers are committed to. *)
Lemma finalize_sound j a t Y x :
  reachable j a -> u32_dealers a -> finalize a t Y = Ok x ->
  [/\ (t <= size (subshares a))%N,
      x *: G = \sum_(c <- commitments a) weight_of a (dealer_index c) *: points_at (coefficients c) (from_u32 j)
    & Y = \sum_(c <- commitments a) weight_of a (dealer_index c) *: points_at (coefficients c) 0].
Proof.
move=> /reachable_ok ok ua; rw /finalize; case E: derive_group_key => [y|//]; case: eqP => // Ey A.
have ta : (t <= size (subshares a))%N by move: A; rw /aggregate /has_threshold; case: ifP.
have va : valid_indices (keys (subshares a)).
  apply: (player_valid ok ua) => a0.
  by move: A; rw /aggregate /has_threshold a0; case: ifP.
split=> //; last by rw -Ey; have [_ ->] := proj1 (derive_group_keyE _ ok va ta) E.
move: A; rw (aggregateE ok va ta) => -[<-]; rw scaler_suml.
transitivity (\sum_(x <- subshares a) weight_of a x.1 *: (x.2 *: G)).
  by apply: eq_bigr => z _; rw scalerA.
have Ez : zip (keys (subshares a)) [seq z.2 *: G | z <- subshares a]
        = zip [seq dealer_index c | c <- commitments a]
              [seq points_at (coefficients c) (from_u32 j) | c <- commitments a].
  by rw (ok_keys ok) (ok_checked ok).
have := congr1 (fun z => \sum_(ip <- z) weight_of a ip.1 *: ip.2) Ez.
by rw !zip_map !big_map.
Qed.
End players.

(** * A resharing between honest dealers *)

Section resharing.
Context {F : fieldType} {P : lmodType F} {C : Curve P} {L : @CurveLaws F P C}.
Local Abbreviation G := (@generator F P C).
Local Abbreviation from_u32 := (@from_u32 F).

(** The old key, the new threshold, what each dealer draws. *)
Variables (f : {poly F}) (t' : nat) (draws : nat -> nat -> F).
Hypothesis t'_gt0 : (0 < t')%N.

(** Player [j] receives the sub-share of dealer [i], who holds a share of the old key. *)
Definition deliver (j : nat) (a : @Aggregator F P) (i : nat) : result Aggregator :=
  let? d := Dealer_new i f.[from_u32 i] t' (draws i) in
  let? sub := generate_subshare d j in
  let? (_, a') := add_subshare a sub (commitment d) in
  Ok a'.

Definition receive_from (S : seq nat) (j : nat) : result Aggregator :=
  foldl (fun acc i => (let? a := acc in deliver j a i)) (Aggregator_new j) S.

Definition coeffs (i : nat) : seq F := dealt f.[from_u32 i] t' (draws i).

Lemma receive_fromE S j :
  (0 < j)%N -> uniq S -> all (fun i => 0 < i)%N S ->
  receive_from S j
  = Ok (mkAggregator j [seq (i, (Poly (coeffs i)).[from_u32 j]) | i <- S]
          [seq mkDealerCommitment i (committed (coeffs i)) | i <- S]).
Proof.
move=> j0; elim/last_ind: S => [|S i IH]; first by rw /receive_from /= /Aggregator_new j0.
rw rcons_uniq all_rcons /receive_from foldl_rcons => /andP[iS uS] /andP[i0 /(IH uS)].
rw /receive_from => ->; rw /deliver Dealer_newE // generate_subshareE // -/(coeffs i).
by rw add_subshare_fresh // ?keys_graph // !map_rcons.
Qed.

Lemma receive_reachable S j a : receive_from S j = Ok a -> reachable j a.
Proof.
elim/last_ind: S a => [|S i IH] a; first exact: reach_new.
rw /receive_from foldl_rcons -/(receive_from S j); case: (receive_from S j) IH => [a'|//] /(_ _ erefl) R.
rw /deliver; case: Dealer_new => [d|//]; case: generate_subshare => [s|//].
by case E: add_subshare => [[b a'']|//] [<-]; apply: reach_add R E.
Qed.

(** The polynomial of the new shares. *)
Definition reshared (S : seq nat) : {poly F} :=
  \sum_(i <- S) lagrange [seq from_u32 k | k <- S] (from_u32 i) *: Poly (coeffs i).

Lemma reshared_perm S S' : perm_eq S S' -> reshared S = reshared S'.
Proof.
move=> ps; rw /reshared (perm_big _ ps); apply: eq_bigr => i _.
by rw (lagrange_perm (perm_map _ ps)).
Qed.

Lemma size_reshared S : (size (reshared S) <= t')%N.
Proof.
rw (leq_trans (size_sum _ _ _)) //; apply/bigmax_leqP_seq => i _ _.
by rw (leq_trans (size_scale_leq _ _)) // size_dealt.
Qed.

Lemma reshared_0 S : valid_indices S -> (size f <= size S)%N -> (reshared S).[0] = f.[0].
Proof.
move=> vS fS; rw -(shares_interpolate vS fS) horner_sum; apply: eq_bigr => i _.
by rw hornerZ dealt_0.
Qed.

Lemma receive_finalize S j t :
  valid_indices S -> (size f <= t)%N -> (t <= size S)%N -> (0 < j)%N ->
  exists2 a, receive_from S j = Ok a & finalize a t (f.[0] *: G) = Ok (reshared S).[from_u32 j].
Proof.
move=> vS ft tS j0; case/and3P: (vS) => S0 uS rS.
have aS : all (fun i => 0 < i)%N S by apply: sub_all rS => i /andP[].
rw receive_fromE //; eexists; first by [].
set a := mkAggregator _ _ _; have kS : keys (subshares a) = S by rw keys_graph.
have ok : player_ok j a.
  split=> //; rw ?kS -?map_comp ?map_id //; first by apply: sub_all aS => i; rw lt0n.
  by apply: eq_map => i; apply/esym; apply: points_at_committed.
have wE i : weight_of a i = lagrange [seq from_u32 k | k <- S] (from_u32 i) by rw /weight_of kS.
have sa : size (subshares a) = size S by rw size_map.
have -> : finalize a t (f.[0] *: G) = aggregate a t.
  suff E : derive_group_key a t = Ok (f.[0] *: G) by rw /finalize E eqxx.
  apply/(derive_group_keyE _ ok); rw ?kS ?sa //; split; first by rw all_map; apply/allP.
  rw big_map -(reshared_0 vS (leq_trans ft tS)) /reshared horner_sum scaler_suml.
  by apply: eq_bigr => i _; rw wE points_at_committed hornerZ scalerA.
rw (aggregateE ok) ?kS ?sa // big_map /reshared horner_sum; congr Ok.
by apply: eq_bigr => i _; rw wE hornerZ.
Qed.

(** C30.  A resharing keeps the key: a quorum of honest dealers gives every player who
    combines them, in any order, a share of one polynomial of the new threshold
    whose secret is the old one, and the player's check of the group key passes. *)
Theorem reshare_keeps_key S t :
  valid_indices S -> (size f <= t)%N -> (t <= size S)%N ->
  exists h : {poly F}, [/\ (size h <= t')%N, h.[0] = f.[0]
    & forall S' j, perm_eq S S' -> (0 < j)%N ->
        exists2 a, receive_from S' j = Ok a & finalize a t (f.[0] *: G) = Ok h.[from_u32 j]].
Proof.
move=> vS ft tS; exists (reshared S); split; first exact: size_reshared.
  exact: reshared_0 vS (leq_trans ft tS).
move=> S' j pS j0; rw (reshared_perm pS); apply: receive_finalize => //; last by rw -(perm_size pS).
case/and3P: vS => S0 uS rS; rw /valid_indices -(perm_uniq pS) uS -(perm_all _ pS) rS.
by rw -size_eq0 -(perm_size pS) size_eq0 S0.
Qed.
End resharing.

(** * The batch check *)

Section batch.
Context {F : fieldType} {P : lmodType F} {C : Curve P} {L : @CurveLaws F P C}.
Local Abbreviation G := (@generator F P C).
Local Abbreviation from_u32 := (@from_u32 F).

Lemma batch_sumE j (cws : seq (@DealerCommitment F P * F)) acc :
  (0 < j)%N ->
  foldl (fun acc cw => (let? r := acc in let? eval := evaluate_at cw.1 j in Ok (r + cw.2 *: eval)))
    (Ok acc) cws
  = Ok (acc + \sum_(cw <- cws) cw.2 *: points_at (coefficients cw.1) (from_u32 j)).
Proof.
move=> j0; elim: cws acc => [|cw cws IH] acc /=; first by rw big_nil addr0.
by rw evaluate_atE // IH big_cons addrA.
Qed.

Lemma batch_verifyE j subs cs (draw : nat -> F) :
  (0 < j)%N -> size subs = size cs -> size subs != 0%N -> all (fun s => sub_player s == j) subs ->
  batch_verify_subshares j subs cs draw
  = Ok (\sum_(sw <- zip subs [seq draw i | i <- iota 0 (size subs)]) sw.2 *: (value sw.1 *: G)
        == \sum_(cw <- zip cs [seq draw i | i <- iota 0 (size subs)])
             cw.2 *: points_at (coefficients cw.1) (from_u32 j)).
Proof.
move=> j0 sz s0 sj; rw /batch_verify_subshares sz eqxx -sz (negbTE s0) sj /= batch_sumE //.
rw add0r foldl_add add0r scaler_suml; congr (Ok (_ == _)).
by apply: eq_bigr => sw _; rw scalerA.
Qed.

(** The batch check accepts what the single checks accept, whatever the weights. *)
Lemma batch_complete j subs cs (draw : nat -> F) :
  (0 < j)%N -> size subs = size cs -> size subs != 0%N -> all (fun s => sub_player s == j) subs ->
  all (fun sc => verify_subshare sc.2 j (value sc.1)) (zip subs cs) ->
  batch_verify_subshares j subs cs draw = Ok true.
Proof.
move=> j0 sz s0 sj ok; rw batch_verifyE //; congr Ok; apply/eqP.
move: (iota 0 (size subs)) sz ok {s0 sj} => w; elim: w subs cs => [|i ks IH] [|s ss] [|c cs] //=; rw ?big_nil //.
case=> sz /andP[+ /(IH _ _ sz) E]; rw verify_subshareE j0 /= => /eqP V.
by rw !big_cons E V.
Qed.
End batch.

(** * Witnesses *)

Section witnesses.
Import Demo.
Local Abbreviation u := (@from_u32 Q).
Local Abbreviation G := (@generator Q QP rat_curve).

(** The key 7 + x; dealer 1 draws 1, the others 0. *)
Definition demo_key : {poly Q} := Poly [:: 7%:R; 1].
Definition demo_draws (i _ : nat) : Q := if i == 1%N then 1 else 0.
Definition demo_player (S : seq nat) (j : nat) : @Aggregator Q QP :=
  force (mkAggregator 0 [::] [::]) (receive_from demo_key 2 demo_draws S j).
Definition demo_share (S : seq nat) (j : nat) : Q := force 0 (finalize (demo_player S j) 2 (7%:R *: G)).

(** What dealer [i] of [S] contributes to the share of player [j]. *)
Definition demo_term (S : seq nat) (j i : nat) : Q :=
  foldr (fun k m => if u k != u i then u k / (u k - u i) * m else m) 1 S
  * (demo_draws i 1 * u j + (u i + 7%:R)).

Lemma demo_reshared S j :
  (reshared demo_key 2 demo_draws S).[u j] = \sum_(i <- S) demo_term S j i.
Proof.
rw /reshared horner_sum; apply: eq_bigr => i _.
rw hornerZ /coeffs /dealt horner_Poly /= mul0r add0r; congr (_ * (_ + _)).
  by rw /lagrange big_map; elim: S => [|k S IH]; rw ?big_nil // big_cons IH.
by rw horner_Poly /= mul0r add0r mul1r.
Qed.

Lemma demo_receive S j :
  valid_indices S -> (2 <= size S)%N -> (0 < j)%N ->
  exists2 a, receive_from demo_key 2 demo_draws S j = Ok a
    & finalize a 2 (demo_key.[0] *: G) = Ok (reshared demo_key 2 demo_draws S).[u j].
Proof. by move=> vS sS j0; apply: receive_finalize => //; apply: size_Poly. Qed.

(** Players who combine different dealers do not share a key.  Of three honest
    dealers of an old 2-of-3 key, player 1 combines the first two and player 2 the
    last two; both checks of the group key pass, but the line through the two new
    shares does not have the old secret at zero. *)
Lemma players_must_agree_on_dealers :
  let f := demo_key in
  exists a1 a2 x1 x2,
    [/\ receive_from f 2 demo_draws [:: 1; 2]%N 1 = Ok a1, finalize a1 2 (f.[0] *: G) = Ok x1,
        receive_from f 2 demo_draws [:: 2; 3]%N 2 = Ok a2, finalize a2 2 (f.[0] *: G) = Ok x2
      & forall h : {poly Q}, (size h <= 2)%N -> h.[u 1] = x1 -> h.[u 2] = x2 -> h.[0] != f.[0]].
Proof.
have [//|//|//|a1 E1 F1] := @demo_receive [:: 1; 2]%N 1.
have [//|//|//|a2 E2 F2] := @demo_receive [:: 2; 3]%N 2.
exists a1, a2, (reshared demo_key 2 demo_draws [:: 1; 2]%N).[u 1], (reshared demo_key 2 demo_draws [:: 2; 3]%N).[u 2].
split=> // h sh h1 h2.
rw -(shares_interpolate (C := rat_curve) (s := [:: 1; 2]%N)) // !big_cons big_nil h1 h2 !demo_reshared.
by rw /lagrange !big_cons !big_nil horner_Poly; vm_compute.
Qed.

Lemma reshare_keeps_key_witness :
  exists h : {poly Q}, [/\ (size h <= 2)%N, h.[0] = demo_key.[0]
    & forall S' j, perm_eq [:: 1; 2; 3]%N S' -> (0 < j)%N ->
        exists2 a, receive_from demo_key 2 demo_draws S' j = Ok a
                 & finalize a 2 (demo_key.[0] *: G) = Ok h.[u j]].
Proof. by apply: reshare_keeps_key => //; apply: size_Poly. Defined.

Lemma verify_subshare_exact_witness :
  @verify_subshare Q QP rat_curve (mkDealerCommitment 1 (committed [:: 7%:R; 1])) 3 10%:R
  = (0 < 3)%N && (10%:R == (Poly [:: 7%:R : Q; 1]).[u 3]).
Proof. by apply: (@verify_subshare_exact _ _ _ rat_laws 1). Defined.

(** Player 1 finalizes with what the first two dealers sent. *)
Lemma finalize_sound_witness :
  exists a x, let G := @generator Q QP rat_curve in
    [/\ (2 <= size (subshares a))%N,
        x *: G = \sum_(c <- commitments a) weight_of a (dealer_index c) *: points_at (coefficients c) (u 1)
      & demo_key.[0] *: G
        = \sum_(c <- commitments a) weight_of a (dealer_index c) *: points_at (coefficients c) 0].
Proof.
have [//|//|//|a E Fz] := @demo_receive [:: 1; 2]%N 1.
exists a, (reshared demo_key 2 demo_draws [:: 1; 2]%N).[u 1].
apply: (finalize_sound (j := 1) _ _ Fz); last by move: E; rw receive_fromE // => -[<-].
exact: receive_reachable E.
Defined.
End witnesses.
