(* ===== verification/Liveness.v ===== *)
(** Liveness proofs of custodians, [crates/osst/src/liveness.rs]: a dealer's commitment to a
    resharing ([Reshare.v]) bound by a Schnorr signature to a proof that the dealer has checked
    a recent block.

    The proof system is the trait [LivenessVerifier], here a record of its three methods; the
    nonce of a signature is an argument of [sign].  Heights and times are [u64]s as [nat]s. *)
From Stdlib Require Import Init.Byte.
From mathcomp Require Import ssreflect ssrfun ssrbool eqtype ssrnat seq path div choice fintype bigop ssralg poly.
From mathcomp Require Import zmodp.
From S2P Require Import OsstCurve Osst Reshare.

Set Implicit Arguments.
Unset Strict Implicit.
Unset Printing Implicit Defensive.

Import GRing.Theory.
Local Open Scope ring_scope.

Record CheckpointAnchor := mkCheckpointAnchor { height : nat; block_hash : bytes; timestamp : nat }.

Definition anchor_to_bytes (a : CheckpointAnchor) : bytes :=
  to_le_bytes 8 (height a) ++ block_hash a ++ to_le_bytes 8 (timestamp a).

(** [saturating_sub] is the subtraction of [nat]. *)
Definition is_recent (a : CheckpointAnchor) (current_height max_age_blocks : nat) : bool :=
  (current_height - height a <= max_age_blocks)%N.

Record LivenessProof := mkLivenessProof {
  anchor : CheckpointAnchor;
  ligerito_proof : bytes;
  state_root : bytes;
}.

Definition byte_size (p : LivenessProof) : nat := (48 + 4 + size (ligerito_proof p) + 32)%N.

Definition LivenessProof_to_bytes (p : LivenessProof) : bytes :=
  anchor_to_bytes (anchor p) ++ to_le_bytes 4 (size (ligerito_proof p)) ++ ligerito_proof p ++ state_root p.

Definition LivenessProof_from_bytes (s : bytes) : result LivenessProof :=
  ensure! (48 + 4 + 32 <= size s)%N else InvalidCommitment ;;
  let anchor :=
    mkCheckpointAnchor (from_le_bytes (slice 0 8 s)) (slice 8 40 s) (from_le_bytes (slice 40 48 s)) in
  let proof_len := from_le_bytes (slice 48 52 s) in
  ensure! (52 + proof_len + 32 <= size s)%N else InvalidCommitment ;;
  Ok (mkLivenessProof anchor (slice 52 (52 + proof_len) s) (slice (52 + proof_len) (52 + proof_len + 32) s)).

(** [LivenessVerifier] *)
Record LivenessVerifier := mkLivenessVerifier {
  verify_ligerito_proof : CheckpointAnchor -> bytes -> bytes -> bool;
  current_anchor : CheckpointAnchor;
  max_checkpoint_age : nat;
}.

Inductive ContributionError := CheckpointTooOld | InvalidSignature | InvalidLigerito | IndexMismatch.

Section liveness.
Context {F : fieldType} {P : lmodType F} {C : Curve P}.
Local Abbreviation G := (@generator F P C).
Local Abbreviation DealerCommitment := (@DealerCommitment F P).

Record ContributionSignature := mkContributionSignature { sig_r : bytes; sig_s : F }.

Definition ContributionSignature_to_bytes (s : ContributionSignature) : bytes :=
  sig_r s ++ scalar_to_bytes (sig_s s).

Definition ContributionSignature_from_bytes (s : bytes) : result ContributionSignature :=
  let r := slice 0 32 s in
  match from_canonical_bytes (slice 32 64 s) with
  | None => Err InvalidResponse
  | Some x => Ok (mkContributionSignature r x)
  end.

Record DealerContribution := mkDealerContribution {
  dc_commitment : DealerCommitment;
  liveness : LivenessProof;
  signature : ContributionSignature;
}.

Definition dc_dealer_index (d : DealerContribution) : nat := dealer_index (dc_commitment d).

(** ["OSST-CONTRIBUTION-V1"] *)
Definition contribution_tag : bytes :=
  map byte_of [:: 79; 83; 83; 84; 45; 67; 79; 78; 84; 82; 73; 66; 85; 84; 73; 79; 78; 45; 86; 49].

Definition signing_message (commitment : DealerCommitment) (liveness : LivenessProof) (context : bytes) : bytes :=
  sha512 (contribution_tag ++ DealerCommitment_to_bytes commitment
          ++ LivenessProof_to_bytes liveness ++ context).

Definition challenge_hash (r message : bytes) : F := from_bytes_wide (sha512 (r ++ message)).

(** [sign], with the nonce it draws. *)
Definition sign (commitment : DealerCommitment) (liveness : LivenessProof) (secret_key : F)
    (context : bytes) (k : F) : DealerContribution :=
  let message := signing_message commitment liveness context in
  let r := compress (k *: G) in
  let e := challenge_hash r message in
  mkDealerContribution commitment liveness (mkContributionSignature r (k + e * secret_key)).

Definition verify_signature (d : DealerContribution) (public_key : P) (context : bytes) : bool :=
  let message := signing_message (dc_commitment d) (liveness d) context in
  match decompress (sig_r (signature d)) with
  | None => false
  | Some r_point =>
      let e := challenge_hash (sig_r (signature d)) message in
      sig_s (signature d) *: G == r_point + e *: public_key
  end.

(** [ContributionVerifier::verify]: what is wrong with a contribution. *)
Definition verify_contribution (v : LivenessVerifier) (context : bytes) (d : DealerContribution)
    (public_key : P) : option ContributionError :=
  if ~~ is_recent (anchor (liveness d)) (height (current_anchor v)) (max_checkpoint_age v)
  then Some CheckpointTooOld
  else if ~~ verify_signature d public_key context then Some InvalidSignature
  else if ~~ verify_ligerito_proof v (anchor (liveness d)) (ligerito_proof (liveness d)) (state_root (liveness d))
  then Some InvalidLigerito
  else None.

Definition verify_batch (v : LivenessVerifier) (context : bytes) (ds : seq DealerContribution)
    (public_keys : seq P) : seq nat :=
  pmap (fun idk => if verify_contribution v context idk.2.1 idk.2.2 is None then Some idk.1 else None)
    (zip (iota 0 (size (zip ds public_keys))) (zip ds public_keys)).
End liveness.

(** * The encodings *)

Definition anchor_fits (a : CheckpointAnchor) : bool :=
  [&& (height a < 256 ^ 8)%N, (timestamp a < 256 ^ 8)%N & size (block_hash a) == 32%N].

Definition proof_fits (p : LivenessProof) : bool :=
  [&& anchor_fits (anchor p), (size (ligerito_proof p) < 2 ^ 32)%N & size (state_root p) == 32%N].

Lemma size_anchor a : anchor_fits a -> size (anchor_to_bytes a) = 48%N.
Proof. by case/and3P=> _ _ /eqP sb; rw !size_cat !size_to_le_bytes sb. Qed.

(** The parser on the fields laid out one after the other. *)
Lemma LivenessProof_parts hb bh tb lb lp sr t :
  size hb = 8%N -> size bh = 32%N -> size tb = 8%N -> size lb = 4%N -> from_le_bytes lb = size lp ->
  size sr = 32%N ->
  LivenessProof_from_bytes (hb ++ bh ++ tb ++ lb ++ lp ++ sr ++ t)
  = Ok (mkLivenessProof (mkCheckpointAnchor (from_le_bytes hb) bh (from_le_bytes tb)) lp sr).
Proof.
move=> s1 s2 s3 s4 El s5; rw /LivenessProof_from_bytes !size_cat s1 s2 s3 s4 s5.
rw !addnA -[(8 + 32 + 8 + 4)%N]/52%N.
have -> : (48 + 4 + 32 <= 52 + size lp + 32 + size t)%N by rw (leq_trans _ (leq_addr _ _)) // leq_add2r leq_addr.
have E8 : slice 48 52 (hb ++ bh ++ tb ++ lb ++ lp ++ sr ++ t) = lb.
  by rw (slice_r 40 44 _ s1) (slice_r 8 12 _ s2) (slice_r 0 4 _ s3) (slice_l _ s4).
have sH : size (hb ++ bh ++ tb ++ lb) = 52%N by rw !size_cat s1 s2 s3 s4.
have EH n m : slice (52 + n) (52 + m) (hb ++ bh ++ tb ++ lb ++ lp ++ sr ++ t) = slice n m (lp ++ sr ++ t).
  by have := slice_r n m (lp ++ sr ++ t) sH; rw -!catA.
rw E8 El leq_addr (slice_l _ s1) (slice_r 0 32 _ s1) (slice_l _ s2).
rw (slice_r 32 40 _ s1) (slice_r 0 8 _ s2) (slice_l _ s3) -addnA EH -{1}(addn0 52%N) EH.
by rw (slice_l _ erefl) -{1}(addn0 (size lp)) (slice_r 0 32 _ erefl) (slice_l _ s5).
Qed.

(** What [to_bytes] writes is [byte_size] long, and [from_bytes] reads the proof back from it,
    whatever follows. *)
Lemma liveness_roundtrip p t :
  proof_fits p ->
  size (LivenessProof_to_bytes p) = byte_size p
  /\ LivenessProof_from_bytes (LivenessProof_to_bytes p ++ t) = Ok p.
Proof.
case/and3P=> fa ll /eqP sl; split.
  by rw /LivenessProof_to_bytes size_cat (size_anchor fa) !size_cat size_to_le_bytes sl !addnA.
case/and3P: fa => lh lt /eqP sb.
rw /LivenessProof_to_bytes /anchor_to_bytes -!catA.
rw LivenessProof_parts ?size_to_le_bytes ?u32_bytesK // !to_le_bytesK //.
by case: p {ll sl lh lt sb} => -[].
Qed.

Section signatures.
Context {F : fieldType} {P : lmodType F} {C : Curve P} {K : @CurveCodec F P C}.
Local Abbreviation G := (@generator F P C).
Local Abbreviation DealerContribution := (@DealerContribution F P).

Lemma contribution_signature_roundtrip (s : @ContributionSignature F) :
  size (sig_r s) = 32%N ->
  @ContributionSignature_from_bytes F P C (@ContributionSignature_to_bytes F P C s) = Ok s.
Proof.
case: s => r x /= sr; rw /ContributionSignature_from_bytes /ContributionSignature_to_bytes /=.
rw (slice_l _ sr) -{1}(addn0 32%N) (slice_r 0 32 _ sr) (slice_all (size_scalar_to_bytes x)).
by rw scalar_to_bytesK.
Qed.

Lemma vanish x y : G != 0 -> (x *: G == y *: G) = (x == y).
Proof. by move=> g0; rw -subr_eq0 -scalerBl scaler_eq0 (negbTE g0) orbF subr_eq0. Qed.

(** The response a signature by [x] with the nonce [k] must have. *)
Definition response_due (d : DealerContribution) (k x : F) (context : bytes) : F :=
  k + @challenge_hash F P C (sig_r (signature d)) (signing_message (dc_commitment d) (liveness d) context) * x.

Lemma verify_signatureE (d : DealerContribution) k x context :
  G != 0 -> sig_r (signature d) = compress (k *: G) ->
  verify_signature d (x *: G) context = (sig_s (signature d) == response_due d k x context).
Proof.
by move=> g0 E; rw /verify_signature E compressK scalerA -scalerDl vanish // /response_due E.
Qed.

(** For a contribution whose commitment is [k G] and a dealer's key [x G], the verifier names
    the first of these that fails, and accepts if none does: the checkpoint is at most
    [max_checkpoint_age] blocks behind, the response is [k + e x] for the challenge [e] on the
    commitment, the liveness proof and the context, the block proof verifies.  So what a
    dealer signs is accepted exactly when its checkpoint and its block proof are, and nothing
    of it can be changed without the key. *)
Lemma contribution_checked v context (d : DealerContribution) k x :
  G != 0 -> sig_r (signature d) = compress (k *: G) ->
  verify_contribution v context d (x *: G)
  = if (height (anchor (liveness d)) + max_checkpoint_age v < height (current_anchor v))%N
    then Some CheckpointTooOld
    else if sig_s (signature d) != response_due d k x context then Some InvalidSignature
    else if verify_ligerito_proof v (anchor (liveness d)) (ligerito_proof (liveness d)) (state_root (liveness d))
    then None else Some InvalidLigerito.
Proof.
move=> g0 E; rw /verify_contribution (verify_signatureE _ _ g0 E) /is_recent leq_subLR -ltnNge.
by do 2!case: ifP => _ //; case: verify_ligerito_proof.
Qed.

(** What a dealer signs is accepted by whoever knows its key, when its checkpoint and its block
    proof are. *)
Lemma sign_accepted v c lp x context k :
  G != 0 ->
  (height (current_anchor v) <= height (anchor lp) + max_checkpoint_age v)%N ->
  verify_ligerito_proof v (anchor lp) (ligerito_proof lp) (state_root lp) ->
  verify_contribution v context (sign c lp x context k) (x *: G) = None.
Proof.
move=> g0 lh vl; rw /verify_contribution (verify_signatureE (k := k)) // /is_recent leq_subLR lh /=.
by rw eqxx vl.
Qed.

(** [saturating_sub]: a checkpoint that does not exist yet is recent. *)
Lemma future_anchor_recent a current max_age : (current <= height a)%N -> is_recent a current max_age.
Proof. by move=> ca; rw /is_recent leq_subLR (leq_trans ca) ?leq_addr. Qed.

Definition passes v context (dk : DealerContribution * P) : bool :=
  if verify_contribution v context dk.1 dk.2 is None then true else false.

Lemma batch_from v context m (z : seq (DealerContribution * P)) :
  pmap (fun idk => if verify_contribution v context idk.2.1 idk.2.2 is None then Some idk.1 else None)
    (zip (iota m (size z)) z)
  = [seq i <- iota m (size z) | nth false (map (passes v context) z) (i - m)].
Proof.
elim: z m => [//|dk z IH] m; rw /= IH subnn /=.
have -> : [seq i <- iota m.+1 (size z) | nth false (passes v context dk :: map (passes v context) z) (i - m)]
        = [seq i <- iota m.+1 (size z) | nth false (map (passes v context) z) (i - m.+1)].
  by apply: eq_in_filter => i; rw mem_iota => /andP[mi _]; rw -(subnSK mi).
by rw [passes v context dk]/passes; case: verify_contribution.
Qed.

(** [verify_batch] gives the positions, in order, of the contributions that pass with the key
    at their position. *)
Lemma verify_batchE v context (ds : seq DealerContribution) pks :
  verify_batch v context ds pks
  = [seq i <- iota 0 (size (zip ds pks)) | nth false (map (passes v context) (zip ds pks)) i].
Proof. by rw /verify_batch batch_from; apply: eq_filter => i; rw subn0. Qed.
End signatures.

Section witnesses.
Local Abbreviation B := Demo.B.
Local Abbreviation BP := Demo.BP.
Local Existing Instance Demo.bit_curve.
Local Existing Instance Demo.bit_codec.

Definition demo_proof : LivenessProof :=
  mkLivenessProof (mkCheckpointAnchor 95 (nseq 32 x01) 7) [:: x01; x02; x03] (nseq 32 x02).
Definition demo_verifier : LivenessVerifier :=
  mkLivenessVerifier (fun _ proof _ => size proof != 0%N) (mkCheckpointAnchor 100 (nseq 32 x00) 0) 10.
Definition demo_signed : @DealerContribution B BP :=
  sign (mkDealerCommitment 1 [:: 1 : BP]) demo_proof (1 : B) [:: x09] (1 : B).

Lemma liveness_roundtrip_witness :
  proof_fits demo_proof
  /\ LivenessProof_from_bytes (LivenessProof_to_bytes demo_proof ++ [:: x05]) = Ok demo_proof.
Proof. by split; [|apply: (proj2 (liveness_roundtrip _ _))]. Defined.

(** A signed contribution is accepted, a changed response is not. *)
Lemma contribution_checked_witness :
  verify_contribution demo_verifier [:: x09] demo_signed ((1 : B) *: @generator B BP Demo.bit_curve) = None
  /\ verify_contribution demo_verifier [:: x09]
       (mkDealerContribution (dc_commitment demo_signed) demo_proof
          (mkContributionSignature (sig_r (signature demo_signed)) (1 : B)))
       ((1 : B) *: @generator B BP Demo.bit_curve) = Some InvalidSignature.
Proof.
by split; [rw (@contribution_checked B BP _ _ _ _ demo_signed 1 1)|rw (@contribution_checked B BP _ _ _ _ _ 1 1)].
Defined.
End witnesses.
