(* ===== verification/Dkg.v ===== *)
(** Distributed key generation, [crates/osst/src/dkg.rs]: everyone deals, players
    add up what they receive, the chain collects the commitments.

    A player's share always commits to the verification share the chain derives for
    it, and the generated key signs with FROST.  Vectors are shorter than [2^32]. *)
From Stdlib Require Import Init.Byte.
From mathcomp Require Import ssreflect ssrfun ssrbool eqtype ssrnat seq path div choice fintype bigop ssralg poly.
From mathcomp Require Import ssrnum ssrint rat.
From S2P Require Import OsstCurve Osst Frost Reshare.

Set Implicit Arguments.
Unset Strict Implicit.
Unset Printing Implicit Defensive.

Import GRing.Theory.
Local Open Scope ring_scope.

Section dkg.
Context {F : fieldType} {P : lmodType F} {C : Curve P}.
Local Abbreviation G := (@generator F P C).
Local Abbreviation from_u32 := (@from_u32 F).
Local Abbreviation DealerCommitment := (@DealerCommitment F P).
Local Abbreviation SubShare := (@SubShare F).

Record Dealer := mkDealer { d_index : nat; polynomial : seq F; commitment : DealerCommitment }.

Definition Dealer_new (index threshold : nat) (draw : nat -> F) : result Dealer :=
  ensure! (0 < index)%N else Panic ;;
  ensure! (0 < threshold)%N else Panic ;;
  let polynomial := [seq draw i | i <- iota 0 threshold] in
  let? commitment := from_polynomial index polynomial in
  Ok (mkDealer index polynomial commitment).

Definition generate_subshare (d : Dealer) (player_index : nat) : result SubShare :=
  ensure! (0 < player_index)%N else Panic ;;
  let j := from_u32 player_index in
  let res := foldl (fun result coeff => result * j + coeff) 0 (rev (polynomial d)) in
  SubShare_new (d_index d) player_index res.

Definition generate_subshares (d : Dealer) (num_players : nat) : result (seq SubShare) :=
  traverse (generate_subshare d) (iota 1 num_players).

Record Aggregator := mkAggregator {
  player_index : nat;
  subshares : seq (nat * F);
  constant_commitments : seq P;
}.

Definition Aggregator_new (player_index : nat) : result Aggregator :=
  ensure! (0 < player_index)%N else Panic ;; Ok (mkAggregator player_index [::] [::]).

Definition add_subshare (a : Aggregator) (s : SubShare) (c : DealerCommitment) : result (bool * Aggregator) :=
  ensure! sub_player s == player_index a else InvalidIndex ;;
  ensure! sub_dealer s == dealer_index c else InvalidIndex ;;
  ensure! sub_dealer s != 0%N else InvalidIndex ;;
  if has (fun x => x.1 == sub_dealer s) (subshares a) then Ok (false, a)
  else
    ensure! verify_subshare c (player_index a) (value s) else InvalidResponse ;;
    let? c0 := share_commitment c in
    Ok (true, mkAggregator (player_index a) (rcons (subshares a) (sub_dealer s, value s))
                (rcons (constant_commitments a) c0)).

Definition derive_group_key (a : Aggregator) : P := foldl (fun key c0 => key + c0) 0 (constant_commitments a).

Definition finalize (a : Aggregator) (num_dealers : nat) : result F :=
  ensure! (num_dealers <= size (subshares a))%N
    else InsufficientContributions (size (subshares a)) num_dealers ;;
  Ok (foldl (fun share x => share + x.2) 0 (subshares a)).

(** The round on chain. *)
Record DkgState := mkDkgState {
  epoch : nat;
  dkg_threshold : nat;
  num_participants : nat;
  slots : seq (option DealerCommitment);
}.

Definition DkgState_new (epoch threshold num_participants : nat) : DkgState :=
  mkDkgState epoch threshold num_participants (nseq num_participants None).

Definition submit_commitment (st : DkgState) (c : DealerCommitment) : result (bool * DkgState) :=
  let? (fresh, slots) := submit_slot (slots st) (dkg_threshold st) c in
  Ok (fresh, mkDkgState (epoch st) (dkg_threshold st) (num_participants st) slots).

Definition commitment_count (st : DkgState) : nat := count isSome (slots st).
Definition is_complete (st : DkgState) : bool := commitment_count st == num_participants st.
Definition get_commitments (st : DkgState) : seq DealerCommitment := pmap id (slots st).

Definition incomplete (st : DkgState) : OsstError :=
  InsufficientContributions (commitment_count st) (num_participants st).

Definition state_group_key (st : DkgState) : result P :=
  ensure! is_complete st else incomplete st ;;
  foldl (fun acc c => (let? key := acc in let? c0 := share_commitment c in Ok (key + c0)))
    (Ok 0) (get_commitments st).

Definition derive_verification_share (st : DkgState) (player_index : nat) : result P :=
  ensure! player_index != 0%N else InvalidIndex ;;
  ensure! is_complete st else incomplete st ;;
  foldl (fun acc c => (let? vshare := acc in let? e := evaluate_at c player_index in Ok (vshare + e)))
    (Ok 0) (get_commitments st).

Definition derive_all_verification_shares (st : DkgState) : result (btree P) :=
  foldl (fun acc j => (let? map := acc in let? y := derive_verification_share st j in Ok (bt_insert j y map)))
    (Ok [::]) (iota 1 (num_participants st)).
End dkg.

(** * The commitments on chain *)

Section chain.
Context {F : fieldType} {P : lmodType F} {C : Curve P}.
Local Abbreviation DealerCommitment := (@DealerCommitment F P).
Implicit Types (st : @DkgState F P).

(** Each slot is empty or holds its own dealer's commitment, of the round's degree. *)
Definition slots_ok (t : nat) (sl : seq (option DealerCommitment)) : Prop :=
  forall i c, nth None sl i = Some c -> dealer_index c = i.+1 /\ threshold c = t.

Lemma slots_ok_nil t n : slots_ok t (nseq n None).
Proof. by move=> i c; rw nth_nseq; case: ifP. Qed.

Lemma submit_slot_ok t sl c b sl' :
  slots_ok t sl -> submit_slot sl t c = Ok (b, sl') ->
  [/\ slots_ok t sl', size sl' = size sl, (count isSome sl' = count isSome sl + b)%N
    & forall i c', nth None sl i = Some c' -> nth None sl' i = Some c'].
Proof.
move=> ok; rw /submit_slot; case: ifP => // c0; case: ifP => // ls; case: ifP => // /eqP tc.
case: ifP => [_ [<- <-]|free [<- <-]]; first by split=> //; rw addn0.
have sz : size (set_nth None sl (dealer_index c - 1) (Some c)) = size sl.
  by rw size_set_nth; apply/maxn_idPr.
split=> //.
- move=> i c'; rw nth_set_nth /=; case: eqP => [-> [<-]|_ /ok //].
  by rw -subSn ?lt0n // subSS subn0.
- by rw count_set_nth ls free subn0 addnC.
- by move=> i c' E; rw nth_set_nth /=; case: eqP E free => // -> ->.
Qed.

Inductive reachable (e t n : nat) : DkgState -> Prop :=
| reach_new : reachable e t n (DkgState_new e t n)
| reach_submit st c b st' :
    reachable e t n st -> submit_commitment st c = Ok (b, st') -> reachable e t n st'.

Lemma dkg_reachable_ok e t n st :
  reachable e t n st ->
  [/\ slots_ok t (slots st), size (slots st) = n, dkg_threshold st = t & num_participants st = n].
Proof.
elim=> [|{}st c b st' _ [ok sz dt np]]; first by split=> //=; [exact: slots_ok_nil|rw size_nseq].
rw /submit_commitment dt; case E: submit_slot => [[b' sl]|//] [_ <-] /=.
by have [ok' sz' _ _] := submit_slot_ok ok E; rw sz'.
Qed.
End chain.

(** * Shares and verification shares *)

Section matching.
Context {F : fieldType} {P : lmodType F} {C : Curve P} {L : @CurveLaws F P C}.
Local Abbreviation G := (@generator F P C).
Local Abbreviation from_u32 := (@from_u32 F).
Local Abbreviation DealerCommitment := (@DealerCommitment F P).
Implicit Types (st : @DkgState F P) (a : @Aggregator F P).

(** The combination of the commitment in the slot of dealer [k]. *)
Definition slot_at st (x : F) (k : nat) : P :=
  if nth None (slots st) k.-1 is Some c then points_at (coefficients c) x else 0.

Lemma commitments_sum e t n st x :
  reachable e t n st ->
  \sum_(c <- get_commitments st) points_at (coefficients c) x = \sum_(k <- iota 1 n) slot_at st x k.
Proof.
move=> /dkg_reachable_ok[_ <- _ _]; rw (iotaDl 1 0) big_map /get_commitments /slot_at /=.
transitivity (\sum_(o <- slots st) (if o is Some c then points_at (coefficients c) x else 0)).
  by elim: (slots st) => [|[c|] sl IH]; rw /= ?big_nil // !big_cons IH ?add0r.
by rw (big_nth None) /index_iota subn0.
Qed.

Lemma derive_verification_shareE e t n st j :
  reachable e t n st -> is_complete st -> (0 < j)%N ->
  derive_verification_share st j = Ok (\sum_(k <- iota 1 n) slot_at st (from_u32 j) k).
Proof.
move=> R full j0; rw /derive_verification_share -lt0n j0 full.
rw (foldl_result_add (g := fun c => points_at (coefficients c) (from_u32 j))) => [c|].
  exact: evaluate_atE.
by rw add0r (commitments_sum _ R).
Qed.

Lemma share_commitmentE (c : DealerCommitment) :
  coefficients c <> [::] -> share_commitment c = Ok (points_at (coefficients c) 0).
Proof.
rw /share_commitment /points_at; case: (coefficients c) => // c0 ps _.
by rw foldl_rev /= scale0r add0r.
Qed.

Lemma state_group_keyE e t n st :
  (0 < t)%N -> reachable e t n st -> is_complete st ->
  state_group_key st = Ok (\sum_(k <- iota 1 n) slot_at st 0 k).
Proof.
move=> t0 R full; rw /state_group_key full -(commitments_sum _ R).
have [ok _ _ _] := dkg_reachable_ok R.
suff H (acc : P) (sl : seq (option DealerCommitment)) : (forall i c, nth None sl i = Some c -> threshold c = t) ->
    foldl (fun acc c => (let? key := acc in let? c0 := share_commitment c in Ok (key + c0))) (Ok acc) (pmap id sl)
    = Ok (acc + \sum_(c <- pmap id sl) points_at (coefficients c) 0).
  by rw /get_commitments (H 0) ?add0r // => i c /ok[].
elim: sl acc => [|o sl IH] acc H; first by rw /= big_nil addr0.
have {}IH acc' := IH acc' (fun i => H i.+1).
case: o H => [c|] H //=; rw big_cons share_commitmentE ?IH ?addrA // => E.
by have := H 0%N c erefl; rw /threshold E => t00; rw -t00 in t0.
Qed.

(** The players who check against the chain. *)
Inductive player st (j : nat) : Aggregator -> Prop :=
| player_new a : Aggregator_new j = Ok a -> player st j a
| player_add a s i c b a' :
    player st j a -> nth None (slots st) i = Some c -> add_subshare a s c = Ok (b, a') -> player st j a'.

Record player_ok st (n j : nat) a : Prop := {
  ok_player : player_index a = j;
  ok_positive : (0 < j)%N;
  ok_uniq : uniq (keys (subshares a));
  ok_dealers : all (fun k => 0 < k <= n)%N (keys (subshares a));
  ok_checked : [seq x.2 *: G | x <- subshares a] = [seq slot_at st (from_u32 j) k | k <- keys (subshares a)];
  ok_constants : constant_commitments a = [seq slot_at st 0 k | k <- keys (subshares a)];
}.

Lemma player_okP e t n st j a : reachable e t n st -> player st j a -> player_ok st n j a.
Proof.
move=> R; have [ok sz _ _] := dkg_reachable_ok R; elim=> [{}a|{}a s i c b a' _ [<- j0 us ds ck cc] E].
  by rw /Aggregator_new; case: ifP => // j0 [<-]; split.
have [Ed _] := ok _ _ E; have li : (i < n)%N.
  by rw -sz ltnNge; apply/negP => /(nth_default None); rw E.
have sl x : slot_at st x i.+1 = points_at (coefficients c) x by rw /slot_at /= E.
rw /add_subshare; case: ifP => // _; case: ifP => // /eqP Es.
case: ifP => // _; case: ifP => [_ [_ <-] //|fresh]; case: ifP => // +; rw verify_subshareE => /andP[_ /eqP V].
case Ec: share_commitment => [c0|//] [_ <-]; have Es' := etrans Es Ed.
split=> //=; rw /keys /= ?map_rcons Es'.
- rw rcons_uniq us andbT; apply: contraFN fresh => /mapP[x xa Ex].
  by apply/hasP; exists x => //; apply/eqP; rw -Ex Es'.
- by rw all_rcons /= li.
- by rw ck V sl.
- have [] : Ok c0 = Ok (points_at (coefficients c) 0); last by rw cc sl => ->.
  by rw -Ec share_commitmentE // => E0; move: Ec; rw /share_commitment E0.
Qed.

(** A player's share is the one the chain vouches for: whatever the dealers
    sent, once all have committed and the player, checking against the chain, has
    finalized, the chain derives for the player the verification share its secret
    share commits to, and the group key the player derives. *)
Lemma dkg_share_matches e t n st j a x :
  (0 < t)%N -> reachable e t n st -> is_complete st -> player st j a -> finalize a n = Ok x ->
  derive_verification_share st j = Ok (x *: G) /\ state_group_key st = Ok (derive_group_key a).
Proof.
move=> t0 R full /(player_okP R)[_ j0 us ds ck cc]; rw /finalize; case: ifP => // ln [<-].
have pk : perm_eq (keys (subshares a)) (iota 1 n).
  have sub : {subset keys (subshares a) <= iota 1 n} by move=> k /(allP ds); rw mem_iota add1n ltnS.
  have [|_ E] := uniq_min_size us sub; first by rw size_iota size_map.
  by apply: uniq_perm => //; apply: iota_uniq.
split.
  rw (derive_verification_shareE R full j0) -(perm_big _ pk) /= foldl_add add0r scaler_suml; congr Ok.
  by have := congr1 (fun s => \sum_(y <- s) y) ck; rw !big_map => ->.
by rw (state_group_keyE t0 R full) -(perm_big _ pk) /= /derive_group_key foldl_add add0r cc big_map.
Qed.
End matching.

(** * A generation between honest dealers *)

Section generation.
Context {F : fieldType} {P : lmodType F} {C : Curve P} {L : @CurveLaws F P C} {U : Suite P}.
Local Abbreviation G := (@generator F P C).
Local Abbreviation from_u32 := (@from_u32 F).

(** The round, its size, what each dealer draws. *)
Variables (e t n : nat) (draws : nat -> nat -> F).
Hypothesis t_gt0 : (0 < t)%N.

Definition coeffs (i : nat) : seq F := [seq draws i k | k <- iota 0 t].
Definition dealt (i : nat) : @DealerCommitment F P := mkDealerCommitment i (committed (coeffs i)).

(** Every dealer submits its commitment. *)
Definition run_chain (S : seq nat) : result (@DkgState F P) :=
  foldl (fun acc i =>
           (let? st := acc in
            let? d := Dealer_new i t (draws i) in
            let? (_, st') := submit_commitment st (commitment d) in
            Ok st')) (Ok (DkgState_new e t n)) S.

(** Player [j] receives every dealer's sub-share. *)
Definition run_player (S : seq nat) (j : nat) : result (@Aggregator F P) :=
  foldl (fun acc i =>
           (let? a := acc in
            let? d := Dealer_new i t (draws i) in
            let? s := generate_subshare d j in
            let? (_, a') := add_subshare a s (commitment d) in
            Ok a')) (Aggregator_new j) S.

Lemma size_coeffs i : size (coeffs i) = t.
Proof. by rw size_map size_iota. Qed.

Lemma coeffs_neq0 i : coeffs i <> [::].
Proof. by move/(congr1 size); rw size_coeffs => E; move: t_gt0; rw E. Qed.

Lemma dkg_Dealer_newE i : (0 < i)%N -> Dealer_new i t (draws i) = Ok (mkDealer i (coeffs i) (dealt i)).
Proof.
by move=> i0; rw /Dealer_new i0 t_gt0 /from_polynomial i0 -/(coeffs i) size_coeffs -lt0n t_gt0.
Qed.

Lemma dkg_generate_subshareE d j :
  (0 < d_index d)%N -> (0 < j)%N ->
  generate_subshare d j = Ok (mkSubShare (d_index d) j (Poly (@polynomial F P d)).[from_u32 j]).
Proof. by move=> i0 j0; rw /generate_subshare j0 foldl_horner /SubShare_new i0 j0. Qed.

Lemma set_nth_mid T (d x y : T) (s r : seq T) : set_nth d (s ++ y :: r) (size s) x = s ++ x :: r.
Proof. by elim: s => //= z s ->. Qed.

Lemma run_chainE m :
  (m <= n)%N ->
  run_chain (iota 1 m) = Ok (mkDkgState e t n ([seq Some (dealt i) | i <- iota 1 m] ++ nseq (n - m) None)).
Proof.
elim: m => [|m IH] mn; first by rw subn0.
rw iota_rcons add1n /run_chain foldl_rcons -/(run_chain (iota 1 m)) IH 1?ltnW //.
rw dkg_Dealer_newE // /submit_commitment /submit_slot [slots _]/= [dkg_threshold _]/= [dealer_index _]/= subSS subn0.
have sm : size [seq Some (dealt i) | i <- iota 1 m] = m by rw size_map size_iota.
rw -(subnSK mn) [nseq _.+1 _]/=; set r := nseq _ _.
rw size_cat sm [size (_ :: _)]/= -addSnnS leq_addr /threshold size_map size_coeffs eqxx.
have sE x := set_nth_mid None x None [seq Some (dealt i) | i <- iota 1 m] r; rw sm in sE.
by rw nth_cat sm ltnn subnn sE map_rcons cat_rcons.
Qed.

Lemma run_chain_reachable S st : run_chain S = Ok st -> reachable e t n st.
Proof.
elim/last_ind: S st => [|S i IH] st; first by case=> <-; apply: reach_new.
rw /run_chain foldl_rcons -/(run_chain S); case: (run_chain S) IH => [st'|//] /(_ _ erefl) R.
case: Dealer_new => [d|//]; case E: submit_commitment => [[b st'']|//] [<-].
exact: reach_submit R E.
Qed.

(** The chain once all have dealt, and the polynomial they generate. *)
Definition dealt_state : @DkgState F P := mkDkgState e t n [seq Some (dealt i) | i <- iota 1 n].
Definition dkg_poly : {poly F} := \sum_(i <- iota 1 n) Poly (coeffs i).

Lemma run_chain_all : run_chain (iota 1 n) = Ok dealt_state.
Proof. by rw run_chainE // subnn cats0. Qed.

Lemma dealt_complete : is_complete dealt_state.
Proof.
by rw /is_complete /commitment_count /= count_map (eq_count (a2 := predT)) // count_predT size_iota.
Qed.

Lemma dealt_slots x : \sum_(k <- iota 1 n) slot_at dealt_state x k = dkg_poly.[x] *: G.
Proof.
rw /dkg_poly horner_sum scaler_suml; apply: eq_big_seq => k; rw mem_iota => /andP[k0 lk].
have lk' : (k.-1 < n)%N by rw -ltnS prednK // -add1n.
rw /slot_at (nth_map 0%N) ?size_iota // nth_iota // add1n prednK //.
exact: points_at_committed.
Qed.

Lemma size_dkg_poly : (size dkg_poly <= t)%N.
Proof.
rw (leq_trans (size_sum _ _ _)) //; apply/bigmax_leqP_seq => i _ _.
by rw (leq_trans (size_Poly _)) // size_coeffs.
Qed.

Lemma dkg_add_subshare_fresh j (a : @Aggregator F P) i :
  player_index a = j -> (0 < j)%N -> (0 < i)%N -> i \notin keys (subshares a) ->
  add_subshare a (mkSubShare i j (Poly (coeffs i)).[from_u32 j]) (dealt i)
  = Ok (true, mkAggregator j (rcons (subshares a) (i, (Poly (coeffs i)).[from_u32 j]))
                (rcons (constant_commitments a) (points_at (committed (coeffs i)) 0))).
Proof.
move=> <- j0 i0 ia; rw /add_subshare !eqxx -lt0n i0 [sub_dealer _]/= [value _]/=.
rw (_ : has _ _ = false); last rw verify_subshareE j0 points_at_committed eqxx.
  by apply: contraNF ia => /hasP[x xa /eqP <-]; apply: map_f.
by rw share_commitmentE // => /(congr1 size); rw size_map size_coeffs => E; move: t_gt0; rw E.
Qed.

Lemma run_playerE S j :
  (0 < j)%N -> uniq S -> all (fun i => 0 < i)%N S ->
  run_player S j
  = Ok (mkAggregator j [seq (i, (Poly (coeffs i)).[from_u32 j]) | i <- S]
          [seq points_at (committed (coeffs i)) 0 | i <- S]).
Proof.
move=> j0; elim/last_ind: S => [|S i IH]; first by rw /run_player /= /Aggregator_new j0.
rw rcons_uniq all_rcons /run_player foldl_rcons => /andP[iS uS] /andP[i0 /(IH uS)].
rw /run_player => ->; rw dkg_Dealer_newE // dkg_generate_subshareE //.
by rw dkg_add_subshare_fresh // ?keys_graph // !map_rcons.
Qed.

Lemma run_player_finalize j :
  (0 < j)%N -> exists2 a, run_player (iota 1 n) j = Ok a & finalize a n = Ok dkg_poly.[from_u32 j].
Proof.
move=> j0; rw run_playerE ?iota_uniq //; first by apply/allP => i; rw mem_iota => /andP[].
eexists; first by []; rw /finalize size_map size_iota leqnn foldl_add add0r big_map /=.
by rw /dkg_poly horner_sum.
Qed.

Lemma run_player_checks S j a :
  run_player S j = Ok a -> all (fun i => 0 < i <= n)%N S -> player dealt_state j a.
Proof.
elim/last_ind: S a => [|S i IH] a; first by move=> E _; apply: player_new.
rw /run_player foldl_rcons -/(run_player S j) all_rcons.
case: (run_player S j) IH => [a'|//] /(_ _ erefl) R + /andP[/andP[i0 li] /R p].
rw dkg_Dealer_newE //; case: generate_subshare => [s|//]; case E: add_subshare => [[b a'']|//] [<-].
have lk : (i.-1 < n)%N by rw prednK.
apply: (player_add (i := i.-1) p _ E).
by rw [slots _]/= (nth_map 0%N) ?size_iota // nth_iota // add1n prednK.
Qed.

Lemma derive_all_get :
  exists2 vs, derive_all_verification_shares dealt_state = Ok vs
    & forall j, (0 < j <= n)%N -> bt_get j vs = Some (dkg_poly.[from_u32 j] *: G).
Proof.
rw /derive_all_verification_shares /=.
suff H (S : seq nat) (m : btree P) : all (fun j => 0 < j)%N S ->
    exists2 vs, foldl (fun acc j =>
        (let? map := acc in let? y := derive_verification_share dealt_state j in Ok (bt_insert j y map)))
        (Ok m) S = Ok vs
      & forall j, bt_get j vs = if j \in S then Some (dkg_poly.[from_u32 j] *: G) else bt_get j m.
  have [|vs E Hv] := H (iota 1 n) [::]; first by apply/allP => j; rw mem_iota => /andP[].
  by exists vs => // j /andP[j0 jn]; rw Hv mem_iota j0 add1n ltnS jn.
elim: S m => [|j S IH] m /=; first by exists m.
case/andP=> j0 S0; rw (derive_verification_shareE (run_chain_reachable run_chain_all) dealt_complete j0) dealt_slots.
have [vs E Hv] := IH (bt_insert j (dkg_poly.[from_u32 j] *: G) m) S0.
exists vs => // k; rw Hv inE bt_get_insert eq_sym; case: (eqVneq j k) => [->|_] //=.
by case: ifP.
Qed.

(** C7.  From nothing to a signature: when [n] participants generate a key together,
    the commitments they post determine a group key and a verification share for
    each, and any [t] of them, signing with the shares they were dealt, produce a
    signature of that key, the aggregator checking against those shares. *)
Theorem dkg_then_frost msg (signers : seq (nat * (F * F))) :
  valid_indices [seq s.1 | s <- signers] -> all (fun s => s.1 <= n)%N signers -> (t <= size signers)%N ->
  exists st Y vs share sig,
    [/\ run_chain (iota 1 n) = Ok st, state_group_key st = Ok Y, derive_all_verification_shares st = Ok vs,
        (forall j, (0 < j)%N -> exists2 a, run_player (iota 1 n) j = Ok a & finalize a n = Ok (share j))
      & session share msg signers Y (Some vs) = Ok sig /\ verify_signature Y msg sig].
Proof.
move=> vi sn ts; have [vs Evs Hvs] := derive_all_get.
have [|v [<-] i|sig Es Vs] := @honest_session _ _ _ _ _ dkg_poly msg signers (Some vs) vi.
- exact: leq_trans size_dkg_poly ts.
- case/mapP=> s ss ->; apply: Hvs; rw (allP sn _ ss) andbT.
  by case/and3P: vi => _ _ /allP/(_ s.1); rw map_f // => /(_ isT)/andP[].
exists dealt_state, (dkg_poly.[0] *: G), vs, (fun j => dkg_poly.[from_u32 j]), sig.
split=> //; [exact: run_chain_all| |exact: run_player_finalize].
by rw (state_group_keyE t_gt0 (run_chain_reachable run_chain_all) dealt_complete) dealt_slots.
Qed.
End generation.

(** * Witnesses *)

Section witnesses.
Import Demo.
#[local] Existing Instance frost_suite.
Local Abbreviation u := (@from_u32 Q).
Local Abbreviation G := (@generator Q QP rat_curve).

(** Two participants, both needed to sign. *)
Definition demo_draws (i k : nat) : Q := (i + k)%:R.

Lemma dkg_share_matches_witness :
  exists st a, let x := (dkg_poly 2 2 demo_draws).[u 1] in
    derive_verification_share st 1 = Ok (x *: G) /\ state_group_key st = Ok (@derive_group_key Q QP a).
Proof.
have [//|a E Fz] := @run_player_finalize Q QP rat_curve 2 2 demo_draws isT 1.
exists (dealt_state 0 2 2 demo_draws), a.
apply: (@dkg_share_matches _ _ rat_curve 0 2 2 _ 1 a _ isT _ _ _ Fz).
- by apply: (run_chain_reachable (S := iota 1 2) (draws := demo_draws)); apply: run_chain_all.
- exact: dealt_complete.
- by apply: run_player_checks E _.
Defined.

Lemma dkg_then_frost_witness :
  exists st Y vs share sig,
    [/\ @run_chain Q QP rat_curve 0 2 2 demo_draws (iota 1 2) = Ok st, state_group_key st = Ok Y,
        derive_all_verification_shares st = Ok vs,
        (forall j, (0 < j)%N -> exists2 a, @run_player Q QP rat_curve 2 demo_draws (iota 1 2) j = Ok a
                                & finalize a 2 = Ok (share j))
      & session share demo_payload [:: (1, (4%:R, 9%:R)); (2, (2%:R, 5%:R))]%N Y (Some vs) = Ok sig
        /\ verify_signature Y demo_payload sig].
Proof. exact: (@dkg_then_frost Q QP rat_curve rat_laws (@frost_suite Q QP rat_curve)). Defined.
End witnesses.
