(* ===== verification/Nested.v ===== *)
(** Nested FROST, [crates/osst/src/nested.rs]: a position of an outer threshold key
    held by an inner group, dealt by an interleaved key generation and used by an
    inner signing round.

    The inner holders' responses sum to what the outer protocol asks of the position,
    although nobody holds its share.  What is drawn at random is an argument. *)
From Stdlib Require Import Init.Byte.
From mathcomp Require Import ssreflect ssrfun ssrbool eqtype ssrnat seq path div choice fintype bigop ssralg poly.
From S2P Require Import OsstCurve Osst Frost Reshare Dkg.

Set Implicit Arguments.
Unset Strict Implicit.
Unset Printing Implicit Defensive.

Import GRing.Theory.
Local Open Scope ring_scope.

(** * The interleaved key generation *)

Section generation.
Context {F : fieldType} {P : lmodType F} {C : Curve P}.
Local Abbreviation from_u32 := (@from_u32 F).
Local Abbreviation Dealer := (@Dkg.Dealer F P).

Record CoefficientDkg := mkCoefficientDkg { coeff_index : nat; dealers : seq Dealer }.

Record InnerShare := mkInnerShare { is_holder : nat; coefficient_shares : seq F }.

(** The loop with the running power, as several functions have it. *)
Definition power_sum (x : F) (s : seq F) : F :=
  (foldl (fun rp alpha => (rp.1 + alpha * rp.2, rp.2 * x)) (0, 1) s).1.

Definition eval_at (sh : InnerShare) (x : nat) : F := power_sum (from_u32 x) (coefficient_shares sh).

(** Dealer [k] of coefficient [j] draws the polynomial [draws j k]. *)
Definition coefficient_dkgs (inner_n inner_t outer_t : nat) (draws : nat -> nat -> nat -> F)
  : result (seq CoefficientDkg) :=
  traverse (fun j =>
              let? ds := traverse (fun k => Dkg.Dealer_new k inner_t (draws j k)) (iota 1 inner_n) in
              Ok (mkCoefficientDkg j ds))
    (iota 0 outer_t).

Definition coefficient_commitment (dkg_j : CoefficientDkg) : result P :=
  foldl (fun acc d => (let? c := acc in let? c0 := share_commitment (Dkg.commitment d) in Ok (c + c0)))
    (Ok 0) (dealers dkg_j).

(** The share of coefficient [j] of holder [k]. *)
Definition coefficient_share (inner_n k : nat) (dkg_j : CoefficientDkg) : result F :=
  let commitments := [seq Dkg.commitment d | d <- dealers dkg_j] in
  let? agg := foldl (fun acc d =>
                (let? a := acc in
                 let? s := Dkg.generate_subshare d k in
                 match onth commitments (Dkg.d_index d - 1) with
                 | None => Err Panic
                 | Some c => let? (_, a') := Dkg.add_subshare a s c in Ok a'
                 end)) (Dkg.Aggregator_new k) (dealers dkg_j) in
  Dkg.finalize agg inner_n.

Definition interleaved_dkg (inner_n inner_t outer_t : nat) (draws : nat -> nat -> nat -> F)
  : result (seq InnerShare * seq P) :=
  let? dkgs := coefficient_dkgs inner_n inner_t outer_t draws in
  let? commitments := traverse coefficient_commitment dkgs in
  let? shares := traverse (fun k =>
                   let? cs := traverse (coefficient_share inner_n k) dkgs in
                   Ok (mkInnerShare k cs)) (iota 1 inner_n) in
  Ok (shares, commitments).

Definition split_evaluation_for_inner (evaluation : F) (inner_n inner_t : nat) (draw : nat -> F)
  : result (seq (nat * F) * @DealerCommitment F P) :=
  let coeffs := evaluation :: [seq draw i | i <- iota 1 (inner_t - 1)] in
  let? commitment := from_polynomial 1 coeffs in
  Ok ([seq (k, power_sum (from_u32 k) coeffs) | k <- iota 1 inner_n], commitment).

Definition verify_split_piece (c : @DealerCommitment F P) (holder_index : nat) (piece : F) : bool :=
  verify_subshare c holder_index piece.

Definition combine_shares (inner_share : InnerShare) (nested_position : nat) (pieces : seq (nat * F)) : F :=
  foldl (fun acc p => acc + p.2) (eval_at inner_share nested_position) pieces.
End generation.

(** * Signing *)

Section signing.
Context {F : fieldType} {P : lmodType F} {C : Curve P} {U : Suite P}.
Local Abbreviation G := (@generator F P C).
Local Abbreviation SecretShare := (@SecretShare F).

Record InnerNonces := mkInnerNonces { in_holder : nat; in_hiding : F; in_binding : F }.
Record InnerCommitments := mkInnerCommitments { ic_holder : nat; ic_hiding : P; ic_binding : P }.

Definition inner_commit (holder_index : nat) (d e : F) : InnerNonces * InnerCommitments :=
  (mkInnerNonces holder_index d e, mkInnerCommitments holder_index (d *: G) (e *: G)).

Definition inner_binding_factor (holder_index : nat) (outer_message : bytes) (cs : seq InnerCommitments) : F :=
  inner_hash holder_index outer_message
    (flatten [seq to_le_bytes 4 (ic_holder c) ++ compress (ic_hiding c) ++ compress (ic_binding c) | c <- cs]).

Definition aggregate_inner_commitments (cs : seq InnerCommitments) (outer_message : bytes) : P :=
  foldl (fun r_agg c =>
           let rho := inner_binding_factor (ic_holder c) outer_message cs in
           r_agg + (ic_hiding c + rho *: ic_binding c)) 0 cs.

Record InnerSigningParams := mkParams { outer_challenge : F; outer_lambda : F }.
Record InnerSignatureShare := mkInnerSignatureShare { iss_holder : nat; iss_response : F }.

Definition inner_sign (nonces : InnerNonces) (share : SecretShare) (params : InnerSigningParams)
    (cs : seq InnerCommitments) (active_indices : seq nat) (outer_message : bytes)
  : result InnerSignatureShare :=
  let rho_inner := inner_binding_factor (in_holder nonces) outer_message cs in
  let? lagrange := compute_lagrange_coefficients active_indices in
  match position (sh_index share) active_indices with
  | None => Err InvalidIndex
  | Some my_pos =>
      let mu_k := lagrange`_my_pos in
      let rho_e := rho_inner * in_binding nonces in
      let weight := outer_lambda params * outer_challenge params * mu_k in
      Ok (mkInnerSignatureShare (in_holder nonces)
            (in_hiding nonces + rho_e + weight * scalar share))
  end.

Definition aggregate_inner_shares (shares : seq InnerSignatureShare) : F :=
  foldl (fun z s => z + iss_response s) 0 shares.
End signing.

(** * What the inner holders hold *)

Section shares.
Context {F : fieldType} {P : lmodType F} {C : Curve P}.
Local Abbreviation G := (@generator F P C).
Local Abbreviation from_u32 := (@from_u32 F).

Lemma power_sumE x (s : seq F) : power_sum x s = (Poly s).[x].
Proof.
rw /power_sum horner_Poly; suff H r p : (foldl (fun rp a => (rp.1 + a * rp.2, rp.2 * x)) (r, p) s).1
    = r + p * horner_rec s x by rw H add0r mul1r.
elim: s r p => [|a s IH] r p /=; first by rw mulr0 addr0.
by rw IH mulrDr -addrA [a * p]mulrC [p * a + _]addrC mulrA mulrAC.
Qed.

Variables (inner_n inner_t outer_t : nat) (draws : nat -> nat -> nat -> F).
Hypothesis inner_t_gt0 : (0 < inner_t)%N.

(** The polynomial that shares coefficient [j]. *)
Definition coefficient_poly (j : nat) : {poly F} := dkg_poly inner_t inner_n (draws j).

Definition dealer_of (j k : nat) : @Dkg.Dealer F P :=
  Dkg.mkDealer k (Dkg.coeffs inner_t (draws j) k) (dealt inner_t (draws j) k).
Definition dkg_of (j : nat) : CoefficientDkg := mkCoefficientDkg j [seq dealer_of j k | k <- iota 1 inner_n].

Lemma coefficient_dkgsE : coefficient_dkgs inner_n inner_t outer_t draws = Ok [seq dkg_of j | j <- iota 0 outer_t].
Proof.
apply: traverse_ok => j _; rw (traverse_ok (g := dealer_of j)) // => k.
by rw mem_iota => /andP[k0 _]; rw Dkg.dkg_Dealer_newE.
Qed.

Lemma coefficient_commitmentE j : coefficient_commitment (dkg_of j) = Ok ((coefficient_poly j).[0] *: G).
Proof.
rw /coefficient_commitment foldl_map.
rw (foldl_result_add (g := fun k => (Poly (Dkg.coeffs inner_t (draws j) k)).[0] *: G)) => [k|].
  rw share_commitmentE /= ?points_at_committed // => /(congr1 size); rw size_map Dkg.size_coeffs => E.
  by move: inner_t_gt0; rw E.
by rw add0r /coefficient_poly /dkg_poly horner_sum scaler_suml.
Qed.

Lemma coefficient_shareE j k :
  (0 < k)%N -> coefficient_share inner_n k (dkg_of j) = Ok (coefficient_poly j).[from_u32 k].
Proof.
move=> k0; rw /coefficient_share foldl_map.
have [a E Fz] := run_player_finalize (C := C) inner_n (draws j) inner_t_gt0 k0.
set fold := foldl _ _ _; suff -> : fold = @run_player F P C inner_t (draws j) (iota 1 inner_n) k by rw E.
rw /fold /run_player.
apply: eq_in_foldl => i; rw mem_iota => /andP[i0 li] [acc|//].
rw Dkg.dkg_Dealer_newE // (_ : onth _ _ = Some (dealt inner_t (draws j) i)) //.
have li' : (i - 1 < inner_n)%N by rw subn1 -ltnS prednK // -add1n.
rw onthE -!map_comp (nth_map 0%N) ?size_iota //.
by rw /= nth_iota // subn1 add1n prednK.
Qed.

Lemma interleaved_dkgE :
  interleaved_dkg inner_n inner_t outer_t draws
  = Ok ([seq mkInnerShare k [seq (coefficient_poly j).[from_u32 k] | j <- iota 0 outer_t] | k <- iota 1 inner_n],
        [seq (coefficient_poly j).[0] *: G | j <- iota 0 outer_t]).
Proof.
rw /interleaved_dkg coefficient_dkgsE traverse_map.
rw (traverse_ok (g := fun j => (coefficient_poly j).[0] *: G)) => [j _|]; first exact: coefficient_commitmentE.
rw (traverse_ok (g := fun k => mkInnerShare k [seq (coefficient_poly j).[from_u32 k] | j <- iota 0 outer_t])) //.
move=> k; rw mem_iota traverse_map => /andP[k0 _].
by rw (traverse_ok (g := fun j => (coefficient_poly j).[from_u32 k])) // => j _; apply: coefficient_shareE.
Qed.

(** The outer polynomial nobody knows, and the sharing of its value at [x]. *)
Definition outer_poly : {poly F} := Poly [seq (coefficient_poly j).[0] | j <- iota 0 outer_t].
Definition eval_poly (x : F) : {poly F} :=
  foldr (fun j acc => x *: acc + coefficient_poly j) 0 (iota 0 outer_t).

Lemma size_eval_poly x : (size (eval_poly x) <= inner_t)%N.
Proof.
rw /eval_poly; elim: (iota _ _) => [|j js IH] /=; first by rw size_poly0.
rw (leq_trans (size_polyD _ _)) // geq_max size_dkg_poly andbT.
by rw (leq_trans (size_scale_leq _ _)).
Qed.

Lemma eval_polyE x z :
  (eval_poly x).[z] = (Poly [seq (coefficient_poly j).[z] | j <- iota 0 outer_t]).[x].
Proof.
rw /eval_poly horner_Poly; elim: (iota _ _) => [|j js IH] /=; first by rw horner0.
by rw hornerD hornerZ IH mulrC.
Qed.

(** The share of holder [k] evaluates to its share of the outer value. *)
Lemma eval_at_share k x :
  eval_at (mkInnerShare k [seq (coefficient_poly j).[from_u32 k] | j <- iota 0 outer_t]) x
  = (eval_poly (from_u32 x)).[from_u32 k].
Proof. by rw /eval_at power_sumE eval_polyE. Qed.

Lemma eval_poly_0 x : (eval_poly x).[0] = outer_poly.[x].
Proof. exact: eval_polyE. Qed.
End shares.

(** * The inner round *)

Section round.
Context {F : fieldType} {P : lmodType F} {C : Curve P} {L : @CurveLaws F P C} {U : Suite P}.
Local Abbreviation G := (@generator F P C).
Local Abbreviation from_u32 := (@from_u32 F).

(** The active holders [S] commit with the nonces [d] and [e] and sign with their
    shares; the relay sums the responses. *)
Definition inner_commitments (S : seq nat) (d e : nat -> F) : seq InnerCommitments :=
  [seq (@inner_commit F P C k (d k) (e k)).2 | k <- S].

Definition inner_round (S : seq nat) (d e share : nat -> F) (params : InnerSigningParams) (msg : bytes) : result F :=
  let? sigs := traverse (fun k =>
      inner_sign (@inner_commit F P C k (d k) (e k)).1 (mkSecretShare k (share k)) params
        (inner_commitments S d e) S msg) S in
  Ok (aggregate_inner_shares sigs).

Lemma aggregate_inner_commitmentsE S d e msg :
  aggregate_inner_commitments (inner_commitments S d e) msg
  = \sum_(k <- S) (d k + inner_binding_factor k msg (inner_commitments S d e) * e k) *: G.
Proof.
rw /aggregate_inner_commitments foldl_add add0r {1}/inner_commitments big_map.
by apply: eq_bigr => k _; rw /= scalerDl scalerA.
Qed.

(** The response of holder [k]. *)
Definition inner_response S d e (share : nat -> F) (params : InnerSigningParams) msg k : F :=
  d k + inner_binding_factor k msg (inner_commitments S d e) * e k
  + outer_lambda params * outer_challenge params * lagrange [seq from_u32 i | i <- S] (from_u32 k) * share k.

Lemma inner_signE S d e share params msg k :
  valid_indices S -> k \in S ->
  inner_sign (@inner_commit F P C k (d k) (e k)).1 (mkSecretShare k (share k)) params
    (inner_commitments S d e) S msg
  = Ok (mkInnerSignatureShare k (inner_response S d e share params msg k)).
Proof.
move=> vS kS; rw /inner_sign compute_lagrangeE // [sh_index _]/=.
by have [-> ->] := position_nth (fun i => lagrange [seq from_u32 j | j <- S] (from_u32 i)) kS.
Qed.

Lemma response_sum (h : {poly F}) S d e params msg :
  valid_indices S -> (size h <= size S)%N ->
  (\sum_(k <- S) inner_response S d e (fun k => h.[from_u32 k]) params msg k) *: G
  = aggregate_inner_commitments (inner_commitments S d e) msg
    + (outer_lambda params * outer_challenge params) *: (h.[0] *: G).
Proof.
move=> vS hS; rw aggregate_inner_commitmentsE -scaler_suml scalerA -scalerDl; congr (_ *: _).
rw big_split /= -(shares_interpolate vS hS) mulr_sumr; congr (_ + _).
by apply: eq_bigr => k _; rw mulrA.
Qed.

Lemma aggregate_responses S (g : nat -> F) :
  aggregate_inner_shares [seq mkInnerSignatureShare k (g k) | k <- S] = \sum_(k <- S) g k.
Proof. by rw /aggregate_inner_shares foldl_add add0r big_map. Qed.

(** The inner group answers for its position: when enough holders of shares of a
    secret sign, the sum of their responses commits to the group's aggregated
    commitment plus the weighted public share of the secret, which is what the
    outer protocol asks of the position (its binding commitment being zero). *)
Lemma inner_round_fits (h : {poly F}) S d e params msg :
  valid_indices S -> (size h <= size S)%N ->
  exists2 z, inner_round S d e (fun k => h.[from_u32 k]) params msg = Ok z
    & z *: G = aggregate_inner_commitments (inner_commitments S d e) msg
               + (outer_lambda params * outer_challenge params) *: (h.[0] *: G).
Proof.
move=> vS hS; rw /inner_round.
rw (traverse_ok (g := fun k => mkInnerSignatureShare k
                        (inner_response S d e (fun k => h.[from_u32 k]) params msg k))) => [k|]; first exact: inner_signE.
eexists; first by []; rw -(response_sum _ _ _ _ vS hS).
by rw aggregate_responses.
Qed.
End round.

(** * The outer protocol of a signer and a nested position *)

Section outer.
Context {F : fieldType} {P : lmodType F} {C : Curve P} {L : @CurveLaws F P C} {U : Suite P}.
Local Abbreviation G := (@generator F P C).
Local Abbreviation from_u32 := (@from_u32 F).

(** The package of signer [b], with nonces [n], and position [j], which presents the
    commitments [R] and [E]. *)
Record pair_package msg b j (n : @Nonces F) (R E : P) (p : @SigningPackage F P) : Prop := {
  pair_new : SigningPackage_new msg [:: mkSigningCommitments b (n_hiding n *: G) (n_binding n *: G);
                                       mkSigningCommitments j R E] = Ok p;
  pair_ok : package_ok p;
  pair_message : message p = msg;
  pair_indices : perm_eq [:: b; j] (signer_indices p);
  pair_u32 : u32_signers p;
  pair_b : com p b = mkSigningCommitments b (n_hiding n *: G) (n_binding n *: G);
  pair_j : com p j = mkSigningCommitments j R E;
}.

Lemma pair_packageP msg b j n R E : valid_indices [:: b; j] -> exists p, pair_package msg b j n R E p.
Proof.
move=> /and3P[_ /= + /and3P[/andP[b0 lb] /andP[j0 lj] _]]; rw inE andbT => bj.
pose cs := [:: mkSigningCommitments b (n_hiding n *: G) (n_binding n *: G); mkSigningCommitments j R E].
have [|p Ep] := proj2 (SigningPackage_newP msg cs); first by rw /= -!lt0n b0 j0 inE bj.
have [okp mp _] := SigningPackage_new_ok Ep; have [pk ce] := package_signers Ep.
exists p; split=> //; first by rw perm_sym.
- by rw /u32_signers (perm_all _ pk) /= lb lj.
- by apply: (ce (mkSigningCommitments b _ _)); rw mem_head.
- by apply: (ce (mkSigningCommitments j _ _)); rw inE mem_head orbT.
Qed.

Lemma pair_signs (f : {poly F}) msg b j n R E p z :
  (size f <= 2)%N -> pair_package msg b j n R E p ->
  z *: G = R + binding_factor p j *: E + (lam p j * sig_challenge p (f.[0] *: G)) *: (f.[from_u32 j] *: G) ->
  let zb := response p n b f.[from_u32 b] (f.[0] *: G) in
  [/\ sign p n (mkSecretShare b f.[from_u32 b]) (f.[0] *: G) = Ok (mkSignatureShare b zb),
      Frost.aggregate p [:: mkSignatureShare b zb; mkSignatureShare j z] (f.[0] *: G) None
      = Ok (mkSignature (group_commitment p) (zb + z))
    & verify_signature (f.[0] *: G) msg (mkSignature (group_commitment p) (zb + z))].
Proof.
move=> sf [_ okp <- pk ps cb cj] ez zb.
have np : num_signers p = 2 by move/perm_size: pk; rw size_map.
have zz : \sum_(s <- [:: mkSignatureShare b zb; mkSignatureShare j z]) ss_response s = zb + z.
  by rw !big_cons big_nil addr0.
split; first by rw signE // -(perm_mem pk) mem_head.
  by rw unchecked_shares np zz.
rw -zz; apply: points_sign => //; first by rw np.
rw /= andbT response_point ?cb //= eqxx /= ez /share_point cj /= eqxx.
by [].
Qed.
End outer.

(** * Witness *)

Section witnesses.
Import Demo.
#[local] Existing Instance frost_suite.
Local Abbreviation G := (@generator Q QP rat_curve).

(** Holders 1 and 3 of 7 + x. *)
Lemma inner_round_fits_witness :
  let d (k : nat) : Q := (k + 1)%:R in let e (k : nat) : Q := 1 in
  exists2 z, inner_round [:: 1; 3]%N d e (fun k => demo_poly.[from_u32 k]) (mkParams 2%:R 3%:R) demo_payload = Ok z
    & z *: G = aggregate_inner_commitments (inner_commitments [:: 1; 3]%N d e) demo_payload
               + (3%:R * 2%:R) *: (demo_poly.[0] *: G).
Proof. by apply: inner_round_fits; rw ?size_XaddC. Defined.
End witnesses.
