(* ===== verification/Jury.v ===== *)
(** The in-process jury of the poker server, [crates/poker-server/src/jury.rs]: nested
    signing of a settlement by a threshold of jury nodes and one player.

    [Ok None] is the [None] of the code, [Err Panic] a slice or an index out of
    range.  The nonces are named by the node that draws them. *)
From Stdlib Require Import Init.Byte.
From mathcomp Require Import ssreflect ssrfun ssrbool eqtype ssrnat seq path div choice fintype bigop ssralg poly.
From S2P Require Import OsstCurve Osst Frost Nested.

Set Implicit Arguments.
Unset Strict Implicit.
Unset Printing Implicit Defensive.

Import GRing.Theory.
Local Open Scope ring_scope.

Section jury.
Context {F : fieldType} {P : lmodType F} {C : Curve P}.
#[local] Existing Instance frost_suite.
Local Abbreviation G := (@generator F P C).
Local Abbreviation SecretShare := (@SecretShare F).

Record JurySignature := mkJurySignature { js_r : P; js_s : F; verified : bool }.

Record LocalJury := mkLocalJury {
  shares : seq SecretShare;
  jury_threshold : nat;
  jury_pubkey : P;
  outer_group_pubkey : P;
  outer_index : nat;
}.

Definition compute_outer_binding (index : nat) (message : bytes) (package : @SigningPackage F P) : F :=
  let encoded := flatten [seq (if get_commitments package idx is Some c
                               then to_le_bytes 4 (sc_index c) ++ compress (hiding c) ++ compress (binding c)
                               else [::]) | idx <- signer_indices package] in
  compute_binding_factor index message encoded.

(** The loop for the outer group commitment. *)
Definition outer_commitment (message : bytes) (package : @SigningPackage F P) : option P :=
  foldl (fun acc idx =>
           match acc, get_commitments package idx with
           | Some r, Some c =>
               let rho := compute_outer_binding idx message package in
               Some (r + hiding c + rho *: binding c)
           | _, _ => None
           end) (Some 0) (signer_indices package).

Definition sign (self : LocalJury) (message : bytes) (buyer_share : SecretShare)
    (d e : nat -> F) (buyer_d buyer_e : F) : result (option JurySignature) :=
  ensure! (jury_threshold self <= size (shares self))%N else Panic ;;
  let active_indices := [seq sh_index s | s <- take (jury_threshold self) (shares self)] in
  let inner_nonces := [seq (@inner_commit F P C k (d k) (e k)).1 | k <- active_indices] in
  let inner_commitments := [seq (@inner_commit F P C k (d k) (e k)).2 | k <- active_indices] in
  let r_nested := aggregate_inner_commitments inner_commitments message in
  let? (buyer_nonces, buyer_frost_commits) := commit (sh_index buyer_share) buyer_d buyer_e in
  let jury_outer_commits := mkSigningCommitments (outer_index self) r_nested 0 in
  try? outer_package := SigningPackage_new message [:: buyer_frost_commits; jury_outer_commits] in
  try? buyer_sig := Frost.sign outer_package buyer_nonces buyer_share (outer_group_pubkey self) in
  let outer_indices := signer_indices outer_package in
  try? outer_lambda := compute_lagrange_coefficients outer_indices in
  match position (outer_index self) outer_indices, outer_commitment message outer_package with
  | Some nested_pos, Some outer_gc =>
      let outer_challenge := compute_challenge outer_gc (outer_group_pubkey self) message in
      let params := mkParams outer_challenge outer_lambda`_nested_pos in
      try? inner_sigs := traverse (fun nk =>
          match onth (shares self) (nk.2 - 1) with
          | None => Err Panic
          | Some share => inner_sign nk.1 share params inner_commitments active_indices message
          end) (zip inner_nonces active_indices) in
      let z_nested := aggregate_inner_shares inner_sigs in
      let jury_sig_share := mkSignatureShare (outer_index self) z_nested in
      try? signature := Frost.aggregate outer_package [:: buyer_sig; jury_sig_share]
                          (outer_group_pubkey self) None in
      let verified := verify_signature (outer_group_pubkey self) message signature in
      Ok (Some (mkJurySignature (sig_r signature) (sig_z signature) verified))
  | _, _ => Ok None
  end.
End jury.

(** * What the jury signs verifies *)

Section correctness.
Context {F : fieldType} {P : lmodType F} {C : Curve P} {L : @CurveLaws F P C}.
#[local] Existing Instance frost_suite.
Local Abbreviation G := (@generator F P C).
Local Abbreviation from_u32 := (@from_u32 F).

(** The server's own hash of a package is the package's binding factor. *)
Lemma compute_outer_bindingE i p :
  package_ok p -> compute_outer_binding i (message p) p = binding_factor p i.
Proof.
move=> okp; rw /binding_factor /compute_outer_binding; case: (okp) => _ _ ->; congr compute_binding_factor.
rw /encode_commitments package_values // -map_comp; congr flatten.
by apply/eq_in_map => k kp; rw com_get.
Qed.

Lemma outer_commitmentE p : package_ok p -> outer_commitment (message p) p = Some (group_commitment p).
Proof.
move=> okp; rw /outer_commitment group_commitmentE //.
suff H S (r : P) : {subset S <= signer_indices p} ->
    foldl (fun acc idx =>
             match acc, get_commitments p idx with
             | Some r, Some c => Some (r + hiding c + @compute_outer_binding F P C idx (message p) p *: binding c)
             | _, _ => None
             end) (Some r) S
    = Some (r + \sum_(i <- S) (hiding (com p i) + @binding_factor F P (@frost_suite F P C) p i *: binding (com p i))).
  by rw H // add0r.
elim: S r => [|i S IH] r sub /=; first by rw big_nil addr0.
rw com_get ?sub ?mem_head // IH => [k kS|]; first by rw sub // inE kS orbT.
by rw compute_outer_bindingE // big_cons !addrA.
Qed.

(** The inner signatures of the first [t] nodes, whose shares are indexed in order. *)
Lemma inner_sigsE (h : {poly F}) n t d e params msg :
  valid_indices (iota 1 t) -> (t <= n)%N ->
  traverse (fun nk =>
      match onth [seq mkSecretShare k h.[from_u32 k] | k <- iota 1 n] (nk.2 - 1) with
      | None => Err Panic
      | Some share => inner_sign nk.1 share params (inner_commitments (iota 1 t) d e) (iota 1 t) msg
      end) (zip [seq (@inner_commit F P C k (d k) (e k)).1 | k <- iota 1 t] (iota 1 t))
  = Ok [seq mkInnerSignatureShare k
              (@inner_response F P C frost_suite (iota 1 t) d e (fun k => h.[from_u32 k]) params msg k)
       | k <- iota 1 t].
Proof.
move=> vS tn; rw zip_map_l traverse_map; apply: traverse_ok => k kS.
have -> : onth [seq mkSecretShare k h.[from_u32 k] | k <- iota 1 n] (k - 1) = Some (mkSecretShare k h.[from_u32 k]).
  move: kS; rw mem_iota add1n ltnS => /andP[k0 kt].
  have lk : (k - 1 < n)%N by rw subn1 prednK // (leq_trans kt).
  by rw onthE -map_comp (nth_map 0%N) ?size_iota //= nth_iota // subn1 add1n prednK.
exact: inner_signE.
Qed.

(** The jury's signature verifies: when the jury nodes hold shares of the jury's
    share of the table's key, and the player a share of its own, signing succeeds
    and the signature is valid, whatever nonces are drawn. *)
Lemma jury_signature_verifies (f h : {poly F}) n (jury : LocalJury) message buyer d e bd be :
  shares jury = [seq mkSecretShare k h.[from_u32 k] | k <- iota 1 n] ->
  (size h <= jury_threshold jury)%N -> (0 < jury_threshold jury <= n)%N -> (n < 2 ^ 32)%N ->
  h.[0] = f.[from_u32 (outer_index jury)] -> (size f <= 2)%N -> outer_group_pubkey jury = f.[0] *: G ->
  valid_indices [:: buyer; outer_index jury] ->
  exists2 sig, sign jury message (mkSecretShare buyer f.[from_u32 buyer]) d e bd be = Ok (Some sig)
    & verified sig /\ verify_signature (outer_group_pubkey jury) message (mkSignature (js_r sig) (js_s sig)).
Proof.
case: jury => sh t jpk Y j /= Esh ht /andP[t0 tn] nu hf sf -> vbj.
have ai : [seq sh_index s | s <- take t sh] = iota 1 t.
  by rw Esh -map_take take_iota (minn_idPl tn) -map_comp map_id_in.
have b0 : (0 < buyer)%N by case/and3P: vbj => _ _ /andP[/andP[]].
have vS : valid_indices (iota 1 t).
  apply/and3P; split; [by rw -size_eq0 size_iota -lt0n|exact: iota_uniq|].
  apply/allP => k; rw mem_iota add1n ltnS => /andP[-> kt]; exact: leq_ltn_trans (leq_trans kt tn) nu.
have tsh : (t <= size sh)%N by rw Esh size_map size_iota.
rw /sign [jury_threshold _]/= [shares _]/= [outer_index _]/= [outer_group_pubkey _]/= tsh ai /commit b0.
set ics := [seq (inner_commit k (d k) (e k)).2 | k <- _]; set R := aggregate_inner_commitments _ _.
have [p pp] := pair_packageP message (mkNonces bd be) R 0 vbj; rw (pair_new pp).
have okp := pair_ok pp; have jp : j \in signer_indices p.
  by rw -(perm_mem (pair_indices pp)) inE mem_head orbT.
have bp : buyer \in signer_indices p by rw -(perm_mem (pair_indices pp)) mem_head.
have vp := package_valid okp (pair_u32 pp).
rw signE ?(pair_u32 pp) // compute_lagrangeE //.
rw -(pair_message pp) outer_commitmentE //.
have [-> lE] := position_nth (lam p) jp.
set params := mkParams _ _.
have Ep : params = mkParams (sig_challenge p (f.[0] *: G)) (lam p j) by rw /params; congr mkParams; exact: lE.
rw Esh inner_sigsE //; have hS : (size h <= size (iota 1 t))%N by rw size_iota.
set sigs := [seq mkInnerSignatureShare _ _ | _ <- _].
have zE : aggregate_inner_shares sigs *: G = R + binding_factor p j *: 0 + (lam p j * sig_challenge p (f.[0] *: G)) *: (f.[from_u32 j] *: G).
  by rw scaler0 addr0 aggregate_responses response_sum // hf {1}Ep (pair_message pp).
rw (pair_message pp).
have [_ -> V] := pair_signs sf pp zE.
by eexists.
Qed.
End correctness.

(** * Witness *)

Section witnesses.
Import Demo.
#[local] Existing Instance frost_suite.
Local Abbreviation u := (@from_u32 Q).
Local Abbreviation G := (@generator Q QP rat_curve).

(** Three jury nodes, two of whom sign for position 3 of the key 7 + x. *)
Definition demo_jury_poly : {poly Q} := 'X + (demo_poly.[u 3])%:P.
Definition demo_jury : @LocalJury Q QP :=
  mkLocalJury [seq mkSecretShare k demo_jury_poly.[u k] | k <- iota 1 3] 2
    (demo_jury_poly.[0] *: G) (demo_poly.[0] *: G) 3.

Lemma jury_signature_verifies_witness :
  exists2 sig, sign demo_jury demo_payload (mkSecretShare 1 demo_poly.[u 1]) (fun k => k%:R) (fun _ => 1) 4%:R 9%:R
               = Ok (Some sig)
    & verified sig /\ verify_signature (demo_poly.[0] *: G) demo_payload (mkSignature (js_r sig) (js_s sig)).
Proof.
apply: (@jury_signature_verifies _ _ _ rat_laws demo_poly demo_jury_poly 3 demo_jury) => //.
- by rw size_XaddC.
- by rw hornerD hornerX hornerC add0r.
- by rw size_XaddC.
Defined.
End witnesses.
