(* ===== verification/RedPallas.v ===== *)
(** The escrow of a table on Zcash, [crates/osst/src/redpallas.rs]: a 2-of-3 key of two
    players and a jury network, set up so that the jury's share is never assembled,
    and the two ways to sign with the jury, directly and by the dispute protocol.

    The protocol is FROST with other hashes, so the package, the aggregation and the
    verification are those of [Frost] at the suite [redpallas_suite].  Nonces and
    coefficients drawn at random are arguments. *)
From Stdlib Require Import Init.Byte.
From Stdlib Require String.
From mathcomp Require Import ssreflect ssrfun ssrbool eqtype ssrnat seq path div choice fintype bigop ssralg poly.
From S2P Require Import OsstCurve Osst Reshare Dkg Frost Nested.
Import String.StringSyntax.

Set Implicit Arguments.
Unset Strict Implicit.
Unset Printing Implicit Defensive.

Import GRing.Theory.
Local Open Scope ring_scope.

Section hashes.
Context {F : fieldType} {P : lmodType F} {C : Curve P}.

Definition redpallas_challenge (group_commitment group_pubkey : P) (message : bytes) : F :=
  from_bytes_wide (blake2b (label "Zcash_RedPallasH")
                     (compress group_commitment ++ compress group_pubkey ++ message)).

Definition redpallas_binding_factor (index : nat) (message encoded_commitments : bytes) : F :=
  from_bytes_wide (blake2b (label "FROST_RedPallas_")
                     (to_le_bytes 4 index ++ to_le_bytes 8 (size message) ++ message ++ encoded_commitments)).

(** On the encoded inner commitments. *)
Definition redpallas_inner_hash (holder_index : nat) (outer_message encoded : bytes) : F :=
  from_bytes_wide (blake2b (label "frostito_inner__")
                     (to_le_bytes 4 holder_index ++ to_le_bytes 8 (size outer_message) ++ outer_message ++ encoded)).

Definition redpallas_suite : Suite P :=
  {| bind_hash := redpallas_binding_factor; challenge_hash := redpallas_challenge;
     inner_hash := redpallas_inner_hash |}.
End hashes.

Section redpallas.
Context {F : fieldType} {P : lmodType F} {C : Curve P}.
#[local] Existing Instance redpallas_suite.
Local Abbreviation G := (@generator F P C).
Local Abbreviation from_u32 := (@from_u32 F).
Local Abbreviation SecretShare := (@SecretShare F).
Local Abbreviation Package := (@SigningPackage F P).
Local Abbreviation Nonces := (@Nonces F).
Local Abbreviation SignatureShare := (@SignatureShare F).
Local Abbreviation Signature := (@Signature F P).

Definition RedPallasPackage_new (message : bytes) (cs : seq (@SigningCommitments F P)) : result Package :=
  SigningPackage_new message cs.

(** As in [Frost], with the response computed by [compute_response]. *)
Definition sign (package : Package) (nonces : Nonces) (share : SecretShare) (group_pubkey : P)
  : result SignatureShare :=
  ensure! isSome (bt_get (sh_index share) (Frost.commitments package)) else InvalidIndex ;;
  let rho := binding_factor package (sh_index share) in
  let c := challenge package (group_commitment package) group_pubkey in
  let indices := signer_indices package in
  let? lagrange := compute_lagrange_coefficients indices in
  match position (sh_index share) indices with
  | None => Err InvalidIndex
  | Some my_pos =>
      Ok (mkSignatureShare (sh_index share)
            (compute_response nonces rho lagrange`_my_pos c (scalar share)))
  end.

Definition aggregate (package : Package) (shares : seq SignatureShare) (group_pubkey : P)
    (verifier_shares : option (btree P)) : result Signature :=
  Frost.aggregate package shares group_pubkey verifier_shares.

Definition verify_signature (group_pubkey : P) (message : bytes) (signature : Signature) : bool :=
  Frost.verify_signature group_pubkey message signature.

(** * The escrow *)

Record JuryNetwork := mkJuryNetwork {
  node_shares : seq SecretShare;
  jury_threshold : nat;
  outer_verification_share : P;
  outer_group_pubkey : P;
  fvk_seed : bytes;
}.

(** The jury nodes' interpolation of [f3(x)]. *)
Definition reconstruct_eval (inner_shares : seq (@InnerShare F)) (jury_threshold x : nat) : result F :=
  let eval_active := iota 1 jury_threshold in
  let? eval_lambda := compute_lagrange_coefficients eval_active in
  foldl (fun acc ik =>
           (let? v := acc in
            match onth inner_shares (ik.2 - 1) with
            | None => Err Panic
            | Some sh => Ok (v + eval_lambda`_ik.1 * eval_at sh x)
            end)) (Ok 0) (zip (iota 0 (size eval_active)) eval_active).

(** The share of jury node [k], counted from 0. *)
Definition jury_node_share (inner_shares : seq (@InnerShare F)) (f1_pieces f2_pieces : seq (nat * F))
    (f1_commitment f2_commitment : @DealerCommitment F P) (nested_position k : nat) : result SecretShare :=
  let holder_idx := k.+1 in
  match onth f1_pieces k, onth f2_pieces k, onth inner_shares k with
  | Some p1, Some p2, Some sh =>
      ensure! verify_split_piece f1_commitment holder_idx p1.2 else InvalidResponse ;;
      ensure! verify_split_piece f2_commitment holder_idx p2.2 else InvalidResponse ;;
      let sigma := combine_shares sh nested_position [:: (1%N, p1.2); (2%N, p2.2)] in
      SecretShare_new k.+1 sigma
  | _, _, _ => Err Panic
  end.

(** The verification share of the nested position from the commitments. *)
Definition nested_verification_share (a b : P) (coeff_commitments : seq P) (p : F) : P :=
  (foldl (fun vp cc => (vp.1 + vp.2 *: cc, vp.2 * p)) (a + b, 1) coeff_commitments).1.

Definition setup_escrow (jury_n jury_threshold : nat) (draw_a draw_b : nat -> F)
    (draw_jury : nat -> nat -> nat -> F) (draw_split_a draw_split_b : nat -> F)
  : result (SecretShare * SecretShare * JuryNetwork * P) :=
  let outer_t := 2%N in
  let nested_position := 3%N in
  let? player_a_dealer := Dkg.Dealer_new 1 outer_t draw_a in
  let? player_b_dealer := Dkg.Dealer_new 2 outer_t draw_b in
  let? (inner_shares, coeff_commitments) := interleaved_dkg jury_n jury_threshold outer_t draw_jury in
  let? f3_at_1 := reconstruct_eval inner_shares jury_threshold 1 in
  let? f3_at_2 := reconstruct_eval inner_shares jury_threshold 2 in
  let? f1_at_3 := Dkg.generate_subshare player_a_dealer nested_position in
  let? (f1_pieces, f1_commitment) :=
    split_evaluation_for_inner (value f1_at_3) jury_n jury_threshold draw_split_a in
  let? f2_at_3 := Dkg.generate_subshare player_b_dealer nested_position in
  let? (f2_pieces, f2_commitment) :=
    split_evaluation_for_inner (value f2_at_3) jury_n jury_threshold draw_split_b in
  let? jury_shares :=
    traverse (jury_node_share inner_shares f1_pieces f2_pieces f1_commitment f2_commitment nested_position)
      (iota 0 jury_n) in
  let? a1 := Dkg.generate_subshare player_a_dealer 1 in
  let? b1 := Dkg.generate_subshare player_b_dealer 1 in
  let? a2 := Dkg.generate_subshare player_a_dealer 2 in
  let? b2 := Dkg.generate_subshare player_b_dealer 2 in
  let s1 := value a1 + value b1 + f3_at_1 in
  let s2 := value a2 + value b2 + f3_at_2 in
  let? player_a := SecretShare_new 1 s1 in
  let? player_b := SecretShare_new 2 s2 in
  let? ca := share_commitment (Dkg.commitment player_a_dealer) in
  let? cb := share_commitment (Dkg.commitment player_b_dealer) in
  match coeff_commitments with
  | [::] => Err Panic
  | cc0 :: _ =>
      let group_pubkey := ca + cb + cc0 in
      let? ea := evaluate_at (Dkg.commitment player_a_dealer) nested_position in
      let? eb := evaluate_at (Dkg.commitment player_b_dealer) nested_position in
      let jury_vshare := nested_verification_share ea eb coeff_commitments (from_u32 nested_position) in
      let fvk_seed := blake2b (label "frostito_fvk_sd_")
                        (scalar_to_bytes s1 ++ scalar_to_bytes s2 ++ compress group_pubkey) in
      let jury := mkJuryNetwork jury_shares jury_threshold jury_vshare group_pubkey fvk_seed in
      Ok (player_a, player_b, jury, group_pubkey)
  end.

(** * Signing with the jury *)

Definition reconstruct_secret (shares : seq SecretShare) : result F :=
  let? lagrange := compute_lagrange_coefficients [seq sh_index s | s <- shares] in
  Ok (foldl (fun secret sc => secret + sc.2 * scalar sc.1) 0 (zip shares lagrange)).

(** [node_shares[..threshold]] *)
Definition active_shares (jury : JuryNetwork) : result (seq SecretShare) :=
  ensure! (jury_threshold jury <= size (node_shares jury))%N else Panic ;;
  Ok (take (jury_threshold jury) (node_shares jury)).

Definition jury_sign_share (jury : JuryNetwork) (outer_nonces : Nonces) (outer_package : Package)
    (outer_index : nat) : result SignatureShare :=
  let rho := binding_factor outer_package outer_index in
  let c := challenge outer_package (group_commitment outer_package) (outer_group_pubkey jury) in
  let outer_indices := signer_indices outer_package in
  let? outer_lagrange := compute_lagrange_coefficients outer_indices in
  match position outer_index outer_indices with
  | None => Err InvalidIndex
  | Some outer_pos =>
      let lambda_outer := outer_lagrange`_outer_pos in
      let? active := active_shares jury in
      let? secret := reconstruct_secret active in
      Ok (mkSignatureShare outer_index (compute_response outer_nonces rho lambda_outer c secret))
  end.

(** The jury nodes' proof that they agree on a payload, nonce [r k] for node [k]. *)
Definition jury_consensus (jury : JuryNetwork) (payload : bytes) (r : nat -> F) : result unit :=
  let? active := active_shares jury in
  let? jury_secret := reconstruct_secret active in
  let jury_group_pubkey := jury_secret *: G in
  let contributions := [seq contribute s (r (sh_index s)) payload | s <- active] in
  let? osst_valid := Osst.verify jury_group_pubkey contributions (jury_threshold jury) payload in
  ensure! osst_valid else InvalidResponse ;;
  Ok tt.

Definition jury_sign_with_osst_consensus (jury : JuryNetwork) (outer_nonces : Nonces)
    (outer_package : Package) (outer_index : nat) (verdict_payload : bytes) (r : nat -> F)
  : result (SignatureShare * bool) :=
  let? _ := jury_consensus jury verdict_payload r in
  let? frost_share := jury_sign_share jury outer_nonces outer_package outer_index in
  Ok (frost_share, true).

Definition derive_address_bytes (group_pubkey : P) : bytes := compress group_pubkey.

(** Nested signing of a dispute: OSST authorisation, then the inner and the outer
    round.  [r], [d] and [e] are the jury nodes' nonces, [pd] and [pe] the player's. *)
Definition nested_redpallas_sign (jury : JuryNetwork) (player_share : SecretShare) (message : bytes)
    (r d e : nat -> F) (pd pe : F) : result (option (Signature * bool)) :=
  let jury_index := 3%N in
  let? active := active_shares jury in
  let active_jury := [seq sh_index s | s <- active] in
  let? contributions := traverse (fun k =>
      match onth (node_shares jury) (k - 1) with
      | None => Err Panic
      | Some s => Ok (contribute s (r k) message)
      end) active_jury in
  let osst_ok := match Osst.verify (outer_verification_share jury) contributions (jury_threshold jury) message with
                 | Ok b => b | Err _ => false end in
  if ~~ osst_ok then Ok None
  else
    let inner_nonces := [seq (@inner_commit F P C k (d k) (e k)).1 | k <- active_jury] in
    let inner_commits := [seq (@inner_commit F P C k (d k) (e k)).2 | k <- active_jury] in
    let r_nested := foldl (fun r_nested c =>
        let rho := inner_binding_factor (ic_holder c) message inner_commits in
        r_nested + (ic_hiding c + rho *: ic_binding c)) 0 inner_commits in
    let? (player_nonces, player_commits) := commit (sh_index player_share) pd pe in
    let jury_commits := mkSigningCommitments jury_index r_nested 0 in
    try? outer_package := RedPallasPackage_new message [:: player_commits; jury_commits] in
    try? player_sig := sign outer_package player_nonces player_share (outer_group_pubkey jury) in
    let outer_indices := signer_indices outer_package in
    try? outer_lambda := compute_lagrange_coefficients outer_indices in
    match position jury_index outer_indices with
    | None => Ok None
    | Some nested_pos =>
        let outer_gc := group_commitment outer_package in
        let outer_challenge := challenge outer_package outer_gc (outer_group_pubkey jury) in
        try? inner_lagrange := compute_lagrange_coefficients active_jury in
        let? z_nested := foldl (fun acc nl =>
            (let? z := acc in
             let k := in_holder nl.1 in
             match onth (node_shares jury) (k - 1) with
             | None => Err Panic
             | Some s =>
                 let rho_inner := inner_binding_factor k message inner_commits in
                 let mu_k := nl.2 in
                 let weight := outer_lambda`_nested_pos * outer_challenge * mu_k in
                 Ok (z + (in_hiding nl.1 + rho_inner * in_binding nl.1 + weight * scalar s))
             end)) (Ok 0) (zip inner_nonces inner_lagrange) in
        let jury_sig := mkSignatureShare jury_index z_nested in
        try? signature := aggregate outer_package [:: player_sig; jury_sig] (outer_group_pubkey jury) None in
        if verify_signature (outer_group_pubkey jury) message signature
        then Ok (Some (signature, osst_ok)) else Ok None
    end.

(** * The dispute protocol *)

(** The evidence is passed on to the replay. *)
Record SignedAction := mkSignedAction {
  hand_number : nat; seat : nat; sequence : nat; action : bytes; action_signature : bytes }.

Record DisputeEvidence := mkDisputeEvidence {
  deck_commitment : bytes; deck : bytes; actions : seq SignedAction;
  player_a_pubkey : bytes; player_b_pubkey : bytes; proposed_settlement : bytes }.

Record JuryVerdict := mkJuryVerdict {
  final_stacks : seq nat; settlement_valid : bool; correct_settlement : nat * nat }.

Record DisputeOpen := mkDisputeOpen {
  open_commitment : @SigningCommitments F P; open_player_index : nat;
  open_pczt : bytes; evidence : DisputeEvidence }.

Record JuryAccepted := mkJuryAccepted {
  accepted_commitment : @SigningCommitments F P; accepted_verdict : JuryVerdict }.

Record DisputeResolved := mkDisputeResolved { resolved_signature : Signature; resolved_verdict : JuryVerdict }.

Definition encode_verdict (v : JuryVerdict) : bytes :=
  label "verdict:v1:" ++ flatten [seq to_le_bytes 8 s | s <- final_stacks v]
  ++ to_le_bytes 8 (correct_settlement v).1 ++ to_le_bytes 8 (correct_settlement v).2
  ++ [:: byte_of (settlement_valid v)].

Record PlayerDispute := mkPlayerDispute {
  pd_share : SecretShare; pd_pubkey : P; pd_nonces : option Nonces;
  pd_commitment : @SigningCommitments F P; pd_pczt : bytes }.

Definition player_open (share : SecretShare) (pubkey : P) (pczt : bytes) (ev : DisputeEvidence) (d e : F)
  : result (PlayerDispute * DisputeOpen) :=
  let? (nonces, commitment) := commit (sh_index share) d e in
  Ok (mkPlayerDispute share pubkey (Some nonces) commitment pczt,
      mkDisputeOpen commitment (sh_index share) pczt ev).

(** The answer, and the state after it: the nonces are gone in any case. *)
Definition sign_with_jury (self : PlayerDispute) (accepted : JuryAccepted)
  : result SignatureShare * PlayerDispute :=
  let self' := mkPlayerDispute (pd_share self) (pd_pubkey self) None (pd_commitment self) (pd_pczt self) in
  (match pd_nonces self with
   | None => Err InvalidIndex
   | Some nonces =>
       let? package := RedPallasPackage_new (pd_pczt self) [:: pd_commitment self; accepted_commitment accepted] in
       sign package nonces (pd_share self) (pd_pubkey self)
   end, self').

Record JuryDispute := mkJuryDispute {
  jd_jury : JuryNetwork; jd_index : nat; jd_nonces : option Nonces;
  jd_commitment : @SigningCommitments F P; jd_player : @SigningCommitments F P;
  jd_pczt : bytes; jd_verdict : JuryVerdict }.

Definition jury_accept (jury : JuryNetwork) (open : DisputeOpen)
    (replay_fn : DisputeEvidence -> result JuryVerdict) (r : nat -> F) (d e : F)
  : result (JuryDispute * JuryAccepted) :=
  let jury_index := 3%N in
  let? verdict := replay_fn (evidence open) in
  let verdict_payload := encode_verdict verdict in
  let? _ := jury_consensus jury verdict_payload r in
  let? (nonces, commitment) := commit jury_index d e in
  Ok (mkJuryDispute jury jury_index (Some nonces) commitment (open_commitment open) (open_pczt open) verdict,
      mkJuryAccepted commitment verdict).

Definition jury_resolve (self : JuryDispute) (player_share : SignatureShare)
  : result DisputeResolved * JuryDispute :=
  let self' := mkJuryDispute (jd_jury self) (jd_index self) None (jd_commitment self) (jd_player self)
                 (jd_pczt self) (jd_verdict self) in
  (match jd_nonces self with
   | None => Err InvalidIndex
   | Some nonces =>
       let? package := RedPallasPackage_new (jd_pczt self) [:: jd_player self; jd_commitment self] in
       let? jury_share := jury_sign_share (jd_jury self) nonces package (jd_index self) in
       let? signature := aggregate package [:: player_share; jury_share] (outer_group_pubkey (jd_jury self)) None in
       ensure! verify_signature (outer_group_pubkey (jd_jury self)) (jd_pczt self) signature
         else InvalidResponse ;;
       Ok (mkDisputeResolved signature (jd_verdict self))
   end, self').
End redpallas.

(** * The escrow is a 2-of-3 key *)

Section escrow.
Context {F : fieldType} {P : lmodType F} {C : Curve P} {L : @CurveLaws F P C}.
#[local] Existing Instance redpallas_suite.
Local Abbreviation G := (@generator F P C).
Local Abbreviation from_u32 := (@from_u32 F).

Variables (n t : nat) (draw_a draw_b : nat -> F) (draw_jury : nat -> nat -> nat -> F).
Variables (split_a split_b : nat -> F).
Hypothesis t_gt0 : (0 < t)%N.
Hypothesis t_le_n : (t <= n)%N.
Hypothesis n_u32 : (n < 2 ^ 32)%N.

Definition line (draw : nat -> F) : seq F := [:: draw 0%N; draw 1%N].

Lemma dealer2E i draw :
  (0 < i)%N ->
  Dkg.Dealer_new i 2 draw = Ok (Dkg.mkDealer i (line draw) (mkDealerCommitment i (@committed F P C (line draw)))).
Proof. by move=> i0; rw /Dkg.Dealer_new i0 /from_polynomial i0. Qed.

(** The jury's polynomial, the sharing of its value at [x], the key's polynomial, and
    the sharing of the jury's share. *)
Definition jury_poly : {poly F} := outer_poly n t 2 draw_jury.
Definition jury_eval (x : nat) : {poly F} := eval_poly n t 2 draw_jury (from_u32 x).
Definition escrow_poly : {poly F} := Poly (line draw_a) + Poly (line draw_b) + jury_poly.
Definition node_poly : {poly F} :=
  jury_eval 3 + Poly (Reshare.dealt (Poly (line draw_a)).[from_u32 3] t split_a)
  + Poly (Reshare.dealt (Poly (line draw_b)).[from_u32 3] t split_b).

Definition inner_share (k : nat) : @InnerShare F :=
  mkInnerShare k [seq (coefficient_poly n t draw_jury j).[from_u32 k] | j <- iota 0 2].

Lemma active_valid : valid_indices (iota 1 t).
Proof.
apply/and3P; split; [by rw -size_eq0 size_iota -lt0n|exact: iota_uniq|].
apply/allP => k; rw mem_iota add1n ltnS => /andP[-> kt].
by apply: leq_ltn_trans n_u32; apply: leq_trans kt t_le_n.
Qed.

Lemma reconstruct_evalE x :
  reconstruct_eval [seq inner_share k | k <- iota 1 n] t x = Ok jury_poly.[from_u32 x].
Proof.
rw /reconstruct_eval (compute_lagrangeE (C := C) active_valid) size_iota.
rw [X in zip _ X](iotaDl 1 0) zip_map_r foldl_map.
pose lg k := lagrange [seq from_u32 j | j <- iota 1 t] (from_u32 k).
pose term i := lg (i.+1) * (jury_eval x).[from_u32 i.+1].
transitivity (foldl (fun acc i => (let? v := acc in let? y := Ok (term i) in Ok (v + y))) (Ok 0) (iota 0 t)).
  apply: eq_in_foldl => i; rw mem_iota add0n => /andP[_ it] [acc|//].
  have i_n : (i < n)%N := leq_trans it t_le_n.
  rw [_.2]/= [_.1]/= add1n subn1 onthE -map_comp (nth_map 0%N) ?size_iota // nth_iota // add1n.
  have E : eval_at (inner_share i.+1) x = (jury_eval x).[from_u32 i.+1] := eval_at_share n t 2 draw_jury i.+1 x.
  by rw [(Some \o _) _](_ : _ = Some (inner_share i.+1)) // E (nth_map 0%N) ?size_iota // nth_iota // add1n.
apply: (etrans (foldl_result_add (h := fun i => Ok (term i)) 0 _ (fun=> erefl))).
rw add0r -(eval_poly_0 n t 2 draw_jury (from_u32 x)).
rw -(shares_interpolate (C := C) active_valid) ?size_iota ?size_eval_poly //.
rw [X in _ = Ok (\sum_(_ <- X) _)](iotaDl 1 0) big_map; congr Ok.
Qed.

Definition split_pieces (x : F) (draw : nat -> F) : seq (nat * F) :=
  [seq (k, (Poly (Reshare.dealt x t draw)).[from_u32 k]) | k <- iota 1 n].

Lemma split_evaluationE x draw :
  split_evaluation_for_inner x n t draw
  = Ok (split_pieces x draw, mkDealerCommitment 1 (@committed F P C (Reshare.dealt x t draw))).
Proof.
rw /split_evaluation_for_inner /from_polynomial [(0 < 1)%N]/= [size _ != 0%N]/=; congr (Ok (_, _)).
by apply: eq_map => k; rw power_sumE.
Qed.

Lemma pieces_nth x draw k :
  (k < n)%N -> onth (split_pieces x draw) k = Some (k.+1, (Poly (Reshare.dealt x t draw)).[from_u32 k.+1]).
Proof. by move=> kn; rw onthE -map_comp (nth_map 0%N) ?size_iota // nth_iota. Qed.

Lemma verify_piece x draw k :
  verify_split_piece (mkDealerCommitment 1 (@committed F P C (Reshare.dealt x t draw))) k.+1
    (Poly (Reshare.dealt x t draw)).[from_u32 k.+1].
Proof. by rw /verify_split_piece verify_subshareE points_at_committed eqxx. Qed.

Local Abbreviation eval_a := (Poly (line draw_a)).[from_u32 3].
Local Abbreviation eval_b := (Poly (line draw_b)).[from_u32 3].

Lemma jury_node_shareE k :
  (k < n)%N ->
  jury_node_share [seq inner_share k | k <- iota 1 n] (split_pieces eval_a split_a) (split_pieces eval_b split_b)
    (mkDealerCommitment 1 (@committed F P C (Reshare.dealt eval_a t split_a)))
    (mkDealerCommitment 1 (committed (Reshare.dealt eval_b t split_b))) 3 k
  = Ok (mkSecretShare k.+1 node_poly.[from_u32 k.+1]).
Proof.
move=> kn; rw /jury_node_share !pieces_nth // onthE -map_comp (nth_map 0%N) ?size_iota // nth_iota //.
rw [(Some \o _) _](_ : _ = Some (inner_share k.+1)) // !verify_piece /SecretShare_new ltn0Sn; congr (Ok (mkSecretShare _ _)).
have E : eval_at (inner_share k.+1) 3 = (jury_eval 3).[from_u32 k.+1] := eval_at_share n t 2 draw_jury k.+1 3.
by rw /combine_shares E /node_poly !hornerD.
Qed.

Lemma node_poly_size : (size node_poly <= t)%N.
Proof.
apply: size_add_le; last exact: size_dealt.
by apply: size_add_le; [apply: size_eval_poly|apply: size_dealt].
Qed.

Lemma escrow_poly_size : (size escrow_poly <= 2)%N.
Proof. by apply: size_add_le; [apply: size_add_le|]; rw (leq_trans (size_Poly _)) // size_map size_iota. Qed.

(** The nodes share the jury's share of the key. *)
Lemma node_poly_0 : node_poly.[0] = escrow_poly.[from_u32 3].
Proof.
rw /node_poly hornerD [X in X + _]hornerD !dealt_0.
have -> : (jury_eval 3).[0] = jury_poly.[from_u32 3] := eval_poly_0 n t 2 draw_jury (from_u32 3).
by rw /escrow_poly hornerD [X in _ = X + _]hornerD -addrA addrC.
Qed.

Lemma nested_verification_shareE :
  nested_verification_share (eval_a *: G) (eval_b *: G)
    [seq (coefficient_poly n t draw_jury j).[0] *: G | j <- iota 0 2] (from_u32 3)
  = escrow_poly.[from_u32 3] *: G.
Proof.
rw /nested_verification_share /= mul1r scale1r scalerA -!scalerDl; congr (_ *: G).
rw /escrow_poly hornerD [X in _ = X + _]hornerD -addrA; congr (_ + _).
by rw /jury_poly /outer_poly [RHS]horner_Poly /= mul0r add0r [from_u32 3 * _]mulrC addrC.
Qed.

Lemma deal2E i draw j :
  (0 < i)%N -> (0 < j)%N ->
  Dkg.generate_subshare (Dkg.mkDealer i (line draw) (mkDealerCommitment i (@committed F P C (line draw)))) j
  = Ok (mkSubShare i j (Poly (line draw)).[from_u32 j]).
Proof. by move=> i0 j0; rw Dkg.dkg_generate_subshareE. Qed.

Definition escrow_seed : bytes :=
  blake2b (label "frostito_fvk_sd_")
    (scalar_to_bytes escrow_poly.[from_u32 1] ++ scalar_to_bytes escrow_poly.[from_u32 2]
     ++ compress (escrow_poly.[0] *: G)).

Definition escrow_jury : @JuryNetwork F P :=
  mkJuryNetwork [seq mkSecretShare k node_poly.[from_u32 k] | k <- iota 1 n] t
    (escrow_poly.[from_u32 3] *: G) (escrow_poly.[0] *: G) escrow_seed.

Lemma escrow_at x : escrow_poly.[x] = (Poly (line draw_a)).[x] + (Poly (line draw_b)).[x] + jury_poly.[x].
Proof. by rw /escrow_poly hornerD [X in X + _ = _]hornerD. Qed.

Lemma line_0 draw : (Poly (line draw)).[0] = draw 0%N.
Proof. by rw horner_Poly /= mulr0 add0r. Qed.

Lemma SecretShare_newE i (x : F) : (0 < i)%N -> SecretShare_new i x = Ok (mkSecretShare i x).
Proof. by rw /SecretShare_new => ->. Qed.

Lemma dealer_commitment i s (c : @DealerCommitment F P) : Dkg.commitment (Dkg.mkDealer i s c) = c.
Proof. by []. Qed.

Lemma line_commitment i draw :
  share_commitment (mkDealerCommitment i (@committed F P C (line draw))) = Ok ((Poly (line draw)).[0] *: G).
Proof. by rw share_commitmentE ?points_at_committed. Qed.

Lemma line_evaluation i draw j :
  (0 < j)%N ->
  evaluate_at (mkDealerCommitment i (@committed F P C (line draw))) j = Ok ((Poly (line draw)).[from_u32 j] *: G).
Proof. by move=> j0; rw evaluate_atE // points_at_committed. Qed.

Lemma setup_escrowE :
  setup_escrow n t draw_a draw_b draw_jury split_a split_b
  = Ok (mkSecretShare 1 escrow_poly.[from_u32 1], mkSecretShare 2 escrow_poly.[from_u32 2],
        escrow_jury, escrow_poly.[0] *: G).
Proof.
rw /setup_escrow !dealer2E // interleaved_dkgE // !reconstruct_evalE !deal2E // !split_evaluationE.
rw (_ : iota 0 n = [seq k.-1 | k <- iota 1 n]); first by rw (iotaDl 1 0) -map_comp map_id_in.
rw traverse_map (traverse_ok (g := fun k => mkSecretShare k node_poly.[from_u32 k])) => [k|].
  rw mem_iota add1n ltnS => /andP[k0 kn].
  by rw jury_node_shareE ?prednK // -ltnS prednK.
rw ![value _]/= -!escrow_at !SecretShare_newE // !dealer_commitment !line_commitment !line_evaluation //.
rw nested_verification_shareE [map _ (iota 0 2)]/=.
have EY : (Poly (line draw_a)).[0] *: G + (Poly (line draw_b)).[0] *: G + (coefficient_poly n t draw_jury 0).[0] *: G
          = escrow_poly.[0] *: G.
  by rw escrow_at -!scalerDl /jury_poly /outer_poly [in RHS](horner_Poly [seq _ | _ <- _]) /= mulr0 add0r.
by rw EY.
Qed.
End escrow.

(** * What the jury signs *)

Section signing.
Context {F : fieldType} {P : lmodType F} {C : Curve P} {L : @CurveLaws F P C}.
#[local] Existing Instance redpallas_suite.
Local Abbreviation G := (@generator F P C).
Local Abbreviation from_u32 := (@from_u32 F).
Local Abbreviation Nonces := (@Nonces F).

(** The jury's [n] nodes share, by [h], position 3 of the key [f]. *)
Record jury_holds (f h : {poly F}) n (jury : @JuryNetwork F P) : Prop := {
  jh_shares : node_shares jury = [seq mkSecretShare k h.[from_u32 k] | k <- iota 1 n];
  jh_size : (size h <= jury_threshold jury)%N;
  jh_threshold : (0 < jury_threshold jury <= n)%N;
  jh_u32 : (n < 2 ^ 32)%N;
  jh_secret : h.[0] = f.[from_u32 3];
  jh_vshare : outer_verification_share jury = f.[from_u32 3] *: G;
  jh_key : outer_group_pubkey jury = f.[0] *: G;
  jh_degree : (size f <= 2)%N;
}.

Variables (f h : {poly F}) (n : nat) (jury : @JuryNetwork F P).
Hypothesis J : jury_holds f h n jury.
Local Abbreviation t := (jury_threshold jury).

Definition contributions_of (payload : bytes) (r : nat -> F) : seq (@Contribution F P) :=
  [seq contribute (mkSecretShare k h.[from_u32 k]) (r k) payload | k <- iota 1 t].

(** None of the jury's challenges hashes to zero. *)
Definition live_challenges payload r : bool := all (fun c => Osst.challenge payload c != 0) (contributions_of payload r).

Lemma nodes_valid : valid_indices (iota 1 t).
Proof. by case/andP: (jh_threshold J) => t0 tn; apply: (active_valid (n := n)) (jh_u32 J). Qed.

Lemma active_sharesE : active_shares jury = Ok [seq mkSecretShare k h.[from_u32 k] | k <- iota 1 t].
Proof.
case/andP: (jh_threshold J) => _ tn.
by rw /active_shares (jh_shares J) size_map size_iota tn -map_take take_iota (minn_idPl tn).
Qed.

Lemma active_indices : [seq sh_index s | s <- [seq mkSecretShare k h.[from_u32 k] | k <- iota 1 t]] = iota 1 t.
Proof. by rw -map_comp map_id_in. Qed.

Lemma reconstruct_secretE :
  reconstruct_secret [seq mkSecretShare k h.[from_u32 k] | k <- iota 1 t] = Ok f.[from_u32 3].
Proof.
rw /reconstruct_secret active_indices (compute_lagrangeE (C := C) nodes_valid) zip_map2 foldl_map.
rw foldl_add add0r -(jh_secret J) -(shares_interpolate (C := C) nodes_valid) //.
by rw size_iota (jh_size J).
Qed.

Lemma osst_accepts payload r :
  live_challenges payload r ->
  Osst.verify (f.[from_u32 3] *: G) (contributions_of payload r) t payload = Ok true.
Proof.
move=> ch; rw -(jh_secret J); apply: honest_verify => //; first exact: jh_size J.
- by rw size_map size_iota.
- by rw -map_comp map_id_in // nodes_valid.
- by move=> c /mapP[k _ ->]; exists (r k).
Qed.

Lemma jury_consensusE payload r : live_challenges payload r -> jury_consensus jury payload r = Ok tt.
Proof.
move=> ch; rw /jury_consensus active_sharesE reconstruct_secretE -map_comp.
by have := osst_accepts ch; rw /contributions_of => ->.
Qed.

Lemma sign_Frost p (ns : Nonces) share Y : sign p ns share Y = Frost.sign p ns share Y.
Proof.
rw /sign /Frost.sign; case: ifP => // _; case: compute_lagrange_coefficients => // l.
by case: position => // i; rw /compute_response mulrA.
Qed.

Lemma jury_sign_shareE p (ns : Nonces) :
  package_ok p -> u32_signers p -> 3%N \in signer_indices p ->
  jury_sign_share jury ns p 3 = Ok (mkSignatureShare 3 (response p ns 3 f.[from_u32 3] (f.[0] *: G))).
Proof.
move=> okp ps ip; rw /jury_sign_share (compute_lagrangeE (C := C) (package_valid okp ps)) active_sharesE reconstruct_secretE (jh_key J).
have [-> E] := position_nth (lam p) ip; congr (Ok (mkSignatureShare _ _)).
by rw sign_compute_response; congr compute_response.
Qed.

Lemma node_nth k :
  k \in iota 1 t -> onth (node_shares jury) (k - 1) = Some (mkSecretShare k h.[from_u32 k]).
Proof.
case/andP: (jh_threshold J) => _ tn; rw mem_iota add1n ltnS => /andP[k0 kt].
have lk : (k - 1 < n)%N by rw subn1 prednK // (leq_trans kt).
by rw (jh_shares J) onthE -map_comp (nth_map 0%N) ?size_iota //= nth_iota // subn1 add1n prednK.
Qed.

(** The sum of the nodes' responses. *)
Lemma nested_sumE d e params msg :
  foldl (fun acc nl =>
      (let? z := acc in
       let k := in_holder nl.1 in
       match onth (node_shares jury) (k - 1) with
       | None => Err Panic
       | Some s =>
           let rho_inner := inner_binding_factor k msg (inner_commitments (iota 1 t) d e) in
           let mu_k := nl.2 in
           let weight := outer_lambda params * outer_challenge params * mu_k in
           Ok (z + (in_hiding nl.1 + rho_inner * in_binding nl.1 + weight * scalar s))
       end)) (Ok 0)
    (zip [seq (@inner_commit F P C k (d k) (e k)).1 | k <- iota 1 t]
         [seq lagrange [seq from_u32 j | j <- iota 1 t] (from_u32 k) | k <- iota 1 t])
  = Ok (\sum_(k <- iota 1 t)
          @inner_response F P C redpallas_suite (iota 1 t) d e (fun k => h.[from_u32 k]) params msg k).
Proof.
rw zip_map2 foldl_map; set g := inner_response _ _ _ _ _ _.
rw (eq_in_foldl (g := fun acc k => (let? v := acc in let? y := Ok (g k) in Ok (v + y)))) => [k kS [acc|//]|].
  by move=> /=; rw node_nth.
by rw (foldl_result_add (h := fun k => Ok (g k)) 0 _ (fun=> erefl)) add0r.
Qed.

Lemma nested_signE b msg r d e pd pe :
  valid_indices [:: b; 3%N] -> live_challenges msg r ->
  exists2 sig, nested_redpallas_sign jury (mkSecretShare b f.[from_u32 b]) msg r d e pd pe = Ok (Some (sig, true))
    & verify_signature (f.[0] *: G) msg sig.
Proof.
move=> vb ch; have b0 : (0 < b)%N by case/and3P: vb => _ _ /andP[/andP[]].
rw /nested_redpallas_sign active_sharesE active_indices.
rw (traverse_ok (g := fun k => contribute (mkSecretShare k h.[from_u32 k]) (r k) msg)) => [k kS|]; first by rw node_nth.
rw (jh_vshare J) (osst_accepts ch) /commit b0 [~~ true]/= (jh_key J).
rw -/(inner_commitments (iota 1 t) d e) -/(aggregate_inner_commitments _ _).
set R := aggregate_inner_commitments _ _.
have [p pp] := pair_packageP msg (mkNonces pd pe) R 0 vb; rw /RedPallasPackage_new (pair_new pp).
have jp : 3%N \in signer_indices p by rw -(perm_mem (pair_indices pp)) inE mem_head orbT.
have bp : b \in signer_indices p by rw -(perm_mem (pair_indices pp)) mem_head.
have okp := pair_ok pp; have ps := pair_u32 pp; rw sign_Frost signE //.
rw (compute_lagrangeE (C := C) (package_valid okp ps)) (compute_lagrangeE (C := C) nodes_valid).
have [-> lE] := position_nth (lam p) jp.
rw lE; set params := mkParams (sig_challenge p (f.[0] *: G)) (lam p 3).
have := nested_sumE d e params msg; rw [outer_lambda _]/= [outer_challenge _]/= => ->.
set z := \sum_(k <- _) _.
have zE : z *: G = R + binding_factor p 3 *: 0 + (lam p 3 * sig_challenge p (f.[0] *: G)) *: (f.[from_u32 3] *: G).
  by rw scaler0 addr0 (response_sum _ _ params _ nodes_valid) ?size_iota ?(jh_size J) // (jh_secret J).
have [_ A V] := pair_signs (jh_degree J) pp zE; rw /aggregate A /verify_signature V.
by eexists.
Qed.

(** The dispute protocol between the holder of share [b] and the jury. *)
Definition dispute_run (b : nat) (pczt : bytes) (ev : DisputeEvidence) (replay : DisputeEvidence -> result JuryVerdict)
    (pd pe : F) (r : nat -> F) (jd je : F) : result (@DisputeResolved F P) :=
  let? (player, open) := player_open (mkSecretShare b f.[from_u32 b]) (f.[0] *: G) pczt ev pd pe in
  let? (coordinator, accepted) := jury_accept jury open replay r jd je in
  let? share := (sign_with_jury player accepted).1 in
  (jury_resolve coordinator share).1.

(** A dispute ends in a signature of what the player submitted: whenever the replay
    yields a verdict, and whatever that verdict says of the proposed settlement, the
    protocol runs to the end and the resulting signature verifies under the escrow's
    key for the player's transaction. *)
Lemma dispute_signs b pczt ev replay verdict pd pe r jd je :
  valid_indices [:: b; 3%N] -> replay ev = Ok verdict -> live_challenges (encode_verdict verdict) r ->
  exists2 sig, dispute_run b pczt ev replay pd pe r jd je = Ok (mkDisputeResolved sig verdict)
    & verify_signature (f.[0] *: G) pczt sig.
Proof.
move=> vb rp ch; have b0 : (0 < b)%N by case/and3P: vb => _ _ /andP[/andP[]].
rw /dispute_run /player_open /commit b0 /jury_accept [evidence _]/= rp (jury_consensusE ch).
rw /commit [(0 < 3)%N]/= /sign_with_jury /jury_resolve /RedPallasPackage_new /=.
have [p pp] := pair_packageP pczt (mkNonces pd pe) (jd *: G) (je *: G) vb; have E := pair_new pp; simpl in E; rw E.
have okp := pair_ok pp; have ps := pair_u32 pp.
have jp : 3%N \in signer_indices p by rw -(perm_mem (pair_indices pp)) inE mem_head orbT.
have bp : b \in signer_indices p by rw -(perm_mem (pair_indices pp)) mem_head.
rw sign_Frost signE // jury_sign_shareE // (jh_key J).
set z := response p (mkNonces jd je) 3 _ _.
have zE : z *: G = jd *: G + binding_factor p 3 *: (je *: G)
                   + (lam p 3 * sig_challenge p (f.[0] *: G)) *: (f.[from_u32 3] *: G).
  by rw (response_point (n := mkNonces jd je)) /share_point (pair_j pp).
have [_ A V] := pair_signs (jh_degree J) pp zE; rw /aggregate A /verify_signature V.
by eexists.
Qed.

(** Each side answers once: the nonces are gone after the first answer, also when it
    was an error. *)
Lemma answers_once (pd : @PlayerDispute F P) (jd : @JuryDispute F P) acc share acc' share' :
  (sign_with_jury (sign_with_jury pd acc).2 acc').1 = Err InvalidIndex
  /\ (jury_resolve (jury_resolve jd share).2 share').1 = Err InvalidIndex.
Proof. by []. Qed.
End signing.

Lemma escrow_jury_holds (F : fieldType) (P : lmodType F) (C : Curve P)
    n t draw_a draw_b draw_jury split_a split_b :
  (0 < t <= n)%N -> (n < 2 ^ 32)%N ->
  @jury_holds F P C (escrow_poly n t draw_a draw_b draw_jury)
    (node_poly n t draw_a draw_b draw_jury split_a split_b) n
    (escrow_jury n t draw_a draw_b draw_jury split_a split_b).
Proof.
move=> tn nu; case/andP: (tn) => t0 tle; split=> //.
- exact: node_poly_size.
- exact: node_poly_0.
- exact: escrow_poly_size.
Qed.

(** C6.  A table set up as an escrow can always be settled by one player and the jury:
    after [setup_escrow], whatever was drawn, either player and a threshold of the
    jury's nodes produce a signature that verifies under the escrow's key, without
    the jury's share being assembled, as long as the hash that challenges a node of the jury
    is zero for none of them. *)
Theorem escrow_settles (F : fieldType) (P : lmodType F) (C : Curve P) (L : CurveLaws)
    n t draw_a draw_b draw_jury split_a split_b :
  (0 < t <= n)%N -> (n < 2 ^ 32)%N ->
  exists a b jury Y, setup_escrow n t draw_a draw_b draw_jury split_a split_b = Ok (a, b, jury, Y)
    /\ forall player msg r d e pd pe,
         player = a \/ player = b ->
         all (fun c => Osst.challenge msg c != 0) [seq contribute s (r (sh_index s)) msg | s <- take t (node_shares jury)] ->
         exists2 sig, nested_redpallas_sign jury player msg r d e pd pe = Ok (Some (sig, true))
           & @verify_signature F P C Y msg sig.
Proof.
move=> tn nu; case/andP: (tn) => t0 tle.
rw setup_escrowE //; do 4!eexists; split; first by [].
have J := escrow_jury_holds C draw_a draw_b draw_jury split_a split_b tn nu.
move=> player msg r d e pd pe pab ch.
have [b vb ->] : exists2 b, valid_indices [:: b; 3%N] & player = mkSecretShare b (escrow_poly n t draw_a draw_b draw_jury).[from_u32 b].
  by case: pab => ->; [exists 1%N|exists 2%N].
apply: (nested_signE J) => //; rw /live_challenges /contributions_of.
by move: ch; rw -map_take take_iota (minn_idPl tle) -map_comp.
Qed.

(** * Witnesses *)

Section witnesses.
Import Demo.
#[local] Existing Instance redpallas_suite.
Local Abbreviation G := (@generator Q QP rat_curve).

Definition demo_draw (i : nat) : Q := i.+1%:R.
Definition demo_inner (j k i : nat) : Q := (j + k + i)%:R.
Definition demo_escrow : @JuryNetwork Q QP := escrow_jury 3 2 demo_draw demo_draw demo_inner demo_draw demo_draw.
Definition demo_key : {poly Q} := escrow_poly 3 2 demo_draw demo_draw demo_inner.

Lemma escrow_settles_witness :
  exists a b jury Y,
    @setup_escrow Q QP rat_curve 3 2 demo_draw demo_draw demo_inner demo_draw demo_draw = Ok (a, b, jury, Y)
    /\ exists2 sig, nested_redpallas_sign jury b demo_payload demo_draw demo_draw demo_draw 4%:R 9%:R = Ok (Some (sig, true))
         & @verify_signature Q QP rat_curve Y demo_payload sig.
Proof.
have [//|//|a [b [jury [Y [E H]]]]] :=
  @escrow_settles Q QP rat_curve rat_laws 3 2 demo_draw demo_draw demo_inner demo_draw demo_draw.
exists a, b, jury, Y; split=> //; apply: H; first by right.
by apply/allP => c _; apply: wide_neq0.
Defined.

(** The replay finds the settlement invalid. *)
Definition demo_verdict : JuryVerdict := mkJuryVerdict [:: 500; 1500]%N false (500, 1500)%N.
Definition demo_evidence : DisputeEvidence := mkDisputeEvidence [::] [::] [::] [::] [::] [::].

Lemma dispute_signs_witness :
  exists2 sig, @dispute_run Q QP rat_curve demo_key demo_escrow 1 demo_payload demo_evidence
                 (fun _ => Ok demo_verdict) 4%:R 9%:R demo_draw 2%:R 5%:R
               = Ok (mkDisputeResolved sig demo_verdict)
    & @verify_signature Q QP rat_curve (demo_key.[0] *: G) demo_payload sig.
Proof.
have J := escrow_jury_holds rat_curve demo_draw demo_draw demo_inner demo_draw demo_draw (isT : (0 < 2 <= 3)%N) isT.
apply: (dispute_signs J) => //.
Defined.
End witnesses.
