(* ===== verification/NarBft.v ===== *)
(** Rounds of a syndicate with instant finality, [crates/narsil/src/bft.rs]: the members'
    identification proofs of [Osst.v] on the payload of a round are its certificate.

    SHA-256 is a parameter; the nonces members draw are arguments of [contribute]. *)
From Stdlib Require Import Init.Byte.
From mathcomp Require Import ssreflect ssrfun ssrbool eqtype ssrnat seq path div choice fintype bigop ssralg poly.
From S2P Require Import OsstCurve Osst.

Set Implicit Arguments.
Unset Strict Implicit.
Unset Printing Implicit Defensive.

Import GRing.Theory.
Local Open Scope ring_scope.

Inductive InvalidStateReason := RoundNotOpen | OsstVerificationFailed.

Inductive RoundError :=
| InsufficientContributions (got need : nat)
| VerificationFailed (e : OsstError)
| InvalidState (reason : InvalidStateReason)
| WrongProposer (expected got : nat)
| DuplicateContribution (i : nat).

Inductive round_result (T : Type) :=
| ROk (t : T)
| RErr (e : RoundError).
Arguments ROk {T}.
Arguments RErr {T}.

Inductive RoundState := Open | Finalized | Failed.

Definition is_open (s : RoundState) : bool := if s is Open then true else false.

Section rounds.
Context {F : fieldType} {P : lmodType F} {C : Curve P}.
Context (sha256 : bytes -> bytes).
Local Abbreviation Contribution := (@Contribution F P).

Record Round := mkRound {
  height : nat;
  proposer : nat;
  r_payload : bytes;
  r_contributions : seq Contribution;
  r_state : RoundState;
}.

Record FinalizedBlock := mkFinalizedBlock {
  b_height : nat;
  b_proposer : nat;
  b_payload : bytes;
  b_contributions : seq Contribution;
}.

Definition propose (height proposer : nat) (payload : bytes) : Round :=
  mkRound height proposer payload [::] Open.

(** [height || proposer || sha256(height || proposer || payload)] *)
Definition bound_payload (height proposer : nat) (payload : bytes) : bytes :=
  let head := to_le_bytes 8 height ++ to_le_bytes 4 proposer in
  head ++ sha256 (head ++ payload).

Definition signing_payload (r : Round) : bytes := bound_payload (height r) (proposer r) (r_payload r).

Definition round_contribute (r : Round) (share : @SecretShare F) (nonce : F) : Contribution :=
  contribute share nonce (signing_payload r).

Definition add_contribution (r : Round) (c : Contribution) : round_result Round :=
  if ~~ is_open (r_state r) then RErr (InvalidState RoundNotOpen)
  else if has (fun x => index x == index c) (r_contributions r) then RErr (DuplicateContribution (index c))
  else ROk (mkRound (height r) (proposer r) (r_payload r) (rcons (r_contributions r) c) (r_state r)).

Definition can_finalize (r : Round) (threshold : nat) : bool :=
  is_open (r_state r) && (threshold <= size (r_contributions r))%N.

Definition finalize (r : Round) (threshold : nat) (group_pubkey : P) : round_result FinalizedBlock :=
  if ~~ is_open (r_state r) then RErr (InvalidState RoundNotOpen)
  else if (size (r_contributions r) < threshold)%N
  then RErr (InsufficientContributions (size (r_contributions r)) threshold)
  else
    match verify group_pubkey (r_contributions r) threshold (signing_payload r) with
    | Err e => RErr (VerificationFailed e)
    | Ok false => RErr (InvalidState OsstVerificationFailed)
    | Ok true => ROk (mkFinalizedBlock (height r) (proposer r) (r_payload r) (r_contributions r))
    end.

Definition block_verify (b : FinalizedBlock) (group_pubkey : P) (threshold : nat) : result bool :=
  verify group_pubkey (b_contributions b) threshold (bound_payload (b_height b) (b_proposer b) (b_payload b)).

Definition block_hash (b : FinalizedBlock) : bytes :=
  sha256 (to_le_bytes 8 (b_height b) ++ to_le_bytes 4 (b_proposer b) ++ b_payload b
          ++ flatten [seq to_le_bytes 4 (index c) ++ compress (commitment c) | c <- b_contributions b]).

(** [None] is the division by zero. *)
Definition proposer_for_height (height num_members : nat) : option nat :=
  if num_members == 0%N then None else Some (height %% num_members).+1.

(** One contribution after the other. *)
Definition add_all (r : Round) (cs : seq Contribution) : round_result Round :=
  foldl (fun x c => if x is ROk r then add_contribution r c else x) (ROk r) cs.

Lemma add_allE r cs :
  is_open (r_state r) -> uniq [seq index c | c <- r_contributions r ++ cs] ->
  add_all r cs = ROk (mkRound (height r) (proposer r) (r_payload r) (r_contributions r ++ cs) (r_state r)).
Proof.
elim: cs r => [|c cs IH] r op us; first by rw cats0; case: r op us.
have hF : has (fun x => index x == index c) (r_contributions r) = false.
  apply/negbTE; rw -all_predC; apply/allP => x xr /=; apply/eqP => E.
  move: us; rw map_cat cat_uniq => /and3P[_ /hasPn /(_ (index c))].
  by rw mem_head => /(_ isT) /= /negP[]; rw -E map_f.
rw /add_all /= {2}/add_contribution op hF /=.
by rw -/(add_all _ cs) IH ?cat_rcons.
Qed.

(** C27.  Whatever nonces a threshold of distinct shareholders draw, their contributions
    to a round are taken in any order, the round can be finalized with them, and the block
    it gives is the proposed one and verifies under the group key (unless a challenge
    hashes to zero). *)
Theorem honest_round_finalizes {L : @CurveLaws F P C} (f : {poly F}) height proposer payload cs t :
  (size f <= t)%N -> (t <= size cs)%N -> valid_indices [seq index c | c <- cs] ->
  all (fun c => challenge (bound_payload height proposer payload) c != 0) cs ->
  {in cs, forall c, exists nonce,
     c = round_contribute (propose height proposer payload) (mkSecretShare (index c) f.[from_u32 (index c)]) nonce} ->
  exists r, let b := mkFinalizedBlock height proposer payload cs in
    [/\ add_all (propose height proposer payload) cs = ROk r, can_finalize r t,
        finalize r t (f.[0] *: generator) = ROk b & block_verify b (f.[0] *: generator) t = Ok true].
Proof.
move=> sf tc vs cn0 hon; have us : uniq [seq index c | c <- cs] by case/and3P: vs.
have V := honest_verify sf tc vs cn0 hon.
exists (mkRound height proposer payload cs Open); split.
- by rw add_allE.
- by rw /can_finalize tc.
- by rw /finalize /= ltnNge tc /signing_payload /= V.
- exact: V.
Qed.

(** What a finalized block stands on. *)
Lemma finalized_verifies r t Y b :
  finalize r t Y = ROk b ->
  [/\ b = mkFinalizedBlock (height r) (proposer r) (r_payload r) (r_contributions r), (t <= size (b_contributions b))%N,
      uniq [seq index c | c <- b_contributions b] & block_verify b Y t = Ok true].
Proof.
rw /finalize; case: is_open => //=; case: ltnP => // tc.
case E: verify => [[]|] // [<-]; split=> //.
by have /verify_defined /and5P[] : exists v, verify Y (r_contributions r) t (signing_payload r) = Ok v by exists true.
Qed.

(** A round takes contributions without looking at them: one that is wrong, in the
    name of any member, keeps the round of all the others from being finalized, and keeps
    that member's own contribution out. *)
Lemma one_bad_contribution_blocks {L : @CurveLaws F P C} (f : {poly F}) height proposer payload cs t c0 e c1 :
  (size f <= t)%N -> (t <= size cs)%N -> valid_indices [seq index c | c <- cs] ->
  all (fun c => challenge (bound_payload height proposer payload) c != 0) cs -> c0 \in cs -> e != 0 ->
  off_by f (bound_payload height proposer payload) c0 e ->
  {in cs, forall c, c != c0 -> off_by f (bound_payload height proposer payload) c 0} ->
  index c1 = index c0 ->
  exists r, [/\ add_all (propose height proposer payload) cs = ROk r, can_finalize r t,
                finalize r t (f.[0] *: generator) = RErr (InvalidState OsstVerificationFailed)
              & add_contribution r c1 = RErr (DuplicateContribution (index c0))].
Proof.
move=> sf tc vs cn0 c0cs en0 bad hon E; have us : uniq [seq index c | c <- cs] by case/and3P: vs.
pose d c := if c == c0 then e else 0.
have H : {in cs, forall c, off_by f (bound_payload height proposer payload) c (d c)}.
  by move=> c ccs; rw /d; case: eqVneq => [->|/hon]; last apply.
exists (mkRound height proposer payload cs Open); split.
- by rw add_allE.
- by rw /can_finalize tc.
- rw /finalize /= ltnNge tc /signing_payload /= (verify_balance vs cn0 tc (leq_trans sf tc) H).
  rw (bigD1_seq c0) //= /d ?eqxx; first by move/map_uniq: us.
  rw big1 ?addr0 => [c /negbTE ->|]; first exact: mulr0.
  by rw mulf_eq0 (negbTE (mu_neq0 vs cn0 c0cs)) (negbTE en0).
- rw /add_contribution /=; case: hasP => [_|[]]; first by rw E.
  by exists c0; rw ?E.
Qed.
End rounds.

(** * Witnesses *)

Section witnesses.
Import Demo.

(** A round of the two shareholders of [Osst.demo_poly]; the hash is the identity. *)
Definition demo_round : @Round Q QP := propose 7 2 [:: x01].
Definition demo_votes : seq (@Contribution Q QP) :=
  [:: round_contribute id demo_round (demo_share 1) 4%:R; round_contribute id demo_round (demo_share 3) 9%:R].

Lemma honest_round_finalizes_witness :
  exists r, add_all demo_round demo_votes = ROk r /\
    finalize id r 2 (demo_poly.[0] *: generator) = ROk (mkFinalizedBlock 7 2 [:: x01] demo_votes).
Proof.
case: (@honest_round_finalizes Q QP _ id _ demo_poly 7 2 [:: x01] demo_votes 2 demo_poly_size isT isT).
- by [].
- by move=> c; rw !inE => /orP[] /eqP ->; [exists 4%:R|exists 9%:R].
- by move=> r [H1 _ H2 _]; exists r.
Defined.

(** The second response is one too large; the first shareholder sends the right one. *)
Definition demo_bad_vote : @Contribution Q QP :=
  let c := round_contribute id demo_round (demo_share 3) 9%:R in
  mkContribution (index c) (commitment c) (response c + 1).

Lemma one_bad_contribution_blocks_witness :
  exists r, add_all demo_round [:: round_contribute id demo_round (demo_share 1) 4%:R; demo_bad_vote] = ROk r /\
    finalize id r 2 (demo_poly.[0] *: generator) = RErr (InvalidState OsstVerificationFailed) /\
    add_contribution r (round_contribute id demo_round (demo_share 3) 9%:R) = RErr (DuplicateContribution 3).
Proof.
case: (@one_bad_contribution_blocks Q QP _ id _ demo_poly 7 2 [:: x01]
  [:: round_contribute id demo_round (demo_share 1) 4%:R; demo_bad_vote] 2 demo_bad_vote 1
  (round_contribute id demo_round (demo_share 3) 9%:R) demo_poly_size isT isT).
- by [].
- by rw !inE eqxx orbT.
- exact: oner_neq0.
- by exists 9%:R.
- by move=> c; rw !inE => /orP[] /eqP -> => [_|]; [exists 4%:R; rw /= ?addr0 | rw eqxx].
- by [].
- by move=> r [H1 _ H2 H3]; exists r.
Defined.
End witnesses.
